(* ===== verification/_CoqProject ===== *)
-Q . S2P
Prelude.v
Bytes.v
Utf8.v
Text.v
Codec.v
Error.v
LOPath.v
Port.v
Arena.v
Net.v
Prim.v
Wiring.v
Examples.v
Rules.v
RuleSpecs.v
CanonSpecs.v
Sweep.v
ReduceSpecs.v
Canon.v
CanonSpec.v
BlobSpec.v
Effect.v
Term.v
Kernel.v
Typing.v
AdmissionSpec.v
Scoping.v
Extract.v
Wire.v
Dist.v
DistSpec.v
StorePath.v
Fs.v
NixTree.v
Store.v
StoreSpec.v
Drv.v
DrvSpec.v
RealizeSpec.v
Daemon.v
Answers.v
DaemonSpec.v
Ast.v
Pass0.v
Pass1.v
Share.v
Elab.v
Open.v
ElabSpec.v
Read.v
ReadSpec.v
Erase.v
NixVal.v
PyParse.v
PyParseSpec.v
PyLower.v
PyLowerSpec.v
Json.v
Builtins.v
JsonSpec.v
BuiltinsSpec.v
NixLower.v
NixLowerSpec.v
Whnf.v
WhnfSpec.v
Lower.v
LowerSpec.v
Parallel.v
ParallelSpec.v
HandlersSpec.v
Runtime.v
RuntimeSpec.v
TestRunner.v
TestRunnerSpec.v
Flake.v
FlakeSpec.v
Surface.v
SurfaceSpec.v
Sched.v
Gpu.v
