(* ===== verification/Prelude.v ===== *)
(** * dnx: a verification library

    dnx evaluates lambda terms and Nix, Python and TypeScript programs by
    reducing interaction nets (the Delta-nets of its design notes), certifies
    and ships normal nets, builds derivations into a content-addressed store,
    and checks proofs with a small dependently typed kernel.  This library
    models the program from the front ends to the daemon and proves what makes
    its parts correct.

    ** Conventions

    State is passed explicitly: an operation on [&mut Net], on a directory or
    on a daemon returns the new state.  A result is [Ok], [Err] with the error
    of the crate, [Panic] where the code would panic (an index out of range,
    arithmetic overflow where it is checked), or [Fuel] where a loop ran out of
    the fuel given to it.  Integers are in [Z] with the width's wrap-around
    written out ([Bytes]).  Strings are lists of code points or of bytes, as
    the code reads them.  What is not under [src/] is a parameter, a section
    variable or a class.

    ** The engine ([crates/dnx-core])

    A net ([net.rs], file [Net]) is an arena of agents ([arena.rs], [Arena];
    the 32-bit port words and the slots of [port.rs] and [slot.rs] are in
    [Port]), two frontiers of pending redexes keyed by left-outermost path
    ([lopath.rs], [LOPath]), named roots and a flag byte; [Prim] has the
    agents of primitive functions, [Error] the errors.  [Rules] has the
    rules R2 to R7 and C1 to C4 ([reduce/rules.rs], [reduce/canon.rs]) over the
    interface [CRules], one instance per class of nets, and the two-phase
    reducer ([reduce/mod.rs]).  [Whnf] is the demand-driven driver
    ([reduce/whnf.rs]) with the steps of primitives.  [Parallel] is the batch
    reducer and the coordinator of the GPU ([reduce/parallel.rs], [gpu.rs]),
    [Gpu] the shaders and their host ([crates/dnx-gpu]), [Sched] the interface
    [Scheduler] with its instances ([crates/dnx-sched]).  [Effect] has effect
    rows and handlers ([effect.rs]).

    [Canon] serialises a normal net from a root and interns or hashes it
    ([canonical_hash.rs], [funeq.rs]), and rebuilds one from untrusted bytes
    ([blob.rs]).

    ** From programs to nets and back

    [Ast] is the core syntax, with the renaming of binders ([dnx-ast],
    [dnx-elab/alpha.rs]); [Pass0] copies definitions, [Pass1] checks
    linearity, [Elab] emits the net ([dnx-elab]); [Share] is the sharing that
    the front ends make explicit; [Read] reads a net back ([dnx-read]).
    [NixVal], [Json] and [Builtins] are the primitive values and functions
    ([dnx-prim]).  The front ends: [NixTree] and [NixLower] for Nix
    ([dnx-lang/parser], [scope.rs]), [PyParse] (lexer and parser) and [PyLower]
    for Python ([dnx-pyparse]), [Surface] for JSON and the lambda surface
    ([dnx-ts]).  [Runtime] composes them: from a source text through lowering,
    elaboration and forcing to a value.  [TestRunner] evaluates suites with a
    cache ([suite.rs], [dnx-test]); [Flake] resolves, pins and locks the inputs
    of flakes ([dnx-flake]).

    ** The proof kernel ([crates/dnx-proof], [dnx-tm-elab])

    Terms and declarations are in [Term]; reduction, inference, conversion,
    positivity and the environment in [Kernel]; the translation of fixpoints
    to recursors in [Lower]; the values read from checked proofs in [Extract].
    [conv] may compare two closed terms through the engine: that route is the
    class [NetPath] with the contract [NetPathSound]; [Erase] defines it
    ([symbol.rs], [erase.rs]), and [conv_by_normal_forms] says that [conv]
    as it is written never takes it.

    ** Stores and services

    [Fs] is a tree of files with its operations and path strings; [StorePath]
    and [Store] the content-addressed store ([dnx-store]); [Drv] derivations
    and their realisation ([dnx-drv]); [Wire] and [Dist] the distribution
    protocol and its cache ([dnx-dist]); [Daemon] the daemon, its protocol and
    its loop ([dnx-daemon]), over the interface [Realizer].  [Text], [Utf8] and
    [Codec] are what they share.

    ** The theorems

    - Engine.  [LOPath], [Port], [Arena]: paths are bit strings in
      left-outermost order; port words lose nothing; the arena's lists agree in
      every reachable arena.  [Wiring] states [net_inv] (the wires of live
      agents are an involution) and proves once ([replaces_inv]) that a rewrite
      covering all wires of the agents it retires keeps it; [RuleSpecs] and
      [CanonSpecs] apply it to each rule.  [Sweep]: C1 retires exactly what the
      roots do not reach.  [ReduceSpecs]: linear nets have normal forms within
      a bound.  [WhnfSpec]: the spine redex is the demanded one, and what an
      answer means.  [ParallelSpec]: a batch of independent redexes is fired as
      if one by one, and neighbours lose wires.  [Gpu]: on a device that runs
      the shader the GPU scheduler computes what the parallel one does.
      [HandlersSpec]: a checked row never lacks a handler.
    - Canonical form.  [CanonSpec], [BlobSpec]: the format is unambiguous, equal
      up to slot numbers means equal bytes, identifiers are equal exactly when
      the bytes are, and decoding arbitrary bytes never panics and never yields
      an active pair.
    - Elaboration.  [Pass0], [Pass1]: inlining and linearity against reference
      definitions.  [Open], [ElabSpec]: elaboration leaves no port dangling and
      keeps [net_inv]; [RuntimeSpec] composes it with the passes before it.
      [ReadSpec]: reading back gives the term that was elaborated.
    - Front ends.  [PyParseSpec]: parsing ends and reads back what is printed.
      [PyLowerSpec], [SurfaceSpec]: lowering keeps the meaning of names.
      [NixLowerSpec]: lowering ends, imports included.  [JsonSpec],
      [BuiltinsSpec]: JSON round trips, attribute sets are finite maps, the
      builtins keep values well formed.  [TestRunnerSpec]: a cached run has the
      verdicts of a fresh one.  [FlakeSpec]: a lock is current once written,
      and resolution ends.
    - Kernel.  [Typing]: the algorithms are sound for declarative rules; an
      answer does not depend on the fuel; a declaration that the kernel accepts
      inhabits an empty type.  [AdmissionSpec], [Scoping]: every environment
      built by admissions is well formed, and the types it assembles closed.
      [LowerSpec]: a translated fixpoint unfolds to its arms.  [Extract]: what
      is read from a checked proof is the value it encodes.
    - Services.  [StoreSpec]: the store is a write-once map.  [DrvSpec],
      [RealizeSpec]: the encoding is canonical, and a builtin build depends on
      the derivation and the store alone.  [Wire], [DistSpec]: frames round
      trip; a pull from any peer stores only what hashes to its name, and from
      an honest one fetches all of it.  [Answers], [DaemonSpec]: every request
      has an answer, a derivation is built once, and the loop stays up.

    Each property has a doc comment with its number and, where it has
    hypotheses, a witness that applies it to a concrete net ([Examples]), byte
    string, tree or environment.

    ** Parameters

    The hash function; running an external program and the test for symbolic
    links; the texts of I/O errors and of engine errors ([Fmt], [EngineText])
    and the Unicode tables ([Fmt], [PyChars]); operations on floats ([Host]);
    the trees that rnix and tree-sitter make of a text ([NixParser],
    [TreeSitter]); the primitive [call] of an agent and the handlers of
    effects, as functions; the tests of a file system that may refuse a write;
    the peer of a connection, as the function from bytes to bytes; the device
    of the GPU.  Fresh names and staging names are counters in the state.

    ** Bounds and fuel

    Slot indices are below [MAX_SLOTS] = 2^28 by the arena invariant, so port
    words do not overflow.  Traversals of a net get the number of ports as
    fuel, proved enough, and the demand spine [SPINE_FUEL] = 513, as a path has
    at most 512 turns.  Normalisation of linear nets needs no more than twice
    the agents plus the pairs.  Lexers, parsers and JSON readers get the length
    of their input and one; lowering the size of the tree; imports the cap on
    their depth and one; flakes the number of nodes and one; all proved enough.
    The kernel and the evaluators may diverge, as in the code: their theorems
    hold for every fuel, and an answer does not depend on it.  De Bruijn
    indices truncate to 32 bits in [shift] as in the code.  Counters of 64 bits
    (statistics, staging names) are not wrapped.

    ** Not modelled

    The command line of [crates/dnx] and the binaries of [dnx-dist] (arguments
    and printing); binding sockets, threads, timeouts and thread pools; the
    creation of the device and its buffers by wgpu; parsing by rnix and
    tree-sitter; the default root of the store; the net that is left when
    forcing fails; the texts of the errors of the Python and TypeScript front
    ends.  The threads of the amortized shader race on the arena of the device;
    they are taken one after the other. *)
From stdpp Require Export base tactics option list numbers gmap strings.
From Stdlib Require Export ZArith Lia.
From Stdlib Require Export Init.Byte.
From Stdlib Require Strings.Byte.

(** ** The result monad

    A Rust function returning [Result<A, E>] can finish in four ways: with
    [Ok], with [Err], by panicking (slice index out of bounds, division by
    zero, ...), or not at all.  [Fuel] is the model's answer when the fuel
    given to a loop was not enough; theorems about such loops exhibit a
    sufficient fuel. *)

Inductive res (E A : Type) : Type :=
| Ok (a : A)
| Err (e : E)
| Panic
| Fuel.
Arguments Ok {E A} a.
Arguments Err {E A} e.
Arguments Panic {E A}.
Arguments Fuel {E A}.

#[export] Instance res_ret (E : Type) : MRet (res E) := fun A a => Ok a.

#[export] Instance res_bind (E : Type) : MBind (res E) := fun A B k m =>
  match m with
  | Ok a => k a
  | Err e => Err e
  | Panic => Panic
  | Fuel => Fuel
  end.

#[export] Instance res_fmap (E : Type) : FMap (res E) := fun A B f m =>
  match m with
  | Ok a => Ok (f a)
  | Err e => Err e
  | Panic => Panic
  | Fuel => Fuel
  end.

(** A result that satisfies [P], or an error: neither a panic nor the end of the fuel. *)
Definition settled {E A : Type} (P : A -> Prop) (r : res E A) : Prop :=
  match r with Ok a => P a | Err _ => True | Panic | Fuel => False end.

(** [Option::ok_or]. *)
Definition ok_or {E A : Type} (o : option A) (e : E) : res E A :=
  match o with Some a => Ok a | None => Err e end.

(** Slice indexing [v[i]]: panics out of range. *)
Definition index {E A : Type} (l : list A) (i : nat) : res E A :=
  match l !! i with Some a => Ok a | None => Panic end.

(** [v[i] = x]: panics out of range. *)
Definition assign {E A : Type} (l : list A) (i : nat) (x : A) : res E (list A) :=
  if (i <? length l)%nat then Ok (<[i := x]> l) else Panic.

(** [Vec::pop]: the last element and the rest. *)
Definition pop {A : Type} (l : list A) : option (A * list A) :=
  match reverse l with
  | [] => None
  | x :: l' => Some (x, reverse l')
  end.

(** [Vec::swap_remove]: the last element takes the place of the removed one. *)
Definition swap_remove {E A : Type} (l : list A) (i : nat) : res E (list A) :=
  if (i <? length l)%nat then
    match pop l with
    | Some (x, l') => Ok (<[i := x]> l')
    | None => Panic
    end
  else Panic.

(** [Result::map_err]. *)
Definition map_err {E F A : Type} (f : E -> F) (m : res E A) : res F A :=
  match m with
  | Ok a => Ok a
  | Err e => Err (f e)
  | Panic => Panic
  | Fuel => Fuel
  end.

(** [for x in l { st = f(st, x)?; }]. *)
Fixpoint foldM {E S A : Type} (f : S -> A -> res E S) (l : list A) (st : S)
    : res E S :=
  match l with
  | [] => Ok st
  | x :: l' => st' ← f st x; foldM f l' st'
  end.

(** [l.iter().map(f).collect::<Result<Vec<_>, _>>()]. *)
Fixpoint mapMr {E A B : Type} (f : A -> res E B) (l : list A) : res E (list B) :=
  match l with
  | [] => Ok []
  | x :: l' => y ← f x; ys ← mapMr f l'; Ok (y :: ys)
  end.

Definition is_ok {E A : Type} (m : res E A) : bool :=
  match m with Ok _ => true | _ => false end.

(** ** Reflexive-transitive closure with a step count *)

Inductive star {A : Type} (R : A -> A -> Prop) : A -> A -> Prop :=
| star_refl a : star R a a
| star_step a b c : R a b -> star R b c -> star R a c.

(** ** Boolean order on lists *)

(** Lexicographic comparison of two bit strings, a proper prefix first. *)
Fixpoint lex_cmp (a b : list bool) : comparison :=
  match a, b with
  | [], [] => Eq
  | [], _ :: _ => Lt
  | _ :: _, [] => Gt
  | false :: a', false :: b' | true :: a', true :: b' => lex_cmp a' b'
  | false :: _, true :: _ => Lt
  | true :: _, false :: _ => Gt
  end.

(** * Lemmas *)

Section ResLemmas.
Context {E : Type}.

Lemma settled_bind {A B : Type} (P : A -> Prop) (Q : B -> Prop) (r : res E A) (f : A -> res E B) :
  settled P r -> (forall a, P a -> settled Q (f a)) -> settled Q (r ≫= f).
Proof. destruct r; cbn; auto. Qed.

Lemma settled_weaken {A : Type} (P Q : A -> Prop) (r : res E A) : settled P r -> (forall a, P a -> Q a) -> settled Q r.
Proof. destruct r; cbn; auto. Qed.

Lemma bind_Ok {A B : Type} (m : res E A) (k : A -> res E B) (b : B) :
  (x ← m; k x) = Ok b <-> exists a, m = Ok a /\ k a = Ok b.
Proof.
  split.
  - destruct m; simpl; intros H; try discriminate; eauto.
  - intros (a & -> & H); exact H.
Qed.

Lemma bind_assoc_r {A B C : Type} (m : res E A) (f : A -> res E B)
    (g : B -> res E C) :
  (y ← (x ← m; f x); g y) = (x ← m; y ← f x; g y).
Proof. by destruct m. Qed.

Lemma ok_or_Ok {A : Type} (o : option A) (e : E) (a : A) :
  ok_or o e = Ok a <-> o = Some a.
Proof. destruct o; simpl; split; congruence. Qed.

Lemma index_Ok {A : Type} (l : list A) (i : nat) (a : A) :
  index (E:=E) l i = Ok a <-> l !! i = Some a.
Proof. unfold index; destruct (l !! i); split; congruence. Qed.

Lemma index_lt {A : Type} (l : list A) (i : nat) :
  (i < length l)%nat -> exists a, index (E:=E) l i = Ok a /\ l !! i = Some a.
Proof.
  intros Hi. destruct (lookup_lt_is_Some_2 l i Hi) as [a Ha].
  exists a. unfold index. by rewrite Ha.
Qed.

Lemma assign_Ok {A : Type} (l : list A) (i : nat) (x : A) l' :
  assign (E:=E) l i x = Ok l' <-> (i < length l)%nat /\ l' = <[i := x]> l.
Proof.
  unfold assign. destruct (Nat.ltb_spec i (length l)); split; intros H1;
    [by simplify_eq|by destruct H1 as [_ ->]|done|lia].
Qed.

(** An invariant of the loop body is an invariant of the loop. *)
Lemma foldM_inv {S A : Type} (P : S -> Prop) (f : S -> A -> res E S) l st st' :
  (forall s x s', x ∈ l -> P s -> f s x = Ok s' -> P s') ->
  P st -> foldM f l st = Ok st' -> P st'.
Proof.
  revert st. induction l as [|x l IH]; simpl; intros st Hf HP H.
  - by simplify_eq.
  - apply bind_Ok in H as (s1 & H1 & H2).
    eapply IH; [| |exact H2].
    + intros ????; apply Hf. set_solver.
    + eapply Hf; [|exact HP|exact H1]. set_solver.
Qed.

Lemma foldM_app {S A : Type} (f : S -> A -> res E S) l1 l2 st :
  foldM f (l1 ++ l2) st = (s ← foldM f l1 st; foldM f l2 s).
Proof.
  revert st. induction l1 as [|x l1 IH]; simpl; intros st; [done|].
  destruct (f st x); simpl; auto.
Qed.

Lemma mapMr_Ok_Forall2 {A B : Type} (f : A -> res E B) l ys :
  mapMr f l = Ok ys <-> Forall2 (fun x y => f x = Ok y) l ys.
Proof.
  revert ys. induction l as [|x l IH]; intros ys; simpl.
  - split; intros H; [by simplify_eq|by inversion H].
  - split.
    + intros (y & Hy & (zs & Hz & H)%bind_Ok)%bind_Ok. simplify_eq.
      constructor; [done|]. by apply IH.
    + intros H. inversion H as [|? y ? zs Hy Hz]; subst.
      rewrite Hy; simpl. apply IH in Hz. by rewrite Hz.
Qed.
End ResLemmas.

(** Decompose every [Ok] of a monadic chain among the hypotheses. *)
Ltac inv_ok :=
  repeat match goal with
  | H : mbind _ _ = Ok _ |- _ =>
      let a := fresh "a" in let Ha := fresh "H" in let Hk := fresh "H" in
      apply bind_Ok in H as (a & Ha & Hk)
  | H : Ok _ = Ok _ |- _ => injection H as H
  | H : Err _ = Ok _ |- _ => discriminate H
  | H : Panic = Ok _ |- _ => discriminate H
  | H : Fuel = Ok _ |- _ => discriminate H
  | H : ok_or _ _ = Ok _ |- _ => apply ok_or_Ok in H
  | H : index _ _ = Ok _ |- _ => apply index_Ok in H
  | H : mret _ = Ok _ |- _ => injection H as H
  end.

(** Case analysis on the scrutinee of a [match] or [if] of a hypothesis. *)
Ltac case_in H :=
  match type of H with
  | context [match ?x with _ => _ end] => destruct x eqn:?
  end.

Section StarLemmas.
Context {A : Type} (R : A -> A -> Prop).

Lemma star_one a b : R a b -> star R a b.
Proof. intros; econstructor; [done|constructor]. Qed.

Lemma star_trans a b c : star R a b -> star R b c -> star R a c.
Proof. induction 1; eauto using star. Qed.

Lemma star_impl (S : A -> A -> Prop) a b :
  (forall x y, R x y -> S x y) -> star R a b -> star S a b.
Proof. intros HRS. induction 1; econstructor; eauto. Qed.
End StarLemmas.

Section LexLemmas.
Lemma lex_cmp_refl a : lex_cmp a a = Eq.
Proof. induction a as [|[] a IH]; simpl; auto. Qed.

Lemma lex_cmp_eq a b : lex_cmp a b = Eq <-> a = b.
Proof.
  split; [|intros ->; apply lex_cmp_refl].
  revert b. induction a as [|[] a IH]; intros [|[] b]; simpl; intros H;
    try discriminate; f_equal; auto.
Qed.

Lemma lex_cmp_antisym a b : lex_cmp b a = CompOpp (lex_cmp a b).
Proof.
  revert b. induction a as [|[] a IH]; intros [|[] b]; simpl; auto.
Qed.

Lemma lex_cmp_trans a b c :
  lex_cmp a b = Lt -> lex_cmp b c = Lt -> lex_cmp a c = Lt.
Proof.
  revert b c. induction a as [|[] a IH]; intros [|[] b] [|[] c];
    simpl; intros; try discriminate; eauto.
Qed.

(** A proper extension comes after its prefix. *)
Lemma lex_cmp_app_lt a x b : lex_cmp a (a ++ x :: b) = Lt.
Proof. induction a as [|[] a IH]; simpl; auto. Qed.

Lemma lex_cmp_app_l a b c : lex_cmp (a ++ b) (a ++ c) = lex_cmp b c.
Proof. induction a as [|[] a IH]; simpl; auto. Qed.
End LexLemmas.

Lemma pop_Some {A} (l l' : list A) x : pop l = Some (x, l') <-> l = l' ++ [x].
Proof.
  unfold pop. split.
  - destruct (reverse l) as [|y k] eqn:Hr; intros [= <- <-].
    rewrite <- (reverse_involutive l), Hr, reverse_cons. done.
  - intros ->. by rewrite reverse_app, reverse_singleton; simpl; rewrite reverse_involutive.
Qed.

Lemma pop_None {A} (l : list A) : pop l = None <-> l = [].
Proof.
  unfold pop. split; [|intros ->; done].
  destruct (reverse l) eqn:Hr; [|done]. intros _.
  by rewrite <- (reverse_involutive l), Hr.
Qed.

Lemma prefix_take_iff {A} (l1 l2 : list A) :
  l1 `prefix_of` l2 <-> take (length l1) l2 = l1.
Proof.
  split.
  - intros [k ->]. by rewrite take_app_length.
  - intros <-. apply prefix_take.
Qed.

Create HintDb dnx.
#[export] Hint Resolve star_refl star_one lex_cmp_refl : dnx.
#[export] Hint Rewrite lex_cmp_refl @lex_cmp_app_l : dnx.
