(* ===== verification/Bytes.v ===== *)
(** * Machine integers, little-endian bytes and bounds-checked cursors

    Unsigned integers of Rust are [Z] values in [[0, 2^w)], signed ones [Z]
    values in [[-2^(w-1), 2^(w-1))]; [as] casts are the wrap-around functions
    below.  The second half of the file is the byte layer that the three
    binary formats of the program share: [to_le_bytes]/[from_le_bytes], a
    cursor over a slice, and the codec interface ([CodecComplete],
    [CodecSound]) against which the formats are proved. *)
From S2P Require Import Prelude.

Open Scope Z_scope.

(** ** Casts *)

Definition wrap (w z : Z) : Z := z mod 2 ^ w.
(** [z as u8], [z as u16], [z as u32]. *)
Definition as_u8 (z : Z) : Z := wrap 8 z.
Definition as_u16 (z : Z) : Z := wrap 16 z.
Definition as_u32 (z : Z) : Z := wrap 32 z.
(** [z as i16]: two's complement reading of the low 16 bits. *)
Definition as_i16 (z : Z) : Z :=
  if as_u16 z <? 2 ^ 15 then as_u16 z else as_u16 z - 2 ^ 16.

Definition u8_range (z : Z) : Prop := 0 <= z < 2 ^ 8.
Definition u16_range (z : Z) : Prop := 0 <= z < 2 ^ 16.
Definition u32_range (z : Z) : Prop := 0 <= z < 2 ^ 32.
Definition u64_range (z : Z) : Prop := 0 <= z < 2 ^ 64.
Definition i16_range (z : Z) : Prop := - 2 ^ 15 <= z < 2 ^ 15.

(** [i16::checked_add]. *)
Definition checked_add_i16 (a b : Z) : option Z :=
  if (- 2 ^ 15 <=? a + b) && (a + b <? 2 ^ 15) then Some (a + b) else None.

(** [u32::checked_add]. *)
Definition checked_add_u32 (a b : Z) : option Z :=
  if a + b <? 2 ^ 32 then Some (a + b) else None.

(** ** Bytes *)

#[export] Instance byte_eq_dec : EqDecision byte := Byte.byte_eq_dec.
#[export] Instance byte_countable : Countable byte.
Proof.
  refine (inj_countable (fun b => Byte.to_N b) (fun n => Byte.of_N n) _).
  intros b. apply Byte.of_to_N.
Defined.

Definition byte_to_Z (b : byte) : Z := Z.of_N (Byte.to_N b).
Definition byte_of_Z (z : Z) : byte :=
  default x00 (Byte.of_N (Z.to_N (as_u8 z))).

(** [u{8n}::to_le_bytes]. *)
Fixpoint le_bytes (n : nat) (z : Z) : list byte :=
  match n with
  | O => []
  | S n' => byte_of_Z z :: le_bytes n' (Z.shiftr z 8)
  end.

(** [u{8n}::from_le_bytes]. *)
Fixpoint le_val (bs : list byte) : Z :=
  match bs with
  | [] => 0
  | b :: bs' => Z.lor (byte_to_Z b) (Z.shiftl (le_val bs') 8)
  end.

Definition u32_le (z : Z) : list byte := le_bytes 4 z.
Definition u64_le (z : Z) : list byte := le_bytes 8 z.
Definition u16_le (z : Z) : list byte := le_bytes 2 z.
(** [i16::to_le_bytes]: the bytes of the two's complement representation. *)
Definition i16_le (z : Z) : list byte := le_bytes 2 (as_u16 z).

(** ** Cursors over a slice *)

Record cursor := mk_cursor { cur_bytes : list byte; cur_pos : nat }.

(** What is left to read. *)
Definition rest (c : cursor) : list byte := drop (cur_pos c) (cur_bytes c).
Definition advance (n : nat) (c : cursor) : cursor :=
  mk_cursor (cur_bytes c) (cur_pos c + n).

(** Every reader starts at position 0 and only advances past bytes it was
    given, so positions stay within the slice. *)
Definition cur_wf (c : cursor) : Prop := (cur_pos c <= length (cur_bytes c))%nat.
Definition cur_new (bs : list byte) : cursor := mk_cursor bs 0.
Definition cur_done (c : cursor) : bool := (cur_pos c =? length (cur_bytes c))%nat.

(** [bytes.get(pos..pos + n)]: the slice, or [None] past the end. *)
Definition get_range (bs : list byte) (pos n : nat) : option (list byte) :=
  if (pos + n <=? length bs)%nat then Some (take n (drop pos bs)) else None.

(** A read of exactly [n] bytes, with the error reported on a short body. *)
Definition take_n {E : Type} (short : E) (n : nat) (c : cursor)
    : res E (list byte * cursor) :=
  s ← ok_or (get_range (cur_bytes c) (cur_pos c) n) short;
  Ok (s, advance n c).

(** ** The codec interface

    [dec] reads a value off a cursor; [enc] is the writer's side.
    Completeness: what was written for a valid value is read back, and the
    cursor stops exactly after it.  Soundness: a successful read is the
    encoding of the value it returned, so no second byte string decodes to
    it. *)
Class CodecComplete {E A : Type} (valid : A -> Prop) (enc : A -> list byte)
    (dec : cursor -> res E (A * cursor)) : Prop :=
  dec_enc : forall x c t, cur_wf c -> valid x -> rest c = enc x ++ t ->
    dec c = Ok (x, advance (length (enc x)) c).

Class CodecSound {E A : Type} (valid : A -> Prop) (enc : A -> list byte)
    (dec : cursor -> res E (A * cursor)) : Prop :=
  enc_dec : forall x c c', cur_wf c -> dec c = Ok (x, c') ->
    valid x /\ rest c = enc x ++ rest c' /\ c' = advance (length (enc x)) c.

(** * Lemmas *)

Lemma wrap_range w z : 0 <= w -> 0 <= wrap w z < 2 ^ w.
Proof. intros. apply Z.mod_pos_bound. lia. Qed.

Lemma wrap_small w z : 0 <= z < 2 ^ w -> wrap w z = z.
Proof. apply Z.mod_small. Qed.

Lemma as_u32_range z : u32_range (as_u32 z).
Proof. by apply wrap_range. Qed.

Lemma as_u32_small z : u32_range z -> as_u32 z = z.
Proof. apply wrap_small. Qed.

Lemma as_i16_u16 z : i16_range z -> as_i16 (as_u16 z) = z.
Proof.
  unfold i16_range, as_i16, as_u16, wrap. intros H.
  rewrite Zmod_mod.
  destruct (decide (0 <= z)).
  - rewrite Z.mod_small by lia. destruct (Z.ltb_spec z (2 ^ 15)); lia.
  - replace (z mod 2 ^ 16) with (z + 2 ^ 16).
    + destruct (Z.ltb_spec (z + 2 ^ 16) (2 ^ 15)); lia.
    + rewrite <- (Z.mod_small (z + 2 ^ 16) (2 ^ 16)) by lia.
      rewrite <- (Z_mod_plus_full z 1 (2 ^ 16)). f_equal; lia.
Qed.

Lemma as_i16_range z : i16_range (as_i16 z).
Proof.
  unfold i16_range, as_i16. pose proof (wrap_range 16 z ltac:(lia)) as H.
  fold (as_u16 z) in H. destruct (Z.ltb_spec (as_u16 z) (2 ^ 15)); lia.
Qed.

Lemma as_u16_i16 z : u16_range z -> as_u16 (as_i16 z) = z.
Proof.
  intros H. unfold as_i16, as_u16, wrap, u16_range in *.
  rewrite (Z.mod_small z) by lia. destruct (Z.ltb_spec z (2 ^ 15)).
  - apply Z.mod_small; lia.
  - replace (z - 2 ^ 16) with (z + (-1) * 2 ^ 16) by lia.
    rewrite Z_mod_plus_full. apply Z.mod_small; lia.
Qed.

Lemma byte_to_Z_range b : u8_range (byte_to_Z b).
Proof.
  unfold byte_to_Z, u8_range. pose proof (Byte.to_N_bounded b). lia.
Qed.

Lemma byte_to_of_Z z : byte_to_Z (byte_of_Z z) = as_u8 z.
Proof.
  unfold byte_to_Z, byte_of_Z.
  pose proof (wrap_range 8 z ltac:(lia)) as Hr. fold (as_u8 z) in Hr.
  destruct (Byte.of_N (Z.to_N (as_u8 z))) as [b|] eqn:Hb; simpl.
  - apply Byte.to_of_N in Hb. rewrite Hb. lia.
  - apply Byte.of_N_None_iff in Hb. lia.
Qed.

Lemma byte_of_to_Z b : byte_of_Z (byte_to_Z b) = b.
Proof.
  unfold byte_of_Z. unfold as_u8.
  rewrite wrap_small by apply byte_to_Z_range.
  unfold byte_to_Z. rewrite N2Z.id, Byte.of_to_N. done.
Qed.

Lemma byte_to_Z_inj a b : byte_to_Z a = byte_to_Z b -> a = b.
Proof. intros H. by rewrite <- (byte_of_to_Z a), H, byte_of_to_Z. Qed.

Lemma le_bytes_length n z : length (le_bytes n z) = n.
Proof. revert z. induction n; simpl; auto. Qed.

Lemma byte_lor_shift a b : 0 <= a < 2 ^ 8 -> 0 <= b ->
  Z.lor a (Z.shiftl b 8) = a + 2 ^ 8 * b.
Proof.
  intros Ha Hb. rewrite Z.shiftl_mul_pow2 by lia.
  rewrite <- Z.add_lor_land, (Z.mul_comm b).
  enough (Z.land a (2 ^ 8 * b) = 0) by lia.
  apply Z.bits_inj'. intros k Hk. rewrite Z.land_spec, Z.bits_0, Z.mul_comm.
  destruct (decide (k < 8)).
  - rewrite Z.mul_pow2_bits_low by lia. by rewrite andb_false_r.
  - rewrite <- (Z.mod_small a (2 ^ 8)) by lia.
    rewrite Z.mod_pow2_bits_high by lia. done.
Qed.

Lemma le_val_nonneg bs : 0 <= le_val bs.
Proof.
  induction bs as [|b bs IH]; simpl; [lia|].
  rewrite Z.lor_nonneg, Z.shiftl_nonneg. pose proof (byte_to_Z_range b).
  unfold u8_range in *. lia.
Qed.

Lemma le_val_cons b bs : le_val (b :: bs) = byte_to_Z b + 2 ^ 8 * le_val bs.
Proof.
  simpl. apply byte_lor_shift; [apply byte_to_Z_range|apply le_val_nonneg].
Qed.

Lemma le_val_range bs : 0 <= le_val bs < 2 ^ (8 * Z.of_nat (length bs)).
Proof.
  induction bs as [|b bs IH]; [done|].
  rewrite le_val_cons. pose proof (byte_to_Z_range b) as Hb.
  unfold u8_range in Hb. simpl length.
  replace (8 * Z.of_nat (S (length bs))) with (8 + 8 * Z.of_nat (length bs)) by lia.
  rewrite Z.pow_add_r by lia. nia.
Qed.

Lemma le_val_bytes n z : le_val (le_bytes n z) = z mod 2 ^ (8 * Z.of_nat n).
Proof.
  revert z. induction n as [|n IH]; intros z.
  - simpl. by rewrite Z.mod_1_r.
  - simpl le_bytes. rewrite le_val_cons, IH, byte_to_of_Z.
    unfold as_u8, wrap. rewrite Z.shiftr_div_pow2 by lia.
    replace (8 * Z.of_nat (S n)) with (8 + 8 * Z.of_nat n) by lia.
    rewrite Z.pow_add_r by lia.
    rewrite (Z.rem_mul_r z (2 ^ 8) (2 ^ (8 * Z.of_nat n))); lia.
Qed.

Lemma le_bytes_val bs : le_bytes (length bs) (le_val bs) = bs.
Proof.
  induction bs as [|b bs IH]; [done|].
  simpl length. cbn [le_bytes]. rewrite le_val_cons.
  pose proof (byte_to_Z_range b) as Hb. unfold u8_range in Hb. f_equal.
  - rewrite <- (byte_of_to_Z b) at 2. unfold byte_of_Z.
    do 3 f_equal. unfold as_u8, wrap.
    rewrite (Z.mul_comm (2 ^ 8)), Z_mod_plus_full. done.
  - replace (Z.shiftr _ 8) with (le_val bs); [done|].
    rewrite Z.shiftr_div_pow2 by lia.
    rewrite (Z.mul_comm (2 ^ 8)), Z.div_add by lia.
    rewrite (Z.div_small (byte_to_Z b)) by lia. lia.
Qed.

Lemma le_bytes_inj n a b :
  0 <= a < 2 ^ (8 * Z.of_nat n) -> 0 <= b < 2 ^ (8 * Z.of_nat n) ->
  le_bytes n a = le_bytes n b -> a = b.
Proof.
  intros Ha Hb H. apply (f_equal le_val) in H. rewrite !le_val_bytes in H.
  by rewrite !Z.mod_small in H.
Qed.

(** ** Cursor lemmas *)

Lemma rest_advance n c : rest (advance n c) = drop n (rest c).
Proof. unfold rest, advance; simpl. by rewrite drop_drop. Qed.

Lemma advance_advance n m c : advance m (advance n c) = advance (n + m) c.
Proof. unfold advance; simpl. f_equal. lia. Qed.

Lemma advance_0 c : advance 0 c = c.
Proof. destruct c. unfold advance; simpl. f_equal. lia. Qed.

Lemma rest_advance_app c xs t :
  rest c = xs ++ t -> rest (advance (length xs) c) = t.
Proof. intros H. by rewrite rest_advance, H, drop_app_length. Qed.

Lemma cur_wf_new bs : cur_wf (cur_new bs).
Proof. unfold cur_wf; simpl; lia. Qed.

Lemma rest_new bs : rest (cur_new bs) = bs.
Proof. done. Qed.

Lemma rest_length c : cur_wf c ->
  (cur_pos c + length (rest c) = length (cur_bytes c))%nat.
Proof. unfold cur_wf, rest. rewrite length_drop. lia. Qed.

Lemma cur_wf_advance c xs t :
  cur_wf c -> rest c = xs ++ t -> cur_wf (advance (length xs) c).
Proof.
  intros Hw Hr. pose proof (rest_length c Hw) as Hl.
  rewrite Hr, length_app in Hl. unfold cur_wf; simpl. lia.
Qed.

Lemma cur_done_rest c : cur_wf c -> cur_done c = true <-> rest c = [].
Proof.
  intros Hw. pose proof (rest_length c Hw). unfold cur_done.
  rewrite Nat.eqb_eq. destruct (rest c); simpl in *; split; intros;
    [done|lia|lia|done].
Qed.

Lemma get_range_rest c n s : cur_wf c ->
  get_range (cur_bytes c) (cur_pos c) n = Some s <->
  length s = n /\ exists t, rest c = s ++ t.
Proof.
  intros Hw. pose proof (rest_length c Hw) as Hlen. unfold get_range.
  destruct (Nat.leb_spec (cur_pos c + n) (length (cur_bytes c))).
  - fold (rest c). split.
    + intros [= <-]. rewrite length_take. split; [lia|].
      exists (drop n (rest c)). by rewrite take_drop.
    + intros (Hl & t & Hr). f_equal. by rewrite Hr, <- Hl, take_app_length.
  - split; [discriminate|]. intros (Hl & t & Hr).
    rewrite Hr, length_app in Hlen. lia.
Qed.

(** ** Codec combinators *)

Section TakeN.
Context {E : Type} (short : E).

#[export] Instance take_n_complete n :
  CodecComplete (fun s : list byte => length s = n) (fun s => s) (take_n short n).
Proof.
  intros s c t Hw Hl Hr. unfold take_n.
  assert (get_range (cur_bytes c) (cur_pos c) n = Some s) as ->
    by (apply get_range_rest; eauto).
  simpl. by rewrite Hl.
Qed.

#[export] Instance take_n_sound n :
  CodecSound (fun s : list byte => length s = n) (fun s => s) (take_n short n).
Proof.
  intros s c c' Hw H. unfold take_n in H. inv_ok. simplify_eq.
  apply get_range_rest in H0 as (Hl & t & Hr); [|done].
  split; [done|]. rewrite Hr. subst n. split; [|done].
  by rewrite (rest_advance_app c s t Hr).
Qed.

(** A short body is reported with the reader's own error. *)
Lemma take_n_short n c : cur_wf c -> (length (rest c) < n)%nat ->
  take_n short n c = Err short.
Proof.
  intros Hw Hl. unfold take_n, get_range.
  pose proof (rest_length c Hw).
  destruct (Nat.leb_spec (cur_pos c + n) (length (cur_bytes c))); [lia|done].
Qed.
End TakeN.

Lemma codec_sound_wf {E A} (valid : A -> Prop) enc (dec : cursor -> res E (A * cursor))
    `{!CodecSound valid enc dec} x c c' :
  cur_wf c -> dec c = Ok (x, c') -> cur_wf c'.
Proof.
  intros Hw H. destruct (enc_dec x c c' Hw H) as (_ & Hr & ->).
  eapply cur_wf_advance; eauto.
Qed.

(** Two encodings that start the same byte string are equal values. *)
Lemma codec_inj {E A} (valid : A -> Prop) enc (dec : cursor -> res E (A * cursor))
    `{!CodecComplete valid enc dec} x y s t :
  valid x -> valid y -> enc x ++ s = enc y ++ t -> x = y /\ s = t.
Proof.
  intros Hx Hy Heq.
  pose proof (dec_enc x (cur_new (enc x ++ s)) s (cur_wf_new _) Hx eq_refl) as H1.
  pose proof (dec_enc y (cur_new (enc x ++ s)) t (cur_wf_new _) Hy Heq) as H2.
  rewrite H1 in H2. assert (x = y) as -> by congruence. split; [done|].
  by apply app_inv_head in Heq.
Qed.

#[export] Hint Resolve cur_wf_new cur_wf_advance rest_advance_app : dnx.
#[export] Hint Rewrite @length_app le_bytes_length : dnx.
