(* ===== verification/Utf8.v ===== *)
(** * Strings as sequences of characters, and their UTF-8 form

    A Rust [str] is modelled by its characters, Unicode scalar values in [Z];
    [utf8] is its bytes ([as_bytes]) and [from_utf8] is
    [std::str::from_utf8]. *)
From S2P Require Import Prelude Bytes.

Notation str := (list Z) (only parsing).

(** A Unicode scalar value. *)
Definition scalar (c : Z) : Prop := 0 <= c < 55296 \/ 57344 <= c < 1114112.

#[export] Instance scalar_dec c : Decision (scalar c).
Proof. unfold scalar. apply _. Defined.

Definition utf8_char (c : Z) : list byte :=
  if c <? 128 then [byte_of_Z c]
  else if c <? 2048 then [byte_of_Z (192 + c / 64); byte_of_Z (128 + c mod 64)]
  else if c <? 65536 then
    [byte_of_Z (224 + c / 4096); byte_of_Z (128 + c / 64 mod 64); byte_of_Z (128 + c mod 64)]
  else
    [byte_of_Z (240 + c / 262144); byte_of_Z (128 + c / 4096 mod 64);
     byte_of_Z (128 + c / 64 mod 64); byte_of_Z (128 + c mod 64)].

Definition utf8 (s : str) : list byte := concat (utf8_char <$> s).

(** A continuation byte. *)
Definition cont (b : byte) : bool := (128 <=? byte_to_Z b) && (byte_to_Z b <? 192).
Definition low6 (b : byte) : Z := byte_to_Z b - 128.

Fixpoint from_utf8 (bs : list byte) : option str :=
  match bs with
  | [] => Some []
  | b0 :: t =>
      let x := byte_to_Z b0 in
      if x <? 128 then cons x <$> from_utf8 t
      else if x <? 224 then
        match t with
        | b1 :: t1 =>
            let c := (x - 192) * 64 + low6 b1 in
            if (192 <=? x) && cont b1 && (128 <=? c) then cons c <$> from_utf8 t1 else None
        | _ => None
        end
      else if x <? 240 then
        match t with
        | b1 :: b2 :: t2 =>
            let c := (x - 224) * 4096 + low6 b1 * 64 + low6 b2 in
            if cont b1 && cont b2 && (2048 <=? c) && bool_decide (scalar c)
            then cons c <$> from_utf8 t2 else None
        | _ => None
        end
      else
        match t with
        | b1 :: b2 :: b3 :: t3 =>
            let c := (x - 240) * 262144 + low6 b1 * 4096 + low6 b2 * 64 + low6 b3 in
            if cont b1 && cont b2 && cont b3 && (65536 <=? c) && bool_decide (scalar c)
            then cons c <$> from_utf8 t3 else None
        | _ => None
        end
  end.

(** U+FFFD for each maximal part that starts no character: the second byte
    of a longer form is restricted so that the character is not overlong, a
    surrogate, or out of range. *)
Definition second_ok (x : Z) (b : byte) : bool :=
  let y := byte_to_Z b in
  if x =? 224 then (160 <=? y) && (y <? 192)
  else if x =? 237 then (128 <=? y) && (y <? 160)
  else if x =? 240 then (144 <=? y) && (y <? 192)
  else if x =? 244 then (128 <=? y) && (y <? 144)
  else cont b.

Fixpoint lossy (bs : list byte) : str :=
  match bs with
  | [] => []
  | b0 :: t =>
      let x := byte_to_Z b0 in
      if x <? 128 then x :: lossy t
      else if (x <? 194) || (244 <? x) then 65533 :: lossy t
      else
        match t with
        | [] => [65533]
        | b1 :: t1 =>
            if negb (second_ok x b1) then 65533 :: lossy t
            else if x <? 224 then (x - 192) * 64 + low6 b1 :: lossy t1
            else
              match t1 with
              | [] => [65533]
              | b2 :: t2 =>
                  if negb (cont b2) then 65533 :: lossy t1
                  else if x <? 240 then (x - 224) * 4096 + low6 b1 * 64 + low6 b2 :: lossy t2
                  else
                    match t2 with
                    | [] => [65533]
                    | b3 :: t3 =>
                        if negb (cont b3) then 65533 :: lossy t2
                        else (x - 240) * 262144 + low6 b1 * 4096 + low6 b2 * 64 + low6 b3 :: lossy t3
                    end
              end
        end
  end.

(** [String::from_utf8_lossy]: valid input is taken as it is. *)
Definition from_utf8_lossy (bs : list byte) : str :=
  match from_utf8 bs with Some s => s | None => lossy bs end.

(** * Lemmas *)

#[local] Ltac Zify.zify_post_hook ::= Z.to_euclidean_division_equations.

Lemma byte_Z_small z : 0 <= z < 256 -> byte_to_Z (byte_of_Z z) = z.
Proof. intros H. rewrite byte_to_of_Z. unfold as_u8. by rewrite wrap_small. Qed.

Lemma cont_byte z : 0 <= z < 64 -> cont (byte_of_Z (128 + z)) = true
  /\ low6 (byte_of_Z (128 + z)) = z.
Proof. intros H. unfold cont, low6. rewrite byte_Z_small by lia. lia. Qed.

Lemma from_utf8_char c t : scalar c ->
  from_utf8 (utf8_char c ++ t) = cons c <$> from_utf8 t.
Proof.
  intros Hc. pose proof (Z.mod_pos_bound c 64). pose proof (Z.mod_pos_bound (c / 64) 64).
  pose proof (Z.mod_pos_bound (c / 4096) 64).
  assert (0 <= c < 1114112) as Hr by (unfold scalar in Hc; lia).
  unfold utf8_char. destruct (Z.ltb_spec c 128); [|destruct (Z.ltb_spec c 2048);
    [|destruct (Z.ltb_spec c 65536)]]; cbn [app from_utf8].
  - rewrite byte_Z_small by lia. by rewrite (proj2 (Z.ltb_lt c 128)).
  - destruct (cont_byte (c mod 64)) as [-> ->]; [lia|]. rewrite byte_Z_small by lia.
    replace (192 + c / 64 - 192) with (c / 64) by lia.
    replace (c / 64 * 64 + c mod 64) with c by lia.
    rewrite (proj2 (Z.ltb_ge _ _)), (proj2 (Z.ltb_lt _ _)), !(proj2 (Z.leb_le _ _)) by lia. done.
  - destruct (cont_byte (c mod 64)) as [-> ->]; [lia|].
    destruct (cont_byte (c / 64 mod 64)) as [-> ->]; [lia|]. rewrite byte_Z_small by lia.
    replace ((224 + c / 4096 - 224) * 4096 + c / 64 mod 64 * 64 + c mod 64) with c by lia.
    rewrite (proj2 (Z.ltb_ge _ 128)), (proj2 (Z.ltb_ge _ 224)), (proj2 (Z.ltb_lt _ 240)),
      (proj2 (Z.leb_le 2048 _)), bool_decide_true by (done || lia). done.
  - destruct (cont_byte (c mod 64)) as [-> ->]; [lia|].
    destruct (cont_byte (c / 64 mod 64)) as [-> ->]; [lia|].
    destruct (cont_byte (c / 4096 mod 64)) as [-> ->]; [lia|]. rewrite byte_Z_small by lia.
    replace ((240 + c / 262144 - 240) * 262144 + c / 4096 mod 64 * 4096 + c / 64 mod 64 * 64
             + c mod 64) with c by lia.
    rewrite (proj2 (Z.ltb_ge _ 128)), (proj2 (Z.ltb_ge _ 224)), (proj2 (Z.ltb_ge _ 240)),
      (proj2 (Z.leb_le 65536 _)), bool_decide_true by (done || lia). done.
Qed.

(** [as_bytes] then [from_utf8] gives the string back. *)
Lemma from_utf8_utf8 s : Forall scalar s -> from_utf8 (utf8 s) = Some s.
Proof.
  induction 1 as [|c s Hc Hs IH]; [done|]. unfold utf8 in *. cbn [fmap list_fmap concat].
  rewrite from_utf8_char by done. by rewrite IH.
Qed.

Lemma cont_range b : cont b = true -> 128 <= byte_to_Z b < 192.
Proof. unfold cont. lia. Qed.

Lemma byte_of_eq z b : z = byte_to_Z b -> byte_of_Z z = b.
Proof. intros ->. apply byte_of_to_Z. Qed.

Lemma utf8_char2 b0 b1 : 192 <= byte_to_Z b0 < 224 -> cont b1 = true ->
  let c := (byte_to_Z b0 - 192) * 64 + low6 b1 in
  128 <= c -> scalar c /\ utf8_char c = [b0; b1].
Proof.
  intros H0 H1%cont_range c Hc. unfold c, low6 in *. split; [unfold scalar; lia|].
  unfold utf8_char. rewrite (proj2 (Z.ltb_ge _ 128)), (proj2 (Z.ltb_lt _ 2048)) by lia.
  do 2 f_equal; [|f_equal]; apply byte_of_eq; lia.
Qed.

Lemma utf8_char3 b0 b1 b2 : 224 <= byte_to_Z b0 < 240 -> cont b1 = true -> cont b2 = true ->
  let c := (byte_to_Z b0 - 224) * 4096 + low6 b1 * 64 + low6 b2 in
  2048 <= c -> utf8_char c = [b0; b1; b2].
Proof.
  intros H0 H1%cont_range H2%cont_range c Hc. unfold c, low6 in *.
  unfold utf8_char. rewrite (proj2 (Z.ltb_ge _ 128)), (proj2 (Z.ltb_ge _ 2048)),
    (proj2 (Z.ltb_lt _ 65536)) by lia.
  f_equal; [|f_equal; [|f_equal]]; apply byte_of_eq; lia.
Qed.

Lemma utf8_char4 b0 b1 b2 b3 : 240 <= byte_to_Z b0 -> cont b1 = true -> cont b2 = true ->
  cont b3 = true ->
  let c := (byte_to_Z b0 - 240) * 262144 + low6 b1 * 4096 + low6 b2 * 64 + low6 b3 in
  65536 <= c -> utf8_char c = [b0; b1; b2; b3].
Proof.
  intros H0 H1%cont_range H2%cont_range H3%cont_range c Hc. unfold c, low6 in *.
  unfold utf8_char. rewrite (proj2 (Z.ltb_ge _ 128)), (proj2 (Z.ltb_ge _ 2048)),
    (proj2 (Z.ltb_ge _ 65536)) by lia.
  f_equal; [|f_equal; [|f_equal; [|f_equal]]]; apply byte_of_eq; lia.
Qed.

(** Valid bytes are the form of the string read. *)
Lemma from_utf8_sound bs s : from_utf8 bs = Some s -> Forall scalar s /\ utf8 s = bs.
Proof.
  remember (length bs) as n eqn:Hn. revert bs s Hn.
  induction n as [n IH] using lt_wf_ind. intros bs s Hn H.
  destruct bs as [|b0 t]; [injection H as <-; split; [constructor|done]|].
  assert (forall c pre t', b0 :: t = pre ++ t' -> pre <> [] -> scalar c -> utf8_char c = pre ->
    cons c <$> from_utf8 t' = Some s -> Forall scalar s /\ utf8 s = b0 :: t) as Hgo.
  { intros c pre t' Ht Hpre Hc Hu Hs. apply fmap_Some in Hs as (s' & Hs & ->).
    assert (length t' < n)%nat as Hlt.
    { rewrite Hn, Ht, length_app. destruct pre; [done|simpl; lia]. }
    destruct (IH _ Hlt t' s' eq_refl Hs) as [Hs' Hu']. split; [by constructor|].
    unfold utf8 in *. cbn [fmap list_fmap concat]. by rewrite Hu, Hu', Ht. }
  pose proof (byte_to_Z_range b0) as Hb. unfold u8_range in Hb. cbn [from_utf8] in H.
  destruct (byte_to_Z b0 <? 128) eqn:E1.
  { apply (Hgo (byte_to_Z b0) [b0] t); try done; [unfold scalar; lia|].
    unfold utf8_char. rewrite E1. f_equal. apply byte_of_to_Z. }
  destruct (byte_to_Z b0 <? 224) eqn:E2.
  { destruct t as [|b1 t1]; [done|]. destruct (_ && _ && _) eqn:E; [|done].
    rewrite !andb_true_iff in E. destruct E as [[E3 E4] E5].
    destruct (utf8_char2 b0 b1) as [Hc Hu]; [lia|done|lia|].
    by eapply (Hgo _ [b0; b1] t1). }
  destruct (byte_to_Z b0 <? 240) eqn:E3.
  { destruct t as [|b1 [|b2 t2]]; try done. destruct (_ && _ && _ && _) eqn:E; [|done].
    rewrite !andb_true_iff in E. destruct E as [[[E4 E5] E6] Hc%bool_decide_eq_true].
    eapply (Hgo _ [b0; b1; b2] t2); [done|done|exact Hc| |exact H].
    apply utf8_char3; lia || done. }
  destruct t as [|b1 [|b2 [|b3 t3]]]; try done. destruct (_ && _ && _ && _ && _) eqn:E; [|done].
  rewrite !andb_true_iff in E. destruct E as [[[[E4 E5] E6] E7] Hc%bool_decide_eq_true].
  eapply (Hgo _ [b0; b1; b2; b3] t3); [done|done|exact Hc| |exact H].
  apply utf8_char4; lia || done.
Qed.

Lemma utf8_inj s1 s2 : Forall scalar s1 -> Forall scalar s2 -> utf8 s1 = utf8 s2 -> s1 = s2.
Proof.
  intros H1 H2 H. pose proof (from_utf8_utf8 s1 H1) as E. rewrite H, from_utf8_utf8 in E by done.
  congruence.
Qed.
