(* ===== verification/Text.v ===== *)
(** * Strings as keys and as messages

    The order of strings, [BTreeMap]s keyed by strings as sorted association
    lists, and the pieces of [std::fmt] that the error messages use.  The
    Unicode tables behind [{:?}] and the texts of I/O errors are the fields
    of the class [Fmt].  The end of the file has the hexadecimal names of
    content hashes. *)
From stdpp Require Import sorting.
From S2P Require Import Prelude Bytes Utf8.

(** ** Order *)

(** [a.cmp(b)] on strings: by bytes, which for UTF-8 is by characters. *)
Fixpoint str_leb (a b : str) : bool :=
  match a, b with
  | [], _ => true
  | _ :: _, [] => false
  | x :: a, y :: b => if x <? y then true else if x =? y then str_leb a b else false
  end.

Definition str_le (a b : list Z) : Prop := str_leb a b = true.
Definition str_lt (a b : list Z) : Prop := str_leb b a = false.

(** A stable sort by name. *)
Fixpoint insert_by {A : Type} (x : list Z * A) (l : list (list Z * A)) : list (list Z * A) :=
  match l with
  | [] => [x]
  | y :: l' => if str_leb x.1 y.1 then x :: y :: l' else y :: insert_by x l'
  end.

Definition sort_by {A : Type} (l : list (list Z * A)) : list (list Z * A) := foldr insert_by [] l.

(** ** [BTreeMap<str, V>]: bindings by increasing key *)

Section BTree.
Context {V : Type}.

Fixpoint sm_insert (k : str) (v : V) (m : list (list Z * V)) : list (list Z * V) :=
  match m with
  | [] => [(k, v)]
  | (k', v') :: m' =>
      if str_leb k k' then (if str_leb k' k then (k', v) :: m' else (k, v) :: m)
      else (k', v') :: sm_insert k v m'
  end.

Fixpoint sm_get (k : str) (m : list (list Z * V)) : option V :=
  match m with
  | [] => None
  | (k', v') :: m' => if bool_decide (k = k') then Some v' else sm_get k m'
  end.

Definition sm_remove (k : str) (m : list (list Z * V)) : list (list Z * V) :=
  filter (fun kv => kv.1 <> k) m.

Definition sm_of (l : list (list Z * V)) : list (list Z * V) :=
  foldl (fun m kv => sm_insert kv.1 kv.2 m) [] l.

(** The keys increase. *)
Definition sm_wf (m : list (list Z * V)) : Prop := StronglySorted str_lt m.*1.
End BTree.

(** ** Messages *)

(** The text of a literal. *)
Definition chars (s : string) : list Z := (fun a => Z.of_N (Ascii.N_of_ascii a)) <$> String.list_ascii_of_string s.

(** [plain c]: [{:?}] leaves [c] as it is (printable, no grapheme extension). *)
Class Fmt : Type := { plain : Z -> bool; io_text : string -> list Z }.

(** The digits of [z] in a base, on top of [acc]. *)
Fixpoint radix (base : Z) (fuel : nat) (z : Z) (acc : str) : str :=
  match fuel with
  | O => acc
  | S fuel' =>
      let d := z mod base in
      let acc := (if d <? 10 then 48 + d else 87 + d) :: acc in
      if z <? base then acc else radix base fuel' (z / base) acc
  end.

Definition digits : nat -> Z -> list Z -> list Z := radix 10.

(** An [i32]. *)
Definition decimal (z : Z) : str := if z <? 0 then 45 :: digits 10 (- z) [] else digits 10 z [].

Definition debug_char `{Fmt} (c : Z) : str :=
  if c =? 0 then chars "\0" else if c =? 9 then chars "\t" else if c =? 13 then chars "\r"
  else if c =? 10 then chars "\n" else if c =? 34 then [92; 34] else if c =? 92 then [92; 92]
  else if plain c then [c]
  else chars "\u{" ++ radix 16 6 c [] ++ chars "}".

(** [{s:?}]. *)
Definition debug_str `{Fmt} (s : str) : str := [34] ++ concat (debug_char <$> s) ++ [34].

(** * Lemmas *)

Lemma str_leb_refl a : str_leb a a = true.
Proof. induction a as [|x a IH]; cbn; [done|]. by rewrite Z.ltb_irrefl, Z.eqb_refl. Qed.

Lemma str_leb_antisym a b : str_leb a b = true -> str_leb b a = true -> a = b.
Proof.
  revert b. induction a as [|x a IH]; intros [|y b]; cbn; try done.
  destruct (Z.ltb_spec x y), (Z.ltb_spec y x); try lia;
    destruct (Z.eqb_spec x y), (Z.eqb_spec y x); try lia; try done.
  intros. subst. f_equal. auto.
Qed.

Lemma str_leb_trans a b c : str_leb a b = true -> str_leb b c = true -> str_leb a c = true.
Proof.
  revert b c. induction a as [|x a IH]; intros [|y b] [|z c]; cbn; try done.
  destruct (Z.ltb_spec x y), (Z.ltb_spec y z), (Z.ltb_spec x z); try lia; try done;
    destruct (Z.eqb_spec x y), (Z.eqb_spec y z), (Z.eqb_spec x z); try lia; try done. eauto.
Qed.

Lemma str_leb_total a b : str_leb a b = true \/ str_leb b a = true.
Proof.
  revert b. induction a as [|x a IH]; intros [|y b]; cbn; auto.
  destruct (Z.ltb_spec x y), (Z.ltb_spec y x); auto; try lia.
  assert (x = y) as -> by lia. rewrite Z.eqb_refl. apply IH.
Qed.

#[export] Instance str_le_dec : RelDecision str_le.
Proof. intros a b. unfold str_le. apply _. Defined.
#[export] Instance str_le_order : TotalOrder str_le.
Proof.
  split; [split; [split|]|].
  - exact str_leb_refl.
  - exact str_leb_trans.
  - exact str_leb_antisym.
  - intros a b. unfold strict, str_le. destruct (decide (a = b)) as [|Hne]; [by right; left|].
    destruct (str_leb a b) eqn:Hab, (str_leb b a) eqn:Hba.
    + by destruct Hne; apply str_leb_antisym.
    + left. by split.
    + do 2 right. by split.
    + destruct (str_leb_total a b); congruence.
Qed.

Lemma str_lt_le a b : str_lt a b -> str_leb a b = true.
Proof. unfold str_lt. destruct (str_leb_total a b); congruence. Qed.
Lemma str_lt_irrefl a : ~ str_lt a a.
Proof. unfold str_lt. by rewrite str_leb_refl. Qed.
Lemma str_lt_le_trans a b c : str_lt a b -> str_leb b c = true -> str_lt a c.
Proof.
  unfold str_lt. intros Hab Hbc. apply not_true_iff_false. intros Hca.
  by rewrite (str_leb_trans b c a Hbc Hca) in Hab.
Qed.
#[export] Instance str_lt_trans : Transitive str_lt.
Proof. intros a b c Hab Hbc. eapply str_lt_le_trans; [done|by apply str_lt_le]. Qed.

Section BTreeLemmas.
Context {V : Type}.
Implicit Types (k : list Z) (v : V) (m : list (list Z * V)).

Lemma sm_insert_keys k v m x : x ∈ (sm_insert k v m).*1 <-> x = k \/ x ∈ m.*1.
Proof.
  induction m as [|[k' v'] m IH]; cbn [sm_insert].
  { cbn. rewrite list_elem_of_singleton, elem_of_nil. tauto. }
  destruct (str_leb k k') eqn:H1; [destruct (str_leb k' k) eqn:H2|]; rewrite !fmap_cons, !elem_of_cons; cbn [fst].
  - assert (k = k') as -> by by apply str_leb_antisym. tauto.
  - tauto.
  - rewrite IH. tauto.
Qed.

Lemma sm_insert_wf k v m : sm_wf m -> sm_wf (sm_insert k v m).
Proof.
  unfold sm_wf. induction m as [|[k' v'] m IH]; intros Hm; cbn [sm_insert]; [repeat constructor|].
  rewrite fmap_cons in Hm. apply StronglySorted_inv in Hm as [Hm Hk]. cbn [fst] in *.
  destruct (str_leb k k') eqn:H1; [destruct (str_leb k' k) eqn:H2|]; rewrite !fmap_cons; cbn [fst].
  - by constructor.
  - constructor; [by constructor|]. constructor; [done|].
    eapply Forall_impl; [exact Hk|]. intros x Hx. by eapply str_lt_trans.
  - constructor; [by apply IH|]. apply Forall_forall. intros x Hx.
    apply sm_insert_keys in Hx as [-> |Hx]; [done|]. rewrite Forall_forall in Hk. by apply Hk.
Qed.

(** A key above all others goes to the end. *)
Lemma sm_insert_last k v m : Forall (fun x => str_lt x k) m.*1 -> sm_insert k v m = m ++ [(k, v)].
Proof.
  induction m as [|[k' v'] m IH]; cbn [sm_insert fmap list_fmap app]; [done|].
  rewrite Forall_cons. cbn [fst]. intros [Hk Hm]. unfold str_lt in Hk. by rewrite Hk, IH.
Qed.

Lemma sm_insert_all m l : sm_wf (m ++ l) -> foldl (fun m kv => sm_insert kv.1 kv.2 m) m l = m ++ l.
Proof.
  revert m. induction l as [|[k v] l IH]; intros m Hm; cbn [foldl]; [by rewrite app_nil_r|].
  assert (sm_insert k v m = m ++ [(k, v)]) as Hk.
  { apply sm_insert_last. apply Forall_forall. intros x Hx. unfold sm_wf in Hm.
    rewrite fmap_app in Hm. eapply StronglySorted_app_1_elem_of; [exact Hm|done|left]. }
  cbn [fst snd]. rewrite Hk, IH; rewrite <- (assoc_L (++)); done.
Qed.

(** Reading a map back in the order of its keys rebuilds it. *)
Lemma sm_of_sorted (l : list (list Z * V)) : sm_wf l -> sm_of l = l.
Proof. apply (sm_insert_all []). Qed.

Lemma sm_of_wf (l : list (list Z * V)) : sm_wf (sm_of l).
Proof.
  unfold sm_of. assert (sm_wf ([] : list (list Z * V))) as H by constructor. revert H.
  generalize ([] : list (list Z * V)). induction l as [|[k v] l IH]; intros m Hm; [done|].
  cbn [foldl]. apply IH. by apply sm_insert_wf.
Qed.

Lemma sm_insert_elem k v m kv : kv ∈ sm_insert k v m -> kv = (k, v) \/ kv ∈ m.
Proof.
  induction m as [|[k' v'] m IH]; cbn [sm_insert]; [by rewrite list_elem_of_singleton; left|].
  destruct (str_leb k k') eqn:H1; [destruct (str_leb k' k) eqn:H2|]; rewrite !elem_of_cons.
  - intros [-> |?]; [|by right; right]. left. by rewrite (str_leb_antisym k k').
  - tauto.
  - intros [?|[?|?]%IH]; tauto.
Qed.

Lemma sm_of_elem (l : list (list Z * V)) kv : kv ∈ sm_of l -> kv ∈ l.
Proof.
  unfold sm_of. enough (forall m, kv ∈ foldl (fun m kv => sm_insert kv.1 kv.2 m) m l -> kv ∈ m \/ kv ∈ l)
    as H by (intros [?%elem_of_nil|?]%H; done).
  induction l as [|[k v] l IH]; intros m; [by left|]. cbn [foldl].
  intros [[-> |?]%sm_insert_elem|?]%IH; [right; left|by left|right; by right].
Qed.

Lemma sm_of_length (l : list (list Z * V)) : (length (sm_of l) <= length l)%nat.
Proof.
  assert (forall k v m, length (sm_insert k v m) <= S (length m))%nat as Hi.
  { intros k v m. induction m as [|[k' v'] m IH]; cbn [sm_insert]; [done|].
    destruct (str_leb k k'); [destruct (str_leb k' k)|]; cbn [length] in *; lia. }
  unfold sm_of. change (length l) with (length ([] : list (list Z * V)) + length l)%nat.
  generalize ([] : list (list Z * V)). induction l as [|[k v] l IH]; intros m; cbn [foldl length fst snd]; [lia|].
  specialize (IH (sm_insert k v m)). specialize (Hi k v m). lia.
Qed.

Lemma sm_get_insert k v m : sm_get k (sm_insert k v m) = Some v.
Proof.
  induction m as [|[k' v'] m IH]; cbn [sm_insert sm_get]; [by rewrite bool_decide_true|].
  destruct (str_leb k k') eqn:H1; [destruct (str_leb k' k) eqn:H2|]; cbn [sm_get].
  - rewrite bool_decide_true; [done|]. by apply str_leb_antisym.
  - by rewrite bool_decide_true.
  - rewrite bool_decide_false; [done|]. intros ->. by rewrite str_leb_refl in H1.
Qed.

Lemma sm_get_insert_ne k k' v m : k <> k' -> sm_get k (sm_insert k' v m) = sm_get k m.
Proof.
  intros Hne. induction m as [|[l w] m IH]; cbn [sm_insert sm_get]; [by rewrite bool_decide_false|].
  destruct (str_leb k' l) eqn:H1; [destruct (str_leb l k') eqn:H2|]; cbn [sm_get].
  - assert (k' = l) as <- by by apply str_leb_antisym. by rewrite bool_decide_false.
  - by rewrite (bool_decide_false _ Hne).
  - by rewrite IH.
Qed.
End BTreeLemmas.

(** ** Digits *)

(** The number a text of decimal digits denotes. *)
Notation digits_value := (foldl (fun a d => a * 10 + (d - 48)) 0) (only parsing).

Lemma radix_spec fuel : forall z acc, (0 < fuel)%nat -> 0 <= z < 10 ^ Z.of_nat fuel ->
  exists ds, radix 10 fuel z acc = ds ++ acc /\ Forall (fun d => 48 <= d <= 57) ds /\ digits_value ds = z.
Proof.
  induction fuel as [|fuel IH]; intros z acc Hf Hz; [lia|]. cbn [radix].
  pose proof (Z.mod_pos_bound z 10 ltac:(lia)).
  assert (z mod 10 <? 10 = true) as -> by (apply Z.ltb_lt; lia).
  destruct (Z.ltb_spec z 10) as [H10|H10].
  - exists [48 + z mod 10]. rewrite Z.mod_small by lia. repeat split; [|cbn; lia].
    apply Forall_singleton. lia.
  - rewrite Nat2Z.inj_succ, Z.pow_succ_r in Hz by lia.
    assert (0 < Z.of_nat fuel) as Hpos.
    { destruct fuel; [|lia]. change (10 ^ Z.of_nat 0) with 1 in Hz. lia. }
    destruct (IH (z / 10) (48 + z mod 10 :: acc)) as (ds & -> & Hds & Hv); [lia| |].
    { split; [apply Z.div_pos; lia | apply Z.div_lt_upper_bound; lia]. }
    exists (ds ++ [48 + z mod 10]). rewrite <- app_assoc. repeat split.
    + apply Forall_app. split; [exact Hds|]. apply Forall_singleton. lia.
    + rewrite foldl_app, Hv. cbn. pose proof (Z.div_mod z 10). lia.
Qed.

Lemma digits_inj fuel z z' : (0 < fuel)%nat -> 0 <= z < 10 ^ Z.of_nat fuel -> 0 <= z' < 10 ^ Z.of_nat fuel ->
  digits fuel z [] = digits fuel z' [] -> z = z'.
Proof.
  intros Hf Hz Hz' He. unfold digits in He.
  destruct (radix_spec fuel z [] Hf Hz) as (ds & E & _ & Hv).
  destruct (radix_spec fuel z' [] Hf Hz') as (ds' & E' & _ & Hv').
  rewrite app_nil_r in E, E'. congruence.
Qed.

Lemma radix_chars fuel : forall z acc c, c ∈ radix 10 fuel z acc -> c ∈ acc \/ 48 <= c <= 57.
Proof.
  induction fuel as [|fuel IH]; intros z acc c; cbn [radix]; [auto|].
  pose proof (Z.mod_pos_bound z 10 ltac:(lia)).
  assert (z mod 10 <? 10 = true) as -> by (apply Z.ltb_lt; lia). intros Hc.
  assert (c ∈ 48 + z mod 10 :: acc \/ 48 <= c <= 57) as [H'|]; [destruct (z <? 10); eauto| |auto].
  apply elem_of_cons in H' as [->|]; [right; lia|auto].
Qed.

Lemma digits_chars fuel z c : c ∈ digits fuel z [] -> 48 <= c <= 57.
Proof. intros [H%not_elem_of_nil|]%radix_chars; done. Qed.

(** ** Sorting by name *)

Lemma insert_by_first {A} (x : list Z * A) l : Forall (fun y => str_lt x.1 y.1) l -> insert_by x l = x :: l.
Proof. intros [|y l' Hy _]; [done|]. cbn. by rewrite str_lt_le. Qed.

Lemma sort_by_sorted {A} (l : list (list Z * A)) : sm_wf l -> sort_by l = l.
Proof.
  unfold sm_wf. induction l as [|x l IH]; [done|]. cbn [fmap list_fmap]. intros [Hl Hx]%StronglySorted_inv.
  change (insert_by x (sort_by l) = x :: l). rewrite IH by done. apply insert_by_first. by rewrite Forall_fmap in Hx.
Qed.

Lemma sm_wf_nodup {A} (l : list (list Z * A)) : sm_wf l -> NoDup l.*1.
Proof.
  unfold sm_wf. induction l as [|x l IH]; [constructor|]. cbn [fmap list_fmap]. intros [Hl Hx]%StronglySorted_inv. constructor; [|by apply IH].
  rewrite Forall_forall in Hx. intros Hin. by apply (str_lt_irrefl x.1), Hx.
Qed.

Lemma insert_by_perm {A} (x : list Z * A) l : Permutation (insert_by x l) (x :: l).
Proof. induction l as [|y l IH]; [done|]. cbn. case_match; [done|]. rewrite IH. apply Permutation_swap. Qed.

Lemma sort_by_perm {A} (l : list (list Z * A)) : Permutation (sort_by l) l.
Proof. induction l as [|x l IH]; [done|]. change (Permutation (insert_by x (sort_by l)) (x :: l)). by rewrite insert_by_perm, IH. Qed.

Lemma insert_by_wf {A} (x : list Z * A) l : sm_wf l -> x.1 ∉ l.*1 -> sm_wf (insert_by x l).
Proof.
  unfold sm_wf. induction l as [|y l IH]; intros Hl Hx; [by repeat constructor|]. cbn [fmap list_fmap] in *. apply StronglySorted_inv in Hl as [Hl Hy].
  rewrite not_elem_of_cons in Hx. destruct Hx as [Hxy Hx]. cbn [insert_by]. destruct (str_leb x.1 y.1) eqn:E; cbn [fmap list_fmap].
  - assert (str_lt x.1 y.1) as Hlt by (unfold str_lt; apply not_true_iff_false; intros E2; by apply Hxy, str_leb_antisym).
    constructor; [by constructor|]. constructor; [done|]. eapply Forall_impl; [exact Hy|]. intros z Hz. by eapply str_lt_trans.
  - constructor; [by apply IH|]. apply Forall_forall. intros z Hz.
    assert (z ∈ (x :: l).*1) as Hz2 by (by rewrite <- (insert_by_perm x l)). cbn in Hz2. apply elem_of_cons in Hz2 as [->|Hz2]; [exact E|].
    rewrite Forall_forall in Hy. by apply Hy.
Qed.

Lemma sort_by_wf {A} (l : list (list Z * A)) : NoDup l.*1 -> sm_wf (sort_by l).
Proof.
  induction l as [|x l IH]; [constructor|]. cbn [fmap list_fmap]. intros [Hx Hn]%NoDup_cons. change (sm_wf (insert_by x (sort_by l))).
  apply insert_by_wf; [by apply IH|]. by rewrite (sort_by_perm l).
Qed.

(** ** Concatenation *)

Lemma elem_of_concat {A} (x : A) ls : x ∈ concat ls <-> exists l, x ∈ l /\ l ∈ ls.
Proof.
  induction ls as [|l ls IH]; cbn; [set_solver|]. rewrite elem_of_app, IH. set_solver.
Qed.

(** * Hexadecimal names of content hashes

    The lower-case file names of [dnx-dist] ([disk.rs]) and [dnx-store]
    ([path.rs], [store.rs]), and the digit reader of the latter. *)

(** [b"0123456789abcdef"]. *)
Definition LUT : str := [48; 49; 50; 51; 52; 53; 54; 55; 56; 57; 97; 98; 99; 100; 101; 102].

Definition hex_byte (b : byte) : str :=
  [nth (Z.to_nat (Z.shiftr (byte_to_Z b) 4)) LUT 0; nth (Z.to_nat (Z.land (byte_to_Z b) 15)) LUT 0].

Definition hex (hash : list byte) : str := concat (hex_byte <$> hash).

Definition hex_val (c : Z) : option Z :=
  if (48 <=? c) && (c <=? 57) then Some (c - 48)
  else if (97 <=? c) && (c <=? 102) then Some (c - 97 + 10)
  else None.

(** [(hi << 4) | lo]. *)
Definition hex_pair (hi lo : Z) : option byte :=
  hi ← hex_val hi;
  lo ← hex_val lo;
  Some (byte_of_Z (Z.lor (Z.shiftl hi 4) lo)).

(** * Lemmas *)

Lemma hex_pair_byte b : exists hi lo, hex_byte b = [hi; lo] /\ hex_pair hi lo = Some b
  /\ 48 <= hi < 128 /\ 48 <= lo < 128.
Proof. do 2 eexists. split; [reflexivity|]. destruct b; vm_compute; repeat split; congruence. Qed.

(** A property of the integers of an interval, decided by listing them. *)
Lemma forall_seqZ (P : Z -> bool) m k n : forallb P (seqZ m k) = true -> m <= n < m + k -> P n = true.
Proof.
  intros H Hn. rewrite forallb_forall in H. apply H. apply list_elem_of_In, elem_of_seqZ. lia.
Qed.

Lemma hex_val_digit c x : hex_val c = Some x -> 0 <= x < 16 /\ c = nth (Z.to_nat x) LUT 0.
Proof.
  intros H. assert (48 <= c < 48 + 60) as Hc by (unfold hex_val in H; repeat case_match; lia || done).
  apply (forall_seqZ (fun c => match hex_val c with
    | Some x => (0 <=? x) && (x <? 16) && (c =? nth (Z.to_nat x) LUT 0) | None => true end) 48 60 c)
    in Hc; [|reflexivity].
  rewrite H in Hc. lia.
Qed.

(** The digits read are the digits written. *)
Lemma hex_pair_sound hi lo b : hex_pair hi lo = Some b -> hex_byte b = [hi; lo].
Proof.
  unfold hex_pair. intros H. destruct (hex_val hi) as [x|] eqn:Hx; [|done].
  destruct (hex_val lo) as [y|] eqn:Hy; [|done]. cbn in H. injection H as <-.
  apply hex_val_digit in Hx as [Hx ->], Hy as [Hy ->].
  pose proof (forall_seqZ (fun x => forallb (fun y =>
    bool_decide (hex_byte (byte_of_Z (Z.lor (Z.shiftl x 4) y))
                 = [nth (Z.to_nat x) LUT 0; nth (Z.to_nat y) LUT 0])) (seqZ 0 16)) 0 16 x) as H.
  specialize (H eq_refl Hx). apply (forall_seqZ _ 0 16 y) in H; [|done].
  by apply bool_decide_eq_true in H.
Qed.

Lemma hex_cons b h : hex (b :: h) = hex_byte b ++ hex h.
Proof. done. Qed.

Lemma hex_length h : length (hex h) = (2 * length h)%nat.
Proof.
  induction h as [|b h IH]; [done|]. rewrite hex_cons, length_app, IH.
  destruct (hex_pair_byte b) as (hi & lo & -> & _). simpl. lia.
Qed.

(** Every character is ASCII. *)
Lemma hex_ascii h : Forall (fun c => 48 <= c < 128) (hex h).
Proof.
  induction h as [|b h IH]; [constructor|]. rewrite hex_cons. apply Forall_app. split; [|done].
  destruct (hex_pair_byte b) as (hi & lo & -> & _ & ? & ?). by rewrite !Forall_cons, Forall_nil.
Qed.

Lemma hex_inj h1 h2 : hex h1 = hex h2 -> h1 = h2.
Proof.
  revert h2. induction h1 as [|a h1 IH]; intros [|b h2] H; rewrite ?hex_cons in H.
  - done.
  - by destruct (hex_pair_byte b) as (hi & lo & E & _); rewrite E in H.
  - by destruct (hex_pair_byte a) as (hi & lo & E & _); rewrite E in H.
  - destruct (hex_pair_byte a) as (hi & lo & E & Ha & _), (hex_pair_byte b) as (hi' & lo' & E' & Hb & _).
    rewrite E, E' in H. injection H as -> -> H. rewrite Ha in Hb. injection Hb as ->.
    f_equal. by apply IH.
Qed.
