(* ===== verification/Codec.v ===== *)
(** * Readers of length-delimited bodies

    The cursor of a frame body that [dnx-dist] ([wire.rs]) and [dnx-daemon]
    ([proto.rs]) each define, with the error on a short body as a parameter,
    and the loop that reads a counted run of elements.  The lemmas give each
    reader its encoding through the codec interface of [Bytes].  The end of
    the file has the actions that write and may fail. *)
From S2P Require Import Prelude Bytes.

Section Cursor.
Context {E : Type} (short : E).

(** [self.take(1)?[0]]. *)
Definition c_u8 (c : cursor) : res E (Z * cursor) :=
  '(s, c) ← take_n short 1 c;
  b ← index s 0;
  Ok (byte_to_Z b, c).

(** [u32::from_le_bytes(self.take(4)?)]. *)
Definition c_u32 (c : cursor) : res E (Z * cursor) :=
  '(s, c) ← take_n short 4 c;
  Ok (le_val s, c).

(** A 32-byte hash. *)
Definition c_hash (c : cursor) : res E (list byte * cursor) := take_n short 32 c.

(** A length-prefixed run of bytes. *)
Definition c_bytes (c : cursor) : res E (list byte * cursor) :=
  '(n, c) ← c_u32 c;
  take_n short (Z.to_nat n) c.

(** [for _ in 0..n { out.push(read(c)?) }]. *)
Fixpoint read_n {A : Type} (read : cursor -> res E (A * cursor)) (n : nat) (c : cursor)
    (out : list A) : res E (list A * cursor) :=
  match n with
  | O => Ok (out, c)
  | S n' => '(x, c) ← read c; read_n read n' c (out ++ [x])
  end.

(** A count and that many elements. *)
Definition c_counted {A : Type} (read : cursor -> res E (A * cursor)) (c : cursor)
    : res E (list A * cursor) :=
  '(n, c) ← c_u32 c;
  read_n read (Z.to_nat n) c [].

(** The same loop for a 64-bit count: it stops at the first error, however
    large the count. *)
Fixpoint repeat_pos {S : Type} (step : S -> res E S) (p : positive) (s : S) : res E S :=
  match p with
  | xH => step s
  | xO p => s ← repeat_pos step p s; repeat_pos step p s
  | xI p => s ← step s; s ← repeat_pos step p s; repeat_pos step p s
  end.

Definition read_z {A : Type} (read : cursor -> res E (A * cursor)) (n : Z) (c : cursor)
    : res E (list A * cursor) :=
  match n with
  | Zpos p => repeat_pos (fun '(out, c) => '(x, c) ← read c; Ok (out ++ [x], c)) p ([], c)
  | _ => Ok ([], c)
  end.

(** The whole body must be used. *)
Definition finish (trailing : E) (c : cursor) : res E unit :=
  if cur_done c then Ok tt else Err trailing.
End Cursor.

(** The call ends: with a value or an error, not a panic or a loop. *)
Definition total {E A : Type} (m : res E A) : Prop :=
  match m with Ok _ | Err _ => True | Panic | Fuel => False end.

(** ** Encodings *)

Definition enc_bytes (b : list byte) : list byte := u32_le (Z.of_nat (length b)) ++ b.
Definition enc_counted {A : Type} (enc : A -> list byte) (l : list A) : list byte :=
  u32_le (Z.of_nat (length l)) ++ concat (enc <$> l).

Definition short_list {A : Type} (l : list A) : Prop := u32_range (Z.of_nat (length l)).
Definition is_hash (h : list byte) : Prop := length h = 32%nat.

(** * Lemmas *)

(** Read [x] where its encoding comes next. *)
Ltac read_next x Hv Hw Hr :=
  rewrite <- ?(assoc_L (++)) in Hr;
  rewrite (dec_enc x _ _ Hw Hv Hr); cbn [mbind res_bind];
  let Hw' := fresh "Hw" in let Hr' := fresh "Hr" in
  pose proof (cur_wf_advance _ _ _ Hw Hr) as Hw';
  pose proof (rest_advance_app _ _ _ Hr) as Hr';
  clear Hw Hr; rename Hw' into Hw; rename Hr' into Hr.

(** Decide the comparisons of numeric tags. *)
Ltac kind_tests :=
  repeat match goal with
  | H : context [Z.eqb (Zpos ?a) (Zpos ?b)] |- _ =>
      let v := eval vm_compute in (Z.eqb (Zpos a) (Zpos b)) in
      change (Z.eqb (Zpos a) (Zpos b)) with v in H
  | |- context [Z.eqb (Zpos ?a) (Zpos ?b)] =>
      let v := eval vm_compute in (Z.eqb (Zpos a) (Zpos b)) in
      change (Z.eqb (Zpos a) (Zpos b)) with v
  end; cbn iota in *.

(** ** Counted loops *)

Lemma foldl_app_concat {A} (buf : list A) l : foldl app buf l = buf ++ concat l.
Proof.
  revert buf. induction l as [|x l IH]; intros buf; cbn; [by rewrite app_nil_r|].
  by rewrite IH, (assoc_L (++)).
Qed.

Lemma foldl_write {A B} (w : list B -> A -> list B) (enc : A -> list B) buf l :
  (forall buf x, w buf x = buf ++ enc x) -> foldl w buf l = buf ++ concat (enc <$> l).
Proof.
  intros Hw. revert buf. induction l as [|x l IH]; intros buf; cbn; [by rewrite app_nil_r|].
  by rewrite IH, Hw, (assoc_L (++)).
Qed.

Section ReadZ.
Context {E A : Type} (read : cursor -> res E (A * cursor)).

Lemma read_n_add n m c acc :
  read_n read (n + m) c acc = ('(out, c) ← read_n read n c acc; read_n read m c out).
Proof.
  revert c acc. induction n as [|n IH]; intros c acc; [done|]. cbn [Nat.add read_n].
  destruct (read c) as [[x c']|e| |]; cbn [mbind res_bind]; auto.
Qed.

Lemma repeat_pos_read p acc c :
  repeat_pos (fun '(out, c) => '(x, c) ← read c; Ok (out ++ [x], c)) p (acc, c)
  = read_n read (Pos.to_nat p) c acc.
Proof.
  revert acc c. induction p as [p IH|p IH|]; intros acc c; cbn [repeat_pos].
  - rewrite Pos2Nat.inj_xI. replace (S (2 * Pos.to_nat p)) with (1 + (Pos.to_nat p + Pos.to_nat p))%nat by lia.
    rewrite read_n_add. cbn [read_n]. destruct (read c) as [[x c']|e| |]; cbn [mbind res_bind]; try done.
    rewrite read_n_add, IH.
    destruct (read_n read (Pos.to_nat p) c' (acc ++ [x])) as [[out c1]|e| |]; cbn [mbind res_bind]; auto.
  - rewrite Pos2Nat.inj_xO. replace (2 * Pos.to_nat p)%nat with (Pos.to_nat p + Pos.to_nat p)%nat by lia.
    rewrite read_n_add, IH.
    destruct (read_n read (Pos.to_nat p) c acc) as [[out c1]|e| |]; cbn [mbind res_bind]; auto.
  - change (Pos.to_nat 1) with 1%nat. cbn [read_n]. by destruct (read c) as [[x c']|e| |].
Qed.

Lemma read_z_eq n c : read_z read n c = read_n read (Z.to_nat n) c [].
Proof. destruct n; [done| |done]. apply repeat_pos_read. Qed.
End ReadZ.

(** ** Totality *)

Section Total.
Context {E : Type}.

Lemma total_bind {A B} (m : res E A) (k : A -> res E B) :
  total m -> (forall a, m = Ok a -> total (k a)) -> total (x ← m; k x).
Proof. destruct m; simpl; auto. Qed.
Lemma total_if {A} (b : bool) (m1 m2 : res E A) : total m1 -> total m2 -> total (if b then m1 else m2).
Proof. by destruct b. Qed.
Lemma total_Ok {A} (a : A) : total (E := E) (Ok a).
Proof. done. Qed.
Lemma total_Err {A} (e : E) : total (A := A) (Err e).
Proof. done. Qed.
Lemma total_ok_or {A} (o : option A) (e : E) : total (ok_or o e).
Proof. by destruct o. Qed.
Lemma total_mapMr {A B} (f : A -> res E B) l : (forall x, total (f x)) -> total (mapMr f l).
Proof.
  intros Hf. induction l as [|x l IH]; cbn [mapMr]; [done|]. apply total_bind; [done|]. intros y _.
  by apply total_bind.
Qed.
Lemma total_foldM {S A} (f : S -> A -> res E S) l s :
  (forall s x, total (f s x)) -> total (foldM f l s).
Proof. intros Hf. revert s. induction l as [|x l IH]; intros s; cbn [foldM]; [done|]. by apply total_bind. Qed.
Lemma total_take_n (e : E) n c : total (take_n e n c).
Proof. unfold take_n, get_range. by destruct (_ <=? _)%nat. Qed.
Lemma total_finish (e : E) c : total (finish e c).
Proof. unfold finish. by destruct (cur_done c). Qed.
Lemma total_c_u8 (e : E) c : total (c_u8 e c).
Proof.
  unfold c_u8, take_n, get_range. destruct (Nat.leb_spec (cur_pos c + 1) (length (cur_bytes c)));
    [|done]. cbn [ok_or mbind res_bind].
  destruct (drop (cur_pos c) (cur_bytes c)) eqn:Hd; [|done].
  apply (f_equal length) in Hd. rewrite length_drop in Hd. simpl in Hd. lia.
Qed.
End Total.

Lemma total_map_err {E F A} (f : E -> F) (m : res E A) : total m -> total (map_err f m).
Proof. by destruct m. Qed.

Create HintDb total.
#[export] Hint Resolve total_map_err total_mapMr total_foldM total_Ok total_Err total_ok_or total_take_n total_finish total_c_u8
  total_if : total.

Ltac total :=
  repeat first [ progress auto with total
               | apply total_bind; [|intros ? _]
               | match goal with |- total (match ?x with _ => _ end) => destruct x end ].

Lemma total_c_u32 {E} (e : E) c : total (c_u32 e c).
Proof. unfold c_u32. total. Qed.
Lemma total_c_hash {E} (e : E) c : total (c_hash e c).
Proof. unfold c_hash. total. Qed.
#[export] Hint Resolve total_c_u32 total_c_hash : total.
Lemma total_c_bytes {E} (e : E) c : total (c_bytes e c).
Proof. unfold c_bytes. total. Qed.
Lemma total_read_n {E A} (read : cursor -> res E (A * cursor)) n c acc :
  (forall c, total (read c)) -> total (read_n read n c acc).
Proof.
  intros H. revert c acc. induction n as [|n IH]; intros c acc; cbn [read_n]; total.
Qed.
Lemma total_read_z {E A} (read : cursor -> res E (A * cursor)) n c :
  (forall c, total (read c)) -> total (read_z read n c).
Proof. intros H. rewrite read_z_eq. by apply total_read_n. Qed.
#[export] Hint Resolve total_c_bytes total_read_n total_read_z : total.
Lemma total_c_counted {E A} (e : E) (read : cursor -> res E (A * cursor)) c :
  (forall c, total (read c)) -> total (c_counted e read c).
Proof. intros H. unfold c_counted. total. Qed.
#[export] Hint Resolve total_c_counted : total.

Section Codecs.
Context {E : Type} (short : E).

(** A little-endian integer of [k] bytes, converted by [conv]. *)
Lemma le_complete (k : nat) (valid : Z -> Prop) (conv enc : Z -> Z) :
  (forall z, valid z -> conv (enc z mod 2 ^ (8 * Z.of_nat k)) = z) ->
  CodecComplete valid (fun z => le_bytes k (enc z))
    (fun r => '(bs, r) ← take_n short k r; Ok (conv (le_val bs), r)).
Proof.
  intros Hce z r t Hw Hv Hr.
  pose proof (take_n_complete short k _ r t Hw (le_bytes_length k (enc z)) Hr) as ->.
  simpl. by rewrite le_val_bytes, Hce.
Qed.

Lemma le_sound (k : nat) (valid : Z -> Prop) (conv enc : Z -> Z) :
  (forall z, 0 <= z < 2 ^ (8 * Z.of_nat k) -> valid (conv z) /\ enc (conv z) = z) ->
  CodecSound valid (fun z => le_bytes k (enc z))
    (fun r => '(bs, r) ← take_n short k r; Ok (conv (le_val bs), r)).
Proof.
  intros Hec z r r' Hw H. inv_ok. destruct a as [bs r1]. inv_ok. subst z r'.
  destruct (take_n_sound short k bs r r1 Hw H0) as (Hl & Hr & Hadv).
  destruct (Hec (le_val bs)) as [Hv He]; [rewrite <- Hl; apply le_val_range|].
  split; [done|]. rewrite He, <- Hl, le_bytes_val. done.
Qed.

#[export] Instance c_u32_complete : CodecComplete u32_range u32_le (c_u32 short).
Proof. apply (le_complete 4 u32_range id id). intros z. apply Z.mod_small. Qed.
#[export] Instance c_u32_sound : CodecSound u32_range u32_le (c_u32 short).
Proof. apply (le_sound 4 u32_range id id). done. Qed.

#[export] Instance c_u8_complete : CodecComplete u8_range (fun z => [byte_of_Z z]) (c_u8 short).
Proof.
  intros z r t Hw Hz Hr. unfold c_u8.
  pose proof (take_n_complete short 1 [byte_of_Z z] r t Hw eq_refl Hr) as ->.
  simpl. rewrite byte_to_of_Z. unfold as_u8. by rewrite wrap_small.
Qed.

#[export] Instance c_u8_sound : CodecSound u8_range (fun z => [byte_of_Z z]) (c_u8 short).
Proof.
  intros z r r' Hw H. unfold c_u8 in H. apply bind_Ok in H as ([s r1] & H & H1).
  destruct (take_n_sound short 1 s r r1 Hw H) as (Hl & Hr & ->).
  destruct s as [|b [|]]; try done. injection H1 as <- <-. rewrite byte_of_to_Z.
  split; [apply byte_to_Z_range|]. by split.
Qed.

#[export] Instance c_hash_complete : CodecComplete is_hash (fun h => h) (c_hash short).
Proof. exact (take_n_complete short 32). Qed.
#[export] Instance c_hash_sound : CodecSound is_hash (fun h => h) (c_hash short).
Proof. exact (take_n_sound short 32). Qed.

#[export] Instance c_bytes_complete : CodecComplete short_list enc_bytes (c_bytes short).
Proof.
  intros b r t Hw Hb Hr. unfold c_bytes, enc_bytes in *.
  read_next (Z.of_nat (length b)) Hb Hw Hr. rewrite Nat2Z.id.
  rewrite (take_n_complete short (length b) b _ t Hw eq_refl Hr).
  by rewrite advance_advance, length_app.
Qed.

#[export] Instance c_bytes_sound : CodecSound short_list enc_bytes (c_bytes short).
Proof.
  intros b r r' Hw H. unfold c_bytes in H. apply bind_Ok in H as ([n r1] & H & H1).
  destruct (enc_dec _ _ _ Hw H) as (Hn & Hr & ->).
  destruct (take_n_sound short _ b _ r' (cur_wf_advance _ _ _ Hw Hr) H1) as (Hl & Hr1 & ->).
  unfold u32_range in Hn. unfold short_list, enc_bytes, u32_range.
  assert (Z.of_nat (length b) = n) as -> by lia.
  split; [done|]. rewrite Hr, Hr1, length_app, advance_advance. by rewrite (assoc_L (++)).
Qed.

Section Counted.
Context {A : Type} (valid : A -> Prop) (enc : A -> list byte) (read : cursor -> res E (A * cursor)).

Lemma read_n_complete `{!CodecComplete valid enc read} l r acc t : cur_wf r -> Forall valid l ->
  rest r = concat (enc <$> l) ++ t ->
  read_n read (length l) r acc = Ok (acc ++ l, advance (length (concat (enc <$> l))) r).
Proof.
  revert r acc. induction l as [|x l IH]; intros r acc Hw Hv Hr.
  - cbn. by rewrite app_nil_r, advance_0.
  - apply Forall_cons in Hv as [Hx Hv]. cbn [read_n length fmap list_fmap concat] in *.
    read_next x Hx Hw Hr. rewrite (IH _ _ Hw Hv Hr), length_app, advance_advance.
    by rewrite <- (assoc_L (++)).
Qed.

Lemma read_n_sound `{!CodecSound valid enc read} n r acc out r' : cur_wf r ->
  read_n read n r acc = Ok (out, r') ->
  exists l, out = acc ++ l /\ length l = n /\ Forall valid l
    /\ rest r = concat (enc <$> l) ++ rest r'
    /\ r' = advance (length (concat (enc <$> l))) r /\ cur_wf r'.
Proof.
  revert r acc. induction n as [|n IH]; intros r acc Hw H; cbn [read_n] in H.
  - injection H as <- <-. exists []. cbn. rewrite app_nil_r, advance_0.
    repeat (split; [done || constructor|]). done.
  - apply bind_Ok in H as ([x r1] & H0 & H1). destruct (enc_dec _ _ _ Hw H0) as (Hx & Hr1 & ->).
    pose proof (cur_wf_advance _ _ _ Hw Hr1) as Hw1.
    destruct (IH _ _ Hw1 H1) as (l & -> & Hl & Hv & Hr & -> & Hw').
    exists (x :: l). rewrite <- (assoc_L (++)). split; [done|]. split; [simpl; by f_equal|].
    split; [by constructor|]. cbn [fmap list_fmap concat].
    split; [by rewrite Hr1, Hr, (assoc_L (++))|]. split; [|done].
    by rewrite length_app, advance_advance.
Qed.

Definition valid_counted (l : list A) : Prop := short_list l /\ Forall valid l.

Lemma c_counted_complete : CodecComplete valid enc read ->
  CodecComplete valid_counted (enc_counted enc) (c_counted short read).
Proof.
  intros Hc l r t Hw [Hn Hv] Hr. unfold c_counted, enc_counted in *.
  read_next (Z.of_nat (length l)) Hn Hw Hr. rewrite Nat2Z.id.
  rewrite (read_n_complete l _ [] t Hw Hv Hr).
  by rewrite advance_advance, length_app.
Qed.

Lemma c_counted_sound : CodecSound valid enc read ->
  CodecSound valid_counted (enc_counted enc) (c_counted short read).
Proof.
  intros Hc l r r' Hw H. unfold c_counted in H. apply bind_Ok in H as ([n r1] & H & H1).
  destruct (enc_dec _ _ _ Hw H) as (Hn & Hr & ->).
  destruct (read_n_sound _ _ _ _ _ (cur_wf_advance _ _ _ Hw Hr) H1)
    as (l' & -> & Hl & Hv & Hr1 & -> & _). cbn [app].
  unfold u32_range in Hn. unfold valid_counted, short_list, enc_counted, u32_range.
  assert (Z.of_nat (length l') = n) as -> by lia.
  split; [done|]. rewrite Hr, Hr1, length_app, advance_advance. by rewrite (assoc_L (++)).
Qed.

(** A run of elements is at least as long as it has non-empty elements. *)
Lemma counted_length l : (forall x, valid x -> (1 <= length (enc x))%nat) -> Forall valid l ->
  (length l <= length (concat (enc <$> l)))%nat.
Proof.
  intros H1 Hv. induction Hv as [|x l Hx Hv IH]; cbn; [lia|]. rewrite length_app.
  specialize (H1 x Hx). lia.
Qed.
End Counted.

(** ** Progress *)

(** A successful read leaves the cursor in bounds and [k] bytes further. *)
Definition eats {A : Type} (k : nat) (read : cursor -> res E (A * cursor)) : Prop :=
  forall c x c', cur_wf c -> read c = Ok (x, c') ->
    cur_bytes c' = cur_bytes c /\ cur_wf c' /\ (cur_pos c + k <= cur_pos c')%nat.

Lemma sound_eats {A} (valid : A -> Prop) enc (read : cursor -> res E (A * cursor)) k :
  CodecSound valid enc read -> (forall x, valid x -> (k <= length (enc x))%nat) -> eats k read.
Proof.
  intros Hs Hk c x c' Hw H. destruct (Hs x c c' Hw H) as (Hv & Hr & ->).
  split; [done|]. split; [by eapply cur_wf_advance|]. specialize (Hk x Hv). simpl. lia.
Qed.

(** Reading [n] elements of at least one byte uses [n] bytes. *)
Lemma read_n_eats {A} (read : cursor -> res E (A * cursor)) n c acc out c' : eats 1 read ->
  cur_wf c -> read_n read n c acc = Ok (out, c') ->
  cur_bytes c' = cur_bytes c /\ cur_wf c'
  /\ (cur_pos c + length out <= cur_pos c' + length acc)%nat.
Proof.
  intros He. revert c acc. induction n as [|n IH]; intros c acc Hw H; cbn [read_n] in H.
  - injection H as <- <-. repeat split; auto.
  - apply bind_Ok in H as ([x c1] & H0 & H1). destruct (He _ _ _ Hw H0) as (Hb & Hw1 & Hp).
    destruct (IH _ _ Hw1 H1) as (Hb' & Hw' & Hp'). rewrite length_app in Hp'. simpl in Hp'.
    split; [congruence|]. split; [done|]. lia.
Qed.

Lemma c_counted_eats {A} (read : cursor -> res E (A * cursor)) c out c' : eats 1 read ->
  cur_wf c -> c_counted short read c = Ok (out, c') ->
  cur_bytes c' = cur_bytes c /\ cur_wf c' /\ (cur_pos c + length out <= cur_pos c')%nat.
Proof.
  intros He Hw H. unfold c_counted in H. apply bind_Ok in H as ([n c1] & H0 & H1).
  destruct (sound_eats _ _ (c_u32 short) 0 _ ltac:(lia) _ _ _ Hw H0) as (Hb & Hw1 & Hp).
  destruct (read_n_eats _ _ _ _ _ _ He Hw1 H1) as (Hb' & Hw' & Hp'). simpl in Hp'.
  split; [congruence|]. split; [done|]. lia.
Qed.
End Codecs.

#[export] Hint Extern 1 (CodecComplete _ _ (c_counted _ _)) =>
  refine (c_counted_complete _ _ _ _ _) : typeclass_instances.
#[export] Hint Extern 1 (CodecSound _ _ (c_counted _ _)) =>
  refine (c_counted_sound _ _ _ _ _) : typeclass_instances.

(** * Operations that write and may fail

    An operation on a directory or a store returns its result next to the
    state it leaves, so what was written before an error stays written. *)

Definition act (S E A : Type) : Type := S -> res E A * S.

#[export] Instance act_ret {S E} : MRet (act S E) := fun A a s => (Ok a, s).
#[export] Instance act_bind {S E} : MBind (act S E) := fun A B k m s =>
  match m s with
  | (Ok a, s') => k a s'
  | (Err e, s') => (Err e, s')
  | (Panic, s') => (Panic, s')
  | (Fuel, s') => (Fuel, s')
  end.

(** A step that only computes. *)
Definition pure_act {S E A} (m : res E A) : act S E A := fun s => (m, s).
Definition throw {S E A} (e : E) : act S E A := pure_act (Err e).
(** A computation on the current state. *)
Definition reads {S E A} (f : S -> res E A) : act S E A := fun s => (f s, s).
(** A change of the state that may fail. *)
Definition updates {S E} (f : S -> res E S) : act S E unit := fun s =>
  match f s with
  | Ok s' => (Ok tt, s')
  | Err e => (Err e, s)
  | Panic => (Panic, s)
  | Fuel => (Fuel, s)
  end.
(** [m.or_else(h)], [h] also given the state after the failure. *)
Definition catch {S E A} (m : act S E A) (h : E -> act S E A) : act S E A := fun s =>
  match m s with
  | (Err e, s') => h e s'
  | r => r
  end.
(** [let r = m; c; r]. *)
Definition finally {S E A} (m : act S E A) (c : S -> S) : act S E A := fun s =>
  let '(r, s') := m s in (r, c s').
(** An action on a part of the state, its errors converted. *)
Definition zoom {S T E F A} (get : T -> S) (put : S -> T -> T) (f : E -> F) (m : act S E A) : act T F A :=
  fun t => let '(r, s) := m (get t) in (map_err f r, put s t).
(** [for x in l { f(x)?; }]. *)
Fixpoint for_each {S E A} (f : A -> act S E unit) (l : list A) : act S E unit :=
  match l with
  | [] => mret tt
  | x :: l => _ ← f x; for_each f l
  end.

(** An action that ends: [Q] of its value and the state, or [F] of the state
    it leaves behind an error. *)
Definition ends_in {S E A} (r : res E A * S) (Q : A -> S -> Prop) (F : S -> Prop) : Prop :=
  match r with
  | (Ok a, s) => Q a s
  | (Err _, s) => F s
  | (Panic, _) | (Fuel, _) => False
  end.

(** The action ends on every state: no panic, no endless loop. *)
Definition steady {S E A} (m : act S E A) : Prop := forall s, total (m s).1.

(** * Lemmas *)

Section Ends.
Context {S E : Type}.

Lemma ends_bind {A B} (m : act S E A) (k : A -> act S E B) s (R : A -> S -> Prop)
    (Q : B -> S -> Prop) (F : S -> Prop) :
  ends_in (m s) R F -> (forall a s', R a s' -> ends_in (k a s') Q F) ->
  ends_in ((x ← m; k x) s) Q F.
Proof. unfold mbind, act_bind. destruct (m s) as [[a|e| |] s']; simpl; auto. Qed.

Lemma ends_mono {A} (r : res E A * S) (Q Q' : A -> S -> Prop) (F F' : S -> Prop) :
  (forall a s, Q a s -> Q' a s) -> (forall s, F s -> F' s) -> ends_in r Q F -> ends_in r Q' F'.
Proof. destruct r as [[a|e| |] s]; simpl; auto. Qed.

Lemma ends_bind_pure {A B} (m : res E A) (k : A -> act S E B) s (Q : B -> S -> Prop) (F : S -> Prop) :
  total m -> F s -> (forall a, m = Ok a -> ends_in (k a s) Q F) ->
  ends_in ((x ← pure_act m; k x) s) Q F.
Proof. unfold mbind, act_bind, pure_act. destruct m; simpl; auto. Qed.

Lemma act_bind_Ok {A B} (m : act S E A) (k : A -> act S E B) s a s' :
  m s = (Ok a, s') -> (x ← m; k x) s = k a s'.
Proof. unfold mbind, act_bind. by intros ->. Qed.
End Ends.

(** ** Actions that end *)

Section Steady.
Context {S E : Type}.

Lemma steady_ret {A} (a : A) : steady (S := S) (E := E) (mret a).
Proof. done. Qed.
Lemma steady_bind {A B} (m : act S E A) (k : A -> act S E B) :
  steady m -> (forall a, steady (k a)) -> steady (x ← m; k x).
Proof.
  intros Hm Hk s. specialize (Hm s). unfold mbind, act_bind.
  destruct (m s) as [[a|e| |] s']; cbn in *; try done. apply Hk.
Qed.
Lemma steady_pure {A} (m : res E A) : total m -> steady (S := S) (pure_act m).
Proof. by intros H s. Qed.
Lemma steady_throw {A} (e : E) : steady (S := S) (A := A) (throw e).
Proof. done. Qed.
Lemma steady_reads {A} (f : S -> res E A) : (forall s, total (f s)) -> steady (reads f).
Proof. intros H s. apply H. Qed.
Lemma steady_updates (f : S -> res E S) : (forall s, total (f s)) -> steady (updates f).
Proof. intros H s. specialize (H s). unfold updates. by destruct (f s). Qed.
Lemma steady_catch {A} (m : act S E A) (h : E -> act S E A) :
  steady m -> (forall e, steady (h e)) -> steady (catch m h).
Proof.
  intros Hm Hh s. specialize (Hm s). unfold catch. destruct (m s) as [[a|e| |] s']; cbn in *; try done.
  apply Hh.
Qed.
Lemma steady_finally {A} (m : act S E A) c : steady m -> steady (finally m c).
Proof. intros Hm s. specialize (Hm s). unfold finally. by destruct (m s). Qed.
Lemma steady_for_each {A} (f : A -> act S E unit) l : (forall x, steady (f x)) -> steady (for_each f l).
Proof. intros Hf. induction l as [|x l IH]; cbn [for_each]; [done|]. by apply steady_bind. Qed.
End Steady.

Lemma steady_zoom {S T E F A} (get : T -> S) (put : S -> T -> T) (f : E -> F) (m : act S E A) :
  steady m -> steady (zoom get put f m).
Proof. intros Hm t. specialize (Hm (get t)). unfold zoom. destruct (m (get t)) as [[a|e| |] s]; done. Qed.

#[export] Hint Resolve steady_ret steady_throw steady_finally steady_zoom steady_for_each : total.

(** Reduce an action to its parts. *)
Ltac steady :=
  repeat first
    [ progress auto with total
    | apply steady_bind; [|intros ?] | apply steady_catch; [|intros ?]
    | apply steady_pure | apply steady_reads; intros ? | apply steady_updates; intros ?
    | apply steady_finally | apply steady_zoom | apply steady_for_each; intros ?
    | match goal with |- steady (match ?x with _ => _ end) => destruct x end ].
