(* ===== verification/Error.v ===== *)
(** * Errors of the engine ([crates/dnx-core/src/error.rs])

    One error type is shared by the arena, the reduction rules, the codecs
    and the elaborator.  [PrimError] carries its message. *)
From S2P Require Import Prelude.

Inductive LinError : Type :=
| Unused (name : list Z)
| MultiUse (name : list Z) (uses : Z)
| MutualRecursion (names : list (list Z))
| TooManyFreeVars.

Inductive DnxError : Type :=
| LinErr (e : LinError)
| LOPathDepthExceeded
| StepLimitExceeded (steps : Z)
| ArenaCapacityExceeded
| DeltaOverflow
| StalePair
| ABAViolation
| PrimError (msg : list Z)
| ReadbackIncomplete.

#[export] Instance LinError_eq_dec : EqDecision LinError.
Proof. solve_decision. Defined.

#[export] Instance DnxError_eq_dec : EqDecision DnxError.
Proof. solve_decision. Defined.
