(* ===== verification/LOPath.v ===== *)
(** * Left-outermost paths ([crates/dnx-core/src/lopath.rs])

    An [LOPath] is the position of a redex in the left-outermost order, a bit
    string of at most 512 bits packed in four 128-bit limbs.  The current limb
    [hot] is filled from its most significant bit; when its 128 bits are used
    the limbs shift one place ([hot] to [warm] to [cold] to [frozen]) and
    [hot] starts again.  The specification is [bits : LOPath -> list bool];
    every operation is shown to compute on that list. *)
From S2P Require Import Prelude Bytes Error.

(** ** Data and operations *)

Record LOPath : Type := mk_lopath {
  hot : Z;
  warm : option Z;
  cold : option Z;
  frozen : option Z;
  len : Z
}.

#[export] Instance LOPath_eq_dec : EqDecision LOPath.
Proof. solve_decision. Defined.

Definition root : LOPath := mk_lopath 0 None None None 0.

(** The promotion of the limbs when [hot] is full. *)
Definition promote (p : LOPath) : res DnxError LOPath :=
  match warm p, cold p, frozen p with
  | None, _, _ => Ok (mk_lopath 0 (Some (hot p)) (cold p) (frozen p) 0)
  | Some w, None, _ => Ok (mk_lopath 0 (Some (hot p)) (Some w) (frozen p) 0)
  | Some w, Some c, None => Ok (mk_lopath 0 (Some (hot p)) (Some w) (Some c) 0)
  | Some _, Some _, Some _ => Err LOPathDepthExceeded
  end.

Definition extend_bit (p : LOPath) (bit : Z) : res DnxError LOPath :=
  out ← (if len p =? 128 then promote p else Ok p);
  Ok (mk_lopath (Z.lor (hot out) (Z.shiftl bit (127 - len out)))
        (warm out) (cold out) (frozen out) (len out + 1)).

Definition extend_right (p : LOPath) : res DnxError LOPath := extend_bit p 1.
Definition extend_left (p : LOPath) : res DnxError LOPath := extend_bit p 0.

Definition depth (p : LOPath) : Z :=
  let full :=
    if decide (is_Some (frozen p)) then 3
    else if decide (is_Some (cold p)) then 2
    else if decide (is_Some (warm p)) then 1
    else 0 in
  full * 128 + len p.

Definition n_limbs (p : LOPath) : nat :=
  1 + (if warm p then 1 else 0) + (if cold p then 1 else 0)
    + (if frozen p then 1 else 0).

Definition all_limbs (p : LOPath) : list Z :=
  option_list (frozen p) ++ option_list (cold p) ++ option_list (warm p)
    ++ [hot p].

Definition nth_limb (p : LOPath) (i : nat) : Z := default 0 (all_limbs p !! i).

(** The loop of [is_prefix_of] over [self.all_limbs().enumerate()]. *)
Fixpoint prefix_limbs (n : nat) (len : Z) (other : LOPath) (i : nat)
    (limbs : list Z) : bool :=
  match limbs with
  | [] => true
  | limb :: limbs' =>
      let other_limb := nth_limb other i in
      if (i + 1 <? n)%nat then
        if limb =? other_limb then prefix_limbs n len other (S i) limbs' else false
      else
        let shift := 128 - len in
        if Z.shiftr limb shift =? Z.shiftr other_limb shift
        then prefix_limbs n len other (S i) limbs' else false
  end.

Definition is_prefix_of (p other : LOPath) : bool :=
  if depth p =? 0 then true
  else if depth p >? depth other then false
  else prefix_limbs (n_limbs p) (len p) other 0 (all_limbs p).

Definition prefix_independent (p other : LOPath) : bool :=
  negb (is_prefix_of p other) && negb (is_prefix_of other p).

Definition option_or {A} (a b : option A) : option A :=
  match a with Some _ => a | None => b end.

Definition shard_key (p : LOPath) : option Z :=
  if depth p =? 0 then None
  else
    let first := default (hot p)
      (option_or (option_or (frozen p) (cold p)) (warm p)) in
    Some (as_u8 (Z.shiftr first 127)).

(** [gpu_bits]: the hot limb as four 32-bit words, most significant first. *)
Definition gpu_bits (p : LOPath) : (Z * Z * Z * Z) * Z :=
  let h := hot p in
  ((as_u32 (Z.shiftr h 96), as_u32 (Z.shiftr h 64), as_u32 (Z.shiftr h 32),
    as_u32 h), len p).

Definition from_gpu_bits (hi mid1 mid0 lo len : Z) : LOPath :=
  mk_lopath (Z.lor (Z.lor (Z.lor (Z.shiftl hi 96) (Z.shiftl mid1 64))
                      (Z.shiftl mid0 32)) lo)
    None None None len.

(** [Ord::cmp]: the limbs in lockstep, then the depths. *)
Fixpoint cmp_limbs (a b : list Z) : comparison :=
  match a, b with
  | x :: a', y :: b' =>
      match x ?= y with Eq => cmp_limbs a' b' | o => o end
  | _, _ => Eq
  end.

Definition cmp (p q : LOPath) : comparison :=
  match cmp_limbs (all_limbs p) (all_limbs q) with
  | Eq => depth p ?= depth q
  | o => o
  end.

(** ** Specification: the bit string of a path *)

(** The low [n] bits of [z], most significant first. *)
Fixpoint expand (n : nat) (z : Z) : list bool :=
  match n with
  | O => []
  | S n' => Z.testbit z (Z.of_nat n') :: expand n' z
  end.

Definition limb_bits (z : Z) : list bool := expand 128 z.

Definition bits (p : LOPath) : list bool :=
  take (Z.to_nat (depth p)) (concat (limb_bits <$> all_limbs p)).

Definition u128_range (z : Z) : Prop := 0 <= z < 2 ^ 128.

(** The paths the constructors build: limbs in range and filled oldest
    first, the unused low bits of [hot] zero, and [hot] non-empty once a limb
    was promoted. *)
Record lopath_wf (p : LOPath) : Prop := mk_lopath_wf {
  wf_len : 0 <= len p <= 128;
  wf_limbs : Forall u128_range (all_limbs p);
  wf_unused : hot p mod 2 ^ (128 - len p) = 0;
  wf_cold : is_Some (cold p) -> is_Some (warm p);
  wf_frozen : is_Some (frozen p) -> is_Some (cold p);
  wf_nonempty : is_Some (warm p) -> 0 < len p
}.

Definition bit_of (b : bool) : Z := if b then 1 else 0.

(** [bits.iter().try_fold(LOPath::root(), extend)]. *)
Definition path_of (bs : list bool) : res DnxError LOPath :=
  foldM (fun p b => extend_bit p (bit_of b)) bs root.

(** * Lemmas *)

Definition fulls (p : LOPath) : list Z :=
  option_list (frozen p) ++ option_list (cold p) ++ option_list (warm p).

Lemma all_limbs_fulls p : all_limbs p = fulls p ++ [hot p].
Proof. unfold all_limbs, fulls. by rewrite <- !(assoc_L (++)). Qed.

(** ** Bit expansion *)

Lemma expand_length n z : length (expand n z) = n.
Proof. induction n; simpl; auto. Qed.

Lemma expand_lookup n z i : (i < n)%nat ->
  expand n z !! i = Some (Z.testbit z (Z.of_nat (n - 1 - i))).
Proof.
  revert i. induction n as [|n IH]; intros i Hi; [lia|].
  destruct i as [|i]; simpl.
  - do 2 f_equal; lia.
  - rewrite IH by lia. do 2 f_equal; lia.
Qed.

Lemma limb_bits_length z : length (limb_bits z) = 128%nat.
Proof. apply expand_length. Qed.

Lemma limb_bits_lookup z i : (i < 128)%nat ->
  limb_bits z !! i = Some (Z.testbit z (Z.of_nat (127 - i))).
Proof. intros. unfold limb_bits. rewrite expand_lookup by lia. do 2 f_equal; lia. Qed.

Lemma expand_ext n a b :
  (forall k, 0 <= k < Z.of_nat n -> Z.testbit a k = Z.testbit b k) ->
  expand n a = expand n b.
Proof.
  induction n as [|n IH]; intros H; [done|]. simpl. f_equal.
  - apply H; lia.
  - apply IH. intros; apply H; lia.
Qed.

(** Setting the next bit of a limb whose low bits are still zero. *)
Lemma limb_set_bit h k b : 0 <= k < 128 -> h mod 2 ^ (128 - k) = 0 ->
  let h' := Z.lor h (Z.shiftl (bit_of b) (127 - k)) in
  take (S (Z.to_nat k)) (limb_bits h') = take (Z.to_nat k) (limb_bits h) ++ [b]
  /\ h' mod 2 ^ (128 - (k + 1)) = 0.
Proof.
  intros Hk Hz h'.
  assert (forall j, 0 <= j < 128 - k -> Z.testbit h j = false) as Hlow.
  { intros j Hj. rewrite <- (Z.mod_pow2_bits_low h (128 - k)) by lia.
    by rewrite Hz, Z.bits_0. }
  assert (forall j, 0 <= j -> Z.testbit h' j
            = Z.testbit h j || (b && (j =? 127 - k))) as Hh'.
  { intros j Hj. subst h'. rewrite Z.lor_spec. f_equal.
    destruct (Z.ltb_spec j (127 - k)).
    - rewrite Z.shiftl_spec_low by lia.
      destruct (Z.eqb_spec j (127 - k)); [lia|by rewrite andb_false_r].
    - rewrite Z.shiftl_spec_high by lia. destruct b; simpl.
      + destruct (Z.eqb_spec j (127 - k)) as [->|].
        * by rewrite Z.sub_diag.
        * apply (Z.bits_above_log2 1); simpl; lia.
      + apply Z.bits_0. }
  split.
  - erewrite take_S_r; [f_equal|].
    + apply list_eq. intros i.
      destruct (decide (i < Z.to_nat k)%nat).
      * rewrite !lookup_take_lt by lia. rewrite !limb_bits_lookup by lia.
        rewrite Hh' by lia. f_equal.
        destruct (Z.eqb_spec (Z.of_nat (127 - i)) (127 - k)); [lia|].
        by rewrite andb_false_r, orb_false_r.
      * rewrite !lookup_take_ge by lia. done.
    + rewrite limb_bits_lookup by lia. f_equal. rewrite Hh' by lia.
      replace (Z.of_nat (127 - Z.to_nat k)) with (127 - k) by lia.
      rewrite Hlow by lia. by rewrite Z.eqb_refl, andb_true_r.
  - apply Z.bits_inj'. intros j Hj. rewrite Z.bits_0.
    destruct (Z.ltb_spec j (128 - (k + 1))).
    + rewrite Z.mod_pow2_bits_low, Hh', Hlow by lia.
      destruct (Z.eqb_spec j (127 - k)); [lia|by rewrite andb_false_r].
    + by rewrite Z.mod_pow2_bits_high by lia.
Qed.

Lemma u128_lor a b : u128_range a -> u128_range b -> u128_range (Z.lor a b).
Proof.
  unfold u128_range. intros Ha Hb. split; [apply Z.lor_nonneg; lia|].
  destruct (Z.eq_dec (Z.lor a b) 0) as [->|]; [lia|].
  assert (0 <= Z.lor a b) by (apply Z.lor_nonneg; lia).
  apply Z.log2_lt_pow2; [lia|]. rewrite Z.log2_lor by lia.
  assert (forall c, 0 <= c < 2 ^ 128 -> Z.log2 c < 128) as H3.
  { intros c Hc. destruct (Z.eq_dec c 0) as [->|]; [done|].
    apply Z.log2_lt_pow2; lia. }
  apply Z.max_lub_lt; auto.
Qed.

Lemma u128_bit b k : 0 <= k < 128 -> u128_range (Z.shiftl (bit_of b) k).
Proof.
  intros Hk. unfold u128_range. rewrite Z.shiftl_mul_pow2 by lia.
  pose proof (Z.pow_pos_nonneg 2 k). pose proof (Z.pow_lt_mono_r 2 k 128).
  destruct b; simpl; lia.
Qed.

(** ** Depth and bits *)

Lemma depth_fulls p : lopath_wf p ->
  depth p = 128 * Z.of_nat (length (fulls p)) + len p.
Proof.
  intros [_ _ _ Hc Hf _]. unfold depth, fulls.
  destruct (frozen p), (cold p), (warm p); simpl in *;
    repeat case_decide; simpl; try lia;
    exfalso; naive_solver eauto using is_Some_None.
Qed.

Lemma concat_limbs_length l :
  length (concat (limb_bits <$> l)) = (128 * length l)%nat.
Proof.
  induction l as [|x l IH]; [done|].
  cbn [fmap list_fmap concat]. rewrite length_app, IH, limb_bits_length.
  simpl length. lia.
Qed.

Lemma bits_fulls p : lopath_wf p ->
  bits p = concat (limb_bits <$> fulls p)
             ++ take (Z.to_nat (len p)) (limb_bits (hot p)).
Proof.
  intros Hw. unfold bits. rewrite depth_fulls by done. pose proof (wf_len p Hw).
  rewrite all_limbs_fulls, fmap_app, concat_app. cbn [fmap list_fmap concat].
  rewrite app_nil_r, take_app, concat_limbs_length.
  rewrite take_ge by (rewrite concat_limbs_length; lia).
  do 2 f_equal; lia.
Qed.

Lemma bits_length p : lopath_wf p -> Z.of_nat (length (bits p)) = depth p.
Proof.
  intros Hw. rewrite bits_fulls, depth_fulls by done.
  pose proof (wf_len p Hw).
  rewrite length_app, concat_limbs_length, length_take, limb_bits_length. lia.
Qed.

Lemma root_wf : lopath_wf root.
Proof.
  split; simpl; try (intros [? [=]]); [lia| |reflexivity].
  repeat constructor; simpl; lia.
Qed.

(** ** Extension *)

Lemma promote_spec p : lopath_wf p -> len p = 128 ->
  match promote p with
  | Ok q => fulls q = fulls p ++ [hot p] /\ hot q = 0 /\ len q = 0
            /\ (is_Some (cold q) -> is_Some (warm q))
            /\ (is_Some (frozen q) -> is_Some (cold q))
  | Err e => e = LOPathDepthExceeded /\ depth p = 512
  | _ => False
  end.
Proof.
  intros [_ _ _ Hc Hf _] Hl. unfold promote, fulls, depth.
  destruct p as [h w c f l]; simpl in *. subst l.
  destruct w as [w|], c as [c|], f as [f|]; simpl; repeat split; eauto;
    try (intros [? [=]]); exfalso; naive_solver eauto using is_Some_None.
Qed.

Lemma promote_depth p q : lopath_wf p -> len p = 128 -> promote p = Ok q ->
  depth p < 512.
Proof.
  intros [_ _ _ Hc Hf _] Hl. unfold promote, depth.
  destruct p as [h w c f l]; simpl in *. subst l. intros Hp.
  destruct w as [w|], c as [c|], f as [f|]; simpl in *; try discriminate;
    repeat case_decide; try lia;
    exfalso; naive_solver eauto using is_Some_None.
Qed.

(** The bit goes into a limb that still has room. *)
Lemma extend_room p b : 0 <= len p < 128 ->
  Forall u128_range (all_limbs p) -> hot p mod 2 ^ (128 - len p) = 0 ->
  (is_Some (cold p) -> is_Some (warm p)) ->
  (is_Some (frozen p) -> is_Some (cold p)) ->
  let q := mk_lopath (Z.lor (hot p) (Z.shiftl (bit_of b) (127 - len p)))
             (warm p) (cold p) (frozen p) (len p + 1) in
  lopath_wf q /\ fulls q = fulls p /\
  take (Z.to_nat (len q)) (limb_bits (hot q))
    = take (Z.to_nat (len p)) (limb_bits (hot p)) ++ [b].
Proof.
  intros Hl Hr Hu Hc Hf q.
  destruct (limb_set_bit (hot p) (len p) b Hl Hu) as [Ht Hz].
  split; [split|split].
  - simpl. lia.
  - rewrite all_limbs_fulls in *. apply Forall_app in Hr as [Hr1 Hr2].
    apply Forall_app. split; [exact Hr1|].
    rewrite Forall_singleton in Hr2 |- *. simpl.
    apply u128_lor; [exact Hr2|]. apply u128_bit. lia.
  - exact Hz.
  - exact Hc.
  - exact Hf.
  - simpl. lia.
  - done.
  - simpl len. simpl hot. replace (Z.to_nat (len p + 1)) with (S (Z.to_nat (len p))) by lia.
    exact Ht.
Qed.

Lemma extend_bit_full p b : lopath_wf p -> depth p = 512 ->
  extend_bit p (bit_of b) = Err LOPathDepthExceeded.
Proof.
  intros Hw Hd. pose proof (wf_len p Hw). unfold extend_bit.
  assert (len p = 128) as Hl.
  { unfold depth in Hd. repeat case_decide; lia. }
  rewrite Hl, Z.eqb_refl. pose proof (promote_spec p Hw Hl) as Hp.
  destruct (promote p) eqn:Hq; simpl; try done.
  - pose proof (promote_depth p a Hw Hl Hq). lia.
  - by destruct Hp as [-> _].
Qed.

Lemma extend_bit_room p b : lopath_wf p -> depth p < 512 ->
  exists q, extend_bit p (bit_of b) = Ok q /\ lopath_wf q
            /\ bits q = bits p ++ [b].
Proof.
  intros Hw Hd. pose proof Hw as [Hl Hr Hu Hc Hf _]. unfold extend_bit.
  destruct (Z.eqb_spec (len p) 128) as [Hl8|Hl8].
  - pose proof (promote_spec p Hw Hl8) as Hp.
    destruct (promote p) as [q|?| |] eqn:Hq; [|destruct Hp; lia|done|done].
    destruct Hp as (Hfu & Hh & Hl0 & Hc' & Hf').
    assert (Forall u128_range (all_limbs q)) as Hrq.
    { rewrite all_limbs_fulls, Hfu, Hh. rewrite all_limbs_fulls in Hr.
      apply Forall_app. split; [done|]. by repeat constructor. }
    destruct (extend_room q b) as (Hw' & Hfq & Ht); rewrite ?Hl0, ?Hh; auto; [lia|].
    eexists. split; [reflexivity|]. split; [exact Hw'|].
    rewrite (bits_fulls _ Hw'), (bits_fulls _ Hw), Ht, Hfq, Hfu, Hl0, Hl8.
    rewrite fmap_app, concat_app. cbn [fmap list_fmap concat].
    rewrite app_nil_r, (take_ge (limb_bits (hot p)))
      by (rewrite limb_bits_length; lia).
    change (Z.to_nat 0) with 0%nat. rewrite take_0. done.
  - destruct (extend_room p b) as (Hw' & Hfp & Ht); auto; [lia|].
    eexists. split; [reflexivity|]. split; [exact Hw'|].
    rewrite (bits_fulls _ Hw'), (bits_fulls _ Hw), Ht, Hfp.
    by rewrite (assoc_L (++)).
Qed.

Lemma depth_le_512 p : lopath_wf p -> 0 <= depth p <= 512.
Proof.
  intros [Hl _ _ _ _ _]. unfold depth. repeat case_decide; lia.
Qed.

(** ** Order *)

(** Comparison of the common prefix only. *)
Fixpoint zip_cmp (a b : list bool) : comparison :=
  match a, b with
  | x :: a', y :: b' => if Bool.eqb x y then zip_cmp a' b' else if x then Gt else Lt
  | _, _ => Eq
  end.

Lemma zip_cmp_zeros_l m l : zip_cmp (replicate m false) l <> Gt.
Proof. revert l. induction m; intros [|[] l]; simpl; try done; auto. Qed.

Lemma zip_cmp_zeros_r n l : zip_cmp l (replicate n false) <> Lt.
Proof. revert l. induction n; intros [|[] l]; simpl; try done; auto. Qed.

Lemma zip_cmp_zeros m n : zip_cmp (replicate m false) (replicate n false) = Eq.
Proof. revert n. induction m; intros [|n]; simpl; auto. Qed.

(** Padding both strings with zeros and comparing lengths last is the
    lexicographic order. *)
Lemma zip_cmp_pad a b m n :
  match zip_cmp (a ++ replicate m false) (b ++ replicate n false) with
  | Eq => (length a ?= length b)%nat
  | o => o
  end = lex_cmp a b.
Proof.
  revert b. induction a as [|x a IH]; intros [|y b].
  - simpl app. by rewrite zip_cmp_zeros.
  - pose proof (zip_cmp_zeros_l m ((y :: b) ++ replicate n false)) as H.
    simpl app at 1. by destruct zip_cmp.
  - pose proof (zip_cmp_zeros_r n ((x :: a) ++ replicate m false)) as H.
    simpl app at 2. destruct zip_cmp; try done; by destruct x.
  - specialize (IH b). destruct x, y; simpl; auto.
Qed.

Lemma zip_cmp_app a b c d : length a = length b ->
  zip_cmp (a ++ c) (b ++ d) = match zip_cmp a b with Eq => zip_cmp c d | o => o end.
Proof.
  revert b. induction a as [|x a IH]; intros [|y b] H; simpl in *; try lia; [done|].
  destruct (Bool.eqb x y); [auto|]. by destruct x.
Qed.

Lemma expand_cmp n a b : 0 <= a < 2 ^ Z.of_nat n -> 0 <= b < 2 ^ Z.of_nat n ->
  zip_cmp (expand n a) (expand n b) = (a ?= b).
Proof.
  revert a b. induction n as [|n IH]; intros a b Ha Hb.
  { simpl in *. replace a with b by lia. by rewrite Z.compare_refl. }
  rewrite Nat2Z.inj_succ, Z.pow_succ_r in Ha, Hb by lia.
  set (N := 2 ^ Z.of_nat n) in *.
  assert (0 < N) by (subst N; apply Z.pow_pos_nonneg; lia).
  assert (forall z, 0 <= z < 2 * N ->
    z = (if Z.testbit z (Z.of_nat n) then N else 0) + z mod N) as Hdec.
  { intros z Hz. rewrite (Z.testbit_eqb z) by lia. fold N.
    pose proof (Z.div_mod z N ltac:(lia)).
    assert (z / N < 2) by (apply Z.div_lt_upper_bound; lia).
    assert (0 <= z / N) by (apply Z.div_pos; lia).
    assert (z / N = 0 \/ z / N = 1) as [E|E] by lia; rewrite E in *; simpl; lia. }
  assert (forall z, expand n z = expand n (z mod N)) as Hmod.
  { intros z. apply expand_ext. intros k Hk. subst N.
    by rewrite Z.mod_pow2_bits_low by lia. }
  simpl. rewrite (Hmod a), (Hmod b).
  pose proof (Z.mod_pos_bound a N ltac:(lia)).
  pose proof (Z.mod_pos_bound b N ltac:(lia)).
  rewrite IH by lia. pose proof (Hdec a Ha) as Ea. pose proof (Hdec b Hb) as Eb.
  destruct (Z.testbit a (Z.of_nat n)), (Z.testbit b (Z.of_nat n)); simpl;
    symmetry; try destruct (Z.compare_spec (a mod N) (b mod N));
    first [apply Z.compare_eq_iff | apply Z.compare_lt_iff | apply Z.compare_gt_iff];
    lia.
Qed.

Lemma cmp_limbs_zip a b : Forall u128_range a -> Forall u128_range b ->
  cmp_limbs a b = zip_cmp (concat (limb_bits <$> a)) (concat (limb_bits <$> b)).
Proof.
  intros Ha. revert b. induction Ha as [|x a Hx Ha IH]; intros b Hb; [done|].
  destruct Hb as [|y b Hy Hb].
  - cbn [cmp_limbs fmap list_fmap concat]. by destruct (limb_bits x ++ _).
  - cbn [cmp_limbs fmap list_fmap concat].
    rewrite zip_cmp_app by (by rewrite !limb_bits_length).
    unfold limb_bits at 1 2. rewrite expand_cmp by done.
    by rewrite IH.
Qed.

(** A path's limbs spell its bits followed by zeros. *)
Lemma limbs_bits p : lopath_wf p ->
  exists m, concat (limb_bits <$> all_limbs p) = bits p ++ replicate m false.
Proof.
  intros Hw. exists (128 - Z.to_nat (len p))%nat.
  pose proof (wf_len p Hw).
  rewrite bits_fulls, all_limbs_fulls, fmap_app, concat_app by done.
  cbn [fmap list_fmap concat]. rewrite app_nil_r, <- (assoc_L (++)). f_equal.
  rewrite <- (take_drop (Z.to_nat (len p)) (limb_bits (hot p))) at 1. f_equal.
  apply list_eq. intros i. rewrite lookup_drop.
  destruct (decide (i < 128 - Z.to_nat (len p))%nat).
  - rewrite limb_bits_lookup, lookup_replicate_2 by lia. f_equal.
    rewrite <- (Z.mod_pow2_bits_low (hot p) (128 - len p)) by lia.
    by rewrite (wf_unused p Hw), Z.bits_0.
  - rewrite !lookup_ge_None_2; [done| |]; rewrite ?length_replicate, ?limb_bits_length; lia.
Qed.

Lemma cmp_bits p q : lopath_wf p -> lopath_wf q ->
  cmp p q = lex_cmp (bits p) (bits q).
Proof.
  intros Hp Hq. unfold cmp.
  rewrite cmp_limbs_zip by (apply wf_limbs; done).
  destruct (limbs_bits p Hp) as [m ->], (limbs_bits q Hq) as [n ->].
  rewrite <- (zip_cmp_pad _ _ m n).
  rewrite <- (bits_length p), <- (bits_length q) by done.
  by rewrite Nat2Z.inj_compare.
Qed.

(** ** Equality of paths is equality of their bits *)

Lemma expand_inj n a b : 0 <= a < 2 ^ Z.of_nat n -> 0 <= b < 2 ^ Z.of_nat n ->
  expand n a = expand n b -> a = b.
Proof.
  intros Ha Hb H. apply Z.compare_eq_iff. rewrite <- (expand_cmp n) by done.
  rewrite H. generalize (expand n b). intros l.
  induction l as [|[] l IH]; simpl; auto.
Qed.

Lemma zip_cmp_eq a b : length a = length b -> zip_cmp a b = Eq -> a = b.
Proof.
  revert b. induction a as [|x a IH]; intros [|y b] Hl H; simpl in *; try lia; [done|].
  destruct (Bool.eqb x y) eqn:E; [|by destruct x].
  apply eqb_prop in E as ->. f_equal. auto.
Qed.

Lemma cmp_limbs_eq a b : length a = length b -> cmp_limbs a b = Eq -> a = b.
Proof.
  revert b. induction a as [|x a IH]; intros [|y b] Hl H; simpl in *; try lia; [done|].
  destruct (Z.compare_spec x y); try discriminate. subst. f_equal. auto.
Qed.

Lemma fulls_length_le p : (length (fulls p) <= 3)%nat.
Proof. unfold fulls. destruct (frozen p), (cold p), (warm p); simpl; lia. Qed.

Lemma no_warm_fulls p : lopath_wf p -> warm p = None -> fulls p = [].
Proof.
  intros [_ _ _ Hc Hf _] Hw. unfold fulls. rewrite Hw in *.
  destruct (cold p); [by destruct (is_Some_None (Hc (mk_is_Some _ _ eq_refl)))|].
  destruct (frozen p); [|done].
  by destruct (is_Some_None (Hf (mk_is_Some _ _ eq_refl))).
Qed.

Lemma hot_nonempty p : lopath_wf p -> depth p <> 0 -> 0 < len p.
Proof.
  intros Hp Hd. destruct (warm p) eqn:Hw.
  - apply (wf_nonempty p Hp). eauto.
  - rewrite depth_fulls, no_warm_fulls in Hd by done. simpl in Hd.
    pose proof (wf_len p Hp). lia.
Qed.

Lemma depth_limbs p q : lopath_wf p -> lopath_wf q -> depth p = depth q ->
  length (fulls p) = length (fulls q) /\ len p = len q.
Proof.
  intros Hp Hq Hd. pose proof (wf_len p Hp). pose proof (wf_len q Hq).
  pose proof (hot_nonempty p Hp). pose proof (hot_nonempty q Hq).
  pose proof (depth_fulls p Hp). pose proof (depth_fulls q Hq).
  destruct (decide (depth p = 0)); lia.
Qed.

Lemma fulls_inj p q : lopath_wf p -> lopath_wf q ->
  fulls p = fulls q -> hot p = hot q -> len p = len q -> p = q.
Proof.
  intros [_ _ _ Hcp Hfp _] [_ _ _ Hcq Hfq _] Hfu Hh Hl.
  destruct p as [h w c f l], q as [h' w' c' f' l']; unfold fulls in *; simpl in *.
  subst. destruct w, c, f, w', c', f'; simpl in *; simplify_eq; try done;
    exfalso; naive_solver eauto using is_Some_None.
Qed.

Lemma cmp_eq_iff p q : lopath_wf p -> lopath_wf q -> cmp p q = Eq <-> p = q.
Proof.
  intros Hp Hq. split.
  - unfold cmp. destruct (cmp_limbs _ _) eqn:Hc; try discriminate.
    intros Hd%Z.compare_eq_iff.
    destruct (depth_limbs p q Hp Hq Hd) as [Hfl Hlen].
    rewrite !all_limbs_fulls in Hc. apply cmp_limbs_eq in Hc;
      [|rewrite !length_app; simpl; lia].
    apply app_inj_2 in Hc as [Hf Hh]; [|done]. simplify_eq.
    by apply fulls_inj.
  - intros ->. rewrite cmp_bits by done. apply lex_cmp_refl.
Qed.

Lemma bits_inj p q : lopath_wf p -> lopath_wf q -> bits p = bits q -> p = q.
Proof.
  intros Hp Hq H. apply cmp_eq_iff; [done..|].
  rewrite cmp_bits, H by done. apply lex_cmp_refl.
Qed.

(** ** Prefixes *)

Lemma take_limb_bits a b l : u128_range a -> u128_range b -> 0 <= l <= 128 ->
  take (Z.to_nat l) (limb_bits a) = take (Z.to_nat l) (limb_bits b) <->
  Z.shiftr a (128 - l) = Z.shiftr b (128 - l).
Proof.
  intros Ha Hb Hl. split; intros H.
  - apply Z.bits_inj'. intros k Hk. rewrite !Z.shiftr_spec by lia.
    destruct (Z.ltb_spec (k + (128 - l)) 128).
    + apply (f_equal (.!! Z.to_nat (127 - (k + (128 - l))))) in H.
      rewrite !lookup_take_lt, !limb_bits_lookup in H by lia.
      replace (Z.of_nat _) with (k + (128 - l)) in H by lia. congruence.
    + assert (forall c, u128_range c -> Z.testbit c (k + (128 - l)) = false) as Hz.
      { intros c Hc. unfold u128_range in Hc.
        rewrite <- (Z.mod_small c (2 ^ 128)) by lia.
        by rewrite Z.mod_pow2_bits_high by lia. }
      by rewrite !Hz.
  - apply list_eq. intros i. destruct (decide (i < Z.to_nat l)%nat).
    + rewrite !lookup_take_lt, !limb_bits_lookup by lia. f_equal.
      apply (f_equal (fun z => Z.testbit z (l - 1 - Z.of_nat i))) in H.
      rewrite !Z.shiftr_spec in H by lia.
      replace (Z.of_nat (127 - i)) with (l - 1 - Z.of_nat i + (128 - l)) by lia.
      done.
    + by rewrite !lookup_take_ge by lia.
Qed.

Lemma limb_bits_inj a b : u128_range a -> u128_range b ->
  limb_bits a = limb_bits b -> a = b.
Proof. apply (expand_inj 128). Qed.

Lemma concat_limbs_inj a b : Forall u128_range a -> Forall u128_range b ->
  concat (limb_bits <$> a) = concat (limb_bits <$> b) -> a = b.
Proof.
  intros Ha. revert b. induction Ha as [|x a Hx Ha IH]; intros b Hb H.
  - destruct Hb as [|y b]; [done|].
    apply (f_equal length) in H. rewrite !concat_limbs_length in H.
    simpl in H. lia.
  - destruct Hb as [|y b Hy Hb].
    + apply (f_equal length) in H. rewrite !concat_limbs_length in H.
      simpl in H. lia.
    + cbn [fmap list_fmap concat] in H. apply app_inj_1 in H as [H1 H2];
        [|by rewrite !limb_bits_length].
      f_equal; [by apply limb_bits_inj|auto].
Qed.

Lemma prefix_limbs_spec n l other i fs h o O1 O2 :
  (i + length fs + 1 = n)%nat -> drop i (all_limbs other) = O1 ++ o :: O2 ->
  length O1 = length fs ->
  prefix_limbs n l other i (fs ++ [h]) = true <->
  fs = O1 /\ Z.shiftr h (128 - l) = Z.shiftr o (128 - l).
Proof.
  revert i O1. induction fs as [|f fs IH]; intros i O1 Hn HO Hlen.
  - destruct O1; [|done]. simpl in *.
    assert (nth_limb other i = o) as ->.
    { unfold nth_limb. rewrite <- (Nat.add_0_r i), <- lookup_drop, HO. done. }
    destruct (Nat.ltb_spec (i + 1) n); [lia|].
    destruct (Z.eqb_spec (Z.shiftr h (128 - l)) (Z.shiftr o (128 - l)));
      split; naive_solver.
  - destruct O1 as [|o1 O1]; [done|]. simpl in *.
    assert (nth_limb other i = o1) as ->.
    { unfold nth_limb. rewrite <- (Nat.add_0_r i), <- lookup_drop, HO. done. }
    destruct (Nat.ltb_spec (i + 1) n); [|lia].
    assert (drop (S i) (all_limbs other) = O1 ++ o :: O2) as HO'.
    { replace (S i) with (i + 1)%nat by lia. by rewrite <- drop_drop, HO. }
    destruct (Z.eqb_spec f o1).
    + rewrite (IH (S i) O1) by (lia || done). naive_solver.
    + split; naive_solver.
Qed.

(** The limb of [q] that faces the last limb of a path no deeper than [q]. *)
Lemma facing_limb p q : lopath_wf p -> lopath_wf q ->
  depth p <> 0 -> depth p <= depth q ->
  exists O1 o O2, all_limbs q = O1 ++ o :: O2 /\ length O1 = length (fulls p).
Proof.
  intros Hp Hq Hnz Hd. pose proof (hot_nonempty p Hp Hnz) as Hne.
  rewrite (depth_fulls p Hp), (depth_fulls q Hq) in Hd.
  pose proof (wf_len p Hp). pose proof (wf_len q Hq).
  assert (length (fulls p) < length (all_limbs q))%nat as Hlt.
  { rewrite all_limbs_fulls, length_app. simpl. lia. }
  destruct (lookup_lt_is_Some_2 _ _ Hlt) as [o Ho].
  eexists _, o, _. rewrite (take_drop_middle _ _ _ Ho). split; [done|].
  rewrite length_take. lia.
Qed.

Lemma bits_take_facing q k l O1 o O2 : lopath_wf q ->
  all_limbs q = O1 ++ o :: O2 -> length O1 = k -> (l <= 128)%nat ->
  (128 * k + l <= length (bits q))%nat ->
  take (128 * k + l) (bits q)
    = concat (limb_bits <$> O1) ++ take l (limb_bits o).
Proof.
  intros Hq HO Hk Hl Hle. destruct (limbs_bits q Hq) as [m Hm].
  transitivity (take (128 * k + l) (bits q ++ replicate m false));
    [by rewrite take_app_le by lia|].
  rewrite <- Hm, HO, fmap_app, concat_app. cbn [fmap list_fmap concat].
  rewrite take_app, concat_limbs_length, take_ge
    by (rewrite concat_limbs_length; lia).
  f_equal. rewrite take_app_le by (rewrite limb_bits_length; lia). f_equal. lia.
Qed.

Lemma is_prefix_bits p q : lopath_wf p -> lopath_wf q ->
  is_prefix_of p q = true <-> bits p `prefix_of` bits q.
Proof.
  intros Hp Hq. pose proof (bits_length p Hp). pose proof (bits_length q Hq).
  pose proof (wf_len p Hp) as Hlp.
  unfold is_prefix_of. destruct (Z.eqb_spec (depth p) 0) as [Hz|Hnz].
  { destruct (bits p); simpl in *; [|lia]. split; [|done]. intros; apply prefix_nil. }
  rewrite Z.gtb_ltb. destruct (Z.ltb_spec (depth q) (depth p)) as [?|Hd].
  { split; [done|]. intros Hpre%prefix_length. lia. }
  destruct (facing_limb p q Hp Hq Hnz Hd) as (O1 & o & O2 & HO & HO1).
  rewrite all_limbs_fulls.
  rewrite (prefix_limbs_spec _ _ _ _ _ _ o O1 O2); [|..|by rewrite drop_0|done];
    [|unfold n_limbs, fulls; destruct (frozen p), (cold p), (warm p); simpl; lia].
  pose proof (wf_limbs p Hp) as Hrp. pose proof (wf_limbs q Hq) as Hrq.
  rewrite all_limbs_fulls, Forall_app, Forall_singleton in Hrp.
  rewrite HO, Forall_app, Forall_cons in Hrq.
  destruct Hrp as [Hrf Hrh], Hrq as (Hr1 & Hro & _).
  rewrite <- take_limb_bits, prefix_take_iff by done.
  assert (length (bits p) = 128 * length (fulls p) + Z.to_nat (len p))%nat as ->
    by (pose proof (depth_fulls p Hp); lia).
  rewrite (bits_take_facing q _ _ O1 o O2) by (done || pose proof (depth_fulls p Hp); lia).
  rewrite (bits_fulls p Hp). split.
  - intros [-> ->]. done.
  - intros Heq. apply app_inj_1 in Heq as [H1 H2];
      [|rewrite !concat_limbs_length; lia].
    split; [symmetry; by apply concat_limbs_inj|done].
Qed.

(** ** Extensions of one path *)

Lemma extend_ok p b q : lopath_wf p -> extend_bit p (bit_of b) = Ok q ->
  lopath_wf q /\ bits q = bits p ++ [b].
Proof.
  intros Hp H. pose proof (depth_le_512 p Hp).
  destruct (decide (depth p = 512)).
  - by rewrite extend_bit_full in H.
  - destruct (extend_bit_room p b Hp) as (q' & Hq & Hw & Hb); [lia|].
    rewrite Hq in H. by injection H as <-.
Qed.

Lemma extend_left_ok p q : lopath_wf p -> extend_left p = Ok q ->
  lopath_wf q /\ bits q = bits p ++ [false].
Proof. apply (extend_ok p false). Qed.

Lemma extend_right_ok p q : lopath_wf p -> extend_right p = Ok q ->
  lopath_wf q /\ bits q = bits p ++ [true].
Proof. apply (extend_ok p true). Qed.

Lemma prefix_independent_bits p q : lopath_wf p -> lopath_wf q ->
  prefix_independent p q = true <->
  ~ bits p `prefix_of` bits q /\ ~ bits q `prefix_of` bits p.
Proof.
  intros Hp Hq. unfold prefix_independent.
  rewrite andb_true_iff, !negb_true_iff, <- !not_true_iff_false.
  by rewrite !is_prefix_bits.
Qed.

Lemma path_of_app bs p bs' : path_of bs = Ok p ->
  path_of (bs ++ bs') = foldM (fun p b => extend_bit p (bit_of b)) bs' p.
Proof. unfold path_of. intros H. by rewrite foldM_app, H. Qed.

Lemma path_of_ok bs : (length bs <= 512)%nat ->
  exists p, path_of bs = Ok p /\ lopath_wf p /\ bits p = bs.
Proof.
  induction bs as [|b bs IH] using rev_ind; intros Hl.
  - exists root. split; [done|]. split; [apply root_wf|reflexivity].
  - rewrite length_app in Hl; simpl in Hl.
    destruct IH as (p & Hp & Hw & Hb); [lia|].
    destruct (extend_bit_room p b Hw) as (q & Hq & Hwq & Hbq).
    { rewrite <- bits_length, Hb by done. lia. }
    exists q. rewrite (path_of_app bs p) by done. simpl. rewrite Hq; simpl.
    split; [done|]. split; [done|]. by rewrite Hbq, Hb.
Qed.

Lemma shard_key_bits p : lopath_wf p ->
  shard_key p = bit_of <$> head (bits p).
Proof.
  intros Hp. unfold shard_key. destruct (Z.eqb_spec (depth p) 0) as [Hz|Hnz].
  { pose proof (bits_length p Hp). destruct (bits p); simpl in *; [done|lia]. }
  pose proof (hot_nonempty p Hp Hnz). destruct (limbs_bits p Hp) as [m Hm].
  assert (exists l ls, all_limbs p = l :: ls /\ l = default (hot p)
    (option_or (option_or (frozen p) (cold p)) (warm p))) as (l & ls & Hl & <-).
  { unfold all_limbs. destruct (frozen p), (cold p), (warm p); simpl; eauto. }
  pose proof (wf_limbs p Hp) as Hr. rewrite Hl in Hm, Hr.
  apply Forall_cons in Hr as [Hr _]. cbn [fmap list_fmap concat] in Hm.
  pose proof (bits_length p Hp).
  destruct (bits p) as [|b bs] eqn:Hb; [simpl in *; pose proof (depth_le_512 p Hp); lia|].
  apply (f_equal (.!! 0%nat)) in Hm.
  rewrite lookup_app_l, limb_bits_lookup in Hm by (rewrite ?limb_bits_length; lia).
  change (Z.of_nat (127 - 0)) with 127 in Hm.
  change ((b :: bs) ++ replicate m false) with (b :: (bs ++ replicate m false)) in Hm.
  assert (Z.testbit l 127 = b) as Hbit by (apply (inj Some); exact Hm).
  cbn [head fmap option_fmap option_map]. f_equal. rewrite <- Hbit.
  rewrite Z.testbit_eqb by lia.
  rewrite Z.shiftr_div_pow2 by lia. unfold u128_range in Hr.
  assert (0 <= l / 2 ^ 127 < 2).
  { split; [apply Z.div_pos; lia|]. apply Z.div_lt_upper_bound; lia. }
  unfold as_u8. rewrite wrap_small by lia.
  assert (l / 2 ^ 127 = 0 \/ l / 2 ^ 127 = 1) as [-> | ->] by lia; reflexivity.
Qed.

Lemma gpu_words h : u128_range h ->
  Z.lor (Z.lor (Z.lor (Z.shiftl (as_u32 (Z.shiftr h 96)) 96)
     (Z.shiftl (as_u32 (Z.shiftr h 64)) 64))
     (Z.shiftl (as_u32 (Z.shiftr h 32)) 32)) (as_u32 h) = h.
Proof.
  intros Hh. unfold u128_range in Hh. apply Z.bits_inj'. intros k Hk.
  unfold as_u32, wrap. rewrite !Z.lor_spec.
  assert (forall s, 0 <= s -> Z.testbit (Z.shiftl (Z.shiftr h s mod 2 ^ 32) s) k
            = (s <=? k) && (k <? s + 32) && Z.testbit h k) as Hw.
  { intros s Hs. destruct (Z.leb_spec s k); simpl.
    - rewrite Z.shiftl_spec_high by lia. destruct (Z.ltb_spec k (s + 32)); simpl.
      + rewrite Z.mod_pow2_bits_low, Z.shiftr_spec by lia. f_equal; lia.
      + rewrite Z.mod_pow2_bits_high by lia. done.
    - rewrite Z.shiftl_spec_low by lia. done. }
  rewrite !Hw by lia. specialize (Hw 0 ltac:(lia)).
  rewrite Z.shiftl_0_r, Z.shiftr_0_r in Hw. rewrite Hw.
  destruct (Z.ltb_spec k 128).
  - destruct (Z.testbit h k); [|by rewrite !andb_false_r].
    rewrite !andb_true_r, !orb_true_iff, !andb_true_iff, !Z.leb_le, !Z.ltb_lt. lia.
  - rewrite <- (Z.mod_small h (2 ^ 128)), Z.mod_pow2_bits_high by lia.
    by rewrite !andb_false_r.
Qed.

(** * Theorems *)

(** Extending a well-formed path by one bit succeeds exactly below depth
    512, appends the bit to the path's bit string and keeps the path
    well-formed (through every limb promotion); at depth 512 it reports
    [LOPathDepthExceeded]. *)
Theorem extend_bit_spec (p : LOPath) (b : bool) : lopath_wf p ->
  match extend_bit p (bit_of b) with
  | Ok q => lopath_wf q /\ bits q = bits p ++ [b] /\ depth q = depth p + 1
  | Err e => e = LOPathDepthExceeded /\ depth p = 512
  | _ => False
  end.
Proof.
  intros Hp. pose proof (depth_le_512 p Hp).
  destruct (decide (depth p = 512)) as [Hd|Hd].
  - by rewrite extend_bit_full.
  - destruct (extend_bit_room p b Hp) as (q & -> & Hw & Hb); [lia|].
    split; [done|]. split; [done|]. rewrite <- !bits_length, Hb by done.
    rewrite length_app. simpl. lia.
Qed.

Lemma extend_bit_spec_witness :
  lopath_wf root /\
  match extend_bit root (bit_of true) with
  | Ok q => lopath_wf q /\ bits q = [] ++ [true] /\ depth q = 1
  | Err e => e = LOPathDepthExceeded /\ 0 = 512
  | _ => False
  end.
Proof. split; [apply root_wf|exact (extend_bit_spec root true root_wf)]. Defined.

(** On well-formed paths the limb-wise comparison [Ord::cmp], the order
    of the frontier maps, is the lexicographic order of the bit strings with
    a proper prefix first, and [Equal] only for identical paths: outer
    before inner, left before right. *)
Theorem cmp_lexicographic (p q : LOPath) : lopath_wf p -> lopath_wf q ->
  cmp p q = lex_cmp (bits p) (bits q) /\ (cmp p q = Eq <-> p = q).
Proof. intros Hp Hq. split; [by apply cmp_bits|by apply cmp_eq_iff]. Qed.

Lemma cmp_lexicographic_witness :
  lopath_wf root /\ cmp root root = lex_cmp [] [] /\ (cmp root root = Eq <-> root = root).
Proof.
  split; [apply root_wf|].
  exact (cmp_lexicographic root root root_wf root_wf).
Defined.

(** The limb-and-shift test [is_prefix_of] decides the prefix relation of
    the bit strings, and [prefix_independent] decides that neither path is a
    prefix of the other. *)
Theorem prefix_tests (p q : LOPath) : lopath_wf p -> lopath_wf q ->
  (is_prefix_of p q = true <-> bits p `prefix_of` bits q) /\
  (prefix_independent p q = true <->
     ~ bits p `prefix_of` bits q /\ ~ bits q `prefix_of` bits p).
Proof.
  intros Hp Hq. split; [by apply is_prefix_bits|by apply prefix_independent_bits].
Qed.

Lemma prefix_tests_witness :
  lopath_wf root /\
  ((is_prefix_of root root = true <-> [] `prefix_of` ([] : list bool)) /\
   (prefix_independent root root = true <->
     ~ [] `prefix_of` ([] : list bool) /\ ~ [] `prefix_of` ([] : list bool))).
Proof.
  split; [apply root_wf|exact (prefix_tests root root root_wf root_wf)].
Defined.

(** Uploading the hot limb of a path of depth at most 128 to the GPU as
    four 32-bit words and reading it back gives the same path. *)
Theorem gpu_bits_roundtrip (p : LOPath) : lopath_wf p -> depth p <= 128 ->
  let '((hi, mid1, mid0, lo), l) := gpu_bits p in
  from_gpu_bits hi mid1 mid0 lo l = p.
Proof.
  intros Hp Hd. unfold gpu_bits, from_gpu_bits.
  assert (warm p = None) as Hw.
  { destruct (warm p) eqn:Hw; [|done]. pose proof (wf_nonempty p Hp) as Hl.
    rewrite Hw in Hl. specialize (Hl (mk_is_Some _ _ eq_refl)).
    unfold depth in Hd. rewrite Hw in Hd.
    repeat case_decide; try lia. by destruct (H1 (mk_is_Some _ _ eq_refl)). }
  pose proof (no_warm_fulls p Hp Hw) as Hf. pose proof (wf_limbs p Hp) as Hr.
  rewrite all_limbs_fulls, Forall_app, Forall_singleton in Hr.
  rewrite gpu_words by apply Hr.
  unfold fulls in Hf. destruct p as [h w c f l]; simpl in *. subst w.
  destruct f, c; simpl in Hf; done.
Qed.

Lemma gpu_bits_roundtrip_witness :
  lopath_wf root /\ depth root <= 128 /\
  let '((hi, mid1, mid0, lo), l) := gpu_bits root in
  from_gpu_bits hi mid1 mid0 lo l = root.
Proof.
  assert (depth root <= 128) as Hd by (vm_compute; discriminate).
  split; [apply root_wf|]. split; [exact Hd|].
  exact (gpu_bits_roundtrip root root_wf Hd).
Defined.

(** Building a path bit by bit from the root succeeds for every bit
    string of at most 512 bits and yields a well-formed path with exactly
    those bits; its shard key is the first bit. *)
Theorem path_of_bits (bs : list bool) : (length bs <= 512)%nat ->
  exists p, path_of bs = Ok p /\ lopath_wf p /\ bits p = bs
            /\ shard_key p = bit_of <$> head bs.
Proof.
  intros Hl. destruct (path_of_ok bs Hl) as (p & Hp & Hw & Hb).
  exists p. rewrite shard_key_bits, Hb by done. done.
Qed.

Lemma path_of_bits_witness :
  (length [true; false] <= 512)%nat /\
  exists p, path_of [true; false] = Ok p /\ lopath_wf p /\ bits p = [true; false]
            /\ shard_key p = Some 1.
Proof.
  assert (length [true; false] <= 512)%nat as Hl by (simpl; lia).
  split; [exact Hl|exact (path_of_bits [true; false] Hl)].
Defined.

(** The two extensions of one path, the keys a rule gives to the two
    wires it creates, are independent (neither a prefix of the other), sorted
    left before right, and both come after the path they extend: the keys of
    a step form an antichain below the key of the reduced pair. *)
Theorem extensions_antichain (p l r : LOPath) : lopath_wf p ->
  extend_left p = Ok l -> extend_right p = Ok r ->
  prefix_independent l r = true /\ cmp l r = Lt /\ cmp p l = Lt /\ cmp p r = Lt.
Proof.
  intros Hp Hl Hr.
  apply extend_left_ok in Hl as [Hwl Hbl]; [|done].
  apply extend_right_ok in Hr as [Hwr Hbr]; [|done].
  rewrite prefix_independent_bits, !cmp_bits, Hbl, Hbr, !lex_cmp_app_lt, lex_cmp_app_l
    by done.
  repeat split; try done; intros Hpre%prefix_app_inv;
    by apply prefix_cons_inv_1 in Hpre.
Qed.

Lemma extensions_antichain_witness :
  exists l r, extend_left root = Ok l /\ extend_right root = Ok r /\
  (prefix_independent l r = true /\ cmp l r = Lt /\ cmp root l = Lt /\ cmp root r = Lt).
Proof.
  eexists _, _. split; [reflexivity|]. split; [reflexivity|].
  exact (extensions_antichain root _ _ root_wf eq_refl eq_refl).
Defined.
