(* ===== verification/Port.v ===== *)
(** * Ports and slots ([crates/dnx-core/src/port.rs], [slot.rs])

    A [PortId] is one 32-bit word: 28 bits of slot index, two bits of port
    kind, one eraser bit and the low bit of the slot's generation.  A [Slot]
    is the record of one agent; its kind, polarity and flags live in the bits
    of [tag]. *)
From S2P Require Import Prelude Bytes.

(** ** Ports *)

Inductive PortKind : Type := Principal | Aux0 | Aux1.
Inductive Polarity : Type := Child | Parent.

#[export] Instance PortKind_eq_dec : EqDecision PortKind.
Proof. solve_decision. Defined.
#[export] Instance Polarity_eq_dec : EqDecision Polarity.
Proof. solve_decision. Defined.

Definition from_bits (bits : Z) : PortKind :=
  let b := Z.land bits 3 in
  if b =? 0 then Principal else if b =? 1 then Aux0 else Aux1.

Definition kind_bits (k : PortKind) : Z :=
  match k with Principal => 0 | Aux0 => 1 | Aux1 => 2 end.

Notation PortId := Z (only parsing).

Definition NULL : PortId := 0.
Definition ERA : PortId := 2.

Definition port_new (slot_idx : Z) (kind : PortKind) (gen_low : Z) : PortId :=
  Z.lor (Z.lor (as_u32 (Z.shiftl slot_idx 4)) (Z.shiftl (kind_bits kind) 2))
    (Z.land gen_low 1).

Definition slot_idx (p : PortId) : Z := Z.shiftr p 4.
Definition port_kind (p : PortId) : PortKind := from_bits (Z.shiftr p 2).
Definition is_eraser (p : PortId) : bool := Z.land (Z.shiftr p 1) 1 =? 1.
Definition gen_low (p : PortId) : Z := Z.land p 1.
Definition is_null (p : PortId) : bool := p =? 0.

(** [PrincipalPortId::new]. *)
Definition principal_port (p : PortId) : option PortId :=
  match port_kind p with Principal => Some p | _ => None end.

(** ** Slots *)

Record Slot : Type := mk_slot {
  tag : Z;
  claim : Z;
  generation : Z;
  principal : PortId;
  aux0 : PortId;
  aux1 : PortId;
  data : Z;
  delta0 : Z;
  delta1 : Z;
  epoch : Z
}.

#[export] Instance Slot_eq_dec : EqDecision Slot.
Proof. solve_decision. Defined.

Definition EMPTY : Slot := mk_slot 0 0 0 0 0 0 0 0 0 0.

Definition set_tag (t : Z) (s : Slot) : Slot :=
  mk_slot t (claim s) (generation s) (principal s) (aux0 s) (aux1 s)
    (data s) (delta0 s) (delta1 s) (epoch s).
Definition set_generation (g : Z) (s : Slot) : Slot :=
  mk_slot (tag s) (claim s) g (principal s) (aux0 s) (aux1 s)
    (data s) (delta0 s) (delta1 s) (epoch s).
Definition set_principal (p : Z) (s : Slot) : Slot :=
  mk_slot (tag s) (claim s) (generation s) p (aux0 s) (aux1 s)
    (data s) (delta0 s) (delta1 s) (epoch s).
Definition set_aux0 (p : Z) (s : Slot) : Slot :=
  mk_slot (tag s) (claim s) (generation s) (principal s) p (aux1 s)
    (data s) (delta0 s) (delta1 s) (epoch s).
Definition set_aux1 (p : Z) (s : Slot) : Slot :=
  mk_slot (tag s) (claim s) (generation s) (principal s) (aux0 s) p
    (data s) (delta0 s) (delta1 s) (epoch s).
Definition set_label (d d0 d1 : Z) (s : Slot) : Slot :=
  mk_slot (tag s) (claim s) (generation s) (principal s) (aux0 s) (aux1 s)
    d d0 d1 (epoch s).

Definition TAG_FREE : Z := 0.
Definition TAG_FAN_APP : Z := 4.
Definition TAG_FAN_ABS : Z := 5.
Definition TAG_REP_IN_UNPAIRED : Z := 8.
Definition TAG_REP_IN_UNKNOWN : Z := 10.
Definition TAG_REP_OUT_UNKNOWN : Z := 11.
Definition TAG_AUX0_ERASED : Z := 64.
Definition TAG_AUX1_ERASED : Z := 128.
Definition TAG_ERASING_ABS : Z := 16.
Definition TAG_C1_MARK : Z := 32.

Definition is_free (s : Slot) : bool := Z.land (tag s) 12 =? 0.
Definition is_fan (s : Slot) : bool := Z.land (tag s) 12 =? 4.
Definition is_rep (s : Slot) : bool := Z.land (tag s) 12 =? 8.
Definition is_prim (s : Slot) : bool := Z.land (tag s) 14 =? 12.
Definition rep_is_unpaired (s : Slot) : bool := Z.land (tag s) 2 =? 0.
Definition fan_is_abs (s : Slot) : bool := negb (Z.land (tag s) 1 =? 0).
Definition fan_is_app (s : Slot) : bool := Z.land (tag s) 1 =? 0.
Definition rep_aux0_erased (s : Slot) : bool := negb (Z.land (tag s) 64 =? 0).
Definition rep_aux1_erased (s : Slot) : bool := negb (Z.land (tag s) 128 =? 0).
Definition is_c1_marked (s : Slot) : bool := negb (Z.land (tag s) 32 =? 0).

Definition polarity (s : Slot) (kind : PortKind) : option Polarity :=
  let fan := is_fan s in
  if negb fan && negb (is_rep s) then None
  else
    let flipped := negb (Z.land (tag s) 1 =? 0) in
    Some match kind, fan, flipped with
    | Principal, _, true => Parent
    | Principal, _, false => Child
    | Aux0, true, true => Child
    | Aux0, true, false => Parent
    | Aux1, true, true => Parent
    | Aux1, true, false => Child
    | _, false, true => Child
    | _, false, false => Parent
    end.

(** The port of a slot's record. *)
Definition port_raw (s : Slot) (k : PortKind) : PortId :=
  match k with
  | Principal => principal s
  | Aux0 => aux0 s
  | Aux1 => aux1 s
  end.

(** * Lemmas *)

Definition idx_range (i : Z) : Prop := 0 <= i < 2 ^ 28.
Definition gen_bit (g : Z) : Prop := g = 0 \/ g = 1.

Lemma land_pow2 z n : 0 <= n -> Z.land z (2 ^ n - 1) = z mod 2 ^ n.
Proof.
  intros. rewrite <- Z.land_ones by lia. f_equal.
  rewrite Z.ones_equiv. lia.
Qed.

Lemma land_1_bit g : gen_bit (Z.land g 1).
Proof.
  unfold gen_bit. pose proof (land_pow2 g 1 ltac:(lia)) as H.
  change (2 ^ 1 - 1) with 1 in H. rewrite H.
  pose proof (Z.mod_pos_bound g (2 ^ 1)). lia.
Qed.

Lemma gen_low_bit p : gen_bit (gen_low p).
Proof. apply land_1_bit. Qed.

(** [lor] of a multiple of [2 ^ n] and a value below it is their sum. *)
Lemma lor_disjoint a b n : 0 <= n -> 0 <= b < 2 ^ n ->
  Z.lor (2 ^ n * a) b = 2 ^ n * a + b.
Proof.
  intros Hn Hb. rewrite <- Z.add_lor_land.
  assert (Z.land (2 ^ n * a) b = 0) as ->; [|lia].
  apply Z.bits_inj'. intros k Hk. rewrite Z.land_spec, Z.bits_0, Z.mul_comm.
  destruct (Z.ltb_spec k n).
  - by rewrite Z.mul_pow2_bits_low by lia.
  - rewrite <- (Z.mod_small b (2 ^ n)) by lia.
    by rewrite Z.mod_pow2_bits_high, andb_false_r by lia.
Qed.

(** The word as an arithmetic expression. *)
Lemma port_new_eq i k g : idx_range i -> gen_bit g ->
  port_new i k g = 16 * i + 4 * kind_bits k + g.
Proof.
  unfold idx_range. intros Hi Hg. unfold port_new.
  assert (as_u32 (Z.shiftl i 4) = 2 ^ 4 * i) as ->.
  { unfold as_u32. rewrite Z.shiftl_mul_pow2 by lia. rewrite wrap_small; lia. }
  assert (Z.land g 1 = g) as -> by (destruct Hg as [-> | ->]; reflexivity).
  rewrite lor_disjoint by (lia || (destruct k; split; vm_compute; congruence)).
  replace (2 ^ 4 * i + Z.shiftl (kind_bits k) 2) with (2 ^ 2 * (4 * i + kind_bits k))
    by (rewrite Z.shiftl_mul_pow2 by lia; lia).
  rewrite lor_disjoint by (destruct Hg; subst; lia). lia.
Qed.

Lemma slot_idx_new i k g : idx_range i -> gen_bit g -> slot_idx (port_new i k g) = i.
Proof.
  intros Hi Hg. rewrite port_new_eq by done. unfold slot_idx.
  rewrite Z.shiftr_div_pow2 by lia.
  replace (16 * i + 4 * kind_bits k + g) with (4 * kind_bits k + g + i * 2 ^ 4) by lia.
  rewrite Z.div_add by lia. rewrite Z.div_small; [lia|].
  destruct k, Hg; subst; simpl; lia.
Qed.

Lemma from_bits_kind z k : Z.land z 3 = kind_bits k -> from_bits z = k.
Proof. intros H. unfold from_bits. rewrite H. by destruct k. Qed.

Lemma port_kind_new i k g : idx_range i -> gen_bit g -> port_kind (port_new i k g) = k.
Proof.
  intros Hi Hg. rewrite port_new_eq by done. unfold port_kind.
  apply from_bits_kind. change 3 with (2 ^ 2 - 1). rewrite land_pow2 by lia.
  rewrite Z.shiftr_div_pow2 by lia.
  replace (16 * i + 4 * kind_bits k + g) with (g + (4 * i + kind_bits k) * 2 ^ 2) by lia.
  rewrite Z.div_add by lia. rewrite (Z.div_small g) by (destruct Hg; subst; lia).
  replace (0 + (4 * i + kind_bits k)) with (kind_bits k + i * 2 ^ 2) by lia.
  rewrite Z_mod_plus_full. apply Z.mod_small. destruct k; simpl; lia.
Qed.

Lemma is_eraser_new i k g : idx_range i -> gen_bit g -> is_eraser (port_new i k g) = false.
Proof.
  intros Hi Hg. rewrite port_new_eq by done. unfold is_eraser.
  change 1 with (2 ^ 1 - 1) at 2. rewrite land_pow2, Z.shiftr_div_pow2 by lia.
  replace (16 * i + 4 * kind_bits k + g)
    with (g + (2 * (4 * i + kind_bits k)) * 2 ^ 1) by lia.
  rewrite Z.div_add by lia. rewrite (Z.div_small g) by (destruct Hg; subst; lia).
  replace (0 + 2 * (4 * i + kind_bits k)) with (0 + (4 * i + kind_bits k) * 2 ^ 1) by lia.
  by rewrite Z_mod_plus_full.
Qed.

Lemma gen_low_new i k g : idx_range i -> gen_bit g -> gen_low (port_new i k g) = g.
Proof.
  intros Hi Hg. rewrite port_new_eq by done. unfold gen_low.
  change 1 with (2 ^ 1 - 1) at 1. rewrite land_pow2 by lia.
  replace (16 * i + 4 * kind_bits k + g)
    with (g + (2 * (4 * i + kind_bits k)) * 2 ^ 1) by lia.
  rewrite Z_mod_plus_full. apply Z.mod_small. destruct Hg; subst; lia.
Qed.

Lemma is_null_new i k g : idx_range i -> gen_bit g -> i <> 0 ->
  is_null (port_new i k g) = false.
Proof.
  intros Hi Hg Hn. rewrite port_new_eq by done. unfold is_null.
  unfold idx_range in Hi. apply Z.eqb_neq. destruct k, Hg; subst; simpl; lia.
Qed.

(** * Theorems *)

(** Packing a slot index below 2^28 (the arena's [MAX_SLOTS]), a port
    kind and a generation bit in a [PortId] loses nothing: the index, the
    kind and the bit are read back, the word is a [u32] that is never the
    eraser, and it is null only for the sentinel slot 0. *)
Theorem port_roundtrip (i : Z) (k : PortKind) (g : Z) : idx_range i -> gen_bit g ->
  let p := port_new i k g in
  slot_idx p = i /\ port_kind p = k /\ gen_low p = g /\ is_eraser p = false
  /\ u32_range p /\ (is_null p = true -> i = 0).
Proof.
  intros Hi Hg p. subst p.
  rewrite slot_idx_new, port_kind_new, gen_low_new, is_eraser_new by done.
  repeat split; try done.
  - rewrite port_new_eq by done. unfold idx_range in Hi.
    destruct k, Hg; subst; simpl; lia.
  - rewrite port_new_eq by done. unfold idx_range in Hi.
    destruct k, Hg; subst; simpl; lia.
  - intros Hn. destruct (decide (i = 0)); [done|].
    by rewrite is_null_new in Hn.
Qed.

Lemma port_roundtrip_witness :
  idx_range 5 /\ gen_bit 1 /\
  let p := port_new 5 Aux1 1 in
  slot_idx p = 5 /\ port_kind p = Aux1 /\ gen_low p = 1 /\ is_eraser p = false
  /\ u32_range p /\ (is_null p = true -> 5 = 0).
Proof.
  assert (idx_range 5) as Hi by (unfold idx_range; lia).
  assert (gen_bit 1) as Hg by (by right).
  split; [exact Hi|]. split; [exact Hg|]. exact (port_roundtrip 5 Aux1 1 Hi Hg).
Defined.
