(* ===== verification/Arena.v ===== *)
(** * The slot arena ([crates/dnx-core/src/arena.rs])

    Agents live in a vector of slots addressed by index; slot 0 is a sentinel
    that is never handed out.  A retired index goes on a free stack and is
    reused with its generation bumped, so that ports of the old agent are
    recognised as stale by their generation bit.  [live_list] with its inverse
    [live_pos] makes iteration over, and membership in, the live slots cheap. *)
From S2P Require Import Prelude Bytes Error Port.

Definition MAX_SLOTS : Z := Z.shiftl 1 28.

Record Arena : Type := mk_arena {
  slots : list Slot;
  free : list Z;
  live_list : list Z;
  live_pos : gmap Z nat;
  cap : Z
}.

Definition arena_new (capacity : Z) : Arena :=
  mk_arena [EMPTY] [] [] ∅ (Z.min capacity MAX_SLOTS).

(** The bookkeeping that makes [idx] live ([live_list.push], [live_pos.insert]). *)
Definition push_live (a : Arena) (idx : Z) : Arena :=
  mk_arena (slots a) (free a) (live_list a ++ [idx])
    (<[idx := length (live_list a)]> (live_pos a)) (cap a).

Definition alloc_slot (a : Arena) : res DnxError (Z * Arena) :=
  '(idx, a') ←
    match pop (free a) with
    | Some (idx, free') =>
        old ← index (slots a) (Z.to_nat idx);
        let s := set_generation (as_u32 (generation old + 1)) EMPTY in
        slots' ← assign (slots a) (Z.to_nat idx) s;
        Ok (idx, mk_arena slots' free' (live_list a) (live_pos a) (cap a))
    | None =>
        let idx := Z.of_nat (length (slots a)) in
        if cap a <=? idx then Err ArenaCapacityExceeded
        else Ok (idx, mk_arena (slots a ++ [EMPTY]) (free a) (live_list a)
                        (live_pos a) (cap a))
    end;
  Ok (idx, push_live a' idx).

Definition retire_slot (a : Arena) (idx : Z) : res DnxError Arena :=
  a' ←
    match live_pos a !! idx with
    | Some pos =>
        let lp := delete idx (live_pos a) in
        ll ← swap_remove (live_list a) pos;
        let lp' := match ll !! pos with
                   | Some moved => <[moved := pos]> lp
                   | None => lp
                   end in
        Ok (mk_arena (slots a) (free a) ll lp' (cap a))
    | None => Ok a
    end;
  Ok (mk_arena (slots a') (free a' ++ [idx]) (live_list a') (live_pos a') (cap a')).

Definition slot (a : Arena) (idx : Z) : res DnxError Slot :=
  index (slots a) (Z.to_nat idx).

(** [*slot_mut(idx) = s]. *)
Definition slot_set (a : Arena) (idx : Z) (s : Slot) : res DnxError Arena :=
  slots' ← assign (slots a) (Z.to_nat idx) s;
  Ok (mk_arena slots' (free a) (live_list a) (live_pos a) (cap a)).

Definition is_live (a : Arena) (idx : Z) : bool :=
  if live_pos a !! idx then true else false.

Definition reserve (a : Arena) (n : Z) : res DnxError (Z * Arena) :=
  let base := Z.of_nat (length (slots a)) in
  top ← ok_or (checked_add_u32 base n) ArenaCapacityExceeded;
  if cap a <? top then Err ArenaCapacityExceeded
  else Ok (base, mk_arena (slots a ++ replicate (Z.to_nat n) EMPTY) (free a)
                   (live_list a) (live_pos a) (cap a)).

Definition commit_slot (a : Arena) (idx : Z) (s : Slot) : res DnxError Arena :=
  a' ← slot_set a idx s;
  Ok (push_live a' idx).

Definition release_reserved (a : Arena) (base used max : Z) : Arena :=
  mk_arena (slots a)
    (free a ++ ((fun j => base + used + Z.of_nat j) <$> seq 0 (Z.to_nat (max - used))))
    (live_list a) (live_pos a) (cap a).

Definition slot_count (a : Arena) : nat := length (slots a).

(** One slot as the eight words of the shader's struct. *)
Definition slot_words (s : Slot) : list Z :=
  let w0 := Z.lor (tag s) (Z.shiftl (claim s) 8) in
  let w5 := Z.lor (data s) (as_u32 (Z.shiftl (as_u16 (delta0 s)) 16)) in
  let w6 := Z.lor (as_u16 (delta1 s)) (as_u32 (Z.shiftl (epoch s) 16)) in
  [w0; generation s; principal s; aux0 s; aux1 s; w5; w6; 0].

Definition encode_gpu (a : Arena) : list Z := concat (slot_words <$> slots a).

(** ** Invariant *)

(** [live_pos] is the inverse of [live_list]; live and free indices are
    distinct, within the vector and never the sentinel; the vector stays
    within the 28-bit index space. *)
Record arena_wf (a : Arena) : Prop := mk_arena_wf {
  aw_inverse : forall i p, live_pos a !! i = Some p <-> live_list a !! p = Some i;
  aw_disjoint : NoDup (live_list a ++ free a);
  aw_range : Forall (fun i => 0 < i < Z.of_nat (length (slots a)))
               (live_list a ++ free a);
  aw_slots : (1 <= length (slots a))%nat;
  aw_cap : Z.of_nat (length (slots a)) <= Z.max 1 (cap a);
  aw_max : cap a <= MAX_SLOTS
}.

Definition live (a : Arena) (i : Z) : Prop := i ∈ live_list a.

(** * Lemmas *)

Lemma is_live_elem a i : arena_wf a -> is_live a i = true <-> live a i.
Proof.
  intros Hw. unfold is_live, live. rewrite list_elem_of_lookup. split.
  - destruct (live_pos a !! i) as [p|] eqn:Hp; [|done].
    intros _. exists p. by apply (aw_inverse a Hw).
  - intros [p Hp]. apply (aw_inverse a Hw) in Hp. by rewrite Hp.
Qed.

Lemma live_range a i : arena_wf a -> live a i ->
  0 < i < Z.of_nat (length (slots a)).
Proof.
  intros Hw Hi. pose proof (aw_range a Hw) as H. rewrite Forall_forall in H.
  apply H. unfold live in Hi. set_solver.
Qed.

Lemma slots_max a : arena_wf a -> Z.of_nat (length (slots a)) <= 2 ^ 28.
Proof.
  intros Hw. pose proof (aw_cap a Hw). pose proof (aw_max a Hw).
  unfold MAX_SLOTS in *. change (Z.shiftl 1 28) with (2 ^ 28) in *. lia.
Qed.

Lemma live_idx_range a i : arena_wf a -> live a i -> idx_range i.
Proof.
  intros Hw Hi. pose proof (live_range a i Hw Hi). pose proof (slots_max a Hw).
  unfold idx_range. lia.
Qed.

Lemma arena_new_wf capacity : 0 <= capacity -> arena_wf (arena_new capacity).
Proof.
  intros Hc. split; simpl; try lia.
  - intros i p. rewrite lookup_empty, lookup_nil. done.
  - constructor.
  - constructor.
Qed.

(** Making an index that is neither live nor free live. *)
Lemma push_live_wf a idx : arena_wf a ->
  idx ∉ live_list a ++ free a -> 0 < idx < Z.of_nat (length (slots a)) ->
  arena_wf (push_live a idx).
Proof.
  intros [Hinv Hnd Hr Hs Hc Hm] Hfresh Hidx. split; simpl; try done.
  - intros i p. rewrite lookup_insert. case_decide as Hi.
    + subst i. split.
      * intros [= <-]. rewrite lookup_app_r, Nat.sub_diag by lia. done.
      * intros Hp. destruct (decide (p < length (live_list a))%nat).
        -- rewrite lookup_app_l in Hp by done.
           apply list_elem_of_lookup_2 in Hp. set_solver.
        -- apply lookup_lt_Some in Hp as Hlt. rewrite length_app in Hlt; simpl in Hlt.
           f_equal. lia.
    + rewrite Hinv. split.
      * intros Hp. rewrite lookup_app_l; [done|by eapply lookup_lt_Some].
      * intros Hp. destruct (decide (p < length (live_list a))%nat).
        -- by rewrite lookup_app_l in Hp.
        -- rewrite lookup_app_r in Hp by lia.
           destruct (p - length (live_list a))%nat; [|done]. by simplify_eq/=.
  - rewrite <- (assoc_L (++)). simpl.
    apply (NoDup_Permutation_proper _ (idx :: live_list a ++ free a));
      [by rewrite Permutation_middle|]. by constructor.
  - rewrite <- (assoc_L (++)), Forall_app. simpl.
    rewrite Forall_app in Hr. destruct Hr. split; [done|]. by constructor.
Qed.

(** Taking one element off a list of live indices. *)
Lemma swap_remove_ok {A} (l : list A) pos x : l !! pos = Some x ->
  exists l', swap_remove (E:=DnxError) l pos = Ok l' /\ l ≡ₚ x :: l'
    /\ S (length l') = length l
    /\ (forall p y, (p < length l')%nat -> p <> pos -> (l' !! p = Some y <-> l !! p = Some y))
    /\ (forall y, l' !! pos = Some y -> l !! length l' = Some y).
Proof.
  intros Hx. pose proof (lookup_lt_Some _ _ _ Hx) as Hlt. unfold swap_remove.
  destruct (Nat.ltb_spec pos (length l)); [|lia].
  destruct (pop l) as [[z k]|] eqn:Hp; [|apply pop_None in Hp; subst; done].
  apply pop_Some in Hp. subst l. eexists. split; [reflexivity|].
  rewrite length_insert. rewrite length_app in *; simpl in *.
  destruct (decide (pos = length k)) as [->|Hne].
  - rewrite list_insert_ge by lia. rewrite lookup_app_r, Nat.sub_diag in Hx by lia.
    simplify_eq/=. split; [by rewrite Permutation_app_comm|]. split; [lia|]. split.
    + intros p y Hpl Hpn. by rewrite lookup_app_l.
    + intros y Hy. apply lookup_lt_Some in Hy. lia.
  - rewrite lookup_app_l in Hx by lia. split.
    + rewrite <- (take_drop_middle k pos x Hx) at 1.
      rewrite (insert_take_drop k pos z) by lia.
      etransitivity; [apply Permutation_app_comm|]. simpl.
      rewrite <- !Permutation_middle. apply perm_swap.
    + split; [lia|]. split.
      * intros p y Hpl Hpn. rewrite list_lookup_insert_ne, lookup_app_l by done. done.
      * intros y. rewrite list_lookup_insert_eq by lia. intros [= <-].
        by rewrite lookup_app_r, Nat.sub_diag by lia.
Qed.

(** ** Retiring *)

Definition inverse (m : gmap Z nat) (l : list Z) : Prop :=
  forall i p, m !! i = Some p <-> l !! p = Some i.

(** The index map after a swap-remove: the moved element, if any, is
    re-recorded at the vacated position. *)
Lemma swap_remove_inverse m l ll idx pos :
  inverse m l -> NoDup l -> l !! pos = Some idx ->
  swap_remove (E:=DnxError) l pos = Ok ll ->
  inverse (match ll !! pos with
           | Some moved => <[moved := pos]> (delete idx m)
           | None => delete idx m
           end) ll.
Proof.
  intros Hinv Hnd Hpos Hsw.
  destruct (swap_remove_ok _ _ _ Hpos) as (ll' & Hsw' & Hperm & Hlen & Hoth & Hmoved).
  rewrite Hsw in Hsw'. injection Hsw' as <-.
  assert (NoDup (idx :: ll)) as [Hnin Hnll]%NoDup_cons by (by rewrite <- Hperm).
  pose proof (lookup_lt_Some _ _ _ Hpos) as Hplt.
  assert (forall i p, p <> pos -> ll !! p = Some i <->
            delete idx m !! i = Some p /\ p <> length ll) as Hrest.
  { intros i p Hne. rewrite lookup_delete_Some, (Hinv i p). split.
    - intros Hp. pose proof (lookup_lt_Some _ _ _ Hp).
      assert (i <> idx) by (intros ->; apply Hnin; by eapply list_elem_of_lookup_2).
      split; [split|]; [done|by apply Hoth|lia].
    - intros [[Hi Hp] Hn]. pose proof (lookup_lt_Some _ _ _ Hp).
      apply Hoth; [lia|done|done]. }
  intros i p. destruct (ll !! pos) as [moved|] eqn:Hmv.
  - specialize (Hmoved _ eq_refl). rewrite lookup_insert. case_decide as Hi.
    + subst i. split; [by intros [= <-]|]. intros Hp. f_equal.
      by eapply NoDup_lookup.
    + destruct (decide (p = pos)) as [->|Hne].
      * rewrite lookup_delete_Some, (Hinv i pos). split; [naive_solver|congruence].
      * rewrite (Hrest i p Hne). split; [|tauto]. intros Hd. split; [done|].
        intros ->. rewrite lookup_delete_Some, (Hinv i _) in Hd. naive_solver.
  - apply lookup_ge_None in Hmv. destruct (decide (p = pos)) as [->|Hne].
    + rewrite lookup_delete_Some, (Hinv i pos). split; [naive_solver|].
      intros Hp%lookup_lt_Some. lia.
    + rewrite (Hrest i p Hne). split; [|tauto]. intros Hd. split; [done|].
      rewrite lookup_delete_Some, (Hinv i _) in Hd. destruct Hd as [_ Hd].
      apply lookup_lt_Some in Hd. lia.
Qed.

Lemma retire_slot_ok a idx : arena_wf a -> live a idx ->
  exists a', retire_slot a idx = Ok a' /\ arena_wf a'
    /\ live_list a ≡ₚ idx :: live_list a' /\ free a' = free a ++ [idx]
    /\ slots a' = slots a /\ cap a' = cap a.
Proof.
  intros [Hinv Hnd Hr Hs Hc Hm] Hl.
  apply list_elem_of_lookup in Hl as [pos Hpos].
  unfold retire_slot. rewrite (proj2 (Hinv idx pos) Hpos).
  destruct (swap_remove_ok _ _ _ Hpos) as (ll & Hsw & Hperm & _).
  rewrite Hsw; simpl. eexists. split; [reflexivity|]. simpl.
  split; [|done].
  assert (ll ++ free a ++ [idx] ≡ₚ live_list a ++ free a) as Hall.
  { rewrite Hperm, (assoc_L (++)), Permutation_app_comm. done. }
  split; simpl; rewrite ?Hall; try done.
  apply NoDup_app in Hnd as [Hnd _].
  by apply (swap_remove_inverse (live_pos a) (live_list a)).
Qed.

(** ** Allocation *)

Lemma alloc_slot_ok a : arena_wf a ->
  match alloc_slot a with
  | Ok (idx, a') =>
      arena_wf a' /\ live_list a' = live_list a ++ [idx] /\ ~ live a idx
      /\ 0 < idx < Z.of_nat (length (slots a')) /\ cap a' = cap a
      /\ (exists g, slots a' !! Z.to_nat idx = Some (set_generation g EMPTY)
            /\ match slots a !! Z.to_nat idx with
               | Some old => g = as_u32 (generation old + 1)
               | None => g = 0
               end)
      /\ (forall j, j <> Z.to_nat idx -> slots a' !! j = slots a !! j)
  | Err e => e = ArenaCapacityExceeded /\ free a = []
             /\ cap a <= Z.of_nat (length (slots a))
  | _ => False
  end.
Proof.
  intros Hw. pose proof Hw as [Hinv Hnd Hr Hs Hc Hm]. unfold alloc_slot.
  destruct (pop (free a)) as [[idx free']|] eqn:Hpop.
  - apply pop_Some in Hpop. rewrite Hpop in Hnd, Hr.
    assert (0 < idx < Z.of_nat (length (slots a))) as Hidx.
    { rewrite !Forall_app, Forall_singleton in Hr. apply Hr. }
    assert (Z.to_nat idx < length (slots a))%nat as Hlt by lia.
    destruct (index_lt (E:=DnxError) (slots a) (Z.to_nat idx) Hlt) as (old & Hold & Hlk).
    rewrite Hold. simpl. unfold assign. destruct (Nat.ltb_spec (Z.to_nat idx) (length (slots a))); [|lia].
    simpl. rewrite (assoc_L (++)) in Hnd, Hr.
    apply NoDup_app in Hnd as (Hnd & Hdis & _). apply Forall_app in Hr as [Hr _].
    assert (idx ∉ live_list a ++ free') as Hfresh by (intros Hin; apply (Hdis idx Hin); set_solver).
    split.
    { apply push_live_wf; simpl; rewrite ?length_insert; [|done|lia].
      split; simpl; rewrite ?length_insert; done. }
    split; [done|]. split; [unfold live; set_solver|].
    rewrite length_insert. split; [lia|]. split; [done|]. split.
    + eexists. rewrite list_lookup_insert_eq, Hlk by lia. done.
    + intros j Hj. by rewrite list_lookup_insert_ne.
  - apply pop_None in Hpop. destruct (Z.leb_spec (cap a) (Z.of_nat (length (slots a)))).
    { simpl. done. }
    simpl. rewrite Hpop, app_nil_r in *.
    assert (Z.of_nat (length (slots a)) ∉ live_list a) as Hfresh.
    { intros Hin. rewrite Forall_forall in Hr. specialize (Hr _ Hin). lia. }
    split.
    { apply push_live_wf;
        [|simpl; by rewrite ?Hpop, app_nil_r|simpl; rewrite length_app; simpl; lia].
      split; simpl; rewrite ?Hpop, ?app_nil_r, ?length_app; simpl; try done; try lia.
      eapply Forall_impl; [exact Hr|]. simpl. intros; lia. }
    split; [done|]. split; [done|]. rewrite length_app; simpl.
    split; [lia|]. split; [done|]. rewrite Nat2Z.id. split.
    + exists 0. split.
      * rewrite lookup_app_r by lia. by rewrite Nat.sub_diag.
      * by rewrite lookup_ge_None_2 by lia.
    + intros j Hj. destruct (decide (j < length (slots a))%nat).
      * by rewrite lookup_app_l.
      * rewrite !lookup_ge_None_2; [done|lia|rewrite length_app; simpl; lia].
Qed.

(** ** Reservation, commit and slot updates *)

Lemma slot_set_ok a idx s : arena_wf a -> 0 < idx < Z.of_nat (length (slots a)) ->
  exists a', slot_set a idx s = Ok a' /\ arena_wf a'
    /\ slots a' = <[Z.to_nat idx := s]> (slots a)
    /\ live_list a' = live_list a /\ free a' = free a
    /\ live_pos a' = live_pos a /\ cap a' = cap a.
Proof.
  intros [Hinv Hnd Hr Hs Hc Hm] Hidx. unfold slot_set, assign.
  destruct (Nat.ltb_spec (Z.to_nat idx) (length (slots a))); [|lia].
  simpl. eexists. split; [reflexivity|]. simpl. split; [|done].
  split; simpl; rewrite ?length_insert; done.
Qed.

Lemma slot_set_Ok a idx s a' : slot_set a idx s = Ok a' ->
  a' = mk_arena (<[Z.to_nat idx := s]> (slots a)) (free a) (live_list a)
         (live_pos a) (cap a).
Proof.
  unfold slot_set. intros H. inv_ok. apply assign_Ok in H0 as [_ ->]. by subst.
Qed.

(** Slot updates keep the invariant even at an arbitrary index. *)
Lemma slot_set_wf a idx s a' : arena_wf a -> slot_set a idx s = Ok a' -> arena_wf a'.
Proof.
  intros [Hinv Hnd Hr Hs Hc Hm] ->%slot_set_Ok.
  split; simpl; rewrite ?length_insert; done.
Qed.

Lemma reserve_wf a n base a' : arena_wf a -> 0 <= n -> reserve a n = Ok (base, a') ->
  arena_wf a' /\ base = Z.of_nat (length (slots a))
  /\ length (slots a') = (length (slots a) + Z.to_nat n)%nat
  /\ live_list a' = live_list a /\ free a' = free a.
Proof.
  intros [Hinv Hnd Hr Hs Hc Hm] Hn H. unfold reserve in H. inv_ok.
  unfold checked_add_u32 in H0.
  destruct (Z.of_nat (length (slots a)) + n <? 2 ^ 32); simplify_eq.
  destruct (Z.ltb_spec (cap a) (Z.of_nat (length (slots a)) + n)); [done|].
  simplify_eq. simpl. rewrite length_app, length_replicate.
  split; [|done]. split; simpl; rewrite ?length_app, ?length_replicate; try done; try lia.
  eapply Forall_impl; [exact Hr|]. simpl. intros; lia.
Qed.

Lemma commit_wf a idx s a' : arena_wf a -> idx ∉ live_list a ++ free a -> 0 < idx ->
  commit_slot a idx s = Ok a' ->
  arena_wf a' /\ live_list a' = live_list a ++ [idx].
Proof.
  intros Hw Hfresh Hpos H. unfold commit_slot in H. inv_ok. subst a'.
  pose proof (slot_set_wf _ _ _ _ Hw H0) as Hw0.
  unfold slot_set in H0. inv_ok. apply assign_Ok in H as [Hlt ->]. subst a0.
  split; [|done]. apply push_live_wf; simpl; rewrite ?length_insert; [done|done|lia].
Qed.

Lemma release_wf a base used max : arena_wf a -> 0 < base + used -> used <= max ->
  base + max <= Z.of_nat (length (slots a)) ->
  (forall j, base + used <= j < base + max -> j ∉ live_list a ++ free a) ->
  arena_wf (release_reserved a base used max).
Proof.
  intros [Hinv Hnd Hr Hs Hc Hm] Hb Hu Hm' Hj. split; simpl; try done.
  - rewrite (assoc_L (++)). apply NoDup_app. split; [done|]. split.
    + intros i Hi Hin. apply list_elem_of_fmap in Hin as (j & -> & Hj').
      apply elem_of_seq in Hj'. apply (Hj (base + used + Z.of_nat j)); [lia|done].
    + apply NoDup_fmap; [intros ???; lia|apply NoDup_seq].
  - rewrite (assoc_L (++)), Forall_app. split; [done|]. apply Forall_fmap, Forall_forall.
    intros j Hj'%elem_of_seq. simpl. lia.
Qed.

(** ** Reachable arenas *)

(** One use of the arena's interface: allocation, retirement of a live slot,
    a write to a slot, reservation, commit of a reserved index and release of
    a reserved range. *)
Inductive arena_step : Arena -> Arena -> Prop :=
| step_alloc a idx a' : alloc_slot a = Ok (idx, a') -> arena_step a a'
| step_retire a idx a' : live a idx -> retire_slot a idx = Ok a' -> arena_step a a'
| step_set a idx s a' : slot_set a idx s = Ok a' -> arena_step a a'
| step_reserve a n base a' : 0 <= n -> reserve a n = Ok (base, a') -> arena_step a a'
| step_commit a idx s a' : idx ∉ live_list a ++ free a -> 0 < idx ->
    commit_slot a idx s = Ok a' -> arena_step a a'
| step_release a base used max : 0 < base + used -> used <= max ->
    base + max <= Z.of_nat (length (slots a)) ->
    (forall j, base + used <= j < base + max -> j ∉ live_list a ++ free a) ->
    arena_step a (release_reserved a base used max).

Lemma arena_step_wf a a' : arena_wf a -> arena_step a a' -> arena_wf a'.
Proof.
  intros Hw Hs. destruct Hs.
  - pose proof (alloc_slot_ok a Hw) as Ho. rewrite H in Ho. apply Ho.
  - destruct (retire_slot_ok a idx Hw H) as (a2 & Ha2 & Hw2 & _). congruence.
  - by eapply slot_set_wf.
  - by eapply reserve_wf.
  - by eapply commit_wf.
  - by apply release_wf.
Qed.

(** * Theorems *)

(** C40: Every arena reachable from [Arena::new] through allocation,
    retirement of live slots, slot writes, reservation, commit and release
    satisfies the invariant: [live_pos] inverts [live_list], no index is live
    or free twice or both, the sentinel is never handed out, and every index
    fits the 28 bits a port has for it. *)
Theorem arena_reachable_wf (capacity : Z) (a : Arena) : 0 <= capacity ->
  star arena_step (arena_new capacity) a ->
  arena_wf a /\ (forall i, is_live a i = true -> idx_range i /\ i <> 0).
Proof.
  intros Hc Hs. assert (arena_wf a) as Hw.
  { pose proof (arena_new_wf capacity Hc) as Hw. revert Hw.
    induction Hs; eauto using arena_step_wf. }
  split; [done|]. intros i Hi. apply is_live_elem in Hi; [|done].
  pose proof (live_range a i Hw Hi). split; [by apply (live_idx_range a)|lia].
Qed.

Lemma arena_reachable_wf_witness :
  exists a, 0 <= 8 /\ star arena_step (arena_new 8) a /\ is_live a 1 = true /\
  (arena_wf a /\ (forall i, is_live a i = true -> idx_range i /\ i <> 0)).
Proof.
  eexists. split; [lia|].
  assert (star arena_step (arena_new 8) (push_live (mk_arena [EMPTY; EMPTY] [] [] ∅ 8) 1)) as Hs.
  { apply star_one. apply step_alloc with (idx := 1). reflexivity. }
  split; [exact Hs|]. split; [reflexivity|].
  exact (arena_reachable_wf 8 _ ltac:(lia) Hs).
Defined.

(** [alloc_slot] on a well-formed arena either hands out an index that
    was not live, makes it live, resets its slot (keeping only the bumped
    generation of a reused slot) and touches no other slot, or reports
    [ArenaCapacityExceeded] exactly when nothing is free and the vector has
    reached the capacity; it never panics. *)
Theorem alloc_slot_spec (a : Arena) : arena_wf a ->
  match alloc_slot a with
  | Ok (idx, a') =>
      arena_wf a' /\ is_live a idx = false /\ is_live a' idx = true
      /\ (forall j, is_live a' j = true <-> j = idx \/ is_live a j = true)
      /\ (exists g, slots a' !! Z.to_nat idx = Some (set_generation g EMPTY))
      /\ (forall j, j <> Z.to_nat idx -> slots a' !! j = slots a !! j)
  | Err e => e = ArenaCapacityExceeded /\ free a = []
             /\ cap a <= Z.of_nat (length (slots a))
  | _ => False
  end.
Proof.
  intros Hw. pose proof (alloc_slot_ok a Hw) as H.
  destruct (alloc_slot a) as [[idx a']|?| |]; [|done..].
  destruct H as (Hw' & Hl & Hn & Hr & Hc & (g & Hg & _) & Hoth).
  assert (forall j, is_live a' j = true <-> j = idx \/ is_live a j = true) as Hlive.
  { intros j. rewrite !is_live_elem by done. unfold live. rewrite Hl. set_solver. }
  split; [done|]. split; [apply not_true_iff_false; by rewrite is_live_elem|].
  split; [rewrite Hlive; by left|]. eauto.
Qed.

Lemma alloc_slot_spec_witness :
  arena_wf (arena_new 4) /\
  match alloc_slot (arena_new 4) with
  | Ok (idx, a') =>
      arena_wf a' /\ is_live (arena_new 4) idx = false /\ is_live a' idx = true
      /\ (forall j, is_live a' j = true <-> j = idx \/ is_live (arena_new 4) j = true)
      /\ (exists g, slots a' !! Z.to_nat idx = Some (set_generation g EMPTY))
      /\ (forall j, j <> Z.to_nat idx -> slots a' !! j = slots (arena_new 4) !! j)
  | Err e => e = ArenaCapacityExceeded /\ free (arena_new 4) = []
             /\ cap (arena_new 4) <= Z.of_nat (length (slots (arena_new 4)))
  | _ => False
  end.
Proof.
  assert (arena_wf (arena_new 4)) as Hw by (apply arena_new_wf; lia).
  split; [exact Hw|exact (alloc_slot_spec (arena_new 4) Hw)].
Defined.

Lemma parity_succ g : u32_range g ->
  Z.land (as_u32 (g + 1)) 1 <> Z.land g 1.
Proof.
  intros Hg. pose proof (land_pow2 (as_u32 (g + 1)) 1 ltac:(lia)) as H1.
  pose proof (land_pow2 g 1 ltac:(lia)) as H2. change (2 ^ 1 - 1) with 1 in *.
  rewrite H1, H2. unfold as_u32, wrap.
  rewrite Z.mod_mod_divide by (exists (2 ^ 31); reflexivity).
  change (2 ^ 1) with 2. pose proof (Z.div_mod g 2). pose proof (Z.div_mod (g + 1) 2).
  pose proof (Z.mod_pos_bound g 2). pose proof (Z.mod_pos_bound (g + 1) 2). lia.
Qed.

(** A retired slot is the next one handed out, with its generation
    incremented (wrapping), so the generation bit of every port of the old
    agent differs from the slot's: stale ports are detected until the slot has
    been reused twice. *)
Theorem reuse_flips_generation (a : Arena) (idx : Z) (old : Slot) :
  arena_wf a -> live a idx -> slots a !! Z.to_nat idx = Some old ->
  u32_range (generation old) ->
  exists a1 a2 new,
    retire_slot a idx = Ok a1 /\ is_live a1 idx = false /\
    alloc_slot a1 = Ok (idx, a2) /\ is_live a2 idx = true /\
    slots a2 !! Z.to_nat idx = Some new /\
    generation new = as_u32 (generation old + 1) /\
    Z.land (generation new) 1 <> Z.land (generation old) 1.
Proof.
  intros Hw Hl Hs Hg.
  destruct (retire_slot_ok a idx Hw Hl) as (a1 & Hr & Hw1 & Hp & Hf & Hsl & Hc).
  pose proof (alloc_slot_ok a1 Hw1) as Ha.
  assert (exists a2, alloc_slot a1 = Ok (idx, a2)) as [a2 Ha2].
  { destruct (alloc_slot a1) as [[i a2]|e| |] eqn:E; try done.
    - exists a2. unfold alloc_slot in E. rewrite Hf in E.
      rewrite (proj2 (pop_Some (free a ++ [idx]) (free a) idx) eq_refl) in E.
      inv_ok. destruct a0. simplify_eq. inv_ok. by simplify_eq.
    - destruct Ha as (_ & Hnil & _). rewrite Hf in Hnil. by destruct (free a). }
  rewrite Ha2 in Ha. destruct Ha as (Hw2 & Hl2 & Hn & _ & _ & (g & Hg2 & Hgen) & _).
  rewrite Hsl, Hs in Hgen. exists a1, a2, (set_generation g EMPTY).
  split; [done|]. split; [apply not_true_iff_false; by rewrite is_live_elem|].
  split; [done|]. split; [apply is_live_elem; [done|]; unfold live; rewrite Hl2; set_solver|].
  split; [done|]. simpl. subst g. split; [done|]. by apply parity_succ.
Qed.

Lemma reuse_flips_generation_witness :
  exists a, arena_wf a /\ live a 1 /\ slots a !! 1%nat = Some EMPTY /\ u32_range 0 /\
  exists a1 a2 new,
    retire_slot a 1 = Ok a1 /\ is_live a1 1 = false /\
    alloc_slot a1 = Ok (1, a2) /\ is_live a2 1 = true /\
    slots a2 !! 1%nat = Some new /\
    generation new = as_u32 (0 + 1) /\
    Z.land (generation new) 1 <> Z.land 0 1.
Proof.
  assert (arena_wf (push_live (mk_arena [EMPTY; EMPTY] [] [] ∅ 8) 1)) as Hw.
  { pose proof (alloc_slot_ok (arena_new 8) (arena_new_wf 8 ltac:(lia))) as H.
    exact (proj1 H). }
  assert (live (push_live (mk_arena [EMPTY; EMPTY] [] [] ∅ 8) 1) 1) as Hl
    by (apply list_elem_of_singleton; reflexivity).
  assert (u32_range 0) as H0 by (unfold u32_range; lia).
  eexists. split; [exact Hw|]. split; [exact Hl|]. split; [reflexivity|].
  split; [exact H0|].
  exact (reuse_flips_generation _ 1 EMPTY Hw Hl eq_refl H0).
Defined.
