(* ===== verification/Net.v ===== *)
(** * Interaction nets ([crates/dnx-core/src/net.rs], [class.rs])

    A net is an arena of agents, two frontiers of pending redexes keyed by
    their left-outermost path, the named root ports and the flag byte.
    [frontier1] holds active pairs (two principal ports facing each other),
    [frontier2] the replicator/application candidates of the second reduction
    phase.  The marker types [Proper]/[Canonical] of the source are the types
    [Net] and [CanonicalNet]. *)
From S2P Require Import Prelude Bytes Error LOPath Port Arena.

(** ** [BTreeMap] with [LOPath] keys

    An association list in increasing key order; only [Ord::cmp] is used. *)
Section BTreeMap.
Context {V : Type}.

(** [BTreeMap::insert]: an equal key keeps its place, its value is replaced. *)
Fixpoint bt_insert (k : LOPath) (v : V) (m : list (LOPath * V))
    : list (LOPath * V) :=
  match m with
  | [] => [(k, v)]
  | (k', v') :: m' =>
      match cmp k k' with
      | Lt => (k, v) :: m
      | Eq => (k', v) :: m'
      | Gt => (k', v') :: bt_insert k v m'
      end
  end.

(** [BTreeMap::remove]. *)
Fixpoint bt_remove (k : LOPath) (m : list (LOPath * V))
    : option (V * list (LOPath * V)) :=
  match m with
  | [] => None
  | (k', v') :: m' =>
      match cmp k k' with
      | Lt => None
      | Eq => Some (v', m')
      | Gt => '(v, r) ← bt_remove k m'; Some (v, (k', v') :: r)
      end
  end.

(** [BTreeMap::pop_first]. *)
Definition bt_pop_first (m : list (LOPath * V))
    : option (LOPath * V * list (LOPath * V)) :=
  match m with
  | [] => None
  | kv :: m' => Some (kv, m')
  end.
End BTreeMap.

(** ** Data *)

Inductive NetClass : Type := DeltaL | DeltaA | DeltaI | DeltaK.

Definition CLASS_BITS (c : NetClass) : Z :=
  match c with DeltaL => 0 | DeltaA => 1 | DeltaI => 2 | DeltaK => 3 end.

Definition FLAG_PENDING_C1 : Z := 4.

Record ActivePair : Type := mk_pair { p0 : PortId; p1 : PortId; pair_lo : LOPath }.

(** [ActivePair::new]: [None] unless both ports are principal. *)
Definition active_pair_new (a b : PortId) (lo : LOPath) : option ActivePair :=
  x ← principal_port a;
  y ← principal_port b;
  Some (mk_pair x y lo).

Record C4Candidate : Type := mk_cand {
  rep_principal : PortId;
  app_aux0 : PortId;
  cand_lo : LOPath
}.

Record AgentPorts : Type := mk_ports {
  ag_principal : PortId;
  ag_aux0 : PortId;
  ag_aux1 : PortId
}.

Record Net : Type := mk_net {
  arena : Arena;
  frontier1 : list (LOPath * ActivePair);
  frontier2 : list (LOPath * C4Candidate);
  free_slots : gmap string PortId;
  net_flags : Z
}.

(** A net whose canonicity was certified. *)
Record CanonicalNet : Type := mk_canonical { proper : Net }.

Definition set_arena (a : Arena) (n : Net) : Net :=
  mk_net a (frontier1 n) (frontier2 n) (free_slots n) (net_flags n).
Definition set_frontier1 (f : list (LOPath * ActivePair)) (n : Net) : Net :=
  mk_net (arena n) f (frontier2 n) (free_slots n) (net_flags n).
Definition set_frontier2 (f : list (LOPath * C4Candidate)) (n : Net) : Net :=
  mk_net (arena n) (frontier1 n) f (free_slots n) (net_flags n).
Definition set_flags (f : Z) (n : Net) : Net :=
  mk_net (arena n) (frontier1 n) (frontier2 n) (free_slots n) f.

(** ** Operations *)

Definition net_pending_c1 (n : Net) : bool :=
  negb (Z.land (net_flags n) FLAG_PENDING_C1 =? 0).
Definition set_pending_c1 (n : Net) : Net :=
  set_flags (Z.lor (net_flags n) FLAG_PENDING_C1) n.
Definition clear_pending_c1 (n : Net) : Net :=
  set_flags (Z.land (net_flags n) (as_u8 (Z.lnot FLAG_PENDING_C1))) n.

Definition certify_canonical (n : Net) : res DnxError unit :=
  match frontier1 n, frontier2 n, net_pending_c1 n with
  | [], [], false => Ok tt
  | _, _, _ => Err ReadbackIncomplete
  end.

Definition into_canonical (n : Net) : CanonicalNet := mk_canonical n.

Definition net_slot (n : Net) (p : PortId) : res DnxError Slot :=
  slot (arena n) (slot_idx p).

Definition net_slot_set (n : Net) (p : PortId) (s : Slot) : res DnxError Net :=
  a ← slot_set (arena n) (slot_idx p) s;
  Ok (set_arena a n).

Definition peer (n : Net) (p : PortId) : res DnxError PortId :=
  if is_eraser p || is_null p then Ok p
  else s ← net_slot n p; Ok (port_raw s (port_kind p)).

Definition slot_is_live (n : Net) (p : PortId) : bool :=
  negb (is_eraser p) && negb (is_null p) && is_live (arena n) (slot_idx p).

Definition net_new (cls : NetClass) (capacity : Z) : Net :=
  mk_net (arena_new capacity) [] [] ∅ (CLASS_BITS cls).

Definition agent_ports (n : Net) (idx : Z) : res DnxError AgentPorts :=
  s ← slot (arena n) idx;
  let g := Z.land (generation s) 1 in
  Ok (mk_ports (port_new idx Principal g) (port_new idx Aux0 g) (port_new idx Aux1 g)).

(** The writes of [alloc_agent] to the fresh slot. *)
Definition init_slot (tag data d0 d1 : Z) (s : Slot) : Slot :=
  set_label data d0 d1 (set_tag tag s).

Definition alloc_agent (n : Net) (tag data d0 d1 : Z) : res DnxError (AgentPorts * Net) :=
  '(idx, a) ← alloc_slot (arena n);
  s ← slot a idx;
  a' ← slot_set a idx (init_slot tag data d0 d1 s);
  let n' := set_arena a' n in
  ps ← agent_ports n' idx;
  Ok (ps, n').

Definition alloc_abs (n : Net) : res DnxError (AgentPorts * Net) :=
  alloc_agent n TAG_FAN_ABS 0 0 0.
Definition alloc_app (n : Net) : res DnxError (AgentPorts * Net) :=
  alloc_agent n TAG_FAN_APP 0 0 0.
Definition alloc_rep_in (n : Net) (level d0 d1 : Z) : res DnxError (AgentPorts * Net) :=
  alloc_agent n TAG_REP_IN_UNPAIRED level d0 d1.

Definition alloc_free (n : Net) (var_id : Z) : res DnxError (PortId * Net) :=
  '(idx, a) ← alloc_slot (arena n);
  s ← slot a idx;
  let s' := set_label (as_u16 (Z.land var_id 16383)) (delta0 s) (delta1 s)
              (set_tag TAG_FREE s) in
  a' ← slot_set a idx s';
  Ok (port_new idx Principal (Z.land (generation s) 1), set_arena a' n).

(** The record update of [write_port]: the wire, and the erased flag of a
    replicator whose auxiliary port receives an eraser. *)
Definition write_slot (k : PortKind) (val : PortId) (s : Slot) : Slot :=
  match k with
  | Principal => set_principal val s
  | Aux0 =>
      let s' := set_aux0 val s in
      if is_eraser val && is_rep s' then set_tag (Z.lor (tag s') TAG_AUX0_ERASED) s'
      else s'
  | Aux1 =>
      let s' := set_aux1 val s in
      if is_eraser val && is_rep s' then set_tag (Z.lor (tag s') TAG_AUX1_ERASED) s'
      else s'
  end.

Definition write_port (n : Net) (port val : PortId) : res DnxError Net :=
  if is_eraser port || is_null port then Ok n
  else
    s ← net_slot n port;
    net_slot_set n port (write_slot (port_kind port) val s).

Definition is_rep_port (n : Net) (p : PortId) : res DnxError bool :=
  if is_eraser p || is_null p then Ok false
  else s ← net_slot n p; Ok (is_rep s).

Definition is_app_fan_port (n : Net) (p : PortId) : res DnxError bool :=
  if is_eraser p || is_null p then Ok false
  else s ← net_slot n p; Ok (is_fan s && fan_is_app s).

(** [a && b] with the second operand evaluated only if the first holds. *)
Definition and_then (a b : res DnxError bool) : res DnxError bool :=
  x ← a; if (x : bool) then b else Ok false.

Definition detect_pair (n : Net) (a b : PortId) (lo : LOPath) : res DnxError Net :=
  match port_kind a, port_kind b with
  | Principal, Principal =>
      if negb (is_null a) && negb (is_null b) then
        match active_pair_new a b lo with
        | Some ap => Ok (set_frontier1 (bt_insert lo ap (frontier1 n)) n)
        | None => Ok n
        end
      else Ok n
  | Principal, Aux0 =>
      c4 ← and_then (is_rep_port n a) (is_app_fan_port n b);
      if (c4 : bool)
      then Ok (set_frontier2 (bt_insert lo (mk_cand a b lo) (frontier2 n)) n)
      else Ok n
  | Aux0, Principal =>
      c4 ← and_then (is_app_fan_port n a) (is_rep_port n b);
      if (c4 : bool)
      then Ok (set_frontier2 (bt_insert lo (mk_cand b a lo) (frontier2 n)) n)
      else Ok n
  | _, _ => Ok n
  end.

Definition link_no_pair (n : Net) (a b : PortId) : res DnxError Net :=
  n1 ← write_port n a b;
  write_port n1 b a.

Definition connect (n : Net) (a b : PortId) (lo : LOPath) : res DnxError Net :=
  n1 ← write_port n a b;
  n2 ← write_port n1 b a;
  detect_pair n2 a b lo.

(** The record update of [set_eraser_on_port]. *)
Definition erase_slot (k : PortKind) (s : Slot) : Slot :=
  match k with
  | Principal => set_principal ERA s
  | Aux0 =>
      let s' := set_aux0 ERA s in
      if is_rep s' then set_tag (Z.lor (tag s') TAG_AUX0_ERASED) s' else s'
  | Aux1 =>
      let s' := set_aux1 ERA s in
      let s'' := if is_rep s' then set_tag (Z.lor (tag s') TAG_AUX1_ERASED) s' else s' in
      if fan_is_abs s'' then set_tag (Z.lor (tag s'') TAG_ERASING_ABS) s'' else s''
  end.

Definition set_eraser_on_port (n : Net) (port : PortId) : res DnxError Net :=
  if is_eraser port || is_null port then Ok n
  else
    s ← net_slot n port;
    n' ← net_slot_set n port (erase_slot (port_kind port) s);
    match port_kind port with
    | Principal => Ok n'
    | _ => Ok (set_pending_c1 n')
    end.

Definition add_root (n : Net) (name : string) (port : PortId) : Net :=
  mk_net (arena n) (frontier1 n) (frontier2 n) (<[name := port]> (free_slots n))
    (net_flags n).

Definition agent_count (n : Net) : nat := length (live_list (arena n)).
Definition active_pair_count (n : Net) : nat := length (frontier1 n).

Definition retire (n : Net) (idx : Z) : res DnxError Net :=
  a ← retire_slot (arena n) idx;
  Ok (set_arena a n).
