(* ===== verification/Prim.v ===== *)
(** * Primitive values and functions ([crates/dnx-core/src/prim.rs])

    A primitive agent holds an index into a side table of values or of
    (partially applied) functions.  A Rust function pointer is an opaque
    identifier, interpreted by the parameter [call]. *)
From S2P Require Import Prelude Bytes Utf8 Error LOPath Port Arena Net.

Definition TAG_PRIM_VAL : Z := 12.
Definition TAG_PRIM_FUN : Z := 13.

(** [PrimImpl]; [Pure] holds the function pointer. *)
Inductive PrimImpl : Type :=
| Pure (f : nat)
| Effectful (label : list Z).

(** An [f64] is its 64 bits. *)
Inductive PrimValue : Type :=
| PInt (i : Z)
| PFloat (bits : Z)
| PStr (s : list Z)
| PPath (s : list Z)
| PBool (b : bool)
| PNull
| PList (vs : list PrimValue)
| PAttrSet (kvs : list (list Z * PrimValue))
| PClosure (f : PrimFunEntry)
| PLambda
with PrimFunEntry : Type :=
| mk_fun (fun_name : list Z) (arity_remaining : Z) (captured : list PrimValue) (impl_ : PrimImpl).

Definition fun_name (e : PrimFunEntry) : list Z := let '(mk_fun n _ _ _) := e in n.
Definition arity_remaining (e : PrimFunEntry) : Z := let '(mk_fun _ a _ _) := e in a.
Definition captured (e : PrimFunEntry) : list PrimValue := let '(mk_fun _ _ c _) := e in c.
Definition impl_ (e : PrimFunEntry) : PrimImpl := let '(mk_fun _ _ _ i) := e in i.

(** [PartialEq]: closures are never equal, not even to themselves. *)
Fixpoint prim_eqb (a b : PrimValue) {struct a} : bool :=
  match a, b with
  | PInt a, PInt b => a =? b
  | PFloat a, PFloat b => a =? b
  | PStr a, PStr b => bool_decide (a = b)
  | PPath a, PPath b => bool_decide (a = b)
  | PBool a, PBool b => Bool.eqb a b
  | PNull, PNull => true
  | PList a, PList b =>
      (fix go a b := match a, b with
         | [], [] => true
         | x :: a, y :: b => prim_eqb x y && go a b
         | _, _ => false
         end) a b
  | PAttrSet a, PAttrSet b =>
      (fix go a b := match a, b with
         | [], [] => true
         | (k, x) :: a, (l, y) :: b => bool_decide (k = l) && prim_eqb x y && go a b
         | _, _ => false
         end) a b
  | PLambda, PLambda => true
  | _, _ => false
  end.

(** ** The table of primitives *)

Record PrimTable : Type := mk_table { tb_names : list (list Z); tb_impls : list (Z * PrimImpl) }.

Definition table_empty : PrimTable := mk_table [] [].

Definition register (t : PrimTable) (name : str) (arity : Z) (impl : PrimImpl) : Z * PrimTable :=
  (as_u16 (Z.of_nat (length (tb_names t))),
   mk_table (tb_names t ++ [name]) (tb_impls t ++ [(arity, impl)])).

(** [iter().position(p)]. *)
Fixpoint position {A : Type} (p : A -> bool) (l : list A) : option nat :=
  match l with
  | [] => None
  | x :: l => if p x then Some O else S <$> position p l
  end.

Definition table_lookup (t : PrimTable) (name : str) : option Z :=
  (fun i => as_u16 (Z.of_nat i)) <$> position (fun n => bool_decide (n = name)) (tb_names t).

Definition make_entry (t : PrimTable) (prim_id : Z) : option PrimFunEntry :=
  '(arity, impl) ← tb_impls t !! Z.to_nat prim_id;
  name ← tb_names t !! Z.to_nat prim_id;
  Some (mk_fun name arity [] impl).

(** ** The side tables of a net *)

Record PrimState : Type := mk_prims { vals : list PrimValue; funs : list PrimFunEntry }.

Definition prims_new : PrimState := mk_prims [] [].

Definition alloc_val (ps : PrimState) (v : PrimValue) : res DnxError (Z * PrimState) :=
  if 65535 <=? Z.of_nat (length (vals ps)) then Err ArenaCapacityExceeded
  else Ok (as_u16 (Z.of_nat (length (vals ps))), mk_prims (vals ps ++ [v]) (funs ps)).

Definition alloc_fun (ps : PrimState) (entry : PrimFunEntry) : res DnxError (Z * PrimState) :=
  if 65535 <=? Z.of_nat (length (funs ps)) then Err ArenaCapacityExceeded
  else Ok (as_u16 (Z.of_nat (length (funs ps))), mk_prims (vals ps) (funs ps ++ [entry])).

Definition alloc_prim_val (n : Net) (ps : PrimState) (v : PrimValue)
    : res DnxError (PortId * Net * PrimState) :=
  '(val_id, ps) ← alloc_val ps v;
  '(ports, n) ← alloc_agent n TAG_PRIM_VAL val_id 0 0;
  Ok (ag_principal ports, n, ps).

Definition alloc_prim_fun (n : Net) (ps : PrimState) (entry : PrimFunEntry)
    : res DnxError (PortId * Net * PrimState) :=
  '(fun_id, ps) ← alloc_fun ps entry;
  '(ports, n) ← alloc_agent n TAG_PRIM_FUN fun_id 0 0;
  Ok (ag_principal ports, n, ps).

(** ** Church booleans *)

Definition emit_church_bool (n : Net) (b : bool) : res DnxError (PortId * Net) :=
  let lo := LOPath.root in
  '(outer, n) ← alloc_abs n;
  '(inner, n) ← alloc_abs n;
  n ← connect n (ag_aux0 outer) (ag_principal inner) lo;
  if b then
    n ← connect n (ag_aux0 inner) (ag_aux1 outer) lo;
    n ← connect n (ag_aux1 inner) ERA lo;
    Ok (ag_principal outer, n)
  else
    n ← connect n (ag_aux0 inner) (ag_aux1 inner) lo;
    n ← connect n (ag_aux1 outer) ERA lo;
    Ok (ag_principal outer, n).

Definition try_church_bool (n : Net) (p : PortId) : res DnxError (option bool) :=
  outer ← net_slot n p;
  if negb (is_fan outer) || negb (fan_is_abs outer) then Ok None
  else
    let inner_p := aux0 outer in
    if negb (slot_is_live n inner_p) then Ok None
    else
      inner ← net_slot n inner_p;
      if negb (is_fan inner) || negb (fan_is_abs inner) then Ok None
      else if is_eraser (aux1 inner) then Ok (Some true)
      else if is_eraser (aux1 outer) then Ok (Some false)
      else Ok None.

(** ** Application *)

Section Apply.
(** What the function pointers compute. *)
Context (call : nat -> list PrimValue -> res DnxError PrimValue).

Definition prim_apply_inner (n : Net) (ps : PrimState) (p_fun p_arg cont_port : PortId) (lo : LOPath)
    : res DnxError (Net * PrimState) :=
  fun_view ← net_slot n p_fun;
  entry ← ok_or (funs ps !! Z.to_nat (data fun_view)) ReadbackIncomplete;
  arg_view ← net_slot n p_arg;
  if negb (is_prim arg_view) || (tag arg_view =? TAG_PRIM_FUN) then Err ReadbackIncomplete
  else
    arg_val ← ok_or (vals ps !! Z.to_nat (data arg_view)) ReadbackIncomplete;
    n ← retire n (slot_idx p_fun);
    n ← retire n (slot_idx p_arg);
    let new_captured := captured entry ++ [arg_val] in
    if 1 <? arity_remaining entry then
      let new_entry := mk_fun (fun_name entry) (arity_remaining entry - 1) new_captured (impl_ entry) in
      '(new_p, n, ps) ← alloc_prim_fun n ps new_entry;
      n ← connect n new_p cont_port lo;
      Ok (n, ps)
    else
      match impl_ entry with
      | Pure f =>
          result ← call f new_captured;
          '(new_p, n, ps) ← alloc_prim_val n ps result;
          n ← connect n new_p cont_port lo;
          Ok (n, ps)
      | Effectful _ => Err ReadbackIncomplete
      end.

Definition prim_apply (n : Net) (ps : PrimState) (p_fun p_arg : PortId) (lo : LOPath)
    : res DnxError (Net * PrimState) :=
  fun_view ← net_slot n p_fun;
  prim_apply_inner n ps p_fun p_arg (principal fun_view) lo.

Definition prim_apply_with_cont (n : Net) (ps : PrimState) (p_fun p_arg cont : PortId) (lo : LOPath)
    : res DnxError (Net * PrimState) :=
  prim_apply_inner n ps p_fun p_arg cont lo.
End Apply.
