(* ===== verification/Wiring.v ===== *)
(** * Reasoning about net rewrites

    The rules are sequences of allocations, erasures, retirements and
    [connect]s.  This file gives each of these primitives a specification in
    terms of two views of a net, the port stored at a place ([port_at]) and
    the agent of an index ([agent_at]), and one theorem for a whole rewrite
    ([evolve_inv]): if the connections made cover every wire that led to a
    retired agent, the wiring is again an involution on the live ports. *)
From S2P Require Import Prelude Bytes Error LOPath Port Arena Net.

(** A wire end that exists in memory: neither the virtual eraser nor null. *)
Definition real (p : PortId) : bool := negb (is_eraser p || is_null p).

(** The place a port denotes; the generation bit is not part of it. *)
Definition key (p : PortId) : Z * PortKind := (slot_idx p, port_kind p).

Definition slot_at (n : Net) (i : Z) : option Slot :=
  if i <? 0 then None else slots (arena n) !! Z.to_nat i.

(** The agent of a slot apart from its wires: kind, polarity and pairing bits
    of the tag, generation and label. *)
Definition agent (s : Slot) : Z * Z * Z * Z * Z :=
  (Z.land (tag s) 15, generation s, data s, delta0 s, delta1 s).

Definition agent_at (n : Net) (i : Z) : option (Z * Z * Z * Z * Z) :=
  agent <$> slot_at n i.

(** The port stored at a place. *)
Definition port_at (n : Net) (k : Z * PortKind) : option PortId :=
  (fun s => port_raw s k.2) <$> slot_at n k.1.

Definition alive (n : Net) (i : Z) : Prop := i ∈ live_list (arena n).

(** The port word of place [(i, k)] of the agent [s] at index [i]. *)
Definition port_of (i : Z) (k : PortKind) (s : Slot) : PortId :=
  port_new i k (Z.land (generation s) 1).

(** [p] is a current port of a live agent: its generation bit is right. *)
Definition current (n : Net) (p : PortId) : Prop :=
  exists s, alive n (slot_idx p) /\ slot_at n (slot_idx p) = Some s
            /\ p = port_of (slot_idx p) (port_kind p) s.

(** The arena invariant, and the wiring of the live agents is an involution:
    a real port stored at a live place is a current port of a live agent, and
    the port stored there leads back. *)
Record net_inv (n : Net) : Prop := mk_net_inv {
  ni_arena : arena_wf (arena n);
  ni_sym : forall i k s, alive n i -> slot_at n i = Some s ->
    real (port_raw s k) = true ->
    current n (port_raw s k)
    /\ port_at n (key (port_raw s k)) = Some (port_of i k s)
}.

(** A wire between [a] and [b], seen from each end that exists. *)
Definition wired (n : Net) (ab : PortId * PortId) : Prop :=
  (real ab.1 = true -> port_at n (key ab.1) = Some ab.2) /\
  (real ab.2 = true -> port_at n (key ab.2) = Some ab.1).

(** Writing [q] at port [p], seen from place [k]. *)
Definition upd1 (p q : PortId) (k : Z * PortKind) (v : option PortId) : option PortId :=
  if real p && bool_decide (k = key p) then (fun _ => q) <$> v else v.

(** Connecting the pairs of [ws] in order, seen from place [k]. *)
Definition upds (ws : list (PortId * PortId)) (k : Z * PortKind) (v : option PortId)
    : option PortId :=
  foldl (fun v w => upd1 w.2 w.1 k (upd1 w.1 w.2 k v)) v ws.

(** The directed ends of a list of wires. *)
Definition ends (ws : list (PortId * PortId)) : list (PortId * PortId) :=
  concat ((fun w => [(w.1, w.2); (w.2, w.1)]) <$> ws).

(** No place gets two partners. *)
Definition coherent (ws : list (PortId * PortId)) : Prop :=
  forall p q p' q', (p, q) ∈ ends ws -> (p', q') ∈ ends ws ->
    real p = true -> real p' = true -> key p = key p' -> p = p' /\ q = q'.

(** [n] is [n0] after retiring [dead] and connecting [ws]. *)
Record evolve (n0 : Net) (dead : list Z) (ws : list (PortId * PortId)) (n : Net)
    : Prop := mk_evolve {
  ev_arena : arena_wf (arena n);
  ev_live : live_list (arena n0) ≡ₚ dead ++ live_list (arena n);
  ev_agents : forall i, agent_at n i = agent_at n0 i;
  ev_ports : forall k, port_at n k = upds ws k (port_at n0 k);
  ev_slots : length (slots (arena n)) = length (slots (arena n0));
  ev_f1 : (length (frontier1 n) <= length (frontier1 n0) + length ws)%nat
}.

(** A freshly allocated agent: live, labelled as asked, all ports free. *)
Definition fresh_agent (n : Net) (ps : AgentPorts) (tag data d0 d1 : Z) : Prop :=
  exists s, alive n (slot_idx (ag_principal ps))
  /\ slot_at n (slot_idx (ag_principal ps)) = Some s
  /\ agent s = (Z.land tag 15, generation s, data, d0, d1)
  /\ (forall k, port_raw s k = NULL)
  /\ ag_principal ps = port_of (slot_idx (ag_principal ps)) Principal s
  /\ ag_aux0 ps = port_of (slot_idx (ag_principal ps)) Aux0 s
  /\ ag_aux1 ps = port_of (slot_idx (ag_principal ps)) Aux1 s.

(** [n] is [n0] with more agents. *)
Record grows (n0 n : Net) (fresh : list Z) : Prop := mk_grows {
  gr_inv : net_inv n;
  gr_live : live_list (arena n) = live_list (arena n0) ++ fresh;
  gr_old : forall i, alive n0 i -> slot_at n i = slot_at n0 i;
  gr_f1 : frontier1 n = frontier1 n0
}.

(** A result that is [Ok] with [Q], or one of the errors of [P]: never a
    panic, never out of fuel. *)
Definition returns {E A : Type} (P : E -> Prop) (m : res E A) (Q : A -> Prop) : Prop :=
  match m with
  | Ok a => Q a
  | Err e => P e
  | Panic | Fuel => False
  end.

(** * Lemmas *)

Lemma returns_bind {E A B} (P : E -> Prop) (m : res E A) (k : A -> res E B)
    (R : A -> Prop) (Q : B -> Prop) :
  returns P m R -> (forall a, R a -> returns P (k a) Q) -> returns P (x ← m; k x) Q.
Proof. destruct m; simpl; auto. Qed.

Lemma returns_mono {E A} (P P' : E -> Prop) (m : res E A) (Q Q' : A -> Prop) :
  (forall e, P e -> P' e) -> (forall a, Q a -> Q' a) -> returns P m Q -> returns P' m Q'.
Proof. destruct m; simpl; auto. Qed.

Lemma real_true p : real p = true <-> is_eraser p = false /\ is_null p = false.
Proof. unfold real. rewrite negb_true_iff, orb_false_iff. done. Qed.

Lemma real_false p : real p = false <-> is_eraser p || is_null p = true.
Proof. unfold real. by rewrite negb_false_iff. Qed.

Lemma real_ERA : real ERA = false.
Proof. reflexivity. Qed.

(** ** Ports of live agents *)

Lemma slot_at_arena n n' : slots (arena n) = slots (arena n') ->
  forall i, slot_at n i = slot_at n' i.
Proof. intros H i. unfold slot_at. by rewrite H. Qed.

Lemma alive_slot n i : arena_wf (arena n) -> alive n i ->
  exists s, slot_at n i = Some s.
Proof.
  intros Hw Hi. pose proof (live_range _ _ Hw Hi). unfold slot_at.
  destruct (Z.ltb_spec i 0); [lia|]. apply lookup_lt_is_Some. lia.
Qed.

Lemma alive_idx n i : arena_wf (arena n) -> alive n i -> idx_range i /\ i <> 0.
Proof.
  intros Hw Hi. pose proof (live_range _ _ Hw Hi).
  split; [by eapply live_idx_range|lia].
Qed.

Section PortOf.
Context (i : Z) (k : PortKind) (s : Slot) (Hi : idx_range i).

Lemma key_port_of : key (port_of i k s) = (i, k).
Proof.
  unfold key, port_of. pose proof (land_1_bit (generation s)).
  by rewrite slot_idx_new, port_kind_new.
Qed.

Lemma real_port_of : i <> 0 -> real (port_of i k s) = true.
Proof.
  intros. apply real_true. unfold port_of. pose proof (land_1_bit (generation s)).
  by rewrite is_eraser_new, is_null_new.
Qed.

Lemma idx_port_of : slot_idx (port_of i k s) = i.
Proof. change i with (i, k).1 at 2. by rewrite <- key_port_of. Qed.

Lemma kind_port_of : port_kind (port_of i k s) = k.
Proof. change k with (i, k).2 at 2. by rewrite <- key_port_of. Qed.
End PortOf.

Lemma current_port_of n i k s : arena_wf (arena n) -> alive n i -> slot_at n i = Some s ->
  current n (port_of i k s).
Proof.
  intros Hw Hi Hs. destruct (alive_idx n i Hw Hi) as [Hr _].
  exists s. by rewrite idx_port_of, kind_port_of.
Qed.

(** A current port is determined by its place. *)
Lemma current_inj n p q : current n p -> current n q -> key p = key q -> p = q.
Proof.
  intros (s & _ & Hs & Hp) (s' & _ & Hs' & Hq) Hk. unfold key in Hk.
  injection Hk as Hi Hkd. rewrite Hi in Hs. rewrite Hs in Hs'. injection Hs' as ->.
  rewrite Hp, Hq. by rewrite Hi, Hkd.
Qed.

Lemma port_at_alive n i k : arena_wf (arena n) -> alive n i ->
  exists s, slot_at n i = Some s /\ port_at n (i, k) = Some (port_raw s k).
Proof.
  intros Hw Hi. destruct (alive_slot n i Hw Hi) as [s Hs].
  exists s. unfold port_at. simpl. by rewrite Hs.
Qed.

(** The involution, on places. *)
Lemma sym_at n i k q : net_inv n -> alive n i -> port_at n (i, k) = Some q ->
  real q = true ->
  current n q /\ exists s, slot_at n i = Some s /\ port_at n (key q) = Some (port_of i k s).
Proof.
  intros Hn Hi Hq Hr. unfold port_at in Hq. simpl in Hq.
  destruct (slot_at n i) as [s|] eqn:Hs; [|done]. injection Hq as <-.
  destruct (ni_sym n Hn i k s Hi Hs Hr) as [Hc Hb]. split; [done|]. exists s. done.
Qed.

(** Two live places storing ports of the same place are the same place. *)
Lemma sym_inj n i k i' k' q q' : net_inv n -> alive n i -> alive n i' ->
  port_at n (i, k) = Some q -> port_at n (i', k') = Some q' ->
  real q = true -> real q' = true -> key q = key q' -> (i, k) = (i', k').
Proof.
  intros Hn Hi Hi' Hq Hq' Hr Hr' Hk.
  destruct (sym_at n i k q) as (_ & s & Hs & Hb); [done..|].
  destruct (sym_at n i' k' q') as (_ & s' & Hs' & Hb'); [done..|].
  rewrite Hk, Hb' in Hb. injection Hb as Hb.
  destruct (alive_idx n i (ni_arena n Hn) Hi) as [Hir _].
  destruct (alive_idx n i' (ni_arena n Hn) Hi') as [Hir' _].
  rewrite <- (key_port_of i k s Hir), <- (key_port_of i' k' s' Hir'). by f_equal.
Qed.

(** ** Updates of the view *)

Lemma upds_snoc ws w k v :
  upds (ws ++ [w]) k v = upd1 w.2 w.1 k (upd1 w.1 w.2 k (upds ws k v)).
Proof. unfold upds. by rewrite foldl_app. Qed.

Lemma upd1_is_Some p q k v : is_Some v -> is_Some (upd1 p q k v).
Proof. unfold upd1. destruct (_ && _); [|done]. intros [x ->]. by eexists. Qed.

Lemma upds_is_Some ws k v : is_Some v -> is_Some (upds ws k v).
Proof.
  intros Hv. induction ws as [|w ws IH] using rev_ind; [done|].
  rewrite upds_snoc. by do 2 apply upd1_is_Some.
Qed.

Lemma upd1_hit p q v : real p = true -> is_Some v -> upd1 p q (key p) v = Some q.
Proof. intros Hr [x ->]. unfold upd1. by rewrite Hr, bool_decide_true. Qed.

Lemma upd1_miss p q k v : (real p = true -> key p <> k) -> upd1 p q k v = v.
Proof.
  intros H. unfold upd1. destruct (real p); [|done].
  rewrite bool_decide_false; [done|]. intros ->. by apply H.
Qed.

Lemma upd1_keep p q k x : (real p = true -> key p = k -> q = x) ->
  upd1 p q k (Some x) = Some x.
Proof.
  intros H. unfold upd1. destruct (real p); [|done]. simpl.
  case_bool_decide; [|done]. simpl. by rewrite H.
Qed.

Lemma ends_snoc ws w : ends (ws ++ [w]) = ends ws ++ [(w.1, w.2); (w.2, w.1)].
Proof. unfold ends. by rewrite fmap_app, concat_app. Qed.

Lemma coherent_app_l ws w : coherent (ws ++ [w]) -> coherent ws.
Proof.
  intros Hc p q p' q' H1 H2. apply Hc; rewrite ends_snoc; apply elem_of_app; by left.
Qed.

Lemma upds_end ws p q v : coherent ws -> (p, q) ∈ ends ws -> real p = true ->
  is_Some v -> upds ws (key p) v = Some q.
Proof.
  intros Hc Hin Hr Hv. induction ws as [|w ws IH] using rev_ind; [by apply not_elem_of_nil in Hin|].
  rewrite upds_snoc. pose proof Hin as H0. pose proof (coherent_app_l ws w Hc) as Hcl.
  assert ((w.1, w.2) ∈ ends (ws ++ [w])) as H1
    by (rewrite ends_snoc; apply elem_of_app; right; left).
  assert ((w.2, w.1) ∈ ends (ws ++ [w])) as H2
    by (rewrite ends_snoc; apply elem_of_app; right; right; left).
  rewrite ends_snoc in Hin. apply elem_of_app in Hin as [Hin|Hin].
  - rewrite (IH Hcl Hin), (upd1_keep w.1 w.2); [apply upd1_keep|].
    + intros Hr2 Hk. by apply (Hc _ _ _ _ H2 H0 Hr2 Hr Hk).
    + intros Hr1 Hk. by apply (Hc _ _ _ _ H1 H0 Hr1 Hr Hk).
  - apply elem_of_cons in Hin as [[= -> ->]|Hin%list_elem_of_singleton].
    + rewrite (upd1_hit w.1 w.2); [|done|by apply upds_is_Some].
      apply upd1_keep. intros Hr2 Hk. by destruct (Hc _ _ _ _ H2 H1 Hr2 Hr Hk).
    + injection Hin as -> ->.
      apply upd1_hit; [done|]. by apply upd1_is_Some, upds_is_Some.
Qed.

Lemma upds_other ws k v :
  (forall p q, (p, q) ∈ ends ws -> real p = true -> key p <> k) -> upds ws k v = v.
Proof.
  intros H. induction ws as [|w ws IH] using rev_ind; [done|].
  rewrite upds_snoc. rewrite ends_snoc in H.
  rewrite IH by (intros p q Hp; apply (H p q); apply elem_of_app; by left).
  rewrite (upd1_miss w.1) by (apply (H w.1 w.2); apply elem_of_app; right; left).
  apply upd1_miss. apply (H w.2 w.1). apply elem_of_app. right. right. left.
Qed.

(** ** Writing a port *)

(** A port that is either virtual or inside the arena. *)
Definition port_in (n : Net) (p : PortId) : Prop :=
  real p = true -> 0 <= slot_idx p < Z.of_nat (length (slots (arena n))).

Lemma current_in n p : arena_wf (arena n) -> current n p -> port_in n p.
Proof. intros Hw (s & Hi & _) _. pose proof (live_range _ _ Hw Hi). lia. Qed.

Lemma port_in_slots n n' p :
  length (slots (arena n)) = length (slots (arena n')) -> port_in n p -> port_in n' p.
Proof. unfold port_in. by intros ->. Qed.

Lemma port_in_slot n p : port_in n p -> real p = true ->
  exists s, net_slot n p = Ok s /\ slot_at n (slot_idx p) = Some s.
Proof.
  intros H Hr. specialize (H Hr). unfold net_slot, slot, slot_at.
  destruct (index_lt (E:=DnxError) (slots (arena n)) (Z.to_nat (slot_idx p)))
    as (s & Hs & Hl); [lia|].
  destruct (Z.ltb_spec (slot_idx p) 0); [lia|]. eauto.
Qed.

(** One slot rewritten by a function that writes port [k] and leaves the
    agent alone. *)
Definition writes_port (f : Slot -> Slot) (k : PortKind) (q : PortId) : Prop :=
  forall s, agent (f s) = agent s
  /\ forall k', port_raw (f s) k' = if decide (k = k') then q else port_raw s k'.

Lemma agent_flag t f : Z.land f 15 = 0 -> Z.land (Z.lor t f) 15 = Z.land t 15.
Proof. intros H. by rewrite Z.land_lor_distr_l, H, Z.lor_0_r. Qed.

Lemma write_slot_writes k q : writes_port (write_slot k q) k q.
Proof.
  intros s. split.
  - unfold agent. destruct k; simpl; [done|..];
      destruct (is_eraser q && is_rep _); try done; simpl; by rewrite agent_flag.
  - intros k'. destruct k, k'; simpl; try done; by destruct (is_eraser q && is_rep _).
Qed.

Lemma erase_slot_writes k : writes_port (erase_slot k) k ERA.
Proof.
  intros s. split.
  - unfold agent. destruct k; simpl; [done|..].
    + destruct (is_rep _); try done; simpl; by rewrite agent_flag.
    + destruct (is_rep _); simpl; destruct (fan_is_abs _); try done; simpl;
        by rewrite ?agent_flag.
  - intros k'. destruct k, k'; simpl; try done; destruct (is_rep _); simpl; try done;
      by destruct (fan_is_abs _).
Qed.

(** Slot [i] replaced. *)
Definition put (n : Net) (i : Z) (s : Slot) : Net :=
  set_arena (mk_arena (<[Z.to_nat i := s]> (slots (arena n))) (free (arena n))
               (live_list (arena n)) (live_pos (arena n)) (cap (arena n))) n.

Lemma put_ok n p s : port_in n p -> real p = true ->
  net_slot_set n p s = Ok (put n (slot_idx p) s).
Proof.
  intros H Hr. specialize (H Hr). unfold net_slot_set, slot_set, assign.
  by destruct (Nat.ltb_spec (Z.to_nat (slot_idx p)) (length (slots (arena n)))); [|lia].
Qed.

Lemma slot_at_put n i s s0 j : slot_at n i = Some s0 ->
  slot_at (put n i s) j = if bool_decide (j = i) then Some s else slot_at n j.
Proof.
  unfold slot_at. destruct (Z.ltb_spec i 0); [done|]. intros Hs.
  pose proof (lookup_lt_Some _ _ _ Hs). simpl.
  case_bool_decide as Hj.
  - subst j. destruct (Z.ltb_spec i 0); [lia|]. by rewrite list_lookup_insert_eq.
  - destruct (Z.ltb_spec j 0); [done|]. rewrite list_lookup_insert_ne; [done|lia].
Qed.

Lemma put_wf n i s : arena_wf (arena n) -> arena_wf (arena (put n i s)).
Proof. intros [Hinv Hnd Hr Hs Hc Hm]. split; simpl; rewrite ?length_insert; done. Qed.

(** [n1] is [n] after storing [q] at port [p]. *)
Record stored (n : Net) (p q : PortId) (n1 : Net) : Prop := mk_stored {
  st_arena : arena_wf (arena n) -> arena_wf (arena n1);
  st_live : live_list (arena n1) = live_list (arena n);
  st_agents : forall i, agent_at n1 i = agent_at n i;
  st_ports : forall k, port_at n1 k = upd1 p q k (port_at n k);
  st_slots : length (slots (arena n1)) = length (slots (arena n));
  st_f1 : frontier1 n1 = frontier1 n
}.

Lemma stored_put n p q f s : real p = true -> slot_at n (slot_idx p) = Some s ->
  writes_port f (port_kind p) q -> stored n p q (put n (slot_idx p) (f s)).
Proof.
  intros Hr Hs Hf. destruct (Hf s) as [Hag Hpo]. split; simpl; try done.
  - apply put_wf.
  - intros i. unfold agent_at. rewrite (slot_at_put _ _ _ _ _ Hs).
    case_bool_decide; [|done]. subst. rewrite Hs. simpl. by rewrite Hag.
  - intros [i k]. unfold upd1, port_at. simpl. rewrite (slot_at_put _ _ _ _ _ Hs), Hr.
    simpl. case_bool_decide as Hi.
    + subst. rewrite Hs. simpl. rewrite Hpo. unfold key.
      destruct (decide (port_kind p = k)) as [->|Hn].
      * by rewrite bool_decide_true.
      * rewrite bool_decide_false; [done|congruence].
    + rewrite bool_decide_false; [done|]. unfold key. congruence.
  - by rewrite length_insert.
Qed.

Lemma stored_virtual n p q : real p = false -> stored n p q n.
Proof. intros Hr. split; try done. intros k. unfold upd1. by rewrite Hr. Qed.

Lemma write_port_stored n p q : port_in n p ->
  exists n1, write_port n p q = Ok n1 /\ stored n p q n1.
Proof.
  intros Hp. unfold write_port. destruct (real p) eqn:Hr.
  - pose proof Hr as [-> ->]%real_true. simpl.
    destruct (port_in_slot n p Hp Hr) as (s & -> & Hs). simpl.
    rewrite put_ok by done. eexists. split; [reflexivity|].
    apply (stored_put n p q (write_slot (port_kind p) q) s Hr Hs).
    apply write_slot_writes.
  - rewrite (proj1 (real_false p) Hr). eauto using stored_virtual.
Qed.

Lemma set_eraser_stored n p : port_in n p ->
  exists n1, set_eraser_on_port n p = Ok n1 /\ stored n p ERA n1.
Proof.
  intros Hp. unfold set_eraser_on_port. destruct (real p) eqn:Hr.
  - pose proof Hr as [-> ->]%real_true. simpl.
    destruct (port_in_slot n p Hp Hr) as (s & -> & Hs). simpl.
    rewrite put_ok by done. simpl.
    pose proof (stored_put n p ERA (erase_slot (port_kind p)) s Hr Hs
                  (erase_slot_writes _)) as H.
    destruct (port_kind p); eexists; (split; [reflexivity|]); try exact H;
      destruct H; by split.
  - rewrite (proj1 (real_false p) Hr). eauto using stored_virtual.
Qed.

Lemma detect_pair_ok n a b lo : port_in n a -> port_in n b ->
  exists f1 f2, detect_pair n a b lo
    = Ok (mk_net (arena n) f1 f2 (free_slots n) (net_flags n))
    /\ (length f1 <= S (length (frontier1 n)))%nat.
Proof.
  intros Ha Hb.
  assert (forall V k (v : V) m, length (bt_insert k v m) <= S (length m))%nat as Hbt.
  { intros V k v m. induction m as [|[k' v'] m IH]; simpl; [lia|].
    destruct (cmp k k'); simpl; lia. }
  assert (forall p, port_in n p -> exists x, is_rep_port n p = Ok x) as Hrep.
  { intros p Hp. unfold is_rep_port. destruct (_ || _) eqn:Hr; [eauto|].
    destruct (port_in_slot n p Hp) as (s & -> & _); simpl; eauto.
    unfold real. by rewrite Hr. }
  assert (forall p, port_in n p -> exists x, is_app_fan_port n p = Ok x) as Happ.
  { intros p Hp. unfold is_app_fan_port. destruct (_ || _) eqn:Hr; [eauto|].
    destruct (port_in_slot n p Hp) as (s & -> & _); simpl; eauto.
    unfold real. by rewrite Hr. }
  assert (exists f1 f2, Ok (E:=DnxError) n = Ok (mk_net (arena n) f1 f2 (free_slots n) (net_flags n))
            /\ length f1 <= S (length (frontier1 n)))%nat as Hsame.
  { exists (frontier1 n), (frontier2 n). destruct n. split; [done|simpl; lia]. }
  unfold detect_pair, and_then.
  destruct (Hrep a Ha) as [x1 ->], (Hrep b Hb) as [x2 ->],
    (Happ a Ha) as [y1 ->], (Happ b Hb) as [y2 ->]. simpl.
  destruct (port_kind a), (port_kind b); try done.
  - destruct (_ && _); [|done]. destruct (active_pair_new a b lo); [|done].
    do 2 eexists. split; [reflexivity|]. apply Hbt.
  - destruct x1; simpl; [|done]. destruct y2; simpl; [|done].
    do 2 eexists. split; [reflexivity|]. simpl. lia.
  - destruct y1; simpl; [|done]. destruct x2; simpl; [|done].
    do 2 eexists. split; [reflexivity|]. simpl. lia.
Qed.

(** ** Steps of a rewrite *)

Lemma evolve_refl n : arena_wf (arena n) -> evolve n [] [] n.
Proof. intros. split; try done. simpl. lia. Qed.

Lemma evolve_stored n0 dead ws n n1 n2 a b : evolve n0 dead ws n ->
  stored n a b n1 -> stored n1 b a n2 -> evolve n0 dead (ws ++ [(a, b)]) n2.
Proof.
  intros [Ha Hl Hg Hp Hs Hf] [Ha1 Hl1 Hg1 Hp1 Hs1 Hf1] [Ha2 Hl2 Hg2 Hp2 Hs2 Hf2].
  split; auto.
  - by rewrite Hl2, Hl1.
  - intros i. by rewrite Hg2, Hg1.
  - intros k. by rewrite Hp2, Hp1, upds_snoc, Hp.
  - lia.
  - rewrite Hf2, Hf1, length_app. simpl. lia.
Qed.

Lemma evolve_connect n0 dead ws n a b lo : evolve n0 dead ws n ->
  port_in n0 a -> port_in n0 b ->
  exists n', connect n a b lo = Ok n' /\ evolve n0 dead (ws ++ [(a, b)]) n'.
Proof.
  intros He Ha Hb. unfold connect.
  assert (port_in n a) as Ha0 by (eapply port_in_slots; [symmetry; apply He|done]).
  destruct (write_port_stored n a b Ha0) as (n1 & -> & H1). simpl.
  assert (port_in n1 b) as Hb1.
  { eapply port_in_slots; [|exact Hb]. rewrite (st_slots _ _ _ _ H1). symmetry. apply He. }
  destruct (write_port_stored n1 b a Hb1) as (n2 & -> & H2). simpl.
  destruct (detect_pair_ok n2 a b lo) as (f1 & f2 & -> & Hl).
  { eapply port_in_slots; [|exact Ha]. rewrite (st_slots _ _ _ _ H2), (st_slots _ _ _ _ H1).
    symmetry. apply He. }
  { eapply port_in_slots; [|exact Hb1]. by rewrite (st_slots _ _ _ _ H2). }
  eexists. split; [reflexivity|].
  destruct (evolve_stored _ _ _ _ _ _ _ _ He H1 H2) as [Ha' Hl' Hg' Hp' Hs' Hf'].
  split; simpl; try done.
  rewrite (st_f1 _ _ _ _ H2), (st_f1 _ _ _ _ H1) in Hl.
  pose proof (ev_f1 _ _ _ _ He). rewrite length_app. simpl. lia.
Qed.

Lemma evolve_link n0 dead ws n a b : evolve n0 dead ws n ->
  port_in n0 a -> port_in n0 b ->
  exists n', link_no_pair n a b = Ok n' /\ evolve n0 dead (ws ++ [(a, b)]) n'.
Proof.
  intros He Ha Hb. unfold link_no_pair.
  assert (port_in n a) as Ha0 by (eapply port_in_slots; [symmetry; apply He|done]).
  destruct (write_port_stored n a b Ha0) as (n1 & -> & H1). simpl.
  assert (port_in n1 b) as Hb1.
  { eapply port_in_slots; [|exact Hb]. rewrite (st_slots _ _ _ _ H1). symmetry. apply He. }
  destruct (write_port_stored n1 b a Hb1) as (n2 & -> & H2).
  eauto using evolve_stored.
Qed.

Lemma evolve_eraser n0 dead ws n p : evolve n0 dead ws n -> port_in n0 p ->
  exists n', set_eraser_on_port n p = Ok n' /\ evolve n0 dead (ws ++ [(ERA, p)]) n'.
Proof.
  intros He Hp.
  destruct (set_eraser_stored n p) as (n1 & -> & H1);
    [eapply port_in_slots; [symmetry; apply He|done]|].
  eexists. split; [reflexivity|]. eapply evolve_stored; [exact He| |exact H1].
  by apply stored_virtual.
Qed.

Lemma evolve_retire n0 dead ws n i : evolve n0 dead ws n -> alive n i ->
  exists n', retire n i = Ok n' /\ evolve n0 (i :: dead) ws n'.
Proof.
  intros [Ha Hl Hg Hp Hs Hf] Hi. unfold retire.
  destruct (retire_slot_ok (arena n) i Ha Hi) as (a' & -> & Ha' & Hp' & _ & Hsl & _).
  simpl. eexists. split; [reflexivity|].
  assert (forall j, slot_at (set_arena a' n) j = slot_at n j) as Hat
    by (intros j; unfold slot_at; simpl; by rewrite Hsl).
  split; simpl; try done.
  - rewrite Hl, Hp'. by rewrite Permutation_middle.
  - intros j. unfold agent_at. rewrite Hat. apply Hg.
  - intros k. unfold port_at. rewrite Hat. apply Hp.
  - by rewrite Hsl.
Qed.

(** ** Allocation *)

Lemma current_grows n0 n fresh p : grows n0 n fresh -> current n0 p -> current n p.
Proof.
  intros Hg (s & Hi & Hs & Hp). exists s. split; [|split; [|done]].
  - unfold alive. rewrite (gr_live _ _ _ Hg). apply elem_of_app. by left.
  - by rewrite (gr_old _ _ _ Hg).
Qed.

Lemma port_at_grows n0 n fresh k : grows n0 n fresh -> alive n0 k.1 ->
  port_at n k = port_at n0 k.
Proof. intros Hg Hi. unfold port_at. by rewrite (gr_old _ _ _ Hg). Qed.

Lemma grows_refl n : net_inv n -> grows n n [].
Proof. intros Hn. split; try done. by rewrite app_nil_r. Qed.

Lemma alive_grows n0 n f i : grows n0 n f -> alive n0 i -> alive n i.
Proof. intros Hg Hi. unfold alive. rewrite (gr_live _ _ _ Hg). apply elem_of_app. by left. Qed.

Lemma grows_trans n0 n1 n2 f1 f2 : grows n0 n1 f1 -> grows n1 n2 f2 ->
  grows n0 n2 (f1 ++ f2).
Proof.
  intros H1 H2. split.
  - apply H2.
  - by rewrite (gr_live _ _ _ H2), (gr_live _ _ _ H1), (assoc_L (++)).
  - intros i Hi. rewrite (gr_old _ _ _ H2), (gr_old _ _ _ H1); [done..|].
    by eapply alive_grows.
  - by rewrite (gr_f1 _ _ _ H2), (gr_f1 _ _ _ H1).
Qed.

Lemma fresh_grows n0 n f ps t d d0 d1 : grows n0 n f ->
  fresh_agent n0 ps t d d0 d1 -> fresh_agent n ps t d d0 d1.
Proof.
  intros Hg (s & Hi & Hs & Hrest). exists s. split; [by eapply alive_grows|].
  split; [by rewrite (gr_old _ _ _ Hg)|done].
Qed.

(** Adding an agent without wires keeps the invariant. *)
Lemma fresh_inv n n' i s : net_inv n -> arena_wf (arena n') ->
  live_list (arena n') = live_list (arena n) ++ [i] -> slot_at n' i = Some s ->
  (forall k, port_raw s k = NULL) ->
  (forall j, alive n j -> slot_at n' j = slot_at n j) -> net_inv n'.
Proof.
  intros Hn Hw Hl Hs Hz Hold. split; [done|].
  intros j k s' Hj Hsj Hr. unfold alive in Hj. rewrite Hl in Hj.
  apply elem_of_app in Hj as [Hj|Hj%list_elem_of_singleton]; [|subst j].
  - rewrite Hold in Hsj by done.
    destruct (ni_sym n Hn j k s' Hj Hsj Hr) as [Hc Hb].
    assert (forall p, current n p -> current n' p /\ port_at n' (key p) = port_at n (key p)) as Hk.
    { intros p (sp & Hi & Hsp & Hp). split.
      - exists sp. split; [unfold alive; rewrite Hl; apply elem_of_app; by left|].
        by rewrite Hold.
      - unfold port_at. simpl. by rewrite Hold. }
    destruct (Hk _ Hc) as [Hc' ->]. done.
  - rewrite Hs in Hsj. injection Hsj as <-. by rewrite Hz in Hr.
Qed.

Lemma alloc_agent_ok n t d d0 d1 : net_inv n ->
  returns (fun e => e = ArenaCapacityExceeded) (alloc_agent n t d d0 d1)
    (fun '(ps, n') => grows n n' [slot_idx (ag_principal ps)]
       /\ fresh_agent n' ps t d d0 d1 /\ ~ alive n (slot_idx (ag_principal ps))).
Proof.
  intros Hn. pose proof (ni_arena n Hn) as Hw. unfold alloc_agent.
  pose proof (alloc_slot_ok (arena n) Hw) as Ha.
  destruct (alloc_slot (arena n)) as [[i a]|e| |]; [|by destruct Ha..]. simpl.
  destruct Ha as (Hwa & Hla & Hni & Hri & _ & (g & Hg & _) & Hoth).
  assert (slot a i = Ok (set_generation g EMPTY)) as ->
    by (unfold slot, index; by rewrite Hg). simpl.
  set (s := init_slot t d d0 d1 (set_generation g EMPTY)).
  destruct (slot_set_ok a i s Hwa Hri) as (a' & -> & Hwa' & Hsl & Hll & _). simpl.
  assert (slots a' !! Z.to_nat i = Some s) as Hsi
    by (rewrite Hsl; apply list_lookup_insert_eq; lia).
  unfold agent_ports. simpl. unfold slot at 1, index. rewrite Hsi. simpl.
  set (n' := set_arena a' n).
  assert (idx_range i) as Hir.
  { pose proof (slots_max a Hwa). unfold idx_range. lia. }
  change (port_new i Principal _) with (port_of i Principal s).
  change (port_new i Aux0 _) with (port_of i Aux0 s).
  change (port_new i Aux1 _) with (port_of i Aux1 s).
  rewrite idx_port_of by done.
  assert (slot_at n' i = Some s) as Hsn.
  { unfold slot_at. destruct (Z.ltb_spec i 0); [lia|done]. }
  assert (live_list a' = live_list (arena n) ++ [i]) as Hl by (by rewrite Hll).
  assert (forall j, alive n j -> slot_at n' j = slot_at n j) as Hold.
  { intros j Hj. unfold slot_at. destruct (Z.ltb_spec j 0); [done|]. simpl.
    assert (i <> j) by (intros ->; done).
    rewrite Hsl, list_lookup_insert_ne by lia. apply Hoth. lia. }
  assert (net_inv n') as Hn'.
  { apply (fresh_inv n n' i s); try done. intros k. by destruct k. }
  split; [by split|]. split; [|done].
  exists s. simpl. rewrite idx_port_of by done.
  split; [unfold alive; simpl; rewrite Hl; apply elem_of_app; right; left|].
  split; [done|]. split; [done|]. split; [by intros []|done].
Qed.

(** ** The invariant after a rewrite *)

Lemma ends_sym ws p q : (p, q) ∈ ends ws -> (q, p) ∈ ends ws.
Proof.
  induction ws as [|w ws IH] using rev_ind; [by intros ?%not_elem_of_nil|].
  rewrite ends_snoc, !elem_of_app. intros [H|H]; [auto|]. right.
  apply elem_of_cons in H as [H|H%list_elem_of_singleton]; injection H as -> ->;
    [right; left|left].
Qed.

Lemma wire_ends ws w : w ∈ ws -> (w.1, w.2) ∈ ends ws.
Proof.
  induction ws as [|w' ws IH] using rev_ind; [by intros ?%not_elem_of_nil|].
  rewrite ends_snoc, !elem_of_app. intros [H|H]; [auto|apply list_elem_of_singleton in H as ->].
  right. left.
Qed.

Lemma ends_cons w ws : ends (w :: ws) = (w.1, w.2) :: (w.2, w.1) :: ends ws.
Proof. reflexivity. Qed.

Section EvolveInv.
Context (n0 n : Net) (dead : list Z) (ws : list (PortId * PortId)).
Context (Hn0 : net_inv n0) (Hev : evolve n0 dead ws n) (Hco : coherent ws).

Lemma evolve_alive i : alive n i <-> alive n0 i /\ i ∉ dead.
Proof.
  unfold alive. pose proof (aw_disjoint _ (ni_arena n0 Hn0)) as Hnd.
  apply NoDup_app in Hnd as [Hnd _]. rewrite (ev_live _ _ _ _ Hev) in Hnd |- *.
  apply NoDup_app in Hnd as (_ & Hd & _). rewrite elem_of_app.
  split; [|tauto]. intros Hi. split; [by right|]. intros Hx. by apply (Hd i).
Qed.

Lemma evolve_gen i s s0 : slot_at n i = Some s -> slot_at n0 i = Some s0 ->
  generation s = generation s0.
Proof.
  intros H H0. pose proof (ev_agents _ _ _ _ Hev i) as Ha. unfold agent_at in Ha.
  rewrite H, H0 in Ha. simpl in Ha. unfold agent in Ha. congruence.
Qed.

Lemma evolve_slot i s : slot_at n i = Some s -> exists s0, slot_at n0 i = Some s0.
Proof.
  intros H. pose proof (ev_agents _ _ _ _ Hev i) as Ha. unfold agent_at in Ha.
  rewrite H in Ha. destruct (slot_at n0 i); [by eexists|done].
Qed.

Lemma current_evolve p : current n0 p -> slot_idx p ∉ dead -> current n p.
Proof.
  intros (s0 & Hi & Hs0 & Hp) Hd.
  assert (alive n (slot_idx p)) as Ha by (by apply evolve_alive).
  destruct (alive_slot n _ (ev_arena _ _ _ _ Hev) Ha) as [s Hs].
  exists s. split; [done|]. split; [done|]. rewrite Hp at 1. unfold port_of.
  by rewrite (evolve_gen _ _ _ Hs Hs0).
Qed.

(** Every new wire ends on live agents, in place of wires to the dead;
    every wire of a dead agent is replaced. *)
Context (Hcur : forall p q, (p, q) ∈ ends ws -> real p = true ->
                  current n0 p /\ slot_idx p ∉ dead).
Context (Hold : forall p q r, (p, q) ∈ ends ws -> real p = true ->
                  port_at n0 (key p) = Some r -> real r = true -> slot_idx r ∈ dead).
Context (Hcov : forall d k r, d ∈ dead -> port_at n0 (d, k) = Some r -> real r = true ->
                  slot_idx r ∈ dead \/ exists q, (r, q) ∈ ends ws).

Lemma evolve_wired_end p q : (p, q) ∈ ends ws -> real p = true ->
  port_at n (key p) = Some q.
Proof.
  intros Hin Hr. rewrite (ev_ports _ _ _ _ Hev). apply upds_end; [done..|].
  destruct (Hcur p q Hin Hr) as [(s & _ & Hs & _) _]. unfold port_at. simpl.
  rewrite Hs. by eexists.
Qed.

Lemma evolve_wired : Forall (wired n) ws.
Proof.
  apply Forall_forall. intros w Hw. apply wire_ends in Hw as Hin.
  split; intros Hr; apply evolve_wired_end; auto using ends_sym.
Qed.

Lemma evolve_inv : net_inv n.
Proof.
  split; [apply Hev|]. intros i k s Hi Hs Hr.
  destruct (evolve_slot i s Hs) as [s0 Hs0].
  pose proof (evolve_gen _ _ _ Hs Hs0) as Hgen.
  apply evolve_alive in Hi as [Hi0 Hid].
  destruct (alive_idx n0 i (ni_arena _ Hn0) Hi0) as [Hir _].
  assert (port_of i k s = port_of i k s0) as -> by (unfold port_of; by rewrite Hgen).
  assert (port_at n (i, k) = Some (port_raw s k)) as Hq
    by (unfold port_at; simpl; by rewrite Hs).
  destruct (decide (Exists (fun pq => real pq.1 = true /\ key pq.1 = (i, k)) (ends ws)))
    as [He|He].
  - apply Exists_exists in He as ([p q] & Hin & Hrp & Hk). simpl in Hrp, Hk.
    pose proof (evolve_wired_end p q Hin Hrp) as Hpq. rewrite Hk, Hq in Hpq.
    injection Hpq as Hpq. rewrite Hpq in Hr |- *. apply ends_sym in Hin as Hin'.
    destruct (Hcur q p Hin' Hr) as [Hcq Hdq]. split; [by apply current_evolve|].
    rewrite (evolve_wired_end q p Hin' Hr). f_equal.
    destruct (Hcur p q Hin Hrp) as [Hcp _].
    apply (current_inj n0); [done|by apply current_port_of; [apply Hn0|..]|].
    by rewrite Hk, key_port_of.
  - rewrite (ev_ports _ _ _ _ Hev), upds_other in Hq.
    2:{ intros p q Hin Hrp Hk. apply He, Exists_exists. by exists (p, q). }
    destruct (sym_at n0 i k _ Hn0 Hi0 Hq Hr) as (Hc & s0' & Hs0' & Hb).
    rewrite Hs0 in Hs0'. injection Hs0' as <-.
    assert (real (port_of i k s0) = true) as Hrb
      by (apply real_port_of; [done|apply (alive_idx n0); [apply Hn0|done]]).
    assert (slot_idx (port_raw s k) ∉ dead) as Hqd.
    { intros Hd. destruct (Hcov _ _ _ Hd Hb Hrb) as [Hx|[q Hx]].
      - by rewrite idx_port_of in Hx.
      - apply He, Exists_exists. exists (port_of i k s0, q). simpl.
        by rewrite key_port_of. }
    split; [by apply current_evolve|].
    rewrite (ev_ports _ _ _ _ Hev), upds_other; [done|].
    intros p q Hin Hrp Hk. rewrite <- Hk in Hb.
    pose proof (Hold p q _ Hin Hrp Hb Hrb) as Hx. by rewrite idx_port_of in Hx.
Qed.

(** Places no new wire touches keep their port. *)
Lemma evolve_frame k : (forall p q, (p, q) ∈ ends ws -> real p = true -> key p <> k) ->
  port_at n k = port_at n0 k.
Proof. intros H. rewrite (ev_ports _ _ _ _ Hev). by apply upds_other. Qed.
End EvolveInv.

(** ** Replacing the wires of retired agents

    A rewrite retires the agents [dead] and connects what their ports led to.
    Each end of a new wire is either the far end of a port of a dead agent
    ([ext], by the dead agent's place) or a free port of a fresh agent
    ([own], by its place); both lists give the partner the end receives. *)

Lemma NoDup_fst_fun {A B} (l : list (A * B)) a b b' :
  NoDup l.*1 -> (a, b) ∈ l -> (a, b') ∈ l -> b = b'.
Proof.
  induction l as [|[x y] l IH]; simpl; [by intros _ ?%not_elem_of_nil|].
  intros [Hx Hnd]%NoDup_cons H1 H2.
  apply elem_of_cons in H1 as [H1|H1]; apply elem_of_cons in H2 as [H2|H2].
  - congruence.
  - injection H1 as -> ->. destruct Hx. by apply (list_elem_of_fmap_2 fst) in H2.
  - injection H2 as -> ->. destruct Hx. by apply (list_elem_of_fmap_2 fst) in H1.
  - by apply IH.
Qed.

Definition is_end (n0 : Net) (ext own : list ((Z * PortKind) * PortId)) (p q : PortId)
    : Prop :=
  (exists pl, (pl, q) ∈ ext /\ port_at n0 pl = Some p)
  \/ (exists i k s, ((i, k), q) ∈ own /\ slot_at n0 i = Some s /\ p = port_of i k s).

(** The rewrite replaces exactly the wires of the dead agents. *)
Record replaces (n0 : Net) (dead : list Z) (ext own : list ((Z * PortKind) * PortId))
    (ws : list (PortId * PortId)) : Prop := mk_replaces {
  rp_ends : forall p q, (p, q) ∈ ends ws -> real p = true -> is_end n0 ext own p q;
  rp_ext_once : NoDup ext.*1;
  rp_own_once : NoDup own.*1;
  rp_ext : forall d k q p, ((d, k), q) ∈ ext -> port_at n0 (d, k) = Some p ->
    real p = true -> d ∈ dead /\ slot_idx p ∉ dead;
  rp_own : forall i k q, ((i, k), q) ∈ own ->
    alive n0 i /\ i ∉ dead /\ port_at n0 (i, k) = Some NULL;
  rp_cover : forall d k r, d ∈ dead -> port_at n0 (d, k) = Some r -> real r = true ->
    slot_idx r ∈ dead \/ exists q, (r, q) ∈ ends ws
}.

Section Replaces.
Context (n0 n : Net) (dead : list Z) (ext own : list ((Z * PortKind) * PortId))
  (ws : list (PortId * PortId)).
Context (Hn0 : net_inv n0) (Hev : evolve n0 dead ws n).
Context (Hrp : replaces n0 dead ext own ws).

Lemma dead_alive d : d ∈ dead -> alive n0 d.
Proof.
  intros Hd. unfold alive. rewrite (ev_live _ _ _ _ Hev). apply elem_of_app. by left.
Qed.

(** The far end of a dead place: current, and leading back to it. *)
Lemma ext_back d k q p : ((d, k), q) ∈ ext -> port_at n0 (d, k) = Some p ->
  real p = true -> alive n0 d /\ current n0 p
    /\ exists r, port_at n0 (key p) = Some r /\ real r = true /\ slot_idx r = d.
Proof.
  intros Hin Hp Hr. destruct (rp_ext _ _ _ _ _ Hrp d k q p Hin Hp Hr) as [Hd _].
  apply dead_alive in Hd. split; [done|].
  destruct (sym_at n0 d k p Hn0 Hd Hp Hr) as (Hc & s & Hs & Hb). split; [done|].
  destruct (alive_idx n0 d (ni_arena _ Hn0) Hd) as [Hdr Hd0].
  exists (port_of d k s). by rewrite real_port_of, idx_port_of.
Qed.

Lemma own_key i k q s : ((i, k), q) ∈ own -> slot_at n0 i = Some s ->
  key (port_of i k s) = (i, k).
Proof.
  intros Hin Hs. destruct (rp_own _ _ _ _ _ Hrp i k q Hin) as (Hi & _ & _).
  apply key_port_of. by apply (alive_idx n0 i (ni_arena _ Hn0)).
Qed.

Lemma replaces_coherent : coherent ws.
Proof.
  intros p q p' q' H1 H2 Hr Hr' Hk.
  pose proof (rp_ends _ _ _ _ _ Hrp p q H1 Hr) as He.
  pose proof (rp_ends _ _ _ _ _ Hrp p' q' H2 Hr') as He'.
  destruct He as [([d kd] & Hin & Hp)|(i & k & s & Hin & Hs & ->)],
    He' as [([d' kd'] & Hin' & Hp')|(i' & k' & s' & Hin' & Hs' & ->)].
  - destruct (ext_back _ _ _ _ Hin Hp Hr) as (Hd & Hc & _).
    destruct (ext_back _ _ _ _ Hin' Hp' Hr') as (Hd' & Hc' & _).
    pose proof (sym_inj n0 d kd d' kd' p p' Hn0 Hd Hd' Hp Hp' Hr Hr' Hk) as Heq.
    injection Heq as -> ->. split; [by apply (current_inj n0)|].
    eapply NoDup_fst_fun; [apply (rp_ext_once _ _ _ _ _ Hrp)|done|done].
  - destruct (ext_back _ _ _ _ Hin Hp Hr) as (_ & _ & r & Hb & Hrr & _).
    rewrite Hk, (own_key _ _ _ _ Hin' Hs') in Hb.
    destruct (rp_own _ _ _ _ _ Hrp _ _ _ Hin') as (_ & _ & Hnull).
    rewrite Hnull in Hb. injection Hb as <-. discriminate Hrr.
  - destruct (ext_back _ _ _ _ Hin' Hp' Hr') as (_ & _ & r & Hb & Hrr & _).
    rewrite <- Hk, (own_key _ _ _ _ Hin Hs) in Hb.
    destruct (rp_own _ _ _ _ _ Hrp _ _ _ Hin) as (_ & _ & Hnull).
    rewrite Hnull in Hb. injection Hb as <-. discriminate Hrr.
  - rewrite (own_key _ _ _ _ Hin Hs), (own_key _ _ _ _ Hin' Hs') in Hk.
    injection Hk as -> ->. rewrite Hs in Hs'. injection Hs' as ->. split; [done|].
    eapply NoDup_fst_fun; [apply (rp_own_once _ _ _ _ _ Hrp)|done|done].
Qed.

Lemma replaces_current p q : (p, q) ∈ ends ws -> real p = true ->
  current n0 p /\ slot_idx p ∉ dead.
Proof.
  intros H Hr. destruct (rp_ends _ _ _ _ _ Hrp p q H Hr)
    as [([d kd] & Hin & Hp)|(i & k & s & Hin & Hs & ->)].
  - split; [by eapply ext_back|]. by eapply rp_ext.
  - destruct (rp_own _ _ _ _ _ Hrp _ _ _ Hin) as (Hi & Hd & _).
    split; [apply current_port_of; [apply Hn0|done..]|].
    rewrite idx_port_of; [done|]. by apply (alive_idx n0 i (ni_arena _ Hn0)).
Qed.

Lemma replaces_old p q r : (p, q) ∈ ends ws -> real p = true ->
  port_at n0 (key p) = Some r -> real r = true -> slot_idx r ∈ dead.
Proof.
  intros H Hr Hb Hrr. destruct (rp_ends _ _ _ _ _ Hrp p q H Hr)
    as [([d kd] & Hin & Hp)|(i & k & s & Hin & Hs & ->)].
  - destruct (ext_back _ _ _ _ Hin Hp Hr) as (_ & _ & r' & Hb' & _ & Hd).
    rewrite Hb in Hb'. injection Hb' as <-. rewrite Hd. by eapply rp_ext.
  - rewrite (own_key _ _ _ _ Hin Hs) in Hb.
    destruct (rp_own _ _ _ _ _ Hrp _ _ _ Hin) as (_ & _ & Hnull).
    rewrite Hnull in Hb. injection Hb as <-. discriminate Hrr.
Qed.

(** After the rewrite the invariant holds, all its wires are in place, the
    other ports are as they were and so is every agent's label. *)
Lemma replaces_inv : net_inv n /\ Forall (wired n) ws
  /\ (forall i, alive n i <-> alive n0 i /\ i ∉ dead)
  /\ (forall i, agent_at n i = agent_at n0 i)
  /\ (forall k, (forall p q, (p, q) ∈ ends ws -> real p = true -> key p <> k) ->
        port_at n k = port_at n0 k).
Proof.
  pose proof replaces_coherent as Hco.
  split; [by eapply evolve_inv; eauto using replaces_current, replaces_old, rp_cover|].
  split; [by eapply evolve_wired; eauto using replaces_current|].
  split; [intros i; by eapply evolve_alive|]. split; [apply Hev|].
  intros k. by eapply evolve_frame.
Qed.
End Replaces.

Lemma net_slot_at n p s : slot_at n (slot_idx p) = Some s -> net_slot n p = Ok s.
Proof.
  unfold slot_at, net_slot, slot, index. destruct (_ <? 0); [done|]. by intros ->.
Qed.

(** Two agents wired to each other through ports of kinds [m0] and [m1]. *)
Record redex (m0 m1 : PortKind) (n : Net) (p0 p1 : PortId) (s0 s1 : Slot)
    : Prop := mk_redex {
  rx_cur0 : current n p0;
  rx_cur1 : current n p1;
  rx_kind0 : port_kind p0 = m0;
  rx_kind1 : port_kind p1 = m1;
  rx_ne : slot_idx p0 <> slot_idx p1;
  rx_slot0 : slot_at n (slot_idx p0) = Some s0;
  rx_slot1 : slot_at n (slot_idx p1) = Some s1;
  rx_face0 : port_raw s0 m0 = p1;
  rx_face1 : port_raw s1 m1 = p0
}.

(** An active pair. *)
Notation active := (redex Principal Principal).

(** No port of [s] but the one of kind [m] leads to an agent of [dead]. *)
Definition external (m : PortKind) (dead : list Z) (s : Slot) : Prop :=
  forall k, k <> m -> slot_idx (port_raw s k) ∉ dead.

Lemma current_alive n p : current n p -> alive n (slot_idx p).
Proof. by intros (s & Hi & _). Qed.

Lemma port_raw_current n i s k : net_inv n -> alive n i -> slot_at n i = Some s ->
  port_in n (port_raw s k).
Proof.
  intros Hn Hi Hs Hr. destruct (ni_sym n Hn i k s Hi Hs Hr) as [Hc _].
  by apply current_in; [apply Hn|..].
Qed.

(** ** Checking the invariant of a concrete net *)

Definition arena_check (a : Arena) : bool :=
  forallb (fun ip => bool_decide (live_list a !! ip.2 = Some ip.1)) (map_to_list (live_pos a))
  && forallb (fun pi => bool_decide (live_pos a !! pi.2 = Some pi.1)) (imap pair (live_list a))
  && bool_decide (NoDup (live_list a ++ free a))
  && forallb (fun i => (0 <? i) && (i <? Z.of_nat (length (slots a)))) (live_list a ++ free a)
  && (1 <=? length (slots a))%nat && (Z.of_nat (length (slots a)) <=? Z.max 1 (cap a))
  && (cap a <=? MAX_SLOTS).

Definition current_check (n : Net) (p : PortId) : bool :=
  bool_decide (slot_idx p ∈ live_list (arena n))
  && match slot_at n (slot_idx p) with
     | Some s => p =? port_of (slot_idx p) (port_kind p) s
     | None => false
     end.

Definition port_check (n : Net) (i : Z) (s : Slot) (k : PortKind) : bool :=
  negb (real (port_raw s k))
  || current_check n (port_raw s k)
     && bool_decide (port_at n (key (port_raw s k)) = Some (port_of i k s)).

Definition net_check (n : Net) : bool :=
  arena_check (arena n)
  && forallb (fun i => match slot_at n i with
                       | Some s => forallb (port_check n i s) [Principal; Aux0; Aux1]
                       | None => true
                       end) (live_list (arena n)).

Lemma arena_check_sound a : arena_check a = true -> arena_wf a.
Proof.
  unfold arena_check. rewrite !andb_true_iff. intros ((((((H1 & H2) & H3) & H4) & H5) & H6) & H7).
  rewrite forallb_forall in H1, H2, H4. split.
  - intros i p. split; intros H.
    + specialize (H1 (i, p)). rewrite <- list_elem_of_In, elem_of_map_to_list in H1.
      by apply bool_decide_eq_true in H1.
    + specialize (H2 (p, i)). rewrite <- list_elem_of_In in H2.
      assert ((p, i) ∈ imap pair (live_list a)) as Hin
        by (apply elem_of_lookup_imap; by exists p, i).
      apply H2 in Hin. by apply bool_decide_eq_true in Hin.
  - by apply bool_decide_eq_true in H3.
  - apply Forall_forall. intros i Hi%list_elem_of_In. specialize (H4 i Hi). lia.
  - by apply Nat.leb_le.
  - by apply Z.leb_le.
  - by apply Z.leb_le.
Qed.

Lemma current_check_sound n p : current_check n p = true -> current n p.
Proof.
  unfold current_check. intros [Ha H]%andb_true_iff. apply bool_decide_eq_true in Ha.
  destruct (slot_at n (slot_idx p)) as [s|] eqn:Hs; [|done].
  exists s. split; [done|]. split; [done|]. by apply Z.eqb_eq.
Qed.

Lemma net_check_sound n : net_check n = true -> net_inv n.
Proof.
  unfold net_check. intros [Ha H]%andb_true_iff. split; [by apply arena_check_sound|].
  rewrite forallb_forall in H. intros i k s Hi%list_elem_of_In Hs Hr.
  specialize (H i Hi). rewrite Hs in H. rewrite forallb_forall in H.
  assert (In k [Principal; Aux0; Aux1]) as Hk by (destruct k; simpl; auto).
  specialize (H k Hk). unfold port_check in H. rewrite Hr in H. simpl in H.
  apply andb_true_iff in H as [Hc Hb]. apply current_check_sound in Hc.
  split; [done|]. by apply bool_decide_eq_true in Hb.
Qed.

Lemma redex_check m0 m1 n p0 p1 s0 s1 :
  current_check n p0 && current_check n p1
  && bool_decide (port_kind p0 = m0 /\ port_kind p1 = m1
       /\ slot_idx p0 <> slot_idx p1
       /\ slot_at n (slot_idx p0) = Some s0 /\ slot_at n (slot_idx p1) = Some s1
       /\ port_raw s0 m0 = p1 /\ port_raw s1 m1 = p0) = true ->
  redex m0 m1 n p0 p1 s0 s1.
Proof.
  rewrite !andb_true_iff. intros [[H0 H1] H]. apply bool_decide_eq_true in H.
  apply current_check_sound in H0, H1. by destruct H as (?&?&?&?&?&?&?).
Qed.

Definition external_check (m : PortKind) (dead : list Z) (s : Slot) : bool :=
  forallb (fun k => bool_decide (k = m) || bool_decide (slot_idx (port_raw s k) ∉ dead))
    [Principal; Aux0; Aux1].

Lemma external_check_sound m dead s : external_check m dead s = true -> external m dead s.
Proof.
  unfold external_check. rewrite forallb_forall. intros H k Hk.
  specialize (H k ltac:(destruct k; simpl; auto)).
  apply orb_true_iff in H as [H|H]; apply bool_decide_eq_true in H; done.
Qed.

(** ** Sequences of allocations *)

Definition idx_of (ps : AgentPorts) : Z := slot_idx (ag_principal ps).

(** [n] is [n0] with the agents [fs] allocated, in order, with these labels. *)
Record allocated (n0 : Net) (fs : list (AgentPorts * (Z * Z * Z * Z))) (n : Net)
    : Prop := mk_allocated {
  al_grows : grows n0 n ((fun f => idx_of f.1) <$> fs);
  al_fresh : forall ps t d d0 d1, (ps, (t, d, d0, d1)) ∈ fs -> fresh_agent n ps t d d0 d1;
  al_once : NoDup ((fun f => idx_of f.1) <$> fs);
  al_new : forall f, f ∈ fs -> ~ alive n0 (idx_of f.1)
}.

Lemma allocated_nil n : net_inv n -> allocated n [] n.
Proof.
  intros Hn. split; [by apply grows_refl|..].
  - by intros ????? ?%not_elem_of_nil.
  - apply NoDup_nil_2.
  - by intros ? ?%not_elem_of_nil.
Qed.

Lemma alloc_step n0 fs n t d d0 d1 : allocated n0 fs n ->
  returns (fun e => e = ArenaCapacityExceeded) (alloc_agent n t d d0 d1)
    (fun '(ps, n') => allocated n0 (fs ++ [(ps, (t, d, d0, d1))]) n').
Proof.
  intros [Hg Hf Ho Hw]. pose proof (alloc_agent_ok n t d d0 d1 (gr_inv _ _ _ Hg)) as Ha.
  destruct (alloc_agent n t d d0 d1) as [[ps n']|e| |]; [simpl in *|exact Ha..].
  destruct Ha as (Hg' & Hf' & Hnew). split.
  - rewrite fmap_app. exact (grows_trans _ _ _ _ _ Hg Hg').
  - intros ps' t' d' d0' d1' [H|H%list_elem_of_singleton]%elem_of_app.
    + by eapply fresh_grows; eauto.
    + by injection H as -> -> -> -> ->.
  - rewrite fmap_app. apply NoDup_app. split; [done|]. split; [|apply NoDup_singleton].
    intros i Hi ->%list_elem_of_singleton. apply Hnew. unfold alive.
    rewrite (gr_live _ _ _ Hg). apply elem_of_app. by right.
  - intros f [H|H%list_elem_of_singleton]%elem_of_app; [by apply Hw|subst f; simpl].
    intros Hi. apply Hnew. by eapply alive_grows.
Qed.

Definition port_for (ps : AgentPorts) (k : PortKind) : PortId :=
  match k with Principal => ag_principal ps | Aux0 => ag_aux0 ps | Aux1 => ag_aux1 ps end.

Section Allocated.
Context (n0 n : Net) (fs : list (AgentPorts * (Z * Z * Z * Z))) (Hal : allocated n0 fs n).

Lemma allocated_port f k : f ∈ fs -> exists s, alive n (idx_of f.1)
  /\ slot_at n (idx_of f.1) = Some s /\ port_for f.1 k = port_of (idx_of f.1) k s
  /\ port_raw s k = NULL.
Proof.
  destruct f as [ps [[[t d] d0] d1]]. intros Hin.
  destruct (al_fresh _ _ _ Hal ps t d d0 d1 Hin) as (s & Ha & Hs & _ & Hz & H0 & H1 & H2).
  exists s. split; [done|]. split; [done|]. split; [by destruct k|done].
Qed.

Lemma allocated_in f k : f ∈ fs -> port_in n (port_for f.1 k).
Proof.
  intros Hin. destruct (allocated_port f k Hin) as (s & Ha & Hs & -> & _).
  pose proof (gr_inv _ _ _ (al_grows _ _ _ Hal)) as Hn.
  apply current_in; [apply Hn|]. by apply current_port_of; [apply Hn|..].
Qed.

Lemma allocated_ne i f : alive n0 i -> f ∈ fs -> idx_of f.1 <> i.
Proof. intros Hi Hf <-. by apply (al_new _ _ _ Hal f Hf). Qed.

Lemma redex_allocated m0 m1 p0 p1 s0 s1 :
  redex m0 m1 n0 p0 p1 s0 s1 -> redex m0 m1 n p0 p1 s0 s1.
Proof.
  pose proof (al_grows _ _ _ Hal) as Hg. intros [H0 H1 ? ? ? Hs0 Hs1 ? ?].
  split; try done; [by eapply current_grows; eauto..| |];
    rewrite (gr_old _ _ _ Hg); eauto using current_alive.
Qed.
End Allocated.

(** ** Summary of a rewrite

    [n'] is [n] with the agents [dead] gone, the agents [fs] added with their
    labels and the wires [ws] in place; the invariant holds, and the surviving
    agents keep their labels and every port that [ws] does not mention. *)
Record rewritten (n : Net) (dead : list Z) (fs : list (AgentPorts * (Z * Z * Z * Z)))
    (ws : list (PortId * PortId)) (n' : Net) : Prop := mk_rewritten {
  rw_inv : net_inv n';
  rw_wires : Forall (wired n') ws;
  rw_alive : forall i, alive n' i <->
    (alive n i \/ i ∈ (fun f => idx_of f.1) <$> fs) /\ i ∉ dead;
  rw_labels : forall ps t d d0 d1, (ps, (t, d, d0, d1)) ∈ fs ->
    exists g, agent_at n' (idx_of ps) = Some (Z.land t 15, g, d, d0, d1);
  rw_agents : forall i, alive n i -> agent_at n' i = agent_at n i;
  rw_frame : forall k, alive n k.1 ->
    (forall p q, (p, q) ∈ ends ws -> real p = true -> key p <> k) ->
    port_at n' k = port_at n k;
  rw_count : (agent_count n' + length dead = agent_count n + length fs)%nat
}.

Lemma rewritten_intro n n1 n' dead fs ext own ws :
  allocated n fs n1 -> evolve n1 dead ws n' -> replaces n1 dead ext own ws ->
  rewritten n dead fs ws n'.
Proof.
  intros Hal Hev Hrp. pose proof (al_grows _ _ _ Hal) as Hg.
  destruct (replaces_inv n1 n' dead ext own ws (gr_inv _ _ _ Hg) Hev Hrp)
    as (Hi & Hw & Hlv & Hag & Hfr).
  split; try done.
  - intros i. rewrite Hlv. unfold alive. by rewrite (gr_live _ _ _ Hg), elem_of_app.
  - intros ps t d d0 d1 Hin.
    destruct (al_fresh _ _ _ Hal _ _ _ _ _ Hin) as (s & _ & Hs & Ha & _).
    exists (generation s). rewrite Hag. unfold agent_at, idx_of. by rewrite Hs, <- Ha.
  - intros i Hi'. rewrite Hag. unfold agent_at. by rewrite (gr_old _ _ _ Hg).
  - intros k Hk H. rewrite Hfr by done. by apply (port_at_grows n n1 _ k Hg).
  - pose proof (ev_live _ _ _ _ Hev) as Hp. apply Permutation_length in Hp.
    rewrite (gr_live _ _ _ Hg), !length_app, length_fmap in Hp. unfold agent_count. lia.
Qed.

(** Listing a wire twice, or leaving out a virtual one, makes no difference. *)
Lemma rewritten_ends n dead fs ws ws' n' :
  (forall w, w ∈ ws' -> w ∈ ws) ->
  (forall p q, (p, q) ∈ ends ws -> real p = true -> (p, q) ∈ ends ws') ->
  rewritten n dead fs ws n' -> rewritten n dead fs ws' n'.
Proof.
  intros Hsub He [Hi Hw Ha Hl Hg Hf Hc]. split; try done.
  - rewrite Forall_forall in Hw |- *. auto.
  - intros k Hk H. apply Hf; [done|]. intros p q Hin Hr. by eapply H; eauto.
Qed.

(** ** Relabelling an agent in place *)
Section Relabel.
Context (n : Net) (i : Z) (s s' : Slot).
Context (Hn : net_inv n) (Hs : slot_at n i = Some s).
Context (Hports : forall k, port_raw s' k = port_raw s k).
Context (Hgen : generation s' = generation s).

Lemma port_at_relabel k : port_at (put n i s') k = port_at n k.
Proof.
  unfold port_at. rewrite (slot_at_put n i s' s _ Hs). case_bool_decide as Hi; [|done].
  rewrite Hi, Hs. simpl. by rewrite Hports.
Qed.

(** Every slot keeps its ports and generation. *)
Lemma slot_at_relabel j t : slot_at (put n i s') j = Some t ->
  exists t0, slot_at n j = Some t0 /\ generation t = generation t0
    /\ forall k, port_raw t k = port_raw t0 k.
Proof.
  rewrite (slot_at_put n i s' s _ Hs). case_bool_decide as Hi.
  - intros [= <-]. subst j. eauto.
  - eauto.
Qed.

Lemma current_relabel p : current n p -> current (put n i s') p.
Proof.
  intros (t & Ha & Ht & Hp). unfold current. rewrite (slot_at_put n i s' s _ Hs).
  case_bool_decide as Hi; [|by exists t].
  exists s'. split; [done|]. split; [done|]. rewrite Hi, Hs in Ht. injection Ht as <-.
  unfold port_of in *. by rewrite Hgen.
Qed.

Lemma relabel_inv : net_inv (put n i s').
Proof.
  split; [apply put_wf, Hn|]. intros j k t Ha Ht Hr.
  destruct (slot_at_relabel j t Ht) as (t0 & Ht0 & Hg & Hp).
  rewrite Hp in Hr |- *. destruct (ni_sym n Hn j k t0 Ha Ht0 Hr) as [Hc Hb].
  split; [by apply current_relabel|]. rewrite port_at_relabel, Hb. unfold port_of.
  by rewrite Hg.
Qed.
End Relabel.
