(* ===== verification/Examples.v ===== *)
(** * Concrete nets

    Small well-wired nets on which the theorems about the rules are
    instantiated: two agents wired to each other through given ports, the
    other four ports each wired to a free variable. *)
From S2P Require Import Prelude Bytes Error LOPath Port Arena Net Wiring.

Definition or_else {A : Type} (m : res DnxError A) (d : A) : A :=
  match m with Ok a => a | _ => d end.

(** Tag, level and deltas of an agent. *)
Definition label : Type := Z * Z * Z * Z.

Definition alloc_label (n : Net) (l : label) : res DnxError (AgentPorts * Net) :=
  let '(t, d, d0, d1) := l in alloc_agent n t d d0 d1.

(** Agents 1 and 2 meet at their ports of kinds [m0] and [m1]; agents 3 to 6
    are free variables on the remaining ports. *)
Definition build_pair (m0 k0 k1 m1 : PortKind) (l0 l1 : label) : res DnxError Net :=
  '(a, n) ← alloc_label (net_new DeltaK 32) l0;
  '(b, n) ← alloc_label n l1;
  '(e0, n) ← alloc_free n 0;
  '(e1, n) ← alloc_free n 1;
  '(e2, n) ← alloc_free n 2;
  '(e3, n) ← alloc_free n 3;
  n ← connect n (port_for a k0) e0 root;
  n ← connect n (port_for a k1) e1 root;
  n ← connect n (ag_aux0 b) e2 root;
  n ← connect n (ag_aux1 b) e3 root;
  connect n (port_for a m0) (port_for b m1) root.

Definition pair_net (m0 k0 k1 m1 : PortKind) (l0 l1 : label) : Net :=
  or_else (build_pair m0 k0 k1 m1 l0 l1) (net_new DeltaK 0).

Definition active_net : label -> label -> Net := pair_net Principal Aux0 Aux1 Principal.

(** The agent at index [i] and a port of its first incarnation. *)
Definition slot_of (n : Net) (i : Z) : Slot := default EMPTY (slot_at n i).
Definition P (i : Z) (k : PortKind) : PortId := port_new i k 0.

(** An eraser at the principal port of one agent. *)
Definition erased_net (l : label) : Net :=
  or_else ('(a, n) ← alloc_label (net_new DeltaK 32) l;
           '(e0, n) ← alloc_free n 0;
           '(e1, n) ← alloc_free n 1;
           n ← connect n (ag_aux0 a) e0 root;
           n ← connect n (ag_aux1 a) e1 root;
           connect n ERA (ag_principal a) root) (net_new DeltaK 0).

(** A replicator with its second output erased, its first output at the
    principal port of another replicator. *)
Definition merge_net (la lb : label) : Net :=
  or_else ('(a, n) ← alloc_label (net_new DeltaK 32) la;
           '(b, n) ← alloc_label n lb;
           '(e0, n) ← alloc_free n 0;
           '(e1, n) ← alloc_free n 1;
           '(e2, n) ← alloc_free n 2;
           n ← connect n (ag_principal a) e0 root;
           n ← connect n (ag_aux0 a) (ag_principal b) root;
           n ← connect n (ag_aux1 a) ERA root;
           n ← connect n (ag_aux0 b) e1 root;
           connect n (ag_aux1 b) e2 root) (net_new DeltaK 0).

(** Discharge a decidable side condition on a concrete net. *)
Ltac on_net :=
  lazymatch goal with
  | |- net_inv _ => apply net_check_sound; vm_compute; reflexivity
  | |- redex _ _ _ _ _ _ _ => apply redex_check; vm_compute; reflexivity
  | |- external _ _ _ => apply external_check_sound; vm_compute; reflexivity
  | |- current _ _ => apply current_check_sound; vm_compute; reflexivity
  | |- lopath_wf root => apply root_wf
  | |- _ => vm_compute; first [reflexivity | discriminate | split; congruence]
  end.

(** [E] equates a result of a concrete run with one it does not have. *)
Ltac discriminate_on E := exfalso; vm_compute in E; discriminate E.

(** The identity: an abstraction whose variable is its body, after [k] free
    variables. *)
Definition id_net (k : nat) : Net :=
  or_else (n ← foldM (fun n v => '(_, n) ← alloc_free n v; Ok n) (Z.of_nat <$> seq 0 k)
                 (net_new DeltaL 32);
           '(a, n) ← alloc_abs n;
           connect n (ag_aux0 a) (ag_aux1 a) root) (net_new DeltaL 0).
