(* ===== verification/Rules.v ===== *)
(** * Interaction and canonicalisation rules
    ([crates/dnx-core/src/reduce/rules.rs], [reduce/canon.rs])

    R2 to R7 rewrite one active pair; C2 to C4 simplify replicators and C1
    sweeps what the roots no longer reach.  Each rule is the sequence of
    allocations, retirements and [connect]s of the source, in its order.  The
    two-phase reducer ([reduce/mod.rs]) is at the end. *)
From S2P Require Import Prelude Bytes Error LOPath Port Arena Net.

(** ** R-rules *)

Definition r2_era_fan (n : Net) (fan_p : PortId) (lo : LOPath) : res DnxError Net :=
  fan ← net_slot n fan_p;
  let ext0 := aux0 fan in
  let ext1 := aux1 fan in
  n ← set_eraser_on_port n ext0;
  n ← set_eraser_on_port n ext1;
  n ← retire n (slot_idx fan_p);
  l ← extend_left lo;
  n ← connect n ERA ext0 l;
  r ← extend_right lo;
  connect n ERA ext1 r.

Definition r3_era_rep (n : Net) (rep_p : PortId) (lo : LOPath) : res DnxError Net :=
  rep ← net_slot n rep_p;
  let ext0 := aux0 rep in
  let ext1 := aux1 rep in
  n ← set_eraser_on_port n ext0;
  n ← set_eraser_on_port n ext1;
  n ← retire n (slot_idx rep_p);
  l ← extend_left lo;
  n ← connect n ERA ext0 l;
  r ← extend_right lo;
  connect n ERA ext1 r.

Definition r4_fan_fan (n : Net) (p0 p1 : PortId) (lo : LOPath) : res DnxError Net :=
  s0 ← net_slot n p0;
  let '(abs_p, app_p) := if fan_is_abs s0 then (p0, p1) else (p1, p0) in
  abs ← net_slot n abs_p;
  app ← net_slot n app_p;
  let body_peer := aux0 abs in
  let var_peer := aux1 abs in
  let res_peer := aux0 app in
  let arg_peer := aux1 app in
  n ← retire n (slot_idx abs_p);
  n ← retire n (slot_idx app_p);
  if (slot_idx body_peer =? slot_idx abs_p) && (slot_idx var_peer =? slot_idx abs_p)
  then link_no_pair n res_peer arg_peer
  else
    l ← extend_left lo;
    n ← connect n body_peer res_peer l;
    r ← extend_right lo;
    connect n var_peer arg_peer r.

Definition r5_fan_rep (n : Net) (fan_p rep_p : PortId) (lo : LOPath) : res DnxError Net :=
  fan ← net_slot n fan_p;
  rep ← net_slot n rep_p;
  let is_abs := fan_is_abs fan in
  let fan_tag := if is_abs then TAG_FAN_ABS else TAG_FAN_APP in
  let ext_a := aux0 fan in
  let ext_b := aux1 fan in
  let ext_c := aux0 rep in
  let ext_d := aux1 rep in
  '(f0, n) ← alloc_agent n fan_tag 0 0 0;
  '(f1, n) ← alloc_agent n fan_tag 0 0 0;
  l ← extend_left lo;
  lo_00 ← extend_left l;
  lo_01 ← extend_right l;
  if (slot_idx ext_a =? slot_idx fan_p) && (slot_idx ext_b =? slot_idx fan_p) then
    n ← retire n (slot_idx fan_p);
    n ← retire n (slot_idx rep_p);
    n ← connect n (ag_aux0 f0) (ag_aux1 f0) l;
    r ← extend_right lo;
    n ← connect n (ag_aux0 f1) (ag_aux1 f1) r;
    n ← connect n (ag_principal f0) ext_c lo_00;
    connect n (ag_principal f1) ext_d lo_01
  else
    let '(ra_tag, rb_tag) :=
      if is_abs then (TAG_REP_IN_UNKNOWN, TAG_REP_OUT_UNKNOWN)
      else (TAG_REP_OUT_UNKNOWN, TAG_REP_IN_UNKNOWN) in
    '(ra, n) ← alloc_agent n ra_tag (data rep) (delta0 rep) (delta1 rep);
    '(rb, n) ← alloc_agent n rb_tag (data rep) (delta0 rep) (delta1 rep);
    n ← retire n (slot_idx fan_p);
    n ← retire n (slot_idx rep_p);
    r ← extend_right lo;
    lo_10 ← extend_left r;
    lo_11 ← extend_right r;
    let '(ra_lo, rb_lo) := if is_abs then (lo_10, lo_11) else (lo_11, lo_10) in
    n ← connect n (ag_aux0 f0) (ag_aux0 ra) lo;
    n ← connect n (ag_aux1 f0) (ag_aux0 rb) lo;
    n ← connect n (ag_aux0 f1) (ag_aux1 ra) lo;
    n ← connect n (ag_aux1 f1) (ag_aux1 rb) lo;
    n ← connect n (ag_principal f0) ext_c lo_00;
    n ← connect n (ag_principal f1) ext_d lo_01;
    n ← connect n (ag_principal ra) ext_a ra_lo;
    connect n (ag_principal rb) ext_b rb_lo.

Definition r6_rep_rep (n : Net) (p0 p1 : PortId) (lo : LOPath) : res DnxError Net :=
  a ← net_slot n p0;
  b ← net_slot n p1;
  let a0 := aux0 a in
  let a1 := aux1 a in
  let b0 := aux0 b in
  let b1 := aux1 b in
  n ← retire n (slot_idx p0);
  n ← retire n (slot_idx p1);
  l ← extend_left lo;
  n ← connect n a0 b0 l;
  r ← extend_right lo;
  connect n a1 b1 r.

Definition add_level (level delta : Z) : res DnxError Z :=
  let v := level + delta in
  if (0 <=? v) && (v <? 16384) then Ok (as_u16 v) else Err DeltaOverflow.

(** [s0_key > s1_key] on the triples (level, delta0, delta1). *)
Definition key_gt (s0 s1 : Slot) : bool :=
  match data s0 ?= data s1 with
  | Gt => true
  | Lt => false
  | Eq =>
      match delta0 s0 ?= delta0 s1 with
      | Gt => true
      | Lt => false
      | Eq => delta1 s0 >? delta1 s1
      end
  end.

Definition r7_rep_rep (n : Net) (p0 p1 : PortId) (lo : LOPath) : res DnxError Net :=
  s0 ← net_slot n p0;
  s1 ← net_slot n p1;
  let '(hi_p, hi, lo_p, low) :=
    if key_gt s0 s1 then (p0, s0, p1, s1) else (p1, s1, p0, s0) in
  let hi_tag := Z.land (tag hi) 15 in
  let lo_tag := Z.land (tag low) 15 in
  lv0 ← add_level (data hi) (delta0 low);
  '(hc0, n) ← alloc_agent n hi_tag lv0 (delta0 hi) (delta1 hi);
  lv1 ← add_level (data hi) (delta1 low);
  '(hc1, n) ← alloc_agent n hi_tag lv1 (delta0 hi) (delta1 hi);
  '(lc0, n) ← alloc_agent n lo_tag (data low) (delta0 low) (delta1 low);
  '(lc1, n) ← alloc_agent n lo_tag (data low) (delta0 low) (delta1 low);
  let hi_a0 := aux0 hi in
  let hi_a1 := aux1 hi in
  let lo_a0 := aux0 low in
  let lo_a1 := aux1 low in
  n ← retire n (slot_idx hi_p);
  n ← retire n (slot_idx lo_p);
  n ← connect n (ag_aux0 hc0) (ag_aux0 lc0) lo;
  n ← connect n (ag_aux1 hc0) (ag_aux0 lc1) lo;
  n ← connect n (ag_aux0 hc1) (ag_aux1 lc0) lo;
  n ← connect n (ag_aux1 hc1) (ag_aux1 lc1) lo;
  l ← extend_left lo;
  lo_00 ← extend_left l;
  n ← connect n (ag_principal hc0) lo_a0 lo_00;
  lo_01 ← extend_right l;
  n ← connect n (ag_principal hc1) lo_a1 lo_01;
  r ← extend_right lo;
  lo_10 ← extend_left r;
  n ← connect n (ag_principal lc0) hi_a0 lo_10;
  lo_11 ← extend_right r;
  connect n (ag_principal lc1) hi_a1 lo_11.

(** ** C-rules *)

Record C2Merge : Type := mk_c2 { rep_b : PortId; c2_ext : PortId; b_shifted : Slot }.

(** The body of the loop of [c2_gate_and_shift] for one auxiliary port:
    [None] stands for [continue]. *)
Definition c2_side (a : Slot) (fetch : PortId -> res DnxError Slot) (i : nat)
    : res DnxError (option C2Merge) :=
  let other_erased := match i with O => rep_aux1_erased a | _ => rep_aux0_erased a end in
  if negb other_erased then Ok None
  else
    let rb := match i with O => aux0 a | _ => aux1 a end in
    if is_eraser rb || is_null rb || negb (bool_decide (port_kind rb = Principal))
    then Ok None
    else
      b ← fetch rb;
      if negb (is_rep b) then Ok None
      else
        let delta_i := match i with O => delta0 a | _ => delta1 a end in
        let diff := data b - data a in
        if (diff <? 0) || (delta_i <? diff) then Ok None
        else
          let shift := as_i16 diff in
          d0 ← ok_or (checked_add_i16 (delta0 b) shift) DeltaOverflow;
          d1 ← ok_or (checked_add_i16 (delta1 b) shift) DeltaOverflow;
          Ok (Some (mk_c2 rb (principal a) (set_label (data a) d0 d1 b))).

Definition c2_gate_and_shift (a : Slot) (fetch : PortId -> res DnxError Slot)
    : res DnxError (option C2Merge) :=
  if negb (rep_is_unpaired a) then Ok None
  else
    m ← c2_side a fetch 0;
    match m with
    | Some m => Ok (Some m)
    | None => c2_side a fetch 1
    end.

Definition c2_rep_merge (n : Net) (rep_a : PortId) (lo : LOPath) : res DnxError Net :=
  a ← net_slot n rep_a;
  m ← c2_gate_and_shift a (net_slot n);
  match m with
  | Some m =>
      n ← net_slot_set n (rep_b m) (b_shifted m);
      n ← retire n (slot_idx rep_a);
      connect n (rep_b m) (c2_ext m) lo
  | None => Ok n
  end.

Definition c3_rep_decay (n : Net) (rep_p : PortId) (lo : LOPath) : res DnxError Net :=
  rep ← net_slot n rep_p;
  let ext := principal rep in
  match rep_aux0_erased rep, rep_aux1_erased rep with
  | true, true =>
      if rep_is_unpaired rep then
        n ← set_eraser_on_port n ext;
        n ← retire n (slot_idx rep_p);
        connect n ERA ext lo
      else Ok n
  | true, false =>
      if delta1 rep =? 0 then
        let a1p := aux1 rep in
        n ← retire n (slot_idx rep_p);
        connect n ext a1p lo
      else Ok n
  | false, true =>
      if delta0 rep =? 0 then
        let a0p := aux0 rep in
        n ← retire n (slot_idx rep_p);
        connect n ext a0p lo
      else Ok n
  | false, false => Ok n
  end.

Definition c4_aux_fan_replication (n : Net) (cand : C4Candidate) : res DnxError Net :=
  let app_aux0 := app_aux0 cand in
  let rep_p := rep_principal cand in
  let lo := cand_lo cand in
  app ← net_slot n app_aux0;
  rep ← net_slot n rep_p;
  if is_eraser (aux0 app) then
    let up := principal app in
    let arg := aux1 app in
    n ← set_eraser_on_port n up;
    n ← set_eraser_on_port n arg;
    n ← retire n (slot_idx app_aux0);
    n ← retire n (slot_idx rep_p);
    l ← extend_left lo;
    n ← connect n ERA up l;
    r ← extend_right lo;
    connect n ERA arg r
  else
    let ext_up := principal app in
    let ext_arg := aux1 app in
    let ext_c := aux0 rep in
    let ext_d := aux1 rep in
    '(new_rep, n) ← alloc_agent n TAG_REP_IN_UNKNOWN (data rep) (delta0 rep) (delta1 rep);
    '(new_arg, n) ← alloc_agent n TAG_REP_IN_UNKNOWN (data rep) (delta0 rep) (delta1 rep);
    '(app0, n) ← alloc_agent n TAG_FAN_APP 0 0 0;
    '(app1, n) ← alloc_agent n TAG_FAN_APP 0 0 0;
    n ← retire n (slot_idx app_aux0);
    n ← retire n (slot_idx rep_p);
    n ← connect n (ag_aux0 new_rep) (ag_principal app0) lo;
    n ← connect n (ag_aux1 new_rep) (ag_principal app1) lo;
    n ← connect n (ag_aux1 app0) (ag_aux0 new_arg) lo;
    n ← connect n (ag_aux1 app1) (ag_aux1 new_arg) lo;
    l ← extend_left lo;
    lo_00 ← extend_left l;
    n ← connect n (ag_aux0 app0) ext_c lo_00;
    lo_01 ← extend_right l;
    n ← connect n (ag_aux0 app1) ext_d lo_01;
    r ← extend_right lo;
    lo_10 ← extend_left r;
    n ← connect n (ag_principal new_rep) ext_up lo_10;
    lo_11 ← extend_right r;
    connect n (ag_principal new_arg) ext_arg lo_11.

(** ** C1: mark from the roots, sweep the rest *)

Definition mark (a : Arena) (idx : Z) : res DnxError Arena :=
  s ← slot a idx;
  slot_set a idx (set_tag (Z.lor (tag s) TAG_C1_MARK) s).

(** [if idx != 0 && !marked(idx) { mark; queue.push_back(idx) }]. *)
Definition visit (st : Arena * list Z) (idx : Z) : res DnxError (Arena * list Z) :=
  let '(a, queue) := st in
  if idx =? 0 then Ok st
  else
    s ← slot a idx;
    if is_c1_marked s then Ok st
    else a' ← mark a idx; Ok (a', queue ++ [idx]).

Fixpoint mark_loop (fuel : nat) (a : Arena) (queue : list Z) : res DnxError Arena :=
  match queue with
  | [] => Ok a
  | idx :: queue' =>
      match fuel with
      | O => Fuel
      | S fuel' =>
          s ← slot a idx;
          '(a', q) ← foldM visit [slot_idx (principal s); slot_idx (aux0 s);
                                   slot_idx (aux1 s)] (a, queue');
          mark_loop fuel' a' q
      end
  end.

Definition sweep_one (a : Arena) (idx : Z) : res DnxError Arena :=
  s ← slot a idx;
  if is_c1_marked s
  then slot_set a idx (set_tag (Z.land (tag s) (as_u8 (Z.lnot TAG_C1_MARK))) s)
  else retire_slot a idx.

(** The queue holds each index at most once, so one unit of fuel per slot is
    enough ([mark_loop_ok] of [Sweep]). *)
Definition c1_mark_sweep (n : Net) : res DnxError Net :=
  let roots := slot_idx <$> (map_to_list (free_slots n)).*2 in
  '(a, queue) ← foldM visit roots (arena n, []);
  a ← mark_loop (length (slots a)) a queue;
  a ← foldM sweep_one (live_list a) a;
  Ok (clear_pending_c1 (set_arena a n)).

(** * The two-phase reducer ([crates/dnx-core/src/reduce/mod.rs], [reduce/whnf.rs])

    [normalize] drains the active pairs in left-outermost order, dispatching
    each to its rule, then drains the replicator candidates, sweeps erased
    parts and certifies the result.  The class-specific rules are the
    interface [CRules] (the source's trait) with one instance per class.  The
    steps of primitive pairs ([step_with_prims]) are in [Whnf]. *)

Record ReduceStats : Type := mk_stats { interactions : Z; r4_count : Z }.
Definition stats_default : ReduceStats := mk_stats 0 0.

(** ** The trait [CRules] *)

Class CRules : Type := {
  HAS_REP : bool;
  HAS_ERA : bool;
  c2 : Net -> PortId -> LOPath -> res DnxError Net;
  c3 : Net -> PortId -> LOPath -> res DnxError Net;
  c4 : Net -> C4Candidate -> res DnxError Net;
  c1 : Net -> res DnxError Net
}.

Definition crules_L : CRules := {|
  HAS_REP := false;
  HAS_ERA := false;
  c2 n _ _ := Ok n;
  c3 n _ _ := Ok n;
  c4 n _ := Ok n;
  c1 n := Ok n
|}.

Definition crules_A : CRules := {|
  HAS_REP := false;
  HAS_ERA := true;
  c2 n _ _ := Ok n;
  c3 n _ _ := Ok n;
  c4 n _ := Ok n;
  c1 := c1_mark_sweep
|}.

Definition crules_I : CRules := {|
  HAS_REP := true;
  HAS_ERA := false;
  c2 := c2_rep_merge;
  c3 n _ _ := Ok n;
  c4 := c4_aux_fan_replication;
  c1 n := Ok n
|}.

Definition crules_K : CRules := {|
  HAS_REP := true;
  HAS_ERA := true;
  c2 := c2_rep_merge;
  c3 := c3_rep_decay;
  c4 := c4_aux_fan_replication;
  c1 := c1_mark_sweep
|}.

(** ** Staleness *)

Definition port_live (p : PortId) (n : Net) : res DnxError bool :=
  if is_eraser p then Ok true
  else
    let idx := slot_idx p in
    and_then (Ok (is_live (arena n) idx))
      (s ← slot (arena n) idx; Ok (gen_low p =? Z.land (generation s) 1)).

(** [!port_live(a) || !port_live(b)]. *)
Definition stale_ports (a b : PortId) (n : Net) : res DnxError bool :=
  la ← port_live a n;
  if negb la then Ok true else lb ← port_live b n; Ok (negb lb).

Definition is_stale_pair (pair : ActivePair) (n : Net) : res DnxError bool :=
  stale_ports (p0 pair) (p1 pair) n.

Definition is_stale_c4 (cand : C4Candidate) (n : Net) : res DnxError bool :=
  stale_ports (rep_principal cand) (app_aux0 cand) n.

Section Driver.
Context {C : CRules}.

(** [if cond { f(net)?; if !live(net) { return Ok(()) } }; k(net)]. *)
Definition guarded (cond : bool) (f : Net -> res DnxError Net)
    (live : Net -> res DnxError bool) (n : Net)
    (k : Net -> res DnxError Net) : res DnxError Net :=
  if cond then
    n ← f n;
    ok ← live n;
    if (ok : bool) then k n else Ok n
  else k n.

(** R5 with its C3 and C2 preludes; [fan] and [rep] are the two ends. *)
Definition dispatch_fan_rep (n : Net) (fan rep : PortId) (lo : LOPath)
    : res DnxError Net :=
  guarded HAS_ERA (fun n => c3 n rep lo) (port_live rep) n (fun n =>
  guarded HAS_REP (fun n => c2 n rep lo) (port_live rep) n (fun n =>
  r5_fan_rep n fan rep lo)).

Definition both_live (a b : PortId) (n : Net) : res DnxError bool :=
  and_then (port_live a n) (port_live b n).

(** R6 or R7 with their preludes. *)
Definition dispatch_rep_rep (n : Net) (p0 p1 : PortId) (lo : LOPath)
    : res DnxError Net :=
  guarded HAS_ERA (fun n => n ← c3 n p0 lo; c3 n p1 lo) (both_live p0 p1) n (fun n =>
  guarded HAS_REP (fun n => n ← c2 n p0 lo; c2 n p1 lo) (both_live p0 p1) n (fun n =>
  ss0 ← net_slot n p0;
  ss1 ← net_slot n p1;
  if (data ss0 =? data ss1) && (delta0 ss0 =? delta0 ss1)
     && (delta1 ss0 =? delta1 ss1)
  then r6_rep_rep n p0 p1 lo
  else r7_rep_rep n p0 p1 lo)).

Definition bump_r4 (st : ReduceStats) : ReduceStats :=
  mk_stats (interactions st) (r4_count st + 1).

Definition dispatch_phase1 (n : Net) (pair : ActivePair) (st : ReduceStats)
    : res DnxError (Net * ReduceStats) :=
  let p0 := p0 pair in
  let p1 := p1 pair in
  let lo := pair_lo pair in
  match is_eraser p0, is_eraser p1 with
  | true, true => Ok (n, st)
  | false, false =>
      s0 ← net_slot n p0;
      s1 ← net_slot n p1;
      match is_fan s0, is_rep s0, is_fan s1, is_rep s1 with
      | true, _, true, _ =>
          n ← r4_fan_fan n p0 p1 lo;
          Ok (n, bump_r4 st)
      | true, _, _, true =>
          n ← dispatch_fan_rep n p0 p1 lo;
          Ok (n, st)
      | _, true, true, _ =>
          n ← dispatch_fan_rep n p1 p0 lo;
          Ok (n, st)
      | _, true, _, true =>
          n ← dispatch_rep_rep n p0 p1 lo;
          Ok (n, st)
      | _, _, _, _ => Err ReadbackIncomplete
      end
  | e0, _ =>
      let live_p := if e0 then p1 else p0 in
      s ← net_slot n live_p;
      if is_fan s then
        n ← r2_era_fan n live_p lo;
        Ok (n, st)
      else
        n ← guarded HAS_ERA (fun n => c3 n live_p lo) (port_live live_p) n
              (fun n => r3_era_rep n live_p lo);
        Ok (n, st)
  end.

(** The [while let Some(..) = frontier1.pop_first()] loop of [normalize]. *)
Fixpoint drain_phase1 (fuel : nat) (n : Net) (st : ReduceStats)
    : res DnxError (Net * ReduceStats) :=
  match fuel with
  | O => Fuel
  | S fuel' =>
      match bt_pop_first (frontier1 n) with
      | None => Ok (n, st)
      | Some ((_, ap), f1) =>
          let n := set_frontier1 f1 n in
          stale ← is_stale_pair ap n;
          if (stale : bool) then drain_phase1 fuel' n st
          else
            let st := mk_stats (interactions st + 1) (r4_count st) in
            '(n, st) ← dispatch_phase1 n ap st;
            drain_phase1 fuel' n st
      end
  end.

Definition drain_phase2 (n : Net) : res DnxError (Net * bool) :=
  if negb HAS_REP then Ok (n, false)
  else
    match bt_pop_first (frontier2 n) with
    | None => Ok (n, false)
    | Some ((_, cand), f2) =>
        let n := set_frontier2 f2 n in
        let alive n := stale ← is_stale_c4 cand n; Ok (negb stale) in
        ok ← alive n;
        if negb ok then Ok (n, true)
        else
          n ← guarded HAS_ERA (fun n => c3 n (rep_principal cand) (cand_lo cand)) alive n
                (fun n => n ← c2 n (rep_principal cand) (cand_lo cand);
                          ok ← alive n;
                          if (ok : bool) then c4 n cand else Ok n);
          Ok (n, true)
    end.

(** [while drain_phase2(&mut net)? {}]. *)
Fixpoint drain_phase2_all (fuel : nat) (n : Net) : res DnxError Net :=
  match fuel with
  | O => Fuel
  | S fuel' =>
      '(n, more) ← drain_phase2 n;
      if (more : bool) then drain_phase2_all fuel' n else Ok n
  end.

Definition finalize_canonical (fuel : nat) (n : Net) : res DnxError CanonicalNet :=
  n ← drain_phase2_all fuel n;
  n ← (if net_pending_c1 n then c1 n else Ok n);
  _ ← certify_canonical n;
  Ok (into_canonical n).

Definition normalize (fuel : nat) (n : Net)
    : res DnxError (CanonicalNet * ReduceStats) :=
  '(n, st) ← drain_phase1 fuel n stats_default;
  n ← drain_phase2_all fuel n;
  n ← (if net_pending_c1 n then c1 n else Ok n);
  _ ← certify_canonical n;
  Ok (into_canonical n, st).
End Driver.
