(* ===== verification/RuleSpecs.v ===== *)
(** * What the interaction rules do

    Each rule is proved against the drawing of the rule: on a well-wired net
    and a redex of the right kind, the rule succeeds, retires exactly the
    agents it consumes, adds exactly the copies it should with the right
    labels, puts exactly the wires of the drawing in place, and leaves the
    rest of the net alone; the wiring is again an involution. *)
From S2P Require Import Prelude Bytes Error LOPath Port Arena Net Wiring Examples Rules.

(** ** Paths with room *)

Lemma extend_bit_depth p b : lopath_wf p -> depth p < 512 ->
  exists q, extend_bit p (bit_of b) = Ok q /\ lopath_wf q /\ depth q = depth p + 1.
Proof.
  intros Hw Hd. destruct (extend_bit_room p b Hw Hd) as (q & Hq & Hwq & Hb).
  exists q. split; [done|]. split; [done|].
  rewrite <- (bits_length q Hwq), <- (bits_length p Hw), Hb, length_app. simpl. lia.
Qed.

Lemma extend_left_room p : lopath_wf p -> depth p < 512 ->
  exists q, extend_left p = Ok q /\ lopath_wf q /\ depth q = depth p + 1.
Proof. apply (extend_bit_depth p false). Qed.

Lemma extend_right_room p : lopath_wf p -> depth p < 512 ->
  exists q, extend_right p = Ok q /\ lopath_wf q /\ depth q = depth p + 1.
Proof. apply (extend_bit_depth p true). Qed.

(** ** Stepping through a rule *)

Ltac rule_slot :=
  match goal with
  | H : slot_at ?n (slot_idx ?p) = Some ?s |- context [net_slot ?n ?p] =>
      rewrite (net_slot_at n p s H); simpl
  end.

(** The next extension of a path, at the head of the computation. *)
Ltac rule_extend_at f p lem :=
  match goal with
  | Hw : lopath_wf p |- _ =>
      let q := fresh "lo" in let E := fresh "E" in
      destruct (lem p Hw ltac:(lia)) as (q & E & ? & ?); rewrite ?E; simpl
  end.

Ltac rule_extend :=
  lazymatch goal with
  | |- returns _ (mbind _ (extend_left ?p)) _ => rule_extend_at extend_left p extend_left_room
  | |- returns _ (mbind _ (extend_right ?p)) _ => rule_extend_at extend_right p extend_right_room
  | |- exists n', mbind _ (extend_left ?p) = Ok n' /\ _ =>
      rule_extend_at extend_left p extend_left_room
  | |- exists n', mbind _ (extend_right ?p) = Ok n' /\ _ =>
      rule_extend_at extend_right p extend_right_room
  end.

Ltac rule_retire :=
  match goal with
  | He : evolve ?n0 ?d ?ws ?n |- context [retire ?n ?i] =>
      let n' := fresh "n" in let He' := fresh "He" in
      destruct (evolve_retire n0 d ws n i He) as (n' & -> & He'); simpl; [|clear He]
  end.

Ltac rule_connect :=
  match goal with
  | He : evolve ?n0 ?d ?ws ?n |- context [connect ?n ?a ?b ?l] =>
      let n' := fresh "n" in let He' := fresh "He" in
      destruct (evolve_connect n0 d ws n a b l He) as (n' & -> & He'); simpl; [..|clear He]
  end.

Ltac rule_link :=
  match goal with
  | He : evolve ?n0 ?d ?ws ?n |- context [link_no_pair ?n ?a ?b] =>
      let n' := fresh "n" in let He' := fresh "He" in
      destruct (evolve_link n0 d ws n a b He) as (n' & -> & He'); simpl; [..|clear He]
  end.

Ltac rule_erase :=
  match goal with
  | He : evolve ?n0 ?d ?ws ?n |- context [set_eraser_on_port ?n ?p] =>
      let n' := fresh "n" in let He' := fresh "He" in
      destruct (evolve_eraser n0 d ws n p He) as (n' & -> & He'); simpl; [..|clear He]
  end.

(** Membership in the ends of a concrete list of wires. *)
Ltac ends_cases H :=
  repeat (apply elem_of_cons in H as [H|H];
          [first [injection H as -> -> -> | injection H as -> ->]|]);
  try (apply not_elem_of_nil in H; destruct H).

Lemma port_at_slot n i k s : slot_at n i = Some s -> port_at n (i, k) = Some (port_raw s k).
Proof. intros H. unfold port_at. simpl. by rewrite H. Qed.

Lemma evolve_keep_alive n0 d ws n i : evolve n0 d ws n -> net_inv n0 ->
  alive n0 i -> i ∉ d -> alive n i.
Proof. intros He Hn Hi Hd. by apply (evolve_alive n0 n d ws Hn He). Qed.

Section RepRep.
Context (n : Net) (p0 p1 : PortId) (s0 s1 : Slot) (lo : LOPath).
Context (Hn : net_inv n) (Hx : active n p0 p1 s0 s1).
Context (He0 : external Principal [slot_idx p0; slot_idx p1] s0).
Context (He1 : external Principal [slot_idx p0; slot_idx p1] s1).

(** The two agents of a redex annihilate: the far ends of their auxiliary
    ports are joined by [ws], each once. *)
Lemma annihilate_replaces q00 q01 q10 q11 ws :
  (forall p q, (p, q) ∈ ends ws <->
     (p, q) ∈ [(aux0 s0, q00); (aux1 s0, q01); (aux0 s1, q10); (aux1 s1, q11)]) ->
  replaces n [slot_idx p1; slot_idx p0]
    [((slot_idx p0, Aux0), q00); ((slot_idx p0, Aux1), q01);
     ((slot_idx p1, Aux0), q10); ((slot_idx p1, Aux1), q11)] [] ws.
Proof.
  intros Hends. destruct Hx as [Hc0 Hc1 Hk0 Hk1 Hne Hs0 Hs1 Hf0 Hf1].
  pose proof (fun k => port_at_slot n _ k _ Hs0) as Hp0.
  pose proof (fun k => port_at_slot n _ k _ Hs1) as Hp1.
  split.
  - intros p q Hin Hr. apply Hends in Hin. left. ends_cases Hin.
    + exists (slot_idx p0, Aux0). split; [left|apply Hp0].
    + exists (slot_idx p0, Aux1). split; [right; left|apply Hp0].
    + exists (slot_idx p1, Aux0). split; [right; right; left|apply Hp1].
    + exists (slot_idx p1, Aux1). split; [do 3 right; left|apply Hp1].
  - simpl. repeat (apply NoDup_cons; split; [set_solver|]). apply NoDup_nil_2.
  - apply NoDup_nil_2.
  - intros d k q p Hin Hp Hr.
    assert (external Principal [slot_idx p1; slot_idx p0] s0 /\ external Principal [slot_idx p1; slot_idx p0] s1)
      as [He0' He1'] by (split; intros k' Hk'; [specialize (He0 k' Hk')|
        specialize (He1 k' Hk')]; set_solver).
    ends_cases Hin; rewrite ?Hp0, ?Hp1 in Hp; injection Hp as <-; (split; [set_solver|]);
      [by apply (He0' Aux0)|by apply (He0' Aux1)|by apply (He1' Aux0)|by apply (He1' Aux1)].
  - intros i k q Hin. by apply not_elem_of_nil in Hin.
  - intros d k r Hd Hr Hrr.
    apply elem_of_cons in Hd as [->|Hd%list_elem_of_singleton]; [|subst d].
    + rewrite Hp1 in Hr. injection Hr as <-. destruct k; simpl in *.
      * left. rewrite Hf1. set_solver.
      * right. exists q10. apply Hends. set_solver.
      * right. exists q11. apply Hends. set_solver.
    + rewrite Hp0 in Hr. injection Hr as <-. destruct k; simpl in *.
      * left. rewrite Hf0. set_solver.
      * right. exists q00. apply Hends. set_solver.
      * right. exists q01. apply Hends. set_solver.
Qed.
End RepRep.

Section Annihilation.
Context (n : Net) (p0 p1 : PortId) (s0 s1 : Slot) (lo : LOPath).
Context (Hn : net_inv n) (Hx : active n p0 p1 s0 s1).
Context (Hlo : lopath_wf lo) (Hd : depth lo < 512).

(** Retire the two agents, then join two pairs of far ends. *)
Lemma annihilate_run i j a b c d
    (Hij : (i = slot_idx p0 /\ j = slot_idx p1) \/ (i = slot_idx p1 /\ j = slot_idx p0))
    (Hin : port_in n a /\ port_in n b /\ port_in n c /\ port_in n d) :
  exists n', (n1 ← retire n i; n2 ← retire n1 j; l ← extend_left lo;
              n3 ← connect n2 a b l; r ← extend_right lo; connect n3 c d r) = Ok n'
    /\ evolve n [j; i] [(a, b); (c, d)] n'.
Proof.
  destruct Hx as [Hc0 Hc1 _ _ Hne _ _ _ _]. destruct Hin as (Ha & Hb & Hc & Hd').
  apply current_alive in Hc0, Hc1.
  assert (alive n i /\ alive n j /\ i <> j) as (Hi & Hj & Hnij)
    by (destruct Hij as [[-> ->]|[-> ->]]; auto).
  pose proof (evolve_refl n (ni_arena n Hn)) as He.
  rule_retire; [done|].
  assert (alive n0 j) as Hj0 by (eapply evolve_keep_alive; eauto; set_solver).
  rule_retire; [done|]. rule_extend. rule_connect; [done..|]. rule_extend.
  rule_connect; [done..|]. eauto.
Qed.

Lemma redex_ports_in k k' : port_in n (port_raw s0 k) /\ port_in n (port_raw s1 k').
Proof.
  destruct Hx as [Hc0 Hc1 _ _ _ Hs0 Hs1 _ _].
  split; [apply (port_raw_current n (slot_idx p0))|apply (port_raw_current n (slot_idx p1))];
    auto using current_alive.
Qed.
End Annihilation.

(** ** Commutation

    Two agents that meet through ports [m0] and [m1 = Principal] are replaced
    by two copies [x0], [x1] of the first and two copies [y0], [y1] of the
    second.  [k0] and [k1] are the other two ports of the first agent. *)
Section Commutation.
Context (n0 n : Net) (p0 p1 : PortId) (s0 s1 : Slot).
Context (m0 k0 k1 : PortKind) (Hks : NoDup [m0; k0; k1]).
Context (Hx : redex m0 Principal n0 p0 p1 s0 s1).
Context (He0 : external m0 [slot_idx p0; slot_idx p1] s0).
Context (He1 : external Principal [slot_idx p0; slot_idx p1] s1).
Context (x0 x1 y0 y1 : AgentPorts) (fs : list (AgentPorts * (Z * Z * Z * Z))).
Context (Hfs : (fun f => f.1) <$> fs ≡ₚ [x0; x1; y0; y1]).
Context (Hal : allocated n0 fs n).

(** The wires of the drawing, each from both ends: the far end of a port of
    a dead agent first, then the ports of the copies. *)
Definition commuted : list (PortId * PortId) :=
  [(port_raw s0 k0, ag_principal y0); (port_raw s0 k1, ag_principal y1);
   (aux0 s1, port_for x0 m0); (aux1 s1, port_for x1 m0)].

Definition copies : list (AgentPorts * PortKind * PortId) :=
  [(x0, m0, aux0 s1); (x0, k0, ag_aux0 y0); (x0, k1, ag_aux0 y1);
   (x1, m0, aux1 s1); (x1, k0, ag_aux1 y0); (x1, k1, ag_aux1 y1);
   (y0, Principal, port_raw s0 k0); (y0, Aux0, port_for x0 k0); (y0, Aux1, port_for x1 k0);
   (y1, Principal, port_raw s0 k1); (y1, Aux0, port_for x0 k1); (y1, Aux1, port_for x1 k1)].

Definition copy_ends : list (PortId * PortId) :=
  (fun c => (port_for c.1.1 c.1.2, c.2)) <$> copies.

Lemma copy_in x : x ∈ [x0; x1; y0; y1] -> exists f, f ∈ fs /\ f.1 = x.
Proof.
  rewrite <- Hfs. intros H. apply list_elem_of_fmap in H as (f & -> & Hf). eauto.
Qed.

Lemma copies_of x k q : (x, k, q) ∈ copies -> x ∈ [x0; x1; y0; y1].
Proof.
  intros H. unfold copies in H. ends_cases H; set_solver.
Qed.

Lemma copies_idx : NoDup (idx_of <$> [x0; x1; y0; y1]).
Proof.
  rewrite <- Hfs. rewrite <- list_fmap_compose. apply (al_once _ _ _ Hal).
Qed.

Lemma kinds_distinct : m0 <> k0 /\ m0 <> k1 /\ k0 <> k1.
Proof.
  apply NoDup_cons in Hks as [Hm [Hkk _]%NoDup_cons]. split; [|split]; intros ->.
  - apply Hm. left.
  - apply Hm. right. left.
  - apply Hkk. left.
Qed.

Lemma commute_replaces ws :
  (forall p q, (p, q) ∈ ends ws <-> (p, q) ∈ commuted ++ copy_ends) ->
  replaces n [slot_idx p1; slot_idx p0]
    [((slot_idx p0, k0), ag_principal y0); ((slot_idx p0, k1), ag_principal y1);
     ((slot_idx p1, Aux0), port_for x0 m0); ((slot_idx p1, Aux1), port_for x1 m0)]
    ((fun c => ((idx_of c.1.1, c.1.2), c.2)) <$> copies) ws.
Proof.
  intros Hends. pose proof (redex_allocated n0 n fs Hal _ _ _ _ _ _ Hx)
    as [Hc0 Hc1 Hk0 Hk1 Hne Hs0 Hs1 Hf0 Hf1].
  pose proof (fun k => port_at_slot n _ k _ Hs0) as Hp0.
  pose proof (fun k => port_at_slot n _ k _ Hs1) as Hp1.
  split.
  - intros p q Hin Hr. apply Hends in Hin. apply elem_of_app in Hin as [Hin|Hin].
    + left. unfold commuted in Hin. ends_cases Hin.
      * exists (slot_idx p0, k0). split; [left|apply Hp0].
      * exists (slot_idx p0, k1). split; [right; left|apply Hp0].
      * exists (slot_idx p1, Aux0). split; [do 2 right; left|apply Hp1].
      * exists (slot_idx p1, Aux1). split; [do 3 right; left|apply Hp1].
    + right. apply list_elem_of_fmap in Hin as ([[x k] q'] & Heq & Hin).
      injection Heq as -> ->. destruct (copy_in x (copies_of _ _ _ Hin)) as (f & Hf & <-).
      destruct (allocated_port n0 n fs Hal f k Hf) as (s & _ & Hs & Hp & _).
      exists (idx_of f.1), k, s. split; [|done].
      apply list_elem_of_fmap. by exists (f.1, k, q').
  - simpl. destruct kinds_distinct as (Hm0 & Hm1 & Hkk).
    repeat (apply NoDup_cons; split; [set_solver|]). apply NoDup_nil_2.
  - rewrite <- list_fmap_compose. pose proof copies_idx as Hnd. simpl in Hnd.
    destruct kinds_distinct as (Hm0 & Hm1 & Hkk).
    rewrite !NoDup_cons, !not_elem_of_cons in Hnd.
    destruct Hnd as ((? & ? & ? & _) & (? & ? & _) & (? & _) & _).
    unfold copies. simpl.
    repeat (apply NoDup_cons; split; [rewrite ?not_elem_of_cons; repeat split;
              try (intros [=]; congruence); apply not_elem_of_nil|]).
    apply NoDup_nil_2.
  - intros d k q p Hin Hp Hr. ends_cases Hin; rewrite ?Hp0, ?Hp1 in Hp;
      injection Hp as <-; (split; [set_solver|]);
      destruct kinds_distinct as (Hm0 & Hm1 & Hkk).
    + specialize (He0 k0 ltac:(congruence)). set_solver.
    + specialize (He0 k1 ltac:(congruence)). set_solver.
    + specialize (He1 Aux0 ltac:(congruence)). set_solver.
    + specialize (He1 Aux1 ltac:(congruence)). set_solver.
  - intros i k q Hin. apply list_elem_of_fmap in Hin as ([[x kx] q'] & Heq & Hin).
    injection Heq as -> -> ->. destruct (copy_in x (copies_of _ _ _ Hin)) as (f & Hf & <-).
    destruct (allocated_port n0 n fs Hal f kx Hf) as (s & Ha & Hs & _ & Hz).
    split; [done|]. split; [|by rewrite (port_at_slot _ _ _ _ Hs), Hz].
    pose proof (allocated_ne n0 n fs Hal (slot_idx p0) f (current_alive _ _ (rx_cur0 _ _ _ _ _ _ _ Hx)) Hf).
    pose proof (allocated_ne n0 n fs Hal (slot_idx p1) f (current_alive _ _ (rx_cur1 _ _ _ _ _ _ _ Hx)) Hf).
    simpl. rewrite !not_elem_of_cons. auto using not_elem_of_nil.
  - assert (forall k, k = m0 \/ k = k0 \/ k = k1) as Hall.
    { destruct kinds_distinct as (Hm0 & Hm1 & Hkk).
      intros k. destruct m0, k0, k1, k; try congruence; auto. }
    intros d k r Hd Hr Hrr.
    apply elem_of_cons in Hd as [->|Hd%list_elem_of_singleton]; [|subst d].
    + rewrite Hp1 in Hr. injection Hr as <-. destruct k; simpl in Hf1, Hrr |- *.
      * left. rewrite Hf1. set_solver.
      * right. eexists. apply Hends, elem_of_app. left. do 2 right. left.
      * right. eexists. apply Hends, elem_of_app. left. do 3 right. left.
    + rewrite Hp0 in Hr. injection Hr as <-. destruct (Hall k) as [-> | [-> | ->]].
      * left. rewrite Hf0. set_solver.
      * right. eexists. apply Hends, elem_of_app. left. left.
      * right. eexists. apply Hends, elem_of_app. left. right. left.
Qed.
End Commutation.

(** * Theorems *)

(** C5: Beta.  An abstraction and an application facing each other, whose
    other ports lead outside the pair, are both retired; the body is wired to
    the application's result and the bound variable to the argument; no other
    agent or port changes, and the wiring stays an involution.  The order of
    the pair does not matter, and the rule cannot fail while the path has one
    level left. *)
Theorem r4_beta (n : Net) (p0 p1 : PortId) (s0 s1 : Slot) (lo : LOPath) :
  net_inv n -> active n p0 p1 s0 s1 ->
  fan_is_abs s0 = true -> fan_is_abs s1 = false ->
  external Principal [slot_idx p0; slot_idx p1] s0 -> external Principal [slot_idx p0; slot_idx p1] s1 ->
  lopath_wf lo -> depth lo < 512 ->
  exists n', r4_fan_fan n p0 p1 lo = Ok n' /\ r4_fan_fan n p1 p0 lo = Ok n'
    /\ rewritten n [slot_idx p1; slot_idx p0] []
         [(aux0 s0, aux0 s1); (aux1 s0, aux1 s1)] n'.
Proof.
  intros Hn Hx Habs Happ He0 He1 Hlo Hd.
  destruct (annihilate_run n p0 p1 s0 s1 lo Hn Hx Hlo Hd (slot_idx p0) (slot_idx p1)
              (aux0 s0) (aux0 s1) (aux1 s0) (aux1 s1)) as (n' & Hrun & Hev).
  { by left. }
  { pose proof (redex_ports_in n p0 p1 s0 s1 Hn Hx Aux0 Aux0) as [? ?].
    by pose proof (redex_ports_in n p0 p1 s0 s1 Hn Hx Aux1 Aux1) as [? ?]. }
  exists n'. pose proof Hx as [_ _ _ _ _ Hs0 Hs1 _ _].
  assert ((slot_idx (aux0 s0) =? slot_idx p0) = false) as Hself.
  { apply Z.eqb_neq. intros Heq. apply (He0 Aux0); [done|]. simpl. rewrite Heq. left. }
  split; [|split].
  - unfold r4_fan_fan. rule_slot. rewrite Habs. repeat rule_slot. rewrite Hself. simpl. exact Hrun.
  - unfold r4_fan_fan. rule_slot. rewrite Happ. repeat rule_slot. rewrite Hself. simpl. exact Hrun.
  - eapply rewritten_intro; [by apply allocated_nil|exact Hev|].
    apply (annihilate_replaces n p0 p1 s0 s1 Hn Hx He0 He1 (aux0 s1) (aux1 s1) (aux0 s0) (aux1 s0)).
    intros p q. unfold ends. simpl. set_solver.
Qed.

(** The redex (λx. e0)[x := ...] between agents 1 and 2. *)
Definition beta_net : Net := active_net (TAG_FAN_ABS, 0, 0, 0) (TAG_FAN_APP, 0, 0, 0).

Lemma r4_beta_witness :
  exists n', r4_fan_fan beta_net (P 1 Principal) (P 2 Principal) root = Ok n'
    /\ r4_fan_fan beta_net (P 2 Principal) (P 1 Principal) root = Ok n'
    /\ rewritten beta_net [2; 1] []
         [(P 3 Principal, P 5 Principal); (P 4 Principal, P 6 Principal)] n'.
Proof.
  exact (r4_beta beta_net (P 1 Principal) (P 2 Principal) (slot_of beta_net 1)
    (slot_of beta_net 2) root ltac:(on_net) ltac:(on_net) ltac:(on_net) ltac:(on_net)
    ltac:(on_net) ltac:(on_net) ltac:(on_net) ltac:(on_net)).
Defined.

(** Replicator annihilation.  Two replicators facing each other, whose
    auxiliary ports lead outside the pair, are both retired and their
    auxiliary wires joined side by side. *)
Theorem r6_annihilates (n : Net) (p0 p1 : PortId) (s0 s1 : Slot) (lo : LOPath) :
  net_inv n -> active n p0 p1 s0 s1 ->
  external Principal [slot_idx p0; slot_idx p1] s0 -> external Principal [slot_idx p0; slot_idx p1] s1 ->
  lopath_wf lo -> depth lo < 512 ->
  exists n', r6_rep_rep n p0 p1 lo = Ok n'
    /\ rewritten n [slot_idx p1; slot_idx p0] []
         [(aux0 s0, aux0 s1); (aux1 s0, aux1 s1)] n'.
Proof.
  intros Hn Hx He0 He1 Hlo Hd.
  destruct (annihilate_run n p0 p1 s0 s1 lo Hn Hx Hlo Hd (slot_idx p0) (slot_idx p1)
              (aux0 s0) (aux0 s1) (aux1 s0) (aux1 s1)) as (n' & Hrun & Hev).
  { by left. }
  { pose proof (redex_ports_in n p0 p1 s0 s1 Hn Hx Aux0 Aux0) as [? ?].
    by pose proof (redex_ports_in n p0 p1 s0 s1 Hn Hx Aux1 Aux1) as [? ?]. }
  exists n'. pose proof Hx as [_ _ _ _ _ Hs0 Hs1 _ _]. split.
  - unfold r6_rep_rep. do 2 rule_slot. exact Hrun.
  - eapply rewritten_intro; [by apply allocated_nil|exact Hev|].
    apply (annihilate_replaces n p0 p1 s0 s1 Hn Hx He0 He1 (aux0 s1) (aux1 s1) (aux0 s0) (aux1 s0)).
    intros p q. unfold ends. simpl. set_solver.
Qed.

Definition same_reps_net : Net :=
  active_net (TAG_REP_IN_UNPAIRED, 3, 1, 2) (TAG_REP_IN_UNPAIRED, 3, 1, 2).

Lemma r6_annihilates_witness :
  exists n', r6_rep_rep same_reps_net (P 1 Principal) (P 2 Principal) root = Ok n'
    /\ rewritten same_reps_net [2; 1] []
         [(P 3 Principal, P 5 Principal); (P 4 Principal, P 6 Principal)] n'.
Proof.
  exact (r6_annihilates same_reps_net (P 1 Principal) (P 2 Principal)
    (slot_of same_reps_net 1) (slot_of same_reps_net 2) root ltac:(on_net) ltac:(on_net)
    ltac:(on_net) ltac:(on_net) ltac:(on_net) ltac:(on_net)).
Defined.

(** ** Running the commutation rules *)

Ltac in_list := first [apply list_elem_of_here | apply list_elem_of_further; in_list].

Lemma kinds_from_principal : NoDup [Principal; Aux0; Aux1].
Proof. apply (bool_decide_eq_true_1 _). reflexivity. Qed.

Lemma kinds_from_aux0 : NoDup [Aux0; Principal; Aux1].
Proof. apply (bool_decide_eq_true_1 _). reflexivity. Qed.

(** Two concrete lists of wire ends have the same elements. *)
Ltac same_ends :=
  intros p q; unfold ends, commuted, copy_ends, copies; simpl;
  let H := fresh in
  split; intros H;
  repeat (apply elem_of_cons in H as [H|H]; [rewrite H; in_list|]);
  by apply not_elem_of_nil in H.

Ltac rule_alloc fs :=
  match goal with
  | Hal : allocated _ ?l ?n |- returns _ (mbind _ (alloc_agent ?n ?t ?d ?d0 ?d1)) _ =>
      let Hal' := fresh "Hal" in
      eapply returns_bind; [exact (alloc_step _ l n t d d0 d1 Hal)|];
      intros [fs ?n] Hal'; clear Hal; simpl in Hal'
  end.

(** A port of a copy or of a consumed agent is in the arena. *)
Ltac fresh_port Hfin Hin :=
  first
    [ apply (Hin Aux0) | apply (Hin Aux1) | apply (Hin Principal)
    | match goal with
      | |- port_in _ (ag_principal ?f) => eapply (Hfin (f, _) Principal)
      | |- port_in _ (ag_aux0 ?f) => eapply (Hfin (f, _) Aux0)
      | |- port_in _ (ag_aux1 ?f) => eapply (Hfin (f, _) Aux1)
      end; in_list ].

(** The ports a commutation connects are in the arena. *)
Lemma commute_ports_in m0 n0 n p0 p1 s0 s1 fs :
  net_inv n0 -> redex m0 Principal n0 p0 p1 s0 s1 -> allocated n0 fs n ->
  (forall k, port_in n (port_raw s0 k) /\ port_in n (port_raw s1 k))
  /\ (forall f k, f ∈ fs -> port_in n (port_for f.1 k))
  /\ alive n (slot_idx p0) /\ alive n (slot_idx p1).
Proof.
  intros Hn Hx Hal. pose proof (redex_allocated n0 n fs Hal _ _ _ _ _ _ Hx)
    as [Hc0 Hc1 _ _ _ Hs0 Hs1 _ _].
  pose proof (gr_inv _ _ _ (al_grows _ _ _ Hal)) as Hn1. apply current_alive in Hc0, Hc1.
  split; [|split; [intros f k Hf; by eapply allocated_in|done]].
  intros k. split; [by apply (port_raw_current n (slot_idx p0))|].
  by apply (port_raw_current n (slot_idx p1)).
Qed.


Definition fan_rep_net : Net :=
  active_net (TAG_FAN_ABS, 0, 0, 0) (TAG_REP_IN_UNPAIRED, 2, -1, 3).


(** ** Replicators of different labels *)

Lemma key_gt_asym s0 s1 : key_gt s0 s1 = true -> key_gt s1 s0 = false.
Proof.
  unfold key_gt. rewrite (Z.compare_antisym (data s0) (data s1)),
    (Z.compare_antisym (delta0 s0) (delta0 s1)).
  destruct (data s0 ?= data s1); simpl; try done.
  destruct (delta0 s0 ?= delta0 s1); simpl; try done. lia.
Qed.

Definition level_range (v : Z) : Prop := 0 <= v < 16384.

Lemma add_level_ok l d : level_range (l + d) -> add_level l d = Ok (l + d).
Proof.
  unfold level_range, add_level. intros H.
  assert ((0 <=? l + d) && (l + d <? 16384) = true) as -> by lia.
  unfold as_u16. by rewrite wrap_small by lia.
Qed.

Lemma add_level_err l d : ~ level_range (l + d) -> add_level l d = Err DeltaOverflow.
Proof.
  unfold level_range, add_level. intros H.
  by assert ((0 <=? l + d) && (l + d <? 16384) = false) as -> by lia.
Qed.

(** The order in which the two replicators are given does not matter. *)
Lemma r7_order n hi_p lo_p hi low lo : active n hi_p lo_p hi low ->
  key_gt hi low = true -> r7_rep_rep n lo_p hi_p lo = r7_rep_rep n hi_p lo_p lo.
Proof.
  intros Hx Hk. pose proof Hx as [_ _ _ _ _ Hs0 Hs1 _ _].
  unfold r7_rep_rep. repeat rule_slot. by rewrite Hk, (key_gt_asym _ _ Hk).
Qed.

(** Commutation of two replicators.  The one with the larger label (level,
    then deltas) is copied at its level plus each delta of the other, keeping
    its own deltas; the other is duplicated as it is; the wires cross as in
    the drawing, whichever order the two come in. *)
Theorem r7_commutes (n : Net) (hi_p lo_p : PortId) (hi low : Slot) (lo : LOPath) :
  net_inv n -> active n hi_p lo_p hi low -> key_gt hi low = true ->
  level_range (data hi + delta0 low) -> level_range (data hi + delta1 low) ->
  external Principal [slot_idx hi_p; slot_idx lo_p] hi ->
  external Principal [slot_idx hi_p; slot_idx lo_p] low ->
  lopath_wf lo -> depth lo <= 510 ->
  r7_rep_rep n lo_p hi_p lo = r7_rep_rep n hi_p lo_p lo /\
  returns (fun e => e = ArenaCapacityExceeded) (r7_rep_rep n hi_p lo_p lo)
    (fun n' => exists h0 h1 l0 l1,
       rewritten n [slot_idx lo_p; slot_idx hi_p]
         [(h0, (Z.land (tag hi) 15, data hi + delta0 low, delta0 hi, delta1 hi));
          (h1, (Z.land (tag hi) 15, data hi + delta1 low, delta0 hi, delta1 hi));
          (l0, (Z.land (tag low) 15, data low, delta0 low, delta1 low));
          (l1, (Z.land (tag low) 15, data low, delta0 low, delta1 low))]
         [(ag_aux0 h0, ag_aux0 l0); (ag_aux1 h0, ag_aux0 l1);
          (ag_aux0 h1, ag_aux1 l0); (ag_aux1 h1, ag_aux1 l1);
          (ag_principal h0, aux0 low); (ag_principal h1, aux1 low);
          (ag_principal l0, aux0 hi); (ag_principal l1, aux1 hi)] n').
Proof.
  intros Hn Hx Hk Hv0 Hv1 He0 He1 Hlo Hd. split; [by eapply r7_order|].
  pose proof Hx as [_ _ _ _ Hne Hs0 Hs1 _ _].
  unfold r7_rep_rep. do 2 rule_slot. rewrite Hk.
  rewrite (add_level_ok _ _ Hv0), (add_level_ok _ _ Hv1). simpl.
  pose proof (allocated_nil n Hn) as Hal.
  rule_alloc h0. rule_alloc h1. rule_alloc l0. rule_alloc l1.
  destruct (commute_ports_in _ _ _ _ _ _ _ _ Hn Hx Hal) as (Hin & Hfin & Ha0 & Ha1).
  pose proof (gr_inv _ _ _ (al_grows _ _ _ Hal)) as Hn4.
  pose proof (evolve_refl _ (ni_arena _ Hn4)) as He.
  rule_retire; [done|].
  rule_retire; [eapply evolve_keep_alive; eauto; set_solver|].
  do 4 (rule_connect; [fresh_port Hfin Hin..|]). do 2 rule_extend.
  rule_connect; [fresh_port Hfin Hin..|]. rule_extend.
  rule_connect; [fresh_port Hfin Hin..|]. do 2 rule_extend.
  rule_connect; [fresh_port Hfin Hin..|]. rule_extend.
  rule_connect; [fresh_port Hfin Hin..|].
  exists h0, h1, l0, l1. eapply rewritten_intro; [exact Hal|eassumption|].
  eapply (commute_replaces n _ hi_p lo_p hi low Principal Aux0 Aux1 kinds_from_principal
            Hx He0 He1 h0 h1 l0 l1); [|exact Hal|same_ends]; reflexivity.
Qed.

Definition reps_net : Net :=
  active_net (TAG_REP_IN_UNPAIRED, 5, 7, 9) (TAG_REP_IN_UNPAIRED, 2, 1, -1).

Lemma r7_commutes_witness :
  exists n' h0, r7_rep_rep reps_net (P 1 Principal) (P 2 Principal) root = Ok n'
    /\ r7_rep_rep reps_net (P 2 Principal) (P 1 Principal) root = Ok n'
    /\ net_inv n' /\ exists g, agent_at n' h0 = Some (8, g, 6, 7, 9).
Proof.
  pose proof (r7_commutes reps_net (P 1 Principal) (P 2 Principal)
    (slot_of reps_net 1) (slot_of reps_net 2) root ltac:(on_net) ltac:(on_net)
    ltac:(on_net) ltac:(on_net) ltac:(on_net) ltac:(on_net) ltac:(on_net) ltac:(on_net)
    ltac:(on_net)) as [Ho H].
  destruct (r7_rep_rep reps_net (P 1 Principal) _ _) as [n'|e| |] eqn:E; [|discriminate_on E..].
  destruct H as (h0 & h1 & l0 & l1 & Hr). exists n', (idx_of h0).
  split; [reflexivity|]. split; [exact Ho|].
  split; [exact (rw_inv _ _ _ _ _ Hr)|].
  apply (rw_labels _ _ _ _ _ Hr h0 (Z.land (tag (slot_of reps_net 1)) 15)). in_list.
Defined.

(** A commutation whose new level would leave the 14-bit range fails with
    [DeltaOverflow] (or, before that, for lack of arena space): it never
    wraps and never succeeds. *)
Theorem r7_overflow (n : Net) (hi_p lo_p : PortId) (hi low : Slot) (lo : LOPath) :
  net_inv n -> active n hi_p lo_p hi low -> key_gt hi low = true ->
  ~ (level_range (data hi + delta0 low) /\ level_range (data hi + delta1 low)) ->
  r7_rep_rep n hi_p lo_p lo = Err DeltaOverflow
  \/ (level_range (data hi + delta0 low)
      /\ r7_rep_rep n hi_p lo_p lo = Err ArenaCapacityExceeded).
Proof.
  intros Hn Hx Hk Hv. pose proof Hx as [_ _ _ _ _ Hs0 Hs1 _ _].
  unfold r7_rep_rep. do 2 rule_slot. rewrite Hk.
  assert (level_range (data hi + delta0 low) \/ ~ level_range (data hi + delta0 low)) as [H0|H0]
    by (unfold level_range; lia); [|left; by rewrite (add_level_err _ _ H0)].
  rewrite (add_level_ok _ _ H0), add_level_err by tauto. simpl.
  pose proof (alloc_agent_ok n (Z.land (tag hi) 15) (data hi + delta0 low) (delta0 hi)
                (delta1 hi) Hn) as Ha.
  destruct (alloc_agent n _ _ _ _) as [[ps n1]|e| |]; simpl in Ha |- *; [by left| |done..].
  subst e. by right.
Qed.

Definition overflow_net : Net :=
  active_net (TAG_REP_IN_UNPAIRED, 5, 0, 0) (TAG_REP_IN_UNPAIRED, 2, -10, 0).

Lemma r7_overflow_witness :
  r7_rep_rep overflow_net (P 1 Principal) (P 2 Principal) root = Err DeltaOverflow
  \/ (level_range (5 + -10)
      /\ r7_rep_rep overflow_net (P 1 Principal) (P 2 Principal) root
         = Err ArenaCapacityExceeded).
Proof.
  exact (r7_overflow overflow_net (P 1 Principal) (P 2 Principal)
    (slot_of overflow_net 1) (slot_of overflow_net 2) root ltac:(on_net) ltac:(on_net)
    ltac:(on_net) ltac:(unfold level_range; vm_compute; intuition congruence)).
Defined.

(** ** Replication of an application by the replicator at its result *)

(** Phase-2 replication.  A replicator whose principal port meets the
    result port of a live application is lifted past it: two application
    copies serve the replicator's former outputs, and two replicators with
    its level and deltas share the function and the argument. *)
Theorem c4_replicates (n : Net) (app_aux0 rep_p : PortId) (app rep : Slot) (lo : LOPath) :
  net_inv n -> redex Aux0 Principal n app_aux0 rep_p app rep ->
  external Aux0 [slot_idx app_aux0; slot_idx rep_p] app ->
  external Principal [slot_idx app_aux0; slot_idx rep_p] rep ->
  lopath_wf lo -> depth lo <= 510 ->
  returns (fun e => e = ArenaCapacityExceeded)
    (c4_aux_fan_replication n (mk_cand rep_p app_aux0 lo))
    (fun n' => exists new_rep new_arg app0 app1,
       rewritten n [slot_idx rep_p; slot_idx app_aux0]
         [(new_rep, (TAG_REP_IN_UNKNOWN, data rep, delta0 rep, delta1 rep));
          (new_arg, (TAG_REP_IN_UNKNOWN, data rep, delta0 rep, delta1 rep));
          (app0, (TAG_FAN_APP, 0, 0, 0)); (app1, (TAG_FAN_APP, 0, 0, 0))]
         [(ag_aux0 new_rep, ag_principal app0); (ag_aux1 new_rep, ag_principal app1);
          (ag_aux1 app0, ag_aux0 new_arg); (ag_aux1 app1, ag_aux1 new_arg);
          (ag_aux0 app0, aux0 rep); (ag_aux0 app1, aux1 rep);
          (ag_principal new_rep, principal app); (ag_principal new_arg, aux1 app)] n').
Proof.
  intros Hn Hx He0 He1 Hlo Hd. pose proof Hx as [Hc0 Hc1 _ _ Hne Hs0 Hs1 Hf0 Hf1].
  assert (is_eraser (aux0 app) = false) as Hera.
  { simpl in Hf0. rewrite Hf0. destruct Hc1 as (s & Hi & _ & ->).
    destruct (alive_idx n _ (ni_arena n Hn) Hi) as [Hr _].
    unfold port_of. apply is_eraser_new; [done|apply land_1_bit]. }
  unfold c4_aux_fan_replication. simpl. do 2 rule_slot. rewrite Hera.
  pose proof (allocated_nil n Hn) as Hal.
  rule_alloc new_rep. rule_alloc new_arg. rule_alloc app0. rule_alloc app1.
  destruct (commute_ports_in _ _ _ _ _ _ _ _ Hn Hx Hal) as (Hin & Hfin & Ha0 & Ha1).
  pose proof (gr_inv _ _ _ (al_grows _ _ _ Hal)) as Hn4.
  pose proof (evolve_refl _ (ni_arena _ Hn4)) as He.
  rule_retire; [done|].
  rule_retire; [eapply evolve_keep_alive; eauto; set_solver|].
  do 4 (rule_connect; [fresh_port Hfin Hin..|]). do 2 rule_extend.
  rule_connect; [fresh_port Hfin Hin..|]. rule_extend.
  rule_connect; [fresh_port Hfin Hin..|]. do 2 rule_extend.
  rule_connect; [fresh_port Hfin Hin..|]. rule_extend.
  rule_connect; [fresh_port Hfin Hin..|].
  exists new_rep, new_arg, app0, app1. eapply rewritten_intro; [exact Hal|eassumption|].
  eapply (commute_replaces n _ app_aux0 rep_p app rep Aux0 Principal Aux1 kinds_from_aux0
            Hx He0 He1 app0 app1 new_rep new_arg); [|exact Hal|same_ends].
  apply (Permutation_app_comm [new_rep; new_arg] [app0; app1]).
Qed.

Definition c4_net : Net :=
  pair_net Aux0 Principal Aux1 Principal (TAG_FAN_APP, 0, 0, 0) (TAG_REP_IN_UNPAIRED, 2, 1, 0).

Lemma c4_replicates_witness :
  exists n', c4_aux_fan_replication c4_net (mk_cand (P 2 Principal) (P 1 Aux0) root) = Ok n'
    /\ net_inv n' /\ agent_count n' = 8%nat.
Proof.
  pose proof (c4_replicates c4_net (P 1 Aux0) (P 2 Principal)
    (slot_of c4_net 1) (slot_of c4_net 2) root ltac:(on_net) ltac:(on_net)
    ltac:(on_net) ltac:(on_net) ltac:(on_net) ltac:(on_net)) as H.
  destruct (c4_aux_fan_replication c4_net _) as [n'|e| |] eqn:E; [|discriminate_on E..].
  destruct H as (r & g & a0 & a1 & Hr). exists n'. split; [reflexivity|].
  split; [exact (rw_inv _ _ _ _ _ Hr)|].
  pose proof (rw_count _ _ _ _ _ Hr) as Hc. change (agent_count c4_net) with 6%nat in Hc.
  simpl in Hc. lia.
Defined.
