(* ===== verification/CanonSpecs.v ===== *)
(** * What erasure and the replicator simplifications do

    R2 and R3 (an eraser meets a fan or a replicator), C2 (merge of an
    unpaired replicator into its neighbour) and C3 (decay of a replicator
    with erased outputs), proved against their drawings like the rules of
    [RuleSpecs]. *)
From S2P Require Import Prelude Bytes Error LOPath Port Arena Net Wiring Examples Rules RuleSpecs.

(** ** One agent retired *)
Section OneAgent.
Context (n : Net) (p : PortId) (s : Slot).
Context (Hn : net_inv n) (Hc : current n p) (Hs : slot_at n (slot_idx p) = Some s).

(** The far ends of the ports of kinds [ka] and [kb] receive [qa] and [qb];
    nothing real is behind the third port. *)
Lemma one_replaces ka kb kc qa qb ws :
  ka <> kb -> (forall k, k = ka \/ k = kb \/ k = kc) ->
  real (port_raw s kc) = false ->
  (slot_idx (port_raw s ka) <> slot_idx p) -> (slot_idx (port_raw s kb) <> slot_idx p) ->
  (forall q r, (q, r) ∈ ends ws -> real q = true ->
     (q, r) = (port_raw s ka, qa) \/ (q, r) = (port_raw s kb, qb)) ->
  (real (port_raw s ka) = true -> (port_raw s ka, qa) ∈ ends ws) ->
  (real (port_raw s kb) = true -> (port_raw s kb, qb) ∈ ends ws) ->
  replaces n [slot_idx p] [((slot_idx p, ka), qa); ((slot_idx p, kb), qb)] [] ws.
Proof.
  intros Hab Hall Hkc Hea Heb Hends Hwa Hwb.
  pose proof (fun k => port_at_slot n _ k _ Hs) as Hp.
  split.
  - intros q r Hin Hr. left. destruct (Hends q r Hin Hr) as [E|E]; injection E as -> ->.
    + exists (slot_idx p, ka). split; [in_list|apply Hp].
    + exists (slot_idx p, kb). split; [in_list|apply Hp].
  - simpl. apply NoDup_cons. split; [|apply NoDup_singleton].
    intros H%list_elem_of_singleton. by injection H.
  - apply NoDup_nil_2.
  - intros d k q x Hin Hx Hr. ends_cases Hin; rewrite Hp in Hx; injection Hx as <-;
      (split; [in_list|]); by rewrite list_elem_of_singleton.
  - by intros i k q ?%not_elem_of_nil.
  - intros d k r ->%list_elem_of_singleton Hr Hrr. rewrite Hp in Hr. injection Hr as <-.
    right. destruct (Hall k) as [-> | [-> | ->]]; [eauto..|congruence].
Qed.

Lemma one_ports_in k : port_in n (port_raw s k).
Proof. apply (port_raw_current n (slot_idx p)); auto using current_alive. Qed.

(** [set_eraser_on_port] twice, retire, [connect] twice: an eraser at each
    auxiliary far end. *)
Lemma erase_run lo : lopath_wf lo -> depth lo < 512 ->
  exists n', r2_era_fan n p lo = Ok n' /\ r3_era_rep n p lo = Ok n'
    /\ evolve n [slot_idx p] [(ERA, aux0 s); (ERA, aux1 s); (ERA, aux0 s); (ERA, aux1 s)] n'.
Proof.
  intros Hlo Hd. change (r3_era_rep n p lo) with (r2_era_fan n p lo).
  cut (exists n', r2_era_fan n p lo = Ok n'
    /\ evolve n [slot_idx p] [(ERA, aux0 s); (ERA, aux1 s); (ERA, aux0 s); (ERA, aux1 s)] n').
  { intros (n' & ? & ?). eauto. }
  pose proof (one_ports_in Aux0) as H0. pose proof (one_ports_in Aux1) as H1.
  assert (port_in n ERA) as HE by done.
  unfold r2_era_fan. rule_slot. pose proof (evolve_refl n (ni_arena n Hn)) as He.
  rule_erase; [exact H0|]. rule_erase; [exact H1|].
  rule_retire; [eapply evolve_keep_alive; eauto using current_alive; apply not_elem_of_nil|].
  rule_extend. rule_connect; [done..|]. rule_extend. rule_connect; [done..|]. eauto.
Qed.

(** The agent is replaced by a wire between two of its far ends. *)
Lemma join_run ka kb kc lo :
  ka <> kb -> (forall k, k = ka \/ k = kb \/ k = kc) -> real (port_raw s kc) = false ->
  slot_idx (port_raw s ka) <> slot_idx p -> slot_idx (port_raw s kb) <> slot_idx p ->
  exists n', (n1 ← retire n (slot_idx p); connect n1 (port_raw s ka) (port_raw s kb) lo)
             = Ok n'
    /\ rewritten n [slot_idx p] [] [(port_raw s ka, port_raw s kb)] n'.
Proof.
  intros Hab Hall Hkc Ha Hb.
  pose proof (one_ports_in ka) as H0. pose proof (one_ports_in kb) as H1.
  pose proof (evolve_refl n (ni_arena n Hn)) as He.
  rule_retire; [eapply evolve_keep_alive; eauto using current_alive; apply not_elem_of_nil|].
  rule_connect; [done..|]. eexists. split; [reflexivity|].
  eapply rewritten_intro; [by apply allocated_nil|eassumption|].
  apply (one_replaces ka kb kc (port_raw s kb) (port_raw s ka)); try done.
  - intros q r Hin _. unfold ends in Hin. simpl in Hin.
    repeat (apply elem_of_cons in Hin as [Hin|Hin]; [auto|]). by apply not_elem_of_nil in Hin.
  - intros _. unfold ends. simpl. in_list.
  - intros _. unfold ends. simpl. in_list.
Qed.

(** The agent is replaced by an eraser at the far end of its principal
    port. *)
Lemma erase_input lo : slot_idx (principal s) <> slot_idx p ->
  real (aux0 s) = false -> real (aux1 s) = false ->
  exists n', (n1 ← set_eraser_on_port n (principal s); n2 ← retire n1 (slot_idx p);
              connect n2 ERA (principal s) lo) = Ok n'
    /\ rewritten n [slot_idx p] [] [(ERA, principal s)] n'.
Proof.
  intros Hself H0 H1. pose proof (one_ports_in Principal) as HiP.
  assert (port_in n ERA) as HE by done.
  pose proof (evolve_refl n (ni_arena n Hn)) as He.
  rule_erase; [exact HiP|].
  rule_retire; [eapply evolve_keep_alive; eauto using current_alive; apply not_elem_of_nil|].
  rule_connect; [done..|]. eexists. split; [reflexivity|].
  apply (rewritten_ends n _ _ [(ERA, principal s); (ERA, principal s)]).
  { intros w Hw%list_elem_of_singleton. rewrite Hw. in_list. }
  { intros q r Hq _. unfold ends in *. simpl in *.
    repeat (apply elem_of_cons in Hq as [Hq|Hq]; [rewrite Hq; in_list|]).
    by apply not_elem_of_nil in Hq. }
  apply (rewritten_intro _ n _ _ _ [((slot_idx p, Principal), ERA)] []);
    [by apply allocated_nil|assumption|].
  split.
  - intros q r Hin Hr. left. exists (slot_idx p, Principal). unfold ends in Hin. simpl in Hin.
    repeat (apply elem_of_cons in Hin as [Hin|Hin];
            [injection Hin as -> ->; try discriminate Hr|]); try by apply not_elem_of_nil in Hin.
    + split; [apply list_elem_of_singleton; reflexivity|exact (port_at_slot n _ Principal s Hs)].
    + split; [apply list_elem_of_singleton; reflexivity|exact (port_at_slot n _ Principal s Hs)].
  - apply NoDup_singleton.
  - apply NoDup_nil_2.
  - intros d k q x Hin%list_elem_of_singleton Hx Hr. injection Hin as -> -> ->.
    rewrite (port_at_slot _ _ _ _ Hs) in Hx. injection Hx as <-.
    by rewrite !list_elem_of_singleton.
  - by intros i k q ?%not_elem_of_nil.
  - intros d k r ->%list_elem_of_singleton Hr Hrr.
    rewrite (port_at_slot _ _ _ _ Hs) in Hr. injection Hr as <-. right. exists ERA.
    destruct k; simpl in Hrr; [|congruence..]. unfold ends. simpl. in_list.
Qed.
End OneAgent.

Lemma kinds_all (k : PortKind) : k = Aux0 \/ k = Aux1 \/ k = Principal.
Proof. destruct k; auto. Qed.

(** * Theorems *)

(** Erasure.  An agent (fan or replicator) whose principal port holds the
    eraser and whose auxiliary ports lead elsewhere is retired, and the
    eraser is propagated to the far ends of both auxiliary ports. *)
Theorem erasure_propagates (n : Net) (p : PortId) (s : Slot) (lo : LOPath) :
  net_inv n -> current n p -> slot_at n (slot_idx p) = Some s -> principal s = ERA ->
  external Principal [slot_idx p] s -> lopath_wf lo -> depth lo < 512 ->
  exists n', r2_era_fan n p lo = Ok n' /\ r3_era_rep n p lo = Ok n'
    /\ rewritten n [slot_idx p] [] [(ERA, aux0 s); (ERA, aux1 s)] n'.
Proof.
  intros Hn Hc Hs Hp He Hlo Hd.
  destruct (erase_run n p s Hn Hc Hs lo Hlo Hd) as (n' & H2 & H3 & Hev).
  exists n'. split; [done|]. split; [done|].
  apply (rewritten_ends n [slot_idx p] [] [(ERA, aux0 s); (ERA, aux1 s); (ERA, aux0 s); (ERA, aux1 s)]).
  { intros w Hw. repeat (apply elem_of_cons in Hw as [-> | Hw]; [in_list|]).
    by apply not_elem_of_nil in Hw. }
  { intros q r Hin _. unfold ends in *. simpl in *.
    repeat (apply elem_of_cons in Hin as [Hin|Hin]; [rewrite Hin; in_list|]).
    by apply not_elem_of_nil in Hin. }
  eapply rewritten_intro; [by apply allocated_nil|exact Hev|].
  apply (one_replaces n p s Hs Aux0 Aux1 Principal ERA ERA); [done|apply kinds_all|..].
  - simpl. by rewrite Hp.
  - intros H. apply (He Aux0); [done|]. rewrite H. in_list.
  - intros H. apply (He Aux1); [done|]. rewrite H. in_list.
  - intros q r Hin Hr. unfold ends in Hin. simpl in Hin.
    repeat (apply elem_of_cons in Hin as [Hin|Hin]; [injection Hin as -> ->; auto; done|]).
    by apply not_elem_of_nil in Hin.
  - intros _. unfold ends. simpl. in_list.
  - intros _. unfold ends. simpl. in_list.
Qed.

Definition era_app_net : Net := erased_net (TAG_FAN_APP, 0, 0, 0).

Lemma erasure_propagates_witness :
  exists n', r2_era_fan era_app_net (P 1 Principal) root = Ok n'
    /\ r3_era_rep era_app_net (P 1 Principal) root = Ok n'
    /\ rewritten era_app_net [1] [] [(ERA, P 2 Principal); (ERA, P 3 Principal)] n'.
Proof.
  exact (erasure_propagates era_app_net (P 1 Principal) (slot_of era_app_net 1) root
    ltac:(on_net) ltac:(on_net) ltac:(on_net) ltac:(on_net) ltac:(on_net) ltac:(on_net)
    ltac:(on_net)).
Defined.

(** ** Decay *)

(** Decay.  An unpaired replicator both of whose outputs are erased is
    replaced by an eraser at its input; one with a single surviving output of
    zero delta, paired or not, is replaced by a wire; in every other case the
    net is returned unchanged. *)
Theorem c3_decays (n : Net) (p : PortId) (s : Slot) (lo : LOPath) :
  net_inv n -> current n p -> slot_at n (slot_idx p) = Some s ->
  (forall k, slot_idx (port_raw s k) <> slot_idx p) ->
  (rep_aux0_erased s = true -> real (aux0 s) = false) ->
  (rep_aux1_erased s = true -> real (aux1 s) = false) ->
  exists n', c3_rep_decay n p lo = Ok n' /\
    match rep_aux0_erased s, rep_aux1_erased s with
    | true, true =>
        if rep_is_unpaired s then rewritten n [slot_idx p] [] [(ERA, principal s)] n'
        else n' = n
    | true, false =>
        if delta1 s =? 0 then rewritten n [slot_idx p] [] [(principal s, aux1 s)] n'
        else n' = n
    | false, true =>
        if delta0 s =? 0 then rewritten n [slot_idx p] [] [(principal s, aux0 s)] n'
        else n' = n
    | false, false => n' = n
    end.
Proof.
  intros Hn Hc Hs Hself He0 He1. unfold c3_rep_decay. rule_slot.
  destruct (rep_aux0_erased s), (rep_aux1_erased s); [..|by eauto].
  - destruct (rep_is_unpaired s); [|by eauto].
    apply (erase_input n p s Hn Hc Hs lo (Hself Principal)); auto.
  - destruct (delta1 s =? 0); [|by eauto].
    apply (join_run n p s Hn Hc Hs Principal Aux1 Aux0 lo); auto. by intros []; auto.
  - destruct (delta0 s =? 0); [|by eauto].
    apply (join_run n p s Hn Hc Hs Principal Aux0 Aux1 lo); auto. by intros []; auto.
Qed.

Definition decay_net : Net := merge_net (TAG_REP_IN_UNKNOWN, 1, 0, 0) (TAG_FAN_ABS, 0, 0, 0).

Lemma c3_decays_witness :
  exists n', c3_rep_decay decay_net (P 1 Principal) root = Ok n'
    /\ rewritten decay_net [1] [] [(P 3 Principal, P 2 Principal)] n'.
Proof.
  exact (c3_decays decay_net (P 1 Principal) (slot_of decay_net 1) root
    ltac:(on_net) ltac:(on_net) ltac:(on_net) ltac:(intros []; on_net)
    ltac:(on_net) ltac:(on_net)).
Defined.

(** ** Merge *)

(** The conditions of the merge for one side of [a]: [b] is the replicator
    whose principal port is at the surviving output of [a]. *)
Definition mergeable (a : Slot) (i : nat) (fetch : PortId -> res DnxError Slot)
    (rb : PortId) (b : Slot) : Prop :=
  rep_is_unpaired a = true
  /\ match i with O => rep_aux1_erased a | _ => rep_aux0_erased a end = true
  /\ rb = match i with O => aux0 a | _ => aux1 a end
  /\ real rb = true /\ port_kind rb = Principal /\ fetch rb = Ok b /\ is_rep b = true
  /\ 0 <= data b - data a <= match i with O => delta0 a | _ => delta1 a end.

Lemma c2_side_Some a fetch i m :
  rep_is_unpaired a = true -> i16_range (delta0 a) -> i16_range (delta1 a) ->
  c2_side a fetch i = Ok (Some m) ->
  exists b, mergeable a i fetch (rep_b m) b /\ c2_ext m = principal a
    /\ b_shifted m = set_label (data a) (delta0 b + (data b - data a))
                       (delta1 b + (data b - data a)) b
    /\ i16_range (delta0 (b_shifted m)) /\ i16_range (delta1 (b_shifted m)).
Proof.
  intros Hu Hd0 Hd1. unfold c2_side.
  destruct (match i with O => rep_aux1_erased a | _ => rep_aux0_erased a end) eqn:He; [simpl|done].
  set (rb := match i with O => aux0 a | _ => aux1 a end).
  destruct (is_eraser rb || is_null rb || negb _) eqn:Hr; [done|].
  apply orb_false_iff in Hr as [Hr Hk].
  apply negb_false_iff, bool_decide_eq_true in Hk.
  intros H. inv_ok. destruct (is_rep a0) eqn:Hrep; simpl in *; [|inv_ok; done].
  set (di := match i with O => delta0 a | _ => delta1 a end) in *.
  destruct ((data a0 - data a <? 0) || (di <? data a0 - data a)) eqn:Hg; [inv_ok; done|].
  inv_ok. subst m. simpl.
  assert (i16_range di) as Hdi by (subst di; by destruct i).
  assert (as_i16 (data a0 - data a) = data a0 - data a) as Hs.
  { unfold i16_range in Hdi. pose proof (as_i16_u16 (data a0 - data a)) as Hw.
    unfold as_i16, as_u16, wrap in Hw |- *. rewrite Z.mod_mod in Hw by lia.
    apply Hw. unfold i16_range. lia. }
  rewrite Hs in *. unfold checked_add_i16 in *.
  repeat match goal with
  | H : (if ?c then Some _ else None) = Some _ |- _ =>
      destruct c eqn:?; [injection H as <-|discriminate H]
  end.
  exists a0. split.
  - unfold mergeable. split; [done|]. split; [done|]. split; [done|].
    split; [unfold real; by rewrite Hr|]. split; [done|]. split; [done|]. split; [done|].
    fold di. lia.
  - split; [done|]. split; [done|]. unfold i16_range. lia.
Qed.

(** The merge gate.  When it returns a merge, the replicator is unpaired,
    one output is erased, the other leads to the principal port of a
    replicator whose level exceeds its own by at least 0 and at most that
    output's delta; the neighbour is relabelled with the lower level and its
    deltas raised by the difference, without 16-bit overflow, so that the
    absolute level of each of its outputs is what it was. *)
Theorem c2_gate_spec (a : Slot) (fetch : PortId -> res DnxError Slot) (m : C2Merge) :
  i16_range (delta0 a) -> i16_range (delta1 a) ->
  c2_gate_and_shift a fetch = Ok (Some m) ->
  exists i b, mergeable a i fetch (rep_b m) b /\ c2_ext m = principal a
    /\ data (b_shifted m) = data a
    /\ data (b_shifted m) + delta0 (b_shifted m) = data b + delta0 b
    /\ data (b_shifted m) + delta1 (b_shifted m) = data b + delta1 b
    /\ i16_range (delta0 (b_shifted m)) /\ i16_range (delta1 (b_shifted m))
    /\ (forall k, port_raw (b_shifted m) k = port_raw b k) /\ tag (b_shifted m) = tag b.
Proof.
  intros Hd0 Hd1. unfold c2_gate_and_shift.
  destruct (rep_is_unpaired a) eqn:Hu; [simpl|done].
  assert (forall i, c2_side a fetch i = Ok (Some m) -> exists i b,
    mergeable a i fetch (rep_b m) b /\ c2_ext m = principal a
    /\ data (b_shifted m) = data a
    /\ data (b_shifted m) + delta0 (b_shifted m) = data b + delta0 b
    /\ data (b_shifted m) + delta1 (b_shifted m) = data b + delta1 b
    /\ i16_range (delta0 (b_shifted m)) /\ i16_range (delta1 (b_shifted m))
    /\ (forall k, port_raw (b_shifted m) k = port_raw b k) /\ tag (b_shifted m) = tag b) as Hside.
  { intros i H. destruct (c2_side_Some a fetch i m Hu Hd0 Hd1 H) as (b & Hm & He & Hb & H0 & H1).
    exists i, b. rewrite Hb in *. simpl in *.
    split; [done|]. split; [done|]. split; [done|]. split; [lia|]. split; [lia|].
    split; [done|]. split; [done|]. split; [by intros []|done]. }
  intros H. inv_ok. destruct a0 as [m'|]; [inv_ok; subst m'|by apply (Hside 1%nat)].
  by apply (Hside 0%nat).
Qed.

Definition c2_net : Net :=
  merge_net (TAG_REP_IN_UNPAIRED, 1, 5, 0) (TAG_REP_IN_UNPAIRED, 3, 2, 4).

Lemma c2_gate_spec_witness :
  exists m, c2_gate_and_shift (slot_of c2_net 1) (net_slot c2_net) = Ok (Some m)
    /\ data (b_shifted m) = 1 /\ i16_range (delta0 (b_shifted m)).
Proof.
  assert (i16_range (delta0 (slot_of c2_net 1))) as Hd0 by on_net.
  assert (i16_range (delta1 (slot_of c2_net 1))) as Hd1 by on_net.
  assert (data (slot_of c2_net 1) = 1) as H1 by on_net.
  pose proof (fun m => c2_gate_spec (slot_of c2_net 1) (net_slot c2_net) m Hd0 Hd1) as H.
  destruct (c2_gate_and_shift (slot_of c2_net 1) (net_slot c2_net)) as [[m|]|e| |] eqn:E;
    [|discriminate_on E..].
  destruct (H m eq_refl) as (i & b & _ & _ & Hd & _ & _ & H0 & _).
  exists m. split; [reflexivity|]. split; [rewrite Hd; exact H1|exact H0].
Defined.

(** The three kinds of the ports of an agent to be merged. *)
Lemma merge_kinds a i fetch rb b : mergeable a i fetch rb b ->
  exists ki ko, ki <> Principal /\ ki <> ko
    /\ (forall k, k = ki \/ k = Principal \/ k = ko) /\ rb = port_raw a ki
    /\ ((ko = Aux0 /\ rep_aux0_erased a = true) \/ (ko = Aux1 /\ rep_aux1_erased a = true)).
Proof.
  intros (_ & He & Hrb & _). destruct i.
  - exists Aux0, Aux1. split; [done|]. split; [done|]. split; [by intros []; auto|]. auto.
  - exists Aux1, Aux0. split; [done|]. split; [done|]. split; [by intros []; auto|]. auto.
Qed.

Lemma c2_gate_generation a fetch m b :
  i16_range (delta0 a) -> i16_range (delta1 a) -> c2_gate_and_shift a fetch = Ok (Some m) ->
  fetch (rep_b m) = Ok b -> generation (b_shifted m) = generation b.
Proof.
  intros Hd0 Hd1. unfold c2_gate_and_shift.
  destruct (rep_is_unpaired a) eqn:Hu; [simpl|done]. intros H Hf.
  assert (forall i, c2_side a fetch i = Ok (Some m) -> generation (b_shifted m) = generation b)
    as Hside.
  { intros i Hi. destruct (c2_side_Some a fetch i m Hu Hd0 Hd1 Hi) as (b' & Hm & _ & -> & _).
    destruct Hm as (_ & _ & _ & _ & _ & Hf' & _). rewrite Hf in Hf'. by injection Hf' as ->. }
  inv_ok. destruct a0 as [m'|]; [inv_ok; subst m'|by apply (Hside 1%nat)].
  by apply (Hside 0%nat).
Qed.

(** The merge.  When the gate accepts, the unpaired replicator is retired,
    its neighbour (relabelled by the gate) is wired to what was behind it, and
    nothing else changes. *)
Theorem c2_merges (n : Net) (p : PortId) (a : Slot) (m : C2Merge) (lo : LOPath) :
  net_inv n -> current n p -> slot_at n (slot_idx p) = Some a ->
  i16_range (delta0 a) -> i16_range (delta1 a) ->
  (rep_aux0_erased a = true -> real (aux0 a) = false) ->
  (rep_aux1_erased a = true -> real (aux1 a) = false) ->
  (forall k, slot_idx (port_raw a k) <> slot_idx p) ->
  c2_gate_and_shift a (net_slot n) = Ok (Some m) ->
  exists n', c2_rep_merge n p lo = Ok n'
    /\ rewritten (put n (slot_idx (rep_b m)) (b_shifted m)) [slot_idx p] []
         [(rep_b m, principal a)] n'.
Proof.
  intros Hn Hc Hs Hd0 Hd1 He0 He1 Hself Hg.
  destruct (c2_gate_spec a _ m Hd0 Hd1 Hg)
    as (i & b & Hm & Hext & _ & _ & _ & _ & _ & Hports & _).
  destruct (merge_kinds a i _ (rep_b m) b Hm) as (ki & ko & Hkp & Hne & Hall & Hrb & Hero).
  destruct Hm as (_ & _ & _ & Hr & _ & Hfetch & _).
  pose proof (current_alive n p Hc) as Ha.
  assert (current n (rep_b m)) as Hcb.
  { rewrite Hrb in Hr |- *. by apply (ni_sym n Hn (slot_idx p) ki a Ha Hs). }
  destruct (alive_slot n _ (ni_arena n Hn) (current_alive n _ Hcb)) as [b' Hb'].
  rewrite (net_slot_at n (rep_b m) b' Hb') in Hfetch. injection Hfetch as ->.
  assert (generation (b_shifted m) = generation b) as Hgen
    by (by eapply c2_gate_generation; eauto; apply net_slot_at).
  set (n1 := put n (slot_idx (rep_b m)) (b_shifted m)).
  assert (slot_idx p <> slot_idx (rep_b m)) as Hidx by (rewrite Hrb; auto).
  assert (slot_at n1 (slot_idx p) = Some a) as Hs1.
  { unfold n1. rewrite (slot_at_put n _ _ b _ Hb'). by rewrite bool_decide_false. }
  assert (net_inv n1) as Hn1 by (by apply (relabel_inv n _ b)).
  assert (current n1 p) as Hc1 by (by apply (current_relabel n _ b)).
  destruct (join_run n1 p a Hn1 Hc1 Hs1 ki Principal ko lo) as (n' & Hrun & Hrw); auto.
  { destruct Hero as [[-> Ho]|[-> Ho]]; auto. }
  exists n'. rewrite <- Hrb in Hrw. split; [|exact Hrw].
  unfold c2_rep_merge. rewrite (net_slot_at n p a Hs). simpl. rewrite Hg. simpl.
  rewrite put_ok by (try done; by apply current_in; [apply Hn|]). simpl.
  rewrite <- Hrb in Hrun. rewrite Hext. exact Hrun.
Qed.

Lemma c2_merges_witness :
  exists n', c2_rep_merge c2_net (P 1 Principal) root = Ok n' /\ net_inv n'.
Proof.
  assert (i16_range (delta0 (slot_of c2_net 1))) as Hd0 by on_net.
  assert (i16_range (delta1 (slot_of c2_net 1))) as Hd1 by on_net.
  pose proof (fun m H0 H1 => c2_merges c2_net (P 1 Principal) (slot_of c2_net 1) m root
    ltac:(on_net) ltac:(on_net) ltac:(on_net) Hd0 Hd1 H0 H1 ltac:(intros []; on_net)) as H.
  destruct (c2_gate_and_shift (slot_of c2_net 1) (net_slot c2_net)) as [[m|]|e| |] eqn:E;
    [|discriminate_on E..].
  destruct (H m ltac:(on_net) ltac:(on_net) eq_refl) as (n' & Hn' & Hr).
  exists n'. split; [exact Hn'|exact (rw_inv _ _ _ _ _ Hr)].
Defined.
