(* ===== verification/Sweep.v ===== *)
(** * Mark and sweep ([c1_mark_sweep] of [crates/dnx-core/src/reduce/canon.rs])

    The breadth-first marking from the root ports terminates within one unit
    of fuel per slot and marks exactly the agents reachable from the roots;
    the sweep retires exactly the others and leaves the survivors as they
    were. *)
From S2P Require Import Prelude Bytes Error LOPath Port Arena Net Wiring Examples Rules.

(** ** Specification *)

(** The indices a live agent's ports lead to. *)
Definition neighbours (s : Slot) : list Z :=
  [slot_idx (principal s); slot_idx (aux0 s); slot_idx (aux1 s)].

Definition root_indices (n : Net) : list Z :=
  slot_idx <$> (map_to_list (free_slots n)).*2.

(** Reachability from the roots; index 0 is the sentinel. *)
Inductive reachable (n : Net) : Z -> Prop :=
| reach_root i : i ∈ root_indices n -> i <> 0 -> reachable n i
| reach_step i s j : reachable n i -> slot_at n i = Some s -> j ∈ neighbours s -> j <> 0 ->
    reachable n j.

(** Roots and ports lead to live agents or to the sentinel; no live agent is
    marked. *)
Record sweepable (n : Net) : Prop := mk_sweepable {
  sw_inv : net_inv n;
  sw_roots : forall i, i ∈ root_indices n -> i = 0 \/ alive n i;
  sw_closed : forall i s j, alive n i -> slot_at n i = Some s -> j ∈ neighbours s ->
    j = 0 \/ alive n j;
  sw_tags : forall i s, alive n i -> slot_at n i = Some s ->
    u8_range (tag s) /\ is_c1_marked s = false
}.

Definition mark_slot (s : Slot) : Slot := set_tag (Z.lor (tag s) TAG_C1_MARK) s.
Definition clear_slot (s : Slot) : Slot :=
  set_tag (Z.land (tag s) (as_u8 (Z.lnot TAG_C1_MARK))) s.

(** [a] is [a0] with exactly the agents of [M] marked. *)
Record marks (a0 : Arena) (M : gset Z) (a : Arena) : Prop := mk_marks {
  mk_free : free a = free a0;
  mk_live : live_list a = live_list a0;
  mk_pos : live_pos a = live_pos a0;
  mk_cap : cap a = cap a0;
  mk_slots : forall i, slots a !! i
    = (fun s => if decide (Z.of_nat i ∈ M) then mark_slot s else s) <$> slots a0 !! i
}.

(** * Lemmas *)

Lemma mark_slot_marked s : is_c1_marked (mark_slot s) = true.
Proof.
  unfold is_c1_marked, mark_slot. simpl. rewrite Z.land_lor_distr_l.
  change (Z.land TAG_C1_MARK 32) with 32. apply negb_true_iff, Z.eqb_neq. intros H.
  apply (f_equal (fun z => Z.testbit z 5)) in H.
  rewrite Z.lor_spec, Z.bits_0, orb_comm in H. discriminate H.
Qed.

Lemma clear_mark_slot s : u8_range (tag s) -> is_c1_marked s = false ->
  clear_slot (mark_slot s) = s.
Proof.
  intros Hr Hm. unfold is_c1_marked in Hm. apply negb_false_iff, Z.eqb_eq in Hm.
  unfold clear_slot, mark_slot, set_tag. simpl. destruct s as [t c g p x y d d0 d1 e]; simpl in *.
  f_equal. change (as_u8 (Z.lnot TAG_C1_MARK)) with 223. change TAG_C1_MARK with 32.
  rewrite Z.land_lor_distr_l. change (Z.land 32 223) with 0. rewrite Z.lor_0_r.
  rewrite <- (Z.lor_0_r (Z.land t 223)). rewrite <- Hm, <- Z.land_lor_distr_r.
  change (Z.lor 223 32) with (2 ^ 8 - 1). rewrite land_pow2 by lia.
  apply Z.mod_small. exact Hr.
Qed.

Lemma marks_refl a : marks a ∅ a.
Proof.
  split; try done. intros i. destruct (slots a !! i); simpl; [|done].
  rewrite decide_False by set_solver. done.
Qed.

Lemma filter_mark_other (M : gset Z) i (l : list Z) : i ∉ l ->
  filter (fun j => j ∉ M ∪ {[i]}) l = filter (fun j => j ∉ M) l.
Proof.
  induction l as [|x l IH]; [done|]. intros Hi. apply not_elem_of_cons in Hi as [Hx Hi].
  rewrite !filter_cons, IH by done.
  destruct (decide (x ∈ M)).
  - rewrite !decide_False by set_solver. done.
  - rewrite !decide_True by set_solver. done.
Qed.

Lemma filter_mark (M : gset Z) i (l : list Z) : NoDup l -> i ∈ l -> i ∉ M ->
  length (filter (fun j => j ∉ M) l) = S (length (filter (fun j => j ∉ M ∪ {[i]}) l)).
Proof.
  intros Hnd Hi Hn. induction l as [|x l IH]; [by apply not_elem_of_nil in Hi|].
  apply NoDup_cons in Hnd as [Hx Hnd]. rewrite !filter_cons.
  destruct (decide (x = i)) as [->|Hxi].
  - rewrite decide_True, decide_False by set_solver. simpl.
    by rewrite (filter_mark_other M i l Hx).
  - apply elem_of_cons in Hi as [->|Hi]; [done|].
    destruct (decide (x ∈ M)).
    + rewrite !decide_False by set_solver. rewrite (IH Hnd Hi). done.
    + rewrite !decide_True by set_solver. simpl. by rewrite (IH Hnd Hi).
Qed.

Section Mark.
Context (n : Net) (Hsw : sweepable n).

(** The agents the marking has not met yet. *)
Definition unseen (M : gset Z) : list Z := filter (fun i => i ∉ M) (live_list (arena n)).

(** Invariant of the search: [M] is marked, its members are reachable, and
    each is waiting in the queue, being processed ([busy]) or has all its
    neighbours in [M]. *)
Record search (busy : list Z) (M : gset Z) (a : Arena) (queue : list Z)
    : Prop := mk_search {
  se_marks : marks (arena n) M a;
  se_alive : forall i, i ∈ M -> alive n i;
  se_reach : forall i, i ∈ M -> reachable n i;
  se_queue : forall i, i ∈ queue -> i ∈ M;
  se_done : forall i s j, i ∈ M -> i ∉ queue -> i ∉ busy -> slot_at n i = Some s ->
    j ∈ neighbours s -> j = 0 \/ j ∈ M
}.

Lemma alive_nth i : alive n i -> exists s, slot_at n i = Some s
  /\ slots (arena n) !! Z.to_nat i = Some s /\ 0 < i.
Proof.
  intros Hi. pose proof (live_range _ _ (ni_arena _ (sw_inv _ Hsw)) Hi).
  destruct (alive_slot n i (ni_arena _ (sw_inv _ Hsw)) Hi) as [s Hs].
  exists s. split; [done|]. unfold slot_at in Hs.
  destruct (Z.ltb_spec i 0); [lia|]. split; [done|lia].
Qed.

Lemma marks_slot M a i : marks (arena n) M a -> alive n i ->
  exists s, slot_at n i = Some s
    /\ slot a i = Ok (if decide (i ∈ M) then mark_slot s else s).
Proof.
  intros Hm Hi. destruct (alive_nth i Hi) as (s & Hs & Hl & Hp). exists s. split; [done|].
  unfold slot, index. rewrite (mk_slots _ _ _ Hm), Hl. simpl.
  by rewrite Z2Nat.id by lia.
Qed.

Lemma marked_iff M a i s' : marks (arena n) M a -> alive n i -> slot a i = Ok s' ->
  is_c1_marked s' = true <-> i ∈ M.
Proof.
  intros Hm Hi Hs'. destruct (marks_slot M a i Hm Hi) as (s & Hs & Hsl).
  rewrite Hsl in Hs'. injection Hs' as <-. case_decide.
  - by rewrite mark_slot_marked.
  - destruct (sw_tags n Hsw i s Hi Hs) as [_ ->]. done.
Qed.

Lemma marks_set M a i s : marks (arena n) M a -> alive n i -> slot_at n i = Some s ->
  i ∉ M -> exists a', slot_set a i (mark_slot s) = Ok a' /\ marks (arena n) (M ∪ {[i]}) a'.
Proof.
  intros Hm Hi Hs Hn. destruct (alive_nth i Hi) as (s0 & Hs0 & Hl & Hp).
  rewrite Hs in Hs0. injection Hs0 as <-.
  assert (Z.to_nat i < length (slots a))%nat as Hlt.
  { apply lookup_lt_is_Some. rewrite (mk_slots _ _ _ Hm), Hl. by eexists. }
  unfold slot_set, assign. destruct (Nat.ltb_spec (Z.to_nat i) (length (slots a))); [simpl|lia].
  eexists. split; [reflexivity|]. destruct Hm as [Hf Hll Hlp Hc Hsl]. split; try done.
  simpl. intros k. destruct (decide (k = Z.to_nat i)) as [->|Hne].
  - rewrite list_lookup_insert_eq by done. rewrite Hl. simpl.
    rewrite decide_True; [done|]. rewrite Z2Nat.id by lia. set_solver.
  - rewrite list_lookup_insert_ne, Hsl by done. destruct (slots (arena n) !! k); simpl; [|done].
    assert (Z.of_nat k <> i) by lia. f_equal.
    destruct (decide (Z.of_nat k ∈ M)), (decide (Z.of_nat k ∈ M ∪ {[i]})); try done; set_solver.
Qed.

Lemma unseen_mark M i : alive n i -> i ∉ M ->
  length (unseen M) = S (length (unseen (M ∪ {[i]}))).
Proof.
  intros Hi Hn. pose proof (aw_disjoint _ (ni_arena _ (sw_inv _ Hsw))) as Hnd.
  apply NoDup_app in Hnd as [Hnd _]. by apply filter_mark.
Qed.

(** There are at most as many live agents as slots. *)
Lemma alive_le_slots :
  (length (unseen ∅) <= length (slots (arena n)))%nat.
Proof.
  unfold unseen.
  etransitivity; [apply length_filter|].
  pose proof (ni_arena _ (sw_inv _ Hsw)) as Hw.
  pose proof (aw_disjoint _ Hw) as Hnd. apply NoDup_app in Hnd as [Hnd _].
  rewrite <- (length_seq (length (slots (arena n))) 0), <- (length_fmap Z.of_nat).
  apply submseteq_length, NoDup_submseteq; [done|].
  intros i Hi. pose proof (live_range _ _ Hw Hi). apply list_elem_of_fmap.
  exists (Z.to_nat i). split; [lia|]. apply elem_of_seq. lia.
Qed.

(** What is left to do: the queue and the agents not met. *)
Definition todo (M : gset Z) (queue : list Z) : nat := length queue + length (unseen M).

(** An index the search may meet. *)
Definition goal_index (j : Z) : Prop := j = 0 \/ alive n j /\ reachable n j.

Lemma visit_ok busy M a q j : search busy M a q -> goal_index j ->
  exists M' a' q', visit (a, q) j = Ok (a', q') /\ search busy M' a' q'
    /\ (j = 0 \/ j ∈ M') /\ M ⊆ M' /\ todo M' q' = todo M q.
Proof.
  intros Hs Hj. unfold visit. destruct (Z.eqb_spec j 0) as [->|Hj0].
  { exists M, a, q. split; [done|]. split; [done|]. split; [by left|]. done. }
  destruct Hj as [?|[Ha Hr]]; [done|].
  destruct (marks_slot M a j (se_marks _ _ _ _ Hs) Ha) as (s & Hat & Hsl).
  rewrite Hsl. simpl. destruct (is_c1_marked _) eqn:Hmk.
  - apply (marked_iff M a j _ (se_marks _ _ _ _ Hs) Ha Hsl) in Hmk.
    exists M, a, q. split; [done|]. split; [done|]. split; [by right|]. done.
  - assert (j ∉ M) as Hn.
    { intros Hin. apply (marked_iff M a j _ (se_marks _ _ _ _ Hs) Ha Hsl) in Hin.
      by rewrite Hin in Hmk. }
    unfold mark. rewrite Hsl. simpl. rewrite decide_False by done.
    destruct (marks_set M a j s (se_marks _ _ _ _ Hs) Ha Hat Hn) as (a' & Ha' & Hm').
    change (set_tag (Z.lor (tag s) TAG_C1_MARK) s) with (mark_slot s). rewrite Ha'. simpl.
    exists (M ∪ {[j]}), a', (q ++ [j]). split; [done|]. split.
    { destruct Hs as [_ Hal Hre Hq Hd]. split; [done|..].
      - intros i [Hi|Hi%elem_of_singleton]%elem_of_union; [auto|by subst].
      - intros i [Hi|Hi%elem_of_singleton]%elem_of_union; [auto|by subst].
      - intros i [Hi|Hi%list_elem_of_singleton]%elem_of_app; set_solver.
      - intros i t k Hi Hq' Hb Hst Hk. apply not_elem_of_app in Hq' as [Hq1 Hq2].
        assert (i ∈ M) as HiM by set_solver.
        destruct (Hd i t k HiM Hq1 Hb Hst Hk) as [?|?]; [by left|right; set_solver]. }
    split; [right; set_solver|]. split; [set_solver|].
    unfold todo. rewrite length_app. simpl. pose proof (unseen_mark M j Ha Hn). lia.
Qed.

Lemma visits_ok busy l M a q : search busy M a q -> Forall goal_index l ->
  exists M' a' q', foldM visit l (a, q) = Ok (a', q') /\ search busy M' a' q'
    /\ (forall j, j ∈ l -> j = 0 \/ j ∈ M') /\ M ⊆ M' /\ todo M' q' = todo M q.
Proof.
  revert M a q. induction l as [|j l IH]; intros M a q Hs Hl.
  { exists M, a, q. split; [done|]. split; [done|]. split; [by intros ? ?%not_elem_of_nil|]. done. }
  apply Forall_cons in Hl as [Hj Hl].
  destruct (visit_ok busy M a q j Hs Hj) as (M1 & a1 & q1 & H1 & Hs1 & Hj1 & Hsub1 & Ht1).
  destruct (IH M1 a1 q1 Hs1 Hl) as (M2 & a2 & q2 & H2 & Hs2 & Hj2 & Hsub2 & Ht2).
  exists M2, a2, q2. cbn [foldM]. rewrite H1. cbn [mbind res_bind]. split; [exact H2|].
  split; [done|]. split; [|split; [set_solver|congruence]].
  intros k [->|Hk]%elem_of_cons; [|auto]. destruct Hj1; [by left|right; set_solver].
Qed.

(** The neighbours of a reachable agent are live, hence may be met. *)
Lemma neighbours_goal M a q i s busy : search busy M a q -> i ∈ M -> slot_at n i = Some s ->
  Forall goal_index (neighbours s).
Proof.
  intros Hs Hi Hat. apply Forall_forall. intros j Hj.
  destruct (decide (j = 0)) as [->|Hj0]; [by left|]. right.
  destruct (sw_closed n Hsw i s j (se_alive _ _ _ _ Hs i Hi) Hat Hj) as [?|Ha]; [done|].
  split; [done|]. by apply (reach_step n i s j (se_reach _ _ _ _ Hs i Hi)).
Qed.

(** Marking does not touch the ports. *)
Lemma neighbours_mark s : neighbours (mark_slot s) = neighbours s.
Proof. reflexivity. Qed.

(** One unit of fuel per agent still to do is enough. *)
Lemma mark_loop_ok fuel M a q : search [] M a q -> (todo M q <= fuel)%nat ->
  exists M' a', mark_loop fuel a q = Ok a' /\ search [] M' a' [] /\ M ⊆ M'.
Proof.
  revert M a q. induction fuel as [|fuel IH]; intros M a q Hs Hf.
  - destruct q; [|unfold todo in Hf; simpl in Hf; lia].
    exists M, a. split; [done|]. split; [done|]. done.
  - destruct q as [|i q]; [exists M, a; split; [done|]; split; [done|]; done|].
    assert (i ∈ M) as Hi by (apply (se_queue _ _ _ _ Hs); left).
    destruct (marks_slot M a i (se_marks _ _ _ _ Hs) (se_alive _ _ _ _ Hs i Hi))
      as (s & Hat & Hsl). rewrite decide_True in Hsl by done.
    assert (search [i] M a q) as Hs1.
    { destruct Hs as [Hm Hal Hre Hq Hd]. split; try done.
      - intros k Hk. apply Hq. by right.
      - intros k t j Hk Hkq Hb Hst Hj. apply (Hd k t j Hk); try done.
        + set_solver. + apply not_elem_of_nil. }
    destruct (visits_ok [i] (neighbours s) M a q Hs1 (neighbours_goal _ _ _ _ _ _ Hs1 Hi Hat))
      as (M1 & a1 & q1 & H1 & Hs2 & Hj1 & Hsub & Ht).
    assert (search [] M1 a1 q1) as Hs3.
    { destruct Hs2 as [Hm Hal Hre Hq Hd]. split; try done.
      intros k t j Hk Hkq _ Hst Hj. destruct (decide (k = i)) as [->|Hki].
      - rewrite Hat in Hst. injection Hst as <-. by apply Hj1.
      - apply (Hd k t j Hk Hkq); [set_solver|done|done]. }
    destruct (IH M1 a1 q1 Hs3) as (M2 & a2 & H2 & Hs4 & Hsub2).
    { rewrite Ht. unfold todo in *. simpl in Hf. lia. }
    exists M2, a2. cbn [mark_loop]. rewrite Hsl. cbn [mbind res_bind].
    change [slot_idx (principal (mark_slot s)); slot_idx (aux0 (mark_slot s));
            slot_idx (aux1 (mark_slot s))] with (neighbours s).
    rewrite H1. split; [exact H2|]. split; [done|set_solver].
Qed.

(** The marking phase as a whole. *)
Lemma mark_phase_ok :
  exists M a q a', foldM visit (root_indices n) (arena n, []) = Ok (a, q)
    /\ mark_loop (length (slots a)) a q = Ok a' /\ marks (arena n) M a'
    /\ forall i, i ∈ M <-> reachable n i.
Proof.
  assert (search [] ∅ (arena n) []) as Hs0.
  { split; try set_solver. apply marks_refl. }
  assert (Forall goal_index (root_indices n)) as Hr.
  { apply Forall_forall. intros i Hi. destruct (decide (i = 0)) as [->|Hi0]; [by left|].
    right. destruct (sw_roots n Hsw i Hi) as [?|Ha]; [done|]. split; [done|].
    by constructor. }
  destruct (visits_ok [] (root_indices n) ∅ (arena n) [] Hs0 Hr)
    as (M1 & a1 & q1 & H1 & Hs1 & Hroots & _ & Ht).
  assert (length (slots a1) = length (slots (arena n))) as Hlen.
  { pose proof (se_marks _ _ _ _ Hs1) as Hm. apply Nat.le_antisymm.
    - apply Nat.nlt_ge. intros Hlt. apply lookup_lt_is_Some in Hlt as [s Hl].
      rewrite (mk_slots _ _ _ Hm) in Hl.
      rewrite (lookup_ge_None_2 (slots (arena n))) in Hl by lia. done.
    - apply Nat.nlt_ge. intros Hlt. apply lookup_lt_is_Some in Hlt as [s Hl].
      pose proof (mk_slots _ _ _ Hm (length (slots a1))) as Hx.
      rewrite (lookup_ge_None_2 (slots a1)) in Hx by lia. by rewrite Hl in Hx. }
  destruct (mark_loop_ok (length (slots a1)) M1 a1 q1 Hs1) as (M & a' & H2 & Hs2 & Hsub).
  { rewrite Ht, Hlen. exact alive_le_slots. }
  exists M, a1, q1, a'. split; [done|]. split; [done|]. split; [apply Hs2|].
  intros i. split; [apply (se_reach _ _ _ _ Hs2)|]. induction 1 as [i Hi Hi0|i s j Hi IH Hat Hj Hj0].
  - destruct (Hroots i Hi) as [?|?]; [done|set_solver].
  - destruct (se_done _ _ _ _ Hs2 i s j IH) as [?|?]; try done; apply not_elem_of_nil.
Qed.
End Mark.

(** ** The sweep *)
Section SweepPhase.
Context (n : Net) (Hsw : sweepable n) (M : gset Z).

(** The slots of [n] with the agents of [R] marked. *)
Definition marked_slots (R : gset Z) (a : Arena) : Prop :=
  forall i, slots a !! i
    = (fun s => if decide (Z.of_nat i ∈ R) then mark_slot s else s) <$> slots (arena n) !! i.

Lemma marked_slots_slot R a i : marked_slots R a -> alive n i ->
  exists s, slot_at n i = Some s /\ slot a i = Ok (if decide (i ∈ R) then mark_slot s else s).
Proof.
  intros Hm Hi. destruct (alive_nth n Hsw i Hi) as (s & Hs & Hl & Hp). exists s.
  split; [done|]. unfold slot, index. rewrite (Hm _), Hl. simpl. by rewrite Z2Nat.id by lia.
Qed.

Lemma clear_step R a i s : marked_slots R a -> alive n i -> slot_at n i = Some s ->
  arena_wf a -> exists a', slot_set a i (clear_slot (mark_slot s)) = Ok a'
    /\ arena_wf a' /\ live_list a' = live_list a /\ marked_slots (R ∖ {[i]}) a'.
Proof.
  intros Hm Hi Hs Hw. destruct (alive_nth n Hsw i Hi) as (s0 & Hs0 & Hl & Hp).
  rewrite Hs in Hs0. injection Hs0 as <-.
  assert (Z.to_nat i < length (slots a))%nat as Hlt.
  { apply lookup_lt_is_Some. rewrite (Hm _), Hl. by eexists. }
  destruct (sw_tags n Hsw i s Hi Hs) as [Ht Hc]. rewrite clear_mark_slot by done.
  destruct (slot_set_ok a i s Hw) as (a' & Ha' & Hw' & Hsl & Hll & _); [lia|].
  exists a'. split; [done|]. split; [done|]. split; [done|].
  intros k. rewrite Hsl. destruct (decide (k = Z.to_nat i)) as [->|Hne].
  - rewrite list_lookup_insert_eq, Hl by done. simpl. rewrite decide_False; [done|].
    rewrite Z2Nat.id by lia. set_solver.
  - rewrite list_lookup_insert_ne, (Hm k) by done.
    destruct (slots (arena n) !! k); simpl; [|done]. assert (Z.of_nat k <> i) by lia. f_equal.
    destruct (decide (Z.of_nat k ∈ R)), (decide (Z.of_nat k ∈ R ∖ {[i]})); try done; set_solver.
Qed.

Lemma sweep_one_eq a i s : slot a i = Ok s ->
  sweep_one a i
  = if is_c1_marked s then slot_set a i (clear_slot s) else retire_slot a i.
Proof. intros H. unfold sweep_one. by rewrite H. Qed.

Lemma sweep_ok l keep R a : arena_wf a -> live_list a ≡ₚ keep ++ l ->
  Forall (alive n) l -> marked_slots R a -> (forall i, i ∈ R <-> i ∈ l /\ i ∈ M) ->
  exists a', foldM sweep_one l a = Ok a' /\ arena_wf a'
    /\ live_list a' ≡ₚ keep ++ filter (fun i => i ∈ M) l /\ marked_slots ∅ a'.
Proof.
  revert keep R a. induction l as [|i l IH]; intros keep R a Hw Hl Hal Hm HR.
  { exists a. split; [done|]. split; [done|]. split; [done|].
    assert (R = ∅) as <-; [|done]. apply set_eq. set_solver. }
  apply Forall_cons in Hal as [Hi Hal].
  assert (i ∉ l) as Hil.
  { pose proof (aw_disjoint _ Hw) as Hnd. apply NoDup_app in Hnd as [Hnd _].
    rewrite Hl in Hnd. apply NoDup_app in Hnd as (_ & _ & Hnd). by apply NoDup_cons in Hnd as [? _]. }
  destruct (marked_slots_slot R a i Hm Hi) as (s & Hs & Hsl).
  cbn [foldM]. rewrite (sweep_one_eq a i _ Hsl), filter_cons. destruct (decide (i ∈ M)) as [HiM|HiM].
  - rewrite decide_True by (apply HR; split; [left|done]). rewrite mark_slot_marked.
    destruct (clear_step R a i s Hm Hi Hs Hw) as (a1 & Ha1 & Hw1 & Hl1 & Hm1).
    rewrite Ha1.
    destruct (IH (keep ++ [i]) (R ∖ {[i]}) a1 Hw1) as (a' & H' & Hw' & Hl' & Hm'); try done.
    + by rewrite Hl1, Hl, <- (assoc_L (++)).
    + intros k. rewrite elem_of_difference, HR, elem_of_cons, elem_of_singleton. set_solver.
    + exists a'. split; [exact H'|]. split; [done|]. split; [|done].
      by rewrite Hl', <- (assoc_L (++)).
  - rewrite decide_False by (rewrite HR; tauto).
    destruct (sw_tags n Hsw i s Hi Hs) as [_ ->].
    destruct (retire_slot_ok a i Hw) as (a1 & Ha1 & Hw1 & Hp1 & _ & Hsl1 & _).
    { unfold live. rewrite Hl. set_solver. }
    rewrite Ha1.
    destruct (IH keep R a1 Hw1) as (a' & H' & Hw' & Hl' & Hm'); try done.
    + apply (Permutation_cons_inv (a := i)). rewrite <- Hp1, Hl. by rewrite Permutation_middle.
    + intros k. by rewrite Hsl1.
    + intros k. rewrite HR, elem_of_cons. set_solver.
    + exists a'. done.
Qed.
End SweepPhase.

Lemma pending_cleared f : Z.land (Z.land f (as_u8 (Z.lnot FLAG_PENDING_C1))) FLAG_PENDING_C1 = 0.
Proof. rewrite <- Z.land_assoc. change (Z.land _ FLAG_PENDING_C1) with 0 at 1. apply Z.land_0_r. Qed.

Lemma reach_alive n : sweepable n -> forall i, reachable n i -> alive n i.
Proof.
  intros Hsw. induction 1 as [i Hi Hi0|i s j Hi IH Hat Hj Hj0].
  - by destruct (sw_roots n Hsw i Hi).
  - by destruct (sw_closed n Hsw i s j IH Hat Hj).
Qed.

(** Keeping the reachable agents keeps the wiring. *)
Lemma sweep_inv n n' : sweepable n -> arena_wf (arena n') ->
  (forall i, slot_at n' i = slot_at n i) -> (forall i, alive n' i <-> reachable n i) ->
  net_inv n'.
Proof.
  intros Hsw Hw Hsl Hal. split; [done|]. intros i k s Hi Hs Hr.
  apply Hal in Hi. rewrite Hsl in Hs.
  destruct (ni_sym n (sw_inv _ Hsw) i k s (reach_alive n Hsw i Hi) Hs Hr) as [Hc Hb].
  split; [|unfold port_at in *; by rewrite Hsl].
  destruct Hc as (t & Ha & Ht & Hp). exists t. rewrite Hsl. split; [|done].
  apply Hal, (reach_step n i s); [done|done| |].
  - destruct k; unfold neighbours; simpl; set_solver.
  - by apply (alive_idx n _ (ni_arena _ (sw_inv _ Hsw))).
Qed.

(** * Theorem *)

(** The erasure sweep.  On a net whose roots and wires lead to live
    agents, marking terminates (one unit of fuel per slot suffices) and the
    agents that stay live are exactly those reachable from the roots; every
    slot, in particular every survivor's label and ports, is as before, the
    wiring invariant still holds and the pending flag is cleared. *)
Theorem c1_sweeps (n : Net) : sweepable n ->
  exists n', c1_mark_sweep n = Ok n' /\ net_inv n' /\ net_pending_c1 n' = false
    /\ (forall i, alive n' i <-> reachable n i)
    /\ (forall i, slot_at n' i = slot_at n i)
    /\ frontier1 n' = frontier1 n /\ frontier2 n' = frontier2 n
    /\ free_slots n' = free_slots n.
Proof.
  intros Hsw. pose proof (ni_arena _ (sw_inv _ Hsw)) as Hw.
  destruct (mark_phase_ok n Hsw) as (M & a & q & a1 & H1 & H2 & Hm & HM).
  assert (arena_wf a1) as Hw1.
  { destruct Hm as [Hf Hl Hp Hc Hsl].
    assert (length (slots a1) = length (slots (arena n))) as Hlen.
    { assert (forall i, is_Some (slots a1 !! i) <-> is_Some (slots (arena n) !! i)) as Hs.
      { intros i. rewrite Hsl. by rewrite fmap_is_Some. }
      apply Nat.le_antisymm; apply Nat.nlt_ge; intros Hlt;
        apply lookup_lt_is_Some, Hs, lookup_lt_is_Some in Hlt; lia. }
    destruct Hw. split; rewrite ?Hf, ?Hl, ?Hp, ?Hc, ?Hlen; done. }
  destruct (sweep_ok n Hsw M (live_list a1) [] M a1 Hw1) as (a2 & H3 & Hw2 & Hl2 & Hm2).
  { done. }
  { rewrite (mk_live _ _ _ Hm). apply Forall_forall. done. }
  { exact (mk_slots _ _ _ Hm). }
  { intros i. rewrite (mk_live _ _ _ Hm). split; [|tauto]. intros Hi. split; [|done].
    apply HM in Hi. exact (reach_alive n Hsw i Hi). }
  assert (slots a2 = slots (arena n)) as Hsl2.
  { apply list_eq. intros i. rewrite (Hm2 i). destruct (slots (arena n) !! i); [|done].
    simpl. rewrite decide_False by apply not_elem_of_empty. done. }
  assert (forall i, alive (set_arena a2 n) i <-> reachable n i) as Hal.
  { intros i. unfold alive. simpl. rewrite Hl2, (mk_live _ _ _ Hm). simpl.
    rewrite list_elem_of_filter, HM. split; [tauto|]. intros Hr. split; [done|].
    by apply (reach_alive n Hsw). }
  assert (forall i, slot_at (clear_pending_c1 (set_arena a2 n)) i = slot_at n i) as Hat
    by (intros i; unfold slot_at; simpl; by rewrite Hsl2).
  exists (clear_pending_c1 (set_arena a2 n)). split.
  { unfold c1_mark_sweep. change (slot_idx <$> _) with (root_indices n).
    rewrite H1. cbn [mbind res_bind]. rewrite H2. cbn [mbind res_bind]. by rewrite H3. }
  split; [by apply (sweep_inv n)|].
  split; [unfold net_pending_c1; simpl; by rewrite pending_cleared|].
  done.
Qed.

(** A root wired to an abstraction, and an application nothing leads to. *)
Definition orphan_net : Net :=
  or_else (m ← (r ← alloc_free (net_new DeltaA 16) 0;
                b ← alloc_abs r.2;
                c ← alloc_app b.2;
                n ← connect c.2 r.1 (ag_principal b.1) root;
                Ok (add_root n "r" r.1)); Ok m) (net_new DeltaA 0).

Definition sweep_check (n : Net) : bool :=
  net_check n
  && forallb (fun i => (i =? 0) || bool_decide (i ∈ live_list (arena n))) (root_indices n)
  && forallb (fun i => match slot_at n i with
                       | Some s => forallb (fun j => (j =? 0)
                                     || bool_decide (j ∈ live_list (arena n))) (neighbours s)
                                   && (0 <=? tag s) && (tag s <? 2 ^ 8)
                                   && negb (is_c1_marked s)
                       | None => true
                       end) (live_list (arena n)).

Lemma sweep_check_sound n : sweep_check n = true -> sweepable n.
Proof.
  unfold sweep_check. rewrite !andb_true_iff. intros [[Hn Hr] Hl].
  rewrite forallb_forall in Hr, Hl. split; [by apply net_check_sound|..].
  - intros i Hi%list_elem_of_In. specialize (Hr i Hi).
    apply orb_true_iff in Hr as [H|H]; [left; lia|right]. by apply bool_decide_eq_true in H.
  - intros i s j Hi%list_elem_of_In Hs Hj%list_elem_of_In. specialize (Hl i Hi).
    rewrite Hs, !andb_true_iff in Hl. destruct Hl as [[[Hl _] _] _].
    rewrite forallb_forall in Hl. specialize (Hl j Hj).
    apply orb_true_iff in Hl as [H|H]; [left; lia|right]. by apply bool_decide_eq_true in H.
  - intros i s Hi%list_elem_of_In Hs. specialize (Hl i Hi). rewrite Hs, !andb_true_iff in Hl.
    destruct Hl as [[[_ H0] H1] Hm]. split; [unfold u8_range; lia|].
    by apply negb_true_iff in Hm.
Qed.

Lemma c1_sweeps_witness :
  exists n', c1_mark_sweep orphan_net = Ok n' /\ net_inv n'
    /\ (forall i, alive n' i <-> reachable orphan_net i).
Proof.
  destruct (c1_sweeps orphan_net
    (sweep_check_sound orphan_net ltac:(vm_compute; reflexivity)))
    as (n' & H1 & H2 & _ & H4 & _).
  exists n'. split; [exact H1|]. split; [exact H2|exact H4].
Defined.
