(* ===== verification/Canon.v ===== *)
(** * Canonical serialisation ([crates/dnx-core/src/canonical_hash.rs],
    [funeq.rs])

    A net is serialised from a root by a depth-first traversal that numbers
    the agents in the order they are met, one record per agent, each wire as
    the number of the agent at its other end and the port it enters by.
    Serialised bytes are interned (local identity) or hashed (identity on the
    wire); the hash function is a parameter.  The second half of the file is
    the reader that rebuilds a net from such bytes ([blob.rs]). *)
From S2P Require Import Prelude Bytes Utf8 Text Error LOPath Port Arena Net.

Definition CANON_HASH_V1 : Z := 1.
Definition KIND_FAN_ABS : Z := 1.
Definition KIND_FAN_APP : Z := 2.
Definition KIND_REP_IN : Z := 3.
Definition KIND_FREE_VAR : Z := 4.
Definition KIND_ERASER : Z := 255.
Definition ERASER_IDX : Z := 2 ^ 32 - 1.
Definition ERASER_SEL : Z := 255.

Definition PRIM_UNSUPPORTED : list Z :=
  chars "canonical_hash: PrimVal/PrimFun not yet supported (Phase C)".

(** [SlotView::free_var_id]. *)
Definition free_var_id (s : Slot) : Z := Z.land (data s) 16383.

(** Canonical indices by slot index. *)
Notation IdxMap := (gmap Z Z) (only parsing).

(** The ports of an agent pushed on the work stack; the last one is popped
    first. *)
Definition push_peers (n : Net) (slot_idx gen : Z) (stack : list PortId)
    : res DnxError (list PortId) :=
  q2 ← peer n (port_new slot_idx Aux1 gen);
  q1 ← peer n (port_new slot_idx Aux0 gen);
  q0 ← peer n (port_new slot_idx Principal gen);
  Ok (stack ++ [q2; q1; q0]).

(** One iteration of the loop of [dfs_assign] for the popped port. *)
Definition dfs_visit (n : Net) (port : PortId) (stack : list PortId) (m : IdxMap)
    (order : list PortId) : res DnxError (list PortId * IdxMap * list PortId) :=
  if is_eraser port || is_null port then Ok (stack, m, order)
  else
    let i := slot_idx port in
    if m !! i then Ok (stack, m, order)
    else
      let idx := as_u32 (Z.of_nat (length order)) in
      let m := <[i := idx]> m in
      let order := order ++ [port] in
      s ← net_slot n port;
      if is_free s then Ok (stack, m, order)
      else if is_fan s || is_rep s then
        stack ← push_peers n i (gen_low port) stack;
        Ok (stack, m, order)
      else Ok (stack, m, order).

Fixpoint dfs_assign (fuel : nat) (n : Net) (stack : list PortId) (m : IdxMap)
    (order : list PortId) : res DnxError (IdxMap * list PortId) :=
  match pop stack with
  | None => Ok (m, order)
  | Some (port, stack) =>
      match fuel with
      | O => Fuel
      | S fuel' =>
          '(stack, m, order) ← dfs_visit n port stack m order;
          dfs_assign fuel' n stack m order
      end
  end.

Definition port_sel (k : PortKind) : Z :=
  match k with Principal => 0 | Aux0 => 1 | Aux1 => 2 end.

Definition emit_edge (n : Net) (port : PortId) (m : IdxMap) (buf : list byte)
    : res DnxError (list byte) :=
  q ← peer n port;
  if is_eraser q || is_null q
  then Ok (buf ++ u32_le ERASER_IDX ++ [byte_of_Z ERASER_SEL])
  else
    idx ← ok_or (m !! slot_idx q) ReadbackIncomplete;
    Ok (buf ++ u32_le idx ++ [byte_of_Z (port_sel (port_kind q))]).

Definition emit_record (n : Net) (port : PortId) (m : IdxMap) (buf : list byte)
    : res DnxError (list byte) :=
  if is_eraser port then Ok (buf ++ [byte_of_Z KIND_ERASER])
  else
    s ← net_slot n port;
    let i := slot_idx port in
    let gen := gen_low port in
    if is_free s then
      Ok (buf ++ [byte_of_Z KIND_FREE_VAR] ++ u32_le (free_var_id s))
    else if is_fan s && fan_is_abs s then
      buf ← emit_edge n (port_new i Aux0 gen) m (buf ++ [byte_of_Z KIND_FAN_ABS]);
      emit_edge n (port_new i Aux1 gen) m buf
    else if is_fan s then
      buf ← emit_edge n (port_new i Principal gen) m (buf ++ [byte_of_Z KIND_FAN_APP]);
      emit_edge n (port_new i Aux1 gen) m buf
    else if is_rep s then
      buf ← emit_edge n (port_new i Aux0 gen) m
              (buf ++ [byte_of_Z KIND_REP_IN] ++ u16_le (data s)
                   ++ i16_le (delta0 s) ++ i16_le (delta1 s));
      emit_edge n (port_new i Aux1 gen) m buf
    else Err (PrimError PRIM_UNSUPPORTED).

(** Each agent is numbered once and pushes at most three ports, so this many
    pops suffice ([dfs_total] in [CanonSpec]). *)
Definition dfs_fuel (n : Net) : nat := 3 * length (slots (arena n)) + 1.

Definition serialize (n : Net) (root : PortId) : res DnxError (list byte) :=
  '(m, order) ← dfs_assign (dfs_fuel n) n [root] ∅ [];
  foldM (fun buf port => emit_record n port m buf) order
    ([byte_of_Z CANON_HASH_V1] ++ u32_le (Z.of_nat (length order))).

(** ** Identity *)

Notation Interner := (gmap (list byte) Z) (only parsing).
Definition interner_new : Interner := ∅.

Definition intern_local (t : Interner) (n : CanonicalNet) (root : PortId)
    : res DnxError (Z * Interner) :=
  bytes ← serialize (proper n) root;
  let next := Z.of_nat (size t) in
  match t !! bytes with
  | Some id => Ok (id, t)
  | None => Ok (next, <[bytes := next]> t)
  end.

Section Hash.
Context {H : Type} `{!EqDecision H} (blake3 : list byte -> H).

Definition canonical_hash (n : CanonicalNet) (root : PortId) : res DnxError H :=
  bytes ← serialize (proper n) root;
  Ok (blake3 bytes).

Definition fn_eq (net_a : CanonicalNet) (root_a : PortId) (net_b : CanonicalNet)
    (root_b : PortId) : res DnxError bool :=
  ha ← canonical_hash net_a root_a;
  hb ← canonical_hash net_b root_b;
  Ok (bool_decide (ha = hb)).
End Hash.

(** * The blob codec ([crates/dnx-core/src/blob.rs])

    [to_blob] is the canonical serialisation; [from_blob] parses untrusted
    bytes into records, allocates one agent per record, wires every recorded
    edge with [connect] and certifies the result. *)

Definition FREE_VAR_ID_MAX : Z := 16383.

Definition to_blob (n : CanonicalNet) (root : PortId) : res DnxError (list byte) :=
  serialize (proper n) root.

(** A peer's canonical index and port, or the eraser. *)
Notation Edge := (option (Z * PortKind)).

Record Record_ : Type := mk_record {
  rec_kind : Z;
  rec_level : Z;
  rec_delta0 : Z;
  rec_delta1 : Z;
  rec_var_id : Z;
  rec_edges : list (PortKind * Edge)
}.

(** ** Reader *)

Definition r_u8 (r : cursor) : res DnxError (Z * cursor) :=
  b ← ok_or (cur_bytes r !! cur_pos r) ReadbackIncomplete;
  Ok (byte_to_Z b, advance 1 r).

Definition r_take (k : nat) (r : cursor) : res DnxError (list byte * cursor) :=
  take_n ReadbackIncomplete k r.

Definition r_u32 (r : cursor) : res DnxError (Z * cursor) :=
  '(bs, r) ← r_take 4 r; Ok (le_val bs, r).
Definition r_u16 (r : cursor) : res DnxError (Z * cursor) :=
  '(bs, r) ← r_take 2 r; Ok (le_val bs, r).
Definition r_i16 (r : cursor) : res DnxError (Z * cursor) :=
  '(bs, r) ← r_take 2 r; Ok (as_i16 (le_val bs), r).

Definition port_kind_of (sel : Z) : res DnxError PortKind :=
  if sel =? 0 then Ok Principal
  else if sel =? 1 then Ok Aux0
  else if sel =? 2 then Ok Aux1
  else Err ReadbackIncomplete.

Definition r_edge (r : cursor) : res DnxError (Edge * cursor) :=
  '(idx, r) ← r_u32 r;
  '(sel, r) ← r_u8 r;
  if (idx =? ERASER_IDX) && (sel =? ERASER_SEL) then Ok (None, r)
  else k ← port_kind_of sel; Ok (Some (idx, k), r).

Definition read_record (r : cursor) : res DnxError (Record_ * cursor) :=
  '(kind, r) ← r_u8 r;
  if kind =? KIND_ERASER then Ok (mk_record kind 0 0 0 0 [], r)
  else if kind =? KIND_FREE_VAR then
    '(var_id, r) ← r_u32 r;
    if FREE_VAR_ID_MAX <? var_id then Err ReadbackIncomplete
    else Ok (mk_record kind 0 0 0 var_id [], r)
  else if kind =? KIND_FAN_ABS then
    '(e0, r) ← r_edge r;
    '(e1, r) ← r_edge r;
    Ok (mk_record kind 0 0 0 0 [(Aux0, e0); (Aux1, e1)], r)
  else if kind =? KIND_FAN_APP then
    '(e0, r) ← r_edge r;
    '(e1, r) ← r_edge r;
    Ok (mk_record kind 0 0 0 0 [(Principal, e0); (Aux1, e1)], r)
  else if kind =? KIND_REP_IN then
    '(level, r) ← r_u16 r;
    '(delta0, r) ← r_i16 r;
    '(delta1, r) ← r_i16 r;
    '(e0, r) ← r_edge r;
    '(e1, r) ← r_edge r;
    Ok (mk_record kind level delta0 delta1 0 [(Aux0, e0); (Aux1, e1)], r)
  else Err ReadbackIncomplete.

(** [for _ in 0..n { records.push(read_record(&mut r)?) }]. *)
Fixpoint read_records (n : nat) (r : cursor) (records : list Record_)
    : res DnxError (list Record_ * cursor) :=
  match n with
  | O => Ok (records, r)
  | S n' =>
      '(rec, r) ← read_record r;
      read_records n' r (records ++ [rec])
  end.

(** Pass 0: the record list of a whole blob. *)
Definition parse_blob (bytes : list byte) : res DnxError (list Record_) :=
  '(v, r) ← r_u8 (cur_new bytes);
  if negb (v =? CANON_HASH_V1) then Err ReadbackIncomplete
  else
    '(n, r) ← r_u32 r;
    '(records, r) ← read_records (Z.to_nat n) r [];
    if negb (cur_done r) then Err ReadbackIncomplete
    else match records with [] => Err ReadbackIncomplete | _ => Ok records end.

(** ** Rebuilding the net *)

Definition alloc_record (n : Net) (r : Record_) : res DnxError (PortId * Net) :=
  if rec_kind r =? KIND_ERASER then Ok (ERA, n)
  else if rec_kind r =? KIND_FREE_VAR then alloc_free n (rec_var_id r)
  else if rec_kind r =? KIND_FAN_ABS then
    '(ps, n) ← alloc_abs n; Ok (ag_principal ps, n)
  else if rec_kind r =? KIND_FAN_APP then
    '(ps, n) ← alloc_app n; Ok (ag_principal ps, n)
  else if rec_kind r =? KIND_REP_IN then
    '(ps, n) ← alloc_rep_in n (rec_level r) (rec_delta0 r) (rec_delta1 r);
    Ok (ag_principal ps, n)
  else Err ReadbackIncomplete.

Definition resolve (slots : list PortId) (e : Edge) : res DnxError PortId :=
  match e with
  | None => Ok ERA
  | Some (idx, kind) =>
      base ← ok_or (slots !! Z.to_nat idx) ReadbackIncomplete;
      Ok (port_new (slot_idx base) kind (gen_low base))
  end.

(** Pass 1: one agent per record. *)
Definition alloc_records (n : Net) (records : list Record_)
    : res DnxError (Net * list PortId) :=
  foldM (fun '(n, slots) r => '(p, n) ← alloc_record n r; Ok (n, slots ++ [p]))
    records (n, []).

(** Pass 2 for one record. *)
Definition wire_record (slots : list PortId) (n : Net) (ir : nat * Record_)
    : res DnxError Net :=
  base ← index slots ir.1;
  foldM (fun n le =>
           let src := port_new (slot_idx base) le.1 (gen_low base) in
           dst ← resolve slots le.2;
           connect n src dst LOPath.root) (rec_edges ir.2) n.

Definition deserialize (cls : NetClass) (bytes : list byte)
    : res DnxError (CanonicalNet * PortId) :=
  records ← parse_blob bytes;
  let count := Z.of_nat (length records) in
  let cap := Z.max (Z.min (as_u32 count + 1) (2 ^ 32 - 1)) 2 in
  '(n, slots) ← alloc_records (net_new cls cap) records;
  n ← foldM (wire_record slots) (imap pair records) n;
  root ← index slots 0;
  _ ← certify_canonical n;
  Ok (into_canonical n, root).

Definition from_blob : NetClass -> list byte -> res DnxError (CanonicalNet * PortId) :=
  deserialize.
