(* ===== verification/CanonSpec.v ===== *)
(** * Canonical serialisation and blobs, verified

    The traversal numbers every agent once and terminates; on a well-wired
    net the serialiser never meets an unnumbered peer; its output is exactly
    the encoding of one record per agent, which the blob parser reads back;
    and the bytes do not depend on slot numbers. *)
From S2P Require Import Prelude Bytes Codec Error LOPath Port Arena Net Wiring Examples Canon.

(** ** Records as a format *)

Definition enc_edge (e : Edge) : list byte :=
  match e with
  | None => u32_le ERASER_IDX ++ [byte_of_Z ERASER_SEL]
  | Some (idx, k) => u32_le idx ++ [byte_of_Z (port_sel k)]
  end.

Definition enc_record (r : Record_) : list byte :=
  [byte_of_Z (rec_kind r)]
  ++ (if rec_kind r =? KIND_FREE_VAR then u32_le (rec_var_id r) else [])
  ++ (if rec_kind r =? KIND_REP_IN
      then u16_le (rec_level r) ++ i16_le (rec_delta0 r) ++ i16_le (rec_delta1 r) else [])
  ++ concat (enc_edge <$> (rec_edges r).*2).

Definition enc_blob (rs : list Record_) : list byte :=
  [byte_of_Z CANON_HASH_V1] ++ u32_le (Z.of_nat (length rs)) ++ concat (enc_record <$> rs).

Definition valid_edge (e : Edge) : Prop :=
  match e with None => True | Some (idx, _) => u32_range idx end.

(** The shape a record of each kind has. *)
Inductive valid_record : Record_ -> Prop :=
| valid_eraser : valid_record (mk_record KIND_ERASER 0 0 0 0 [])
| valid_free v : 0 <= v <= FREE_VAR_ID_MAX -> valid_record (mk_record KIND_FREE_VAR 0 0 0 v [])
| valid_abs e0 e1 : valid_edge e0 -> valid_edge e1 ->
    valid_record (mk_record KIND_FAN_ABS 0 0 0 0 [(Aux0, e0); (Aux1, e1)])
| valid_app e0 e1 : valid_edge e0 -> valid_edge e1 ->
    valid_record (mk_record KIND_FAN_APP 0 0 0 0 [(Principal, e0); (Aux1, e1)])
| valid_rep l d0 d1 e0 e1 : u16_range l -> i16_range d0 -> i16_range d1 ->
    valid_edge e0 -> valid_edge e1 ->
    valid_record (mk_record KIND_REP_IN l d0 d1 0 [(Aux0, e0); (Aux1, e1)]).

(** * Lemmas *)

(** ** Primitive reads *)

Lemma r_u8_rest r b t : cur_wf r -> rest r = b :: t -> r_u8 r = Ok (byte_to_Z b, advance 1 r).
Proof.
  intros Hw Hr. unfold r_u8.
  assert (cur_bytes r !! cur_pos r = Some b) as ->; [|done].
  rewrite <- (Nat.add_0_r (cur_pos r)), <- lookup_drop. fold (rest r). by rewrite Hr.
Qed.

#[export] Instance r_u8_complete : CodecComplete u8_range (fun z => [byte_of_Z z]) r_u8.
Proof.
  intros z r t Hw Hz Hr. rewrite (r_u8_rest r _ t Hw Hr), byte_to_of_Z.
  unfold as_u8. by rewrite wrap_small.
Qed.

#[export] Instance r_u8_sound : CodecSound u8_range (fun z => [byte_of_Z z]) r_u8.
Proof.
  intros z r r' Hw H. unfold r_u8 in H. inv_ok. subst z r'. rewrite byte_of_to_Z.
  split; [apply byte_to_Z_range|]. split; [|done]. rewrite rest_advance.
  destruct (rest r) as [|b l] eqn:Hr.
  - apply lookup_lt_Some in H0. apply (f_equal length) in Hr.
    pose proof (rest_length r Hw). simpl in Hr. lia.
  - rewrite <- (Nat.add_0_r (cur_pos r)), <- lookup_drop in H0. fold (rest r) in H0.
    rewrite Hr in H0. injection H0 as ->. done.
Qed.

#[export] Instance r_u32_complete : CodecComplete u32_range u32_le r_u32.
Proof. apply (le_complete ReadbackIncomplete 4 u32_range id id). intros z. apply Z.mod_small. Qed.
#[export] Instance r_u32_sound : CodecSound u32_range u32_le r_u32.
Proof. apply (le_sound ReadbackIncomplete 4 u32_range id id). done. Qed.
#[export] Instance r_u16_complete : CodecComplete u16_range u16_le r_u16.
Proof. apply (le_complete ReadbackIncomplete 2 u16_range id id). intros z. apply Z.mod_small. Qed.
#[export] Instance r_u16_sound : CodecSound u16_range u16_le r_u16.
Proof. apply (le_sound ReadbackIncomplete 2 u16_range id id). done. Qed.
#[export] Instance r_i16_complete : CodecComplete i16_range i16_le r_i16.
Proof.
  apply (le_complete ReadbackIncomplete 2 i16_range as_i16 as_u16). intros z Hz.
  rewrite <- (as_i16_u16 z Hz) at 2. f_equal. apply Z.mod_small.
  unfold as_u16. pose proof (wrap_range 16 z). lia.
Qed.
#[export] Instance r_i16_sound : CodecSound i16_range i16_le r_i16.
Proof.
  apply (le_sound ReadbackIncomplete 2 i16_range as_i16 as_u16). intros z Hz.
  split; [apply as_i16_range|by apply as_u16_i16].
Qed.

Lemma port_kind_of_sel k : port_kind_of (port_sel k) = Ok k.
Proof. by destruct k. Qed.

Lemma port_kind_of_Ok sel k : port_kind_of sel = Ok k -> sel = port_sel k.
Proof.
  unfold port_kind_of. intros H.
  destruct (Z.eqb_spec sel 0), (Z.eqb_spec sel 1), (Z.eqb_spec sel 2); simplify_eq; done.
Qed.

#[export] Instance r_edge_complete : CodecComplete valid_edge enc_edge r_edge.
Proof.
  intros e r t Hw Hv Hr. unfold r_edge.
  assert (exists i s, enc_edge e = u32_le i ++ [byte_of_Z s] /\ u32_range i /\ u8_range s
    /\ (if (i =? ERASER_IDX) && (s =? ERASER_SEL) then Ok (None, r)
        else k ← port_kind_of s; Ok (Some (i, k), r)) = Ok (E:=DnxError) (e, r))
    as (i & s & He & Hi & Hs & Hk).
  { destruct e as [[i k]|]; simpl in Hv.
    - exists i, (port_sel k). split; [done|]. split; [done|].
      split; [destruct k; unfold u8_range; simpl; lia|].
      assert ((port_sel k =? ERASER_SEL) = false) as -> by (by destruct k).
      by rewrite andb_false_r, port_kind_of_sel.
    - exists ERASER_IDX, ERASER_SEL. split; [done|].
      split; [unfold u32_range, ERASER_IDX; lia|]. split; [unfold u8_range, ERASER_SEL; lia|done]. }
  rewrite He in Hr |- *. rewrite <- (assoc_L (++)) in Hr.
  rewrite (dec_enc i r _ Hw Hi Hr). cbn [mbind res_bind].
  pose proof (cur_wf_advance _ _ _ Hw Hr) as Hw1. pose proof (rest_advance_app _ _ _ Hr) as Hr1.
  rewrite (dec_enc s _ _ Hw1 Hs Hr1). cbn [mbind res_bind].
  rewrite length_app, <- advance_advance. simpl length.
  destruct (_ && _); [by simplify_eq|]. destruct (port_kind_of s); simpl in *; by simplify_eq.
Qed.

#[export] Instance r_edge_sound : CodecSound valid_edge enc_edge r_edge.
Proof.
  intros e r r' Hw H. unfold r_edge in H. inv_ok. destruct a as [i r1]. inv_ok.
  destruct a as [s r2].
  destruct (enc_dec _ _ _ Hw H0) as (Hi & Hr1 & ->).
  pose proof (cur_wf_advance _ _ _ Hw Hr1) as Hw1.
  destruct (enc_dec _ _ _ Hw1 H) as (Hs & Hr2 & ->).
  rewrite Hr1, Hr2, advance_advance, (assoc_L (++)).
  destruct (_ && _) eqn:Hx.
  - injection H2 as <- <-. apply andb_true_iff in Hx as [->%Z.eqb_eq ->%Z.eqb_eq].
    cbn [enc_edge]. rewrite length_app. by rewrite ?advance_advance.
  - inv_ok. subst e r'. apply port_kind_of_Ok in H1 as ->.
    cbn [enc_edge]. rewrite length_app. by rewrite ?advance_advance.
Qed.

(** ** Records *)

(** The encoding of two consecutive edges. *)
Lemma enc_edges2 (ka kb : PortKind) (e0 e1 : Edge) :
  concat (enc_edge <$> [(ka, e0); (kb, e1)].*2) = enc_edge e0 ++ enc_edge e1.
Proof. simpl. by rewrite app_nil_r. Qed.

#[export] Instance read_record_complete : CodecComplete valid_record enc_record read_record.
Proof.
  intros rec r t Hw Hv Hr. unfold read_record.
  assert (u8_range (rec_kind rec)) as Hk by (destruct Hv; unfold u8_range; simpl; vm_compute; done).
  unfold enc_record in Hr |- *. read_next (rec_kind rec) Hk Hw Hr.
  destruct Hv as [|v Hv|e0 e1 H0 H1|e0 e1 H0 H1|l d0 d1 e0 e1 Hl Hd0 Hd1 H0 H1];
    cbn [rec_kind rec_edges rec_var_id rec_level rec_delta0 rec_delta1] in Hr |- *;
    rewrite ?enc_edges2 in Hr |- *;
    unfold KIND_ERASER, KIND_FREE_VAR, KIND_FAN_ABS, KIND_FAN_APP, KIND_REP_IN in *;
    kind_tests; cbn [app] in Hr |- *.
  - done.
  - assert (u32_range v) as Hv32 by (unfold u32_range, FREE_VAR_ID_MAX in *; lia).
    read_next v Hv32 Hw Hr.
    assert ((FREE_VAR_ID_MAX <? v) = false) as -> by lia.
    by rewrite ?advance_advance.
  - read_next e0 H0 Hw Hr. read_next e1 H1 Hw Hr.
    rewrite ?advance_advance. cbn [length]. by rewrite ?length_app.
  - read_next e0 H0 Hw Hr. read_next e1 H1 Hw Hr.
    rewrite ?advance_advance. cbn [length]. by rewrite ?length_app.
  - read_next l Hl Hw Hr. read_next d0 Hd0 Hw Hr. read_next d1 Hd1 Hw Hr.
    read_next e0 H0 Hw Hr. read_next e1 H1 Hw Hr.
    rewrite ?advance_advance. cbn [length]. rewrite ?length_app.
    by do 3 f_equal.
Qed.

Lemma two_edges_sound (K : Edge -> Edge -> Record_) r rec r' : cur_wf r ->
  ('(e0, r1) ← r_edge r; '(e1, r2) ← r_edge r1; Ok (K e0 e1, r2)) = Ok (E:=DnxError) (rec, r') ->
  exists e0 e1, valid_edge e0 /\ valid_edge e1 /\ rec = K e0 e1
    /\ rest r = (enc_edge e0 ++ enc_edge e1) ++ rest r'
    /\ r' = advance (length (enc_edge e0 ++ enc_edge e1)) r.
Proof.
  intros Hw H. inv_ok. destruct a as [e0 r1]. inv_ok. destruct a as [e1 r2].
  destruct (enc_dec _ _ _ Hw H0) as (He0 & Hr1 & ->).
  pose proof (cur_wf_advance _ _ _ Hw Hr1) as Hw1.
  destruct (enc_dec _ _ _ Hw1 H) as (He1 & Hr2 & ->).
  inv_ok. subst rec r'. exists e0, e1. split; [done|]. split; [done|]. split; [done|].
  by rewrite Hr1, Hr2, advance_advance, length_app, (assoc_L (++)).
Qed.

(** The bytes of a record from the bytes of its parts. *)
Ltac record_bytes :=
  unfold enc_record; cbn [rec_kind rec_edges rec_var_id rec_level rec_delta0 rec_delta1];
  rewrite ?enc_edges2; unfold KIND_ERASER, KIND_FREE_VAR, KIND_FAN_ABS, KIND_FAN_APP,
    KIND_REP_IN; kind_tests; cbn [app concat fmap list_fmap]; rewrite ?app_nil_r.

#[export] Instance read_record_sound : CodecSound valid_record enc_record read_record.
Proof.
  intros rec r r' Hw H. unfold read_record in H. inv_ok. destruct a as [kind r1].
  destruct (enc_dec _ _ _ Hw H0) as (Hk & Hr1 & ->).
  pose proof (cur_wf_advance _ _ _ Hw Hr1) as Hw1. rewrite Hr1.
  destruct (kind =? KIND_ERASER) eqn:E; [apply Z.eqb_eq in E as ->|clear E].
  { injection H1 as <- <-. split; [constructor|]. done. }
  destruct (kind =? KIND_FREE_VAR) eqn:E; [apply Z.eqb_eq in E as ->|clear E].
  { inv_ok. destruct a as [v r2]. destruct (enc_dec _ _ _ Hw1 H) as (Hv & Hr2 & ->).
    destruct (Z.ltb_spec FREE_VAR_ID_MAX v); [done|]. injection H2 as <- <-.
    split; [constructor; unfold u32_range in Hv; lia|].
    rewrite Hr2, ?advance_advance. record_bytes. done. }
  destruct (kind =? KIND_FAN_ABS) eqn:E; [apply Z.eqb_eq in E as ->|clear E].
  { apply two_edges_sound in H1 as (e0 & e1 & H2 & H3 & -> & Hr2 & ->); [|done].
    split; [by constructor|]. rewrite Hr2, ?advance_advance. record_bytes. done. }
  destruct (kind =? KIND_FAN_APP) eqn:E; [apply Z.eqb_eq in E as ->|clear E].
  { apply two_edges_sound in H1 as (e0 & e1 & H2 & H3 & -> & Hr2 & ->); [|done].
    split; [by constructor|]. rewrite Hr2, ?advance_advance. record_bytes. done. }
  destruct (kind =? KIND_REP_IN) eqn:E; [apply Z.eqb_eq in E as ->|done].
  inv_ok. destruct a as [l r2]. destruct (enc_dec _ _ _ Hw1 H) as (Hl & Hr2 & ->).
  pose proof (cur_wf_advance _ _ _ Hw1 Hr2) as Hw2. inv_ok. destruct a as [d0 r3].
  destruct (enc_dec _ _ _ Hw2 H1) as (Hd0 & Hr3 & ->).
  pose proof (cur_wf_advance _ _ _ Hw2 Hr3) as Hw3. inv_ok. destruct a as [d1 r4].
  match goal with H : r_i16 _ = Ok (d1, r4) |- _ =>
    destruct (enc_dec _ _ _ Hw3 H) as (Hd1 & Hr4 & ->) end.
  pose proof (cur_wf_advance _ _ _ Hw3 Hr4) as Hw4.
  match goal with H : _ = Ok (rec, r') |- _ =>
    apply two_edges_sound in H as (e0 & e1 & ? & ? & -> & Hr5 & ->); [|done] end.
  split; [by constructor|]. rewrite Hr2, Hr3, Hr4, Hr5, ?advance_advance. record_bytes.
  by rewrite <- ?(assoc_L (++)).
Qed.

(** ** Whole blobs *)

Lemma read_records_complete rs r acc t : cur_wf r -> Forall valid_record rs ->
  rest r = concat (enc_record <$> rs) ++ t ->
  read_records (length rs) r acc
  = Ok (acc ++ rs, advance (length (concat (enc_record <$> rs))) r).
Proof.
  revert r acc. induction rs as [|x rs IH]; intros r acc Hw Hv Hr.
  - cbn. by rewrite app_nil_r, advance_0.
  - apply Forall_cons in Hv as [Hx Hv]. cbn [read_records length fmap list_fmap concat] in *.
    read_next x Hx Hw Hr. rewrite (IH _ _ Hw Hv Hr), length_app, advance_advance.
    by rewrite <- (assoc_L (++)).
Qed.

Lemma read_records_sound n r acc out r' : cur_wf r ->
  read_records n r acc = Ok (out, r') ->
  exists rs, out = acc ++ rs /\ length rs = n /\ Forall valid_record rs
    /\ rest r = concat (enc_record <$> rs) ++ rest r' /\ cur_wf r'.
Proof.
  revert r acc. induction n as [|n IH]; intros r acc Hw H; cbn [read_records] in H.
  - injection H as <- <-. exists []. by rewrite app_nil_r.
  - inv_ok. destruct a as [x r1]. destruct (enc_dec _ _ _ Hw H0) as (Hx & Hr1 & ->).
    pose proof (cur_wf_advance _ _ _ Hw Hr1) as Hw1.
    destruct (IH _ _ Hw1 H1) as (rs & -> & Hl & Hv & Hr & Hw').
    exists (x :: rs). rewrite <- (assoc_L (++)). split; [done|]. split; [simpl; by f_equal|].
    split; [by constructor|]. split; [|done]. rewrite Hr1, Hr. cbn. by rewrite (assoc_L (++)).
Qed.

Lemma enc_record_nonempty r : (1 <= length (enc_record r))%nat.
Proof. unfold enc_record. rewrite length_app. simpl. lia. Qed.

Lemma concat_enc_length rs : (length rs <= length (concat (enc_record <$> rs)))%nat.
Proof.
  induction rs as [|r rs IH]; cbn; [lia|]. rewrite length_app.
  pose proof (enc_record_nonempty r). lia.
Qed.

(** What a parsable blob is. *)
Definition valid_blob (rs : list Record_) : Prop :=
  rs <> [] /\ u32_range (Z.of_nat (length rs)) /\ Forall valid_record rs.

Lemma parse_blob_complete rs : valid_blob rs -> parse_blob (enc_blob rs) = Ok rs.
Proof.
  intros (Hne & Hn & Hv). unfold parse_blob, enc_blob.
  set (r0 := cur_new _). pose proof (cur_wf_new (enc_blob rs)) as Hw. fold (enc_blob rs) in r0.
  change (cur_wf r0) in Hw.
  assert (rest r0 = [byte_of_Z CANON_HASH_V1] ++ u32_le (Z.of_nat (length rs))
            ++ concat (enc_record <$> rs) ++ []) as Hr
    by (unfold r0; rewrite rest_new, app_nil_r; done).
  assert (u8_range CANON_HASH_V1) as Hv1 by (unfold u8_range, CANON_HASH_V1; lia).
  read_next CANON_HASH_V1 Hv1 Hw Hr. rewrite Z.eqb_refl. cbn [negb].
  read_next (Z.of_nat (length rs)) Hn Hw Hr. rewrite Nat2Z.id.
  rewrite (read_records_complete rs _ [] [] Hw Hv Hr). cbn [mbind res_bind].
  pose proof (cur_wf_advance _ _ _ Hw Hr) as Hw'. pose proof (rest_advance_app _ _ _ Hr) as Hr'.
  rewrite (proj2 (cur_done_rest _ Hw') Hr'). cbn [negb app]. by destruct rs.
Qed.

Lemma parse_blob_sound bs rs : parse_blob bs = Ok rs -> valid_blob rs /\ bs = enc_blob rs.
Proof.
  unfold parse_blob. intros H. apply bind_Ok in H as ([v r1] & H0 & H1).
  destruct (enc_dec _ _ _ (cur_wf_new bs) H0) as (_ & Hr1 & ->). rewrite rest_new in Hr1.
  pose proof (cur_wf_advance _ _ _ (cur_wf_new bs) Hr1) as Hw1.
  destruct (v =? CANON_HASH_V1) eqn:E0; [apply Z.eqb_eq in E0 as ->|done]. cbn [negb] in H1.
  apply bind_Ok in H1 as ([n r2] & H1 & H2).
  destruct (enc_dec _ _ _ Hw1 H1) as (Hn & Hr2 & ->).
  pose proof (cur_wf_advance _ _ _ Hw1 Hr2) as Hw2.
  apply bind_Ok in H2 as ([out r3] & H2 & H3).
  destruct (read_records_sound _ _ _ _ _ Hw2 H2) as (l & -> & Hl & Hv & Hr3 & Hw3).
  destruct (cur_done r3) eqn:Hd; [|done]. apply (cur_done_rest r3 Hw3) in Hd.
  cbn [negb app] in H3. rewrite Hd, app_nil_r in Hr3.
  assert (n = Z.of_nat (length l)) as -> by (unfold u32_range in Hn; lia).
  destruct l as [|x l0] eqn:E; [done|]. rewrite <- E in *. injection H3 as <-.
  split; [split; [by rewrite E|done]|]. rewrite Hr1, Hr2, Hr3. done.
Qed.

(** ** The traversal *)

(** Agents whose ports the traversal follows. *)
Definition expands (s : Slot) : bool := negb (is_free s) && (is_fan s || is_rep s).

(** The agents reached from index [i0] through the ports of agents that are
    expanded. *)
Inductive reach (n : Net) (i0 : Z) : Z -> Prop :=
| reach_root : reach n i0 i0
| reach_step i s k : reach n i0 i -> slot_at n i = Some s -> expands s = true ->
    real (port_raw s k) = true -> reach n i0 (slot_idx (port_raw s k)).

Section Traversal.
Context (n : Net) (Hn : net_inv n) (i0 : Z).

(** A port the traversal may pop: virtual, or a current port of an agent
    reached from the root. *)
Definition entry (p : PortId) : Prop :=
  real p = true -> current n p /\ reach n i0 (slot_idx p).

Lemma gen_low_current p s : current n p -> slot_at n (slot_idx p) = Some s ->
  gen_low p = Z.land (generation s) 1.
Proof.
  intros (s' & Ha & Hs & Hp) Hs'. rewrite Hs in Hs'. injection Hs' as ->.
  destruct (alive_idx n _ (ni_arena n Hn) Ha) as [Hr _].
  rewrite Hp. unfold port_of. apply gen_low_new; [done|apply land_1_bit].
Qed.

(** Following a port of a live agent. *)
Lemma peer_current p s k : current n p -> slot_at n (slot_idx p) = Some s ->
  peer n (port_new (slot_idx p) k (gen_low p)) = Ok (port_raw s k).
Proof.
  intros Hc Hs. rewrite (gen_low_current p s Hc Hs).
  pose proof (current_alive n p Hc) as Ha.
  destruct (alive_idx n _ (ni_arena n Hn) Ha) as [Hr Hz].
  fold (port_of (slot_idx p) k s). pose proof (real_port_of (slot_idx p) k s Hr Hz) as Hreal.
  unfold peer. apply real_true in Hreal as [-> ->]. simpl.
  rewrite (net_slot_at n (port_of (slot_idx p) k s) s) by (by rewrite idx_port_of).
  simpl. by rewrite kind_port_of.
Qed.

Lemma entry_port_raw p s k : current n p -> reach n i0 (slot_idx p) ->
  slot_at n (slot_idx p) = Some s -> expands s = true -> entry (port_raw s k).
Proof.
  intros Hc Hi Hs Hx Hr. split; [|by eapply reach_step].
  by apply (ni_sym n Hn (slot_idx p) k s (current_alive n p Hc) Hs).
Qed.

(** Invariant: agents are numbered once, in order, and every port of a
    numbered agent that is expanded leads to a numbered agent or is still on
    the stack. *)
Record dfs_inv (stack : list PortId) (m : IdxMap) (order : list PortId) : Prop := mk_dfs_inv {
  di_stack : Forall entry stack;
  di_order : forall p, p ∈ order -> real p = true /\ current n p /\ reach n i0 (slot_idx p);
  di_once : NoDup (slot_idx <$> order);
  di_map : forall i idx, m !! i = Some idx <->
    exists j p, order !! j = Some p /\ slot_idx p = i /\ idx = Z.of_nat j;
  di_closed : forall p s k, p ∈ order -> slot_at n (slot_idx p) = Some s -> expands s = true ->
    real (port_raw s k) = true ->
    is_Some (m !! slot_idx (port_raw s k)) \/ port_raw s k ∈ stack
}.

(** Agents not numbered yet, three pops each, and the stack. *)
Definition dfs_measure (stack order : list PortId) : nat :=
  length stack + 3 * (agent_count n - length order).

Lemma order_bound order : (forall p, p ∈ order -> current n p) ->
  NoDup (slot_idx <$> order) -> (length order <= agent_count n)%nat.
Proof.
  intros Hc Hnd. rewrite <- (length_fmap slot_idx order). unfold agent_count.
  apply submseteq_length, NoDup_submseteq; [done|].
  intros i Hi. apply list_elem_of_fmap in Hi as (p & -> & Hp). by apply current_alive, Hc.
Qed.

Lemma agent_count_slots : (agent_count n <= length (slots (arena n)))%nat.
Proof.
  pose proof (ni_arena n Hn) as Hw.
  pose proof (aw_disjoint _ Hw) as Hnd. apply NoDup_app in Hnd as [Hnd _].
  unfold agent_count. rewrite <- (length_seq (length (slots (arena n))) 0),
    <- (length_fmap Z.of_nat). apply submseteq_length, NoDup_submseteq; [done|].
  intros i Hi. pose proof (live_range _ _ Hw Hi). apply list_elem_of_fmap.
  exists (Z.to_nat i). split; [lia|]. apply elem_of_seq. lia.
Qed.

Lemma agent_count_u32 : Z.of_nat (agent_count n) < 2 ^ 32.
Proof.
  pose proof (slots_max _ (ni_arena n Hn)). pose proof agent_count_slots. lia.
Qed.

(** Numbering one more agent. *)
Lemma number_agent stack m order p : dfs_inv stack m order -> current n p -> real p = true ->
  m !! slot_idx p = None ->
  let m' := <[slot_idx p := Z.of_nat (length order)]> m in
  NoDup (slot_idx <$> order ++ [p])
  /\ (forall i idx, m' !! i = Some idx <->
        exists j q, (order ++ [p]) !! j = Some q /\ slot_idx q = i /\ idx = Z.of_nat j)
  /\ (length order < agent_count n)%nat.
Proof.
  intros [Hst Ho Hnd Hm Hcl] Hc Hr Hnone m'.
  assert (slot_idx p ∉ slot_idx <$> order) as Hfresh.
  { intros Hin. apply list_elem_of_fmap in Hin as (q & Hq & Hin).
    apply list_elem_of_lookup in Hin as [j Hj].
    assert (m !! slot_idx p = Some (Z.of_nat j)) by (apply Hm; eauto). congruence. }
  assert (NoDup (slot_idx <$> order ++ [p])) as Hnd'.
  { rewrite fmap_app. apply NoDup_app. split; [done|]. split; [|apply NoDup_singleton].
    intros i Hi Hip%list_elem_of_singleton. by subst. }
  split; [done|]. split.
  - intros i idx. unfold m'. rewrite lookup_insert. case_decide as Hi.
    + subst i. split.
      * intros [= <-]. exists (length order), p.
        by rewrite lookup_app_r, Nat.sub_diag by lia.
      * intros (j & q & Hj & Hq & ->). f_equal. f_equal.
        apply (NoDup_lookup _ (length order) j (slot_idx p) Hnd').
        -- rewrite list_lookup_fmap, lookup_app_r, Nat.sub_diag by lia. done.
        -- rewrite list_lookup_fmap, Hj. simpl. by rewrite Hq.
    + rewrite Hm. split.
      * intros (j & q & Hj & Hq & ->). exists j, q. split; [|done].
        rewrite lookup_app_l; [done|by eapply lookup_lt_Some].
      * intros (j & q & Hj & Hq & ->). exists j, q. split; [|done].
        apply lookup_app_Some in Hj as [Hj|[_ Hj]]; [done|].
        apply list_lookup_singleton_Some in Hj as [_ ->]. done.
  - assert (length (order ++ [p]) <= agent_count n)%nat as Hb.
    { apply order_bound; [|done]. intros q [Hq|Hq%list_elem_of_singleton]%elem_of_app.
      - by apply Ho. - by subst. }
    rewrite length_app in Hb. simpl in Hb. lia.
Qed.

Lemma push_peers_ok p s stack : current n p -> slot_at n (slot_idx p) = Some s ->
  push_peers n (slot_idx p) (gen_low p) stack
  = Ok (stack ++ [aux1 s; aux0 s; principal s]).
Proof.
  intros Hc Hs. unfold push_peers.
  rewrite (peer_current p s Aux1 Hc Hs). cbn [mbind res_bind].
  rewrite (peer_current p s Aux0 Hc Hs). cbn [mbind res_bind].
  by rewrite (peer_current p s Principal Hc Hs).
Qed.

(** One iteration: it succeeds, keeps the invariant and decreases the
    measure. *)
Lemma dfs_visit_ok p stack m order : dfs_inv (stack ++ [p]) m order ->
  exists stack' m' order', dfs_visit n p stack m order = Ok (stack', m', order')
    /\ dfs_inv stack' m' order' /\ stack `prefix_of` stack'
    /\ (order' = order \/ order' = order ++ [p])
    /\ (real p = true -> is_Some (m' !! slot_idx p))
    /\ (dfs_measure stack' order' < dfs_measure (stack ++ [p]) order)%nat.
Proof.
  intros Hinv. pose proof Hinv as [Hst Ho Hnd Hm Hcl].
  apply Forall_app in Hst as [Hst Hp]. rewrite Forall_singleton in Hp.
  assert (forall s', dfs_measure (s' ++ [p]) order = S (dfs_measure s' order)) as Hms
    by (intros; unfold dfs_measure; rewrite length_app; simpl; lia).
  unfold dfs_visit. destruct (is_eraser p || is_null p) eqn:Hvirt.
  { exists stack, m, order. split; [done|].
    assert (real p = false) as Hr by (unfold real; by rewrite Hvirt).
    split; [|split; [done|split; [by left|split; [by rewrite Hr|rewrite Hms; lia]]]].
    split; try done. intros q s k Hq Hs He Hqr. destruct (Hcl q s k Hq Hs He Hqr) as [?|Hin];
      [by left|right]. apply elem_of_app in Hin as [Hin|Hin%list_elem_of_singleton]; [done|].
    congruence. }
  assert (real p = true) as Hr by (unfold real; by rewrite Hvirt). destruct (Hp Hr) as [Hp' Hreach]. clear Hp. rename Hp' into Hp.
  destruct (m !! slot_idx p) as [idx|] eqn:Hmp.
  { exists stack, m, order. split; [done|].
    split; [|split; [done|split; [by left|split; [by rewrite Hmp|rewrite Hms; lia]]]].
    split; try done. intros q s k Hq Hs He Hqr. destruct (Hcl q s k Hq Hs He Hqr) as [?|Hin];
      [by left|]. apply elem_of_app in Hin as [Hin|Hin%list_elem_of_singleton]; [by right|].
    left. rewrite Hin, Hmp. by eexists. }
  destruct (number_agent _ m order p Hinv Hp Hr Hmp) as (Hnd' & Hm' & Hlt).
  assert (as_u32 (Z.of_nat (length order)) = Z.of_nat (length order)) as Hidx.
  { apply as_u32_small. pose proof agent_count_u32. unfold u32_range. lia. }
  rewrite Hidx. set (m' := <[slot_idx p := _]> m) in *.
  destruct (alive_slot n _ (ni_arena n Hn) (current_alive n p Hp)) as [s Hs].
  rewrite (net_slot_at n p s Hs). cbn [mbind res_bind].
  assert (forall stack', Forall entry stack' -> stack `sublist_of` stack' ->
    (expands s = true -> forall k, port_raw s k ∈ stack') ->
    dfs_inv stack' m' (order ++ [p])) as Hnew.
  { intros stack' Hst' Hsub Hx. split; try done.
    - intros q [Hq|Hq%list_elem_of_singleton]%elem_of_app; [by apply Ho|by subst].
    - intros q t k Hq Ht He Hqr.
      apply elem_of_app in Hq as [Hq|Hq%list_elem_of_singleton].
      + destruct (Hcl q t k Hq Ht He Hqr) as [[x Hx']|Hin].
        * left. unfold m'. rewrite lookup_insert. case_decide; by eexists.
        * apply elem_of_app in Hin as [Hin|Hin%list_elem_of_singleton].
          -- right. by eapply elem_of_submseteq; [|apply sublist_submseteq].
          -- left. unfold m'. rewrite Hin, lookup_insert, decide_True by done. by eexists.
      + subst q. rewrite Hs in Ht. injection Ht as <-. right. by apply Hx. }
  assert (forall stack', (length stack' <= length stack + 3)%nat ->
            (dfs_measure stack' (order ++ [p]) < dfs_measure (stack ++ [p]) order)%nat) as Hdec.
  { intros stack' Hl. unfold dfs_measure. rewrite !length_app. simpl. lia. }
  assert (is_Some (m' !! slot_idx p)) as Hsome
    by (unfold m'; rewrite lookup_insert, decide_True by done; by eexists).
  assert (order ++ [p] = order \/ order ++ [p] = order ++ [p]) as Hpre by (by right).
  destruct (is_free s) eqn:Hf.
  { exists stack, m', (order ++ [p]). split; [done|]. split; [|split; [done|eauto using Hdec with lia]].
    apply Hnew; [done|done|]. unfold expands. by rewrite Hf. }
  destruct (is_fan s || is_rep s) eqn:Hx.
  - assert (expands s = true) as Hexp by (unfold expands; by rewrite Hf, Hx).
    rewrite (push_peers_ok p s stack Hp Hs). cbn [mbind res_bind].
    eexists _, m', (order ++ [p]). split; [done|].
    split; [|split; [by eexists|split; [done|split; [done|apply Hdec; rewrite length_app; simpl; lia]]]].
    apply Hnew.
    + apply Forall_app. split; [done|]. repeat (apply Forall_cons; split).
      * apply (entry_port_raw p s Aux1 Hp Hreach Hs Hexp). * apply (entry_port_raw p s Aux0 Hp Hreach Hs Hexp).
      * apply (entry_port_raw p s Principal Hp Hreach Hs Hexp). * apply Forall_nil_2.
    + by apply sublist_inserts_r.
    + intros _ k. apply elem_of_app. right. destruct k; simpl.
      * right; right; left. * right; left. * left.
  - exists stack, m', (order ++ [p]). split; [done|]. split; [|split; [done|eauto using Hdec with lia]].
    apply Hnew; [done|done|]. unfold expands. by rewrite Hf, Hx.
Qed.

Lemma dfs_map_grows stack m order stack' m' order' i :
  dfs_inv stack m order -> dfs_inv stack' m' order' -> order `prefix_of` order' ->
  is_Some (m !! i) -> is_Some (m' !! i).
Proof.
  intros H H' [l ->] [idx Hi]. apply (di_map _ _ _ H) in Hi as (j & p & Hj & Hp & ->).
  exists (Z.of_nat j). apply (di_map _ _ _ H'). exists j, p. split; [|done].
  rewrite lookup_app_l; [done|by eapply lookup_lt_Some].
Qed.

(** The traversal ends within its measure. *)
Lemma dfs_total fuel stack m order : dfs_inv stack m order ->
  (dfs_measure stack order <= fuel)%nat ->
  exists m' order', dfs_assign fuel n stack m order = Ok (m', order')
    /\ dfs_inv [] m' order' /\ order `prefix_of` order'
    /\ (forall p, p ∈ stack -> real p = true -> is_Some (m' !! slot_idx p)).
Proof.
  revert stack m order. induction fuel as [|fuel IH]; intros stack m order Hinv Hf;
    cbn [dfs_assign]; destruct (pop stack) as [[p stack1]|] eqn:Hpop.
  - apply pop_Some in Hpop as ->. unfold dfs_measure in Hf. rewrite length_app in Hf.
    simpl in Hf. lia.
  - apply pop_None in Hpop as ->. exists m, order. split; [done|]. split; [done|].
    split; [done|]. by intros p ?%not_elem_of_nil.
  - apply pop_Some in Hpop as ->.
    destruct (dfs_visit_ok p stack1 m order Hinv)
      as (stack2 & m2 & order2 & -> & Hinv2 & [l ->] & Hpre0 & Hp & Hdec).
    assert (order `prefix_of` order2) as Hpre by (destruct Hpre0 as [-> | ->]; [done|by eexists]).
    cbn [mbind res_bind].
    destruct (IH (stack1 ++ l) m2 order2 Hinv2) as (m3 & order3 & H3 & Hinv3 & Hpre3 & Hst3); [lia|].
    exists m3, order3. split; [exact H3|]. split; [done|]. split; [by etrans|].
    intros q Hq Hr. apply elem_of_app in Hq as [Hq|Hq%list_elem_of_singleton].
    + apply Hst3; [apply elem_of_app; by left|done].
    + subst q. by apply (dfs_map_grows _ _ _ _ _ _ _ Hinv2 Hinv3 Hpre3), Hp.
  - apply pop_None in Hpop as ->. exists m, order. split; [done|]. split; [done|].
    split; [done|]. by intros p ?%not_elem_of_nil.
Qed.

(** ** Emission *)

(** Every live agent is one the serialiser knows, its label in range. *)
Definition labelled : Prop := forall i s, alive n i -> slot_at n i = Some s ->
  is_free s || is_fan s || is_rep s = true
  /\ u16_range (data s) /\ i16_range (delta0 s) /\ i16_range (delta1 s).

(** The recorded end of a wire, by the canonical indices [m]. *)
Definition edge_of (m : IdxMap) (q : PortId) : Edge :=
  if real q then idx ← m !! slot_idx q; Some (idx, port_kind q) else None.

Definition record_of (m : IdxMap) (s : Slot) : Record_ :=
  if is_free s then mk_record KIND_FREE_VAR 0 0 0 (free_var_id s) []
  else if is_fan s && fan_is_abs s then
    mk_record KIND_FAN_ABS 0 0 0 0
      [(Aux0, edge_of m (aux0 s)); (Aux1, edge_of m (aux1 s))]
  else if is_fan s then
    mk_record KIND_FAN_APP 0 0 0 0
      [(Principal, edge_of m (principal s)); (Aux1, edge_of m (aux1 s))]
  else
    mk_record KIND_REP_IN (data s) (delta0 s) (delta1 s) 0
      [(Aux0, edge_of m (aux0 s)); (Aux1, edge_of m (aux1 s))].

Definition record_at (m : IdxMap) (p : PortId) : Record_ :=
  record_of m (default EMPTY (slot_at n (slot_idx p))).

Lemma emit_edge_ok p s k m buf : current n p -> slot_at n (slot_idx p) = Some s ->
  (real (port_raw s k) = true -> is_Some (m !! slot_idx (port_raw s k))) ->
  emit_edge n (port_new (slot_idx p) k (gen_low p)) m buf
  = Ok (buf ++ enc_edge (edge_of m (port_raw s k))).
Proof.
  intros Hc Hs Hm. unfold emit_edge. rewrite (peer_current p s k Hc Hs). cbn [mbind res_bind].
  unfold edge_of, real in *. destruct (_ || _); cbn [negb] in *; [done|].
  destruct (Hm eq_refl) as [idx ->]. done.
Qed.

Lemma emit_record_ok p s m buf : labelled -> current n p -> real p = true ->
  slot_at n (slot_idx p) = Some s ->
  (forall k, expands s = true -> real (port_raw s k) = true ->
     is_Some (m !! slot_idx (port_raw s k))) ->
  emit_record n p m buf = Ok (buf ++ enc_record (record_of m s)).
Proof.
  intros Hl Hc Hr Hs Hm. pose proof (current_alive n p Hc) as Ha.
  destruct (Hl _ s Ha Hs) as [Hk _]. unfold emit_record.
  destruct (proj1 (real_true p) Hr) as [-> _]. rewrite (net_slot_at n p s Hs). cbn [mbind res_bind].
  unfold expands in Hm. unfold record_of. destruct (is_free s) eqn:Hf.
  { record_bytes. done. }
  assert (forall k b, emit_edge n (port_new (slot_idx p) k (gen_low p)) m b
    = Ok (b ++ enc_edge (edge_of m (port_raw s k)))) as He
    by (intros k b; apply emit_edge_ok; auto).
  destruct (is_fan s && fan_is_abs s) eqn:H1; [|destruct (is_fan s) eqn:H2;
    [|destruct (is_rep s) eqn:H3; [|done]]];
    rewrite He; cbn [mbind res_bind]; rewrite He; record_bytes;
    rewrite <- ?(assoc_L (++)); done.
Qed.

Lemma emit_records_ok m order l buf : labelled -> dfs_inv [] m order ->
  (forall p, p ∈ l -> p ∈ order) ->
  foldM (fun buf port => emit_record n port m buf) l buf
  = Ok (buf ++ concat (enc_record <$> (record_at m <$> l))).
Proof.
  intros Hl Hinv. revert buf. induction l as [|p l IH]; intros buf Hin.
  - cbn. by rewrite app_nil_r.
  - cbn [foldM fmap list_fmap concat]. destruct (di_order _ _ _ Hinv p (Hin p (list_elem_of_here p l)))
      as (Hr & Hc & _).
    destruct (alive_slot n _ (ni_arena n Hn) (current_alive n p Hc)) as [s Hs].
    rewrite (emit_record_ok p s m buf Hl Hc Hr Hs).
    + cbn [mbind res_bind]. rewrite IH by (intros q Hq; apply Hin; by right).
      unfold record_at at 2. rewrite Hs. simpl. by rewrite <- (assoc_L (++)).
    + intros k Hx Hk. destruct (di_closed _ _ _ Hinv p s k (Hin p (list_elem_of_here p l)) Hs Hx Hk)
        as [?|Hb%not_elem_of_nil]; done.
Qed.

Lemma record_at_valid m order p : labelled -> dfs_inv [] m order -> p ∈ order ->
  valid_record (record_at m p).
Proof.
  intros Hl Hinv Hp. destruct (di_order _ _ _ Hinv p Hp) as (_ & Hc & _).
  destruct (alive_slot n _ (ni_arena n Hn) (current_alive n p Hc)) as [s Hs].
  destruct (Hl _ s (current_alive n p Hc) Hs) as (_ & Hd & H0 & H1).
  assert (forall q, valid_edge (edge_of m q)) as He.
  { intros q. unfold edge_of. destruct (real q); [|done].
    destruct (m !! slot_idx q) as [idx|] eqn:Hm; [|done].
    apply (di_map _ _ _ Hinv) in Hm as (j & p' & Hj & _ & ->). apply lookup_lt_Some in Hj.
    pose proof (order_bound order (fun p Hp => proj1 (proj2 (di_order _ _ _ Hinv p Hp)))
                  (di_once _ _ _ Hinv)) as Hb.
    pose proof agent_count_u32. simpl. unfold u32_range. lia. }
  unfold record_at. rewrite Hs. simpl. unfold record_of.
  destruct (is_free s); [constructor|destruct (is_fan s && fan_is_abs s); [by constructor|
    destruct (is_fan s); by constructor]].
  unfold free_var_id, FREE_VAR_ID_MAX. change 16383 with (2 ^ 14 - 1). rewrite land_pow2 by lia.
  pose proof (Z.mod_pos_bound (data s) (2 ^ 14)). lia.
Qed.
End Traversal.

(** What the traversal of [n] from [p] numbers: [order] lists each agent
    reached from [p] once, starting with [p]; [m] is its inverse. *)
Record numbering (n : Net) (p : PortId) (m : IdxMap) (order : list PortId) : Prop := mk_numbering {
  nu_first : order !! 0%nat = Some p;
  nu_once : NoDup (slot_idx <$> order);
  nu_reached : forall i, i ∈ slot_idx <$> order <-> reach n (slot_idx p) i;
  nu_map : forall i idx, m !! i = Some idx <->
    exists j q, order !! j = Some q /\ slot_idx q = i /\ idx = Z.of_nat j;
  nu_size : 0 < Z.of_nat (length order) < 2 ^ 32
}.

Lemma dfs_start n p : current n p -> dfs_inv n (slot_idx p) [p] ∅ [].
Proof.
  intros Hc. split.
  - apply Forall_singleton. intros _. split; [done|constructor].
  - by intros q ?%not_elem_of_nil.
  - apply NoDup_nil_2.
  - intros i idx. rewrite lookup_empty. split; [done|]. by intros (j & q & Hj & _).
  - by intros q s k ?%not_elem_of_nil.
Qed.

Lemma dfs_fuel_enough n p : net_inv n -> (dfs_measure n [p] [] <= dfs_fuel n)%nat.
Proof.
  intros Hn. unfold dfs_measure, dfs_fuel. pose proof (agent_count_slots n Hn). simpl. lia.
Qed.

Lemma dfs_numbering n p : net_inv n -> current n p -> real p = true ->
  exists m order, dfs_assign (dfs_fuel n) n [p] ∅ [] = Ok (m, order)
    /\ dfs_inv n (slot_idx p) [] m order /\ numbering n p m order.
Proof.
  intros Hn Hc Hr. pose proof (dfs_start n p Hc) as Hinv.
  destruct (dfs_total n Hn _ (dfs_fuel n) [p] ∅ [] Hinv (dfs_fuel_enough n p Hn))
    as (m & order & Hd & Hinv' & _ & Hp).
  exists m, order. split; [done|]. split; [done|]. specialize (Hp p (list_elem_of_here _ _) Hr).
  assert (order !! 0%nat = Some p) as Hfirst.
  { destruct (dfs_visit_ok n Hn (slot_idx p) p [] ∅ [] Hinv)
      as (st1 & m1 & o1 & Hv & Hinv1 & _ & Ho1 & Hp1 & Hdec).
    unfold dfs_fuel in Hd. rewrite Nat.add_1_r in Hd. cbn [dfs_assign] in Hd.
    change (pop [p]) with (Some (p, [] : list PortId)) in Hd. cbn match in Hd.
    rewrite Hv in Hd. cbn [mbind res_bind] in Hd.
    assert (dfs_measure n st1 o1 <= 3 * length (slots (arena n)))%nat as Hf
      by (pose proof (dfs_fuel_enough n p Hn) as Hf; unfold dfs_fuel in Hf; simpl in Hdec; lia).
    destruct (dfs_total n Hn _ _ st1 m1 o1 Hinv1 Hf) as (m2 & o2 & Hd2 & _ & [l ->] & _).
    cbn match in Hd. rewrite Hd2 in Hd. injection Hd as <- <-.
    destruct (Hp1 Hr) as [x Hx]. apply (di_map _ _ _ _ _ Hinv1) in Hx as (j & q & Hj & _).
    by destruct Ho1 as [-> | ->]. }
  split; try done.
  - apply (di_once _ _ _ _ _ Hinv').
  - intros i. split.
    + intros (q & -> & Hq)%list_elem_of_fmap. by apply (di_order _ _ _ _ _ Hinv').
    + assert (forall j, is_Some (m !! j) -> j ∈ slot_idx <$> order) as Hin.
      { intros j [x Hx]. apply (di_map _ _ _ _ _ Hinv') in Hx as (k & q & Hk & <- & _).
        apply list_elem_of_fmap. exists q. split; [done|]. by eapply list_elem_of_lookup_2. }
      intros Hi. induction Hi as [|i s k Hi IH Hs Hx Hk]; [by apply Hin|].
      apply list_elem_of_fmap in IH as (q & -> & Hq).
      destruct (di_closed _ _ _ _ _ Hinv' q s k Hq Hs Hx Hk) as [?|?%not_elem_of_nil]; [|done].
      by apply Hin.
  - apply (di_map _ _ _ _ _ Hinv').
  - pose proof (order_bound n order (fun p Hp => proj1 (proj2 (di_order _ _ _ _ _ Hinv' p Hp)))
                  (di_once _ _ _ _ _ Hinv')). pose proof (agent_count_u32 n Hn).
    apply lookup_lt_Some in Hfirst. lia.
Qed.

(** ** Renumbering *)

(** Two ports that differ by the renumbering [f] of slots and by
    generation. *)
Definition like (f : Z -> Z) (q1 q2 : PortId) : Prop :=
  real q2 = real q1
  /\ (real q1 = true -> slot_idx q2 = f (slot_idx q1) /\ port_kind q2 = port_kind q1).

(** Kind bits and label of an agent. *)
Definition labels (s : Slot) : Z * Z * Z * Z :=
  (Z.land (tag s) 15, data s, delta0 s, delta1 s).

(** What is reached from [i0] in [n1] is found in [n2] under other slot
    numbers; the remainder of both nets is unconstrained. *)
Record renumbered (f : Z -> Z) (i0 : Z) (n1 n2 : Net) : Prop := mk_renumbered {
  rn_inj : forall i j, reach n1 i0 i -> reach n1 i0 j -> f i = f j -> i = j;
  rn_agent : forall i s1 s2, reach n1 i0 i -> slot_at n1 i = Some s1 ->
    slot_at n2 (f i) = Some s2 -> labels s2 = labels s1;
  rn_wires : forall i s1 s2 k, reach n1 i0 i -> slot_at n1 i = Some s1 -> expands s1 = true ->
    slot_at n2 (f i) = Some s2 -> like f (port_raw s1 k) (port_raw s2 k)
}.

Lemma tag_low s1 s2 b : Z.land (tag s1) 15 = Z.land (tag s2) 15 -> Z.land 15 b = b ->
  Z.land (tag s1) b = Z.land (tag s2) b.
Proof. intros H <-. rewrite !Z.land_assoc. by rewrite H. Qed.

Lemma labels_kind s1 s2 : labels s1 = labels s2 ->
  is_free s1 = is_free s2 /\ is_fan s1 = is_fan s2 /\ is_rep s1 = is_rep s2
  /\ fan_is_abs s1 = fan_is_abs s2 /\ expands s1 = expands s2.
Proof.
  intros [= H _ _ _]. unfold expands, is_free, is_fan, is_rep, fan_is_abs.
  by rewrite (tag_low s1 s2 12 H eq_refl), (tag_low s1 s2 1 H eq_refl).
Qed.

Section Renumbering.
Context (f : Z -> Z) (i0 : Z) (n1 n2 : Net).
Context (Hn1 : net_inv n1) (Hn2 : net_inv n2) (Hf : renumbered f i0 n1 n2).

Definition same_map (m1 m2 : IdxMap) : Prop :=
  forall i, reach n1 i0 i -> m2 !! f i = m1 !! i.

(** A traversal state of [n1] and its counterpart of [n2]. *)
Definition lockstep (x1 x2 : list PortId * IdxMap * list PortId) : Prop :=
  Forall2 (like f) x1.1.1 x2.1.1 /\ same_map x1.1.2 x2.1.2 /\ Forall2 (like f) x1.2 x2.2.

Lemma like_slot p1 p2 : current n1 p1 -> current n2 p2 -> real p1 = true -> like f p1 p2 ->
  reach n1 i0 (slot_idx p1) ->
  exists s1 s2, slot_at n1 (slot_idx p1) = Some s1 /\ slot_at n2 (slot_idx p2) = Some s2
    /\ labels s2 = labels s1
    /\ (expands s1 = true -> forall k, like f (port_raw s1 k) (port_raw s2 k)).
Proof.
  intros H1 H2 Hr [_ Hl] Hi. destruct (Hl Hr) as [Hidx _].
  destruct (alive_slot n1 _ (ni_arena n1 Hn1) (current_alive n1 p1 H1)) as [s1 Hs1].
  destruct (alive_slot n2 _ (ni_arena n2 Hn2) (current_alive n2 p2 H2)) as [s2 Hs2].
  exists s1, s2. split; [done|]. split; [done|]. rewrite Hidx in Hs2.
  split; [by eapply (rn_agent _ _ _ _ Hf)|]. intros Hx k. by eapply (rn_wires _ _ _ _ Hf).
Qed.

Lemma visit_lockstep p1 p2 st1 st2 m1 m2 o1 o2 x1 :
  dfs_inv n1 i0 (st1 ++ [p1]) m1 o1 -> dfs_inv n2 (f i0) (st2 ++ [p2]) m2 o2 ->
  lockstep (st1 ++ [p1], m1, o1) (st2 ++ [p2], m2, o2) ->
  dfs_visit n1 p1 st1 m1 o1 = Ok x1 ->
  exists x2, dfs_visit n2 p2 st2 m2 o2 = Ok x2 /\ lockstep x1 x2.
Proof.
  intros I1 I2 (Hst & Hm & Ho) H. cbn [fst snd] in *.
  apply Forall2_app_inv in Hst as [Hst Hp];
    [|apply Forall2_length in Hst; rewrite !length_app in Hst; simpl in Hst; lia].
  apply Forall2_cons in Hp as [Hp _]. pose proof Hp as [Hreal Hidx].
  unfold dfs_visit in *. unfold real in Hreal.
  destruct (is_eraser p1 || is_null p1) eqn:E1, (is_eraser p2 || is_null p2) eqn:E2; try done.
  { injection H as <-. by eexists. }
  assert (real p1 = true) as Hr1 by (unfold real; by rewrite E1).
  assert (real p2 = true) as Hr2 by (unfold real; by rewrite E2).
  destruct (Hidx Hr1) as [Hi _].
  destruct (proj1 (Forall_forall _ _) (di_stack _ _ _ _ _ I1) p1) as [Hc1 Hreach]; [set_solver|done|].
  destruct (proj1 (Forall_forall _ _) (di_stack _ _ _ _ _ I2) p2) as [Hc2 _]; [set_solver|done|].
  rewrite Hi, (Hm _ Hreach), <- Hi. destruct (m1 !! slot_idx p1).
  { injection H as <-. by eexists. }
  destruct (like_slot p1 p2 Hc1 Hc2 Hr1 Hp Hreach) as (s1 & s2 & Hs1 & Hs2 & Hl & Hw).
  rewrite (net_slot_at n1 p1 s1 Hs1) in H. rewrite (net_slot_at n2 p2 s2 Hs2).
  cbn [mbind res_bind] in *. rewrite <- (Forall2_length _ _ _ Ho).
  destruct (labels_kind s2 s1 Hl) as (-> & -> & -> & _).
  set (m1' := <[slot_idx p1 := _]> m1) in *. set (m2' := <[slot_idx p2 := _]> m2) in *.
  assert (same_map m1' m2') as Hm'.
  { intros i Hri. unfold m1', m2'. rewrite Hi, !lookup_insert. do 2 case_decide; try done.
    - by destruct (rn_inj _ _ _ _ Hf _ _ Hreach Hri).
    - by subst.
    - by apply Hm. }
  assert (Forall2 (like f) (o1 ++ [p1]) (o2 ++ [p2])) as Ho'
    by (apply Forall2_app; [done|by apply Forall2_cons]).
  destruct (is_free s1) eqn:Hfree; [injection H as <-; by eexists|].
  destruct (is_fan s1 || is_rep s1) eqn:Hx; [|injection H as <-; by eexists].
  rewrite (push_peers_ok n1 Hn1 p1 s1 st1 Hc1 Hs1) in H.
  rewrite (push_peers_ok n2 Hn2 p2 s2 st2 Hc2 Hs2). cbn [mbind res_bind] in *.
  injection H as <-. eexists. split; [done|]. split; [|done]. cbn [fst].
  assert (expands s1 = true) as Hex by (unfold expands; by rewrite Hfree, Hx).
  apply Forall2_app; [done|]. apply Forall2_cons; split; [exact (Hw Hex Aux1)|].
  apply Forall2_cons; split; [exact (Hw Hex Aux0)|].
  by apply Forall2_cons; split; [exact (Hw Hex Principal)|].
Qed.

Lemma assign_lockstep fuel st1 st2 m1 m2 o1 o2 m1' o1' :
  dfs_inv n1 i0 st1 m1 o1 -> dfs_inv n2 (f i0) st2 m2 o2 ->
  lockstep (st1, m1, o1) (st2, m2, o2) ->
  dfs_assign fuel n1 st1 m1 o1 = Ok (m1', o1') ->
  exists m2' o2', dfs_assign fuel n2 st2 m2 o2 = Ok (m2', o2')
    /\ same_map m1' m2' /\ Forall2 (like f) o1' o2'.
Proof.
  revert st1 st2 m1 m2 o1 o2. induction fuel as [|fuel IH]; intros st1 st2 m1 m2 o1 o2 I1 I2 HL H;
    cbn [dfs_assign] in *; pose proof HL as (Hst & Hm & Ho); cbn [fst snd] in *;
    destruct (pop st1) as [[p1 st1']|] eqn:Hp1.
  - done.
  - apply pop_None in Hp1 as ->. apply Forall2_nil_inv_l in Hst as ->.
    injection H as <- <-. by exists m2, o2.
  - apply pop_Some in Hp1 as ->.
    destruct (proj1 (Forall2_app_inv_l _ _ _ _) Hst) as (st2' & l & _ & Hl & ->).
    apply Forall2_cons_inv_l in Hl as (p2 & l1 & _ & Hl & ->). apply Forall2_nil_inv_l in Hl as ->.
    rewrite (proj2 (pop_Some _ _ _) eq_refl).
    destruct (dfs_visit_ok n1 Hn1 i0 p1 st1' m1 o1 I1)
      as (st1'' & m1'' & o1'' & Hv1 & I1' & _).
    destruct (dfs_visit_ok n2 Hn2 (f i0) p2 st2' m2 o2 I2)
      as (st2'' & m2'' & o2'' & Hv2 & I2' & _).
    destruct (visit_lockstep p1 p2 st1' st2' m1 m2 o1 o2 _ I1 I2 HL Hv1) as (x2 & Hx2 & HL').
    rewrite Hv2 in Hx2. injection Hx2 as <-. rewrite Hv1 in H. rewrite Hv2.
    cbn [mbind res_bind] in *. by eapply IH.
  - apply pop_None in Hp1 as ->. apply Forall2_nil_inv_l in Hst as ->.
    injection H as <- <-. by exists m2, o2.
Qed.

Lemma record_lockstep m1 m2 p1 p2 : same_map m1 m2 -> like f p1 p2 -> real p1 = true ->
  current n1 p1 -> current n2 p2 -> reach n1 i0 (slot_idx p1) ->
  labelled n1 -> record_at n2 m2 p2 = record_at n1 m1 p1.
Proof.
  intros Hm Hp Hr Hc1 Hc2 Hreach Hlab.
  destruct (like_slot p1 p2 Hc1 Hc2 Hr Hp Hreach) as (s1 & s2 & Hs1 & Hs2 & Hl & Hw).
  unfold record_at, record_of. rewrite Hs1, Hs2. cbn [from_option id].
  destruct (labels_kind s2 s1 Hl) as (-> & -> & _ & -> & _).
  destruct (Hlab _ s1 (current_alive n1 p1 Hc1) Hs1) as [Hk _].
  injection Hl as _ Hd Hd0 Hd1. unfold free_var_id. rewrite Hd, Hd0, Hd1.
  destruct (is_free s1) eqn:Hfree; [done|].
  assert (expands s1 = true -> forall k, edge_of m2 (port_raw s2 k) = edge_of m1 (port_raw s1 k)) as He.
  { intros Hx k. destruct (Hw Hx k) as [Hreal Hk1]. unfold edge_of. rewrite Hreal.
    destruct (real (port_raw s1 k)) eqn:Hrk; [|done]. destruct (Hk1 eq_refl) as [-> ->].
    by rewrite (Hm _ (reach_step n1 i0 _ s1 k Hreach Hs1 Hx Hrk)). }
  assert (expands s1 = true) as Hx by (unfold expands; by rewrite Hfree).
  pose proof (He Hx Principal) as Hp0. pose proof (He Hx Aux0) as Hp1.
  pose proof (He Hx Aux1) as Hp2. cbn [port_raw] in *. by rewrite Hp0, Hp1, Hp2.
Qed.

Lemma lockstep_records m1 m2 o1 o2 : labelled n1 -> same_map m1 m2 -> Forall2 (like f) o1 o2 ->
  (forall q, q ∈ o1 -> real q = true /\ current n1 q /\ reach n1 i0 (slot_idx q)) ->
  (forall q, q ∈ o2 -> real q = true /\ current n2 q /\ reach n2 (f i0) (slot_idx q)) ->
  record_at n2 m2 <$> o2 = record_at n1 m1 <$> o1.
Proof.
  intros Hl Hm Ho. induction Ho as [|q1 q2 o1 o2 Hq Ho IH]; intros H1 H2; [done|].
  destruct (H1 q1 (list_elem_of_here q1 o1)) as (Hr & Hc1 & Hreach).
  destruct (H2 q2 (list_elem_of_here q2 o2)) as (_ & Hc2 & _).
  cbn [fmap list_fmap]. f_equal; [by apply record_lockstep|].
  apply IH; intros q Hin; [apply H1|apply H2]; by apply list_elem_of_further.
Qed.
End Renumbering.


(** More fuel changes nothing. *)
Lemma dfs_assign_fuel n k fuel st m o x :
  dfs_assign fuel n st m o = Ok x -> dfs_assign (fuel + k) n st m o = Ok x.
Proof.
  revert st m o. induction fuel as [|fuel IH]; intros st m o H.
  - cbn [dfs_assign] in H. destruct (pop st) as [[p st']|] eqn:Hp; [done|].
    destruct k; cbn [Nat.add dfs_assign]; by rewrite Hp.
  - cbn [Nat.add dfs_assign] in *. destruct (pop st) as [[p st']|]; [|done].
    destruct (dfs_visit n p st' m o) as [[[st1 m1] o1]| | |]; [|done..].
    cbn [mbind res_bind] in *. by apply IH.
Qed.

Lemma dfs_assign_unique n f1 f2 st m o x y :
  dfs_assign f1 n st m o = Ok x -> dfs_assign f2 n st m o = Ok y -> x = y.
Proof.
  intros Hx Hy. apply (dfs_assign_fuel n f2) in Hx. apply (dfs_assign_fuel n f1) in Hy.
  rewrite Nat.add_comm, Hx in Hy. congruence.
Qed.

(** The bytes of a net from its numbering. *)
Lemma serialize_of n p m order : net_inv n -> labelled n -> current n p -> real p = true ->
  dfs_assign (dfs_fuel n) n [p] ∅ [] = Ok (m, order) ->
  serialize n p = Ok (enc_blob (record_at n m <$> order)).
Proof.
  intros Hn Hl Hc Hr Hd. destruct (dfs_numbering n p Hn Hc Hr) as (m' & o' & Hd' & Hinv & _).
  rewrite Hd in Hd'. injection Hd' as <- <-.
  unfold serialize. rewrite Hd. cbn [mbind res_bind].
  rewrite (emit_records_ok n Hn _ m order order _ Hl Hinv) by done.
  unfold enc_blob. by rewrite length_fmap, <- (assoc_L (++)).
Qed.

(** ** Checks on concrete nets *)

Definition labelled_check (n : Net) : bool :=
  forallb (fun i => match slot_at n i with
    | Some s => (is_free s || is_fan s || is_rep s)
        && bool_decide (u16_range (data s)) && bool_decide (i16_range (delta0 s))
        && bool_decide (i16_range (delta1 s))
    | None => true end) (live_list (arena n)).

Lemma labelled_check_sound n : labelled_check n = true -> labelled n.
Proof.
  intros H i s Ha Hs. unfold labelled_check in H. rewrite forallb_forall in H.
  specialize (H i (proj1 (list_elem_of_In _ _) Ha)). rewrite Hs in H.
  rewrite !andb_true_iff, !bool_decide_eq_true in H. tauto.
Qed.

Definition kinds : list PortKind := [Principal; Aux0; Aux1].

Definition like_check (f : Z -> Z) (q1 q2 : PortId) : bool :=
  bool_decide (real q2 = real q1)
  && (negb (real q1) || bool_decide (slot_idx q2 = f (slot_idx q1))
        && bool_decide (kind_bits (port_kind q2) = kind_bits (port_kind q1))).

Lemma like_check_sound f q1 q2 : like_check f q1 q2 = true -> like f q1 q2.
Proof.
  unfold like_check, like. intros [H%bool_decide_eq_true H2]%andb_true_iff.
  split; [done|]. intros Hr. rewrite Hr in H2. cbn [negb orb] in H2.
  apply andb_true_iff in H2 as [->%bool_decide_eq_true H3%bool_decide_eq_true]. split; [done|].
  by destruct (port_kind q1), (port_kind q2).
Qed.

(** [l] holds what is reached from [i0] in [n1] and its copy is in [n2]. *)
Definition renumbered_check (f : Z -> Z) (i0 : Z) (n1 n2 : Net) (l : list Z) : bool :=
  bool_decide (i0 ∈ l) && bool_decide (NoDup (f <$> l))
  && forallb (fun i => match slot_at n1 i, slot_at n2 (f i) with
       | Some s1, Some s2 =>
           bool_decide (labels s2 = labels s1)
           && (negb (expands s1) || forallb (fun k =>
                 (negb (real (port_raw s1 k)) || bool_decide (slot_idx (port_raw s1 k) ∈ l))
                 && like_check f (port_raw s1 k) (port_raw s2 k)) kinds)
       | _, _ => false end) l.

Lemma renumbered_check_sound f i0 n1 n2 l :
  renumbered_check f i0 n1 n2 l = true -> renumbered f i0 n1 n2.
Proof.
  unfold renumbered_check. rewrite !andb_true_iff, !bool_decide_eq_true, forallb_forall.
  intros [[Hi0 Hnd] Hl].
  assert (forall i, i ∈ l -> exists s1 s2, slot_at n1 i = Some s1 /\ slot_at n2 (f i) = Some s2
    /\ labels s2 = labels s1 /\ (expands s1 = true -> forall k,
      (real (port_raw s1 k) = true -> slot_idx (port_raw s1 k) ∈ l)
      /\ like f (port_raw s1 k) (port_raw s2 k))) as Hs.
  { intros i Hi. specialize (Hl i (proj1 (list_elem_of_In _ _) Hi)).
    destruct (slot_at n1 i) as [s1|], (slot_at n2 (f i)) as [s2|]; try done.
    apply andb_true_iff in Hl as [Hlab%bool_decide_eq_true Hx].
    exists s1, s2. do 3 (split; [done|]). intros Hex k. rewrite Hex in Hx. cbn [negb orb] in Hx.
    rewrite forallb_forall in Hx. specialize (Hx k).
    destruct (proj1 (andb_true_iff _ _) (Hx ltac:(destruct k; simpl; auto))) as [H1 H2].
    split; [|by apply like_check_sound]. intros Hr. rewrite Hr in H1.
    by apply bool_decide_eq_true in H1. }
  assert (forall i, reach n1 i0 i -> i ∈ l) as Hreach.
  { intros i Hi. induction Hi as [|i s k Hi IH Hsi Hx Hk]; [done|].
    destruct (Hs i IH) as (s1 & s2 & H1 & _ & _ & Hw). rewrite Hsi in H1. injection H1 as <-.
    by apply (Hw Hx k). }
  split.
  - intros i j Hi%Hreach Hj%Hreach Hf.
    apply list_elem_of_lookup in Hi as [a Ha]. apply list_elem_of_lookup in Hj as [b Hb].
    assert (a = b) as ->; [|congruence].
    apply (NoDup_lookup (f <$> l) a b (f i) Hnd); rewrite list_lookup_fmap;
      [by rewrite Ha|by rewrite Hb, Hf].
  - intros i s1 s2 Hi%Hreach H1 H2. destruct (Hs i Hi) as (t1 & t2 & E1 & E2 & Hlab & _). congruence.
  - intros i s1 s2 k Hi%Hreach H1 Hx H2. destruct (Hs i Hi) as (t1 & t2 & E1 & E2 & _ & Hw).
    rewrite E1 in H1. rewrite E2 in H2. injection H1 as <-. injection H2 as <-. by apply Hw.
Qed.

(** ** Interning *)

(** Identifiers are below the table's size and never shared. *)
Definition intern_wf (t : Interner) : Prop :=
  (forall b id, t !! b = Some id -> 0 <= id < Z.of_nat (size t))
  /\ (forall b b' id, t !! b = Some id -> t !! b' = Some id -> b = b').

(** A call of [intern_local]. *)
Definition intern_step (t t' : Interner) : Prop :=
  exists n p id, intern_local t n p = Ok (id, t').

Lemma intern_local_ok t n p id t' : intern_wf t -> intern_local t n p = Ok (id, t') ->
  intern_wf t' /\ t ⊆ t'
  /\ exists bs, serialize (proper n) p = Ok bs /\ t' !! bs = Some id.
Proof.
  intros [Hr Hi] H. unfold intern_local in H. inv_ok.
  destruct (t !! a) as [i|] eqn:Ha.
  - injection H1 as -> ->. split; [done|]. split; [done|]. eauto.
  - injection H1 as <- <-. split; [|split; [by apply insert_subseteq|]].
    + split.
      * intros b i Hb. rewrite map_size_insert_None by done.
        apply lookup_insert_Some in Hb as [[_ <-]|[_ Hb]]; [lia|]. apply Hr in Hb. lia.
      * intros b b' i Hb Hb'.
        apply lookup_insert_Some in Hb as [[<- <-]|[_ Hb]];
          apply lookup_insert_Some in Hb' as [[? ?]|[_ Hb']]; subst; try done.
        -- apply Hr in Hb'. lia.
        -- apply Hr in Hb. lia.
        -- by eapply Hi.
    + exists a. split; [done|]. apply lookup_insert_eq.
Qed.

Lemma intern_local_total t n p bs : serialize (proper n) p = Ok bs ->
  exists id t', intern_local t n p = Ok (id, t').
Proof. intros H. unfold intern_local. rewrite H. simpl. destruct (t !! bs); by do 2 eexists. Qed.

Lemma intern_steps_wf t t' : star intern_step t t' -> intern_wf t -> intern_wf t' /\ t ⊆ t'.
Proof.
  induction 1 as [t|t t1 t' (n & p & id & H) _ IH]; intros Hw; [done|].
  destruct (intern_local_ok _ _ _ _ _ Hw H) as (Hw1 & Hs & _).
  destruct (IH Hw1) as [? ?]. split; [done|by etrans].
Qed.

Lemma intern_wf_new : intern_wf interner_new.
Proof. by split; unfold interner_new; intros ? ?; rewrite lookup_empty. Qed.

(** * Theorems *)

(** A byte string is accepted by the blob parser exactly when it is the
    encoding of a non-empty list of well-formed records, which is the list
    returned: the format is unambiguous and has a single encoding of each
    record list, truncated input, trailing bytes, unknown kinds, port numbers
    and free-variable ids beyond 14 bits are rejected. *)
Theorem blob_format (bs : list byte) (rs : list Record_) :
  parse_blob bs = Ok rs <-> valid_blob rs /\ bs = enc_blob rs.
Proof.
  split; [apply parse_blob_sound|]. intros [Hv ->]. by apply parse_blob_complete.
Qed.



(** The canonical bytes do not depend on where agents are stored: if what
    is reached from a root is found in another net under other slot numbers
    and generations, with the same labels and the same wires, both nets
    serialise to the same bytes, whatever else they contain, and [fn_eq]
    holds for every hash. *)
Theorem serialize_renumbered (f : Z -> Z) (n1 n2 : Net) (p1 p2 : PortId) :
  net_inv n1 -> net_inv n2 -> labelled n1 -> labelled n2 ->
  current n1 p1 -> current n2 p2 -> like f p1 p2 -> real p1 = true ->
  renumbered f (slot_idx p1) n1 n2 ->
  serialize n2 p2 = serialize n1 p1
  /\ forall (H : Type) (D : EqDecision H) (blake3 : list byte -> H),
       fn_eq blake3 (into_canonical n1) p1 (into_canonical n2) p2 = Ok true.
Proof.
  intros Hn1 Hn2 Hl1 Hl2 Hc1 Hc2 Hp Hr1 Hf.
  destruct (dfs_numbering n1 p1 Hn1 Hc1 Hr1) as (m1 & o1 & Hd1 & I1 & _).
  pose proof Hp as [Hr2 Hi]. rewrite Hr1 in Hr2. destruct (Hi Hr1) as [Hidx _].
  destruct (dfs_numbering n2 p2 Hn2 Hc2 Hr2) as (m2 & o2 & Hd2 & I2 & _).
  pose proof (dfs_start n2 p2 Hc2) as S2. rewrite Hidx in S2.
  destruct (assign_lockstep f (slot_idx p1) n1 n2 Hn1 Hn2 Hf (dfs_fuel n1) [p1] [p2] ∅ ∅ [] [] m1 o1
    (dfs_start n1 p1 Hc1) S2) as (m2' & o2' & Hd2' & Hm & Ho); [|done|].
  { split; [by apply Forall2_cons|]. split; [|by constructor]. intros i _. cbn [fst snd]. by rewrite !lookup_empty. }
  pose proof (dfs_assign_unique _ _ _ _ _ _ _ _ Hd2 Hd2') as E. injection E as <- <-.
  assert (serialize n2 p2 = serialize n1 p1) as Hser.
  { rewrite (serialize_of n1 p1 m1 o1) by done. rewrite (serialize_of n2 p2 m2 o2) by done.
    do 2 f_equal. eapply lockstep_records; try done.
    - intros q Hq. by apply (di_order _ _ _ _ _ I1).
    - intros q Hq. rewrite <- Hidx. by apply (di_order _ _ _ _ _ I2). }
  split; [done|]. intros H D blake3. unfold fn_eq, canonical_hash.
  cbn [proper into_canonical]. rewrite Hser, (serialize_of n1 p1 m1 o1) by done.
  cbn [mbind res_bind]. by rewrite bool_decide_true.
Qed.

Lemma serialize_renumbered_witness :
  let f i := if i =? 1 then 3 else i in
  serialize (id_net 2) (P 3 Principal) = serialize (id_net 0) (P 1 Principal)
  /\ is_ok (serialize (id_net 0) (P 1 Principal)) = true.
Proof.
  intros f. split; [|vm_compute; reflexivity].
  refine (proj1 (serialize_renumbered f (id_net 0) (id_net 2) (P 1 Principal) (P 3 Principal)
    _ _ _ _ _ _ _ _ _)); try on_net.
  1, 2: apply labelled_check_sound; vm_compute; reflexivity.
  - apply like_check_sound. vm_compute. reflexivity.
  - apply (renumbered_check_sound f _ _ _ [1]). vm_compute. reflexivity.
Defined.

(** Local identity is exact: in any session of an interner, two interned
    nets get the same identifier exactly when they have the same canonical
    bytes, whatever was interned before and between the two calls. *)
Theorem intern_exact (t0 t1 t2 t3 : Interner) (n1 n2 : CanonicalNet) (p1 p2 : PortId) (a b : Z) :
  star intern_step interner_new t0 ->
  intern_local t0 n1 p1 = Ok (a, t1) ->
  star intern_step t1 t2 ->
  intern_local t2 n2 p2 = Ok (b, t3) ->
  (a = b <-> serialize (proper n1) p1 = serialize (proper n2) p2).
Proof.
  intros H0 H1 H2 H3. destruct (intern_steps_wf _ _ H0 intern_wf_new) as [W0 _].
  destruct (intern_local_ok _ _ _ _ _ W0 H1) as (W1 & _ & bs1 & -> & L1).
  destruct (intern_steps_wf _ _ H2 W1) as [W2 S2].
  destruct (intern_local_ok _ _ _ _ _ W2 H3) as (W3 & S3 & bs2 & -> & L2).
  apply (lookup_weaken _ _ _ _ L1) in S2. apply (lookup_weaken _ _ _ _ S2) in S3.
  split.
  - intros <-. by rewrite (proj2 W3 _ _ _ L2 S3).
  - intros [= ->]. congruence.
Qed.

(** The free variable 0 and the identity, interned twice. *)
Lemma intern_exact_witness :
  let c := into_canonical (id_net 1) in
  exists a b d t1 t2 t3,
    intern_local interner_new c (P 2 Principal) = Ok (a, t1)
    /\ intern_local t1 c (P 1 Principal) = Ok (b, t2)
    /\ intern_local t2 c (P 2 Principal) = Ok (d, t3)
    /\ a = d.
Proof.
  intros c.
  assert (exists bs, serialize (proper c) (P 1 Principal) = Ok bs) as [bs1 B1]
    by (eexists; vm_compute; reflexivity).
  assert (exists bs, serialize (proper c) (P 2 Principal) = Ok bs) as [bs2 B2]
    by (eexists; vm_compute; reflexivity).
  destruct (intern_local_total interner_new c _ _ B2) as (a & t1 & E1).
  destruct (intern_local_total t1 c _ _ B1) as (b & t2 & E2).
  destruct (intern_local_total t2 c _ _ B2) as (d & t3 & E3).
  exists a, b, d, t1, t2, t3. split; [done|]. split; [done|]. split; [done|].
  apply (intern_exact interner_new t1 t2 t3 c c (P 2 Principal) (P 2 Principal) a d
           (star_refl _ _) E1); [|exact E3|done].
  apply star_one. by exists c, (P 1 Principal), b.
Defined.
