(* ===== verification/BlobSpec.v ===== *)
(** * Decoding untrusted blobs, verified

    Whatever the bytes, [from_blob] ends with a net or an error, builds no
    more agents than there are bytes, and never certifies a net that holds an
    active pair.  The canonical traversal of a decoded net ends, so that a
    receiver can hash it again. *)
From S2P Require Import Prelude Bytes Codec Error LOPath Port Arena Net Wiring Examples Canon CanonSpec.

(** No principal port of a live agent faces a principal port. *)
Definition no_redex (n : Net) : Prop :=
  forall i s, alive n i -> slot_at n i = Some s -> real (principal s) = true ->
    port_kind (principal s) <> Principal.

(** The errors of the decoder. *)
Definition blob_error (e : DnxError) : Prop := e = ReadbackIncomplete \/ e = ArenaCapacityExceeded.

(** * Lemmas *)

(** ** Reading *)

Lemma returns_ok_or {E A} (P : E -> Prop) (Q : A -> Prop) (o : option A) e :
  P e -> (forall a, o = Some a -> Q a) -> returns P (ok_or o e) Q.
Proof. destruct o; simpl; auto. Qed.

(** A reader ends with a value or the short-read error. *)
Definition reads {A : Type} (m : res DnxError A) : Prop := returns blob_error m (fun _ => True).

Lemma reads_bind {A B} (m : res DnxError A) (k : A -> res DnxError B) :
  reads m -> (forall a, reads (k a)) -> reads (x ← m; k x).
Proof. intros Hm Hk. eapply returns_bind; [exact Hm|]. intros a _. apply Hk. Qed.

Lemma reads_if {A} (b : bool) (m1 m2 : res DnxError A) :
  reads m1 -> reads m2 -> reads (if b then m1 else m2).
Proof. by destruct b. Qed.

Lemma reads_Ok {A} (a : A) : reads (Ok a).
Proof. done. Qed.
Lemma reads_Err {A} : reads (A := A) (Err ReadbackIncomplete).
Proof. by left. Qed.

Lemma reads_ok_or {A} (o : option A) : reads (ok_or o ReadbackIncomplete).
Proof. destruct o; [done|by left]. Qed.

Create HintDb reads.
#[export] Hint Resolve reads_Ok reads_Err reads_ok_or reads_if : reads.

Ltac reads :=
  repeat first [ progress auto with reads
               | apply reads_bind; [|intros ?]
               | match goal with |- reads (match ?x with _ => _ end) => destruct x end ].

Lemma r_u8_reads r : reads (r_u8 r).
Proof. unfold r_u8. reads. Qed.
Lemma r_take_reads k r : reads (r_take k r).
Proof. unfold r_take, take_n. reads. Qed.
#[export] Hint Resolve r_u8_reads r_take_reads : reads.

Lemma r_u32_reads r : reads (r_u32 r).
Proof. unfold r_u32. reads. Qed.
Lemma r_u16_reads r : reads (r_u16 r).
Proof. unfold r_u16. reads. Qed.
Lemma r_i16_reads r : reads (r_i16 r).
Proof. unfold r_i16. reads. Qed.
Lemma port_kind_of_reads sel : reads (port_kind_of sel).
Proof. unfold port_kind_of. reads. Qed.
#[export] Hint Resolve r_u32_reads r_u16_reads r_i16_reads port_kind_of_reads : reads.

Lemma r_edge_reads r : reads (r_edge r).
Proof. unfold r_edge. reads. Qed.
#[export] Hint Resolve r_edge_reads : reads.

Lemma read_record_reads r : reads (read_record r).
Proof. unfold read_record. reads. Qed.
#[export] Hint Resolve read_record_reads : reads.

Lemma read_records_reads k r acc : reads (read_records k r acc).
Proof. revert r acc. induction k as [|k IH]; intros r acc; cbn [read_records]; reads. Qed.
#[export] Hint Resolve read_records_reads : reads.

Lemma parse_blob_reads bs : reads (parse_blob bs).
Proof.
  unfold parse_blob. reads.
Qed.

Lemma parse_blob_length bs rs : parse_blob bs = Ok rs -> (length rs <= length bs)%nat.
Proof.
  intros [_ ->]%parse_blob_sound. unfold enc_blob. rewrite !length_app.
  pose proof (concat_enc_length rs). lia.
Qed.

(** ** Allocation *)

(** A free variable is an agent with an empty label. *)
Lemma alloc_free_agent n v : arena_wf (arena n) ->
  alloc_free n v = ('(ps, n') ← alloc_agent n TAG_FREE (as_u16 (Z.land v 16383)) 0 0;
                    Ok (ag_principal ps, n')).
Proof.
  intros Hw. unfold alloc_free, alloc_agent. pose proof (alloc_slot_ok (arena n) Hw) as Ha.
  destruct (alloc_slot (arena n)) as [[i a]|e| |]; [|done..]. cbn [mbind res_bind].
  destruct Ha as (Hwa & _ & _ & Hri & _ & (g & Hg & _) & _).
  assert (slot a i = Ok (set_generation g EMPTY)) as ->
    by (unfold slot, index; by rewrite Hg). cbn [mbind res_bind].
  set (s := set_label _ _ _ _).
  change (init_slot TAG_FREE (as_u16 (Z.land v 16383)) 0 0 (set_generation g EMPTY)) with s.
  destruct (slot_set_ok a i s Hwa Hri) as (a' & -> & Hwa' & Hsl & _). cbn [mbind res_bind].
  assert (slots a' !! Z.to_nat i = Some s) as Hsi
    by (rewrite Hsl; apply list_lookup_insert_eq; lia).
  unfold agent_ports. simpl. unfold slot, index. by rewrite Hsi.
Qed.

(** Allocation writes no slot but the one it returns. *)
Lemma alloc_agent_others n t d d0 d1 ps n' j : arena_wf (arena n) ->
  alloc_agent n t d d0 d1 = Ok (ps, n') -> j <> slot_idx (ag_principal ps) ->
  slot_at n' j = slot_at n j.
Proof.
  intros Hw H Hj. unfold alloc_agent in H. pose proof (alloc_slot_ok (arena n) Hw) as Ha.
  destruct (alloc_slot (arena n)) as [[i a]|e| |]; [|done..]. cbn [mbind res_bind] in H.
  destruct Ha as (Hwa & _ & _ & Hri & _ & _ & Hoth).
  apply bind_Ok in H as (s & _ & H).
  destruct (slot_set_ok a i (init_slot t d d0 d1 s) Hwa Hri) as (a' & Ha' & Hwa' & Hsl & _).
  rewrite Ha' in H. cbn [mbind res_bind] in H. apply bind_Ok in H as (ps' & Hps & H).
  injection H as <- <-. unfold agent_ports in Hps. apply bind_Ok in Hps as (s' & _ & Hps).
  injection Hps as <-. cbn [ag_principal] in Hj.
  assert (idx_range i) as Hir by (pose proof (slots_max a Hwa); unfold idx_range; lia).
  rewrite slot_idx_new in Hj by (done || apply land_1_bit).
  unfold slot_at. destruct (Z.ltb_spec j 0); [done|]. simpl.
  rewrite Hsl, list_lookup_insert_ne by lia. apply Hoth. lia.
Qed.

(** A port that addresses the sentinel slot or a live agent. *)
Definition placed (n : Net) (p : PortId) : Prop := slot_idx p = 0 \/ alive n (slot_idx p).

(** The slots a traversal can reach. *)
Definition used (n : Net) (i : Z) : Prop := i = 0 \/ alive n i.

(** The net of the decoder while it allocates: nothing is wired. *)
Record blank (n : Net) (slots : list PortId) : Prop := mk_blank {
  bk_inv : net_inv n;
  bk_f1 : frontier1 n = [];
  bk_bare : forall i k p, used n i -> port_at n (i, k) = Some p -> real p = false;
  bk_slots : Forall (placed n) slots;
  bk_count : (agent_count n <= length slots)%nat
}.

Lemma blank_new cls capacity : 0 <= capacity -> blank (net_new cls capacity) [].
Proof.
  intros Hc. pose proof (arena_new_wf capacity Hc) as Hw.
  assert (forall i, ~ alive (net_new cls capacity) i) as Hno by (intros i ?%not_elem_of_nil; done).
  split; try done; [split; [done|]|..].
  - by intros i k s ?%Hno.
  - intros i k p [-> |?%Hno] Hp; [|done]. by destruct k; injection Hp as <-.
Qed.

Lemma blank_no_redex n slots : blank n slots -> no_redex n.
Proof.
  intros Hb i s Ha Hs Hr.
  assert (port_at n (i, Principal) = Some (principal s)) as Hp
    by (unfold port_at; simpl; by rewrite Hs).
  by rewrite (bk_bare _ _ Hb i Principal _ (or_intror Ha) Hp) in Hr.
Qed.

Lemma blank_agent n slots ps n' t d d0 d1 : blank n slots ->
  grows n n' [slot_idx (ag_principal ps)] -> fresh_agent n' ps t d d0 d1 ->
  alloc_agent n t d d0 d1 = Ok (ps, n') -> blank n' (slots ++ [ag_principal ps]).
Proof.
  intros [Hi Hf Hb Hs Hc] Hg Hfr Hal. split.
  - apply Hg.
  - by rewrite (gr_f1 _ _ _ Hg).
  - intros i k p Hu Hp. destruct (decide (i = slot_idx (ag_principal ps))) as [-> |Hne].
    + destruct Hfr as (s & _ & Hs' & _ & Hnull & _). unfold port_at in Hp. simpl in Hp.
      rewrite Hs' in Hp. injection Hp as <-. by rewrite Hnull.
    + apply (Hb i k p).
      * destruct Hu as [-> |Hu]; [by left|]. right. unfold alive in Hu.
        rewrite (gr_live _ _ _ Hg) in Hu. by apply elem_of_app in Hu as [?|?%list_elem_of_singleton].
      * unfold port_at in *. simpl in *.
        by rewrite (alloc_agent_others _ _ _ _ _ _ _ _ (ni_arena _ Hi) Hal Hne) in Hp.
  - apply Forall_app. split; [|apply Forall_singleton; right; by destruct Hfr as (s & ? & _)].
    eapply Forall_impl; [exact Hs|]. intros p [?|Hp]; [by left|right]. by eapply alive_grows.
  - unfold agent_count in *. rewrite (gr_live _ _ _ Hg), !length_app. simpl. lia.
Qed.

Lemma blank_era n slots : blank n slots -> blank n (slots ++ [ERA]).
Proof.
  intros [Hi Hf Hno Hs Hc]. split; try done.
  - apply Forall_app. split; [done|]. apply Forall_singleton. by left.
  - rewrite length_app. lia.
Qed.

Lemma blank_alloc n slots t d d0 d1 : blank n slots ->
  returns blob_error (alloc_agent n t d d0 d1)
    (fun '(ps, n') => blank n' (slots ++ [ag_principal ps])).
Proof.
  intros Hb. pose proof (alloc_agent_ok n t d d0 d1 (bk_inv _ _ Hb)) as Hal.
  destruct (alloc_agent n t d d0 d1) as [[ps n']|e| |] eqn:E; [|by right; rewrite Hal|done..].
  destruct Hal as (Hg & Hfr & _). by eapply blank_agent.
Qed.

Lemma alloc_record_blank n slots r : blank n slots ->
  returns blob_error (alloc_record n r) (fun '(p, n') => blank n' (slots ++ [p])).
Proof.
  intros Hb. unfold alloc_record.
  assert (forall t d d0 d1, returns blob_error
    ('(ps, n') ← alloc_agent n t d d0 d1; Ok (ag_principal ps, n'))
    (fun '(p, n') => blank n' (slots ++ [p]))) as Ha.
  { intros. eapply returns_bind; [by apply blank_alloc|]. by intros [ps n']. }
  destruct (_ =? _); [by apply blank_era|]. destruct (_ =? _).
  { rewrite alloc_free_agent by (apply (bk_inv _ _ Hb)). apply Ha. }
  repeat (destruct (_ =? _); [apply Ha|]). by left.
Qed.

Lemma alloc_records_blank rs n slots : blank n slots ->
  returns blob_error
    (foldM (fun '(n, slots) r => '(p, n) ← alloc_record n r; Ok (n, slots ++ [p])) rs (n, slots))
    (fun '(n', slots') => blank n' slots' /\ length slots' = (length slots + length rs)%nat).
Proof.
  revert n slots. induction rs as [|r rs IH]; intros n slots Hb; cbn [foldM length].
  - split; [done|lia].
  - apply (returns_bind _ _ _ (fun '(n', slots') => blank n' slots'
                                 /\ length slots' = S (length slots))).
    + eapply returns_bind; [by apply alloc_record_blank|]. intros [p n'] Hb'.
      split; [done|]. rewrite length_app. simpl. lia.
    + intros [n1 slots1] [Hb1 Hl1]. eapply returns_mono; [done| |by apply IH].
      intros [n' slots'] [? ?]. split; [done|lia].
Qed.

(** ** Wiring *)

Lemma bt_insert_nonempty {V} k (v : V) m : bt_insert k v m <> [].
Proof. destruct m as [|[k' v'] m]; simpl; [done|]. by destruct (cmp k k'). Qed.

(** Two real principal ports are never paired silently. *)
Definition faces (a b : PortId) : Prop :=
  real a = true /\ real b = true /\ port_kind a = Principal /\ port_kind b = Principal.

Lemma detect_pair_f1 n a b lo n' : detect_pair n a b lo = Ok n' -> frontier1 n' = [] ->
  frontier1 n = [] /\ ~ faces a b.
Proof.
  intros H Hf. unfold detect_pair, faces in *.
  destruct (port_kind a) eqn:Ka, (port_kind b) eqn:Kb;
    try (injection H as <-; split; [done|intros (_ & _ & ? & ?); done]).
  - destruct (is_null a) eqn:Na; simpl in H.
    { injection H as <-. split; [done|]. intros ([_ ?]%real_true & _); congruence. }
    destruct (is_null b) eqn:Nb; simpl in H.
    { injection H as <-. split; [done|]. intros (_ & [_ ?]%real_true & _); congruence. }
    unfold active_pair_new, principal_port in H. rewrite Ka, Kb in H. simpl in H.
    injection H as <-. by apply bt_insert_nonempty in Hf.
  - apply bind_Ok in H as (c4 & _ & H). destruct c4; injection H as <-;
      (split; [exact Hf|intros (_ & _ & ? & ?); done]).
  - apply bind_Ok in H as (c4 & _ & H). destruct c4; injection H as <-;
      (split; [exact Hf|intros (_ & _ & ? & ?); done]).
Qed.

Lemma connect_f1 n a b lo n' : port_in n a -> port_in n b -> connect n a b lo = Ok n' ->
  frontier1 n' = [] -> frontier1 n = [] /\ ~ faces a b.
Proof.
  intros Ha Hb H Hf. unfold connect in H.
  destruct (write_port_stored n a b Ha) as (n1 & E1 & H1). rewrite E1 in H. cbn [mbind res_bind] in H.
  assert (port_in n1 b) as Hb1 by (eapply port_in_slots; [symmetry; apply H1|done]).
  destruct (write_port_stored n1 b a Hb1) as (n2 & E2 & H2). rewrite E2 in H. cbn [mbind res_bind] in H.
  apply detect_pair_f1 in H as [H ?]; [|done]. split; [|done].
  by rewrite <- (st_f1 _ _ _ _ H1), <- (st_f1 _ _ _ _ H2).
Qed.

Lemma evolve_no_redex n a b n' : evolve n [] [(a, b)] n' -> ~ faces a b ->
  no_redex n -> no_redex n'.
Proof.
  intros He Hfa Hno i s' Hi Hs' Hr Hk.
  assert (port_at n' (i, Principal) = Some (principal s')) as Hp
    by (unfold port_at; simpl; by rewrite Hs').
  assert (alive n i) as Ha by (unfold alive; by rewrite (ev_live _ _ _ _ He)).
  rewrite (ev_ports _ _ _ _ He) in Hp. unfold upds in Hp. simpl in Hp.
  unfold upd1, faces in *.
  destruct (real b && bool_decide ((i, Principal) = key b)) eqn:Eb.
  - apply andb_true_iff in Eb as [Hrb [=Ei Kb]%bool_decide_eq_true].
    apply fmap_Some in Hp as (x & _ & Hp). subst a. apply Hfa. split; [done|]. split; [done|]. by split.
  - destruct (real a && bool_decide ((i, Principal) = key a)) eqn:Ea.
    + apply andb_true_iff in Ea as [Hra [=Ei Ka]%bool_decide_eq_true].
      apply fmap_Some in Hp as (x & _ & Hp). subst b.
      apply Hfa. split; [done|]. split; [done|]. by split.
    + unfold port_at in Hp. simpl in Hp. destruct (slot_at n i) as [s|] eqn:Hs; [|done].
      simpl in Hp. injection Hp as Hp. apply (Hno i s Ha Hs); by rewrite Hp.
Qed.

(** The wires of the reachable slots lead to reachable slots. *)
Definition framed (n : Net) : Prop := forall i k p, used n i -> port_at n (i, k) = Some p ->
  real p = true -> placed n p.

(** A wiring step keeps the arena's shape and the live agents, leads nowhere
    else, and holds every facing pair of principal ports in the frontier. *)
Record watched (n0 n : Net) : Prop := mk_watched {
  wt_arena : arena_wf (arena n);
  wt_slots : length (slots (arena n)) = length (slots (arena n0));
  wt_live : live_list (arena n0) ≡ₚ live_list (arena n);
  wt_framed : framed n;
  wt_no : frontier1 n = [] -> no_redex n
}.

(** A port that is virtual or placed. *)
Definition placed_end (n : Net) (p : PortId) : Prop := real p = true -> placed n p.

Lemma used_in n i : arena_wf (arena n) -> used n i -> 0 <= i < Z.of_nat (length (slots (arena n))).
Proof.
  intros Hw [-> |Hi]; [pose proof (aw_slots _ Hw); lia|]. pose proof (live_range _ _ Hw Hi). lia.
Qed.

Lemma placed_end_in n p : arena_wf (arena n) -> placed_end n p -> port_in n p.
Proof. intros Hw Hp Hr. apply used_in; [done|]. by apply Hp. Qed.

Lemma placed_live n n' p : live_list (arena n) ≡ₚ live_list (arena n') -> placed n p -> placed n' p.
Proof. intros Hl [?|Hp]; [by left|right]. unfold alive in *. by rewrite <- Hl. Qed.

Lemma connect_framed n a b n' : evolve n [] [(a, b)] n' -> placed_end n a -> placed_end n b ->
  framed n -> framed n'.
Proof.
  intros He Ha Hb Hf i k p Hu Hp Hr. pose proof (ev_live _ _ _ _ He) as Hl. simpl in Hl.
  assert (used n i) as Hu0 by (destruct Hu as [?|Hu]; [by left|right; unfold alive in *; by rewrite Hl]).
  apply (placed_live n); [done|]. rewrite (ev_ports _ _ _ _ He) in Hp.
  unfold upds in Hp. simpl in Hp. unfold upd1 in Hp.
  destruct (real b && bool_decide ((i, k) = key b)); [|destruct (real a && bool_decide ((i, k) = key a))].
  - apply fmap_Some in Hp as (x & _ & ->). by apply Ha.
  - apply fmap_Some in Hp as (x & _ & ->). by apply Hb.
  - by apply (Hf i k p).
Qed.

Lemma connect_watched n0 n a b lo : watched n0 n -> placed_end n0 a -> placed_end n0 b ->
  returns blob_error (connect n a b lo) (watched n0).
Proof.
  intros [Hw Hs Hl Hfr Hno] Ha Hb.
  assert (placed_end n a) as Ha1 by (intros Hr; eapply placed_live; [exact Hl|by apply Ha]).
  assert (placed_end n b) as Hb1 by (intros Hr; eapply placed_live; [exact Hl|by apply Hb]).
  pose proof (placed_end_in n a Hw Ha1) as Ha'. pose proof (placed_end_in n b Hw Hb1) as Hb'.
  destruct (evolve_connect n [] [] n a b lo (evolve_refl n Hw) Ha' Hb') as (n' & Hn & He).
  rewrite Hn. simpl. split.
  - apply He.
  - by rewrite (ev_slots _ _ _ _ He).
  - by rewrite Hl, (ev_live _ _ _ _ He).
  - by eapply connect_framed.
  - intros Hf. destruct (connect_f1 n a b lo n' Ha' Hb' Hn Hf) as [Hf0 Hfa].
    by eapply evolve_no_redex; [| |apply Hno].
Qed.

Lemma placed_new n p k : arena_wf (arena n) -> placed n p ->
  placed_end n (port_new (slot_idx p) k (gen_low p)).
Proof.
  intros Hw Hp _. unfold placed. pose proof (used_in n _ Hw Hp). pose proof (slots_max _ Hw).
  rewrite slot_idx_new; [exact Hp|unfold idx_range; lia|apply gen_low_bit].
Qed.

Lemma resolve_ok n slots e : arena_wf (arena n) -> Forall (placed n) slots ->
  returns blob_error (resolve slots e) (placed_end n).
Proof.
  intros Hw Hs. destruct e as [[idx k]|]; [|by intros ?]. simpl.
  destruct (slots !! Z.to_nat idx) as [p|] eqn:Hp; [|by left]. simpl.
  apply placed_new; [done|]. by eapply Forall_lookup_1.
Qed.

Lemma wire_record_ok n0 n slots i r : arena_wf (arena n0) -> Forall (placed n0) slots ->
  watched n0 n -> (i < length slots)%nat ->
  returns blob_error (wire_record slots n (i, r)) (watched n0).
Proof.
  intros Hw0 Hs Hw Hi. unfold wire_record. cbn [fst snd].
  destruct (lookup_lt_is_Some_2 slots i Hi) as [p Hp].
  assert (index slots i = Ok (E:=DnxError) p) as -> by (unfold index; by rewrite Hp).
  cbn [mbind res_bind]. pose proof (Forall_lookup_1 _ _ _ _ Hs Hp) as Hpl.
  revert n Hw. induction (rec_edges r) as [|[k e] es IH]; intros n Hw; cbn [foldM fst snd]; [done|].
  eapply (returns_bind _ _ _ (watched n0)); [|exact IH].
  eapply returns_bind; [by apply resolve_ok|]. intros dst Hd.
  apply connect_watched; [done|by apply placed_new|done].
Qed.

Lemma wire_records_ok n0 n slots (l : list (nat * Record_)) : arena_wf (arena n0) ->
  Forall (placed n0) slots -> watched n0 n -> Forall (fun ir => (ir.1 < length slots)%nat) l ->
  returns blob_error (foldM (wire_record slots) l n) (watched n0).
Proof.
  intros Hw0 Hs Hw Hl. revert n Hw. induction Hl as [|[i r] l Hi Hl IH]; intros n Hw;
    cbn [foldM]; [done|].
  eapply (returns_bind _ _ _ (watched n0)); [by apply wire_record_ok|exact IH].
Qed.

(** What a certified blob gives. *)
Record decoded (bs : list byte) (c : CanonicalNet) (p : PortId) : Prop := mk_decoded {
  dc_format : exists rs, valid_blob rs /\ bs = enc_blob rs
    /\ (agent_count (proper c) <= length rs <= length bs)%nat;
  dc_arena : arena_wf (arena (proper c));
  dc_f1 : frontier1 (proper c) = [];
  dc_f2 : frontier2 (proper c) = [];
  dc_no : no_redex (proper c);
  dc_framed : framed (proper c);
  dc_root : placed (proper c) p
}.

Lemma from_blob_decoded cls bs :
  returns blob_error (from_blob cls bs) (fun '(c, p) => decoded bs c p).
Proof.
  unfold from_blob, deserialize. pose proof (parse_blob_reads bs) as Hreads.
  destruct (parse_blob bs) as [rs|e| |] eqn:Hparse; [|exact Hreads..]. cbn [mbind res_bind].
  set (capacity := Z.max _ 2).
  assert (blank (net_new cls capacity) []) as Hb by (apply blank_new; unfold capacity; lia).
  unfold alloc_records. pose proof (alloc_records_blank rs _ _ Hb) as Hal.
  destruct (foldM _ rs _) as [[n0 slots]|e| |]; [|exact Hal..]. cbn [mbind res_bind].
  destruct Hal as [Hb0 Hlen]. pose proof (blank_no_redex _ _ Hb0) as Hno.
  destruct Hb0 as [Hi Hf Hbare Hs Hc]. simpl in Hlen.
  assert (framed n0) as Hfr by (intros i k p Hu Hp Hr; by rewrite (Hbare i k p Hu Hp) in Hr).
  assert (watched n0 n0) as Hw by (split; try done; apply (ni_arena _ Hi)).
  assert (Forall (fun ir => (ir.1 < length slots)%nat) (imap pair rs)) as Hidx.
  { apply Forall_lookup_2. intros i [j r] Hij. rewrite list_lookup_imap in Hij.
    apply fmap_Some in Hij as (x & Hx & [= -> _]). apply lookup_lt_Some in Hx. simpl. lia. }
  pose proof (wire_records_ok n0 n0 slots _ (ni_arena _ Hi) Hs Hw Hidx) as Hwire.
  destruct (foldM (wire_record slots) (imap pair rs) n0) as [n|e| |]; [|exact Hwire..].
  cbn [mbind res_bind]. simpl in Hwire. destruct Hwire as [Hwa Hws Hwl Hwf Hwn].
  pose proof (parse_blob_sound _ _ Hparse) as [Hv Hbs]. destruct Hv as (Hne & Hv).
  destruct (lookup_lt_is_Some_2 slots 0) as [p Hp]; [destruct rs; simpl in *; [done|lia]|].
  assert (index slots 0 = Ok (E:=DnxError) p) as -> by (unfold index; by rewrite Hp).
  cbn [mbind res_bind]. unfold certify_canonical.
  destruct (frontier1 n) eqn:F1; [|by left]. destruct (frontier2 n) eqn:F2; [|by left].
  destruct (net_pending_c1 n); [by left|]. cbn [mbind res_bind proper into_canonical]. split; try done.
  - exists rs. split; [by split|]. split; [done|]. split; [|by apply parse_blob_length].
    cbn [proper]. unfold agent_count in *. rewrite <- Hwl. lia.
  - by apply Hwn.
  - eapply placed_live; [exact Hwl|]. by eapply Forall_lookup_1.
Qed.

(** * Theorems *)

(** Decoding never panics and never loops, whatever the bytes: it ends
    with a net or with one of two errors.  A net it certifies comes from a
    blob of the documented format, has at most one agent per record and at
    most one record per byte, has empty frontiers, and has no active pair at
    all: no principal port of a live agent faces a principal port, so
    canonicity cannot be forged by a crafted blob. *)
Theorem from_blob_safe (cls : NetClass) (bs : list byte) :
  match from_blob cls bs with
  | Ok (c, p) =>
      (exists rs, valid_blob rs /\ bs = enc_blob rs
         /\ (agent_count (proper c) <= length rs <= length bs)%nat)
      /\ arena_wf (arena (proper c))
      /\ frontier1 (proper c) = [] /\ frontier2 (proper c) = [] /\ no_redex (proper c)
      /\ placed (proper c) p
  | Err e => blob_error e
  | Panic | Fuel => False
  end.
Proof.
  pose proof (from_blob_decoded cls bs) as H. destruct (from_blob cls bs) as [[c p]|e| |]; [|done..].
  destruct H as [Hf Ha H1 H2 Hn Hfr Hr]. done.
Qed.

(** * Re-hashing decoded nets

    A net decoded from untrusted bytes need not be an involution of wires,
    yet serialising it ends: every wire that the traversal can follow leads
    to a slot of the arena ([framed]), and each slot is numbered once. *)

Section Total.
Context (n : Net) (Hw : arena_wf (arena n)) (Hf : framed n).

(** The state of the traversal. *)
Record walk (stack : list PortId) (m : gmap Z Z) (order : list PortId) : Prop := mk_walk {
  wk_stack : Forall (placed_end n) stack;
  wk_map : forall i, is_Some (m !! i) <-> i ∈ slot_idx <$> order;
  wk_nodup : NoDup (slot_idx <$> order);
  wk_order : Forall (placed n) order;
  wk_real : Forall (fun p => real p = true) order
}.

Lemma walk_bound stack m order : walk stack m order ->
  (length order <= length (slots (arena n)))%nat.
Proof.
  intros [_ _ Hnd Ho _].
  rewrite <- (length_fmap slot_idx order), <- (length_seq (length (slots (arena n))) 0),
    <- (length_fmap Z.of_nat). apply submseteq_length, NoDup_submseteq; [done|].
  intros i (p & -> & Hp)%list_elem_of_fmap. rewrite Forall_forall in Ho.
  pose proof (used_in n _ Hw (Ho p Hp)). apply list_elem_of_fmap.
  exists (Z.to_nat (slot_idx p)). split; [lia|]. apply elem_of_seq. lia.
Qed.

Lemma placed_slot p : placed n p -> exists s, net_slot n p = Ok s /\ slot_at n (slot_idx p) = Some s.
Proof.
  intros Hp. pose proof (used_in n _ Hw Hp) as Hr. unfold net_slot, slot, slot_at, index.
  destruct (Z.ltb_spec (slot_idx p) 0); [lia|].
  destruct (lookup_lt_is_Some_2 (slots (arena n)) (Z.to_nat (slot_idx p))) as [s Hs]; [lia|].
  exists s. by rewrite Hs.
Qed.

(** Following a wire of a placed agent. *)
Lemma peer_placed p k : placed n p ->
  exists q, peer n (port_new (slot_idx p) k (gen_low p)) = Ok q /\ placed_end n q.
Proof.
  intros Hp. pose proof (placed_new n p k Hw Hp) as Hn. unfold peer.
  set (q := port_new _ _ _) in *. destruct (is_eraser q || is_null q) eqn:E.
  { exists q. split; [done|]. intros Hr. apply real_false in E. congruence. }
  assert (real q = true) as Hr by (unfold real; by rewrite E).
  destruct (placed_slot q (Hn Hr)) as (s & -> & Hs). cbn [mbind res_bind].
  eexists. split; [done|]. intros Hr'. apply (Hf (slot_idx q) (port_kind q)); [by apply Hn| |done].
  unfold port_at. simpl. by rewrite Hs.
Qed.

Lemma push_peers_placed p stack : placed n p -> Forall (placed_end n) stack ->
  exists l, push_peers n (slot_idx p) (gen_low p) stack = Ok (stack ++ l)
    /\ length l = 3%nat /\ Forall (placed_end n) l.
Proof.
  intros Hp Hs. unfold push_peers.
  destruct (peer_placed p Aux1 Hp) as (q2 & -> & H2), (peer_placed p Aux0 Hp) as (q1 & -> & H1),
    (peer_placed p Principal Hp) as (q0 & -> & H0). cbn [mbind res_bind].
  exists [q2; q1; q0]. do 2 (split; [done|]). by rewrite !Forall_cons, Forall_nil.
Qed.

Lemma walk_step p stack m order : walk (stack ++ [p]) m order ->
  exists stack' m' order', dfs_visit n p stack m order = Ok (stack', m', order')
    /\ walk stack' m' order'
    /\ (length stack' + 3 * (length (slots (arena n)) - length order')
        <= length stack + 3 * (length (slots (arena n)) - length order))%nat.
Proof.
  intros [Hst Hm Hnd Ho Hre]. apply Forall_app in Hst as [Hst Hp%Forall_inv]. unfold dfs_visit.
  assert (forall st, Forall (placed_end n) st -> walk st m order) as Hsame by (by split).
  destruct (is_eraser p || is_null p) eqn:E.
  { exists stack, m, order. split; [done|]. split; [by apply Hsame|lia]. }
  assert (real p = true) as Hr by (unfold real; by rewrite E). specialize (Hp Hr).
  destruct (m !! slot_idx p) as [x|] eqn:Hx.
  { exists stack, m, order. split; [done|]. split; [by apply Hsame|lia]. }
  destruct (placed_slot p Hp) as (s & -> & Hs). cbn [mbind res_bind].
  set (m' := <[slot_idx p := _]> m).
  assert (slot_idx p ∉ slot_idx <$> order) as Hni by (intros H%Hm; rewrite Hx in H; by destruct H).
  assert (forall st, Forall (placed_end n) st -> walk st m' (order ++ [p])) as Hnew.
  { intros st Hst'. split.
    - done.
    - intros i. rewrite fmap_app, elem_of_app. cbn [fmap list_fmap]. rewrite list_elem_of_singleton.
      rewrite <- Hm. unfold m'. destruct (decide (i = slot_idx p)) as [-> |Hne].
      + rewrite lookup_insert_eq. split; [by right|by eexists].
      + rewrite lookup_insert_ne by done. split; [by left|by intros [?|?]].
    - rewrite fmap_app. apply NoDup_app. split; [done|]. split; [|by apply NoDup_singleton].
      intros i Hi ->%list_elem_of_singleton. done.
    - apply Forall_app. by split; [|apply Forall_singleton].
    - apply Forall_app. by split; [|apply Forall_singleton]. }
  assert (length order < length (slots (arena n)))%nat as Hlt.
  { pose proof (walk_bound [] m' (order ++ [p]) (Hnew [] (Forall_nil_2 _))) as Hb.
    rewrite length_app in Hb. simpl in Hb. lia. }
  assert (length (order ++ [p]) = S (length order)) as Hl by (rewrite length_app; simpl; lia).
  destruct (is_free s); [|destruct (is_fan s || is_rep s)].
  - exists stack, m', (order ++ [p]). split; [done|]. split; [by apply Hnew|]. lia.
  - destruct (push_peers_placed p stack Hp Hst) as (l & -> & Hll & Hlp). cbn [mbind res_bind].
    exists (stack ++ l), m', (order ++ [p]). split; [done|]. rewrite length_app.
    split; [apply Hnew; by apply Forall_app|]. lia.
  - exists stack, m', (order ++ [p]). split; [done|]. split; [by apply Hnew|]. lia.
Qed.

Lemma walk_total fuel stack m order : walk stack m order ->
  (length stack + 3 * (length (slots (arena n)) - length order) <= fuel)%nat ->
  exists m' order', dfs_assign fuel n stack m order = Ok (m', order') /\ walk [] m' order'.
Proof.
  revert stack m order. induction fuel as [|fuel IH]; intros stack m order Hwk Hfu; cbn [dfs_assign];
    destruct (pop stack) as [[p stack1]|] eqn:Hpop.
  - apply pop_Some in Hpop as ->. rewrite length_app in Hfu. simpl in Hfu. lia.
  - apply pop_None in Hpop as ->. by exists m, order.
  - apply pop_Some in Hpop as ->.
    destruct (walk_step p stack1 m order Hwk) as (st & m1 & o1 & -> & Hwk1 & Hd).
    cbn [mbind res_bind]. apply IH; [done|]. rewrite length_app in Hfu. simpl in Hfu. lia.
  - apply pop_None in Hpop as ->. by exists m, order.
Qed.

Lemma emit_edge_total p k m buf : placed n p ->
  total (emit_edge n (port_new (slot_idx p) k (gen_low p)) m buf).
Proof.
  intros Hp. unfold emit_edge. destruct (peer_placed p k Hp) as (q & -> & _). cbn [mbind res_bind].
  total.
Qed.

Lemma emit_record_total p m buf : placed n p -> total (emit_record n p m buf).
Proof.
  intros Hp. unfold emit_record. destruct (placed_slot p Hp) as (s & -> & _). cbn [mbind res_bind].
  apply total_if; [done|]. apply total_if; [done|].
  repeat (apply total_if; [apply total_bind; [by apply emit_edge_total|intros; by apply emit_edge_total]|]).
  done.
Qed.

Lemma serialize_total p : placed n p -> total (serialize n p).
Proof.
  intros Hp. unfold serialize.
  assert (walk [p] ∅ []) as H0.
  { split; [|intros i|constructor..].
    - apply Forall_cons. split; [by intros _|constructor].
    - rewrite lookup_empty. split; [by intros []|by intros ?%not_elem_of_nil]. }
  destruct (walk_total (dfs_fuel n) [p] ∅ [] H0) as (m & order & -> & [_ _ _ Ho _]).
  { unfold dfs_fuel. simpl. lia. }
  cbn [mbind res_bind]. set (buf := [_] ++ _). clearbody buf. revert buf.
  induction Ho as [|q order Hq Ho IH]; intros buf; cbn [foldM]; [done|].
  apply total_bind; [by apply emit_record_total|]. intros b _. apply IH.
Qed.
End Total.

(** Decoding and then hashing untrusted bytes always ends. *)
Lemma rehash_total {H : Type} (blake3 : list byte -> H) cls bs :
  total ('(c, p) ← from_blob cls bs; canonical_hash blake3 c p).
Proof.
  pose proof (from_blob_decoded cls bs) as Hd.
  destruct (from_blob cls bs) as [[c p]|e| |]; cbn [mbind res_bind]; [|done..].
  destruct Hd as [_ Ha _ _ _ Hfr Hp]. unfold canonical_hash.
  apply total_bind; [by apply serialize_total|done].
Qed.
