(* ===== verification/Effect.v ===== *)
(** * Effect rows ([crates/dnx-core/src/effect.rs])

    The set of effect labels a computation may perform, with the name of the
    row it is open over, if any; then the handlers, the check before a run and
    the loop that answers its requests. *)
From S2P Require Import Prelude Utf8 Text Codec Error LOPath Port Arena Net Prim.

Record EffectRow : Type := mk_row { labels : gset (list Z); tail : option (list Z) }.

Definition row_pure : EffectRow := mk_row ∅ None.

Definition is_pure (r : EffectRow) : bool :=
  bool_decide (labels r = ∅) && match tail r with None => true | Some _ => false end.

Definition single (label : str) : EffectRow := mk_row ({[label]} ∪ labels row_pure) (tail row_pure).

Definition row_union (a b : EffectRow) : EffectRow :=
  mk_row (labels a ∪ labels b) (match tail a with Some t => Some t | None => tail b end).

(** * Lemmas *)

Lemma is_pure_true r : is_pure r = true <-> r = row_pure.
Proof.
  unfold is_pure, row_pure. destruct r as [l t]. simpl. rewrite andb_true_iff, bool_decide_eq_true.
  split; [intros [-> ?]; by destruct t|by intros [= -> ->]].
Qed.

Lemma union_pure a b : is_pure (row_union a b) = is_pure a && is_pure b.
Proof.
  apply eq_bool_prop_intro. rewrite andb_True, !Is_true_true, !is_pure_true.
  destruct a as [la ta], b as [lb tb]. unfold row_union, row_pure. simpl. split.
  - intros [= Hl Ht]. destruct ta; [done|]. subst tb.
    assert (la = ∅ /\ lb = ∅) as [-> ->] by set_solver. done.
  - intros [[= -> ->] [= -> ->]]. by rewrite (union_empty_l_L ∅).
Qed.

(** * Effect handlers ([crates/dnx-core/src/effect.rs])

    The environment of handlers, the check that a row is covered before a run
    starts, and the loop that answers the requests of a run.  A handler may
    act on the outside world: it is a function of its arguments and of a
    state [W] that it may change. *)

(** A request captured during normalization. *)
Record EffRequest : Type := mk_request {
  rq_label : list Z;
  rq_args : list PrimValue;
  continuation : PortId;
  rq_lo : LOPath
}.

Inductive HandlerResult : Type :=
| Resume (v : PrimValue)
| Aborted (v : PrimValue).

Inductive HandlerError : Type :=
| HandlerFailed (msg : list Z)
| NoHandler (label : list Z).

Section Handlers.
Context {W : Type}.

Notation Handler := (list PrimValue -> act W HandlerError HandlerResult) (only parsing).
Notation HandlerEnv := (gmap (list Z) Handler) (only parsing).

Definition env_new : HandlerEnv := ∅.

Definition register_handler (env : HandlerEnv) (label : str) (h : Handler) : HandlerEnv := <[label := h]> env.

Definition has_handler (env : HandlerEnv) (label : str) : bool :=
  match env !! label with Some _ => true | None => false end.

Definition handle_effect (env : HandlerEnv) (label : str) (args : list PrimValue)
    : act W HandlerError HandlerResult :=
  match env !! label with
  | Some h => h args
  | None => throw (NoHandler label)
  end.

(** The labels of a row, in order. *)
Definition row_labels (row : EffectRow) : list (list Z) :=
  (sort_by ((fun l => (l, tt)) <$> elements (labels row))).*1.

Definition validate_handlers (env : HandlerEnv) (row : EffectRow) : res HandlerError unit :=
  foldM (fun _ label => if has_handler env label then Ok tt else Err (NoHandler label)) (row_labels row) tt.

Definition no_handler_text (label : list Z) : list Z :=
  chars "no handler for effect '" ++ label ++ chars "'".

Definition answer_value (r : HandlerResult) : PrimValue :=
  match r with Resume v => v | Aborted v => v end.

Definition answer_error (e : HandlerError) : DnxError :=
  match e with NoHandler l => PrimError (no_handler_text l) | HandlerFailed msg => PrimError msg end.

(** [match env.handle(label, args)]: both results give a value. *)
Definition answer (env : HandlerEnv) (r : EffRequest) : act W DnxError PrimValue := fun w =>
  match handle_effect env (rq_label r) (rq_args r) w with
  | (Ok a, w) => (Ok (answer_value a), w)
  | (Err e, w) => (Err (answer_error e), w)
  | (Panic, w) => (Panic, w)
  | (Fuel, w) => (Fuel, w)
  end.

Definition resume (st : Net * PrimState) (r : EffRequest) (v : PrimValue) : res DnxError (Net * PrimState) :=
  '(p, n, ps) ← alloc_prim_val st.1 st.2 v;
  n ← connect n p (continuation r) (rq_lo r);
  Ok (n, ps).

Fixpoint perform (env : HandlerEnv) (reqs : list EffRequest) (st : Net * PrimState)
    : act W DnxError (Net * PrimState) :=
  match reqs with
  | [] => mret st
  | r :: reqs => v ← answer env r; st ← pure_act (resume st r v); perform env reqs st
  end.

(** The loop takes the pending requests until there are none; nothing in it
    adds one.  On an error the caller keeps what was written so far, which the
    result leaves out. *)
Fixpoint normalize_effectful (fuel : nat) (env : HandlerEnv) (st : Net * PrimState)
    (pending_effects : list EffRequest) : act W DnxError (Net * PrimState) :=
  match fuel with
  | O => pure_act Fuel
  | S fuel =>
      match pending_effects with
      | [] => mret st
      | reqs => st ← perform env reqs st; normalize_effectful fuel env st []
      end
  end.

(** * Specification *)

(** What the handlers answer to a list of requests, in order. *)
Fixpoint answers (env : HandlerEnv) (reqs : list EffRequest) : act W DnxError (list PrimValue) :=
  match reqs with
  | [] => mret []
  | r :: reqs => v ← answer env r; vs ← answers env reqs; mret (v :: vs)
  end.

Definition covers (env : HandlerEnv) (ls : gset (list Z)) : Prop := forall l, l ∈ ls -> is_Some (env !! l).
End Handlers.
Notation Handler W := (list PrimValue -> act W HandlerError HandlerResult) (only parsing).
Notation HandlerEnv W := (gmap (list Z) (Handler W)) (only parsing).
