(* ===== verification/Term.v ===== *)
(** * Kernel terms ([crates/dnx-proof/src/tm.rs], [universe.rs],
    [inductive.rs], and the term builders of [driver.rs], [infer.rs] and
    [recursor.rs])

    The terms of the proof kernel with de Bruijn indices, weakening and
    substitution, inductive declarations, and the type of a recursor.
    An index is a [u32]: [shift] truncates as the code does.  A cutoff counts
    the binders above a subterm of a term in memory and is not wrapped.
    The successor of a universe level is a checked addition: it panics at
    [u32::MAX], as a build with overflow checks does. *)
From S2P Require Import Prelude Bytes.

(** ** Terms *)

Notation Level := Z (only parsing).
Notation ConstId := Z (only parsing).
Notation IndId := Z (only parsing).

Inductive Tm : Type :=
| Var (i : Z)
| Sort (l : Level)
| Pi (dom cod : Tm)
| Lam (dom body : Tm)
| App (f x : Tm)
| Const (c : ConstId)
| Ind (i : IndId)
| Ctor (i : IndId) (k : Z)
| Elim (i : IndId).

#[export] Instance tm_eq_dec : EqDecision Tm.
Proof. solve_decision. Defined.

Notation Telescope := (list Tm) (only parsing).

(** Add [d] to every variable at or above [cutoff]. *)
Fixpoint shift (t : Tm) (d cutoff : Z) : Tm :=
  match t with
  | Var i => Var (if cutoff <=? i then as_u32 (i + d) else i)
  | Sort _ | Const _ | Ind _ | Ctor _ _ | Elim _ => t
  | Pi a b => Pi (shift a d cutoff) (shift b d (cutoff + 1))
  | Lam a b => Lam (shift a d cutoff) (shift b d (cutoff + 1))
  | App f x => App (shift f d cutoff) (shift x d cutoff)
  end.

(** Substitute [arg] for variable [j]; variables above it are lowered. *)
Fixpoint subst (t : Tm) (j : Z) (arg : Tm) : Tm :=
  match t with
  | Var i =>
      if i =? j then shift arg j 0
      else Var (if j <? i then i - 1 else i)
  | Sort _ | Const _ | Ind _ | Ctor _ _ | Elim _ => t
  | Pi a b => Pi (subst a j arg) (subst b (j + 1) arg)
  | Lam a b => Lam (subst a j arg) (subst b (j + 1) arg)
  | App f x => App (subst f j arg) (subst x j arg)
  end.

(** ** Universes *)

Definition succ {E : Type} (l : Level) : res E Level :=
  if l + 1 <? 2 ^ 32 then Ok (l + 1) else Panic.
Definition max (i j : Level) : Level := Z.max i j.
Definition le (i j : Level) : bool := i <=? j.

(** ** Spines and telescopes *)

Fixpoint spine_from (t : Tm) (args : list Tm) : Tm * list Tm :=
  match t with
  | App f x => spine_from f (x :: args)
  | _ => (t, args)
  end.

(** The head of an application and its arguments, left to right. *)
Definition spine (t : Tm) : Tm * list Tm := spine_from t [].

Definition apply (head : Tm) (args : list Tm) : Tm := foldl App head args.

(** [Π tele. body], the first binder outermost. *)
Definition telescope (tele : list Tm) (body : Tm) : Tm := foldr Pi body tele.

(** Whether the head, under codomains and applications, is [Ind id]. *)
Fixpoint head_is_ind (t : Tm) (id : IndId) : bool :=
  match t with
  | Ind j => j =? id
  | App f _ => head_is_ind f id
  | Pi _ b => head_is_ind b id
  | _ => false
  end.

(** Whether variable [k] occurs. *)
Fixpoint occurs_var (t : Tm) (k : Z) : bool :=
  match t with
  | Var i => i =? k
  | Pi a b | Lam a b => occurs_var a k || occurs_var b (k + 1)
  | App a b => occurs_var a k || occurs_var b k
  | _ => false
  end.

(** Whether a variable above the binders occurs; an index is a [u32]. *)
Fixpoint is_open (t : Tm) (depth : Z) : bool :=
  match t with
  | Var i => depth <=? as_u32 i
  | Lam a b | Pi a b => is_open a depth || is_open b (depth + 1)
  | App a b => is_open a depth || is_open b depth
  | _ => false
  end.

(** Types and kernel symbols are converted in the typed layer. *)
Fixpoint needs_typed_conv (t : Tm) : bool :=
  match t with
  | Sort _ | Pi _ _ | Const _ | Ind _ | Ctor _ _ | Elim _ => true
  | Lam a b | App a b => needs_typed_conv a || needs_typed_conv b
  | Var _ => false
  end.

(** ** Inductive declarations *)

Record CtorDecl : Type := mk_ctor {
  ctor_ix : Z;
  ctor_args : Telescope;
  ret_indices : list Tm
}.

Record Inductive_ : Type := mk_ind {
  ind_id : IndId;
  ind_params : Telescope;
  ind_indices_tele : Telescope;
  ind_sort : Level;
  ind_ctors : list CtorDecl
}.

Record CtorArity : Type := mk_ctor_arity { ca_ix : Z; ca_nfields : nat; ca_nrec : nat }.

Record ArityTable : Type := mk_arity {
  at_ind : IndId;
  at_nparams : nat;
  at_nindices : nat;
  at_ctors : list CtorArity
}.

(** ** Types of constructors and recursors *)

(** [Var (n - 1 - a)] for [a] in [0..n], each raised by [k]: the variables of
    a band of [n] binders with [k] binders below it. *)
Definition band (n k : nat) : list Tm :=
  (fun a => Var (Z.of_nat (k + (n - 1 - a)))) <$> seq 0 n.

(** The type [I P ret_indices] a constructor returns, under its fields. *)
Definition ctor_ret (i : IndId) (ind : Inductive_) (cd : CtorDecl) : Tm :=
  apply (Ind i)
    (band (length (ind_params ind)) (length (ctor_args cd)) ++ ret_indices cd).

(** [I P X] with [nidx] indices below the parameters. *)
Definition ind_app (i : IndId) (p nidx depth_above_params : nat) : Tm :=
  apply (Ind i) (band p (nidx + depth_above_params) ++ band nidx 0).

(** Index arguments of a recursive field [I P idxs]. *)
Definition ind_indices (field_ty : Tm) (i : IndId) (p : nat) : list Tm :=
  let '(cur, args) := spine field_ty in
  match cur with
  | Ind j => if (j =? i) && (p <=? length args)%nat then drop p args else []
  | _ => []
  end.

(** [for q in (0..n).rev() { body = Π (f q). body }]. *)
Definition pis (n : nat) (f : nat -> Tm) (body : Tm) : Tm :=
  telescope (f <$> seq 0 n) body.

(** The positions of the recursive fields. *)
Definition rec_fields (i : IndId) (fields : list Tm) : list nat :=
  (filter (fun qt => head_is_ind qt.2 i) (imap pair fields)).*1.

Definition minor_type (ind : Inductive_) (k : nat) (cd : CtorDecl) : Tm :=
  let i := ind_id ind in
  let p := length (ind_params ind) in
  let fields := ctor_args cd in
  let m := length fields in
  let recs := rec_fields i fields in
  let r := length recs in
  let field q := nth q fields (Sort 0) in
  let motive_v := Z.of_nat (m + r + k) in
  let ret_args := (fun ri => shift (shift ri (Z.of_nat r) 0) (Z.of_nat (k + 1))
                               (Z.of_nat (r + m))) <$> ret_indices cd in
  let ctor := apply (apply (Ctor i (Z.of_nat k)) (band p (m + r + k + 1))) (band m r) in
  let body := App (apply (Var motive_v) ret_args) ctor in
  let ih j :=
    let q := nth j recs 0%nat in
    let idx_args := (fun t => shift (shift t (Z.of_nat (j + m - q)) 0) (Z.of_nat (k + 1))
                                (Z.of_nat (j + m))) <$> ind_indices (field q) i p in
    App (apply (Var (Z.of_nat (m + j + k))) idx_args) (Var (Z.of_nat (j + (m - 1 - q)))) in
  let body := pis r ih body in
  pis m (fun q => shift (field q) (Z.of_nat (k + 1)) (Z.of_nat q)) body.

Definition recursor_type (ind : Inductive_) (lm : Level) : option Tm :=
  let i := ind_id ind in
  let p := length (ind_params ind) in
  let c := length (ind_ctors ind) in
  let indices := ind_indices_tele ind in
  let nidx := length indices in
  let body := App (apply (Var (Z.of_nat (1 + nidx + c))) (band nidx 1)) (Var 0) in
  let body := Pi (ind_app i p nidx (1 + c)) body in
  let body := telescope (imap (fun t ty => shift ty (Z.of_nat (1 + c)) (Z.of_nat t)) indices) body in
  let body := telescope (imap (minor_type ind) (ind_ctors ind)) body in
  let motive_ty := telescope indices (Pi (ind_app i p nidx 0) (Sort lm)) in
  let body := Pi motive_ty body in
  Some (telescope (ind_params ind) body).
