(* ===== verification/Kernel.v ===== *)
(** * The proof kernel ([crates/dnx-proof/src/driver.rs], [infer.rs],
    [conv.rs], [positivity.rs], [env.rs])

    Reduction in the typed layer (beta, delta, iota), full normal forms with
    eta, type inference and checking, strict positivity and the admission of
    definitions and inductive types.  Reduction and inference call each other
    (an indexed iota step infers the type of a recursive field), so they are
    one recursion on fuel: a body of each function over the calls it makes
    ([Calls]), and [kernel], the functions with a given fuel.  No call is
    bounded in the code; [Fuel] means no answer within the fuel.  Functions
    that cannot fail have the empty type of errors. *)
From S2P Require Import Prelude Bytes Error Term.

Inductive TypeError : Type :=
| UnboundVar
| UnknownConst
| UnknownInd
| NotASort
| NotAPi
| Mismatch
| Unsupported (why : string).

Inductive AdmitError : Type :=
| Cycle (c : ConstId)
| Duplicate
| BadDecl (why : string).

Record GlobalEnv : Type := mk_env {
  consts : gmap Z (Tm * Tm);
  inds : gmap Z Inductive_;
  recursors : gmap Z ArityTable
}.

Definition env_default : GlobalEnv := mk_env ∅ ∅ ∅.

Definition const_body (env : GlobalEnv) (id : ConstId) : option Tm := snd <$> consts env !! id.

(** The type of a binder is stored in the scope above it; innermost last. *)
Notation Ctx := (list Tm) (only parsing).

Definition var_type (ctx : Ctx) (i : Z) : res TypeError Tm :=
  let n := Z.of_nat (length ctx) in
  if i + 1 <=? n then
    ty ← index ctx (Z.to_nat (n - (i + 1)));
    Ok (shift ty (i + 1) 0)
  else Err UnboundVar.

(** A result that cannot be an error. *)
Definition total {E A : Type} (m : res Empty_set A) : res E A := map_err (Empty_set_rect _) m.

(** [Result::ok]. *)
Definition ok {E A : Type} (m : res E A) : res Empty_set (option A) :=
  match m with
  | Ok a => Ok (Some a)
  | Err _ => Ok None
  | Panic => Panic
  | Fuel => Fuel
  end.

(** The interaction-net route of [conv]: two closed terms without types or
    kernel symbols are erased to nets, normalised, read back and interned. *)
Class NetPath : Type := net_path : Tm -> Tm -> res DnxError bool.

(** The calls a function makes, with the fuel that is left. *)
Record Calls : Type := mk_calls {
  call_whnf : Ctx -> Tm -> res Empty_set Tm;
  call_iota : Ctx -> IndId -> list Tm -> res Empty_set (option Tm);
  call_fields : Ctx -> IndId -> nat -> nat -> Tm -> res Empty_set (option (list Tm));
  call_infer : Ctx -> Tm -> res TypeError Tm;
  call_elim : Ctx -> IndId -> list Tm -> res TypeError Tm;
  call_check : Ctx -> Tm -> Tm -> res TypeError unit;
  call_sort : Ctx -> Tm -> res TypeError Level;
  call_pi : Ctx -> Tm -> res TypeError (Tm * Tm);
  call_nf : Ctx -> Tm -> res Empty_set Tm;
  call_conv : Ctx -> Tm -> Tm -> res DnxError bool
}.

Definition no_fuel : Calls :=
  mk_calls (fun _ _ => Fuel) (fun _ _ _ => Fuel) (fun _ _ _ _ _ => Fuel) (fun _ _ => Fuel)
    (fun _ _ _ => Fuel) (fun _ _ _ => Fuel) (fun _ _ => Fuel) (fun _ _ => Fuel)
    (fun _ _ => Fuel) (fun _ _ _ => Fuel).

Section Kernel.
Context `{NP : NetPath} (env : GlobalEnv) (self : Calls).

(** The inductive hypothesis of one recursive field. *)
Definition hypothesis (i : IndId) (prefix idx : list Tm) (field : Tm) : Tm :=
  App (apply (apply (Elim i) prefix) idx) field.

Definition whnf_tm_body (ctx : Ctx) (t : Tm) : res Empty_set Tm :=
  let '(head, args) := spine t in
  match head with
  | Lam _ body =>
      match args with
      | [] => Ok t
      | a :: rest => call_whnf self ctx (apply (subst body 0 a) rest)
      end
  | Const c =>
      match const_body env c with
      | Some b => call_whnf self ctx (apply b args)
      | None => Ok t
      end
  | Elim i =>
      r ← call_iota self ctx i args;
      match r with
      | Some t' => call_whnf self ctx t'
      | None => Ok t
      end
  | _ => Ok t
  end.

(** One turn of the loop over the constructor's argument types. *)
Definition add_hypothesis (ctx : Ctx) (i : IndId) (np nidx : nat) (prefix fields : list Tm)
    (st : option Tm) (pt : nat * Tm) : res Empty_set (option Tm) :=
  match st with
  | None => Ok None
  | Some t =>
      if head_is_ind pt.2 i then
        match fields !! pt.1 with
        | None => Ok None
        | Some field =>
            o ← call_fields self ctx i np nidx field;
            Ok (option_map (fun idx => App t (hypothesis i prefix idx field)) o)
        end
      else Ok (Some t)
  end.

Definition try_iota_body (ctx : Ctx) (i : IndId) (args : list Tm)
    : res Empty_set (option Tm) :=
  match inds env !! i with
  | None => Ok None
  | Some ind =>
      let np := length (ind_params ind) in
      let nidx := length (ind_indices_tele ind) in
      let nctors := length (ind_ctors ind) in
      let expected := (np + 1 + nctors + nidx + 1)%nat in
      if (length args <? expected)%nat then Ok None
      else
        arg ← index args (expected - 1);
        scrut ← call_whnf self ctx arg;
        let '(chead, cargs) := spine scrut in
        match chead with
        | Ctor j c =>
            if (j =? i) && (c <? Z.of_nat nctors) then
              let fields := drop (Nat.min np (length cargs)) cargs in
              minor ← index args (np + 1 + Z.to_nat c);
              let prefix := take (np + 1 + nctors) args in
              decl ← index (ind_ctors ind) (Z.to_nat c);
              r ← foldM (add_hypothesis ctx i np nidx prefix fields)
                     (imap pair (ctor_args decl)) (Some (apply minor fields));
              Ok (option_map (fun t => apply t (drop expected args)) r)
            else Ok None
        | _ => Ok None
        end
  end.

Definition field_indices_body (ctx : Ctx) (i : IndId) (np nidx : nat) (field : Tm)
    : res Empty_set (option (list Tm)) :=
  if (nidx =? 0)%nat then Ok (Some [])
  else
    o ← ok (call_infer self ctx field);
    match o with
    | None => Ok None
    | Some fty =>
        ty ← call_whnf self ctx fty;
        let '(head, args) := spine ty in
        match head with
        | Ind j =>
            if (j =? i) && (np <=? length args)%nat then Ok (Some (drop np args)) else Ok None
        | _ => Ok None
        end
    end.

Definition infer_body (ctx : Ctx) (t : Tm) : res TypeError Tm :=
  let '(head, args) := spine t in
  match head with
  | Elim i => call_elim self ctx i args
  | _ =>
      match t with
      | Var i => var_type ctx i
      | Sort l => l' ← succ l; Ok (Sort l')
      | Pi a b =>
          i ← call_sort self ctx a;
          j ← call_sort self (ctx ++ [a]) b;
          Ok (Sort (max i j))
      | Lam a b =>
          _ ← call_sort self ctx a;
          bt ← call_infer self (ctx ++ [a]) b;
          Ok (Pi a bt)
      | App f x =>
          ft ← call_infer self ctx f;
          '(dom, cod) ← call_pi self ctx ft;
          _ ← call_check self ctx x dom;
          Ok (subst cod 0 x)
      | Const c => ok_or (fst <$> consts env !! c) UnknownConst
      | Ind i =>
          ind ← ok_or (inds env !! i) UnknownInd;
          Ok (telescope (ind_params ind)
                (telescope (ind_indices_tele ind) (Sort (ind_sort ind))))
      | Ctor i k =>
          ind ← ok_or (inds env !! i) UnknownInd;
          cd ← ok_or (find (fun c => ctor_ix c =? k) (ind_ctors ind))
                 (Unsupported "ctor index");
          Ok (telescope (ind_params ind) (telescope (ctor_args cd) (ctor_ret i ind cd)))
      | Elim _ => Err (Unsupported "Elim must be applied (spine head)")
      end
  end.

Definition infer_elim_body (ctx : Ctx) (i : IndId) (args : list Tm)
    : res TypeError Tm :=
  ind ← ok_or (inds env !! i) UnknownInd;
  let nparams := length (ind_params ind) in
  let nidx := length (ind_indices_tele ind) in
  motive ← ok_or (args !! nparams)
             (Unsupported "recursor needs its params + motive (monomorphic levels)");
  mty ← call_infer self ctx motive;
  mty ← foldM (fun mty _ => '(_, cod) ← call_pi self ctx mty; Ok cod) (seq 0 (nidx + 1)) mty;
  w ← total (call_whnf self ctx mty);
  lm ← match w with
       | Sort l => Ok l
       | _ => Err (Unsupported "motive must land in a sort")
       end;
  rty ← ok_or (recursor_type ind lm)
          (Unsupported "recursor type for parametrised/indexed family (A6)");
  foldM (fun cur a =>
           '(dom, cod) ← call_pi self ctx cur;
           _ ← call_check self ctx a dom;
           Ok (subst cod 0 a)) args rty.

Definition check_body (ctx : Ctx) (t ty : Tm) : res TypeError unit :=
  got ← call_infer self ctx t;
  match call_conv self ctx got ty with
  | Ok true => Ok tt
  | Ok false => Err Mismatch
  | Err _ => Err Mismatch
  | Panic => Panic
  | Fuel => Fuel
  end.

Definition sort_of_body (ctx : Ctx) (t : Tm) : res TypeError Level :=
  ty ← call_infer self ctx t;
  w ← total (call_whnf self ctx ty);
  match w with
  | Sort l => Ok l
  | _ => Err NotASort
  end.

Definition as_pi_body (ctx : Ctx) (t : Tm) : res TypeError (Tm * Tm) :=
  w ← total (call_whnf self ctx t);
  match w with
  | Pi a b => Ok (a, b)
  | _ => Err NotAPi
  end.

Definition nf_tm_body (ctx : Ctx) (t : Tm) : res Empty_set Tm :=
  w ← call_whnf self ctx t;
  match w with
  | Lam d b =>
      dom ← call_nf self ctx d;
      body ← call_nf self (ctx ++ [d]) b;
      match body with
      | App f (Var 0) => if occurs_var f 0 then Ok (Lam dom body) else Ok (shift f (-1) 0)
      | _ => Ok (Lam dom body)
      end
  | Pi d b =>
      dom ← call_nf self ctx d;
      body ← call_nf self (ctx ++ [d]) b;
      Ok (Pi dom body)
  | App f x =>
      f' ← call_nf self ctx f;
      x' ← call_nf self ctx x;
      Ok (App f' x')
  | other => Ok other
  end.

Definition conv_body (ctx : Ctx) (t u : Tm) : res DnxError bool :=
  if is_open t 0 || is_open u 0 || needs_typed_conv t || needs_typed_conv u then
    nt ← total (call_nf self ctx t);
    nu ← total (call_nf self ctx u);
    Ok (bool_decide (nt = nu))
  else net_path t u.
End Kernel.

Section Fuelled.
Context `{NP : NetPath} (env : GlobalEnv).

Fixpoint kernel (fuel : nat) : Calls :=
  match fuel with
  | O => no_fuel
  | S k =>
      let self := kernel k in
      mk_calls (whnf_tm_body env self) (try_iota_body env self) (field_indices_body self)
        (infer_body env self) (infer_elim_body env self) (check_body self) (sort_of_body self)
        (as_pi_body self) (nf_tm_body self) (conv_body self)
  end.

Definition whnf_tm (fuel : nat) := call_whnf (kernel fuel).
Definition try_iota (fuel : nat) := call_iota (kernel fuel).
Definition infer (fuel : nat) := call_infer (kernel fuel).
Definition check (fuel : nat) := call_check (kernel fuel).
Definition sort_of (fuel : nat) := call_sort (kernel fuel).
Definition nf_tm (fuel : nat) := call_nf (kernel fuel).
Definition conv (fuel : nat) := call_conv (kernel fuel).
End Fuelled.

(** * Admission of definitions and inductive types
    ([crates/dnx-proof/src/env.rs], [positivity.rs])

    An operation on the environment returns the environment after the call
    along with its result, because a rejected inductive type is registered
    before the last checks and removed again. *)

(** ** Definitions *)

(** Whether [t] mentions a constant that is not yet admitted, or [this]. *)
Fixpoint refs_unknown_const (t : Tm) (known : gmap Z (Tm * Tm)) (this : ConstId) : bool :=
  match t with
  | Const c => (c =? this) || negb (bool_decide (is_Some (known !! c)))
  | Pi a b | Lam a b | App a b =>
      refs_unknown_const a known this || refs_unknown_const b known this
  | _ => false
  end.

Definition set_consts (m : gmap Z (Tm * Tm)) (env : GlobalEnv) : GlobalEnv :=
  mk_env m (inds env) (recursors env).
Definition set_inds (m : gmap Z Inductive_) (env : GlobalEnv) : GlobalEnv :=
  mk_env (consts env) m (recursors env).
Definition set_recursors (m : gmap Z ArityTable) (env : GlobalEnv) : GlobalEnv :=
  mk_env (consts env) (inds env) m.

Definition add_const (env : GlobalEnv) (id : ConstId) (ty body : Tm)
    : GlobalEnv * res AdmitError unit :=
  if bool_decide (is_Some (consts env !! id)) then (env, Err Duplicate)
  else if refs_unknown_const body (consts env) id then (env, Err (Cycle id))
  else (set_consts (<[id := (ty, body)]> (consts env)) env, Ok tt).

(** ** Positivity *)

Section Positivity.
Context `{NP : NetPath} (env : GlobalEnv).

Fixpoint occurs (fuel : nat) (i : IndId) (t : Tm) : res Empty_set bool :=
  match fuel with
  | O => Fuel
  | S k =>
      w ← whnf_tm env k [] t;
      match w with
      | Ind j => Ok (j =? i)
      | Pi a b | Lam a b | App a b =>
          x ← occurs k i a;
          if (x : bool) then Ok true else occurs k i b
      | _ => Ok false
      end
  end.

(** [while let Tm::App(f, x) = head]. *)
Fixpoint valid_ind_app (fuel : nat) (i : IndId) (t : Tm) : res Empty_set bool :=
  match t with
  | App f x =>
      o ← occurs fuel i x;
      if (o : bool) then Ok false else valid_ind_app fuel i f
  | Ind j => Ok (j =? i)
  | _ => Ok false
  end.

Fixpoint strictly_positive (fuel : nat) (i : IndId) (t : Tm) : res Empty_set bool :=
  match fuel with
  | O => Fuel
  | S k =>
      w ← whnf_tm env k [] t;
      match w with
      | Pi a b =>
          x ← occurs k i a;
          if (x : bool) then Ok false else strictly_positive k i b
      | _ =>
          x ← occurs k i w;
          if (x : bool) then valid_ind_app k i w else Ok true
      end
  end.
End Positivity.

(** ** Inductive types *)

(** The first failing check of a sequence, in order. *)
Fixpoint each {E A : Type} (f : A -> res E unit) (l : list A) : res E unit :=
  match l with
  | [] => Ok tt
  | x :: l' => _ ← f x; each f l'
  end.

Section Inductives.
Context `{NP : NetPath}.

Definition check_positivity (fuel : nat) (env : GlobalEnv) (ind : Inductive_)
    : res AdmitError unit :=
  each (fun c => each (fun arg =>
          x ← total (strictly_positive env fuel (ind_id ind) arg);
          if (x : bool) then Ok tt else Err (BadDecl "non-positive")) (ctor_args c))
    (ind_ctors ind).

(** [map_err(|_| AdmitError::BadDecl(why))]. *)
Definition bad_decl {A : Type} (why : string) (m : res TypeError A) : res AdmitError A :=
  map_err (fun _ => BadDecl why) m.

Definition check_field_universes (fuel : nat) (env : GlobalEnv) (ind : Inductive_)
    : res AdmitError unit :=
  each (fun c =>
    _ ← foldM (fun ctx field =>
          level ← bad_decl "ill-typed field" (sort_of env fuel ctx field);
          if le level (ind_sort ind) then Ok (ctx ++ [field])
          else Err (BadDecl "field universe too big")) (ctor_args c) (ind_params ind);
    Ok tt) (ind_ctors ind).

Definition check_ret_indices (fuel : nat) (env : GlobalEnv) (ind : Inductive_)
    : res AdmitError unit :=
  each (fun c =>
    if negb (length (ret_indices c) =? length (ind_indices_tele ind))%nat
    then Err (BadDecl "ret_indices arity mismatch")
    else
      _ ← bad_decl "ill-typed ret_index"
            (sort_of env fuel (ind_params ind ++ ctor_args c) (ctor_ret (ind_id ind) ind c));
      Ok tt) (ind_ctors ind).

Definition arity_of (ind : Inductive_) : ArityTable :=
  mk_arity (ind_id ind) (length (ind_params ind)) (length (ind_indices_tele ind))
    ((fun c => mk_ctor_arity (ctor_ix c) (length (ctor_args c))
                 (length (filter (fun a => head_is_ind a (ind_id ind)) (ctor_args c))))
       <$> ind_ctors ind).

Definition add_inductive (fuel : nat) (env : GlobalEnv) (ind : Inductive_)
    : GlobalEnv * res AdmitError unit :=
  let id := ind_id ind in
  if bool_decide (is_Some (inds env !! id)) then (env, Err Duplicate)
  else
    match check_positivity fuel env ind with
    | Ok _ =>
        let env' := set_inds (<[id := ind]> (inds env)) env in
        match (_ ← check_field_universes fuel env' ind; check_ret_indices fuel env' ind) with
        | Ok _ => (set_recursors (<[id := arity_of ind]> (recursors env')) env', Ok tt)
        | Err e => (set_inds (delete id (inds env')) env', Err e)
        | Panic => (env', Panic)
        | Fuel => (env', Fuel)
        end
    | r => (env, r)
    end.
End Inductives.
