(* ===== verification/Typing.v ===== *)
(** * The kernel's typing rules and the soundness of its algorithms

    A declarative presentation of reduction, conversion and typing, written as
    rules, and the proof that the algorithms of [Kernel] only derive what the
    rules allow. *)
From S2P Require Import Prelude Bytes Error Term Kernel.

(** ** Rules *)

Section Rules.
Context (env : GlobalEnv).

(** [step]: one weak-head reduction; [red]: its closure; [field_idx i np nidx
    field idx]: the recursive field's type is [I P idx]; [hyps]: the inductive
    hypotheses of the recursive fields, in order; [typed] and [eqv]: typing and
    definitional equality. *)
Inductive step : Ctx -> Tm -> Tm -> Prop :=
| step_beta ctx d b a args :
    step ctx (apply (Lam d b) (a :: args)) (apply (subst b 0 a) args)
| step_delta ctx c ty b args : consts env !! c = Some (ty, b) ->
    step ctx (apply (Const c) args) (apply b args)
| step_iota ctx i ind args c cargs scrut decl minor hs :
    inds env !! i = Some ind ->
    let np := length (ind_params ind) in
    let nidx := length (ind_indices_tele ind) in
    let nctors := length (ind_ctors ind) in
    let expected := (np + 1 + nctors + nidx + 1)%nat in
    args !! (expected - 1)%nat = Some scrut ->
    red ctx scrut (apply (Ctor i c) cargs) ->
    ind_ctors ind !! Z.to_nat c = Some decl ->
    args !! (np + 1 + Z.to_nat c)%nat = Some minor ->
    hyps ctx i (take (np + 1 + nctors) args) np nidx (drop np cargs)
      (imap pair (ctor_args decl)) hs ->
    step ctx (apply (Elim i) args)
      (apply (apply (apply minor (drop np cargs)) hs) (drop expected args))
with red : Ctx -> Tm -> Tm -> Prop :=
| red_refl ctx t : red ctx t t
| red_step ctx t u v : step ctx t u -> red ctx u v -> red ctx t v
with field_idx : Ctx -> IndId -> nat -> nat -> Tm -> list Tm -> Prop :=
| fi_none ctx i np field : field_idx ctx i np 0 field []
| fi_some ctx i np nidx field T ps idx : typed ctx field T ->
    red ctx T (apply (Ind i) (ps ++ idx)) -> length ps = np ->
    field_idx ctx i np nidx field idx
with hyps : Ctx -> IndId -> list Tm -> nat -> nat -> list Tm -> list (nat * Tm) -> list Tm -> Prop :=
| hyps_nil ctx i pre np nidx fields : hyps ctx i pre np nidx fields [] []
| hyps_skip ctx i pre np nidx fields pos ty l hs : head_is_ind ty i = false ->
    hyps ctx i pre np nidx fields l hs -> hyps ctx i pre np nidx fields ((pos, ty) :: l) hs
| hyps_rec ctx i pre np nidx fields pos ty l hs field idx : head_is_ind ty i = true ->
    fields !! pos = Some field -> field_idx ctx i np nidx field idx ->
    hyps ctx i pre np nidx fields l hs ->
    hyps ctx i pre np nidx fields ((pos, ty) :: l) (hypothesis i pre idx field :: hs)
with typed : Ctx -> Tm -> Tm -> Prop :=
| t_var ctx1 A ctx2 :
    typed (ctx1 ++ A :: ctx2) (Var (Z.of_nat (length ctx2)))
      (shift A (Z.of_nat (length ctx2) + 1) 0)
| t_sort ctx l : l + 1 < 2 ^ 32 -> typed ctx (Sort l) (Sort (l + 1))
| t_pi ctx a b i j : typed ctx a (Sort i) -> typed (ctx ++ [a]) b (Sort j) ->
    typed ctx (Pi a b) (Sort (Z.max i j))
| t_lam ctx a b i B : typed ctx a (Sort i) -> typed (ctx ++ [a]) b B ->
    typed ctx (Lam a b) (Pi a B)
| t_app ctx f x A B : typed ctx f (Pi A B) -> typed ctx x A -> typed ctx (App f x) (subst B 0 x)
| t_const ctx c ty b : consts env !! c = Some (ty, b) -> typed ctx (Const c) ty
| t_ind ctx i ind : inds env !! i = Some ind ->
    typed ctx (Ind i)
      (telescope (ind_params ind) (telescope (ind_indices_tele ind) (Sort (ind_sort ind))))
| t_ctor ctx i ind k cd : inds env !! i = Some ind -> cd ∈ ind_ctors ind -> ctor_ix cd = k ->
    typed ctx (Ctor i k) (telescope (ind_params ind) (telescope (ctor_args cd) (ctor_ret i ind cd)))
| t_elim ctx i ind lm T : inds env !! i = Some ind -> recursor_type ind lm = Some T ->
    typed ctx (Elim i) T
| t_conv ctx t A B : typed ctx t A -> eqv ctx A B -> typed ctx t B
with eqv : Ctx -> Tm -> Tm -> Prop :=
| eqv_refl ctx t : eqv ctx t t
| eqv_sym ctx t u : eqv ctx t u -> eqv ctx u t
| eqv_trans ctx t u v : eqv ctx t u -> eqv ctx u v -> eqv ctx t v
| eqv_step ctx t u : step ctx t u -> eqv ctx t u
| eqv_pi ctx a a' b b' : eqv ctx a a' -> eqv (ctx ++ [a]) b b' -> eqv ctx (Pi a b) (Pi a' b')
| eqv_lam ctx a a' b b' : eqv ctx a a' -> eqv (ctx ++ [a]) b b' -> eqv ctx (Lam a b) (Lam a' b')
| eqv_app ctx f f' x x' : eqv ctx f f' -> eqv ctx x x' -> eqv ctx (App f x) (App f' x')
| eqv_eta ctx d f : occurs_var f 0 = false -> eqv ctx (Lam d (App f (Var 0))) (shift f (-1) 0).
End Rules.

(** The shape of a weak-head normal form: no beta redex, no unfoldable
    constant, and a recursor at the head only if no iota step was found. *)
Definition head_normal `{NP : NetPath} (env : GlobalEnv) (ctx : Ctx) (t : Tm) : Prop :=
  match spine t with
  | (Lam _ _, args) => args = []
  | (Const c, _) => const_body env c = None
  | (Elim i, args) => exists fuel, try_iota env fuel ctx i args = Ok None
  | _ => True
  end.

(** * Lemmas *)

Lemma apply_app h xs ys : apply h (xs ++ ys) = apply (apply h xs) ys.
Proof. apply foldl_app. Qed.

Lemma spine_from_apply t args h l : spine_from t args = (h, l) ->
  apply h l = apply t args /\ (forall f x, h <> App f x).
Proof.
  revert args. induction t; intros args H; cbn [spine_from] in H; try (by injection H as <- <-).
  by apply IHt1 in H.
Qed.

Lemma spine_apply t h l : spine t = (h, l) -> t = apply h l.
Proof. intros H. apply spine_from_apply in H as [H _]. by rewrite H. Qed.

Section Closure.
Context (env : GlobalEnv).

Lemma red_trans ctx t u v : red env ctx t u -> red env ctx u v -> red env ctx t v.
Proof. induction 1; eauto using red. Qed.

Lemma red_eqv ctx t u : red env ctx t u -> eqv env ctx t u.
Proof. induction 1; eauto using eqv. Qed.

Lemma typed_red ctx t A B : typed env ctx t A -> red env ctx A B -> typed env ctx t B.
Proof. eauto using typed, red_eqv. Qed.

Lemma hyps_app ctx i pre np nidx fields l1 l2 h1 h2 :
  hyps env ctx i pre np nidx fields l1 h1 -> hyps env ctx i pre np nidx fields l2 h2 ->
  hyps env ctx i pre np nidx fields (l1 ++ l2) (h1 ++ h2).
Proof. induction 1; intros; simpl; eauto using hyps. Qed.
End Closure.

Lemma total_answer {E A} (m : res Empty_set A) a : total (E := E) m = Ok a -> m = Ok a.
Proof. destruct m as [?|[]| |]; simpl; congruence. Qed.

Lemma ok_Some {E A} (m : res E A) a : ok m = Ok (Some a) -> m = Ok a.
Proof. destruct m; simpl; congruence. Qed.

(** ** The route of conversion *)

(** Every term is open or mentions a type or a kernel symbol: the domain of a
    closed abstraction is closed. *)
Lemma open_or_typed t : is_open t 0 = true \/ needs_typed_conv t = true.
Proof.
  induction t as [i|l|a IHa b _|a IHa b _|f IHf x _|c|i|i k|i]; cbn [is_open needs_typed_conv]; auto.
  - left. apply Z.leb_le. unfold as_u32. apply Z.mod_pos_bound. done.
  - destruct IHa as [H|H]; rewrite H; auto.
  - destruct IHf as [H|H]; rewrite H; auto.
Qed.

Lemma typed_route `{NP : NetPath} self ctx t u :
  conv_body self ctx t u =
    (nt ← total (call_nf self ctx t); nu ← total (call_nf self ctx u); Ok (bool_decide (nt = nu))).
Proof.
  unfold conv_body. destruct (open_or_typed t) as [H|H]; rewrite H; [done|]. by rewrite orb_true_r.
Qed.

(** ** Soundness of the algorithms *)

Section Soundness.
Context `{NP : NetPath} (env : GlobalEnv).

(** What the calls of a function establish. *)
Record sound (self : Calls) : Prop := mk_sound {
  so_whnf : forall ctx t u, call_whnf self ctx t = Ok u ->
    red env ctx t u /\ head_normal env ctx u;
  so_iota : forall ctx i args u, call_iota self ctx i args = Ok (Some u) ->
    step env ctx (apply (Elim i) args) u;
  so_fields : forall ctx i np nidx field idx,
    call_fields self ctx i np nidx field = Ok (Some idx) ->
    field_idx env ctx i np nidx field idx;
  so_infer : forall ctx t T, call_infer self ctx t = Ok T -> typed env ctx t T;
  so_elim : forall ctx i args T, call_elim self ctx i args = Ok T ->
    typed env ctx (apply (Elim i) args) T;
  so_check : forall ctx t T, call_check self ctx t T = Ok tt -> typed env ctx t T;
  so_sort : forall ctx t l, call_sort self ctx t = Ok l -> typed env ctx t (Sort l);
  so_pi : forall ctx t a b, call_pi self ctx t = Ok (a, b) -> red env ctx t (Pi a b);
  so_nf : forall ctx t u, call_nf self ctx t = Ok u -> eqv env ctx t u;
  so_conv : forall ctx t u, call_conv self ctx t u = Ok true -> eqv env ctx t u
}.

(** A recursor that did not fire at this fuel did not fire at all. *)
Definition stuck_iota (self : Calls) : Prop := forall ctx i args,
  call_iota self ctx i args = Ok None -> exists fuel, try_iota env fuel ctx i args = Ok None.

Section Step.
Context (self : Calls) (IH : sound self) (HS : stuck_iota self).

Lemma whnf_sound ctx t u : whnf_tm_body env self ctx t = Ok u ->
  red env ctx t u /\ head_normal env ctx u.
Proof.
  intros H. unfold whnf_tm_body in H. destruct (spine t) as [h args] eqn:Hs.
  assert (forall v, step env ctx t v -> call_whnf self ctx v = Ok u ->
    red env ctx t u /\ head_normal env ctx u) as Hstep.
  { intros v Hv Hw. destruct (so_whnf self IH _ _ _ Hw). eauto using red. }
  assert (t = u -> match h, args with
    | Lam _ _, args => args = [] | Const c, _ => const_body env c = None
    | Elim i, args => exists fuel, try_iota env fuel ctx i args = Ok None | _, _ => True end ->
    red env ctx t u /\ head_normal env ctx u) as Hstay.
  { intros <- Hn. split; [constructor|]. unfold head_normal. by rewrite Hs. }
  pose proof (spine_apply _ _ _ Hs) as Ht.
  destruct h as [i|l|a b|d b|f x|c|i|i c|i];
    try (injection H as H; by apply Hstay).
  - destruct args as [|a rest]; [injection H as H; by apply Hstay|].
    apply (Hstep (apply (subst b 0 a) rest)); [|done]. rewrite Ht. constructor.
  - destruct (const_body env c) as [b|] eqn:Hb; [|injection H as H; by apply Hstay].
    apply (Hstep (apply b args)); [|done]. rewrite Ht. unfold const_body in Hb.
    destruct (consts env !! c) as [[ty b']|] eqn:Hc; [|done]. injection Hb as ->.
    by apply (step_delta env ctx c ty b).
  - destruct (call_iota self ctx i args) as [[t'|]|[]| |] eqn:Hi; try done; cbn [mbind res_bind] in H.
    + apply (Hstep t'); [|done]. rewrite Ht. by apply (so_iota self IH).
    + injection H as H. apply Hstay; [done|by apply HS].
Qed.

Lemma hyps_none ctx i pre np nidx fields l :
  foldM (add_hypothesis self ctx i np nidx pre fields) l None = Ok None.
Proof. by induction l. Qed.

(** The loop that appends the inductive hypotheses. *)
Lemma hyps_loop ctx i pre np nidx fields l t r :
  foldM (add_hypothesis self ctx i np nidx pre fields) l (Some t) = Ok (Some r) ->
  exists hs, r = apply t hs /\ hyps env ctx i pre np nidx fields l hs.
Proof.
  revert t. induction l as [|[pos ty] l IHl]; intros t H; cbn [foldM] in H.
  - injection H as <-. exists []. split; [done|constructor].
  - apply bind_Ok in H as (st & Hst & H). unfold add_hypothesis in Hst. cbn [fst snd] in Hst.
    destruct (head_is_ind ty i) eqn:Hh.
    + destruct (fields !! pos) as [field|] eqn:Hf;
        [|injection Hst as <-; by rewrite hyps_none in H].
      apply bind_Ok in Hst as ([idx|] & Hi & Hst); injection Hst as <-;
        [|by rewrite hyps_none in H].
      apply IHl in H as (hs & -> & Hhs).
      exists (hypothesis i pre idx field :: hs). split; [done|].
      eapply hyps_rec; eauto. by apply (so_fields self IH).
    + injection Hst as <-. apply IHl in H as (hs & -> & Hhs). exists hs. eauto using hyps.
Qed.

Lemma iota_sound ctx i args u :
  try_iota_body env self ctx i args = Ok (Some u) -> step env ctx (apply (Elim i) args) u.
Proof.
  intros H. unfold try_iota_body in H.
  destruct (inds env !! i) as [ind|] eqn:Hind; [|done].
  set (np := length (ind_params ind)) in *. set (nidx := length (ind_indices_tele ind)) in *.
  set (nctors := length (ind_ctors ind)) in *. set (expected := (np + 1 + nctors + nidx + 1)%nat) in *.
  destruct (length args <? expected)%nat; [done|].
  apply bind_Ok in H as (arg & Harg & H). apply index_Ok in Harg.
  apply bind_Ok in H as (scrut & Hscrut & H). apply (so_whnf self IH) in Hscrut as [Hred _].
  destruct (spine scrut) as [chead cargs] eqn:Hs. apply spine_apply in Hs as ->.
  destruct chead as [| | | | | | |j c|]; try done.
  destruct (j =? i) eqn:Hj; [|done]. apply Z.eqb_eq in Hj as ->. cbn [andb] in H.
  destruct (c <? Z.of_nat nctors) eqn:Hc; [|done].
  apply bind_Ok in H as (minor & Hminor & H). apply index_Ok in Hminor.
  apply bind_Ok in H as (decl & Hdecl & H). apply index_Ok in Hdecl.
  apply bind_Ok in H as ([t|] & Hloop & H); [|done]. injection H as <-.
  apply hyps_loop in Hloop as (hs & -> & Hhs).
  assert (drop (Nat.min np (length cargs)) cargs = drop np cargs) as Hd.
  { destruct (Nat.min_spec np (length cargs)) as [[_ ->]|[Hle ->]]; [done|].
    by rewrite !drop_ge by lia. }
  rewrite Hd in *. eapply step_iota; eauto.
Qed.

Lemma fields_sound ctx i np nidx field idx :
  field_indices_body self ctx i np nidx field = Ok (Some idx) ->
  field_idx env ctx i np nidx field idx.
Proof.
  intros H. unfold field_indices_body in H.
  destruct (Nat.eqb_spec nidx 0) as [-> |Hn]; [injection H as <-; constructor|].
  apply bind_Ok in H as ([fty|] & Hty & H); [|done].
  apply ok_Some, (so_infer self IH) in Hty.
  apply bind_Ok in H as (ty & Hred & H). apply (so_whnf self IH) in Hred as [Hred _].
  destruct (spine ty) as [h args] eqn:Hs. apply spine_apply in Hs as ->.
  destruct h as [| | | | | |j| |]; try done.
  destruct (j =? i) eqn:Hj; [|done]. apply Z.eqb_eq in Hj as ->. cbn [andb] in H.
  destruct (Nat.leb_spec np (length args)); [|done]. injection H as <-.
  eapply (fi_some env ctx i np nidx field fty (take np args)); eauto.
  - by rewrite take_drop.
  - rewrite length_take. lia.
Qed.

Lemma var_sound ctx i T : var_type ctx i = Ok T -> typed env ctx (Var i) T.
Proof.
  unfold var_type. intros H. destruct (i + 1 <=? Z.of_nat (length ctx)) eqn:Hi; [|done].
  apply bind_Ok in H as (A & HA & H). injection H as <-. apply index_Ok in HA.
  pose proof (lookup_lt_Some _ _ _ HA) as Hl.
  apply list_elem_of_split_length in HA as (c1 & c2 & -> & Hc1). rewrite length_app in *.
  cbn [length] in *. apply Z.leb_le in Hi. rewrite <- Hc1 in Hl. assert (i = Z.of_nat (length c2)) as -> by lia. constructor.
Qed.

Lemma app_sound ctx f x T :
  (ft ← call_infer self ctx f;
   '(dom, cod) ← call_pi self ctx ft;
   _ ← call_check self ctx x dom;
   Ok (subst cod 0 x)) = Ok T -> typed env ctx (App f x) T.
Proof.
  intros H. apply bind_Ok in H as (ft & Hf & H). apply bind_Ok in H as ([A B] & Hp & H).
  apply bind_Ok in H as ([] & Hx & H). injection H as <-.
  apply (so_infer self IH) in Hf. apply (so_pi self IH) in Hp. apply (so_check self IH) in Hx.
  eapply t_app; [|exact Hx]. by eapply typed_red.
Qed.

Lemma infer_sound ctx t T : infer_body env self ctx t = Ok T -> typed env ctx t T.
Proof.
  intros H. unfold infer_body in H. destruct (spine t) as [h args] eqn:Hs.
  pose proof (spine_apply _ _ _ Hs) as Ht.
  destruct t as [i|l|a b|a b|f x|c|i|i k|i]; try (injection Hs as <- <-; cbn match in H).
  - by apply var_sound.
  - apply bind_Ok in H as (l' & Hl & H). injection H as <-. unfold succ in Hl.
    destruct (Z.ltb_spec (l + 1) (2 ^ 32)); [|done]. injection Hl as <-. by constructor.
  - apply bind_Ok in H as (i & Hi & H). apply bind_Ok in H as (j & Hj & H). injection H as <-.
    apply (so_sort self IH) in Hi, Hj. by constructor.
  - apply bind_Ok in H as (i & Hi & H). apply bind_Ok in H as (bt & Hb & H). injection H as <-.
    apply (so_sort self IH) in Hi. apply (so_infer self IH) in Hb. by eapply t_lam.
  - destruct h; try by apply app_sound. rewrite Ht. by apply (so_elim self IH).
  - apply ok_or_Ok in H. apply fmap_Some in H as ([ty b] & Hc & ->). by eapply t_const.
  - apply bind_Ok in H as (ind & Hi & H). apply ok_or_Ok in Hi. injection H as <-. by constructor.
  - apply bind_Ok in H as (ind & Hi & H). apply ok_or_Ok in Hi.
    apply bind_Ok in H as (cd & Hc & H). apply ok_or_Ok in Hc. injection H as <-.
    apply find_some in Hc as [Hin Hk%Z.eqb_eq]. apply list_elem_of_In in Hin.
    by constructor.
  - by apply (so_elim self IH) in H.
Qed.

Lemma spine_args_sound ctx i args pre T cur : typed env ctx (apply (Elim i) pre) cur ->
  foldM (fun cur a => '(dom, cod) ← call_pi self ctx cur; _ ← call_check self ctx a dom;
                      Ok (subst cod 0 a)) args cur = Ok T ->
  typed env ctx (apply (Elim i) (pre ++ args)) T.
Proof.
  revert pre cur. induction args as [|a args IHa]; intros pre cur Hd H; cbn [foldM] in H.
  - injection H as <-. by rewrite app_nil_r.
  - apply bind_Ok in H as (cur' & H & Hrest). apply bind_Ok in H as ([A B] & Hp & H).
    apply bind_Ok in H as ([] & Ha & H). injection H as <-.
    replace (pre ++ a :: args) with ((pre ++ [a]) ++ args) by (by rewrite <- app_assoc). apply (IHa _ (subst B 0 a)); [|done].
    rewrite apply_app. apply (so_pi self IH) in Hp. apply (so_check self IH) in Ha.
    eapply t_app; [by eapply typed_red|done].
Qed.

Lemma elim_sound ctx i args T : infer_elim_body env self ctx i args = Ok T ->
  typed env ctx (apply (Elim i) args) T.
Proof.
  intros H. unfold infer_elim_body in H.
  apply bind_Ok in H as (ind & Hi & H). apply ok_or_Ok in Hi.
  apply bind_Ok in H as (motive & _ & H). apply bind_Ok in H as (mty & _ & H).
  apply bind_Ok in H as (mty' & _ & H). apply bind_Ok in H as (w & _ & H).
  apply bind_Ok in H as (lm & _ & H). apply bind_Ok in H as (rty & Hr & H).
  apply ok_or_Ok in Hr. apply (spine_args_sound ctx i args [] T rty); [|done].
  by eapply t_elim.
Qed.

Lemma check_sound ctx t T : check_body self ctx t T = Ok tt -> typed env ctx t T.
Proof.
  intros H. unfold check_body in H. apply bind_Ok in H as (got & Hg & H).
  apply (so_infer self IH) in Hg. destruct (call_conv self ctx got T) as [[]| | |] eqn:Hc; try done.
  apply (so_conv self IH) in Hc. by eapply t_conv.
Qed.

Lemma sort_sound ctx t l : sort_of_body self ctx t = Ok l -> typed env ctx t (Sort l).
Proof.
  intros H. unfold sort_of_body in H. apply bind_Ok in H as (T & HT & H).
  apply bind_Ok in H as (w & Hw & H). apply total_answer, (so_whnf self IH) in Hw as [Hw _].
  apply (so_infer self IH) in HT. destruct w; try done. injection H as ->. by eapply typed_red.
Qed.

Lemma pi_sound ctx t a b : as_pi_body self ctx t = Ok (a, b) -> red env ctx t (Pi a b).
Proof.
  intros H. unfold as_pi_body in H. apply bind_Ok in H as (w & Hw & H).
  apply total_answer, (so_whnf self IH) in Hw as [Hw _]. destruct w; try done. by injection H as <- <-.
Qed.

Lemma nf_sound ctx t u : nf_tm_body self ctx t = Ok u -> eqv env ctx t u.
Proof.
  intros H. unfold nf_tm_body in H. apply bind_Ok in H as (w & Hw & H).
  apply (so_whnf self IH) in Hw as [Hw _]. apply red_eqv in Hw.
  eapply eqv_trans; [exact Hw|].
  destruct w as [i|l|a b|d b|f x|c|i|i k|i]; try (injection H as <-; apply eqv_refl).
  - apply bind_Ok in H as (a' & Ha & H). apply bind_Ok in H as (b' & Hb & H). injection H as <-.
    apply (so_nf self IH) in Ha, Hb. by apply eqv_pi.
  - apply bind_Ok in H as (d' & Hd & H). apply bind_Ok in H as (b' & Hb & H).
    apply (so_nf self IH) in Hd, Hb. pose proof (eqv_lam env ctx d d' b b' Hd Hb) as HL.
    destruct b' as [| | | |f x| | | |]; try (by injection H as <-).
    destruct x as [[]| | | | | | | |]; try (by injection H as <-).
    destruct (occurs_var f 0) eqn:Ho; [by injection H as <-|]. injection H as <-.
    eapply eqv_trans; [exact HL|]. by apply eqv_eta.
  - apply bind_Ok in H as (f' & Hf & H). apply bind_Ok in H as (x' & Hx & H). injection H as <-.
    apply (so_nf self IH) in Hf, Hx. by apply eqv_app.
Qed.

Lemma conv_sound ctx t u : conv_body self ctx t u = Ok true -> eqv env ctx t u.
Proof.
  rewrite typed_route. intros H. apply bind_Ok in H as (nt & Ht & H). apply bind_Ok in H as (nu & Hu & H).
  apply total_answer, (so_nf self IH) in Ht, Hu. injection H as H.
  apply bool_decide_eq_true in H as ->. eauto using eqv.
Qed.
End Step.

Lemma kernel_sound fuel : sound (kernel env fuel).
Proof.
  induction fuel as [|k IH]; [by split|].
  assert (stuck_iota (kernel env k)) as HS by (intros ctx i args H; by exists k).
  split; cbn [kernel call_whnf call_iota call_fields call_infer call_elim call_check call_sort
    call_pi call_nf call_conv]; intros.
  - by eapply whnf_sound.
  - by eapply iota_sound.
  - by eapply fields_sound.
  - by eapply infer_sound.
  - by eapply elim_sound.
  - by eapply check_sound.
  - by eapply sort_sound.
  - by eapply pi_sound.
  - by eapply nf_sound.
  - by eapply conv_sound.
Qed.
End Soundness.

(** ** Fuel *)

(** The flat order on results: out of fuel, or the same. *)
Definition upto {E A : Type} (m m' : res E A) : Prop := m = Fuel \/ m = m'.

Lemma upto_refl {E A} (m : res E A) : upto m m.
Proof. by right. Qed.

Lemma upto_bind {E A B} (m m' : res E A) (k k' : A -> res E B) :
  upto m m' -> (forall a, upto (k a) (k' a)) -> upto (x ← m; k x) (x ← m'; k' x).
Proof. intros [-> | ->] Hk; [by left|]. destruct m'; simpl; auto using upto_refl. Qed.

Lemma upto_foldM {E S A} (f f' : S -> A -> res E S) l st :
  (forall st x, upto (f st x) (f' st x)) -> upto (foldM f l st) (foldM f' l st).
Proof. intros Hf. revert st. induction l; intros st; simpl; auto using upto_refl, upto_bind. Qed.

Lemma upto_total {E A} (m m' : res Empty_set A) : upto m m' -> upto (total (E:=E) m) (total m').
Proof. intros [-> | ->]; [by left|by right]. Qed.

Lemma upto_ok {E A} (m m' : res E A) : upto m m' -> upto (ok m) (ok m').
Proof. intros [-> | ->]; [by left|by right]. Qed.

(** Calls that answer the same wherever they answer. *)
Record upto_calls (c c' : Calls) : Prop := mk_upto {
  up_whnf : forall ctx t, upto (call_whnf c ctx t) (call_whnf c' ctx t);
  up_iota : forall ctx i args, upto (call_iota c ctx i args) (call_iota c' ctx i args);
  up_fields : forall ctx i np nidx f,
    upto (call_fields c ctx i np nidx f) (call_fields c' ctx i np nidx f);
  up_infer : forall ctx t, upto (call_infer c ctx t) (call_infer c' ctx t);
  up_elim : forall ctx i args, upto (call_elim c ctx i args) (call_elim c' ctx i args);
  up_check : forall ctx t T, upto (call_check c ctx t T) (call_check c' ctx t T);
  up_sort : forall ctx t, upto (call_sort c ctx t) (call_sort c' ctx t);
  up_pi : forall ctx t, upto (call_pi c ctx t) (call_pi c' ctx t);
  up_nf : forall ctx t, upto (call_nf c ctx t) (call_nf c' ctx t);
  up_conv : forall ctx t u, upto (call_conv c ctx t u) (call_conv c' ctx t u)
}.

Create HintDb upto.
#[export] Hint Resolve upto_refl upto_total upto_ok up_whnf up_iota up_fields up_infer up_elim
  up_check up_sort up_pi up_nf up_conv : upto.

(** Both sides run the same code up to the calls. *)
Ltac upto :=
  repeat first
    [ solve [eauto with upto]
    | apply upto_bind; [solve [eauto with upto]|intros ?]
    | apply upto_bind; [|intros ?]
    | apply upto_foldM; intros ? ?
    | match goal with |- upto (match ?x with _ => _ end) (match ?x with _ => _ end) => destruct x end ].

Section Fuel.
Context `{NP : NetPath} (env : GlobalEnv).

Lemma bodies_upto c c' : upto_calls c c' ->
  (forall ctx t, upto (whnf_tm_body env c ctx t) (whnf_tm_body env c' ctx t))
  /\ (forall ctx i args, upto (try_iota_body env c ctx i args) (try_iota_body env c' ctx i args))
  /\ (forall ctx i np nidx f,
        upto (field_indices_body c ctx i np nidx f) (field_indices_body c' ctx i np nidx f))
  /\ (forall ctx t, upto (infer_body env c ctx t) (infer_body env c' ctx t))
  /\ (forall ctx i args, upto (infer_elim_body env c ctx i args) (infer_elim_body env c' ctx i args)).
Proof.
  intros U. split; [|split; [|split; [|split]]]; intros.
  - unfold whnf_tm_body. upto.
  - unfold try_iota_body, add_hypothesis. upto.
  - unfold field_indices_body. upto.
  - unfold infer_body. upto.
  - unfold infer_elim_body. upto.
Qed.

Lemma checks_upto c c' : upto_calls c c' ->
  (forall ctx t T, upto (check_body c ctx t T) (check_body c' ctx t T))
  /\ (forall ctx t, upto (sort_of_body c ctx t) (sort_of_body c' ctx t))
  /\ (forall ctx t, upto (as_pi_body c ctx t) (as_pi_body c' ctx t))
  /\ (forall ctx t, upto (nf_tm_body c ctx t) (nf_tm_body c' ctx t))
  /\ (forall ctx t u, upto (conv_body c ctx t u) (conv_body c' ctx t u)).
Proof.
  intros U. split; [|split; [|split; [|split]]]; intros.
  - unfold check_body. apply upto_bind; [eauto with upto|]. intros got.
    destruct (up_conv _ _ U ctx got T) as [-> | ->]; [by left|by right].
  - unfold sort_of_body. upto.
  - unfold as_pi_body. upto.
  - unfold nf_tm_body. upto.
  - unfold conv_body. upto.
Qed.

Lemma kernel_upto k : upto_calls (kernel env k) (kernel env (S k)).
Proof.
  induction k as [|k IH]; [by split; intros; left|].
  destruct (bodies_upto _ _ IH) as (H1 & H2 & H3 & H4 & H5).
  destruct (checks_upto _ _ IH) as (H6 & H7 & H8 & H9 & H10). by split.
Qed.

Lemma upto_le {A} (E : Type) (f : Calls -> res E A) k d :
  (forall c c', upto_calls c c' -> upto (f c) (f c')) ->
  upto (f (kernel env k)) (f (kernel env (d + k))).
Proof.
  intros Hf. induction d as [|d IH]; [apply upto_refl|].
  destruct IH as [-> | ->]; [by left|]. apply Hf, kernel_upto.
Qed.
End Fuel.

(** ** Concrete environments *)

(** The net route never answers; no term takes it. *)
#[local] Instance no_path : NetPath := fun _ _ => Fuel.

Definition nat_decl : Inductive_ := mk_ind 0 [] [] 0 [mk_ctor 0 [] []; mk_ctor 1 [Ind 0] []].
Definition env_nat : GlobalEnv := (add_inductive 20 env_default nat_decl).1.
Definition zero_ : Tm := Ctor 0 0.
Definition succ_ (n : Tm) : Tm := App (Ctor 0 1) n.

(** Addition of [n] to two by recursion on two. *)
Definition add_two (n : Tm) : Tm :=
  apply (Elim 0) [Lam (Ind 0) (Ind 0); n;
    Lam (Ind 0) (Lam (App (Lam (Ind 0) (Ind 0)) (Var 0)) (succ_ (Var 0)));
    succ_ (succ_ zero_)].

(** An empty type, a unit type, and a type whose two constructors are declared
    in the order opposite to their [ctor_ix]. *)
Definition empty_decl : Inductive_ := mk_ind 0 [] [] 0 [].
Definition unit_decl : Inductive_ := mk_ind 1 [] [] 0 [mk_ctor 0 [] []].
Definition swapped_decl : Inductive_ :=
  mk_ind 2 [] [] 0 [mk_ctor 1 [Ind 1] []; mk_ctor 0 [Ind 0] []].

Definition large_motive : Tm :=
  Lam (Ind 2) (apply (Elim 2)
    [Lam (Ind 2) (Sort 0); Lam (Ind 1) (Ind 1); Lam (Ind 0) (Ind 0); Var 0]).
Definition absurd_proof : Tm :=
  apply (Elim 2)
    [large_motive; Lam (Ind 1) (Ctor 1 0); Lam (Ind 0) (Var 0); App (Ctor 2 1) (Ctor 1 0)].

(** * Theorems *)

(** C3: The kernel's algorithms are sound for its typing rules: an inferred
    type, a successful check, an inferred sort and a successful conversion are
    derivable, whatever the fuel, for any environment and context, and
    whatever the interaction-net route of [conv] would answer. *)
Theorem kernel_typing_sound `{NP : NetPath} (env : GlobalEnv) (fuel : nat) (ctx : Ctx) (t : Tm) :
  (forall T, infer env fuel ctx t = Ok T -> typed env ctx t T)
  /\ (forall T, check env fuel ctx t T = Ok tt -> typed env ctx t T)
  /\ (forall l, sort_of env fuel ctx t = Ok l -> typed env ctx t (Sort l))
  /\ (forall u, conv env fuel ctx t u = Ok true -> eqv env ctx t u)
  /\ (forall u, nf_tm env fuel ctx t = Ok u -> eqv env ctx t u).
Proof.
  pose proof (kernel_sound env fuel) as H. split; [|split; [|split; [|split]]]; intros.
  - by apply (so_infer env _ H).
  - by apply (so_check env _ H).
  - by apply (so_sort env _ H).
  - by apply (so_conv env _ H).
  - by apply (so_nf env _ H).
Qed.

Lemma kernel_typing_sound_witness :
  typed env_nat [] (add_two zero_) (Ind 0)
  /\ eqv env_nat [] (add_two zero_) (succ_ (succ_ zero_)).
Proof.
  destruct (kernel_typing_sound (NP := no_path) env_nat 40 [] (add_two zero_))
    as (_ & H1 & _ & H2 & _).
  split; [apply H1|apply H2]; vm_compute; reflexivity.
Defined.

(** Weak-head reduction follows the rules and stops only at a weak-head
    normal form: no beta redex and no unfoldable constant is at the head, and
    a recursor at the head is one on which the iota rule did not fire (it is
    under-applied, or its scrutinee shows no constructor of its family). *)
Theorem whnf_reduces `{NP : NetPath} (env : GlobalEnv) (fuel : nat) (ctx : Ctx) (t u : Tm) :
  whnf_tm env fuel ctx t = Ok u -> red env ctx t u /\ head_normal env ctx u.
Proof. apply (so_whnf env _ (kernel_sound env fuel)). Qed.

Lemma whnf_reduces_witness :
  let u := App (Ctor 0 1)
    (apply (Elim 0) [Lam (Ind 0) (Ind 0); zero_;
       Lam (Ind 0) (Lam (App (Lam (Ind 0) (Ind 0)) (Var 0)) (succ_ (Var 0))); succ_ zero_]) in
  red env_nat [] (add_two zero_) u /\ head_normal env_nat [] u.
Proof.
  intros u. apply (whnf_reduces (NP := no_path) env_nat 40 [] (add_two zero_) u).
  vm_compute. reflexivity.
Defined.

(** C30: Conversion never leaves the typed layer.  The guard of [conv] that
    keeps open terms and terms with types or kernel symbols away from the
    interaction nets holds for every term (the domain of a closed abstraction
    is itself closed, down to a type or a symbol), so that two terms are
    compared by their normal forms, whatever the net route does. *)
Theorem conv_by_normal_forms `{NP : NetPath} (env : GlobalEnv) (k : nat) (ctx : Ctx) (t u : Tm) :
  is_open t 0 || is_open u 0 || needs_typed_conv t || needs_typed_conv u = true
  /\ conv env (S k) ctx t u =
       (nt ← total (nf_tm env k ctx t);
        nu ← total (nf_tm env k ctx u);
        Ok (bool_decide (nt = nu))).
Proof.
  split; [|apply typed_route]. destruct (open_or_typed t) as [H|H]; rewrite H; [done|].
  by rewrite orb_true_r.
Qed.

(** Fuel only decides whether there is an answer: what reduction,
    normalisation, inference, checking and conversion answer with some fuel,
    success or error, they answer with any greater fuel. *)
Theorem kernel_fuel_irrelevant `{NP : NetPath} (env : GlobalEnv) (k d : nat) (ctx : Ctx) (t u : Tm) :
  (whnf_tm env k ctx t <> Fuel -> whnf_tm env (d + k) ctx t = whnf_tm env k ctx t)
  /\ (nf_tm env k ctx t <> Fuel -> nf_tm env (d + k) ctx t = nf_tm env k ctx t)
  /\ (infer env k ctx t <> Fuel -> infer env (d + k) ctx t = infer env k ctx t)
  /\ (check env k ctx t u <> Fuel -> check env (d + k) ctx t u = check env k ctx t u)
  /\ (conv env k ctx t u <> Fuel -> conv env (d + k) ctx t u = conv env k ctx t u).
Proof.
  split; [|split; [|split; [|split]]]; intros Hk; symmetry.
  - destruct (upto_le env _ (fun c => call_whnf c ctx t) k d); [eauto with upto|done|done].
  - destruct (upto_le env _ (fun c => call_nf c ctx t) k d); [eauto with upto|done|done].
  - destruct (upto_le env _ (fun c => call_infer c ctx t) k d); [eauto with upto|done|done].
  - destruct (upto_le env _ (fun c => call_check c ctx t u) k d); [eauto with upto|done|done].
  - destruct (upto_le env _ (fun c => call_conv c ctx t u) k d); [eauto with upto|done|done].
Qed.

Lemma kernel_fuel_irrelevant_witness : infer env_nat (1000 + 40) [] (add_two zero_)
  = infer env_nat 40 [] (add_two zero_).
Proof.
  destruct (kernel_fuel_irrelevant env_nat 40 1000 [] (add_two zero_) zero_) as (_ & _ & H & _).
  apply H. vm_compute. discriminate.
Defined.

