(* ===== verification/AdmissionSpec.v ===== *)
(** * Admission of definitions and inductive types, verified

    Every environment built by successful calls is well formed: definitions
    unfold acyclically, and every inductive type is strictly positive, has its
    constructor fields in the declared universe and constructors that return
    a well-typed instance of the family. *)
From S2P Require Import Prelude Bytes Error Term Kernel Typing.

(** ** Growing environments *)

(** [env'] has everything [env] has. *)
Record env_le (env env' : GlobalEnv) : Prop := mk_env_le {
  le_consts : consts env ⊆ consts env';
  le_inds : inds env ⊆ inds env'
}.

(** ** Positivity as a relation *)

(** The family [i] does not occur in [t], up to weak-head reduction of every
    subterm reached. *)
Inductive absent (env : GlobalEnv) (i : IndId) : Tm -> Prop :=
| absent_other t j : red env [] t (Ind j) -> j <> i -> absent env i t
| absent_pi t a b : red env [] t (Pi a b) -> absent env i a -> absent env i b -> absent env i t
| absent_lam t a b : red env [] t (Lam a b) -> absent env i a -> absent env i b -> absent env i t
| absent_app t a b : red env [] t (App a b) -> absent env i a -> absent env i b -> absent env i t
| absent_leaf t u : red env [] t u ->
    (match u with Ind _ | Pi _ _ | Lam _ _ | App _ _ => False | _ => True end) -> absent env i t.

(** [i] occurs in [t] only at the head of final codomains. *)
Inductive spos (env : GlobalEnv) (i : IndId) : Tm -> Prop :=
| spos_pi t a b : red env [] t (Pi a b) -> absent env i a -> spos env i b ->
    spos env i t
| spos_absent t u : red env [] t u -> absent env i u -> spos env i t
| spos_app t args : red env [] t (apply (Ind i) args) -> Forall (absent env i) args ->
    spos env i t.

(** ** Well-formed inductive types *)

Record wf_ctor (env : GlobalEnv) (ind : Inductive_) (c : CtorDecl) : Prop := mk_wf_ctor {
  wc_positive : Forall (spos env (ind_id ind)) (ctor_args c);
  wc_fields : forall q field, ctor_args c !! q = Some field ->
    exists l, typed env (ind_params ind ++ take q (ctor_args c)) field (Sort l)
              /\ l <= ind_sort ind;
  wc_arity : length (ret_indices c) = length (ind_indices_tele ind);
  wc_ret : exists l, typed env (ind_params ind ++ ctor_args c)
                       (ctor_ret (ind_id ind) ind c) (Sort l)
}.

Definition wf_inductive (env : GlobalEnv) (ind : Inductive_) : Prop :=
  Forall (wf_ctor env ind) (ind_ctors ind).

(** Constant [c] is mentioned by [t]. *)
Fixpoint mentions (t : Tm) (c : ConstId) : Prop :=
  match t with
  | Const c' => c' = c
  | Pi a b | Lam a b | App a b => mentions a c \/ mentions b c
  | _ => False
  end.

(** Unfolding [c'] exposes [c]. *)
Definition unfolds_to (env : GlobalEnv) (c c' : ConstId) : Prop :=
  exists ty body, consts env !! c' = Some (ty, body) /\ mentions body c.

(** A successful admission. *)
Inductive extends `{NP : NetPath} : GlobalEnv -> GlobalEnv -> Prop :=
| ext_const env id ty body env' : add_const env id ty body = (env', Ok tt) -> extends env env'
| ext_ind env fuel ind env' : add_inductive fuel env ind = (env', Ok tt) -> extends env env'.

(** * Lemmas *)

Lemma env_le_refl env : env_le env env.
Proof. by split. Qed.

Section Weakening.
Context (env env' : GlobalEnv) (Hle : env_le env env').

Scheme step_mut := Minimality for step Sort Prop
  with red_mut := Minimality for red Sort Prop
  with field_idx_mut := Minimality for field_idx Sort Prop
  with hyps_mut := Minimality for hyps Sort Prop
  with typed_mut := Minimality for typed Sort Prop
  with eqv_mut := Minimality for eqv Sort Prop.
Combined Scheme rules_mut from step_mut, red_mut, field_idx_mut, hyps_mut, typed_mut, eqv_mut.

Lemma rules_weaken :
  (forall ctx t u, step env ctx t u -> step env' ctx t u)
  /\ (forall ctx t u, red env ctx t u -> red env' ctx t u)
  /\ (forall ctx i np nidx f idx, field_idx env ctx i np nidx f idx ->
        field_idx env' ctx i np nidx f idx)
  /\ (forall ctx i pre np nidx fs l hs, hyps env ctx i pre np nidx fs l hs ->
        hyps env' ctx i pre np nidx fs l hs)
  /\ (forall ctx t T, typed env ctx t T -> typed env' ctx t T)
  /\ (forall ctx t u, eqv env ctx t u -> eqv env' ctx t u).
Proof.
  assert (forall i ind, inds env !! i = Some ind -> inds env' !! i = Some ind) as Hi
    by (intros; eapply lookup_weaken; [done|apply Hle]).
  assert (forall c d, consts env !! c = Some d -> consts env' !! c = Some d) as Hc
    by (intros; eapply lookup_weaken; [done|apply Hle]).
  apply (rules_mut env); intros; try (by econstructor; eauto).
Qed.
End Weakening.

Lemma typed_weaken env env' ctx t T : env_le env env' -> typed env ctx t T -> typed env' ctx t T.
Proof. intros H. by apply (rules_weaken env env' H). Qed.

Lemma red_weaken env env' ctx t u : env_le env env' -> red env ctx t u -> red env' ctx t u.
Proof. intros H. by apply (rules_weaken env env' H). Qed.

Lemma absent_weaken env env' i t : env_le env env' -> absent env i t -> absent env' i t.
Proof. intros Hle. induction 1; eauto using absent, red_weaken. Qed.

Lemma spos_weaken env env' i t : env_le env env' -> spos env i t -> spos env' i t.
Proof.
  intros Hle. induction 1; eauto using spos, red_weaken, absent_weaken.
  eapply spos_app; [by eapply red_weaken|]. eapply Forall_impl; [done|].
  eauto using absent_weaken.
Qed.

Lemma wf_ctor_weaken env env' ind c : env_le env env' -> wf_ctor env ind c -> wf_ctor env' ind c.
Proof.
  intros Hle [Hp Hf Ha [l Hr]]. split; [|..|done|eauto using typed_weaken].
  - eapply Forall_impl; [done|]. eauto using spos_weaken.
  - intros q field Hq. destruct (Hf q field Hq) as (l' & ? & ?). eauto using typed_weaken.
Qed.

(** ** The checks *)

Lemma each_Ok {E A} (f : A -> res E unit) l : each f l = Ok tt -> Forall (fun x => f x = Ok tt) l.
Proof.
  induction l as [|x l IH]; cbn [each]; intros H; [constructor|].
  apply bind_Ok in H as ([] & Hx & H). constructor; auto.
Qed.

Section Checks.
Context `{NP : NetPath} (env : GlobalEnv).

Lemma whnf_red fuel ctx t u : whnf_tm env fuel ctx t = Ok u -> red env ctx t u.
Proof. intros H. by destruct (so_whnf env _ (kernel_sound env fuel) _ _ _ H). Qed.

Lemma occurs_absent fuel i t : occurs env fuel i t = Ok false -> absent env i t.
Proof.
  revert t. induction fuel as [|k IH]; intros t H; cbn [occurs] in H; [done|].
  apply bind_Ok in H as (w & Hw & H). apply whnf_red in Hw.
  destruct w as [x|l|a b|a b|a b|c|j|j c|j];
    try (apply bind_Ok in H as ([] & Ha & H); [done|]); try (by eapply absent_leaf).
  - eauto using absent.
  - eauto using absent.
  - eauto using absent.
  - injection H as H. apply Z.eqb_neq in H. by eapply absent_other.
Qed.

Lemma valid_ind_app_ok fuel i t : valid_ind_app env fuel i t = Ok true ->
  exists args, t = apply (Ind i) args /\ Forall (absent env i) args.
Proof.
  induction t as [x|l|a _ b _|a _ b _|f IHf x _|c|j|j c|j]; cbn [valid_ind_app]; intros H; try done.
  - apply bind_Ok in H as ([] & Hx & H); [done|]. apply occurs_absent in Hx.
    destruct (IHf H) as (args & -> & Ha). exists (args ++ [x]). split; [by rewrite apply_app|].
    apply Forall_app. split; [done|]. by constructor.
  - injection H as H. apply Z.eqb_eq in H as ->. exists []. split; [done|constructor].
Qed.

Lemma strictly_positive_ok fuel i t : strictly_positive env fuel i t = Ok true -> spos env i t.
Proof.
  revert t. induction fuel as [|k IH]; intros t H; cbn [strictly_positive] in H; [done|].
  apply bind_Ok in H as (w & Hw & H). apply whnf_red in Hw.
  assert ((x ← occurs env k i w; if (x : bool) then valid_ind_app env k i w else Ok true) = Ok true ->
    spos env i t) as Hother.
  { intros H'. apply bind_Ok in H' as ([] & Hx & H').
    - apply valid_ind_app_ok in H' as (args & -> & Ha). by eapply spos_app.
    - apply occurs_absent in Hx. by eapply spos_absent. }
  destruct w as [x|l|a b|a b|a b|c|j|j c|j]; try (by apply Hother).
  apply bind_Ok in H as ([] & Hx & H); [done|]. apply occurs_absent in Hx.
  eapply spos_pi; eauto.
Qed.

Lemma check_positivity_ok fuel ind : check_positivity fuel env ind = Ok tt ->
  forall c, c ∈ ind_ctors ind -> Forall (spos env (ind_id ind)) (ctor_args c).
Proof.
  intros H c Hc. apply each_Ok in H. rewrite Forall_forall in H.
  specialize (H c Hc). apply each_Ok in H. eapply Forall_impl; [exact H|].
  intros arg Ha. apply bind_Ok in Ha as ([] & Hp & Ha); [|done].
  apply total_answer in Hp. by eapply strictly_positive_ok.
Qed.

Lemma bad_decl_Ok {A} why (m : res TypeError A) a : bad_decl why m = Ok a -> m = Ok a.
Proof. destruct m; simpl; congruence. Qed.

Lemma fields_ok fuel sort pre fields ctx :
  foldM (fun ctx field =>
    level ← bad_decl "ill-typed field" (sort_of env fuel ctx field);
    if le level sort then Ok (ctx ++ [field]) else Err (BadDecl "field universe too big"))
    fields pre = Ok ctx ->
  forall q field, fields !! q = Some field ->
    exists l, typed env (pre ++ take q fields) field (Sort l) /\ l <= sort.
Proof.
  revert pre. induction fields as [|f fields IH]; intros pre H q field Hq; [done|].
  cbn [foldM] in H. apply bind_Ok in H as (pre' & Hf & H).
  apply bind_Ok in Hf as (l & Hl & Hf). apply bad_decl_Ok in Hl.
  destruct (le l sort) eqn:Hle; [|done]. injection Hf as <-.
  destruct q as [|q]; cbn [lookup list_lookup] in Hq.
  - injection Hq as <-. exists l. rewrite take_0, app_nil_r. split.
    + by apply (so_sort env _ (kernel_sound env fuel)).
    + by apply Z.leb_le.
  - destruct (IH _ H q field Hq) as (l' & Ht & Hl').
    exists l'. rewrite <- app_assoc in Ht. by split.
Qed.

Lemma checks_ok fuel ind :
  (_ ← check_field_universes fuel env ind; check_ret_indices fuel env ind) = Ok tt ->
  (forall c, c ∈ ind_ctors ind -> Forall (spos env (ind_id ind)) (ctor_args c)) ->
  wf_inductive env ind.
Proof.
  intros H Hpos. apply bind_Ok in H as ([] & Hf & Hr).
  apply each_Ok in Hf, Hr. rewrite Forall_forall in Hf, Hr.
  apply Forall_forall. intros c Hc. specialize (Hf c Hc). specialize (Hr c Hc).
  apply bind_Ok in Hf as (ctx & Hf & _). cbn beta in Hr.
  destruct (length (ret_indices c) =? length (ind_indices_tele ind))%nat eqn:Hlen; [|done].
  cbn [negb] in Hr. apply bind_Ok in Hr as (l & Hl & _). apply bad_decl_Ok in Hl.
  split; [by apply Hpos|by eapply fields_ok|by apply Nat.eqb_eq|].
  exists l. by apply (so_sort env _ (kernel_sound env fuel)).
Qed.
End Checks.

(** ** Growth *)

Section Growth.
Context `{NP : NetPath}.

Lemma add_const_ok env id ty body env' : add_const env id ty body = (env', Ok tt) ->
  consts env !! id = None /\ refs_unknown_const body (consts env) id = false
  /\ env' = set_consts (<[id := (ty, body)]> (consts env)) env.
Proof.
  unfold add_const. case_bool_decide as Hid; [done|]. intros H.
  destruct (refs_unknown_const body (consts env) id); [done|]. injection H as <-.
  split; [|done]. destruct (consts env !! id); [|done]. by destruct Hid; eexists.
Qed.

Lemma add_inductive_cases fuel env ind :
  let '(env', r) := add_inductive fuel env ind in
  match r with
  | Ok tt =>
      inds env !! ind_id ind = None
      /\ env' = mk_env (consts env) (<[ind_id ind := ind]> (inds env))
                  (<[ind_id ind := arity_of ind]> (recursors env))
      /\ check_positivity fuel env ind = Ok tt
      /\ let env1 := set_inds (<[ind_id ind := ind]> (inds env)) env in
         (_ ← check_field_universes fuel env1 ind; check_ret_indices fuel env1 ind) = Ok tt
  | Err _ => env' = env
  | _ => True
  end.
Proof.
  unfold add_inductive. case_bool_decide as Hid; [done|].
  assert (inds env !! ind_id ind = None) as Hnone
    by (destruct (inds env !! ind_id ind); [destruct Hid; by eexists|done]).
  destruct (check_positivity fuel env ind) as [[]|e| |] eqn:Hp; try done.
  set (env1 := set_inds _ env). cbn zeta.
  destruct (_ ← check_field_universes fuel env1 ind; check_ret_indices fuel env1 ind)
    as [[]|e| |] eqn:Hc; try done.
  unfold env1, set_inds. simpl. rewrite delete_insert_id by done. by destruct env.
Qed.

Lemma extends_le env env' : extends env env' -> env_le env env'.
Proof.
  intros [? id ty body ? H|? fuel ind ? H].
  - apply add_const_ok in H as (Hid & _ & ->). split; [by apply insert_subseteq|done].
  - pose proof (add_inductive_cases fuel env0 ind) as Hc. rewrite H in Hc.
    destruct Hc as (Hid & -> & _). split; [done|by apply insert_subseteq].
Qed.

Lemma refs_known t known this : refs_unknown_const t known this = false ->
  forall c, mentions t c -> c <> this /\ is_Some (known !! c).
Proof.
  induction t as [x|l|a IHa b IHb|a IHa b IHb|a IHa b IHb|c'|j|j c'|j]; simpl; intros H c Hc; try done.
  - apply orb_false_iff in H as [Ha Hb]. destruct Hc; auto.
  - apply orb_false_iff in H as [Ha Hb]. destruct Hc; auto.
  - apply orb_false_iff in H as [Ha Hb]. destruct Hc; auto.
  - subst c'. apply orb_false_iff in H as [Ha%Z.eqb_neq Hb].
    split; [done|]. by apply negb_false_iff, bool_decide_eq_true in Hb.
Qed.

(** Constants are ranked by the time of their admission. *)
Definition ranked (env : GlobalEnv) (rank : Z -> nat) : Prop :=
  (forall c, is_Some (consts env !! c) -> (rank c < size (consts env))%nat)
  /\ (forall c c', unfolds_to env c c' -> is_Some (consts env !! c) /\ (rank c < rank c')%nat).

Lemma extends_ranked env env' rank : extends env env' -> ranked env rank ->
  exists rank', ranked env' rank'.
Proof.
  intros [? id ty body ? H|? fuel ind ? H] [Hr Hu].
  - apply add_const_ok in H as (Hid & Href & ->).
    exists (fun c => if decide (c = id) then size (consts env0) else rank c).
    unfold ranked, unfolds_to, set_consts. cbn [consts].
    rewrite map_size_insert_None by done. split.
    + intros c Hc. case_decide; [lia|]. rewrite lookup_insert_ne in Hc by done.
      apply Hr in Hc. lia.
    + intros c c' (ty' & body' & Hc' & Hm).
      assert (is_Some (consts env0 !! c) /\ c <> id) as [Hknown Hne].
      { apply lookup_insert_Some in Hc' as [[<- [= <- <-]]|[_ Hc']].
        - by destruct (refs_known _ _ _ Href c Hm).
        - destruct (Hu c c') as [Hs _]; [by exists ty', body'|]. split; [done|].
          intros ->. rewrite Hid in Hs. by destruct Hs. }
      rewrite lookup_insert_ne by done. split; [done|].
      rewrite decide_False by done. apply lookup_insert_Some in Hc' as [[<- _]|[Hc1 Hc']].
      * rewrite decide_True by done. by apply Hr.
      * rewrite decide_False by done. apply Hu. by exists ty', body'.
  - pose proof (add_inductive_cases fuel env0 ind) as Hc. rewrite H in Hc.
    destruct Hc as (_ & -> & _). by exists rank.
Qed.

(** What is true of every environment built by successful admissions. *)
Definition wf_env (env : GlobalEnv) : Prop := forall i ind, inds env !! i = Some ind ->
  ind_id ind = i /\ wf_inductive env ind /\ recursors env !! i = Some (arity_of ind).

Lemma extends_wf env env' : extends env env' -> wf_env env -> wf_env env'.
Proof.
  intros Hext Hw i ind Hi. pose proof (extends_le _ _ Hext) as Hle.
  assert (inds env !! i = Some ind -> recursors env' !! i = recursors env !! i ->
    ind_id ind = i /\ wf_inductive env' ind /\ recursors env' !! i = Some (arity_of ind)) as Hold.
  { intros Hi' Hr. destruct (Hw i ind Hi') as (? & Hwf & Hrec). rewrite Hr.
    split; [done|]. split; [|done]. eapply Forall_impl; [exact Hwf|].
    intros c. by apply wf_ctor_weaken. }
  destruct Hext as [env id ty body env' H|env fuel d env' H].
  - apply add_const_ok in H as (_ & _ & ->). by apply Hold.
  - pose proof (add_inductive_cases fuel env d) as Hc. rewrite H in Hc.
    destruct Hc as (Hid & -> & Hpos & Hchk). cbn [inds recursors] in *.
    apply lookup_insert_Some in Hi as [[<- <-]|[Hne Hi]].
    + split; [done|]. split; [|apply lookup_insert_eq].
      set (env1 := set_inds _ env) in Hchk.
      assert (wf_inductive env1 d) as Hwf.
      { apply (checks_ok env1 fuel d Hchk). intros c Hc.
        eapply Forall_impl; [by apply (check_positivity_ok env fuel d Hpos)|].
        intros t. apply spos_weaken. split; [done|by apply insert_subseteq]. }
      eapply Forall_impl; [exact Hwf|]. intros c. apply wf_ctor_weaken. by split.
    + apply Hold; [done|]. by rewrite lookup_insert_ne.
Qed.
End Growth.

(** * Theorems *)

(** C10: In every environment built by successful admissions, unfolding
    definitions terminates: the relation "is mentioned in the body of" on
    constants is well founded. *)
Theorem delta_acyclic `{NP : NetPath} (env : GlobalEnv) :
  star extends env_default env -> well_founded (unfolds_to env).
Proof.
  intros H. assert (exists rank, ranked env rank) as [rank [_ Hr]].
  { assert (forall e e', star extends e e' -> (exists r, ranked e r) -> exists r, ranked e' r) as Hs
      by (induction 1 as [|? ? ? He]; [done|]; intros [r Hr]; eauto using extends_ranked).
    apply (Hs _ _ H). exists (fun _ => 0%nat). split.
    - intros c. unfold env_default. cbn [consts]. rewrite lookup_empty. by intros [].
    - intros c c' (ty & body & Hc & _). unfold env_default in Hc. cbn [consts] in Hc.
      by rewrite lookup_empty in Hc. }
  apply (well_founded_lt_compat _ rank). intros c c' Hu. by apply Hr.
Qed.

Definition two_consts : GlobalEnv :=
  (add_const (add_const env_default 0 (Sort 1) (Sort 0)).1 1 (Sort 1) (Const 0)).1.

Lemma delta_acyclic_witness : well_founded (unfolds_to two_consts) /\ unfolds_to two_consts 0 1.
Proof.
  split.
  - apply (delta_acyclic (NP := no_path) two_consts).
    eapply star_step; [by eapply (ext_const (NP := no_path) env_default 0 (Sort 1) (Sort 0))|].
    apply star_one. by eapply (ext_const (NP := no_path) _ 1 (Sort 1) (Const 0)).
  - exists (Sort 1), (Const 0). split; [vm_compute; reflexivity|reflexivity].
Defined.

(** Admitting an inductive type is atomic: on every error the environment
    is the one before the call, although the type is registered while its
    fields are checked; on success exactly that type and its arity table are
    added, under a fresh identifier. *)
Theorem add_inductive_atomic `{NP : NetPath} (fuel : nat) (env : GlobalEnv) (ind : Inductive_) :
  let '(env', r) := add_inductive fuel env ind in
  match r with
  | Ok tt =>
      inds env !! ind_id ind = None
      /\ consts env' = consts env
      /\ inds env' = <[ind_id ind := ind]> (inds env)
      /\ recursors env' = <[ind_id ind := arity_of ind]> (recursors env)
  | Err _ => env' = env
  | _ => True
  end.
Proof.
  pose proof (add_inductive_cases fuel env ind) as H.
  destruct (add_inductive fuel env ind) as [env' [[]|e| |]]; try done.
  by destruct H as (? & -> & _).
Qed.


