(* ===== verification/Scoping.v ===== *)
(** * Scoping of kernel terms, constructors and recursors

    The recursor of a declaration is assembled by index arithmetic from terms
    of four different scopes.  For a declaration whose telescopes are
    well scoped the type it builds is closed, as are the types of the family
    and of its constructors. *)
From S2P Require Import Prelude Bytes Error Term Kernel Typing.

(** All variables of [t] are below [n]. *)
Fixpoint scoped (n : Z) (t : Tm) : Prop :=
  match t with
  | Var i => 0 <= i < n
  | Pi a b | Lam a b => scoped n a /\ scoped (n + 1) b
  | App f x => scoped n f /\ scoped n x
  | _ => True
  end.

(** The deepest nesting of binders in [t]. *)
Fixpoint binders (t : Tm) : Z :=
  match t with
  | Pi a b | Lam a b => Z.max (binders a) (1 + binders b)
  | App f x => Z.max (binders f) (binders x)
  | _ => 0
  end.

(** Each type of a telescope is in the scope of those before it. *)
Definition scoped_tele (n : Z) (tele : list Tm) : Prop :=
  forall q t, tele !! q = Some t -> scoped (n + Z.of_nat q) t.

(** A declaration in its decl scopes: parameters, indices over them, fields
    over the parameters, return indices over parameters and fields. *)
Record scoped_decl (ind : Inductive_) : Prop := mk_scoped_decl {
  sd_params : scoped_tele 0 (ind_params ind);
  sd_indices : scoped_tele (Z.of_nat (length (ind_params ind))) (ind_indices_tele ind);
  sd_ctors : forall c, c ∈ ind_ctors ind ->
    scoped_tele (Z.of_nat (length (ind_params ind))) (ctor_args c)
    /\ Forall (scoped (Z.of_nat (length (ind_params ind) + length (ctor_args c)))) (ret_indices c)
}.

(** The telescopes and terms of a declaration are far from the range of an
    index. *)
Definition small (t : Tm) : Prop := binders t < 2 ^ 28.
Record small_decl (ind : Inductive_) : Prop := mk_small_decl {
  sm_params : Z.of_nat (length (ind_params ind)) < 2 ^ 28;
  sm_indices : Z.of_nat (length (ind_indices_tele ind)) < 2 ^ 28;
  sm_ctors : Z.of_nat (length (ind_ctors ind)) < 2 ^ 28;
  sm_index_types : Forall small (ind_indices_tele ind);
  sm_fields : forall c, c ∈ ind_ctors ind -> Z.of_nat (length (ctor_args c)) < 2 ^ 28
    /\ Forall small (ctor_args c) /\ Forall small (ret_indices c)
}.

(** * Lemmas *)

Lemma binders_nonneg t : 0 <= binders t.
Proof. induction t; simpl; lia. Qed.

Lemma binders_shift t d cut : binders (shift t d cut) = binders t.
Proof. revert cut. induction t; intros cut; simpl; rewrite ?IHt1, ?IHt2; done. Qed.

Lemma scoped_shift n t d cut : scoped n t -> 0 <= d -> n + binders t + d <= 2 ^ 32 ->
  scoped (n + d) (shift t d cut).
Proof.
  revert n cut. induction t; intros n cut Hs Hd Hb; simpl in *; try done.
  - destruct (cut <=? i); [|lia]. rewrite as_u32_small by (unfold u32_range; lia). lia.
  - destruct Hs. split; [apply IHt1; [done|done|lia]|].
    replace (n + d + 1) with (n + 1 + d) by lia. apply IHt2; [done|done|lia].
  - destruct Hs. split; [apply IHt1; [done|done|lia]|].
    replace (n + d + 1) with (n + 1 + d) by lia. apply IHt2; [done|done|lia].
  - destruct Hs. split; [apply IHt1; [done|done|lia]|apply IHt2; [done|done|lia]].
Qed.

Lemma scoped_mono n m t : scoped n t -> n <= m -> scoped m t.
Proof.
  revert n m. induction t; intros n m Hs Hle; simpl in *; try done; try lia;
    destruct Hs; split; eauto; eapply IHt2; try done; lia.
Qed.

Lemma scoped_apply n h args : scoped n h -> Forall (scoped n) args -> scoped n (apply h args).
Proof.
  intros Hh Ha. revert h Hh. induction Ha as [|a args Ha Hargs IH]; intros h Hh; [done|].
  by apply IH.
Qed.

Lemma scoped_telescope n tele body : scoped_tele n tele ->
  scoped (n + Z.of_nat (length tele)) body -> scoped n (telescope tele body).
Proof.
  revert n. induction tele as [|t tele IH]; intros n Ht Hb; cbn [telescope foldr length] in *.
  - by rewrite Z.add_0_r in Hb.
  - split.
    + specialize (Ht 0%nat t eq_refl). by rewrite Z.add_0_r in Ht.
    + apply IH; [|by replace (n + 1 + Z.of_nat (length tele)) with
                    (n + Z.of_nat (S (length tele))) by lia].
      intros q u Hq. specialize (Ht (S q) u Hq).
      by replace (n + 1 + Z.of_nat q) with (n + Z.of_nat (S q)) by lia.
Qed.

Lemma scoped_band n k m : (Z.of_nat (k + m) <= n) -> Forall (scoped n) (band m k).
Proof.
  intros Hn. unfold band. apply Forall_fmap, Forall_forall. intros a Ha%elem_of_seq.
  simpl. lia.
Qed.

Lemma scoped_pis n m f body : (forall q, (q < m)%nat -> scoped (n + Z.of_nat q) (f q)) ->
  scoped (n + Z.of_nat m) body -> scoped n (pis m f body).
Proof.
  intros Hf Hb. unfold pis. apply scoped_telescope.
  - intros q t Hq. rewrite list_lookup_fmap in Hq. apply fmap_Some in Hq as (x & Hx & ->).
    apply lookup_seq in Hx as [-> Hlt]. by apply Hf.
  - by rewrite length_fmap, length_seq.
Qed.

Lemma scoped_imap {A} n (f : nat -> A -> Tm) l :
  (forall q x, l !! q = Some x -> scoped (n + Z.of_nat q) (f q x)) -> scoped_tele n (imap f l).
Proof.
  intros Hf q t Hq. rewrite list_lookup_imap in Hq. apply fmap_Some in Hq as (x & Hx & ->).
  by apply Hf.
Qed.

(** A relocation of a term of scope [n] by [d] and then, above a cutoff, by
    [e]. *)
Lemma scoped_relocate n t d e cut : scoped n t -> 0 <= d -> 0 <= e ->
  n + binders t + d + e <= 2 ^ 32 ->
  scoped (n + d + e) (shift (shift t d 0) e cut).
Proof.
  intros Hs Hd He Hb. apply scoped_shift; [|done|rewrite binders_shift; lia].
  apply scoped_shift; [done|done|]. lia.
Qed.

Lemma spine_scoped n t h args : spine t = (h, args) -> scoped n t -> Forall (scoped n) args.
Proof.
  intros ->%spine_apply. revert h. induction args as [|a args IH] using rev_ind; intros h Hs;
    [constructor|]. rewrite apply_app in Hs. destruct Hs as [Hs Ha].
  apply Forall_app. split; [by eapply IH|by constructor].
Qed.

Lemma spine_binders t h args a : spine t = (h, args) -> a ∈ args -> binders a <= binders t.
Proof.
  intros ->%spine_apply. revert h. induction args as [|b args IH] using rev_ind; intros h Ha;
    [by apply not_elem_of_nil in Ha|]. rewrite apply_app.
  change (apply (apply h args) [b]) with (App (apply h args) b). cbn [binders].
  apply elem_of_app in Ha as [Ha|Ha%list_elem_of_singleton]; [|subst; lia].
  specialize (IH h Ha). lia.
Qed.

Lemma ind_indices_elem t i p a : a ∈ ind_indices t i p ->
  exists h args, spine t = (h, args) /\ a ∈ args.
Proof.
  unfold ind_indices. destruct (spine t) as [h args]. intros Ha. exists h, args. split; [done|].
  destruct h as [| | | | | |j| |]; try (by apply not_elem_of_nil in Ha).
  destruct ((j =? i) && (p <=? length args)%nat); [|by apply not_elem_of_nil in Ha].
  eapply elem_of_submseteq; [exact Ha|]. apply sublist_submseteq, sublist_drop.
Qed.

Lemma rec_fields_lt i fields q : q ∈ rec_fields i fields -> (q < length fields)%nat.
Proof.
  unfold rec_fields. intros Hq. apply list_elem_of_fmap in Hq as ([q' t] & -> & Hq).
  apply list_elem_of_filter in Hq as [_ Hq].
  apply elem_of_lookup_imap in Hq as (j & x & [= -> ->] & Hx). by eapply lookup_lt_Some.
Qed.

Lemma rec_fields_length i fields : (length (rec_fields i fields) <= length fields)%nat.
Proof.
  unfold rec_fields. rewrite length_fmap. etrans; [apply length_filter|]. by rewrite length_imap.
Qed.

(** ** The recursor *)

Section Recursor.
Context (ind : Inductive_) (Hs : scoped_decl ind) (Hm : small_decl ind).
Notation p := (length (ind_params ind)).
Notation c := (length (ind_ctors ind)).
Notation nidx := (length (ind_indices_tele ind)).

Lemma field_scoped cd q : cd ∈ ind_ctors ind -> (q < length (ctor_args cd))%nat ->
  scoped (Z.of_nat (p + q)) (nth q (ctor_args cd) (Sort 0))
  /\ binders (nth q (ctor_args cd) (Sort 0)) < 2 ^ 28.
Proof.
  intros Hc Hq. destruct (lookup_lt_is_Some_2 _ _ Hq) as [t Ht].
  rewrite (nth_lookup_Some _ _ _ _ Ht). destruct (sd_ctors _ Hs cd Hc) as [Hf _].
  destruct (sm_fields _ Hm cd Hc) as (_ & Hb & _). split.
  - rewrite Nat2Z.inj_add. by apply Hf.
  - by apply (Forall_lookup_1 _ _ _ _ Hb Ht).
Qed.

Lemma ih_scoped cd k j : cd ∈ ind_ctors ind -> (k < c)%nat ->
  let m := length (ctor_args cd) in
  let recs := rec_fields (ind_id ind) (ctor_args cd) in
  (j < length recs)%nat ->
  let q := nth j recs 0%nat in
  let idx_args := (fun t => shift (shift t (Z.of_nat (j + m - q)) 0) (Z.of_nat (k + 1))
                      (Z.of_nat (j + m)))
                    <$> ind_indices (nth q (ctor_args cd) (Sort 0)) (ind_id ind) p in
  scoped (Z.of_nat (p + 1 + k + m + j))
    (App (apply (Var (Z.of_nat (m + j + k))) idx_args) (Var (Z.of_nat (j + (m - 1 - q))))).
Proof.
  intros Hc Hk m recs Hj q idx_args.
  assert (q < m)%nat as Hq.
  { apply (rec_fields_lt (ind_id ind)). apply list_elem_of_In, nth_In. exact Hj. }
  pose proof (rec_fields_length (ind_id ind) (ctor_args cd)) as Hr. fold recs m in Hr.
  pose proof (sm_params _ Hm). pose proof (sm_ctors _ Hm).
  destruct (sm_fields _ Hm cd Hc) as (Hmm & _). fold m in Hmm.
  destruct (field_scoped cd q Hc Hq) as [Hfs Hfb].
  split; [|simpl; lia]. apply scoped_apply; [simpl; lia|].
  apply Forall_fmap, Forall_forall. intros t Ht. cbn.
  apply ind_indices_elem in Ht as (h & args & Hsp & Ht).
  pose proof (spine_scoped _ _ _ _ Hsp Hfs) as Hts. rewrite Forall_forall in Hts.
  pose proof (spine_binders _ _ _ _ Hsp Ht) as Htb.
  replace (Z.of_nat (p + 1 + k + m + j))
    with (Z.of_nat (p + q) + Z.of_nat (j + m - q) + Z.of_nat (k + 1)) by lia.
  apply scoped_relocate; [by apply Hts|lia|lia|]. lia.
Qed.

Lemma minor_scoped cd k : cd ∈ ind_ctors ind -> (k < c)%nat ->
  scoped (Z.of_nat (p + 1 + k)) (minor_type ind k cd).
Proof.
  intros Hc Hk. unfold minor_type.
  pose proof (rec_fields_length (ind_id ind) (ctor_args cd)) as Hr.
  pose proof (sm_params _ Hm). pose proof (sm_ctors _ Hm).
  destruct (sm_fields _ Hm cd Hc) as (Hmm & _ & Hrb).
  destruct (sd_ctors _ Hs cd Hc) as [_ Hret].
  apply scoped_pis; [|apply scoped_pis; [|split]].
  - intros q Hq. destruct (field_scoped cd q Hc Hq) as [Hfs Hfb].
    replace (Z.of_nat (p + 1 + k) + Z.of_nat q) with (Z.of_nat (p + q) + Z.of_nat (k + 1)) by lia.
    apply scoped_shift; [done|lia|]. lia.
  - intros j Hj. rewrite <- !Nat2Z.inj_add. by apply ih_scoped.
  - apply scoped_apply; [simpl; lia|]. apply Forall_fmap, Forall_forall. intros t Ht. cbn.
    rewrite Forall_forall in Hret, Hrb. specialize (Hret t Ht). specialize (Hrb t Ht).
    unfold small in Hrb.
    match goal with |- scoped ?n _ => replace n with
      (Z.of_nat (p + length (ctor_args cd))
       + Z.of_nat (length (rec_fields (ind_id ind) (ctor_args cd))) + Z.of_nat (k + 1)) by lia end.
    apply scoped_relocate; [done|lia|lia|]. lia.
  - apply scoped_apply; [apply scoped_apply; [done|]|]; apply scoped_band; lia.
Qed.

Lemma ind_app_scoped n k : Z.of_nat (p + nidx + k) <= n -> scoped n (ind_app (ind_id ind) p nidx k).
Proof.
  intros Hn. unfold ind_app. apply scoped_apply; [done|]. apply Forall_app.
  split; apply scoped_band; lia.
Qed.

Lemma recursor_scoped lm T : recursor_type ind lm = Some T -> scoped 0 T.
Proof.
  unfold recursor_type. intros [= <-].
  pose proof (sm_params _ Hm). pose proof (sm_ctors _ Hm). pose proof (sm_indices _ Hm).
  apply scoped_telescope; [apply (sd_params _ Hs)|]. split.
  { apply scoped_telescope; [exact (sd_indices _ Hs)|].
    split; [apply ind_app_scoped; lia|done]. }
  apply scoped_telescope.
  { apply scoped_imap. intros k cd Hk. pose proof (lookup_lt_Some _ _ _ Hk) as Hlt.
    replace (0 + Z.of_nat p + 1 + Z.of_nat k) with (Z.of_nat (p + 1 + k)) by lia.
    apply minor_scoped; [by eapply list_elem_of_lookup_2|done]. }
  rewrite length_imap. apply scoped_telescope.
  { apply scoped_imap. intros q t Hq. pose proof (lookup_lt_Some _ _ _ Hq) as Hlt.
    pose proof (sd_indices _ Hs q t Hq) as Ht.
    pose proof (Forall_lookup_1 _ _ _ _ (sm_index_types _ Hm) Hq) as Hb. unfold small in Hb.
    replace (0 + Z.of_nat p + 1 + Z.of_nat c + Z.of_nat q)
      with (Z.of_nat p + Z.of_nat q + Z.of_nat (1 + c)) by lia.
    apply scoped_shift; [done|lia|]. lia. }
  rewrite length_imap. split; [apply ind_app_scoped; lia|]. split; [|simpl; lia].
  apply scoped_apply; [simpl; lia|]. apply scoped_band. lia.
Qed.

Lemma ctor_scoped cd : cd ∈ ind_ctors ind ->
  scoped 0 (telescope (ind_params ind) (telescope (ctor_args cd) (ctor_ret (ind_id ind) ind cd))).
Proof.
  intros Hc. destruct (sd_ctors _ Hs cd Hc) as [Ha Hr].
  apply scoped_telescope; [apply (sd_params _ Hs)|].
  apply scoped_telescope; [exact Ha|]. unfold ctor_ret. apply scoped_apply; [done|].
  apply Forall_app. split; [apply scoped_band; lia|].
  eapply Forall_impl; [exact Hr|]. intros t Ht. eapply scoped_mono; [exact Ht|lia].
Qed.
End Recursor.

(** * Theorems *)

(** C9: For a declaration whose telescopes are well scoped, and small enough
    for 32-bit indices, the assembled types are closed terms: the recursor at
    every result level, the family, and every constructor.  No index computed
    for parameters, motive, minors, fields, inductive hypotheses or indices
    escapes its binders or wraps. *)
Theorem assembled_types_closed (ind : Inductive_) (lm : Level) :
  scoped_decl ind -> small_decl ind ->
  (exists T, recursor_type ind lm = Some T /\ scoped 0 T)
  /\ scoped 0 (telescope (ind_params ind)
                 (telescope (ind_indices_tele ind) (Sort (ind_sort ind))))
  /\ (forall c, c ∈ ind_ctors ind ->
        scoped 0 (telescope (ind_params ind)
                    (telescope (ctor_args c) (ctor_ret (ind_id ind) ind c)))).
Proof.
  intros Hs Hm. split; [|split].
  - destruct (recursor_type ind lm) as [T|] eqn:HT; [|done].
    exists T. split; [done|]. by eapply recursor_scoped.
  - apply scoped_telescope; [apply (sd_params _ Hs)|].
    apply scoped_telescope; [exact (sd_indices _ Hs)|done].
  - intros c. by apply ctor_scoped.
Qed.

(** Vectors over a type, indexed by their length. *)
Definition vec_decl : Inductive_ :=
  mk_ind 1 [Sort 0] [Ind 0] 1
    [mk_ctor 0 [] [zero_];
     mk_ctor 1 [Ind 0; Var 1; apply (Ind 1) [Var 2; Var 1]] [succ_ (Var 2)]].

Lemma assembled_types_closed_witness :
  exists T, recursor_type vec_decl 2 = Some T /\ scoped 0 T /\ T <> Sort 0.
Proof.
  destruct (assembled_types_closed vec_decl 2) as [(T & HT & Hs) _].
  - split.
    + intros [|[]] t [= <-]; simpl; done.
    + intros [|[]] t [= <-]; simpl; done.
    + intros c [-> |[-> |?%not_elem_of_nil]%elem_of_cons]%elem_of_cons; [| |done]; split.
      * intros [] t Hq; discriminate Hq.
      * repeat constructor.
      * intros [|[|[|[]]]] t [= <-]; simpl; lia.
      * repeat constructor; simpl; lia.
  - split; try (simpl; lia).
    + repeat constructor.
    + intros c [-> |[-> |?%not_elem_of_nil]%elem_of_cons]%elem_of_cons; [| |done];
        (split; [simpl; lia|split; repeat constructor]).
  - exists T. split; [done|]. split; [done|]. intros ->. vm_compute in HT. discriminate HT.
Defined.
