(* ===== verification/Extract.v ===== *)
(** * Extraction of proved values ([crates/dnx-proof/src/extract.rs])

    A term that checks in the empty context against an inductive type is
    normalised, and its spine of constructors decoded to a value of the
    runtime.  Naturals, booleans and lists are recognised by the shape of
    their constructors.  The result is compared with the relation [encodes]
    between values and normal forms. *)
From S2P Require Import Prelude Bytes Utf8 Error LOPath Port Arena Net Prim Term Kernel Typing.

Inductive ExtractError : Type :=
| TypeCheck (e : TypeError)
| NotAValue
| NotSupported (why : string).

Inductive BuiltIn : Type := BNat | BBool | BList.

Fixpoint head_inductive (ty : Tm) : option Z :=
  match ty with
  | Ind i => Some i
  | App f _ => head_inductive f
  | _ => None
  end.

Definition is_nil {X} (l : list X) : bool := match l with [] => true | _ => false end.

Definition classify (ind : Inductive_) : option BuiltIn :=
  match ind_ctors ind with
  | [c0; c1] =>
      if is_nil (ind_indices_tele ind) && is_nil (ctor_args c0) then
        match ind_params ind, ctor_args c1 with
        | [], [a] => if head_is_ind a (ind_id ind) then Some BNat else None
        | [], [] => Some BBool
        | [_], [_; a] => if head_is_ind a (ind_id ind) then Some BList else None
        | _, _ => None
        end
      else None
  | _ => None
  end.

(** [checked_add] on [i64]. *)
Fixpoint decode_nat (id : IndId) (nf : Tm) (n : Z) : res ExtractError PrimValue :=
  match nf with
  | Ctor j 0 => if j =? id then Ok (PInt n) else Err NotAValue
  | App (Ctor j 1) pred =>
      if j =? id then
        if n + 1 <? 2 ^ 63 then decode_nat id pred (n + 1) else Err (NotSupported "nat too large")
      else Err NotAValue
  | _ => Err NotAValue
  end.

Definition decode_bool (id : IndId) (nf : Tm) : res ExtractError PrimValue :=
  match spine nf with
  | (Ctor j 0, []) => if j =? id then Ok (PBool false) else Err NotAValue
  | (Ctor j 1, []) => if j =? id then Ok (PBool true) else Err NotAValue
  | _ => Err NotAValue
  end.

Definition element_inductive (env : GlobalEnv) (param : option Tm) : res ExtractError Inductive_ :=
  pty ← ok_or param NotAValue;
  id ← ok_or (head_inductive pty) (NotSupported "non-inductive list element");
  ok_or (inds env !! id) (NotSupported "unknown list element inductive").

(** The loop of [decode_list]; [dec] decodes an element. *)
Fixpoint decode_list (dec : Inductive_ -> Tm -> res ExtractError PrimValue) (env : GlobalEnv) (ind : Inductive_)
    (fuel : nat) (cur : Tm) (out : list PrimValue) : res ExtractError PrimValue :=
  match fuel with
  | O => Fuel
  | S fuel =>
      let np := length (ind_params ind) in
      match spine cur with
      | (Ctor j 0, a) =>
          if j =? ind_id ind then
            if (length a =? np)%nat then Ok (PList out) else Err NotAValue
          else Err NotAValue
      | (Ctor j 1, a) =>
          if j =? ind_id ind then
            elem_ind ← element_inductive env (head a);
            match drop np a with
            | [hd; tl] =>
                v ← dec elem_ind hd;
                decode_list dec env ind fuel tl (out ++ [v])
            | _ => Err NotAValue
            end
          else Err NotAValue
      | _ => Err NotAValue
      end
  end.

Fixpoint decode_value (fuel : nat) (env : GlobalEnv) (ind : Inductive_) (nf : Tm) : res ExtractError PrimValue :=
  match fuel with
  | O => Fuel
  | S fuel =>
      match classify ind with
      | None => Err (NotSupported "not a v1 built-in inductive")
      | Some BNat => decode_nat (ind_id ind) nf 0
      | Some BBool => decode_bool (ind_id ind) nf
      | Some BList => decode_list (decode_value fuel env) env ind fuel nf []
      end
  end.

Section Extract.
Context `{NP : NetPath}.

Definition extract (fuel : nat) (env : GlobalEnv) (ty tm : Tm) : res ExtractError PrimValue :=
  _ ← map_err TypeCheck (check env fuel [] tm ty);
  head ← ok_or (head_inductive ty) (NotSupported "non-inductive goal type");
  ind ← ok_or (inds env !! head) (NotSupported "unknown inductive");
  nf ← total (nf_tm env fuel [] tm);
  decode_value fuel env ind nf.
End Extract.

(** ** The reference *)

Definition nat_of (id : IndId) (n : nat) : Tm := Nat.iter n (App (Ctor id 1)) (Ctor id 0).

(** The normal form [t] of a type headed by [ind] stands for the value. *)
Inductive encodes (env : GlobalEnv) : Inductive_ -> PrimValue -> Tm -> Prop :=
| enc_nat ind n : classify ind = Some BNat -> Z.of_nat n < 2 ^ 63 ->
    encodes env ind (PInt (Z.of_nat n)) (nat_of (ind_id ind) n)
| enc_false ind : classify ind = Some BBool -> encodes env ind (PBool false) (Ctor (ind_id ind) 0)
| enc_true ind : classify ind = Some BBool -> encodes env ind (PBool true) (Ctor (ind_id ind) 1)
| enc_nil ind a : classify ind = Some BList -> encodes env ind (PList []) (App (Ctor (ind_id ind) 0) a)
| enc_cons ind a i elem v hd vs tl : classify ind = Some BList ->
    head_inductive a = Some i -> inds env !! i = Some elem ->
    encodes env elem v hd -> encodes env ind (PList vs) tl ->
    encodes env ind (PList (v :: vs)) (apply (Ctor (ind_id ind) 1) [a; hd; tl]).

(** Lists over [env_nat]. *)
Definition list_decl : Inductive_ := mk_ind 3 [Sort 0] [] 0 [mk_ctor 0 [] []; mk_ctor 1 [Var 0; App (Ind 3) (Var 1)] []].
Definition env_lists : GlobalEnv := (add_inductive (NP := fun _ _ => Fuel) 40 env_nat list_decl).1.
Definition cons_ (hd tl : Tm) : Tm := apply (Ctor 3 1) [Ind 0; hd; tl].

Fixpoint tm_size (t : Tm) : nat :=
  match t with
  | Pi a b | Lam a b | App a b => S (tm_size a + tm_size b)
  | _ => 1
  end.

(** * Lemmas *)

Lemma apply_snoc h l x : apply h (l ++ [x]) = App (apply h l) x.
Proof. unfold apply. by rewrite foldl_app. Qed.

Lemma classify_list ind : classify ind = Some BList -> length (ind_params ind) = 1%nat.
Proof.
  unfold classify. repeat (case_match; try discriminate). done.
Qed.

Lemma nat_of_spine id n t : nat_of id n = t -> t = Ctor id 0 \/ exists p, t = App (Ctor id 1) p.
Proof. intros <-. destruct n; [by left|right; by eexists]. Qed.

Lemma decode_nat_of id n : forall k, k + Z.of_nat n < 2 ^ 63 -> decode_nat id (nat_of id n) k = Ok (PInt (k + Z.of_nat n)).
Proof.
  induction n as [|n IH]; intros k Hk.
  - cbn. by rewrite Z.eqb_refl, Z.add_0_r.
  - change (nat_of id (S n)) with (App (Ctor id 1) (nat_of id n)). cbn [decode_nat]. rewrite Z.eqb_refl. rewrite (proj2 (Z.ltb_lt _ _)) by lia. rewrite IH by lia. do 2 f_equal. lia.
Qed.

Lemma decode_nat_inv id t : forall k v, 0 <= k < 2 ^ 63 -> decode_nat id t k = Ok v ->
  exists n, t = nat_of id n /\ v = PInt (k + Z.of_nat n) /\ k + Z.of_nat n < 2 ^ 63.
Proof.
  induction t as [| | | |f _ x IH| | |j c|]; intros k v Hk H; cbn [decode_nat] in H; try discriminate.
  - destruct f as [| | | | | | |j c|]; try discriminate. destruct c as [|[]|]; try discriminate.
    destruct (j =? id) eqn:Hj; [|discriminate]. apply Z.eqb_eq in Hj as ->.
    destruct (k + 1 <? 2 ^ 63) eqn:Hlt; [|discriminate]. apply Z.ltb_lt in Hlt.
    apply IH in H as (n & -> & -> & Hn); [|lia]. exists (S n). split; [done|]. split; [f_equal; lia|lia].
  - destruct c; try discriminate. destruct (j =? id) eqn:Hj; [|discriminate]. apply Z.eqb_eq in Hj as ->.
    injection H as <-. exists 0%nat. split; [done|]. split; [f_equal; lia|lia].
Qed.

Lemma spine_app f x : spine (App f x) = ((spine f).1, (spine f).2 ++ [x]).
Proof.
  assert (forall t args, spine_from t args = ((spine_from t []).1, (spine_from t []).2 ++ args)) as H.
  { induction t; intros args; try done. cbn [spine_from]. rewrite (IHt1 (t2 :: args)), (IHt1 [t2]). cbn. by rewrite <- app_assoc. }
  unfold spine. cbn [spine_from]. apply H.
Qed.

Lemma spine_inv t h l : spine t = (h, l) -> t = apply h l.
Proof. apply spine_apply. Qed.

Section Decode.
Context (env : GlobalEnv).

Lemma decode_bool_inv ind t v : classify ind = Some BBool -> decode_bool (ind_id ind) t = Ok v -> encodes env ind v t.
Proof.
  intros Hc H. unfold decode_bool in H. destruct (spine t) as [h l] eqn:Hs. apply spine_inv in Hs as ->.
  destruct h as [| | | | | | |j c|]; try discriminate.
  destruct c as [|[]|]; try discriminate; destruct l; try discriminate;
    (destruct (j =? ind_id ind) eqn:Hj; [|discriminate]); apply Z.eqb_eq in Hj as ->; injection H as <-; by constructor.
Qed.

(** The loop reads a list from any point. *)
Lemma decode_list_inv dec ind (Hc : classify ind = Some BList) :
  (forall elem hd v, dec elem hd = Ok v -> encodes env elem v hd) ->
  forall fuel cur out r, decode_list dec env ind fuel cur out = Ok r ->
  exists vs, r = PList (out ++ vs) /\ encodes env ind (PList vs) cur.
Proof.
  intros Hdec. induction fuel as [|fuel IH]; intros cur out r H; [discriminate|]. cbn [decode_list] in H.
  rewrite (classify_list ind Hc) in H. destruct (spine cur) as [h a] eqn:Hs. apply spine_inv in Hs as ->.
  destruct h as [| | | | | | |j c|]; try discriminate. destruct c as [|[]|]; try discriminate;
    (destruct (j =? ind_id ind) eqn:Hj; [|discriminate]); apply Z.eqb_eq in Hj as ->.
  - destruct a as [|a [|]]; try discriminate. injection H as <-. exists []. rewrite app_nil_r. split; [done|by constructor].
  - destruct a as [|a rest]; [discriminate|]. cbn [head element_inductive ok_or mbind res_bind] in H.
    unfold element_inductive in H. cbn [ok_or mbind res_bind] in H.
    destruct (head_inductive a) as [i|] eqn:Hi; [|discriminate]. cbn [ok_or mbind res_bind] in H.
    destruct (inds env !! i) as [elem|] eqn:He; [|discriminate]. cbn [ok_or mbind res_bind] in H.
    change (drop 1 (a :: rest)) with rest in H. destruct rest as [|hd [|tl []]]; try discriminate.
    destruct (dec elem hd) as [v| | |] eqn:Hv; try discriminate. cbn [mbind res_bind] in H.
    apply IH in H as (vs & -> & Hvs). exists (v :: vs). rewrite <- app_assoc. split; [done|].
    eapply enc_cons; eauto.
Qed.

Lemma decode_value_inv fuel : forall ind t v, decode_value fuel env ind t = Ok v -> encodes env ind v t.
Proof.
  induction fuel as [|fuel IH]; intros ind t v H; [discriminate|]. cbn [decode_value] in H.
  destruct (classify ind) as [[]|] eqn:Hc; [| | |discriminate].
  - apply decode_nat_inv in H as (n & -> & -> & Hn); [|lia]. rewrite Z.add_0_l. by constructor.
  - by apply decode_bool_inv.
  - apply (decode_list_inv (decode_value fuel env) ind Hc IH) in H as (vs & -> & H). done.
Qed.

Lemma decode_list_of dec ind vs : forall fuel t out, classify ind = Some BList -> encodes env ind (PList vs) t -> (tm_size t <= fuel)%nat ->
  (forall elem v hd, encodes env elem v hd -> (tm_size hd < tm_size t)%nat -> dec elem hd = Ok v) ->
  decode_list dec env ind fuel t out = Ok (PList (out ++ vs)).
Proof.
  induction vs as [|v vs IH]; intros fuel t out Hc H Hf Hdec; inversion H; subst.
  - destruct fuel; [cbn in Hf; lia|]. cbn. rewrite Z.eqb_refl, (classify_list ind Hc), app_nil_r. done.
  - destruct fuel; [cbn in Hf; lia|]. cbn [decode_list]. cbn [apply foldl] in *. rewrite (classify_list ind Hc).
    rewrite !spine_app. cbn -[element_inductive]. rewrite Z.eqb_refl. unfold element_inductive. cbn.
    match goal with E : head_inductive _ = Some _ |- _ => rewrite E end. cbn.
    match goal with E : inds env !! _ = Some _ |- _ => rewrite E end. cbn.
    rewrite (Hdec _ v) by (done || (cbn; lia)). cbn. rewrite IH; [by rewrite <- app_assoc|done|done|cbn in Hf; lia|].
    intros elem' v' hd' He Hs. apply Hdec; [done|]. cbn. lia.
Qed.

Lemma decode_value_of fuel : forall ind t v, encodes env ind v t -> (tm_size t < fuel)%nat -> decode_value fuel env ind t = Ok v.
Proof.
  induction fuel as [|fuel IH]; intros ind t v H Hf; [lia|]. cbn [decode_value].
  destruct v as [i| | | |b| |vs| | |]; try by inversion H.
  - inversion H; subst. match goal with E : classify _ = _ |- _ => rewrite E end. rewrite decode_nat_of by lia. done.
  - inversion H; subst; match goal with E : classify _ = _ |- _ => rewrite E end; unfold decode_bool; cbn; by rewrite Z.eqb_refl.
  - assert (classify ind = Some BList) as Hc by (by inversion H). rewrite Hc.
    apply (decode_list_of _ _ vs fuel t []); [done|done|lia|]. intros elem v hd He Hs. apply IH; [done|lia].
Qed.
End Decode.

(** * Properties *)

(** Decoding is exact.  With more fuel than the size of the normal form,
    a value is decoded precisely when the normal form is its encoding. *)
Theorem decode_exact (env : GlobalEnv) (ind : Inductive_) (t : Tm) (v : PrimValue) (fuel : nat) : (tm_size t < fuel)%nat ->
  decode_value fuel env ind t = Ok v <-> encodes env ind v t.
Proof. intros Hf. split; [apply decode_value_inv|]. intros H. by apply decode_value_of. Qed.

Lemma decode_exact_witness :
  encodes env_lists list_decl (PList [PInt 1; PInt 0])
    (cons_ (nat_of 0 1) (cons_ (nat_of 0 0) (App (Ctor 3 0) (Ind 0)))).
Proof. apply (decode_exact env_lists list_decl _ _ 30); [|vm_compute; reflexivity]. apply (bool_decide_unpack _). vm_compute. exact I. Defined.

(** C39: Extraction is proved.  A value is extracted only from a closed term
    that has the asked type by the typing rules, and it is the value encoded
    by a term convertible with it. *)
Theorem extract_proved `{NP : NetPath} (env : GlobalEnv) (fuel : nat) (ty tm : Tm) (v : PrimValue) :
  extract fuel env ty tm = Ok v ->
  typed env [] tm ty /\ exists i ind nf, head_inductive ty = Some i /\ inds env !! i = Some ind /\
    eqv env [] tm nf /\ encodes env ind v nf.
Proof.
  intros H. unfold extract in H. apply bind_Ok in H as ([] & Hc & H).
  assert (check env fuel [] tm ty = Ok tt) as Hc' by (by destruct (check env fuel [] tm ty) as [[]| | |]).
  split; [by apply (so_check env _ (kernel_sound env fuel))|].
  apply bind_Ok in H as (i & Hi & H). apply bind_Ok in H as (ind & Hind & H). apply bind_Ok in H as (nf & Hn & H).
  apply total_answer in Hn. exists i, ind, nf.
  destruct (head_inductive ty); [|discriminate]. injection Hi as ->. destruct (inds env !! i); [|discriminate]. injection Hind as ->.
  split; [done|]. split; [done|]. split; [by apply (so_nf env _ (kernel_sound env fuel))|by eapply decode_value_inv].
Qed.

Lemma extract_proved_witness : let t := add_two zero_ in
  extract (NP := fun _ _ => Fuel) 40 env_nat (Ind 0) t = Ok (PInt 2) /\ typed env_nat [] t (Ind 0).
Proof.
  intros t. assert (extract (NP := fun _ _ => Fuel) 40 env_nat (Ind 0) t = Ok (PInt 2)) as H by (vm_compute; reflexivity).
  split; [exact H|]. apply (extract_proved (NP := fun _ _ => Fuel) env_nat 40 (Ind 0) t (PInt 2) H).
Defined.
