(* ===== verification/Wire.v ===== *)
(** * The distribution protocol's wire format ([crates/dnx-dist/src/wire.rs])

    One message per frame, [u32_le LEN ++ BODY], [BODY = u8 TAG ++ payload].
    A stream is the list of bytes that can still be read from it; writing a
    message returns the bytes written. *)
From S2P Require Import Prelude Bytes Utf8 Codec Error.

Notation Blake3Hash := (list byte) (only parsing).

(** [CacheError]; an I/O error carries its message and, for a refusal, the
    peer's text. *)
Inductive CacheError : Type :=
| Io (why : string) (detail : str)
| Decode (e : DnxError)
| HashMismatch.

Definition io_err (msg : string) : CacheError := Io msg [].

Definition MAX_FRAME : Z := 2 ^ 28.
Definition TAG_WANT : Z := 16.
Definition TAG_HAVE : Z := 17.
Definition TAG_BLOBS : Z := 144.
Definition TAG_HELD : Z := 145.
Definition TAG_FAILED : Z := 159.

Inductive Msg : Type :=
| Want (keys : list Blake3Hash)
| Blobs (pairs : list (Blake3Hash * list byte))
| Have (keys : list Blake3Hash)
| Held (present : list bool)
| Failed (kind : Z) (why : str).

(** ** Writing *)

Definition put_u32 (buf : list byte) (n : Z) : list byte := buf ++ u32_le n.

(** [u32::try_from(n)]. *)
Definition len_u32 (n : nat) : res CacheError Z :=
  if Z.of_nat n <? 2 ^ 32 then Ok (Z.of_nat n) else Err (io_err "length exceeds u32").

Definition encode_hashes (buf : list byte) (hashes : list Blake3Hash)
    : res CacheError (list byte) :=
  n ← len_u32 (length hashes);
  Ok (foldl app (put_u32 buf n) hashes).

Definition encode_pair (buf : list byte) (p : Blake3Hash * list byte)
    : res CacheError (list byte) :=
  n ← len_u32 (length p.2);
  Ok (put_u32 (buf ++ p.1) n ++ p.2).

Definition bool_byte (b : bool) : byte := byte_of_Z (if b then 1 else 0).

Definition encode_body (m : Msg) : res CacheError (list byte) :=
  match m with
  | Want keys => encode_hashes [byte_of_Z TAG_WANT] keys
  | Have keys => encode_hashes [byte_of_Z TAG_HAVE] keys
  | Blobs pairs =>
      n ← len_u32 (length pairs);
      foldM encode_pair pairs (put_u32 [byte_of_Z TAG_BLOBS] n)
  | Held bits =>
      n ← len_u32 (length bits);
      Ok (put_u32 [byte_of_Z TAG_HELD] n ++ (bool_byte <$> bits))
  | Failed kind why =>
      let bytes := utf8 why in
      n ← len_u32 (length bytes);
      Ok (put_u32 [byte_of_Z TAG_FAILED; byte_of_Z kind] n ++ bytes)
  end.

(** The bytes [write_msg] sends. *)
Definition write_msg (m : Msg) : res CacheError (list byte) :=
  body ← encode_body m;
  len ← len_u32 (length body);
  if MAX_FRAME <? len then Err (io_err "frame exceeds MAX_FRAME")
  else Ok (u32_le len ++ body).

(** ** Reading *)

Definition truncated : CacheError := io_err "frame body truncated".

(** [Read::read_exact] on a stream. *)
Definition read_exact (n : nat) (s : list byte) : res CacheError (list byte * list byte) :=
  if (n <=? length s)%nat then Ok (take n s, drop n s)
  else Err (io_err "failed to fill whole buffer").

Definition decode_hashes (c : cursor) : res CacheError (list Blake3Hash * cursor) :=
  c_counted truncated (c_hash truncated) c.

Definition decode_pair (c : cursor) : res CacheError ((Blake3Hash * list byte) * cursor) :=
  '(h, c) ← c_hash truncated c;
  '(blob, c) ← c_bytes truncated c;
  Ok ((h, blob), c).

Definition decode_bit (c : cursor) : res CacheError (bool * cursor) :=
  '(b, c) ← c_u8 truncated c;
  Ok (negb (b =? 0), c).

Definition decode_failed (c : cursor) : res CacheError (Msg * cursor) :=
  '(kind, c) ← c_u8 truncated c;
  '(bytes, c) ← c_bytes truncated c;
  why ← ok_or (from_utf8 bytes) (io_err "Failed message is not utf-8");
  Ok (Failed kind why, c).

(** The payload of a frame with the given tag. *)
Definition decode_payload (tag : Z) (c : cursor) : res CacheError (Msg * cursor) :=
  if tag =? TAG_WANT then '(l, c) ← decode_hashes c; Ok (Want l, c)
  else if tag =? TAG_HAVE then '(l, c) ← decode_hashes c; Ok (Have l, c)
  else if tag =? TAG_BLOBS then '(l, c) ← c_counted truncated decode_pair c; Ok (Blobs l, c)
  else if tag =? TAG_HELD then '(l, c) ← c_counted truncated decode_bit c; Ok (Held l, c)
  else if tag =? TAG_FAILED then decode_failed c
  else Err (io_err "unknown wire tag").

Definition decode_body (body : list byte) : res CacheError Msg :=
  '(tag, c) ← c_u8 truncated (cur_new body);
  '(msg, c) ← decode_payload tag c;
  _ ← finish (io_err "frame body has trailing bytes") c;
  Ok msg.

(** A message and what is left of the stream. *)
Definition read_msg (s : list byte) : res CacheError (Msg * list byte) :=
  '(len_buf, s) ← read_exact 4 s;
  let len := le_val len_buf in
  if MAX_FRAME <? len then Err (io_err "incoming frame exceeds MAX_FRAME")
  else
    '(body, s) ← read_exact (Z.to_nat len) s;
    msg ← decode_body body;
    Ok (msg, s).

(** * Lemmas *)

(** A message whose fields fit their types: 32-byte hashes, a [u8] kind,
    characters that are Unicode scalar values. *)
Definition valid_msg (m : Msg) : Prop :=
  match m with
  | Want keys | Have keys => Forall is_hash keys
  | Blobs pairs => Forall (fun p => is_hash p.1) pairs
  | Held _ => True
  | Failed kind why => u8_range kind /\ Forall scalar why
  end.

Definition enc_pair (p : Blake3Hash * list byte) : list byte := p.1 ++ enc_bytes p.2.
Definition enc_bit (b : bool) : list byte := [bool_byte b].

(** The body of a message, by the format. *)
Definition msg_tag (m : Msg) : Z :=
  match m with
  | Want _ => TAG_WANT
  | Have _ => TAG_HAVE
  | Blobs _ => TAG_BLOBS
  | Held _ => TAG_HELD
  | Failed _ _ => TAG_FAILED
  end.

Definition enc_payload (m : Msg) : list byte :=
  match m with
  | Want keys | Have keys => enc_counted (fun h => h) keys
  | Blobs pairs => enc_counted enc_pair pairs
  | Held bits => enc_counted enc_bit bits
  | Failed kind why => [byte_of_Z kind] ++ enc_bytes (utf8 why)
  end.

Definition enc_msg (m : Msg) : list byte := [byte_of_Z (msg_tag m)] ++ enc_payload m.

(** Lengths the frame can carry. *)
Definition sized_msg (m : Msg) : Prop :=
  match m with
  | Want l | Have l => short_list l
  | Blobs l => short_list l /\ Forall (fun p => short_list p.2) l
  | Held l => short_list l
  | Failed _ why => short_list (utf8 why)
  end.

Lemma len_u32_Ok n z : len_u32 n = Ok z -> z = Z.of_nat n /\ u32_range z.
Proof. unfold len_u32, u32_range. intros H. destruct (Z.ltb_spec (Z.of_nat n) (2 ^ 32)); [|done].
  injection H as <-. lia. Qed.

Lemma len_u32_ok n : u32_range (Z.of_nat n) -> len_u32 n = Ok (Z.of_nat n).
Proof. unfold len_u32, u32_range. intros H. by rewrite (proj2 (Z.ltb_lt _ _)) by lia. Qed.

Lemma encode_pairs_Ok pairs buf out : foldM encode_pair pairs buf = Ok out ->
  out = buf ++ concat (enc_pair <$> pairs) /\ Forall (fun p => short_list p.2) pairs.
Proof.
  revert buf. induction pairs as [|p pairs IH]; intros buf H; cbn [foldM] in H.
  - injection H as <-. cbn. rewrite app_nil_r. split; [done|constructor].
  - apply bind_Ok in H as (buf' & Hp & H). apply IH in H as [-> Hl]. unfold encode_pair in Hp.
    apply bind_Ok in Hp as (n & Hn & Hp). apply len_u32_Ok in Hn as [-> Hr]. injection Hp as <-.
    split; [|by constructor]. cbn [fmap list_fmap concat]. unfold put_u32, enc_pair at 2, enc_bytes.
    by rewrite <- !(assoc_L (++)).
Qed.

Lemma encode_body_Ok m body : encode_body m = Ok body -> body = enc_msg m /\ sized_msg m.
Proof.
  destruct m as [keys|pairs|keys|bits|kind why]; unfold encode_body, encode_hashes; intros H;
    apply bind_Ok in H as (n & Hn & H); apply len_u32_Ok in Hn as [-> Hr].
  - injection H as <-. split; [|done]. rewrite foldl_app_concat. unfold enc_msg; cbn [msg_tag enc_payload].
    unfold enc_counted, put_u32. rewrite list_fmap_id. by rewrite <- app_assoc.
  - apply encode_pairs_Ok in H as [-> Hl]. split; [|done]. unfold enc_msg; cbn [msg_tag enc_payload].
    unfold enc_counted, put_u32. by rewrite <- app_assoc.
  - injection H as <-. split; [|done]. rewrite foldl_app_concat. unfold enc_msg; cbn [msg_tag enc_payload].
    unfold enc_counted, put_u32. rewrite list_fmap_id. by rewrite <- app_assoc.
  - injection H as <-. split; [|done]. unfold enc_msg; cbn. do 5 f_equal.
    clear. induction bits; cbn; by f_equal.
  - by injection H as <-.
Qed.

Lemma encode_pair_ok buf p : short_list p.2 -> encode_pair buf p = Ok (buf ++ enc_pair p).
Proof.
  intros Hp. unfold encode_pair. rewrite len_u32_ok by done. cbn [mbind res_bind].
  unfold put_u32, enc_pair, enc_bytes. by rewrite <- !app_assoc.
Qed.

Lemma encode_pairs_ok pairs buf : Forall (fun p => short_list p.2) pairs ->
  foldM encode_pair pairs buf = Ok (buf ++ concat (enc_pair <$> pairs)).
Proof.
  intros Hl. revert buf. induction Hl as [|p pairs Hp Hl IH]; intros buf; cbn [foldM].
  - cbn. by rewrite app_nil_r.
  - rewrite encode_pair_ok by done. cbn [mbind res_bind fmap list_fmap concat].
    by rewrite IH, <- app_assoc.
Qed.

Lemma encode_body_ok m : sized_msg m -> encode_body m = Ok (enc_msg m).
Proof.
  intros Hs. assert (forall n, u32_range (Z.of_nat n) -> len_u32 n = Ok (Z.of_nat n)) as Hl
    by (intros; by apply len_u32_ok).
  destruct m as [keys|pairs|keys|bits|kind why]; unfold encode_body, encode_hashes;
    cbv zeta; cbn [sized_msg] in Hs; rewrite Hl by (done || exact (proj1 Hs)); cbn [mbind res_bind].
  - rewrite foldl_app_concat. unfold enc_msg; cbn [msg_tag enc_payload]. unfold enc_counted. by rewrite list_fmap_id.
  - by rewrite encode_pairs_ok by exact (proj2 Hs).
  - rewrite foldl_app_concat. unfold enc_msg; cbn [msg_tag enc_payload]. unfold enc_counted. by rewrite list_fmap_id.
  - unfold enc_msg; cbn. do 6 f_equal. clear. induction bits; cbn; by f_equal.
  - done.
Qed.

(** ** Reading *)

#[local] Instance hashes_complete : CodecComplete (valid_counted is_hash) (enc_counted (fun h => h))
  decode_hashes.
Proof. apply c_counted_complete, _. Qed.
#[local] Instance hashes_sound : CodecSound (valid_counted is_hash) (enc_counted (fun h => h))
  decode_hashes.
Proof. apply c_counted_sound, _. Qed.

Definition valid_pair (p : Blake3Hash * list byte) : Prop := is_hash p.1 /\ short_list p.2.

#[local] Instance pair_complete : CodecComplete valid_pair enc_pair decode_pair.
Proof.
  intros [h blob] c t Hw [Hh Hb] Hr. unfold decode_pair, enc_pair in *; cbn [fst snd] in *.
  read_next h Hh Hw Hr. read_next blob Hb Hw Hr. by rewrite advance_advance, length_app.
Qed.

#[local] Instance pair_sound : CodecSound valid_pair enc_pair decode_pair.
Proof.
  intros p c c' Hw H. unfold decode_pair in H. apply bind_Ok in H as ([h c1] & H0 & H).
  destruct (enc_dec _ _ _ Hw H0) as (Hh & Hr & ->).
  pose proof (cur_wf_advance _ _ _ Hw Hr) as Hw1.
  apply bind_Ok in H as ([blob c2] & H1 & H).
  destruct (enc_dec _ _ _ Hw1 H1) as (Hb & Hr1 & ->). injection H as <- <-.
  split; [done|]. unfold enc_pair; cbn [fst snd].
  split; [by rewrite Hr, Hr1, app_assoc|by rewrite length_app, advance_advance].
Qed.

#[local] Instance bit_complete : CodecComplete (fun _ => True) enc_bit decode_bit.
Proof.
  intros b c t Hw _ Hr. unfold decode_bit.
  assert (u8_range (if b then 1 else 0)) as Hz by (destruct b; by unfold u8_range).
  rewrite (dec_enc _ c t Hw Hz Hr). by destruct b.
Qed.

Lemma bit_eats : eats 1 decode_bit.
Proof.
  intros c b c' Hw H. unfold decode_bit in H. apply bind_Ok in H as ([z c1] & H0 & H).
  injection H as _ <-. eapply (sound_eats _ _ (c_u8 truncated)); eauto with typeclass_instances.
Qed.

Ltac tag_tests := unfold TAG_WANT, TAG_HAVE, TAG_BLOBS, TAG_HELD, TAG_FAILED; kind_tests.

Lemma payload_complete m c t : cur_wf c -> valid_msg m -> sized_msg m ->
  rest c = enc_payload m ++ t ->
  decode_payload (msg_tag m) c = Ok (m, advance (length (enc_payload m)) c).
Proof.
  intros Hw Hv Hs Hr. unfold decode_payload.
  destruct m as [keys|pairs|keys|bits|kind why]; cbn [msg_tag enc_payload valid_msg sized_msg] in *;
    tag_tests.
  - by rewrite (dec_enc keys c t Hw (conj Hs Hv) Hr).
  - destruct Hs as [Hs Hl]. assert (valid_counted valid_pair pairs) as Hp
      by (split; [done|]; apply Forall_and; by split).
    by rewrite (c_counted_complete _ _ _ _ _ pairs c t Hw Hp Hr).
  - by rewrite (dec_enc keys c t Hw (conj Hs Hv) Hr).
  - assert (valid_counted (fun _ => True) bits) as Hp by (split; [done|]; by apply Forall_true).
    by rewrite (c_counted_complete _ _ _ _ _ bits c t Hw Hp Hr).
  - destruct Hv as [Hk Hv]. unfold decode_failed. read_next kind Hk Hw Hr.
    read_next (utf8 why) Hs Hw Hr. rewrite from_utf8_utf8 by done. cbn [ok_or mbind res_bind].
    by rewrite advance_advance, length_app.
Qed.

(** The elements of a counted message. *)
Definition msg_count (m : Msg) : nat :=
  match m with
  | Want l | Have l => length l
  | Blobs l => length l
  | Held l => length l
  | Failed _ _ => 0
  end.

Definition is_held (m : Msg) : bool := match m with Held _ => true | _ => false end.

Lemma payload_sound tag c m c' : cur_wf c -> decode_payload tag c = Ok (m, c') -> is_held m = false ->
  tag = msg_tag m /\ valid_msg m /\ sized_msg m /\ rest c = enc_payload m ++ rest c'
  /\ c' = advance (length (enc_payload m)) c.
Proof.
  intros Hw H Hh. unfold decode_payload in H.
  destruct (Z.eqb_spec tag TAG_WANT) as [->|_]; [|destruct (Z.eqb_spec tag TAG_HAVE) as [->|_];
    [|destruct (Z.eqb_spec tag TAG_BLOBS) as [->|_]; [|destruct (Z.eqb_spec tag TAG_HELD) as [->|_];
    [|destruct (Z.eqb_spec tag TAG_FAILED) as [->|_]; [|done]]]]].
  1,2,3,4: apply bind_Ok in H as ([l c1] & H & H1); injection H1 as <- <-.
  - by destruct (enc_dec _ _ _ Hw H) as ([Hs Hv] & Hr & Hc).
  - by destruct (enc_dec _ _ _ Hw H) as ([Hs Hv] & Hr & Hc).
  - destruct (c_counted_sound _ _ _ _ _ _ _ _ Hw H) as ([Hs Hv] & Hr & Hc).
    split; [done|]. apply Forall_and in Hv as [Hv1 Hv2]. done.
  - done.
  - unfold decode_failed in H. apply bind_Ok in H as ([kind c1] & H0 & H).
    destruct (enc_dec _ _ _ Hw H0) as (Hk & Hr & ->). pose proof (cur_wf_advance _ _ _ Hw Hr) as Hw1.
    apply bind_Ok in H as ([bs c2] & H1 & H). destruct (enc_dec _ _ _ Hw1 H1) as (Hb & Hr1 & ->).
    apply bind_Ok in H as (why & [Hy <-]%ok_or_Ok%from_utf8_sound & H). injection H as <- <-.
    split; [done|]. split; [done|]. split; [done|]. cbn [enc_payload].
    split; [by rewrite Hr, Hr1, app_assoc|by rewrite length_app, advance_advance].
Qed.

(** A count cannot exceed the bytes that follow it. *)
Lemma payload_count tag c m c' : cur_wf c -> decode_payload tag c = Ok (m, c') ->
  (msg_count m <= length (rest c))%nat /\ cur_wf c'.
Proof.
  intros Hw H.
  enough (cur_bytes c' = cur_bytes c /\ cur_wf c' /\ (cur_pos c + msg_count m <= cur_pos c')%nat)
    as (Hb & Hw' & Hp) by (split; [|done]; pose proof (rest_length c Hw); unfold cur_wf in *; rewrite Hb in Hw'; lia).
  destruct (is_held m) eqn:Hh.
  - unfold decode_payload in H.
    destruct (tag =? TAG_WANT); [inv_ok; destruct a; by inv_ok; subst|].
    destruct (tag =? TAG_HAVE); [inv_ok; destruct a; by inv_ok; subst|].
    destruct (tag =? TAG_BLOBS); [inv_ok; destruct a; by inv_ok; subst|].
    destruct (tag =? TAG_HELD); [|destruct (tag =? TAG_FAILED); [|done]].
    + apply bind_Ok in H as ([l c1] & H & H1). injection H1 as <- <-.
      exact (c_counted_eats _ _ _ _ _ bit_eats Hw H).
    + unfold decode_failed in H. do 2 (apply bind_Ok in H as ([? ?] & _ & H)).
      apply bind_Ok in H as (? & _ & H). by injection H as <- <-.
  - destruct (payload_sound _ _ _ _ Hw H Hh) as (_ & Hv & _ & Hr & ->).
    split; [done|]. split; [by eapply cur_wf_advance|]. cbn [advance cur_pos].
    enough (msg_count m <= length (enc_payload m))%nat by lia.
    destruct m as [l|l|l|l|]; cbn [msg_count enc_payload valid_msg] in *; [..|lia];
      unfold enc_counted; rewrite length_app.
    + pose proof (counted_length is_hash (fun h => h) l) as Hc. unfold is_hash in *.
      specialize (Hc ltac:(intros; lia) Hv). lia.
    + pose proof (counted_length (fun p => is_hash p.1) enc_pair l) as Hc. unfold enc_pair, is_hash in *.
      specialize (Hc ltac:(intros; rewrite length_app; lia) Hv). unfold enc_pair in *. lia.
    + pose proof (counted_length is_hash (fun h => h) l) as Hc. unfold is_hash in *.
      specialize (Hc ltac:(intros; lia) Hv). lia.
    + done.
Qed.

Lemma total_pair c : total (decode_pair c).
Proof. unfold decode_pair. total. Qed.
Lemma total_bit c : total (decode_bit c).
Proof. unfold decode_bit. total. Qed.
Lemma total_hashes c : total (decode_hashes c).
Proof. apply total_c_counted. auto with total. Qed.
#[local] Hint Resolve total_pair total_bit total_hashes : total.

Lemma decode_body_total body : total (decode_body body).
Proof. unfold decode_body. total. unfold decode_payload, decode_failed. total. Qed.

Lemma decode_body_complete m : valid_msg m -> sized_msg m -> decode_body (enc_msg m) = Ok m.
Proof.
  intros Hv Hs. unfold decode_body. set (c := cur_new (enc_msg m)).
  assert (cur_wf c) as Hw by apply cur_wf_new. assert (rest c = enc_msg m) as Hr by done.
  assert (u8_range (msg_tag m)) as Ht by (unfold u8_range; destruct m; by vm_compute).
  unfold enc_msg in Hr. read_next (msg_tag m) Ht Hw Hr.
  rewrite <- (app_nil_r (enc_payload m)) in Hr. rewrite (payload_complete m _ [] Hw Hv Hs Hr).
  cbn [mbind res_bind]. unfold finish.
  rewrite (proj2 (cur_done_rest _ (cur_wf_advance _ _ _ Hw Hr))); [done|].
  exact (rest_advance_app _ _ _ Hr).
Qed.

Lemma decode_body_sound body m : decode_body body = Ok m ->
  (msg_count m < length body)%nat
  /\ (is_held m = false -> valid_msg m /\ sized_msg m /\ body = enc_msg m).
Proof.
  intros H. unfold decode_body in H. pose proof (cur_wf_new body) as Hw.
  apply bind_Ok in H as ([tag c] & H0 & H). destruct (enc_dec _ _ _ Hw H0) as (Ht & Hr & ->).
  pose proof (cur_wf_advance _ _ _ Hw Hr) as Hw1.
  apply bind_Ok in H as ([m' c'] & H1 & H). apply bind_Ok in H as ([] & H2 & H).
  injection H as ->. destruct (payload_count _ _ _ _ Hw1 H1) as [Hc Hw'].
  rewrite rest_new in Hr. split.
  { apply (f_equal length) in Hr. rewrite length_app in Hr.
    change (length [byte_of_Z tag]) with 1%nat in *. lia. }
  intros Hh.
  destruct (payload_sound _ _ _ _ Hw1 H1 Hh) as (-> & Hv & Hs & Hr1 & Hc').
  unfold finish in H2. destruct (cur_done c') eqn:Hd; [|done].
  apply (cur_done_rest _ Hw') in Hd. rewrite Hd, app_nil_r in Hr1. rewrite Hr1 in Hr. done.
Qed.

Lemma read_exact_app a b : read_exact (length a) (a ++ b) = Ok (a, b).
Proof.
  unfold read_exact. rewrite length_app, (proj2 (Nat.leb_le _ _)) by lia.
  by rewrite take_app_length, drop_app_length.
Qed.

Lemma read_exact_Ok n s a b : read_exact n s = Ok (a, b) -> s = a ++ b /\ length a = n.
Proof.
  unfold read_exact. destruct (Nat.leb_spec n (length s)); [|done]. intros [= <- <-].
  rewrite take_drop, length_take. split; [done|lia].
Qed.

Lemma read_exact_total n s : total (read_exact n s).
Proof. unfold read_exact. by destruct (n <=? length s)%nat. Qed.

Lemma encode_pairs_total pairs buf : total (foldM encode_pair pairs buf).
Proof.
  revert buf. induction pairs as [|p pairs IH]; intros buf; cbn [foldM]; [done|].
  apply total_bind; [|intros; apply IH]. unfold encode_pair, len_u32. by destruct (_ <? _).
Qed.

Lemma write_msg_total m : total (write_msg m).
Proof.
  assert (forall n, total (len_u32 n)) as Hl by (intros n; unfold len_u32; by destruct (_ <? _)).
  unfold write_msg. apply total_bind.
  - destruct m; unfold encode_body, encode_hashes; (apply total_bind; [apply Hl|intros]); try done.
    apply encode_pairs_total.
  - intros body _. apply total_bind; [apply Hl|]. intros len _. by apply total_if.
Qed.

Lemma read_msg_total s : total (read_msg s).
Proof.
  unfold read_msg. apply total_bind; [apply read_exact_total|]. intros [b1 s1] _.
  apply total_if; [done|]. apply total_bind; [apply read_exact_total|]. intros [b2 s2] _.
  apply total_bind; [apply decode_body_total|]. done.
Qed.

Lemma read_msg_Ok s m s' : read_msg s = Ok (m, s') ->
  exists body, s = u32_le (Z.of_nat (length body)) ++ body ++ s'
    /\ Z.of_nat (length body) <= MAX_FRAME /\ (msg_count m < length body)%nat
    /\ (is_held m = false -> valid_msg m
         /\ write_msg m = Ok (u32_le (Z.of_nat (length body)) ++ body)).
Proof.
  unfold read_msg. intros H. apply bind_Ok in H as ([b1 s1] & [-> H1]%read_exact_Ok & H).
  destruct (Z.ltb_spec MAX_FRAME (le_val b1)) as [|Hmax]; [done|].
  apply bind_Ok in H as ([body s2] & [-> H2]%read_exact_Ok & H).
  apply bind_Ok in H as (m' & [Hc Hs]%decode_body_sound & H).
  injection H as -> ->. exists body. pose proof (le_val_range b1) as Hr1.
  assert (Z.of_nat (length body) = le_val b1) as -> by lia.
  assert (u32_le (le_val b1) = b1) as -> by (unfold u32_le; rewrite <- H1; apply le_bytes_val).
  split; [done|]. split; [done|]. split; [done|]. intros Hh. destruct (Hs Hh) as (Hv & Hsz & ->).
  split; [done|]. unfold write_msg. rewrite encode_body_ok by done. cbn [mbind res_bind].
  rewrite H1 in Hr1. rewrite len_u32_ok by (unfold u32_range; lia). cbn [mbind res_bind].
  rewrite (proj2 (Z.ltb_ge _ _)) by lia. do 2 f_equal.
  replace (Z.of_nat (length (enc_msg m))) with (le_val b1) by lia.
  unfold u32_le. rewrite <- H1. apply le_bytes_val.
Qed.


Lemma read_write m bs t :
  valid_msg m -> write_msg m = Ok bs -> read_msg (bs ++ t) = Ok (m, t).
Proof.
  intros Hv H. unfold write_msg in H. apply bind_Ok in H as (body & Hb & H).
  apply encode_body_Ok in Hb as [-> Hs].
  apply bind_Ok in H as (len & [-> Hr]%len_u32_Ok & H).
  destruct (Z.ltb_spec MAX_FRAME (Z.of_nat (length (enc_msg m)))) as [|Hmax]; [done|].
  apply (f_equal (fun r => match r with Ok x => x | _ => [] end)) in H as <-.
  unfold read_msg. rewrite <- app_assoc, (read_exact_app (u32_le _)). cbn [mbind res_bind].
  unfold u32_le. rewrite le_val_bytes, Z.mod_small by exact Hr.
  rewrite (proj2 (Z.ltb_ge _ _)) by exact Hmax. rewrite Nat2Z.id, read_exact_app.
  cbn [mbind res_bind]. by rewrite decode_body_complete.
Qed.

(** * Theorems *)

(** C17: What is written is read back: whatever follows the frame on the
    stream, reading gives the message and leaves exactly what followed. *)
Theorem wire_roundtrip (m : Msg) (bs t : list byte) :
  valid_msg m -> write_msg m = Ok bs -> read_msg (bs ++ t) = Ok (m, t).
Proof. apply read_write. Qed.

(** Whatever bytes a peer sends, reading a message ends with a message or
    an error; it takes at most one frame of at most [MAX_FRAME] bytes off the
    stream, the number of elements it collects is below the length of the
    body, whatever count the peer claims, and except for [Held], whose
    booleans may be any non-zero byte, the frame is the one the writer makes
    for that message. *)
Theorem read_msg_safe (s : list byte) :
  match read_msg s with
  | Ok (m, s') =>
      exists body, s = u32_le (Z.of_nat (length body)) ++ body ++ s'
        /\ Z.of_nat (length body) <= MAX_FRAME /\ (msg_count m < length body)%nat
        /\ (is_held m = false -> valid_msg m
             /\ write_msg m = Ok (u32_le (Z.of_nat (length body)) ++ body))
  | Err _ => True
  | Panic | Fuel => False
  end.
Proof.
  pose proof (read_msg_total s) as Ht. pose proof (read_msg_Ok s) as Hok.
  destruct (read_msg s) as [[m s']| | |]; try done. by apply Hok.
Qed.

Lemma wire_roundtrip_witness : exists bs,
  write_msg (Failed 2 [104; 233; 8364]) = Ok bs
  /\ read_msg (bs ++ [byte_of_Z 7]) = Ok (Failed 2 [104; 233; 8364], [byte_of_Z 7]).
Proof.
  eexists. split; [vm_compute; reflexivity|].
  apply wire_roundtrip; [|vm_compute; reflexivity].
  split; [unfold u8_range; lia|]. repeat constructor; unfold scalar; lia.
Defined.
