(* ===== verification/Dist.v ===== *)
(** * The content-addressed cache and the pull protocol ([crates/dnx-dist],
    [lib.rs], [disk.rs] and the peers of [wire.rs])

    A cache directory is the map from the file names under [blobs/] to their
    bytes.  An operation that writes returns the directory next to its
    result, so what was stored before an error stays stored.  A peer is the
    function from the bytes it is sent to the bytes it answers; nothing is
    assumed of it. *)
From S2P Require Import Prelude Bytes Utf8 Text Codec Error Port Net Rules Canon Effect Wire.

Notation Disk := (gmap (list Z) (list byte)) (only parsing).

(** An operation on the cache directory. *)
Notation dact := (act (gmap (list Z) (list byte)) CacheError) (only parsing).

Section Cache.
(** The hash function, the net class, and whether the file system takes a
    write. *)
Context (blake3 : list byte -> Blake3Hash) (cls : NetClass)
  (write_ok : list Z -> list byte -> bool).

Definition chash (c : CanonicalNet) (root : PortId) : res CacheError Blake3Hash :=
  map_err Decode (canonical_hash blake3 c root).

(** A temporary file renamed over the target: the target is the old file or
    the whole new one. *)
Definition atomic_write (name : list Z) (bytes : list byte) : dact unit := fun d =>
  if write_ok name bytes then (Ok tt, <[name := bytes]> d)
  else (Err (io_err "write failed"), d).

Definition path (hash : Blake3Hash) : list Z := hex hash.

Definition contains (d : Disk) (hash : Blake3Hash) : bool :=
  match d !! path hash with Some _ => true | None => false end.

Definition store (c : CanonicalNet) (root : PortId) : dact Blake3Hash :=
  hash ← pure_act (chash c root);
  blob ← pure_act (map_err Decode (to_blob c root));
  _ ← atomic_write (path hash) blob;
  mret hash.

(** Decode and re-hash: what [load] and [import] require of bytes. *)
Definition verify_blob (hash : Blake3Hash) (bytes : list byte)
    : res CacheError (CanonicalNet * PortId) :=
  '(c, root) ← map_err Decode (from_blob cls bytes);
  h ← chash c root;
  if bool_decide (h = hash) then Ok (c, root) else Err HashMismatch.

Definition load (d : Disk) (hash : Blake3Hash)
    : res CacheError (option (CanonicalNet * PortId)) :=
  match d !! path hash with
  | None => Ok None
  | Some bytes => cr ← verify_blob hash bytes; Ok (Some cr)
  end.

Definition export (d : Disk) (hash : Blake3Hash) : res CacheError (option (list byte)) :=
  Ok (d !! path hash).

Definition import (claimed : Blake3Hash) (blob : list byte) : dact unit :=
  _ ← pure_act (verify_blob claimed blob);
  atomic_write (path claimed) blob.

Definition missing (d : Disk) (keys : list Blake3Hash) : list Blake3Hash :=
  filter (fun k => contains d k = false) keys.

(** ** The publishing side *)

(** [if let Some(blob) = cache.export(&k)? { pairs.push((k, blob)) }]. *)
Definition push_export (d : Disk) (pairs : list (Blake3Hash * list byte)) (k : Blake3Hash)
    : res CacheError (list (Blake3Hash * list byte)) :=
  blob ← export d k;
  match blob with
  | Some blob => Ok (pairs ++ [(k, blob)])
  | None => Ok pairs
  end.

(** The bytes written in answer to the stream. *)
Definition serve_conn (d : Disk) (s : list byte) : res CacheError (list byte) :=
  '(msg, _) ← read_msg s;
  match msg with
  | Want keys =>
      pairs ← foldM (push_export d) keys [];
      write_msg (Blobs pairs)
  | Have keys => write_msg (Held (contains d <$> keys))
  | _ => write_msg (Failed 2 [117; 110; 101; 120; 112; 101; 99; 116; 101; 100; 32; 114; 101; 113;
                              117; 101; 115; 116])
  end.

(** ** The fetching side *)

(** A connection: refused, or the peer's answer to what is sent. *)
Notation Peer := (option (list byte -> list byte)) (only parsing).

(** Send a message and read one back. *)
Definition exchange (peer : Peer) (m : Msg) : res CacheError Msg :=
  answer ← ok_or peer (io_err "connect failed");
  req ← write_msg m;
  '(reply, _) ← read_msg (answer req);
  Ok reply.

Definition probe (peer : Peer) (keys : list Blake3Hash) : res CacheError (list bool) :=
  reply ← exchange peer (Have keys);
  match reply with
  | Held present =>
      if (length present =? length keys)%nat then Ok present
      else Err (io_err "Held length does not match Have")
  | Failed _ why => Err (Io "peer refused: " why)
  | _ => Err (io_err "peer sent an unexpected reply to Have")
  end.

(** [for (h, blob) in pairs { local.import(h, &blob)?; }]. *)
Definition import_all (pairs : list (Blake3Hash * list byte)) : dact unit :=
  for_each (fun p => import p.1 p.2) pairs.

Definition sync_pull (peer : Peer) (want : list Blake3Hash) : dact unit :=
  reply ← pure_act (exchange peer (Want want));
  match reply with
  | Blobs pairs => import_all pairs
  | Failed _ why => throw (Io "peer refused: " why)
  | _ => throw (io_err "peer sent an unexpected reply to Want")
  end.

(** [want.iter().zip(present).filter_map(..)]. *)
Definition held_keys (want : list Blake3Hash) (present : list bool) : list Blake3Hash :=
  fst <$> filter (fun kp => kp.2 = true) (zip want present).

(** Two connections: one for the probe, one for the pull. *)
Definition probe_then_pull (peer peer' : Peer) (want : list Blake3Hash) : dact unit :=
  present ← pure_act (probe peer want);
  match held_keys want present with
  | [] => mret tt
  | held => sync_pull peer' held
  end.

(** ** The result cache *)

(** [entries] shares canonical nets by reference; nets are never mutated. *)
Record ResultCache : Type := mk_cache { entries : gmap (list byte) CanonicalNet }.

Definition cache_new : ResultCache := mk_cache ∅.
Definition cache_len (cache : ResultCache) : nat := size (entries cache).
Definition cache_is_empty (cache : ResultCache) : bool := (size (entries cache) =? 0)%nat.

Definition cache_insert (cache : ResultCache) (key : Blake3Hash) (result : CanonicalNet)
    (root : PortId) : res CacheError ResultCache :=
  h ← chash result root;
  if bool_decide (h = key) then Ok (mk_cache (<[key := result]> (entries cache)))
  else Err HashMismatch.

Definition normalize_cached `{C : CRules} (fuel : nat) (cache : ResultCache) (key : Blake3Hash)
    (n : Net) (root : PortId) (row : EffectRow)
    : res CacheError (CanonicalNet * ReduceStats * ResultCache) :=
  match (if is_pure row then entries cache !! key else None) with
  | Some hit => Ok (hit, stats_default, cache)
  | None =>
      '(result, stats) ← map_err Decode (normalize fuel n);
      if is_pure row then
        cache ← cache_insert cache key result root;
        Ok (result, stats, cache)
      else Ok (result, stats, cache)
  end.
End Cache.
