(* ===== verification/DistSpec.v ===== *)
(** * The content-addressed cache, verified

    Whatever a peer answers, a pull ends, leaves every file it does not
    replace alone, and stores only bytes that decode and re-hash to the key of
    their file; from an honest server it fetches every key the server holds.
    Entries of the result cache are addressed by their content. *)
From S2P Require Import Prelude Bytes Utf8 Text Codec Error Port Net Examples Rules Canon BlobSpec Effect Wire Dist.

Lemma map_err_Ok {E F A} (f : E -> F) (m : res E A) a : map_err f m = Ok a <-> m = Ok a.
Proof. destruct m; simpl; split; congruence. Qed.

Section Cache.
Context (blake3 : list byte -> list byte) (cls : NetClass) (write_ok : list Z -> list byte -> bool).

(** Bytes that decode to a certified net whose hash is [h]. *)
Definition verifies (h bs : list byte) : Prop :=
  exists c p, from_blob cls bs = Ok (c, p) /\ canonical_hash blake3 c p = Ok h.

(** Every blob file verifies under its name. *)
Definition verified (d : Disk) : Prop :=
  forall h bs, is_hash h -> d !! path h = Some bs -> verifies h bs.

(** [d'] is [d] after writing verified blobs. *)
Definition extends (d d' : Disk) : Prop :=
  forall name, d' !! name = d !! name
    \/ exists h bs, name = path h /\ is_hash h /\ d' !! name = Some bs /\ verifies h bs.

Lemma extends_refl d : extends d d.
Proof. by left. Qed.

Lemma extends_trans d1 d2 d3 : extends d1 d2 -> extends d2 d3 -> extends d1 d3.
Proof. intros H1 H2 name. destruct (H2 name) as [-> |?]; [apply H1|by right]. Qed.

Lemma extends_verified d d' : extends d d' -> verified d -> verified d'.
Proof.
  intros He Hd h bs Hh Hbs. destruct (He (path h)) as [Heq|(h' & bs' & Hp & _ & Hb & Hv)].
  - apply Hd; [done|]. by rewrite <- Heq.
  - apply hex_inj in Hp as <-. congruence.
Qed.

Lemma extends_keeps d d' name : extends d d' -> is_Some (d !! name) -> is_Some (d' !! name).
Proof. intros He Hd. destruct (He name) as [-> |(h & bs & _ & _ & -> & _)]; [done|by eexists]. Qed.

Lemma verify_blob_total h bs : total (verify_blob blake3 cls h bs).
Proof.
  pose proof (rehash_total blake3 cls bs) as Ht. unfold verify_blob, chash.
  destruct (from_blob cls bs) as [[c p]|e| |]; cbn [map_err mbind res_bind] in *; [|done..].
  destruct (canonical_hash blake3 c p) as [h'|e| |]; [|done..]. cbn [map_err mbind res_bind].
  by apply total_if.
Qed.

Lemma verify_blob_Ok h bs c p : verify_blob blake3 cls h bs = Ok (c, p) <->
  from_blob cls bs = Ok (c, p) /\ canonical_hash blake3 c p = Ok h.
Proof.
  unfold verify_blob, chash. split.
  - intros H. apply bind_Ok in H as ([c' p'] & Hf%map_err_Ok & H).
    apply bind_Ok in H as (h' & Hh%map_err_Ok & H).
    destruct (bool_decide_reflect (h' = h)) as [-> |]; [|done]. by injection H as -> ->.
  - intros [-> Hh]. cbn [map_err mbind res_bind]. rewrite Hh. cbn [map_err mbind res_bind].
    by rewrite bool_decide_true.
Qed.

(** ** Pulling from any peer *)

Lemma import_ends h bs d : is_hash h ->
  ends_in (import blake3 cls write_ok h bs d) (fun _ d' => extends d d') (extends d).
Proof.
  intros Hh. unfold import. apply ends_bind_pure; [apply verify_blob_total|apply extends_refl|].
  intros [c p] Hv%verify_blob_Ok. unfold atomic_write. destruct (write_ok _ _); [|apply extends_refl].
  intros name. destruct (decide (name = path h)) as [-> |Hne].
  - right. exists h, bs. rewrite lookup_insert_eq. do 3 (split; [done|]). by exists c, p.
  - left. by rewrite lookup_insert_ne.
Qed.

Lemma import_all_ends pairs d : Forall (fun p => is_hash p.1) pairs ->
  ends_in (import_all blake3 cls write_ok pairs d) (fun _ d' => extends d d') (extends d).
Proof.
  intros Hp. unfold import_all. revert d.
  induction Hp as [|[h bs] pairs Hh Hp IH]; intros d; cbn [for_each].
  { apply extends_refl. }
  eapply ends_bind; [by apply import_ends|]. intros u d1 H1.
  eapply ends_mono; [intros u2 d2 H2|intros d2 H2|apply IH]; exact (extends_trans _ _ _ H1 H2).
Qed.

Lemma exchange_total peer m : total (exchange peer m).
Proof.
  unfold exchange. apply total_bind; [apply total_ok_or|]. intros answer _.
  apply total_bind; [apply write_msg_total|]. intros req _.
  apply total_bind; [apply read_msg_total|]. by intros [].
Qed.

Lemma exchange_valid peer m reply : exchange peer m = Ok reply -> is_held reply = false ->
  valid_msg reply.
Proof.
  unfold exchange. intros H Hh. apply bind_Ok in H as (answer & _ & H).
  apply bind_Ok in H as (req & _ & H). apply bind_Ok in H as ([r s'] & Hr & H). injection H as ->.
  apply read_msg_Ok in Hr as (body & _ & _ & _ & Hv). by apply Hv.
Qed.

Lemma probe_total peer keys : total (probe peer keys).
Proof.
  unfold probe. apply total_bind; [apply exchange_total|]. intros reply _.
  destruct reply; try done. by apply total_if.
Qed.

Lemma sync_pull_ends peer want d :
  ends_in (sync_pull blake3 cls write_ok peer want d) (fun _ d' => extends d d') (extends d).
Proof.
  unfold sync_pull. apply ends_bind_pure; [apply exchange_total|apply extends_refl|].
  intros reply Hx. pose proof (exchange_valid _ _ _ Hx) as Hv.
  destruct reply as [keys|pairs|keys|bits|kind why]; [exact (extends_refl d)| |exact (extends_refl d)..].
  by apply import_all_ends, Hv.
Qed.

Lemma probe_then_pull_ends peer peer' want d :
  ends_in (probe_then_pull blake3 cls write_ok peer peer' want d) (fun _ d' => extends d d')
    (extends d).
Proof.
  unfold probe_then_pull. apply ends_bind_pure; [apply probe_total|apply extends_refl|].
  intros present _. destruct (held_keys want present); [apply extends_refl|]. apply sync_pull_ends.
Qed.

(** ** Pulling from an honest server *)

(** The server on one connection: no answer where it fails. *)
Definition server (ds : Disk) (s : list byte) : list byte :=
  match serve_conn ds s with Ok answer => answer | _ => [] end.

Definition held_pairs (ds : Disk) (keys : list (list byte)) : list (list byte * list byte) :=
  omap (fun k => pair k <$> ds !! path k) keys.

Definition fits (m : Msg) : Prop := exists bs, write_msg m = Ok bs.

Lemma serve_pairs ds keys acc : foldM (push_export ds) keys acc = Ok (acc ++ held_pairs ds keys).
Proof.
  revert acc. induction keys as [|k keys IH]; intros acc; cbn [foldM].
  { by rewrite app_nil_r. }
  assert (push_export ds acc k = Ok (acc ++ match ds !! path k with Some bs => [(k, bs)] | None => [] end))
    as -> by (unfold push_export, export; cbn; destruct (ds !! path k); by rewrite ?app_nil_r).
  cbn [mbind res_bind]. rewrite IH, <- app_assoc. unfold held_pairs. cbn [omap list_omap].
  by destruct (ds !! path k).
Qed.

Lemma held_pairs_elem ds keys h bs : (h, bs) ∈ held_pairs ds keys <->
  h ∈ keys /\ ds !! path h = Some bs.
Proof.
  unfold held_pairs. rewrite list_elem_of_omap. split.
  - intros (k & Hk & (x & Hx & [= -> ->])%fmap_Some). done.
  - intros [Hk Hb]. exists h. by rewrite Hb.
Qed.

(** What the server answers is what the client reads. *)
Lemma exchange_server ds m r : valid_msg m -> valid_msg r -> fits m -> fits r ->
  (forall req, write_msg m = Ok req -> serve_conn ds req = write_msg r) ->
  exchange (Some (server ds)) m = Ok r.
Proof.
  intros Hm Hr [req Hreq] [rb Hrb] Hs. unfold exchange, server. cbn [ok_or mbind res_bind].
  rewrite Hreq. cbn [mbind res_bind]. rewrite (Hs req Hreq), Hrb.
  rewrite <- (app_nil_r rb). by rewrite (read_write r rb [] Hr Hrb).
Qed.

Lemma exchange_want ds keys : Forall is_hash keys -> fits (Want keys) ->
  fits (Blobs (held_pairs ds keys)) ->
  exchange (Some (server ds)) (Want keys) = Ok (Blobs (held_pairs ds keys)).
Proof.
  intros Hk Hw Hb. apply exchange_server; [done| |done|done|].
  - apply Forall_forall. intros [h bs] [Hh _]%held_pairs_elem. simpl.
    by eapply Forall_forall.
  - intros req Hreq. unfold serve_conn. rewrite <- (app_nil_r req).
    rewrite (read_write (Want keys) req [] Hk Hreq). cbn [mbind res_bind].
    by rewrite serve_pairs.
Qed.

Lemma exchange_have ds keys : Forall is_hash keys -> fits (Have keys) ->
  fits (Held (contains ds <$> keys)) ->
  exchange (Some (server ds)) (Have keys) = Ok (Held (contains ds <$> keys)).
Proof.
  intros Hk Hw Hb. apply exchange_server; [done..|].
  intros req Hreq. unfold serve_conn. rewrite <- (app_nil_r req).
  by rewrite (read_write (Have keys) req [] Hk Hreq).
Qed.

Lemma fits_iff m : fits m <-> sized_msg m /\ Z.of_nat (length (enc_msg m)) <= MAX_FRAME.
Proof.
  unfold fits, write_msg. split.
  - intros [bs H]. apply bind_Ok in H as (body & [-> Hs]%encode_body_Ok & H).
    apply bind_Ok in H as (len & [-> Hl]%len_u32_Ok & H).
    destruct (Z.ltb_spec MAX_FRAME (Z.of_nat (length (enc_msg m)))); [done|]. split; [done|lia].
  - intros [Hs Hl]. eexists. rewrite encode_body_ok by done. cbn [mbind res_bind].
    unfold MAX_FRAME in *. rewrite len_u32_ok by (unfold u32_range; lia). cbn [mbind res_bind].
    by rewrite (proj2 (Z.ltb_ge _ _)) by lia.
Qed.

Lemma hashes_length keys : Forall is_hash keys ->
  length (enc_counted (fun h => h) keys) = (4 + 32 * length keys)%nat.
Proof.
  intros Hk. unfold enc_counted. rewrite length_app. change (length (u32_le _)) with 4%nat. f_equal.
  rewrite list_fmap_id. induction Hk as [|k keys Hh Hk IH]; [done|]. cbn [concat length].
  unfold is_hash in Hh. rewrite length_app. lia.
Qed.

(** If the probe can be sent, so can its answer and the request that follows. *)
Lemma fits_probe ds want : Forall is_hash want -> fits (Have want) ->
  fits (Held (contains ds <$> want)) /\ fits (Want (filter (fun k => contains ds k = true) want)).
Proof.
  intros Hk [Hs Hl]%fits_iff. rewrite !fits_iff. unfold enc_msg in *.
  cbn [sized_msg msg_tag enc_payload] in *. rewrite !length_app in *.
  rewrite hashes_length in Hl by done. unfold short_list, u32_range in *.
  pose proof (length_filter (fun k => contains ds k = true) want) as Hf.
  assert (Forall is_hash (filter (fun k => contains ds k = true) want)) as Hk'.
  { apply Forall_forall. intros k [_ Hin]%list_elem_of_filter. by eapply Forall_forall. }
  rewrite (hashes_length _ Hk'), length_fmap. change (length [_]) with 1%nat in *.
  assert (length (enc_counted enc_bit (contains ds <$> want)) = (4 + length want)%nat) as ->.
  { unfold enc_counted. rewrite length_app. change (length (u32_le _)) with 4%nat. f_equal.
    clear. induction want as [|k want IH]; [done|]. cbn. by rewrite <- IH. }
  lia.
Qed.

Lemma held_keys_filter ds want :
  held_keys want (contains ds <$> want) = filter (fun k => contains ds k = true) want.
Proof.
  induction want as [|k want IH]; [done|]. unfold held_keys in *. cbn [fmap list_fmap zip zip_with].
  rewrite !filter_cons. cbn [snd]. destruct (decide (contains ds k = true)); cbn; by rewrite <- IH.
Qed.

Definition put_pair (d : Disk) (p : list byte * list byte) : Disk := <[path p.1 := p.2]> d.

Lemma import_ok (d : Disk) (h bs : list byte) : (forall name bs, write_ok name bs = true) -> verifies h bs ->
  import blake3 cls write_ok h bs d = (Ok tt, put_pair d (h, bs)).
Proof.
  intros Hw (c & p & Hv%verify_blob_Ok). unfold import.
  assert (pure_act (verify_blob blake3 cls h bs) d = (Ok (c, p), d)) as Hp by (unfold pure_act; by rewrite Hv).
  rewrite (act_bind_Ok _ _ _ _ _ Hp). unfold atomic_write. by rewrite Hw.
Qed.

Lemma import_all_ok (d : Disk) (pairs : list (list byte * list byte)) : (forall name bs, write_ok name bs = true) ->
  Forall (fun p => verifies p.1 p.2) pairs ->
  import_all blake3 cls write_ok pairs d = (Ok tt, foldl put_pair d pairs).
Proof.
  intros Hw Hp. unfold import_all. revert d.
  induction Hp as [|[h bs] pairs Hv Hp IH]; intros d; cbn [for_each foldl]; [done|].
  rewrite (act_bind_Ok _ _ _ _ _ (import_ok d h bs Hw Hv)). apply IH.
Qed.

Lemma foldl_put_pair (ds : Disk) (pairs : list (list byte * list byte)) (d : Disk) : (forall h bs, (h, bs) ∈ pairs -> ds !! path h = Some bs) ->
  forall name, foldl put_pair d pairs !! name
    = if bool_decide (name ∈ (path ∘ fst) <$> pairs) then ds !! name else d !! name.
Proof.
  revert d. induction pairs as [|[h bs] pairs IH]; intros d Hp name; cbn [foldl]; [done|].
  rewrite IH by (intros; apply Hp; by right). cbn [fmap list_fmap].
  destruct (decide (name ∈ (path ∘ fst) <$> pairs)) as [Hin|Hni].
  - rewrite !bool_decide_true; [done|by right|done].
  - rewrite (bool_decide_false _ Hni). unfold put_pair. cbn [fst snd compose].
    destruct (decide (name = path h)) as [-> |Hne].
    + rewrite lookup_insert_eq, bool_decide_true by left. symmetry. apply Hp. left.
    + rewrite lookup_insert_ne by done. rewrite bool_decide_false; [done|].
      by intros [?|?]%elem_of_cons.
Qed.

Lemma sync_pull_server (ds d : Disk) (want : list (list byte)) : (forall name bs, write_ok name bs = true) -> verified ds ->
  Forall is_hash want -> fits (Want want) -> fits (Blobs (held_pairs ds want)) ->
  exists d', sync_pull blake3 cls write_ok (Some (server ds)) want d = (Ok tt, d')
  /\ forall name, d' !! name = if bool_decide (name ∈ path <$> want) && bool_decide (is_Some (ds !! name))
                               then ds !! name else d !! name.
Proof.
  intros Hwr Hv Hk Hw Hb. unfold sync_pull, mbind at 1, act_bind at 1, pure_act.
  rewrite exchange_want by done. rewrite import_all_ok; [|done|].
  2:{ apply Forall_forall. intros [h bs] [Hh Hbs]%held_pairs_elem. simpl. apply Hv; [|done].
      by eapply Forall_forall. }
  eexists. split; [done|]. intros name.
  rewrite (foldl_put_pair ds) by (intros h bs [_ ?]%held_pairs_elem; done).
  assert (bool_decide (name ∈ (path ∘ fst) <$> held_pairs ds want)
    = bool_decide (name ∈ path <$> want) && bool_decide (is_Some (ds !! name))) as ->; [|done].
  rewrite <- bool_decide_and. apply bool_decide_ext. rewrite !list_elem_of_fmap. split.
  - intros ([h bs] & -> & [Hh Hbs]%held_pairs_elem). simpl. rewrite Hbs. eauto.
  - intros [(h & -> & Hh) [bs Hbs]]. exists (h, bs). by rewrite held_pairs_elem.
Qed.
End Cache.

Lemma filter_ext_in {A} (P Q : A -> Prop) `{!forall x, Decision (P x)} `{!forall x, Decision (Q x)} (l : list A) :
  (forall x, x ∈ l -> P x <-> Q x) -> filter P l = filter Q l.
Proof.
  induction l as [|x l IH]; intros HPQ; [done|]. rewrite !filter_cons.
  rewrite IH by (intros; apply HPQ; by right). pose proof (HPQ x ltac:(left)).
  by destruct (decide (P x)), (decide (Q x)); try tauto.
Qed.

(** ** The result cache *)

Section Results.
Context (blake3 : list byte -> list byte) (R : CRules).

(** The operations on a cache. *)
Inductive cache_step : ResultCache -> ResultCache -> Prop :=
| step_insert cache key c p cache' :
    cache_insert blake3 cache key c p = Ok cache' -> cache_step cache cache'
| step_normalize fuel cache key n p row c st cache' :
    normalize_cached blake3 fuel cache key n p row = Ok (c, st, cache') -> cache_step cache cache'.

(** Each entry hashes, from some root, to its key. *)
Definition cache_addressed (cache : ResultCache) : Prop :=
  forall key c, entries cache !! key = Some c -> exists p, canonical_hash blake3 c p = Ok key.

Lemma cache_insert_Ok cache key c p cache' : cache_insert blake3 cache key c p = Ok cache' ->
  canonical_hash blake3 c p = Ok key /\ cache' = mk_cache (<[key := c]> (entries cache)).
Proof.
  unfold cache_insert, chash. intros H. apply bind_Ok in H as (h & Hh%map_err_Ok & H).
  destruct (bool_decide_reflect (h = key)) as [<- |]; [|done]. by injection H as <-.
Qed.

Lemma normalize_cached_Ok fuel cache key n p row c st cache' :
  normalize_cached blake3 fuel cache key n p row = Ok (c, st, cache') ->
  if is_pure row then
    (entries cache !! key = Some c /\ st = stats_default /\ cache' = cache)
    \/ (entries cache !! key = None /\ normalize fuel n = Ok (c, st)
        /\ canonical_hash blake3 c p = Ok key /\ cache' = mk_cache (<[key := c]> (entries cache)))
  else normalize fuel n = Ok (c, st) /\ cache' = cache.
Proof.
  unfold normalize_cached. destruct (is_pure row) eqn:Hp.
  - destruct (entries cache !! key) as [hit|] eqn:Hhit; intros H.
    + left. by injection H as <- <- <-.
    + right. apply bind_Ok in H as ([c' st'] & Hn%map_err_Ok & H).
      apply bind_Ok in H as (cache1 & [Hh ->]%cache_insert_Ok & H). by injection H as <- <- <-.
  - intros H. apply bind_Ok in H as ([c' st'] & Hn%map_err_Ok & H). by injection H as <- <- <-.
Qed.

Lemma cache_insert_addressed cache key c p : cache_addressed cache ->
  canonical_hash blake3 c p = Ok key -> cache_addressed (mk_cache (<[key := c]> (entries cache))).
Proof.
  intros Hc Hh key' c' Hl. simpl in Hl. apply lookup_insert_Some in Hl as [[<- <-]|[_ Hl]]; eauto.
Qed.

Lemma cache_steps_addressed cache cache' : star cache_step cache cache' ->
  cache_addressed cache -> cache_addressed cache'.
Proof.
  induction 1 as [|c1 c2 c3 Hs _ IH]; [done|]. intros Hc. apply IH. destruct Hs as [? ? ? ? ? Hs|? ? ? ? ? row ? ? ? Hs].
  - apply cache_insert_Ok in Hs as [Hh ->]. by eapply cache_insert_addressed.
  - apply normalize_cached_Ok in Hs. destruct (is_pure row).
    + destruct Hs as [(_ & _ & ->)|(_ & _ & Hh & ->)]; [done|]. by eapply cache_insert_addressed.
    + by destruct Hs as [_ ->].
Qed.

End Results.

(** * Theorems *)

(** C16: Whatever the peer answers to the probe and to the pull, the pull ends
    with success or an error; in both cases a file of the local cache is
    either untouched or holds bytes that decode to a certified net hashing to
    the name of the file.  So a verified cache stays verified and no key is
    lost, even if the peer fails half way. *)
Theorem pull_any_peer (blake3 : list byte -> list byte) (cls : NetClass)
    (write_ok : list Z -> list byte -> bool) (peer peer' : option (list byte -> list byte))
    (want : list (list byte)) (d : Disk) :
  let '(r, d') := probe_then_pull blake3 cls write_ok peer peer' want d in
  total r /\ extends blake3 cls d d'
  /\ (verified blake3 cls d -> verified blake3 cls d')
  /\ (forall h, contains d h = true -> contains d' h = true).
Proof.
  pose proof (probe_then_pull_ends blake3 cls write_ok peer peer' want d) as H.
  destruct (probe_then_pull blake3 cls write_ok peer peer' want d) as [r d'].
  assert (total r /\ extends blake3 cls d d') as [Ht He] by (destruct r; done).
  split; [done|]. split; [done|]. split; [by apply extends_verified|].
  intros h Hh. unfold contains in *. destruct (d !! path h) eqn:Hd; [|done].
  destruct (extends_keeps blake3 cls d d' (path h) He) as [x ->]; [by eexists|done].
Qed.


(** In every cache that insertions and cached normalisations can build,
    an entry is addressed by its content: its key is its canonical hash from
    some root.  A hit returns the entry with no interactions counted and
    without reducing; a miss returns what [normalize] returns and stores it
    only under its own hash; an effectful row never reads or writes the
    cache. *)
Theorem result_cache_addressed (blake3 : list byte -> list byte) (R : CRules) (cache cache' : ResultCache)
    (fuel : nat) (key : list byte) (n : Net) (root : PortId) (row : EffectRow)
    (c : CanonicalNet) (st : ReduceStats) :
  star (cache_step blake3 R) cache_new cache ->
  normalize_cached blake3 fuel cache key n root row = Ok (c, st, cache') ->
  cache_addressed blake3 cache'
  /\ (is_pure row = true -> exists p, canonical_hash blake3 c p = Ok key)
  /\ (is_pure row = false -> normalize fuel n = Ok (c, st) /\ cache' = cache)
  /\ (is_pure row = true -> forall hit, entries cache !! key = Some hit ->
        c = hit /\ interactions st = 0 /\ cache' = cache)
  /\ (is_pure row = true -> entries cache !! key = None ->
        normalize fuel n = Ok (c, st) /\ cache' = mk_cache (<[key := c]> (entries cache))).
Proof.
  intros Hs Hn. assert (cache_addressed blake3 cache_new) as H0 
    by (intros k c' Hl; unfold cache_new in Hl; cbn [entries] in Hl; by rewrite lookup_empty in Hl).
  pose proof (cache_steps_addressed _ _ _ _ Hs H0) as Hc.
  assert (cache_step blake3 R cache cache') as Hst by (by eapply step_normalize).
  pose proof (cache_steps_addressed _ _ _ _ (star_one _ _ _ Hst) Hc) as Hc'. split; [done|].
  apply normalize_cached_Ok in Hn. destruct (is_pure row); [|by destruct Hn].
  destruct Hn as [(He & -> & ->)|(He & Hn & Hh & ->)].
  - split; [intros _; by apply Hc|]. split; [done|]. split; [|congruence].
    intros _ hit Hhit. split; [congruence|done].
  - split; [intros _; by exists root|]. split; [done|]. split; [congruence|done].
Qed.

(** ** Examples *)

(** A stand-in for the hash function. *)
Definition pad32 (bs : list byte) : list byte := take 32 (bs ++ replicate 32 x00).

Definition id_blob : list byte :=
  match serialize (id_net 0) (P 1 Principal) with Ok bs => bs | _ => [] end.

(** The same blob with one more record, an eraser nothing leads to. *)
Definition padded_blob : list byte :=
  match id_blob with
  | v :: k :: bs => v :: byte_of_Z (byte_to_Z k + 1) :: bs ++ [byte_of_Z KIND_ERASER]
  | _ => []
  end.

(** Verification accepts more bytes than the canonical form: a record that
    nothing leads to does not change the hash. *)
Lemma import_malleable (blake3 : list byte -> list byte) :
  id_blob <> padded_blob
  /\ verifies blake3 DeltaL (blake3 id_blob) id_blob
  /\ verifies blake3 DeltaL (blake3 id_blob) padded_blob.
Proof.
  assert (forall bs c p, from_blob DeltaL bs = Ok (c, p) -> serialize (proper c) p = Ok id_blob ->
    verifies blake3 DeltaL (blake3 id_blob) bs) as Hv.
  { intros bs c p Hf Hs. exists c, p. split; [done|]. unfold canonical_hash. by rewrite Hs. }
  assert (forall bs, match from_blob DeltaL bs with
    | Ok (c, p) => match serialize (proper c) p with Ok b => bool_decide (b = id_blob) | _ => false end
    | _ => false end = true -> verifies blake3 DeltaL (blake3 id_blob) bs) as Hcheck.
  { intros bs H. destruct (from_blob DeltaL bs) as [[c p]|e| |] eqn:Hf; try discriminate H.
    destruct (serialize (proper c) p) as [b|e| |] eqn:Hs; try discriminate H.
    apply bool_decide_eq_true in H as ->. by eapply Hv. }
  split; [vm_compute; discriminate|]. split; apply Hcheck; vm_compute; reflexivity.
Qed.

Definition id_store : Disk := {[path (pad32 id_blob) := id_blob]}.
Definition wanted : list (list byte) := [pad32 id_blob; replicate 32 x05].

Lemma id_store_verified : verified pad32 DeltaL id_store.
Proof.
  intros h bs Hh Hl. unfold id_store in Hl. apply lookup_singleton_Some in Hl as [Hp <-].
  apply hex_inj in Hp as <-. apply (import_malleable pad32).
Qed.


Lemma result_cache_addressed_witness : exists c st cache',
  normalize_cached (C := crules_L) pad32 20 cache_new (pad32 id_blob) (id_net 0) (P 1 Principal)
    row_pure = Ok (c, st, cache')
  /\ exists p, canonical_hash pad32 c p = Ok (pad32 id_blob).
Proof.
  assert (is_ok (normalize_cached (C := crules_L) pad32 20 cache_new (pad32 id_blob) (id_net 0)
    (P 1 Principal) row_pure) = true) as Hok by (vm_compute; reflexivity).
  destruct (normalize_cached (C := crules_L) pad32 20 cache_new (pad32 id_blob) (id_net 0)
    (P 1 Principal) row_pure) as [[[c st] cache']|e| |] eqn:E; try discriminate Hok.
  exists c, st, cache'. split; [reflexivity|].
  exact (proj1 (proj2 (result_cache_addressed pad32 crules_L cache_new cache' 20 (pad32 id_blob)
    (id_net 0) (P 1 Principal) row_pure c st (star_refl _ _) E)) eq_refl).
Defined.
