(* ===== verification/StorePath.v ===== *)
(** * Store paths ([crates/dnx-store/src/path.rs], [error.rs])

    A store path is a content hash and a human name; on disk and on the wire
    it is [<hex>-<name>].  [Path::components] is the Unix reading of a path
    string. *)
From S2P Require Import Prelude Bytes Utf8 Text Codec.

(** I/O errors carry their kind. *)
Inductive StoreError : Type :=
| StoreIo (kind : string)
| BadName (name : str)
| StoreHashMismatch
| IsTree.

Definition HEX_LEN : nat := 64.

Record StorePath : Type := mk_path { sp_hash : list byte; sp_name : str }.

(** ** [std::path] *)

Inductive Component : Type :=
| RootDir
| CurDir
| ParentDir
| Normal (name : str).

Definition SLASH : Z := 47.
Definition DOT : Z := 46.

(** The parts between slashes. *)
Fixpoint split_slash (s : str) : list (list Z) :=
  match s with
  | [] => [[]]
  | c :: s' =>
      match split_slash s' with
      | part :: parts => if c =? SLASH then [] :: part :: parts else (c :: part) :: parts
      | [] => [[c]]
      end
  end.

(** A part after the first: empty parts and [.] are skipped. *)
Definition part_component (part : str) : option Component :=
  if bool_decide (part = []) || bool_decide (part = [DOT]) then None
  else if bool_decide (part = [DOT; DOT]) then Some ParentDir
  else Some (Normal part).

Definition components (s : str) : list Component :=
  match split_slash s with
  | [] => []
  | first :: parts =>
      (if bool_decide (first = []) then
         (match s with [] => [] | _ => [RootDir] end)
       else if bool_decide (first = [DOT]) then [CurDir]
       else from_option (fun c => [c]) [] (part_component first))
      ++ omap part_component parts
  end.

(** [char::is_control]. *)
Definition is_control (c : Z) : bool := (c <? 32) || ((127 <=? c) && (c <? 160)).

Definition is_single_component (name : str) : bool :=
  match components name with
  | [Normal _] => true
  | _ => false
  end && negb (existsb (fun c => is_control c || (c =? 92) || (c =? SLASH)) name).

(** ** Store paths *)

Definition sp_new (hash : list byte) (name : str) : res StoreError StorePath :=
  if negb (is_single_component name) then Err (BadName name)
  else Ok (mk_path hash name).

Definition sp_display (p : StorePath) : str := hex (sp_hash p) ++ [45] ++ sp_name p.

(** The string of bytes that are part of a string; the split panics inside a
    character. *)
Definition str_slice (bs : list byte) : res StoreError str :=
  match from_utf8 bs with Some s => Ok s | None => Panic end.

(** [for (i, byte) in hash.iter_mut().enumerate() { .. }], [k] bytes to go. *)
Fixpoint parse_hex (bad : StoreError) (k i : nat) (digits : list byte) : res StoreError (list byte) :=
  match k with
  | O => Ok []
  | S k' =>
      hi ← index digits (i * 2);
      lo ← index digits (i * 2 + 1);
      b ← ok_or (hex_pair (byte_to_Z hi) (byte_to_Z lo)) bad;
      bs ← parse_hex bad k' (i + 1) digits;
      Ok (b :: bs)
  end.

Definition sp_parse (component : str) : res StoreError StorePath :=
  let bad := BadName component in
  let bs := utf8 component in
  if (length bs <? HEX_LEN + 2)%nat
     || negb match bs !! HEX_LEN with Some b => byte_to_Z b =? 45 | None => false end
  then Err bad
  else
    _ ← str_slice (take HEX_LEN bs);
    rest ← str_slice (drop HEX_LEN bs);
    hash ← parse_hex bad 32 0 (take HEX_LEN bs);
    name ← str_slice (drop 1 (utf8 rest));
    sp_new hash name.

(** A path that [sp_new] builds. *)
Definition sp_wf (p : StorePath) : Prop :=
  is_hash (sp_hash p) /\ is_single_component (sp_name p) = true /\ Forall scalar (sp_name p).

(** * Lemmas *)

Lemma utf8_app s t : utf8 (s ++ t) = utf8 s ++ utf8 t.
Proof. unfold utf8. by rewrite fmap_app, concat_app. Qed.

Lemma utf8_ascii s : Forall (fun c => 0 <= c < 128) s -> utf8 s = byte_of_Z <$> s.
Proof.
  induction 1 as [|c s Hc Hs IH]; [done|]. unfold utf8 in *. cbn [fmap list_fmap concat].
  rewrite IH. unfold utf8_char. by rewrite (proj2 (Z.ltb_lt _ _)) by lia.
Qed.

Lemma ascii_scalar s : Forall (fun c => 0 <= c < 128) s -> Forall scalar s.
Proof. intros H. eapply Forall_impl; [exact H|]. unfold scalar. simpl. lia. Qed.

(** A byte of the string below 128 is a character of its own. *)
Lemma utf8_char_cases c : scalar c ->
  (c < 128 /\ utf8_char c = [byte_of_Z c])
  \/ (Forall (fun b => 128 <= byte_to_Z b) (utf8_char c) /\ utf8_char c <> []).
Proof.
  intros Hc. assert (0 <= c < 1114112) as Hr by (unfold scalar in Hc; lia). unfold utf8_char.
  assert (forall z, 128 <= z < 256 -> 128 <= byte_to_Z (byte_of_Z z)) as Hb.
  { intros z Hz. rewrite byte_Z_small; lia. }
  pose proof (Z.mod_pos_bound c 64). pose proof (Z.mod_pos_bound (c / 64) 64).
  pose proof (Z.mod_pos_bound (c / 4096) 64).
  destruct (Z.ltb_spec c 128); [by left|right].
  destruct (Z.ltb_spec c 2048); [|destruct (Z.ltb_spec c 65536)]; (split; [|done]);
    rewrite !Forall_cons; repeat split; try apply Forall_nil_2; apply Hb;
    Z.to_euclidean_division_equations; lia.
Qed.

Lemma utf8_split_ascii s a b t : Forall scalar s -> utf8 s = a ++ b :: t -> byte_to_Z b < 128 ->
  exists s1 s2, s = s1 ++ byte_to_Z b :: s2 /\ utf8 s1 = a /\ utf8 s2 = t.
Proof.
  intros Hs. revert a. induction Hs as [|c s Hc Hs IH]; intros a H Hb.
  { by destruct a. }
  unfold utf8 in H. cbn [fmap list_fmap concat] in H. fold (utf8 s) in H.
  destruct (utf8_char_cases c Hc) as [[Hlt Hu]|[Hhi Hne]].
  - rewrite Hu in H. destruct a as [|x a]; cbn [app] in H.
    + injection H as <- <-. exists [], s. assert (0 <= c) by (unfold scalar in Hc; lia).
      by rewrite byte_Z_small by lia.
    + injection H as <- H. destruct (IH a H Hb) as (s1 & s2 & -> & <- & <-).
      exists (c :: s1), s2. unfold utf8. cbn [fmap list_fmap concat app]. by rewrite Hu.
  - apply app_eq_app in H as (k & [[Ha Ht]|[Hu Ht]]).
    + destruct k as [|x k]; [|].
      * rewrite app_nil_r in Ha. cbn in Ht. destruct (IH [] (eq_sym Ht) Hb) as (s1 & s2 & -> & H1 & <-).
        exists (c :: s1), s2. split; [done|]. split; [|done].
        unfold utf8. cbn [fmap list_fmap concat]. fold (utf8 s1). by rewrite H1, app_nil_r.
      * injection Ht as -> ->. rewrite Ha in Hhi. apply Forall_app in Hhi as [_ [Hx _]%Forall_cons]. lia.
    + subst a. destruct (IH k Ht Hb) as (s1 & s2 & -> & <- & <-).
      exists (c :: s1), s2. done.
Qed.

Lemma str_slice_ok s : Forall scalar s -> str_slice (utf8 s) = Ok s.
Proof. intros H. unfold str_slice. by rewrite from_utf8_utf8. Qed.

Lemma str_slice_Ok bs s : str_slice bs = Ok s -> Forall scalar s /\ utf8 s = bs.
Proof.
  unfold str_slice. destruct (from_utf8 bs) as [s'|] eqn:E; [|done]. intros [= ->].
  by apply from_utf8_sound.
Qed.

(** The digits of a hash, as bytes. *)
Definition hex_bytes (h : list byte) : list byte := byte_of_Z <$> hex h.

Lemma hex_bytes_length h : length (hex_bytes h) = (2 * length h)%nat.
Proof. unfold hex_bytes. by rewrite length_fmap, hex_length. Qed.

Lemma hex_ascii_range h : Forall (fun c => 0 <= c < 128) (hex h).
Proof. eapply Forall_impl; [apply hex_ascii|]. simpl. lia. Qed.

Lemma utf8_hex h : utf8 (hex h) = hex_bytes h.
Proof. apply utf8_ascii, hex_ascii_range. Qed.

Lemma hex_scalar h : Forall scalar (hex h).
Proof. apply ascii_scalar, hex_ascii_range. Qed.

Lemma index_app_r {E A} (l1 l2 : list A) i : index (E := E) (l1 ++ l2) (length l1 + i) = index l2 i.
Proof.
  unfold index. rewrite lookup_app_r by lia. by replace (length l1 + i - length l1)%nat with i by lia.
Qed.

Lemma parse_hex_complete bad h pre i : length pre = (2 * i)%nat ->
  parse_hex bad (length h) i (pre ++ hex_bytes h) = Ok h.
Proof.
  revert pre i. induction h as [|b h IH]; intros pre i Hp; [done|]. cbn [parse_hex length].
  destruct (hex_pair_byte b) as (hi & lo & Hb & Hv & Hhi & Hlo).
  assert (hex_bytes (b :: h) = [byte_of_Z hi; byte_of_Z lo] ++ hex_bytes h) as ->
    by (unfold hex_bytes; by rewrite hex_cons, fmap_app, Hb).
  replace (i * 2)%nat with (length pre + 0)%nat by lia. rewrite index_app_r.
  replace (length pre + 0 + 1)%nat with (length pre + 1)%nat by lia. rewrite index_app_r.
  cbn [mbind res_bind index lookup list_lookup app]. rewrite !byte_Z_small by lia. rewrite Hv.
  cbn [ok_or mbind res_bind]. change (byte_of_Z hi :: byte_of_Z lo :: hex_bytes h) with ([byte_of_Z hi; byte_of_Z lo] ++ hex_bytes h).
  rewrite app_assoc, IH; [done|]. rewrite length_app. simpl. lia.
Qed.

Lemma parse_hex_sound bad k i digits h : parse_hex bad k i digits = Ok h ->
  length h = k /\ take (2 * k) (drop (2 * i) digits) = hex_bytes h.
Proof.
  revert i h. induction k as [|k IH]; intros i h H; cbn [parse_hex] in H.
  { injection H as <-. done. }
  apply bind_Ok in H as (hi & Hhi%index_Ok & H). apply bind_Ok in H as (lo & Hlo%index_Ok & H).
  apply bind_Ok in H as (b & Hb%ok_or_Ok & H). apply bind_Ok in H as (bs & Hbs & H).
  injection H as <-. destruct (IH _ _ Hbs) as [<- Ht]. split; [done|].
  replace (2 * (i + 1))%nat with (2 * i + 2)%nat in Ht by lia.
  rewrite <- drop_drop in Ht. set (d := drop (2 * i) digits) in *.
  assert (d = hi :: lo :: drop 2 d) as ->.
  { assert (d !! 0%nat = Some hi) as H0 by (unfold d; rewrite lookup_drop, <- Hhi; f_equal; lia).
    assert (d !! 1%nat = Some lo) as H1 by (unfold d; rewrite lookup_drop, <- Hlo; f_equal; lia).
    clearbody d. destruct d as [|x [|y d]]; try done. cbn in *. by injection H0 as ->; injection H1 as ->. }
  replace (2 * S (length bs))%nat with (S (S (2 * length bs))) by lia.
  cbn [take]. unfold hex_bytes in *. rewrite hex_cons, fmap_app.
  rewrite (hex_pair_sound _ _ _ Hb). cbn [fmap list_fmap app]. rewrite !byte_of_to_Z.
  do 2 f_equal. exact Ht.
Qed.

Lemma parse_hex_total bad k i digits : (2 * (i + k) <= length digits)%nat -> total (parse_hex bad k i digits).
Proof.
  revert i. induction k as [|k IH]; intros i Hl; cbn [parse_hex]; [done|].
  destruct (index_lt (E := StoreError) digits (i * 2)) as (hi & -> & _); [lia|].
  destruct (index_lt (E := StoreError) digits (i * 2 + 1)) as (lo & -> & _); [lia|].
  cbn [mbind res_bind]. apply total_bind; [apply total_ok_or|]. intros b _.
  apply total_bind; [apply IH; lia|done].
Qed.

Lemma sp_new_Ok h name p : sp_new h name = Ok p ->
  p = mk_path h name /\ is_single_component name = true.
Proof. unfold sp_new. destruct (is_single_component name); [|done]. by intros [= <-]. Qed.

Lemma single_nonempty name : is_single_component name = true -> name <> [].
Proof. by intros H ->. Qed.

Lemma display_bytes p : utf8 (sp_display p) = hex_bytes (sp_hash p) ++ byte_of_Z 45 :: utf8 (sp_name p).
Proof. unfold sp_display. by rewrite !utf8_app, utf8_hex. Qed.

Lemma display_scalar p : sp_wf p -> Forall scalar (sp_display p).
Proof.
  intros (_ & _ & Hn). unfold sp_display. apply Forall_app. split; [apply hex_scalar|].
  apply Forall_app. split; [|done]. apply Forall_cons. split; [unfold scalar; lia|constructor].
Qed.

Lemma utf8_nonempty s : s <> [] -> (1 <= length (utf8 s))%nat.
Proof.
  destruct s as [|c s]; [done|]. intros _. unfold utf8. cbn [fmap list_fmap concat].
  rewrite length_app. unfold utf8_char. repeat case_match; simpl; lia.
Qed.

Lemma parse_display p : sp_wf p -> sp_parse (sp_display p) = Ok p.
Proof.
  intros Hp. pose proof (display_scalar p Hp) as Hsc. destruct Hp as (Hh & Hn & Hns).
  unfold sp_parse. rewrite display_bytes. cbv zeta. unfold is_hash in Hh.
  pose proof (hex_bytes_length (sp_hash p)) as Hl. rewrite Hh in Hl.
  pose proof (utf8_nonempty _ (single_nonempty _ Hn)) as Hne.
  assert (HEX_LEN = length (hex_bytes (sp_hash p))) as HL by (unfold HEX_LEN; lia).
  rewrite (proj2 (Nat.ltb_ge _ _)) by (rewrite length_app; simpl; unfold HEX_LEN; lia).
  rewrite HL, list_lookup_middle by done. rewrite byte_Z_small by lia.
  change (45 =? 45) with true. cbn [negb orb].
  rewrite take_app_length, drop_app_length, <- utf8_hex, str_slice_ok by apply hex_scalar.
  cbn [mbind res_bind].
  change (byte_of_Z 45 :: utf8 (sp_name p)) with (utf8 (45 :: sp_name p)).
  rewrite str_slice_ok by (apply Forall_cons; split; [unfold scalar; lia|done]).
  cbn [mbind res_bind]. 
  pose proof (fun bad => parse_hex_complete bad (sp_hash p) [] 0 eq_refl) as Hc. rewrite Hh in Hc.
  cbn [app] in Hc. rewrite utf8_hex, Hc.
  cbn [mbind res_bind]. change (drop 1 (utf8 (45 :: sp_name p))) with (utf8 (sp_name p)).
  rewrite str_slice_ok by done. cbn [mbind res_bind]. unfold sp_new. rewrite Hn. by destruct p.
Qed.

Lemma parse_Ok s p : Forall scalar s -> sp_parse s = Ok p -> sp_wf p /\ s = sp_display p.
Proof.
  intros Hs H. unfold sp_parse in H. destruct (_ || _) eqn:E; [done|].
  apply orb_false_iff in E as [Hlen Hdash%negb_false_iff].
  destruct (utf8 s !! HEX_LEN) as [b|] eqn:Hb; [|done]. apply Z.eqb_eq in Hdash.
  apply bind_Ok in H as (s1 & Hs1 & H). apply bind_Ok in H as (rest & [_ Hrest]%str_slice_Ok & H).
  apply bind_Ok in H as (hash & [Hh Hhex]%parse_hex_sound & H).
  apply bind_Ok in H as (name & [Hns Hname]%str_slice_Ok & H). apply sp_new_Ok in H as [-> Hn].
  split; [by split|]. apply utf8_inj; [done|by apply display_scalar; split|].
  rewrite display_bytes. cbn [sp_hash sp_name]. rewrite <- Hhex, Hname, Hrest.
  change (2 * 0)%nat with 0%nat. rewrite drop_0. change (2 * 32)%nat with HEX_LEN.
  rewrite take_take, Nat.min_id, drop_drop. apply Nat.ltb_ge in Hlen.
  rewrite <- (take_drop HEX_LEN (utf8 s)) at 1. f_equal.
  rewrite (drop_S _ _ _ Hb). replace (HEX_LEN + 1)%nat with (S HEX_LEN) by lia. f_equal.
  rewrite <- Hdash. by rewrite byte_of_to_Z.
Qed.

Lemma parse_total s : Forall scalar s -> total (sp_parse s).
Proof.
  intros Hs. unfold sp_parse. destruct (_ || _) eqn:E; [done|].
  apply orb_false_iff in E as [Hlen%Nat.ltb_ge Hdash%negb_false_iff].
  destruct (utf8 s !! HEX_LEN) as [b|] eqn:Hb; [|done]. apply Z.eqb_eq in Hdash.
  pose proof (take_drop_middle (utf8 s) HEX_LEN b Hb) as Hsplit.
  destruct (utf8_split_ascii s _ b _ Hs (eq_sym Hsplit)) as (s1 & s2 & -> & H1 & H2); [lia|].
  apply Forall_app in Hs as [Hs1 Hs2]. rewrite <- H1.
  rewrite (str_slice_ok s1 Hs1). cbn [mbind res_bind].
  assert (drop HEX_LEN (utf8 (s1 ++ byte_to_Z b :: s2)) = utf8 (byte_to_Z b :: s2)) as ->.
  { rewrite utf8_app. rewrite utf8_app in H1. apply (f_equal length) in H1 as Hl.
    rewrite length_take, length_app in Hl. rewrite utf8_app, length_app in Hlen.
    assert (HEX_LEN = length (utf8 s1)) as -> by lia. by rewrite drop_app_length. }
  rewrite str_slice_ok by done. cbn [mbind res_bind].
  apply total_bind.
  { apply parse_hex_total. rewrite H1, length_take. unfold HEX_LEN in *. lia. }
  intros hash _. apply total_bind; [|intros name _; unfold sp_new; by apply total_if].
  assert (drop 1 (utf8 (byte_to_Z b :: s2)) = utf8 s2) as ->.
  { unfold utf8 at 1. cbn [fmap list_fmap concat]. fold (utf8 s2). unfold utf8_char.
    by rewrite (proj2 (Z.ltb_lt _ _)) by lia. }
  apply Forall_cons in Hs2 as [_ Hs2]. by rewrite str_slice_ok.
Qed.

(** * Theorems *)

(** Parsing a component never panics, whatever characters it holds, and a
    component parses to a store path exactly when it is the text of that path:
    a 32-byte hash in lower-case hex, a dash, and a name that is one ordinary
    path component.  So a file name or a wire string stands for at most one
    path, and a path for one name. *)
Theorem store_path_text (s : list Z) (p : StorePath) : Forall scalar s ->
  total (sp_parse s) /\ (sp_parse s = Ok p <-> sp_wf p /\ s = sp_display p).
Proof.
  intros Hs. split; [by apply parse_total|]. split.
  - by apply parse_Ok.
  - intros [Hp ->]. by apply parse_display.
Qed.

Lemma store_path_text_witness :
  sp_parse (sp_display (mk_path (replicate 32 x0f) [104; 233])) = Ok (mk_path (replicate 32 x0f) [104; 233]).
Proof.
  apply (store_path_text (sp_display (mk_path (replicate 32 x0f) [104; 233]))
           (mk_path (replicate 32 x0f) [104; 233])).
  - apply display_scalar. split; [reflexivity|]. split; [reflexivity|].
    cbn [sp_name]. rewrite !Forall_cons. unfold scalar. repeat split; try lia; constructor.
  - split; [|reflexivity]. split; [reflexivity|]. split; [reflexivity|].
    cbn [sp_name]. rewrite !Forall_cons. unfold scalar. repeat split; try lia; constructor.
Defined.
