(* ===== verification/Fs.v ===== *)
(** * A file system tree

    What [std::fs] does on a tree of files and directories without links, as
    the store uses it: absolute paths are lists of names, an operation
    returns the new tree or the kind of the error.  Directory entries are
    listed in the order of the list; the order is arbitrary.  The end of the
    file has the strings of paths. *)
From S2P Require Import Prelude Bytes Utf8 Text StorePath.

Inductive fnode : Type :=
| File (bytes : list byte)
| Dir (children : list (list Z * fnode)).

Notation fpath := (list (list Z)) (only parsing).

Fixpoint child (x : str) (cs : list (list Z * fnode)) : option fnode :=
  match cs with
  | [] => None
  | (y, c) :: cs => if bool_decide (x = y) then Some c else child x cs
  end.

Fixpoint set_child (x : str) (v : fnode) (cs : list (list Z * fnode)) : list (list Z * fnode) :=
  match cs with
  | [] => [(x, v)]
  | (y, c) :: cs => if bool_decide (x = y) then (y, v) :: cs else (y, c) :: set_child x v cs
  end.

Definition del_child (x : str) (cs : list (list Z * fnode)) : list (list Z * fnode) :=
  filter (fun yc => yc.1 <> x) cs.

(** The node at a path, or why there is none. *)
Fixpoint fs_get (p : fpath) (n : fnode) : res string fnode :=
  match p with
  | [] => Ok n
  | x :: p =>
      match n with
      | File _ => Err "NotADirectory"%string
      | Dir cs => c ← ok_or (child x cs) "NotFound"%string; fs_get p c
      end
  end.

(** Rewrite the entries of the directory at a path. *)
Fixpoint fs_upd (f : list (list Z * fnode) -> list (list Z * fnode)) (p : fpath) (n : fnode)
    : res string fnode :=
  match n with
  | File _ => Err "NotADirectory"%string
  | Dir cs =>
      match p with
      | [] => Ok (Dir (f cs))
      | x :: p => c ← ok_or (child x cs) "NotFound"%string; c' ← fs_upd f p c; Ok (Dir (set_child x c' cs))
      end
  end.

(** Bind a path, whose parent is a directory, to a node. *)
Definition fs_put (p : fpath) (v : fnode) (n : fnode) : res string fnode :=
  match pop p with
  | None => Err "IsADirectory"%string
  | Some (x, dir) => fs_upd (set_child x v) dir n
  end.

Definition fs_del (p : fpath) (n : fnode) : res string fnode :=
  match pop p with
  | None => Err "IsADirectory"%string
  | Some (x, dir) => fs_upd (del_child x) dir n
  end.

Definition is_dir (p : fpath) (n : fnode) : bool :=
  match fs_get p n with Ok (Dir _) => true | _ => false end.

Definition path_exists (p : fpath) (n : fnode) : bool :=
  match fs_get p n with Ok _ => true | _ => false end.

Definition fs_read (p : fpath) (n : fnode) : res string (list byte) :=
  c ← fs_get p n;
  match c with File bytes => Ok bytes | Dir _ => Err "IsADirectory"%string end.

Definition read_dir (p : fpath) (n : fnode) : res string (list (list Z * fnode)) :=
  c ← fs_get p n;
  match c with File _ => Err "NotADirectory"%string | Dir cs => Ok cs end.

Definition fs_write (p : fpath) (bytes : list byte) (n : fnode) : res string fnode :=
  if is_dir p n then Err "IsADirectory"%string else fs_put p (File bytes) n.

(** Open for writing with [create_new], then write everything. *)
Definition write_new (p : fpath) (bytes : list byte) (n : fnode) : res string fnode :=
  if path_exists p n then Err "AlreadyExists"%string else fs_put p (File bytes) n.

(** [fs::rename]: over an absent target, a file over a file, or a directory
    over an empty directory. *)
Definition rename (a b : fpath) (n : fnode) : res string fnode :=
  c ← fs_get a n;
  _ ← match fs_get b n, c with
      | Ok (File _), File _ | Ok (Dir []), Dir _ => Ok tt
      | Ok (File _), Dir _ => Err "NotADirectory"%string
      | Ok (Dir _), File _ => Err "IsADirectory"%string
      | Ok (Dir _), Dir _ => Err "DirectoryNotEmpty"%string
      | Err _, _ | Panic, _ | Fuel, _ => Ok tt
      end;
  n ← fs_put b c n;
  fs_del a n.

(** [let _ = fs::remove_file(p)], [let _ = fs::remove_dir_all(p)]. *)
Definition remove (p : fpath) (n : fnode) : fnode :=
  match fs_del p n with Ok n' => n' | _ => n end.

(** The place a component leads to from a directory. *)
Definition resolve1 (p : fpath) (c : Component) : fpath :=
  match c with
  | RootDir => []
  | CurDir => p
  | ParentDir => match pop p with Some (_, d) => d | None => [] end
  | Normal x => p ++ [x]
  end.

Definition resolve (p : fpath) (cs : list Component) : fpath := foldl resolve1 p cs.

(** [fs::create_dir_all] of the path [cs] from the directory [p]. *)
Fixpoint create_dir_all (p : fpath) (cs : list Component) (n : fnode) : res string fnode :=
  match cs with
  | [] => Ok n
  | c :: cs =>
      let p' := resolve1 p c in
      n' ← match fs_get p' n with
           | Ok (Dir _) => Ok n
           | Ok (File _) => Err (match cs with [] => "AlreadyExists" | _ => "NotADirectory" end)%string
           | _ => fs_put p' (Dir []) n
           end;
      create_dir_all p' cs n'
  end.

(** * Lemmas *)

Lemma child_set_eq x v cs : child x (set_child x v cs) = Some v.
Proof.
  induction cs as [|[y c] cs IH]; cbn.
  - by rewrite bool_decide_true.
  - destruct (bool_decide_reflect (x = y)) as [<- |Hne]; cbn; [by rewrite bool_decide_true|].
    by rewrite (bool_decide_false _ Hne).
Qed.

Lemma child_set_ne x y v cs : x <> y -> child x (set_child y v cs) = child x cs.
Proof.
  intros Hne. induction cs as [|[z c] cs IH]; cbn; [by rewrite bool_decide_false|].
  destruct (bool_decide_reflect (y = z)) as [<- |Hyz]; cbn; [by rewrite bool_decide_false|].
  by rewrite IH.
Qed.

Lemma child_del_eq x cs : child x (del_child x cs) = None.
Proof.
  unfold del_child. induction cs as [|[y c] cs IH]; [done|]. rewrite filter_cons. cbn [fst].
  destruct (decide (y <> x)) as [Hne|]; [|done]. cbn. by rewrite bool_decide_false.
Qed.

Lemma child_del_ne x y cs : x <> y -> child x (del_child y cs) = child x cs.
Proof.
  intros Hne. unfold del_child. induction cs as [|[z c] cs IH]; [done|]. rewrite filter_cons. cbn [fst].
  destruct (decide (z <> y)) as [Hz|Hz]; cbn; rewrite IH; [done|].
  apply dec_stable in Hz as ->. by rewrite bool_decide_false.
Qed.

(** Rewriting the entries of a directory, seen from the directory. *)
Lemma fs_upd_dir f p n cs : fs_get p n = Ok (Dir cs) ->
  exists n', fs_upd f p n = Ok n' /\ fs_get p n' = Ok (Dir (f cs)).
Proof.
  revert n. induction p as [|x p IH]; intros n H; cbn [fs_get fs_upd] in *.
  - injection H as ->. by eexists.
  - destruct n as [|ds]; [done|]. apply bind_Ok in H as (c & Hc & H).
    rewrite Hc. cbn [mbind res_bind]. destruct (IH c H) as (c' & -> & Hg). cbn [mbind res_bind].
    eexists. split; [done|]. cbn [fs_get]. by rewrite child_set_eq.
Qed.

(** * Path strings ([std::path], [std::fs])

    What the front ends and the flakes use of the standard library: path
    strings with their join, parent and components, and the node of a file
    tree a path leads to.  Trees have no links, so a canonical path is a path
    without dots; [cwd] is the current directory of the process. *)

#[export] Instance Component_eq_dec : EqDecision Component.
Proof. solve_decision. Defined.

Definition is_absolute (p : str) : bool := match p with c :: _ => c =? SLASH | [] => false end.

(** [Path::join]. *)
Definition path_join (base p : str) : str :=
  if is_absolute p then p
  else match last base with
       | None => p
       | Some c => if c =? SLASH then base ++ p else base ++ [SLASH] ++ p
       end.

(** A reversed path without separators and dots at its end. *)
Fixpoint trim_end (rev : str) : str :=
  match rev with
  | c :: rest =>
      if c =? SLASH then match rest with [] => rev | _ => trim_end rest end
      else match rest with
           | d :: _ => if (c =? DOT) && (d =? SLASH) then trim_end rest else rev
           | [] => rev
           end
  | [] => []
  end.

Fixpoint drop_name (rev : str) : str :=
  match rev with
  | c :: rest => if c =? SLASH then rev else drop_name rest
  | [] => []
  end.

(** [Path::parent]. *)
Definition path_parent (p : str) : option (list Z) :=
  match trim_end (rev p) with
  | [] => None
  | [c] => if c =? SLASH then None else Some []
  | r => Some (rev (trim_end (drop_name r)))
  end.

(** [PathBuf::pop]. *)
Definition path_pop (p : str) : str := default p (path_parent p).

(** An absolute path without dots, as a string. *)
Definition path_text (p : list (list Z)) : str :=
  match p with [] => [SLASH] | _ => concat ((fun x => SLASH :: x) <$> p) end.

Section Tree.
Context (tree : fnode) (cwd : list (list Z)).

(** The node the components lead to from [p]. *)
Fixpoint walk (p : list (list Z)) (cs : list Component) : res string (list (list Z)) :=
  match cs with
  | [] => Ok p
  | RootDir :: cs => walk [] cs
  | c :: cs =>
      if is_dir p tree then
        _ ← fs_get (resolve1 p c) tree;
        walk (resolve1 p c) cs
      else Err "NotADirectory"%string
  end.

Definition fs_locate (p : str) : res string (list (list Z)) :=
  match p with [] => Err "NotFound"%string | _ => walk cwd (components p) end.

(** [Path::is_dir]. *)
Definition path_is_dir (p : str) : bool :=
  match fs_locate p with Ok q => is_dir q tree | _ => false end.

(** [fs::read], [fs::read_to_string]. *)
Definition read_bytes (p : str) : res string (list byte) := q ← fs_locate p; fs_read q tree.
Definition read_to_string (p : str) : res string (list Z) :=
  bytes ← read_bytes p; ok_or (from_utf8 bytes) "InvalidData"%string.

(** [p.canonicalize().unwrap_or_else(|_| p.clone())]. *)
Definition canonical (p : str) : str :=
  match fs_locate p with Ok q => path_text q | _ => p end.
End Tree.

(** [PathBuf]s compare by their components. *)
Definition same_path (p q : str) : bool := bool_decide (components p = components q).

(** ** [str::split], [str::split_once], [str::lines] *)

Fixpoint split_on (c : Z) (s : str) : list (list Z) :=
  match s with
  | [] => [[]]
  | x :: s' =>
      match split_on c s' with
      | part :: parts => if x =? c then [] :: part :: parts else (x :: part) :: parts
      | [] => [[x]]
      end
  end.

Fixpoint split_once (c : Z) (s : str) : option (list Z * list Z) :=
  match s with
  | [] => None
  | x :: s => if x =? c then Some ([], s) else '(a, b) ← split_once c s; Some (x :: a, b)
  end.

Definition strip_cr (line : str) : str :=
  match last line with Some c => if c =? 13 then removelast line else line | None => line end.

(** The empty line after the last newline is none; a line that ends in a
    newline loses a carriage return before it. *)
Definition lines (s : str) : list (list Z) :=
  let parts := split_on 10 s in
  (strip_cr <$> removelast parts) ++ (match last parts with Some (_ :: _ as l) => [l] | _ => [] end).
