(* ===== verification/NixTree.v ===== *)
(** * Parsed Nix files

    The Nix front end and the flakes read the syntax trees of rnix, a parser
    of another project, through its typed accessors.  A tree is modelled by
    what the accessors answer: the variants of [rnix::ast::Expr] the source
    names, each with the accessors it calls on it, an accessor that may find
    nothing being an option.  How a text becomes a tree is a parameter. *)
From S2P Require Import Prelude Utf8 Text.

Variant BinOpKind : Type :=
| Concat | Update | Add | Sub | Mul | Div | And | Equal | Implication | Less | LessOrEq | More | MoreOrEq | NotEqual | Or
| OtherOp (debug : str). (* the pipes *)

Variant UnaryOpKind : Type := Invert | Negate.

(** The value of a number, or the message of its error. *)
Variant LiteralKind : Type :=
| Integer (value : Z + list Z)
| Float (value : Z + list Z)
| Uri (text : str).

(** An item of [normalized_parts]. *)
Variant InterpolPart (X : Type) : Type :=
| Literal (text : str)
| Interpolation (e : option X).
Arguments Literal {X} text.
Arguments Interpolation {X} e.

Variant Attr (X : Type) : Type :=
| AttrIdent (tok : option (list Z))
| AttrStr (parts : list (InterpolPart X))
| AttrDynamic (e : option X).
Arguments AttrIdent {X} tok.
Arguments AttrStr {X} parts.
Arguments AttrDynamic {X} e.

(** [from] of an [inherit] is its source in parentheses, whose expression may
    be missing. *)
Variant Entry (X : Type) : Type :=
| AttrpathValue (attrpath : option (list (Attr X))) (value : option X)
| Inherit (from : option (option X)) (attrs : list (Attr X)).
Arguments AttrpathValue {X} attrpath value.
Arguments Inherit {X} from attrs.

(** [pat_bind] is the token of the name before or after [@], if it is there. *)
Variant Param (X : Type) : Type :=
| IdentParam (tok : option (list Z))
| Pattern (pat_bind : option (option (list Z))) (pat_entries : list (option (list Z) * option X)).
Arguments IdentParam {X} tok.
Arguments Pattern {X} pat_bind pat_entries.

Inductive Nix : Type :=
| XIdent (tok : option (list Z))
| XLambda (param : option (Param Nix)) (body : option Nix)
| XApply (lambda argument : option Nix)
| XLetIn (entries : list (Entry Nix)) (body : option Nix)
| XIfElse (condition body else_body : option Nix)
| XAssert (condition body : option Nix)
| XWith (namespace body : option Nix)
| XLiteral (kind : LiteralKind)
| XStr (parts : list (InterpolPart Nix))
| XPath (text : str)
| XBinOp (operator : option BinOpKind) (lhs rhs : option Nix)
| XUnaryOp (operator : option UnaryOpKind) (e : option Nix)
| XList (items : list Nix)
| XAttrSet (rec_token : bool) (entries : list (Entry Nix))
| XSelect (e : option Nix) (attrpath : option (list (Attr Nix))) (or_token : bool) (default_expr : option Nix)
| XHasAttr (e : option Nix) (attrpath : option (list (Attr Nix)))
| XParen (e : option Nix)
| XRoot (e : option Nix)
| XOther.

(** What a parse answers: its errors, and the expression of the root. *)
Class NixParser : Type := {
  rnix_parse : list Z -> list (list Z) * option Nix;
  (** [to_string] of an expression: its source text. *)
  source_of : Nix -> list Z;
  (** The part of a text from the [let] of an expression to its [in]. *)
  let_source : list Z -> Nix -> option (list Z)
}.

(** [parts.join(sep)]. *)
Definition join_with (sep : str) (parts : list (list Z)) : str :=
  match parts with
  | [] => []
  | x :: parts => x ++ concat ((fun y => sep ++ y) <$> parts)
  end.
