(* ===== verification/Store.v ===== *)
(** * The content-addressed store ([crates/dnx-store/src/store.rs])

    The store is one directory of the file system whose entries are named by
    store paths.  The state is the file system and the process-wide staging
    counter; the hash function is a parameter, and hashing in pieces is
    hashing their concatenation.  File names are valid UTF-8. *)
From S2P Require Import Prelude Bytes Utf8 Text Codec StorePath Fs.

Record store_state : Type := mk_store { fs : fnode; counter : Z }.

Notation sact := (act store_state StoreError) (only parsing).

Definition io {A : Type} (m : res string A) : res StoreError A := map_err StoreIo m.

(** An operation of the file system. *)
Definition on_fs (f : fnode -> res string fnode) : sact unit :=
  updates (fun st => n ← io (f (fs st)); Ok (mk_store n (counter st))).
Definition ask {A : Type} (f : fnode -> res StoreError A) : sact A := reads (fun st => f (fs st)).

Record PathInfo : Type := mk_info { info_size : Z; info_is_tree : bool; info_hash : list byte }.

Definition join (sep : Z) (parts : list (list Z)) : str :=
  match parts with
  | [] => []
  | x :: parts => x ++ concat ((fun y => sep :: y) <$> parts)
  end.

Definition is_prefix (p s : str) : bool := bool_decide (p `prefix_of` s).

(** [to_string_lossy().replace('\\', "/")]. *)
Definition rel_name (p : list (list Z)) : str :=
  (fun c => if c =? 92 then SLASH else c) <$> join SLASH p.

(** The files below a node, by their path from it, in the order of the
    listings. *)
Fixpoint walk_files (p : list (list Z)) (n : fnode) : list (list (list Z)) :=
  match n with
  | File _ => [p]
  | Dir cs =>
      (fix go cs := match cs with
         | [] => []
         | (x, c) :: cs => walk_files (p ++ [x]) c ++ go cs
         end) cs
  end.

(** [collect_files]: the relative name and the path of each file. *)
Definition collect_files (dir : list (list Z)) (n : fnode)
    : res StoreError (list (list Z * list (list Z))) :=
  c ← io (fs_get dir n);
  match c with
  | File _ => Err (StoreIo "NotADirectory")
  | Dir _ => Ok ((fun p => (rel_name p, dir ++ p)) <$> walk_files [] c)
  end.

Definition tree_contents (dir : list (list Z)) (n : fnode)
    : res StoreError (list (list Z * list byte)) :=
  entries ← collect_files dir n;
  mapMr (fun e => data ← io (fs_read e.2 n); Ok (e.1, data)) (sort_by entries).

(** The bytes [hash_contents] feeds to the hasher. *)
Definition tree_bytes (contents : list (list Z * list byte)) : list byte :=
  concat ((fun e => u64_le (Z.of_nat (length (utf8 e.1))) ++ utf8 e.1
                    ++ u64_le (Z.of_nat (length e.2)) ++ e.2) <$> contents).

Definition TMP : str := [46; 116; 109; 112].
Definition TMP_BLOB : str := TMP ++ [45; 98; 108; 111; 98].
Definition TMP_TREE : str := TMP ++ [45; 116; 114; 101; 101].

Section Store.
(** The hash function, the store's root and the process id. *)
Context (blake3 : list byte -> list byte) (root : list (list Z)) (pid : Z).

Definition open_at : sact unit := on_fs (create_dir_all [] (Normal <$> root)).

Definition locate (p : StorePath) : list (list Z) := root ++ [sp_display p].

Definition hash_contents (contents : list (list Z * list byte)) : list byte :=
  blake3 (tree_bytes contents).

(** A 64-bit counter is read and incremented. *)
Definition unique_staging (prefix : str) : sact (list (list Z)) := fun st =>
  (Ok (root ++ [prefix ++ [45] ++ digits 20 pid [] ++ [45] ++ digits 20 (counter st) []]),
   mk_store (fs st) (wrap 64 (counter st + 1))).

Definition discard (staging : list (list Z)) : sact unit :=
  on_fs (fun n => Ok (remove staging n)).

Definition write_atomic (target : list (list Z)) (bytes : list byte) : sact unit :=
  staging ← unique_staging TMP_BLOB;
  _ ← on_fs (write_new staging bytes);
  catch (on_fs (rename staging target)) (fun e =>
    _ ← discard staging;
    present ← ask (fun n => Ok (path_exists target n));
    if (present : bool) then mret tt else throw e).

Definition add_raw (hash : list byte) (name : str) (bytes : list byte) : sact StorePath :=
  if negb (bool_decide (blake3 bytes = hash)) then throw StoreHashMismatch
  else
    path ← pure_act (sp_new hash name);
    present ← ask (fun n => Ok (path_exists (locate path) n));
    _ ← (if (present : bool) then mret tt else write_atomic (locate path) bytes);
    mret path.

Definition add (name : str) (bytes : list byte) : sact StorePath := add_raw (blake3 bytes) name bytes.

(** [staging.join(rel)]: from the root if [rel] is absolute.  The directory it
    starts from and the components. *)
Definition join_rel (staging : list (list Z)) (rel : str) : list (list Z) * list Component :=
  match components rel with
  | RootDir :: cs => ([], cs)
  | cs => (staging, cs)
  end.

(** The last part of a path string that ends in a slash or in [/.] names a
    directory; opening it for writing fails. *)
Definition dir_part (rel : str) : option (list Z) :=
  match last (split_slash rel) with
  | Some part => if bool_decide (part = []) || bool_decide (part = [DOT]) then Some part else None
  | None => None
  end.

Definition write_rel (rel : str) (dst : list (list Z)) (data : list byte) (n : fnode) : res string fnode :=
  match dir_part rel with
  | None => fs_write dst data n
  | Some part =>
      match fs_get dst n with
      | Ok (File _) => Err "NotADirectory"%string
      | Ok (Dir _) => Err "IsADirectory"%string
      | _ => Err (match part with [] => "IsADirectory" | _ => "NotFound" end)%string
      end
  end.

(** [parent()] then [create_dir_all], then [fs::write]. *)
Definition stage_file (staging : list (list Z)) (e : list Z * list byte) : sact unit :=
  let '(base, cs) := join_rel staging e.1 in
  _ ← (match pop cs with
       | Some (_, parent) => on_fs (create_dir_all base parent)
       | None => mret tt
       end);
  on_fs (write_rel e.1 (resolve base cs) e.2).

Definition stage_tree (staging : list (list Z)) (contents : list (list Z * list byte)) : sact unit :=
  catch
    (_ ← on_fs (create_dir_all [] (Normal <$> staging));
     for_each (stage_file staging) contents)
    (fun e => _ ← discard staging; throw e).

Definition add_tree (name : str) (dir : list (list Z)) : sact StorePath :=
  contents ← ask (tree_contents dir);
  path ← pure_act (sp_new (hash_contents contents) name);
  present ← ask (fun n => Ok (path_exists (locate path) n));
  _ ← (if (present : bool) then mret tt
       else
         staging ← unique_staging TMP_TREE;
         _ ← stage_tree staging contents;
         catch (on_fs (rename staging (locate path))) (fun e =>
           _ ← discard staging;
           present ← ask (fun n => Ok (path_exists (locate path) n));
           if (present : bool) then mret tt else throw e));
  mret path.

(** [Err(e) if e.kind() == NotFound => Ok(absent)]. *)
Definition not_found {A : Type} (m : res string (list byte)) (absent : A)
    (k : list byte -> res StoreError A) : res StoreError A :=
  match m with
  | Ok bytes => k bytes
  | Err kind => if String.eqb kind "NotFound" then Ok absent else Err (StoreIo kind)
  | Panic => Panic
  | Fuel => Fuel
  end.

Definition get (n : fnode) (path : StorePath) : res StoreError (option (list byte)) :=
  if is_dir (locate path) n then Err IsTree
  else not_found (fs_read (locate path) n) None (fun bytes =>
    if negb (bool_decide (blake3 bytes = sp_hash path)) then Err StoreHashMismatch
    else Ok (Some bytes)).

Definition has (n : fnode) (path : StorePath) : bool := path_exists (locate path) n.

Definition has_hash (n : fnode) (hash : list byte) : res StoreError bool :=
  cs ← io (read_dir root n);
  Ok (existsb (fun e => is_prefix (hex hash ++ [45]) e.1) cs).

Definition list_paths (n : fnode) : res StoreError (list StorePath) :=
  cs ← io (read_dir root n);
  foldM (fun paths e =>
           if is_prefix TMP e.1 then Ok paths
           else p ← sp_parse e.1; Ok (paths ++ [p])) cs [].

Definition verify (n : fnode) (path : StorePath) : res StoreError bool :=
  if is_dir (locate path) n then
    contents ← tree_contents (locate path) n;
    if bool_decide (hash_contents contents = sp_hash path) then Ok true else Err StoreHashMismatch
  else not_found (fs_read (locate path) n) false (fun bytes =>
    if bool_decide (blake3 bytes = sp_hash path) then Ok true else Err StoreHashMismatch).

Definition query_path_info (n : fnode) (path : StorePath) : res StoreError (option PathInfo) :=
  if is_dir (locate path) n then
    contents ← tree_contents (locate path) n;
    let size := foldr Z.add 0 ((fun e => Z.of_nat (length e.2)) <$> contents) in
    Ok (Some (mk_info size true (hash_contents contents)))
  else not_found (fs_read (locate path) n) None (fun bytes =>
    Ok (Some (mk_info (Z.of_nat (length bytes)) false (blake3 bytes)))).
End Store.
