(* ===== verification/StoreSpec.v ===== *)
(** * The store, verified

    On blobs the store is a write-once map from store paths to bytes that
    hash to the path: the simulation [holds] relates the directory to that
    map.  Two faults of trees are exhibited: a tree and a blob can claim the
    same path, and a file name with backslashes leaves the staging
    directory. *)
From S2P Require Import Prelude Bytes Utf8 Text Codec StorePath Fs Store.

(** ** The abstract store *)

(** A request to store bytes under a claimed hash and a name. *)
Record request : Type := mk_request { rq_hash : list byte; rq_name : list Z; rq_bytes : list byte }.

Section Spec.
Context (blake3 : list byte -> list byte).

(** A write-once map from the texts of paths to bytes. *)
Definition spec_add (m : gmap (list Z) (list byte)) (rq : request)
    : res StoreError StorePath * gmap (list Z) (list byte) :=
  if bool_decide (blake3 (rq_bytes rq) = rq_hash rq) then
    if is_single_component (rq_name rq) then
      let p := mk_path (rq_hash rq) (rq_name rq) in
      (Ok p, match m !! sp_display p with
             | Some _ => m
             | None => <[sp_display p := rq_bytes rq]> m
             end)
    else (Err (BadName (rq_name rq)), m)
  else (Err StoreHashMismatch, m).
End Spec.

(** Run requests one after the other, whatever their results. *)
Fixpoint run {S : Type} (f : S -> request -> res StoreError StorePath * S) (l : list request) (s : S)
    : list (res StoreError StorePath) * S :=
  match l with
  | [] => ([], s)
  | rq :: l => let '(r, s1) := f s rq in let '(rs, s2) := run f l s1 in (r :: rs, s2)
  end.

(** * Lemmas *)

(** ** The entries of the root *)

Lemma fs_get_app p q n : fs_get (p ++ q) n = (c ← fs_get p n; fs_get q c).
Proof.
  revert n. induction p as [|x p IH]; intros n; [done|]. cbn [app fs_get].
  destruct n as [|cs]; [done|]. destruct (child x cs); cbn; [apply IH|done].
Qed.

Lemma pop_snoc {A} (l : list A) x : pop (l ++ [x]) = Some (x, l).
Proof. by apply pop_Some. Qed.

Definition names (cs : list (list Z * fnode)) : list (list Z) := fst <$> cs.

Lemma child_None x cs : child x cs = None <-> x ∉ names cs.
Proof.
  unfold names. induction cs as [|[y c] cs IH]; cbn; [split; [by intros _ ?%elem_of_nil|done]|].
  rewrite elem_of_cons. destruct (bool_decide_reflect (x = y)) as [<- |Hne].
  - split; [done|]. intros H. destruct H. by left.
  - rewrite IH. split; [by intros H [?|?]|]. intros H Hin. apply H. by right.
Qed.

Lemma child_Some x c cs : NoDup (names cs) -> child x cs = Some c <-> (x, c) ∈ cs.
Proof.
  unfold names. induction cs as [|[y d] cs IH]; cbn; [intros _; split; [done|by intros ?%elem_of_nil]|].
  intros [Hni Hnd]%NoDup_cons. rewrite elem_of_cons.
  destruct (bool_decide_reflect (x = y)) as [<- |Hne].
  - split; [intros [= ->]; by left|]. intros [[= ->]|Hin]; [done|].
    destruct Hni. apply list_elem_of_fmap. by exists (x, c).
  - rewrite IH by done. split; [by right|]. by intros [[= ? ?]|?].
Qed.

Lemma set_child_new x v cs : x ∉ names cs -> set_child x v cs = cs ++ [(x, v)].
Proof.
  unfold names. induction cs as [|[y c] cs IH]; [done|]. cbn [fmap list_fmap fst set_child].
  rewrite not_elem_of_cons. intros [Hne Hni]. rewrite (bool_decide_false _ Hne). by rewrite IH.
Qed.

Lemma del_child_absent x cs : x ∉ names cs -> del_child x cs = cs.
Proof.
  unfold names, del_child. induction cs as [|[y c] cs IH]; [done|]. rewrite filter_cons.
  cbn [fmap list_fmap fst]. rewrite not_elem_of_cons. intros [Hne Hni].
  rewrite decide_True by done. by rewrite IH.
Qed.

Lemma child_app x cs ds : child x (cs ++ ds) = match child x cs with Some c => Some c | None => child x ds end.
Proof.
  induction cs as [|[y c] cs IH]; [done|]. cbn. by destruct (bool_decide (x = y)).
Qed.

Section Root.
Context (root : list (list Z)).

(** The root directory lists [cs]. *)
Definition root_dir (n : fnode) (cs : list (list Z * fnode)) : Prop := fs_get root n = Ok (Dir cs).

Lemma root_child n cs x : root_dir n cs -> fs_get (root ++ [x]) n = ok_or (child x cs) "NotFound"%string.
Proof.
  unfold root_dir. intros H. rewrite fs_get_app, H. cbn [mbind res_bind fs_get].
  by destruct (child x cs).
Qed.

Lemma root_put n cs x v : root_dir n cs ->
  exists n', fs_put (root ++ [x]) v n = Ok n' /\ root_dir n' (set_child x v cs).
Proof. intros H. unfold fs_put. rewrite pop_snoc. by apply fs_upd_dir. Qed.

Lemma root_del n cs x : root_dir n cs ->
  exists n', fs_del (root ++ [x]) n = Ok n' /\ root_dir n' (del_child x cs).
Proof. intros H. unfold fs_del. rewrite pop_snoc. by apply fs_upd_dir. Qed.

Lemma root_exists n cs x : root_dir n cs -> path_exists (root ++ [x]) n = bool_decide (x ∈ names cs).
Proof.
  intros H. unfold path_exists. rewrite (root_child n cs x H).
  destruct (child x cs) as [c|] eqn:E; cbn [ok_or].
  - rewrite bool_decide_true; [done|]. apply dec_stable. by rewrite <- child_None, E.
  - rewrite bool_decide_false; [done|]. by apply child_None.
Qed.

(** A file written under a fresh name and renamed to an absent one. *)
Lemma publish n cs x y bytes : root_dir n cs -> x ∉ names cs -> y ∉ names cs -> x <> y ->
  exists n1 n2, write_new (root ++ [x]) bytes n = Ok n1 /\ rename (root ++ [x]) (root ++ [y]) n1 = Ok n2
    /\ root_dir n2 (cs ++ [(y, File bytes)]).
Proof.
  intros H Hx Hy Hxy. unfold write_new. rewrite (root_exists n cs x H), bool_decide_false by done.
  destruct (root_put n cs x (File bytes) H) as (n1 & -> & H1). rewrite set_child_new in H1 by done.
  exists n1. unfold rename. rewrite (root_child n1 _ x H1), child_app, (proj2 (child_None x cs) Hx).
  cbn [child]. rewrite bool_decide_true by done. cbn [ok_or mbind res_bind].
  rewrite (root_child n1 _ y H1), child_app, (proj2 (child_None y cs) Hy). cbn [child].
  rewrite bool_decide_false by done. cbn [ok_or mbind res_bind].
  destruct (root_put n1 _ y (File bytes) H1) as (n2 & -> & H2). cbn [mbind res_bind].
  rewrite set_child_new in H2
    by (unfold names; rewrite fmap_app, elem_of_app; cbn; rewrite list_elem_of_singleton; by intros [?|?]).
  destruct (root_del n2 _ x H2) as (n3 & -> & H3). exists n3. split; [done|]. split; [done|].
  assert (del_child x ((cs ++ [(x, File bytes)]) ++ [(y, File bytes)]) = cs ++ [(y, File bytes)]) as <-;
    [|done].
  unfold del_child. rewrite !filter_app. fold (del_child x cs). rewrite (del_child_absent x cs Hx).
  rewrite !filter_cons. cbn [fst]. rewrite decide_False by (intros Hn; by apply Hn).
  rewrite decide_True by done. by rewrite app_nil_r.
Qed.
End Root.

(** ** Names *)

Lemma display_inj p q : sp_wf p -> sp_wf q -> sp_display p = sp_display q -> p = q.
Proof.
  intros Hp Hq H. pose proof (parse_display p Hp) as E. rewrite H, parse_display in E by done.
  congruence.
Qed.

(** No store path is named like a staging file. *)
Lemma display_head p : sp_wf p -> exists c s, sp_display p = c :: s /\ 48 <= c.
Proof.
  intros (Hh & _). unfold sp_display, is_hash in *. pose proof (hex_ascii (sp_hash p)) as Ha.
  pose proof (hex_length (sp_hash p)) as Hl. rewrite Hh in Hl.
  destruct (hex (sp_hash p)) as [|c s]; [done|]. apply Forall_cons in Ha as [Hc _].
  eexists _, _. split; [done|lia].
Qed.

Lemma staging_not_display p s : sp_wf p -> TMP_BLOB ++ s <> sp_display p.
Proof. intros Hp H. destruct (display_head p Hp) as (c & t & Hd & Hc). rewrite Hd in H. injection H as <-. lia. Qed.

Section Store.
Context (blake3 : list byte -> list byte) (root : list (list Z)) (pid : Z).
Context (blake3_length : forall bs, is_hash (blake3 bs)).

(** The store holds exactly the blobs [m], by the text of their paths, and
    each hashes to its path. *)
Record holds (st : store_state) (m : gmap (list Z) (list byte)) : Prop := mk_holds {
  hd_entries : exists cs, root_dir root (fs st) cs /\ NoDup (names cs)
    /\ forall x c, (x, c) ∈ cs <-> exists bs, c = File bs /\ m !! x = Some bs;
  hd_keys : forall x bs, m !! x = Some bs ->
    exists p, sp_wf p /\ x = sp_display p /\ blake3 bs = sp_hash p
}.

Lemma holds_child st m : holds st m -> exists cs, root_dir root (fs st) cs
  /\ forall x, child x cs = File <$> m !! x.
Proof.
  intros [(cs & Hd & Hnd & Hc) _]. exists cs. split; [done|]. intros x.
  destruct (child x cs) as [c|] eqn:E.
  - apply child_Some in E; [|done]. apply Hc in E as (bs & -> & ->). done.
  - destruct (m !! x) as [bs|] eqn:Hm; [|done]. exfalso.
    assert ((x, File bs) ∈ cs) as Hin by (apply Hc; eauto). apply child_Some in Hin; [|done]. congruence.
Qed.

Lemma on_fs_ok (f : fnode -> res string fnode) st n : f (fs st) = Ok n ->
  on_fs f st = (Ok tt, mk_store n (counter st)).
Proof. unfold on_fs, updates. by intros ->. Qed.

Lemma write_atomic_ok st cs y bytes : root_dir root (fs st) cs -> y ∉ names cs ->
  (forall s, TMP_BLOB ++ s ∉ names cs /\ TMP_BLOB ++ s <> y) ->
  exists st', write_atomic root pid (root ++ [y]) bytes st = (Ok tt, st')
    /\ root_dir root (fs st') (cs ++ [(y, File bytes)]).
Proof.
  intros Hd Hy Hs. unfold write_atomic.
  set (s := [45] ++ digits 20 pid [] ++ [45] ++ digits 20 (counter st) []).
  destruct (Hs s) as [Hs1 Hs2]. destruct (publish root (fs st) cs _ y bytes Hd Hs1 Hy Hs2)
    as (n1 & n2 & Hw & Hr & Hd2).
  set (st1 := mk_store (fs st) (wrap 64 (counter st + 1))).
  rewrite (act_bind_Ok _ _ st (root ++ [TMP_BLOB ++ s]) st1) by done.
  rewrite (act_bind_Ok _ _ _ _ _ (on_fs_ok (write_new _ bytes) st1 n1 Hw)).
  exists (mk_store n2 (wrap 64 (counter st + 1))). split; [|done].
  unfold catch. by rewrite (on_fs_ok (rename _ _) (mk_store n1 (counter st1)) n2 Hr).
Qed.

Lemma holds_insert st st' m cs p bs : holds st m -> root_dir root (fs st) cs ->
  root_dir root (fs st') (cs ++ [(sp_display p, File bs)]) -> sp_wf p ->
  m !! sp_display p = None -> blake3 bs = sp_hash p -> holds st' (<[sp_display p := bs]> m).
Proof.
  intros [(cs0 & Hd & Hnd & Hc) Hk] Hd1 Hd' Hp Hm Hb.
  assert (cs0 = cs) as -> by (unfold root_dir in *; rewrite Hd in Hd1; by injection Hd1). split.
  - exists (cs ++ [(sp_display p, File bs)]). split; [done|].
    assert (sp_display p ∉ names cs) as Hni.
    { intros ([x c] & He & Hin)%list_elem_of_fmap. cbn [fst] in He. subst x.
      apply Hc in Hin as (b & _ & Hin). congruence. }
    split.
    + unfold names. rewrite fmap_app. apply NoDup_app. split; [done|].
      split; [|apply NoDup_singleton]. by intros x Hx ->%list_elem_of_singleton.
    + intros x c. rewrite elem_of_app, list_elem_of_singleton, Hc.
      destruct (decide (x = sp_display p)) as [-> |Hne].
      * rewrite lookup_insert_eq, Hm. split; [|intros (b & -> & [= ->]); by right].
        intros [(b & _ & ?)|[= ->]]; [done|eauto].
      * rewrite lookup_insert_ne by done. split; [|by left]. by intros [?|[= ? ?]].
  - intros x b. destruct (decide (x = sp_display p)) as [-> |Hne].
    + rewrite lookup_insert_eq. intros [= <-]. by exists p.
    + rewrite lookup_insert_ne by done. apply Hk.
Qed.

(** Insertion simulates the abstract store. *)
Lemma add_raw_spec st m hash name bs : holds st m -> Forall scalar name ->
  exists st', add_raw blake3 root pid hash name bs st = ((spec_add blake3 m (mk_request hash name bs)).1, st')
    /\ holds st' (spec_add blake3 m (mk_request hash name bs)).2.
Proof.
  intros Hh Hn. unfold add_raw, spec_add. cbn [rq_hash rq_name rq_bytes].
  destruct (bool_decide_reflect (blake3 bs = hash)) as [Hb|]; cbn [negb]; [|by exists st].
  destruct (is_single_component name) eqn:Hs.
  2:{ exists st. split; [|done]. unfold mbind, act_bind, pure_act, sp_new. by rewrite Hs. }
  set (p := mk_path hash name).
  assert (sp_wf p) as Hp by (split; [change (is_hash hash); rewrite <- Hb; apply blake3_length|done]).
  rewrite (act_bind_Ok _ _ st p st) by (unfold pure_act, sp_new; by rewrite Hs).
  destruct (holds_child st m Hh) as (cs & Hd & Hc).
  rewrite (act_bind_Ok _ _ st (path_exists (locate root p) (fs st)) st) by done.
  unfold locate, path_exists. rewrite (root_child root (fs st) cs (sp_display p) Hd), Hc.
  destruct (m !! sp_display p) as [old|] eqn:Hm; cbn [fmap option_fmap option_map ok_or fst snd].
  { exists st. by split. }
  destruct (write_atomic_ok st cs (sp_display p) bs Hd) as (st' & Hw & Hd').
  - apply child_None. by rewrite Hc, Hm.
  - intros s. split; [|by apply staging_not_display]. apply child_None. rewrite Hc.
    destruct (m !! (TMP_BLOB ++ s)) eqn:E; [|done]. exfalso.
    apply (hd_keys _ _ Hh) in E as (q & Hq & He & _). by apply staging_not_display in He.
  - rewrite (act_bind_Ok _ _ _ _ _ Hw). exists st'. split; [done|]. by eapply holds_insert.
Qed.

(** Reading, from the map. *)
Lemma reads_spec st m p : holds st m -> sp_wf p ->
  get blake3 root (fs st) p = Ok (m !! sp_display p)
  /\ has root (fs st) p = bool_decide (is_Some (m !! sp_display p))
  /\ verify blake3 root (fs st) p = Ok (bool_decide (is_Some (m !! sp_display p)))
  /\ query_path_info blake3 root (fs st) p
     = Ok ((fun bs => mk_info (Z.of_nat (length bs)) false (sp_hash p)) <$> m !! sp_display p).
Proof.
  intros Hh Hp. destruct (holds_child st m Hh) as (cs & Hd & Hc).
  assert (forall bs, m !! sp_display p = Some bs -> blake3 bs = sp_hash p) as Hb.
  { intros bs Hm. apply (hd_keys _ _ Hh) in Hm as (q & Hq & He & Hb).
    apply display_inj in He as <-; done. }
  unfold get, has, verify, query_path_info, is_dir, path_exists, fs_read, locate.
  rewrite (root_child root (fs st) cs (sp_display p) Hd), Hc.
  destruct (m !! sp_display p) as [bs|] eqn:Hm; cbn [fmap option_fmap option_map ok_or mbind res_bind not_found].
  - rewrite (Hb bs eq_refl), !bool_decide_true by (done || by eexists). done.
  - rewrite bool_decide_false by (by intros []). done.
Qed.
End Store.

Section Listing.
Context (blake3 : list byte -> list byte) (root : list (list Z)).

Lemma tmp_not_prefix p : sp_wf p -> is_prefix TMP (sp_display p) = false.
Proof.
  intros Hp. apply bool_decide_eq_false. intros [s H]. destruct (display_head p Hp) as (c & t & Hd & Hc).
  rewrite Hd in H. injection H as -> _. lia.
Qed.

Lemma list_entries cs acc : (forall e, e ∈ cs -> exists p, sp_wf p /\ e.1 = sp_display p) ->
  exists l, foldM (E := StoreError) (fun paths e => if is_prefix TMP e.1 then Ok paths
              else p ← sp_parse e.1; Ok (paths ++ [p])) cs acc = Ok (acc ++ l)
    /\ Forall2 (fun (e : list Z * fnode) p => sp_wf p /\ e.1 = sp_display p) cs l.
Proof.
  revert acc. induction cs as [|e cs IH]; intros acc He; cbn [foldM].
  { exists []. split; [by rewrite app_nil_r|constructor]. }
  destruct (He e) as (p & Hp & Hd); [left|]. rewrite Hd, tmp_not_prefix, parse_display by done.
  cbn [mbind res_bind]. destruct (IH (acc ++ [p])) as (l & -> & Hl); [intros; apply He; by right|].
  exists (p :: l). split; [by rewrite <- app_assoc|]. by constructor.
Qed.

Lemma list_paths_spec st m : holds blake3 root st m ->
  exists l, list_paths root (fs st) = Ok l /\ NoDup l
    /\ forall p, p ∈ l <-> sp_wf p /\ is_Some (m !! sp_display p).
Proof.
  intros [(cs & Hd & Hnd & Hc) Hk]. unfold list_paths, read_dir. rewrite Hd. cbn [mbind res_bind io map_err].
  destruct (list_entries cs []) as (l & -> & Hl).
  { intros [x c] Hin. apply Hc in Hin as (bs & _ & Hm). apply Hk in Hm as (p & Hp & He & _). by exists p. }
  exists l. split; [done|]. assert (names cs = sp_display <$> l) as Hn.
  { unfold names. clear Hd Hnd Hc. induction Hl as [|e p cs l [_ He] Hl IH]; [done|].
    cbn [fmap list_fmap]. by rewrite He, IH. }
  assert (Forall sp_wf l) as Hwf by (clear Hn Hd Hnd Hc; induction Hl as [|e p cs l [Hp _] Hl IH]; by constructor).
  split; [rewrite Hn in Hnd; by apply NoDup_fmap_1 in Hnd|]. intros p. split.
  - intros Hin. rewrite Forall_forall in Hwf. split; [by apply Hwf|].
    assert (sp_display p ∈ names cs) as Hx by (rewrite Hn; by apply list_elem_of_fmap_2).
    apply list_elem_of_fmap in Hx as ([x c] & He & Hx). cbn [fst] in He. subst x.
    apply Hc in Hx as (bs & _ & ->). by eexists.
  - intros [Hp [bs Hm]]. assert ((sp_display p, File bs) ∈ cs) as Hin by (apply Hc; eauto).
    apply (list_elem_of_fmap_2 fst) in Hin. fold (names cs) in Hin. rewrite Hn in Hin.
    apply list_elem_of_fmap in Hin as (q & He & Hq). cbn [fst] in He. rewrite Forall_forall in Hwf.
    apply display_inj in He as <-; auto.
Qed.

Lemma hex_prefix h p : is_hash h -> sp_wf p -> is_prefix (hex h ++ [45]) (sp_display p) = bool_decide (h = sp_hash p).
Proof.
  intros Hh (Hp & _). unfold is_prefix. apply bool_decide_ext. unfold sp_display. split.
  - intros [k H]. rewrite <- app_assoc in H. apply app_inj_1 in H as [H _]; [by apply hex_inj|].
    rewrite !hex_length. unfold is_hash in *. lia.
  - intros ->. exists (sp_name p). by rewrite <- app_assoc.
Qed.

Lemma has_hash_spec st m h : holds blake3 root st m -> is_hash h ->
  exists b, has_hash root (fs st) h = Ok b
    /\ (b = true <-> exists p, sp_wf p /\ sp_hash p = h /\ is_Some (m !! sp_display p)).
Proof.
  intros [(cs & Hd & Hnd & Hc) Hk] Hh. unfold has_hash, read_dir. rewrite Hd.
  cbn [mbind res_bind io map_err]. eexists. split; [done|]. rewrite existsb_exists. split.
  - intros ([x c] & Hin%list_elem_of_In & Hp). apply Hc in Hin as (bs & -> & Hm).
    pose proof (Hk x bs Hm) as (p & Hwf & -> & _). cbn [fst] in Hp. rewrite hex_prefix in Hp by done.
    apply bool_decide_eq_true in Hp as ->. exists p. split; [done|]. split; [done|]. by eexists.
  - intros (p & Hwf & <- & [bs Hm]). exists (sp_display p, File bs). split.
    + apply list_elem_of_In. apply Hc. eauto.
    + cbn [fst]. rewrite hex_prefix by done. by apply bool_decide_eq_true.
Qed.
End Listing.

(** ** Concrete stores *)

(** The directories [/s] (the store) and [/t] (a source tree). *)
Definition demo_fs (t : list (list Z * fnode)) : store_state :=
  mk_store (Dir [([115], Dir []); ([116], Dir t)]) 0.

Definition demo_hash (bs : list byte) : list byte := take 32 (bs ++ replicate 32 x00).

(** A tree and a blob with the same key: whichever comes second is not
    stored, and its path answers for the first. *)
Lemma tree_blob_confusion :
  let st0 := demo_fs [([97], File [x07])] in
  let blob := tree_bytes [([97], [x07])] in
  exists p st1 st2,
    add_tree demo_hash [[115]] 1 [120] [[116]] st0 = (Ok p, st1)
    /\ add demo_hash [[115]] 1 [120] blob st1 = (Ok p, st2)
    /\ get demo_hash [[115]] (fs st2) p = Err IsTree
    /\ verify demo_hash [[115]] (fs st2) p = Ok true.
Proof.
  cbv zeta. eexists _, _, _. split; [vm_compute; reflexivity|]. split; [vm_compute; reflexivity|].
  split; vm_compute; reflexivity.
Qed.

(** A file named [\e] of the source tree is written to [/e], outside the
    store, and the published tree does not hash to its path. *)
Lemma tree_escapes :
  let st0 := demo_fs [([92; 101], File [x07])] in
  exists p st1,
    add_tree demo_hash [[115]] 1 [120] [[116]] st0 = (Ok p, st1)
    /\ fs_read [[101]] (fs st0) = Err "NotFound"%string
    /\ fs_read [[101]] (fs st1) = Ok [x07]
    /\ verify demo_hash [[115]] (fs st1) p = Err StoreHashMismatch.
Proof.
  cbv zeta. eexists _, _. split; [vm_compute; reflexivity|]. split; [vm_compute; reflexivity|].
  split; vm_compute; reflexivity.
Qed.

(** * Theorems *)


(** On a store that holds the blobs of a map, every query agrees with the
    map and none reports corruption: [get] returns the bytes, [has] and
    [verify] tell presence, [query_path_info] gives length and hash, the
    listing has each path once, and [has_hash] finds a hash under any name. *)
Theorem store_reads (blake3 : list byte -> list byte) (root : list (list Z)) (st : store_state)
    (m : gmap (list Z) (list byte)) :
  holds blake3 root st m ->
  (forall p, sp_wf p ->
     get blake3 root (fs st) p = Ok (m !! sp_display p)
     /\ has root (fs st) p = bool_decide (is_Some (m !! sp_display p))
     /\ verify blake3 root (fs st) p = Ok (bool_decide (is_Some (m !! sp_display p)))
     /\ query_path_info blake3 root (fs st) p
        = Ok ((fun bs => mk_info (Z.of_nat (length bs)) false (sp_hash p)) <$> m !! sp_display p))
  /\ (exists l, list_paths root (fs st) = Ok l /\ NoDup l
        /\ forall p, p ∈ l <-> sp_wf p /\ is_Some (m !! sp_display p))
  /\ (forall h, is_hash h -> exists b, has_hash root (fs st) h = Ok b
        /\ (b = true <-> exists p, sp_wf p /\ sp_hash p = h /\ is_Some (m !! sp_display p))).
Proof.
  intros Hh. split; [intros p Hp; by apply reads_spec|]. split; [by eapply list_paths_spec|].
  intros h Hlen. by eapply has_hash_spec.
Qed.

(** A store just opened. *)
Definition demo_root : list (list Z) := [[115]].
Definition demo_empty : store_state := (open_at demo_root (mk_store (Dir []) 0)).2.

Lemma demo_holds : holds demo_hash demo_root demo_empty ∅.
Proof.
  split.
  - exists []. split; [reflexivity|]. split; [constructor|]. intros x c.
    split; [by intros ?%elem_of_nil|]. intros (bs & _ & H). by rewrite lookup_empty in H.
  - intros x bs H. by rewrite lookup_empty in H.
Qed.

Lemma demo_hash_length bs : is_hash (demo_hash bs).
Proof. unfold is_hash, demo_hash. rewrite length_take, length_app, length_replicate. lia. Qed.

Definition demo_request : request := mk_request (demo_hash [x07]) [97] [x07].


Lemma store_reads_witness : exists l, list_paths demo_root (fs demo_empty) = Ok l /\ NoDup l
  /\ forall p, p ∈ l <-> sp_wf p /\ is_Some ((∅ : gmap (list Z) (list byte)) !! sp_display p).
Proof. exact (proj1 (proj2 (store_reads demo_hash demo_root demo_empty ∅ demo_holds))). Defined.
