(* ===== verification/Drv.v ===== *)
(** * Derivations ([crates/dnx-drv/src/drv.rs], [error.rs])

    A build description, its byte encoding, the lifting of an attribute set,
    and its realisation: the builder runs in a fresh directory and what it
    leaves at the output paths goes to the store.  Running an external
    program is a parameter, as is [is_link], which tells the symbolic links
    that the file tree does not have. *)
From stdpp Require Import sorting.
From S2P Require Import Prelude Bytes Utf8 Text Codec Error LOPath Port Arena Net Prim StorePath Fs Store.

(** Messages are strings; an I/O error carries its kind. *)
Inductive DrvError : Type :=
| DStore (e : StoreError)
| Spawn (kind : string)
| Build (code : option Z)
| MissingOutput (name : list Z)
| OutputSymlink (name : list Z)
| BadAttrs (message : list Z)
| UnknownBuiltin (name : list Z)
| MissingInput (path : StorePath)
| Decode (message : list Z).

Definition DEFAULT_PATH : str := chars "/usr/bin:/bin".
Definition BUILTIN_PREFIX : str := chars "builtin:".

Record Derivation : Type := mk_drv {
  drv_name : list Z;
  builder : list Z;
  args : list (list Z);
  env : list (list Z * list Z);
  input_srcs : list StorePath;
  outputs : list (list Z)
}.

(** ** The encoding *)

Definition push_len (buf : list byte) (n : nat) : list byte := buf ++ u64_le (Z.of_nat n).
Definition push_str (buf : list byte) (s : str) : list byte := push_len buf (length (utf8 s)) ++ utf8 s.
Definition push_seq (buf : list byte) (items : list (list Z)) : list byte :=
  foldl push_str (push_len buf (length items)) items.

(** [a.hash().cmp(b.hash()).then_with(|| a.name().cmp(b.name()))] is not [Greater]. *)
Definition path_leb (a b : StorePath) : bool :=
  if bool_decide (sp_hash a = sp_hash b) then str_leb (sp_name a) (sp_name b)
  else str_leb (byte_to_Z <$> sp_hash a) (byte_to_Z <$> sp_hash b).

Definition path_le (a b : StorePath) : Prop := path_leb a b = true.

#[export] Instance path_le_dec : RelDecision path_le.
Proof. intros a b. unfold path_le. apply _. Defined.

Definition sort_paths (srcs : list StorePath) : list StorePath := merge_sort path_le srcs.

Definition push_path (buf : list byte) (p : StorePath) : list byte :=
  push_str (push_len buf (length (sp_hash p)) ++ sp_hash p) (sp_name p).

Definition to_bytes (d : Derivation) : list byte :=
  let buf := push_str [] (drv_name d) in
  let buf := push_str buf (builder d) in
  let buf := push_seq buf (args d) in
  let buf := push_len buf (length (env d)) in
  let buf := foldl (fun buf kv => push_str (push_str buf kv.1) kv.2) buf (env d) in
  let srcs := sort_paths (input_srcs d) in
  let buf := push_len buf (length srcs) in
  let buf := foldl push_path buf srcs in
  push_seq buf (outputs d).

(** ** The decoder *)

Section Reader.
Context `{Fmt}.

Definition store_display (e : StoreError) : str :=
  match e with
  | StoreIo e => chars "store io: " ++ io_text e
  | BadName n => chars "invalid store name: " ++ debug_str n
  | StoreHashMismatch => chars "content hash mismatch"
  | IsTree => chars "store path is a tree, not a blob"
  end.

Definition decode_err (m : string) : DrvError := Decode (chars m).

(** A buffer is shorter than 2^64, so an end beyond [usize] is beyond the
    buffer. *)
Definition d_take (n : Z) (c : cursor) : res DrvError (list byte * cursor) :=
  if Z.of_nat (length (cur_bytes c)) <? Z.of_nat (cur_pos c) + n then
    Err (decode_err (if 2 ^ 64 <=? Z.of_nat (cur_pos c) + n then "length overflow"
                     else "unexpected end of input"))
  else take_n (decode_err "unexpected end of input") (Z.to_nat n) c.

(** [usize] has 64 bits: the conversion does not fail. *)
Definition d_len (c : cursor) : res DrvError (Z * cursor) :=
  '(s, c) ← d_take 8 c;
  Ok (le_val s, c).

Definition d_str (c : cursor) : res DrvError (list Z * cursor) :=
  '(n, c) ← d_len c;
  '(s, c) ← d_take n c;
  s ← ok_or (from_utf8 s) (decode_err "invalid utf-8");
  Ok (s, c).

Definition d_counted {A : Type} (read : cursor -> res DrvError (A * cursor)) (c : cursor)
    : res DrvError (list A * cursor) :=
  '(n, c) ← d_len c;
  read_z read n c.

Definition d_seq (c : cursor) : res DrvError (list (list Z) * cursor) := d_counted d_str c.

Definition d_hash (c : cursor) : res DrvError (list byte * cursor) :=
  '(n, c) ← d_len c;
  if negb (n =? 32) then Err (decode_err "hash length is not 32") else d_take 32 c.

Definition d_binding (c : cursor) : res DrvError ((list Z * list Z) * cursor) :=
  '(k, c) ← d_str c;
  '(v, c) ← d_str c;
  Ok ((k, v), c).

Definition d_path (c : cursor) : res DrvError (StorePath * cursor) :=
  '(hash, c) ← d_hash c;
  '(name, c) ← d_str c;
  p ← map_err (fun e => Decode (store_display e)) (sp_new hash name);
  Ok (p, c).

Definition from_bytes (bytes : list byte) : res DrvError Derivation :=
  '(name, c) ← d_str (cur_new bytes);
  '(builder, c) ← d_str c;
  '(args, c) ← d_seq c;
  '(bindings, c) ← d_counted d_binding c;
  '(srcs, c) ← d_counted d_path c;
  '(outputs, c) ← d_seq c;
  _ ← finish (decode_err "trailing bytes") c;
  Ok (mk_drv name builder args (sm_of bindings) srcs outputs).

(** [Display]. *)
Definition drv_display (e : DrvError) : str :=
  match e with
  | DStore e => chars "store: " ++ store_display e
  | Spawn e => chars "builder spawn: " ++ io_text e
  | Build (Some c) => chars "builder failed with exit code " ++ decimal c
  | Build None => chars "builder killed by signal"
  | MissingOutput n => chars "builder produced no output " ++ debug_str n
  | OutputSymlink n => chars "output " ++ debug_str n
      ++ chars " is a symlink; build outputs must be real files"
  | BadAttrs m => chars "invalid derivation attrs: " ++ m
  | UnknownBuiltin n => chars "unknown builtin builder " ++ [34] ++ chars "builtin:" ++ n ++ [34]
  | MissingInput p => chars "input " ++ sp_display p ++ chars " is not in the store"
  | Decode m => chars "malformed derivation bytes: " ++ m
  end.
End Reader.

(** ** From attribute sets *)

Definition find_attr (attrs : list (list Z * PrimValue)) (key : str) : option PrimValue := sm_get key attrs.

Definition as_str (v : PrimValue) : option (list Z) :=
  match v with PStr s => Some s | PPath p => Some p | _ => None end.

(** A name that is one ordinary path component, spelled as it is. *)
Definition is_plain_name (name : str) : bool :=
  match components name with
  | [Normal c] => bool_decide (c = name)
  | _ => false
  end.

Section FromAttrs.
Context `{Fmt}.

Definition not_plain (name : str) : DrvError :=
  BadAttrs (chars "name " ++ debug_str name ++ chars " must be a single normal path component").

Definition require_str (attrs : list (list Z * PrimValue)) (key : str) : res DrvError (list Z) :=
  match find_attr attrs key with
  | Some v => ok_or (as_str v) (BadAttrs (key ++ chars " must be a string"))
  | None => Err (BadAttrs (chars "missing required attr " ++ debug_str key))
  end.

(** An optional list of strings. *)
Definition str_list (attrs : list (list Z * PrimValue)) (key : str) (default : list (list Z))
    : res DrvError (list (list Z)) :=
  match find_attr attrs key with
  | Some (PList xs) =>
      mapMr (fun v => ok_or (as_str v) (BadAttrs (key ++ chars " must be a list of strings"))) xs
  | Some _ => Err (BadAttrs (key ++ chars " must be a list"))
  | None => Ok default
  end.

Definition env_of (attrs : list (list Z * PrimValue)) : list (list Z * list Z) :=
  foldl (fun env kv =>
    if bool_decide (kv.1 = chars "args") || bool_decide (kv.1 = chars "outputs") then env
    else match as_str kv.2 with Some s => sm_insert kv.1 s env | None => env end) [] attrs.

Definition from_attrs (attrs : list (list Z * PrimValue)) : res DrvError Derivation :=
  name ← require_str attrs (chars "name");
  if negb (is_plain_name name) then Err (not_plain name)
  else
    builder ← require_str attrs (chars "builder");
    args ← str_list attrs (chars "args") [];
    outputs ← str_list attrs (chars "outputs") [chars "out"];
    let env := env_of attrs in
    _ ← mapMr (fun out =>
          match sm_get out env with
          | Some _ => Err (BadAttrs (chars "output " ++ debug_str out
                                     ++ chars " collides with an environment key"))
          | None => Ok tt
          end) outputs;
    Ok (mk_drv name builder args env [] outputs).
End FromAttrs.

(** ** JSON *)

Definition json_char (c : Z) : str :=
  if c =? 34 then [92; 34] else if c =? 92 then [92; 92]
  else if c =? 10 then [92; 110] else if c =? 13 then [92; 114] else if c =? 9 then [92; 116]
  else if c =? 8 then [92; 98] else if c =? 12 then [92; 102]
  else if c <? 32 then chars "\u" ++ replicate (4 - length (radix 16 6 c [])) 48 ++ radix 16 6 c []
  else [c].

Definition push_json_str (out s : str) : str := out ++ [34] ++ concat (json_char <$> s) ++ [34].

Definition json_object (map : list (list Z * list Z)) : str :=
  (foldl (fun '(s, i) kv =>
     let s := if (0 <? i)%nat then s ++ [44] else s in
     (push_json_str (push_json_str s kv.1 ++ [58]) kv.2, S i)) ([123], O) map).1 ++ [125].

(** * Building derivations ([crates/dnx-drv/src/drv.rs])

    [instantiate] stores the encoding; [realize] runs the builder in a fresh
    directory and captures what it leaves at the output paths.  Both work on
    the file system of the store. *)

(** [Path::join] on path strings. *)
Definition join_str (base rel : str) : str :=
  match rel with
  | c :: _ => if c =? SLASH then rel else base ++ [SLASH] ++ rel
  | [] => base ++ [SLASH]
  end.

(** Follow components from a directory: each step needs a directory. *)
Fixpoint walk_path (p : list (list Z)) (cs : list Component) (n : fnode) : res string (list (list Z)) :=
  match cs with
  | [] => Ok p
  | c :: cs =>
      d ← fs_get p n;
      match d with
      | Dir _ => walk_path (resolve1 p c) cs n
      | File _ => Err "NotADirectory"%string
      end
  end.

(** The path of an output below the build directory. *)
Definition out_path (temp : list (list Z)) (out : str) (n : fnode) : res string (list (list Z)) :=
  let '(base, cs) := join_rel temp out in walk_path base cs n.

(** [fs::symlink_metadata] of an output: a path string that ends in a slash
    must lead to a directory. *)
Definition out_node (temp : list (list Z)) (out : str) (n : fnode) : res string (list (list Z) * fnode) :=
  p ← out_path temp out n;
  node ← fs_get p n;
  match node, dir_part out with
  | File _, Some _ => Err "NotADirectory"%string
  | _, _ => Ok (p, node)
  end.

(** [std::fs::write] to an output. *)
Definition out_write (temp : list (list Z)) (out : str) (bytes : list byte) (n : fnode) : res string fnode :=
  p ← out_path temp out n;
  write_rel out p bytes n.

(** [str::strip_prefix]. *)
Definition strip_prefix (prefix s : str) : option (list Z) :=
  if bool_decide (prefix `prefix_of` s) then Some (drop (length prefix) s) else None.

(** The file system with the store's counter, and the counter of build
    directories. *)
Record build_state : Type := mk_build { bs_store : store_state; bs_ctr : Z }.

Notation bact := (act build_state DrvError) (only parsing).

Definition on_store {A : Type} (m : act store_state StoreError A) : bact A :=
  zoom bs_store (fun st b => mk_build st (bs_ctr b)) DStore m.
Definition bfs (b : build_state) : fnode := fs (bs_store b).
Definition set_fs (n : fnode) (b : build_state) : build_state :=
  mk_build (mk_store n (counter (bs_store b))) (bs_ctr b).
(** An operation of the file system whose failure is reported as [Spawn]. *)
Definition spawn_fs (f : fnode -> res string fnode) : bact unit :=
  updates (fun b => n ← map_err Spawn (f (bfs b)); Ok (set_fs n b)).

Section Realize.
Context `{Fmt}.
(** The store; the system's temporary directory; an external program, given
    its arguments, environment and directory: its exit code, if it could be
    started, and the file system it leaves; symbolic links. *)
Context (blake3 : list byte -> list byte) (root : list (list Z)) (pid : Z)
  (temp_dir : list (list Z))
  (run : list Z -> list (list Z) -> list (list Z * list Z) -> list (list Z) -> fnode
         -> res string (option Z) * fnode)
  (is_link : list (list Z) -> fnode -> bool).

Definition instantiate (d : Derivation) : sact StorePath :=
  add blake3 root pid (drv_name d ++ chars ".drv") (to_bytes d).

Definition make_temp_dir (d : Derivation) : bact (list (list Z)) :=
  if negb (is_plain_name (drv_name d)) then throw (not_plain (drv_name d))
  else
    n ← (fun b => (Ok (bs_ctr b), mk_build (bs_store b) (wrap 64 (bs_ctr b + 1))));
    let dir := chars "dnx-build-" ++ digits 20 pid [] ++ [45] ++ digits 20 n [] ++ [45] ++ drv_name d in
    _ ← spawn_fs (create_dir_all [] (Normal <$> temp_dir ++ [dir]));
    mret (temp_dir ++ [dir]).

Definition write_outputs (temp : list (list Z)) (outs : list (list Z)) (bytes : list byte) : bact unit :=
  for_each (fun out => spawn_fs (out_write temp out bytes)) outs.

(** The bytes of the sources in canonical order. *)
Definition concat_srcs (srcs : list StorePath) : bact (list byte) :=
  reads (fun b =>
    foldM (fun joined p =>
      bytes ← map_err DStore (get blake3 root (bfs b) p);
      bytes ← ok_or bytes (MissingInput p);
      Ok (joined ++ bytes)) (sort_paths srcs) []).

Definition run_builtin (d : Derivation) (name : str) (temp : list (list Z)) : bact unit :=
  if bool_decide (name = chars "write") then
    text ← pure_act (ok_or (sm_get (chars "text") (env d))
                       (BadAttrs (chars "builtin:write requires a string `text` attr")));
    write_outputs temp (outputs d) (utf8 text)
  else if bool_decide (name = chars "concat") then
    joined ← concat_srcs (input_srcs d);
    write_outputs temp (outputs d) joined
  else if bool_decide (name = chars "json") then
    write_outputs temp (outputs d) (utf8 (json_object (env d)))
  else throw (UnknownBuiltin name).

(** The environment of an external builder: the base path, the derivation's
    own variables, then the output paths. *)
Definition build_env (d : Derivation) (temp : list (list Z)) : list (list Z * list Z) :=
  let at_temp out := join_str ([SLASH] ++ join SLASH temp) out in
  sm_of ([(chars "PATH", DEFAULT_PATH)] ++ env d ++ ((fun out => (out, at_temp out)) <$> outputs d)).

Definition run_external (d : Derivation) (temp : list (list Z)) : bact unit := fun b =>
  let '(status, n) := run (builder d) (args d) (build_env d temp) temp (bfs b) in
  (match status with
   | Ok (Some 0) => Ok tt
   | Ok code => Err (Build code)
   | Err e => Err (Spawn e)
   | Panic => Panic
   | Fuel => Fuel
   end, set_fs n b).

Definition capture (temp : list (list Z)) (out : str) : bact StorePath :=
  '(p, node) ← (fun b => (match out_node temp out (bfs b) with
                          | Ok r => Ok r
                          | Err _ => Err (MissingOutput out)
                          | Panic => Panic
                          | Fuel => Fuel
                          end, b));
  link ← reads (fun b => Ok (is_link p (bfs b)));
  if (link : bool) then throw (OutputSymlink out)
  else
    match node with
    | Dir _ => on_store (add_tree blake3 root pid out p)
    | File bytes => on_store (add blake3 root pid out bytes)
    end.

Fixpoint capture_all (temp : list (list Z)) (outs : list (list Z)) (results : list (list Z * StorePath))
    : bact (list (list Z * StorePath)) :=
  match outs with
  | [] => mret results
  | out :: outs =>
      stored ← capture temp out;
      capture_all temp outs (sm_insert out stored results)
  end.

Definition realize_in (d : Derivation) (temp : list (list Z)) : bact (list (list Z * StorePath)) :=
  _ ← match strip_prefix BUILTIN_PREFIX (builder d) with
      | Some name => run_builtin d name temp
      | None => run_external d temp
      end;
  capture_all temp (outputs d) [].

Definition realize (d : Derivation) : bact (list (list Z * StorePath)) :=
  temp ← make_temp_dir d;
  finally (realize_in d temp) (fun b => set_fs (remove temp (bfs b)) b).
End Realize.
