(* ===== verification/DrvSpec.v ===== *)
(** * Derivations, verified

    The encoding is canonical: what [to_bytes] writes is read back as the
    derivation with its sources sorted, so two derivations have the same
    bytes, and the same store path, exactly when they differ only in the
    order of their sources.  The decoder ends on arbitrary bytes. *)
From stdpp Require Import sorting.
From S2P Require Import Prelude Bytes Utf8 Text Codec Error Prim StorePath Fs Store Drv.

(** ** The encoding of the parts *)

(** A string whose bytes fit a 64-bit length. *)
Definition text (s : list Z) : Prop := Forall scalar s /\ u64_range (Z.of_nat (length (utf8 s))).
Definition enc_str (s : list Z) : list byte := u64_le (Z.of_nat (length (utf8 s))) ++ utf8 s.
Definition counted {A : Type} (valid : A -> Prop) (l : list A) : Prop :=
  u64_range (Z.of_nat (length l)) /\ Forall valid l.
Definition enc_list {A : Type} (enc : A -> list byte) (l : list A) : list byte :=
  u64_le (Z.of_nat (length l)) ++ concat (enc <$> l).
Definition binding (kv : list Z * list Z) : Prop := text kv.1 /\ text kv.2.
Definition enc_binding (kv : list Z * list Z) : list byte := enc_str kv.1 ++ enc_str kv.2.
Definition stored (p : StorePath) : Prop := sp_wf p /\ text (sp_name p).
Definition enc_hash (h : list byte) : list byte := u64_le (Z.of_nat (length h)) ++ h.
Definition enc_path (p : StorePath) : list byte := enc_hash (sp_hash p) ++ enc_str (sp_name p).

(** A derivation as the Rust type guarantees it: strings are UTF-8, keys
    increase, paths are store paths, lengths fit in 64 bits. *)
Record wf_drv (d : Derivation) : Prop := {
  wd_name : text (drv_name d);
  wd_builder : text (builder d);
  wd_args : counted text (args d);
  wd_env : counted binding (env d);
  wd_keys : sm_wf (env d);
  wd_srcs : counted stored (input_srcs d);
  wd_outputs : counted text (outputs d)
}.

(** The canonical form: sources by hash and name. *)
Definition canon (d : Derivation) : Derivation :=
  mk_drv (drv_name d) (builder d) (args d) (env d) (sort_paths (input_srcs d)) (outputs d).

(** ** A reader of JSON objects of strings

    The grammar of RFC 8259 for an object without white space whose values
    are strings; a [\u] escape is one code unit. *)

Definition prepend (c : Z) (r : option (list Z * list Z)) : option (list Z * list Z) :=
  '(s, t) ← r; Some (c :: s, t).

Definition hex4 (a b c d : Z) : option Z :=
  a ← hex_val a; b ← hex_val b; c ← hex_val c; d ← hex_val d;
  Some (a * 4096 + b * 256 + c * 16 + d).

Definition json_escape (e : Z) : option Z :=
  if (e =? 34) || (e =? 92) || (e =? 47) then Some e
  else if e =? 98 then Some 8 else if e =? 102 then Some 12 else if e =? 110 then Some 10
  else if e =? 114 then Some 13 else if e =? 116 then Some 9 else None.

(** The characters of a literal up to its closing quote, and what follows. *)
Fixpoint json_chars (s : list Z) : option (list Z * list Z) :=
  match s with
  | [] => None
  | c :: t =>
      if c =? 34 then Some ([], t)
      else if c =? 92 then
        match t with
        | [] => None
        | e :: t' =>
            if e =? 117 then
              match t' with
              | a :: b :: c :: d :: t => z ← hex4 a b c d; prepend z (json_chars t)
              | _ => None
              end
            else z ← json_escape e; prepend z (json_chars t')
        end
      else if c <? 32 then None else prepend c (json_chars t)
  end.

Definition json_string (s : list Z) : option (list Z * list Z) :=
  match s with c :: t => if c =? 34 then json_chars t else None | [] => None end.

Definition json_member (s : list Z) : option ((list Z * list Z) * list Z) :=
  '(k, s) ← json_string s;
  match s with
  | c :: t => if c =? 58 then '(v, t) ← json_string t; Some ((k, v), t) else None
  | [] => None
  end.

(** The members after the first. *)
Fixpoint json_more (fuel : nat) (s : list Z) : option (list (list Z * list Z)) :=
  match fuel, s with
  | S fuel, c :: t =>
      if c =? 44 then '(kv, t) ← json_member t; kvs ← json_more fuel t; Some (kv :: kvs)
      else if (c =? 125) && bool_decide (t = []) then Some [] else None
  | _, _ => None
  end.

Definition json_read (s : list Z) : option (list (list Z * list Z)) :=
  match s with
  | c :: t =>
      if negb (c =? 123) then None
      else if bool_decide (t = [125]) then Some []
      else '(kv, t) ← json_member t; kvs ← json_more (length t) t; Some (kv :: kvs)
  | [] => None
  end.

(** * Lemmas *)

(** ** The order of sources *)

Lemma bytes_Z_inj (a b : list byte) : byte_to_Z <$> a = byte_to_Z <$> b -> a = b.
Proof. apply list_fmap_eq_inj. intros x y. apply byte_to_Z_inj. Qed.

#[export] Instance path_le_total : Total path_le.
Proof.
  intros a b. unfold path_le, path_leb. rewrite (bool_decide_ext (sp_hash b = sp_hash a) (sp_hash a = sp_hash b)) by done.
  destruct (bool_decide (sp_hash a = sp_hash b)); apply str_leb_total.
Qed.

#[export] Instance path_le_antisym : AntiSymm (=) path_le.
Proof.
  intros [h n] [h' n']. unfold path_le, path_leb. cbn.
  rewrite (bool_decide_ext (h' = h) (h = h')) by done.
  destruct (bool_decide_reflect (h = h')) as [-> |Hne]; intros H1 H2.
  - f_equal. by apply str_leb_antisym.
  - destruct Hne. apply bytes_Z_inj. by apply str_leb_antisym.
Qed.

#[export] Instance path_le_trans : Transitive path_le.
Proof.
  intros [h n] [h' n'] [h'' n'']. unfold path_le, path_leb. cbn.
  destruct (bool_decide_reflect (h = h')) as [-> |H1].
  - destruct (bool_decide_reflect (h' = h'')); [apply str_leb_trans|done].
  - destruct (bool_decide_reflect (h' = h'')) as [-> |H2]; [by rewrite (bool_decide_false _ H1)|].
    destruct (bool_decide_reflect (h = h'')) as [-> |H3]; [|apply str_leb_trans].
    intros Ha Hb. destruct H1. apply bytes_Z_inj. by apply str_leb_antisym.
Qed.

Lemma sort_paths_perm l : sort_paths l ≡ₚ l.
Proof. apply merge_sort_Permutation. Qed.

Lemma sort_paths_unique l l' : sort_paths l = sort_paths l' <-> l ≡ₚ l'.
Proof.
  split; intros H.
  - eapply Permutation_trans; [apply Permutation_sym, sort_paths_perm|]. rewrite H. apply sort_paths_perm.
  - apply (StronglySorted_unique path_le); [apply StronglySorted_merge_sort; apply _|apply StronglySorted_merge_sort; apply _|].
    eapply Permutation_trans; [apply sort_paths_perm|].
    eapply Permutation_trans; [exact H|]. apply Permutation_sym, sort_paths_perm.
Qed.

Lemma sort_paths_idem l : sort_paths (sort_paths l) = sort_paths l.
Proof. apply sort_paths_unique, sort_paths_perm. Qed.

(** Two reads in a row. *)
Lemma read_twice c a b t : rest c = a ++ rest (advance (length a) c) ->
  rest (advance (length a) c) = b ++ t ->
  rest c = (a ++ b) ++ t /\ advance (length b) (advance (length a) c) = advance (length (a ++ b)) c.
Proof. intros -> ->. by rewrite <- (assoc_L (++)), advance_advance, length_app. Qed.

(** ** The writers *)

Lemma push_str_app buf s : push_str buf s = buf ++ enc_str s.
Proof. unfold push_str, push_len, enc_str. by rewrite <- (assoc_L (++)). Qed.

Lemma push_path_app buf p : push_path buf p = buf ++ enc_path p.
Proof. unfold push_path, push_len, enc_path, enc_hash. rewrite push_str_app. by rewrite <- !(assoc_L (++)). Qed.

Lemma push_seq_app buf l : push_seq buf l = buf ++ enc_list enc_str l.
Proof.
  unfold push_seq, push_len, enc_list. rewrite (foldl_write _ _ _ _ push_str_app).
  by rewrite <- (assoc_L (++)).
Qed.

Lemma to_bytes_eq d : to_bytes d =
  enc_str (drv_name d) ++ enc_str (builder d) ++ enc_list enc_str (args d)
  ++ enc_list enc_binding (env d) ++ enc_list enc_path (sort_paths (input_srcs d))
  ++ enc_list enc_str (outputs d).
Proof.
  unfold to_bytes, push_len. cbv zeta. rewrite !push_seq_app, !push_str_app.
  rewrite (foldl_write _ enc_binding) by (intros; rewrite !push_str_app; unfold enc_binding; by rewrite (assoc_L (++))).
  rewrite (foldl_write _ _ _ _ push_path_app). unfold enc_list. by rewrite <- !(assoc_L (++)).
Qed.

(** ** The readers *)

Section Readers.
Context `{F : Fmt}.

Lemma d_take_complete (s : list byte) c t : cur_wf c -> rest c = s ++ t ->
  d_take (Z.of_nat (length s)) c = Ok (s, advance (length s) c).
Proof.
  intros Hw Hr. unfold d_take. pose proof (rest_length c Hw) as Hl. rewrite Hr, length_app in Hl.
  rewrite (proj2 (Z.ltb_ge _ _)) by lia. rewrite Nat2Z.id.
  exact (take_n_complete _ (length s) s c t Hw eq_refl Hr).
Qed.

Lemma d_take_sound n s c c' : cur_wf c -> d_take n c = Ok (s, c') ->
  Z.of_nat (length s) = Z.max n 0 /\ rest c = s ++ rest c' /\ c' = advance (length s) c.
Proof.
  intros Hw H. unfold d_take in H. destruct (_ <? _); [done|].
  destruct (take_n_sound _ _ s c c' Hw H) as (Hl & Hr & ->). split; [lia|]. done.
Qed.

#[export] Instance d_len_complete : CodecComplete u64_range u64_le d_len.
Proof.
  intros z c t Hw Hz Hr. unfold d_len. change 8 with (Z.of_nat 8).
  replace 8%nat with (length (u64_le z)) at 1 by apply le_bytes_length.
  rewrite (d_take_complete _ _ _ Hw Hr). cbn [mbind res_bind]. unfold u64_le.
  rewrite le_val_bytes, Z.mod_small by exact Hz. done.
Qed.

#[export] Instance d_len_sound : CodecSound u64_range u64_le d_len.
Proof.
  intros z c c' Hw H. unfold d_len in H. apply bind_Ok in H as ([s c1] & H & H1).
  injection H1 as <- <-. destruct (d_take_sound _ _ _ _ Hw H) as (Hl & Hr & ->).
  assert (length s = 8%nat) as Hs by lia.
  assert (u64_le (le_val s) = s) as -> by (unfold u64_le; by rewrite <- Hs, le_bytes_val).
  split; [|done]. pose proof (le_val_range s) as Hv. by rewrite Hs in Hv.
Qed.

#[export] Instance d_str_complete : CodecComplete text enc_str d_str.
Proof.
  intros s c t Hw [Hs Hz] Hr. unfold d_str, enc_str in *. read_next (Z.of_nat (length (utf8 s))) Hz Hw Hr.
  rewrite (d_take_complete _ _ _ Hw Hr). cbn [mbind res_bind]. rewrite from_utf8_utf8 by done.
  cbn [ok_or mbind res_bind]. by rewrite advance_advance, length_app.
Qed.

#[export] Instance d_str_sound : CodecSound text enc_str d_str.
Proof.
  intros s c c' Hw H. unfold d_str in H. apply bind_Ok in H as ([n c1] & Hn & H).
  destruct (enc_dec _ _ _ Hw Hn) as (Hz & Hr & ->).
  apply bind_Ok in H as ([bs c2] & Ht & H). apply bind_Ok in H as (s' & Hs & H). injection H as -> <-.
  apply ok_or_Ok, from_utf8_sound in Hs as [Hs <-].
  destruct (d_take_sound _ _ _ _ (cur_wf_advance _ _ _ Hw Hr) Ht) as (Hl & Hr2 & ->).
  unfold u64_range in Hz. assert (Z.of_nat (length (utf8 s)) = n) as Hn' by lia.
  unfold text, enc_str, u64_range. rewrite Hn'. split; [done|].
  rewrite Hr, Hr2, length_app, advance_advance. by rewrite (assoc_L (++)).
Qed.

Section Counted.
Context {A : Type} (valid : A -> Prop) (enc : A -> list byte)
  (read : cursor -> res DrvError (A * cursor)).

Lemma d_counted_complete : CodecComplete valid enc read ->
  CodecComplete (counted valid) (enc_list enc) (d_counted read).
Proof.
  intros Hc l c t Hw [Hn Hv] Hr. unfold d_counted, enc_list in *.
  read_next (Z.of_nat (length l)) Hn Hw Hr. rewrite read_z_eq, Nat2Z.id.
  rewrite (read_n_complete valid enc read l _ [] t Hw Hv Hr).
  by rewrite advance_advance, length_app.
Qed.

Lemma d_counted_sound : CodecSound valid enc read ->
  CodecSound (counted valid) (enc_list enc) (d_counted read).
Proof.
  intros Hc l c c' Hw H. unfold d_counted in H. apply bind_Ok in H as ([n c1] & H & H1).
  destruct (enc_dec _ _ _ Hw H) as (Hn & Hr & ->). rewrite read_z_eq in H1.
  destruct (read_n_sound valid enc read _ _ _ _ _ (cur_wf_advance _ _ _ Hw Hr) H1)
    as (l' & -> & Hl & Hv & Hr1 & -> & _). cbn [app]. unfold u64_range in Hn.
  unfold counted, enc_list, u64_range. assert (Z.of_nat (length l') = n) as -> by lia.
  split; [done|]. rewrite Hr, Hr1, length_app, advance_advance. by rewrite (assoc_L (++)).
Qed.
End Counted.

#[export] Instance d_seq_complete : CodecComplete (counted text) (enc_list enc_str) d_seq :=
  d_counted_complete _ _ _ d_str_complete.
#[export] Instance d_seq_sound : CodecSound (counted text) (enc_list enc_str) d_seq :=
  d_counted_sound _ _ _ d_str_sound.

#[export] Instance d_bindings_complete :
  CodecComplete (counted binding) (enc_list enc_binding) (d_counted d_binding).
Proof.
  apply d_counted_complete. intros [k v] c t Hw [Hk Hv] Hr. unfold d_binding, enc_binding in *. cbn [fst snd] in *.
  read_next k Hk Hw Hr. read_next v Hv Hw Hr. by rewrite advance_advance, length_app.
Qed.

#[export] Instance d_bindings_sound :
  CodecSound (counted binding) (enc_list enc_binding) (d_counted d_binding).
Proof.
  apply d_counted_sound. intros [k v] c c' Hw H. unfold d_binding in H.
  apply bind_Ok in H as ([k' c1] & Hk & H). destruct (enc_dec _ _ _ Hw Hk) as (Hk' & Hr & ->).
  apply bind_Ok in H as ([v' c2] & Hv & H). destruct (enc_dec _ _ _ (cur_wf_advance _ _ _ Hw Hr) Hv) as (Hv' & Hr' & ->).
  injection H as <- <- <-. split; [done|]. unfold enc_binding. cbn [fst snd].
  apply (read_twice _ _ _ _ Hr Hr').
Qed.

#[export] Instance d_hash_complete :
  CodecComplete is_hash enc_hash d_hash.
Proof.
  intros h c t Hw Hh Hr. unfold d_hash, enc_hash, is_hash in *. rewrite Hh in *.
  assert (u64_range (Z.of_nat 32)) as H32 by (unfold u64_range; lia).
  read_next (Z.of_nat 32) H32 Hw Hr. pose proof (d_take_complete h _ t Hw Hr) as Ht.
  rewrite Hh in Ht. change (Z.of_nat 32) with 32 in *. cbn [Z.eqb Pos.eqb negb]. rewrite Ht.
  by rewrite advance_advance, length_app, Hh.
Qed.

#[export] Instance d_hash_sound :
  CodecSound is_hash enc_hash d_hash.
Proof.
  intros h c c' Hw H. unfold d_hash in H. apply bind_Ok in H as ([n c1] & Hn & H).
  destruct (enc_dec _ _ _ Hw Hn) as (Hz & Hr & ->). destruct (Z.eqb_spec n 32) as [Hn32|]; cbn [negb] in H; [subst n|done].
  destruct (d_take_sound _ _ _ _ (cur_wf_advance _ _ _ Hw Hr) H) as (Hl & Hr' & ->).
  unfold enc_hash. replace (Z.of_nat (length h)) with 32 by lia. split; [unfold is_hash; lia|].
  apply (read_twice _ _ _ _ Hr Hr').
Qed.

#[export] Instance d_paths_complete :
  CodecComplete (counted stored) (enc_list enc_path) (d_counted d_path).
Proof.
  apply d_counted_complete. intros [h n] c t Hw [(Hh & Hs & _) Hn] Hr. unfold d_path, enc_path in *.
  cbn [sp_hash sp_name] in *. read_next h Hh Hw Hr. read_next n Hn Hw Hr.
  unfold sp_new. rewrite Hs. cbn [negb map_err mbind res_bind].
  by rewrite advance_advance, length_app.
Qed.

#[export] Instance d_paths_sound :
  CodecSound (counted stored) (enc_list enc_path) (d_counted d_path).
Proof.
  apply d_counted_sound. intros p c c' Hw H. unfold d_path in H.
  apply bind_Ok in H as ([h c1] & Hh & H). destruct (enc_dec _ _ _ Hw Hh) as (Hh' & Hr & ->).
  apply bind_Ok in H as ([n c2] & Hn & H). destruct (enc_dec _ _ _ (cur_wf_advance _ _ _ Hw Hr) Hn) as (Hn' & Hr' & ->).
  apply bind_Ok in H as (q & Hq & H). injection H as -> <-. unfold sp_new in Hq.
  destruct (is_single_component n) eqn:Hs; [|done]. injection Hq as <-.
  split; [split; [split; [done|split; [done|apply Hn']]|done]|]. unfold enc_path. cbn [sp_hash sp_name].
  apply (read_twice _ _ _ _ Hr Hr').
Qed.

(** ** The whole encoding *)

Lemma d_take_total n c : total (d_take n c).
Proof. unfold d_take. total. Qed.
Lemma d_str_total c : total (d_str c).
Proof. unfold d_str, d_len. pose proof d_take_total. total. Qed.
Lemma d_counted_total {A} (read : cursor -> res DrvError (A * cursor)) c :
  (forall c, total (read c)) -> total (d_counted read c).
Proof. intros H. unfold d_counted, d_len. pose proof d_take_total. total. Qed.
Lemma d_path_total c : total (d_path c).
Proof.
  unfold d_path, d_hash, d_len. pose proof d_take_total. pose proof d_str_total. total.
  unfold sp_new. by destruct (negb _).
Qed.

Lemma from_bytes_total bs : total (from_bytes bs).
Proof.
  pose proof d_str_total. pose proof (fun c => d_counted_total d_str c d_str_total).
  pose proof (fun c => d_counted_total d_path c d_path_total).
  assert (forall c, total (d_counted d_binding c)).
  { intros c. apply d_counted_total. intros c'. unfold d_binding. total. }
  unfold from_bytes, d_seq. total.
Qed.

Lemma from_bytes_wf bs d : from_bytes bs = Ok d -> wf_drv d.
Proof.
  intros H. unfold from_bytes in H. pose proof (cur_wf_new bs) as Hw.
  do 6 (apply bind_Ok in H as ([? ?] & Hd & H);
        pose proof (codec_sound_wf _ _ _ _ _ _ Hw Hd) as Hw'; apply (enc_dec _ _ _ Hw) in Hd as [? _];
        clear Hw; rename Hw' into Hw).
  apply bind_Ok in H as (? & _ & H). injection H as <-.
  constructor; try done; [|apply sm_of_wf]. cbn [env].
  match goal with Hb : counted binding ?l |- _ => destruct Hb as [Hn Hb]; rename l into bs' end.
  split.
  - pose proof (sm_of_length bs'). unfold u64_range in *. lia.
  - apply Forall_forall. intros kv Hkv%sm_of_elem. by eapply Forall_forall in Hkv.
Qed.

Lemma from_to_bytes d : wf_drv d -> from_bytes (to_bytes d) = Ok (canon d).
Proof.
  intros [Hn Hb Ha He Hk [Hl Hs] Ho].
  assert (counted stored (sort_paths (input_srcs d))) as Hs'.
  { split; [by rewrite sort_paths_perm|]. by rewrite sort_paths_perm. }
  unfold from_bytes. pose proof (rest_new (to_bytes d)) as Hr. pose proof (cur_wf_new (to_bytes d)) as Hw.
  rewrite to_bytes_eq in Hr at 2. rewrite <- (app_nil_r (enc_list enc_str (outputs d))) in Hr.
  read_next (drv_name d) Hn Hw Hr. read_next (builder d) Hb Hw Hr. read_next (args d) Ha Hw Hr.
  read_next (env d) He Hw Hr. read_next (sort_paths (input_srcs d)) Hs' Hw Hr. read_next (outputs d) Ho Hw Hr.
  unfold finish. rewrite (proj2 (cur_done_rest _ Hw) Hr). cbn [mbind res_bind].
  by rewrite sm_of_sorted.
Qed.

Lemma canon_wf d : wf_drv d -> wf_drv (canon d).
Proof.
  intros [Hn Hb Ha He Hk [Hl Hs] Ho]. constructor; try done. cbn [canon input_srcs].
  split; by rewrite sort_paths_perm.
Qed.

Lemma to_bytes_canon d : to_bytes (canon d) = to_bytes d.
Proof. rewrite !to_bytes_eq. cbn. by rewrite sort_paths_idem. Qed.

Lemma to_bytes_inj d d' : wf_drv d -> wf_drv d' -> to_bytes d = to_bytes d' <-> canon d = canon d'.
Proof.
  intros Hd Hd'. split.
  - intros H. apply from_to_bytes in Hd, Hd'. rewrite H in Hd. congruence.
  - intros H. by rewrite <- to_bytes_canon, H, to_bytes_canon.
Qed.
End Readers.

(** ** JSON *)

Lemma json_control t : Forall (fun c => json_chars (json_char c ++ t) = prepend c (json_chars t)) (seqZ 0 32).
Proof. unfold seqZ. cbn. repeat (apply Forall_cons; split; [reflexivity|]). constructor. Qed.

Lemma json_char_read c t : 0 <= c -> json_chars (json_char c ++ t) = prepend c (json_chars t).
Proof.
  intros Hc. destruct (Z.ltb_spec c 32) as [Hlt|Hge].
  { pose proof (json_control t) as H. rewrite Forall_forall in H. apply H, elem_of_seqZ. lia. }
  unfold json_char. destruct (Z.eqb_spec c 34) as [-> |H1]; [done|].
  destruct (Z.eqb_spec c 92) as [-> |H2]; [done|].
  rewrite !(proj2 (Z.eqb_neq c _)) by lia. rewrite (proj2 (Z.ltb_ge _ _)) by lia. cbn [app json_chars].
  rewrite !(proj2 (Z.eqb_neq c _)) by lia. by rewrite (proj2 (Z.ltb_ge _ _)) by lia.
Qed.

Lemma json_chars_read s t : Forall (fun c => 0 <= c) s ->
  json_chars (concat (json_char <$> s) ++ 34 :: t) = Some (s, t).
Proof.
  induction 1 as [|c s Hc Hs IH]; [done|]. cbn [fmap list_fmap concat]. rewrite <- (assoc_L (++)).
  rewrite json_char_read, IH by done. done.
Qed.

Definition literal (s : list Z) : list Z := [34] ++ concat (json_char <$> s) ++ [34].
Definition member (kv : list Z * list Z) : list Z := literal kv.1 ++ [58] ++ literal kv.2.

Lemma json_member_read kv t : Forall (fun c => 0 <= c) kv.1 -> Forall (fun c => 0 <= c) kv.2 ->
  json_member (member kv ++ t) = Some (kv, t).
Proof.
  intros Hk Hv. unfold json_member, json_string, member, literal. rewrite <- !(assoc_L (++)).
  cbn [app Z.eqb Pos.eqb]. rewrite (json_chars_read kv.1 _ Hk). cbn [mbind option_bind app Z.eqb Pos.eqb].
  rewrite (json_chars_read kv.2 _ Hv). by destruct kv.
Qed.

(** The members after the first, with the closing brace. *)
Definition members (m : list (list Z * list Z)) : list Z := concat ((fun kv => [44] ++ member kv) <$> m).

Lemma json_more_read m fuel : (length m < fuel)%nat ->
  Forall (fun kv => Forall (fun c => 0 <= c) kv.1 /\ Forall (fun c => 0 <= c) kv.2) m ->
  json_more fuel (members m ++ [125]) = Some m.
Proof.
  revert fuel. induction m as [|kv m IH]; intros [|fuel] Hf Hm; try (cbn in Hf; lia); [done|].
  apply Forall_cons in Hm as [[Hk Hv] Hm]. unfold members. cbn [fmap list_fmap concat app].
  rewrite <- !(assoc_L (++)). cbn [json_more Z.eqb Pos.eqb]. rewrite json_member_read by done.
  cbn [mbind option_bind]. rewrite IH; [done| |done]. cbn in Hf. lia.
Qed.

Lemma json_object_eq m : json_object m =
  [123] ++ match m with [] => [] | kv :: m => member kv ++ members m end ++ [125].
Proof.
  assert (forall m s i, (0 < i)%nat ->
    (foldl (fun '(s, i) kv =>
       let s := if (0 <? i)%nat then s ++ [44] else s in
       (push_json_str (push_json_str s kv.1 ++ [58]) kv.2, S i)) (s, i) m).1 = s ++ members m) as H.
  { clear m. induction m as [|kv m IH]; intros s i Hi; cbn [foldl].
    - unfold members. cbn. by rewrite app_nil_r.
    - rewrite (proj2 (Nat.ltb_lt 0 i) Hi). rewrite IH by lia. unfold members. cbn [fmap list_fmap concat].
      unfold push_json_str, member, literal. by rewrite <- !(assoc_L (++)). }
  unfold json_object. destruct m as [|kv m]; [done|]. cbn [foldl]. rewrite H by lia.
  unfold push_json_str, member, literal. cbn [Nat.ltb Nat.leb]. by rewrite <- !(assoc_L (++)).
Qed.

Lemma json_read_object m :
  Forall (fun kv => Forall (fun c => 0 <= c) kv.1 /\ Forall (fun c => 0 <= c) kv.2) m ->
  json_read (json_object m) = Some m.
Proof.
  intros Hm. rewrite json_object_eq. destruct m as [|kv m]; [done|].
  apply Forall_cons in Hm as [[Hk Hv] Hm]. cbn [app json_read Z.eqb Pos.eqb negb].
  rewrite bool_decide_false by (unfold member, literal; rewrite <- !(assoc_L (++)); cbn; congruence).
  rewrite <- (assoc_L (++)), json_member_read by done. cbn [mbind option_bind].
  rewrite json_more_read; [done| |done]. unfold members. rewrite length_app. cbn [length].
  set (f := fun kv => [44] ++ member kv).
  assert (forall kv, 1 <= length (f kv))%nat as H1 by (intros; cbn; lia).
  clearbody f. clear Hk Hv Hm.
  enough (length m <= length (concat (f <$> m)))%nat by lia.
  induction m as [|kv0 m IH]; [cbn; lia|]. rewrite fmap_cons. cbn [concat]. rewrite length_app.
  specialize (H1 kv0). cbn [length]. lia.
Qed.

(** * Theorems *)

(** C19: The encoding of derivations is canonical and total.  Decoding any
    bytes ends with a derivation or a decode error, and what it returns is
    well formed; a well-formed derivation is read back with its sources in
    canonical order; and two derivations have the same bytes, hence the same
    store path, exactly when they agree up to the order of their sources. *)
Theorem drv_codec `{Fmt} :
  (forall bs, total (from_bytes bs))
  /\ (forall bs d, from_bytes bs = Ok d -> wf_drv d)
  /\ (forall d, wf_drv d -> from_bytes (to_bytes d) = Ok (canon d))
  /\ (forall d d', wf_drv d -> wf_drv d' -> to_bytes d = to_bytes d' <->
        (drv_name d, builder d, args d, env d, outputs d)
        = (drv_name d', builder d', args d', env d', outputs d')
        /\ input_srcs d ≡ₚ input_srcs d').
Proof.
  split; [exact from_bytes_total|]. split; [exact from_bytes_wf|]. split; [exact from_to_bytes|].
  intros d d' Hd Hd'. rewrite to_bytes_inj, <- sort_paths_unique by done.
  unfold canon. destruct d, d'; cbn. split; [by intros [= -> -> -> -> -> ->]|]. by intros [[= -> -> -> -> ->] ->].
Qed.

(** The JSON of [builtin:json] is read back: a reader of the RFC 8259
    grammar returns the very environment, whatever characters it has. *)
Theorem json_roundtrip (m : list (list Z * list Z)) :
  Forall (fun kv => Forall (fun c => 0 <= c) kv.1 /\ Forall (fun c => 0 <= c) kv.2) m ->
  json_read (json_object m) = Some m.
Proof. apply json_read_object. Qed.

(** ** Concrete derivations *)

#[local] Instance demo_fmt : Fmt := {| plain c := 32 <=? c; io_text k := chars k |}.

Definition rich : Derivation :=
  mk_drv (chars "rich") (chars "builtin:write") [chars "-c"; chars "echo hi"]
    [(chars "system", chars "x86_64-linux"); (chars "text", chars "hello dnx")]
    [mk_path (replicate 32 x01) (chars "alpha"); mk_path (replicate 32 x02) (chars "beta")]
    [chars "out"; chars "dev"].

Lemma rich_read : from_bytes (to_bytes rich) = Ok rich.
Proof. vm_compute. reflexivity. Qed.

(** A count of 2^64 - 1 runs out of input at once. *)
Lemma huge_count : from_bytes (u64_le 0 ++ u64_le 0 ++ u64_le (2 ^ 64 - 1))
  = Err (decode_err "unexpected end of input").
Proof. vm_compute. reflexivity. Qed.

Lemma rich_wf : wf_drv rich.
Proof. exact (from_bytes_wf _ _ rich_read). Qed.

Lemma drv_codec_witness : from_bytes (to_bytes rich) = Ok (canon rich).
Proof. exact (proj1 (proj2 (proj2 drv_codec)) rich rich_wf). Defined.

Lemma json_roundtrip_witness : json_read (json_object (env rich)) = Some (env rich).
Proof. apply json_roundtrip. repeat (apply Forall_cons; split; [split; repeat (apply Forall_cons; split; [discriminate|]); constructor|]). constructor. Defined.
