(* ===== verification/RealizeSpec.v ===== *)
(** * Builds with builtin builders, verified

    A builtin build is a function of the derivation and of the contents of
    the store: whatever else the file system holds, the outputs are the
    stored result of one computation, the store gains nothing else, and the
    build directory is removed on success and on failure.  An output name
    that is not a plain name breaks this: the builder writes outside the
    build directory before the store refuses the name. *)
From stdpp Require Import sorting.
From S2P Require Import Prelude Bytes Utf8 Text Codec Prim StorePath Fs Store StoreSpec Drv.

(** ** What a builtin computes *)

Section Builtins.
Context (m : gmap (list Z) (list byte)).

(** The bytes of the output, from the contents [m] of the store. *)
Definition builtin_bytes (d : Derivation) (name : list Z) : res DrvError (list byte) :=
  if bool_decide (name = chars "write") then
    utf8 <$> ok_or (sm_get (chars "text") (env d))
               (BadAttrs (chars "builtin:write requires a string `text` attr"))
  else if bool_decide (name = chars "concat") then
    foldM (fun joined p => bytes ← ok_or (m !! sp_display p) (MissingInput p); Ok (joined ++ bytes))
      (sort_paths (input_srcs d)) []
  else if bool_decide (name = chars "json") then Ok (utf8 (json_object (env d)))
  else Err (UnknownBuiltin name).
End Builtins.

(** Neither path is below the other. *)
Definition apart (p q : list (list Z)) : Prop := ~ p `prefix_of` q /\ ~ q `prefix_of` p.

(** * Lemmas *)

Lemma builtin_bytes_total m d name : total (builtin_bytes m d name).
Proof.
  unfold builtin_bytes. destruct (bool_decide _); [by destruct (sm_get _ _)|].
  destruct (bool_decide _); [|by destruct (bool_decide _)]. apply total_foldM. intros s p.
  by destruct (m !! sp_display p).
Qed.


(** ** Frames of the file system *)

Lemma fs_upd_frame f p q n n' : fs_upd f p n = Ok n' -> apart p q -> fs_get q n' = fs_get q n.
Proof.
  revert q n n'. induction p as [|x p IH]; intros q n n' H [Hp Hq].
  { destruct Hp. apply prefix_nil. }
  destruct q as [|y q]; [destruct Hq; apply prefix_nil|].
  destruct n as [|cs]; [done|]. cbn [fs_upd] in H. apply bind_Ok in H as (c & Hc & H).
  apply bind_Ok in H as (c' & Hc' & H). injection H as <-. cbn [fs_get]. apply ok_or_Ok in Hc.
  destruct (decide (y = x)) as [-> |Hne].
  - rewrite child_set_eq, Hc. cbn [ok_or mbind res_bind]. apply (IH q c c' Hc').
    split; intros Hpre; [apply Hp|apply Hq]; by apply prefix_cons.
  - by rewrite child_set_ne.
Qed.

(** The action leaves [q] as it is. *)
Definition keeps {A} (q : list (list Z)) (a : act store_state StoreError A) : Prop :=
  forall st, fs_get q (fs (a st).2) = fs_get q (fs st).

Lemma keeps_bind {A B} q (a : act store_state StoreError A) (k : A -> act store_state StoreError B) :
  keeps q a -> (forall x, keeps q (k x)) -> keeps q (x ← a; k x).
Proof.
  intros Ha Hk st. unfold mbind, act_bind. specialize (Ha st).
  destruct (a st) as [[x|e| |] st']; cbn [snd] in *; [|done..]. rewrite Hk. done.
Qed.

Lemma keeps_catch {A} q (a : act store_state StoreError A) (h : StoreError -> act store_state StoreError A) :
  keeps q a -> (forall e, keeps q (h e)) -> keeps q (catch a h).
Proof.
  intros Ha Hk st. unfold catch. specialize (Ha st).
  destruct (a st) as [[x|e| |] st']; cbn [snd] in *; [done| |done..]. rewrite Hk. done.
Qed.

Lemma keeps_on_fs q (f : fnode -> res string fnode) :
  (forall n n', f n = Ok n' -> fs_get q n' = fs_get q n) -> keeps q (on_fs f).
Proof.
  intros Hf st. unfold on_fs, updates, io. destruct (f (fs st)) as [n|e| |] eqn:E; [|done..].
  cbn. by apply Hf.
Qed.

Section Frame.
Context (blake3 : list byte -> list byte) (root : list (list Z)) (pid : Z) (q : list (list Z)).
Context (Hq : apart root q).

Lemma put_frame x v n n' : fs_put (root ++ [x]) v n = Ok n' -> fs_get q n' = fs_get q n.
Proof. unfold fs_put. rewrite pop_snoc. intros H. by eapply fs_upd_frame. Qed.
Lemma del_frame x n n' : fs_del (root ++ [x]) n = Ok n' -> fs_get q n' = fs_get q n.
Proof. unfold fs_del. rewrite pop_snoc. intros H. by eapply fs_upd_frame. Qed.

Lemma write_atomic_keeps y bytes : keeps q (write_atomic root pid (root ++ [y]) bytes).
Proof.
  set (body := fun staging => _ ← on_fs (write_new staging bytes);
    catch (on_fs (rename staging (root ++ [y]))) (fun e =>
      _ ← discard staging;
      present ← ask (fun n => Ok (path_exists (root ++ [y]) n));
      if (present : bool) then mret tt else throw e)).
  enough (forall x, keeps q (body (root ++ [x]))) as H.
  { intros st. exact (H _ (mk_store (fs st) (wrap 64 (counter st + 1)))). }
  intros x. apply keeps_bind; [|intros _; apply keeps_catch].
  - apply keeps_on_fs. intros n n'. unfold write_new. destruct (path_exists _ n); [done|]. apply put_frame.
  - apply keeps_on_fs. intros n n' H. unfold rename in H. apply bind_Ok in H as (c & _ & H).
    apply bind_Ok in H as ([] & _ & H). apply bind_Ok in H as (n1 & H1 & H).
    apply del_frame in H as ->. by apply put_frame in H1.
  - intros e. apply keeps_bind; [|intros _; apply keeps_bind; [done|intros [|]; done]].
    apply keeps_on_fs. intros n n' [= <-]. unfold remove.
    destruct (fs_del (root ++ [x]) n) eqn:E; [by apply del_frame in E|done..].
Qed.

Lemma add_raw_keeps hash name bytes : keeps q (add_raw blake3 root pid hash name bytes).
Proof.
  unfold add_raw. destruct (negb _); [done|]. apply keeps_bind; [done|]. intros p.
  apply keeps_bind; [done|]. intros present. apply keeps_bind; [|done].
  destruct present; [done|]. apply write_atomic_keeps.
Qed.
End Frame.

Lemma holds_frame blake3 root st st' m : fs_get root (fs st') = fs_get root (fs st) ->
  holds blake3 root st m -> holds blake3 root st' m.
Proof.
  intros Hf [(cs & Hd & H) Hk]. split; [|done]. exists cs. split; [|done]. unfold root_dir in *. congruence.
Qed.

(** ** Plain names *)

Lemma split_no_slash s : Forall (fun c => c <> SLASH) s -> split_slash s = [s].
Proof.
  induction 1 as [|c s Hc Hs IH]; [done|]. cbn [split_slash]. rewrite IH.
  by rewrite (proj2 (Z.eqb_neq _ _) Hc).
Qed.

Lemma single_plain x : is_single_component x = true -> components x = [Normal x] /\ dir_part x = None.
Proof.
  unfold is_single_component. intros [Hc Hn]%andb_prop.
  assert (split_slash x = [x]) as Hs.
  { apply split_no_slash. apply Forall_forall. intros c Hx ->. apply negb_true_iff in Hn.
    rewrite <- not_true_iff_false in Hn. apply Hn, existsb_exists. exists SLASH.
    split; [by apply list_elem_of_In|]. by rewrite !orb_true_r. }
  unfold dir_part, components in *. rewrite Hs in *. cbn [last omap list_omap] in *. rewrite app_nil_r in *.
  unfold part_component in *.
  destruct (bool_decide_reflect (x = [])) as [Hx|]; [by rewrite Hx in Hc|].
  destruct (bool_decide_reflect (x = [DOT])) as [Hx|]; [done|]. cbn [orb from_option] in *.
  by destruct (bool_decide (x = [DOT; DOT])).
Qed.

(** ** The build directory *)

Lemma apart_sym p q : apart p q -> apart q p.
Proof. intros [? ?]. by split. Qed.

Lemma apart_below p q x : apart p q -> apart p (q ++ [x]).
Proof.
  intros [Hp Hq]. split.
  - intros [k Hk]. destruct (decide (k = [])) as [-> |Hne].
    + rewrite app_nil_r in Hk. destruct Hq. rewrite <- Hk. by eexists.
    + destruct (exists_last Hne) as (k' & y & ->). rewrite (assoc_L (++)) in Hk.
      apply app_inj_tail in Hk as [-> _]. destruct Hp. by eexists.
  - intros [k ->]. destruct Hq. rewrite <- (assoc_L (++)). by eexists.
Qed.

Lemma spawn_fs_ok f b n : f (bfs b) = Ok n -> spawn_fs f b = (Ok tt, set_fs n b).
Proof. unfold spawn_fs, updates. by intros ->. Qed.

Lemma create_dir_new p cs x n d : fs_get p n = Ok (Dir d) ->
  fs_get (p ++ cs) n = Ok (Dir x) -> forall y, fs_get ((p ++ cs) ++ [y]) n = Err "NotFound"%string ->
  create_dir_all p (Normal <$> cs ++ [y]) n = fs_put ((p ++ cs) ++ [y]) (Dir []) n.
Proof.
  revert p d. induction cs as [|z cs IH]; intros p d Hp Hcs y Hy.
  - rewrite app_nil_r in *. cbn [fmap list_fmap app create_dir_all resolve1]. rewrite Hy.
    by destruct (fs_put (p ++ [y]) (Dir []) n).
  - cbn [app fmap list_fmap create_dir_all resolve1].
    rewrite (cons_middle z p cs), (assoc_L (++) p [z] cs) in *.
    assert (exists d', fs_get (p ++ [z]) n = Ok (Dir d')) as [d' Hd'].
    { rewrite fs_get_app in Hcs. apply bind_Ok in Hcs as ([|d'] & Hd & Hcs); [|by eexists].
      destruct cs; [|done]. cbn in Hcs. congruence. }
    rewrite Hd'. cbn [mbind res_bind]. by eapply IH.
Qed.

Section Builtin.
Context `{Fmt}.
Context (blake3 : list byte -> list byte) (root : list (list Z)) (pid : Z)
  (temp_dir : list (list Z))
  (run : list Z -> list (list Z) -> list (list Z * list Z) -> list (list Z) -> fnode
         -> res string (option Z) * fnode)
  (is_link : list (list Z) -> fnode -> bool).
Context (blake3_length : forall bs, is_hash (blake3 bs)) (Hapart : apart root temp_dir)
  (no_links : forall p n, is_link p n = false).

(** The name of the next build directory. *)
Definition build_name (d : Derivation) (b : build_state) : list Z :=
  chars "dnx-build-" ++ digits 20 pid [] ++ [45] ++ digits 20 (bs_ctr b) [] ++ [45] ++ drv_name d.

(** A state to build from: the store holds [m] and the next build directory
    can be made. *)
Record ready (d : Derivation) (b : build_state) (m : gmap (list Z) (list byte)) : Prop := {
  rd_holds : holds blake3 root (bs_store b) m;
  rd_temp : exists cs, fs_get temp_dir (bfs b) = Ok (Dir cs) /\ child (build_name d b) cs = None
}.

(** The store after the outputs. *)
Definition store_outputs (bytes : list byte) (m : gmap (list Z) (list byte)) (outs : list (list Z)) :=
  foldl (fun m out => (spec_add blake3 m (mk_request (blake3 bytes) out bytes)).2) m outs.

Definition output_paths (bytes : list byte) (outs : list (list Z)) : list (list Z * StorePath) :=
  (fun out => (out, mk_path (blake3 bytes) out)) <$> outs.

Notation good_name out := (is_single_component out = true /\ Forall scalar out).

(** The build directory [p], with entries [cs], next to a store. *)
Record building (p : list (list Z)) (b : build_state) m (cs : list (list Z * fnode)) : Prop := {
  bd_holds : holds blake3 root (bs_store b) m;
  bd_dir : fs_get p (bfs b) = Ok (Dir cs)
}.

Lemma out_path_plain p out n cs : is_single_component out = true -> fs_get p n = Ok (Dir cs) ->
  out_path p out n = Ok (p ++ [out]).
Proof.
  intros Ho Hp. unfold out_path, join_rel. rewrite (proj1 (single_plain out Ho)).
  cbn [walk_path]. rewrite Hp. done.
Qed.

Lemma write_output_ok p b m cs out bytes : apart root p -> building p b m cs ->
  is_single_component out = true -> (forall c, child out cs = Some c -> c = File bytes) ->
  exists b', spawn_fs (out_write p out bytes) b = (Ok tt, b')
    /\ building p b' m (set_child out (File bytes) cs) /\ bs_ctr b' = bs_ctr b.
Proof.
  intros Ha [Hh Hd] Ho Hc. destruct (root_put p (bfs b) cs out (File bytes) Hd) as (n & Hput & Hn).
  exists (set_fs n b). split; [|split; [|done]].
  - apply spawn_fs_ok. unfold out_write, write_rel. rewrite (out_path_plain _ _ _ _ Ho Hd).
    cbn [mbind res_bind]. rewrite (proj2 (single_plain out Ho)). unfold fs_write, is_dir.
    rewrite (root_child p (bfs b) cs out Hd).
    destruct (child out cs) as [c|] eqn:E; [by rewrite (Hc c eq_refl)|done].
  - split; [|exact Hn]. eapply holds_frame; [|exact Hh]. unfold fs_put in Hput. rewrite pop_snoc in Hput.
    apply (fs_upd_frame _ _ root _ _ Hput). by apply apart_sym.
Qed.

Lemma write_outputs_ok p outs bytes b m cs : apart root p -> building p b m cs ->
  Forall (fun out => good_name out) outs -> (forall x c, child x cs = Some c -> c = File bytes) ->
  exists b' cs', write_outputs p outs bytes b = (Ok tt, b') /\ building p b' m cs' /\ bs_ctr b' = bs_ctr b
    /\ forall x, x ∈ outs \/ child x cs = Some (File bytes) -> child x cs' = Some (File bytes).
Proof.
  intros Ha Hb Ho. revert b cs Hb. induction Ho as [|out outs [Ho _] _ IH]; intros b cs Hb Hc.
  { exists b, cs. split; [done|]. split; [done|]. split; [done|]. by intros x [?%elem_of_nil|?]. }
  destruct (write_output_ok p b m cs out bytes Ha Hb Ho (Hc out)) as (b1 & Hw & Hb1 & Hctr).
  destruct (IH b1 _ Hb1) as (b' & cs' & Hw' & Hb' & Hctr' & Hx).
  { intros x c. destruct (decide (x = out)) as [-> |Hne].
    - rewrite child_set_eq. by intros [= <-].
    - rewrite child_set_ne by done. apply Hc. }
  exists b', cs'. split; [|split; [done|split; [congruence|]]].
  - unfold write_outputs. cbn [for_each]. by rewrite (act_bind_Ok _ _ _ _ _ Hw).
  - intros x Hin. apply Hx. destruct (decide (x = out)) as [-> |Hne]; [right; apply child_set_eq|].
    rewrite elem_of_cons in Hin. destruct Hin as [[?|?]|?]; [done|by left|].
    right. by rewrite child_set_ne.
Qed.

Lemma capture_ok p b m cs out bytes : apart root p -> building p b m cs -> good_name out ->
  child out cs = Some (File bytes) ->
  exists b', capture blake3 root pid is_link p out b = (Ok (mk_path (blake3 bytes) out), b')
    /\ building p b' (spec_add blake3 m (mk_request (blake3 bytes) out bytes)).2 cs /\ bs_ctr b' = bs_ctr b.
Proof.
  intros Ha [Hh Hd] [Ho Hs] Hc.
  destruct (add_raw_spec blake3 root pid blake3_length (bs_store b) m (blake3 bytes) out bytes Hh Hs)
    as (st' & Hadd & Hh').
  exists (mk_build st' (bs_ctr b)). split; [|split; [|done]].
  - unfold capture, out_node. rewrite (act_bind_Ok _ _ b (p ++ [out], File bytes) b).
    2:{ rewrite (out_path_plain _ _ _ _ Ho Hd). cbn [mbind res_bind].
        rewrite (root_child p (bfs b) cs out Hd), Hc. cbn [ok_or mbind res_bind].
        by rewrite (proj2 (single_plain out Ho)). }
    unfold reads, throw, pure_act. unfold mbind, act_bind. rewrite no_links. unfold on_store, zoom, add.
    rewrite Hadd. unfold spec_add. cbn [rq_hash rq_name rq_bytes].
    by rewrite bool_decide_true, Ho by done.
  - split; [done|]. cbn [bfs bs_store].
    pose proof (add_raw_keeps blake3 root pid p Ha (blake3 bytes) out bytes (bs_store b)) as Hk.
    rewrite Hadd in Hk. unfold bfs in *. cbn [snd bs_store] in *. congruence.
Qed.

Lemma capture_all_ok p outs bytes b m cs results : apart root p -> building p b m cs ->
  Forall (fun out => good_name out) outs -> Forall (fun out => child out cs = Some (File bytes)) outs ->
  exists b', capture_all blake3 root pid is_link p outs results b
      = (Ok (foldl (fun m kv => sm_insert kv.1 kv.2 m) results (output_paths bytes outs)), b')
    /\ building p b' (store_outputs bytes m outs) cs /\ bs_ctr b' = bs_ctr b.
Proof.
  intros Ha Hb Ho Hc. revert b m results Hb.
  induction Ho as [|out outs Ho _ IH]; intros b m results Hb; [by exists b|].
  apply Forall_cons in Hc as [Hc Hcs].
  destruct (capture_ok p b m cs out bytes Ha Hb Ho Hc) as (b1 & Hcap & Hb1 & Hctr).
  destruct (IH Hcs b1 _ (sm_insert out (mk_path (blake3 bytes) out) results) Hb1) as (b' & Hall & Hb' & Hctr').
  exists b'. split; [|split; [done|congruence]]. cbn [capture_all]. by rewrite (act_bind_Ok _ _ _ _ _ Hcap).
Qed.

(** The sources are read as the contents of the store say. *)
Lemma concat_srcs_ok b m srcs : holds blake3 root (bs_store b) m -> Forall sp_wf srcs ->
  concat_srcs blake3 root srcs b
  = (foldM (fun joined p => bytes ← ok_or (m !! sp_display p) (MissingInput p); Ok (joined ++ bytes))
       (sort_paths srcs) [], b).
Proof.
  intros Hh Hs. unfold concat_srcs, reads. f_equal.
  assert (Forall sp_wf (sort_paths srcs)) as Hs'.
  { eapply Permutation_Forall; [|exact Hs]. symmetry. apply merge_sort_Permutation. }
  clear Hs. generalize ([] : list byte). induction Hs' as [|p l Hp _ IH]; intros acc; [done|]. cbn [foldM].
  destruct (reads_spec blake3 root (bs_store b) m p Hh Hp) as [Hg _]. unfold bfs in *. rewrite Hg.
  cbn [map_err mbind res_bind]. destruct (m !! sp_display p); cbn [ok_or mbind res_bind]; [apply IH|done].
Qed.

Lemma run_builtin_ok p d name b m cs : apart root p -> building p b m cs ->
  Forall sp_wf (input_srcs d) ->
  (exists bytes, builtin_bytes m d name = Ok bytes
     /\ run_builtin blake3 root d name p b = write_outputs p (outputs d) bytes b)
  \/ (exists e, builtin_bytes m d name = Err e /\ run_builtin blake3 root d name p b = (Err e, b)).
Proof.
  intros Ha [Hh Hd] Hs. pose proof (builtin_bytes_total m d name) as Htot. revert Htot.
  unfold run_builtin, builtin_bytes.
  destruct (bool_decide (name = chars "write")).
  { unfold mbind, act_bind, pure_act. destruct (sm_get _ (env d)) as [text|]; cbn; eauto. }
  destruct (bool_decide (name = chars "concat")).
  { unfold mbind, act_bind. rewrite (concat_srcs_ok b m _ Hh Hs).
    destruct (foldM _ _ _) as [bytes|e| |]; try done; eauto. }
  destruct (bool_decide (name = chars "json")); eauto.
Qed.

(** The build directory is there during the build, and gone after it. *)
Lemma make_temp_ok d b m : ready d b m -> is_plain_name (drv_name d) = true ->
  exists b1, make_temp_dir pid temp_dir d b = (Ok (temp_dir ++ [build_name d b]), b1)
    /\ building (temp_dir ++ [build_name d b]) b1 m [] /\ bs_ctr b1 = wrap 64 (bs_ctr b + 1).
Proof.
  intros [Hh (cs & Ht & Hn)] Hp. set (b0 := mk_build (bs_store b) (wrap 64 (bs_ctr b + 1))).
  destruct (root_put temp_dir (bfs b0) cs (build_name d b) (Dir []) Ht) as (n & Hput & Hd).
  exists (set_fs n b0). split; [|split; [|done]].
  - unfold make_temp_dir. rewrite Hp. cbn [negb]. rewrite (act_bind_Ok _ _ b (bs_ctr b) b0 eq_refl).
    fold (build_name d b). rewrite (act_bind_Ok _ _ b0 tt (set_fs n b0)); [done|].
    apply spawn_fs_ok. change (bfs b) with (bfs b0) in Ht. destruct (bfs b0) as [f|ds].
    { exfalso. clear -Ht. by destruct temp_dir. }
    rewrite <- Hput. change (temp_dir ++ [build_name d b]) with (([] ++ temp_dir) ++ [build_name d b]) at 2.
    apply (create_dir_new [] temp_dir cs (Dir ds) ds); [done|exact Ht|].
    cbn [app]. rewrite (root_child temp_dir (Dir ds) cs _ Ht). by rewrite Hn.
  - split; [|unfold bfs; cbn [set_fs bs_store fs]; rewrite (root_child temp_dir n _ _ Hd); by rewrite child_set_eq].
    eapply holds_frame; [|exact Hh]. unfold fs_put in Hput. rewrite pop_snoc in Hput.
    apply (fs_upd_frame _ _ root _ _ Hput). by apply apart_sym.
Qed.

Lemma cleanup_ok x b m cs : building (temp_dir ++ [x]) b m cs ->
  let b' := set_fs (remove (temp_dir ++ [x]) (bfs b)) b in
  holds blake3 root (bs_store b') m /\ fs_get (temp_dir ++ [x]) (bfs b') = Err "NotFound"%string.
Proof.
  intros [Hh Hd]. cbv zeta. rewrite fs_get_app in Hd. apply bind_Ok in Hd as ([|ds] & Ht & Hd); [done|].
  destruct (root_del temp_dir (bfs b) ds x Ht) as (n & Hdel & Hn). unfold remove. rewrite Hdel. split.
  - eapply holds_frame; [|exact Hh]. unfold fs_del in Hdel. rewrite pop_snoc in Hdel.
    apply (fs_upd_frame _ _ root _ _ Hdel). by apply apart_sym.
  - cbn [bfs set_fs bs_store fs]. rewrite (root_child temp_dir n _ x Hn). by rewrite child_del_eq.
Qed.

Lemma realize_builtin_ok d name b m : ready d b m -> is_plain_name (drv_name d) = true ->
  strip_prefix BUILTIN_PREFIX (builder d) = Some name ->
  Forall (fun out => good_name out) (outputs d) -> Forall sp_wf (input_srcs d) ->
  let '(r, b') := realize blake3 root pid temp_dir run is_link d b in
  fs_get (temp_dir ++ [build_name d b]) (bfs b') = Err "NotFound"%string
  /\ match builtin_bytes m d name with
     | Ok bytes => r = Ok (sm_of (output_paths bytes (outputs d)))
         /\ holds blake3 root (bs_store b') (store_outputs bytes m (outputs d))
     | Err e => r = Err e /\ holds blake3 root (bs_store b') m
     | Panic | Fuel => False
     end.
Proof.
  intros Hr Hp Hb Ho Hs. destruct (make_temp_ok d b m Hr Hp) as (b1 & Hm & Hb1 & _).
  set (x := build_name d b) in *. pose proof (apart_below _ _ x Hapart) as Ha.
  assert (exists r b2 cs m2, realize_in blake3 root pid run is_link d (temp_dir ++ [x]) b1 = (r, b2)
    /\ building (temp_dir ++ [x]) b2 m2 cs
    /\ match builtin_bytes m d name with
       | Ok bytes => r = Ok (sm_of (output_paths bytes (outputs d)))
           /\ m2 = store_outputs bytes m (outputs d)
       | Err e => r = Err e /\ m2 = m
       | Panic | Fuel => False
       end) as (r & b2 & cs & m2 & Hin & Hb2 & Hres).
  { unfold realize_in. rewrite Hb.
    destruct (run_builtin_ok _ d name b1 m [] Ha Hb1 Hs) as [(bytes & -> & Hrun)|(e & -> & Hrun)].
    - destruct (write_outputs_ok _ (outputs d) bytes b1 m [] Ha Hb1 Ho) as (b2 & cs & Hw & Hb2 & _ & Hx);
        [done|]. rewrite Hw in Hrun.
      destruct (capture_all_ok _ (outputs d) bytes b2 m cs [] Ha Hb2 Ho) as (b3 & Hc & Hb3 & _).
      { apply Forall_forall. intros out Hout. apply Hx. by left. }
      do 4 eexists. split; [by rewrite (act_bind_Ok _ _ _ _ _ Hrun)|]. by split.
    - exists (Err e), b1, [], m. split; [|done]. unfold mbind, act_bind. by rewrite Hrun. }
  unfold realize. rewrite (act_bind_Ok _ _ _ _ _ Hm). unfold finally. rewrite Hin.
  destruct (cleanup_ok x b2 m2 cs Hb2) as [Hh Hg]. split; [done|].
  destruct (builtin_bytes m d name) as [bytes|e| |]; try done; by destruct Hres as [-> <-].
Qed.
End Builtin.

(** * Theorems *)

(** C15: A build with a builtin builder is a function of the derivation and of
    the contents [m] of the store, for plain output names: [realize] ends,
    leaves no build directory, and either fails as the computation on [m]
    fails, with the store unchanged, or returns for each output the path of
    the computed bytes under the output's name, and the store has gained
    exactly these. *)
Theorem realize_builtin `{Fmt} (blake3 : list byte -> list byte) (root : list (list Z)) (pid : Z)
    (temp_dir : list (list Z))
    (run : list Z -> list (list Z) -> list (list Z * list Z) -> list (list Z) -> fnode
           -> res string (option Z) * fnode)
    (is_link : list (list Z) -> fnode -> bool) (d : Derivation) (name : list Z) (b : build_state)
    (m : gmap (list Z) (list byte)) :
  (forall bs, is_hash (blake3 bs)) -> apart root temp_dir -> (forall p n, is_link p n = false) ->
  ready blake3 root pid temp_dir d b m -> is_plain_name (drv_name d) = true ->
  strip_prefix BUILTIN_PREFIX (builder d) = Some name ->
  Forall (fun out => is_single_component out = true /\ Forall scalar out) (outputs d) ->
  Forall sp_wf (input_srcs d) ->
  let '(r, b') := realize blake3 root pid temp_dir run is_link d b in
  fs_get (temp_dir ++ [build_name pid d b]) (bfs b') = Err "NotFound"%string
  /\ match builtin_bytes m d name with
     | Ok bytes => r = Ok (sm_of (output_paths blake3 bytes (outputs d)))
         /\ holds blake3 root (bs_store b') (store_outputs blake3 bytes m (outputs d))
     | Err e => r = Err e /\ holds blake3 root (bs_store b') m
     | Panic | Fuel => False
     end.
Proof. intros. by apply realize_builtin_ok. Qed.

(** ** Concrete builds *)

#[local] Instance build_fmt : Fmt := {| plain c := 32 <=? c; io_text k := chars k |}.

(** The store [/s] and the temporary directory [/t]. *)
Definition demo_temp : list (list Z) := [[116]].
Definition demo_build : build_state := mk_build (mk_store (Dir [([115], Dir []); ([116], Dir [])]) 0) 0.
Definition no_program (p : list Z) (args : list (list Z)) (e : list (list Z * list Z)) (cwd : list (list Z))
  (n : fnode) : res string (option Z) * fnode := (Err "NotFound"%string, n).

Definition demo_drv (out : list Z) : Derivation :=
  mk_drv (chars "d") (chars "builtin:write") [] [(chars "text", chars "hi")] [] [out].

Lemma demo_ready out : ready demo_hash demo_root 1 demo_temp (demo_drv out) demo_build ∅.
Proof.
  split.
  - apply (holds_frame demo_hash demo_root demo_empty); [reflexivity|exact demo_holds].
  - by exists [].
Qed.

Lemma realize_builtin_witness :
  let '(r, b') := realize demo_hash demo_root 1 demo_temp no_program (fun _ _ => false)
                    (demo_drv (chars "out")) demo_build in
  fs_get (demo_temp ++ [build_name 1 (demo_drv (chars "out")) demo_build]) (bfs b') = Err "NotFound"%string
  /\ r = Ok (sm_of (output_paths demo_hash (utf8 (chars "hi")) [chars "out"]))
  /\ holds demo_hash demo_root (bs_store b') (store_outputs demo_hash (utf8 (chars "hi")) ∅ [chars "out"]).
Proof.
  refine (realize_builtin demo_hash demo_root 1 demo_temp no_program (fun _ _ => false)
    (demo_drv (chars "out")) (chars "write") demo_build ∅ demo_hash_length _ _ (demo_ready _) _ _ _ _).
  - split; intros [k Hk]; discriminate Hk.
  - done.
  - reflexivity.
  - reflexivity.
  - apply Forall_cons. split; [|constructor]. split; [reflexivity|].
    apply (bool_decide_unpack _). vm_compute. exact I.
  - constructor.
Defined.

(** The output name [/e]: the text is written to [/e], then the store refuses
    the name. *)
Lemma output_escapes :
  let '(r, b') := realize demo_hash demo_root 1 demo_temp no_program (fun _ _ => false)
                    (demo_drv (chars "/e")) demo_build in
  from_attrs [(chars "name", PStr (chars "d")); (chars "builder", PStr (chars "builtin:write"));
              (chars "text", PStr (chars "hi")); (chars "outputs", PList [PStr (chars "/e")])]
    = Ok (mk_drv (chars "d") (chars "builtin:write") []
            [(chars "builder", chars "builtin:write"); (chars "name", chars "d"); (chars "text", chars "hi")]
            [] [chars "/e"])
  /\ r = Err (DStore (BadName (chars "/e")))
  /\ fs_read [chars "e"] (bfs b') = Ok (utf8 (chars "hi")).
Proof. vm_compute. by split. Qed.
