(* ===== verification/Daemon.v ===== *)
(** * The build daemon ([crates/dnx-daemon/])

    Its wire protocol, then its state, its requests and its accept loop. *)
From S2P Require Import Prelude Bytes Utf8 Text Codec StorePath Fs Store Drv.

(** * The daemon's wire ([crates/dnx-daemon/src/proto.rs], errors of [lib.rs])

    Length-prefixed frames, requests and responses.  A stream is the bytes
    still to be read from it; writing returns the bytes written. *)

Definition PROTO_VERSION : Z := 1.
Definition MAX_FRAME : Z := 2 ^ 28.

Definition TAG_BUILD : Z := 1.
Definition TAG_STORE_QUERY : Z := 3.
Definition TAG_CACHE_LOOKUP : Z := 4.
Definition TAG_PING : Z := 5.
Definition TAG_SHUTDOWN : Z := 6.
Definition TAG_BUILT : Z := 129.
Definition TAG_STORE_PRESENT : Z := 130.
Definition TAG_CACHE_HIT : Z := 131.
Definition TAG_CACHE_MISS : Z := 132.
Definition TAG_PONG : Z := 133.
Definition TAG_FAILED : Z := 134.

(** ** Errors *)

Inductive DaemonError : Type :=
| EIo (kind : string)
| EFrameTooLarge
| EBadTag
| EProtocol (detail : list Z)
| EBuild (e : DrvError)
| EStore (e : StoreError)
| ENoOutput
| ENotRunning.

Inductive DaemonErrorKind : Type :=
| KIo | KFrameTooLarge | KBadTag | KBuild | KNotFound | KProtocol | KHashMismatch.

(** [kind as u8]. *)
Definition kind_u8 (k : DaemonErrorKind) : Z :=
  match k with
  | KIo => 0 | KFrameTooLarge => 1 | KBadTag => 2 | KBuild => 3 | KNotFound => 4 | KProtocol => 5
  | KHashMismatch => 6
  end.

Definition kind_from_u8 (b : Z) : option DaemonErrorKind :=
  if b =? 0 then Some KIo else if b =? 1 then Some KFrameTooLarge else if b =? 2 then Some KBadTag
  else if b =? 3 then Some KBuild else if b =? 4 then Some KNotFound else if b =? 5 then Some KProtocol
  else if b =? 6 then Some KHashMismatch else None.

Definition error_kind (e : DaemonError) : DaemonErrorKind :=
  match e with
  | EIo _ => KIo
  | EFrameTooLarge => KFrameTooLarge
  | EBadTag => KBadTag
  | EProtocol _ => KProtocol
  | EBuild _ => KBuild
  | EStore _ => KIo
  | ENoOutput => KNotFound
  | ENotRunning => KIo
  end.

Definition from_kind (kind : DaemonErrorKind) (detail : str) : DaemonError :=
  match kind with
  | KFrameTooLarge => EFrameTooLarge
  | KBadTag => EBadTag
  | KNotFound => ENoOutput
  | KHashMismatch => EProtocol detail
  | KBuild => EProtocol detail
  | KProtocol => EProtocol detail
  | KIo => EProtocol detail
  end.

(** [Display]. *)
Definition daemon_display `{Fmt} (e : DaemonError) : str :=
  match e with
  | EIo e => chars "daemon io: " ++ io_text e
  | EFrameTooLarge => chars "frame exceeds MAX_FRAME"
  | EBadTag => chars "unknown protocol tag"
  | EProtocol m => chars "protocol: " ++ m
  | EBuild e => chars "build: " ++ drv_display e
  | EStore e => chars "store: " ++ store_display e
  | ENoOutput => chars "derivation produced no output"
  | ENotRunning => chars "no daemon at socket"
  end.

(** ** Messages *)

Inductive Request : Type :=
| RBuild (drv : list byte)
| RStoreQuery (hash : list byte)
| RCacheLookup (hash : list byte)
| RPing
| RShutdown.

Inductive Response : Type :=
| Built (path : StorePath)
| StorePresent (present : bool)
| CacheHit (blob : list byte)
| CacheMiss
| Pong (version queue_depth built : Z)
| Failed (kind : DaemonErrorKind) (detail : list Z).

(** ** Frames *)

Definition write_frame (body : list byte) : res DaemonError (list byte) :=
  let n := Z.of_nat (length body) in
  if negb (n <? 2 ^ 32) then Err EFrameTooLarge
  else if MAX_FRAME <? n then Err EFrameTooLarge
  else Ok (u32_le n ++ body).

Definition read_frame (s : list byte) : res DaemonError (list byte * list byte) :=
  if (length s <? 4)%nat then Err ENotRunning
  else
    let len := le_val (take 4 s) in
    let s := drop 4 s in
    if MAX_FRAME <? len then Err EFrameTooLarge
    else if Z.of_nat (length s) <? len then Err (EIo "UnexpectedEof")
    else Ok (take (Z.to_nat len) s, drop (Z.to_nat len) s).

(** ** Bodies *)

Definition put_bytes (buf b : list byte) : list byte := buf ++ u32_le (Z.of_nat (length b)) ++ b.

Definition short : DaemonError := EProtocol (chars "frame body too short").
Definition trailing : DaemonError := EProtocol (chars "trailing bytes in frame").

Definition tag_byte (tag : Z) : list byte := [byte_of_Z tag].

Definition encode_request (req : Request) : list byte :=
  match req with
  | RBuild drv => put_bytes (tag_byte TAG_BUILD) drv
  | RStoreQuery h => tag_byte TAG_STORE_QUERY ++ h
  | RCacheLookup h => tag_byte TAG_CACHE_LOOKUP ++ h
  | RPing => tag_byte TAG_PING
  | RShutdown => tag_byte TAG_SHUTDOWN
  end.

Definition request_payload (tag : Z) (c : cursor) : res DaemonError (Request * cursor) :=
  if tag =? TAG_BUILD then '(b, c) ← c_bytes short c; Ok (RBuild b, c)
  else if tag =? TAG_STORE_QUERY then '(h, c) ← c_hash short c; Ok (RStoreQuery h, c)
  else if tag =? TAG_CACHE_LOOKUP then '(h, c) ← c_hash short c; Ok (RCacheLookup h, c)
  else if tag =? TAG_PING then Ok (RPing, c)
  else if tag =? TAG_SHUTDOWN then Ok (RShutdown, c)
  else Err EBadTag.

Definition decode_request (body : list byte) : res DaemonError Request :=
  '(tag, c) ← c_u8 short (cur_new body);
  '(req, c) ← request_payload tag c;
  _ ← finish trailing c;
  Ok req.

Definition encode_response (r : Response) : list byte :=
  match r with
  | Built path => put_bytes (tag_byte TAG_BUILT) (utf8 (sp_display path))
  | StorePresent p => tag_byte TAG_STORE_PRESENT ++ [byte_of_Z (if p then 1 else 0)]
  | CacheHit blob => put_bytes (tag_byte TAG_CACHE_HIT) blob
  | CacheMiss => tag_byte TAG_CACHE_MISS
  | Pong version queue_depth built =>
      tag_byte TAG_PONG ++ u32_le version ++ u32_le queue_depth ++ u32_le built
  | Failed kind detail =>
      put_bytes (tag_byte TAG_FAILED ++ [byte_of_Z (kind_u8 kind)]) (utf8 detail)
  end.

Section Decode.
Context `{Fmt}.

Definition response_payload (tag : Z) (c : cursor) : res DaemonError (Response * cursor) :=
  if tag =? TAG_BUILT then
    '(b, c) ← c_bytes short c;
    s ← ok_or (from_utf8 b) (EProtocol (chars "store path is not utf-8"));
    p ← map_err (fun e => EProtocol (store_display e)) (sp_parse s);
    Ok (Built p, c)
  else if tag =? TAG_STORE_PRESENT then '(z, c) ← c_u8 short c; Ok (StorePresent (negb (z =? 0)), c)
  else if tag =? TAG_CACHE_HIT then '(b, c) ← c_bytes short c; Ok (CacheHit b, c)
  else if tag =? TAG_CACHE_MISS then Ok (CacheMiss, c)
  else if tag =? TAG_PONG then
    '(version, c) ← c_u32 short c;
    '(queue_depth, c) ← c_u32 short c;
    '(built, c) ← c_u32 short c;
    Ok (Pong version queue_depth built, c)
  else if tag =? TAG_FAILED then
    '(k, c) ← c_u8 short c;
    kind ← ok_or (kind_from_u8 k) EBadTag;
    '(b, c) ← c_bytes short c;
    Ok (Failed kind (from_utf8_lossy b), c)
  else Err EBadTag.

Definition decode_response (body : list byte) : res DaemonError Response :=
  '(tag, c) ← c_u8 short (cur_new body);
  '(r, c) ← response_payload tag c;
  _ ← finish trailing c;
  Ok r.
End Decode.

(** ** What is sent *)

Definition valid_request (r : Request) : Prop :=
  match r with
  | RBuild b => short_list b
  | RStoreQuery h | RCacheLookup h => is_hash h
  | RPing | RShutdown => True
  end.

Definition valid_response (r : Response) : Prop :=
  match r with
  | Built p => sp_wf p /\ short_list (utf8 (sp_display p))
  | StorePresent _ | CacheMiss => True
  | CacheHit b => short_list b
  | Pong v q b => u32_range v /\ u32_range q /\ u32_range b
  | Failed _ d => Forall scalar d /\ short_list (utf8 d)
  end.

(** * Lemmas *)

Lemma kind_round k : kind_from_u8 (kind_u8 k) = Some k.
Proof. by destruct k. Qed.
Lemma kind_range k : u8_range (kind_u8 k).
Proof. unfold u8_range. destruct k; cbn; lia. Qed.

Lemma read_frame_app body t w : write_frame body = Ok w -> read_frame (w ++ t) = Ok (body, t).
Proof.
  unfold write_frame. destruct (Z.ltb_spec (Z.of_nat (length body)) (2 ^ 32)) as [H32|]; cbn [negb]; [|done].
  destruct (Z.ltb_spec MAX_FRAME (Z.of_nat (length body))) as [|Hm]; [done|]. intros H.
  assert (w = u32_le (Z.of_nat (length body)) ++ body) as -> by congruence. clear H.
  unfold read_frame. rewrite <- (assoc_L (++)), length_app. unfold u32_le. rewrite le_bytes_length.
  rewrite (proj2 (Nat.ltb_ge _ _)) by lia.
  rewrite (take_app_length' _ _ 4), (drop_app_length' _ _ 4) by by rewrite le_bytes_length.
  rewrite le_val_bytes, Z.mod_small by lia.
  rewrite (proj2 (Z.ltb_ge _ _)) by lia. rewrite length_app, (proj2 (Z.ltb_ge _ _)) by lia.
  by rewrite Nat2Z.id, take_app_length, drop_app_length.
Qed.

Lemma read_frame_Ok s body t : read_frame s = Ok (body, t) ->
  write_frame body = Ok (u32_le (Z.of_nat (length body)) ++ body)
  /\ s = u32_le (Z.of_nat (length body)) ++ body ++ t.
Proof.
  unfold read_frame. destruct (Nat.ltb_spec (length s) 4) as [|H4]; [done|].
  destruct (Z.ltb_spec MAX_FRAME (le_val (take 4 s))) as [|Hm]; [done|].
  destruct (Z.ltb_spec (Z.of_nat (length (drop 4 s))) (le_val (take 4 s))) as [|Hl]; [done|]. intros [= <- <-].
  pose proof (le_val_nonneg (take 4 s)). set (len := le_val (take 4 s)) in *.
  rewrite length_take, (Nat.min_l _ _) by lia. rewrite Z2Nat.id by lia.
  assert (length (take 4 s) = 4%nat) as Ht by (rewrite length_take; lia).
  assert (u32_le len = take 4 s) as -> by (unfold u32_le, len; rewrite <- Ht at 1; apply le_bytes_val).
  split; [|by rewrite !take_drop].
  unfold write_frame. rewrite length_take, (Nat.min_l _ _) by lia. rewrite Z2Nat.id by lia.
  unfold MAX_FRAME in *. rewrite (proj2 (Z.ltb_lt _ _)) by lia. cbn [negb].
  rewrite (proj2 (Z.ltb_ge _ _)) by lia. unfold u32_le, len. by rewrite <- Ht at 1; rewrite le_bytes_val.
Qed.

Lemma read_frame_total s : total (read_frame s).
Proof. unfold read_frame. total. Qed.

(** ** Payloads *)

Definition request_tag (r : Request) : Z :=
  match r with
  | RBuild _ => TAG_BUILD | RStoreQuery _ => TAG_STORE_QUERY | RCacheLookup _ => TAG_CACHE_LOOKUP
  | RPing => TAG_PING | RShutdown => TAG_SHUTDOWN
  end.

Definition enc_request (r : Request) : list byte :=
  match r with
  | RBuild b => enc_bytes b
  | RStoreQuery h | RCacheLookup h => h
  | RPing | RShutdown => []
  end.

Lemma encode_request_eq r : encode_request r = [byte_of_Z (request_tag r)] ++ enc_request r.
Proof. by destruct r. Qed.

Definition response_tag (r : Response) : Z :=
  match r with
  | Built _ => TAG_BUILT | StorePresent _ => TAG_STORE_PRESENT | CacheHit _ => TAG_CACHE_HIT
  | CacheMiss => TAG_CACHE_MISS | Pong _ _ _ => TAG_PONG | Failed _ _ => TAG_FAILED
  end.

Definition enc_response (r : Response) : list byte :=
  match r with
  | Built p => enc_bytes (utf8 (sp_display p))
  | StorePresent p => [byte_of_Z (if p then 1 else 0)]
  | CacheHit b => enc_bytes b
  | CacheMiss => []
  | Pong v q b => u32_le v ++ u32_le q ++ u32_le b
  | Failed k d => [byte_of_Z (kind_u8 k)] ++ enc_bytes (utf8 d)
  end.

Lemma encode_response_eq r : encode_response r = [byte_of_Z (response_tag r)] ++ enc_response r.
Proof. by destruct r. Qed.

Lemma tag_range r : u8_range (request_tag r).
Proof. by destruct r. Qed.
Lemma response_tag_range r : u8_range (response_tag r).
Proof. by destruct r. Qed.

(** Decide the tests of known tags. *)
Ltac known_tag :=
  unfold TAG_BUILD, TAG_STORE_QUERY, TAG_CACHE_LOOKUP, TAG_PING, TAG_SHUTDOWN, TAG_BUILT,
    TAG_STORE_PRESENT, TAG_CACHE_HIT, TAG_CACHE_MISS, TAG_PONG, TAG_FAILED; kind_tests.

(** The cases of a tag test. *)
Ltac tag_cases H :=
  repeat match type of H with
  | context [if ?t =? ?c then _ else _] => destruct (Z.eqb_spec t c) as [-> |_]; [|]
  end.

Lemma request_payload_complete r c t : cur_wf c -> valid_request r -> rest c = enc_request r ++ t ->
  request_payload (request_tag r) c = Ok (r, advance (length (enc_request r)) c).
Proof.
  intros Hw Hv Hr. unfold request_payload. destruct r as [b|h|h| |]; cbn [request_tag]; known_tag;
    cbn [valid_request enc_request] in *.
  - by rewrite (dec_enc b _ _ Hw Hv Hr).
  - by rewrite (dec_enc h _ _ Hw Hv Hr).
  - by rewrite (dec_enc h _ _ Hw Hv Hr).
  - by rewrite advance_0.
  - by rewrite advance_0.
Qed.

Lemma request_payload_sound tag c r c' : cur_wf c -> request_payload tag c = Ok (r, c') ->
  tag = request_tag r /\ valid_request r /\ rest c = enc_request r ++ rest c'
  /\ c' = advance (length (enc_request r)) c.
Proof.
  intros Hw H. unfold request_payload in H. tag_cases H.
  - apply bind_Ok in H as ([b c1] & H & [= <- <-]). by destruct (enc_dec _ _ _ Hw H) as (? & ? & ?).
  - apply bind_Ok in H as ([b c1] & H & [= <- <-]). by destruct (enc_dec _ _ _ Hw H) as (? & ? & ?).
  - apply bind_Ok in H as ([b c1] & H & [= <- <-]). by destruct (enc_dec _ _ _ Hw H) as (? & ? & ?).
  - injection H as <- <-. by rewrite advance_0.
  - injection H as <- <-. by rewrite advance_0.
  - done.
Qed.

Lemma decode_request_complete r : valid_request r -> decode_request (encode_request r) = Ok r.
Proof.
  intros Hv. unfold decode_request. pose proof (cur_wf_new (encode_request r)) as Hw.
  pose proof (rest_new (encode_request r)) as Hr. rewrite encode_request_eq in Hr at 2.
  pose proof (tag_range r) as Ht. read_next (request_tag r) Ht Hw Hr.
  rewrite <- (app_nil_r (enc_request r)) in Hr. rewrite (request_payload_complete r _ _ Hw Hv Hr).
  cbn [mbind res_bind]. unfold finish.
  by rewrite (proj2 (cur_done_rest _ (cur_wf_advance _ _ _ Hw Hr)) (rest_advance_app _ _ _ Hr)).
Qed.

Lemma decode_request_sound body r : decode_request body = Ok r ->
  valid_request r /\ body = encode_request r.
Proof.
  intros H. unfold decode_request in H. pose proof (cur_wf_new body) as Hw.
  apply bind_Ok in H as ([tag c] & H0 & H). destruct (enc_dec _ _ _ Hw H0) as (_ & Hr & ->).
  apply bind_Ok in H as ([r' c'] & H1 & H). apply bind_Ok in H as ([] & H2 & [= ->]).
  pose proof (cur_wf_advance _ _ _ Hw Hr) as Hw1.
  destruct (request_payload_sound _ _ _ _ Hw1 H1) as (-> & Hv & Hr1 & ->).
  pose proof (cur_wf_advance _ _ _ Hw1 Hr1) as Hw2.
  unfold finish in H2. destruct (cur_done _) eqn:Hd in H2; [|done]. apply (cur_done_rest _ Hw2) in Hd.
  rewrite Hd, app_nil_r in Hr1. rewrite Hr1, rest_new in Hr. split; [done|]. by rewrite encode_request_eq.
Qed.

Section Responses.
Context `{F : Fmt}.

Lemma response_payload_complete r c t : cur_wf c -> valid_response r -> rest c = enc_response r ++ t ->
  response_payload (response_tag r) c = Ok (r, advance (length (enc_response r)) c).
Proof.
  intros Hw Hv Hr. unfold response_payload. destruct r as [p|p|b| |v q b|k d]; cbn [response_tag]; known_tag;
    cbn [valid_response enc_response] in *.
  - destruct Hv as [Hp Hs]. rewrite (dec_enc (utf8 (sp_display p)) _ _ Hw Hs Hr). cbn [mbind res_bind].
    rewrite from_utf8_utf8 by by apply display_scalar. cbn [ok_or mbind res_bind]. by rewrite parse_display.
  - destruct p.
    + by rewrite (dec_enc (valid := u8_range) 1 _ _ Hw ltac:(unfold u8_range; lia) Hr).
    + by rewrite (dec_enc (valid := u8_range) 0 _ _ Hw ltac:(unfold u8_range; lia) Hr).
  - by rewrite (dec_enc b _ _ Hw Hv Hr).
  - by rewrite advance_0.
  - destruct Hv as (H1 & H2 & H3). read_next v H1 Hw Hr. read_next q H2 Hw Hr. read_next b H3 Hw Hr.
    by rewrite !advance_advance, !length_app, Nat.add_assoc.
  - destruct Hv as [Hd Hs]. pose proof (kind_range k) as Hk. read_next (kind_u8 k) Hk Hw Hr.
    rewrite kind_round. cbn [ok_or mbind res_bind]. read_next (utf8 d) Hs Hw Hr.
    unfold from_utf8_lossy. by rewrite from_utf8_utf8, advance_advance.
Qed.

Lemma decode_response_complete r : valid_response r -> decode_response (encode_response r) = Ok r.
Proof.
  intros Hv. unfold decode_response. pose proof (cur_wf_new (encode_response r)) as Hw.
  pose proof (rest_new (encode_response r)) as Hr. rewrite encode_response_eq in Hr at 2.
  pose proof (response_tag_range r) as Ht. read_next (response_tag r) Ht Hw Hr.
  rewrite <- (app_nil_r (enc_response r)) in Hr. rewrite (response_payload_complete r _ _ Hw Hv Hr).
  cbn [mbind res_bind]. unfold finish.
  by rewrite (proj2 (cur_done_rest _ (cur_wf_advance _ _ _ Hw Hr)) (rest_advance_app _ _ _ Hr)).
Qed.

Lemma decode_request_total body : total (decode_request body).
Proof. unfold decode_request, request_payload. total. Qed.

Lemma decode_response_total body : total (decode_response body).
Proof.
  assert (forall b, total (s ← ok_or (from_utf8 b) (EProtocol (chars "store path is not utf-8"));
    map_err (fun e => EProtocol (store_display e)) (sp_parse s))) as Hp.
  { intros b. destruct (from_utf8 b) as [s|] eqn:E; [|done]. apply from_utf8_sound in E as [Hs _].
    pose proof (parse_total s Hs). cbn. by destruct (sp_parse s). }
  assert (forall tag c, total (response_payload tag c)) as Ht; [|unfold decode_response; total].
  intros tag c. unfold response_payload. destruct (tag =? TAG_BUILT).
  - apply total_bind; [total|]. intros [b c1] _. specialize (Hp b).
    destruct (from_utf8 b) as [s|]; [|done]. cbn [ok_or mbind res_bind] in *. by destruct (map_err _ _).
  - total.
Qed.
End Responses.

(** * The build daemon ([crates/dnx-daemon/src/server.rs], [lib.rs])

    The daemon's state is the store it serves, a warm cache of blobs and the
    memo of finished builds.  What it needs of the store and of the build
    step is the class [Realizer]; the instance at the end is the store with
    [Derivation::realize].  A connection is the bytes the client sent and
    whether the reply can be written; the accept loop serves connections one
    after the other. *)

(** The build step the daemon deduplicates, next to the store. *)
Class Realizer (W : Type) : Type := {
  instantiate_in : Derivation -> act W DaemonError StorePath;
  realize_in_store : Derivation -> act W DaemonError StorePath;
  store_has_hash : W -> list byte -> bool
}.

Inductive Shutdown : Type := Requested.

(** A client: the bytes it sent, and whether it still reads. *)
Record conn : Type := mk_conn { c_in : list byte; c_reads : bool }.

Section Daemon.
Context `{Fmt} {W : Type}.

Record Daemon : Type := mk_daemon {
  world : W;
  warm : gmap (list byte) (list byte);
  built : gmap (list byte) StorePath
}.

Definition daemon_new (store : W) : Daemon := mk_daemon store ∅ ∅.
Definition built_count (d : Daemon) : nat := size (built d).

Definition warm_insert (hash blob : list byte) (d : Daemon) : Daemon :=
  match warm d !! hash with
  | Some _ => d
  | None => mk_daemon (world d) (<[hash := blob]> (warm d)) (built d)
  end.

Notation act_d := (act Daemon DaemonError) (only parsing).

Definition on_world {A : Type} (m : act W DaemonError A) : act_d A :=
  zoom world (fun w d => mk_daemon w (warm d) (built d)) id m.

Definition remember (key : list byte) (out : StorePath) : act_d unit :=
  updates (fun d => Ok (mk_daemon (world d) (warm d) (<[key := out]> (built d)))).

Context `{R : Realizer W}.

(** The dedup core, around any build step. *)
Definition build_memo (drv : Derivation) (realize : Derivation -> act W DaemonError StorePath)
    : act_d StorePath :=
  p ← on_world (instantiate_in drv);
  let key := sp_hash p in
  memo ← reads (fun d => Ok (built d !! key));
  match memo with
  | Some out => mret out
  | None =>
      out ← on_world (realize drv);
      _ ← remember key out;
      mret out
  end.

Definition build (drv : Derivation) : act_d StorePath := build_memo drv realize_in_store.

Definition build_wire (drv_bytes : list byte) : act_d StorePath :=
  drv ← pure_act (map_err EBuild (from_bytes drv_bytes));
  build_memo drv realize_in_store.

Definition pong (d : Daemon) : Response := Pong PROTO_VERSION 0 (as_u32 (Z.of_nat (built_count d))).

Definition handle (req : Request) : act_d (Response * option Shutdown) :=
  match req with
  | RBuild drv_bytes =>
      catch (path ← build_wire drv_bytes; mret (Built path, None))
        (fun e => mret (Failed (error_kind e) (daemon_display e), None))
  | RStoreQuery hash => reads (fun d => Ok (StorePresent (store_has_hash (world d) hash), None))
  | RCacheLookup hash =>
      reads (fun d => Ok (match warm d !! hash with Some blob => CacheHit blob | None => CacheMiss end, None))
  | RPing => reads (fun d => Ok (pong d, None))
  | RShutdown => reads (fun d => Ok (pong d, Some Requested))
  end.

(** ** Connections *)

(** The daemon and the bytes written to the client so far. *)
Notation act_c := (act (Daemon * list byte) DaemonError) (only parsing).

Definition on_daemon {A : Type} (m : act_d A) : act_c A := zoom fst (fun d s => (d, s.2)) id m.

(** [write_frame(stream, body)]. *)
Definition send (c : conn) (body : list byte) : act_c unit :=
  w ← pure_act (write_frame body);
  if c_reads c then updates (fun s => Ok (s.1, s.2 ++ w)) else throw (EIo "BrokenPipe").

Definition serve_conn (c : conn) : act_c (option Shutdown) :=
  '(body, _) ← pure_act (read_frame (c_in c));
  req ← pure_act (decode_request body);
  '(r, shutdown) ← on_daemon (handle req);
  _ ← send c (encode_response r);
  mret shutdown.

(** One turn of the accept loop: a failure is reported to the client if that
    is still possible, and the daemon goes on. *)
Definition serve_one (c : conn) (d : Daemon) : res DaemonError (option Shutdown) * (Daemon * list byte) :=
  catch (serve_conn c)
    (fun e s =>
       let '(_, s) := send c (encode_response (Failed (error_kind e) (daemon_display e))) s in
       (Ok None, s)) (d, []).

(** The loop over incoming connections, [inl] where [accept] fails; with the
    replies, the daemon it leaves and why it stopped. *)
Fixpoint accept_loop (incoming : list (string + conn)) (d : Daemon)
    : list (list byte) * Daemon * res DaemonError Shutdown :=
  match incoming with
  | [] => ([], d, Ok Requested)
  | inl kind :: _ => ([], d, Err (EIo kind))
  | inr c :: incoming =>
      match serve_one c d with
      | (Ok (Some s), (d, out)) => ([out], d, Ok s)
      | (Ok None, (d, out)) =>
          let '(outs, d, r) := accept_loop incoming d in (out :: outs, d, r)
      | (Err e, (d, out)) => ([out], d, Err e)
      | (Panic, (d, out)) => ([out], d, Panic)
      | (Fuel, (d, out)) => ([out], d, Fuel)
      end
  end.
End Daemon.
Arguments Daemon : clear implicits.

(** The build step and the store answer: no panic, no endless loop. *)
Class Steady {W : Type} {R : Realizer W} : Prop := {
  steady_inst drv w : total (instantiate_in drv w).1;
  steady_real drv w : total (realize_in_store drv w).1
}.

(** ** Clients *)

Section Client.
Context `{Fmt} {S : Type}.

(** A peer: why the connection failed, or the bytes it answers. *)
Context (peer : string + (list byte -> S -> list byte * S)).

Definition request (req : Request) : act S DaemonError Response := fun s =>
  match peer with
  | inl kind =>
      (if String.eqb kind "NotFound" || String.eqb kind "ConnectionRefused" then Err ENotRunning
       else Err (EIo kind), s)
  | inr answer =>
      match write_frame (encode_request req) with
      | Ok w =>
          let '(out, s) := answer w s in
          ('(body, _) ← read_frame out; decode_response body, s)
      | Err e => (Err e, s)
      | Panic => (Panic, s)
      | Fuel => (Fuel, s)
      end
  end.

Record DaemonStatus : Type := mk_status { st_version : Z; st_queue_depth : Z; st_built : Z }.

Definition daemon_status (s : S) : option DaemonStatus :=
  match (request RPing s).1 with Ok (Pong v q b) => Some (mk_status v q b) | _ => None end.

Definition ping (s : S) : option Z := st_version <$> daemon_status s.

(** The reply the call is about; a failure keeps its kind as far as
    [from_kind] does. *)
Definition expect {A : Type} (req : Request) (want : Response -> option A) : act S DaemonError A :=
  r ← request req;
  match want r with
  | Some a => mret a
  | None => throw (match r with Failed k d => from_kind k d | _ => EBadTag end)
  end.

Definition client_cache_lookup (hash : list byte) : act S DaemonError (option (list byte)) :=
  expect (RCacheLookup hash)
    (fun r => match r with CacheHit blob => Some (Some blob) | CacheMiss => Some None | _ => None end).

Definition client_shutdown : act S DaemonError unit :=
  expect RShutdown (fun r => match r with Pong _ _ _ => Some tt | _ => None end).

Definition store_query (hash : list byte) : act S DaemonError bool :=
  expect (RStoreQuery hash) (fun r => match r with StorePresent p => Some p | _ => None end).

(** [DaemonBuilder]. *)
Definition enqueue_remote (drv : Derivation) : act S DaemonError StorePath :=
  expect (RBuild (to_bytes drv)) (fun r => match r with Built p => Some p | _ => None end).

Definition registered_remote (hash : list byte) (s : S) : bool :=
  match (store_query hash s).1 with Ok p => p | _ => false end.
End Client.

(** ** The store as a realizer *)

(** [primary_output]. *)
Definition primary_output (drv : Derivation) (outs : list (list Z * StorePath)) : option StorePath :=
  match sm_get (chars "out") outs with
  | Some p => Some p
  | None => name ← head (outputs drv); sm_get name (sm_remove (chars "out") outs)
  end.

Section Local.
Context `{Fmt}.
Context (blake3 : list byte -> list byte) (root : list (list Z)) (pid : Z) (temp_dir : list (list Z))
  (run : list Z -> list (list Z) -> list (list Z * list Z) -> list (list Z) -> fnode
         -> res string (option Z) * fnode)
  (is_link : list (list Z) -> fnode -> bool).

Definition drv_act {A : Type} (m : act build_state DrvError A) : act build_state DaemonError A :=
  zoom id (fun s _ => s) EBuild m.

Definition realize_primary (drv : Derivation) : act build_state DaemonError StorePath :=
  outs ← drv_act (realize blake3 root pid temp_dir run is_link drv);
  pure_act (ok_or (primary_output drv outs) ENoOutput).

(** [LocalBuilder::enqueue], [LocalBuilder::registered] and the daemon's own
    scan of the store. *)
Definition enqueue_local : Derivation -> act build_state DaemonError StorePath := realize_primary.

Definition scan_hash (b : build_state) (hash : list byte) : bool :=
  match read_dir root (bfs b) with
  | Ok entries => existsb (fun e => is_prefix (hex hash ++ [45]) e.1) entries
  | _ => false
  end.

Definition store_realizer : Realizer build_state :=
  {| instantiate_in drv := drv_act (on_store (instantiate blake3 root pid drv));
     realize_in_store := realize_primary;
     store_has_hash := scan_hash |}.
End Local.
