(* ===== verification/Answers.v ===== *)
(** * The store and the builder always answer

    No operation on the file system, the store or a build panics, whatever
    the tree and the names; an external program is assumed to end.  This is
    what the daemon needs of its realizer to stay up. *)
From S2P Require Import Prelude Bytes Utf8 Text Codec StorePath Fs Store Drv DrvSpec Daemon.

(** ** The file system *)

Lemma total_fs_get p n : total (fs_get p n).
Proof.
  revert n. induction p as [|x p IH]; intros n; [done|]. cbn [fs_get]. destruct n; [done|].
  destruct (child x _); cbn; auto.
Qed.
Lemma total_fs_upd f p n : total (fs_upd f p n).
Proof.
  revert n. induction p as [|x p IH]; intros n; destruct n as [|cs]; cbn [fs_upd]; try done.
  destruct (child x cs) as [c|]; [|done]. cbn. specialize (IH c). by destruct (fs_upd f p c).
Qed.
#[local] Hint Resolve total_fs_get total_fs_upd : total.

Lemma total_fs_put p v n : total (fs_put p v n).
Proof. unfold fs_put. destruct (pop p) as [[x d]|]; auto with total. Qed.
Lemma total_fs_del p n : total (fs_del p n).
Proof. unfold fs_del. destruct (pop p) as [[x d]|]; auto with total. Qed.
#[local] Hint Resolve total_fs_put total_fs_del : total.

Lemma total_fs_read p n : total (fs_read p n).
Proof. unfold fs_read. total. Qed.
Lemma total_fs_write p b n : total (fs_write p b n).
Proof. unfold fs_write. total. Qed.
Lemma total_write_new p b n : total (write_new p b n).
Proof. unfold write_new. total. Qed.
Lemma total_rename a b n : total (rename a b n).
Proof.
  unfold rename. apply total_bind; [auto with total|]. intros c _. apply total_bind.
  - destruct (fs_get b n) as [[|[|]]| | |], c; done.
  - intros _ _. total.
Qed.
Lemma total_create_dir_all p cs n : total (create_dir_all p cs n).
Proof.
  revert p n. induction cs as [|c cs IH]; intros p n; cbn [create_dir_all]; [done|].
  apply total_bind; [destruct (fs_get _ n) as [[|]| | |]; auto with total|]. auto.
Qed.
#[local] Hint Resolve total_fs_read total_fs_write total_write_new total_rename total_create_dir_all : total.

(** ** The store *)

Lemma total_io {A} (m : res string A) : total m -> total (io m).
Proof. apply total_map_err. Qed.
Lemma steady_on_fs f : (forall n, total (f n)) -> steady (on_fs f).
Proof. intros Hf. unfold on_fs, io. apply steady_updates. intros st. pose proof (Hf (fs st)). total. Qed.
Lemma steady_ask {A} (f : fnode -> res StoreError A) : (forall n, total (f n)) -> steady (ask f).
Proof. intros Hf. apply steady_reads. intros st. apply Hf. Qed.
Lemma total_sp_new h n : total (sp_new h n).
Proof. unfold sp_new. by destruct (negb _). Qed.
Lemma total_write_rel rel dst data n : total (write_rel rel dst data n).
Proof.
  unfold write_rel. destruct (dir_part rel); [|auto with total].
  destruct (fs_get dst n) as [[|]| | |]; done.
Qed.
#[local] Hint Resolve total_io total_sp_new total_write_rel : total.

Section Store.
Context (blake3 : list byte -> list byte) (root : list (list Z)) (pid : Z).

Lemma steady_staging prefix : steady (unique_staging root pid prefix).
Proof. done. Qed.
Lemma steady_discard s : steady (discard s).
Proof. apply steady_on_fs. done. Qed.
#[local] Hint Resolve steady_staging steady_discard : total.

Lemma steady_publish (rename_to : fnode -> res string fnode) staging target :
  (forall n, total (rename_to n)) ->
  steady (catch (on_fs rename_to) (fun e =>
    _ ← discard staging;
    present ← ask (fun n => Ok (path_exists target n));
    if (present : bool) then mret tt else throw e)).
Proof.
  intros Hr. apply steady_catch; [by apply steady_on_fs|]. intros e.
  apply steady_bind; [auto with total|]. intros _. apply steady_bind; [by apply steady_ask|]. by intros [].
Qed.

Lemma steady_write_atomic target bytes : steady (write_atomic root pid target bytes).
Proof.
  apply steady_bind; [done|]. intros s. apply steady_bind; [apply steady_on_fs; auto with total|].
  intros _. apply steady_publish. auto with total.
Qed.

Lemma steady_add_raw hash name bytes : steady (add_raw blake3 root pid hash name bytes).
Proof.
  unfold add_raw. destruct (negb _); [done|]. apply steady_bind; [apply steady_pure, total_sp_new|].
  intros p. apply steady_bind; [by apply steady_ask|]. intros present. apply steady_bind; [|done].
  destruct present; [done|apply steady_write_atomic].
Qed.

Lemma total_tree_contents dir n : total (tree_contents dir n).
Proof.
  unfold tree_contents, collect_files. total. apply total_mapMr. intros x. total.
Qed.

Lemma steady_stage_file staging e : steady (stage_file staging e).
Proof.
  unfold stage_file. destruct (join_rel staging e.1) as [base cs]. apply steady_bind.
  - destruct (pop cs) as [[x parent]|]; [|done]. apply steady_on_fs. auto with total.
  - intros _. apply steady_on_fs. auto with total.
Qed.

Lemma steady_add_tree name dir : steady (add_tree blake3 root pid name dir).
Proof.
  apply steady_bind; [apply steady_ask, total_tree_contents|]. intros contents.
  apply steady_bind; [apply steady_pure, total_sp_new|]. intros p.
  apply steady_bind; [by apply steady_ask|]. intros present. apply steady_bind; [|done].
  destruct present; [done|]. apply steady_bind; [done|]. intros s. apply steady_bind.
  - apply steady_catch; [|intros e; apply steady_bind; [auto with total|done]].
    apply steady_bind; [apply steady_on_fs; auto with total|]. intros _.
    apply steady_for_each. intros e. apply steady_stage_file.
  - intros _. apply steady_publish. auto with total.
Qed.

Lemma total_get n p : total (get blake3 root n p).
Proof.
  unfold get, not_found. destruct (is_dir _ n); [done|]. pose proof (total_fs_read (locate root p) n).
  destruct (fs_read _ n); try done; [by destruct (negb _)|by destruct (String.eqb _ _)].
Qed.
End Store.

(** ** Builds *)

Section Build.
Context `{Fmt}.
Context (blake3 : list byte -> list byte) (root : list (list Z)) (pid : Z) (temp_dir : list (list Z))
  (run : list Z -> list (list Z) -> list (list Z * list Z) -> list (list Z) -> fnode
         -> res string (option Z) * fnode)
  (is_link : list (list Z) -> fnode -> bool).
Context (run_ends : forall p a e cwd n, total (run p a e cwd n).1).

Lemma total_walk_path p cs n : total (walk_path p cs n).
Proof.
  revert p. induction cs as [|c cs IH]; intros p; cbn [walk_path]; [done|].
  apply total_bind; [auto with total|]. intros [|] _; [done|auto].
Qed.

Lemma total_out_path temp out n : total (out_path temp out n).
Proof. unfold out_path. destruct (join_rel temp out). apply total_walk_path. Qed.
#[local] Hint Resolve total_out_path : total.

Lemma steady_spawn_fs f : (forall n, total (f n)) -> steady (spawn_fs f).
Proof. intros Hf. apply steady_updates. intros b. pose proof (Hf (bfs b)). total. Qed.

Lemma steady_write_outputs temp outs bytes : steady (write_outputs temp outs bytes).
Proof.
  apply steady_for_each. intros out. apply steady_spawn_fs. intros n. unfold out_write. total.
Qed.

Lemma steady_run_builtin d name temp : steady (run_builtin blake3 root d name temp).
Proof.
  unfold run_builtin. destruct (bool_decide _).
  { apply steady_bind; [apply steady_pure; auto with total|]. intros text. apply steady_write_outputs. }
  destruct (bool_decide _).
  { apply steady_bind; [|intros; apply steady_write_outputs]. apply steady_reads. intros b.
    apply total_foldM. intros s p. pose proof (total_get blake3 root (bfs b) p). total. }
  destruct (bool_decide _); [apply steady_write_outputs|done].
Qed.

Lemma steady_run_external d temp : steady (run_external run d temp).
Proof.
  intros b. unfold run_external. pose proof (run_ends (builder d) (args d) (build_env d temp) temp (bfs b)) as Hr.
  destruct (run _ _ _ _ _) as [[[[| |]|]|e| |] n]; done.
Qed.

Lemma steady_capture temp out : steady (capture blake3 root pid is_link temp out).
Proof.
  apply steady_bind.
  - intros b. assert (total (out_node temp out (bfs b))) as Ho.
    { unfold out_node. total. }
    destruct (out_node temp out (bfs b)); done.
  - intros [p node]. apply steady_bind; [by apply steady_reads|]. intros [|]; [done|].
    destruct node; apply steady_zoom; [apply steady_add_raw|apply steady_add_tree].
Qed.

Lemma steady_capture_all temp outs results : steady (capture_all blake3 root pid is_link temp outs results).
Proof.
  revert results. induction outs as [|out outs IH]; intros results; cbn [capture_all]; [done|].
  apply steady_bind; [apply steady_capture|auto].
Qed.

Lemma steady_realize d : steady (realize blake3 root pid temp_dir run is_link d).
Proof.
  apply steady_bind.
  - unfold make_temp_dir. destruct (negb _); [done|]. apply steady_bind; [done|]. intros n.
    apply steady_bind; [apply steady_spawn_fs; auto with total|done].
  - intros temp. apply steady_finally. apply steady_bind; [|intros; apply steady_capture_all].
    destruct (strip_prefix _ _); [apply steady_run_builtin|apply steady_run_external].
Qed.

(** The daemon over the store stays up, and identifies a derivation by the
    hash of its encoding. *)
Lemma store_steady : Steady (R := store_realizer blake3 root pid temp_dir run is_link).
Proof.
  split; intros drv w.
  - apply steady_zoom, steady_zoom, steady_add_raw.
  - apply (steady_bind (drv_act _)); [apply steady_zoom, steady_realize|].
    intros outs. apply steady_pure. auto with total.
Qed.

Lemma add_raw_hash hash name bytes st p st' :
  add_raw blake3 root pid hash name bytes st = (Ok p, st') -> sp_hash p = hash.
Proof.
  unfold add_raw. destruct (negb _); [done|]. unfold mbind, act_bind, pure_act, sp_new.
  destruct (negb _); [done|]. cbn. destruct (path_exists _ _); cbn; [by intros [= <- _]|].
  destruct (write_atomic _ _ _ _ _) as [[?|?| |] ?]; [|done..]. by intros [= <- _].
Qed.

Lemma store_inst_key drv w p w' :
  instantiate_in (Realizer := store_realizer blake3 root pid temp_dir run is_link) drv w = (Ok p, w') ->
  sp_hash p = blake3 (to_bytes drv).
Proof.
  cbn [instantiate_in store_realizer]. unfold drv_act, on_store, zoom, instantiate, add. cbn [id].
  destruct (add_raw _ _ _ _ _ _ _) as [[q|e| |] st] eqn:Ha; [|done..].
  intros [= <- _]. by eapply add_raw_hash.
Qed.
End Build.
