(* ===== verification/DaemonSpec.v ===== *)
(** * The daemon, verified

    Compute once, serve many: over any sequence of requests a derivation that
    was built is never built again, and every later request for it gets the
    same path.  A request over the wire has the reply of the handler, or the
    typed failure that replaces it.  The accept loop serves every connection
    until one of them asks it to stop. *)
From S2P Require Import Prelude Bytes Utf8 Text Codec StorePath Fs Store StoreSpec Drv DrvSpec RealizeSpec Daemon Answers.

(** ** Observing the builds *)

Section Counting.
Context {W : Type} (key : Derivation -> list byte) (R : Realizer W).

(** The realizer that also records, for each run of the build step, the key
    of the derivation and whether it succeeded. *)
Definition counting : Realizer (W * list (list byte * bool)) :=
  {| instantiate_in drv := zoom fst (fun w s => (w, s.2)) id (instantiate_in drv);
     realize_in_store drv := fun s =>
       let '(r, w) := realize_in_store drv s.1 in (r, (w, s.2 ++ [(key drv, is_ok r)]));
     store_has_hash s := store_has_hash s.1 |}.
End Counting.

(** Handle requests in turn. *)
Fixpoint handle_all `{Fmt} {W} `{R : Realizer W} (reqs : list Request) (d : Daemon W)
    : list (res DaemonError (Response * option Shutdown)) * Daemon W :=
  match reqs with
  | [] => ([], d)
  | req :: reqs => let '(r, d) := handle req d in let '(rs, d) := handle_all reqs d in (r :: rs, d)
  end.

(** A reply that can be sent in a frame. *)
Definition framed (r : Response) : Prop := Z.of_nat (length (encode_response r)) <= MAX_FRAME.

#[export] Instance framed_dec r : Decision (framed r).
Proof. unfold framed. apply _. Defined.

(** The daemon as a peer of its clients. *)
Definition served `{Fmt} {W} `{R : Realizer W} (w : list byte) (d : Daemon W) : list byte * Daemon W :=
  let '(_, (d', out)) := serve_one (mk_conn w true) d in (out, d').

(** The reply the client sees. *)
Definition sent `{Fmt} (r : Response) : Response :=
  if decide (framed r) then r else Failed KFrameTooLarge (daemon_display EFrameTooLarge).

(** * Lemmas *)

(** The dedup core by cases. *)
Lemma build_memo_eq {W} {R : Realizer W} drv (f : Derivation -> act W DaemonError StorePath) (d : Daemon W) :
  let put w b := mk_daemon w (warm d) b in
  build_memo drv f d =
  match instantiate_in drv (world d) with
  | (Ok p, w) =>
      match built d !! sp_hash p with
      | Some out => (Ok out, put w (built d))
      | None =>
          let '(r, w') := f drv w in
          (r, put w' (match r with Ok out => <[sp_hash p := out]> (built d) | _ => built d end))
      end
  | (Err e, w) => (Err e, put w (built d))
  | (Panic, w) => (Panic, put w (built d))
  | (Fuel, w) => (Fuel, put w (built d))
  end.
Proof.
  cbv zeta. unfold build_memo, on_world, zoom, mbind, act_bind, reads.
  destruct (instantiate_in drv (world d)) as [[p|e| |] w]; cbn; try done.
  destruct (built d !! sp_hash p); [done|]. cbn. destruct (f drv w) as [[out|e| |] w']. all: reflexivity.
Qed.

Section Memo.
Context `{Fmt} {W : Type} (key : Derivation -> list byte) (R : Realizer W).
Context (inst_key : forall drv w p w', instantiate_in (Realizer := R) drv w = (Ok p, w') -> sp_hash p = key drv).
Notation D := (Daemon (W * list (list byte * bool))).
#[local] Existing Instance counting.

Definition log (d : D) : list (list byte * bool) := (world d).2.

(** The memo holds what was built, and what was built is not tried again. *)
Record memo_inv (d : D) : Prop := {
  mi_memo : forall k, is_Some (built d !! k) <-> (k, true) ∈ log d;
  mi_once : forall l1 k l2, log d = l1 ++ (k, true) :: l2 -> k ∉ l2.*1
}.

Definition grows (d d' : D) : Prop := built d ⊆ built d'.

#[local] Instance grows_preorder : PreOrder grows.
Proof. split; [intros d; unfold grows; done|intros d1 d2 d3; unfold grows; apply transitivity]. Qed.

Lemma build_memo_inv drv d : memo_inv d ->
  let '(r, d') := build_memo (R := counting key R) drv
                    (realize_in_store (Realizer := counting key R)) d in
  memo_inv d' /\ grows d d' /\ forall p, r = Ok p -> built d' !! key drv = Some p.
Proof.
  intros [Hm Ho]. rewrite build_memo_eq. unfold log, grows in *. cbn [instantiate_in counting].
  unfold zoom. destruct (instantiate_in drv (world d).1) as [[p|e| |] w1] eqn:Hi; cbn [map_err];
    [|by (split; [by split|split])..].
  apply inst_key in Hi. cbv beta iota. cbn [id]. rewrite Hi.
  destruct (built d !! key drv) as [out|] eqn:Hk.
  { split; [by split|]. split; [done|]. by intros q [= <-]. }
  cbn [realize_in_store counting fst snd]. destruct (realize_in_store drv w1) as [r w2].
  set (l := (world d).2) in *.
  assert (forall b : bool, (forall l1 k l2, l ++ [(key drv, b)] = l1 ++ (k, true) :: l2 -> k ∉ l2.*1)) as Hl.
  { intros b l1 k l2 He. destruct (decide (l2 = [])) as [-> |Hne]; [apply not_elem_of_nil|].
    destruct (exists_last Hne) as (l3 & x & ->).
    rewrite app_comm_cons, (assoc_L (++)) in He. apply app_inj_tail in He as [He <-].
    rewrite fmap_app, not_elem_of_app. split; [by eapply Ho|]. cbn. rewrite list_elem_of_singleton.
    intros ->. assert ((key drv, true) ∈ l) as Hin by (rewrite He; set_solver).
    apply Hm in Hin. rewrite Hk in Hin. by destruct Hin. }
  cbv iota. split; [|split].
  - split; cbn [log world snd built]; [|apply Hl]. intros k.
    rewrite elem_of_app, list_elem_of_singleton, <- Hm. destruct r as [out|e| |]; cbn [is_ok].
    2-4: split; [by left|]; by intros [?|[= ?]].
    destruct (decide (k = key drv)) as [-> |Hne].
    + rewrite lookup_insert_eq. split; [by right|by eexists].
    + rewrite lookup_insert_ne by done. split; [by left|]. by intros [?|[= ?]].
  - cbn [built]. destruct r; [|done..]. by apply insert_subseteq.
  - intros q ->. apply lookup_insert_eq.
Qed.

Lemma handle_inv req d : memo_inv d ->
  let '(r, d') := handle (R := counting key R) req d in
  memo_inv d' /\ grows d d'
  /\ forall b p s, req = RBuild b -> r = Ok (Built p, s) ->
       exists drv, from_bytes b = Ok drv /\ built d' !! key drv = Some p.
Proof.
  intros Hd. destruct req as [b|h|h| |]; cbn [handle]; try (split; [done|split; [done|done]]).
  unfold build_wire, catch, mbind, act_bind, pure_act.
  destruct (from_bytes b) as [drv|e| |] eqn:Hb0; cbn [map_err];
    [|by (split; [|split; [|by intros ??? _ [=]]])..].
  pose proof (build_memo_inv drv d Hd) as Hb.
  destruct (build_memo drv realize_in_store d) as [[p|e| |] d']; destruct Hb as (Hd' & Hg & Hp);
    (split; [done|split; [done|]]); intros b' q s [= <-]; [|by intros [=]..].
  intros [= <- <-]. exists drv. split; [done|]. by apply Hp.
Qed.

Lemma handle_all_inv reqs d : memo_inv d ->
  let '(rs, d') := handle_all (R := counting key R) reqs d in
  memo_inv d' /\ grows d d' /\ length rs = length reqs
  /\ forall i b p s, reqs !! i = Some (RBuild b) -> rs !! i = Some (Ok (Built p, s)) ->
       exists drv, from_bytes b = Ok drv /\ built d' !! key drv = Some p.
Proof.
  revert d. induction reqs as [|req reqs IH]; intros d Hd; cbn [handle_all]; [by split; [|split; [|split]]|].
  pose proof (handle_inv req d Hd) as Hh. destruct (handle req d) as [r d1].
  destruct Hh as (Hd1 & Hg1 & Hp1). specialize (IH d1 Hd1).
  destruct (handle_all reqs d1) as [rs d2]. destruct IH as (Hd2 & Hg2 & Hl & Hp2).
  split; [done|]. split; [by etrans|]. split; [cbn; by rewrite Hl|].
  intros [|i] b p s Hi Hr; cbn in Hi, Hr.
  - injection Hi as ->. injection Hr as ->. destruct (Hp1 b p s eq_refl eq_refl) as (drv & Hf & Hb).
    exists drv. split; [done|]. by eapply lookup_weaken.
  - by apply (Hp2 i b p s).
Qed.
End Memo.

(** ** Over the wire *)

Section Wire.
Context `{Fmt} {W : Type} `{R : Realizer W}.

Lemma write_framed r : framed r ->
  write_frame (encode_response r) = Ok (u32_le (Z.of_nat (length (encode_response r))) ++ encode_response r).
Proof.
  unfold framed, MAX_FRAME, write_frame. intros Hf. rewrite (proj2 (Z.ltb_lt _ _)) by lia. cbn [negb].
  by rewrite (proj2 (Z.ltb_ge _ _)) by (unfold MAX_FRAME; lia).
Qed.

Lemma write_unframed r : ~ framed r -> write_frame (encode_response r) = Err EFrameTooLarge.
Proof.
  unfold framed, MAX_FRAME, write_frame. intros Hf. destruct (negb _); [done|].
  by rewrite (proj2 (Z.ltb_lt _ _)) by (unfold MAX_FRAME; lia).
Qed.

Lemma too_large_framed : framed (Failed KFrameTooLarge (daemon_display EFrameTooLarge)).
Proof. unfold framed, MAX_FRAME. vm_compute. discriminate. Qed.

Lemma too_large_valid : valid_response (Failed KFrameTooLarge (daemon_display EFrameTooLarge)).
Proof.
  split; [apply (bool_decide_unpack _); vm_compute; exact I|].
  unfold short_list, u32_range. vm_compute. by split.
Qed.

(** What the daemon answers to a well-formed frame. *)
Lemma served_frame req w (d : Daemon W) r s d' : valid_request req ->
  write_frame (encode_request req) = Ok w -> handle req d = (Ok (r, s), d') ->
  served w d = ((match write_frame (encode_response (sent r)) with Ok w => w | _ => [] end), d').
Proof.
  intros Hv Hw Hh. unfold served, serve_one, catch, serve_conn, sent. unfold mbind, act_bind, pure_act at 1.
  cbn [c_in]. rewrite <- (app_nil_r w), (read_frame_app _ [] _ Hw). unfold pure_act at 1.
  rewrite (decode_request_complete req Hv). unfold on_daemon, zoom. cbn [fst snd]. rewrite Hh. cbn [map_err].
  unfold send. unfold mbind, act_bind, pure_act. destruct (decide (framed r)) as [Hf|Hf].
  - by rewrite (write_framed r Hf).
  - rewrite (write_unframed r Hf). cbn [error_kind].
    by rewrite (write_framed _ too_large_framed).
Qed.

Lemma request_served req (d : Daemon W) r s d' :
  valid_request req -> Z.of_nat (length (encode_request req)) <= MAX_FRAME ->
  handle req d = (Ok (r, s), d') -> valid_response r ->
  request (inr served) req d = (Ok (sent r), d').
Proof.
  intros Hv Hl Hh Hr. unfold request.
  destruct (write_frame (encode_request req)) as [w| | |] eqn:Hw; unfold write_frame, MAX_FRAME in Hw, Hl;
    rewrite (proj2 (Z.ltb_lt _ _)) in Hw by lia; cbn [negb] in Hw;
    rewrite (proj2 (Z.ltb_ge _ _)) in Hw by lia; try done.
  rewrite (served_frame req w d r s d' Hv) by (done || by (unfold write_frame, MAX_FRAME;
    rewrite (proj2 (Z.ltb_lt _ _)) by lia; cbn [negb]; rewrite (proj2 (Z.ltb_ge _ _)) by lia)).
  assert (framed (sent r) /\ valid_response (sent r)) as [Hf Hvr].
  { unfold sent. destruct (decide (framed r)); [done|]. split; [apply too_large_framed|apply too_large_valid]. }
  pose proof (write_framed (sent r) Hf) as Hws. rewrite Hws.
  rewrite <- (app_nil_r (_ ++ encode_response _)), (read_frame_app _ [] _ Hws). cbn [mbind res_bind].
  by rewrite decode_response_complete.
Qed.

(** ** The accept loop *)

Lemma handle_steady req d `{!Steady} : exists x d', handle req d = (Ok x, d').
Proof.
  destruct req as [b|h|h| |]; cbn [handle]; try by eexists _, _.
  unfold build_wire, catch, mbind, act_bind, pure_act. pose proof (from_bytes_total b) as Hf.
  destruct (from_bytes b) as [drv|e| |]; cbn [map_err]; [|by eexists _, _|done..].
  rewrite build_memo_eq. cbv zeta. pose proof (steady_inst drv (world d)) as Hi.
  destruct (instantiate_in drv (world d)) as [[p|e| |] w]; [|by eexists _, _|done..].
  destruct (built d !! sp_hash p); [by eexists _, _|]. pose proof (steady_real drv w) as Hr.
  destruct (realize_in_store drv w) as [[out|e| |] w']; [by eexists _, _|by eexists _, _|done..].
Qed.

Lemma send_cases c body (s : Daemon W * list byte) :
  (exists s', send c body s = (Ok tt, s') /\ c_reads c = true) \/ exists e s', send c body s = (Err e, s').
Proof.
  unfold send, mbind, act_bind, pure_act, write_frame. destruct (negb _); [by right; eexists _, _|].
  destruct (_ <? _); [by right; eexists _, _|]. destruct (c_reads c); [|by right; eexists _, _].
  left. by eexists.
Qed.

Lemma handle_shutdown req d x d' : handle req d = (Ok (x, Some Requested), d') -> req = RShutdown.
Proof.
  destruct req as [b|h|h| |]; cbn [handle]; try done.
  unfold catch, mbind, act_bind. by destruct (build_wire b d) as [[?|?| |] ?].
Qed.

Lemma serve_conn_cases c d `{!Steady} : exists s,
  (exists o, serve_conn c (d, []) = (Ok o, s)
     /\ (o = Some Requested -> c_reads c = true /\ exists t, read_frame (c_in c) = Ok (encode_request RShutdown, t)))
  \/ exists e, serve_conn c (d, []) = (Err e, s).
Proof.
  unfold serve_conn, mbind, act_bind, pure_act. pose proof (read_frame_total (c_in c)) as Ht.
  destruct (read_frame (c_in c)) as [[body t]|e| |] eqn:Hf; [|by eexists; right; eexists|done..].
  pose proof (decode_request_total body) as Hd.
  destruct (decode_request body) as [req|e| |] eqn:Hreq; [|by eexists; right; eexists|done..].
  unfold on_daemon, zoom. cbn [fst snd].
  destruct (handle_steady req d) as ([r o] & d' & Hh). rewrite Hh. cbn [map_err].
  destruct (send_cases c (encode_response r) (d', [])) as [(s & -> & Hc)|(e & s & ->)]; exists s; [left|right; by eexists].
  exists o. split; [done|]. intros ->. split; [done|]. apply handle_shutdown in Hh as ->.
  apply decode_request_sound in Hreq as [_ ->]. by exists t.
Qed.

(** Every connection is served, and only a request that is answered stops the
    loop. *)
Lemma serve_one_steady c d `{!Steady} : exists o s, serve_one c d = (Ok o, s)
  /\ (o = Some Requested -> c_reads c = true /\ exists t, read_frame (c_in c) = Ok (encode_request RShutdown, t)).
Proof.
  unfold serve_one, catch. destruct (serve_conn_cases c d) as (s & [(o & -> & Ho)|(e & ->)]).
  - by exists o, s.
  - destruct (send c _ s) as [r s']. by exists None, s'.
Qed.
End Wire.

(** * Theorems *)

(** C13: Compute once, serve many.  Whatever requests a fresh daemon handles:
    the build step never runs again for a derivation after a success, so the
    successes have distinct keys and [built_count] is their number; and every
    successful reply to a build request, first or repeated, is the path in
    the memo. *)
Theorem compute_once `{Fmt} {W : Type} (R : Realizer W) (key : Derivation -> list byte) (w : W)
    (reqs : list Request) :
  (forall drv w p w', instantiate_in (Realizer := R) drv w = (Ok p, w') -> sp_hash p = key drv) ->
  let '(rs, d) := handle_all (R := counting key R) reqs (daemon_new (w, [])) in
  (forall l1 k l2, log d = l1 ++ (k, true) :: l2 -> k ∉ l2.*1)
  /\ (forall k, is_Some (built d !! k) <-> (k, true) ∈ log d)
  /\ forall i b p s, reqs !! i = Some (RBuild b) -> rs !! i = Some (Ok (Built p, s)) ->
       exists drv, from_bytes b = Ok drv /\ built d !! key drv = Some p.
Proof.
  intros Hk. pose proof (handle_all_inv key R Hk reqs (daemon_new (w, []))) as Hi.
  destruct (handle_all reqs _) as [rs d]. destruct Hi as ([Hm Ho] & _ & _ & Hp).
  - split; cbn.
    + intros k. rewrite lookup_empty, elem_of_nil. split; [by intros []|done].
    + intros l1 k l2 Hl. by destruct l1.
  - done.
Qed.

(** C18: The wire is faithful.  For a request that fits a frame and a reply of
    the handler that is well formed, the client receives that very reply, or
    the typed failure "frame too large" when it does not fit, and the daemon
    is left as the handler leaves it. *)
Theorem daemon_rpc `{Fmt} {W : Type} `{R : Realizer W} (req : Request) (d d' : Daemon W) (r : Response)
    (s : option Shutdown) :
  valid_request req -> Z.of_nat (length (encode_request req)) <= MAX_FRAME ->
  handle req d = (Ok (r, s), d') -> valid_response r ->
  request (inr served) req d = (Ok (if decide (framed r) then r
                                   else Failed KFrameTooLarge (daemon_display EFrameTooLarge)), d').
Proof. apply request_served. Qed.


(** ** A concrete daemon, over the store *)

#[local] Instance served_fmt : Fmt := {| plain c := 32 <=? c; io_text k := chars k |}.
#[local] Instance demo_store : Realizer build_state :=
  store_realizer demo_hash demo_root 1 demo_temp no_program (fun _ _ => false).

Lemma demo_key drv w p w' : instantiate_in drv w = (Ok p, w') -> sp_hash p = demo_hash (to_bytes drv).
Proof. apply store_inst_key. Qed.

Definition demo_steady : Steady (R := demo_store).
Proof. apply store_steady. by intros. Defined.

(** The same derivation twice: one build. *)
Definition twice : list Request := [RBuild (to_bytes (demo_drv (chars "out"))); RBuild (to_bytes (demo_drv (chars "out")))].

Lemma twice_once :
  let '(_, d) := handle_all (R := counting (fun drv => demo_hash (to_bytes drv)) demo_store) twice
                   (daemon_new (demo_build, [])) in
  (fun kb : list byte * bool => kb.2) <$> log d = [true].
Proof. vm_compute. reflexivity. Qed.

Lemma compute_once_witness :
  let '(rs, d) := handle_all (R := counting (fun drv => demo_hash (to_bytes drv)) demo_store) twice
                    (daemon_new (demo_build, [])) in
  (forall l1 k l2, log d = l1 ++ (k, true) :: l2 -> k ∉ l2.*1)
  /\ (forall k, is_Some (built d !! k) <-> (k, true) ∈ log d)
  /\ forall i b p s, twice !! i = Some (RBuild b) -> rs !! i = Some (Ok (Built p, s)) ->
       exists drv, from_bytes b = Ok drv /\ built d !! demo_hash (to_bytes drv) = Some p.
Proof. exact (compute_once demo_store (fun drv => demo_hash (to_bytes drv)) demo_build twice demo_key). Defined.

Lemma daemon_rpc_witness :
  request (inr served) RPing (daemon_new demo_build) = (Ok (Pong 1 0 0), daemon_new demo_build).
Proof.
  exact (daemon_rpc RPing (daemon_new demo_build) (daemon_new demo_build) (Pong 1 0 0) None I
    ltac:(discriminate) eq_refl ltac:(cbn; unfold u32_range; lia)).
Defined.


(** A client that asks for shutdown and hangs up before the reply is written
    does not stop the daemon: the next client is served. *)
Lemma shutdown_lost :
  let bye := u32_le 1 ++ encode_request RShutdown in
  let ping := u32_le 1 ++ encode_request RPing in
  let '(outs, _, r) := accept_loop [inr (mk_conn bye false); inr (mk_conn ping true)] (daemon_new demo_build) in
  outs = [[]; u32_le 13 ++ encode_response (Pong 1 0 0)] /\ r = Ok Requested.
Proof. vm_compute. by split. Qed.
