(* ===== verification/Ast.v ===== *)
(** * The core syntax ([crates/dnx-ast/src/lib.rs])

    Front ends produce it, the elaborator consumes it.  [V] and [F] are the
    primitive values and functions of a front end. *)
From S2P Require Import Prelude Bytes Utf8 Text.

Notation Name := (list Z) (only parsing).

Inductive Ast (V F : Type) : Type :=
| AName (n : Name)
| AAbs (x : Name) (body : Ast V F)
| AApp (f x : Ast V F)
| ARep (e : Ast V F) (a b : Name) (body : Ast V F)
| AEra (e body : Ast V F)
| AFix (e : Ast V F)
| AVal (v : V)
| AFun (f : F)
| APerform (label : Name) (e : Ast V F)
| AHandle (comp : Ast V F) (branches : list (HandlerBranch V F))
(** One branch [label x k -> body]. *)
with HandlerBranch (V F : Type) : Type :=
| mk_branch (label arg_name k_name : Name) (body : Ast V F).
Arguments AName {V F} n.
Arguments AAbs {V F} x body.
Arguments AApp {V F} f x.
Arguments ARep {V F} e a b body.
Arguments AEra {V F} e body.
Arguments AFix {V F} e.
Arguments AVal {V F} v.
Arguments AFun {V F} f.
Arguments APerform {V F} label e.
Arguments AHandle {V F} comp branches.
Arguments mk_branch {V F} label arg_name k_name body.

Section Branch.
Context {V F : Type}.
Definition br_label (b : HandlerBranch V F) : Name := let '(mk_branch l _ _ _) := b in l.
Definition br_arg (b : HandlerBranch V F) : Name := let '(mk_branch _ x _ _) := b in x.
Definition br_k (b : HandlerBranch V F) : Name := let '(mk_branch _ _ k _) := b in k.
Definition br_body (b : HandlerBranch V F) : Ast V F := let '(mk_branch _ _ _ e) := b in e.
End Branch.

(** * Lemmas *)

(** Induction that reaches the bodies of handler branches. *)
Section AstInd.
Context {V F : Type} (P : Ast V F -> Prop).
Context (Hname : forall n, P (AName n)) (Habs : forall x e, P e -> P (AAbs x e))
  (Happ : forall f x, P f -> P x -> P (AApp f x))
  (Hrep : forall e a b body, P e -> P body -> P (ARep e a b body))
  (Hera : forall e body, P e -> P body -> P (AEra e body)) (Hfix : forall e, P e -> P (AFix e))
  (Hval : forall v, P (AVal v)) (Hfun : forall f, P (AFun f))
  (Hperform : forall l e, P e -> P (APerform l e))
  (Hhandle : forall c bs, P c -> Forall (fun b => P (br_body b)) bs -> P (AHandle c bs)).

Fixpoint ast_ind (e : Ast V F) : P e :=
  match e with
  | AName n => Hname n
  | AAbs x e => Habs x e (ast_ind e)
  | AApp f x => Happ f x (ast_ind f) (ast_ind x)
  | ARep e a b body => Hrep e a b body (ast_ind e) (ast_ind body)
  | AEra e body => Hera e body (ast_ind e) (ast_ind body)
  | AFix e => Hfix e (ast_ind e)
  | AVal v => Hval v
  | AFun f => Hfun f
  | APerform l e => Hperform l e (ast_ind e)
  | AHandle c bs =>
      Hhandle c bs (ast_ind c)
        ((fix go bs : Forall (fun b => P (br_body b)) bs :=
            match bs with
            | [] => List.Forall_nil _
            | mk_branch l x k e :: bs => List.Forall_cons _ (mk_branch l x k e) _ (ast_ind e) (go bs)
            end) bs)
  end.
End AstInd.

(** * Unique binders ([crates/dnx-elab/src/alpha.rs])

    Every binder gets a name of its own, so that the passes after this one
    may key their maps by binder name.  The process-wide counter is passed
    along; what is proved is that binders become distinct and that the term
    stays the same up to the names of bound variables. *)

(** The mint marker, [~]. *)
Definition TILDE : Z := 126.

Notation rename_env := (gmap (list Z) (list Z)) (only parsing).

(** A name minted from a counter of 32 bits. *)
Definition fresh (base : Name) (ctr : Z) : Name * Z :=
  (base ++ [TILDE] ++ digits 10 ctr [], as_u32 (ctr + 1)).

Definition bind (env : gmap (list Z) (list Z)) (from to : Name) : gmap (list Z) (list Z) := <[from := to]> env.

Section Rename.
Context {V F : Type}.

(** The branches of a handler, each with its two binders. *)
Definition rename_branches (rename : Ast V F -> gmap (list Z) (list Z) -> Z -> Ast V F * Z) (env : gmap (list Z) (list Z)) :=
  fix go (bs : list (HandlerBranch V F)) (ctr : Z) : list (HandlerBranch V F) * Z :=
  match bs with
  | [] => ([], ctr)
  | mk_branch label arg k body :: bs =>
      let '(arg2, ctr) := fresh arg ctr in
      let '(k2, ctr) := fresh k ctr in
      let '(body, ctr) := rename body (bind (bind env arg arg2) k k2) ctr in
      let '(bs, ctr) := go bs ctr in
      (mk_branch label arg2 k2 body :: bs, ctr)
  end.

Fixpoint rename (e : Ast V F) (env : gmap (list Z) (list Z)) (ctr : Z) : Ast V F * Z :=
  match e with
  | AName n => (AName (default n (env !! n)), ctr)
  | AAbs x body =>
      let '(x2, ctr) := fresh x ctr in
      let '(body, ctr) := rename body (bind env x x2) ctr in
      (AAbs x2 body, ctr)
  | AApp f a =>
      let '(f, ctr) := rename f env ctr in
      let '(a, ctr) := rename a env ctr in
      (AApp f a, ctr)
  | ARep e a b body =>
      let '(e, ctr) := rename e env ctr in
      let '(a2, ctr) := fresh a ctr in
      let '(b2, ctr) := fresh b ctr in
      let '(body, ctr) := rename body (bind (bind env a a2) b b2) ctr in
      (ARep e a2 b2 body, ctr)
  | AEra e body =>
      let '(e, ctr) := rename e env ctr in
      let '(body, ctr) := rename body env ctr in
      (AEra e body, ctr)
  | AFix e => let '(e, ctr) := rename e env ctr in (AFix e, ctr)
  | APerform label e => let '(e, ctr) := rename e env ctr in (APerform label e, ctr)
  | AHandle comp branches =>
      let '(comp, ctr) := rename comp env ctr in
      let '(branches, ctr) := rename_branches rename env branches ctr in
      (AHandle comp branches, ctr)
  | AVal v => (AVal v, ctr)
  | AFun f => (AFun f, ctr)
  end.

Definition alpha_rename (e : Ast V F) (ctr : Z) : Ast V F * Z := rename e ∅ ctr.

(** ** What renaming is about *)

(** The binders, in the order they are met. *)
Fixpoint binders (e : Ast V F) : list (list Z) :=
  match e with
  | AName _ | AVal _ | AFun _ => []
  | AAbs x body => x :: binders body
  | AApp f a => binders f ++ binders a
  | ARep e a b body => binders e ++ a :: b :: binders body
  | AEra e body => binders e ++ binders body
  | AFix e | APerform _ e => binders e
  | AHandle comp branches =>
      binders comp ++ concat ((fun b => let '(mk_branch _ arg k body) := b in arg :: k :: binders body) <$> branches)
  end.

(** The term with its bound variables replaced by their distance to the
    binder: [inl i] for a bound occurrence, [inr n] for a free one. *)
Inductive shape : Type :=
| SVar (v : nat + list Z)
| SAbs (body : shape)
| SApp (f a : shape)
| SRep (e body : shape)
| SEra (e body : shape)
| SFix (e : shape)
| SPerform (label : list Z) (e : shape)
| SHandle (comp : shape) (branches : list (list Z * shape))
| SVal (v : V)
| SFun (f : F).

Fixpoint lookup_name (scope : list (list Z)) (n : Name) : nat + list Z :=
  match scope with
  | [] => inr n
  | x :: scope =>
      if bool_decide (n = x) then inl O
      else match lookup_name scope n with inl i => inl (S i) | inr n => inr n end
  end.

Fixpoint shape_of (scope : list (list Z)) (e : Ast V F) : shape :=
  match e with
  | AName n => SVar (lookup_name scope n)
  | AAbs x body => SAbs (shape_of (x :: scope) body)
  | AApp f a => SApp (shape_of scope f) (shape_of scope a)
  | ARep e a b body => SRep (shape_of scope e) (shape_of (b :: a :: scope) body)
  | AEra e body => SEra (shape_of scope e) (shape_of scope body)
  | AFix e => SFix (shape_of scope e)
  | APerform label e => SPerform label (shape_of scope e)
  | AHandle comp branches =>
      SHandle (shape_of scope comp)
        ((fun b => let '(mk_branch label arg k body) := b in (label, shape_of (k :: arg :: scope) body)) <$> branches)
  | AVal v => SVal v
  | AFun f => SFun f
  end.
End Rename.
Arguments shape : clear implicits.

(** Two terms that differ only in the names of their binders. *)
Definition alpha_eq {V F : Type} (e e' : Ast V F) : Prop := shape_of [] e = shape_of [] e'.

(** A name a parser can return. *)
Definition source_name (n : Name) : Prop := TILDE ∉ n.

(** The names that occur, free or bound. *)
Fixpoint uses {V F} (e : Ast V F) : list (list Z) :=
  match e with
  | AName n => [n]
  | AVal _ | AFun _ => []
  | AAbs _ body => uses body
  | AApp f a => uses f ++ uses a
  | ARep e _ _ body | AEra e body => uses e ++ uses body
  | AFix e | APerform _ e => uses e
  | AHandle comp branches =>
      uses comp ++ concat ((fun b => let '(mk_branch _ _ _ body) := b in uses body) <$> branches)
  end.

(** A term as a parser returns it. *)
Definition source_term {V F} (e : Ast V F) : Prop := Forall source_name (uses e).

(** The name minted at a counter, and the names minted for some binders. *)
Definition mint (base : Name) (ctr : Z) : Name := (fresh base ctr).1.
Fixpoint mints (l : list (list Z)) (ctr : Z) : list (list Z) :=
  match l with
  | [] => []
  | b :: l => mint b ctr :: mints l (ctr + 1)
  end.

(** [env] sends the names of [scope] to those of [scope'], all minted below [ctr]. *)
Definition renames (ctr : Z) (scope scope' : list (list Z)) (env : gmap (list Z) (list Z)) : Prop :=
  (forall n m, env !! n = Some m -> exists b c, 0 <= c < ctr /\ m = mint b c) /\
  (forall n, source_name n -> lookup_name scope n = lookup_name scope' (default n (env !! n))).

(** * Lemmas *)

(** A counter of 32 bits has ten digits at most. *)
Lemma u32_digits c : 0 <= c < 2 ^ 32 -> 0 <= c < 10 ^ Z.of_nat 10.
Proof. intros. change (10 ^ Z.of_nat 10) with 10000000000. lia. Qed.

Lemma mint_marked b c : ~ source_name (mint b c).
Proof. unfold source_name, mint. cbn. set_solver. Qed.

Lemma app_last_split (a b d d' : Name) : TILDE ∉ d -> TILDE ∉ d' ->
  a ++ [TILDE] ++ d = b ++ [TILDE] ++ d' -> a = b /\ d = d'.
Proof.
  intros Hd Hd'. revert b. induction a as [|x a IH]; intros [|y b] H; cbn in H.
  - injection H as ->. done.
  - injection H as <- ->. exfalso. apply Hd. set_solver.
  - injection H as -> <-. exfalso. apply Hd'. set_solver.
  - injection H as <- H. apply IH in H as [-> ->]. done.
Qed.

Lemma mint_inj b c b' c' : 0 <= c < 2 ^ 32 -> 0 <= c' < 2 ^ 32 -> mint b c = mint b' c' -> c = c'.
Proof.
  intros Hc%u32_digits Hc'%u32_digits H.
  assert (forall z, TILDE ∉ digits 10 z []) as Hplain by (intros z Hin%digits_chars; unfold TILDE in *; lia).
  destruct (app_last_split b b' _ _ (Hplain c) (Hplain c') H) as [_ He].
  eapply digits_inj; [| | |exact He]; [lia|done..].
Qed.

Lemma mints_app l l' c : mints (l ++ l') c = mints l c ++ mints l' (c + Z.of_nat (length l)).
Proof.
  revert c. induction l as [|b l IH]; intros c; cbn [mints app length]; [by rewrite Z.add_0_r|].
  rewrite IH. do 3 f_equal. lia.
Qed.

Lemma mints_length l c : length (mints l c) = length l.
Proof. revert c. induction l; intros c; cbn; congruence. Qed.

Lemma mints_elem l : forall c n, n ∈ mints l c -> exists b i, c <= i < c + Z.of_nat (length l) /\ n = mint b i.
Proof.
  induction l as [|b l IH]; intros c n; cbn [mints length]; [set_solver|].
  intros [->|Hn]%elem_of_cons; [exists b, c; split; [lia|done]|].
  apply IH in Hn as (b' & i & Hi & ->). exists b', i. split; [lia|done].
Qed.

Lemma mints_nodup l : forall c, 0 <= c -> c + Z.of_nat (length l) < 2 ^ 32 -> NoDup (mints l c).
Proof.
  induction l as [|b l IH]; intros c Hc Hl; cbn [mints length] in *; constructor.
  - intros (b' & i & Hi & He)%mints_elem. apply mint_inj in He; lia.
  - apply IH; lia.
Qed.

Lemma fresh_mint b c : 0 <= c -> c + 1 < 2 ^ 32 -> fresh b c = (mint b c, c + 1).
Proof. intros Hc H. unfold mint, fresh. cbn [fst]. f_equal. apply Z.mod_small. lia. Qed.

Lemma renames_mono ctr ctr' sc sc' env : ctr <= ctr' -> renames ctr sc sc' env -> renames ctr' sc sc' env.
Proof.
  intros Hc [H1 H2]. split; [|done]. intros n m (b & c & ? & ->)%H1. exists b, c. split; [lia|done].
Qed.

(** Entering a binder. *)
Lemma renames_bind ctr sc sc' env x : 0 <= ctr -> ctr + 1 < 2 ^ 32 -> renames ctr sc sc' env ->
  renames (ctr + 1) (x :: sc) (mint x ctr :: sc') (bind env x (mint x ctr)).
Proof.
  intros Hc Hm [H1 H2]. unfold bind. split.
  - intros n m [[<- <-]|[Hne Hn]]%lookup_insert_Some; [exists x, ctr; split; [lia|done]|].
    apply H1 in Hn as (b & c & ? & ->). exists b, c. split; [lia|done].
  - intros n Hn. cbn [lookup_name]. destruct (decide (n = x)) as [->|Hne].
    + rewrite lookup_insert_eq. cbn [default]. by rewrite !bool_decide_eq_true_2 by done.
    + rewrite lookup_insert_ne by done. rewrite bool_decide_eq_false_2 by done.
      rewrite bool_decide_eq_false_2; [by rewrite (H2 n Hn)|]. intros He.
      destruct (env !! n) as [m|] eqn:E; cbn in He.
      * apply H1 in E as (b & c & Hlt & ->). apply mint_inj in He; lia.
      * subst n. exact (mint_marked _ _ Hn).
Qed.

(** Entering two binders. *)
Lemma renames_bind2 ctr sc sc' env x y : 0 <= ctr -> ctr + 2 < 2 ^ 32 -> renames ctr sc sc' env ->
  renames (ctr + 1 + 1) (y :: x :: sc) (mint y (ctr + 1) :: mint x ctr :: sc')
    (bind (bind env x (mint x ctr)) y (mint y (ctr + 1))).
Proof. intros. apply renames_bind; [lia..|]. apply renames_bind; [lia..|done]. Qed.

Section Renamed.
Context {V F : Type}.
Implicit Types e : Ast V F.

(** What [rename] does, on any term and in any scope. *)
Definition renamed (e : Ast V F) : Prop := forall env ctr sc sc', 0 <= ctr ->
  ctr + Z.of_nat (length (binders e)) < 2 ^ 32 -> source_term e -> renames ctr sc sc' env ->
  let r := rename e env ctr in
  r.2 = ctr + Z.of_nat (length (binders e)) /\ binders r.1 = mints (binders e) ctr /\
  shape_of sc e = shape_of sc' r.1.

Let bnd := fun b : HandlerBranch V F => let '(mk_branch _ arg k body) := b in arg :: k :: binders body.
Let shp := fun sc (b : HandlerBranch V F) =>
  let '(mk_branch label arg k body) := b in (label, shape_of (k :: arg :: sc) body).
Let use := fun b : HandlerBranch V F => let '(mk_branch _ _ _ body) := b in uses body.

(** The branches of a handler, from the renaming of their bodies. *)
Lemma rename_branches_spec bs : Forall (fun b => renamed (br_body b)) bs -> forall env ctr sc sc', 0 <= ctr ->
  ctr + Z.of_nat (length (concat (bnd <$> bs))) < 2 ^ 32 -> Forall source_name (concat (use <$> bs)) ->
  renames ctr sc sc' env ->
  let r := rename_branches rename env bs ctr in
  r.2 = ctr + Z.of_nat (length (concat (bnd <$> bs))) /\ concat (bnd <$> r.1) = mints (concat (bnd <$> bs)) ctr /\
  shp sc <$> bs = shp sc' <$> r.1.
Proof.
  induction 1 as [|[label x k body] bs Hb _ IH]; intros env ctr sc sc' Hc Hm Hs Hr r; [cbn; split; [lia|done]|].
  subst r. cbn [br_body] in Hb. cbn [rename_branches fmap list_fmap concat bnd] in *.
  rewrite length_app in *. cbn [length] in *. apply Forall_app in Hs as [Hs1 Hs2].
  rewrite fresh_mint, fresh_mint by lia.
    pose proof (renames_bind2 _ _ _ _ x k Hc ltac:(lia) Hr) as Hr2.
  specialize (Hb (bind (bind env x (mint x ctr)) k (mint k (ctr + 1))) (ctr + 1 + 1) _ _ ltac:(lia) ltac:(lia) Hs1 Hr2).
  destruct (rename body _ _) as [body' c1]. destruct Hb as (Hc1 & Hb1 & Hsh). cbn [fst snd] in *. subst c1.
  specialize (IH env (ctr + 1 + 1 + Z.of_nat (length (binders body))) sc sc' ltac:(lia)
    ltac:(lia) Hs2 ltac:(apply (renames_mono ctr); [lia|exact Hr])).
  destruct (rename_branches _ _ _ _) as [bs' c2]. destruct IH as (Hc2 & Hb2 & Hsh2). cbn [fst snd] in *.
  cbn [fmap list_fmap concat bnd shp]. split; [lia|]. split; [|by rewrite Hsh, <- Hsh2].
  cbn [app mints]. by rewrite mints_app, Hb1, Hb2.
Qed.

(** Rename a subterm: the counter it leaves, its binders and its shape. *)
Ltac sub IH Hs Hr :=
  match type of Hr with
  | renames ?c _ _ _ =>
      match goal with |- context [rename ?e ?env ?c'] =>
        destruct (IH env c' _ _ ltac:(lia) ltac:(lia) Hs ltac:(apply (renames_mono c); [lia|exact Hr])) as (? & ? & ?);
        destruct (rename e env c') as [? ?]
      end
  end; cbn [fst snd] in *; subst.
Ltac close := cbn [binders shape_of] in *; split; [lia|]; split; [|congruence];
  rewrite ?mints_app; cbn [mints]; congruence.

Lemma rename_spec e : renamed e.
Proof.
  induction e using ast_ind; intros env ctr sc sc' Hc Hm Hs Hr; unfold source_term in *;
    cbn [rename binders uses shape_of] in *; rewrite ?length_app in *; cbn [length] in *;
    try (apply Forall_app in Hs as [Hs1 Hs2]).
  - cbn. split; [lia|]. split; [done|]. destruct Hr as [_ Hr]. f_equal. apply Hr. by inversion Hs.
  - rewrite fresh_mint by lia. pose proof (renames_bind _ _ _ _ x Hc ltac:(lia) Hr) as Hr1.
    sub IHe Hs Hr1. close.
  - sub IHe1 Hs1 Hr. sub IHe2 Hs2 Hr. close.
  - sub IHe1 Hs1 Hr. rewrite !fresh_mint by lia.
    pose proof (renames_bind2 (ctr + Z.of_nat (length (binders e1))) _ _ _ a b ltac:(lia) ltac:(lia)
      ltac:(apply (renames_mono ctr); [lia|exact Hr])) as Hr1.
    sub IHe2 Hs2 Hr1. close.
  - sub IHe1 Hs1 Hr. sub IHe2 Hs2 Hr. close.
  - sub IHe Hs Hr. close.
  - cbn. split; [lia|done].
  - cbn. split; [lia|done].
  - sub IHe Hs Hr. close.
  - sub IHe Hs1 Hr.
    destruct (rename_branches_spec bs ltac:(eassumption) env (ctr + Z.of_nat (length (binders e))) sc sc' ltac:(lia)
      ltac:(unfold bnd; lia) Hs2 ltac:(apply (renames_mono ctr); [lia|exact Hr])) as (H4 & H5 & H6).
    destruct (rename_branches _ _ _ _) as [bs' c2]. cbn [fst snd] in *. unfold bnd, shp in *. subst c2. close.
Qed.
End Renamed.

Lemma renames_start ctr : renames ctr [] [] ∅.
Proof. split; [intros n m; by rewrite lookup_empty|]. intros n _. by rewrite lookup_empty. Qed.

(** * Properties *)

(** Renaming a term whose names a parser can return, with enough of the
    counter left, gives every binder a name of its own and changes nothing
    but the names of bound variables: each occurrence still refers to the
    binder it referred to, shadowed binders included. *)
Theorem alpha_rename_unique {V F} (e : Ast V F) (ctr : Z) :
  0 <= ctr -> ctr + Z.of_nat (length (binders e)) < 2 ^ 32 -> source_term e ->
  let e' := (alpha_rename e ctr).1 in alpha_eq e e' /\ NoDup (binders e').
Proof.
  intros Hc Hm Hs.
  destruct (rename_spec e ∅ ctr [] [] Hc Hm Hs (renames_start ctr)) as (_ & Hb & Hsh).
  split; [exact Hsh|]. unfold alpha_rename. rewrite Hb. by apply mints_nodup.
Qed.

(** [λh. (λh. h) h]. *)
Definition shadowed : Ast unit unit := AAbs [104] (AApp (AAbs [104] (AName [104])) (AName [104])).

Lemma alpha_rename_unique_witness : exists e,
  (alpha_rename shadowed 7).1 = e /\ alpha_eq shadowed e /\ NoDup (binders e) /\ binders e = [[104; 126; 55]; [104; 126; 56]].
Proof.
  exists (alpha_rename shadowed 7).1. split; [done|].
  destruct (alpha_rename_unique shadowed 7 ltac:(lia) ltac:(vm_compute; done)
    ltac:(apply (bool_decide_unpack _); vm_compute; exact I)) as [H1 H2].
  split; [exact H1|]. split; [exact H2|]. vm_compute. done.
Defined.
