(* ===== verification/Pass0.v ===== *)
(** * Definitions ([crates/dnx-elab/src/pass0.rs])

    The first pass checks that definitions do not refer to each other in a
    cycle and copies their bodies into the term.  The order in which the code
    walks a hash set is arbitrary; the model takes the order of [elements],
    on which only the names listed in an error depend. *)
From S2P Require Import Prelude Bytes Utf8 Text Codec Error Ast.
From stdpp Require Import relations.
#[local] Open Scope Z_scope.

Section Pass0.
Context {V F : Type} (defs : gmap (list Z) (Ast V F)).

Fixpoint free_def_refs (e : Ast V F) : list (list Z) :=
  match e with
  | AName n => if defs !! n then [n] else []
  | AAbs _ body => free_def_refs body
  | AApp f x => free_def_refs f ++ free_def_refs x
  | ARep e _ _ body | AEra e body => free_def_refs e ++ free_def_refs body
  | AFix e | APerform _ e => free_def_refs e
  | AHandle comp branches =>
      free_def_refs comp ++ concat ((fun b => let '(mk_branch _ _ _ body) := b in free_def_refs body) <$> branches)
  | AVal _ | AFun _ => []
  end.

(** The names being visited and the names done with. *)
Notation marks := (gset (list Z) * gset (list Z))%type.

Fixpoint dfs_check (fuel : nat) (name : Name) (st : gset (list Z) * gset (list Z)) : res LinError (gset (list Z) * gset (list Z)) :=
  match fuel with
  | O => Fuel
  | S fuel =>
      let '(visiting, visited) := st in
      if bool_decide (name ∈ visiting) then Err (MutualRecursion (elements visiting))
      else if bool_decide (name ∈ visited) then Ok st
      else
        '(visiting, visited) ←
          match defs !! name with
          | Some body =>
              foldM (fun st dep => dfs_check fuel dep st) (free_def_refs body) ({[name]} ∪ visiting, visited)
          | None => Ok ({[name]} ∪ visiting, visited)
          end;
        Ok (visiting ∖ {[name]}, {[name]} ∪ visited)
  end.

Definition topo_check : res LinError unit :=
  _ ← foldM (fun st name => let '(_, visited) := st in
        if bool_decide (name ∈ visited) then Ok st
        else dfs_check (S (size (dom defs))) name st) (elements (dom defs)) (∅, ∅);
  Ok tt.

(** Branches, the set of bound names passed along. *)
Definition resolve_branches (resolve : Ast V F -> gset (list Z) -> res LinError (Ast V F * gset (list Z))) :=
  fix go (bs : list (HandlerBranch V F)) (bound : gset (list Z)) : res LinError (list (HandlerBranch V F) * gset (list Z)) :=
  match bs with
  | [] => Ok ([], bound)
  | mk_branch label arg k body :: bs =>
      '(body2, bound) ← resolve body ({[k]} ∪ ({[arg]} ∪ bound));
      '(bs2, bound) ← go bs ((bound ∖ {[arg]}) ∖ {[k]});
      Ok (mk_branch label arg k body2 :: bs2, bound)
  end.

(** [fuel] bounds the copies nested in copies. *)
Fixpoint resolve (fuel : nat) : Ast V F -> gset (list Z) -> res LinError (Ast V F * gset (list Z)) :=
  match fuel with
  | O => fun _ _ => Fuel
  | S fuel =>
      fix go (e : Ast V F) (bound : gset (list Z)) :=
      match e with
      | AName n =>
          if bool_decide (n ∈ bound) then Ok (AName n, bound)
          else match defs !! n with
               | Some body => resolve fuel body bound
               | None => Ok (AName n, bound)
               end
      | AAbs x body =>
          '(body2, bound) ← go body ({[x]} ∪ bound);
          Ok (AAbs x body2, bound ∖ {[x]})
      | AApp f x =>
          '(f2, bound) ← go f bound;
          '(x2, bound) ← go x bound;
          Ok (AApp f2 x2, bound)
      | ARep e a b body =>
          '(e2, bound) ← go e bound;
          '(body2, bound) ← go body ({[b]} ∪ ({[a]} ∪ bound));
          Ok (ARep e2 a b body2, (bound ∖ {[a]}) ∖ {[b]})
      | AEra e body =>
          '(e2, bound) ← go e bound;
          '(body2, bound) ← go body bound;
          Ok (AEra e2 body2, bound)
      | AFix e => '(e2, bound) ← go e bound; Ok (AFix e2, bound)
      | APerform label e => '(e2, bound) ← go e bound; Ok (APerform label e2, bound)
      | AHandle comp branches =>
          '(comp2, bound) ← go comp bound;
          '(branches2, bound) ← resolve_branches go branches bound;
          Ok (AHandle comp2 branches2, bound)
      | AVal v => Ok (AVal v, bound)
      | AFun f => Ok (AFun f, bound)
      end
  end.

Definition pass0 (e : Ast V F) : res LinError (Ast V F) :=
  _ ← topo_check;
  '(e2, _) ← resolve (S (size (dom defs))) e ∅;
  Ok e2.
End Pass0.

(** ** What the pass is about *)

Section Spec.
Context {V F : Type} (defs : gmap (list Z) (Ast V F)).

(** The body of [n] refers to [m]. *)
Definition def_edge (n m : list Z) : Prop := exists body, defs !! n = Some body /\ m ∈ free_def_refs defs body.
(** Some definition refers to itself, through others perhaps. *)
Definition recursive_defs : Prop := exists n, tc def_edge n n.

(** [e'] is [e] with every reference to a definition replaced by the body of
    the definition, itself so replaced. *)
Inductive inlined : Ast V F -> Ast V F -> Prop :=
| inl_name n : defs !! n = None -> inlined (AName n) (AName n)
| inl_def n body e' : defs !! n = Some body -> inlined body e' -> inlined (AName n) e'
| inl_abs x body body' : inlined body body' -> inlined (AAbs x body) (AAbs x body')
| inl_app f f' a a' : inlined f f' -> inlined a a' -> inlined (AApp f a) (AApp f' a')
| inl_rep e e' a b body body' : inlined e e' -> inlined body body' -> inlined (ARep e a b body) (ARep e' a b body')
| inl_era e e' body body' : inlined e e' -> inlined body body' -> inlined (AEra e body) (AEra e' body')
| inl_fix e e' : inlined e e' -> inlined (AFix e) (AFix e')
| inl_perform l e e' : inlined e e' -> inlined (APerform l e) (APerform l e')
| inl_handle c c' bs bs' : inlined c c' -> inlined_branches bs bs' -> inlined (AHandle c bs) (AHandle c' bs')
| inl_val v : inlined (AVal v) (AVal v)
| inl_fun f : inlined (AFun f) (AFun f)
with inlined_branches : list (HandlerBranch V F) -> list (HandlerBranch V F) -> Prop :=
| inl_nil : inlined_branches [] []
| inl_cons l a k body body' bs bs' : inlined body body' -> inlined_branches bs bs' ->
    inlined_branches (mk_branch l a k body :: bs) (mk_branch l a k body' :: bs').

(** No binder, of the term or of a definition, has the name of a definition. *)
Definition binds_no_def (e : Ast V F) : Prop := Forall (fun x => defs !! x = None) (binders e).
Definition hygienic (e : Ast V F) : Prop := binds_no_def e /\ map_Forall (fun _ body => binds_no_def body) defs.
End Spec.

(** * Lemmas *)

Section Cycles.
Context {V F : Type} (defs : gmap (list Z) (Ast V F)).
Notation edge := (def_edge defs).
Implicit Types vg vd : gset (list Z).

Lemma free_def_refs_dom e m : m ∈ free_def_refs defs e -> m ∈ dom defs.
Proof.
  induction e using ast_ind; cbn [free_def_refs]; rewrite ?elem_of_app; try set_solver.
  - destruct (defs !! n) eqn:E; [|set_solver]. intros ->%list_elem_of_singleton. apply elem_of_dom. by eexists.
  - intros [?|(l & Hm & Hl)%elem_of_concat]; [auto|]. apply list_elem_of_fmap in Hl as ([lb a k body] & -> & Hl).
    match goal with H : Forall _ _ |- _ => rewrite Forall_forall in H; by apply (H _ Hl) end.
Qed.

Lemma edge_dom n m : edge n m -> m ∈ dom defs.
Proof. intros (body & _ & Hm). by eapply free_def_refs_dom. Qed.

(** What [dfs_check] answers from a path [vg] and a set [vd] done with. *)
Definition dfs_ok (name : Name) (vg vd : gset (list Z)) (r : res LinError (gset (list Z) * gset (list Z))) : Prop :=
  match r with
  | Ok (vg', vd') => vg' = vg /\ vd ⊆ vd' /\ name ∈ vd' /\ forall n, n ∈ vd' -> Acc (flip edge) n
  | Err (MutualRecursion _) => recursive_defs defs
  | _ => False
  end.

Lemma dfs_loop (f : gset (list Z) * gset (list Z) -> list Z -> res LinError (gset (list Z) * gset (list Z))) vg deps :
  (forall dep vd, dep ∈ deps -> (forall n, n ∈ vd -> Acc (flip edge) n) -> dfs_ok dep vg vd (f (vg, vd) dep)) ->
  forall vd, (forall n, n ∈ vd -> Acc (flip edge) n) ->
  match foldM f deps (vg, vd) with
  | Ok (vg', vd') => vg' = vg /\ vd ⊆ vd' /\ (forall d, d ∈ deps -> d ∈ vd') /\ forall n, n ∈ vd' -> Acc (flip edge) n
  | Err (MutualRecursion _) => recursive_defs defs
  | _ => False
  end.
Proof.
  induction deps as [|d deps IH]; intros Hf vd Hvd; cbn [foldM]; [split; [done|]; split; [done|]; split; [by intros d ?%elem_of_nil|exact Hvd]|].
  pose proof (Hf d vd ltac:(left) Hvd) as Hd.
  destruct (f (vg, vd) d) as [[vg1 vd1]|[]| |]; cbn [dfs_ok mbind res_bind] in Hd |- *; [|destruct Hd|destruct Hd|exact Hd|destruct Hd..]. destruct Hd as (-> & Hs & Hin & Hacc).
  specialize (IH (fun dep vd H => Hf dep vd (list_elem_of_further _ _ _ H)) vd1 Hacc).
  destruct (foldM f deps (vg, vd1)) as [[vg2 vd2]|[]| |]; [|destruct IH|destruct IH|exact IH|destruct IH..]. destruct IH as (-> & Hs2 & Hin2 & Hacc2).
  split; [done|]. split; [by etrans|]. split; [|done]. intros d' [->|?]%elem_of_cons; auto.
Qed.

Lemma dfs_check_spec fuel : forall name vg vd, name ∈ dom defs -> (size (dom defs ∖ vg) < fuel)%nat ->
  (forall v, v ∈ vg -> tc edge v name) -> (forall n, n ∈ vd -> Acc (flip edge) n) ->
  dfs_ok name vg vd (dfs_check defs fuel name (vg, vd)).
Proof.
  induction fuel as [|fuel IH]; intros name vg vd Hdom Hf Hpath Hvd; [lia|]. cbn [dfs_check].
  case_bool_decide as Hin; [exists name; by apply Hpath|].
  case_bool_decide as Hdone; [done|].
  apply elem_of_dom in Hdom as [body Hbody]. rewrite Hbody.
  pose proof (dfs_loop (fun st dep => dfs_check defs fuel dep st) ({[name]} ∪ vg) (free_def_refs defs body)) as Hl.
  specialize (fun H => Hl H vd Hvd).
  assert (forall dep, dep ∈ free_def_refs defs body -> edge name dep) as Hedge by (intros; by exists body).
  assert (forall dep vd, dep ∈ free_def_refs defs body -> (forall n, n ∈ vd -> Acc (flip edge) n) ->
    dfs_ok dep ({[name]} ∪ vg) vd (dfs_check defs fuel dep ({[name]} ∪ vg, vd))) as Hdeps.
  { intros dep vd' Hdep Hvd'. apply IH; [by eapply free_def_refs_dom| | |done].
    - assert (size (dom defs ∖ ({[name]} ∪ vg)) < size (dom defs ∖ vg))%nat; [|lia].
      apply subset_size. apply elem_of_dom_2 in Hbody. set_solver.
    - intros v [->%elem_of_singleton|Hv]%elem_of_union; [apply tc_once; auto|].
      eapply tc_r; [by apply Hpath|auto]. }
  specialize (Hl Hdeps). destruct (foldM _ _ _) as [[vg1 vd1]|[]| |]; [|destruct Hl|destruct Hl|exact Hl|destruct Hl..].
  destruct Hl as (-> & Hs & Hin' & Hacc). cbn [mbind res_bind].
  split; [set_solver|]. split; [set_solver|]. split; [set_solver|].
  intros n [->%elem_of_singleton|Hn]%elem_of_union; [|auto]. constructor. intros m (body' & Hb' & Hm).
  apply Hacc, Hin'. congruence.
Qed.

Lemma acc_no_cycle n : Acc (flip edge) n -> ~ tc edge n n.
Proof.
  assert (forall x y, tc edge x y -> Acc (flip edge) x -> Acc (flip edge) y) as Hacc.
  { induction 1 as [x y H|x y z H _ IH]; intros [Hx]; [by apply Hx|]. apply IH, Hx, H. }
  induction 1 as [n Hn IH]. intros Ht. inversion Ht as [x y H|x y z H Ht']; subst.
  - by apply (IH n H), tc_once.
  - apply (IH _ H). eapply tc_rtc_r; [exact Ht'|]. by apply rtc_once.
Qed.

Lemma tc_edge_dom n m : tc edge n m -> m ∈ dom defs.
Proof. induction 1; eauto using edge_dom. Qed.

Lemma topo_check_spec : match topo_check defs with
  | Ok _ => ~ recursive_defs defs
  | Err (MutualRecursion _) => recursive_defs defs
  | _ => False
  end.
Proof.
  unfold topo_check.
  pose proof (dfs_loop (fun st name => let '(_, visited) := st in
    if bool_decide (name ∈ visited) then Ok st else dfs_check defs (S (size (dom defs))) name st) ∅ (elements (dom defs))) as Hl.
  assert (forall n, n ∈ (∅ : gset (list Z)) -> Acc (flip edge) n) as H0 by (intros n Hn; by apply elem_of_empty in Hn).
  specialize (fun H => Hl H ∅ H0).
  assert (forall dep vd, dep ∈ elements (dom defs) -> (forall n, n ∈ vd -> Acc (flip edge) n) ->
    dfs_ok dep ∅ vd (if bool_decide (dep ∈ vd) then Ok (∅, vd) else dfs_check defs (S (size (dom defs))) dep (∅, vd))) as Hf.
  { intros dep vd Hdep%elem_of_elements Hvd. case_bool_decide; [done|].
    apply dfs_check_spec; [done| |intros v Hv; by apply elem_of_empty in Hv|done]. rewrite difference_empty_L. lia. }
  specialize (Hl Hf). destruct (foldM _ _ _) as [[vg vd]|[]| |]; [|destruct Hl|destruct Hl|exact Hl|destruct Hl..].
  destruct Hl as (_ & _ & Hin & Hacc). cbn [mbind res_bind]. intros (n & Hn).
  eapply acc_no_cycle; [|exact Hn]. by apply Hacc, Hin, elem_of_elements, (tc_edge_dom n).
Qed.
End Cycles.

Section Resolve.
Context {V F : Type} (defs : gmap (list Z) (Ast V F)).
Context (Hacyclic : ~ recursive_defs defs).
Notation edge := (def_edge defs).
Notation no_defs b := (forall x, x ∈ b -> defs !! x = None).

(** Resolving [e], met on a path of copied definitions, with [fuel] for the
    definitions off the path. *)
Definition resolved (fuel : nat) (e : Ast V F) : Prop := forall path bound, (size (dom defs ∖ path) < fuel)%nat ->
  (forall m v, m ∈ free_def_refs defs e -> v ∈ path -> tc edge v m) -> exists e' bound',
  resolve defs fuel e bound = Ok (e', bound') /\
  (binds_no_def defs e -> map_Forall (fun _ body => binds_no_def defs body) defs ->
   no_defs (bound : gset (list Z)) -> no_defs bound' /\ inlined defs e e').

Lemma resolve_name fuel n : (forall e, resolved fuel e) -> resolved (S fuel) (AName n).
Proof.
  intros IH path bound Hf Hrefs. cbn [resolve]. case_bool_decide as Hb.
  { exists (AName n), bound. split; [done|]. intros _ _ Hno. split; [done|]. apply inl_name. auto. }
  cbn [free_def_refs] in Hrefs. destruct (defs !! n) as [body|] eqn:E.
  2: { exists (AName n), bound. split; [done|]. intros _ _ Hno. split; [done|]. by apply inl_name. }
  assert (n ∉ path) as Hn.
  { intros Hn. apply Hacyclic. exists n. by apply Hrefs; [left|]. }
  assert (size (dom defs ∖ ({[n]} ∪ path)) < size (dom defs ∖ path))%nat.
  { apply subset_size. apply elem_of_dom_2 in E. set_solver. }
  destruct (IH body ({[n]} ∪ path) bound) as (e' & b' & He & Hinl); [lia| |].
  { intros m v Hm [->%elem_of_singleton|Hv]%elem_of_union; [apply tc_once; by exists body|].
    eapply tc_r; [apply Hrefs; [by left|exact Hv]|by exists body]. }
  exists e', b'. split; [exact He|]. intros _ Hdefs Hno.
  destruct (Hinl (Hdefs _ _ E) Hdefs Hno) as [? ?]. split; [done|]. by eapply inl_def.
Qed.

Lemma no_defs_two (a b : list Z) (s : gset (list Z)) : defs !! a = None -> defs !! b = None -> no_defs s -> no_defs ({[b]} ∪ ({[a]} ∪ s)).
Proof. set_solver. Qed.
Lemma no_defs_minus (s t : gset (list Z)) : no_defs s -> no_defs (s ∖ t).
Proof. set_solver. Qed.

Lemma resolve_bodies fuel bs : Forall (fun b => resolved (S fuel) (br_body b)) bs -> forall path bound,
  (size (dom defs ∖ path) < S fuel)%nat ->
  (forall m v, m ∈ concat ((fun b => let '(mk_branch _ _ _ body) := b in free_def_refs defs body) <$> bs) -> v ∈ path -> tc edge v m) ->
  exists bs' bound', resolve_branches (resolve defs (S fuel)) bs bound = Ok (bs', bound') /\
  (Forall (fun x => defs !! x = None) (concat ((fun b => let '(mk_branch _ arg k body) := b in arg :: k :: binders body) <$> bs)) ->
   map_Forall (fun _ body => binds_no_def defs body) defs ->
   no_defs (bound : gset (list Z)) -> no_defs bound' /\ inlined_branches defs bs bs').
Proof.
  induction 1 as [|[l a k body] bs Hb _ IH]; intros path bound Hf Hrefs.
  { exists [], bound. split; [done|]. intros _ _ Hno. split; [done|constructor]. }
  cbn [resolve_branches fmap list_fmap concat br_body] in *.
  destruct (Hb path ({[k]} ∪ ({[a]} ∪ bound)) Hf) as (body' & b1 & -> & H1); [intros; apply Hrefs; set_solver|].
  cbn [mbind res_bind].
  destruct (IH path ((b1 ∖ {[a]}) ∖ {[k]}) Hf) as (bs' & b2 & -> & H2); [intros; apply Hrefs; set_solver|].
  eexists _, _. split; [reflexivity|]. intros Hbs Hdefs Hno.
  apply Forall_app in Hbs as [Hl Hbs]. inversion_clear Hl as [|?? Ha Hl']. inversion_clear Hl' as [|?? Hk Hbody].
  destruct (H1 Hbody Hdefs (no_defs_two _ _ _ Ha Hk Hno)) as [Hno1 Hi1].
  destruct (H2 Hbs Hdefs (no_defs_minus _ _ (no_defs_minus _ _ Hno1))) as [Hno2 Hi2].
  split; [done|]. by constructor.
Qed.

(** Resolve the next subterm, then run on. *)
Ltac sub IH path Hf Hrefs :=
  match goal with |- context [resolve defs (S ?fuel) ?e ?b] =>
    let e' := fresh "e'" in let b' := fresh "b'" in let H := fresh "Hi" in
    destruct (IH path b Hf ltac:(intros; apply Hrefs; set_solver)) as (e' & b' & -> & H); cbn [mbind res_bind]
  end.

(** [go e; Ok (k e)], and [go e1; go e2; Ok (k e1 e2)]. *)
Lemma resolved_one fuel e (k : Ast V F -> Ast V F) : resolved (S fuel) e ->
  (forall bound, resolve defs (S fuel) (k e) bound =
    ('(e2, bound) ← resolve defs (S fuel) e bound; Ok (k e2, bound))) ->
  free_def_refs defs (k e) = free_def_refs defs e -> binders (k e) = binders e ->
  (forall e', inlined defs e e' -> inlined defs (k e) (k e')) -> resolved (S fuel) (k e).
Proof.
  intros IH Hk Hr Hb Hi path bound Hf Hrefs. unfold binds_no_def. rewrite Hk, Hb. rewrite Hr in Hrefs.
  sub IH path Hf Hrefs. eexists _, _. split; [reflexivity|]. intros He Hd Hno.
  destruct (Hi0 He Hd Hno) as [? ?]. auto.
Qed.

Lemma resolved_two fuel e1 e2 (k : Ast V F -> Ast V F -> Ast V F) : resolved (S fuel) e1 -> resolved (S fuel) e2 ->
  (forall bound, resolve defs (S fuel) (k e1 e2) bound =
    ('(e1', bound) ← resolve defs (S fuel) e1 bound; '(e2', bound) ← resolve defs (S fuel) e2 bound; Ok (k e1' e2', bound))) ->
  free_def_refs defs (k e1 e2) = free_def_refs defs e1 ++ free_def_refs defs e2 ->
  binders (k e1 e2) = binders e1 ++ binders e2 ->
  (forall e1' e2', inlined defs e1 e1' -> inlined defs e2 e2' -> inlined defs (k e1 e2) (k e1' e2')) -> resolved (S fuel) (k e1 e2).
Proof.
  intros IH1 IH2 Hk Hr Hb Hi path bound Hf Hrefs. unfold binds_no_def. rewrite Hk, Hb. rewrite Hr in Hrefs.
  sub IH1 path Hf Hrefs. sub IH2 path Hf Hrefs. eexists _, _. split; [reflexivity|].
  intros [He1 He2]%(fun H => proj1 (Forall_app _ _ _) H) Hd Hno. destruct (Hi0 He1 Hd Hno) as [Hno1 ?]. destruct (Hi1 He2 Hd Hno1) as [? ?]. auto.
Qed.

Lemma resolve_spec fuel : forall e, resolved fuel e.
Proof.
  induction fuel as [|fuel IHf]; [intros ? ? ? ?; lia|].
  induction e using ast_ind.
  - by apply resolve_name.
  - intros path bound Hf Hrefs. cbn [free_def_refs] in Hrefs.
    change (resolve defs (S fuel) (AAbs x e) bound) with
      ('(body2, bound) ← resolve defs (S fuel) e ({[x]} ∪ bound); Ok (AAbs x body2, bound ∖ {[x]}) : res LinError _).
    sub IHe path Hf Hrefs. eexists _, _. split; [reflexivity|]. intros [Hx He]%Forall_cons_1 Hd Hno.
    destruct (Hi He Hd) as [? ?]; [set_solver|]. split; [by apply no_defs_minus|by constructor].
  - apply (resolved_two fuel e1 e2 AApp); auto using inl_app.
  - intros path bound Hf Hrefs. cbn [free_def_refs] in Hrefs.
    change (resolve defs (S fuel) (ARep e1 a b e2) bound) with
      ('(e', bound) ← resolve defs (S fuel) e1 bound; '(body2, bound) ← resolve defs (S fuel) e2 ({[b]} ∪ ({[a]} ∪ bound));
       Ok (ARep e' a b body2, (bound ∖ {[a]}) ∖ {[b]}) : res LinError _).
    sub IHe1 path Hf Hrefs. sub IHe2 path Hf Hrefs. eexists _, _. split; [reflexivity|].
    intros [He1 [Ha [Hb He2]%Forall_cons_1]%Forall_cons_1]%(fun H => proj1 (Forall_app _ _ _) H) Hd Hno.
    destruct (Hi He1 Hd Hno) as [Hno1 ?]. destruct (Hi0 He2 Hd) as [? ?]; [by apply no_defs_two|].
    split; [by do 2 apply no_defs_minus|by constructor].
  - apply (resolved_two fuel e1 e2 AEra); auto using inl_era.
  - apply (resolved_one fuel e AFix); auto using inl_fix.
  - intros path bound _ _. eexists _, _. split; [reflexivity|]. intros _ _ Hno. split; [done|constructor].
  - intros path bound _ _. eexists _, _. split; [reflexivity|]. intros _ _ Hno. split; [done|constructor].
  - apply (resolved_one fuel e (APerform l)); auto using inl_perform.
  - intros path bound Hf Hrefs. cbn [free_def_refs] in Hrefs.
    change (resolve defs (S fuel) (AHandle e bs) bound) with
      ('(comp2, bound) ← resolve defs (S fuel) e bound; '(bs2, bound) ← resolve_branches (resolve defs (S fuel)) bs bound;
       Ok (AHandle comp2 bs2, bound) : res LinError _).
    sub IHe path Hf Hrefs.
    destruct (resolve_bodies fuel bs ltac:(eassumption) path b' Hf) as (bs' & b2 & -> & Hi2); [intros; apply Hrefs; set_solver|].
    eexists _, _. split; [reflexivity|]. intros [He Hbs]%(fun H => proj1 (Forall_app _ _ _) H) Hd Hno.
    destruct (Hi He Hd Hno) as [Hno1 ?]. destruct (Hi2 Hbs Hd Hno1) as [? ?]. split; [done|by constructor].
Qed.
End Resolve.

Section Inlined.
Context {V F : Type} (defs : gmap (list Z) (Ast V F)).

Scheme inlined_mut := Induction for inlined Sort Prop
with inlined_branches_mut := Induction for inlined_branches Sort Prop.

Lemma inlined_uses e e' : inlined defs e e' -> Forall (fun n => defs !! n = None) (uses e').
Proof.
  induction 1 using inlined_mut with
    (P0 := fun bs bs' _ => Forall (fun n => defs !! n = None) (concat ((fun b => let '(mk_branch _ _ _ body) := b in uses body) <$> bs')));
    cbn [uses fmap list_fmap concat]; rewrite ?Forall_app; auto.
Qed.
End Inlined.

(** A binder that shadows another, both with the name of a definition: the
    outer occurrence becomes a copy of the definition. *)
Lemma resolve_unbinds :
  let e : Ast unit unit := AAbs [120] (AApp (AAbs [120] (AName [120])) (AName [120])) in
  pass0 {[ [120%Z] := AVal tt ]} e = Ok (AAbs [120] (AApp (AAbs [120] (AName [120])) (AVal tt))).
Proof. vm_compute. reflexivity. Qed.

(** A definition copied under a binder with the name of another definition it
    refers to: the reference is captured. *)
Lemma resolve_captures :
  let defs : gmap (list Z) (Ast unit unit) := {[ [97%Z] := AName [98]; [98%Z] := AVal tt ]} in
  pass0 defs (AName [97]) = Ok (AVal tt) /\ pass0 defs (AAbs [98] (AName [97])) = Ok (AAbs [98] (AName [98])).
Proof. vm_compute. split; reflexivity. Qed.

(** * Properties *)

