(* ===== verification/Pass1.v ===== *)
(** * Linearity ([crates/dnx-elab/src/pass1.rs])

    The second pass counts the occurrences of every binder with a stack of
    one-entry maps and rejects a term with a binder that is not used exactly
    once; it also records where [ΔA]/[ΔI] agents are needed and the level of
    every occurrence.  The reference is the count of free occurrences on the
    syntax tree, shadowing included. *)
From S2P Require Import Prelude Bytes Utf8 Text Error Ast.

Record Pass1Result : Type := mk_pass1 {
  era_used : bool;
  rep_used : bool;
  usage_levels : gmap (list Z) Z
}.
Definition pass1_default : Pass1Result := mk_pass1 false false ∅.
Definition set_era (r : Pass1Result) : Pass1Result := mk_pass1 true (rep_used r) (usage_levels r).
Definition set_rep (r : Pass1Result) : Pass1Result := mk_pass1 (era_used r) true (usage_levels r).
Definition set_level (n : Name) (l : Z) (r : Pass1Result) : Pass1Result :=
  mk_pass1 (era_used r) (rep_used r) (<[n := l]> (usage_levels r)).

(** The frames from the top of the stack down, and the merged view. *)
Record ScopeStack : Type := mk_stack { frames : list (gmap (list Z) Z); active : gmap (list Z) Z }.
Definition stack_new : ScopeStack := mk_stack [] ∅.

Definition stack_push (s : ScopeStack) (name : Name) : ScopeStack :=
  mk_stack ({[name := 0]} :: frames s) (<[name := 0]> (active s)).

Definition stack_pop (s : ScopeStack) (name : Name) : res LinError (Z * ScopeStack) :=
  match frames s with
  | [] => Panic
  | frame :: fs => Ok (default 0 (frame !! name), mk_stack fs (delete name (active s)))
  end.

(** [*c += 1] at the key, if it is there. *)
Definition bump_at (name : Name) (m : gmap (list Z) Z) : gmap (list Z) Z := alter (fun c => as_u32 (c + 1)) name m.

Fixpoint bump_frames (name : Name) (fs : list (gmap (list Z) Z)) : list (gmap (list Z) Z) :=
  match fs with
  | [] => []
  | f :: fs => if f !! name then bump_at name f :: fs else f :: bump_frames name fs
  end.

Definition stack_increment (s : ScopeStack) (name : Name) : ScopeStack :=
  mk_stack (bump_frames name (frames s)) (bump_at name (active s)).

Definition used_once (x : Name) (n : Z) : res LinError unit :=
  if n =? 0 then Err (Unused x) else if 1 <? n then Err (MultiUse x n) else Ok tt.

Section Collect.
Context {V F : Type}.

Definition collect_branches (collect : ScopeStack -> Pass1Result -> Ast V F -> res LinError (ScopeStack * Pass1Result)) :=
  fix go (counts : ScopeStack) (result : Pass1Result) (bs : list (HandlerBranch V F)) : res LinError (ScopeStack * Pass1Result) :=
  match bs with
  | [] => Ok (counts, result)
  | mk_branch _ arg k body :: bs =>
      '(counts, result) ← collect (stack_push (stack_push counts arg) k) result body;
      '(nk, counts) ← stack_pop counts k;
      '(na, counts) ← stack_pop counts arg;
      _ ← used_once arg na;
      _ ← used_once k nk;
      go counts result bs
  end.

Fixpoint collect (level : Z) (counts : ScopeStack) (result : Pass1Result) (e : Ast V F) :
    res LinError (ScopeStack * Pass1Result) :=
  match e with
  | AName n => Ok (stack_increment counts n, set_level n level result)
  | AAbs x body =>
      '(counts, result) ← collect level (stack_push counts x) result body;
      '(n, counts) ← stack_pop counts x;
      _ ← used_once x n;
      Ok (counts, result)
  | AApp f x =>
      '(counts, result) ← collect level counts result f;
      collect (as_u32 (level + 1)) counts result x
  | ARep e a b body =>
      '(counts, result) ← collect level counts (set_rep result) e;
      '(counts, result) ← collect level (stack_push (stack_push counts a) b) result body;
      '(nb, counts) ← stack_pop counts b;
      '(na, counts) ← stack_pop counts a;
      _ ← used_once a na;
      _ ← used_once b nb;
      Ok (counts, result)
  | AEra e body =>
      '(counts, result) ← collect level counts (set_era result) e;
      collect level counts result body
  | AFix e | APerform _ e => collect level counts result e
  | AHandle comp branches =>
      '(counts, result) ← collect level counts result comp;
      collect_branches (collect level) counts result branches
  | AVal _ | AFun _ => Ok (counts, result)
  end.

Definition pass1 (e : Ast V F) : res LinError Pass1Result :=
  '(_, result) ← collect 0 stack_new pass1_default e;
  Ok result.

(** ** The reference *)

(** Occurrences of [x] that refer to a binder outside [e]. *)
Fixpoint occ (e : Ast V F) (x : list Z) : nat :=
  match e with
  | AName n => if bool_decide (n = x) then 1 else 0
  | AAbs y body => if bool_decide (y = x) then 0 else occ body x
  | AApp f a => occ f x + occ a x
  | ARep e a b body => occ e x + if bool_decide (a = x) || bool_decide (b = x) then 0 else occ body x
  | AEra e body => occ e x + occ body x
  | AFix e | APerform _ e => occ e x
  | AHandle comp branches =>
      occ comp x + list_sum ((fun br => let '(mk_branch _ a k body) := br in
        if bool_decide (a = x) || bool_decide (k = x) then 0%nat else occ body x) <$> branches)
  | AVal _ | AFun _ => 0
  end.

(** What is wrong with a binder of this name used [n] times. *)
Definition misuse (x : Name) (n : nat) : option LinError :=
  match n with
  | 0%nat => Some (Unused x)
  | 1%nat => None
  | n => Some (MultiUse x (Z.of_nat n))
  end.
(** Two binders side by side: the second one shadows the first. *)
Definition misuse2 (a b : Name) (n : Name -> nat) : option LinError :=
  match misuse a (if bool_decide (a = b) then 0 else n a) with
  | Some err => Some err
  | None => misuse b (n b)
  end.
Definition first_of (a b : option LinError) : option LinError :=
  match a with Some err => Some err | None => b end.

(** The first misused binder, inner ones first. *)
Fixpoint lin_error (e : Ast V F) : option LinError :=
  match e with
  | AName _ | AVal _ | AFun _ => None
  | AAbs x body => first_of (lin_error body) (misuse x (occ body x))
  | AApp f a => first_of (lin_error f) (lin_error a)
  | ARep e a b body => first_of (lin_error e) (first_of (lin_error body) (misuse2 a b (occ body)))
  | AEra e body => first_of (lin_error e) (lin_error body)
  | AFix e | APerform _ e => lin_error e
  | AHandle comp branches =>
      first_of (lin_error comp)
        (foldr (fun br r => let '(mk_branch _ a k body) := br in
           first_of (lin_error body) (first_of (misuse2 a k (occ body)) r)) None branches)
  end.

(** Every binder is used exactly once. *)
Fixpoint linear (e : Ast V F) : Prop :=
  match e with
  | AName _ | AVal _ | AFun _ => True
  | AAbs x body => linear body /\ occ body x = 1%nat
  | AApp f a => linear f /\ linear a
  | ARep e a b body => linear e /\ linear body /\ a <> b /\ occ body a = 1%nat /\ occ body b = 1%nat
  | AEra e body => linear e /\ linear body
  | AFix e | APerform _ e => linear e
  | AHandle comp branches =>
      linear comp /\
      foldr (fun br P => let '(mk_branch _ a k body) := br in
        (linear body /\ a <> k /\ occ body a = 1%nat /\ occ body k = 1%nat) /\ P) True branches
  end.

(** The occurrences in the order of the traversal, with their levels. *)
Fixpoint occ_levels (level : Z) (e : Ast V F) : list (list Z * Z) :=
  match e with
  | AName n => [(n, level)]
  | AVal _ | AFun _ => []
  | AAbs _ body => occ_levels level body
  | AApp f a => occ_levels level f ++ occ_levels (as_u32 (level + 1)) a
  | ARep e _ _ body | AEra e body => occ_levels level e ++ occ_levels level body
  | AFix e | APerform _ e => occ_levels level e
  | AHandle comp branches =>
      occ_levels level comp ++
      concat ((fun br => let '(mk_branch _ _ _ body) := br in occ_levels level body) <$> branches)
  end.

Fixpoint has_era (e : Ast V F) : bool :=
  match e with
  | AName _ | AVal _ | AFun _ => false
  | AEra _ _ => true
  | AAbs _ e | AFix e | APerform _ e => has_era e
  | AApp f a => has_era f || has_era a
  | ARep e _ _ body => has_era e || has_era body
  | AHandle comp branches =>
      has_era comp || existsb (fun br => let '(mk_branch _ _ _ body) := br in has_era body) branches
  end.
Fixpoint has_rep (e : Ast V F) : bool :=
  match e with
  | AName _ | AVal _ | AFun _ => false
  | ARep _ _ _ _ => true
  | AAbs _ e | AFix e | APerform _ e => has_rep e
  | AApp f a => has_rep f || has_rep a
  | AEra e body => has_rep e || has_rep body
  | AHandle comp branches =>
      has_rep comp || existsb (fun br => let '(mk_branch _ _ _ body) := br in has_rep body) branches
  end.

(** The result of the pass on a linear term, on top of an earlier one. *)
Definition add_levels (ls : list (list Z * Z)) (m : gmap (list Z) Z) : gmap (list Z) Z :=
  foldl (fun m nl => <[nl.1 := nl.2]> m) m ls.
Definition pass1_of (level : Z) (e : Ast V F) (r : Pass1Result) : Pass1Result :=
  mk_pass1 (era_used r || has_era e) (rep_used r || has_rep e) (add_levels (occ_levels level e) (usage_levels r)).
End Collect.

(** A stack of one-entry maps, and what counting [g name] occurrences of every
    name adds to it. *)
Definition frame_of (l : list (list Z * Z)) : list (gmap (list Z) Z) := (fun xc => {[xc.1 := xc.2]}) <$> l.
Fixpoint tally (g : list Z -> nat) (l : list (list Z * Z)) : list (list Z * Z) :=
  match l with
  | [] => []
  | (x, c) :: l => (x, c + Z.of_nat (g x)) :: tally (fun y => if bool_decide (y = x) then 0%nat else g y) l
  end.
(** The counts stay below 2^32 over [n] more occurrences. *)
Definition room (n : nat) (l : list (list Z * Z)) : Prop :=
  Z.of_nat n < 2 ^ 32 /\ Forall (fun xc => 0 <= xc.2 /\ xc.2 + Z.of_nat n < 2 ^ 32) l.

(** * Lemmas *)

(** ** Counting *)

Lemma tally_ext l : forall g h, (forall x, g x = h x) -> tally g l = tally h l.
Proof.
  induction l as [|[x c] l IH]; intros g h H; cbn; [done|]. rewrite H. f_equal. apply IH. intros y.
  by case_bool_decide.
Qed.

Lemma tally_0 l : tally (fun _ => 0%nat) l = l.
Proof.
  induction l as [|[x c] l IH]; cbn; [done|]. rewrite Z.add_0_r. f_equal.
  rewrite <- IH at 2. apply tally_ext. intros y. by case_bool_decide.
Qed.

Lemma tally_add l : forall g h, tally g (tally h l) = tally (fun x => (h x + g x)%nat) l.
Proof.
  induction l as [|[x c] l IH]; intros g h; cbn; [done|]. rewrite IH. f_equal; [f_equal; lia|].
  apply tally_ext. intros y. by case_bool_decide.
Qed.

Lemma room_mono n m l : (m <= n)%nat -> room n l -> room m l.
Proof. intros Hm [H1 H2]. split; [lia|]. eapply Forall_impl; [exact H2|]. intros [x c] ?; cbn in *; lia. Qed.

Lemma room_push n x l : room n l -> room n ((x, 0) :: l).
Proof. intros [H1 H2]. split; [done|]. constructor; [cbn; lia|done]. Qed.

Lemma room_tally n m l : forall g, (forall x, (g x <= n)%nat) -> room (n + m) l -> room m (tally g l).
Proof.
  induction l as [|[x c] l IH]; intros g Hg [H1 H2]; (split; [lia|]); cbn; [done|].
  inversion_clear H2 as [|?? H3 H4]. cbn in H3. constructor; [cbn; specialize (Hg x); lia|].
  apply IH; [|by split]. intros y. case_bool_decide; [lia|apply Hg].
Qed.

Lemma bump_frames_tally name l : room 1 l ->
  bump_frames name (frame_of l) = frame_of (tally (fun x => if bool_decide (name = x) then 1%nat else 0%nat) l).
Proof.
  unfold frame_of. induction l as [|[x c] l IH]; intros [H1 H2]; [done|].
  cbn [fmap list_fmap bump_frames tally fst snd]. inversion_clear H2 as [|?? H3 H4].
  cbn in H3. destruct (decide (name = x)) as [->|Hne].
  - rewrite lookup_singleton_eq, bool_decide_eq_true_2 by done. unfold bump_at. rewrite alter_singleton_eq.
    f_equal; [by rewrite as_u32_small by (unfold u32_range; lia)|]. rewrite <- (tally_0 l) at 1. f_equal. apply tally_ext. intros y.
    case_bool_decide; [done|]. by rewrite bool_decide_eq_false_2 by congruence.
  - rewrite lookup_singleton_ne, bool_decide_eq_false_2 by congruence. rewrite IH by by split.
    f_equal; [by rewrite Z.add_0_r|]. f_equal. apply tally_ext. intros y.
    destruct (decide (y = x)) as [->|Hy]; [|by rewrite (bool_decide_eq_false_2 (y = x)) by done].
    rewrite (bool_decide_eq_true_2 (x = x)) by done. by rewrite bool_decide_eq_false_2 by done.
Qed.

Lemma used_once_misuse x n :
  used_once x (Z.of_nat n) = match misuse x n with Some err => Err err | None => Ok tt end.
Proof. destruct n as [|[|n]]; [done..|]. unfold used_once, misuse. rewrite (proj2 (Z.eqb_neq _ 0)), (proj2 (Z.ltb_lt 1 _)) by lia. done. Qed.

Lemma pop_top x c l act : stack_pop (mk_stack (frame_of ((x, c) :: l)) act) x = Ok (c, mk_stack (frame_of l) (delete x act)).
Proof. unfold stack_pop. cbn [frames frame_of fmap list_fmap fst snd active]. by rewrite lookup_singleton_eq. Qed.

Lemma push_frame x l act : stack_push (mk_stack (frame_of l) act) x = mk_stack (frame_of ((x, 0) :: l)) (<[x:=0]> act).
Proof. done. Qed.

Lemma misuse_none x n : misuse x n = None <-> n = 1%nat.
Proof. destruct n as [|[|n]]; cbn; split; done. Qed.

Lemma misuse2_none a b n : misuse2 a b n = None <-> a <> b /\ n a = 1%nat /\ n b = 1%nat.
Proof.
  unfold misuse2. case_bool_decide; [cbn; split; [done|tauto]|].
  destruct (misuse a (n a)) eqn:E.
  - split; [done|]. intros (_ & H1%(misuse_none a) & _). congruence.
  - apply misuse_none in E. rewrite misuse_none. tauto.
Qed.

Lemma first_of_none a b : first_of a b = None <-> a = None /\ b = None.
Proof. destruct a; cbn; split; try done; intros [? ?]; done. Qed.

Section Collected.
Context {V F : Type}.
Implicit Types e : Ast V F.

Lemma lin_error_linear e : lin_error e = None <-> linear e.
Proof.
  induction e using ast_ind; cbn; rewrite ?first_of_none, ?misuse_none, ?misuse2_none; try tauto.
  rewrite IHe. apply and_iff_compat_l.
  match goal with H : Forall _ _ |- _ => induction H as [|[lb x k body] bs Hb _ IH] end; cbn; [done|].
  cbn in Hb. rewrite !first_of_none, misuse2_none, Hb, IH. tauto.
Qed.

Lemma occ_uses e x : (occ e x <= length (uses e))%nat.
Proof.
  induction e using ast_ind; cbn; rewrite ?length_app; repeat case_bool_decide; cbn [orb]; try lia.
  assert (list_sum ((fun br : HandlerBranch V F => let '(mk_branch _ a k body) := br in
    if bool_decide (a = x) || bool_decide (k = x) then 0%nat else occ body x) <$> bs)
    <= length (concat ((fun b : HandlerBranch V F => let '(mk_branch _ _ _ body) := b in uses body) <$> bs)))%nat; [|lia].
  match goal with H : Forall _ _ |- _ => induction H as [|[lb a k body] bs Hb _ IH] end; cbn; [done|].
  cbn in Hb. unfold list_sum in IH. rewrite length_app. destruct (_ || _); lia.
Qed.

(** The two binders of a replicator or of a handler branch. *)
Lemma tally2 (g : list Z -> nat) a b l : tally g ((b, 0) :: (a, 0) :: l) =
  (b, Z.of_nat (g b)) :: (a, Z.of_nat (if bool_decide (a = b) then 0 else g a)) ::
  tally (fun x => if bool_decide (a = x) || bool_decide (b = x) then 0%nat else g x) l.
Proof.
  cbn [tally]. f_equal. f_equal. apply tally_ext. intros x.
  destruct (decide (x = a)) as [->|Ha]; [by rewrite !(bool_decide_eq_true_2 (a = a)) by done|].
  rewrite (bool_decide_eq_false_2 (x = a)), (bool_decide_eq_false_2 (a = x)) by done. cbn [orb].
  destruct (decide (x = b)) as [->|Hb]; [by rewrite !(bool_decide_eq_true_2 (b = b)) by done|].
  by rewrite (bool_decide_eq_false_2 (x = b)), (bool_decide_eq_false_2 (b = x)) by done.
Qed.

(** Leaving two binders: the check the code makes, in its order. *)
Lemma pop2 {R} a b na nb l act (k : ScopeStack -> res LinError R) (g : list Z -> nat) :
  nb = g b -> na = (if bool_decide (a = b) then 0%nat else g a) -> exists act',
  ('(n2, counts) ← stack_pop (mk_stack (frame_of ((b, Z.of_nat nb) :: (a, Z.of_nat na) :: l)) act) b;
   '(n1, counts) ← stack_pop counts a;
   _ ← used_once a n1;
   _ ← used_once b n2;
   k counts) =
  match misuse2 a b g with Some err => Err err | None => k (mk_stack (frame_of l) act') end.
Proof.
  intros -> ->. eexists. rewrite pop_top. cbn [mbind res_bind]. rewrite pop_top. cbn [mbind res_bind].
  rewrite !used_once_misuse. unfold misuse2. destruct (misuse a _); [done|]. by destruct (misuse b _).
Qed.

(** A computation of the pass on [e] (part of a term), from any counts with room. *)
Definition collected (level : Z) (e : Ast V F) : Prop := forall l act r, room (length (uses e)) l -> exists act',
  collect level (mk_stack (frame_of l) act) r e =
  match lin_error e with
  | Some err => Err err
  | None => Ok (mk_stack (frame_of (tally (occ e) l)) act', pass1_of level e r)
  end.

Lemma collected_name level n : collected level (AName n).
Proof.
  intros l act r Hl. eexists. cbn [collect lin_error]. unfold stack_increment. cbn [frames].
  rewrite bump_frames_tally by exact Hl. unfold pass1_of, set_level. cbn. by rewrite !orb_false_r.
Qed.

Lemma collected_abs level x e : collected level e -> collected level (AAbs x e).
Proof.
  intros IH l act r Hl. cbn [collect lin_error uses] in *. rewrite push_frame.
  destruct (IH ((x, 0) :: l) (<[x:=0]> act) r) as [act' ->]; [by apply room_push|].
  destruct (lin_error e); [by exists ∅|]. cbn [mbind res_bind tally]. rewrite pop_top. cbn [mbind res_bind first_of].
  rewrite Z.add_0_l, used_once_misuse. eexists. destruct (misuse _ _); [done|]. cbn [mbind res_bind].
  do 4 f_equal. apply tally_ext. intros y. cbn [occ]. by rewrite (bool_decide_ext (y = x) (x = y)).
Qed.

(** Two parts, one after the other. *)
Lemma collected_seq level1 level2 e1 e2 l act r : collected level1 e1 -> collected level2 e2 ->
  room (length (uses e1) + length (uses e2)) l -> exists act',
  ('(counts, result) ← collect level1 (mk_stack (frame_of l) act) r e1; collect level2 counts result e2) =
  match first_of (lin_error e1) (lin_error e2) with
  | Some err => Err err
  | None => Ok (mk_stack (frame_of (tally (fun x => (occ e1 x + occ e2 x)%nat) l)) act', pass1_of level2 e2 (pass1_of level1 e1 r))
  end.
Proof.
  intros IH1 IH2 Hl. destruct (IH1 l act r) as [act1 ->]; [eapply room_mono; [|exact Hl]; lia|].
  destruct (lin_error e1); [by exists ∅|]. cbn [mbind res_bind first_of].
  destruct (IH2 (tally (occ e1) l) act1 (pass1_of level1 e1 r)) as [act2 ->].
  { eapply room_tally; [intros; apply occ_uses|exact Hl]. }
  exists act2. destruct (lin_error e2); [done|]. by rewrite tally_add.
Qed.

(** A part under two binders. *)
Lemma collected_two {R} level a b e l act r (k : Pass1Result -> ScopeStack -> res LinError R) :
  collected level e -> room (length (uses e)) l -> exists act',
  ('(counts, result) ← collect level (stack_push (stack_push (mk_stack (frame_of l) act) a) b) r e;
   '(n2, counts) ← stack_pop counts b;
   '(n1, counts) ← stack_pop counts a;
   _ ← used_once a n1;
   _ ← used_once b n2;
   k result counts) =
  match first_of (lin_error e) (misuse2 a b (occ e)) with
  | Some err => Err err
  | None => k (pass1_of level e r) (mk_stack (frame_of
      (tally (fun x => if bool_decide (a = x) || bool_decide (b = x) then 0%nat else occ e x) l)) act')
  end.
Proof.
  intros IH Hl. rewrite push_frame, push_frame.
  destruct (IH ((b, 0) :: (a, 0) :: l) (<[b:=0]> (<[a:=0]> act)) r) as [act1 ->]; [by do 2 apply room_push|].
  destruct (lin_error e); [by exists ∅|]. cbn [mbind res_bind first_of]. rewrite tally2.
  by apply pop2.
Qed.

Definition branch_occ (br : HandlerBranch V F) (x : list Z) : nat :=
  let '(mk_branch _ a k body) := br in if bool_decide (a = x) || bool_decide (k = x) then 0%nat else occ body x.
Definition branches_error (bs : list (HandlerBranch V F)) : option LinError :=
  foldr (fun br r => let '(mk_branch _ a k body) := br in
    first_of (lin_error body) (first_of (misuse2 a k (occ body)) r)) None bs.
Definition branches_of (level : Z) (bs : list (HandlerBranch V F)) (r : Pass1Result) : Pass1Result :=
  foldl (fun r br => pass1_of level (br_body br) r) r bs.

Lemma collected_branches level bs : Forall (fun b => forall level, collected level (br_body b)) bs -> forall l act r,
  room (list_sum ((fun br => length (uses (br_body br))) <$> bs)) l -> exists act',
  collect_branches (collect level) (mk_stack (frame_of l) act) r bs =
  match branches_error bs with
  | Some err => Err err
  | None => Ok (mk_stack (frame_of (tally (fun x => list_sum ((fun br => branch_occ br x) <$> bs)) l)) act', branches_of level bs r)
  end.
Proof.
  induction 1 as [|[lb a k body] bs Hb _ IH]; intros l act r Hl.
  { exists act. cbn. by rewrite tally_0. }
  cbn [br_body] in Hb. cbn [collect_branches branches_error foldr]. fold (branches_error bs).
  edestruct (collected_two level a k body l act r (fun result counts => collect_branches (collect level) counts result bs))
    as [act1 ->]; [apply Hb|eapply room_mono; [|exact Hl]; cbn; lia|].
  destruct (lin_error body); [by exists ∅|]. cbn [first_of]. destruct (misuse2 _ _ _); [by exists ∅|].
  destruct (IH (tally (branch_occ (mk_branch lb a k body)) l) act1 (pass1_of level body r)) as [act2 E].
  { eapply (room_tally (length (uses body))); [|exact Hl]. intros x. cbn. destruct (_ || _); [lia|apply occ_uses]. }
  exists act2. cbn [first_of]. etransitivity; [exact E|]. destruct (branches_error bs); [done|]. by rewrite tally_add.
Qed.

Lemma pass1_of_seq level1 level2 e1 e2 r :
  pass1_of level2 e2 (pass1_of level1 e1 r) =
  mk_pass1 (era_used r || (has_era e1 || has_era e2)) (rep_used r || (has_rep e1 || has_rep e2))
    (add_levels (occ_levels level1 e1 ++ occ_levels level2 e2) (usage_levels r)).
Proof. unfold pass1_of, add_levels. cbn. by rewrite !orb_assoc, foldl_app. Qed.

Lemma branches_of_spec level bs : forall r, branches_of level bs r =
  mk_pass1 (era_used r || existsb (fun br => let '(mk_branch _ _ _ body) := br in has_era body) bs)
    (rep_used r || existsb (fun br => let '(mk_branch _ _ _ body) := br in has_rep body) bs)
    (add_levels (concat ((fun br => let '(mk_branch _ _ _ body) := br in occ_levels level body) <$> bs)) (usage_levels r)).
Proof.
  induction bs as [|[lb a k body] bs IH]; intros r; [destruct r; cbn; by rewrite !orb_false_r|].
  change (branches_of level bs (pass1_of level body r) = mk_pass1
    (era_used r || (has_era body || existsb (fun br => let '(mk_branch _ _ _ body) := br in has_era body) bs))
    (rep_used r || (has_rep body || existsb (fun br => let '(mk_branch _ _ _ body) := br in has_rep body) bs))
    (add_levels (occ_levels level body ++
      concat ((fun br => let '(mk_branch _ _ _ body) := br in occ_levels level body) <$> bs)) (usage_levels r))).
  rewrite IH. unfold pass1_of, add_levels. cbn.
  by rewrite !orb_assoc, foldl_app.
Qed.

Lemma collect_spec e : forall level, collected level e.
Proof.
  induction e using ast_ind; intros level; try exact (collected_name level n); try (by apply collected_abs);
    intros l0 act r Hl; cbn [uses] in Hl; rewrite ?length_app in Hl; cbn [collect lin_error].
  - destruct (collected_seq level (as_u32 (level + 1)) e1 e2 l0 act r) as [act' ->]; [done..|].
    exists act'. by rewrite pass1_of_seq.
  - destruct (IHe1 level l0 act (set_rep r)) as [act1 ->]; [eapply room_mono; [|exact Hl]; lia|].
    destruct (lin_error e1); [by exists ∅|]. cbn [mbind res_bind first_of].
    destruct (collected_two level a b e2 (tally (occ e1) l0) act1 (pass1_of level e1 (set_rep r)) (fun result counts => Ok (counts, result)))
      as [act2 ->]; [done|eapply room_tally; [intros; apply occ_uses|exact Hl]|].
    exists act2. destruct (first_of _ _); [done|]. rewrite tally_add, pass1_of_seq. do 2 f_equal.
    unfold pass1_of. cbn. by rewrite orb_true_r.
  - destruct (collected_seq level level e1 e2 l0 act (set_era r)) as [act' ->]; [done..|].
    exists act'. rewrite pass1_of_seq. unfold pass1_of. cbn. by rewrite orb_true_r.
  - destruct (IHe level l0 act r Hl) as [act' ->]. by exists act'.
  - exists act. cbn. rewrite tally_0. unfold pass1_of. cbn. rewrite !orb_false_r. by destruct r.
  - exists act. cbn. rewrite tally_0. unfold pass1_of. cbn. rewrite !orb_false_r. by destruct r.
  - destruct (IHe level l0 act r Hl) as [act' ->]. by exists act'.
  - destruct (IHe level l0 act r) as [act1 ->]; [eapply room_mono; [|exact Hl]; lia|].
    destruct (lin_error e); [by exists ∅|]. cbn [mbind res_bind first_of].
    destruct (collected_branches level bs ltac:(eassumption) (tally (occ e) l0) act1 (pass1_of level e r)) as [act2 ->].
    { eapply room_tally; [intros; apply occ_uses|]. rewrite length_concat in Hl. eapply room_mono; [|exact Hl].
      apply Nat.add_le_mono_l. rewrite <- list_fmap_compose. apply Nat.eq_le_incl. f_equal.
      apply list_fmap_ext. by intros ? [] ?. }
    exists act2. unfold branches_error. destruct (foldr _ _ _); [done|]. rewrite tally_add, branches_of_spec.
    do 2 f_equal. unfold pass1_of. cbn. by rewrite !orb_assoc, foldl_app.
Qed.

Lemma pass1_answer e : Z.of_nat (length (uses e)) < 2 ^ 32 ->
  pass1 e = match lin_error e with
            | Some err => Err err
            | None => Ok (mk_pass1 (has_era e) (has_rep e) (add_levels (occ_levels 0 e) ∅))
            end.
Proof.
  intros He. unfold pass1. destruct (collect_spec e 0 [] ∅ pass1_default) as [act E]; [by split|].
  change stack_new with (mk_stack (frame_of []) ∅). rewrite E. by destruct (lin_error e).
Qed.
End Collected.

(** * Properties *)

(** C22: the pass rejects a term with the error of the first misused binder
    (inner binders first, the first of two before the second), a binder being
    misused when it has no occurrence or more than one in its scope; it
    accepts exactly the linear terms, and then reports whether erasers and
    replicators occur and the level (the number of arguments passed through)
    of the last occurrence of every name. *)
Theorem pass1_linear {V F} (e : Ast V F) : Z.of_nat (length (uses e)) < 2 ^ 32 ->
  pass1 e = match lin_error e with
            | Some err => Err err
            | None => Ok (mk_pass1 (has_era e) (has_rep e) (add_levels (occ_levels 0 e) ∅))
            end /\
  (lin_error e = None <-> linear e).
Proof.
  intros He. split; [by apply pass1_answer|apply lin_error_linear].
Qed.

(** [λx. rep x as (a, b) in a b]. *)
Definition sharing : Ast unit unit :=
  AAbs [120] (ARep (AName [120]) [97] [98] (AApp (AName [97]) (AName [98]))).

Lemma pass1_linear_witness :
  (exists m, pass1 sharing = Ok (mk_pass1 false true m) /\ m !! [98] = Some 1) /\ linear sharing /\
  pass1 (AAbs [120] (AAbs [120] (AName [120])) : Ast unit unit) = Err (Unused [120]).
Proof.
  split; [|split].
  - destruct (pass1_linear sharing ltac:(vm_compute; done)) as [-> _]. eexists. split; [reflexivity|]. vm_compute. done.
  - apply (pass1_linear sharing ltac:(vm_compute; done)). reflexivity.
  - destruct (pass1_linear (AAbs [120] (AAbs [120] (AName [120])) : Ast unit unit) ltac:(vm_compute; done)) as [-> _].
    reflexivity.
Defined.
