(* ===== verification/Share.v ===== *)
(** * Making sharing explicit ([crates/dnx-lang/src/parser/helpers.rs])

    A front end lowers a binder and its body, counts the uses of the variable
    and calls [wrap_uses]: no use becomes an eraser, several uses a chain of
    replicators over numbered copies of the name.  The Nix, Python and
    TypeScript front ends have the same functions, except that the last two
    do not count below [Fix].  [den] is the meaning of a term in which the
    copies of a variable are the variable. *)
From S2P Require Import Prelude Bytes Utf8 Text Error Ast Pass1.

Section Share.
Context {V F : Type}.
Notation E := (Ast V F).

(** [{name}__{i}]. *)
Definition split_name (name : Name) (i : nat) : list Z := name ++ chars "__" ++ digits 20 (Z.of_nat i) [].
(** [__rr_{name}], the rest of a chain. *)
Definition rest_name (name : Name) : list Z := chars "__rr_" ++ name.

Fixpoint indexed_rename (e : E) (from : Name) (names : list (list Z)) (idx : nat) : res DnxError (E * nat) :=
  match e with
  | AName n =>
      if bool_decide (n = from) then r ← index names idx; Ok (AName r, S idx)
      else Ok (AName n, idx)
  | AAbs x body =>
      if bool_decide (x = from) then Ok (AAbs x body, idx)
      else '(body, idx) ← indexed_rename body from names idx; Ok (AAbs x body, idx)
  | AApp f x =>
      '(f, idx) ← indexed_rename f from names idx;
      '(x, idx) ← indexed_rename x from names idx;
      Ok (AApp f x, idx)
  | ARep e a b body =>
      '(e2, idx) ← indexed_rename e from names idx;
      if bool_decide (a = from) || bool_decide (b = from) then Ok (ARep e2 a b body, idx)
      else '(body, idx) ← indexed_rename body from names idx; Ok (ARep e2 a b body, idx)
  | AEra e body =>
      '(e, idx) ← indexed_rename e from names idx;
      '(body, idx) ← indexed_rename body from names idx;
      Ok (AEra e body, idx)
  | AFix e => '(e, idx) ← indexed_rename e from names idx; Ok (AFix e, idx)
  | other => Ok (other, idx)
  end.

Fixpoint nest_reps (e : E) (names : list (list Z)) (body : E) : res DnxError E :=
  match names with
  | a :: (b :: more) as names' =>
      match more with
      | [] => Ok (ARep e a b body)
      | _ =>
          let rest := rest_name b in
          inner ← nest_reps (AName rest) names' body;
          Ok (ARep e a rest inner)
      end
  | _ => Panic
  end.

Definition build_rep_chain (name : Name) (uses : nat) (body : E) : res DnxError E :=
  if (uses <=? 1)%nat then Ok body
  else
    let names := split_name name <$> seq 0 uses in
    '(body, _) ← indexed_rename body name names 0;
    nest_reps (AName name) names body.

Definition wrap_uses (name : Name) (uses : nat) (body : E) : res DnxError E :=
  match uses with
  | O => Ok (AEra (AName name) body)
  | 1%nat => Ok body
  | n => build_rep_chain name n body
  end.

(** [count_uses_in] of the Nix front end ([in_fix]) and of the other two. *)
Fixpoint count_uses (in_fix : bool) (e : E) (name : Name) : nat :=
  match e with
  | AName n => if bool_decide (n = name) then 1 else 0
  | AAbs x body => if bool_decide (x = name) then 0 else count_uses in_fix body name
  | AApp f x => count_uses in_fix f name + count_uses in_fix x name
  | ARep e a b body =>
      count_uses in_fix e name +
      (if bool_decide (a = name) || bool_decide (b = name) then 0 else count_uses in_fix body name)
  | AEra e body => count_uses in_fix e name + count_uses in_fix body name
  | AFix e => if in_fix then count_uses in_fix e name else 0
  | AVal _ | AFun _ | APerform _ _ | AHandle _ _ => 0
  end.
Definition count_uses_in : E -> Name -> nat := count_uses true.
Definition count_uses_flat : E -> Name -> nat := count_uses false.

(** ** The meaning of a term *)

(** A variable is the level of its binder, or a free name. *)
Inductive dtm : Type :=
| DVar (v : nat + list Z)
| DAbs (body : dtm)
| DApp (f x : dtm)
| DRep (e body : dtm)
| DEra (e body : dtm)
| DFix (e : dtm)
| DVal (v : V)
| DFun (f : F)
| DPerform (label : list Z) (e : dtm)
| DHandle (comp : dtm) (branches : list (list Z * dtm)).

Notation denv := (gmap (list Z) (nat + list Z)) (only parsing).

(** What a name stands for. *)
Definition target (ρ : gmap (list Z) (nat + list Z)) (n : Name) : nat + list Z := default (inr n) (ρ !! n).

Fixpoint den (ρ : gmap (list Z) (nat + list Z)) (d : nat) (e : E) : dtm :=
  match e with
  | AName n => DVar (target ρ n)
  | AAbs x body => DAbs (den (<[x := inl d]> ρ) (S d) body)
  | AApp f x => DApp (den ρ d f) (den ρ d x)
  | ARep (AName y) a b body => den (<[b := target ρ y]> (<[a := target ρ y]> ρ)) d body
  | AEra (AName _) body => den ρ d body
  | ARep e a b body => DRep (den ρ d e) (den (<[b := inl (S d)]> (<[a := inl d]> ρ)) (S (S d)) body)
  | AEra e body => DEra (den ρ d e) (den ρ d body)
  | AFix e => DFix (den ρ d e)
  | AVal v => DVal v
  | AFun f => DFun f
  | APerform l e => DPerform l (den ρ d e)
  | AHandle comp bs =>
      DHandle (den ρ d comp)
        ((fun br => let '(mk_branch l x k body) := br in
            (l, den (<[k := inl (S d)]> (<[x := inl d]> ρ)) (S (S d)) body)) <$> bs)
  end.

(** ** Names *)

(** A numbered copy of [x], or the rest of a chain of them. *)
Definition copy_of (x n : Name) : Prop := exists i, n = split_name x i \/ n = rest_name (split_name x i).
Definition copied (n : Name) : Prop := exists x, copy_of x n.

(** Names that cannot be mistaken for a copy of another one. *)
Definition ident (n : Name) : Prop := ~ copied n /\ ~ (exists m, n = rest_name m).

(** No copy of [x] is bound around an occurrence of [x]. *)
Fixpoint apart (x : Name) (e : E) : Prop :=
  match e with
  | AName _ | AVal _ | AFun _ => True
  | AAbs z body => z = x \/ (~ copy_of x z /\ apart x body)
  | AApp f a => apart x f /\ apart x a
  | ARep e a b body => apart x e /\ ((a = x \/ b = x) \/ (~ copy_of x a /\ ~ copy_of x b /\ apart x body))
  | AEra e body => apart x e /\ apart x body
  | AFix e => apart x e
  | APerform _ _ | AHandle _ _ => True
  end.

(** What lowering keeps: linear, without copies escaping or capturing. *)
Record tidy (e : E) : Prop := mk_tidy {
  td_linear : linear e;
  td_free : forall n, copied n -> occ e n = 0%nat;
  td_apart : forall x, ident x -> apart x e
}.
End Share.
Arguments dtm : clear implicits.

(** * Lemmas *)

(** ** Names *)

Lemma digits_tail a b s t : (forall c, c ∈ s -> 48 <= c <= 57) -> (forall c, c ∈ t -> 48 <= c <= 57) ->
  a ++ [95; 95] ++ s = b ++ [95; 95] ++ t -> a = b /\ s = t.
Proof.
  intros Hs Ht H. apply (f_equal reverse) in H. rewrite !reverse_app in H.
  change (reverse [95; 95]) with [95; 95] in H.
  assert (forall (s t a b : list Z), (forall c, c ∈ s -> 48 <= c <= 57) -> (forall c, c ∈ t -> 48 <= c <= 57) ->
    (s ++ [95; 95]) ++ a = (t ++ [95; 95]) ++ b -> s = t /\ a = b) as Hd.
  { clear. induction s as [|c s IH]; intros [|c' t] a b Hs Ht H; cbn in H.
    - by injection H as ->.
    - injection H as <- _. exfalso. specialize (Ht 95 ltac:(left)). lia.
    - injection H as -> _. exfalso. specialize (Hs 95 ltac:(left)). lia.
    - injection H as -> H. apply IH in H as [-> ->]; [done|intros x Hx; apply Hs; by right|intros x Hx; apply Ht; by right]. }
  apply Hd in H as [H1 H2].
  - apply (f_equal reverse) in H1, H2. by rewrite !reverse_involutive in H1, H2.
  - intros c Hc. apply Hs. by apply elem_of_reverse.
  - intros c Hc. apply Ht. by apply elem_of_reverse.
Qed.

Lemma split_inj x y i j : Z.of_nat i < 10 ^ 20 -> Z.of_nat j < 10 ^ 20 -> split_name x i = split_name y j -> x = y /\ i = j.
Proof.
  intros Hi Hj H. apply digits_tail in H as [-> H]; [|by intros c; apply digits_chars..]. split; [done|].
  apply digits_inj in H; [lia|lia|split; [lia|]..]; change (10 ^ Z.of_nat 20) with (10 ^ 20); lia.
Qed.

Lemma split_base x y i j : split_name x i = split_name y j -> x = y.
Proof. intros H. by apply digits_tail in H as [-> _]; [|intros c; apply digits_chars..]. Qed.

Lemma rest_split x i : rest_name (split_name x i) = split_name (rest_name x) i.
Proof. unfold rest_name, split_name. by rewrite <- !app_assoc. Qed.

Lemma copy_of_inj x y n : ident x -> ident y -> copy_of x n -> copy_of y n -> x = y.
Proof.
  intros [_ Hx] [_ Hy] (i & Hi) (j & Hj). rewrite rest_split in Hi, Hj.
  destruct Hi as [->| ->], Hj as [Hj|Hj]; apply split_base in Hj.
  - done.
  - destruct Hx. by eexists.
  - destruct Hy. exists x. done.
  - unfold rest_name in Hj. by apply app_inv_head in Hj.
Qed.

(** ** Meaning *)

Section Meaning.
Context {V F : Type}.
Implicit Types e : Ast V F.

Lemma target_insert ρ x v y : target (<[x := v]> ρ) y = if decide (y = x) then v else target ρ y.
Proof.
  unfold target. destruct (decide (y = x)) as [->|]; [by rewrite lookup_insert_eq|by rewrite lookup_insert_ne].
Qed.

Notation is_name e := (match e with AName _ => true | _ => false end).

Lemma den_rep ρ d e a b body : is_name e = false ->
  den ρ d (ARep e a b body) = DRep (den ρ d e) (den (<[b := inl (S d)]> (<[a := inl d]> ρ)) (S (S d)) body).
Proof. by destruct e. Qed.

Lemma den_era ρ d e body : is_name e = false -> den ρ d (AEra e body) = DEra (den ρ d e) (den ρ d body).
Proof. by destruct e. Qed.

(** The meaning depends on the free names only. *)
Lemma den_ext e : forall ρ ρ' d, (forall y, occ e y <> 0%nat -> target ρ y = target ρ' y) -> den ρ d e = den ρ' d e.
Proof.
  assert (forall (body : Ast V F) x (ρ ρ' : gmap (list Z) (nat + list Z)) v v', v = v' ->
    (forall y, (if bool_decide (x = y) then 0%nat else occ body y) <> 0%nat -> target ρ y = target ρ' y) ->
    forall y, occ body y <> 0%nat -> target (<[x := v]> ρ) y = target (<[x := v']> ρ') y) as H1.
  { intros body x ρ ρ' v v' -> H y Hy. rewrite !target_insert. destruct (decide (y = x)) as [|Hne]; [done|].
    apply H. by rewrite bool_decide_eq_false_2. }
  assert (forall (body : Ast V F) a b (ρ ρ' : gmap (list Z) (nat + list Z)) v v' w w', v = v' -> w = w' ->
    (forall y, (if bool_decide (a = y) || bool_decide (b = y) then 0%nat else occ body y) <> 0%nat -> target ρ y = target ρ' y) ->
    forall y, occ body y <> 0%nat -> target (<[b := w]> (<[a := v]> ρ)) y = target (<[b := w']> (<[a := v']> ρ')) y) as H2.
  { intros body a b ρ ρ' v v' w w' -> -> H y Hy. rewrite !target_insert. destruct (decide (y = b)) as [|Hb]; [done|].
    destruct (decide (y = a)) as [|Ha]; [done|]. apply H. by rewrite !bool_decide_eq_false_2. }
  induction e using ast_ind; intros ρ ρ' d He; cbn [occ] in He; try reflexivity.
  - cbn. rewrite (He n); [done|]. by rewrite bool_decide_eq_true_2.
  - cbn. f_equal. apply IHe. by apply H1.
  - cbn. f_equal; [apply IHe1|apply IHe2]; intros y Hy; apply He; lia.
  - assert (forall y, occ e1 y <> 0%nat -> target ρ y = target ρ' y) as He1 by (intros y Hy; apply He; lia).
    destruct (is_name e1) eqn:Hn.
    + destruct e1; try discriminate. cbn. assert (target ρ n = target ρ' n) as Ht by (apply He1; cbn; by rewrite bool_decide_eq_true_2).
      apply IHe2. apply H2; [done..|]. intros y Hy. apply He. lia.
    + rewrite !den_rep by done. f_equal; [by apply IHe1|]. apply IHe2, H2; [done..|]. intros y Hy. apply He. lia.
  - destruct (is_name e1) eqn:Hn.
    + destruct e1; try discriminate. cbn. apply IHe2. intros y Hy. apply He. lia.
    + rewrite !den_era by done. f_equal; [apply IHe1|apply IHe2]; intros y Hy; apply He; lia.
  - cbn. f_equal. by apply IHe.
  - cbn. f_equal. by apply IHe.
  - cbn. f_equal; [apply IHe; intros y Hy; apply He; lia|].
    match goal with H : Forall _ _ |- _ => induction H as [|[l x k body] bs Hb _ IH] end; [done|]. cbn [fmap list_fmap].
    cbn in He. f_equal.
    + f_equal. apply Hb, H2; [done..|]. intros y Hy. apply He. cbn in Hy. lia.
    + apply IH. intros y Hy. apply He. unfold list_sum in Hy |- *. lia.
Qed.

Lemma den_rep_cong ρ ρ' d e e' a b body body' : is_name e' = is_name e -> den ρ' d e' = den ρ d e ->
  (forall v w d, den (<[b := w]> (<[a := v]> ρ')) d body' = den (<[b := w]> (<[a := v]> ρ)) d body) ->
  den ρ' d (ARep e' a b body') = den ρ d (ARep e a b body).
Proof.
  intros Hn He Hb. destruct (is_name e) eqn:E.
  - destruct e; try discriminate; destruct e'; try discriminate. cbn in *. injection He as ->. apply Hb.
  - rewrite !den_rep by done. by rewrite He, Hb.
Qed.

Lemma den_era_cong ρ ρ' d e e' body body' : is_name e' = is_name e -> den ρ' d e' = den ρ d e ->
  den ρ' d body' = den ρ d body -> den ρ' d (AEra e' body') = den ρ d (AEra e body).
Proof.
  intros Hn He Hb. destruct (is_name e) eqn:E.
  - destruct e; try discriminate; destruct e'; try discriminate. exact Hb.
  - rewrite !den_era by done. by rewrite He, Hb.
Qed.
End Meaning.
Notation is_name e := (match e with AName _ => true | _ => false end).

(** ** Renaming the uses of a variable *)

Section Renaming.
Context {V F : Type} (x : Name) (names : list (list Z)).
Context (Hcopy : Forall (copy_of x) names) (Hnd : NoDup names) (Hx : ident x).
Implicit Types e : Ast V F.

Lemma x_not_copy : ~ copied x.
Proof. apply Hx. Qed.

Lemma names_not_x n : n ∈ names -> n <> x.
Proof. intros Hn ->. rewrite Forall_forall in Hcopy. apply x_not_copy. exists x. by apply Hcopy. Qed.

(** [i] is in the range of the names used. *)
Notation within idx m i := (idx <= i < idx + m)%nat.

(** What renaming [m] uses from index [idx] does. *)
Record renames_uses (idx : nat) e e' : Prop := mk_renames {
  ru_other : forall y, y ∉ names -> y <> x -> occ e' y = occ e y;
  ru_x : occ e' x = 0%nat;
  ru_names : forall i n, names !! i = Some n -> occ e' n = if decide (within idx (occ e x) i) then 1%nat else 0%nat;
  ru_linear : linear e -> linear e';
  ru_name : is_name e' = is_name e;
  ru_apart : forall y, y <> x -> ident y -> apart y e -> apart y e';
  ru_den : forall ρ ρ' d, (forall y, y ∉ names -> target ρ' y = target ρ y) ->
    (forall i n, names !! i = Some n -> within idx (occ e x) i -> target ρ' n = target ρ x) -> den ρ' d e' = den ρ d e
}.

Definition renamed_uses e : Prop := forall idx, count_uses_in e x = occ e x -> apart x e ->
  (forall n, n ∈ names -> occ e n = 0%nat) -> (idx + occ e x <= length names)%nat ->
  exists e', indexed_rename e x names idx = Ok (e', (idx + occ e x)%nat) /\ renames_uses idx e e'.

(** A term without uses is left as it is. *)
Lemma renames_none idx e : occ e x = 0%nat -> (forall n, n ∈ names -> occ e n = 0%nat) -> renames_uses idx e e.
Proof.
  intros H0 Hn. split; try done.
  - intros i n Hi. rewrite H0, Hn by (by eapply list_elem_of_lookup_2). case_decide; [lia|done].
  - intros ρ ρ' d Ho _. apply den_ext. intros y Hy. apply Ho. intros Hin. by apply Hy, Hn.
Qed.

Lemma names_lookup_inj i j n : names !! i = Some n -> names !! j = Some n -> i = j.
Proof. intros Hi Hj. by eapply NoDup_lookup. Qed.

Lemma renamed_name n : renamed_uses (AName n).
Proof.
  intros idx Hc Ha Hf Hl. cbn [occ indexed_rename] in *. destruct (bool_decide (n = x)) eqn:E.
  - apply bool_decide_eq_true in E as ->. destruct (lookup_lt_is_Some_2 names idx) as [r Hr]; [lia|].
    unfold index. rewrite Hr. cbn. exists (AName r). split; [do 2 f_equal; lia|].
    assert (r ∈ names) as Hin by (by eapply list_elem_of_lookup_2). split; cbn [occ linear apart]; try done.
    + intros y Hy Hyx. rewrite !bool_decide_eq_false_2; congruence.
    + rewrite bool_decide_eq_false_2; [done|]. by apply names_not_x.
    + intros i m Hi. rewrite (bool_decide_eq_true_2 (x = x)) by done.
      destruct (decide (i = idx)) as [->|Hne].
      * rewrite Hi in Hr. injection Hr as ->. rewrite bool_decide_eq_true_2 by done. by rewrite decide_True by lia.
      * rewrite bool_decide_eq_false_2; [by rewrite decide_False by lia|]. intros ->. by eapply Hne, names_lookup_inj.
    + intros ρ ρ' d _ Hn. cbn. f_equal. apply (Hn idx); [done|]. rewrite bool_decide_eq_true_2 by done. lia.
  - exists (AName n). split; [do 2 f_equal; lia|]. apply bool_decide_eq_false in E. apply renames_none; [|done].
    cbn. by rewrite bool_decide_eq_false_2.
Qed.

(** Two parts, renamed one after the other. *)
Lemma renames_seq idx e1 e2 e1' e2' : renames_uses idx e1 e1' -> renames_uses (idx + occ e1 x) e2 e2' ->
  forall i n, names !! i = Some n ->
  (occ e1' n + occ e2' n)%nat = if decide (within idx (occ e1 x + occ e2 x) i) then 1%nat else 0%nat.
Proof.
  intros H1 H2 i n Hi. rewrite (ru_names _ _ _ H1 i), (ru_names _ _ _ H2 i) by done. repeat case_decide; lia.
Qed.

Lemma not_name z : ~ copy_of x z -> z ∉ names.
Proof. intros Hz Hin. rewrite Forall_forall in Hcopy. by apply Hz, Hcopy. Qed.

Lemma renamed_abs z e : renamed_uses e -> renamed_uses (AAbs z e).
Proof.
  intros IH idx Hc Ha Hf Hl. unfold count_uses_in in *. cbn [occ indexed_rename count_uses apart] in *.
  destruct (decide (z = x)) as [->|Hz].
  - rewrite bool_decide_eq_true_2 in * by done. exists (AAbs x e). split; [do 2 f_equal; lia|].
    apply renames_none; [cbn; by rewrite bool_decide_eq_true_2|]. intros n Hn. cbn. auto.
  - rewrite bool_decide_eq_false_2 in * by done. destruct Ha as [|[Hzc Ha]]; [done|]. pose proof (not_name z Hzc) as Hzn.
    assert (forall n, n ∈ names -> bool_decide (z = n) = false) as Hne by (intros n Hn; apply bool_decide_eq_false_2; by intros ->).
    destruct (IH idx) as (e' & -> & R); [done|done| |done|].
    { intros n Hn. specialize (Hf n Hn). by rewrite Hne in Hf. }
    exists (AAbs z e'). split; [done|]. split; cbn [occ linear apart].
    + intros y Hy Hyx. case_bool_decide; [done|]. by apply (ru_other _ _ _ R).
    + rewrite bool_decide_eq_false_2 by done. apply (ru_x _ _ _ R).
    + intros i n Hi. rewrite Hne by (by eapply list_elem_of_lookup_2). rewrite bool_decide_eq_false_2 by done. by apply (ru_names _ _ _ R).
    + intros [Hlin Ho]. split; [by apply (ru_linear _ _ _ R)|]. by rewrite (ru_other _ _ _ R).
    + done.
    + intros y Hy Hi [|[? ?]]; [by left|right; split; [done|by apply (ru_apart _ _ _ R)]].
    + intros ρ ρ' d Ho Hn. cbn. f_equal. apply (ru_den _ _ _ R).
      * intros y Hy. rewrite !target_insert. destruct (decide (y = z)); [done|by apply Ho].
      * intros i n Hi Hw. rewrite !target_insert. rewrite !decide_False; [|congruence|].
        -- apply (Hn i); [done|]. by rewrite bool_decide_eq_false_2 by done.
        -- intros ->. by apply Hzn, (list_elem_of_lookup_2 _ i).
Qed.

Lemma renamed_pair idx e1 e2 : renamed_uses e1 -> renamed_uses e2 ->
  (count_uses_in e1 x + count_uses_in e2 x = occ e1 x + occ e2 x)%nat ->
  (count_uses_in e1 x <= occ e1 x)%nat -> (count_uses_in e2 x <= occ e2 x)%nat ->
  apart x e1 -> apart x e2 -> (forall n, n ∈ names -> (occ e1 n + occ e2 n = 0)%nat) -> (idx + (occ e1 x + occ e2 x) <= length names)%nat ->
  exists e1' e2', indexed_rename e1 x names idx = Ok (e1', (idx + occ e1 x)%nat) /\
    indexed_rename e2 x names (idx + occ e1 x) = Ok (e2', (idx + (occ e1 x + occ e2 x))%nat) /\
    renames_uses idx e1 e1' /\ renames_uses (idx + occ e1 x) e2 e2'.
Proof.
  intros IH1 IH2 Hc H1 H2 Ha1 Ha2 Hf Hl.
  destruct (IH1 idx) as (e1' & E1 & R1); [lia|done|intros n Hn; specialize (Hf n Hn); lia|lia|].
  destruct (IH2 (idx + occ e1 x)%nat) as (e2' & E2 & R2); [lia|done|intros n Hn; specialize (Hf n Hn); lia|lia|].
  exists e1', e2'. rewrite Nat.add_assoc. done.
Qed.

Lemma count_le in_fix e y : (count_uses in_fix e y <= occ e y)%nat.
Proof.
  induction e using ast_ind; cbn [count_uses occ]; try lia.
  - case_bool_decide; lia.
  - destruct (bool_decide (a = y) || bool_decide (b = y)); lia.
  - destruct in_fix; lia.
Qed.

Lemma renamed_two (mk : Ast V F -> Ast V F -> Ast V F) idx e1 e2 e1' e2' :
  (forall a b y, occ (mk a b) y = (occ a y + occ b y)%nat) ->
  (forall a b, linear (mk a b) <-> linear a /\ linear b) -> (forall a b y, apart y (mk a b) <-> apart y a /\ apart y b) ->
  (forall a b, is_name (mk a b) = false) ->
  (forall a b a' b' ρ ρ' d, is_name a' = is_name a -> den ρ' d a' = den ρ d a -> den ρ' d b' = den ρ d b ->
    den ρ' d (mk a' b') = den ρ d (mk a b)) ->
  renames_uses idx e1 e1' -> renames_uses (idx + occ e1 x) e2 e2' -> renames_uses idx (mk e1 e2) (mk e1' e2').
Proof.
  intros Ho Hl Ha Hn Hd R1 R2. split.
  - intros y Hy Hyx. by rewrite !Ho, (ru_other _ _ _ R1), (ru_other _ _ _ R2).
  - by rewrite Ho, (ru_x _ _ _ R1), (ru_x _ _ _ R2).
  - intros i n Hi. rewrite !Ho. by apply (renames_seq idx e1 e2).
  - rewrite !Hl. intros [? ?]. split; [by apply (ru_linear _ _ _ R1)|by apply (ru_linear _ _ _ R2)].
  - by rewrite !Hn.
  - intros y Hy Hi. rewrite !Ha. intros [? ?]. split; [by apply (ru_apart _ _ _ R1)|by apply (ru_apart _ _ _ R2)].
  - intros ρ ρ' d Hot Hnm. apply Hd; [apply (ru_name _ _ _ R1)| |].
    + apply (ru_den _ _ _ R1); [done|]. intros i n Hi Hw. apply (Hnm i); [done|]. rewrite Ho. lia.
    + apply (ru_den _ _ _ R2); [done|]. intros i n Hi Hw. apply (Hnm i); [done|]. rewrite Ho. lia.
Qed.

Lemma renamed_app e1 e2 : renamed_uses e1 -> renamed_uses e2 -> renamed_uses (AApp e1 e2).
Proof.
  intros IH1 IH2 idx Hc [Ha1 Ha2] Hf Hl. unfold count_uses_in in Hc. cbn [occ count_uses indexed_rename] in *.
  destruct (renamed_pair idx e1 e2 IH1 IH2 Hc (count_le _ _ _) (count_le _ _ _) Ha1 Ha2 Hf Hl) as (e1' & e2' & E1 & E2 & R1 & R2).
  exists (AApp e1' e2'). split; [rewrite E1; cbn; by rewrite E2|].
  apply (renamed_two AApp); try done. intros a b a' b' ρ ρ' d _ H1 H2. cbn. by rewrite H1, H2.
Qed.

Lemma renamed_era e1 e2 : renamed_uses e1 -> renamed_uses e2 -> renamed_uses (AEra e1 e2).
Proof.
  intros IH1 IH2 idx Hc [Ha1 Ha2] Hf Hl. unfold count_uses_in in Hc. cbn [occ count_uses indexed_rename] in *.
  destruct (renamed_pair idx e1 e2 IH1 IH2 Hc (count_le _ _ _) (count_le _ _ _) Ha1 Ha2 Hf Hl) as (e1' & e2' & E1 & E2 & R1 & R2).
  exists (AEra e1' e2'). split; [rewrite E1; cbn; by rewrite E2|].
  apply (renamed_two AEra); try done. intros a b a' b' ρ ρ' d. apply den_era_cong.
Qed.

Lemma renamed_fix e : renamed_uses e -> renamed_uses (AFix e).
Proof.
  intros IH idx Hc Ha Hf Hl. unfold count_uses_in in *. cbn [occ count_uses indexed_rename apart] in *.
  destruct (IH idx) as (e' & -> & R); [done..|]. exists (AFix e'). split; [done|].
  split; try apply R; [done|]. intros ρ ρ' d Ho Hn. cbn. f_equal. by apply (ru_den _ _ _ R).
Qed.

Lemma renamed_rep e1 a b e2 : renamed_uses e1 -> renamed_uses e2 -> renamed_uses (ARep e1 a b e2).
Proof.
  intros IH1 IH2 idx Hc [Ha1 Ha2] Hf Hl. unfold count_uses_in in Hc. cbn [occ count_uses indexed_rename] in *.
  pose proof (count_le true e1 x) as Hc1. pose proof (count_le true e2 x) as Hc2.
  destruct (decide (a = x \/ b = x)) as [Hab|Hab].
  - assert (bool_decide (a = x) || bool_decide (b = x) = true) as Hs by (apply orb_true_iff; rewrite !bool_decide_eq_true; done).
    rewrite Hs in *. destruct (IH1 idx) as (e1' & E1 & R1); [unfold count_uses_in; lia|done|intros n Hn; specialize (Hf n Hn); lia|lia|].
    rewrite E1. cbn [mbind res_bind]. exists (ARep e1' a b e2). rewrite Nat.add_0_r. split; [done|].
    split; cbn [occ linear apart].
    + intros y Hy Hyx. by rewrite (ru_other _ _ _ R1).
    + by rewrite Hs, (ru_x _ _ _ R1).
    + intros i n Hi. assert (n ∈ names) as Hin by (by eapply list_elem_of_lookup_2). specialize (Hf n Hin).
      rewrite (ru_names _ _ _ R1 i n Hi), Hs, Nat.add_0_r. repeat case_decide; lia.
    + intros (H1 & H2). split; [by apply (ru_linear _ _ _ R1)|done].
    + done.
    + intros y Hy Hi [H1 H2]. split; [by apply (ru_apart _ _ _ R1)|done].
    + intros ρ ρ' d Ho Hn. apply den_rep_cong; [apply (ru_name _ _ _ R1)| |].
      * apply (ru_den _ _ _ R1); [done|]. intros i n Hi Hw. apply (Hn i); [done|]. lia.
      * intros v w d'. apply den_ext. intros y Hy. rewrite !target_insert.
        destruct (decide (y = b)) as [|Hb]; [done|]. destruct (decide (y = a)) as [|Ha]; [done|].
        apply Ho. intros Hin. specialize (Hf y Hin). rewrite !bool_decide_eq_false_2 in Hf by done. cbn in Hf. lia.
  - assert (bool_decide (a = x) || bool_decide (b = x) = false) as Hs.
    { apply orb_false_iff. rewrite !bool_decide_eq_false. tauto. }
    rewrite Hs in *. destruct Ha2 as [|(Hac & Hbc & Ha2)]; [done|]. pose proof (not_name a Hac) as Han. pose proof (not_name b Hbc) as Hbn.
    assert (forall n, n ∈ names -> bool_decide (a = n) || bool_decide (b = n) = false) as Hne.
    { intros n Hn. apply orb_false_iff. split; apply bool_decide_eq_false_2; by intros ->. }
    destruct (renamed_pair idx e1 e2 IH1 IH2 Hc Hc1 Hc2 Ha1 Ha2) as (e1' & e2' & E1 & E2 & R1 & R2); [|done|].
    { intros n Hn. specialize (Hf n Hn). by rewrite Hne in Hf. }
    exists (ARep e1' a b e2'). split; [rewrite E1; cbn; by rewrite E2|]. split; cbn [occ linear apart].
    + intros y Hy Hyx. rewrite (ru_other _ _ _ R1), (ru_other _ _ _ R2) by done. done.
    + by rewrite Hs, (ru_x _ _ _ R1), (ru_x _ _ _ R2).
    + intros i n Hi. rewrite Hne, Hs by (by eapply list_elem_of_lookup_2). by apply (renames_seq idx e1 e2).
    + intros (H1 & H2 & Hab' & Hoa & Hob). split; [by apply (ru_linear _ _ _ R1)|]. split; [by apply (ru_linear _ _ _ R2)|].
      split; [done|]. rewrite !(ru_other _ _ _ R2) by (done || (intros ->; tauto)). done.
    + done.
    + intros y Hy Hi [H1 H2]. split; [by apply (ru_apart _ _ _ R1)|].
      destruct H2 as [|(? & ? & ?)]; [by left|right]. split; [done|]. split; [done|]. by apply (ru_apart _ _ _ R2).
    + intros ρ ρ' d Ho Hn. rewrite Hs in Hn. apply den_rep_cong; [apply (ru_name _ _ _ R1)| |].
      * apply (ru_den _ _ _ R1); [done|]. intros i n Hi Hw. apply (Hn i); [done|]. lia.
      * intros v w d'. apply (ru_den _ _ _ R2).
        -- intros y Hy. rewrite !target_insert. destruct (decide (y = b)); [done|]. destruct (decide (y = a)); [done|]. by apply Ho.
        -- intros i n Hi Hw. assert (n ∈ names) as Hin by (by eapply list_elem_of_lookup_2).
           rewrite !target_insert, !(decide_False (P := n = _)), !(decide_False (P := x = _)) by (intros ->; tauto).
           apply (Hn i); [done|]. lia.
Qed.

Lemma renamed_uses_all e : renamed_uses e.
Proof.
  assert (forall e, count_uses_in e x = 0%nat -> (forall idx, indexed_rename e x names idx = Ok (e, idx)) -> renamed_uses e) as Hleaf.
  { intros e' H0 Hr idx Hc _ Hf _. exists e'. rewrite Hr. split; [do 2 f_equal; lia|]. apply renames_none; [lia|done]. }
  induction e using ast_ind; [apply renamed_name|by apply renamed_abs|by apply renamed_app|by apply renamed_rep|by apply renamed_era|
    by apply renamed_fix|by apply Hleaf..].
Qed.
End Renaming.

(** ** Chains *)

Section Chain.
Context {V F : Type}.
Implicit Types body : Ast V F.

Fixpoint chain_bound (names : list (list Z)) : list (list Z) :=
  match names with
  | a :: (b :: more) as names' =>
      match more with
      | [] => [a; b]
      | _ => a :: rest_name b :: chain_bound names'
      end
  | _ => []
  end.

Lemma nest_reps_cons (e : Ast V F) a b c more body :
  nest_reps e (a :: b :: c :: more) body =
    (inner ← nest_reps (AName (rest_name b)) (b :: c :: more) body; Ok (ARep e a (rest_name b) inner)).
Proof. reflexivity. Qed.

Lemma chain_bound_cons a b c more : chain_bound (a :: b :: c :: more) = a :: rest_name b :: chain_bound (b :: c :: more).
Proof. reflexivity. Qed.

Lemma chain_bound_cases names z : z ∈ chain_bound names -> z ∈ names \/ exists n, n ∈ tail names /\ z = rest_name n.
Proof.
  induction names as [|a [|b more] IH]; [cbn; by intros ?%not_elem_of_nil..|]. destruct more as [|c more]; [by left|].
  rewrite chain_bound_cons. intros Hz. apply elem_of_cons in Hz as [->|Hz]; [left; left|].
  apply elem_of_cons in Hz as [->|Hz]; [right; exists b; split; [left|done]|].
  apply IH in Hz as [Hz|(n & Hn & ->)]; [left; by right|right; exists n; split; [by right|done]].
Qed.

Lemma chain_bound_all names z : (2 <= length names)%nat -> z ∈ names -> z ∈ chain_bound names.
Proof.
  induction names as [|a [|b more] IH]; intros Hl Hz; [cbn in Hl; lia..|]. destruct more as [|c more]; [done|].
  rewrite chain_bound_cons. apply elem_of_cons in Hz as [->|Hz]; [left|]. do 2 right. apply IH; [cbn; lia|done].
Qed.

Lemma nest_reps_total names : forall (e : Ast V F) body, (2 <= length names)%nat -> exists r, nest_reps e names body = Ok r.
Proof.
  induction names as [|a [|b more] IH]; intros e body Hl; cbn [length] in *; [lia..|].
  destruct more as [|c more]; [by eexists|]. destruct (IH (AName (rest_name b)) body) as [r Hr]; [cbn; lia|].
  exists (ARep e a (rest_name b) r). by rewrite nest_reps_cons, Hr.
Qed.

Lemma nest_reps_den names : forall y body r, nest_reps (AName y) names body = Ok r -> forall ρ d, exists ρ',
  den ρ d r = den ρ' d body /\ forall z, target ρ' z = if decide (z ∈ chain_bound names) then target ρ y else target ρ z.
Proof.
  induction names as [|a [|b more] IH]; intros y body r Hr ρ d; [discriminate..|].
  destruct more as [|c more].
  - injection Hr as <-. eexists. split; [reflexivity|]. intros z. rewrite !target_insert. cbn [chain_bound].
    destruct (decide (z = b)) as [->|Hb]; [by rewrite decide_True by set_solver|].
    destruct (decide (z = a)) as [->|Ha]; [by rewrite decide_True by set_solver|]. by rewrite decide_False by set_solver.
  - rewrite nest_reps_cons in Hr. destruct (nest_reps (AName (rest_name b)) (b :: c :: more) body) as [inner| | |] eqn:Hi; try discriminate.
    injection Hr as <-. destruct (IH _ _ _ Hi (<[rest_name b := target ρ y]> (<[a := target ρ y]> ρ)) d) as (ρ' & Hd & Ht).
    exists ρ'. split; [exact Hd|]. intros z. rewrite Ht, !target_insert, chain_bound_cons.
    rewrite (decide_True (P := rest_name b = rest_name b)) by done.
    destruct (decide (z ∈ chain_bound (b :: c :: more))); [by rewrite decide_True by (by do 2 right)|].
    destruct (decide (z = rest_name b)) as [->|Hb]; [by rewrite decide_True by (right; left)|].
    destruct (decide (z = a)) as [->|Ha]; [by rewrite decide_True by left|]. by rewrite decide_False by (rewrite !elem_of_cons; tauto).
Qed.

(** The names of a chain are distinct, used once in the body, and the rests are new. *)
Record chainable (y : Name) (names : list (list Z)) (body : Ast V F) : Prop := mk_chainable {
  ch_linear : linear body;
  ch_once : forall n, n ∈ names -> occ body n = 1%nat;
  ch_nodup : NoDup names;
  ch_rest : forall n, n ∈ tail names -> occ body (rest_name n) = 0%nat;
  ch_apart : forall n m, n ∈ names -> m ∈ names -> rest_name n <> m;
  ch_y : y ∉ names;
  ch_y_rest : forall n, n ∈ tail names -> y <> rest_name n
}.

Lemma rest_inj n m : rest_name n = rest_name m -> n = m.
Proof. apply app_inv_head. Qed.

Lemma chainable_tail y a b more body : chainable y (a :: b :: more) body -> chainable (rest_name b) (b :: more) body.
Proof.
  intros [H1 H2 H3 H4 H5 H6 H7]. apply NoDup_cons in H3 as [Ha H3]. split; auto.
  - intros n Hn. apply H2. by right.
  - intros n Hn. apply H4. by right.
  - intros n m Hn Hm. apply H5; by right.
  - intros Hin. eapply (H5 b (rest_name b)); [right; left|by right|done].
  - intros n Hn ->%rest_inj. apply NoDup_cons in H3 as [Hb _]. done.
Qed.

Lemma nest_reps_linear names : forall y body r, (2 <= length names)%nat -> chainable y names body ->
  nest_reps (AName y) names body = Ok r ->
  linear r /\ forall z, occ r z = if decide (z ∈ chain_bound names) then 0%nat else ((if decide (z = y) then 1 else 0) + occ body z)%nat.
Proof.
  induction names as [|a [|b more] IH]; intros y body r Hl Hc Hr; [discriminate..|]. pose proof Hc as [H1 H2 H3 H4 H5 H6 H7].
  pose proof H3 as [Ha H3']%NoDup_cons.
  destruct more as [|c more].
  - injection Hr as <-. cbn [linear occ chain_bound]. split.
    + split; [done|]. split; [done|]. split; [set_solver|]. split; apply H2; set_solver.
    + intros z. destruct (decide (z ∈ [a; b])) as [Hz|Hz].
      * rewrite (bool_decide_eq_false_2 (y = z)) by (by intros ->).
        replace (bool_decide (a = z) || bool_decide (b = z)) with true; [done|]. symmetry. apply orb_true_iff. rewrite !bool_decide_eq_true. set_solver.
      * rewrite (bool_decide_eq_false_2 (a = z)), (bool_decide_eq_false_2 (b = z)) by set_solver. cbn [orb].
        repeat case_bool_decide; repeat case_decide; subst; done.
  - rewrite nest_reps_cons in Hr. destruct (nest_reps (AName (rest_name b)) (b :: c :: more) body) as [inner| | |] eqn:Hi; try discriminate.
    injection Hr as <-. destruct (IH _ _ _ ltac:(cbn; lia) (chainable_tail _ _ _ _ _ Hc) Hi) as [Hlin Ho].
    rewrite chain_bound_cons. set (B := chain_bound (b :: c :: more)) in *.
    assert (a ∉ B) as HaB.
    { intros [Hx|(n & Hn & Hx)]%chain_bound_cases; [done|]. eapply (H5 n a); [right; by right|left|done]. }
    assert (rest_name b ∉ B) as HbB.
    { intros [Hx|(n & Hn & Hx%rest_inj)]%chain_bound_cases; [eapply (H5 b (rest_name b)); [right; left|by right|done]|].
      subst n. apply NoDup_cons in H3' as [Hb _]. done. }
    assert (a <> rest_name b) as Hab by (intros He; eapply (H5 b a); [right; left|left|done]).
    assert (y ∉ a :: rest_name b :: B) as HyB.
    { rewrite !elem_of_cons. intros [->|[->|Hx]]; [apply H6; left|eapply (H7 b); [left|done]|].
      apply chain_bound_cases in Hx as [Hx|(n & Hn & Hx)]; [apply H6; by right|eapply (H7 n); [by right|done]]. }
    cbn [linear occ]. split.
    + split; [done|]. split; [done|]. split; [done|]. rewrite !Ho, !decide_False by done.
      rewrite (H2 a) by left. rewrite (H4 b) by left. by rewrite decide_True.
    + intros z. rewrite Ho. rewrite !elem_of_cons in HyB. destruct (decide (z ∈ a :: rest_name b :: B)) as [Hz|Hz]; rewrite !elem_of_cons in Hz.
      * rewrite (bool_decide_eq_false_2 (y = z)) by (intros ->; tauto).
        destruct (bool_decide (a = z) || bool_decide (rest_name b = z)) eqn:E; [done|]. apply orb_false_iff in E.
        rewrite !bool_decide_eq_false in E. rewrite decide_True; [done|]. destruct E, Hz as [->|[->|]]; done.
      * rewrite (bool_decide_eq_false_2 (a = z)), (bool_decide_eq_false_2 (rest_name b = z)) by (intros He; subst; tauto). cbn [orb].
        rewrite (decide_False (P := z ∈ B)) by tauto. rewrite (decide_False (P := z = rest_name b)) by tauto.
        repeat case_bool_decide; repeat case_decide; subst; done.
Qed.

Lemma nest_reps_apart names x z : forall y body r, Forall (copy_of x) names -> z <> x -> ident x -> ident z -> apart z body ->
  nest_reps (AName y) names body = Ok r -> apart z r.
Proof.
  intros y body r Hn Hzx Hx Hz. revert y body r.
  assert (forall n, n ∈ names -> ~ copy_of z n /\ ~ copy_of z (rest_name n)) as Hno.
  { intros n Hin. rewrite Forall_forall in Hn. destruct (Hn n Hin) as (i & [->| ->]); split; intros Hc.
    - apply Hzx. eapply copy_of_inj; [done..|]. exists i. by left.
    - apply Hzx. eapply copy_of_inj; [done..|]. exists i. by right.
    - apply Hzx. eapply copy_of_inj; [done..|]. exists i. by right.
    - destruct Hc as (j & Hj). rewrite !rest_split in Hj. destruct Hj as [Hj|Hj]; apply split_base in Hj.
      + destruct Hz as [_ Hz]. apply Hz. by eexists.
      + destruct Hz as [_ Hz']. apply rest_inj in Hj. apply Hz'. by eexists. }
  clear Hn. induction names as [|a [|b more] IH]; intros y body r Hb Hr; [discriminate..|].
  destruct more as [|c more].
  - injection Hr as <-. cbn [apart]. split; [done|]. right. split; [apply Hno; left|]. split; [apply Hno; right; left|done].
  - rewrite nest_reps_cons in Hr. destruct (nest_reps (AName (rest_name b)) (b :: c :: more) body) as [inner| | |] eqn:Hi; try discriminate.
    injection Hr as <-. cbn [apart]. split; [done|]. right. split; [apply Hno; left|]. split; [apply Hno; right; left|].
    eapply IH; [|exact Hb|exact Hi]. intros n Hin. apply Hno. by right.
Qed.
End Chain.

(** ** A binder and its body *)

Section Binder.
Context {V F : Type}.
Implicit Types body : Ast V F.

Definition copies (x : Name) (n : nat) : list (list Z) := split_name x <$> seq 0 n.

Lemma copies_copied x n : Forall (copy_of x) (copies x n).
Proof. apply Forall_forall. intros m (i & -> & _)%list_elem_of_fmap. exists i. by left. Qed.

Lemma copies_nodup x n : Z.of_nat n < 10 ^ 20 -> NoDup (copies x n).
Proof.
  intros Hn. apply NoDup_fmap_2_strong; [|apply NoDup_seq]. intros i j Hi%elem_of_seq Hj%elem_of_seq H.
  apply split_inj in H as [_ H]; lia.
Qed.

Lemma copies_rest x n m : m ∈ copies x n -> forall k, k ∈ copies x n -> rest_name m <> k.
Proof.
  intros (i & -> & _)%list_elem_of_fmap k (j & -> & _)%list_elem_of_fmap H. rewrite rest_split in H. apply split_base in H.
  apply (f_equal length) in H. unfold rest_name in H. rewrite length_app in H. cbn in H. lia.
Qed.

Lemma tidy_chainable x body e idx : ident x -> Z.of_nat (occ body x) < 10 ^ 20 -> tidy body ->
  renames_uses x (copies x (occ body x)) 0 body e -> idx = occ body x -> chainable x (copies x idx) e.
Proof.
  intros Hx Hn Ht R ->. set (names := copies x (occ body x)) in *.
  assert (forall m, m ∈ names -> copied m /\ copied (rest_name m)) as Hcp.
  { intros m (i & -> & _)%list_elem_of_fmap. split; exists x, i; [by left|by right]. }
  assert (forall m, m ∈ tail names -> m ∈ names) as Htl by (intros m Hm; destruct names; [done|by right]).
  split.
  - apply (ru_linear _ _ _ _ _ R), Ht.
  - intros m (i & Hi)%list_elem_of_lookup_1. rewrite (ru_names _ _ _ _ _ R i m Hi). apply decide_True.
    apply lookup_lt_Some in Hi. unfold names, copies in Hi. rewrite length_fmap, length_seq in Hi. lia.
  - by apply copies_nodup.
  - intros m Hm%Htl. destruct (Hcp m Hm) as [_ Hr]. rewrite (ru_other _ _ _ _ _ R); [by apply Ht| |].
    + intros Hin. by apply (copies_rest x _ m Hm _ Hin).
    + intros He. apply (proj1 Hx). by rewrite <- He.
  - intros m k Hm Hk. by apply (copies_rest x (occ body x)).
  - intros Hin. apply (proj1 Hx). by apply Hcp.
  - intros m Hm%Htl He. apply (proj1 Hx). rewrite He. by apply Hcp.
Qed.

(** What [wrap_uses] makes of the body of a binder. *)
Lemma wrap_uses_tidy x body : ident x -> Z.of_nat (occ body x) < 10 ^ 20 -> tidy body -> count_uses_in body x = occ body x ->
  exists e, wrap_uses x (count_uses_in body x) body = Ok e /\ linear e /\ occ e x = 1%nat /\
    (forall z, z <> x -> ~ copied z -> occ e z = occ body z) /\ (forall z, copied z -> occ e z = 0%nat) /\
    (forall z, z <> x -> ident z -> apart z e) /\ forall ρ d, den ρ d e = den ρ d body.
Proof.
  intros Hx Hb Ht Hc. pose proof Ht as [Hl Hf Ha]. rewrite Hc. destruct (occ body x) as [|[|n]] eqn:Hn; cbn [wrap_uses].
  - exists (AEra (AName x) body). split; [done|]. cbn [linear occ apart]. split; [done|].
    split; [rewrite bool_decide_eq_true_2 by done; lia|].
    split; [intros z Hz _; by rewrite bool_decide_eq_false_2|]. split.
    { intros z Hz. rewrite bool_decide_eq_false_2; [by apply Hf|]. intros ->. by apply (proj1 Hx). }
    split; [|done]. intros z _ Hz. auto.
  - exists body. auto 8.
  - rewrite <- Hn in *. unfold build_rep_chain. rewrite (proj2 (Nat.leb_gt _ _)) by lia. fold (copies x (occ body x)).
    assert (forall m, m ∈ copies x (occ body x) -> copied m) as Hcp by (intros m (i & -> & _)%list_elem_of_fmap; exists x, i; by left).
    assert (length (copies x (occ body x)) = occ body x) as Hlen by (unfold copies; by rewrite length_fmap, length_seq).
    destruct (renamed_uses_all x (copies x (occ body x)) (copies_copied _ _) (copies_nodup x _ Hb) Hx body 0%nat) as (e & -> & R);
      [done|by apply Ha|intros m Hm; by apply Hf, Hcp|lia|].
    cbn [mbind res_bind]. pose proof (tidy_chainable x body e _ Hx Hb Ht R eq_refl) as Hch.
    assert (2 <= length (copies x (occ body x)))%nat as H2 by lia.
    destruct (nest_reps_total (copies x (occ body x)) (AName x) e H2) as [r Hr]. exists r. split; [done|].
    destruct (nest_reps_linear _ _ _ _ H2 Hch Hr) as [Hlr Hor].
    assert (forall z, z ∈ chain_bound (copies x (occ body x)) -> copied z) as Hbd.
    { intros z [Hz|(m & Hm & ->)]%chain_bound_cases; [by apply Hcp|].
      assert (m ∈ copies x (occ body x)) as (i & -> & _)%list_elem_of_fmap by (destruct (copies x (occ body x)); [done|by right]).
      exists x, i. by right. }
    split; [done|]. split; [|split; [|split; [|split]]].
    + rewrite Hor, decide_False by (intros Hz%Hbd; by apply (proj1 Hx)). rewrite decide_True by done. by rewrite (ru_x _ _ _ _ _ R).
    + intros z Hzx Hzc. rewrite Hor, decide_False by (by intros Hz%Hbd). rewrite decide_False by done.
      apply (ru_other _ _ _ _ _ R); [by intros Hz%Hcp|done].
    + intros z Hzc. rewrite Hor. case_decide as Hz; [done|]. rewrite decide_False by (intros ->; by apply (proj1 Hx)).
      cbn. rewrite (ru_other _ _ _ _ _ R); [by apply Hf|intros Hin; by apply Hz, chain_bound_all|intros ->; by apply (proj1 Hx)].
    + intros z Hzx Hz. apply (nest_reps_apart (copies x (occ body x)) x z x e r); try done; [apply copies_copied|].
      apply (ru_apart _ _ _ _ _ R); auto.
    + intros ρ d. destruct (nest_reps_den _ _ _ _ Hr ρ d) as (ρ' & -> & Hρ). transitivity (den ρ' d body).
      * apply (ru_den _ _ _ _ _ R); [done|]. intros i m Hi _. rewrite !Hρ.
        rewrite decide_True by (apply chain_bound_all; [lia|by eapply list_elem_of_lookup_2]).
        rewrite decide_False by (intros Hz%Hbd; by apply (proj1 Hx)). done.
      * apply den_ext. intros y Hy. rewrite Hρ, decide_False; [done|]. intros Hz%Hbd. by apply Hy, Hf.
Qed.

Lemma tidy_abs x (e : Ast V F) : ident x -> linear e -> occ e x = 1%nat -> (forall z, copied z -> occ e z = 0%nat) ->
  (forall z, z <> x -> ident z -> apart z e) -> tidy (AAbs x e).
Proof.
  intros Hx Hl H1 Hc Ha. split.
  - done.
  - intros n Hn. cbn. case_bool_decide; [done|by apply Hc].
  - intros z Hz. cbn. destruct (decide (x = z)) as [->|Hne]; [by left|]. right. split; [|by apply Ha].
    intros Hcz. apply (proj1 Hx). by exists z.
Qed.
End Binder.

(** The Nix functions [x: x__0: x x x__0]: the name of the inner parameter is
    the name of the first copy of the outer one. *)
Definition clash : Ast unit unit :=
  let x := chars "x" in let x0 := chars "x__0" in
  AAbs x0 (AApp (AApp (AName x) (AName x)) (AName x0)).

(** * Properties *)

(** Making sharing explicit keeps the meaning.  A front end counts the uses
    of a variable in the body of its binder and wraps the body: the result
    has every name used exactly once, the binder's variable included, it has
    the meaning of the body, and it keeps what is needed to do the same at
    the next binder.  The variable is an identifier that does not look like a
    copy, and the body captures no copy of it. *)
Theorem share_keeps_meaning {V F : Type} (x : Name) (body : Ast V F) :
  ident x -> Z.of_nat (occ body x) < 10 ^ 20 -> tidy body -> count_uses_in body x = occ body x ->
  exists e, wrap_uses x (count_uses_in body x) body = Ok e /\ tidy (AAbs x e) /\
    (forall z, ~ copied z -> occ (AAbs x e) z = occ (AAbs x body) z) /\
    forall ρ d, den ρ d (AAbs x e) = den ρ d (AAbs x body).
Proof.
  intros Hx Hb Ht Hc. destruct (wrap_uses_tidy x body Hx Hb Ht Hc) as (e & He & Hl & H1 & Ho & Hz & Ha & Hd).
  exists e. split; [done|]. split; [by apply tidy_abs|]. split.
  - intros z Hzc. cbn. case_bool_decide; [done|]. by apply Ho.
  - intros ρ d. cbn. by rewrite Hd.
Qed.

(** Without that hypothesis the inner parameter captures a use of the outer one. *)
Lemma clash_captures : exists e, let x := chars "x" in
  wrap_uses x (count_uses_in clash x) clash = Ok e /\ den ∅ 0 (AAbs x e) <> den ∅ 0 (AAbs x clash).
Proof. eexists. split; [vm_compute; reflexivity|]. vm_compute. discriminate. Qed.

(** A use below [Fix] is renamed, but the Python and TypeScript front ends do not count it. *)
Lemma fix_not_counted : let x := chars "x" in
  let body : Ast unit unit := AApp (AApp (AName x) (AName x)) (AFix (AName x)) in
  count_uses_in body x = 3%nat /\ wrap_uses x (count_uses_flat body x) body = Panic.
Proof. vm_compute. done. Qed.
