(* ===== verification/Elab.v ===== *)
(** * From terms to nets ([crates/dnx-elab/src/pass2.rs])

    The third pass emits the agents of a linear term.  Each arm of [elab_impl]
    is one combinator on the elaborations of the subterms, so that the term
    that a handler stands for need not be built.  The state is the net, the
    environment (the port and level of every bound name not met yet), the
    primitives of the net and the process-wide counter of fresh names. *)
From S2P Require Import Prelude Bytes Utf8 Text Error LOPath Port Arena Net Prim Ast.

Record est : Type := mk_est {
  e_net : Net;
  e_env : gmap (list Z) (PortId * Z);
  e_prims : PrimState;
  e_ctr : Z
}.
Definition set_net (n : Net) (s : est) : est := mk_est n (e_env s) (e_prims s) (e_ctr s).
Definition set_env (env : gmap (list Z) (PortId * Z)) (s : est) : est := mk_est (e_net s) env (e_prims s) (e_ctr s).
Definition set_prims (ps : PrimState) (s : est) : est := mk_est (e_net s) (e_env s) ps (e_ctr s).

(** State passing; a failure drops the state, as the callers do. *)
Definition elabM (A : Type) : Type := est -> res DnxError (A * est).
#[export] Instance elab_ret : MRet elabM := fun A a s => Ok (a, s).
#[export] Instance elab_bind : MBind elabM := fun A B k m s => '(a, s) ← m s; k a s.

Definition lift {A} (m : res DnxError A) : elabM A := fun s => a ← m; Ok (a, s).
(** An operation on the net. *)
Definition on_net {A} (f : Net -> res DnxError (A * Net)) : elabM A := fun s =>
  '(a, n) ← f (e_net s); Ok (a, set_net n s).
Definition connects (a b : PortId) (lo : LOPath) : elabM unit := fun s =>
  n ← connect (e_net s) a b lo; Ok (tt, set_net n s).
Definition env_insert (x : Name) (pl : PortId * Z) : elabM unit := fun s =>
  Ok (tt, set_env (<[x := pl]> (e_env s)) s).
Definition env_remove (x : Name) : elabM (option (PortId * Z)) := fun s =>
  Ok (e_env s !! x, set_env (delete x (e_env s)) s).

(** [_{prefix}{n}], not marked like a renamed binder. *)
Definition elab_fresh (prefix : str) : elabM Name := fun s =>
  Ok ([95] ++ prefix ++ digits 10 (e_ctr s) [], mk_est (e_net s) (e_env s) (e_prims s) (as_u32 (e_ctr s + 1))).

(** An elaboration, given the level and the path: the port and its level. *)
Notation elabT := (Z -> LOPath -> elabM (PortId * Z)) (only parsing).

Definition as_i32 (z : Z) : Z := let u := as_u32 z in if u <? 2 ^ 31 then u else u - 2 ^ 32.
Definition i16_try_from (z : Z) : res DnxError Z :=
  if (- 2 ^ 15 <=? z) && (z <? 2 ^ 15) then Ok z else Err DeltaOverflow.

Definition elab_name (n : Name) : Z -> LOPath -> elabM (PortId * Z) := fun _ _ =>
  pl ← env_remove n;
  lift (ok_or pl ReadbackIncomplete).

Definition elab_abs (x : Name) (body : Z -> LOPath -> elabM (PortId * Z)) : Z -> LOPath -> elabM (PortId * Z) :=
  fun level lo =>
  abs ← on_net alloc_abs;
  _ ← env_insert x (ag_aux1 abs, as_u32 (level + 1));
  lo_body ← lift (extend_left lo);
  '(body_p, _) ← body level lo_body;
  _ ← env_remove x;
  _ ← connects (ag_aux0 abs) body_p lo_body;
  mret (ag_principal abs, level).

Definition elab_app (f x : Z -> LOPath -> elabM (PortId * Z)) : Z -> LOPath -> elabM (PortId * Z) := fun level lo =>
  app ← on_net alloc_app;
  lo_fn ← lift (extend_left lo);
  '(f_p, _) ← f level lo_fn;
  lo_arg ← lift (extend_right lo);
  '(a_p, _) ← x (as_u32 (level + 1)) lo_arg;
  _ ← connects (ag_principal app) f_p lo_fn;
  _ ← connects (ag_aux1 app) a_p lo_arg;
  mret (ag_aux0 app, level).

Definition elab_rep (usage_levels : gmap (list Z) Z) (e : Z -> LOPath -> elabM (PortId * Z)) (a b : Name)
    (body : Z -> LOPath -> elabM (PortId * Z)) : Z -> LOPath -> elabM (PortId * Z) := fun level lo =>
  let la := default level (usage_levels !! a) in
  let lb := default level (usage_levels !! b) in
  '(e_p, rep_level) ← e level lo;
  d0 ← lift (i16_try_from (as_i32 (as_i32 la - as_i32 rep_level)));
  d1 ← lift (i16_try_from (as_i32 (as_i32 lb - as_i32 rep_level)));
  rep ← on_net (fun n => alloc_rep_in n (as_u16 rep_level) d0 d1);
  _ ← connects (ag_principal rep) e_p lo;
  _ ← env_insert a (ag_aux0 rep, la);
  _ ← env_insert b (ag_aux1 rep, lb);
  body level lo.

Definition elab_era (e body : Z -> LOPath -> elabM (PortId * Z)) : Z -> LOPath -> elabM (PortId * Z) := fun level lo =>
  '(e_p, _) ← e level lo;
  _ ← connects ERA e_p lo;
  body level lo.

Definition elab_fix (inner : Z -> LOPath -> elabM (PortId * Z)) : Z -> LOPath -> elabM (PortId * Z) := fun level lo =>
  lo_fn ← lift (extend_left lo);
  '(inner_p, _) ← inner level lo_fn;
  app ← on_net alloc_app;
  _ ← connects (ag_principal app) inner_p lo_fn;
  rep ← on_net (fun n => alloc_rep_in n (as_u16 level) 0 0);
  lo_r ← lift (extend_right lo);
  _ ← connects (ag_principal rep) (ag_aux0 app) lo_r;
  _ ← connects (ag_aux1 app) (ag_aux0 rep) lo;
  mret (ag_aux1 rep, level).

(** [comp (λr. r) (λlbl. λarg. λk. era lbl in body)]. *)
Definition elab_handle (comp : Z -> LOPath -> elabM (PortId * Z)) (arg k : Name)
    (body : Z -> LOPath -> elabM (PortId * Z)) : Z -> LOPath -> elabM (PortId * Z) := fun level lo =>
  r_v ← elab_fresh (chars "r");
  lbl_v ← elab_fresh (chars "lbl");
  elab_app (elab_app comp (elab_abs r_v (elab_name r_v)))
    (elab_abs lbl_v (elab_abs arg (elab_abs k (elab_era (elab_name lbl_v) body)))) level lo.

Section Elab.
Context {V F : Type}.

(** [PrimCtx] without its state. *)
Record PrimCtx : Type := mk_ctx { to_fun : F -> option PrimFunEntry; to_val : V -> option PrimValue }.

(** What the function pointers compute. *)
Context (call : nat -> list PrimValue -> res DnxError PrimValue).
Context (prim : option PrimCtx) (usage_levels : gmap (list Z) Z).

Definition new_val (v : PrimValue) (level : Z) : elabM (PortId * Z) := fun s =>
  '(p, n, ps) ← alloc_prim_val (e_net s) (e_prims s) v;
  Ok ((p, level), set_prims ps (set_net n s)).
Definition new_fun (entry : PrimFunEntry) (level : Z) : elabM (PortId * Z) := fun s =>
  '(p, n, ps) ← alloc_prim_fun (e_net s) (e_prims s) entry;
  Ok ((p, level), set_prims ps (set_net n s)).

Definition elab_val (v : V) : Z -> LOPath -> elabM (PortId * Z) := fun level _ =>
  match prim with
  | Some ctx =>
      pv ← lift (ok_or (to_val ctx v) ReadbackIncomplete);
      new_val pv level
  | None =>
      p ← on_net (fun n => alloc_free n 0);
      mret (p, level)
  end.

Definition elab_fun (f : F) : Z -> LOPath -> elabM (PortId * Z) := fun level _ =>
  match prim with
  | Some ctx =>
      entry ← lift (ok_or (to_fun ctx f) ReadbackIncomplete);
      match impl_ entry with
      | Pure pf =>
          if arity_remaining entry =? 0 then
            v ← lift (call pf (captured entry));
            new_val v level
          else new_fun entry level
      | Effectful _ => new_fun entry level
      end
  | None =>
      p ← on_net (fun n => alloc_free n 0);
      mret (p, level)
  end.

Definition unsupported : Z -> LOPath -> elabM (PortId * Z) := fun _ _ => lift (Err ReadbackIncomplete).

Fixpoint elab_impl (e : Ast V F) : Z -> LOPath -> elabM (PortId * Z) :=
  match e with
  | AName n => elab_name n
  | AAbs x body => elab_abs x (elab_impl body)
  | AApp f x => elab_app (elab_impl f) (elab_impl x)
  | ARep e a b body => elab_rep usage_levels (elab_impl e) a b (elab_impl body)
  | AEra e body => elab_era (elab_impl e) (elab_impl body)
  | AFix inner => elab_fix (elab_impl inner)
  | APerform _ _ => unsupported
  | AHandle comp [mk_branch _ arg k body] => elab_handle (elab_impl comp) arg k (elab_impl body)
  | AHandle _ _ => unsupported
  | AVal v => elab_val v
  | AFun f => elab_fun f
  end.
End Elab.
Arguments PrimCtx : clear implicits.

Definition elaborate {V F : Type} (usage_levels : gmap (list Z) Z) (e : Ast V F) : Z -> LOPath -> elabM (PortId * Z) :=
  elab_impl (fun _ _ => Panic) None usage_levels e.

Definition elaborate_with_prims {V F : Type} (call : nat -> list PrimValue -> res DnxError PrimValue) (ctx : PrimCtx V F)
    (usage_levels : gmap (list Z) Z) (e : Ast V F) : Z -> LOPath -> elabM (PortId * Z) :=
  elab_impl call (Some ctx) usage_levels e.
