(* ===== verification/Open.v ===== *)
(** * Nets under construction

    A net that is being built has ports not connected yet.  [open n O] says
    that [n] is well wired and that the free ports of its fans and
    replicators are exactly those of [O]; allocation opens ports, [connect]
    closes two. *)
From S2P Require Import Prelude Bytes Error LOPath Port Arena Net Wiring BlobSpec.

(** An agent with three ports to wire, by its tag. *)
Definition wireable (t : Z) : bool := (Z.land t 12 =? 4) || (Z.land t 12 =? 8).

Record open (n : Net) (O : list Z) : Prop := mk_open {
  op_inv : net_inv n;
  op_free : Forall (fun p => current n p /\ port_at n (key p) = Some NULL) O;
  op_once : NoDup (key <$> O);
  op_only : forall i k s, alive n i -> slot_at n i = Some s -> wireable (tag s) = true ->
    port_raw s k = NULL -> (i, k) ∈ key <$> O
}.

(** * Lemmas *)

#[export] Instance open_perm n : Proper ((≡ₚ) ==> iff) (open n).
Proof.
  assert (forall O O', O ≡ₚ O' -> open n O -> open n O') as H.
  { intros O O' Hp [H1 H2 H3 H4]. split; [done|by rewrite <- Hp|by rewrite <- Hp|]. intros. rewrite <- Hp. eauto. }
  intros O O' Hp. split; apply H; [done|by symmetry].
Qed.

Lemma current_real n p : arena_wf (arena n) -> current n p -> real p = true.
Proof. intros Hw (s & Hi & Hs & ->). destruct (alive_idx n _ Hw Hi). by apply real_port_of. Qed.

Lemma real_NULL : real NULL = false.
Proof. reflexivity. Qed.

(** The tag bits of an agent decide what is wired. *)
Lemma agent_wireable s s' : agent s = agent s' -> wireable (tag s) = wireable (tag s').
Proof.
  unfold agent, wireable. intros H. assert (Z.land (tag s) 15 = Z.land (tag s') 15) as Ht by congruence.
  change 12 with (Z.land 15 12). by rewrite !Z.land_assoc, Ht.
Qed.


Lemma port_for_current n ps t d d0 d1 k : net_inv n -> fresh_agent n ps t d d0 d1 ->
  current n (port_for ps k) /\ key (port_for ps k) = (slot_idx (ag_principal ps), k) /\ port_at n (key (port_for ps k)) = Some NULL.
Proof.
  intros Hn (s & Ha & Hs & _ & Hz & H0 & H1 & H2). pose proof (ni_arena n Hn) as Hw.
  destruct (alive_idx n _ Hw Ha) as [Hr _].
  assert (port_for ps k = port_of (slot_idx (ag_principal ps)) k s) as -> by (by destruct k).
  rewrite key_port_of by done. split; [by apply current_port_of|]. split; [done|].
  unfold port_at. cbn [fst snd]. rewrite Hs. cbn. by rewrite Hz.
Qed.

(** An agent with the ports [ks] to wire. *)
Lemma open_alloc_ports n O t d d0 d1 ks : open n O -> NoDup ks -> (wireable t = true -> forall k, k ∈ ks) ->
  returns (fun e => e = ArenaCapacityExceeded) (alloc_agent n t d d0 d1)
    (fun '(ps, n') => open n' ((port_for ps <$> ks) ++ O)).
Proof.
  intros [Hn Hf Ho Hall] Hks Hw. eapply returns_mono; [intros e He; exact He| |apply (alloc_agent_ok n t d d0 d1 Hn)].
  intros [ps n'] (Hg & Hfr & Hnew). set (i := slot_idx (ag_principal ps)) in *.
  pose proof (gr_inv _ _ _ Hg) as Hn'.
  assert (forall k, current n' (port_for ps k) /\ key (port_for ps k) = (i, k) /\ port_at n' (key (port_for ps k)) = Some NULL) as Hps
    by (intros k; by apply (port_for_current n' ps t d d0 d1)).
  split.
  - done.
  - apply Forall_app. split.
    + apply Forall_fmap, Forall_forall. intros k _. by destruct (Hps k) as (? & _ & ?).
    + eapply Forall_impl; [exact Hf|]. intros p [Hc Hp]. split; [by eapply current_grows|].
      rewrite <- Hp. eapply port_at_grows; [exact Hg|]. by apply current_alive.
  - rewrite fmap_app. apply NoDup_app. split; [|split; [|done]].
    + rewrite <- list_fmap_compose. apply NoDup_fmap_2; [|done]. intros k k' He. cbn in He.
      destruct (Hps k) as (_ & E & _), (Hps k') as (_ & E' & _). rewrite E, E' in He. congruence.
    + intros x Hx Hx'. apply list_elem_of_fmap in Hx as (p & -> & Hx). apply list_elem_of_fmap in Hx as (k & -> & _).
      destruct (Hps k) as (_ & E & _). rewrite E in Hx'. apply list_elem_of_fmap in Hx' as (q & Eq & Hq).
      rewrite Forall_forall in Hf. destruct (Hf q Hq) as [Hc _]. apply current_alive in Hc. apply Hnew.
      assert (slot_idx q = i) as <- by (unfold key in Eq; congruence). done.
  - intros j k s Hj Hs Ht Hz. rewrite fmap_app, elem_of_app. unfold alive in Hj. rewrite (gr_live _ _ _ Hg) in Hj.
    apply elem_of_app in Hj as [Hj|Hj%list_elem_of_singleton].
    + right. eapply Hall; [done| |done|done]. by rewrite <- (gr_old _ _ _ Hg).
    + left. subst j. destruct Hfr as (s' & _ & Hs' & Ha & _). fold i in Hs'. rewrite Hs in Hs'. injection Hs' as <-.
      assert (wireable t = true) as Hwt.
      { rewrite <- Ht. change t with (tag (set_tag t s)). symmetry. unfold agent in Ha.
        assert (Z.land (tag s) 15 = Z.land t 15) as He by congruence. unfold wireable.
        change 12 with (Z.land 15 12). cbn [tag set_tag]. by rewrite !Z.land_assoc, He. }
      destruct (Hps k) as (_ & E & _). rewrite <- E. apply list_elem_of_fmap_2, list_elem_of_fmap_2. by apply Hw.
Qed.

Lemma open_alloc n O t d d0 d1 : open n O ->
  returns (fun e => e = ArenaCapacityExceeded) (alloc_agent n t d d0 d1)
    (fun '(ps, n') => open n' (ag_principal ps :: ag_aux0 ps :: ag_aux1 ps :: O)).
Proof.
  intros Ho. apply (open_alloc_ports n O t d d0 d1 [Principal; Aux0; Aux1] Ho).
  - repeat constructor; set_solver.
  - intros _ []; set_solver.
Qed.

Lemma open_alloc_leaf n O t d d0 d1 : open n O -> wireable t = false ->
  returns (fun e => e = ArenaCapacityExceeded) (alloc_agent n t d d0 d1)
    (fun '(ps, n') => open n' (ag_principal ps :: O)).
Proof.
  intros Ho Ht. apply (open_alloc_ports n O t d d0 d1 [Principal] Ho); [apply NoDup_singleton|].
  by rewrite Ht.
Qed.

Lemma open_alloc_free n O v : open n O ->
  returns (fun e => e = ArenaCapacityExceeded) (alloc_free n v) (fun '(p, n') => open n' (p :: O)).
Proof.
  intros Ho. rewrite alloc_free_agent by apply Ho. eapply returns_bind; [by apply (open_alloc_leaf n O)|].
  by intros [ps n'].
Qed.

(** The two ends of one wire, at different places. *)
Lemma ends_one (a b p q : PortId) : (p, q) ∈ ends [(a, b)] -> (p = a /\ q = b) \/ (p = b /\ q = a).
Proof. intros [H|H%list_elem_of_singleton]%elem_of_cons; injection H as -> ->; auto. Qed.

Lemma coherent_one a b : (real a = true -> real b = true -> key a <> key b) -> coherent [(a, b)].
Proof.
  intros Hne p q p' q' H%ends_one H'%ends_one Hr Hr' Hk.
  destruct H as [[-> ->]|[-> ->]], H' as [[-> ->]|[-> ->]]; try done; exfalso; apply Hne; done.
Qed.

(** Connecting free ports closes them; an eraser or a null port is no port. *)
Lemma open_connect_evolve n O a b lo : a <> NULL -> b <> NULL -> open n (filter (fun p => real p = true) [a; b] ++ O) ->
  exists n', connect n a b lo = Ok n' /\ evolve n [] [(a, b)] n' /\ open n' O.
Proof.
  intros Ha Hb Ho. pose proof Ho as [Hn Hf Hon Hall]. pose proof (ni_arena n Hn) as Hw.
  set (es := filter (fun p => real p = true) [a; b]) in *.
  apply Forall_app in Hf as [Hes HfO].
  assert (forall p, p ∈ es -> current n p /\ port_at n (key p) = Some NULL) as Hend
    by (intros p Hp; rewrite Forall_forall in Hes; auto).
  assert (forall p, (p = a \/ p = b) -> real p = true -> p ∈ es) as Hin
    by (intros p Hp Hr; apply list_elem_of_filter; split; [done|set_solver]).
  assert (forall p, (p = a \/ p = b) -> port_in n p) as Hpi.
  { intros p Hp Hr. apply current_in; [done|by apply Hend, Hin|done]. }
  destruct (evolve_connect n [] [] n a b lo) as (n' & Hc & He); [by apply evolve_refl|apply Hpi; auto..|].
  exists n'. split; [done|]. cbn [app] in He. split; [done|].
  assert (coherent [(a, b)]) as Hco.
  { apply coherent_one. intros Hra Hrb Hkk. revert Hon. unfold es. rewrite filter_cons_True, filter_cons_True by done.
    cbn. rewrite Hkk. intros [Hx _]%NoDup_cons. apply Hx. left. }
  assert (forall p q, (p, q) ∈ ends [(a, b)] -> real p = true -> current n p /\ slot_idx p ∉ ([] : list Z)) as Hcur.
  { intros p q H%ends_one Hr. split; [apply Hend, Hin; [tauto|done]|by intros ?%not_elem_of_nil]. }
  assert (net_inv n') as Hn'.
  { eapply (evolve_inv n n' [] [(a, b)]); try done.
    - intros p q r H%ends_one Hr Hp Hrr. destruct (Hend p) as [_ Hz]; [apply Hin; [tauto|done]|]. exfalso. assert (r = NULL) as -> by congruence. done.
    - intros d k r Hd. by apply not_elem_of_nil in Hd. }
  assert (forall p q, (p, q) ∈ ends [(a, b)] -> real p = true -> port_at n' (key p) = Some q) as Hset
    by (intros; eapply (evolve_wired_end n n' [] [(a, b)]); done).
  assert (forall k, (forall p, p ∈ es -> key p <> k) -> port_at n' k = port_at n k) as Hframe.
  { intros k Hk. eapply (evolve_frame n n' [] [(a, b)]); [done|]. intros p q H%ends_one Hr. apply Hk, Hin; [tauto|done]. }
  rewrite fmap_app in Hon. apply NoDup_app in Hon as (_ & Hdis & Hon). split.
  - done.
  - eapply Forall_impl; [eapply Forall_and; split; [exact HfO|apply Forall_forall; intros p Hp; exact Hp]|].
    intros p [[Hcp Hz] HpO]. split.
    + apply (current_evolve n n' [] [(a, b)]); [done|done|done|by intros ?%not_elem_of_nil].
    + rewrite Hframe; [done|]. intros q Hq Hk. apply (Hdis (key q)); [by apply list_elem_of_fmap_2|].
      rewrite Hk. by apply list_elem_of_fmap_2.
  - done.
  - intros i k s Hi Hs Ht Hz. apply (evolve_alive n n' [] [(a, b)]) in Hi as [Hi _]; [|done..].
    destruct (evolve_slot n n' [] [(a, b)] He i s Hs) as [s0 Hs0].
    assert (port_at n' (i, k) = Some NULL) as Hpn by (unfold port_at; cbn; rewrite Hs; cbn; by rewrite Hz).
    assert (agent s = agent s0) as Hag.
    { pose proof (ev_agents _ _ _ _ He i) as Hg. unfold agent_at in Hg. rewrite Hs, Hs0 in Hg. cbn in Hg. congruence. }
    destruct (decide ((i, k) ∈ key <$> es)) as [Hk|Hk].
    + exfalso. apply list_elem_of_fmap in Hk as (p & Hk & Hp). apply list_elem_of_filter in Hp as [Hr Hp].
      rewrite Hk in Hpn. assert (p = a \/ p = b) as [->| ->] by set_solver.
      * pose proof (Hset a b ltac:(left) Hr) as E. apply Hb. congruence.
      * pose proof (Hset b a ltac:(right; left) Hr) as E. apply Ha. congruence.
    + assert (port_raw s0 k = NULL) as Hz0.
      { rewrite Hframe in Hpn; [|intros p Hp E; apply Hk; rewrite <- E; by apply list_elem_of_fmap_2].
        unfold port_at in Hpn. cbn in Hpn. rewrite Hs0 in Hpn. by injection Hpn. }
      assert (wireable (tag s0) = true) as Ht0 by (by rewrite <- (agent_wireable s)).
      pose proof (Hall i k s0 Hi Hs0 Ht0 Hz0) as H. rewrite fmap_app, elem_of_app in H. tauto.
Qed.

Lemma open_connect n O a b lo : a <> NULL -> b <> NULL -> open n (filter (fun p => real p = true) [a; b] ++ O) ->
  exists n', connect n a b lo = Ok n' /\ open n' O.
Proof. intros Ha Hb Ho. destruct (open_connect_evolve n O a b lo Ha Hb Ho) as (n' & Hc & _ & Ho'). eauto. Qed.

Lemma open_wire n O p q lo : open n (p :: q :: O) -> exists n', connect n p q lo = Ok n' /\ open n' O.
Proof.
  intros Ho. pose proof (op_free _ _ Ho) as [[Hp _] [[Hq _] _]%Forall_cons_1]%Forall_cons_1.
  pose proof (ni_arena _ (op_inv _ _ Ho)) as Hw.
  pose proof (current_real _ _ Hw Hp) as Hrp. pose proof (current_real _ _ Hw Hq) as Hrq.
  apply open_connect; [intros ->; done|intros ->; done|].
  by rewrite !filter_cons_True, filter_nil by done.
Qed.

(** The second port of a wire just made leads to the first. *)
Lemma open_wire_peer n O p q lo : open n (p :: q :: O) -> exists n', connect n p q lo = Ok n' /\ open n' O /\
  current n' p /\ current n' q /\ port_at n' (key q) = Some p.
Proof.
  intros Ho. pose proof (op_free _ _ Ho) as [[Hp _] [[Hq Hz] _]%Forall_cons_1]%Forall_cons_1.
  pose proof (op_inv _ _ Ho) as Hn. pose proof (ni_arena _ Hn) as Hw.
  pose proof (current_real _ _ Hw Hp) as Hrp. pose proof (current_real _ _ Hw Hq) as Hrq.
  assert (key p <> key q) as Hne.
  { intros Hk. pose proof (op_once _ _ Ho) as [Hx _]%NoDup_cons. apply Hx. cbn. rewrite Hk. left. }
  destruct (open_connect_evolve n O p q lo) as (n' & Hc & He & Ho'); [intros ->; done|intros ->; done| |].
  { by rewrite !filter_cons_True, filter_nil by done. }
  exists n'. split; [done|]. split; [done|].
  assert (coherent [(p, q)]) as Hco by (by apply coherent_one).
  assert (forall a b, (a, b) ∈ ends [(p, q)] -> real a = true -> current n a /\ slot_idx a ∉ ([] : list Z)) as Hcur.
  { intros a b [[-> _]|[-> _]]%ends_one Hr; (split; [done|by intros ?%not_elem_of_nil]). }
  assert (forall r, current n r -> current n' r) as Hold
    by (intros r Hr; apply (current_evolve n n' [] [(p, q)]); try done; by intros ?%not_elem_of_nil).
  split; [auto|]. split; [auto|].
  assert ((q, p) ∈ ends [(p, q)]) as Hin by (right; left). eapply (evolve_wired_end n n' [] [(p, q)]); done.
Qed.

Lemma open_erase n O p lo : open n (p :: O) -> exists n', connect n ERA p lo = Ok n' /\ open n' O.
Proof.
  intros Ho. pose proof (op_free _ _ Ho) as [[Hp _] _]%Forall_cons_1.
  pose proof (current_real _ _ (ni_arena _ (op_inv _ _ Ho)) Hp) as Hrp.
  apply open_connect; [done|intros ->; done|].
  rewrite filter_cons_False by (by rewrite real_ERA). by rewrite filter_cons_True, filter_nil by done.
Qed.
