(* ===== verification/ElabSpec.v ===== *)
(** * Elaboration builds well-wired nets

    Each combinator of [Elab] consumes the ports of the names it meets and
    leaves one free port, its result; composed over a linear term with
    distinct binders they leave no port dangling. *)
From S2P Require Import Prelude Bytes Utf8 Text Codec Error LOPath Port Arena Net Prim Wiring Rules BlobSpec Ast Pass1 Elab Open.

(** The ports the environment holds. *)
Definition env_ports (env : gmap (list Z) (PortId * Z)) : list Z := (fun kv => kv.2.1) <$> map_to_list env.

(** The free ports are those of the environment and those of [X]. *)
Definition building (s : est) (X : list Z) : Prop := open (e_net s) (X ++ env_ports (e_env s)).

(** A name a binder can have after renaming. *)
Definition marked (x : Name) : Prop := TILDE ∈ x.

(** The names of [e] bound outside it. *)
Definition fv {V F} (e : Ast V F) : gset (list Z) := list_to_set (filter (fun x => occ e x <> 0%nat) (uses e)).
Definition closed {V F} (e : Ast V F) : Prop := forall x, occ e x = 0%nat.
(** What must not be in the environment when [e] is elaborated. *)
Definition taken {V F} (e : Ast V F) (x : Name) : Prop := x ∈ binders e \/ ~ marked x.

Section Supported.
Context {V F : Type} (prim : option (PrimCtx V F)).

(** What [elab_impl] does not reject: no effects beyond handlers with one
    branch, and primitives the context knows. *)
Fixpoint supported (e : Ast V F) : bool :=
  match e with
  | AName _ => true
  | AAbs _ e | AFix e => supported e
  | AApp f a => supported f && supported a
  | ARep e _ _ body | AEra e body => supported e && supported body
  | APerform _ _ => false
  | AHandle comp [mk_branch _ _ _ body] => supported comp && supported body
  | AHandle _ _ => false
  | AVal v => match prim with Some ctx => bool_decide (is_Some (to_val ctx v)) | None => true end
  | AFun f => match prim with Some ctx => bool_decide (is_Some (to_fun ctx f)) | None => true end
  end.
End Supported.

Section Combinators.
Context (call : nat -> list PrimValue -> res DnxError PrimValue).

(** A function without arguments is called at once, and must end. *)
Definition calls_total {V F} (prim : option (PrimCtx V F)) : Prop := forall ctx f en pf, prim = Some ctx ->
  to_fun ctx f = Some en -> impl_ en = Pure pf -> arity_remaining en = 0 -> total (call pf (captured en)).

(** The errors of elaboration. *)
Definition elab_error (err : DnxError) : Prop :=
  err = ArenaCapacityExceeded \/ err = LOPathDepthExceeded \/ err = DeltaOverflow \/ exists f vs, call f vs = Err err.

(** [m] consumes the names of [need] and leaves one port more; the names of
    [B] must be unbound before. *)
Definition elabs (m : Z -> LOPath -> elabM (PortId * Z)) (need : gset (list Z)) (B : list Z -> Prop) : Prop :=
  forall level lo s X, building s X ->
  (forall x, x ∈ need -> is_Some (e_env s !! x)) -> (forall x, B x -> e_env s !! x = None) ->
  returns elab_error (m level lo s) (fun '((p, _), s') =>
    building s' (p :: X) /\ forall x, e_env s' !! x = if decide (x ∈ need) then None else e_env s !! x).
End Combinators.

(** * Lemmas *)

(** ** One step *)

Lemma env_ports_insert env x pl : env !! x = None -> env_ports (<[x := pl]> env) ≡ₚ pl.1 :: env_ports env.
Proof. intros H. unfold env_ports. by rewrite map_to_list_insert. Qed.

Lemma env_ports_delete env x pl : env !! x = Some pl -> env_ports env ≡ₚ pl.1 :: env_ports (delete x env).
Proof. intros H. rewrite <- env_ports_insert with (x := x) by apply lookup_delete_eq. by rewrite insert_delete_id. Qed.

Section Steps.
Context (call : nat -> list PrimValue -> res DnxError PrimValue).
Notation err := (elab_error call).

Lemma returns_elab {A B} (m : elabM A) (k : A -> elabM B) s (R : A * est -> Prop) (Q : B * est -> Prop) :
  returns err (m s) R -> (forall a s', R (a, s') -> returns err (k a s') Q) -> returns err ((x ← m; k x) s) Q.
Proof. unfold mbind, elab_bind. destruct (m s) as [[a s']|e| |]; cbn; auto. Qed.

(** A step that only computes or fails. *)
Lemma returns_lift {A B} (m : res DnxError A) (k : A -> elabM B) s (Q : B * est -> Prop) :
  returns err m (fun a => returns err (k a s) Q) -> returns err ((x ← lift m; k x) s) Q.
Proof. unfold mbind, elab_bind, lift. by destruct m. Qed.

Lemma building_perm s X Y : X ≡ₚ Y -> building s X -> building s Y.
Proof. unfold building. by intros ->. Qed.

Lemma returns_alloc {B} t d d0 d1 (k : AgentPorts -> elabM B) s X (Q : B * est -> Prop) : building s X ->
  (forall ps s', building s' (ag_principal ps :: ag_aux0 ps :: ag_aux1 ps :: X) -> e_env s' = e_env s ->
     returns err (k ps s') Q) ->
  returns err ((ps ← on_net (fun n => alloc_agent n t d d0 d1); k ps) s) Q.
Proof.
  intros Hb Hk. unfold mbind, elab_bind, on_net. pose proof (open_alloc _ _ t d d0 d1 Hb) as H.
  destruct (alloc_agent _ _ _ _ _) as [[ps n']|e| |]; cbn in *; [|subst; by left|done..]. by apply Hk.
Qed.

Lemma returns_connect {B} p q lo (k : unit -> elabM B) s X Y (Q : B * est -> Prop) :
  building s X -> X ≡ₚ p :: q :: Y ->
  (forall s', building s' Y -> e_env s' = e_env s -> returns err (k tt s') Q) ->
  returns err ((u ← connects p q lo; k u) s) Q.
Proof.
  intros Hb Hp Hk. unfold mbind, elab_bind, connects. apply (building_perm _ _ _ Hp) in Hb.
  destruct (open_wire _ _ _ _ lo Hb) as (n' & -> & Hn'). cbn. by apply Hk.
Qed.

Lemma returns_erase {B} p lo (k : unit -> elabM B) s Y (Q : B * est -> Prop) :
  building s (p :: Y) -> (forall s', building s' Y -> e_env s' = e_env s -> returns err (k tt s') Q) ->
  returns err ((u ← connects ERA p lo; k u) s) Q.
Proof.
  intros Hb Hk. unfold mbind, elab_bind, connects.
  destruct (open_erase _ _ _ lo Hb) as (n' & -> & Hn'). cbn. by apply Hk.
Qed.

Lemma building_insert s x pl X : e_env s !! x = None -> building s (pl.1 :: X) ->
  building (set_env (<[x := pl]> (e_env s)) s) X.
Proof. intros Hx. unfold building. cbn. rewrite env_ports_insert by done. by rewrite <- Permutation_middle. Qed.

Lemma returns_bind_name {B} x pl (k : unit -> elabM B) s X (Q : B * est -> Prop) :
  building s (pl.1 :: X) -> e_env s !! x = None ->
  (forall s', building s' X -> e_env s' = <[x := pl]> (e_env s) -> returns err (k tt s') Q) ->
  returns err ((u ← env_insert x pl; k u) s) Q.
Proof. intros Hb Hx Hk. apply Hk; [by apply building_insert|done]. Qed.

Lemma returns_unbind {B} x (k : option (PortId * Z) -> elabM B) s (Q : B * est -> Prop) :
  e_env s !! x = None -> returns err (k None s) Q -> returns err ((o ← env_remove x; k o) s) Q.
Proof.
  intros Hx. unfold mbind, elab_bind, env_remove. rewrite Hx, delete_id by done. by destruct s.
Qed.

Lemma extend_returns (f : LOPath -> res DnxError LOPath) lo (Q : LOPath -> Prop) :
  (f = extend_left \/ f = extend_right) -> (forall lo', Q lo') -> returns err (f lo) Q.
Proof.
  intros Hf HQ. assert (exists b, f lo = extend_bit lo b) as [b ->] by (destruct Hf as [-> | ->]; by eexists).
  unfold extend_bit, promote. destruct (len lo =? 128); [|cbn; auto].
  destruct (warm lo), (cold lo), (frozen lo); cbn; auto. right. by left.
Qed.
End Steps.

(** ** The combinators *)

Section Rules.
Context (call : nat -> list PrimValue -> res DnxError PrimValue).
Notation elabs := (elabs call).
Implicit Types need : gset (list Z).
Implicit Types B : list Z -> Prop.

Lemma elabs_weaken m need B B' : (forall x, B x -> B' x) -> elabs m need B -> elabs m need B'.
Proof. intros HB H level lo s X Hb Hn HB'. apply H; auto. Qed.

(** Use an elaboration inside another. *)
Lemma returns_elabs {A} m need B level lo (k : PortId * Z -> elabM A) s X (Q : A * est -> Prop) :
  elabs m need B -> building s X -> (forall x, x ∈ need -> is_Some (e_env s !! x)) ->
  (forall x, B x -> e_env s !! x = None) ->
  (forall p l s', building s' (p :: X) -> (forall x, e_env s' !! x = if decide (x ∈ need) then None else e_env s !! x) ->
     returns (elab_error call) (k (p, l) s') Q) ->
  returns (elab_error call) ((pl ← m level lo; k pl) s) Q.
Proof.
  intros Hm Hb Hn HB Hk. eapply returns_elab; [by apply (Hm level lo s X)|]. intros [p l] s' [H1 H2]. by apply Hk.
Qed.

Lemma elabs_name n : elabs (elab_name n) {[n]} (fun _ => False).
Proof.
  intros level lo s X Hb Hn _. destruct (Hn n ltac:(set_solver)) as [[p l] Hp].
  unfold elab_name, mbind, elab_bind, env_remove, lift. rewrite Hp. cbn. split.
  - unfold building in *. cbn. by rewrite (env_ports_delete _ _ _ Hp), <- Permutation_middle in Hb.
  - intros x. destruct (decide (x ∈ {[n]})) as [->%elem_of_singleton|Hx]; [by rewrite lookup_delete_eq|].
    rewrite lookup_delete_ne by set_solver. done.
Qed.

Lemma elabs_abs x m need B : x ∈ need -> ~ B x -> elabs m need B ->
  elabs (elab_abs x m) (need ∖ {[x]}) (fun y => y = x \/ B y).
Proof.
  intros Hx HBx Hm level lo s X Hb Hn HB. unfold elab_abs, alloc_abs.
  eapply returns_alloc; [exact Hb|]. intros ps s1 Hb1 E1. cbn [mbind elab_bind].
  assert (e_env s !! x = None) as Hxs by (apply HB; by left).
  eapply returns_bind_name; [|by rewrite E1|intros s2 Hb2 E2].
  { eapply building_perm; [|exact Hb1]. symmetry. apply (Permutation_middle [_; _] X). }
  rewrite E1 in E2.
  eapply returns_lift, extend_returns; [by left|]. intros lo'.
  eapply returns_elabs; [exact Hm|exact Hb2|..].
  - intros y Hy. rewrite E2. destruct (decide (y = x)) as [->|Hyx]; [rewrite lookup_insert_eq; by eexists|].
    rewrite lookup_insert_ne by done. apply Hn. set_solver.
  - intros y Hy. rewrite E2, lookup_insert_ne by congruence. apply HB. by right.
  - intros p l s3 Hb3 E3. cbn [mbind elab_bind].
    assert (e_env s3 !! x = None) as Hx3 by (rewrite E3; by rewrite decide_True).
    eapply returns_unbind; [done|].
    eapply (returns_connect call (ag_aux0 ps) p); [exact Hb3|symmetry; apply (Permutation_middle [p; _] X)|].
    intros s4 Hb4 E4. cbn. split; [exact Hb4|]. intros y. rewrite E4, E3, E2.
    destruct (decide (y = x)) as [->|Hyx].
    + rewrite decide_True, decide_False by set_solver. by rewrite Hxs.
    + rewrite lookup_insert_ne by done. destruct (decide (y ∈ need)); [rewrite decide_True by set_solver|rewrite decide_False by set_solver]; done.
Qed.

(** One elaboration after another: the second one finds the names that are left. *)
Lemma after_env (env env' : gmap (list Z) (PortId * Z)) need1 need2 (B1 B2 : list Z -> Prop) :
  (forall x, env' !! x = if decide (x ∈ need1) then None else env !! x) -> need1 ## need2 ->
  (forall x, x ∈ need1 ∪ need2 -> is_Some (env !! x)) ->
  (forall x, B1 x \/ (B2 x /\ x ∉ need1) -> env !! x = None) ->
  (forall x, x ∈ need2 -> is_Some (env' !! x)) /\ (forall x, B2 x -> env' !! x = None).
Proof.
  intros E Hd Hn HB. split; intros x Hx; rewrite E.
  - rewrite decide_False by set_solver. apply Hn. set_solver.
  - destruct (decide (x ∈ need1)); [done|]. apply HB. auto.
Qed.

Lemma minus_env (env env' env'' : gmap (list Z) (PortId * Z)) need1 need2 :
  (forall x, env' !! x = if decide (x ∈ need1) then None else env !! x) ->
  (forall x, env'' !! x = if decide (x ∈ need2) then None else env' !! x) ->
  forall x, env'' !! x = if decide (x ∈ need1 ∪ need2) then None else env !! x.
Proof.
  intros E1 E2 x. rewrite E2, E1. pose proof (elem_of_union need1 need2 x) as Hin.
  destruct (decide (x ∈ need2)), (decide (x ∈ need1)), (decide (x ∈ need1 ∪ need2)); tauto.
Qed.

Lemma in_two (need1 need2 : gset (list Z)) a b y : y <> a -> y <> b ->
  (y ∈ need1 ∪ need2 ∖ {[a; b]} <-> y ∈ need1 \/ y ∈ need2).
Proof. intros Ha Hb. set_solver. Qed.

Definition then_taken need1 B1 B2 : list Z -> Prop := fun x => B1 x \/ (B2 x /\ x ∉ need1).

Lemma elabs_app f a need1 need2 B1 B2 : need1 ## need2 -> elabs f need1 B1 -> elabs a need2 B2 ->
  elabs (elab_app f a) (need1 ∪ need2) (then_taken need1 B1 B2).
Proof.
  intros Hd Hf Ha level lo s X Hb Hn HB. unfold elab_app, alloc_app.
  eapply returns_alloc; [exact Hb|]. intros ps s1 Hb1 E1. rewrite <- E1 in Hn, HB |- *.
  eapply returns_lift, extend_returns; [by left|]. intros lo1.
  eapply returns_elabs; [exact Hf|exact Hb1|set_solver|intros x Hx; apply HB; by left|]. intros p1 l1 s2 Hb2 E2. cbn.
  eapply returns_lift, extend_returns; [by right|]. intros lo2.
  destruct (after_env _ _ need1 need2 B1 B2 E2 Hd Hn HB) as [Hn2 HB2].
  eapply returns_elabs; [exact Ha|exact Hb2|exact Hn2|exact HB2|]. intros p2 l2 s3 Hb3 E3. cbn.
  eapply (returns_connect call (ag_principal ps) p1); [exact Hb3| |].
  { instantiate (1 := ag_aux1 ps :: p2 :: ag_aux0 ps :: X).
    etrans; [symmetry; apply (Permutation_middle [p2; p1] (_ :: _ :: X))|]. cbn. constructor.
    etrans; [apply Permutation_swap|]. constructor.
    symmetry. apply (Permutation_middle [p2; _] X). }
  intros s4 Hb4 E4. eapply (returns_connect call (ag_aux1 ps) p2); [exact Hb4|reflexivity|].
  intros s5 Hb5 E5. cbn. split; [exact Hb5|]. rewrite E5, E4. by eapply minus_env.
Qed.

Lemma elabs_era e body need1 need2 B1 B2 : need1 ## need2 -> elabs e need1 B1 -> elabs body need2 B2 ->
  elabs (elab_era e body) (need1 ∪ need2) (then_taken need1 B1 B2).
Proof.
  intros Hd He Hbody level lo s X Hb Hn HB. unfold elab_era.
  eapply returns_elabs; [exact He|exact Hb|set_solver|intros x Hx; apply HB; by left|]. intros p1 l1 s1 Hb1 E1. cbn.
  eapply returns_erase; [exact Hb1|]. intros s2 Hb2 E2.
  destruct (after_env _ _ need1 need2 B1 B2 E1 Hd Hn HB) as [Hn2 HB2]. rewrite <- E2 in Hn2, HB2, E1.
  eapply returns_mono; [intros err H; exact H| |by apply (Hbody level lo s2 X)].
  intros [[p l] s3] [Hb3 E3]. split; [exact Hb3|]. by eapply minus_env.
Qed.

Lemma elabs_rep ul e a b body need1 need2 B1 B2 :
  need1 ## need2 ∖ {[a; b]} -> a <> b -> a ∈ need2 -> b ∈ need2 -> ~ B2 a -> ~ B2 b ->
  elabs e need1 B1 -> elabs body need2 B2 ->
  elabs (elab_rep ul e a b body) (need1 ∪ need2 ∖ {[a; b]})
    (then_taken need1 B1 (fun x => x = a \/ x = b \/ B2 x)).
Proof.
  intros Hd Hab Ha Hbn HBa HBb He Hbody level lo s X Hb Hn HB. unfold elab_rep.
  eapply returns_elabs; [exact He|exact Hb|set_solver|intros x Hx; apply HB; by left|]. intros p1 l1 s1 Hb1 E1. cbn -[i16_try_from].
  assert (forall z (Q : Z -> Prop), (forall d, Q d) -> returns (elab_error call) (i16_try_from z) Q) as Hi.
  { intros z Q HQ. unfold i16_try_from. destruct (_ && _); cbn; [apply HQ|]. do 2 right. by left. }
  eapply returns_lift, Hi. intros d0. eapply returns_lift, Hi. intros d1.
  eapply returns_alloc; [exact Hb1|]. intros ps s2 Hb2 E2. cbn.
  eapply (returns_connect call (ag_principal ps) p1); [exact Hb2| |].
  { instantiate (1 := ag_aux0 ps :: ag_aux1 ps :: X).
    constructor. symmetry. apply (Permutation_middle [_; _] X). }
  intros s3 Hb3 E3. rewrite E2 in E3.
  destruct (after_env _ _ need1 (need2 ∖ {[a; b]}) B1 (fun x => x = a \/ x = b \/ B2 x) E1 Hd Hn HB) as [Hn2 HB2].
  rewrite <- E3 in Hn2, HB2, E1.
  eapply returns_bind_name; [exact Hb3|apply HB2; by left|]. intros s4 Hb4 E4.
  eapply returns_bind_name; [exact Hb4|rewrite E4, lookup_insert_ne by done; apply HB2; auto|]. intros s5 Hb5 E5.
  rewrite E4 in E5. clear E4 E3 E2.
  eapply returns_mono; [intros err H; exact H| |apply (Hbody level lo s5 X)]; [|exact Hb5| |].
  - intros [[p l] s6] [Hb6 E6]. split; [exact Hb6|]. intros y. rewrite E6, E5.
    assert (y = a \/ y = b -> (if decide (y ∈ need1 ∪ need2 ∖ {[a; b]}) then None else e_env s !! y) = None) as Hend.
    { intros Hy. destruct (decide _) as [|Hout]; [done|].
      pose proof (HB2 y ltac:(tauto)) as Hy3. rewrite E1, decide_False in Hy3 by set_solver. exact Hy3. }
    destruct (decide (y = b)) as [->|Hyb]; [rewrite decide_True by done; symmetry; auto|].
    destruct (decide (y = a)) as [->|Hya]; [rewrite decide_True by done; symmetry; auto|].
    rewrite !lookup_insert_ne by done. rewrite E1.
    pose proof (in_two need1 need2 a b y Hya Hyb) as Hin.
    destruct (decide (y ∈ need2)), (decide (y ∈ need1)), (decide (y ∈ need1 ∪ need2 ∖ {[a; b]})); tauto.
  - intros y Hy. rewrite E5. destruct (decide (y = b)) as [->|Hyb]; [rewrite lookup_insert_eq; by eexists|].
    rewrite lookup_insert_ne by done.
    destruct (decide (y = a)) as [->|Hya]; [rewrite lookup_insert_eq; by eexists|].
    rewrite lookup_insert_ne by done. apply Hn2. set_solver.
  - intros y Hy. rewrite E5, !lookup_insert_ne by congruence. auto.
Qed.

Lemma elabs_fix e need B : elabs e need B -> elabs (elab_fix e) need B.
Proof.
  intros He level lo s X Hb Hn HB. unfold elab_fix, alloc_app, alloc_rep_in.
  eapply returns_lift, extend_returns; [by left|]. intros lo1.
  eapply returns_elabs; [exact He|exact Hb|exact Hn|exact HB|]. intros p l s1 Hb1 E1. cbn.
  eapply returns_alloc; [exact Hb1|]. intros app s2 Hb2 E2.
  eapply (returns_connect call (ag_principal app) p); [exact Hb2| |].
  { instantiate (1 := ag_aux0 app :: ag_aux1 app :: X). constructor. symmetry. apply (Permutation_middle [_; _] X). }
  intros s3 Hb3 E3. eapply returns_alloc; [exact Hb3|]. intros rep s4 Hb4 E4.
  eapply returns_lift, extend_returns; [by right|]. intros lo2.
  eapply (returns_connect call (ag_principal rep) (ag_aux0 app)); [exact Hb4| |].
  { instantiate (1 := ag_aux0 rep :: ag_aux1 rep :: ag_aux1 app :: X). constructor.
    symmetry. apply (Permutation_middle [_; _] (_ :: X)). }
  intros s5 Hb5 E5. eapply (returns_connect call (ag_aux1 app) (ag_aux0 rep)); [exact Hb5| |].
  { instantiate (1 := ag_aux1 rep :: X). symmetry. apply (Permutation_middle [_; _] X). }
  intros s6 Hb6 E6. cbn. split; [exact Hb6|]. by rewrite E6, E5, E4, E3, E2.
Qed.

(** ** Handlers *)

(** A name of [elab_fresh], never marked. *)
Lemma returns_fresh {A} prefix (k : Name -> elabM A) s X (Q : A * est -> Prop) : TILDE ∉ prefix -> building s X ->
  (forall x s', ~ marked x -> building s' X -> e_env s' = e_env s -> returns (elab_error call) (k x s') Q) ->
  returns (elab_error call) ((x ← elab_fresh prefix; k x) s) Q.
Proof.
  intros Hp Hb Hk. apply Hk; [|exact Hb|done].
  unfold marked. rewrite !elem_of_app. intros [H|[H|H]]; [set_solver|done|].
  apply digits_chars in H. unfold TILDE in H. lia.
Qed.

Lemma elabs_handle comp arg k body need1 need2 B1 B2 :
  need1 ## need2 ∖ {[arg; k]} -> arg <> k -> arg ∈ need2 -> k ∈ need2 -> ~ B2 arg -> ~ B2 k ->
  (forall x, x ∈ need1 ∪ need2 -> marked x) -> (forall x, ~ marked x -> B1 x) -> (forall x, ~ marked x -> B2 x) ->
  elabs comp need1 B1 -> elabs body need2 B2 ->
  elabs (elab_handle comp arg k body) (need1 ∪ need2 ∖ {[arg; k]})
    (then_taken need1 B1 (fun x => x = arg \/ x = k \/ B2 x)).
Proof.
  intros Hd Hak Ha Hk HBa HBk Hm Hu1 Hu2 Hcomp Hbody level lo s X Hb Hn HB. unfold elab_handle.
  eapply (returns_fresh (chars "r")); [by apply (bool_decide_unpack _)|exact Hb|]. intros r s1 Hr Hb1 E1.
  eapply (returns_fresh (chars "lbl")); [by apply (bool_decide_unpack _)|exact Hb1|]. intros lbl s2 Hl Hb2 E2.
  rewrite <- E1, <- E2 in Hn, HB |- *. clear E1 E2.
  assert (forall x, x ∈ need1 ∪ need2 -> x <> lbl) as Hlbl by (intros x Hx ->; by apply Hl, Hm).
  assert (elabs (elab_abs r (elab_name r)) ({[r]} ∖ {[r]}) (fun y => y = r \/ False)) as Hid
    by (apply elabs_abs; [set_solver|tauto|apply elabs_name]).
  assert (elabs (elab_era (elab_name lbl) body) ({[lbl]} ∪ need2) (then_taken {[lbl]} (fun _ => False) B2)) as Hera
    by (apply elabs_era; [set_solver|apply elabs_name|exact Hbody]).
  pose proof (fun H1 H2 => elabs_abs k _ _ _ H1 H2 Hera) as Hk1.
  specialize (Hk1 ltac:(set_solver) ltac:(unfold then_taken; tauto)).
  pose proof (fun H1 H2 => elabs_abs arg _ _ _ H1 H2 Hk1) as Ha1.
  specialize (Ha1 ltac:(set_solver) ltac:(unfold then_taken; tauto)).
  assert (arg <> lbl /\ k <> lbl) as [Hal Hkl] by (split; apply Hlbl; set_solver).
  pose proof (fun H1 H2 => elabs_abs lbl _ _ _ H1 H2 Ha1) as Hl1.
  specialize (Hl1 ltac:(set_solver) ltac:(unfold then_taken; set_solver)).
  pose proof (fun H => elabs_app _ _ _ _ _ _ H Hcomp Hid) as Hf. specialize (Hf ltac:(set_solver)).
  pose proof (fun H => elabs_app _ _ _ _ _ _ H Hf Hl1) as Hall. specialize (Hall ltac:(set_solver)).
  clear Hid Hera Hk1 Ha1 Hf Hl1. revert Hall.
  assert (need1 ∪ {[r]} ∖ {[r]} ∪ ({[lbl]} ∪ need2) ∖ {[k]} ∖ {[arg]} ∖ {[lbl]} = need1 ∪ need2 ∖ {[arg; k]}) as ->.
  { assert (lbl ∉ need2) by (intros Hx; by apply (Hlbl lbl ltac:(set_solver))). clear -H. set_solver. }
  intros Hall. apply (Hall level lo s2 X Hb2 Hn). intros x Hx. apply HB. revert Hx. unfold then_taken.
  assert (B1 r /\ B1 lbl) as [Hr1 Hl1] by auto.
  intros [[?|[[->|[]] _]]|[[->|[?|[?|[[]|[? _]]]]] Hx]]; auto; right; (split; [auto|set_solver]).
Qed.
End Rules.

(** ** Terms *)

Section Terms.
Context {V F : Type}.
Implicit Types e : Ast V F.

Lemma occ_unused e x : x ∉ uses e -> occ e x = 0%nat.
Proof.
  induction e using ast_ind; cbn [uses occ]; rewrite ?not_elem_of_app; intros Hx; try done.
  - rewrite bool_decide_eq_false_2; [done|set_solver].
  - rewrite IHe by done. by case_bool_decide.
  - destruct Hx. by rewrite IHe1, IHe2.
  - destruct Hx. rewrite IHe1, IHe2 by done. by destruct (_ || _).
  - destruct Hx. by rewrite IHe1, IHe2.
  - by apply IHe.
  - by apply IHe.
  - destruct Hx as [Hc Hb]. rewrite IHe by done. cbn [Nat.add].
    match goal with H : Forall _ _ |- _ => induction H as [|[lb a k body] bs Hbr _ IH] end; [done|].
    cbn in Hb, Hbr |- *. apply not_elem_of_app in Hb as [Hb1 Hb2]. rewrite Hbr by done. unfold list_sum in IH. rewrite IH by done. by destruct (_ || _).
Qed.

Lemma elem_of_fv e x : x ∈ fv e <-> occ e x <> 0%nat.
Proof.
  unfold fv. rewrite elem_of_list_to_set, list_elem_of_filter. split; [tauto|]. intros H. split; [done|].
  destruct (decide (x ∈ uses e)) as [|Hu]; [done|]. by apply occ_unused in Hu.
Qed.

Lemma fv_name n : fv (AName n : Ast V F) = {[n]}.
Proof. apply set_eq. intros x. rewrite elem_of_fv, elem_of_singleton. cbn. case_bool_decide; split; congruence. Qed.

Lemma fv_abs x e : fv (AAbs x e) = fv e ∖ {[x]}.
Proof.
  apply set_eq. intros y. rewrite elem_of_difference, !elem_of_fv, elem_of_singleton. cbn.
  case_bool_decide; subst; split; intros; try split; try tauto; congruence.
Qed.

Lemma fv_plus e e1 e2 : (forall x, occ e x = occ e1 x + occ e2 x)%nat -> fv e = fv e1 ∪ fv e2.
Proof. intros H. apply set_eq. intros x. rewrite elem_of_union, !elem_of_fv, H. lia. Qed.

Lemma fv_two e e1 (a b : list Z) (body : Ast V F) : (forall x, occ e x = occ e1 x + if bool_decide (a = x) || bool_decide (b = x) then 0 else occ body x)%nat ->
  fv e = fv e1 ∪ fv body ∖ {[a; b]}.
Proof.
  intros H. apply set_eq. intros x. rewrite elem_of_union, elem_of_difference, !elem_of_fv, H, elem_of_union, !elem_of_singleton.
  assert ((if bool_decide (a = x) || bool_decide (b = x) then 0%nat else occ body x) <> 0%nat <-> occ body x <> 0%nat /\ ~ (x = a \/ x = b)) as Hb.
  { repeat case_bool_decide; subst; cbn; intuition congruence. }
  rewrite <- Hb. lia.
Qed.

(** What a subterm inherits. *)
Definition well_bound e : Prop :=
  linear e /\ NoDup (binders e) /\ Forall marked (binders e ++ uses e) /\ forall x, (occ e x <= 1)%nat.

Lemma fv_disjoint e1 e2 : (forall x, occ e1 x + occ e2 x <= 1)%nat -> fv e1 ## fv e2.
Proof. intros H x H1%elem_of_fv H2%elem_of_fv. specialize (H x). lia. Qed.

Lemma fv_marked e x : Forall marked (binders e ++ uses e) -> x ∈ fv e -> marked x.
Proof.
  intros Hm Hx. unfold fv in Hx. apply elem_of_list_to_set, list_elem_of_filter in Hx as [_ Hx].
  rewrite Forall_forall in Hm. apply Hm, elem_of_app. by right.
Qed.

Lemma split_two e1 e2 : linear e1 -> linear e2 -> NoDup (binders e1 ++ binders e2) ->
  Forall marked ((binders e1 ++ binders e2) ++ uses e1 ++ uses e2) -> (forall x, occ e1 x + occ e2 x <= 1)%nat ->
  well_bound e1 /\ well_bound e2 /\ fv e1 ## fv e2.
Proof.
  intros H1 H2 (Hn1 & _ & Hn2)%NoDup_app ((Hb1 & Hb2)%Forall_app & (Hu1 & Hu2)%Forall_app)%Forall_app Ho.
  split; [|split; [|by apply fv_disjoint]]; (do 2 (split; [done|])); (split; [by apply Forall_app|]); intros x; specialize (Ho x); lia.
Qed.

Lemma split_under e1 a b (body : Ast V F) : linear e1 ->
  linear body /\ a <> b /\ occ body a = 1%nat /\ occ body b = 1%nat ->
  NoDup (binders e1 ++ a :: b :: binders body) ->
  Forall marked ((binders e1 ++ a :: b :: binders body) ++ uses e1 ++ uses body) ->
  (forall x, occ e1 x + (if bool_decide (a = x) || bool_decide (b = x) then 0 else occ body x) <= 1)%nat ->
  well_bound e1 /\ well_bound body /\ fv e1 ## fv body ∖ {[a; b]} /\ a ∈ fv body /\ b ∈ fv body /\
  ~ taken body a /\ ~ taken body b.
Proof.
  intros H1 (H2 & Hab & Ha & Hb) (Hn1 & _ & [Hax [Hbx Hn2]%NoDup_cons]%NoDup_cons)%NoDup_app.
  intros ((Hb1 & [Hma [Hmb Hb2]%Forall_cons_1]%Forall_cons_1)%Forall_app & (Hu1 & Hu2)%Forall_app)%Forall_app Ho.
  split; [|split; [|split]].
  - do 2 (split; [done|]). split; [by apply Forall_app|]. intros x. specialize (Ho x). lia.
  - do 2 (split; [done|]). split; [by apply Forall_app|]. intros x. specialize (Ho x).
    repeat case_bool_decide; subst; cbn in Ho; lia.
  - intros x H1x%elem_of_fv [H2x%elem_of_fv Hx]%elem_of_difference. specialize (Ho x). revert Hx Ho.
    rewrite elem_of_union, !elem_of_singleton. intros Hx. rewrite !bool_decide_eq_false_2 by (intros ->; tauto). cbn. lia.
  - rewrite !elem_of_fv. unfold taken. set_solver by lia.
Qed.
End Terms.

Section Elaborates.
Context {V F : Type} (call : nat -> list PrimValue -> res DnxError PrimValue) (prim : option (PrimCtx V F)).
Context (Hcall : calls_total call prim) (ul : gmap (list Z) Z).
Implicit Types e : Ast V F.
Notation go := (elab_impl call prim ul).

Lemma elabs_leaf (m : Z -> LOPath -> elabM (PortId * Z)) :
  (forall level lo s X, building s X -> returns (elab_error call) (m level lo s)
     (fun '((p, _), s') => building s' (p :: X) /\ e_env s' = e_env s)) ->
  elabs call m ∅ (fun _ => False).
Proof.
  intros Hm level lo s X Hb _ _. eapply returns_mono; [intros err H; exact H| |by apply Hm].
  intros [[p l] s'] [H1 H2]. split; [exact H1|]. intros x. rewrite H2. by rewrite decide_False by set_solver.
Qed.

Lemma new_val_builds v level s X : building s X -> returns (elab_error call) (new_val v level s)
  (fun '((p, _), s') => building s' (p :: X) /\ e_env s' = e_env s).
Proof.
  intros Hb. unfold new_val, alloc_prim_val, alloc_val. destruct (_ <=? _); [by left|]. cbn [mbind res_bind].
  pose proof (open_alloc_leaf _ _ TAG_PRIM_VAL (as_u16 (Z.of_nat (length (vals (e_prims s))))) 0 0 Hb eq_refl) as H.
  destruct (alloc_agent _ _ _ _ _) as [[ps n']|err| |]; cbn in *; [done|subst; by left|done..].
Qed.

Lemma new_fun_builds f level s X : building s X -> returns (elab_error call) (new_fun f level s)
  (fun '((p, _), s') => building s' (p :: X) /\ e_env s' = e_env s).
Proof.
  intros Hb. unfold new_fun, alloc_prim_fun, alloc_fun. destruct (_ <=? _); [by left|]. cbn [mbind res_bind].
  pose proof (open_alloc_leaf _ _ TAG_PRIM_FUN (as_u16 (Z.of_nat (length (funs (e_prims s))))) 0 0 Hb eq_refl) as H.
  destruct (alloc_agent _ _ _ _ _) as [[ps n']|err| |]; cbn in *; [done|subst; by left|done..].
Qed.

Lemma free_builds level s X : building s X ->
  returns (elab_error call) ((p ← on_net (fun n => alloc_free n 0); (mret (p, level) : elabM (PortId * Z))) s)
    (fun '((p, _), s') => building s' (p :: X) /\ e_env s' = e_env s).
Proof.
  intros Hb. unfold mbind, elab_bind, on_net. pose proof (open_alloc_free _ _ 0 Hb) as H.
  destruct (alloc_free _ _) as [[p n']|err| |]; cbn in *; [done|subst; by left|done..].
Qed.

Lemma elabs_val v : supported prim (AVal v) = true -> elabs call (elab_val prim v) ∅ (fun _ => False).
Proof.
  intros Hs. apply elabs_leaf. intros level lo s X Hb. unfold elab_val. cbn in Hs.
  destruct prim as [ctx|]; [|by apply free_builds]. apply bool_decide_eq_true in Hs as [pv ->].
  by apply new_val_builds.
Qed.

Lemma elabs_fun f : supported prim (AFun f) = true -> elabs call (elab_fun call prim f) ∅ (fun _ => False).
Proof.
  intros Hs. apply elabs_leaf. intros level lo s X Hb. unfold elab_fun. cbn in Hs.
  destruct prim as [ctx|]; [|by apply free_builds]. apply bool_decide_eq_true in Hs as [en Hen]. rewrite Hen.
  eapply returns_lift. cbn. destruct (impl_ en) as [pf|] eqn:Ei; [|by apply new_fun_builds].
  destruct (_ =? 0) eqn:E0; [|by apply new_fun_builds]. apply Z.eqb_eq in E0. apply returns_lift.
  pose proof (Hcall ctx f en pf eq_refl Hen Ei E0) as Ht.
  destruct (call pf (captured en)) eqn:E; cbn in *; [by apply new_val_builds| |done..].
  do 3 right. by eexists _, _.
Qed.

Lemma elab_spec e : well_bound e -> supported prim e = true -> elabs call (go e) (fv e) (taken e).
Proof.
  unfold well_bound, taken.
  induction e using ast_ind; intros (Hlin & Hnd & Hm & Ho) Hs; cbn [linear binders uses supported elab_impl] in *;
    rewrite ?andb_true_iff in Hs.
  - rewrite fv_name. eapply elabs_weaken; [|apply elabs_name]. done.
  - destruct Hlin as [Hlin Hx]. apply NoDup_cons in Hnd as [Hxb Hnd].
    apply Forall_app in Hm as [[Hmx Hmb]%Forall_cons_1 Hmu].
    rewrite fv_abs. eapply elabs_weaken; [|apply elabs_abs; [| |apply IHe]].
    + intros y [->|[?|?]]; [left; left|left; by right|by right].
    + apply elem_of_fv. lia.
    + intros [?|?]; done.
    + split; [done|]. split; [done|]. split; [by apply Forall_app|]. intros y. specialize (Ho y). cbn in Ho.
      case_bool_decide; [subst; lia|done].
    + done.
  - destruct Hlin as [H1 H2], Hs as [Hs1 Hs2]. cbn [occ] in Ho.
    destruct (split_two e1 e2 H1 H2 Hnd Hm Ho) as (Hw1 & Hw2 & Hd).
    rewrite (fv_plus _ e1 e2) by done. eapply elabs_weaken; [|apply elabs_app; [exact Hd|by apply IHe1|by apply IHe2]].
    intros x. unfold then_taken, taken. rewrite ?elem_of_app, ?elem_of_cons. tauto.
  - destruct Hlin as [H1 H2], Hs as [Hs1 Hs2]. cbn [occ] in Ho.
    destruct (split_under e1 a b e2 H1 H2 Hnd Hm Ho) as (Hw1 & Hw2 & Hd & Ha & Hb & Hta & Htb).
    rewrite (fv_two _ e1 a b e2) by done.
    eapply elabs_weaken; [|apply elabs_rep; [exact Hd|apply H2|exact Ha|exact Hb|exact Hta|exact Htb|by apply IHe1|by apply IHe2]].
    intros x. unfold then_taken, taken. rewrite ?elem_of_app, ?elem_of_cons. tauto.
  - destruct Hlin as [H1 H2], Hs as [Hs1 Hs2]. cbn [occ] in Ho.
    destruct (split_two e1 e2 H1 H2 Hnd Hm Ho) as (Hw1 & Hw2 & Hd).
    rewrite (fv_plus _ e1 e2) by done. eapply elabs_weaken; [|apply elabs_era; [exact Hd|by apply IHe1|by apply IHe2]].
    intros x. unfold then_taken, taken. rewrite ?elem_of_app, ?elem_of_cons. tauto.
  - apply elabs_fix. by apply IHe.
  - eapply elabs_weaken; [|by apply elabs_val]. done.
  - eapply elabs_weaken; [|by apply elabs_fun]. done.
  - done.
  - destruct bs as [|[lb a k body] [|[] ?]]; [done| |done].
    match goal with H : Forall _ [mk_branch _ _ _ _] |- _ => apply Forall_cons_1 in H as [IHb _] end. cbn in IHb.
    cbn [foldr fmap list_fmap concat] in *. rewrite ?app_nil_r in *. destruct Hlin as [H1 [H2 _]].
    apply andb_true_iff in Hs as [Hs1 Hs2].
    assert (forall x, occ e x + (if bool_decide (a = x) || bool_decide (k = x) then 0 else occ body x) <= 1)%nat as Ho'.
    { intros x. specialize (Ho x). cbn in Ho. lia. }
    destruct (split_under e a k body H1 H2 Hnd Hm Ho') as (Hw1 & Hw2 & Hd & Ha & Hb & Hta & Htb).
    rewrite (fv_two _ e a k body) by (intros x; cbn; lia).
    eapply elabs_weaken; [|apply elabs_handle; [exact Hd|apply H2|exact Ha|exact Hb|exact Hta|exact Htb| | | |by apply IHe|by apply IHb]].
    + intros x. unfold then_taken, taken. rewrite ?elem_of_app, ?elem_of_cons. tauto.
    + intros x [Hx|Hx]%elem_of_union; eapply fv_marked; try exact Hx; [apply Hw1|apply Hw2].
    + intros x Hx. by right.
    + intros x Hx. by right.
Qed.
End Elaborates.

(** ** From a source term *)

Section Source.
Context {V F : Type}.
Implicit Types e : Ast V F.

Fixpoint shape_occ (s : shape V F) (x : list Z) : nat :=
  match s with
  | SVar (inl _) => 0
  | SVar (inr n) => if bool_decide (n = x) then 1 else 0
  | SAbs s | SFix s | SPerform _ s => shape_occ s x
  | SApp f a => shape_occ f x + shape_occ a x
  | SRep e s | SEra e s => shape_occ e x + shape_occ s x
  | SHandle c bs => shape_occ c x + list_sum ((fun b => shape_occ b.2 x) <$> bs)
  | SVal _ | SFun _ => 0
  end.

Lemma lookup_name_spec sc n : lookup_name sc n = inr n /\ n ∉ sc \/ (exists i, lookup_name sc n = inl i) /\ n ∈ sc.
Proof.
  induction sc as [|x sc IH]; [left; split; [done|by intros ?%not_elem_of_nil]|]. cbn [lookup_name].
  case_bool_decide as Hx; [right; split; [by eexists|subst; left]|].
  destruct IH as [[-> Hn]|[[i ->] Hn]]; [left; split; [done|set_solver]|right; split; [by eexists|by right]].
Qed.

Lemma shape_occ_spec x e : forall sc, shape_occ (shape_of sc e) x = if bool_decide (x ∈ sc) then 0%nat else occ e x.
Proof.
  assert (forall sc y (n : nat), (if bool_decide (x ∈ y :: sc) then 0 else n) =
    (if bool_decide (x ∈ sc) then 0 else if bool_decide (y = x) then 0 else n))%nat as Hcons.
  { intros sc y n. repeat case_bool_decide; set_solver. }
  induction e using ast_ind; intros sc; cbn [shape_of shape_occ occ].
  - destruct (lookup_name_spec sc n) as [[-> Hn]|[[i ->] Hn]]; repeat case_bool_decide; subst; done.
  - by rewrite IHe, Hcons.
  - rewrite IHe1, IHe2. by case_bool_decide.
  - rewrite IHe1, IHe2, !Hcons. repeat case_bool_decide; cbn; lia.
  - rewrite IHe1, IHe2. by case_bool_decide.
  - apply IHe.
  - by case_bool_decide.
  - by case_bool_decide.
  - apply IHe.
  - rewrite IHe. match goal with H : Forall _ _ |- _ => induction H as [|[lb a k body] bs Hb _ IH] end;
      cbn; [by case_bool_decide|].
    cbn in Hb, IH. rewrite Hb, !Hcons. unfold list_sum in IH. repeat case_bool_decide; cbn in *; lia.
Qed.

(** The free names do not depend on the names of binders. *)
Lemma alpha_occ e e' : alpha_eq e e' -> forall x, occ e x = occ e' x.
Proof.
  intros He x. pose proof (shape_occ_spec x e []) as H. pose proof (shape_occ_spec x e' []) as H'.
  rewrite bool_decide_eq_false_2 in H, H' by set_solver. unfold alpha_eq in He. congruence.
Qed.

Lemma uses_bound e x : x ∈ uses e -> x ∉ binders e -> occ e x <> 0%nat.
Proof.
  induction e using ast_ind; cbn [uses binders occ]; rewrite ?elem_of_app, ?not_elem_of_app, ?not_elem_of_cons; try set_solver by lia.
  - intros ->%list_elem_of_singleton _. by rewrite bool_decide_eq_true_2.
  - intros Hx [Hne Hb]. rewrite bool_decide_eq_false_2 by congruence. auto.
  - intros Hx Hb. assert (x ∉ binders e1 /\ x <> a /\ x <> b /\ x ∉ binders e2) as (Hb1 & Ha & Hb' & Hb2) by (rewrite !elem_of_cons in Hb; tauto).
    rewrite !bool_decide_eq_false_2 by congruence. cbn. destruct Hx as [H|H]; [specialize (IHe1 H Hb1)|specialize (IHe2 H Hb2)]; lia.
  - intros Hx [Hb1 Hb2]%Decidable.not_or. destruct Hx as [Hx|Hx]; [specialize (IHe Hx Hb1); lia|]. apply Nat.neq_sym, Nat.lt_neq, Nat.add_pos_r.
    match goal with H : Forall _ _ |- _ => induction H as [|[lb a k body] bs Hb _ IH] end; [by apply not_elem_of_nil in Hx|].
    cbn in Hx, Hb2, Hb |- *. apply not_elem_of_cons in Hb2 as [Ha Hb2]. apply not_elem_of_cons in Hb2 as [Hk Hb2].
    apply not_elem_of_app in Hb2 as [Hb2 Hb3]. rewrite !bool_decide_eq_false_2 by congruence. cbn.
    apply elem_of_app in Hx as [Hx|Hx]; [specialize (Hb Hx Hb2); lia|]. specialize (IH Hx Hb3). unfold list_sum in IH. lia.
Qed.

(** A renamed closed linear term, as the third pass wants it. *)
Lemma renamed_well_bound e ctr : 0 <= ctr -> ctr + Z.of_nat (length (binders e)) < 2 ^ 32 -> source_term e -> closed e ->
  let e' := (alpha_rename e ctr).1 in linear e' -> closed e' /\ well_bound e'.
Proof.
  intros Hc Hr Hs Hcl e' Hlin.
  destruct (rename_spec e ∅ ctr [] [] Hc Hr Hs (renames_start ctr)) as (_ & Hb & Hsh). fold (alpha_rename e ctr) in Hb, Hsh. fold e' in Hb, Hsh.
  assert (closed e') as Hcl' by (intros x; rewrite <- (alpha_occ e e' Hsh); apply Hcl).
  assert (Forall marked (binders e')) as Hm.
  { rewrite Hb, Forall_forall. intros x (b & i & _ & ->)%mints_elem.
    destruct (decide (marked (mint b i))) as [|Hn]; [done|]. by apply mint_marked in Hn. }
  split; [done|]. split; [done|]. split; [rewrite Hb; by apply mints_nodup|]. split.
  - apply Forall_app. split; [done|]. apply Forall_forall. intros x Hx. rewrite Forall_forall in Hm. apply Hm.
    destruct (decide (x ∈ binders e')) as [|Hn]; [done|]. by destruct (uses_bound e' x Hx Hn).
  - intros x. rewrite Hcl'. lia.
Qed.
End Source.

Lemma open_new cls cap : 0 <= cap -> open (net_new cls cap) [].
Proof.
  intros Hc. split; [apply (bk_inv _ _ (blank_new cls cap Hc))|done|apply NoDup_nil_2|].
  intros i k s Hi. by apply not_elem_of_nil in Hi.
Qed.

(** The third pass on a term with distinct binders. *)
Lemma renamed_elaborates {V F} call (prim : option (PrimCtx V F)) (e : Ast V F) ul cls cap n0 :
  well_bound e -> closed e -> supported prim e = true -> calls_total call prim -> 0 <= cap ->
  returns (elab_error call) (elab_impl call prim ul e 0 root (mk_est (net_new cls cap) ∅ prims_new n0))
    (fun '((p, _), s) => open (e_net s) [p] /\ e_env s = ∅).
Proof.
  intros Hw Hcl Hsup Hcall Hcap.
  eapply returns_mono; [intros err H; exact H| |apply (elab_spec call prim Hcall ul e Hw Hsup 0 root _ [])].
  - intros [[p l] s] [Hb He].
    assert (e_env s = ∅) as Henv.
    { apply map_eq. intros x. rewrite He. cbn. rewrite lookup_empty. by destruct (decide _). }
    split; [|done]. unfold building in Hb. by rewrite Henv in Hb.
  - by apply open_new.
  - intros x Hx%elem_of_fv. by rewrite Hcl in Hx.
  - intros x _. apply lookup_empty.
Qed.

(** Functions and values the context does not know make elaboration fail, and
    nothing else. *)
Section Unknown.
Context {V F : Type} (call : nat -> list PrimValue -> res DnxError PrimValue) (ctx : PrimCtx V F).

(** A context that knows everything. *)
Definition all_known : PrimCtx V F :=
  mk_ctx (fun f => Some (default (mk_fun [] 1 [] (Pure 0)) (to_fun ctx f))) (fun v => Some (default PNull (to_val ctx v))).

Definition same_or_unknown {A} (m m' : res DnxError A) : Prop := m = Err ReadbackIncomplete \/ m = m'.

Lemma same_refl {A} (m : res DnxError A) : same_or_unknown m m.
Proof. by right. Qed.

Lemma same_bind {A B} (m m' : elabM A) (k k' : A -> elabM B) s : same_or_unknown (m s) (m' s) ->
  (forall a s, same_or_unknown (k a s) (k' a s)) -> same_or_unknown ((x ← m; k x) s) ((x ← m'; k' x) s).
Proof.
  unfold mbind, elab_bind. intros [-> | ->] Hk; [by left|]. destruct (m' s) as [[a s']|e| |]; [apply Hk|by right..].
Qed.

(** Two elaborations, the second of which knows more. *)
Definition same_elab (m m' : Z -> LOPath -> elabM (PortId * Z)) : Prop :=
  forall level lo s, same_or_unknown (m level lo s) (m' level lo s).

Ltac same_steps := repeat first
  [ apply same_refl
  | match goal with H : same_elab _ _ |- _ => apply H end
  | apply same_bind; [|intros ? ?]
  | match goal with |- context [let '(_, _) := ?x in _] => destruct x end ].

Lemma same_abs x m m' : same_elab m m' -> same_elab (elab_abs x m) (elab_abs x m').
Proof. intros H level lo s. unfold elab_abs. same_steps. Qed.
Lemma same_app f f' a a' : same_elab f f' -> same_elab a a' -> same_elab (elab_app f a) (elab_app f' a').
Proof. intros H1 H2 level lo s. unfold elab_app. same_steps. Qed.
Lemma same_rep ul e e' a b m m' : same_elab e e' -> same_elab m m' ->
  same_elab (elab_rep ul e a b m) (elab_rep ul e' a b m').
Proof. intros H1 H2 level lo s. unfold elab_rep. same_steps. Qed.
Lemma same_era e e' m m' : same_elab e e' -> same_elab m m' -> same_elab (elab_era e m) (elab_era e' m').
Proof. intros H1 H2 level lo s. unfold elab_era. same_steps. Qed.
Lemma same_fix e e' : same_elab e e' -> same_elab (elab_fix e) (elab_fix e').
Proof. intros H1 level lo s. unfold elab_fix. same_steps. Qed.
Lemma same_handle e e' a k m m' : same_elab e e' -> same_elab m m' ->
  same_elab (elab_handle e a k m) (elab_handle e' a k m').
Proof.
  intros H1 H2 level lo s. unfold elab_handle. do 2 (apply same_bind; [apply same_refl|intros ? ?]).
  apply same_app; [by apply same_app; [|intros ? ? ?; apply same_refl]|]. do 3 apply same_abs.
  apply same_era; [intros ? ? ?; apply same_refl|done].
Qed.

Lemma same_known ul e : same_elab (elab_impl call (Some ctx) ul e) (elab_impl call (Some all_known) ul e).
Proof.
  induction e using ast_ind; cbn [elab_impl]; try (intros ? ? ?; apply same_refl).
  - by apply same_abs.
  - by apply same_app.
  - by apply same_rep.
  - by apply same_era.
  - by apply same_fix.
  - intros level lo s. unfold elab_val. cbn. destruct (to_val ctx v) as [pv|]; [apply same_refl|by left].
  - intros level lo s. unfold elab_fun. cbn. destruct (to_fun ctx f) as [en|]; [apply same_refl|by left].
  - destruct bs as [|[lb a k body] [|[] ?]]; try (intros ? ? ?; apply same_refl).
    apply same_handle; [done|]. match goal with H : Forall _ _ |- _ => by apply Forall_cons_1 in H as [H _] end.
Qed.

Lemma known_calls : calls_total call (Some ctx) -> calls_total call (Some all_known).
Proof.
  intros Hc ? f en pf [= <-] Hf Hi Ha. cbn in Hf. injection Hf as <-.
  destruct (to_fun ctx f) as [en|] eqn:E; cbn in Hi, Ha |- *; [by apply (Hc ctx f en)|done].
Qed.

(** A term whose only unknown things are functions and values. *)
Lemma unknown_elaborates ul e cls cap n0 :
  well_bound e -> closed e -> supported (Some all_known) e = true -> calls_total call (Some ctx) -> 0 <= cap ->
  returns (fun err => elab_error call err \/ err = ReadbackIncomplete)
    (elab_impl call (Some ctx) ul e 0 root (mk_est (net_new cls cap) ∅ prims_new n0))
    (fun '((p, _), s) => open (e_net s) [p] /\ e_env s = ∅).
Proof.
  intros Hw Hcl Hs Hc Hcap.
  pose proof (renamed_elaborates call (Some all_known) e ul cls cap n0 Hw Hcl Hs (known_calls Hc) Hcap) as H.
  destruct (same_known ul e 0 root (mk_est (net_new cls cap) ∅ prims_new n0)) as [-> | ->]; [by right|].
  eapply returns_mono; [|intros a Ha; exact Ha|exact H]. by left.
Qed.
End Unknown.

(** Two replicators side by side, each on an abstraction:
    [rep (λx. x) as (a, b) in rep (λy. y) as (c, d) in a b c d]. *)
Definition two_reps : Ast unit unit :=
  ARep (AAbs [1] (AName [1])) [2] [3]
    (ARep (AAbs [4] (AName [4])) [5] [6] (AApp (AApp (AApp (AName [2]) (AName [3])) (AName [5])) (AName [6]))).

(** * Properties *)



(** elaboration files every active pair under a path, and a replicator
    does not extend the path of its body, so that two replicators side by
    side file their pairs under one path and the frontier keeps the second
    only: for the closed linear term [two_reps] reduction ends, the net is
    certified canonical, and the first pair is still in it. *)
Theorem elaborate_loses_pair : exists r p l s c st,
  pass1 two_reps = Ok r /\ linear two_reps /\ closed two_reps /\
  elaborate (usage_levels r) two_reps 0 root (mk_est (net_new DeltaK 64) ∅ prims_new 0) = Ok ((p, l), s) /\
  normalize (C := crules_K) 200 (add_root (e_net s) "r" p) = Ok (c, st) /\ ~ no_redex (proper c).
Proof.
  do 6 eexists. split; [vm_compute; reflexivity|]. split; [cbn; repeat split; discriminate|]. split.
  { intros x. unfold two_reps. cbn. repeat case_bool_decide; subst; done. }
  split; [vm_compute; reflexivity|]. split; [vm_compute; reflexivity|].
  intros H. eapply (H 1); [left|reflexivity..].
Qed.
