(* ===== verification/Read.v ===== *)
(** * Reading a net back ([crates/dnx-read/src/lib.rs])

    [psi_s] walks a net from an output port to a lambda term without sharing:
    entering an abstraction it records the ports at which the variable will
    be met (the leaves of the tree of replicators on it).  [lambda_to_dnx]
    makes the term linear again.  The reconstruction of lists, which runs the
    evaluator, is in [Runtime]. *)
From S2P Require Import Prelude Bytes Utf8 Text Error LOPath Port Arena Net Ast.

(** A [VarId]; [VAR_CTR] is passed along. *)
Inductive LambdaIR : Type :=
| IVar (v : Z)
| IAbs (v : Z) (body : LambdaIR)
| IApp (f x : LambdaIR).

Inductive ReadbackResult (V F : Type) : Type :=
| Lambda (e : Ast V F)
| Partial (name : list Z).
Arguments Lambda {V F} e.
Arguments Partial {V F} name.

Definition fresh_var (ctr : Z) : Z * Z := (ctr, as_u32 (ctr + 1)).

Definition var_name (id : Z) : Name := [118] ++ digits 10 id [].

(** Port [k] of the agent of [p]. *)
Definition sibling (p : PortId) (k : PortKind) : PortId := port_new (slot_idx p) k (gen_low p).

(** [peer.is_eraser() || peer.is_null()]. *)
Definition virtual (p : PortId) : bool := is_eraser p || is_null p.

(** A replicator entered at its principal port. *)
Definition at_rep (n : Net) (p : PortId) : res DnxError bool :=
  s ← net_slot n p;
  Ok (is_rep s && bool_decide (port_kind p = Principal)).

(** [f] at every leaf below a port of a replicator, left to right. *)
Fixpoint rep_branch (f : PortId -> gmap Z Z -> gmap Z Z) (fuel : nat) (n : Net) (rep_aux : PortId) (occ : gmap Z Z)
    : res DnxError (gmap Z Z) :=
  match fuel with
  | O => Fuel
  | S fuel =>
      p ← peer n rep_aux;
      if virtual p then Ok occ
      else
        r ← at_rep n p;
        if (r : bool) then
          occ ← rep_branch f fuel n (sibling p Aux0) occ;
          rep_branch f fuel n (sibling p Aux1) occ
        else Ok (f rep_aux occ)
  end.

(** The same from the variable port of an abstraction. *)
Definition occ_for_var (f : PortId -> gmap Z Z -> gmap Z Z) (fuel : nat) (n : Net) (var_port : PortId) (occ : gmap Z Z)
    : res DnxError (gmap Z Z) :=
  p ← peer n var_port;
  if virtual p then Ok occ
  else
    r ← at_rep n p;
    if (r : bool) then
      occ ← rep_branch f fuel n (sibling p Aux0) occ;
      rep_branch f fuel n (sibling p Aux1) occ
    else Ok (f var_port occ).

Definition collect_rep_branch (v : Z) := rep_branch (fun p => <[p := v]>).
Definition collect_occ_for_var (v : Z) := occ_for_var (fun p => <[p := v]>).
Definition remove_rep_branch := rep_branch (fun p => delete p).
Definition remove_occ_for_var := occ_for_var (fun p => delete p).

(** [psi_s]: the occurrences recorded and the counter are passed along. *)
Fixpoint psi_s (fuel : nat) (n : Net) (port : PortId) (occ : gmap Z Z) (ctr : Z)
    : res DnxError (LambdaIR * gmap Z Z * Z) :=
  match fuel with
  | O => Fuel
  | S fuel =>
      if virtual port then let '(v, ctr) := fresh_var ctr in Ok (IVar v, occ, ctr)
      else match occ !! port with
      | Some v => Ok (IVar v, occ, ctr)
      | None =>
          s ← net_slot n port;
          if is_free s then let '(v, ctr) := fresh_var ctr in Ok (IVar v, occ, ctr)
          else
            match port_kind port with
            | Principal =>
                if is_fan s && fan_is_abs s then
                  let '(v, ctr) := fresh_var ctr in
                  let var_port := sibling port Aux1 in
                  occ ← collect_occ_for_var v fuel n var_port occ;
                  body_peer ← peer n (sibling port Aux0);
                  '(body, occ, ctr) ← psi_s fuel n body_peer occ ctr;
                  occ ← remove_occ_for_var fuel n var_port occ;
                  Ok (IAbs v body, occ, ctr)
                else Err ReadbackIncomplete
            | Aux0 =>
                if is_fan s && negb (fan_is_abs s) then
                  func_peer ← peer n (sibling port Principal);
                  arg_peer ← peer n (sibling port Aux1);
                  '(func, occ, ctr) ← psi_s fuel n func_peer occ ctr;
                  '(arg, occ, ctr) ← psi_s fuel n arg_peer occ ctr;
                  Ok (IApp func arg, occ, ctr)
                else Err ReadbackIncomplete
            | Aux1 => Err ReadbackIncomplete
            end
      end
  end.

Fixpoint count_free (ir : LambdaIR) (var_id : Z) : nat :=
  match ir with
  | IVar v => if v =? var_id then 1 else 0
  | IAbs _ body => count_free body var_id
  | IApp f x => count_free f var_id + count_free x var_id
  end.

Section Linearise.
Context {V F : Type}.

Fixpoint chain_reps (orig n0 n1 : Name) (rest : list (list Z)) (body : Ast V F) : Ast V F :=
  match rest with
  | next0 :: more =>
      let x_prime := orig ++ [39] in
      ARep (AName orig) n0 x_prime (chain_reps x_prime n1 next0 more body)
  | [] => ARep (AName orig) n0 n1 body
  end.

(** [format!("{x_name}__{i}")] for [i] in [0..k]. *)
Definition copy_names (x_name : Name) (k : nat) : list (list Z) :=
  (fun i => x_name ++ [95; 95] ++ digits 20 (Z.of_nat i) []) <$> seq 0 k.

Notation supply := (gmap Z (list (list Z))) (only parsing).

Fixpoint lambda_to_dnx (ir : LambdaIR) (supply : gmap Z (list (list Z))) : Ast V F * gmap Z (list (list Z)) :=
  match ir with
  | IVar v =>
      match supply !! v with
      | Some (name :: q) => (AName name, <[v := q]> supply)
      | _ => (AName (var_name v), supply)
      end
  | IApp f x =>
      let '(f_ast, supply) := lambda_to_dnx f supply in
      let '(x_ast, supply) := lambda_to_dnx x supply in
      (AApp f_ast x_ast, supply)
  | IAbs v body =>
      let x_name := var_name v in
      match count_free body v with
      | O =>
          let '(body_ast, supply) := lambda_to_dnx body supply in
          (AAbs x_name (AEra (AName x_name) body_ast), supply)
      | S O =>
          let '(body_ast, supply) := lambda_to_dnx body (<[v := [x_name]]> supply) in
          (AAbs x_name body_ast, delete v supply)
      | k =>
          let names := copy_names x_name k in
          let '(body_ast, supply) := lambda_to_dnx body (<[v := names]> supply) in
          match names with
          | n0 :: n1 :: rest => (AAbs x_name (chain_reps x_name n0 n1 rest body_ast), delete v supply)
          | _ => (AAbs x_name body_ast, delete v supply)
          end
      end
  end.

Definition nulls : list Z := chars "_null".
Definition unexpected : list Z := chars "_unexpected".

(** The first root of the net, if any; its map has no order of its own. *)
Definition first_root (n : Net) : PortId :=
  default NULL (snd <$> head (map_to_list (free_slots n))).

Definition psi_native (fuel : nat) (net : CanonicalNet) (ctr : Z) : res DnxError (ReadbackResult V F) :=
  let n := proper net in
  let root_slot := first_root n in
  if is_null root_slot || is_eraser root_slot then Ok (Partial nulls)
  else
    root_port ←
      (if slot_is_live n root_slot then
         s ← net_slot n root_slot;
         if is_free s then peer n root_slot else Ok root_slot
       else Ok root_slot);
    if virtual root_port then Ok (Partial nulls)
    else
      match psi_s fuel n root_port ∅ ctr with
      | Ok (ir, _, _) => Ok (Lambda (lambda_to_dnx ir ∅).1)
      | Err _ => Ok (Partial unexpected)
      | Panic => Panic
      | Fuel => Fuel
      end.
End Linearise.
