(* ===== verification/ReadSpec.v ===== *)
(** * Readback gives the term that was elaborated

    Terms with sharing are compared by the lambda term they denote, with de
    Bruijn levels: a replicator makes two names of one variable, an eraser
    drops one.  [lambda_to_dnx] makes sharing explicit again without changing
    the term. *)
From S2P Require Import Prelude Bytes Utf8 Text Error LOPath Port Arena Net Ast Pass1 Read.

Arguments var_name : simpl never.

(** Lambda terms: a variable is the level of its binder. *)
Inductive ltm : Type :=
| LVar (level : nat)
| LAbs (body : ltm)
| LApp (f a : ltm).

(** The term denoted in a scope of [d] binders; only names are shared or erased. *)
Fixpoint flat {V F : Type} (ρ : gmap (list Z) nat) (d : nat) (e : Ast V F) : option ltm :=
  match e with
  | AName n => LVar <$> ρ !! n
  | AAbs x body => LAbs <$> flat (<[x := d]> ρ) (S d) body
  | AApp f a => f ← flat ρ d f; a ← flat ρ d a; Some (LApp f a)
  | ARep (AName y) a b body => l ← ρ !! y; flat (<[b := l]> (<[a := l]> ρ)) d body
  | AEra (AName y) body => _ ← ρ !! y; flat ρ d body
  | _ => None
  end.

Fixpoint ir_tm (σ : gmap Z nat) (d : nat) (ir : LambdaIR) : option ltm :=
  match ir with
  | IVar v => LVar <$> σ !! v
  | IAbs v body => LAbs <$> ir_tm (<[v := d]> σ) (S d) body
  | IApp f a => f ← ir_tm σ d f; a ← ir_tm σ d a; Some (LApp f a)
  end.

Fixpoint ir_binders (ir : LambdaIR) : list Z :=
  match ir with
  | IVar _ => []
  | IAbs v body => v :: ir_binders body
  | IApp f a => ir_binders f ++ ir_binders a
  end.

(** Readback mints its identifiers: each binder has its own. *)
Definition minted (ir : LambdaIR) : Prop := NoDup (ir_binders ir) /\ Forall (fun v => 0 <= v < 2 ^ 32) (ir_binders ir).

(** A name made for the variable [v]. *)
Definition tagged (v : Z) (name : Name) : Prop :=
  exists suf, name = var_name v ++ suf /\ (forall c r, suf = c :: r -> ~ 48 <= c <= 57).

(** A bound on how often a variable occurs. *)
Fixpoint ir_size (ir : LambdaIR) : nat :=
  match ir with
  | IVar _ => 1
  | IAbs _ body => S (ir_size body)
  | IApp f x => S (ir_size f + ir_size x)
  end.

(** * Lemmas *)

(** ** Names *)

Lemma digits_split a b s t : (forall c, c ∈ a -> 48 <= c <= 57) -> (forall c, c ∈ b -> 48 <= c <= 57) ->
  (forall c r, s = c :: r -> ~ 48 <= c <= 57) -> (forall c r, t = c :: r -> ~ 48 <= c <= 57) ->
  a ++ s = b ++ t -> a = b /\ s = t.
Proof.
  revert b. induction a as [|x a IH]; intros [|y b] Ha Hb Hs Ht H; cbn in H.
  - done.
  - exfalso. apply (Hs y (b ++ t)); [done|]. apply Hb. left.
  - exfalso. apply (Ht x (a ++ s)); [done|]. apply Ha. left.
  - injection H as -> H. apply IH in H as [-> ->]; [done|..]; auto; intros c Hc; [apply Ha|apply Hb]; by right.
Qed.

Lemma var_name_inj v w suf suf' : 0 <= v < 2 ^ 32 -> 0 <= w < 2 ^ 32 ->
  (forall c r, suf = c :: r -> ~ 48 <= c <= 57) -> (forall c r, suf' = c :: r -> ~ 48 <= c <= 57) ->
  var_name v ++ suf = var_name w ++ suf' -> v = w /\ suf = suf'.
Proof.
  intros Hv Hw Hs Hs' H. unfold var_name in H. rewrite <- !app_assoc in H. injection H as H.
  apply digits_split in H as [H ->]; [|by intros c; apply digits_chars|by intros c; apply digits_chars|done..].
  split; [|done]. apply u32_digits in Hv, Hw. by apply (digits_inj 10); [lia|..].
Qed.

Lemma tagged_inj v w name : 0 <= v < 2 ^ 32 -> 0 <= w < 2 ^ 32 -> tagged v name -> tagged w name -> v = w.
Proof. intros Hv Hw (s & -> & Hs) (t & H & Ht). by apply var_name_inj in H as [-> _]. Qed.

Lemma tagged_var v : tagged v (var_name v).
Proof. exists []. by rewrite app_nil_r. Qed.

Lemma tagged_prime v name : tagged v name -> tagged v (name ++ [39]).
Proof.
  intros (s & -> & Hs). exists (s ++ [39]). split; [by rewrite <- app_assoc|].
  intros c r H. destruct s as [|c' s]; [injection H as <- _; lia|]. injection H as -> _. by apply (Hs c s).
Qed.

Lemma copy_names_tagged v k name : name ∈ copy_names (var_name v) k -> tagged v name.
Proof.
  intros (i & -> & _)%list_elem_of_fmap. eexists. split; [reflexivity|]. intros c r [= <- _]. lia.
Qed.

Lemma copy_names_nodup v k : Z.of_nat k < 10 ^ 20 -> NoDup (copy_names (var_name v) k).
Proof.
  intros Hk. apply NoDup_fmap_2_strong; [|apply NoDup_seq]. intros i j Hi Hj H. apply elem_of_seq in Hi, Hj.
  apply app_inv_head in H. injection H as H. apply digits_inj in H; [lia|lia|split; [lia|]..]; change (10 ^ Z.of_nat 20) with (10 ^ 20); lia.
Qed.

(** ** Chains of replicators *)

(** The names a chain binds, all to the variable it splits. *)
Fixpoint chain_names (orig n0 n1 : Name) (rest : list (list Z)) : list (list Z) :=
  match rest with
  | next0 :: more => n0 :: (orig ++ [39]) :: chain_names (orig ++ [39]) n1 next0 more
  | [] => [n0; n1]
  end.

Lemma flat_chain {V F : Type} d l rest : forall orig n0 n1 (ρ : gmap (list Z) nat), ρ !! orig = Some l -> exists ρ',
  (forall body : Ast V F, flat ρ d (chain_reps orig n0 n1 rest body) = flat ρ' d body) /\
  forall x, ρ' !! x = if decide (x ∈ chain_names orig n0 n1 rest) then Some l else ρ !! x.
Proof.
  induction rest as [|next0 more IH]; intros orig n0 n1 ρ Ho; cbn [chain_reps chain_names].
  - exists (<[n1 := l]> (<[n0 := l]> ρ)). split; [intros body; cbn [flat]; by rewrite Ho|]. intros x.
    destruct (decide (x = n1)) as [->|H1]; [rewrite lookup_insert_eq, decide_True by set_solver; done|].
    rewrite lookup_insert_ne by done.
    destruct (decide (x = n0)) as [->|H0]; [rewrite lookup_insert_eq, decide_True by set_solver; done|].
    rewrite lookup_insert_ne by done. by rewrite decide_False by set_solver.
  - edestruct (IH (orig ++ [39]) n1 next0 (<[orig ++ [39] := l]> (<[n0 := l]> ρ))) as (ρ' & E & Hρ');
      [apply lookup_insert_eq|].
    exists ρ'. split; [intros body; cbn [flat]; rewrite Ho; apply E|]. intros x. rewrite Hρ'.
    destruct (decide (x ∈ chain_names (orig ++ [39]) n1 next0 more)); [by rewrite decide_True by set_solver|].
    destruct (decide (x = orig ++ [39])) as [->|H1]; [rewrite lookup_insert_eq, decide_True by set_solver; done|].
    rewrite lookup_insert_ne by done.
    destruct (decide (x = n0)) as [->|H0]; [rewrite lookup_insert_eq, decide_True by set_solver; done|].
    rewrite lookup_insert_ne by done. by rewrite decide_False by set_solver.
Qed.

Lemma chain_names_tagged v rest : forall orig n0 n1, tagged v orig -> Forall (tagged v) (n0 :: n1 :: rest) ->
  Forall (tagged v) (chain_names orig n0 n1 rest).
Proof.
  induction rest as [|next0 more IH]; intros orig n0 n1 Ho [H0 [H1 Hr]%Forall_cons_1]%Forall_cons_1; cbn [chain_names].
  - by repeat constructor.
  - apply Forall_cons_1 in Hr as [Hn Hm]. pose proof (tagged_prime _ _ Ho). constructor; [done|]. constructor; [done|].
    apply IH; [done|]. by repeat constructor.
Qed.

Lemma chain_names_all rest : forall orig n0 n1 x, x ∈ n0 :: n1 :: rest -> x ∈ chain_names orig n0 n1 rest.
Proof.
  induction rest as [|next0 more IH]; intros orig n0 n1 x Hx; cbn [chain_names]; [done|].
  apply elem_of_cons in Hx as [->|Hx]; [left|]. do 2 right. by apply IH.
Qed.

(** The name of the [j]-th rest of a chain. *)
Notation prime orig j := (orig ++ replicate j 39).

Lemma prime_S (orig : Name) j : prime (orig ++ [39]) j = prime orig (S j).
Proof. by rewrite <- app_assoc. Qed.

(** The names of a chain are its leaves and the rests. *)
Lemma chain_names_cases rest : forall orig n0 n1 x, x ∈ chain_names orig n0 n1 rest ->
  x ∈ n0 :: n1 :: rest \/ exists j, (0 < j)%nat /\ x = prime orig j.
Proof.
  induction rest as [|next0 more IH]; intros orig n0 n1 x; cbn [chain_names]; [auto|].
  rewrite !elem_of_cons. intros [->|[->|Hx]]; [auto|right; exists 1%nat; split; [lia|done]|].
  apply IH in Hx as [Hx|(j & Hj & ->)]; [rewrite !elem_of_cons in Hx; tauto|].
  right. exists (S j). split; [lia|]. by rewrite prime_S.
Qed.

Lemma linear_chain {V F : Type} (body : Ast V F) rest : forall orig n0 n1,
  linear body -> (forall y, y ∈ n0 :: n1 :: rest -> occ body y = 1%nat) -> NoDup (n0 :: n1 :: rest) ->
  (forall j, occ body (prime orig j) = 0%nat) -> (forall j, prime orig j ∉ n0 :: n1 :: rest) ->
  linear (chain_reps orig n0 n1 rest body) /\
  forall y, occ (chain_reps orig n0 n1 rest body) y =
    if decide (y ∈ chain_names orig n0 n1 rest) then 0%nat else ((if decide (y = orig) then 1 else 0) + occ body y)%nat.
Proof.
  induction rest as [|next0 more IH]; intros orig n0 n1 Hb Hone Hnd Hp Hq; cbn [chain_reps chain_names linear occ].
  - apply NoDup_cons in Hnd as [Hn0 _]. split.
    + split; [done|]. split; [done|]. split; [set_solver|]. split; apply Hone; [left|right; left].
    + intros y. destruct (decide (y ∈ [n0; n1])) as [Hy|Hy].
      * assert (orig <> y) as Hoy by (intros ->; apply (Hq 0%nat); cbn; by rewrite app_nil_r).
        rewrite (bool_decide_eq_false_2 (orig = y)) by done.
        apply elem_of_cons in Hy as [->|Hy%list_elem_of_singleton]; [by rewrite (bool_decide_eq_true_2 (n0 = n0))|].
        subst. rewrite (bool_decide_eq_true_2 (n1 = n1)) by done. by rewrite orb_true_r.
      * rewrite (bool_decide_eq_false_2 (n0 = y)), (bool_decide_eq_false_2 (n1 = y)) by set_solver. cbn [orb].
        repeat case_bool_decide; repeat case_decide; subst; try done; congruence.
  - apply NoDup_cons in Hnd as [Hn0 Hnd].
    destruct (IH (orig ++ [39]) n1 next0) as [Hl Ho]; [done|intros y Hy; apply Hone; by right|done|..].
    { intros j. rewrite prime_S. apply Hp. }
    { intros j. rewrite prime_S. specialize (Hq (S j)). set_solver. }
    assert (n0 ∉ chain_names (orig ++ [39]) n1 next0 more) as Hn0c.
    { intros [Hx|(j & _ & ->)]%chain_names_cases; [done|]. apply (Hq (S j)). rewrite prime_S. left. }
    assert ((orig ++ [39]) ∉ chain_names (orig ++ [39]) n1 next0 more) as Hpc.
    { intros [Hx|(j & Hj & He)]%chain_names_cases; [apply (Hq 1%nat); by right|].
      apply (f_equal length) in He. rewrite !length_app, length_replicate in He. lia. }
    assert (n0 <> orig ++ [39]) as Hne by (intros ->; apply (Hq 1%nat); left).
    split.
    + split; [done|]. split; [done|]. split; [done|]. rewrite !Ho, !decide_False by done.
      rewrite Hone by left. pose proof (Hp 1%nat) as Hp1. cbn in Hp1. rewrite Hp1.
      repeat case_decide; tauto || lia.
    + intros y. rewrite Ho.
      assert (orig <> y \/ y ∉ n0 :: (orig ++ [39]) :: chain_names (orig ++ [39]) n1 next0 more) as Hoy.
      { destruct (decide (orig = y)) as [<-|]; [right|by left].
        assert (forall x, x = orig -> x ∈ n0 :: n1 :: next0 :: more -> False) as H0.
        { intros x -> Hx. apply (Hq 0%nat). cbn. by rewrite app_nil_r. }
        rewrite !elem_of_cons. intros [->|[He|[Hx|(j & Hj & He)]%chain_names_cases]].
        - eapply H0; [done|left].
        - apply (f_equal length) in He. rewrite length_app in He. cbn in He. lia.
        - eapply H0; [done|by right].
        - apply (f_equal length) in He. rewrite !length_app, length_replicate in He. cbn in He. lia. }
      destruct (decide (y ∈ n0 :: (orig ++ [39]) :: _)) as [Hy|Hy]; rewrite !elem_of_cons in Hy, Hoy;
        destruct (decide (y ∈ chain_names (orig ++ [39]) n1 next0 more)); repeat case_bool_decide; repeat case_decide;
        subst; cbn; try lia; exfalso; naive_solver.
Qed.

Section Linearised.
Context {V F : Type}.
Notation go := (lambda_to_dnx (V := V) (F := F)).

(** The supply is ready for a term in scope [σ]: enough names for every
    variable, all of them bound to it. *)
Definition supplied (S : gmap Z (list (list Z))) (ρ : gmap (list Z) nat) (σ : gmap Z nat) (ir : LambdaIR) : Prop :=
  (forall v, is_Some (S !! v) -> is_Some (σ !! v)) /\
  forall v l, σ !! v = Some l -> 0 <= v < 2 ^ 32 /\ v ∉ ir_binders ir /\
    match S !! v with
    | Some q => (count_free ir v <= length q)%nat /\ Forall (tagged v) q /\ NoDup q /\
        forall x, x ∈ take (count_free ir v) q -> ρ !! x = Some l
    | None => ρ !! var_name v = Some l
    end.

(** How often a name made for [v] occurs in the result. *)
Definition expected (S : gmap Z (list (list Z))) (ir : LambdaIR) (v : Z) (x : Name) : nat :=
  match S !! v with
  | Some q => if decide (x ∈ take (count_free ir v) q) then 1 else 0
  | None => if decide (x = var_name v) then count_free ir v else 0
  end.

Definition linearised (ir : LambdaIR) : Prop := forall S ρ σ d t, minted ir -> supplied S ρ σ ir -> ir_tm σ d ir = Some t ->
  let r := go ir S in
  flat ρ d r.1 = Some t /\ (forall v, is_Some (σ !! v) -> r.2 !! v = drop (count_free ir v) <$> S !! v) /\
  (forall v, σ !! v = None -> r.2 !! v = None) /\ linear r.1 /\
  forall v x, is_Some (σ !! v) -> tagged v x -> occ r.1 x = expected S ir v x.

Lemma linearised_var v : linearised (IVar v).
Proof.
  intros S ρ σ d t _ [HS Hv] Ht. cbn [ir_tm] in Ht. destruct (σ !! v) as [l|] eqn:El; [|done]. injection Ht as <-.
  destruct (Hv v l El) as (Hr & _ & Hm). cbn [count_free lambda_to_dnx] in *. rewrite Z.eqb_refl in Hm.
  assert (forall w, is_Some (σ !! w) -> 0 <= w < 2 ^ 32) as Hrange by (intros w [lw Hw]; by apply (Hv w lw)).
  assert (forall w, σ !! w = None -> S !! w = None) as Hnone.
  { intros w Hw. destruct (S !! w) eqn:Ew; [|done]. destruct (HS w ltac:(by rewrite Ew)). congruence. }
  destruct (S !! v) as [q|] eqn:E.
  - destruct Hm as (Hlen & Htag & Hnd & Hq). destruct q as [|name q]; [cbn in Hlen; lia|]. cbn.
    rewrite (Hq name) by left. split; [done|]. split; [|split; [|split; [done|]]].
    + intros w _. destruct (decide (w = v)) as [->|Hw]; [rewrite lookup_insert_eq, E, Z.eqb_refl; done|].
      rewrite lookup_insert_ne by done. destruct (v =? w) eqn:Ew; [lia|]. by destruct (S !! w).
    + intros w Hw. rewrite lookup_insert_ne by congruence. auto.
    + intros w x Hw Hx. unfold expected. cbn.
      destruct (Z.eqb_spec v w) as [<-|Hvw].
      * rewrite E. cbn. rewrite (bool_decide_ext (name = x) (x ∈ [name])) by set_solver. case_bool_decide; case_decide; done.
      * rewrite bool_decide_eq_false_2; [destruct (S !! w); cbn; case_decide; try done; set_solver|].
        intros ->. apply Forall_cons_1 in Htag as [Htag _]. apply Hvw, (tagged_inj _ _ x); auto.
  - cbn. rewrite Hm. split; [done|]. split; [|split; [|split; [done|]]].
    + intros w _. destruct (Z.eqb_spec v w) as [<-|Hvw]; [by rewrite E|]. by destruct (S !! w).
    + auto.
    + intros w x Hw Hx. unfold expected. cbn. destruct (Z.eqb_spec v w) as [<-|Hvw].
      * rewrite E. case_bool_decide; case_decide; subst; done.
      * rewrite bool_decide_eq_false_2; [destruct (S !! w); cbn; case_decide; try done; set_solver|].
        intros <-. apply Hvw, (tagged_inj _ _ (var_name v)); auto using tagged_var.
Qed.

Lemma elem_of_take_add {A} (x : A) i j (q : list A) : x ∈ take (i + j) q <-> x ∈ take i q \/ x ∈ take j (drop i q).
Proof. by rewrite <- take_take_drop, elem_of_app. Qed.

Lemma NoDup_take_drop {A} i (q : list A) : NoDup q -> NoDup (drop i q) /\ forall x, x ∈ take i q -> x ∉ drop i q.
Proof. rewrite <- (take_drop i q) at 1. intros (_ & Hd & H)%NoDup_app. done. Qed.

Lemma elem_of_take_1 {A} (x : A) j (q : list A) : x ∈ take j q -> x ∈ q.
Proof. intros H. rewrite <- (take_drop j q). apply elem_of_app. by left. Qed.

Lemma linearised_app f x : linearised f -> linearised x -> linearised (IApp f x).
Proof.
  intros IHf IHx S ρ σ d t [Hnd Hr] [HS Hv] Ht. cbn [ir_binders count_free lambda_to_dnx ir_tm] in *.
  apply NoDup_app in Hnd as (Hnf & Hdis & Hnx). apply Forall_app in Hr as [Hrf Hrx].
  destruct (ir_tm σ d f) as [tf|] eqn:Ef; [|done]. destruct (ir_tm σ d x) as [tx|] eqn:Ex; [|done]. injection Ht as <-.
  destruct (IHf S ρ σ d tf) as (Hf1 & Hf2 & Hf3 & Hf4 & Hf5); [by split| |done|].
  { split; [done|]. intros v l Hl. destruct (Hv v l Hl) as (? & Hb & Hm). split; [done|]. split; [set_solver|].
    destruct (S !! v) as [q|]; [|done]. destruct Hm as (Hlen & ? & ? & Hq). split; [lia|]. split; [done|]. split; [done|].
    intros y Hy. apply Hq, elem_of_take_add. by left. }
  destruct (go f S) as [ef S1] eqn:Egf. cbn [fst snd] in *.
  destruct (IHx S1 ρ σ d tx) as (Hx1 & Hx2 & Hx3 & Hx4 & Hx5); [by split| |done|].
  { split.
    - intros v Hs. destruct (σ !! v) eqn:El; [done|]. rewrite Hf3 in Hs by done. by destruct Hs.
    - intros v l Hl. destruct (Hv v l Hl) as (? & Hb & Hm). split; [done|]. split; [set_solver|].
      rewrite Hf2 by (by rewrite Hl). destruct (S !! v) as [q|]; [|done]. cbn. destruct Hm as (Hlen & Htag & Hnd' & Hq).
      rewrite length_drop. split; [lia|]. split; [by apply Forall_drop|]. split; [by apply NoDup_take_drop|].
      intros y Hy. apply Hq, elem_of_take_add. by right. }
  destruct (go x S1) as [ex S2] eqn:Egx. cbn [fst snd] in *. cbn [flat linear occ]. rewrite Hf1, Hx1.
  split; [done|]. split; [|split; [done|split; [done|]]].
  - intros v Hs. rewrite Hx2, Hf2 by done. destruct (S !! v); [|done]. cbn. by rewrite drop_drop, (Nat.add_comm (count_free x v)) || by rewrite drop_drop.
  - intros v y Hs Hy. rewrite (Hf5 v), (Hx5 v) by done. unfold expected. rewrite Hf2 by done. cbn [count_free].
    destruct (S !! v) as [q|] eqn:E; cbn; [|case_decide; lia].
    destruct Hs as [l Hl]. destruct (Hv v l Hl) as (_ & _ & Hm). rewrite E in Hm. destruct Hm as (_ & _ & Hnd & _).
    pose proof (elem_of_take_add y (count_free f v) (count_free x v) q) as Hta.
    assert (y ∈ take (count_free f v) q -> y ∈ take (count_free x v) (drop (count_free f v) q) -> False) as Hno.
    { intros H1 H2%elem_of_take_1. by apply (NoDup_take_drop _ _ Hnd) in H1. }
    repeat case_decide; tauto || lia.
Qed.
Section UnderBinder.
Context (S S' : gmap Z (list (list Z))) (ρ ρ' : gmap (list Z) nat) (σ : gmap Z nat) (d : nat) (v : Z) (body : LambdaIR).
Context (Hmint : minted (IAbs v body)) (Hsup : supplied S ρ σ (IAbs v body)).
Context (Hρ : forall x, ~ tagged v x -> ρ' !! x = ρ !! x) (HS : forall w, w <> v -> S' !! w = S !! w).
Context (Hown : match S' !! v with
  | Some q => (count_free body v <= length q)%nat /\ Forall (tagged v) q /\ NoDup q /\ forall x, x ∈ take (count_free body v) q -> ρ' !! x = Some d
  | None => ρ' !! var_name v = Some d
  end).

Lemma binder_fresh : σ !! v = None /\ 0 <= v < 2 ^ 32.
Proof.
  destruct Hmint as [_ [Hr _]%Forall_cons_1]. split; [|done]. destruct (σ !! v) as [l|] eqn:E; [|done].
  destruct Hsup as [_ H]. destruct (H v l E) as (_ & Hb & _). destruct Hb. left.
Qed.

Lemma tagged_other w x : is_Some (σ !! w) -> tagged w x -> ~ tagged v x.
Proof.
  intros [l Hl] Hw Hv. destruct binder_fresh as [Hn Hr]. destruct Hsup as [_ H]. destruct (H w l Hl) as (Hrw & _ & _).
  assert (w = v) as -> by (by eapply tagged_inj). congruence.
Qed.

Lemma supplied_under : supplied S' ρ' (<[v := d]> σ) body.
Proof.
  destruct binder_fresh as [Hn Hr]. destruct Hsup as [H1 H2]. destruct Hmint as [[Hvb _]%NoDup_cons _]. split.
  - intros w Hw. destruct (decide (w = v)) as [->|Hwv]; [rewrite lookup_insert_eq; by eexists|].
    rewrite lookup_insert_ne by done. apply H1. by rewrite <- HS.
  - intros w l. destruct (decide (w = v)) as [->|Hwv]; [rewrite lookup_insert_eq; intros [= <-]; done|].
    rewrite lookup_insert_ne by done. intros Hl. destruct (H2 w l Hl) as (Hrw & Hb & Hm). cbn in Hb. split; [done|].
    split; [set_solver|]. rewrite HS by done. cbn [count_free] in Hm.
    pose proof (fun x => tagged_other w x ltac:(by rewrite Hl)) as Hto.
    destruct (S !! w) as [q|].
    + destruct Hm as (Hlen & Htag & Hnd & Hq). split; [done|]. split; [done|]. split; [done|].
      intros x Hx. rewrite Hρ; [by apply Hq|]. apply Hto. rewrite Forall_forall in Htag. by eapply Htag, elem_of_take_1.
    + rewrite Hρ; [done|]. apply Hto, tagged_var.
Qed.

(** The whole abstraction, once its body [e] is wrapped by [k]. *)
Lemma linearised_under (k : Ast V F -> Ast V F) t : linearised body -> ir_tm (<[v := d]> σ) (Datatypes.S d) body = Some t ->
  let r := go body S' in
  (forall e, flat ρ d (AAbs (var_name v) (k e)) = LAbs <$> flat ρ' (Datatypes.S d) e) ->
  (forall e, linear e -> (forall x, tagged v x -> occ e x = expected S' body v x) ->
     linear (k e) /\ occ (k e) (var_name v) = 1%nat /\ forall x, ~ tagged v x -> occ (k e) x = occ e x) ->
  r.2 !! v = drop (count_free body v) <$> S' !! v /\
  flat ρ d (AAbs (var_name v) (k r.1)) = Some (LAbs t) /\
  (forall w, is_Some (σ !! w) -> delete v r.2 !! w = drop (count_free (IAbs v body) w) <$> S !! w) /\
  (forall w, σ !! w = None -> delete v r.2 !! w = None) /\ linear (AAbs (var_name v) (k r.1)) /\
  forall w x, is_Some (σ !! w) -> tagged w x -> occ (AAbs (var_name v) (k r.1)) x = expected S (IAbs v body) w x.
Proof.
  intros IH Ht r Hflat Hlin. destruct binder_fresh as [Hn Hr].
  assert (minted body) as Hmb by (destruct Hmint as [[_ ?]%NoDup_cons [_ ?]%Forall_cons_1]; by split).
  destruct (IH S' ρ' (<[v := d]> σ) (Datatypes.S d) t Hmb supplied_under Ht) as (H1 & H2 & H3 & H4 & H5).
  fold r in H1, H2, H3, H4, H5.
  destruct (Hlin r.1 H4) as (Hl1 & Hl2 & Hl3).
  { intros x Hx. apply H5; [|done]. rewrite lookup_insert_eq. by eexists. }
  assert (forall w, is_Some (σ !! w) -> w <> v) as Hne by (intros w [l Hl] ->; congruence).
  split; [apply H2; rewrite lookup_insert_eq; by eexists|].
  split; [by rewrite Hflat, H1|]. split; [|split; [|split; [by split|]]].
  - intros w Hw. pose proof (Hne w Hw). rewrite lookup_delete_ne by done. rewrite H2 by (by rewrite lookup_insert_ne).
    by rewrite HS.
  - intros w Hw. destruct (decide (w = v)) as [->|Hwv]; [apply lookup_delete_eq|].
    rewrite lookup_delete_ne by done. apply H3. by rewrite lookup_insert_ne.
  - intros w x Hw Hx. pose proof (Hne w Hw). pose proof (tagged_other w x Hw Hx) as Hto. cbn [occ].
    rewrite bool_decide_eq_false_2 by (intros <-; apply Hto, tagged_var). rewrite Hl3 by done.
    rewrite (H5 w) by (rewrite ?lookup_insert_ne; done). unfold expected. by rewrite HS.
Qed.
End UnderBinder.

Lemma linearised_abs v body : Z.of_nat (count_free body v) < 10 ^ 20 -> linearised body -> linearised (IAbs v body).
Proof.
  intros Hk IH S ρ σ d t Hm Hs Ht. cbn [ir_tm] in Ht.
  destruct (ir_tm (<[v := d]> σ) (Datatypes.S d) body) as [tb|] eqn:Eb; [|done]. injection Ht as <-.
  destruct (binder_fresh S ρ σ v body Hm Hs) as [Hn Hr].
  assert (S !! v = None) as HSv.
  { destruct (S !! v) eqn:E; [|done]. destruct Hs as [Hs _]. destruct (Hs v ltac:(by rewrite E)). congruence. }
  assert (forall x, ~ tagged v x -> <[var_name v := d]> ρ !! x = ρ !! x) as Hρ1.
  { intros x Hx. apply lookup_insert_ne. intros <-. apply Hx, tagged_var. }
  cbn [lambda_to_dnx]. destruct (count_free body v) as [|[|k]] eqn:Ek.
  - pose proof (linearised_under S S ρ (<[var_name v := d]> ρ) σ d v body Hm Hs Hρ1 ltac:(done)
      ltac:(rewrite HSv; apply lookup_insert_eq) (fun e => AEra (AName (var_name v)) e) tb IH Eb) as H.
    destruct (go body S) as [e S2] eqn:Eg. cbn [fst snd] in *.
    destruct H as (Hv & H); [| |rewrite delete_id in H by (by rewrite Hv, HSv); exact H].
    + intros e'. cbn [flat]. by rewrite lookup_insert_eq.
    + intros e' Hl He. cbn [linear occ]. split; [by split|]. pose proof (He (var_name v) (tagged_var v)) as H0.
      unfold expected in H0. rewrite HSv, Ek in H0. split.
      * rewrite bool_decide_eq_true_2 by done. rewrite H0. by case_decide.
      * intros x Hx. rewrite bool_decide_eq_false_2; [done|]. intros <-. apply Hx, tagged_var.
  - pose proof (linearised_under S (<[v := [var_name v]]> S) ρ (<[var_name v := d]> ρ) σ d v body Hm Hs Hρ1
      ltac:(intros; by rewrite lookup_insert_ne)) as H.
    rewrite lookup_insert_eq in H. rewrite Ek in H.
    specialize (H ltac:(split; [done|]; split; [by constructor; [apply tagged_var|]|];
      split; [apply NoDup_singleton|]; intros x ->%list_elem_of_singleton; apply lookup_insert_eq) (fun e => e) tb IH Eb).
    destruct (go body (<[v:=[var_name v]]> S)) as [e S2] eqn:Eg. cbn [fst snd] in *.
    destruct H as (_ & H); [done| |exact H].
    intros e' Hl He. split; [done|]. split; [|done]. rewrite (He _ (tagged_var v)). unfold expected.
    rewrite lookup_insert_eq, Ek. by rewrite decide_True by left.
  - set (names := copy_names (var_name v) (Datatypes.S (Datatypes.S k))).
    assert (names = (var_name v ++ [95; 95] ++ digits 20 0 []) :: (var_name v ++ [95; 95] ++ digits 20 1 []) ::
      ((fun i => var_name v ++ [95; 95] ++ digits 20 (Z.of_nat i) []) <$> seq 2 k)) as Hnames by done.
    revert Hnames. generalize (var_name v ++ [95; 95] ++ digits 20 0 []) (var_name v ++ [95; 95] ++ digits 20 1 [])
      ((fun i => var_name v ++ [95; 95] ++ digits 20 (Z.of_nat i) []) <$> seq 2 k). intros n0 n1 rest Hnames.
    assert (NoDup names) as Hnd by (apply copy_names_nodup; lia).
    assert (Forall (tagged v) names) as Htag by (apply Forall_forall; intros x; apply copy_names_tagged).
    assert (length names = Datatypes.S (Datatypes.S k)) as Hlen by (unfold names, copy_names; by rewrite length_fmap, length_seq).
    assert (forall j, prime (var_name v) j ∉ names) as Hpr.
    { intros j (i & He & _)%list_elem_of_fmap. apply app_inv_head in He. by destruct j. }
    clearbody names. subst names.
    destruct (flat_chain (V := V) (F := F) (Datatypes.S d) d rest (var_name v) n0 n1 (<[var_name v := d]> ρ)
      (lookup_insert_eq _ _ _)) as (ρ' & Hflat & Hρ').
    assert (Forall (tagged v) (chain_names (var_name v) n0 n1 rest)) as Hct by (by apply chain_names_tagged; [apply tagged_var|]).
    rewrite Forall_forall in Hct.
    pose proof (linearised_under S (<[v := n0 :: n1 :: rest]> S) ρ ρ' σ d v body Hm Hs) as H.
    rewrite lookup_insert_eq in H. rewrite Ek in H.
    assert (take (Datatypes.S (Datatypes.S k)) (n0 :: n1 :: rest) = n0 :: n1 :: rest) as Htake by (apply take_ge; lia).
    assert (forall x, ~ tagged v x -> ρ' !! x = ρ !! x) as Hρ2.
    { intros x Hx. rewrite Hρ', decide_False; [by apply Hρ1|]. intros Hi. by apply Hx, Hct. }
    specialize (H Hρ2 ltac:(intros; by rewrite lookup_insert_ne)).
    rewrite Htake in H.
    specialize (H ltac:(split; [lia|]; split; [done|]; split; [done|]; intros x Hx;
      rewrite Hρ', decide_True; [done|by apply chain_names_all]) (chain_reps (var_name v) n0 n1 rest) tb IH Eb).
    destruct (go body (<[v := n0 :: n1 :: rest]> S)) as [e S2] eqn:Eg. cbn [fst snd] in *.
    destruct H as (_ & H); [| |exact H].
    + intros e'. cbn [flat]. by rewrite Hflat.
    + intros e' Hl He.
      assert (forall x, tagged v x -> occ e' x = if decide (x ∈ n0 :: n1 :: rest) then 1%nat else 0%nat) as He'.
      { intros x Hx. rewrite He by done. unfold expected. by rewrite lookup_insert_eq, Ek, Htake. }
      destruct (linear_chain e' rest (var_name v) n0 n1) as [Hl1 Hl2]; [done| |done| |done|].
      { intros y Hy. rewrite He' by (rewrite Forall_forall in Htag; auto). by rewrite decide_True. }
      { intros j. rewrite He'; [by rewrite decide_False|]. clear. induction j as [|j IH]; [cbn; rewrite app_nil_r; apply tagged_var|].
        replace (replicate (Datatypes.S j) 39) with (replicate j 39 ++ [39]) by (by rewrite <- replicate_cons_app).
        rewrite app_assoc. by apply tagged_prime. }
      split; [done|]. split.
      * assert (var_name v ∉ chain_names (var_name v) n0 n1 rest) as Hself.
        { intros [Hx|(j & Hj & Hx)]%chain_names_cases; [apply (Hpr 0%nat); cbn; by rewrite app_nil_r|].
          apply (f_equal length) in Hx. rewrite length_app, length_replicate in Hx. lia. }
        rewrite Hl2, decide_False, decide_True by done.
        rewrite He' by apply tagged_var. rewrite decide_False; [done|]. specialize (Hpr 0%nat). cbn in Hpr. by rewrite app_nil_r in Hpr.
      * intros x Hx. rewrite Hl2, !decide_False; [done|intros ->; apply Hx, tagged_var|intros Hi; by apply Hx, Hct].
Qed.

Lemma count_free_size ir v : (count_free ir v <= ir_size ir)%nat.
Proof. induction ir as [w|w body IH|f IHf x IHx]; cbn; [case_match|..]; lia. Qed.

Lemma linearised_all ir : Z.of_nat (ir_size ir) < 10 ^ 20 -> linearised ir.
Proof.
  induction ir as [v|v body IH|f IHf x IHx]; cbn [ir_size]; intros H.
  - apply linearised_var.
  - apply linearised_abs; [pose proof (count_free_size body v); lia|apply IH; lia].
  - apply linearised_app; [apply IHf|apply IHx]; lia.
Qed.
End Linearised.

(** * Properties *)

(** [lambda_to_dnx] makes sharing explicit without changing the term.  From a closed
    lambda term without sharing whose binders have identifiers of their own it makes a
    core term that denotes the same lambda term, in which every name is consumed exactly
    once. *)
Theorem lambda_to_dnx_linear {V F : Type} (ir : LambdaIR) t : minted ir -> Z.of_nat (ir_size ir) < 10 ^ 20 ->
  ir_tm ∅ 0 ir = Some t ->
  let e : Ast V F := (lambda_to_dnx ir ∅).1 in
  flat ∅ 0 e = Some t /\ linear e.
Proof.
  intros Hm Hs Ht. destruct (linearised_all (V := V) (F := F) ir Hs ∅ ∅ ∅ 0%nat t) as (H1 & _ & _ & H4 & _); [done| |done|done].
  split; [intros v []; done|]. intros v l Hl. done.
Qed.

Lemma lambda_to_dnx_linear_witness :
  let ir := IAbs 0 (IAbs 1 (IApp (IVar 0) (IApp (IVar 0) (IVar 0)))) in
  flat (V := Z) (F := Z) ∅ 0 (lambda_to_dnx ir ∅).1 = Some (LAbs (LAbs (LApp (LVar 0) (LApp (LVar 0) (LVar 0))))) /\
  linear (V := Z) (F := Z) (lambda_to_dnx ir ∅).1.
Proof.
  apply lambda_to_dnx_linear; [split; apply (bool_decide_unpack _); vm_compute; exact I|reflexivity|reflexivity].
Defined.

