(* ===== verification/Erase.v ===== *)
(** * From kernel terms to nets ([crates/dnx-proof/src/symbol.rs], [erase.rs], [conv.rs])

    [to_ast] names the binders of a kernel term by their level, drops types
    and makes sharing explicit; [phi_k] checks linearity and elaborates.
    [net_conv] is the route of [conv] for two closed terms without types or
    kernel symbols: erase, normalise, read back, intern.  Names are strings of
    code points; a failed slice index panics. *)
From S2P Require Import Prelude Bytes Utf8 Text Error LOPath Port Arena Net Prim Rules Canon Term Kernel Ast Pass1 Elab Read.

(** ** Symbols *)

Inductive Symbol : Type :=
| SConst (c : ConstId)
| SInd (i : IndId)
| SCtor (i : IndId) (k : Z)
| SElim (i : IndId).

#[export] Instance symbol_eq_dec : EqDecision Symbol.
Proof. solve_decision. Defined.

(** The sign that marks kernel names. *)
Definition SECTION : Z := 167.

Definition dec (z : Z) : str := digits 10 z [].

Definition encode (s : Symbol) : str :=
  match s with
  | SConst c => SECTION :: chars "c:" ++ dec c
  | SInd i => SECTION :: chars "i:" ++ dec i
  | SCtor i k => SECTION :: chars "k:" ++ dec i ++ chars "." ++ dec k
  | SElim i => SECTION :: chars "e:" ++ dec i
  end.

(** [str::parse::<u32>]. *)
Fixpoint parse_digits (acc : Z) (s : str) : option Z :=
  match s with
  | [] => Some acc
  | c :: s =>
      if (48 <=? c) && (c <=? 57) then
        let acc := acc * 10 + (c - 48) in
        if acc <? 2 ^ 32 then parse_digits acc s else None
      else None
  end.

Definition parse_u32 (s : str) : option Z :=
  let s := match s with 43 :: s => s | _ => s end in
  match s with [] => None | _ => parse_digits 0 s end.

(** [split_at(2)], which cuts after two bytes. *)
Definition split_at_2 (body : str) : res Empty_set (str * str) :=
  match body with
  | a :: rest =>
      match length (utf8_char a), rest with
      | 2%nat, _ => Ok ([a], rest)
      | 1%nat, b :: rest => if (length (utf8_char b) =? 1)%nat then Ok ([a; b], rest) else Panic
      | _, _ => Panic
      end
  | [] => Panic
  end.

Fixpoint split_once (c : Z) (s : str) : option (list Z * list Z) :=
  match s with
  | [] => None
  | x :: s => if x =? c then Some ([], s) else '(a, b) ← split_once c s; Some (x :: a, b)
  end.

Definition decode (s : str) : res Empty_set (option Symbol) :=
  match s with
  | 167 :: body =>
      if (length (utf8 body) <? 2)%nat then Ok None
      else
        '(tag, rest) ← split_at_2 body;
        Ok (if bool_decide (tag = chars "c:") then SConst <$> parse_u32 rest
            else if bool_decide (tag = chars "i:") then SInd <$> parse_u32 rest
            else if bool_decide (tag = chars "e:") then SElim <$> parse_u32 rest
            else if bool_decide (tag = chars "k:") then
              '(i, k) ← split_once 46 rest;
              i ← parse_u32 i;
              k ← parse_u32 k;
              Some (SCtor i k)
            else None)
  | _ => Ok None
  end.

(** ** Erasure *)

(** [Ast<NoVal, NoFun>]. *)
Notation A := (Ast Empty_set Empty_set).

Definition bind_name (level : Z) : str := chars "v" ++ dec level.

Fixpoint count_uses_in (e : A) (name : str) : nat :=
  match e with
  | AName n => if bool_decide (n = name) then 1 else 0
  | AAbs x body => if bool_decide (x = name) then 0 else count_uses_in body name
  | AApp f x => count_uses_in f name + count_uses_in x name
  | AEra e body => count_uses_in e name + count_uses_in body name
  | ARep e a b body =>
      count_uses_in e name + (if bool_decide (a = name) || bool_decide (b = name) then 0 else count_uses_in body name)
  | _ => 0
  end.

(** The uses of [from], in order, get the names from index [idx] on. *)
Fixpoint indexed_rename (e : A) (from : str) (names : list (list Z)) (idx : nat) : res DnxError (A * nat) :=
  match e with
  | AName n =>
      if bool_decide (n = from) then r ← index names idx; Ok (AName r, S idx)
      else Ok (AName n, idx)
  | AAbs x body =>
      if bool_decide (x = from) then Ok (AAbs x body, idx)
      else '(body, idx) ← indexed_rename body from names idx; Ok (AAbs x body, idx)
  | AApp f x =>
      '(f, idx) ← indexed_rename f from names idx;
      '(x, idx) ← indexed_rename x from names idx;
      Ok (AApp f x, idx)
  | AEra e body =>
      '(e, idx) ← indexed_rename e from names idx;
      '(body, idx) ← indexed_rename body from names idx;
      Ok (AEra e body, idx)
  | other => Ok (other, idx)
  end.

Fixpoint nest_reps (e : A) (names : list (list Z)) (body : A) : res DnxError A :=
  match names with
  | a :: (b :: more) as names' =>
      match more with
      | [] => Ok (ARep e a b body)
      | _ =>
          let rest := chars "__rr_" ++ b in
          inner ← nest_reps (AName rest) names' body;
          Ok (ARep e a rest inner)
      end
  | _ => Panic
  end.

(** [{name}__{i}]. *)
Definition split_name (name : str) (i : nat) : list Z := name ++ chars "__" ++ digits 20 (Z.of_nat i) [].

Definition build_rep_chain (name : str) (uses : nat) (body : A) : res DnxError A :=
  if (uses <=? 1)%nat then Ok body
  else
    let split := split_name name <$> seq 0 uses in
    '(body, _) ← indexed_rename body name split 0;
    nest_reps (AName name) split body.

Definition wrap_uses (name : str) (uses : nat) (body : A) : res DnxError A :=
  match uses with
  | O => Ok (AEra (AName name) body)
  | 1%nat => Ok body
  | n => build_rep_chain name n body
  end.

Definition var_name_at (depth i : Z) : str :=
  if (1 <=? depth) && (i <=? depth - 1) then bind_name (depth - 1 - i)
  else SECTION :: chars "fv" ++ dec (i - depth).

Fixpoint to_ast (t : Tm) (depth : Z) : res DnxError A :=
  match t with
  | Var i => Ok (AName (var_name_at depth i))
  | Lam _ b =>
      let name := bind_name depth in
      body ← to_ast b (depth + 1);
      body ← wrap_uses name (count_uses_in body name) body;
      Ok (AAbs name body)
  | App f x =>
      f ← to_ast f depth;
      x ← to_ast x depth;
      Ok (AApp f x)
  | Const c => Ok (AName (encode (SConst c)))
  | Ind i => Ok (AName (encode (SInd i)))
  | Ctor i k => Ok (AName (encode (SCtor i k)))
  | Elim i => Ok (AName (encode (SElim i)))
  | Sort _ | Pi _ _ => Ok (AName (SECTION :: chars "ty"))
  end.

(** [From<LinError>]. *)
Definition from_lin {A} (m : res LinError A) : res DnxError A :=
  match m with
  | Ok a => Ok a
  | Err e => Err (LinErr e)
  | Panic => Panic
  | Fuel => Fuel
  end.

Definition phi_k (t : Tm) : res DnxError (Net * PortId) :=
  ast ← to_ast t 0;
  r1 ← from_lin (pass1 ast);
  '((rp, _), s) ← elaborate (usage_levels r1) ast 0 LOPath.root (mk_est (net_new DeltaK 4096) ∅ prims_new 0);
  let net := e_net s in
  '(root_port, net) ←
    (match port_kind rp with
     | Principal => Ok (rp, net)
     | _ =>
         '(slot, net) ← alloc_free net 0;
         net ← connect net rp slot LOPath.root;
         Ok (slot, net)
     end);
  Ok (add_root net "phi_k" root_port, root_port).

(** ** The net route of [conv] *)

Fixpoint has_free_var (a : A) (bound : list (list Z)) : bool :=
  match a with
  | AName n => negb (match n with 167 :: _ => true | _ => false end) && negb (existsb (fun b => bool_decide (b = n)) bound)
  | AAbs x body => has_free_var body (x :: bound)
  | AApp f x => has_free_var f bound || has_free_var x bound
  | _ => false
  end.

Definition is_closed_rb (r : ReadbackResult Empty_set Empty_set) : bool :=
  match r with
  | Lambda a => negb (has_free_var a [])
  | Partial _ => false
  end.

Definition root_port (net : CanonicalNet) : res DnxError PortId :=
  let n := proper net in
  let root := first_root n in
  if slot_is_live n root then
    s ← net_slot n root;
    if is_free s then peer n root else Ok root
  else Ok root.

(** The distance of a name from the innermost binder; binders are pushed at the head. *)
Fixpoint bound_at (s : list (list Z)) (x : str) : option nat :=
  match s with
  | [] => None
  | y :: s => if bool_decide (y = x) then Some (length s) else bound_at s x
  end.

Fixpoint alpha (a b : A) (sa sb : list (list Z)) : bool :=
  match a, b with
  | AName x, AName y =>
      match bound_at sa x, bound_at sb y with
      | Some i, Some j => (i =? j)%nat
      | None, None => bool_decide (x = y)
      | _, _ => false
      end
  | AAbs x bx, AAbs y by_ => alpha bx by_ (x :: sa) (y :: sb)
  | AApp f1 x1, AApp f2 x2 => alpha f1 f2 sa sb && alpha x1 x2 sa sb
  | _, _ => false
  end.

Definition readback_alpha_eq (a b : ReadbackResult Empty_set Empty_set) : bool :=
  match a, b with
  | Lambda x, Lambda y => alpha x y [] []
  | Partial x, Partial y => bool_decide (x = y)
  | _, _ => false
  end.

(** [ctr_a] and [ctr_b] are the counter of readback when the two nets are read. *)
Definition net_conv (fuel : nat) (ctr_a ctr_b : Z) (t u : Tm) : res DnxError bool :=
  '(nt, _) ← phi_k t;
  '(nu, _) ← phi_k u;
  '(cnt, _) ← normalize (C := crules_K) fuel nt;
  '(cnu, _) ← normalize (C := crules_K) fuel nu;
  ra ← psi_native fuel cnt ctr_a;
  rb ← psi_native fuel cnu ctr_b;
  if is_closed_rb ra && is_closed_rb rb then
    pa ← root_port cnt;
    '(ia, interner) ← intern_local interner_new cnt pa;
    pb ← root_port cnu;
    '(ib, _) ← intern_local interner cnu pb;
    Ok (ia =? ib)
  else Ok (readback_alpha_eq ra rb).

(** The engine as the net route of the kernel. *)
#[export] Instance net_route (fuel : nat) (ctr_a ctr_b : Z) : NetPath := net_conv fuel ctr_a ctr_b.

(** * Lemmas *)

Lemma radix_cons fuel : forall z c acc, radix 10 fuel z (c :: acc) <> [].
Proof. induction fuel as [|fuel IH]; intros z c acc; cbn [radix]; [done|]. destruct (z <? 10); [done|apply IH]. Qed.

Lemma dec_cons z : exists c s, dec z = c :: s /\ 48 <= c <= 57.
Proof.
  unfold dec, digits. destruct (radix 10 10 z []) as [|c s] eqn:E.
  - exfalso. revert E. cbn [radix]. destruct (z <? 10); [done|]. apply (radix_cons 9).
  - exists c, s. split; [done|]. apply (digits_chars 10 z). unfold digits. rewrite E. left.
Qed.

Lemma parse_digits_spec ds : forall acc, 0 <= acc -> Forall (fun d => 48 <= d <= 57) ds ->
  foldl (fun a d => a * 10 + (d - 48)) acc ds < 2 ^ 32 ->
  acc <= foldl (fun a d => a * 10 + (d - 48)) acc ds /\
  parse_digits acc ds = Some (foldl (fun a d => a * 10 + (d - 48)) acc ds).
Proof.
  induction ds as [|c ds IH]; intros acc Ha Hd Hv; cbn [foldl parse_digits] in *; [split; [lia|done]|].
  apply Forall_cons_1 in Hd as [Hc Hd]. destruct (IH (acc * 10 + (c - 48))) as [Hle Hp]; [lia|done|done|].
  rewrite (proj2 (Z.leb_le 48 c)), (proj2 (Z.leb_le c 57)) by lia. cbn [andb].
  rewrite (proj2 (Z.ltb_lt _ _)) by lia. split; [lia|done].
Qed.

Lemma parse_u32_dec z : 0 <= z < 2 ^ 32 -> parse_u32 (dec z) = Some z.
Proof.
  intros Hz. destruct (dec_cons z) as (c & s & E & Hc). unfold parse_u32. rewrite E.
  assert (match c :: s with 43 :: s' => s' | _ => c :: s end = c :: s) as ->.
  { destruct c as [|c|c]; try lia. repeat (destruct c as [c|c|]; try lia; try done). }
  cbv beta iota zeta. rewrite <- E.
  destruct (radix_spec 10 z [] ltac:(lia)) as (ds & Eds & Hd & Hv); [change (10 ^ Z.of_nat 10) with 10000000000; lia|].
  rewrite app_nil_r in Eds. change (dec z) with (radix 10 10 z []). rewrite Eds.
  destruct (parse_digits_spec ds 0) as [_ ->]; [lia|done|rewrite Hv; lia|]. by rewrite Hv.
Qed.

Lemma split_once_app c a b : c ∉ a -> split_once c (a ++ c :: b) = Some (a, b).
Proof.
  induction a as [|x a IH]; intros Hc; cbn; [by rewrite Z.eqb_refl|].
  apply not_elem_of_cons in Hc as [Hx Hc]. rewrite (proj2 (Z.eqb_neq x c)) by congruence. by rewrite IH.
Qed.

(** The fields of a symbol are [u32]s. *)
Definition symbol_ok (s : Symbol) : Prop :=
  match s with
  | SConst i | SInd i | SElim i => 0 <= i < 2 ^ 32
  | SCtor i k => 0 <= i < 2 ^ 32 /\ 0 <= k < 2 ^ 32
  end.

Lemma decode_tag a b rest : 0 <= a < 128 -> 0 <= b < 128 ->
  decode (SECTION :: a :: b :: rest) =
    Ok (if bool_decide ([a; b] = chars "c:") then SConst <$> parse_u32 rest
        else if bool_decide ([a; b] = chars "i:") then SInd <$> parse_u32 rest
        else if bool_decide ([a; b] = chars "e:") then SElim <$> parse_u32 rest
        else if bool_decide ([a; b] = chars "k:") then
          '(i, k) ← split_once 46 rest; i ← parse_u32 i; k ← parse_u32 k; Some (SCtor i k)
        else None).
Proof.
  intros Ha Hb.
  assert (forall c, 0 <= c < 128 -> length (utf8_char c) = 1%nat) as Hl.
  { intros c Hc. unfold utf8_char. by rewrite (proj2 (Z.ltb_lt c 128)) by lia. }
  unfold decode. change (SECTION :: a :: b :: rest) with (167 :: a :: b :: rest). cbv iota.
  assert ((length (utf8 (a :: b :: rest)) <? 2)%nat = false) as ->.
  { apply Nat.ltb_ge. unfold utf8. cbn [fmap list_fmap concat]. rewrite !length_app, (Hl a), (Hl b) by done. lia. }
  cbn [split_at_2]. by rewrite (Hl a), (Hl b) by done.
Qed.

(** The name of a kernel symbol in a net names that symbol only. *)
Lemma symbol_roundtrip s : symbol_ok s -> decode (encode s) = Ok (Some s).
Proof.
  intros H. destruct s as [i|i|i k|i]; cbn [symbol_ok] in H.
  - change (encode (SConst i)) with (SECTION :: 99 :: 58 :: dec i). rewrite decode_tag by lia.
    rewrite bool_decide_eq_true_2 by done. by rewrite parse_u32_dec.
  - change (encode (SInd i)) with (SECTION :: 105 :: 58 :: dec i). rewrite decode_tag by lia.
    rewrite bool_decide_eq_false_2, bool_decide_eq_true_2 by done. by rewrite parse_u32_dec.
  - change (encode (SCtor i k)) with (SECTION :: 107 :: 58 :: dec i ++ 46 :: dec k). rewrite decode_tag by lia.
    rewrite !bool_decide_eq_false_2, bool_decide_eq_true_2 by done.
    rewrite split_once_app by (intros Hi%digits_chars; lia). cbn [mbind option_bind]. by rewrite !parse_u32_dec by tauto.
  - change (encode (SElim i)) with (SECTION :: 101 :: 58 :: dec i). rewrite decode_tag by lia.
    rewrite !bool_decide_eq_false_2, bool_decide_eq_true_2 by done. by rewrite parse_u32_dec.
Qed.

(** ** Erasure *)

(** A chain makes as many names as there are uses, and a renamed occurrence is a use. *)
Lemma indexed_rename_ok e from names : forall idx, (idx + count_uses_in e from <= length names)%nat ->
  exists e' idx', indexed_rename e from names idx = Ok (e', idx') /\ (idx' <= idx + count_uses_in e from)%nat.
Proof.
  induction e using ast_ind; intros idx Hi; cbn [indexed_rename count_uses_in] in *;
    try (by eexists _, _; split; [reflexivity|lia]).
  - case_bool_decide; [|by eexists _, _; split; [reflexivity|lia]].
    destruct (lookup_lt_is_Some_2 names idx) as [r Hr]; [lia|]. unfold index. rewrite Hr. cbn.
    eexists _, _. split; [reflexivity|lia].
  - case_bool_decide; [by eexists _, _; split; [reflexivity|lia]|].
    destruct (IHe idx) as (e' & idx' & -> & Hle); [lia|]. cbn. eexists _, _. split; [reflexivity|lia].
  - destruct (IHe1 idx) as (e1' & i1 & -> & H1); [lia|]. cbn. destruct (IHe2 i1) as (e2' & i2 & -> & H2); [lia|].
    cbn. eexists _, _. split; [reflexivity|lia].
  - destruct (IHe1 idx) as (e1' & i1 & -> & H1); [lia|]. cbn. destruct (IHe2 i1) as (e2' & i2 & -> & H2); [lia|].
    cbn. eexists _, _. split; [reflexivity|lia].
Qed.

Lemma nest_reps_ok names : forall e body, (2 <= length names)%nat -> exists e', nest_reps e names body = Ok e'.
Proof.
  induction names as [|a [|b more] IH]; intros e body Hl; cbn [length] in *; [lia..|].
  destruct more as [|c more]; [by eexists|]. destruct (IH (AName (chars "__rr_" ++ b)) body) as [e' He]; [cbn; lia|].
  exists (ARep e a (chars "__rr_" ++ b) e').
  change (nest_reps e (a :: b :: c :: more) body) with
    (inner ← nest_reps (AName (chars "__rr_" ++ b)) (b :: c :: more) body; Ok (ARep e a (chars "__rr_" ++ b) inner)).
  by rewrite He.
Qed.

Lemma wrap_uses_ok name body : exists e, wrap_uses name (count_uses_in body name) body = Ok e.
Proof.
  destruct (count_uses_in body name) as [|[|n]] eqn:Hn; [by eexists..|]. cbn [wrap_uses].
  unfold build_rep_chain. rewrite (proj2 (Nat.leb_gt _ _)) by lia.
  set (names := split_name name <$> seq 0 (S (S n))).
  assert (length names = S (S n)) as Hl by (unfold names; by rewrite length_fmap, length_seq). clearbody names.
  destruct (indexed_rename_ok body name names 0) as (e' & i' & -> & _); [lia|]. cbn [mbind res_bind].
  apply nest_reps_ok. lia.
Qed.

(** Erasure never panics, whatever the term. *)
Lemma to_ast_total t : forall depth, exists e, to_ast t depth = Ok e.
Proof.
  induction t as [i|l|a _ b _|a _ b IHb|f IHf x IHx|c|i|i k|i]; intros depth; try by eexists.
  - cbn [to_ast]. destruct (IHb (depth + 1)) as [body ->]. cbn [mbind res_bind].
    destruct (wrap_uses_ok (bind_name depth) body) as [e ->]. by eexists.
  - cbn [to_ast]. destruct (IHf depth) as [f' ->]. destruct (IHx depth) as [x' ->]. by eexists.
Qed.

(** ** Where the net route would go wrong *)

Definition lam0 (b : Tm) : Tm := Lam (Sort 0) b.

(** [λx. λy. x y (y x)]: the uses of [x] are below the replicator of [y],
    which renaming does not enter, and erasure fails the linearity check. *)
Lemma nested_sharing : let t := lam0 (lam0 (App (App (Var 1) (Var 0)) (App (Var 0) (Var 1)))) in
  phi_k t = Err (LinErr (Unused (split_name (bind_name 0) 0))).
Proof. vm_compute. reflexivity. Qed.

(** [(λx. x) (λy. y)] and [λy. y] have the same normal form, but the free slot
    at the root of the first is serialised with it. *)
Lemma redex_differs : let id := lam0 (Var 0) in net_conv 100 0 0 (App id id) id = Ok false.
Proof. vm_compute. reflexivity. Qed.
