(* ===== verification/NixVal.v ===== *)
(** * The primitive values and functions of the surface languages ([crates/dnx-prim/src/prim.rs])

    Literals and functions as the front ends name them: they are the [V] and
    [F] of the core syntax.  An [f64] is its 64 bits. *)
From S2P Require Import Prelude Bytes Utf8 Text.

Inductive NixPrimVal : Type :=
| NInt (n : Z)
| NFloat (bits : Z)
| NStr (s : list Z)
| NBool (b : bool)
| NNull
| NPath (s : list Z).

Inductive NixPrimFun : Type :=
| FSelect | FSelectOr | FSelectDyn | FEmptyAttrSet | FHasAttr | FInsert | FInsertDyn | FMkSingleton | FUpdate
| FAttrNames | FAttrValues | FMapAttrs | FFilterAttrs | FListToAttrs | FIsList
| FStrConcat | FToStr | FPathConcat | FSubstring | FStringLength
| FBitAnd | FBitOr | FBitXor | FAdd | FSub | FMul | FDiv | FNeg
| FEq | FNe | FLt | FLe | FGt | FGe
| FTypeOf | FIsInt | FIsFloat | FIsString | FIsBool | FIsNull | FIsAttrs | FIsFunction | FIsPath
| FToInt | FToFloat | FToString2 | FToJSON | FFromJSON | FTryEval | FThrow | FAbort | FDerivationStrict
| FBuiltin (name : list Z).

#[export] Instance nixval_eq_dec : EqDecision NixPrimVal.
Proof. solve_decision. Defined.
#[export] Instance nixfun_eq_dec : EqDecision NixPrimFun.
Proof. solve_decision. Defined.

(** ** What the primitives take from the standard library of Rust *)

(** Arithmetic, comparison, text and reading of an [f64], and Unicode white space. *)
Class Host : Type := {
  f_add : Z -> Z -> Z;
  f_sub : Z -> Z -> Z;
  f_mul : Z -> Z -> Z;
  f_div : Z -> Z -> Z;
  f_neg : Z -> Z;
  f_of_int : Z -> Z;
  f_lt : Z -> Z -> bool;
  f_le : Z -> Z -> bool;
  f_text : Z -> list Z;
  f_parse : list Z -> option Z;
  white : Z -> bool
}.

Definition is_digit (c : Z) : bool := (48 <=? c) && (c <=? 57).

(** A result of [checked_add] and the like: an [i64]. *)
Definition checked (z : Z) : option Z := if (- 2 ^ 63 <=? z) && (z <? 2 ^ 63) then Some z else None.

(** [str::parse::<i64>()]. *)
Definition parse_int (s : str) : option Z :=
  let '(sign, ds) := match s with 45 :: ds => (-1, ds) | 43 :: ds => (1, ds) | _ => (1, s) end in
  match ds with
  | [] => None
  | _ => if forallb is_digit ds then checked (sign * foldl (fun a d => a * 10 + (d - 48)) 0 ds) else None
  end.

(** The text of an [i64]. *)
Definition int_text (z : Z) : list Z := if z <? 0 then 45 :: digits 20 (- z) [] else digits 20 z [].

(** [str::trim()]. *)
Fixpoint trim_start `{Host} (s : str) : list Z :=
  match s with
  | c :: rest => if white c then trim_start rest else s
  | [] => []
  end.
Definition trim `{Host} (s : str) : list Z := reverse (trim_start (reverse (trim_start s))).
