(* ===== verification/PyParse.v ===== *)
(** * The Python lexer and parser ([crates/dnx-pyparse/src/lexer.rs], [parser.rs], [ast.rs], [error.rs])

    From the characters of a source to tokens, from the tokens to a tree. *)
From S2P Require Import Prelude Bytes Utf8 Text NixVal.

(** * The Python lexer ([crates/dnx-pyparse/src/lexer.rs], [error.rs])

    A source is a list of characters and the functions take the characters
    that are left, where the code passes the whole source and an index.  The
    Unicode classes and the reading of a float are parameters (an [f64] is its
    64 bits); the texts of errors are left out. *)

Class PyChars : Type := {
  alphabetic : Z -> bool;
  numeric : Z -> bool;
  whitespace : Z -> bool;
  parse_f64 : list Z -> option Z
}.

Inductive PyError : Type := PyLexError | PyParseError | PyUnsupported.

Inductive FRaw : Type :=
| RawLit (s : list Z)
| RawHole (src : list Z).

Inductive Tok : Type :=
| TInt (n : Z) | TFloat (bits : Z) | TStr (s : list Z) | TFStr (parts : list FRaw) | TIdent (n : list Z)
| TLambda | TDef | TReturn | TIf | TElse | TTrue | TFalse | TNone | TAnd | TOr | TNot | TIn
| TPlus | TMinus | TStar | TSlash | TEqEq | TNotEq | TLt | TLe | TGt | TGe | TAssign
| TColon | TComma | TDot | TLParen | TRParen | TLBracket | TRBracket | TLBrace | TRBrace | TNewline.

#[export] Instance fraw_eq_dec : EqDecision FRaw.
Proof. solve_decision. Defined.
#[export] Instance tok_eq_dec : EqDecision Tok.
Proof. solve_decision. Defined.

Definition keywords : list (list Z * Tok) :=
  [(chars "lambda", TLambda); (chars "def", TDef); (chars "return", TReturn); (chars "if", TIf);
   (chars "else", TElse); (chars "True", TTrue); (chars "False", TFalse); (chars "None", TNone);
   (chars "and", TAnd); (chars "or", TOr); (chars "not", TNot); (chars "in", TIn)].

Definition keyword (word : str) : option Tok :=
  snd <$> find (fun kv => bool_decide (kv.1 = word)) keywords.

Definition next_is_digit (rest : str) : bool :=
  match rest with c :: _ => is_digit c | [] => false end.

(** The longest prefix of characters that satisfy [p], and the rest. *)
Fixpoint span (p : Z -> bool) (cs : str) : list Z * list Z :=
  match cs with
  | c :: rest => if p c then let '(a, b) := span p rest in (c :: a, b) else ([], cs)
  | [] => ([], [])
  end.

Definition unescape (c : Z) : res PyError Z :=
  match c with
  | 110 => Ok 10
  | 116 => Ok 9
  | 92 => Ok 92
  | 34 => Ok 34
  | 39 => Ok 39
  | _ => Err PyLexError
  end.

(** After the opening quote; [s] is the text so far. *)
Fixpoint lex_string (quote : Z) (cs s : str) : res PyError (list Z * list Z) :=
  match cs with
  | [] => Err PyLexError
  | c :: cs =>
      if c =? quote then Ok (s, cs)
      else if c =? 92 then
        match cs with
        | [] => Err PyLexError
        | next :: cs => c ← unescape next; lex_string quote cs (s ++ [c])
        end
      else lex_string quote cs (s ++ [c])
  end.

(** [chars[i..next]]: what a call consumed. *)
Definition consumed (before after : str) : str := take (length before - length after) before.

Section Lexer.
Context `{PyChars}.

Definition ident_char (c : Z) : bool := alphabetic c || numeric c || (c =? 95).

Definition lex_ident (cs : str) : list Z * list Z := span ident_char cs.

Definition parse_i64 (text : str) : option Z :=
  let n := foldl (fun a d => a * 10 + (d - 48)) 0 text in
  if n <? 2 ^ 63 then Some n else None.

Definition lex_number (cs : str) : res PyError (Tok * list Z) :=
  let '(text, rest) := span (fun c => is_digit c || (c =? 46)) cs in
  if existsb (fun c => c =? 46) text then
    f ← ok_or (parse_f64 text) PyLexError;
    Ok (TFloat f, rest)
  else
    n ← ok_or (parse_i64 text) PyLexError;
    Ok (TInt n, rest).

(** After the opening brace; a quoted part is copied as it is.  [fuel] is a
    bound on the characters left. *)
Fixpoint lex_hole (fuel : nat) (cs : str) (depth : Z) (s : str) : res PyError (list Z * list Z) :=
  match fuel with
  | O => Fuel
  | S fuel =>
      match cs with
      | [] => Err PyLexError
      | c :: rest =>
          if (c =? 125) && (depth =? 0) then
            if forallb whitespace s then Err PyLexError else Ok (s, rest)
          else if c =? 123 then lex_hole fuel rest (depth + 1) (s ++ [c])
          else if c =? 125 then lex_hole fuel rest (depth - 1) (s ++ [c])
          else if (c =? 34) || (c =? 39) then
            '(_, next) ← lex_string c rest [];
            lex_hole fuel next depth (s ++ consumed cs next)
          else lex_hole fuel rest depth (s ++ [c])
      end
  end.

Definition flush (lit : str) (parts : list FRaw) : list FRaw :=
  match lit with [] => parts | _ => parts ++ [RawLit lit] end.

(** After the opening quote. *)
Fixpoint lex_fstring (fuel : nat) (quote : Z) (cs : str) (parts : list FRaw) (lit : str) : res PyError (list FRaw * list Z) :=
  match fuel with
  | O => Fuel
  | S fuel =>
      match cs with
      | [] => Err PyLexError
      | c :: rest =>
          if c =? quote then Ok (flush lit parts, rest)
          else if (c =? 123) && bool_decide (head rest = Some 123) then lex_fstring fuel quote (tail rest) parts (lit ++ [123])
          else if (c =? 125) && bool_decide (head rest = Some 125) then lex_fstring fuel quote (tail rest) parts (lit ++ [125])
          else if c =? 125 then Err PyLexError
          else if c =? 123 then
            '(src, next) ← lex_hole fuel rest 0 [];
            lex_fstring fuel quote next (flush lit parts ++ [RawHole src]) []
          else if c =? 92 then
            match rest with
            | [] => Err PyLexError
            | e :: rest => c ← unescape e; lex_fstring fuel quote rest parts (lit ++ [c])
            end
          else lex_fstring fuel quote rest parts (lit ++ [c])
      end
  end.

(** The tokens of one character, longer ones first. *)
Definition symbol (c : Z) (rest : str) : option (Tok * list Z) :=
  let eq := bool_decide (head rest = Some 61) in
  match c with
  | 40 => Some (TLParen, rest)
  | 41 => Some (TRParen, rest)
  | 91 => Some (TLBracket, rest)
  | 93 => Some (TRBracket, rest)
  | 123 => Some (TLBrace, rest)
  | 125 => Some (TRBrace, rest)
  | 43 => Some (TPlus, rest)
  | 45 => Some (TMinus, rest)
  | 42 => Some (TStar, rest)
  | 47 => Some (TSlash, rest)
  | 58 => Some (TColon, rest)
  | 44 => Some (TComma, rest)
  | 46 => if next_is_digit rest then None else Some (TDot, rest)
  | 61 => Some (if eq then (TEqEq, tail rest) else (TAssign, rest))
  | 33 => if eq then Some (TNotEq, tail rest) else None
  | 60 => Some (if eq then (TLe, tail rest) else (TLt, rest))
  | 62 => Some (if eq then (TGe, tail rest) else (TGt, rest))
  | _ => None
  end.

Definition newline (out : list Tok) : list Tok :=
  match last out with
  | None | Some TNewline => out
  | _ => out ++ [TNewline]
  end.

Fixpoint lex_from (fuel : nat) (cs : str) (out : list Tok) : res PyError (list Tok) :=
  match fuel with
  | O => Fuel
  | S fuel =>
      match cs with
      | [] => Ok out
      | c :: rest =>
          if (c =? 32) || (c =? 9) || (c =? 13) then lex_from fuel rest out
          else if c =? 35 then lex_from fuel (span (fun c => negb (c =? 10)) cs).2 out
          else if c =? 10 then lex_from fuel rest (newline out)
          else if ((c =? 102) || (c =? 70)) && (bool_decide (head rest = Some 34) || bool_decide (head rest = Some 39)) then
            '(parts, next) ← lex_fstring fuel (default 0 (head rest)) (tail rest) [] [];
            lex_from fuel next (out ++ [TFStr parts])
          else if (c =? 34) || (c =? 39) then
            '(s, next) ← lex_string c rest [];
            lex_from fuel next (out ++ [TStr s])
          else match symbol c rest with
          | Some (t, next) => lex_from fuel next (out ++ [t])
          | None =>
              if is_digit c || ((c =? 46) && next_is_digit rest) then
                '(t, next) ← lex_number cs;
                lex_from fuel next (out ++ [t])
              else if alphabetic c || (c =? 95) then
                let '(word, next) := lex_ident cs in
                lex_from fuel next (out ++ [default (TIdent word) (keyword word)])
              else Err PyLexError
          end
      end
  end.

(** A turn of a loop consumes a character. *)
Definition lex (src : str) : res PyError (list Tok) := lex_from (S (length src)) src [].
End Lexer.

(** * The Python syntax tree and its parser ([crates/dnx-pyparse/src/ast.rs], [parser.rs])

    A parser takes the tokens that are left and returns what it read and the
    tokens after it: they are the [toks] and [pos] of [struct Parser].
    [Levels] has the functions of one expression over [expr], the parser of
    the expressions inside it, and [hole], the parser of the source of a hole
    of an f-string; [expr] closes them with a bound on the nesting.  Texts of
    errors are left out. *)

Notation PyName := (list Z) (only parsing).

Inductive BinOp : Type := Add | Sub | Mul | Div | Eq | Ne | Lt | Le | Gt | Ge | In | And | Or.

Inductive PyExpr : Type :=
| PInt (n : Z)
| PFloat (bits : Z)
| PStr (s : list Z)
| PFStr (parts : list FStrPart)
| PBool (b : bool)
| PNone
| PName (n : PyName)
| PLambda (param : PyName) (body : PyExpr)
| PCall (f : PyExpr) (args : list PyExpr)
| PDeriv (kwargs : list (PyName * PyExpr))
| PBinOp (op : BinOp) (l r : PyExpr)
| PNeg (e : PyExpr)
| PNot (e : PyExpr)
| PIfExp (cond then_ els : PyExpr)
| PList (items : list PyExpr)
| PDict (pairs : list (PyExpr * PyExpr))
| PIndex (e key : PyExpr)
| PAttr (e : PyExpr) (name : PyName)
(** A segment of an f-string. *)
with FStrPart : Type :=
| PLit (s : list Z)
| PHole (e : PyExpr).

Inductive PyStmt : Type :=
| SAssign (name : PyName) (e : PyExpr)
| SDef (name param : PyName) (body : PyExpr)
| SExpr (e : PyExpr).

#[export] Instance binop_eq_dec : EqDecision BinOp.
Proof. solve_decision. Defined.

Notation parser A := (list Tok -> res PyError (A * list Tok)) (only parsing).

Definition expect (t : Tok) (toks : list Tok) : res PyError (list Tok) :=
  match toks with
  | t' :: rest => if bool_decide (t' = t) then Ok rest else Err PyParseError
  | [] => Err PyParseError
  end.

Definition ident (toks : list Tok) : res PyError (PyName * list Tok) :=
  match toks with
  | TIdent n :: rest => Ok (n, rest)
  | _ => Err PyParseError
  end.

Fixpoint skip_newlines (toks : list Tok) : list Tok :=
  match toks with
  | TNewline :: rest => skip_newlines rest
  | _ => toks
  end.

Definition cmp_op (t : Tok) : option BinOp :=
  match t with
  | TEqEq => Some Eq
  | TNotEq => Some Ne
  | TLt => Some Lt
  | TLe => Some Le
  | TGt => Some Gt
  | TGe => Some Ge
  | TIn => Some In
  | _ => None
  end.

(** [a < b < c] is [(a < b) and (b < c)]; [acc] is what the loop of
    [chain_compare] has joined. *)
Fixpoint chain_from (prev : PyExpr) (ops : list (BinOp * PyExpr)) (acc : option PyExpr) : PyExpr :=
  match ops with
  | [] => default prev acc
  | (op, next) :: ops =>
      let cmp := PBinOp op prev next in
      chain_from next ops (Some match acc with None => cmp | Some a => PBinOp And a cmp end)
  end.
Definition chain_compare (first : PyExpr) (ops : list (BinOp * PyExpr)) : PyExpr := chain_from first ops None.

(** [while let Some(op) = ...]: left-associative operators over [operand]. *)
Fixpoint infix_loop (fuel : nat) (op : Tok -> option BinOp) (operand : parser PyExpr) (lhs : PyExpr) : parser PyExpr :=
  fun toks =>
  match fuel with
  | O => Fuel
  | S fuel =>
      match toks with
      | t :: rest =>
          match op t with
          | Some o => '(rhs, rest) ← operand rest; infix_loop fuel op operand (PBinOp o lhs rhs) rest
          | None => Ok (lhs, toks)
          end
      | [] => Ok (lhs, toks)
      end
  end.

(** A turn of a loop takes a token. *)
Definition infix (op : Tok -> option BinOp) (operand : parser PyExpr) : parser PyExpr := fun toks =>
  '(lhs, rest) ← operand toks;
  infix_loop (S (length rest)) op operand lhs rest.

(** Items between commas, up to the token [close]. *)
Fixpoint items_loop {A} (fuel : nat) (item : parser A) : parser (list A) := fun toks =>
  match fuel with
  | O => Fuel
  | S fuel =>
      '(x, rest) ← item toks;
      match rest with
      | TComma :: rest => '(xs, rest) ← items_loop fuel item rest; Ok (x :: xs, rest)
      | _ => Ok ([x], rest)
      end
  end.

Definition items {A} (item : parser A) (close : Tok) : parser (list A) := fun toks =>
  '(xs, rest) ← (if bool_decide (head toks = Some close) then Ok ([], toks)
                 else items_loop (S (length toks)) item toks);
  rest ← expect close rest;
  Ok (xs, rest).

Section Levels.
Context (expr : parser PyExpr) (hole : list Z -> res PyError PyExpr).

(** [key=value] of a [derivation]. *)
Definition kwarg : parser (PyName * PyExpr) := fun toks =>
  '(key, rest) ← ident toks;
  rest ← expect TAssign rest;
  '(e, rest) ← expr rest;
  Ok ((key, e), rest).

Definition kwargs : parser (list (PyName * PyExpr)) := items kwarg TRParen.

Definition finish_call (callee : PyExpr) : parser PyExpr := fun toks =>
  rest ← expect TLParen toks;
  if match callee with PName n => bool_decide (n = chars "derivation") | _ => false end then
    '(kvs, rest) ← kwargs rest; Ok (PDeriv kvs, rest)
  else
    '(args, rest) ← items expr TRParen rest; Ok (PCall callee args, rest).

Fixpoint params_loop (toks : list Tok) : res PyError (list (list Z) * list Tok) :=
  match toks with
  | TComma :: TIdent n :: rest => '(ps, rest) ← params_loop rest; Ok (n :: ps, rest)
  | TComma :: _ => Err PyParseError
  | _ => Ok ([], toks)
  end.

Definition lambda_tail : parser PyExpr := fun toks =>
  '(p, rest) ← ident toks;
  '(ps, rest) ← params_loop rest;
  rest ← expect TColon rest;
  '(body, rest) ← expr rest;
  Ok (foldr PLambda body (p :: ps), rest).

Definition list_tail : parser PyExpr := fun toks =>
  '(xs, rest) ← items expr TRBracket toks; Ok (PList xs, rest).

Definition dict_pair : parser (PyExpr * PyExpr) := fun toks =>
  '(key, rest) ← expr toks;
  rest ← expect TColon rest;
  '(v, rest) ← expr rest;
  Ok ((key, v), rest).

Definition dict_tail : parser PyExpr := fun toks =>
  '(xs, rest) ← items dict_pair TRBrace toks; Ok (PDict xs, rest).

Fixpoint fstring (raw : list FRaw) : res PyError (list FStrPart) :=
  match raw with
  | [] => Ok []
  | RawLit s :: raw => parts ← fstring raw; Ok (PLit s :: parts)
  | RawHole src :: raw => e ← hole src; parts ← fstring raw; Ok (PHole e :: parts)
  end.

Definition atom : parser PyExpr := fun toks =>
  match toks with
  | TInt n :: rest => Ok (PInt n, rest)
  | TFloat f :: rest => Ok (PFloat f, rest)
  | TStr s :: rest => Ok (PStr s, rest)
  | TFStr raw :: rest => parts ← fstring raw; Ok (PFStr parts, rest)
  | TTrue :: rest => Ok (PBool true, rest)
  | TFalse :: rest => Ok (PBool false, rest)
  | TNone :: rest => Ok (PNone, rest)
  | TIdent n :: rest => Ok (PName n, rest)
  | TLambda :: rest => lambda_tail rest
  | TLParen :: rest => '(e, rest) ← expr rest; rest ← expect TRParen rest; Ok (e, rest)
  | TLBracket :: rest => list_tail rest
  | TLBrace :: rest => dict_tail rest
  | _ => Err PyParseError
  end.

Fixpoint postfix_loop (fuel : nat) (e : PyExpr) : parser PyExpr := fun toks =>
  match fuel with
  | O => Fuel
  | S fuel =>
      match toks with
      | TLParen :: _ => '(e, rest) ← finish_call e toks; postfix_loop fuel e rest
      | TLBracket :: rest =>
          '(key, rest) ← expr rest;
          rest ← expect TRBracket rest;
          postfix_loop fuel (PIndex e key) rest
      | TDot :: rest => '(name, rest) ← ident rest; postfix_loop fuel (PAttr e name) rest
      | _ => Ok (e, toks)
      end
  end.

Definition postfix : parser PyExpr := fun toks =>
  '(e, rest) ← atom toks; postfix_loop (S (length rest)) e rest.

Fixpoint unary (toks : list Tok) : res PyError (PyExpr * list Tok) :=
  match toks with
  | TMinus :: rest => '(e, rest) ← unary rest; Ok (PNeg e, rest)
  | _ => postfix toks
  end.

Definition mul : parser PyExpr :=
  infix (fun t => match t with TStar => Some Mul | TSlash => Some Div | _ => None end) unary.

Definition add : parser PyExpr :=
  infix (fun t => match t with TPlus => Some Add | TMinus => Some Sub | _ => None end) mul.

Fixpoint compare_loop (fuel : nat) : parser (list (BinOp * PyExpr)) := fun toks =>
  match fuel with
  | O => Fuel
  | S fuel =>
      match toks with
      | t :: rest =>
          match cmp_op t with
          | Some op => '(e, rest) ← add rest; '(ops, rest) ← compare_loop fuel rest; Ok ((op, e) :: ops, rest)
          | None => Ok ([], toks)
          end
      | [] => Ok ([], toks)
      end
  end.

Definition compare : parser PyExpr := fun toks =>
  '(first, rest) ← add toks;
  '(ops, rest) ← compare_loop (S (length rest)) rest;
  Ok (chain_compare first ops, rest).

Fixpoint not_expr (toks : list Tok) : res PyError (PyExpr * list Tok) :=
  match toks with
  | TNot :: rest => '(e, rest) ← not_expr rest; Ok (PNot e, rest)
  | _ => compare toks
  end.

Definition and_expr : parser PyExpr := infix (fun t => match t with TAnd => Some And | _ => None end) not_expr.

Definition or_expr : parser PyExpr := infix (fun t => match t with TOr => Some Or | _ => None end) and_expr.

(** [then if cond else otherwise]. *)
Definition ternary : parser PyExpr := fun toks =>
  '(then_, rest) ← or_expr toks;
  match rest with
  | TIf :: rest =>
      '(cond, rest) ← or_expr rest;
      rest ← expect TElse rest;
      '(otherwise, rest) ← expr rest;
      Ok (PIfExp cond then_ otherwise, rest)
  | _ => Ok (then_, rest)
  end.
End Levels.

Section Module_.
Context (expr : parser PyExpr).

Definition def_stmt : parser PyStmt := fun toks =>
  rest ← expect TDef toks;
  '(name, rest) ← ident rest;
  rest ← expect TLParen rest;
  '(param, rest) ← ident rest;
  rest ← expect TRParen rest;
  rest ← expect TColon rest;
  rest ← expect TReturn rest;
  '(body, rest) ← expr rest;
  Ok (SDef name param body, rest).

Definition statement : parser PyStmt := fun toks =>
  match toks with
  | TDef :: _ => def_stmt toks
  | TIdent name :: TAssign :: rest => '(e, rest) ← expr rest; Ok (SAssign name e, rest)
  | _ => '(e, rest) ← expr toks; Ok (SExpr e, rest)
  end.

Fixpoint statements (fuel : nat) (toks : list Tok) : res PyError (list PyStmt) :=
  match fuel with
  | O => Fuel
  | S fuel =>
      match toks with
      | [] => Ok []
      | _ =>
          '(s, rest) ← statement toks;
          ss ← statements fuel (skip_newlines rest);
          Ok (s :: ss)
      end
  end.
End Module_.

Section Source.
Context `{PyChars}.

(** [parse_module] over a parser of expressions. *)
Definition module_of (expr : parser PyExpr) (src : str) : res PyError (list PyStmt) :=
  toks ← lex src;
  let toks := skip_newlines toks in
  stmts ← statements expr (S (length toks)) toks;
  match stmts with
  | [] => Err PyParseError
  | _ => Ok stmts
  end.

Definition parse_hole (expr : parser PyExpr) (src : str) : res PyError PyExpr :=
  stmts ← module_of expr src;
  match stmts with
  | [SExpr e] => Ok e
  | _ => Err PyParseError
  end.

(** [fuel] bounds the nesting: an expression inside another one starts at
    least a token later, and the source of a hole is shorter than its
    f-string. *)
Fixpoint expr (fuel : nat) : parser PyExpr := fun toks =>
  match fuel with
  | O => Fuel
  | S fuel => ternary (expr fuel) (parse_hole (expr fuel)) toks
  end.

Definition parse_module (src : str) : res PyError (list PyStmt) := module_of (expr (S (length src))) src.
End Source.

(** * Lemmas *)

(** Induction that reaches the expressions inside lists. *)
Section PyInd.
Context (P : PyExpr -> Prop).
Notation Ppart p := (match p with PLit _ => True | PHole e => P e end).
Context (Hint_ : forall n, P (PInt n)) (Hfloat : forall f, P (PFloat f)) (Hstr : forall s, P (PStr s))
  (Hfstr : forall parts, Forall (fun p => Ppart p) parts -> P (PFStr parts))
  (Hbool : forall b, P (PBool b)) (Hnone : P PNone) (Hname : forall n, P (PName n))
  (Hlambda : forall p e, P e -> P (PLambda p e))
  (Hcall : forall f args, P f -> Forall P args -> P (PCall f args))
  (Hderiv : forall kvs, Forall (fun kv => P kv.2) kvs -> P (PDeriv kvs))
  (Hbin : forall op a b, P a -> P b -> P (PBinOp op a b)) (Hneg : forall e, P e -> P (PNeg e))
  (Hnot : forall e, P e -> P (PNot e)) (Hif : forall a b c, P a -> P b -> P c -> P (PIfExp a b c))
  (Hlist : forall xs, Forall P xs -> P (PList xs))
  (Hdict : forall kvs, Forall (fun kv => P kv.1 /\ P kv.2) kvs -> P (PDict kvs))
  (Hindex : forall a b, P a -> P b -> P (PIndex a b)) (Hattr : forall e n, P e -> P (PAttr e n)).

Fixpoint pyexpr_ind (e : PyExpr) : P e :=
  match e with
  | PInt n => Hint_ n
  | PFloat f => Hfloat f
  | PStr s => Hstr s
  | PFStr parts =>
      Hfstr parts
        ((fix go ps : Forall (fun p => Ppart p) ps :=
            match ps with
            | [] => List.Forall_nil _
            | p :: ps => List.Forall_cons _ p _ (match p return Ppart p with PLit _ => I | PHole e => pyexpr_ind e end) (go ps)
            end) parts)
  | PBool b => Hbool b
  | PNone => Hnone
  | PName n => Hname n
  | PLambda p e => Hlambda p e (pyexpr_ind e)
  | PCall f args =>
      Hcall f args (pyexpr_ind f)
        ((fix go es : Forall P es := match es with [] => List.Forall_nil _ | e :: es => List.Forall_cons _ e _ (pyexpr_ind e) (go es) end) args)
  | PDeriv kvs =>
      Hderiv kvs
        ((fix go kvs : Forall (fun kv => P kv.2) kvs :=
            match kvs with [] => List.Forall_nil _ | kv :: kvs => List.Forall_cons _ kv _ (pyexpr_ind kv.2) (go kvs) end) kvs)
  | PBinOp op a b => Hbin op a b (pyexpr_ind a) (pyexpr_ind b)
  | PNeg e => Hneg e (pyexpr_ind e)
  | PNot e => Hnot e (pyexpr_ind e)
  | PIfExp a b c => Hif a b c (pyexpr_ind a) (pyexpr_ind b) (pyexpr_ind c)
  | PList xs =>
      Hlist xs
        ((fix go es : Forall P es := match es with [] => List.Forall_nil _ | e :: es => List.Forall_cons _ e _ (pyexpr_ind e) (go es) end) xs)
  | PDict kvs =>
      Hdict kvs
        ((fix go kvs : Forall (fun kv => P kv.1 /\ P kv.2) kvs :=
            match kvs with [] => List.Forall_nil _ | kv :: kvs => List.Forall_cons _ kv _ (conj (pyexpr_ind kv.1) (pyexpr_ind kv.2)) (go kvs) end) kvs)
  | PIndex a b => Hindex a b (pyexpr_ind a) (pyexpr_ind b)
  | PAttr e n => Hattr e n (pyexpr_ind e)
  end.
End PyInd.
