(* ===== verification/PyParseSpec.v ===== *)
(** * The Python parser: it always ends, and it reads back what is printed *)
From S2P Require Import Prelude Bytes Utf8 Text NixVal PyParse.

(** The number of tokens, the source of a hole counted by its characters. *)
Definition raw_weight (r : FRaw) : nat := match r with RawLit _ => 0 | RawHole src => length src end.
Definition raws_weight (rs : list FRaw) : nat := list_sum (raw_weight <$> rs).
Definition tok_weight (t : Tok) : nat := match t with TFStr parts => S (raws_weight parts) | _ => 1 end.
Definition weight (toks : list Tok) : nat := list_sum (tok_weight <$> toks).

(** Only letters, digits and spaces of ASCII, and no floats. *)
#[local] Instance ascii_chars : PyChars := {|
  alphabetic c := ((65 <=? c) && (c <=? 90)) || ((97 <=? c) && (c <=? 122));
  numeric := is_digit;
  whitespace c := (c =? 32) || ((9 <=? c) && (c <=? 13));
  parse_f64 _ := None
|}.

(** ** Printing *)

Fixpoint commas (xs : list (list Tok)) : list Tok :=
  match xs with
  | [] => []
  | [x] => x
  | x :: xs => x ++ TComma :: commas xs
  end.

Definition op_tok (op : BinOp) : Tok :=
  match op with
  | Add => TPlus | Sub => TMinus | Mul => TStar | Div => TSlash | Eq => TEqEq | Ne => TNotEq | Lt => TLt | Le => TLe
  | Gt => TGt | Ge => TGe | In => TIn | And => TAnd | Or => TOr
  end.

Definition parens (ts : list Tok) : list Tok := TLParen :: ts ++ [TRParen].

(** The tokens of an expression, with parentheses around every compound. *)
Fixpoint print (e : PyExpr) : list Tok :=
  match e with
  | PInt n => [TInt n]
  | PFloat f => [TFloat f]
  | PStr s => [TStr s]
  | PFStr parts => [TFStr ((fun p => match p with PLit s => RawLit s | PHole _ => RawHole [] end) <$> parts)]
  | PBool b => [if b then TTrue else TFalse]
  | PNone => [TNone]
  | PName n => [TIdent n]
  | PLambda p body => parens (TLambda :: TIdent p :: TColon :: print body)
  | PCall f args => parens (print f ++ TLParen :: commas (map print args) ++ [TRParen])
  | PDeriv kvs =>
      parens (TIdent (chars "derivation") :: TLParen :: commas (map (fun kv => TIdent kv.1 :: TAssign :: print kv.2) kvs) ++ [TRParen])
  | PBinOp op l r => parens (print l ++ op_tok op :: print r)
  | PNeg e => parens (TMinus :: print e)
  | PNot e => parens (TNot :: print e)
  | PIfExp c t e => parens (print t ++ TIf :: print c ++ TElse :: print e)
  | PList xs => TLBracket :: commas (map print xs) ++ [TRBracket]
  | PDict kvs => TLBrace :: commas (map (fun kv => print kv.1 ++ TColon :: print kv.2) kvs) ++ [TRBrace]
  | PIndex e k => parens (print e ++ TLBracket :: print k ++ [TRBracket])
  | PAttr e n => parens (print e ++ [TDot; TIdent n])
  end.

(** No holes, whose source is text, and no call of [derivation], which takes keyword arguments only. *)
Fixpoint printable (e : PyExpr) : bool :=
  match e with
  | PInt _ | PFloat _ | PStr _ | PBool _ | PNone | PName _ => true
  | PFStr parts => forallb (fun p => match p with PLit _ => true | PHole _ => false end) parts
  | PLambda _ e | PNeg e | PNot e | PAttr e _ => printable e
  | PCall f args =>
      negb (match f with PName n => bool_decide (n = chars "derivation") | _ => false end) && printable f && forallb printable args
  | PDeriv kvs => forallb (fun kv => printable kv.2) kvs
  | PBinOp _ a b | PIndex a b => printable a && printable b
  | PIfExp a b c => printable a && printable b && printable c
  | PList xs => forallb printable xs
  | PDict kvs => forallb (fun kv => printable kv.1 && printable kv.2) kvs
  end.

(** [rest] is shorter and lighter than [toks], or the same. *)
Definition shorter (rest toks : list Tok) : Prop := (length rest < length toks /\ weight rest < weight toks)%nat.
Definition no_longer (rest toks : list Tok) : Prop := (length rest <= length toks /\ weight rest <= weight toks)%nat.

(** [p] ends on tokens of weight at most [n] and takes one or more. *)
Definition eats {A} (n : nat) (p : parser A) : Prop :=
  forall toks, (weight toks <= n)%nat -> settled (fun r => shorter r.2 toks) (p toks).

(** * Lemmas *)

(** ** The lexer *)

Lemma span_length p cs : (length (span p cs).2 <= length cs)%nat.
Proof. induction cs as [|c cs IH]; [done|]. cbn. destruct (p c); [|done]. destruct (span p cs). cbn in *. lia. Qed.

Lemma tail_shorter (cs : str) : (length (tail cs) <= length cs)%nat.
Proof. destruct cs; cbn; lia. Qed.

Lemma span_shorter p c cs : p c = true -> (length (span p (c :: cs)).2 < S (length cs))%nat.
Proof. intros Hp. cbn. rewrite Hp. pose proof (span_length p cs). destruct (span p cs). cbn in *. lia. Qed.

Lemma unescape_settled c : settled (fun _ => True) (unescape c).
Proof. unfold unescape. repeat case_match; done. Qed.

Lemma lex_string_settled q n : forall cs s, (length cs <= n)%nat ->
  settled (fun r => (length r.2 < length cs)%nat) (lex_string q cs s).
Proof.
  induction n as [|n IH]; intros [|c cs] s Hn; cbn [lex_string length] in *; try done; [lia|].
  case_match; [cbn; lia|]. case_match.
  - destruct cs as [|next cs]; [done|]. eapply settled_bind; [apply unescape_settled|]. intros c' _.
    eapply settled_weaken; [apply IH; cbn in Hn; lia|]. cbn. lia.
  - eapply settled_weaken; [apply IH; lia|]. cbn. lia.
Qed.

Section Lex.
Context `{PyChars}.

Lemma lex_hole_settled fuel : forall cs depth s, (length cs < fuel)%nat ->
  settled (fun r => (length r.1 + length r.2 < length s + length cs)%nat) (lex_hole fuel cs depth s).
Proof.
  induction fuel as [|fuel IH]; intros [|c rest] depth s Hf; cbn [lex_hole length] in *; try lia; [done|].
  assert (forall depth, settled (fun r => (length r.1 + length r.2 < length s + S (length rest))%nat) (lex_hole fuel rest depth (s ++ [c]))) as Hc.
  { intros d. eapply settled_weaken; [apply IH; lia|]. rewrite length_app. cbn. lia. }
  case_match; [case_match; [done|cbn; lia]|]. case_match; [done|]. case_match; [done|]. case_match; [|done].
  eapply settled_bind; [by apply (lex_string_settled c (length rest))|]. intros [s' next] Hn. cbn in Hn.
  eapply settled_weaken; [apply IH; lia|]. intros [r1 r2]. cbn [fst snd]. unfold consumed. rewrite length_app, length_take. cbn [length]. lia.
Qed.

Lemma raws_weight_app a b : raws_weight (a ++ b) = (raws_weight a + raws_weight b)%nat.
Proof. unfold raws_weight. by rewrite fmap_app, list_sum_app. Qed.

Lemma flush_weight lit parts : raws_weight (flush lit parts) = raws_weight parts.
Proof. destruct lit; [done|]. cbn [flush]. rewrite raws_weight_app. cbn. lia. Qed.

Lemma lex_fstring_settled fuel : forall q cs parts lit, (length cs < fuel)%nat ->
  settled (fun r => (raws_weight r.1 + length r.2 < raws_weight parts + length cs)%nat) (lex_fstring fuel q cs parts lit).
Proof.
  induction fuel as [|fuel IH]; intros q [|c rest] parts lit Hf; cbn [lex_fstring length] in *; try lia; [done|].
  assert (forall rest' lit, (length rest' <= length rest)%nat ->
    settled (fun r => (raws_weight r.1 + length r.2 < raws_weight parts + S (length rest))%nat) (lex_fstring fuel q rest' parts lit)) as Hc.
  { intros r l Hr. eapply settled_weaken; [apply IH; lia|]. cbn. lia. }
  pose proof (tail_shorter rest) as Ht.
  case_match; [cbn [settled fst snd]; rewrite flush_weight; lia|]. case_match; [apply Hc; lia|]. case_match; [apply Hc; lia|].
  case_match; [done|]. case_match.
  - eapply settled_bind; [apply lex_hole_settled; lia|]. intros [src next] Hn. cbn in Hn.
    eapply settled_weaken; [apply IH; lia|]. intros r. rewrite raws_weight_app, flush_weight. cbn in *. lia.
  - case_match; [|apply Hc; lia]. destruct rest as [|e rest]; [done|]. eapply settled_bind; [apply unescape_settled|].
    intros c' _. apply Hc. cbn. lia.
Qed.

Lemma weight_app a b : weight (a ++ b) = (weight a + weight b)%nat.
Proof. unfold weight. by rewrite fmap_app, list_sum_app. Qed.

Lemma newline_weight out : (weight (newline out) <= weight out + 1)%nat.
Proof. unfold newline. repeat case_match; try rewrite weight_app; cbn; lia. Qed.

Lemma symbol_weight c rest t next : symbol c rest = Some (t, next) -> tok_weight t = 1%nat /\ (length next <= length rest)%nat.
Proof.
  unfold symbol. pose proof (tail_shorter rest). intros Hs. repeat case_match; simplify_eq; cbn [tok_weight]; split; try done; lia.
Qed.

Lemma lex_number_settled c rest : is_digit c || (c =? 46) = true ->
  settled (fun r => tok_weight r.1 = 1%nat /\ (length r.2 < S (length rest))%nat) (lex_number (c :: rest)).
Proof.
  intros Hc. unfold lex_number. pose proof (span_shorter (fun c => is_digit c || (c =? 46)) c rest Hc) as Hs. destruct (span _ (c :: rest)) as [text next].
  unfold ok_or. repeat case_match; cbn; done.
Qed.

Lemma keyword_weight w : tok_weight (default (TIdent w) (keyword w)) = 1%nat.
Proof.
  unfold keyword. destruct (find _ keywords) as [kv|] eqn:E; [|done]. apply find_some in E as [E _]. cbn in E.
  repeat destruct E as [<-|E]; done.
Qed.

Lemma lex_from_settled fuel : forall cs out, (length cs < fuel)%nat ->
  settled (fun toks => (weight toks <= weight out + length cs)%nat) (lex_from fuel cs out).
Proof.
  induction fuel as [|fuel IH]; intros [|c rest] out Hf; cbn [lex_from length] in *; try lia; [cbn; lia|].
  assert (forall cs' out', (length cs' <= length rest)%nat -> (weight out' + length cs' <= weight out + S (length rest))%nat ->
    settled (fun toks => (weight toks <= weight out + S (length rest))%nat) (lex_from fuel cs' out')) as Hs.
  { intros cs' out' H1 H2. eapply settled_weaken; [apply IH; lia|]. cbn. lia. }
  assert (forall cs' t, (length cs' < S (length rest))%nat -> (tok_weight t + length cs' <= S (length rest))%nat ->
    settled (fun toks => (weight toks <= weight out + S (length rest))%nat) (lex_from fuel cs' (out ++ [t]))) as Ht.
  { intros cs' t H1 H2. apply Hs; [lia|]. rewrite weight_app. cbn. lia. }
  case_match; [apply Hs; lia|]. destruct (Z.eqb_spec c 35) as [->|_].
  { pose proof (span_shorter (fun c => negb (c =? 10)) 35 rest eq_refl) as Hsp. destruct (span _ (35 :: rest)) as [a b]. cbn in Hsp. apply Hs; cbn; lia. }
  case_match; [pose proof (newline_weight out); apply Hs; lia|]. pose proof (tail_shorter rest) as Htl. case_match.
  - eapply settled_bind; [apply (lex_fstring_settled fuel); lia|]. intros [parts next] Hn. change (raws_weight []) with 0%nat in Hn. cbn [fst snd] in Hn.
    apply Ht; cbn [tok_weight]; lia.
  - case_match.
    + eapply settled_bind; [by apply (lex_string_settled c (length rest))|]. intros [s next] Hn. cbn in Hn. apply Ht; cbn; lia.
    + destruct (symbol c rest) as [[t next]|] eqn:Hsy; [apply symbol_weight in Hsy as [Hw Hl]; apply Ht; lia|].
      case_match.
      * eapply settled_bind; [apply lex_number_settled|intros [t next] [Hw Hl]; cbn [fst snd] in *; apply Ht; lia].
        destruct (is_digit c); [done|]. by destruct (c =? 46).
      * case_match; [|done]. assert (ident_char c = true) as Hi by (unfold ident_char; destruct (alphabetic c), (numeric c); done).
        pose proof (span_shorter ident_char c rest Hi) as Hl. unfold lex_ident.
        destruct (span ident_char (c :: rest)) as [w next]. cbn in Hl. apply Ht; rewrite ?keyword_weight; lia.
Qed.

Lemma lex_settled src : settled (fun toks => (weight toks <= length src)%nat) (lex src).
Proof. eapply settled_weaken; [apply lex_from_settled; lia|]. cbn. done. Qed.
End Lex.

(** ** The parser *)

Lemma weight_cons t toks : weight (t :: toks) = (tok_weight t + weight toks)%nat.
Proof. done. Qed.

Lemma tok_weight_pos t : (1 <= tok_weight t)%nat.
Proof. destruct t; cbn; lia. Qed.

Lemma weight_length toks : (length toks <= weight toks)%nat.
Proof. induction toks as [|t toks IH]; [done|]. rewrite weight_cons. pose proof (tok_weight_pos t). cbn. lia. Qed.

(** Unfolds the measures and closes a goal about them. *)
Ltac weigh :=
  unfold shorter, no_longer in *; cbn [fst snd] in *;
  repeat match goal with |- context [weight (?t :: _)] => rewrite (weight_cons t) | H : context [weight (?t :: _)] |- _ => rewrite (weight_cons t) in H end;
  repeat match goal with H : context [tok_weight ?t] |- _ => lazymatch goal with _ : (1 <= tok_weight t)%nat |- _ => fail | _ => pose proof (tok_weight_pos t) end
    | |- context [tok_weight ?t] => lazymatch goal with _ : (1 <= tok_weight t)%nat |- _ => fail | _ => pose proof (tok_weight_pos t) end end;
  cbn [length tok_weight] in *; lia.

(** One call of a parser that ends by [H]. *)
Ltac step_with H :=
  eapply settled_bind; [first [eapply H|apply H]; try weigh|cbv beta; intros ? ?;
    repeat match goal with r : (_ * _)%type |- _ => let x := fresh "x" in let rest := fresh "rest" in destruct r as [x rest] end; cbn [fst snd] in *].

Lemma expect_settled t toks : settled (fun rest => shorter rest toks) (expect t toks).
Proof. destruct toks as [|t' rest]; cbn [expect]; [done|]. case_match; [|done]. cbn [settled]. weigh. Qed.

Lemma ident_settled toks : settled (fun r => shorter r.2 toks) (ident toks).
Proof. unfold ident. repeat case_match; try done. cbn [settled snd]. weigh. Qed.

Lemma params_settled toks : settled (fun r => no_longer r.2 toks) (params_loop toks).
Proof.
  assert (forall k toks, (length toks <= k)%nat -> settled (fun r => no_longer r.2 toks) (params_loop toks)) as H; [|by eapply H].
  induction k as [|k IH]; intros [|t toks'] Hk; cbn [length] in *; try lia; try (cbn; weigh).
  destruct t; try (cbn; weigh). destruct toks' as [|t rest]; [done|]. destruct t; try done. cbn [params_loop].
  step_with IH. cbn. weigh.
Qed.

Section Loops.
Context (n : nat).

Lemma infix_loop_eats op p : eats n p -> forall fuel lhs toks, (length toks < fuel)%nat -> (weight toks <= n)%nat ->
  settled (fun r => no_longer r.2 toks) (infix_loop fuel op p lhs toks).
Proof.
  intros Hp fuel. induction fuel as [|fuel IH]; intros lhs toks Hf Hn; [lia|]. cbn [infix_loop].
  destruct toks as [|t rest]; [cbn; weigh|]. case_match; [|cbn; weigh].
  step_with Hp. eapply settled_weaken; [apply IH; weigh|]. intros r Hr. weigh.
Qed.

Lemma infix_eats op p : eats n p -> eats n (infix op p).
Proof.
  intros Hp toks Hn. unfold infix. step_with Hp.
  eapply settled_weaken; [apply infix_loop_eats; [done|lia|weigh]|]. intros r Hr. weigh.
Qed.

Lemma items_loop_eats {A} (p : parser A) : eats n p -> forall fuel toks, (length toks < fuel)%nat -> (weight toks <= n)%nat ->
  settled (fun r => shorter r.2 toks) (items_loop fuel p toks).
Proof.
  intros Hp fuel. induction fuel as [|fuel IH]; intros toks Hf Hn; [lia|]. cbn [items_loop]. step_with Hp.
  destruct rest as [|t rest]; [done|]. destruct t; try done. step_with IH. cbn. weigh.
Qed.

Lemma items_eats {A} (p : parser A) close : eats n p -> eats n (items p close).
Proof.
  intros Hp toks Hn. unfold items. eapply (settled_bind (fun r => no_longer r.2 toks)).
  - case_match; [cbn; weigh|]. eapply settled_weaken; [apply items_loop_eats; [done|lia|done]|]. intros r Hr. weigh.
  - intros [xs rest] Hr. step_with expect_settled. cbn. weigh.
Qed.
End Loops.

(** The functions of a level, over [expr] and [hole] that end at [n]: they end at [S n]. *)
Section Ends.
Context (expr : parser PyExpr) (hole : list Z -> res PyError PyExpr) (n : nat).
Context (Hexpr : eats n expr) (Hhole : forall src, (length src <= n)%nat -> settled (fun _ => True) (hole src)).

Lemma kwarg_eats : eats n (kwarg expr).
Proof. intros toks Hn. unfold kwarg. step_with ident_settled. step_with expect_settled. step_with Hexpr. cbn. weigh. Qed.

Lemma dict_pair_eats : eats n (dict_pair expr).
Proof. intros toks Hn. unfold dict_pair. step_with Hexpr. step_with expect_settled. step_with Hexpr. cbn. weigh. Qed.

Lemma finish_call_eats callee : eats (S n) (finish_call expr callee).
Proof.
  intros toks Hn. unfold finish_call, kwargs. step_with expect_settled. case_match.
  - step_with (items_eats n (kwarg expr) TRParen kwarg_eats). cbn. weigh.
  - step_with (items_eats n expr TRParen Hexpr). cbn. weigh.
Qed.

Lemma lambda_tail_eats : eats n (lambda_tail expr).
Proof.
  intros toks Hn. unfold lambda_tail. step_with ident_settled. step_with params_settled. step_with expect_settled.
  step_with Hexpr. cbn. weigh.
Qed.

Lemma fstring_settled raw : (raws_weight raw <= n)%nat -> settled (fun _ => True) (fstring hole raw).
Proof.
  induction raw as [|r raw IH]; intros Hn; [done|]. change (raws_weight (r :: raw)) with (raw_weight r + raws_weight raw)%nat in Hn.
  destruct r as [s|src]; cbn [fstring raw_weight] in *.
  - eapply settled_bind; [apply IH; lia|done].
  - eapply settled_bind; [apply Hhole; lia|]. intros e _. eapply settled_bind; [apply IH; lia|done].
Qed.

Lemma atom_eats : eats (S n) (atom expr hole).
Proof.
  intros toks Hn. destruct toks as [|t rest]; [done|]. destruct t; cbn [atom]; try (cbn; weigh); try done.
  - eapply settled_bind; [apply fstring_settled; weigh|]. intros parts' _. cbn. weigh.
  - eapply settled_weaken; [apply lambda_tail_eats; weigh|]. intros r Hr. weigh.
  - step_with Hexpr. step_with expect_settled. cbn. weigh.
  - unfold list_tail. step_with (items_eats n expr TRBracket Hexpr). cbn. weigh.
  - unfold dict_tail. step_with (items_eats n (dict_pair expr) TRBrace dict_pair_eats). cbn. weigh.
Qed.

Lemma postfix_loop_eats fuel : forall e toks, (length toks < fuel)%nat -> (weight toks <= S n)%nat ->
  settled (fun r => no_longer r.2 toks) (postfix_loop expr fuel e toks).
Proof.
  induction fuel as [|fuel IH]; intros e toks Hf Hn; [lia|].
  assert (forall e rest, shorter rest toks -> settled (fun r => no_longer r.2 toks) (postfix_loop expr fuel e rest)) as Hg.
  { intros e' rest Hr. eapply settled_weaken; [apply IH; weigh|]. intros r Hr'. weigh. }
  cbn [postfix_loop]. destruct toks as [|t rest]; [cbn; weigh|]. destruct t; try (cbn; weigh).
  - step_with ident_settled. apply Hg. weigh.
  - step_with finish_call_eats. apply Hg. weigh.
  - step_with Hexpr. step_with expect_settled. apply Hg. weigh.
Qed.

Lemma postfix_eats : eats (S n) (postfix expr hole).
Proof.
  intros toks Hn. unfold postfix. step_with atom_eats.
  eapply settled_weaken; [apply postfix_loop_eats; [lia|weigh]|]. intros r Hr. weigh.
Qed.

Lemma unary_eats : eats (S n) (unary expr hole).
Proof.
  intros toks. induction toks as [|t rest IH]; intros Hn; [by apply postfix_eats|].
  destruct t; try (by apply postfix_eats). cbn [unary]. step_with IH. cbn. weigh.
Qed.

Lemma mul_eats : eats (S n) (mul expr hole).
Proof. apply infix_eats, unary_eats. Qed.
Lemma add_eats : eats (S n) (add expr hole).
Proof. apply infix_eats, mul_eats. Qed.

Lemma compare_loop_eats fuel : forall toks, (length toks < fuel)%nat -> (weight toks <= S n)%nat ->
  settled (fun r => no_longer r.2 toks) (compare_loop expr hole fuel toks).
Proof.
  induction fuel as [|fuel IH]; intros toks Hf Hn; [lia|]. cbn [compare_loop].
  destruct toks as [|t rest]; [cbn; weigh|]. case_match; [|cbn; weigh]. step_with add_eats. step_with IH. cbn. weigh.
Qed.

Lemma compare_eats : eats (S n) (compare expr hole).
Proof. intros toks Hn. unfold compare. step_with add_eats. step_with compare_loop_eats. cbn. weigh. Qed.

Lemma not_expr_eats : eats (S n) (not_expr expr hole).
Proof.
  intros toks. induction toks as [|t rest IH]; intros Hn; [by apply compare_eats|].
  destruct t; try (by apply compare_eats). cbn [not_expr]. step_with IH. cbn. weigh.
Qed.

Lemma or_expr_eats : eats (S n) (or_expr expr hole).
Proof. apply infix_eats, infix_eats, not_expr_eats. Qed.

Lemma ternary_eats : eats (S n) (ternary expr hole).
Proof.
  intros toks Hn. unfold ternary. step_with or_expr_eats. destruct rest as [|t rest]; [done|]. destruct t; try done.
  step_with or_expr_eats. step_with expect_settled. step_with Hexpr. cbn. weigh.
Qed.

Lemma statement_eats : eats n (statement expr).
Proof.
  intros toks Hn. unfold statement.
  assert (settled (fun r : PyStmt * list Tok => shorter r.2 toks) ('(e, rest) ← expr toks; Ok (SExpr e, rest))) as He.
  { step_with Hexpr. cbn. weigh. }
  destruct toks as [|t rest]; [done|]. destruct t; try done.
  - destruct rest as [|t rest]; [done|]. destruct t; try done. step_with Hexpr. cbn. weigh.
  - unfold def_stmt. do 2 (first [step_with expect_settled|step_with ident_settled]).
    do 5 (first [step_with expect_settled|step_with ident_settled]). step_with Hexpr. cbn. weigh.
Qed.

Lemma skip_newlines_weight toks : no_longer (skip_newlines toks) toks.
Proof. induction toks as [|t rest IH]; [cbn; weigh|]. destruct t; cbn [skip_newlines]; weigh. Qed.

Lemma statements_settled fuel : forall toks, (length toks < fuel)%nat -> (weight toks <= n)%nat ->
  settled (fun _ => True) (statements expr fuel toks).
Proof.
  induction fuel as [|fuel IH]; intros toks Hf Hn; [lia|]. destruct toks as [|t rest]; [done|]. cbn [statements].
  step_with statement_eats. eapply settled_bind; [apply IH|done]; pose proof (skip_newlines_weight rest0); weigh.
Qed.

Lemma module_of_settled `{PyChars} src : (length src <= n)%nat -> settled (fun _ => True) (module_of expr src).
Proof.
  intros Hn. unfold module_of. eapply settled_bind; [apply lex_settled|]. intros toks Ht. cbn beta in Ht.
  eapply settled_bind; [apply statements_settled; [lia|pose proof (skip_newlines_weight toks); weigh]|].
  intros ss _. by destruct ss.
Qed.
End Ends.

Section Total.
Context `{PyChars}.

Lemma expr_eats n : eats n (expr (S n)).
Proof.
  induction n as [|n IH]; intros toks Hn.
  - destruct toks as [|t rest]; [done|]. exfalso. weigh.
  - cbn [expr]. apply (ternary_eats _ _ n); [exact IH| |done].
    intros src Hs. unfold parse_hole. eapply settled_bind; [by apply (module_of_settled _ n)|].
    intros ss _. by repeat case_match.
Qed.
End Total.

(** ** Reading what is printed *)

(** How tightly a token that follows an expression would bind to it. *)
Definition prec (t : Tok) : nat :=
  match t with
  | TLParen | TLBracket | TDot => 7
  | TStar | TSlash => 6
  | TPlus | TMinus => 5
  | TEqEq | TNotEq | TLt | TLe | TGt | TGe | TIn => 4
  | TAnd => 3
  | TOr => 2
  | TIf => 1
  | _ => 0
  end.

Definition below (k : nat) (rest : list Tok) : Prop := match rest with [] => True | t :: _ => (prec t < k)%nat end.

(** [p] reads [e] from [ts] when what follows binds less than [k]. *)
Definition reads {A} (k : nat) (p : parser A) (ts : list Tok) (e : A) : Prop :=
  forall rest, below k rest -> p (ts ++ rest) = Ok (e, rest).

Lemma reads_mono {A} j k (p : parser A) ts e : (j <= k)%nat -> reads k p ts e -> reads j p ts e.
Proof. intros Hj H rest Hr. apply H. destruct rest; cbn in *; [done|lia]. Qed.

(** A token that an operand starts with. *)
Definition opens (t : Tok) : bool :=
  match t with
  | TInt _ | TFloat _ | TStr _ | TFStr _ | TIdent _ | TTrue | TFalse | TNone | TLParen | TLBracket | TLBrace => true
  | _ => false
  end.

Definition starts (ts : list Tok) : Prop := exists t r, ts = t :: r /\ opens t = true.

Lemma print_starts e : starts (print e).
Proof. destruct e; try (by do 2 eexists). destruct b; by do 2 eexists. Qed.

Lemma starts_app ts r : starts ts -> starts (ts ++ r).
Proof. intros (t & r' & -> & H). by exists t, (r' ++ r). Qed.

Lemma expect_cons t rest : expect t (t :: rest) = Ok rest.
Proof. cbn. by rewrite bool_decide_eq_true_2. Qed.

(** [op] has the operators of precedence [k]. *)
Definition ops_at (k : nat) (op : Tok -> option BinOp) : Prop := forall t o, op t = Some o -> prec t = k.

Lemma loop_stops k op p fuel lhs rest : ops_at k op -> below k rest -> infix_loop (S fuel) op p lhs rest = Ok (lhs, rest).
Proof.
  intros Ho Hb. destruct rest as [|t r]; [done|]. cbn in *. destruct (op t) as [o|] eqn:E; [|done]. apply Ho in E. lia.
Qed.

Lemma infix_keep j k op p ts e : ops_at k op -> (j <= k)%nat -> reads j p ts e -> reads j (infix op p) ts e.
Proof.
  intros Ho Hj H rest Hb. unfold infix. rewrite H by done. cbn [mbind res_bind]. eapply loop_stops; [done|].
  destruct rest; cbn in *; [done|lia].
Qed.

Lemma infix_up k op p ts e : ops_at k op -> reads (S k) p ts e -> reads k (infix op p) ts e.
Proof. intros Ho H. apply (infix_keep k k); [done..|]. eapply reads_mono, H. lia. Qed.

Lemma infix_pair k op p ta tb a b t o : ops_at k op -> op t = Some o -> reads (S k) p ta a -> reads (S k) p tb b ->
  reads k (infix op p) (ta ++ t :: tb) (PBinOp o a b).
Proof.
  intros Ho Ht Ha Hb rest Hr. unfold infix. rewrite <- app_assoc. rewrite Ha by (cbn; apply Ho in Ht; lia). cbn [mbind res_bind].
  cbn [infix_loop app]. rewrite Ht, Hb by (destruct rest; cbn in *; [done|lia]). cbn [mbind res_bind length]. by eapply loop_stops.
Qed.

Section Read.
Context (expr : parser PyExpr) (hole : list Z -> res PyError PyExpr).
Notation atom := (atom expr hole).
Notation postfix := (postfix expr hole).
Notation unary := (unary expr hole).
Notation mul := (mul expr hole).
Notation add := (add expr hole).
Notation compare := (compare expr hole).
Notation not_expr := (not_expr expr hole).
Notation and_expr := (and_expr expr hole).
Notation or_expr := (or_expr expr hole).
Notation ternary := (ternary expr hole).

Ltac at_level := intros [] ?; cbn; intros ?; simplify_eq; done.
Ltac last_token := intros [|[] ?] ?; (done || cbn in *; lia).

Lemma postfix_unary ts e : starts ts -> reads 7 postfix ts e -> reads 7 unary ts e.
Proof. intros (t & r & -> & Ht) H rest Hb. specialize (H rest Hb). by destruct t. Qed.

Lemma unary_mul ts e : reads 7 unary ts e -> reads 6 mul ts e.
Proof. apply infix_up. at_level. Qed.

Lemma mul_add ts e : reads 6 mul ts e -> reads 5 add ts e.
Proof. apply infix_up. at_level. Qed.

Lemma add_compare ts e : reads 5 add ts e -> reads 4 compare ts e.
Proof.
  intros H rest Hb. unfold PyParse.compare. rewrite H by (destruct rest; cbn in *; [done|lia]). cbn [mbind res_bind].
  revert rest Hb. last_token.
Qed.

Lemma compare_not ts e : starts ts \/ head ts = Some TMinus -> reads 4 compare ts e -> reads 4 not_expr ts e.
Proof.
  intros Hs H rest Hb. specialize (H rest Hb). destruct Hs as [(t & r & -> & Ht)|Ht]; [by destruct t|].
  destruct ts as [|t ts]; [done|]. by injection Ht as ->.
Qed.

Lemma not_and ts e : reads 4 not_expr ts e -> reads 3 and_expr ts e.
Proof. apply infix_up. at_level. Qed.

Lemma and_or ts e : reads 3 and_expr ts e -> reads 2 or_expr ts e.
Proof. apply infix_up. at_level. Qed.

Lemma or_ternary ts e : reads 2 or_expr ts e -> reads 1 ternary ts e.
Proof.
  intros H rest Hb. unfold PyParse.ternary. rewrite H by (destruct rest; cbn in *; [done|lia]). cbn [mbind res_bind].
  revert rest Hb. last_token.
Qed.

Lemma not_ternary ts e : reads 4 not_expr ts e -> reads 1 ternary ts e.
Proof. intros H. by apply or_ternary, and_or, not_and. Qed.

Lemma compare_ternary ts e : starts ts \/ head ts = Some TMinus -> reads 4 compare ts e -> reads 1 ternary ts e.
Proof. intros Hs H. by apply not_ternary, compare_not. Qed.

Lemma unary_compare ts e : reads 7 unary ts e -> reads 4 compare ts e.
Proof. intros H. by apply add_compare, mul_add, unary_mul. Qed.

(** What an atom reads, whatever follows. *)
Definition closed_form (ts : list Tok) (e : PyExpr) : Prop := starts ts /\ forall rest, atom (ts ++ rest) = Ok (e, rest).

Lemma atom_unary ts e : closed_form ts e -> reads 7 unary ts e.
Proof.
  intros [Hs H]. apply postfix_unary; [done|]. intros rest Hb. unfold PyParse.postfix. rewrite H. cbn [mbind res_bind].
  revert rest Hb. last_token.
Qed.

Lemma atom_or ts e : closed_form ts e -> reads 2 or_expr ts e.
Proof. intros H. apply and_or, not_and, compare_not; [left; apply H|]. by apply unary_compare, atom_unary. Qed.

Lemma atom_ternary ts e : closed_form ts e -> reads 1 ternary ts e.
Proof. intros H. by apply or_ternary, atom_or. Qed.

Lemma postfix_ternary ts e : starts ts -> reads 7 postfix ts e -> reads 1 ternary ts e.
Proof. intros Hs H. apply compare_ternary; [by left|]. by apply unary_compare, postfix_unary. Qed.

(** A lambda takes all that follows. *)
Lemma lambda_ternary ts e : (forall rest, below 1 rest -> atom (TLambda :: ts ++ rest) = Ok (e, rest)) -> reads 1 ternary (TLambda :: ts) e.
Proof.
  intros H. assert (reads 1 postfix (TLambda :: ts) e) as Hp.
  { intros rest Hb. unfold PyParse.postfix. cbn [app]. rewrite H by done. cbn [mbind res_bind]. revert rest Hb. last_token. }
  assert (reads 1 add (TLambda :: ts) e) as Ha.
  { apply (infix_keep 1 5); [at_level|lia|]. apply (infix_keep 1 6); [at_level|lia|exact Hp]. }
  assert (reads 1 compare (TLambda :: ts) e) as Hc.
  { intros rest Hb. unfold PyParse.compare. rewrite Ha by done. cbn [mbind res_bind]. revert rest Hb. last_token. }
  assert (reads 1 or_expr (TLambda :: ts) e) as Ho.
  { apply (infix_keep 1 2); [at_level|lia|]. apply (infix_keep 1 3); [at_level|lia|exact Hc]. }
  intros rest Hb. unfold PyParse.ternary. rewrite Ho by done. cbn [mbind res_bind]. revert rest Hb. last_token.
Qed.

(** An operator between two atoms. *)
Lemma op_ternary a b ta tb op : closed_form ta a -> closed_form tb b -> reads 1 ternary (ta ++ op_tok op :: tb) (PBinOp op a b).
Proof.
  intros Ha Hb. assert (starts (ta ++ op_tok op :: tb)) as Hs by apply starts_app, Ha.
  pose proof (atom_unary _ _ Ha) as Ua. pose proof (atom_unary _ _ Hb) as Ub.
  pose proof (unary_mul _ _ Ua) as Ma. pose proof (unary_mul _ _ Ub) as Mb.
  assert (forall o, cmp_op (op_tok op) = Some o -> reads 4 compare (ta ++ op_tok op :: tb) (PBinOp o a b)) as Hcmp.
  { intros o Ho rest Hr. pose proof (mul_add _ _ Ma) as Aa. pose proof (mul_add _ _ Mb) as Ab. unfold PyParse.compare.
    rewrite <- app_assoc, Aa by (destruct op; cbn; try done; lia). cbn [mbind res_bind compare_loop app]. rewrite Ho.
    rewrite Ab by (destruct rest; cbn in *; [done|lia]). cbn [mbind res_bind length]. revert rest Hr. last_token. }
  destruct op; try (apply compare_ternary; [by left|by apply Hcmp]).
  - apply compare_ternary, add_compare; [by left|]. apply infix_pair; [at_level|done..].
  - apply compare_ternary, add_compare; [by left|]. apply infix_pair; [at_level|done..].
  - apply compare_ternary, add_compare, mul_add; [by left|]. apply infix_pair; [at_level|done..].
  - apply compare_ternary, add_compare, mul_add; [by left|]. apply infix_pair; [at_level|done..].
  - apply or_ternary, and_or. apply infix_pair; [at_level|done|..]; (apply compare_not; [left; apply Ha || apply Hb|by apply unary_compare]).
  - apply or_ternary. apply infix_pair; [at_level|done|..]; apply not_and, compare_not; (by apply unary_compare) || (left; apply Ha || apply Hb).
Qed.
End Read.

Lemma commas_cons ts tss : tss <> [] -> commas (ts :: tss) = ts ++ TComma :: commas tss.
Proof. by destruct tss. Qed.

Lemma commas_length ts tss : ts ∈ tss -> (length ts <= length (commas tss))%nat.
Proof.
  induction tss as [|ts' tss IH]; [by intros ?%not_elem_of_nil|]. intros [->|H]%elem_of_cons.
  - destruct tss; [done|]. rewrite commas_cons by done. rewrite length_app. lia.
  - destruct tss; [by apply not_elem_of_nil in H|]. rewrite commas_cons by done. rewrite length_app. cbn [length]. specialize (IH H). lia.
Qed.

Lemma commas_count tss : Forall starts tss -> (length tss <= length (commas tss))%nat.
Proof.
  induction 1 as [|ts tss (t & r & -> & _) _ IH]; [done|]. destruct tss; [cbn; lia|]. rewrite commas_cons by done.
  rewrite length_app. cbn [length] in *. lia.
Qed.

Lemma items_loop_reads {A} (p : parser A) tss xs c rest : Forall2 (reads 1 p) tss xs -> xs <> [] -> prec c = 0%nat -> c <> TComma ->
  forall fuel, (length xs <= fuel)%nat -> items_loop fuel p (commas tss ++ c :: rest) = Ok (xs, c :: rest).
Proof.
  intros H Hx Hc Hn. induction H as [|ts x tss xs Ht H IH]; [done|]. intros [|fuel] Hf; cbn [length] in Hf; [lia|]. cbn [items_loop].
  destruct xs as [|x' xs].
  - apply Forall2_nil_inv_r in H as ->. cbn [commas]. rewrite Ht by (cbn; lia). cbn. by destruct c.
  - rewrite commas_cons by (intros ->; by apply Forall2_nil_inv_l in H). rewrite <- app_assoc. cbn [app]. rewrite Ht by (cbn; lia).
    cbn [mbind res_bind]. rewrite IH by (done || lia). done.
Qed.

Lemma items_reads {A} (p : parser A) tss xs c rest : Forall2 (reads 1 p) tss xs -> Forall starts tss -> opens c = false ->
  prec c = 0%nat -> c <> TComma -> items p c (commas tss ++ c :: rest) = Ok (xs, rest).
Proof.
  intros H Hs Ho Hc Hn. unfold items. destruct xs as [|x xs].
  - apply Forall2_nil_inv_r in H as ->. cbn [commas app head]. rewrite bool_decide_eq_true_2 by done. cbn. by rewrite bool_decide_eq_true_2.
  - rewrite bool_decide_eq_false_2.
    + rewrite (items_loop_reads p tss (x :: xs)) by (try done; pose proof (commas_count _ Hs); pose proof (Forall2_length _ _ _ H); rewrite length_app; lia).
      cbn [mbind res_bind]. by rewrite expect_cons.
    + inversion Hs as [|ts tss' (t & r & -> & Ht) Hs' E]; subst; [by apply Forall2_nil_inv_l in H|].
      destruct tss'; [|rewrite commas_cons by done]; cbn; intros ?; simplify_eq; congruence.
Qed.

Section RoundTrip.
Context `{PyChars}.

Notation closed_at n := (closed_form (expr n) (parse_hole (expr n))).

Lemma parens_closed n inner e : reads 1 (expr n) inner e -> closed_at n (parens inner) e.
Proof.
  intros Hr. split; [by do 2 eexists|]. intros rest. unfold parens. cbn [app atom]. rewrite <- app_assoc. cbn [app].
  rewrite Hr by (cbn; lia). cbn [mbind res_bind]. by rewrite expect_cons.
Qed.

(** What the induction gives for an expression inside. *)
Definition reads_back (e : PyExpr) : Prop := printable e = true -> forall n, (length (print e) <= S n)%nat -> closed_at n (print e) e.

Lemma reads_inner e n : reads_back e -> printable e = true -> (length (print e) <= n)%nat -> reads 1 (expr n) (print e) e.
Proof.
  intros He Hp Hl. destruct n as [|n].
  - destruct (print_starts e) as (t & r & E & _). rewrite E in Hl. cbn in Hl. lia.
  - cbn [expr]. by apply atom_ternary, He.
Qed.

Lemma leaf_closed n t e : opens t = true -> (forall rest, atom (expr n) (parse_hole (expr n)) (t :: rest) = Ok (e, rest)) -> closed_at n [t] e.
Proof. intros Ht H'. split; [by do 2 eexists|done]. Qed.

Lemma fstring_lits hole parts : forallb (fun p => match p with PLit _ => true | PHole _ => false end) parts = true ->
  fstring hole ((fun p => match p with PLit s => RawLit s | PHole _ => RawHole [] end) <$> parts) = Ok parts.
Proof. induction parts as [|[s|e] parts IH]; intros Hp; [done| |done]. cbn in *. by rewrite IH. Qed.

(** The items of a list of expressions. *)
Lemma args_read n es c rest : Forall reads_back es -> forallb printable es = true -> (length (commas (map print es)) <= n)%nat ->
  opens c = false -> prec c = 0%nat -> c <> TComma -> items (expr n) c (commas (map print es) ++ c :: rest) = Ok (es, rest).
Proof.
  intros He Hp Hl. apply items_reads.
  - apply Forall2_fmap_l, Forall_Forall2_diag, Forall_forall. intros e Hin. rewrite forallb_forall in Hp. rewrite Forall_forall in He.
    apply reads_inner; [by apply He|by apply Hp, list_elem_of_In|].
    etransitivity; [|exact Hl]. apply commas_length. apply list_elem_of_In, in_map, list_elem_of_In, Hin.
  - apply Forall_fmap, Forall_true. intros e. apply print_starts.
Qed.

Lemma kwargs_read n kvs rest : Forall (fun kv => reads_back kv.2) kvs -> forallb (fun kv => printable kv.2) kvs = true ->
  (length (commas (map (fun kv : list Z * PyExpr => TIdent kv.1 :: TAssign :: print kv.2) kvs)) <= n)%nat ->
  kwargs (expr n) (commas (map (fun kv => TIdent kv.1 :: TAssign :: print kv.2) kvs) ++ TRParen :: rest) = Ok (kvs, rest).
Proof.
  intros He Hp Hl. apply items_reads; [| |done..].
  - apply Forall2_fmap_l, Forall_Forall2_diag, Forall_forall. intros [k e] Hin. rewrite forallb_forall in Hp. rewrite Forall_forall in He.
    intros r Hr. cbn [fst snd app kwarg ident mbind res_bind]. unfold kwarg. cbn [ident mbind res_bind]. rewrite expect_cons. cbn [mbind res_bind].
    rewrite (reads_inner e n); [done|apply (He _ Hin)|by apply (Hp (k, e)), list_elem_of_In| |done].
    etransitivity; [|exact Hl]. etransitivity; [|apply commas_length, list_elem_of_In, in_map, list_elem_of_In, Hin]. cbn. lia.
  - apply Forall_fmap, Forall_true. intros e. by do 2 eexists.
Qed.

Lemma pairs_read n kvs rest : Forall (fun kv => reads_back kv.1 /\ reads_back kv.2) kvs ->
  forallb (fun kv => printable kv.1 && printable kv.2) kvs = true ->
  (length (commas (map (fun kv => print kv.1 ++ TColon :: print kv.2) kvs)) <= n)%nat ->
  items (dict_pair (expr n)) TRBrace (commas (map (fun kv => print kv.1 ++ TColon :: print kv.2) kvs) ++ TRBrace :: rest) = Ok (kvs, rest).
Proof.
  intros He Hp Hl. apply items_reads; [| |done..].
  - apply Forall2_fmap_l, Forall_Forall2_diag, Forall_forall. intros [k e] Hin. rewrite forallb_forall in Hp. rewrite Forall_forall in He.
    destruct (He _ Hin) as [Hk Hv]. specialize (Hp (k, e) ltac:(by apply list_elem_of_In)). apply andb_true_iff in Hp as [Pk Pv]. cbn [fst snd] in *.
    assert (length (print k ++ TColon :: print e) <= n)%nat as Hn.
    { etransitivity; [|exact Hl]. apply commas_length, list_elem_of_In. by apply (in_map (fun kv => print kv.1 ++ TColon :: print kv.2) kvs (k, e)), list_elem_of_In. }
    rewrite length_app in Hn. cbn in Hn. intros r Hr. unfold dict_pair. rewrite <- app_assoc. cbn [app].
    rewrite (reads_inner k n Hk Pk) by (cbn; lia). cbn [mbind res_bind]. rewrite expect_cons. cbn [mbind res_bind].
    rewrite (reads_inner e n Hv Pv) by (done || lia). done.
  - apply Forall_fmap, Forall_true. intros e. apply starts_app, print_starts.
Qed.

(** A compound: what is between its parentheses is read a level down. *)
Lemma compound n inner e : (length (parens inner) <= S n)%nat ->
  (forall m, n = S m -> (length inner <= m)%nat -> reads 1 (ternary (expr m) (parse_hole (expr m))) inner e) ->
  closed_at n (parens inner) e.
Proof.
  unfold parens. cbn [length]. rewrite length_app. cbn [length]. intros Hl H1. destruct n as [|m]; [lia|].
  apply parens_closed. apply (H1 m); [done|lia].
Qed.

Lemma postfix_of n a ts e t rest : starts ts -> closed_at n ts a -> prec t = 7%nat ->
  postfix_loop (expr n) (S (length (t :: rest))) a (t :: rest) = Ok e -> postfix (expr n) (parse_hole (expr n)) (ts ++ t :: rest) = Ok e.
Proof. intros Hs [_ Ha] Ht H1. unfold postfix. by rewrite Ha. Qed.

Lemma loop_ends n fuel e rest : below 7 rest -> postfix_loop (expr n) (S fuel) e rest = Ok (e, rest).
Proof. intros Hb. destruct rest as [|[] r]; (done || cbn in Hb; lia). Qed.

Lemma reads_back_call f args : reads_back f -> Forall reads_back args -> reads_back (PCall f args).
Proof.
  intros Hf Ha Hp n Hl. cbn [print printable] in *. apply andb_true_iff in Hp as [Hp Pa]. apply andb_true_iff in Hp as [Hd Pf].
  apply compound; [done|]. intros m -> Hi. rewrite length_app in Hi. cbn [length] in Hi. rewrite length_app in Hi. cbn [length] in Hi.
  apply postfix_ternary; [apply starts_app, print_starts|]. intros rest Hb. rewrite <- app_assoc. cbn [app]. rewrite <- app_assoc.
  apply (postfix_of m f); [apply print_starts|apply Hf; [done|lia]|done|]. cbn [postfix_loop app]. unfold finish_call.
  rewrite expect_cons. cbn [mbind res_bind]. apply negb_true_iff in Hd. rewrite Hd.
  rewrite args_read by (done || lia). cbn [mbind res_bind length]. by apply loop_ends.
Qed.

Lemma reads_back_deriv kvs : Forall (fun kv => reads_back kv.2) kvs -> reads_back (PDeriv kvs).
Proof.
  intros Ha Hp n Hl. cbn [print printable] in *. apply compound; [done|]. intros m -> Hi. cbn [length] in Hi. rewrite length_app in Hi.
  cbn [length] in Hi. apply postfix_ternary; [by do 2 eexists|]. intros rest Hb.
  change (postfix (expr m) (parse_hole (expr m)) ([TIdent (chars "derivation")] ++
    TLParen :: (commas (map (fun kv => TIdent kv.1 :: TAssign :: print kv.2) kvs) ++ [TRParen]) ++ rest) = Ok (PDeriv kvs, rest)).
  rewrite <- app_assoc. apply (postfix_of m (PName (chars "derivation"))); [by do 2 eexists|by apply leaf_closed|done|].
  cbn [postfix_loop app]. unfold finish_call. rewrite expect_cons. cbn [mbind res_bind]. rewrite bool_decide_eq_true_2 by done.
  rewrite kwargs_read by (done || lia). cbn [mbind res_bind length]. by apply loop_ends.
Qed.

Lemma reads_back_index e k : reads_back e -> reads_back k -> reads_back (PIndex e k).
Proof.
  intros He Hk Hp n Hl. cbn [print printable] in *. apply andb_true_iff in Hp as [Pe Pk].
  apply compound; [done|]. intros m -> Hi. rewrite length_app in Hi. cbn [length] in Hi. rewrite length_app in Hi. cbn [length] in Hi.
  apply postfix_ternary; [apply starts_app, print_starts|]. intros rest Hb. rewrite <- app_assoc. cbn [app]. rewrite <- app_assoc.
  apply (postfix_of m e); [apply print_starts|apply He; [done|lia]|done|]. cbn [postfix_loop app].
  rewrite (reads_inner k m Hk Pk) by (cbn; lia). cbn [mbind res_bind]. rewrite expect_cons. cbn [mbind res_bind length]. by apply loop_ends.
Qed.

Lemma reads_back_attr e a : reads_back e -> reads_back (PAttr e a).
Proof.
  intros He Hp n Hl. cbn [print printable] in *. apply compound; [done|]. intros m -> Hi. rewrite length_app in Hi. cbn [length] in Hi.
  apply postfix_ternary; [apply starts_app, print_starts|]. intros rest Hb. rewrite <- app_assoc. cbn [app].
  apply (postfix_of m e); [apply print_starts|apply He; [done|lia]|done|]. by apply (loop_ends m _ (PAttr e a)).
Qed.

Lemma reads_back_if c t e : reads_back c -> reads_back t -> reads_back e -> reads_back (PIfExp c t e).
Proof.
  intros Hc Ht He Hp n Hl. cbn [print printable] in *. apply andb_true_iff in Hp as [Hp Pe]. apply andb_true_iff in Hp as [Pc Pt].
  apply compound; [done|]. intros m -> Hi. rewrite length_app in Hi. cbn [length] in Hi. rewrite length_app in Hi. cbn [length] in Hi.
  intros rest Hb. unfold ternary. rewrite <- app_assoc. cbn [app]. rewrite <- app_assoc. cbn [app].
  assert (closed_at m (print t) t) as Ct by (apply Ht; [done|lia]). assert (closed_at m (print c) c) as Cc by (apply Hc; [done|lia]).
  rewrite (atom_or _ _ _ _ Ct) by (cbn; lia). cbn [mbind res_bind]. rewrite (atom_or _ _ _ _ Cc) by (cbn; lia).
  cbn [mbind res_bind]. rewrite expect_cons. cbn [mbind res_bind]. rewrite (reads_inner e m He Pe) by (done || lia). done.
Qed.

Lemma reads_back_lambda p e : reads_back e -> reads_back (PLambda p e).
Proof.
  intros He Hp n Hl. cbn [print printable] in *. apply compound; [done|]. intros m -> Hi. cbn [length] in Hi.
  apply lambda_ternary. intros rest Hb. cbn [app atom]. unfold lambda_tail. cbn [ident mbind res_bind params_loop].
  rewrite expect_cons. cbn [mbind res_bind]. rewrite (reads_inner e m He Hp) by (done || lia). done.
Qed.

Lemma reads_back_all e : reads_back e.
Proof.
  induction e using pyexpr_ind; try (intros Hp n' Hl; by apply leaf_closed).
  - intros Hp n Hl. apply leaf_closed; [done|]. intros rest. cbn [atom]. by rewrite fstring_lits.
  - intros Hp n Hl. destruct b; by apply leaf_closed.
  - by apply reads_back_lambda.
  - by apply reads_back_call.
  - by apply reads_back_deriv.
  - intros Hp n Hl. cbn [print printable] in *. apply andb_true_iff in Hp as [P1 P2]. apply compound; [done|]. intros m -> Hi.
    rewrite length_app in Hi. cbn [length] in Hi. apply op_ternary; [apply IHe1|apply IHe2]; (done || lia).
  - intros Hp n Hl. cbn [print printable] in *. apply compound; [done|]. intros m -> Hi. cbn [length] in Hi.
    apply compare_ternary; [by right|]. apply unary_compare. intros rest Hb. cbn [app unary].
    rewrite (atom_unary _ _ _ _ (IHe Hp m ltac:(lia)) rest Hb). done.
  - intros Hp n Hl. cbn [print printable] in *. apply compound; [done|]. intros m -> Hi. cbn [length] in Hi.
    apply not_ternary. intros rest Hb. cbn [app not_expr]. pose proof (IHe Hp m ltac:(lia)) as Hc.
    rewrite (compare_not _ _ (print e) e) by (done || (left; apply Hc) || by apply unary_compare, atom_unary). done.
  - by apply reads_back_if.
  - intros Hp n Hl. cbn [print printable length] in *. rewrite length_app in Hl. cbn [length] in Hl. split; [by do 2 eexists|]. intros rest.
    cbn [app atom]. rewrite <- app_assoc. unfold list_tail. cbn [app]. by rewrite args_read by (done || lia).
  - intros Hp n Hl. cbn [print printable length] in *. rewrite length_app in Hl. cbn [length] in Hl. split; [by do 2 eexists|]. intros rest.
    cbn [app atom]. rewrite <- app_assoc. unfold dict_tail. cbn [app]. by rewrite pairs_read by (done || lia).
  - by apply reads_back_index.
  - by apply reads_back_attr.
Qed.
End RoundTrip.

(** * Properties *)

(** C28: the parser ends on every source text, with statements or an error:
    the bound on the nesting of expressions and on the turns of each loop is
    never reached, whatever the text, and the holes of f-strings, whose
    source is lexed and parsed again, are covered. *)
Theorem module_total `{PyChars} (src : str) :
  (exists stmts, parse_module src = Ok stmts) \/ (exists err, parse_module src = Err err).
Proof.
  pose proof (module_of_settled (expr (S (length src))) (length src) (expr_eats _) src (le_n _)) as H1.
  unfold parse_module. destruct (module_of _ src); [left|right|done..]; by eexists.
Qed.

(** C27: the parser reads back what is printed.  A source text whose tokens are
    those of an expression with parentheses around every compound is parsed
    as that expression: calls, [derivation], indexing, attributes, the
    operators at each precedence, [if]-expressions, lambdas, lists and
    dictionaries. *)
Theorem print_parses `{PyChars} (src : str) (e : PyExpr) :
  printable e = true -> lex src = Ok (print e) -> parse_module src = Ok [SExpr e].
Proof.
  intros Hp Hl. unfold parse_module, module_of. rewrite Hl. cbn [mbind res_bind].
  pose proof (lex_settled src) as Hw. rewrite Hl in Hw. cbn [settled] in Hw. pose proof (weight_length (print e)) as Hlen.
  assert (expr (S (length src)) (print e) = Ok (e, [])) as He.
  { rewrite <- (app_nil_r (print e)) at 1. apply reads_inner; [apply reads_back_all|done|lia|done]. }
  assert (skip_newlines (print e) = print e) as ->.
  { destruct (print_starts e) as (t & r & -> & Ht). by destruct t. }
  assert (statement (expr (S (length src))) (print e) = Ok (SExpr e, [])) as Hs.
  { unfold statement. rewrite He. destruct (print_starts e) as (t & r & E & Ht). rewrite E. destruct t; try done.
    assert (r = []) as -> by (destruct e as [| | | |[]| | | | | | | | | | | | |]; by inversion E). done. }
  cbn [statements]. rewrite Hs. destruct (print_starts e) as (t & r & E & Ht). rewrite E. cbn. done.
Qed.

Lemma print_parses_witness : let e := PIfExp (PName (chars "c")) (PBinOp Mul (PInt 2) (PNeg (PName (chars "x")))) (PList [PNone; PInt 3]) in
  let src := chars "((2 * (-x)) if c else [None, 3])" in
  printable e = true /\ lex src = Ok (print e) /\ parse_module src = Ok [SExpr e].
Proof.
  assert (lex (chars "((2 * (-x)) if c else [None, 3])") =
    Ok (print (PIfExp (PName (chars "c")) (PBinOp Mul (PInt 2) (PNeg (PName (chars "x")))) (PList [PNone; PInt 3])))) as H by (vm_compute; reflexivity).
  split; [reflexivity|]. split; [exact H|]. apply print_parses; [reflexivity|exact H].
Defined.

(** Comparisons chain: the operand in the middle is in both. *)
Lemma comparisons_chain : parse_module (chars "a < b == c") =
  Ok [SExpr (PBinOp And (PBinOp Lt (PName (chars "a")) (PName (chars "b"))) (PBinOp Eq (PName (chars "b")) (PName (chars "c"))))].
Proof. vm_compute. reflexivity. Qed.

(** Two statements need no newline between them. *)
Lemma statements_side_by_side : parse_module (chars "x = 1 x") = Ok [SAssign (chars "x") (PInt 1); SExpr (PName (chars "x"))].
Proof. vm_compute. reflexivity. Qed.
