(* ===== verification/PyLower.v ===== *)
(** * Lowering Python to the core syntax ([crates/dnx-pyparse/src/lower.rs])

    [bound] is passed by value: the code inserts a parameter before it lowers
    the body of a lambda and removes it after, unless it was there before.
    Making sharing explicit has no errors of its own; it could only panic.
    Texts of errors are left out. *)
From S2P Require Import Prelude Bytes Utf8 Text Error Ast Pass1 Share NixVal PyParse.

Notation E := (Ast NixPrimVal NixPrimFun).
Notation names := (gset (list Z)) (only parsing).

Definition app2 (f a b : E) : E := AApp (AApp f a) b.
Definition true_val : E := AVal (NBool true).
Definition false_val : E := AVal (NBool false).

Definition shared {A} (r : res DnxError A) : res PyError A :=
  match r with Ok a => Ok a | Fuel => Fuel | Err _ | Panic => Panic end.

Definition lower_name (bound : gset (list Z)) (n : PyName) : E :=
  if bool_decide (n ∈ bound) then AName n else AFun (FBuiltin n).

(** The end of [lower_lambda], and of a binding of a module. *)
Definition wrap_abs (param : PyName) (body_e : E) : res PyError E :=
  wrapped ← shared (wrap_uses param (count_uses_flat body_e param) body_e);
  Ok (AAbs param wrapped).

Definition arith_prim (op : BinOp) : NixPrimFun :=
  match op with
  | Add => FAdd | Sub => FSub | Mul => FMul | Div => FDiv | Eq => FEq | Ne => FNe | Lt => FLt | Le => FLe | Gt => FGt | Ge => FGe
  | And | Or | In => FAdd
  end.

Definition is_list (e : PyExpr) : bool := match e with PList _ => true | _ => false end.

(** [lhs] and [rhs] are [l] and [r], lowered. *)
Definition lower_binop (op : BinOp) (l r : PyExpr) (lhs rhs : E) : E :=
  match op with
  | And => app2 lhs rhs false_val
  | Or => app2 lhs true_val rhs
  | In => app2 (AFun FHasAttr) rhs lhs
  | Add => if is_list l && is_list r then app2 (AName (chars "concat")) lhs rhs else app2 (AFun FAdd) lhs rhs
  | _ => app2 (AFun (arith_prim op)) lhs rhs
  end.

Section Lists.
Context (lower : PyExpr -> res PyError E).

Fixpoint lower_args (acc : E) (args : list PyExpr) : res PyError E :=
  match args with
  | [] => Ok acc
  | a :: args => x ← lower a; lower_args (AApp acc x) args
  end.

(** The items from the last to the first. *)
Fixpoint lower_list (items : list PyExpr) : res PyError E :=
  match items with
  | [] => Ok (AName (chars "nil"))
  | item :: items =>
      acc ← lower_list items;
      h ← lower item;
      Ok (app2 (AName (chars "cons")) h acc)
  end.

(** [key] gives the text of a key. *)
Fixpoint lower_attrset_from {K} (key : K -> PyName) (set : E) (kvs : list (K * PyExpr)) : res PyError E :=
  match kvs with
  | [] => Ok set
  | (k, val) :: kvs =>
      v ← lower val;
      lower_attrset_from key (AApp (app2 (AFun FInsert) set (AVal (NStr (key k)))) v) kvs
  end.
Definition lower_attrset {K} (key : K -> PyName) (kvs : list (K * PyExpr)) : res PyError E :=
  lower_attrset_from key (AFun FEmptyAttrSet) kvs.

Definition is_str (e : PyExpr) : bool := match e with PStr _ => true | _ => false end.
Definition str_of (e : PyExpr) : PyName := match e with PStr s => s | _ => [] end.

Definition lower_dict (pairs : list (PyExpr * PyExpr)) : res PyError E :=
  if forallb (fun kv => is_str kv.1) pairs then lower_attrset str_of pairs else Err PyUnsupported.

Fixpoint lower_fstring (acc : option E) (parts : list FStrPart) : res PyError E :=
  match parts with
  | [] => Ok (default (AVal (NStr [])) acc)
  | part :: parts =>
      e ← match part with
          | PLit s => Ok (AVal (NStr s))
          | PHole inner => x ← lower inner; Ok (AApp (AFun FToString2) x)
          end;
      lower_fstring (Some match acc with Some prev => app2 (AFun FAdd) prev e | None => e end) parts
  end.
End Lists.

Fixpoint lower_expr (bound : gset (list Z)) (e : PyExpr) {struct e} : res PyError E :=
  match e with
  | PInt n => Ok (AVal (NInt n))
  | PFloat f => Ok (AVal (NFloat f))
  | PStr s => Ok (AVal (NStr s))
  | PFStr parts => lower_fstring (lower_expr bound) None parts
  | PBool b => Ok (AVal (NBool b))
  | PNone => Ok (AVal NNull)
  | PName n => Ok (lower_name bound n)
  | PLambda p body => body_e ← lower_expr ({[p]} ∪ bound) body; wrap_abs p body_e
  | PNeg e => x ← lower_expr bound e; Ok (AApp (AFun FNeg) x)
  | PNot e => b ← lower_expr bound e; Ok (app2 b false_val true_val)
  | PBinOp op l r =>
      lhs ← lower_expr bound l;
      rhs ← lower_expr bound r;
      Ok (lower_binop op l r lhs rhs)
  | PIfExp cond then_ els =>
      c ← lower_expr bound cond;
      t ← lower_expr bound then_;
      e ← lower_expr bound els;
      Ok (app2 c t e)
  | PCall f args => acc ← lower_expr bound f; lower_args (lower_expr bound) acc args
  | PDeriv kwargs =>
      set ← lower_attrset (lower_expr bound) id kwargs;
      Ok (AApp (AFun (FBuiltin (chars "derivationStrict"))) set)
  | PList items => lower_list (lower_expr bound) items
  | PDict pairs => lower_dict (lower_expr bound) pairs
  | PIndex e key =>
      set ← lower_expr bound e;
      k ← lower_expr bound key;
      Ok (app2 (AFun FSelect) set k)
  | PAttr e name => set ← lower_expr bound e; Ok (app2 (AFun FSelect) set (AVal (NStr name)))
  end.

Definition lower_lambda (bound : gset (list Z)) (param : PyName) (body : PyExpr) : res PyError E :=
  lower_expr bound (PLambda param body).

(** A statement that binds: the name and what it is bound to. *)
Definition binding (s : PyStmt) : res PyError (PyName * PyExpr) :=
  match s with
  | SAssign n v => Ok (n, v)
  | SDef n p b => Ok (n, PLambda p b)
  | SExpr _ => Err PyUnsupported
  end.

Fixpoint bindings (init : list PyStmt) : res PyError (list (list Z * PyExpr)) :=
  match init with
  | [] => Ok []
  | s :: init => b ← binding s; bs ← bindings init; Ok (b :: bs)
  end.

Fixpoint lower_bindings (bound : gset (list Z)) (bs : list (list Z * PyExpr)) : res PyError (list (list Z * E)) :=
  match bs with
  | [] => Ok []
  | (n, v) :: bs => val ← lower_expr bound v; lowered ← lower_bindings bound bs; Ok ((n, val) :: lowered)
  end.

(** The last binding is the innermost. *)
Fixpoint nest_lets (lowered : list (list Z * E)) (body : E) : res PyError E :=
  match lowered with
  | [] => Ok body
  | (n, val) :: lowered => body ← nest_lets lowered body; f ← wrap_abs n body; Ok (AApp f val)
  end.

Definition lower_module (stmts : list PyStmt) (bound : gset (list Z)) : res PyError E :=
  match last stmts with
  | None => Err PyParseError
  | Some (SExpr body_expr) =>
      bs ← bindings (take (length stmts - 1) stmts);
      let bound := list_to_set bs.*1 ∪ bound in
      lowered ← lower_bindings bound bs;
      body ← lower_expr bound body_expr;
      nest_lets lowered body
  | Some _ => Err PyUnsupported
  end.
