(* ===== verification/PyLowerSpec.v ===== *)
(** * Lowering Python keeps the meaning of names

    [meaning] reads a Python expression directly: a variable is its binder, a
    name that is not bound is a builtin, the list constructors are those of
    the prelude.  Lowering adds erasers and replicators and renames uses, and
    has the same meaning in [Share.den]. *)
From S2P Require Import Prelude Bytes Utf8 Text Error Ast Pass1 Share NixVal PyParse PyLower.

Notation tm := (dtm NixPrimVal NixPrimFun).

Definition dapp2 (f a b : tm) : tm := DApp (DApp f a) b.
Definition prelude (name : string) : tm := DVar (inr (chars name)).

Definition op_meaning (op : BinOp) (lists : bool) (a b : tm) : tm :=
  match op with
  | And => dapp2 a b (DVal (NBool false))
  | Or => dapp2 a (DVal (NBool true)) b
  | In => dapp2 (DFun FHasAttr) b a
  | Add => dapp2 (if lists then prelude "concat" else DFun FAdd) a b
  | _ => dapp2 (DFun (arith_prim op)) a b
  end.

Fixpoint meaning (ρ : gmap (list Z) (nat + list Z)) (d : nat) (bound : gset (list Z)) (e : PyExpr) {struct e} : tm :=
  match e with
  | PInt n => DVal (NInt n)
  | PFloat f => DVal (NFloat f)
  | PStr s => DVal (NStr s)
  | PFStr parts =>
      let part p := match p with PLit s => DVal (NStr s) | PHole e => DApp (DFun FToString2) (meaning ρ d bound e) end in
      match map part parts with
      | [] => DVal (NStr [])
      | m :: ms => foldl (fun acc m => dapp2 (DFun FAdd) acc m) m ms
      end
  | PBool b => DVal (NBool b)
  | PNone => DVal NNull
  | PName n => if bool_decide (n ∈ bound) then DVar (target ρ n) else DFun (FBuiltin n)
  | PLambda p e => DAbs (meaning (<[p := inl d]> ρ) (S d) ({[p]} ∪ bound) e)
  | PCall f args => foldl DApp (meaning ρ d bound f) (map (meaning ρ d bound) args)
  | PDeriv kvs =>
      DApp (DFun (FBuiltin (chars "derivationStrict")))
        (foldl (fun set kv => DApp (dapp2 (DFun FInsert) set (DVal (NStr kv.1))) kv.2) (DFun FEmptyAttrSet)
          (map (fun kv => (kv.1, meaning ρ d bound kv.2)) kvs))
  | PBinOp op l r => op_meaning op (is_list l && is_list r) (meaning ρ d bound l) (meaning ρ d bound r)
  | PNeg e => DApp (DFun FNeg) (meaning ρ d bound e)
  | PNot e => dapp2 (meaning ρ d bound e) (DVal (NBool false)) (DVal (NBool true))
  | PIfExp c t e => dapp2 (meaning ρ d bound c) (meaning ρ d bound t) (meaning ρ d bound e)
  | PList es => foldr (fun m acc => dapp2 (prelude "cons") m acc) (prelude "nil") (map (meaning ρ d bound) es)
  | PDict kvs =>
      foldl (fun set kv => DApp (dapp2 (DFun FInsert) set (DVal (NStr kv.1))) kv.2) (DFun FEmptyAttrSet)
        (map (fun kv => (str_of kv.1, meaning ρ d bound kv.2)) kvs)
  | PIndex e k => dapp2 (DFun FSelect) (meaning ρ d bound e) (meaning ρ d bound k)
  | PAttr e n => dapp2 (DFun FSelect) (meaning ρ d bound e) (DVal (NStr n))
  end.

(** A name that a program may use: it does not look like a copy and is not a
    list function of the prelude. *)
Definition own_name (n : list Z) : Prop := Share.ident n /\ n ∉ [chars "nil"; chars "cons"; chars "concat"].

(** All variables are such names, and the keys of dictionaries are literals. *)
Fixpoint lowerable (e : PyExpr) : Prop :=
  match e with
  | PInt _ | PFloat _ | PStr _ | PBool _ | PNone => True
  | PFStr parts => foldr and True (map (fun p => match p with PLit _ => True | PHole e => lowerable e end) parts)
  | PName n => own_name n
  | PLambda p e => own_name p /\ lowerable e
  | PNeg e | PNot e | PAttr e _ => lowerable e
  | PCall f args => lowerable f /\ foldr and True (map lowerable args)
  | PDeriv kvs => foldr and True (map (fun kv => lowerable kv.2) kvs)
  | PBinOp _ a b | PIndex a b => lowerable a /\ lowerable b
  | PIfExp a b c => lowerable a /\ lowerable b /\ lowerable c
  | PList es => foldr and True (map lowerable es)
  | PDict kvs => foldr and True (map (fun kv => is_str kv.1 = true /\ lowerable kv.2) kvs)
  end.

(** An upper bound on the number of names in the lowered term. *)
Fixpoint psize (e : PyExpr) : nat :=
  match e with
  | PInt _ | PFloat _ | PStr _ | PBool _ | PNone | PName _ => 1
  | PFStr parts => list_sum (map (fun p => match p with PLit _ => 0 | PHole e => psize e end) parts)
  | PLambda _ e | PNeg e | PNot e | PAttr e _ => psize e
  | PCall f args => psize f + list_sum (map psize args)
  | PDeriv kvs => list_sum (map (fun kv => psize kv.2) kvs)
  | PBinOp _ a b => S (psize a + psize b)
  | PIndex a b => psize a + psize b
  | PIfExp a b c => psize a + psize b + psize c
  | PList es => S (list_sum (map (fun e => S (psize e)) es))
  | PDict kvs => list_sum (map (fun kv => psize kv.2) kvs)
  end%nat.

(** No fixpoint, no effects. *)
Fixpoint plain {V F} (e : Ast V F) : Prop :=
  match e with
  | AName _ | AVal _ | AFun _ => True
  | AAbs _ e => plain e
  | AApp a b | ARep a _ _ b | AEra a b => plain a /\ plain b
  | AFix _ | APerform _ _ | AHandle _ _ => False
  end.

(** A lowered term [t] stands for [m]. *)
Record lowered_to (size : nat) (m : gmap (list Z) (nat + list Z) -> nat -> tm) (t : E) : Prop := mk_lowered {
  lo_tidy : tidy t;
  lo_plain : plain t;
  lo_size : forall z, (occ t z <= size)%nat;
  lo_den : forall ρ d, (forall n, n ∈ [chars "nil"; chars "cons"; chars "concat"] -> target ρ n = inr n) -> den ρ d t = m ρ d
}.

(** * Lemmas *)

(** ** Sharing of terms without fixpoints *)

Lemma plain_count {V F} (e : Ast V F) f x : plain e -> count_uses f e x = occ e x.
Proof.
  induction e using ast_ind; cbn [plain count_uses occ]; try done.
  - intros He. case_match; auto.
  - intros [H1 H2]. auto.
  - intros [H1 H2]. rewrite IHe1 by done. destruct (_ || _); auto.
  - intros [H1 H2]. auto.
Qed.

Lemma rename_plain {V F} (e : Ast V F) from ns : forall idx e' idx', indexed_rename e from ns idx = Ok (e', idx') -> plain e -> plain e'.
Proof.
  induction e using ast_ind; cbn [indexed_rename plain]; intros idx e' idx' Hr He; try done.
  - case_match; [destruct (index _ _)|]; cbn in Hr; simplify_eq; done.
  - case_match; [by simplify_eq|]. destruct (indexed_rename e from ns idx) as [[b i]| | |] eqn:E1; cbn in Hr; simplify_eq. cbn. eauto.
  - destruct (indexed_rename e1 from ns idx) as [[b i]| | |] eqn:E1; cbn in Hr; try discriminate.
    destruct (indexed_rename e2 from ns i) as [[c j]| | |] eqn:E2; cbn in Hr; simplify_eq. destruct He. cbn. eauto.
  - destruct (indexed_rename e1 from ns idx) as [[c i]| | |] eqn:E1; cbn in Hr; try discriminate. destruct He.
    case_match; [simplify_eq; split; eauto|].
    destruct (indexed_rename e2 from ns i) as [[b' j]| | |] eqn:E2; cbn in Hr; simplify_eq. cbn. eauto.
  - destruct (indexed_rename e1 from ns idx) as [[b i]| | |] eqn:E1; cbn in Hr; try discriminate.
    destruct (indexed_rename e2 from ns i) as [[c j]| | |] eqn:E2; cbn in Hr; simplify_eq. destruct He. cbn. eauto.
  - by simplify_eq.
  - by simplify_eq.
Qed.

Lemma nest_plain {V F} ns : forall (e body r : Ast V F), nest_reps e ns body = Ok r -> plain e -> plain body -> plain r.
Proof.
  induction ns as [|a [|b more] IH]; intros e body r H He Hb; try discriminate. destruct more as [|c more].
  - by injection H as <-.
  - rewrite nest_reps_cons in H. destruct (nest_reps (AName (rest_name b)) (b :: c :: more) body) as [i| | |] eqn:Hi; try discriminate.
    injection H as <-. split; [done|]. by eapply IH.
Qed.

Lemma wrap_plain {V F} x n (body r : Ast V F) : wrap_uses x n body = Ok r -> plain body -> plain r.
Proof.
  unfold wrap_uses, build_rep_chain. intros H Hb. destruct n as [|[|n]]; [by injection H as <-|by injection H as <-|].
  cbn [Nat.leb] in H. destruct (indexed_rename body x _ 0) as [[e i]| | |] eqn:E; cbn [mbind res_bind] in H; try discriminate.
  eapply nest_plain; [exact H|done|]. by eapply rename_plain.
Qed.

(** ** Parts of a lowered term *)

Lemma tidy_app {V F} (a b : Ast V F) : tidy a -> tidy b -> tidy (AApp a b).
Proof.
  intros [A1 A2 A3] [B1 B2 B3]. split; [done| |].
  - intros n Hn. cbn. by rewrite A2, B2.
  - intros x Hx. split; auto.
Qed.

Lemma tidy_name {V F} n : Share.ident n -> tidy (AName n : Ast V F).
Proof. intros [Hn _]. split; [done| |done]. intros x Hx. cbn. by rewrite bool_decide_eq_false_2 by (intros ->; done). Qed.

Lemma lowered_leaf m t : match t with AVal _ | AFun _ => True | _ => False end -> (forall ρ d, den ρ d t = m ρ d) -> lowered_to 0 m t.
Proof. intros Ht Hd. destruct t; try done; (split; [split; done|done|cbn; lia|done]). Qed.

Lemma lowered_app i j m n a b : lowered_to i m a -> lowered_to j n b -> lowered_to (i + j) (fun ρ d => DApp (m ρ d) (n ρ d)) (AApp a b).
Proof.
  intros [A1 A2 A3 A4] [B1 B2 B3 B4]. split; [by apply tidy_app|done| |].
  - intros z. cbn. specialize (A3 z). specialize (B3 z). lia.
  - intros ρ d Hρ. cbn. by rewrite A4, B4.
Qed.

Lemma lowered_weaken i j m n t : lowered_to i m t -> (i <= j)%nat -> (forall ρ d, m ρ d = n ρ d) -> lowered_to j n t.
Proof.
  intros [A1 A2 A3 A4] Hij Hmn. split; [done..| |].
  - intros z. specialize (A3 z). lia.
  - intros ρ d Hρ. rewrite <- Hmn. by apply A4.
Qed.

Lemma wrap_abs_lowered p n m body : own_name p -> Z.of_nat n < 10 ^ 20 -> lowered_to n m body ->
  exists t, wrap_abs p body = Ok t /\ lowered_to n (fun ρ d => DAbs (m (<[p := inl d]> ρ) (S d))) t.
Proof.
  intros [Hp Hpre] Hn [A1 A2 A3 A4]. unfold wrap_abs, count_uses_flat. rewrite (plain_count body false p A2).
  destruct (wrap_uses_tidy p body Hp) as (e & He & Hl & H1 & Ho & Hz & Ha & Hd);
    [specialize (A3 p); lia|done|by apply plain_count|].
  unfold count_uses_in in He. rewrite (plain_count body true p A2) in He. rewrite He. cbn [shared mbind res_bind].
  exists (AAbs p e). split; [done|]. split; [by apply tidy_abs|by apply (wrap_plain p _ body e He)| |].
  - intros z. cbn. case_bool_decide as Hpz; [lia|]. destruct (occ e z) eqn:E; [lia|].
    rewrite <- E, Ho; [apply A3|done|]. intros Hc. by rewrite Hz in E.
  - intros ρ d Hρ. cbn. rewrite Hd. f_equal. apply A4. intros x Hx. rewrite target_insert, decide_False; [by apply Hρ|by intros ->].
Qed.

Lemma lowered_app2 i j k mf ma mb f a b : lowered_to i mf f -> lowered_to j ma a -> lowered_to k mb b ->
  lowered_to (i + j + k) (fun ρ d => dapp2 (mf ρ d) (ma ρ d) (mb ρ d)) (app2 f a b).
Proof. intros Hf Ha Hb. exact (lowered_app _ _ _ _ _ _ (lowered_app _ _ _ _ _ _ Hf Ha) Hb). Qed.

Lemma lowered_val v : lowered_to 0 (fun _ _ => DVal v) (AVal v).
Proof. by apply lowered_leaf. Qed.

Lemma lowered_fun f : lowered_to 0 (fun _ _ => DFun f) (AFun f).
Proof. by apply lowered_leaf. Qed.

Lemma no_underscore_ident (n : list Z) : 95 ∉ n -> Share.ident n.
Proof.
  intros H. split.
  - intros (x & i & Hi). apply H. destruct Hi as [->| ->]; unfold rest_name, split_name; set_solver.
  - intros (m & ->). apply H. unfold rest_name. set_solver.
Qed.

Lemma lowered_prelude (s : string) : chars s ∈ [chars "nil"; chars "cons"; chars "concat"] -> 95 ∉ chars s ->
  lowered_to 1 (fun _ _ => prelude s) (AName (chars s)).
Proof.
  intros Hin Hs. split; [by apply tidy_name, no_underscore_ident|done| |].
  - intros z. cbn. case_bool_decide; lia.
  - intros ρ d Hρ. cbn. by rewrite Hρ.
Qed.

(** What the induction gives for an expression inside. *)
Definition lowers (e : PyExpr) : Prop := forall bound, lowerable e -> Z.of_nat (psize e) < 10 ^ 20 ->
  exists t, lower_expr bound e = Ok t /\ lowered_to (psize e) (fun ρ d => meaning ρ d bound e) t.

Lemma args_lowered bound args : Forall lowers args -> forall i m acc, foldr and True (map lowerable args) ->
  Z.of_nat (list_sum (map psize args)) < 10 ^ 20 -> lowered_to i m acc ->
  exists t, lower_args (lower_expr bound) acc args = Ok t /\
    lowered_to (i + list_sum (map psize args)) (fun ρ d => foldl DApp (m ρ d) (map (meaning ρ d bound) args)) t.
Proof.
  induction 1 as [|e args He _ IH]; intros i m acc Hl Hn Ha.
  - exists acc. split; [done|]. eapply lowered_weaken; [exact Ha|cbn; lia|done].
  - destruct Hl as [Hl1 Hl2]. cbn [map list_sum foldr] in *. destruct (He bound) as (t & Ht & Hto); [done|cbn in Hn; lia|].
    cbn [lower_args]. rewrite Ht. cbn [mbind res_bind].
    destruct (IH _ _ _ Hl2 ltac:(cbn in Hn; unfold list_sum; lia) (lowered_app _ _ _ _ _ _ Ha Hto)) as (r & Hr & Hro).
    exists r. split; [done|]. eapply lowered_weaken; [exact Hro|unfold list_sum; lia|done].
Qed.

Lemma list_lowered bound es : Forall lowers es -> foldr and True (map lowerable es) ->
  Z.of_nat (S (list_sum (map (fun e => S (psize e)) es))) < 10 ^ 20 ->
  exists t, lower_list (lower_expr bound) es = Ok t /\ lowered_to (S (list_sum (map (fun e => S (psize e)) es)))
    (fun ρ d => foldr (fun m acc => dapp2 (prelude "cons") m acc) (prelude "nil") (map (meaning ρ d bound) es)) t.
Proof.
  induction 1 as [|e es He _ IH]; intros Hl Hn.
  - eexists. split; [reflexivity|]. apply (lowered_prelude "nil"); [left|vm_compute; set_solver].
  - destruct Hl as [Hl1 Hl2]. cbn [map list_sum foldr] in *. destruct (IH Hl2) as (t & Ht & Hto); [unfold list_sum; lia|].
    destruct (He bound) as (h & Hh & Hho); [done|lia|]. cbn [lower_list]. rewrite Ht, Hh. cbn [mbind res_bind].
    eexists. split; [reflexivity|]. eapply lowered_weaken.
    + eapply lowered_app2; [apply (lowered_prelude "cons"); [right; left|vm_compute; set_solver]|exact Hho|exact Hto].
    + unfold list_sum. lia.
    + done.
Qed.

Lemma attrset_lowered {K} bound (key : K -> list Z) kvs : Forall (fun kv => lowers kv.2) kvs -> forall i m set,
  foldr and True (map (fun kv => lowerable kv.2) kvs) -> Z.of_nat (list_sum (map (fun kv => psize kv.2) kvs)) < 10 ^ 20 ->
  lowered_to i m set -> exists t, lower_attrset_from (lower_expr bound) key set kvs = Ok t /\
    lowered_to (i + list_sum (map (fun kv => psize kv.2) kvs))
      (fun ρ d => foldl (fun set kv => DApp (dapp2 (DFun FInsert) set (DVal (NStr kv.1))) kv.2) (m ρ d)
        (map (fun kv => (key kv.1, meaning ρ d bound kv.2)) kvs)) t.
Proof.
  induction 1 as [|[k e] kvs He _ IH]; intros i m set Hl Hn Ha.
  - exists set. split; [done|]. eapply lowered_weaken; [exact Ha|cbn; lia|done].
  - destruct Hl as [Hl1 Hl2]. cbn [map list_sum foldr fst snd] in *. destruct (He bound) as (t & Ht & Hto); [done|cbn in Hn; lia|].
    cbn [lower_attrset_from]. rewrite Ht. cbn [mbind res_bind]. cbn [snd] in *.
    pose proof (lowered_app _ _ _ _ _ _ (lowered_app2 _ _ _ _ _ _ _ _ _ (lowered_fun FInsert) Ha (lowered_val (NStr (key k)))) Hto) as Hs.
    destruct (IH _ _ _ Hl2 ltac:(cbn in Hn; unfold list_sum; lia) Hs) as (r & Hr & Hro).
    exists r. split; [done|]. eapply lowered_weaken; [exact Hro|unfold list_sum; lia|done].
Qed.

Lemma fstring_lowered bound parts : Forall (fun p => match p with PLit _ => True | PHole e => lowers e end) parts ->
  let part ρ d p := match p with PLit s => DVal (NStr s) | PHole e => DApp (DFun FToString2) (meaning ρ d bound e) end in
  let size p := match p with PLit _ => 0%nat | PHole e => psize e end in
  foldr and True (map (fun p => match p with PLit _ => True | PHole e => lowerable e end) parts) ->
  Z.of_nat (list_sum (map size parts)) < 10 ^ 20 -> forall acc,
  match acc with
  | None => exists t, lower_fstring (lower_expr bound) None parts = Ok t /\
      lowered_to (list_sum (map size parts)) (fun ρ d => match map (part ρ d) parts with
        | [] => DVal (NStr []) | m :: ms => foldl (fun acc m => dapp2 (DFun FAdd) acc m) m ms end) t
  | Some t0 => forall i m, lowered_to i m t0 -> exists t, lower_fstring (lower_expr bound) (Some t0) parts = Ok t /\
      lowered_to (i + list_sum (map size parts)) (fun ρ d => foldl (fun acc m => dapp2 (DFun FAdd) acc m) (m ρ d) (map (part ρ d) parts)) t
  end.
Proof.
  intros H part size. induction H as [|p parts Hp _ IH]; intros Hl Hn acc.
  - destruct acc as [t0|].
    + intros i m H0. exists t0. split; [done|]. eapply lowered_weaken; [exact H0|cbn; lia|done].
    + eexists. split; [reflexivity|]. apply lowered_val.
  - destruct Hl as [Hl1 Hl2]. cbn [map list_sum foldr] in *.
    assert (exists t, (match p with PLit s => Ok (AVal (NStr s)) | PHole inner => x ← lower_expr bound inner; Ok (AApp (AFun FToString2) x) end) = Ok t
      /\ lowered_to (size p) (fun ρ d => part ρ d p) t) as (t & Ht & Hto).
    { destruct p as [s|e]; [eexists; split; [reflexivity|apply lowered_val]|]. destruct (Hp bound) as (x & -> & Hx); [done|cbn in Hn; lia|].
      eexists. split; [reflexivity|]. eapply lowered_weaken; [apply lowered_app; [apply lowered_fun|exact Hx]|done|done]. }
    specialize (IH Hl2 ltac:(unfold list_sum; lia)). destruct acc as [t0|].
    + intros i m H0. cbn [lower_fstring]. rewrite Ht. cbn [mbind res_bind].
      destruct (IH (Some (app2 (AFun FAdd) t0 t)) _ _ (lowered_app2 _ _ _ _ _ _ _ _ _ (lowered_fun FAdd) H0 Hto)) as (r & Hr & Hro).
      exists r. split; [done|]. eapply lowered_weaken; [exact Hro|unfold list_sum; lia|done].
    + cbn [lower_fstring]. rewrite Ht. cbn [mbind res_bind]. destruct (IH (Some t) _ _ Hto) as (r & Hr & Hro). exists r. split; done.
Qed.

Lemma binop_lowered op l r i j ma mb a b : lowered_to i ma a -> lowered_to j mb b ->
  lowered_to (S (i + j)) (fun ρ d => op_meaning op (is_list l && is_list r) (ma ρ d) (mb ρ d)) (lower_binop op l r a b).
Proof.
  intros Ha Hb. assert (forall f, lowered_to (S (i + j)) (fun ρ d => dapp2 (DFun f) (ma ρ d) (mb ρ d)) (app2 (AFun f) a b)) as Hf.
  { intros f. eapply lowered_weaken; [exact (lowered_app2 _ _ _ _ _ _ _ _ _ (lowered_fun f) Ha Hb)|lia|done]. }
  destruct op; cbn [lower_binop op_meaning]; try apply Hf.
  - destruct (is_list l && is_list r); [|apply Hf]. eapply lowered_weaken;
      [eapply lowered_app2; [apply (lowered_prelude "concat"); [right; right; left|vm_compute; set_solver]|exact Ha|exact Hb]|lia|done].
  - eapply lowered_weaken; [exact (lowered_app2 _ _ _ _ _ _ _ _ _ (lowered_fun FHasAttr) Hb Ha)|lia|done].
  - eapply lowered_weaken; [exact (lowered_app2 _ _ _ _ _ _ _ _ _ Ha Hb (lowered_val (NBool false)))|lia|done].
  - eapply lowered_weaken; [exact (lowered_app2 _ _ _ _ _ _ _ _ _ Ha (lowered_val (NBool true)) Hb)|lia|done].
Qed.

Lemma name_lowered bound n : own_name n -> lowered_to 1 (fun ρ d => meaning ρ d bound (PName n)) (lower_name bound n).
Proof.
  intros [Hn _]. unfold lower_name. cbn [meaning]. case_bool_decide.
  - split; [by apply tidy_name|done|intros z; cbn; case_bool_decide; lia|done].
  - eapply lowered_weaken; [apply lowered_fun|lia|done].
Qed.

Lemma dict_keys (kvs : list (PyExpr * PyExpr)) : foldr and True (map (fun kv => is_str kv.1 = true /\ lowerable kv.2) kvs) ->
  forallb (fun kv => is_str kv.1) kvs = true /\ foldr and True (map (fun kv => lowerable kv.2) kvs).
Proof. induction kvs as [|kv kvs IH]; [done|]. cbn. intros ((-> & Hl) & H). apply IH in H as [-> H]. done. Qed.

(** Lowers a part: [H] is what the induction gives for it. *)
Ltac lower_part H bound :=
  let t := fresh "t" in let Ht := fresh "Ht" in let Hto := fresh "Hto" in
  destruct (H bound) as (t & Ht & Hto); [tauto|lia|]; rewrite Ht; cbn [mbind res_bind].

Lemma lowers_all e : lowers e.
Proof.
  induction e using pyexpr_ind; intros bound Hl Hn; cbn [lower_expr lowerable psize] in *.
  - eexists. split; [reflexivity|]. eapply lowered_weaken; [apply lowered_val|lia|done].
  - eexists. split; [reflexivity|]. eapply lowered_weaken; [apply lowered_val|lia|done].
  - eexists. split; [reflexivity|]. eapply lowered_weaken; [apply lowered_val|lia|done].
  - by apply (fstring_lowered bound parts ltac:(eassumption) Hl Hn None).
  - eexists. split; [reflexivity|]. eapply lowered_weaken; [apply lowered_val|lia|done].
  - eexists. split; [reflexivity|]. eapply lowered_weaken; [apply lowered_val|lia|done].
  - eexists. split; [reflexivity|]. by apply name_lowered.
  - destruct Hl as [Hp Hl]. lower_part IHe ({[p]} ∪ bound). exact (wrap_abs_lowered p _ _ t Hp Hn Hto).
  - destruct Hl as [Hf Ha]. lower_part IHe bound. apply args_lowered; (done || lia).
  - destruct (attrset_lowered bound id kvs ltac:(eassumption) 0%nat _ (AFun FEmptyAttrSet) Hl Hn (lowered_fun _)) as (t & Ht & Hto).
    unfold lower_attrset. rewrite Ht. cbn [mbind res_bind]. eexists. split; [reflexivity|].
    exact (lowered_app 0 _ _ _ _ _ (lowered_fun _) Hto).
  - lower_part IHe1 bound. lower_part IHe2 bound. eexists. split; [reflexivity|]. by apply binop_lowered.
  - lower_part IHe bound. eexists. split; [reflexivity|]. exact (lowered_app 0 _ _ _ _ _ (lowered_fun _) Hto).
  - lower_part IHe bound. eexists. split; [reflexivity|].
    eapply lowered_weaken; [exact (lowered_app2 _ _ _ _ _ _ _ _ _ Hto (lowered_val (NBool false)) (lowered_val (NBool true)))|lia|done].
  - lower_part IHe1 bound. lower_part IHe2 bound. lower_part IHe3 bound. eexists. split; [reflexivity|]. by apply lowered_app2.
  - by apply list_lowered.
  - apply dict_keys in Hl as [Hk Hl]. unfold lower_dict. rewrite Hk.
    exact (attrset_lowered bound str_of kvs ltac:(eapply Forall_impl; [eassumption|by intros kv []]) 0%nat _ _ Hl Hn (lowered_fun _)).
  - lower_part IHe1 bound. lower_part IHe2 bound. eexists. split; [reflexivity|].
    exact (lowered_app2 0 _ _ _ _ _ _ _ _ (lowered_fun FSelect) Hto Hto0).
  - lower_part IHe bound. eexists. split; [reflexivity|].
    eapply lowered_weaken; [exact (lowered_app2 _ _ _ _ _ _ _ _ _ (lowered_fun FSelect) Hto (lowered_val (NStr n)))|lia|done].
Qed.

(** ** Modules *)

(** [let]s, the last one innermost. *)
Fixpoint lets_meaning (bound : gset (list Z)) (bs : list (list Z * PyExpr)) (e : PyExpr) (ρ : gmap (list Z) (nat + list Z)) (d : nat) : tm :=
  match bs with
  | [] => meaning ρ d bound e
  | (n, v) :: bs => DApp (DAbs (lets_meaning bound bs e (<[n := inl d]> ρ) (S d))) (meaning ρ d bound v)
  end.

Definition lets_size (bs : list (list Z * PyExpr)) (e : PyExpr) : nat := psize e + list_sum (map (fun b => psize b.2) bs).

Lemma lets_lowered bound e bs : Forall (fun b => own_name b.1 /\ lowerable b.2) bs -> lowerable e -> Z.of_nat (lets_size bs e) < 10 ^ 20 ->
  exists lowered body t, lower_bindings bound bs = Ok lowered /\ lower_expr bound e = Ok body /\ nest_lets lowered body = Ok t /\
    lowered_to (lets_size bs e) (lets_meaning bound bs e) t.
Proof.
  intros Hbs He. induction Hbs as [|[n v] bs [Hn Hv] _ IH]; intros Hz; unfold lets_size in *; cbn [map list_sum foldr fst snd] in *.
  - destruct (lowers_all e bound He) as (t & Ht & Hto); [lia|]. exists [], t, t. split; [done|]. split; [done|]. split; [done|].
    eapply lowered_weaken; [exact Hto|lia|done].
  - destruct IH as (lowered & body & t & Hl & Hb & Ht & Hto); [unfold list_sum in *; cbn in *; lia|].
    destruct (lowers_all v bound Hv) as (val & Hval & Hvo); [lia|].
    destruct (wrap_abs_lowered n (lets_size bs e) (lets_meaning bound bs e) t Hn) as (f & Hf & Hfo); [unfold lets_size, list_sum in *; cbn in Hz; lia|exact Hto|].
    exists ((n, val) :: lowered), body, (AApp f val). cbn [lower_bindings nest_lets]. rewrite Hval, Hl. cbn [mbind res_bind]. rewrite Ht.
    cbn [mbind res_bind]. rewrite Hf. split; [done|]. split; [done|]. split; [done|].
    eapply lowered_weaken; [exact (lowered_app _ _ _ _ _ _ Hfo Hvo)|unfold lets_size, list_sum; lia|done].
Qed.

Lemma bindings_length init : forall bs, bindings init = Ok bs -> length bs = length init.
Proof.
  induction init as [|s init IH]; intros bs; cbn [bindings]; [by intros [= <-]|]. destruct (binding s); try done.
  cbn. destruct (bindings init); try done. cbn. intros [= <-]. cbn. f_equal. by apply IH.
Qed.

(** * Properties *)


Lemma own_plain (n : list Z) : bool_decide (95 ∉ n) && bool_decide (n ∉ [chars "nil"; chars "cons"; chars "concat"]) = true -> own_name n.
Proof. intros [H1%bool_decide_eq_true H2%bool_decide_eq_true]%andb_true_iff. split; [by apply no_underscore_ident|done]. Qed.


(** A parameter named like a list function captures the one of a list literal:
    in [lambda nil: [1]] the empty list is the argument. *)
Lemma prelude_captured : let e := PLambda (chars "nil") (PList [PInt 1]) in
  exists t, lower_expr ∅ e = Ok t /\ den ∅ 0 t <> meaning ∅ 0 ∅ e.
Proof. eexists. split; [vm_compute; reflexivity|]. vm_compute. discriminate. Qed.

(** A key that is not a string literal is an error. *)
Lemma dict_key_unsupported bound k v : is_str k = false -> lower_expr bound (PDict [(k, v)]) = Err PyUnsupported.
Proof. intros Hk. cbn. unfold lower_dict. cbn. by rewrite Hk. Qed.
