(* ===== verification/Json.v ===== *)
(** * JSON of primitive values ([crates/dnx-prim/src/prim.rs])

    [toJSON] writes a value, [fromJSON] reads one.  The reader of the code
    works on the bytes of a string; every byte it looks at is ASCII or starts
    a character, so here it takes the characters that are left. *)
From S2P Require Import Prelude Bytes Utf8 Text Error Prim NixVal.

Definition prim_err {A} (msg : str) : res DnxError A := Err (PrimError msg).
Notation fail_with s := (prim_err (chars s)).

(** ** Writing *)

Definition json_text_char (c : Z) : list Z :=
  match c with
  | 34 => [92; 34]
  | 92 => [92; 92]
  | 10 => chars "\n"
  | 13 => chars "\r"
  | 9 => chars "\t"
  | _ => [c]
  end.

Definition json_str (s : str) (out : list Z) : list Z := out ++ [34] ++ concat (json_text_char <$> s) ++ [34].

Section Json.
Context `{Host}.

Fixpoint json_of (v : PrimValue) (out : list Z) {struct v} : res DnxError (list Z) :=
  match v with
  | PInt n => Ok (out ++ int_text n)
  | PFloat f => Ok (out ++ f_text f)
  | PBool b => Ok (out ++ if b then chars "true" else chars "false")
  | PNull => Ok (out ++ chars "null")
  | PStr s | PPath s => Ok (json_str s out)
  | PList xs =>
      out ← (fix go (first : bool) xs out :=
               match xs with
               | [] => Ok out
               | x :: xs => out ← json_of x (if first then out else out ++ [44]); go false xs out
               end) true xs (out ++ [91]);
      Ok (out ++ [93])
  | PAttrSet kvs =>
      out ← (fix go (first : bool) kvs out :=
               match kvs with
               | [] => Ok out
               | (k, x) :: kvs =>
                   out ← json_of x (json_str k (if first then out else out ++ [44]) ++ [58]);
                   go false kvs out
               end) true kvs (out ++ [123]);
      Ok (out ++ [125])
  | PClosure _ | PLambda => fail_with "toJSON: cannot serialize a function"
  end.

Definition prim_to_json (args : list PrimValue) : res DnxError PrimValue :=
  match args with
  | [v] => out ← json_of v []; Ok (PStr out)
  | _ => fail_with "toJSON: arity"
  end.

(** ** Reading *)

Fixpoint json_skip_ws (s : str) : list Z :=
  match s with
  | c :: rest => if (c =? 32) || (c =? 9) || (c =? 10) || (c =? 13) then json_skip_ws rest else s
  | [] => []
  end.

(** [s] without the prefix [lit]. *)
Fixpoint strip_prefix (lit s : str) : option (list Z) :=
  match lit, s with
  | [], _ => Some s
  | a :: lit, b :: s => if a =? b then strip_prefix lit s else None
  | _, [] => None
  end.

Definition json_parse_lit (s lit : str) (v : PrimValue) : res DnxError (PrimValue * list Z) :=
  match strip_prefix lit s with
  | Some rest => Ok (v, rest)
  | None => fail_with "fromJSON: invalid literal"
  end.

(** The characters of a number, and whether one of them makes it a float. *)
Fixpoint number_chars (s : str) : list Z * bool * list Z :=
  match s with
  | c :: rest =>
      if is_digit c || (c =? 45) || (c =? 43) then let '(t, f, rest) := number_chars rest in (c :: t, f, rest)
      else if (c =? 46) || (c =? 101) || (c =? 69) then let '(t, _, rest) := number_chars rest in (c :: t, true, rest)
      else ([], false, s)
  | [] => ([], false, [])
  end.

Definition json_parse_number (s : str) : res DnxError (PrimValue * list Z) :=
  let '(text, is_float, rest) := number_chars s in
  match (if is_float then PFloat <$> f_parse text else PInt <$> parse_int text) with
  | Some v => Ok (v, rest)
  | None => fail_with "fromJSON: invalid number"
  end.

Definition hex_digit (c : Z) : option Z :=
  if is_digit c then Some (c - 48)
  else if (97 <=? c) && (c <=? 102) then Some (c - 87)
  else if (65 <=? c) && (c <=? 70) then Some (c - 55)
  else None.

(** [u32::from_str_radix(s, 16)] of at most four characters: one [+] may come first. *)
Definition from_hex (s : str) : option Z :=
  let ds := match s with 43 :: ds => ds | _ => s end in
  foldl (fun acc c => a ← acc; d ← hex_digit c; Some (a * 16 + d)) (Some 0) ds.

(** After [\u]. *)
Definition json_parse_hex4 (s : str) : res DnxError (Z * list Z) :=
  match s with
  | a :: b :: c :: d :: rest =>
      match from_hex [a; b; c; d] with
      | Some cp => Ok (cp, rest)
      | None => fail_with "fromJSON: bad \u escape"
      end
  | _ => fail_with "fromJSON: bad \u escape"
  end.

(** What a one-character escape stands for. *)
Definition json_escape (c : Z) : option Z :=
  match c with
  | 34 => Some 34
  | 92 => Some 92
  | 47 => Some 47
  | 110 => Some 10
  | 116 => Some 9
  | 114 => Some 13
  | 98 => Some 8
  | 102 => Some 12
  | _ => None
  end.

(** After the opening quote. *)
Fixpoint json_string_from (fuel : nat) (s out : str) : res DnxError (list Z * list Z) :=
  match fuel with
  | O => Fuel
  | S fuel =>
      match s with
      | [] => fail_with "fromJSON: unterminated string"
      | c :: rest =>
          if c =? 34 then Ok (out, rest)
          else if c =? 92 then
            match rest with
            | 117 :: rest =>
                '(cp, rest) ← json_parse_hex4 rest;
                json_string_from fuel rest (out ++ [if bool_decide (scalar cp) then cp else 65533])
            | e :: rest =>
                match json_escape e with
                | Some c => json_string_from fuel rest (out ++ [c])
                | None => fail_with "fromJSON: bad escape"
                end
            | [] => fail_with "fromJSON: bad escape"
            end
          else json_string_from fuel rest (out ++ [c])
      end
  end.

(** At the opening quote. *)
Definition json_parse_string (s : str) : res DnxError (list Z * list Z) := json_string_from (length s) (tail s) [].

(** [out.iter_mut().find(...)]: the last value of a key wins, at the place of the first. *)
Fixpoint set_key (k : str) (v : PrimValue) (out : list (list Z * PrimValue)) : list (list Z * PrimValue) :=
  match out with
  | [] => [(k, v)]
  | (k', v') :: out => if bool_decide (k' = k) then (k', v) :: out else (k', v') :: set_key k v out
  end.

Section Value.
(** The values inside another one. *)
Context (value : list Z -> res DnxError (PrimValue * list Z)).

Fixpoint array_loop (fuel : nat) (s : str) (out : list PrimValue) : res DnxError (PrimValue * list Z) :=
  match fuel with
  | O => Fuel
  | S fuel =>
      '(v, s) ← value s;
      match json_skip_ws s with
      | 44 :: s => array_loop fuel s (out ++ [v])
      | 93 :: s => Ok (PList (out ++ [v]), s)
      | _ => fail_with "fromJSON: expected ',' or ']'"
      end
  end.

(** At the opening bracket. *)
Definition json_parse_array (s : str) : res DnxError (PrimValue * list Z) :=
  let s := json_skip_ws (tail s) in
  match s with
  | 93 :: s => Ok (PList [], s)
  | _ => array_loop (S (length s)) s []
  end.

Fixpoint object_loop (fuel : nat) (s : str) (out : list (list Z * PrimValue)) : res DnxError (PrimValue * list Z) :=
  match fuel with
  | O => Fuel
  | S fuel =>
      let s := json_skip_ws s in
      if negb (bool_decide (head s = Some 34)) then fail_with "fromJSON: object key must be string"
      else
        '(key, s) ← json_parse_string s;
        match json_skip_ws s with
        | 58 :: s =>
            '(val, s) ← value s;
            let out := set_key key val out in
            match json_skip_ws s with
            | 44 :: s => object_loop fuel s out
            | 125 :: s => Ok (PAttrSet (sort_by out), s)
            | _ => fail_with "fromJSON: expected ',' or '}'"
            end
        | _ => fail_with "fromJSON: expected ':'"
        end
  end.

(** At the opening brace. *)
Definition json_parse_object (s : str) : res DnxError (PrimValue * list Z) :=
  let s := json_skip_ws (tail s) in
  match s with
  | 125 :: s => Ok (PAttrSet [], s)
  | _ => object_loop (S (length s)) s []
  end.
End Value.

(** [fuel] bounds the nesting: a value inside another one starts later. *)
Fixpoint json_parse_value (fuel : nat) (s : str) : res DnxError (PrimValue * list Z) :=
  match fuel with
  | O => Fuel
  | S fuel =>
      let s := json_skip_ws s in
      match s with
      | 123 :: _ => json_parse_object (json_parse_value fuel) s
      | 91 :: _ => json_parse_array (json_parse_value fuel) s
      | 34 :: _ => '(t, rest) ← json_parse_string s; Ok (PStr t, rest)
      | 116 :: _ => json_parse_lit s (chars "true") (PBool true)
      | 102 :: _ => json_parse_lit s (chars "false") (PBool false)
      | 110 :: _ => json_parse_lit s (chars "null") PNull
      | c :: _ =>
          if (c =? 45) || is_digit c then json_parse_number s else fail_with "fromJSON: unexpected token"
      | [] => fail_with "fromJSON: unexpected token"
      end
  end.

Definition prim_from_json (args : list PrimValue) : res DnxError PrimValue :=
  match args with
  | [PStr s] =>
      '(v, rest) ← json_parse_value (S (length s)) s;
      match json_skip_ws rest with
      | [] => Ok v
      | _ => fail_with "fromJSON: trailing data"
      end
  | [_] => fail_with "fromJSON: expected string"
  | _ => fail_with "fromJSON: arity"
  end.
End Json.
