(* ===== verification/Builtins.v ===== *)
(** * The builtin functions ([crates/dnx-prim/src/prim.rs])

    Each function takes the list of its reduced arguments.  An attribute set
    is a list of bindings, kept sorted by name.  The table lists the functions
    under their names; the position of a function in [builtins] stands for
    its Rust function pointer, and [call_builtin] is what the pointer
    computes. *)
From S2P Require Import Prelude Bytes Utf8 Text Error Prim NixVal Json.

Definition check_int (r : option Z) : res DnxError PrimValue :=
  match r with Some z => Ok (PInt z) | None => fail_with "integer overflow" end.

Definition str_ltb (a b : str) : bool := negb (str_leb b a).

(** ** Strings *)

(** [s.strip_suffix('/').unwrap_or(s)]. *)
Definition strip_slash (s : str) : list Z :=
  if bool_decide (last s = Some 47) then take (length s - 1) s else s.

(** What is before and after the last slash. *)
Fixpoint split_last (s : str) : option (list Z * list Z) :=
  match s with
  | [] => None
  | c :: s =>
      match split_last s with
      | Some (a, b) => Some (c :: a, b)
      | None => if c =? 47 then Some ([], s) else None
      end
  end.

Definition base_name (s : str) : list Z :=
  let trimmed := strip_slash s in
  match split_last trimmed with
  | Some (_, name) => name
  | None => trimmed
  end.

Definition dir_name (s : str) : list Z :=
  match split_last (strip_slash s) with
  | Some ([], _) => [47]
  | Some (dir, _) => dir
  | None => [46]
  end.

(** [&s[..n]] and [&s[n..]] for a byte index, if it is between characters. *)
Fixpoint split_bytes (n : Z) (s : str) : option (list Z * list Z) :=
  if n =? 0 then Some ([], s)
  else
    match s with
    | [] => None
    | c :: s =>
        let w := Z.of_nat (length (utf8_char c)) in
        if n <? w then None else '(a, b) ← split_bytes (n - w) s; Some (c :: a, b)
    end.

Definition byte_len (s : str) : Z := Z.of_nat (length (utf8 s)).

(** The first pattern that starts [rest], with its replacement and what
    follows it.  A slice that ends inside a character panics. *)
Fixpoint first_match (pats : list (list Z * list Z)) (rest : str) : res DnxError (option (list Z * list Z * list Z)) :=
  match pats with
  | [] => Ok None
  | (pat, rep) :: pats =>
      if byte_len pat <=? byte_len rest then
        match split_bytes (byte_len pat) rest with
        | None => Panic
        | Some (s, after) => if bool_decide (s = pat) then Ok (Some (pat, rep, after)) else first_match pats rest
        end
      else first_match pats rest
  end.

(** [rest] is the text from position [p]. *)
Fixpoint replace_loop (fuel : nat) (pats : list (list Z * list Z)) (rest out : str) : res DnxError (list Z) :=
  match fuel with
  | O => Fuel
  | S fuel =>
      m ← first_match pats rest;
      match m, rest with
      | Some ([], rep, _), [] => Ok (out ++ rep)
      | Some ([], rep, _), c :: rest => replace_loop fuel pats rest (out ++ rep ++ [c])
      | Some (_, rep, after), _ => replace_loop fuel pats after (out ++ rep)
      | None, [] => Ok out
      | None, c :: rest => replace_loop fuel pats rest (out ++ [c])
      end
  end.

(** The strings of a list. *)
Fixpoint strings_of (msg : string) (l : list PrimValue) : res DnxError (list (list Z)) :=
  match l with
  | [] => Ok []
  | PStr s :: l => ss ← strings_of msg l; Ok (s :: ss)
  | _ => fail_with msg
  end.

Definition prim_replace_strings (args : list PrimValue) : res DnxError PrimValue :=
  match args with
  | [PList from; PList to_; PStr s] =>
      if negb (length from =? length to_)%nat then fail_with "replaceStrings: 'from' and 'to' must have equal length"
      else
        pats ← strings_of "replaceStrings: 'from' must hold strings" from;
        reps ← strings_of "replaceStrings: 'to' must hold strings" to_;
        out ← replace_loop (S (length s)) (zip pats reps) s [];
        Ok (PStr out)
  | [PList _; PList _; _] => fail_with "replaceStrings: third arg must be string"
  | [_; _; _] => fail_with "replaceStrings: first two args must be lists"
  | _ => fail_with "replaceStrings: arity"
  end.

Definition prim_string_length (args : list PrimValue) : res DnxError PrimValue :=
  match args with
  | [PStr s] => Ok (PInt (byte_len s))
  | _ => fail_with "stringLength: expected string"
  end.

Definition prim_substring (args : list PrimValue) : res DnxError PrimValue :=
  match args with
  | [PInt start; PInt len; PStr s] =>
      let start := Z.max start 0 in
      let len := Z.max len 0 in
      let n := Z.of_nat (length s) in
      let end_ := Z.min (Z.min (start + len) (2 ^ 64 - 1)) n in
      if n <=? start then Ok (PStr [])
      else Ok (PStr (take (Z.to_nat (end_ - start)) (drop (Z.to_nat start) s)))
  | _ => fail_with "substring: expected (int, int, string)"
  end.

Definition prim_base_name_of (args : list PrimValue) : res DnxError PrimValue :=
  match args with
  | [PStr s] | [PPath s] => Ok (PStr (base_name s))
  | [_] => fail_with "baseNameOf: expected string or path"
  | _ => fail_with "baseNameOf: arity"
  end.

Definition prim_dir_of (args : list PrimValue) : res DnxError PrimValue :=
  match args with
  | [PStr s] => Ok (PStr (dir_name s))
  | [PPath s] => Ok (PPath (dir_name s))
  | [_] => fail_with "dirOf: expected string or path"
  | _ => fail_with "dirOf: arity"
  end.

Fixpoint join_strings (sep : str) (first : bool) (parts : list PrimValue) (out : str) : res DnxError (list Z) :=
  match parts with
  | [] => Ok out
  | (PStr s | PPath s) :: parts => join_strings sep false parts ((if first then out else out ++ sep) ++ s)
  | _ => fail_with "concatStringsSep: list must hold strings"
  end.

Definition prim_concat_strings_sep (args : list PrimValue) : res DnxError PrimValue :=
  match args with
  | [PStr sep; PList parts] => out ← join_strings sep true parts []; Ok (PStr out)
  | [PStr _; _] => fail_with "concatStringsSep: second arg must be list"
  | [_; _] => fail_with "concatStringsSep: separator must be string"
  | _ => fail_with "concatStringsSep: arity"
  end.

(** ** Errors *)

Definition prim_throw (args : list PrimValue) : res DnxError PrimValue :=
  match args with
  | [PStr msg] => prim_err msg
  | [_] => fail_with "throw: expected a string"
  | _ => fail_with "throw: arity"
  end.

Definition prim_abort (args : list PrimValue) : res DnxError PrimValue :=
  match args with
  | [PStr msg] => prim_err (chars "evaluation aborted with the following error message: '" ++ msg ++ chars "'")
  | [_] => fail_with "abort: expected a string"
  | _ => fail_with "abort: arity"
  end.

Definition prim_seq (args : list PrimValue) : res DnxError PrimValue :=
  match args with [_; e2] => Ok e2 | _ => fail_with "seq: arity" end.

Definition prim_deep_seq (args : list PrimValue) : res DnxError PrimValue :=
  match args with [_; e2] => Ok e2 | _ => fail_with "deepSeq: arity" end.

(** ** Types *)

Definition prim_type_of (args : list PrimValue) : res DnxError PrimValue :=
  match args with
  | [v] =>
      Ok (PStr (chars match v with
        | PInt _ => "int" | PFloat _ => "float" | PStr _ => "string" | PPath _ => "path" | PNull => "null"
        | PBool _ => "bool" | PList _ => "list" | PAttrSet _ => "set" | PClosure _ | PLambda => "lambda"
        end))
  | _ => fail_with "type_of: arity"
  end.

(** The one-argument tests. *)
Definition prim_is (arity_msg : string) (p : PrimValue -> bool) (args : list PrimValue) : res DnxError PrimValue :=
  match args with [v] => Ok (PBool (p v)) | _ => fail_with arity_msg end.

Definition prim_is_function := prim_is "is_function: arity" (fun v => match v with PLambda | PClosure _ => true | _ => false end).
Definition prim_is_int := prim_is "is_int: arity" (fun v => match v with PInt _ => true | _ => false end).
Definition prim_is_float := prim_is "is_float: arity" (fun v => match v with PFloat _ => true | _ => false end).
Definition prim_is_string := prim_is "is_string: arity" (fun v => match v with PStr _ => true | _ => false end).
Definition prim_is_null := prim_is "is_null: arity" (fun v => match v with PNull => true | _ => false end).
Definition prim_is_list := prim_is "is_list: arity" (fun v => match v with PList _ => true | _ => false end).
Definition prim_is_attrs := prim_is "is_attrs: arity" (fun v => match v with PAttrSet _ => true | _ => false end).
Definition prim_is_bool := prim_is "is_bool: arity" (fun v => match v with PBool _ => true | _ => false end).
Definition prim_is_path := prim_is "is_path: arity" (fun v => match v with PPath _ => true | _ => false end).

(** ** Attribute sets *)

Notation attrs := (list (list Z * PrimValue)) (only parsing).

(** [set.iter().find(|(k, _)| k == key)]. *)
Definition attr_get (key : str) (set : list (list Z * PrimValue)) : option PrimValue := sm_get key set.
Definition has_key (key : str) (set : list (list Z * PrimValue)) : bool := existsb (fun kv => bool_decide (kv.1 = key)) set.

Definition attr_missing {A} (key : str) : res DnxError A := prim_err (chars "attribute '" ++ key ++ chars "' missing").

Definition prim_empty_attr_set (args : list PrimValue) : res DnxError PrimValue :=
  match args with [] => Ok (PAttrSet []) | _ => fail_with "empty_attr_set: arity" end.

Definition prim_insert (args : list PrimValue) : res DnxError PrimValue :=
  match args with
  | [PAttrSet set; PStr key; val] =>
      Ok (PAttrSet (if has_key key set then set_key key val set else sort_by (set ++ [(key, val)])))
  | [PAttrSet _; _; _] => fail_with "insert: key must be string"
  | [_; _; _] => fail_with "insert: first arg must be attrset"
  | _ => fail_with "insert: arity"
  end.

Definition prim_select (args : list PrimValue) : res DnxError PrimValue :=
  match args with
  | [PAttrSet set; PStr key] => match attr_get key set with Some v => Ok v | None => attr_missing key end
  | [PAttrSet _; _] => fail_with "select: key must be string"
  | [_; _] => fail_with "select: first arg must be attrset"
  | _ => fail_with "select: arity"
  end.

Definition prim_select_or (args : list PrimValue) : res DnxError PrimValue :=
  match args with
  | [PAttrSet set; PStr key; dflt] => Ok (default dflt (attr_get key set))
  | [PAttrSet _; _; _] => fail_with "select_or: key must be string"
  | [_; _; _] => fail_with "select_or: first arg must be attrset"
  | _ => fail_with "select_or: arity"
  end.

Definition prim_has_attr (args : list PrimValue) : res DnxError PrimValue :=
  match args with
  | [PAttrSet set; PStr key] => Ok (PBool (has_key key set))
  | [PAttrSet _; _] => fail_with "has_attr: key must be string"
  | [_; _] => fail_with "has_attr: first arg must be attrset"
  | _ => fail_with "has_attr: arity"
  end.

Definition prim_update (args : list PrimValue) : res DnxError PrimValue :=
  match args with
  | [PAttrSet a; PAttrSet b] => Ok (PAttrSet (sort_by (foldl (fun result kv => set_key kv.1 kv.2 result) a b)))
  | [PAttrSet _; _] => fail_with "update: second arg must be attrset"
  | [_; _] => fail_with "update: first arg must be attrset"
  | _ => fail_with "update: arity"
  end.

Definition prim_mk_singleton (args : list PrimValue) : res DnxError PrimValue :=
  match args with
  | [PStr key; val] => Ok (PAttrSet [(key, val)])
  | [_; _] => fail_with "mk_singleton: key must be string"
  | _ => fail_with "mk_singleton: arity"
  end.

Definition require (key : string) (set : list (list Z * PrimValue)) : res DnxError unit :=
  match attr_get (chars key) set with
  | Some (PStr _) => Ok tt
  | Some _ => prim_err (chars "derivationStrict: " ++ chars key ++ chars " must be a string")
  | None => prim_err (chars "derivationStrict: missing required attr '" ++ chars key ++ chars "'")
  end.

Definition prim_derivation_strict (args : list PrimValue) : res DnxError PrimValue :=
  match args with
  | [PAttrSet set] =>
      _ ← require "name" set;
      _ ← require "builder" set;
      Ok (PAttrSet (if has_key (chars "type") set then set
                    else sort_by (set ++ [(chars "type", PStr (chars "derivation"))])))
  | [_] => fail_with "derivationStrict: expected an attrset"
  | _ => fail_with "derivationStrict: arity"
  end.

Definition prim_attr_names (args : list PrimValue) : res DnxError PrimValue :=
  match args with
  | [PAttrSet set] => Ok (PList (map (fun kv => PStr kv.1) set))
  | [_] => fail_with "attrNames: expected attrset"
  | _ => fail_with "attrNames: arity"
  end.

Definition prim_attr_values (args : list PrimValue) : res DnxError PrimValue :=
  match args with
  | [PAttrSet set] => Ok (PList (map snd set))
  | [_] => fail_with "attrValues: expected attrset"
  | _ => fail_with "attrValues: arity"
  end.

Definition prim_get_attr (args : list PrimValue) : res DnxError PrimValue :=
  match args with
  | [PStr key; PAttrSet set] => match attr_get key set with Some v => Ok v | None => attr_missing key end
  | [PStr _; _] => fail_with "getAttr: second arg must be attrset"
  | [_; _] => fail_with "getAttr: name must be string"
  | _ => fail_with "getAttr: arity"
  end.

Definition prim_remove_attrs (args : list PrimValue) : res DnxError PrimValue :=
  match args with
  | [PAttrSet set; PList names] =>
      drop ← strings_of "removeAttrs: names must be strings" names;
      Ok (PAttrSet (List.filter (fun kv => negb (bool_decide (kv.1 ∈ drop))) set))
  | [PAttrSet _; _] => fail_with "removeAttrs: second arg must be list"
  | [_; _] => fail_with "removeAttrs: first arg must be attrset"
  | _ => fail_with "removeAttrs: arity"
  end.

Definition prim_intersect_attrs (args : list PrimValue) : res DnxError PrimValue :=
  match args with
  | [PAttrSet a; PAttrSet b] => Ok (PAttrSet (List.filter (fun kv => has_key kv.1 a) b))
  | [_; _] => fail_with "intersectAttrs: both args must be attrsets"
  | _ => fail_with "intersectAttrs: arity"
  end.

Fixpoint cat_attrs (name : str) (sets : list PrimValue) : res DnxError (list PrimValue) :=
  match sets with
  | [] => Ok []
  | PAttrSet kvs :: sets =>
      out ← cat_attrs name sets;
      Ok match attr_get name kvs with Some v => v :: out | None => out end
  | _ => fail_with "catAttrs: list must hold attrsets"
  end.

Definition prim_cat_attrs (args : list PrimValue) : res DnxError PrimValue :=
  match args with
  | [PStr name; PList sets] => out ← cat_attrs name sets; Ok (PList out)
  | [PStr _; _] => fail_with "catAttrs: second arg must be list"
  | [_; _] => fail_with "catAttrs: name must be string"
  | _ => fail_with "catAttrs: arity"
  end.

Fixpoint concat_lists (lists : list PrimValue) : res DnxError (list PrimValue) :=
  match lists with
  | [] => Ok []
  | PList xs :: lists => out ← concat_lists lists; Ok (xs ++ out)
  | _ => fail_with "concatLists: elements must be lists"
  end.

Definition prim_concat_lists (args : list PrimValue) : res DnxError PrimValue :=
  match args with
  | [PList lists] => out ← concat_lists lists; Ok (PList out)
  | [_] => fail_with "concatLists: expected a list"
  | _ => fail_with "concatLists: arity"
  end.

(** The name and the value of an item of [listToAttrs]. *)
Definition name_value (item : PrimValue) : res DnxError (list Z * PrimValue) :=
  match item with
  | PAttrSet kvs =>
      match attr_get (chars "name") kvs with
      | Some (PStr name) =>
          match attr_get (chars "value") kvs with
          | Some v => Ok (name, v)
          | None => fail_with "listToAttrs: element missing 'value'"
          end
      | Some _ => fail_with "listToAttrs: 'name' must be a string"
      | None => fail_with "listToAttrs: element missing 'name'"
      end
  | _ => fail_with "listToAttrs: elements must be attrsets"
  end.

(** The first value of a name wins. *)
Fixpoint collect_attrs (items : list PrimValue) (out : list (list Z * PrimValue)) : res DnxError (list (list Z * PrimValue)) :=
  match items with
  | [] => Ok out
  | item :: items =>
      '(name, value) ← name_value item;
      collect_attrs items (if has_key name out then out else out ++ [(name, value)])
  end.

Definition prim_list_to_attrs (args : list PrimValue) : res DnxError PrimValue :=
  match args with
  | [PList items] => out ← collect_attrs items []; Ok (PAttrSet (sort_by out))
  | [_] => fail_with "listToAttrs: expected a list"
  | _ => fail_with "listToAttrs: arity"
  end.

(** ** Numbers and comparisons *)

Section Numbers.
Context `{Host}.

(** [f] on integers, [g] on floats, integers converted when mixed. *)
Definition arith (f : Z -> Z -> option Z) (g : Z -> Z -> Z) (args : list PrimValue) : option (res DnxError PrimValue) :=
  match args with
  | [PInt a; PInt b] => Some (check_int (f a b))
  | [PFloat a; PFloat b] => Some (Ok (PFloat (g a b)))
  | [PInt a; PFloat b] => Some (Ok (PFloat (g (f_of_int a) b)))
  | [PFloat a; PInt b] => Some (Ok (PFloat (g a (f_of_int b))))
  | _ => None
  end.

Definition prim_add (args : list PrimValue) : res DnxError PrimValue :=
  match arith (fun a b => checked (a + b)) f_add args, args with
  | Some r, _ => r
  | None, [PStr a; PStr b] => Ok (PStr (a ++ b))
  | None, _ => fail_with "add: type mismatch"
  end.

Definition prim_sub (args : list PrimValue) : res DnxError PrimValue :=
  default (fail_with "sub: expected two numbers") (arith (fun a b => checked (a - b)) f_sub args).

Definition prim_mul (args : list PrimValue) : res DnxError PrimValue :=
  default (fail_with "mul: expected two numbers") (arith (fun a b => checked (a * b)) f_mul args).

Definition prim_div (args : list PrimValue) : res DnxError PrimValue :=
  match args with
  | [PInt _; PInt 0] => fail_with "div: division by zero"
  | _ => default (fail_with "div: expected two numbers") (arith (fun a b => checked (Z.quot a b)) f_div args)
  end.

Definition prim_neg (args : list PrimValue) : res DnxError PrimValue :=
  match args with
  | [PInt a] => check_int (checked (- a))
  | [PFloat a] => Ok (PFloat (f_neg a))
  | _ => fail_with "neg: expected a number"
  end.

Definition prim_bit (msg : string) (f : Z -> Z -> Z) (args : list PrimValue) : res DnxError PrimValue :=
  match args with [PInt a; PInt b] => Ok (PInt (f a b)) | _ => fail_with msg end.

Definition prim_bit_and := prim_bit "bitAnd: expected two integers" Z.land.
Definition prim_bit_or := prim_bit "bitOr: expected two integers" Z.lor.
Definition prim_bit_xor := prim_bit "bitXor: expected two integers" Z.lxor.

(** [None]: a function was met.  The first difference ends the comparison. *)
Fixpoint value_eq (a b : PrimValue) {struct a} : option bool :=
  match a, b with
  | PInt x, PInt y => Some (x =? y)
  | PFloat x, PFloat y => Some (x =? y)
  | PInt x, PFloat y | PFloat y, PInt x => Some (f_of_int x =? y)
  | PStr x, PStr y | PPath x, PPath y => Some (bool_decide (x = y))
  | PBool x, PBool y => Some (Bool.eqb x y)
  | PNull, PNull => Some true
  | PList x, PList y =>
      if (length x =? length y)%nat then
        (fix go x y :=
           match x, y with
           | xi :: x, yi :: y => match value_eq xi yi with Some true => go x y | r => r end
           | _, _ => Some true
           end) x y
      else Some false
  | PAttrSet x, PAttrSet y =>
      if (length x =? length y)%nat then
        (fix go x y :=
           match x, y with
           | (kx, vx) :: x, (ky, vy) :: y =>
               if bool_decide (kx = ky) then match value_eq vx vy with Some true => go x y | r => r end else Some false
           | _, _ => Some true
           end) x y
      else Some false
  | PLambda, _ | _, PLambda | PClosure _, _ | _, PClosure _ => None
  | _, _ => Some false
  end.

Definition prim_eq (args : list PrimValue) : res DnxError PrimValue :=
  match args with
  | [a; b] =>
      match value_eq a b with
      | Some e => Ok (PBool e)
      | None => fail_with "==: cannot compare functions for equality"
      end
  | _ => fail_with "==: expected two arguments"
  end.

Definition prim_ne (args : list PrimValue) : res DnxError PrimValue :=
  v ← prim_eq args;
  match v with PBool b => Ok (PBool (negb b)) | other => Ok other end.

Definition prim_cmp (msg : string) (ints : Z -> Z -> bool) (floats : Z -> Z -> bool) (strs : list Z -> list Z -> bool)
    (args : list PrimValue) : res DnxError PrimValue :=
  match args with
  | [PInt a; PInt b] => Ok (PBool (ints a b))
  | [PFloat a; PFloat b] => Ok (PBool (floats a b))
  | [PInt a; PFloat b] => Ok (PBool (floats (f_of_int a) b))
  | [PFloat a; PInt b] => Ok (PBool (floats a (f_of_int b)))
  | [PStr a; PStr b] => Ok (PBool (strs a b))
  | _ => fail_with msg
  end.

Definition prim_lt := prim_cmp "lt: incompatible types" Z.ltb f_lt str_ltb.
Definition prim_le := prim_cmp "le: incompatible types" Z.leb f_le str_leb.
Definition prim_gt := prim_cmp "gt: incompatible types" Z.gtb (fun a b => f_lt b a) (fun a b => str_ltb b a).
Definition prim_ge := prim_cmp "ge: incompatible types" Z.geb (fun a b => f_le b a) (fun a b => str_leb b a).

Definition prim_to_string (args : list PrimValue) : res DnxError PrimValue :=
  match args with
  | [PInt n] => Ok (PStr (int_text n))
  | [PFloat f] => Ok (PStr (f_text f))
  | [PStr s] | [PPath s] => Ok (PStr s)
  | [PBool true] => Ok (PStr [49])
  | [PBool false] | [PNull] => Ok (PStr [])
  | _ => fail_with "toString: unsupported type"
  end.

Definition prim_to_int (args : list PrimValue) : res DnxError PrimValue :=
  match args with
  | [PStr s] =>
      match parse_int (trim s) with
      | Some n => Ok (PInt n)
      | None => fail_with "toInt: invalid integer string"
      end
  | _ => fail_with "toInt: expected string"
  end.

Definition prim_to_float (args : list PrimValue) : res DnxError PrimValue :=
  match args with
  | [PFloat f] => Ok (PFloat f)
  | [PInt n] => Ok (PFloat (f_of_int n))
  | [PStr s] =>
      match f_parse (trim s) with
      | Some f => Ok (PFloat f)
      | None => fail_with "toFloat: invalid float string"
      end
  | [_] => fail_with "toFloat: expected string or number"
  | _ => fail_with "toFloat: arity"
  end.

(** ** The table *)

Notation builtin := (string * Z * (list PrimValue -> res DnxError PrimValue))%type.

Definition builtins : list (string * Z * (list PrimValue -> res DnxError PrimValue)) :=
  [("add", 2, prim_add); ("abort", 1, prim_abort); ("attr_names", 1, prim_attr_names);
   ("attr_values", 1, prim_attr_values); ("base_name_of", 1, prim_base_name_of);
   ("derivation_strict", 1, prim_derivation_strict); ("dir_of", 1, prim_dir_of); ("is_attrs", 1, prim_is_attrs);
   ("is_bool", 1, prim_is_bool); ("is_path", 1, prim_is_path); ("throw", 1, prim_throw); ("to_float", 1, prim_to_float);
   ("to_json", 1, prim_to_json); ("bit_and", 2, prim_bit_and); ("bit_or", 2, prim_bit_or); ("bit_xor", 2, prim_bit_xor);
   ("div", 2, prim_div); ("empty_attr_set", 0, prim_empty_attr_set); ("eq", 2, prim_eq); ("ge", 2, prim_ge);
   ("gt", 2, prim_gt); ("has_attr", 2, prim_has_attr); ("insert", 3, prim_insert); ("is_float", 1, prim_is_float);
   ("is_function", 1, prim_is_function); ("is_int", 1, prim_is_int); ("is_list", 1, prim_is_list);
   ("is_null", 1, prim_is_null); ("is_string", 1, prim_is_string); ("le", 2, prim_le); ("lt", 2, prim_lt);
   ("mk_singleton", 2, prim_mk_singleton); ("mul", 2, prim_mul); ("ne", 2, prim_ne); ("neg", 1, prim_neg);
   ("select", 2, prim_select); ("select_or", 3, prim_select_or); ("string_length", 1, prim_string_length);
   ("substring", 3, prim_substring); ("sub", 2, prim_sub); ("to_int", 1, prim_to_int); ("to_string", 1, prim_to_string);
   ("type_of", 1, prim_type_of); ("update", 2, prim_update); ("cat_attrs", 2, prim_cat_attrs);
   ("concat_lists", 1, prim_concat_lists); ("concat_strings_sep", 2, prim_concat_strings_sep);
   ("deep_seq", 2, prim_deep_seq); ("from_json", 1, prim_from_json); ("get_attr", 2, prim_get_attr);
   ("intersect_attrs", 2, prim_intersect_attrs); ("list_to_attrs", 1, prim_list_to_attrs);
   ("remove_attrs", 2, prim_remove_attrs); ("replace_strings", 3, prim_replace_strings); ("seq", 2, prim_seq)].

Definition call_builtin (f : nat) (args : list PrimValue) : res DnxError PrimValue :=
  match builtins !! f with Some (_, _, p) => p args | None => Panic end.

Definition nix_prim_table : PrimTable :=
  foldl (fun t ib => (register t (chars ib.2.1.1) ib.2.1.2 (Pure ib.1)).2) table_empty (imap pair builtins).
End Numbers.

(** The Nix names of builtins, with their keys. *)
Definition aliases : list (string * string) :=
  [("derivationStrict", "derivation_strict"); ("attrNames", "attr_names"); ("attrValues", "attr_values");
    ("isAttrs", "is_attrs"); ("isBool", "is_bool"); ("isPath", "is_path"); ("toFloat", "to_float"); ("toJSON", "to_json");
    ("throw", "throw"); ("abort", "abort"); ("baseNameOf", "base_name_of"); ("dirOf", "dir_of"); ("getAttr", "get_attr");
    ("removeAttrs", "remove_attrs"); ("intersectAttrs", "intersect_attrs"); ("catAttrs", "cat_attrs");
    ("concatLists", "concat_lists"); ("concatStringsSep", "concat_strings_sep"); ("listToAttrs", "list_to_attrs");
    ("seq", "seq"); ("deepSeq", "deep_seq"); ("replaceStrings", "replace_strings"); ("fromJSON", "from_json");
    ("typeOf", "type_of"); ("isFunction", "is_function"); ("isInt", "is_int"); ("isFloat", "is_float");
    ("isString", "is_string"); ("isNull", "is_null"); ("isList", "is_list"); ("stringLength", "string_length");
    ("substring", "substring"); ("toString", "to_string"); ("toInt", "to_int"); ("bitAnd", "bit_and");
    ("bitOr", "bit_or"); ("bitXor", "bit_xor")]%string.

Definition alias (name : str) : option string := snd <$> find (fun kv => bool_decide (chars kv.1 = name)) aliases.

Definition nixprimfun_name (f : NixPrimFun) : option string :=
  match f with
  | FAdd => Some "add" | FSub => Some "sub" | FMul => Some "mul" | FDiv => Some "div" | FNeg => Some "neg"
  | FEq => Some "eq" | FNe => Some "ne" | FLt => Some "lt" | FLe => Some "le" | FGt => Some "gt" | FGe => Some "ge"
  | FSelect => Some "select" | FSelectOr => Some "select_or" | FEmptyAttrSet => Some "empty_attr_set"
  | FHasAttr => Some "has_attr" | FInsert => Some "insert" | FMkSingleton => Some "mk_singleton" | FUpdate => Some "update"
  | FTypeOf => Some "type_of" | FIsFunction => Some "is_function" | FIsInt => Some "is_int" | FIsFloat => Some "is_float"
  | FIsString => Some "is_string" | FIsNull => Some "is_null" | FIsList => Some "is_list"
  | FStringLength => Some "string_length" | FSubstring => Some "substring" | FToString2 => Some "to_string"
  | FToInt => Some "to_int" | FBitAnd => Some "bit_and" | FBitOr => Some "bit_or" | FBitXor => Some "bit_xor"
  | FDerivationStrict => Some "derivation_strict" | FAttrNames => Some "attr_names" | FAttrValues => Some "attr_values"
  | FIsAttrs => Some "is_attrs" | FIsBool => Some "is_bool" | FIsPath => Some "is_path" | FToFloat => Some "to_float"
  | FToJSON => Some "to_json" | FThrow => Some "throw" | FAbort => Some "abort"
  | FBuiltin name => alias name
  | _ => None
  end%string.

Definition nixprimfun_to_entry `{Host} (f : NixPrimFun) : option PrimFunEntry :=
  name ← nixprimfun_name f;
  id ← table_lookup nix_prim_table (chars name);
  make_entry nix_prim_table id.

Definition nixprimval_to_value (v : NixPrimVal) : option PrimValue :=
  Some match v with
  | NInt n => PInt n
  | NFloat f => PFloat f
  | NStr s => PStr s
  | NBool b => PBool b
  | NNull => PNull
  | NPath p => PPath p
  end.
