(* ===== verification/JsonSpec.v ===== *)
(** * Reading back the JSON of a value, and the end of the reader *)
From stdpp Require Import sorting.
From S2P Require Import Prelude Bytes Utf8 Text Error Prim NixVal Json.

(** ** Values that JSON can hold *)

(** Integers of 64 bits, attribute sets sorted by name, no floats, whose text
    is that of the host language, and no functions. *)
Fixpoint json_able (v : PrimValue) : Prop :=
  match v with
  | PInt n => - 2 ^ 63 <= n < 2 ^ 63
  | PStr _ | PPath _ | PBool _ | PNull => True
  | PList xs => foldr and True (map json_able xs)
  | PAttrSet kvs => sm_wf kvs /\ foldr and True (map (fun kv => json_able kv.2) kvs)
  | PFloat _ | PClosure _ | PLambda => False
  end.

(** A value of the evaluator: integers of 64 bits, attribute sets sorted by name. *)
Fixpoint value_wf (v : PrimValue) : Prop :=
  match v with
  | PInt n => - 2 ^ 63 <= n < 2 ^ 63
  | PList xs => foldr and True (map value_wf xs)
  | PAttrSet kvs => sm_wf kvs /\ foldr and True (map (fun kv => value_wf kv.2) kvs)
  | _ => True
  end.

(** A path comes back as a string. *)
Fixpoint json_image (v : PrimValue) : PrimValue :=
  match v with
  | PPath s => PStr s
  | PList xs => PList (map json_image xs)
  | PAttrSet kvs => PAttrSet (map (fun kv => (kv.1, json_image kv.2)) kvs)
  | v => v
  end.

Fixpoint joined (ls : list (list Z)) : list Z :=
  match ls with
  | [] => []
  | [l] => l
  | l :: ls => l ++ 44 :: joined ls
  end.

Definition quoted (s : str) : list Z := [34] ++ concat (json_text_char <$> s) ++ [34].

Fixpoint json_text (v : PrimValue) : list Z :=
  match v with
  | PInt n => int_text n
  | PBool b => if b then chars "true" else chars "false"
  | PNull => chars "null"
  | PStr s | PPath s => quoted s
  | PList xs => 91 :: joined (map json_text xs) ++ [93]
  | PAttrSet kvs => 123 :: joined (map (fun kv => quoted kv.1 ++ 58 :: json_text kv.2) kvs) ++ [125]
  | PFloat _ | PClosure _ | PLambda => []
  end.

(** A character that a number may have. *)
Definition number_char (c : Z) : bool := is_digit c || (c =? 45) || (c =? 43) || (c =? 46) || (c =? 101) || (c =? 69).
Definition stops (rest : list Z) : Prop := match rest with [] => True | c :: _ => number_char c = false end.

(** * Lemmas *)

Lemma all_elem {A} (P : A -> Prop) l : foldr and True (map P l) -> forall x, x ∈ l -> P x.
Proof.
  induction l as [|y l IH]; intros Hl x Hx; [by apply not_elem_of_nil in Hx|]. destruct Hl.
  apply elem_of_cons in Hx as [->|Hx]; auto.
Qed.

Section PrimInd.
Context (P : PrimValue -> Prop).
Context (Hint_ : forall n, P (PInt n)) (Hfloat : forall f, P (PFloat f)) (Hstr : forall s, P (PStr s)) (Hpath : forall s, P (PPath s))
  (Hbool : forall b, P (PBool b)) (Hnull : P PNull) (Hlist : forall xs, Forall P xs -> P (PList xs))
  (Hattrs : forall kvs, Forall (fun kv => P kv.2) kvs -> P (PAttrSet kvs)) (Hclosure : forall f, P (PClosure f)) (Hlambda : P PLambda).

Fixpoint value_ind (v : PrimValue) : P v :=
  match v with
  | PInt n => Hint_ n
  | PFloat f => Hfloat f
  | PStr s => Hstr s
  | PPath s => Hpath s
  | PBool b => Hbool b
  | PNull => Hnull
  | PList xs =>
      Hlist xs ((fix go xs : Forall P xs := match xs with [] => List.Forall_nil _ | x :: xs => List.Forall_cons _ x _ (value_ind x) (go xs) end) xs)
  | PAttrSet kvs =>
      Hattrs kvs ((fix go kvs : Forall (fun kv => P kv.2) kvs :=
        match kvs with [] => List.Forall_nil _ | kv :: kvs => List.Forall_cons _ kv _ (value_ind kv.2) (go kvs) end) kvs)
  | PClosure f => Hclosure f
  | PLambda => Hlambda
  end.
End PrimInd.

(** ** Writing *)

Ltac flat_app := do 3 (rewrite <- ?app_assoc; cbn [app]); reflexivity.

Lemma joined_cons l ls : joined (l :: ls) = l ++ concat (map (fun l => 44 :: l) ls).
Proof. revert l. induction ls as [|l' ls IH]; intros l; [by rewrite app_nil_r|]. change (l ++ 44 :: joined (l' :: ls) = l ++ concat (map (cons 44) (l' :: ls))). by rewrite IH. Qed.

Section Spec.
Context `{Host}.

Lemma json_of_text v : json_able v -> forall out, json_of v out = Ok (out ++ json_text v).
Proof.
  induction v using value_ind; intros Hv out; cbn [json_of json_text]; try done.
  - cbn [json_able] in Hv.
    assert (forall xs out, Forall (fun v => json_able v -> forall out, json_of v out = Ok (out ++ json_text v)) xs -> foldr and True (map json_able xs) ->
      (fix go (first : bool) xs out := match xs with
        | [] => Ok out | x :: xs => out ← json_of x (if first then out else out ++ [44]); go false xs out end) false xs out
      = Ok (out ++ concat (map (fun l => 44 :: l) (map json_text xs)))) as Hgo.
    { clear. induction xs as [|x xs IH]; intros out Hx Hj; [by rewrite app_nil_r|]. inversion Hx as [|? ? Hx1 Hx2]; subst. destruct Hj as [Hj1 Hj2].
      rewrite Hx1 by done. cbn [mbind res_bind]. rewrite IH by done. cbn [map concat]. by rewrite <- !app_assoc. }
    match goal with Hx : Forall _ _ |- _ => destruct Hx as [|x xs Hx1 Hx2] end; [cbn [map joined app mbind res_bind]; by rewrite <- app_assoc|].
    destruct Hv as [Hv1 Hv2]. rewrite Hx1 by done. cbn [mbind res_bind]. rewrite Hgo by done. cbn [mbind res_bind map]. rewrite joined_cons.
    by rewrite <- !app_assoc.
  - cbn [json_able] in Hv. destruct Hv as [_ Hv]. unfold json_str.
    assert (forall kvs out, Forall (fun kv => json_able kv.2 -> forall out, json_of kv.2 out = Ok (out ++ json_text kv.2)) kvs ->
      foldr and True (map (fun kv => json_able kv.2) kvs) ->
      (fix go (first : bool) kvs out := match kvs with
        | [] => Ok out | (k, x) :: kvs => out ← json_of x (((if first then out else out ++ [44]) ++ [34] ++ concat (json_text_char <$> k) ++ [34]) ++ [58]); go false kvs out end)
        false kvs out
      = Ok (out ++ concat (map (fun l => 44 :: l) (map (fun kv => quoted kv.1 ++ 58 :: json_text kv.2) kvs)))) as Hgo.
    { clear. induction kvs as [|[k x] kvs IH]; intros out Hx Hj; [by rewrite app_nil_r|]. inversion Hx as [|? ? Hx1 Hx2]; subst. destruct Hj as [Hj1 Hj2].
      cbn [snd] in *. rewrite Hx1 by done. cbn [mbind res_bind]. rewrite IH by done. cbn [map concat]. unfold quoted. cbn [fst snd]. flat_app. }
    match goal with Hx : Forall _ _ |- _ => destruct Hx as [|[k x] kvs Hx1 Hx2] end; [cbn [map joined app mbind res_bind]; by rewrite <- app_assoc|].
    destruct Hv as [Hv1 Hv2]. cbn [snd] in *. rewrite Hx1 by done. cbn [mbind res_bind]. rewrite Hgo by done. cbn [mbind res_bind map]. rewrite joined_cons.
    unfold quoted. cbn [fst snd]. flat_app.
Qed.

(** ** Strings *)

Lemma string_reads s : forall fuel out rest, (length (concat (json_text_char <$> s)) < fuel)%nat ->
  json_string_from fuel (concat (json_text_char <$> s) ++ 34 :: rest) out = Ok (out ++ s, rest).
Proof.
  induction s as [|c s IH]; intros fuel out rest Hf; cbn [fmap list_fmap concat] in *.
  - destruct fuel; [lia|]. cbn. by rewrite app_nil_r.
  - rewrite length_app in Hf. assert (forall k, json_string_from (S k) (json_text_char c ++ concat (json_text_char <$> s) ++ 34 :: rest) out
      = json_string_from k (concat (json_text_char <$> s) ++ 34 :: rest) (out ++ [c])) as Hc.
    { intros k. unfold json_text_char. destruct (decide (c = 34)) as [->|]; [done|]. destruct (decide (c = 92)) as [->|]; [done|].
      destruct (decide (c = 10)) as [->|]; [done|]. destruct (decide (c = 13)) as [->|]; [done|]. destruct (decide (c = 9)) as [->|]; [done|].
      transitivity (json_string_from (S k) (c :: concat (json_text_char <$> s) ++ 34 :: rest) out).
      - f_equal. unfold json_text_char. repeat case_match; (done || congruence).
      - cbn [json_string_from]. rewrite (proj2 (Z.eqb_neq c 34)), (proj2 (Z.eqb_neq c 92)) by done. done. }
    assert (1 <= length (json_text_char c))%nat by (unfold json_text_char; repeat case_match; cbn; lia).
    rewrite <- app_assoc. destruct fuel as [|fuel]; [lia|]. rewrite Hc, IH by lia. by rewrite <- app_assoc.
Qed.

Lemma quoted_reads s rest : json_parse_string (quoted s ++ rest) = Ok (s, rest).
Proof.
  unfold json_parse_string, quoted. cbn [app tail]. rewrite <- app_assoc. cbn [app]. rewrite string_reads; [done|].
  cbn [length]. rewrite length_app. cbn. lia.
Qed.

(** ** Numbers *)

Lemma number_chars_reads ds rest : Forall (fun c => is_digit c || (c =? 45) || (c =? 43) = true) ds -> stops rest ->
  number_chars (ds ++ rest) = (ds, false, rest).
Proof.
  intros Hd Hr. induction Hd as [|c ds Hc _ IH]; cbn [app number_chars].
  - destruct rest as [|c rest]; [done|]. cbn [number_chars]. cbn in Hr. unfold number_char in Hr. apply orb_false_iff in Hr as [Hr H69].
    apply orb_false_iff in Hr as [Hr H101]. apply orb_false_iff in Hr as [Hr H46]. by rewrite Hr, H46, H101, H69.
  - rewrite Hc, IH. done.
Qed.

Lemma decimal_digits n : - 2 ^ 63 <= n < 2 ^ 63 -> exists sign ds, int_text n = sign ++ ds /\ (sign = [] \/ sign = [45]) /\ ds <> [] /\
  Forall (fun d => 48 <= d <= 57) ds /\ (if bool_decide (sign = []) then 1 else -1) * foldl (fun a d => a * 10 + (d - 48)) 0 ds = n.
Proof.
  intros Hn. unfold int_text, digits. destruct (Z.ltb_spec n 0).
  - destruct (radix_spec 20 (- n) []) as (ds & -> & Hd & Hv); [lia|change (10 ^ Z.of_nat 20) with (10 ^ 20); lia|].
    exists [45], ds. rewrite app_nil_r. split; [done|]. split; [by right|]. split; [intros ->; cbn in Hv; lia|]. split; [done|]. cbn [bool_decide]. rewrite Hv. cbn. lia.
  - destruct (decide (n = 0)) as [->|].
    { exists [], [48]. split; [done|]. split; [by left|]. split; [done|]. split; [repeat constructor; lia|done]. }
    destruct (radix_spec 20 n []) as (ds & -> & Hd & Hv); [lia|change (10 ^ Z.of_nat 20) with (10 ^ 20); lia|].
    exists [], ds. rewrite app_nil_r. split; [done|]. split; [by left|]. split; [intros ->; cbn in Hv; lia|]. split; [done|]. rewrite Hv. cbn. lia.
Qed.

Lemma digit_true d : 48 <= d <= 57 -> is_digit d = true.
Proof. intros Hd. unfold is_digit. apply andb_true_iff. split; apply Z.leb_le; lia. Qed.

Lemma number_reads n rest : - 2 ^ 63 <= n < 2 ^ 63 -> stops rest -> json_parse_number (int_text n ++ rest) = Ok (PInt n, rest).
Proof.
  intros Hn Hr. destruct (decimal_digits n Hn) as (sign & ds & -> & Hs & Hne & Hd & Hv). unfold json_parse_number.
  rewrite number_chars_reads; [| |done].
  - assert (parse_int (sign ++ ds) = Some n) as ->; [|done]. unfold parse_int.
    assert (forallb is_digit ds = true) as Hall by (apply forallb_forall; intros d Hin; rewrite Forall_forall in Hd; by apply digit_true, Hd, list_elem_of_In).
    destruct ds as [|d ds]; [done|]. pose proof (Forall_inv Hd) as Hd1. cbn beta in Hd1.
    assert (checked n = Some n) as Hc by (unfold checked; by rewrite (proj2 (Z.leb_le _ _)), (proj2 (Z.ltb_lt _ _)) by lia).
    destruct Hs as [-> | ->].
    + rewrite bool_decide_eq_true_2 in Hv by done. cbn [app].
      assert ((match d with 45 => (-1, ds) | 43 => (1, ds) | _ => (1, d :: ds) end) = (1, d :: ds)) as -> by (repeat case_match; lia || done).
      rewrite Hall, Hv. exact Hc.
    + rewrite bool_decide_eq_false_2 in Hv by done. cbn [app]. rewrite Hall, Hv. exact Hc.
  - apply Forall_app. split; [destruct Hs as [-> | ->]; repeat constructor|]. eapply Forall_impl; [exact Hd|]. intros d Hdd. by rewrite digit_true.
Qed.

(** ** Values *)

(** The character a value starts with. *)
Definition value_start (c : Z) : Prop := c ∈ [123; 91; 34; 116; 102; 110; 45] \/ 48 <= c <= 57.

Lemma text_start v : json_able v -> exists c t, json_text v = c :: t /\ value_start c.
Proof.
  intros Hv. destruct v; try done; cbn [json_text json_able] in *;
    try (eexists _, _; split; [reflexivity|]; left; set_solver).
  - destruct (decimal_digits i Hv) as (sign & ds & -> & [-> | ->] & Hne & Hd & _).
    + destruct ds as [|d ds]; [done|]. exists d, ds. split; [done|]. right. by apply Forall_inv in Hd.
    + exists 45, ds. split; [done|]. left. set_solver.
  - destruct b; eexists _, _; (split; [reflexivity|]); left; set_solver.
Qed.

Lemma value_start_not c d : value_start c -> d ∈ [32; 9; 10; 13; 93; 125; 44; 58] -> c <> d.
Proof. intros [Hc|Hc] Hd ->; set_unfold; lia. Qed.

Lemma skip_ws_id c t : c ∉ [32; 9; 10; 13] -> json_skip_ws (c :: t) = c :: t.
Proof.
  intros Hc. cbn. assert (c <> 32 /\ c <> 9 /\ c <> 10 /\ c <> 13) as (H1 & H2 & H3 & H4) by set_solver.
  by rewrite (proj2 (Z.eqb_neq c 32)), (proj2 (Z.eqb_neq c 9)), (proj2 (Z.eqb_neq c 10)), (proj2 (Z.eqb_neq c 13)).
Qed.

Lemma skip_ws_value c t : value_start c -> json_skip_ws (c :: t) = c :: t.
Proof. intros Hc. apply skip_ws_id. intros Hin. apply (value_start_not c c Hc); [set_solver|done]. Qed.

Lemma joined_length l ls : l ∈ ls -> (length l <= length (joined ls))%nat.
Proof.
  induction ls as [|l' ls IH]; [by intros ?%not_elem_of_nil|]. intros Hin. rewrite joined_cons, length_app.
  apply elem_of_cons in Hin as [->|Hin]; [lia|]. destruct ls as [|l2 ls]; [by apply not_elem_of_nil in Hin|].
  specialize (IH Hin). rewrite joined_cons, length_app in IH. cbn [map concat app length]. rewrite length_app. lia.
Qed.

Lemma joined_count ls : Forall (fun l => l <> []) ls -> (length ls <= length (joined ls))%nat.
Proof.
  destruct 1 as [|l ls Hl Hls]; [done|]. rewrite joined_cons, length_app. cbn [length].
  assert (length ls <= length (concat (map (fun l => 44%Z :: l) ls)))%nat.
  { clear. induction ls as [|l' ls IH]; [done|]. cbn [map concat app length]. rewrite length_app. lia. }
  destruct l; [done|]. cbn. lia.
Qed.

Definition reads_value (v : PrimValue) : Prop := json_able v -> forall fuel rest, (length (json_text v) <= S fuel)%nat -> stops rest ->
  json_parse_value (S fuel) (json_text v ++ rest) = Ok (json_image v, rest).

(** The parser [p] reads the texts of the values [xs]. *)
Lemma array_reads (p : list Z -> res DnxError (PrimValue * list Z)) rest xs : forall x k out,
  (forall x' r, x' ∈ x :: xs -> stops r -> p (json_text x' ++ r) = Ok (json_image x', r)) -> (length xs < k)%nat ->
  array_loop p k (joined (map json_text (x :: xs)) ++ 93 :: rest) out = Ok (PList (out ++ map json_image (x :: xs)), rest).
Proof.
  induction xs as [|y xs IH]; intros x k out Hp Hk; (destruct k as [|k]; [lia|]); cbn [array_loop].
  - cbn [map joined]. rewrite Hp by (done || left). cbn [mbind res_bind]. by rewrite skip_ws_id by set_solver.
  - change (joined (map json_text (x :: y :: xs))) with (json_text x ++ 44 :: joined (map json_text (y :: xs))).
    rewrite <- app_assoc. cbn [app]. rewrite Hp by (done || left). cbn [mbind res_bind]. rewrite skip_ws_id by set_solver.
    rewrite IH; [by rewrite <- app_assoc|intros x' r Hx'; apply Hp; by right|cbn in Hk; lia].
Qed.

Definition pair_text (kv : list Z * PrimValue) : list Z := quoted kv.1 ++ 58 :: json_text kv.2.
Definition pair_image (kv : list Z * PrimValue) : list Z * PrimValue := (kv.1, json_image kv.2).

Lemma set_key_fresh k v out : k ∉ out.*1 -> set_key k v out = out ++ [(k, v)].
Proof.
  induction out as [|[k' v'] out IH]; [done|]. cbn [fmap list_fmap fst]. rewrite not_elem_of_cons. intros [Hk Ho].
  cbn [set_key app]. by rewrite bool_decide_eq_false_2, IH.
Qed.

Lemma pair_image_keys kvs : (map pair_image kvs).*1 = kvs.*1.
Proof. induction kvs as [|kv kvs IH]; [done|]. cbn. by f_equal. Qed.

(** One turn of the loop. *)
Lemma object_pair p k key v r out : p (json_text v ++ r) = Ok (json_image v, r) -> key ∉ out.*1 ->
  object_loop p (S k) (pair_text (key, v) ++ r) out =
    match json_skip_ws r with
    | 44 :: s => object_loop p k s (out ++ [(key, json_image v)])
    | 125 :: s => Ok (PAttrSet (sort_by (out ++ [(key, json_image v)])), s)
    | _ => fail_with "fromJSON: expected ',' or '}'"
    end.
Proof.
  intros Hp Hk. assert (pair_text (key, v) ++ r = quoted key ++ 58 :: json_text v ++ r) as -> by (unfold pair_text; by rewrite <- app_assoc).
  assert (forall t, json_skip_ws (quoted key ++ t) = quoted key ++ t) as Hq by done.
  cbn [object_loop]. rewrite Hq. rewrite bool_decide_eq_true_2 by done. cbn [negb]. rewrite quoted_reads. cbn [mbind res_bind].
  rewrite skip_ws_id by set_solver. rewrite Hp. cbn [mbind res_bind]. by rewrite set_key_fresh.
Qed.

Lemma object_reads (p : list Z -> res DnxError (PrimValue * list Z)) rest kvs : forall kv k out,
  (forall kv' r, kv' ∈ kv :: kvs -> stops r -> p (json_text kv'.2 ++ r) = Ok (json_image kv'.2, r)) -> (length kvs < k)%nat ->
  NoDup (out.*1 ++ (kv :: kvs).*1) ->
  object_loop p k (joined (map pair_text (kv :: kvs)) ++ 125 :: rest) out = Ok (PAttrSet (sort_by (out ++ map pair_image (kv :: kvs))), rest).
Proof.
  induction kvs as [|kv2 kvs IH]; intros [key v] k out Hp Hk Hnd; (destruct k as [|k]; [lia|]).
  - cbn [map joined]. rewrite object_pair; [by rewrite skip_ws_id by set_solver|apply (Hp (key, v)); [left|done]|].
    apply NoDup_app in Hnd as (_ & Hd & _). intros Hin. apply (Hd _ Hin). left.
  - change (joined (map pair_text ((key, v) :: kv2 :: kvs))) with (pair_text (key, v) ++ 44 :: joined (map pair_text (kv2 :: kvs))).
    rewrite <- app_assoc. cbn [app]. rewrite object_pair; [|apply (Hp (key, v)); [left|done]|].
    + rewrite skip_ws_id by set_solver. rewrite IH; [by rewrite <- app_assoc|intros kv' r Hin; apply Hp; by right|cbn in Hk; lia|].
      rewrite fmap_app, <- app_assoc. exact Hnd.
    + apply NoDup_app in Hnd as (_ & Hd & _). intros Hin. apply (Hd _ Hin). left.
Qed.

Lemma reads_list xs : Forall reads_value xs -> reads_value (PList xs).
Proof.
  intros Hx Hv fuel rest Hf Hs. cbn [json_able json_text] in *. destruct xs as [|x xs]; [done|].
  destruct (text_start x) as (c & t & Et & Hc); [apply Hv|].
  assert (joined (map json_text (x :: xs)) = c :: t ++ concat (map (fun l => 44 :: l) (map json_text xs))) as Ej.
  { cbn [map]. by rewrite joined_cons, Et. }
  assert (forall r, json_skip_ws (joined (map json_text (x :: xs)) ++ r) = joined (map json_text (x :: xs)) ++ r) as Hws.
  { intros r. rewrite Ej. cbn [app]. by apply skip_ws_value. }
  cbn [json_parse_value app]. rewrite <- app_assoc. rewrite skip_ws_id by set_solver. unfold json_parse_array. cbn [tail app]. rewrite Hws.
  assert (c <> 93) as H93 by (apply value_start_not; [done|set_solver]).
  transitivity (array_loop (json_parse_value fuel) (S (length (joined (map json_text (x :: xs)) ++ 93 :: rest))) (joined (map json_text (x :: xs)) ++ 93 :: rest) []).
  { rewrite Ej. cbn [app]. repeat case_match; congruence. }
  cbn [length] in Hf. rewrite length_app in Hf. cbn [length] in Hf. rewrite array_reads; [done| |].
  - intros x' r Hin Hr. rewrite Forall_forall in Hx.
    assert (length (json_text x') <= length (joined (map json_text (x :: xs))))%nat by (apply joined_length, list_elem_of_In, in_map, list_elem_of_In, Hin).
    destruct fuel as [|fuel]; [lia|]. apply Hx; [done| |lia|done].
    by apply (all_elem _ _ Hv).
  - rewrite length_app. cbn [length].
    assert (length (map json_text (x :: xs)) <= length (joined (map json_text (x :: xs))))%nat as Hn; [|rewrite length_map in Hn; cbn [length] in Hn; lia].
    apply joined_count, Forall_fmap, Forall_forall. intros y Hy. cbn.
    destruct (text_start y (all_elem _ _ Hv y Hy)) as (c' & t' & -> & _). done.
Qed.
Lemma reads_attrs kvs : Forall (fun kv => reads_value kv.2) kvs -> reads_value (PAttrSet kvs).
Proof.
  intros Hx Hv fuel rest Hf Hs. cbn [json_able json_text] in *. destruct Hv as [Hwf Hv]. destruct kvs as [|kv kvs]; [done|].
  fold pair_text in *. assert (joined (map pair_text (kv :: kvs)) = 34 :: tail (joined (map pair_text (kv :: kvs)))) as Ej.
  { cbn [map]. by rewrite joined_cons. }
  cbn [json_parse_value app]. rewrite <- app_assoc. rewrite skip_ws_id by set_solver. unfold json_parse_object. cbn [tail app].
  assert (forall r, json_skip_ws (joined (map pair_text (kv :: kvs)) ++ r) = joined (map pair_text (kv :: kvs)) ++ r) as Hws by (intros r; by rewrite Ej).
  change (map (fun kv0 => quoted kv0.1 ++ 58 :: json_text kv0.2) (kv :: kvs)) with (map pair_text (kv :: kvs)) in *. rewrite Hws.
  transitivity (object_loop (json_parse_value fuel) (S (length (joined (map pair_text (kv :: kvs)) ++ 125 :: rest))) (joined (map pair_text (kv :: kvs)) ++ 125 :: rest) []).
  { rewrite Ej. done. }
  cbn [length] in Hf. rewrite length_app in Hf. cbn [length] in Hf. rewrite object_reads.
  - cbn [app json_image]. rewrite sort_by_sorted; [done|]. unfold sm_wf. by rewrite pair_image_keys.
  - intros kv' r Hin Hr. rewrite Forall_forall in Hx.
    assert (length (pair_text kv') <= length (joined (map pair_text (kv :: kvs))))%nat as Hl by (apply joined_length, list_elem_of_In, in_map, list_elem_of_In, Hin).
    unfold pair_text at 1 in Hl. rewrite length_app in Hl. cbn [length] in Hl.
    destruct fuel as [|fuel]; [lia|]. apply (Hx _ Hin); [by apply (all_elem _ _ Hv)|lia|done].
  - rewrite length_app. cbn [length].
    assert (length (map pair_text (kv :: kvs)) <= length (joined (map pair_text (kv :: kvs))))%nat as Hn; [|rewrite length_map in Hn; cbn [length] in Hn; lia].
    apply joined_count, Forall_fmap, Forall_true. done.
  - cbn [fmap list_fmap app]. by apply (sm_wf_nodup (kv :: kvs)).
Qed.

Lemma lit_reads lit rest v : json_parse_lit (lit ++ rest) lit v = Ok (v, rest).
Proof. unfold json_parse_lit. assert (strip_prefix lit (lit ++ rest) = Some rest) as ->; [|done]. induction lit; cbn; [done|]. by rewrite Z.eqb_refl. Qed.

Lemma reads_all v : reads_value v.
Proof.
  induction v using value_ind; try (by intros []).
  - intros Hv fuel rest Hf Hs. cbn [json_able json_text json_image] in *. pose proof (number_reads n rest Hv Hs) as Hr.
    destruct (text_start (PInt n) Hv) as (c & t & E & Hc). cbn [json_text] in E. rewrite E in Hr |- *. cbn [json_parse_value app] in *.
    rewrite skip_ws_value by done. rewrite <- Hr.
    assert (c = 45 \/ is_digit c = true) as Hd.
    { destruct (decimal_digits n Hv) as (sign & ds & E2 & Hsg & Hne & Hds & _). rewrite E in E2. destruct Hsg as [-> | ->].
      - destruct ds as [|d ds]; [done|]. injection E2 as -> ->. right. apply digit_true. by apply Forall_inv in Hds.
      - injection E2 as -> ->. by left. }
    destruct Hd as [->|Hd]; [done|]. rewrite Hd, orb_true_r. unfold is_digit in Hd.
    repeat case_match; try done; subst; cbn in Hd; done.
  - intros Hv fuel rest Hf Hs. cbn [json_text json_image json_parse_value]. change (json_skip_ws (quoted s ++ rest)) with (quoted s ++ rest).
    change (quoted s ++ rest) with (34 :: tail (quoted s ++ rest)) at 1. cbn match. by rewrite quoted_reads.
  - intros Hv fuel rest Hf Hs. cbn [json_text json_image json_parse_value]. change (json_skip_ws (quoted s ++ rest)) with (quoted s ++ rest).
    change (quoted s ++ rest) with (34 :: tail (quoted s ++ rest)) at 1. cbn match. by rewrite quoted_reads.
  - intros Hv fuel rest Hf Hs. destruct b; [apply (lit_reads (chars "true"))|apply (lit_reads (chars "false"))].
  - by apply reads_list.
  - by apply reads_attrs.
Qed.

(** ** The end of the reader *)

Lemma all_iff {A} (P : A -> Prop) l : foldr and True (map P l) <-> Forall P l.
Proof. induction l as [|x l IH]; cbn; [split; constructor|]. by rewrite Forall_cons, IH. Qed.

Lemma skip_ws_length s : (length (json_skip_ws s) <= length s)%nat.
Proof. induction s as [|c s IH]; [done|]. cbn. case_match; cbn; lia. Qed.

Lemma checked_range z n : checked z = Some n -> - 2 ^ 63 <= n < 2 ^ 63.
Proof. unfold checked. case_match; [|done]. intros [= ->]. lia. Qed.

Lemma parse_int_range s n : parse_int s = Some n -> - 2 ^ 63 <= n < 2 ^ 63.
Proof. unfold parse_int. intros Hp. destruct (match s with 45 :: ds => _ | _ => _ end) as [sign ds]. destruct ds; [done|]. case_match; [|done]. by eapply checked_range. Qed.

Lemma number_chars_length s : let '(t, _, rest) := number_chars s in length s = (length t + length rest)%nat.
Proof.
  induction s as [|c s IH]; [done|]. cbn [number_chars]. destruct (number_chars s) as [[t f] rest].
  repeat case_match; simplify_eq; cbn in *; lia.
Qed.

Lemma number_settled c s : number_char c = true ->
  settled (fun r => value_wf r.1 /\ (length r.2 < S (length s))%nat) (json_parse_number (c :: s)).
Proof.
  intros Hc. unfold json_parse_number. pose proof (number_chars_length (c :: s)) as Hl.
  destruct (number_chars (c :: s)) as [[t f] rest] eqn:E. assert (t <> []) as Ht.
  { unfold number_char in Hc. cbn [number_chars] in E. destruct (number_chars s) as [[t' f'] rest']. intros ->.
    destruct (is_digit c), (c =? 45), (c =? 43), (c =? 46), (c =? 101), (c =? 69); cbn in *; simplify_eq. }
  assert (length t <> 0%nat) by (by destruct t). cbn [length] in Hl.
  destruct f; [destruct (f_parse t)|destruct (parse_int t) eqn:En]; cbn; try done; split; try done; try lia. by eapply parse_int_range.
Qed.

Lemma strip_prefix_length lit s rest : strip_prefix lit s = Some rest -> length s = (length lit + length rest)%nat.
Proof. revert s. induction lit as [|a lit IH]; intros s Hs; [by injection Hs as ->|]. destruct s as [|b s]; [done|]. cbn in *. case_match; [|done]. by rewrite (IH s). Qed.

Lemma lit_settled s c lit v : value_wf v -> settled (fun r => value_wf r.1 /\ (length r.2 < length s)%nat) (json_parse_lit s (c :: lit) v).
Proof.
  intros Hv. unfold json_parse_lit. destruct (strip_prefix (c :: lit) s) eqn:E; [|done]. apply strip_prefix_length in E. cbn in *. split; [done|lia].
Qed.

Lemma hex4_settled s : settled (fun r => (length r.2 < length s)%nat) (json_parse_hex4 s).
Proof. unfold json_parse_hex4. repeat case_match; cbn; try done. lia. Qed.

Lemma string_from_settled fuel : forall s out, (length s < fuel)%nat -> settled (fun r => (length r.2 < length s)%nat) (json_string_from fuel s out).
Proof.
  induction fuel as [|fuel IH]; intros s out Hf; [lia|]. destruct s as [|c rest]; [done|]. cbn [json_string_from length] in *.
  assert (forall out r, (length r <= length rest)%nat -> settled (fun r => (length r.2 < S (length rest))%nat) (json_string_from fuel r out)) as Hr.
  { intros o r Hr. eapply settled_weaken; [apply IH; lia|]. intros r' Hr'. cbn in *. lia. }
  case_match; [cbn; lia|]. case_match; [|by apply Hr]. destruct rest as [|e rest]; [done|].
  assert (forall o, settled (fun r => (length r.2 < S (S (length rest)))%nat) match json_escape e with Some c => json_string_from fuel rest (o ++ [c]) | None => fail_with "fromJSON: bad escape" end) as He.
  { intros o. destruct (json_escape e); [|done]. apply Hr. cbn. lia. }
  destruct (decide (e = 117)) as [->|Hne].
  - eapply settled_bind; [apply hex4_settled|]. intros [cp r] Hl. cbn [snd] in Hl. apply Hr. cbn. lia.
  - specialize (He out). clear Hr. repeat case_match; done.
Qed.

Lemma parse_string_settled s : s <> [] -> settled (fun r => (length r.2 < length s)%nat) (json_parse_string s).
Proof.
  intros Hs. destruct s as [|c s]; [done|]. unfold json_parse_string. cbn [tail length]. eapply settled_weaken; [apply string_from_settled; lia|]. cbn. lia.
Qed.

Lemma set_key_keys k v out x : x ∈ (set_key k v out).*1 <-> x = k \/ x ∈ out.*1.
Proof.
  induction out as [|[k' v'] out IH]; cbn [set_key].
  - cbn. rewrite list_elem_of_singleton, elem_of_nil. tauto.
  - case_bool_decide as Hk; cbn [fmap list_fmap fst]; rewrite !elem_of_cons; [subst; tauto|rewrite IH; tauto].
Qed.

Lemma set_key_nodup k v out : NoDup out.*1 -> NoDup (set_key k v out).*1.
Proof.
  induction out as [|[k' v'] out IH]; cbn [set_key]; intros Hn; [apply NoDup_singleton|]. cbn [fmap list_fmap fst] in Hn. apply NoDup_cons in Hn as [Hk Hn].
  case_bool_decide as He; cbn [fmap list_fmap fst]; constructor; auto. intros [->|Hin]%set_key_keys; done.
Qed.

Lemma set_key_forall (P : PrimValue -> Prop) k v out : P v -> Forall (fun kv => P kv.2) out -> Forall (fun kv => P kv.2) (set_key k v out).
Proof. intros Hv. induction 1 as [|[k' v'] out Hx Hout IH]; cbn [set_key]; [by repeat constructor|]. case_bool_decide; by constructor. Qed.

(** [p] reads well-formed values from texts of at most [n] characters. *)
Definition value_parser (n : nat) (p : list Z -> res DnxError (PrimValue * list Z)) : Prop :=
  forall s, (length s <= n)%nat -> settled (fun r => value_wf r.1 /\ (length r.2 < length s)%nat) (p s).

Lemma array_loop_settled n p : value_parser n p -> forall k s out, (length s < k)%nat -> (length s <= n)%nat -> Forall value_wf out ->
  settled (fun r => value_wf r.1 /\ (length r.2 < length s)%nat) (array_loop p k s out).
Proof.
  intros Hp k. induction k as [|k IH]; intros s out Hk Hn Ho; [lia|]. cbn [array_loop].
  eapply settled_bind; [by apply Hp|]. intros [v r] [Hv Hr]. cbn [fst snd] in *. pose proof (skip_ws_length r) as Hw.
  destruct (json_skip_ws r) as [|c rest]; [done|]. cbn [length] in Hw.
  assert (Forall value_wf (out ++ [v])) as Ho' by (apply Forall_app; by repeat constructor).
  destruct (decide (c = 44)) as [->|]; [|destruct (decide (c = 93)) as [->|]].
  - eapply settled_weaken; [apply IH; (done || lia)|]. intros r' [? ?]. split; [done|lia].
  - cbn. split; [by apply all_iff|lia].
  - repeat case_match; (done || congruence).
Qed.

Lemma array_settled n p s : value_parser n p -> (length s <= S n)%nat -> s <> [] ->
  settled (fun r => value_wf r.1 /\ (length r.2 < length s)%nat) (json_parse_array p s).
Proof.
  intros Hp Hn Hs. unfold json_parse_array. destruct s as [|c s]; [done|]. cbn [tail length] in *. pose proof (skip_ws_length s) as Hw.
  set (s' := json_skip_ws s) in *.
  assert (settled (fun r => value_wf r.1 /\ (length r.2 < S (length s))%nat) (array_loop p (S (length s')) s' [])) as Ha.
  { eapply settled_weaken; [apply (array_loop_settled n); (done || lia || constructor)|]. intros r [? ?]. split; [done|lia]. }
  destruct s' as [|d rest]; [done|]. destruct (decide (d = 93)) as [->|]; [cbn in *; split; [done|lia]|].
  repeat case_match; (done || congruence).
Qed.

Lemma object_loop_settled n p : value_parser n p -> forall k s out, (length s < k)%nat -> (length s <= n)%nat ->
  NoDup out.*1 -> Forall (fun kv => value_wf kv.2) out ->
  settled (fun r => value_wf r.1 /\ (length r.2 < length s)%nat) (object_loop p k s out).
Proof.
  intros Hp k. induction k as [|k IH]; intros s out Hk Hn Hd Ho; [lia|]. cbn [object_loop]. pose proof (skip_ws_length s) as Hw.
  case_match eqn:Hq; [done|]. apply negb_false_iff, bool_decide_eq_true in Hq.
  eapply settled_bind; [apply parse_string_settled; intros E; by rewrite E in Hq|]. intros [key r] Hr. cbn [snd] in Hr.
  pose proof (skip_ws_length r) as Hw2. destruct (json_skip_ws r) as [|c rest]; [done|]. cbn [length] in Hw2.
  destruct (decide (c = 58)) as [->|]; [|repeat case_match; (done || congruence)].
  eapply settled_bind; [apply Hp; lia|]. intros [v r2] [Hv Hr2]. cbn [fst snd] in *. pose proof (skip_ws_length r2) as Hw3.
  destruct (json_skip_ws r2) as [|c rest2]; [done|]. cbn [length] in Hw3.
  pose proof (set_key_nodup key v out Hd) as Hd'. pose proof (set_key_forall value_wf key v out Hv Ho) as Ho'.
  destruct (decide (c = 44)) as [->|]; [|destruct (decide (c = 125)) as [->|]].
  - eapply settled_weaken; [apply IH; (done || lia)|]. intros r' [? ?]. split; [done|lia].
  - cbn. split; [|lia]. split; [by apply sort_by_wf|]. apply all_iff. by rewrite (sort_by_perm (set_key key v out)).
  - repeat case_match; (done || congruence).
Qed.

Lemma object_settled n p s : value_parser n p -> (length s <= S n)%nat -> s <> [] ->
  settled (fun r => value_wf r.1 /\ (length r.2 < length s)%nat) (json_parse_object p s).
Proof.
  intros Hp Hn Hs. unfold json_parse_object. destruct s as [|c s]; [done|]. cbn [tail length] in *. pose proof (skip_ws_length s) as Hw.
  set (s' := json_skip_ws s) in *.
  assert (settled (fun r => value_wf r.1 /\ (length r.2 < S (length s))%nat) (object_loop p (S (length s')) s' [])) as Ha.
  { eapply settled_weaken; [apply (object_loop_settled n); (done || lia || constructor)|]. intros r [? ?]. split; [done|lia]. }
  destruct s' as [|d rest]; [done|]. destruct (decide (d = 125)) as [->|]; [cbn in *; split; [repeat constructor|lia]|].
  repeat case_match; (done || congruence).
Qed.

Lemma value_settled n : value_parser n (json_parse_value (S n)).
Proof.
  induction n as [|n IH]; intros s Hn; [destruct s; [done|cbn in Hn; lia]|]. remember (S n) as m eqn:Em. cbn [json_parse_value]. pose proof (skip_ws_length s) as Hw.
  destruct (json_skip_ws s) as [|c rest] eqn:E; [done|]. rewrite <- E in *. assert (json_skip_ws s <> []) as Hne by (by rewrite E).
  eapply settled_weaken with (P := fun r : PrimValue * list Z => value_wf r.1 /\ (length r.2 < length (json_skip_ws s))%nat); [|intros r [? ?]; split; [done|lia]].
  assert (length (json_skip_ws s) <= S n)%nat as Hl by lia.
  destruct (decide (c = 123)) as [->|H1]; [rewrite E in *; by apply (object_settled n); subst m|].
  destruct (decide (c = 91)) as [->|H2]; [rewrite E in *; by apply (array_settled n); subst m|].
  destruct (decide (c = 34)) as [->|H3].
  { rewrite E in *. eapply settled_bind; [by apply parse_string_settled|]. intros [t r] Hr. split; [done|exact Hr]. }
  destruct (decide (c = 116)) as [->|H4]; [rewrite E in *; by apply lit_settled|].
  destruct (decide (c = 102)) as [->|H5]; [rewrite E in *; by apply lit_settled|].
  destruct (decide (c = 110)) as [->|H6]; [rewrite E in *; by apply lit_settled|].
  rewrite E in *.
  assert (settled (fun r : PrimValue * list Z => value_wf r.1 /\ (length r.2 < length (c :: rest))%nat)
    (if (c =? 45) || is_digit c then json_parse_number (c :: rest) else fail_with "fromJSON: unexpected token")) as Hnum.
  { destruct ((c =? 45) || is_digit c) eqn:Ec; [|done]. apply number_settled. unfold number_char. apply orb_true_iff in Ec as [-> | ->]; by rewrite ?orb_true_r. }
  clear -Hnum H1 H2 H3 H4 H5 H6. repeat case_match; (done || congruence).
Qed.
End Spec.

(** * Properties *)

(** C25: [fromJSON] reads back what [toJSON] writes.  For every value without
    floats and functions, with integers of 64 bits and attribute sets sorted
    by name, [toJSON] gives a text and [fromJSON] of the text is the value,
    with paths turned into strings: numbers, escapes in strings and in names,
    nested lists and sets. *)
Theorem primitive_json_roundtrip `{Host} (v : PrimValue) :
  json_able v -> exists s, prim_to_json [v] = Ok (PStr s) /\ prim_from_json [PStr s] = Ok (json_image v).
Proof.
  intros Hv. exists (json_text v). unfold prim_to_json, prim_from_json. rewrite json_of_text by done. cbn [mbind res_bind app]. split; [done|].
  pose proof (reads_all v Hv (length (json_text v)) [] ltac:(lia) I) as Hr. rewrite app_nil_r in Hr. by rewrite Hr.
Qed.

#[local] Instance no_floats : Host := {|
  f_add _ _ := 0; f_sub _ _ := 0; f_mul _ _ := 0; f_div _ _ := 0; f_neg _ := 0; f_of_int _ := 0; f_lt _ _ := false; f_le _ _ := false;
  f_text _ := []; f_parse _ := None; white c := c =? 32
|}.

Lemma primitive_json_roundtrip_witness :
  let v := PAttrSet [([34; 10; 92; 233], PPath (chars "/x")); (chars "a", PList [PInt (- 2 ^ 63); PBool true; PNull])] in
  json_able v /\ exists s, prim_to_json [v] = Ok (PStr s) /\ prim_from_json [PStr s] = Ok (json_image v).
Proof.
  intros v. assert (json_able v) as Hv by (cbn; repeat split; try lia; repeat constructor).
  split; [exact Hv|]. by apply primitive_json_roundtrip.
Defined.

(** [fromJSON] ends on every string: with a value whose integers fit 64
    bits and whose attribute sets are sorted by name without repetition, or
    with an error; it does not panic, and the bounds of its loops and of the
    nesting are not reached. *)
Theorem from_json_total `{Host} (s : list Z) :
  (exists v, prim_from_json [PStr s] = Ok v /\ value_wf v) \/ (exists err, prim_from_json [PStr s] = Err err).
Proof.
  pose proof (value_settled (length s) s (le_n _)) as Hs. unfold prim_from_json.
  destruct (json_parse_value (S (length s)) s) as [[v rest]|err| |]; cbn in Hs; try done.
  - cbn [mbind res_bind]. destruct (json_skip_ws rest); [left|right]; eexists; [split; [done|apply Hs]|done].
  - right. by eexists.
Qed.

(** A surrogate pair is two replacement characters, and a sign may stand in a code. *)
Lemma surrogates_lost : prim_from_json [PStr ([34] ++ chars "\ud83d\ude00" ++ [34])] = Ok (PStr [65533; 65533])
  /\ prim_from_json [PStr ([34] ++ chars "\u+0e9" ++ [34])] = Ok (PStr [233]).
Proof. vm_compute. done. Qed.
