(* ===== verification/BuiltinsSpec.v ===== *)
(** * The builtin functions: attribute sets as maps, replacement of strings, equality, the table *)
From stdpp Require Import sorting.
From S2P Require Import Prelude Bytes Utf8 Text Error Prim NixVal Json Builtins JsonSpec.

(** The finite map that an attribute set stands for. *)
Definition attr_map (set : list (list Z * PrimValue)) : gmap (list Z) PrimValue := list_to_map set.

(** The first pattern that is a prefix of the text. *)
Definition starts_with (pat s : list Z) : bool := bool_decide (take (length pat) s = pat).
Definition first_pattern (pats : list (list Z * list Z)) (s : list Z) : option (list Z * list Z) :=
  find (fun p => starts_with p.1 s) pats.

(** The text from a position on, and what it becomes. *)
Inductive replaced (pats : list (list Z * list Z)) : list Z -> list Z -> Prop :=
| repl_end : first_pattern pats [] = None -> replaced pats [] []
| repl_end_empty rep : first_pattern pats [] = Some ([], rep) -> replaced pats [] rep
| repl_miss c s out : first_pattern pats (c :: s) = None -> replaced pats s out -> replaced pats (c :: s) (c :: out)
| repl_empty rep c s out : first_pattern pats (c :: s) = Some ([], rep) -> replaced pats s out -> replaced pats (c :: s) (rep ++ c :: out)
| repl_hit pat rep s out : pat <> [] -> first_pattern pats (pat ++ s) = Some (pat, rep) -> replaced pats s out ->
    replaced pats (pat ++ s) (rep ++ out).

(** Values without floats and functions. *)
Fixpoint is_data (v : PrimValue) : Prop :=
  match v with
  | PFloat _ | PClosure _ | PLambda => False
  | PList xs => foldr and True (map is_data xs)
  | PAttrSet kvs => foldr and True (map (fun kv => is_data kv.2) kvs)
  | _ => True
  end.

(** A string whose length fits an [i64]. *)
Definition fits (v : PrimValue) : Prop := match v with PStr s => byte_len s < 2 ^ 63 | _ => True end.

(** * Lemmas *)

(** ** Attribute sets *)

Lemma attr_get_map k set : attr_get k set = attr_map set !! k.
Proof.
  unfold attr_get, attr_map. induction set as [|[k' v] set IH]; [done|]. cbn [sm_get list_to_map foldr].
  destruct (decide (k = k')) as [->|]; [by rewrite bool_decide_eq_true_2, lookup_insert_eq|].
  rewrite bool_decide_eq_false_2, lookup_insert_ne by done. exact IH.
Qed.

Lemma has_key_keys k set : has_key k set = bool_decide (k ∈ set.*1).
Proof.
  unfold has_key. induction set as [|[k' v] set IH]; [done|]. cbn [existsb fst fmap list_fmap]. rewrite IH.
  apply eq_bool_prop_intro. rewrite orb_True, !bool_decide_spec, elem_of_cons. split; intros []; auto.
Qed.

Lemma has_key_map k set : has_key k set = bool_decide (is_Some (attr_map set !! k)).
Proof.
  rewrite has_key_keys. apply bool_decide_ext. unfold attr_map. split.
  - intros Hin. destruct (list_to_map (M := gmap (list Z) PrimValue) set !! k) eqn:E; [by eexists|]. by apply not_elem_of_list_to_map_2 in E.
  - intros [v Hv]. apply elem_of_list_to_map_2 in Hv. apply list_elem_of_fmap. by exists (k, v).
Qed.

Lemma attr_map_set k v set : attr_map (set_key k v set) = <[k := v]> (attr_map set).
Proof.
  unfold attr_map. induction set as [|[k' v'] set IH]; [done|]. cbn [set_key]. case_bool_decide as Hk; cbn [list_to_map foldr].
  - subst. by rewrite insert_insert_eq.
  - change (foldr (fun p => <[p.1 := p.2]>) ∅) with (list_to_map (M := gmap (list Z) PrimValue)). rewrite IH. by apply insert_insert_ne.
Qed.

Lemma set_key_same k v set : k ∈ set.*1 -> (set_key k v set).*1 = set.*1.
Proof.
  induction set as [|[k' v'] set IH]; [by intros ?%not_elem_of_nil|]. cbn [fmap list_fmap fst set_key]. intros Hk. case_bool_decide; [done|].
  cbn. f_equal. apply IH. apply elem_of_cons in Hk as [->|]; done.
Qed.

Lemma attr_map_sort set : NoDup set.*1 -> attr_map (sort_by set) = attr_map set.
Proof. intros Hn. apply list_to_map_proper; [by rewrite (sort_by_perm set)|apply sort_by_perm]. Qed.

Lemma update_fold b : forall a, let r := foldl (fun result kv => set_key kv.1 kv.2 result) a b in
  (NoDup a.*1 -> NoDup r.*1) /\ (NoDup b.*1 -> attr_map r = attr_map b ∪ attr_map a).
Proof.
  induction b as [|[k v] b IH]; intros a; cbn [foldl fst snd].
  - split; [done|]. intros _. unfold attr_map. cbn. by rewrite (left_id_L ∅ (∪)).
  - destruct (IH (set_key k v a)) as [H1 H2]. split; [intros Hn; by apply H1, set_key_nodup|]. cbn [fmap list_fmap fst]. intros [Hk Hb]%NoDup_cons.
    rewrite H2 by done. rewrite attr_map_set. unfold attr_map at 3. cbn [list_to_map foldr fst snd].
    change (foldr (fun p => <[p.1 := p.2]>) ∅ b) with (attr_map b). rewrite <- insert_union_l. symmetry. apply insert_union_r.
    unfold attr_map. by apply not_elem_of_list_to_map_1.
Qed.

Lemma filter_sorted {A} (p : list Z * A -> bool) l : sm_wf l -> sm_wf (List.filter p l).
Proof.
  unfold sm_wf. induction l as [|x l IH]; [done|]. cbn [fmap list_fmap List.filter]. intros [Hl Hx]%StronglySorted_inv. destruct (p x); [|by apply IH].
  cbn [fmap list_fmap]. constructor; [by apply IH|]. rewrite Forall_forall in Hx |- *. intros y (z & -> & Hz)%list_elem_of_fmap.
  apply Hx, list_elem_of_fmap. exists z. split; [done|]. apply list_elem_of_In in Hz. by apply filter_In in Hz as [Hz%list_elem_of_In _].
Qed.

Lemma attr_map_filter (p : list Z -> bool) set k : attr_map (List.filter (fun kv => p kv.1) set) !! k = if p k then attr_map set !! k else None.
Proof.
  unfold attr_map. induction set as [|[k' v] set IH]; [by destruct (p k)|]. cbn [List.filter fst]. destruct (decide (k = k')) as [->|Hne].
  - destruct (p k') eqn:E; cbn [list_to_map foldr]; [by rewrite !lookup_insert_eq|]. exact IH.
  - cbn [list_to_map foldr]. rewrite (lookup_insert_ne _ k') by done. destruct (p k'); [|exact IH]. cbn [list_to_map foldr]. by rewrite lookup_insert_ne.
Qed.

Lemma insert_wf k v set : sm_wf set -> let r := if has_key k set then set_key k v set else sort_by (set ++ [(k, v)]) in
  sm_wf r /\ attr_map r = <[k := v]> (attr_map set).
Proof.
  intros Hs. rewrite has_key_keys. case_bool_decide as Hk; cbn zeta.
  - split; [unfold sm_wf; by rewrite set_key_same|apply attr_map_set].
  - assert (NoDup (set ++ [(k, v)]).*1) as Hn.
    { rewrite fmap_app. apply NoDup_app. split; [by apply sm_wf_nodup|]. split; [|apply NoDup_singleton]. intros x Hx ->%list_elem_of_singleton. done. }
    split; [by apply sort_by_wf|]. rewrite attr_map_sort by done. rewrite <- set_key_fresh by done. apply attr_map_set.
Qed.

(** What [listToAttrs] collects, [out] first. *)
Lemma collect_attrs_spec items : forall out r, collect_attrs items out = Ok r -> NoDup out.*1 ->
  NoDup r.*1 /\ exists kvs, mapMr name_value items = Ok kvs /\ attr_map r = attr_map (out ++ kvs).
Proof.
  induction items as [|item items IH]; intros out r Hr Hn; cbn [collect_attrs] in Hr.
  - injection Hr as <-. split; [done|]. exists []. by rewrite app_nil_r.
  - destruct (name_value item) as [[k v]| | |] eqn:E; try discriminate. cbn [mbind res_bind] in Hr.
    cbn [mapMr]. rewrite E. cbn [mbind res_bind].
    destruct (IH _ _ Hr) as (Hnd & kvs & -> & Hm).
    { case_match; [done|]. rewrite fmap_app. apply NoDup_app. split; [done|]. split; [|apply NoDup_singleton].
      intros x Hx ->%list_elem_of_singleton. match goal with Hk : has_key _ _ = _ |- _ => rewrite has_key_keys in Hk; apply bool_decide_eq_false in Hk end. done. }
    split; [done|]. exists ((k, v) :: kvs). split; [done|]. rewrite Hm. case_match eqn:Hk; [|by rewrite <- app_assoc].
    rewrite has_key_keys in Hk. apply bool_decide_eq_true in Hk. unfold attr_map. rewrite !list_to_map_app. cbn [list_to_map foldr].
    apply map_eq. intros x. rewrite !lookup_union. destruct (list_to_map (M := gmap (list Z) PrimValue) out !! x) eqn:Ex; [by rewrite !union_Some_l|].
    rewrite !(left_id_L None union). rewrite lookup_insert_ne; [done|]. intros <-. by apply not_elem_of_list_to_map_2 in Ex.
Qed.

(** ** Replacement of strings *)

Lemma utf8_char_pos c : (1 <= length (utf8_char c))%nat.
Proof. unfold utf8_char. repeat case_match; cbn; lia. Qed.

Lemma byte_len_cons c s : byte_len (c :: s) = Z.of_nat (length (utf8_char c)) + byte_len s.
Proof. unfold byte_len, utf8. cbn [fmap list_fmap concat]. rewrite length_app. lia. Qed.

Lemma byte_len_app a b : byte_len (a ++ b) = byte_len a + byte_len b.
Proof. induction a as [|c a IH]; [done|]. cbn [app]. rewrite !byte_len_cons. lia. Qed.

Lemma byte_len_nonneg s : 0 <= byte_len s.
Proof. unfold byte_len. lia. Qed.

Lemma byte_len_zero s : byte_len s = 0 -> s = [].
Proof. destruct s as [|c s]; [done|]. rewrite byte_len_cons. pose proof (utf8_char_pos c). pose proof (byte_len_nonneg s). lia. Qed.

Lemma split_bytes_prefix a : forall b, split_bytes (byte_len a) (a ++ b) = Some (a, b).
Proof.
  induction a as [|c a IH]; intros b; [by destruct b|]. cbn [app split_bytes]. rewrite byte_len_cons. pose proof (utf8_char_pos c). pose proof (byte_len_nonneg a).
  rewrite (proj2 (Z.eqb_neq _ 0)), (proj2 (Z.ltb_ge _ _)) by lia. replace (_ - _) with (byte_len a) by lia. by rewrite IH.
Qed.

Lemma split_bytes_app n s : forall a b, split_bytes n s = Some (a, b) -> s = a ++ b.
Proof.
  revert n. induction s as [|c s IH]; intros n a b; cbn [split_bytes]; (destruct (n =? 0); [by intros [= <- <-]|]); [done|].
  destruct (n <? _); [done|]. destruct (split_bytes _ s) as [[a' b']|] eqn:E; [|done]. cbn. intros [= <- <-]. apply IH in E. cbn. by f_equal.
Qed.

Lemma starts_with_app pat s : starts_with pat (pat ++ s) = true.
Proof. apply bool_decide_eq_true. by rewrite take_app_length. Qed.

Lemma starts_with_split pat s : starts_with pat s = true -> exists r, s = pat ++ r.
Proof. intros H%bool_decide_eq_true. exists (drop (length pat) s). rewrite <- H at 1. by rewrite take_drop. Qed.

Lemma first_match_spec pats rest m : first_match pats rest = Ok m ->
  match m with
  | None => first_pattern pats rest = None
  | Some (pat, rep, after) => first_pattern pats rest = Some (pat, rep) /\ rest = pat ++ after
  end.
Proof.
  induction pats as [|[pat rep] pats IH]; cbn [first_match first_pattern find fst]; [by intros [= <-]|].
  destruct (Z.leb_spec (byte_len pat) (byte_len rest)) as [Hl|Hl].
  - destruct (split_bytes (byte_len pat) rest) as [[s after]|] eqn:E; [|done]. pose proof (split_bytes_app _ _ _ _ E) as ->.
    case_bool_decide as Hs.
    + intros [= <-]. subst s. by rewrite starts_with_app.
    + intros Hm. assert (starts_with pat (s ++ after) = false) as ->; [|by apply IH]. apply not_true_iff_false. intros (r & Hr)%starts_with_split.
      rewrite Hr, split_bytes_prefix in E. by injection E as <- <-.
  - intros Hm. assert (starts_with pat rest = false) as ->; [|by apply IH]. apply not_true_iff_false. intros (r & ->)%starts_with_split.
    rewrite byte_len_app in Hl. pose proof (byte_len_nonneg r). lia.
Qed.

Lemma replace_loop_spec pats fuel : forall s out r, replace_loop fuel pats s out = Ok r -> exists r', r = out ++ r' /\ replaced pats s r'.
Proof.
  induction fuel as [|fuel IH]; intros s out r; [done|]. cbn [replace_loop]. destruct (first_match pats s) as [m| | |] eqn:E; try done.
  apply first_match_spec in E. cbn [mbind res_bind]. destruct m as [[[pat rep] after]|].
  - destruct E as [E Hs]. destruct pat as [|p pat].
    + cbn [app] in Hs. subst after. destruct s as [|c s].
      * intros [= <-]. exists rep. split; [done|]. by constructor.
      * intros (r' & -> & Hr)%IH. exists (rep ++ c :: r'). rewrite <- app_assoc. split; [by rewrite <- app_assoc|]. by apply repl_empty.
    + intros (r' & -> & Hr)%IH. exists (rep ++ r'). rewrite app_assoc. split; [done|]. subst s. by apply repl_hit.
  - destruct s as [|c s].
    + intros [= <-]. exists []. rewrite app_nil_r. split; [done|]. by constructor.
    + intros (r' & -> & Hr)%IH. exists (c :: r'). rewrite <- app_assoc. split; [done|]. by apply repl_miss.
Qed.

Notation ascii s := (Forall (fun c => 0 <= c < 128) s).

Lemma byte_len_ascii s : ascii s -> byte_len s = Z.of_nat (length s).
Proof.
  induction 1 as [|c s Hc _ IH]; [done|]. rewrite byte_len_cons, IH. unfold utf8_char. rewrite (proj2 (Z.ltb_lt _ _)) by lia. cbn [length]. lia.
Qed.

Lemma split_bytes_ascii s : ascii s -> forall n, 0 <= n <= byte_len s -> exists a b, split_bytes n s = Some (a, b).
Proof.
  induction 1 as [|c s Hc _ IH]; intros n Hn; cbn [split_bytes].
  - destruct (Z.eqb_spec n 0); [by do 2 eexists|]. unfold byte_len in Hn. cbn in Hn. lia.
  - destruct (Z.eqb_spec n 0); [by do 2 eexists|]. rewrite byte_len_cons in Hn. assert (length (utf8_char c) = 1%nat) as Hw.
    { unfold utf8_char. by rewrite (proj2 (Z.ltb_lt _ _)) by lia. }
    rewrite Hw in *. rewrite (proj2 (Z.ltb_ge _ _)) by lia. destruct (IH (n - Z.of_nat 1)) as (a & b & ->); [lia|]. by do 2 eexists.
Qed.

Lemma first_match_ascii pats s : ascii s -> exists m, first_match pats s = Ok m.
Proof.
  intros Hs. induction pats as [|[pat rep] pats [m IH]]; [by eexists|]. cbn [first_match]. destruct (Z.leb_spec (byte_len pat) (byte_len s)); [|by eexists].
  destruct (split_bytes_ascii s Hs (byte_len pat)) as (a & b & ->); [pose proof (byte_len_nonneg pat); lia|]. case_bool_decide; by eexists.
Qed.

Lemma replace_loop_ascii pats fuel : forall s out, ascii s -> (length s < fuel)%nat -> exists r, replace_loop fuel pats s out = Ok r.
Proof.
  induction fuel as [|fuel IH]; intros s out Hs Hf; [lia|]. cbn [replace_loop]. destruct (first_match_ascii pats s Hs) as [m Hm].
  pose proof (first_match_spec _ _ _ Hm) as E. rewrite Hm. cbn [mbind res_bind].
  assert (forall c t out, s = c :: t -> exists r, replace_loop fuel pats t out = Ok r) as Hnext.
  { intros c t o ->. apply IH; [by apply Forall_cons in Hs as [_ Hs]|cbn in Hf; lia]. }
  destruct m as [[[pat rep] after]|].
  - destruct E as [_ ->]. destruct pat as [|p pat]; [destruct (([] ++ after)) eqn:Ea; [by eexists|by eapply Hnext]|].
    apply IH; [by apply Forall_app in Hs as [_ Hs]|]. rewrite length_app in Hf. cbn in Hf. lia.
  - destruct s; [by eexists|by eapply Hnext].
Qed.

Lemma replace_loop_ends pats fuel : forall s out, (length s < fuel)%nat ->
  replace_loop fuel pats s out <> Fuel /\ forall e, replace_loop fuel pats s out <> Err e.
Proof.
  assert (forall s, first_match pats s <> Fuel /\ forall e, first_match pats s <> Err e) as Hfm.
  { intros s. induction pats as [|[pat rep] ps IH]; [done|]. cbn [first_match]. repeat case_match; done. }
  induction fuel as [|fuel IH]; intros s out Hf; [lia|]. cbn [replace_loop]. destruct (Hfm s) as [H1 H2].
  destruct (first_match pats s) as [m|e| |] eqn:Hm; try done; [|by destruct (H2 e)].
  pose proof (first_match_spec _ _ _ Hm) as E. cbn [mbind res_bind]. destruct m as [[[pat rep] after]|].
  - destruct E as [_ ->]. destruct pat as [|p pat]; [cbn [app] in *; destruct after; [done|apply IH; cbn in Hf; lia]|].
    apply IH. rewrite length_app in Hf. cbn in Hf. lia.
  - destruct s; [done|apply IH; cbn in Hf; lia].
Qed.

Lemma strings_of_all msg (ss : list (list Z)) : strings_of msg (PStr <$> ss) = Ok ss.
Proof. induction ss as [|s ss IH]; [done|]. cbn. by rewrite IH. Qed.

(** ** Equality *)

Section Eq.
Context `{Host}.

Lemma value_eq_data a : forall b, is_data a -> is_data b -> exists e, value_eq a b = Some e /\ (e = true <-> a = b).
Proof.
  induction a using value_ind; intros w Ha Hb; try done; destruct w; try done; cbn [value_eq]; try (by eexists; split; [done|]; (done || split; congruence)).
  - eexists. split; [done|]. rewrite Z.eqb_eq. split; congruence.
  - eexists. split; [done|]. rewrite bool_decide_eq_true. split; congruence.
  - eexists. split; [done|]. rewrite bool_decide_eq_true. split; congruence.
  - eexists. split; [done|]. rewrite eqb_true_iff. split; congruence.
  - destruct (Nat.eqb_spec (length xs) (length vs)) as [Hl|Hl]; [|eexists; split; [done|]; split; [done|intros [= ->]; done]].
    assert (exists e, (fix go (x y : list PrimValue) : option bool := match x, y with
        | xi :: x, yi :: y => match value_eq xi yi with Some true => go x y | r => r end | _, _ => Some true end) xs vs = Some e /\ (e = true <-> xs = vs)) as (e & He & Hee).
    { cbn [is_data] in *. revert vs Hb Hl. match goal with Hx : Forall _ _ |- _ => induction Hx as [|x xs Hx1 _ IH] end; intros [|y vs] Hb Hl; try done; [by eexists|].
      destruct Ha as [Ha1 Ha2], Hb as [Hb1 Hb2]. destruct (Hx1 y Ha1 Hb1) as ([] & -> & Hxy).
      - destruct (IH Ha2 vs Hb2) as (e & -> & He); [cbn in Hl; lia|]. exists e. split; [done|]. rewrite He. split; [intros ->; f_equal; by apply Hxy|congruence].
      - exists false. split; [done|]. split; [done|]. intros [= -> ->]. by apply Hxy. }
    exists e. rewrite He. split; [done|]. rewrite Hee. split; congruence.
  - destruct (Nat.eqb_spec (length kvs) (length kvs0)) as [Hl|Hl]; [|eexists; split; [done|]; split; [done|intros [= ->]; done]].
    assert (exists e, (fix go (x y : list (list Z * PrimValue)) : option bool := match x, y with
        | (kx, vx) :: x, (ky, vy) :: y => if bool_decide (kx = ky) then match value_eq vx vy with Some true => go x y | r => r end else Some false
        | _, _ => Some true end) kvs kvs0 = Some e /\ (e = true <-> kvs = kvs0)) as (e & He & Hee).
    { cbn [is_data] in *. revert kvs0 Hb Hl. match goal with Hx : Forall _ _ |- _ => induction Hx as [|[k x] kvs Hx1 _ IH] end; intros [|[k' y] vs] Hb Hl; try done; [by eexists|].
      destruct Ha as [Ha1 Ha2], Hb as [Hb1 Hb2]. cbn [snd] in *. case_bool_decide as Hk; [|exists false; split; [done|]; split; [done|congruence]]. subst k'.
      destruct (Hx1 y Ha1 Hb1) as ([] & -> & Hxy).
      - destruct (IH Ha2 vs Hb2) as (e & -> & He); [cbn in Hl; lia|]. exists e. split; [done|]. rewrite He. split; [intros ->; do 2 f_equal; by apply Hxy|congruence].
      - exists false. split; [done|]. split; [done|]. intros [= -> ->]. by apply Hxy. }
    exists e. rewrite He. split; [done|]. rewrite Hee. split; congruence.
Qed.
End Eq.

(** ** Results are well formed *)

Definition keeps_wf (p : list PrimValue -> res DnxError PrimValue) : Prop :=
  forall args v, Forall value_wf args -> Forall fits args -> p args = Ok v -> value_wf v.

(** Takes the arguments of a call apart. *)
Ltac args_of Hr :=
  repeat (case_match; try discriminate); simplify_eq;
  repeat match goal with H : Forall value_wf (_ :: _) |- _ => apply Forall_cons in H as [? H] end;
  repeat match goal with H : Forall fits (_ :: _) |- _ => apply Forall_cons in H as [? H] end; cbn [value_wf] in *.

Lemma attr_get_wf k set v : foldr and True (map (fun kv => value_wf kv.2) set) -> attr_get k set = Some v -> value_wf v.
Proof. rewrite attr_get_map. intros Hs Hv%elem_of_list_to_map_2. by apply (all_elem _ _ Hs (k, v)). Qed.

Lemma strings_list_wf (l : list (list Z * PrimValue)) : foldr and True (map value_wf (map (fun kv => PStr kv.1) l)).
Proof. by induction l. Qed.

Lemma values_wf (P : PrimValue -> Prop) (l : list (list Z * PrimValue)) : foldr and True (map (fun kv => P kv.2) l) <-> foldr and True (map P (map snd l)).
Proof. by rewrite map_map. Qed.

Lemma sorted_wf l : NoDup l.*1 -> Forall (fun kv => value_wf kv.2) l -> value_wf (PAttrSet (sort_by l)).
Proof. intros Hn Hl. split; [by apply sort_by_wf|]. apply all_iff. by rewrite (sort_by_perm l). Qed.

Lemma prim_insert_wf : keeps_wf prim_insert.
Proof.
  intros args v Hw Hf Hr. unfold prim_insert in Hr. destruct args as [|[] [|[] [|x [|? ?]]]]; try discriminate. injection Hr as <-.
  apply Forall_cons in Hw as [[Hs Hk] Hw]. apply Forall_cons in Hw as [_ Hw]. apply Forall_cons in Hw as [Hx _].
  split; [by apply insert_wf|]. apply all_iff. apply all_iff in Hk. case_match; [by apply set_key_forall|].
  rewrite (sort_by_perm _). apply Forall_app. split; [done|]. by repeat constructor.
Qed.

Lemma prim_update_wf : keeps_wf prim_update.
Proof.
  intros args v Hw Hf Hr. unfold prim_update in Hr. destruct args as [|[] [|[] [|? ?]]]; try discriminate. injection Hr as <-.
  apply Forall_cons in Hw as [[Hs Hk] Hw]. apply Forall_cons in Hw as [[Hs2 Hk2] _]. apply sorted_wf.
  - by apply update_fold, sm_wf_nodup.
  - apply all_iff in Hk, Hk2. clear Hf Hs Hs2. revert kvs Hk. induction Hk2 as [|[k x] b Hx _ IH]; intros a Ha; [done|]. cbn [foldl fst snd]. by apply IH, set_key_forall.
Qed.

Lemma collect_wf items : foldr and True (map value_wf items) -> forall out r, collect_attrs items out = Ok r ->
  Forall (fun kv => value_wf kv.2) out -> Forall (fun kv => value_wf kv.2) r.
Proof.
  induction items as [|item items IH]; intros Hi out r Hr Ho; cbn [collect_attrs] in Hr; [by injection Hr as <-|]. destruct Hi as [Hi His].
  destruct (name_value item) as [[k v]| | |] eqn:E; try discriminate. cbn [mbind res_bind] in Hr. eapply IH; [done|exact Hr|].
  case_match; [done|]. apply Forall_app. split; [done|]. constructor; [|constructor]. unfold name_value in E.
  repeat case_match; try discriminate. simplify_eq. destruct Hi as [_ Hi]. by eapply attr_get_wf.
Qed.

Lemma prim_list_to_attrs_wf : keeps_wf prim_list_to_attrs.
Proof.
  intros args v Hw Hf Hr. unfold prim_list_to_attrs in Hr. destruct args as [|[] [|? ?]]; try discriminate.
  destruct (collect_attrs vs []) as [out| | |] eqn:E; try discriminate. injection Hr as <-. apply Forall_cons in Hw as [Hw _].
  apply sorted_wf; [by eapply collect_attrs_spec; [exact E|constructor]|]. eapply collect_wf; [exact Hw|exact E|constructor].
Qed.

Lemma filter_wf (p : list Z * PrimValue -> bool) set : value_wf (PAttrSet set) -> value_wf (PAttrSet (List.filter p set)).
Proof.
  intros [Hs Hk]. split; [by apply filter_sorted|]. apply all_iff. apply all_iff in Hk. rewrite Forall_forall in Hk |- *.
  intros kv Hin%list_elem_of_In. apply filter_In in Hin as [Hin%list_elem_of_In _]. by apply Hk.
Qed.

Lemma prim_remove_attrs_wf : keeps_wf prim_remove_attrs.
Proof.
  intros args v Hw Hf Hr. unfold prim_remove_attrs in Hr. destruct args as [|[] [|[] [|? ?]]]; try discriminate.
  destruct (strings_of _ _); try discriminate. injection Hr as <-. apply filter_wf. by apply Forall_cons in Hw as [Hw _].
Qed.

Lemma prim_intersect_attrs_wf : keeps_wf prim_intersect_attrs.
Proof.
  intros args v Hw Hf Hr. unfold prim_intersect_attrs in Hr. destruct args as [|[] [|[] [|? ?]]]; try discriminate. injection Hr as <-.
  apply filter_wf. apply Forall_cons in Hw as [_ Hw]. by apply Forall_cons in Hw as [Hw _].
Qed.

Lemma prim_derivation_strict_wf : keeps_wf prim_derivation_strict.
Proof.
  intros args v Hw Hf Hr. unfold prim_derivation_strict in Hr. destruct args as [|[] [|? ?]]; try discriminate.
  destruct (require "name" kvs); try discriminate. destruct (require "builder" kvs); try discriminate. injection Hr as <-.
  apply Forall_cons in Hw as [[Hs Hk] _]. case_match eqn:Ht; [done|]. rewrite has_key_keys in Ht. apply bool_decide_eq_false in Ht. apply sorted_wf.
  - rewrite fmap_app. apply NoDup_app. split; [by apply sm_wf_nodup|]. split; [|apply NoDup_singleton]. intros x Hx ->%list_elem_of_singleton. done.
  - apply Forall_app. split; [by apply all_iff|]. by repeat constructor.
Qed.

Lemma cat_attrs_wf name sets : foldr and True (map value_wf sets) -> forall out, cat_attrs name sets = Ok out -> foldr and True (map value_wf out).
Proof.
  induction sets as [|s sets IH]; intros Hs out Hr; cbn [cat_attrs] in Hr; [by injection Hr as <-|]. destruct s; try discriminate. destruct Hs as [[_ Hk] Hs].
  destruct (cat_attrs name sets) as [out'| | |]; try discriminate. injection Hr as <-. specialize (IH Hs out' eq_refl).
  destruct (attr_get name kvs) eqn:E; [|done]. split; [by eapply attr_get_wf|done].
Qed.

Lemma concat_lists_wf lists : foldr and True (map value_wf lists) -> forall out, concat_lists lists = Ok out -> foldr and True (map value_wf out).
Proof.
  induction lists as [|l lists IH]; intros Hs out Hr; cbn [concat_lists] in Hr; [by injection Hr as <-|]. destruct l; try discriminate. destruct Hs as [Hl Hs].
  destruct (concat_lists lists) as [out'| | |]; try discriminate. injection Hr as <-. apply all_iff, Forall_app. split; apply all_iff; [done|by apply IH].
Qed.

(** A number of 64 bits has a constant sign above bit 63. *)
Lemma int_range z : - 2 ^ 63 <= z < 2 ^ 63 <-> Z.shiftr z 63 = 0 \/ Z.shiftr z 63 = -1.
Proof. rewrite Z.shiftr_div_pow2 by lia. change (2 ^ 63) with 9223372036854775808. pose proof (Z.div_mod z 9223372036854775808). pose proof (Z.mod_pos_bound z 9223372036854775808). lia. Qed.

Lemma prim_bit_wf msg f : (forall a b, Z.shiftr (f a b) 63 = f (Z.shiftr a 63) (Z.shiftr b 63)) ->
  (forall a b, (a = 0 \/ a = -1) -> (b = 0 \/ b = -1) -> f a b = 0 \/ f a b = -1) -> keeps_wf (prim_bit msg f).
Proof.
  intros Hs Hf args v Hw _ Hr. unfold prim_bit in Hr. destruct args as [|[] [|[] [|? ?]]]; try discriminate. injection Hr as <-.
  apply Forall_cons in Hw as [Ha Hw]. apply Forall_cons in Hw as [Hb _]. cbn [value_wf] in *. apply int_range. rewrite Hs. apply Hf; by apply int_range.
Qed.

Section Wf.
Context `{Host}.

Lemma arith_wf f g args r v : (forall a b z, f a b = Some z -> - 2 ^ 63 <= z < 2 ^ 63) -> arith f g args = Some r -> r = Ok v -> value_wf v.
Proof.
  intros Hf Hr ->. unfold arith, check_int in Hr. repeat (case_match; try discriminate); simplify_eq; try done. cbn [value_wf]. by eapply Hf.
Qed.

Lemma default_arith_wf f g msg : (forall a b z, f a b = Some z -> - 2 ^ 63 <= z < 2 ^ 63) -> keeps_wf (fun args => default (prim_err msg) (arith f g args)).
Proof. intros Hf args v _ _ Hr. destruct (arith f g args) as [r|] eqn:E; [|discriminate]. by eapply arith_wf. Qed.

Lemma int_arith_wf : keeps_wf prim_add /\ keeps_wf prim_sub /\ keeps_wf prim_mul /\ keeps_wf prim_div /\ keeps_wf prim_neg.
Proof.
  assert (forall h : Z -> Z -> Z, forall a b z, checked (h a b) = Some z -> - 2 ^ 63 <= z < 2 ^ 63) as Hc by (intros h a b z; apply checked_range).
  split; [|split; [|split; [|split]]].
  - intros args v _ _ Hr. unfold prim_add in Hr. destruct (arith _ f_add args) as [r|] eqn:E; [eapply arith_wf; [apply (Hc Z.add)|exact E|exact Hr]|].
    repeat (case_match; try discriminate). by simplify_eq.
  - apply default_arith_wf, (Hc Z.sub).
  - apply default_arith_wf, (Hc Z.mul).
  - intros args v Hw Hf Hr. unfold prim_div in Hr.
    destruct args as [|[] [|[] [|? ?]]]; try discriminate; try (by injection Hr as <-).
    2: by destruct i0.
    destruct (decide (i0 = 0)) as [->|Hz]; [discriminate|].
    assert (check_int (checked (i ÷ i0)) = Ok v) as Hq by (destruct i0; [done|exact Hr..]).
    unfold check_int in Hq. destruct (checked _) eqn:E; [|discriminate]. injection Hq as <-. by apply checked_range in E.
  - intros args v _ _ Hr. unfold prim_neg, check_int in Hr. destruct args as [|[] [|? ?]]; try discriminate; [|by injection Hr as <-].
    destruct (checked _) eqn:E; [|discriminate]. injection Hr as <-. by apply checked_range in E.
Qed.

Ltac head_of t := match t with ?f _ => head_of f | _ => t end.

(** For a function whose branches are a constructor on parts of its arguments. *)
Ltac by_branches :=
  let args := fresh "args" in let v := fresh "v" in let Hr := fresh "Hr" in
  intros args v ? ? Hr;
  lazymatch type of Hr with ?c = _ => let f := head_of c in unfold f in Hr end;
  try unfold prim_is, prim_cmp, prim_err, attr_missing in Hr;
  repeat (case_match; try discriminate); simplify_eq; cbn [value_wf] in *;
  repeat match goal with H : Forall value_wf (_ :: _) |- _ => apply Forall_cons in H as [? H]; cbn [value_wf] in * end;
  try done.

Lemma list_functions_wf : keeps_wf prim_attr_names /\ keeps_wf prim_attr_values /\ keeps_wf prim_cat_attrs /\ keeps_wf prim_concat_lists.
Proof.
  split; [|split; [|split]]; intros args v Hw _ Hr.
  - unfold prim_attr_names in Hr. destruct args as [|[] [|? ?]]; try discriminate. injection Hr as <-. apply strings_list_wf.
  - unfold prim_attr_values in Hr. destruct args as [|[] [|? ?]]; try discriminate. injection Hr as <-. apply Forall_cons in Hw as [[_ Hw] _].
    by apply (values_wf value_wf).
  - unfold prim_cat_attrs in Hr. destruct args as [|[] [|[] [|? ?]]]; try discriminate. destruct (cat_attrs s vs) as [out| | |] eqn:E; try discriminate.
    injection Hr as <-. apply Forall_cons in Hw as [_ Hw]. apply Forall_cons in Hw as [Hw _]. by apply (cat_attrs_wf s vs).
  - unfold prim_concat_lists in Hr. destruct args as [|[] [|? ?]]; try discriminate. destruct (concat_lists vs) as [out| | |] eqn:E; try discriminate.
    injection Hr as <-. apply Forall_cons in Hw as [Hw _]. by apply (concat_lists_wf vs).
Qed.

Lemma lookups_wf : keeps_wf prim_select /\ keeps_wf prim_select_or /\ keeps_wf prim_get_attr.
Proof.
  split; [|split]; intros args v Hw _ Hr.
  - unfold prim_select in Hr. destruct args as [|[] [|[] [|? ?]]]; try discriminate. destruct (attr_get _ _) eqn:E; [|discriminate]. injection Hr as <-.
    apply Forall_cons in Hw as [[_ Hw] _]. by eapply attr_get_wf.
  - unfold prim_select_or in Hr. destruct args as [|[] [|[] [|d [|? ?]]]]; try discriminate. injection Hr as <-.
    apply Forall_cons in Hw as [[_ Hk] Hw]. apply Forall_cons in Hw as [_ Hw]. apply Forall_cons in Hw as [Hd _].
    destruct (attr_get _ _) eqn:E; [by eapply attr_get_wf|done].
  - unfold prim_get_attr in Hr. destruct args as [|[] [|[] [|? ?]]]; try discriminate. destruct (attr_get _ _) eqn:E; [|discriminate]. injection Hr as <-.
    apply Forall_cons in Hw as [_ Hw]. apply Forall_cons in Hw as [[_ Hw] _]. by eapply attr_get_wf.
Qed.

Lemma string_functions_wf : keeps_wf prim_to_json /\ keeps_wf prim_concat_strings_sep /\ keeps_wf prim_replace_strings /\
  keeps_wf prim_string_length /\ keeps_wf prim_to_int /\ keeps_wf prim_ne.
Proof.
  split; [|split; [|split; [|split; [|split]]]]; intros args v Hw Hf Hr.
  - unfold prim_to_json in Hr. destruct args as [|? [|? ?]]; try discriminate. destruct (json_of _ _); try discriminate. by injection Hr as <-.
  - unfold prim_concat_strings_sep in Hr. destruct args as [|[] [|[] [|? ?]]]; try discriminate. destruct (join_strings _ _ _ _); try discriminate. by injection Hr as <-.
  - unfold prim_replace_strings in Hr. destruct args as [|[] [|[] [|[] [|? ?]]]]; try discriminate. case_match; [discriminate|].
    destruct (strings_of _ vs); try discriminate. cbn [mbind res_bind] in Hr. destruct (strings_of _ vs0); try discriminate. cbn [mbind res_bind] in Hr.
    destruct (replace_loop _ _ _ _); try discriminate. by injection Hr as <-.
  - unfold prim_string_length in Hr. destruct args as [|[] [|? ?]]; try discriminate. injection Hr as <-. apply Forall_cons in Hf as [Hf _].
    cbn [value_wf fits] in *. pose proof (byte_len_nonneg s). lia.
  - unfold prim_to_int in Hr. destruct args as [|[] [|? ?]]; try discriminate. destruct (parse_int _) eqn:E; [|discriminate]. injection Hr as <-. by eapply parse_int_range.
  - unfold prim_ne, prim_eq in Hr. destruct args as [|? [|? [|? ?]]]; try discriminate. destruct (value_eq _ _); [|discriminate]. by injection Hr as <-.
Qed.

Lemma prim_from_json_wf : keeps_wf prim_from_json.
Proof.
  intros args v _ _ Hr. unfold prim_from_json in Hr. destruct args as [|[] [|? ?]]; try discriminate. pose proof (value_settled (length s) s (le_n _)) as Hs.
  destruct (json_parse_value _ s) as [[w rest]| | |]; try discriminate. cbn in Hs, Hr. case_match; [|discriminate]. injection Hr as <-. apply Hs.
Qed.

Lemma builtins_keep_wf : Forall (fun b => keeps_wf b.2) builtins.
Proof.
  pose proof int_arith_wf as (? & ? & ? & ? & ?). pose proof list_functions_wf as (? & ? & ? & ?). pose proof lookups_wf as (? & ? & ?).
  pose proof string_functions_wf as (? & ? & ? & ? & ? & ?).
  unfold builtins. repeat (apply Forall_cons; split); cbn [snd]; try assumption;
    first [exact prim_insert_wf|exact prim_update_wf|exact prim_list_to_attrs_wf|exact prim_remove_attrs_wf|exact prim_intersect_attrs_wf
      |exact prim_derivation_strict_wf|exact prim_from_json_wf|idtac].
  all: try (by by_branches).
  - apply prim_bit_wf; [intros a b; apply Z.shiftr_land|]. intros a b [-> | ->] [-> | ->]; cbn; auto.
  - apply prim_bit_wf; [intros a b; apply Z.shiftr_lor|]. intros a b [-> | ->] [-> | ->]; cbn; auto.
  - apply prim_bit_wf; [intros a b; apply Z.shiftr_lxor|]. intros a b [-> | ->] [-> | ->]; cbn; auto.
  - intros args v _ _ Hr. destruct args; [|discriminate]. injection Hr as <-. split; constructor.
  - intros args v Hw _ Hr. unfold prim_mk_singleton in Hr. destruct args as [|[] [|x [|? ?]]]; try discriminate. injection Hr as <-.
    apply Forall_cons in Hw as [_ Hw]. apply Forall_cons in Hw as [Hx _]. split; [|done]. repeat constructor.
  - done.
Qed.
End Wf.

(** ** The table *)

Lemma chars_inj s t : chars s = chars t -> s = t.
Proof.
  unfold chars. intros Hs. assert (String.list_ascii_of_string s = String.list_ascii_of_string t) as Hl.
  { revert Hs. generalize (String.list_ascii_of_string s), (String.list_ascii_of_string t). induction l as [|a l IH]; intros [|b l'] He; try done.
    cbn in He. injection He as Hab%N2Z.inj He. f_equal; [|by apply IH]. apply (f_equal Ascii.ascii_of_N) in Hab. by rewrite !Ascii.ascii_N_embedding in Hab. }
  apply (f_equal String.string_of_list_ascii) in Hl. by rewrite !String.string_of_list_ascii_of_string in Hl.
Qed.

Lemma position_found {A} (p : A -> bool) l x : x ∈ l -> p x = true -> exists i y, position p l = Some i /\ l !! i = Some y /\ p y = true.
Proof.
  intros Hx Hp. induction l as [|z l IH]; [by apply not_elem_of_nil in Hx|]. cbn [position]. destruct (p z) eqn:E; [by exists 0%nat, z|].
  apply elem_of_cons in Hx as [->|Hx]; [congruence|]. destruct (IH Hx) as (i & y & -> & Hi & Hy). by exists (S i), y.
Qed.

Section Table.
Context `{Host}.

Lemma table_names : tb_names nix_prim_table = chars <$> ((fun b => b.1.1) <$> builtins).
Proof. reflexivity. Qed.

Lemma table_impls : tb_impls nix_prim_table = imap (fun i b => (b.1.2, Pure i)) builtins.
Proof. reflexivity. Qed.

Lemma name_known f name : nixprimfun_name f = Some name -> name ∈ ((fun b => b.1.1) <$> builtins).
Proof.
  assert (Forall (fun kv => kv.2 ∈ ((fun b => b.1.1) <$> builtins)) aliases) as Hal.
  { unfold aliases. repeat (constructor; [apply list_elem_of_In; cbn; tauto|]). constructor. }
  intros Hn. destruct f; cbn [nixprimfun_name] in Hn; try discriminate; try (injection Hn as <-; apply list_elem_of_In; cbn; tauto).
  unfold alias in Hn. destruct (find _ aliases) as [kv|] eqn:E; [|discriminate]. injection Hn as <-. apply find_some in E as [E%list_elem_of_In _].
  rewrite Forall_forall in Hal. by apply Hal.
Qed.
End Table.

(** * Properties *)


#[local] Instance no_floats : Host := {|
  f_add _ _ := 0; f_sub _ _ := 0; f_mul _ _ := 0; f_div _ _ := 0; f_neg _ := 0; f_of_int _ := 0; f_lt _ _ := false; f_le _ _ := false;
  f_text _ := []; f_parse _ := None; white c := c =? 32
|}.


(** C24: the functions on attribute sets are those of finite maps.  On sets
    sorted by name, [insert], the update operator, [removeAttrs],
    [intersectAttrs] and [listToAttrs], where the first value of a name wins,
    return a sorted set that stands for the map with the binding inserted,
    the right-biased union, the restrictions and the map of the list;
    selection and membership are those of the map. *)
Theorem attrs_refine (a b : list (list Z * PrimValue)) (k : list Z) (v : PrimValue) (names : list (list Z)) (items : list PrimValue) :
  sm_wf a -> sm_wf b ->
  (exists r, prim_insert [PAttrSet a; PStr k; v] = Ok (PAttrSet r) /\ sm_wf r /\ attr_map r = <[k := v]> (attr_map a)) /\
  (exists r, prim_update [PAttrSet a; PAttrSet b] = Ok (PAttrSet r) /\ sm_wf r /\ attr_map r = attr_map b ∪ attr_map a) /\
  (exists r, prim_remove_attrs [PAttrSet a; PList (PStr <$> names)] = Ok (PAttrSet r) /\ sm_wf r /\
    forall x, attr_map r !! x = if decide (x ∈ names) then None else attr_map a !! x) /\
  (exists r, prim_intersect_attrs [PAttrSet a; PAttrSet b] = Ok (PAttrSet r) /\ sm_wf r /\
    forall x, attr_map r !! x = if decide (is_Some (attr_map a !! x)) then attr_map b !! x else None) /\
  (forall r, prim_list_to_attrs [PList items] = Ok r -> exists set kvs,
    r = PAttrSet set /\ sm_wf set /\ mapMr name_value items = Ok kvs /\ attr_map set = list_to_map kvs) /\
  prim_select [PAttrSet a; PStr k] = match attr_map a !! k with Some x => Ok x | None => attr_missing k end /\
  prim_has_attr [PAttrSet a; PStr k] = Ok (PBool (bool_decide (is_Some (attr_map a !! k)))).
Proof.
  intros Ha Hb. split; [|split; [|split; [|split; [|split; [|split]]]]].
  - eexists. split; [reflexivity|]. by apply insert_wf.
  - eexists. split; [reflexivity|]. destruct (update_fold b a) as [H1 H2]. specialize (H1 (sm_wf_nodup _ Ha)).
    split; [by apply sort_by_wf|]. rewrite attr_map_sort by done. by apply H2, sm_wf_nodup.
  - unfold prim_remove_attrs. rewrite strings_of_all. eexists. split; [reflexivity|]. split; [by apply filter_sorted|]. intros x.
    pose proof (attr_map_filter (fun y => negb (bool_decide (y ∈ names))) a x) as Hf. cbn beta in Hf. rewrite Hf. case_bool_decide; case_decide; done.
  - eexists. split; [reflexivity|]. split; [by apply filter_sorted|]. intros x.
    pose proof (attr_map_filter (fun y => has_key y a) b x) as Hf. cbn beta in Hf. rewrite Hf, has_key_map.
    case_bool_decide; case_decide; done.
  - intros r Hr. unfold prim_list_to_attrs in Hr. destruct (collect_attrs items []) as [out| | |] eqn:E; try discriminate. injection Hr as <-.
    destruct (collect_attrs_spec _ _ _ E) as (Hn & kvs & Hk & Hm); [constructor|]. exists (sort_by out), kvs. split; [done|]. split; [by apply sort_by_wf|].
    split; [done|]. by rewrite attr_map_sort.
  - unfold prim_select. by rewrite attr_get_map.
  - unfold prim_has_attr. by rewrite has_key_map.
Qed.

Lemma attrs_refine_witness : let a := [(chars "x", PInt 1); (chars "y", PNull)] in let b := [(chars "y", PInt 2)] in
  sm_wf a /\ sm_wf b /\ exists r, prim_update [PAttrSet a; PAttrSet b] = Ok (PAttrSet r) /\ sm_wf r /\ attr_map r = attr_map b ∪ attr_map a.
Proof.
  intros a b. assert (sm_wf a) as Ha by (repeat constructor). assert (sm_wf b) as Hb by (repeat constructor).
  split; [exact Ha|]. split; [exact Hb|]. apply (attrs_refine a b [] PNull [] [] Ha Hb).
Defined.

(** [replaceStrings] is the scan that it documents.  Whatever it returns
    is the text where, from left to right, the first pattern of the list that
    starts at a position is replaced and skipped, and an empty pattern puts
    its replacement before a character and at the end; it never fails, and on
    ASCII text it always returns. *)
Theorem replace_strings_scan (pats reps : list (list Z)) (s : list Z) :
  length pats = length reps ->
  (forall r, prim_replace_strings [PList (PStr <$> pats); PList (PStr <$> reps); PStr s] = Ok r ->
    exists out, r = PStr out /\ replaced (zip pats reps) s out) /\
  (prim_replace_strings [PList (PStr <$> pats); PList (PStr <$> reps); PStr s] = Panic \/
   exists out, prim_replace_strings [PList (PStr <$> pats); PList (PStr <$> reps); PStr s] = Ok (PStr out)) /\
  (Forall (fun c => 0 <= c < 128) s -> exists out,
    prim_replace_strings [PList (PStr <$> pats); PList (PStr <$> reps); PStr s] = Ok (PStr out) /\ replaced (zip pats reps) s out).
Proof.
  intros Hl. unfold prim_replace_strings. rewrite !length_fmap, Hl, Nat.eqb_refl. cbn [negb]. rewrite !strings_of_all. cbn [mbind res_bind].
  destruct (replace_loop_ends (zip pats reps) (S (length s)) s []) as [H1 H2]; [lia|].
  pose proof (replace_loop_ascii (zip pats reps) (S (length s)) s []) as Ha. pose proof (replace_loop_spec (zip pats reps) (S (length s)) s []) as Hs.
  destruct (replace_loop _ _ s []) as [out|e| |]; try done; [|by destruct (H2 e)|].
  - destruct (Hs out eq_refl) as (r' & -> & Hr). split; [|split].
    + intros r [= <-]. by eexists.
    + right. by eexists.
    + intros _. eexists. split; [done|]. exact Hr.
  - split; [done|]. split; [by left|]. intros Hascii. destruct Ha as [r Hr]; [done|lia|done].
Qed.

Lemma replace_strings_scan_witness :
  let pats := [chars "aa"; chars "b"] in let reps := [chars "x"; chars ""] in let s := chars "aaabb" in
  length pats = length reps /\ exists out,
    prim_replace_strings [PList (PStr <$> pats); PList (PStr <$> reps); PStr s] = Ok (PStr out) /\ replaced (zip pats reps) s out.
Proof.
  intros pats reps s. split; [reflexivity|]. apply (replace_strings_scan pats reps s); [reflexivity|]. vm_compute. repeat constructor; discriminate.
Defined.

(** A pattern that ends inside a character of the text panics: [replaceStrings ["a"] ["b"] "é"]. *)
Lemma replace_strings_panics :
  prim_replace_strings [PList [PStr (chars "a")]; PList [PStr (chars "b")]; PStr [233]] = Panic.
Proof. vm_compute. reflexivity. Qed.

(** [==] decides equality.  On values without floats and functions it
    answers, and answers true exactly on equal values, at every depth of
    lists and attribute sets; [!=] is its negation. *)
Theorem eq_decides `{Host} (a b : PrimValue) : is_data a -> is_data b ->
  exists e, prim_eq [a; b] = Ok (PBool e) /\ prim_ne [a; b] = Ok (PBool (negb e)) /\ (e = true <-> a = b).
Proof.
  intros Ha Hb. destruct (value_eq_data a b Ha Hb) as (e & He & Hab). exists e. unfold prim_ne, prim_eq. rewrite He. done.
Qed.

Lemma eq_decides_witness : let a := PAttrSet [(chars "k", PList [PInt 1; PStr (chars "s")])] in
  is_data a /\ exists e, prim_eq [a; PNull] = Ok (PBool e) /\ prim_ne [a; PNull] = Ok (PBool (negb e)) /\ (e = true <-> a = PNull).
Proof. intros a. assert (is_data a) as Ha by (cbn; tauto). split; [exact Ha|]. by apply eq_decides. Defined.

(** The table resolves every name.  A primitive function of the front ends
    that has a name, by itself or as the Nix name of a builtin, is found in
    the table: the entry has the registered name and arity, and its function
    pointer is the registered function. *)
Theorem table_resolves `{Host} (f : NixPrimFun) (name : string) : nixprimfun_name f = Some name ->
  exists i arity p, builtins !! i = Some (name, arity, p) /\ nixprimfun_to_entry f = Some (mk_fun (chars name) arity [] (Pure i)).
Proof.
  intros Hn. unfold nixprimfun_to_entry. rewrite Hn. cbn [mbind option_bind].
  destruct (position_found (fun n => bool_decide (n = chars name)) (tb_names nix_prim_table) (chars name)) as (i & x & Hi & Hx & Hp).
  { rewrite table_names. apply list_elem_of_fmap. eexists. split; [done|]. by eapply name_known. }
  { by apply bool_decide_eq_true. }
  apply bool_decide_eq_true in Hp as ->. rewrite table_names, list_lookup_fmap in Hx.
  destruct (((fun b => b.1.1) <$> builtins) !! i) as [name'|] eqn:E; [|done]. injection Hx as Hx%chars_inj. subst name'.
  rewrite list_lookup_fmap in E. destruct (builtins !! i) as [[[name' arity] p]|] eqn:Eb; [|done]. injection E as ->.
  exists i, arity, p. split; [done|]. unfold table_lookup. rewrite Hi. cbn [fmap option_fmap option_map mbind option_bind].
  assert (i < 55)%nat as Hlt by (apply lookup_lt_Some in Eb; exact Eb). unfold make_entry.
  assert (as_u16 (Z.of_nat i) = Z.of_nat i) as -> by (unfold as_u16; apply wrap_small; lia). rewrite Nat2Z.id, table_impls, table_names, list_lookup_imap, !list_lookup_fmap, Eb. done.
Qed.

Lemma table_resolves_witness : nixprimfun_name (FBuiltin (chars "replaceStrings")) = Some "replace_strings"%string /\
  exists i arity p, builtins !! i = Some ("replace_strings"%string, arity, p) /\
    nixprimfun_to_entry (FBuiltin (chars "replaceStrings")) = Some (mk_fun (chars "replace_strings") arity [] (Pure i)).
Proof.
  assert (nixprimfun_name (FBuiltin (chars "replaceStrings")) = Some "replace_strings"%string) as Hn by (vm_compute; reflexivity).
  split; [exact Hn|]. by apply table_resolves.
Defined.

(** A length counts bytes, a substring characters. *)
Lemma length_in_bytes : prim_string_length [PStr [233; 97]] = Ok (PInt 3) /\ prim_substring [PInt 0; PInt 2; PStr [233; 97]] = Ok (PStr [233; 97]).
Proof. vm_compute. done. Qed.

(** The directory of the root is not the root. *)
Lemma dir_of_root : prim_dir_of [PStr (chars "/")] = Ok (PStr (chars ".")) /\ prim_dir_of [PStr (chars "/a")] = Ok (PStr (chars "/")).
Proof. vm_compute. done. Qed.
