(* ===== verification/NixLower.v ===== *)
(** * Lowering Nix to the core syntax ([crates/dnx-lang/src/parser/], [scope.rs])

    The front end walks the tree with a scope of use counts and makes sharing
    explicit as it leaves each binder.  An [import] is parsed and lowered in
    place, in the file tree [tree]; importing calls lowering on the tree of
    another file, so [translate_expr] takes the import as an argument and
    [import_file] ties the knot with fuel.  A value that is lowered later
    than it is collected is kept as the action that lowers it. *)
From S2P Require Import Prelude Bytes Utf8 Text Error StorePath Fs NixTree Ast Share NixVal Json Builtins.

Notation E := (Ast NixPrimVal NixPrimFun).

(** ** The prelude ([prelude.rs]) *)

Open Scope string_scope.
Definition DEFS : list (string * string) :=
  [("derivation", "drv: derivationStrict drv");
   ("nil", "c: n: n"); ("cons", "h: t: c: n: c h t"); ("head", "xs: xs (h: t: h) nil"); ("tail", "xs: xs (h: t: t) nil");
   ("isNil", "xs: xs (h: t: false) true");
   ("length", "xs: (fix (self: ys: acc: ys (h: t: self t (acc + 1)) acc)) xs 0");
   ("elemAt", "xs: i: (fix (self: ys: j: ys (h: t: if j == i then h else self t (j + 1)) nil)) xs 0");
   ("elem", "x: xs: (fix (self: ys: ys (h: t: if h == x then true else self t) false)) xs");
   ("concat", "a: b: (fix (self: xs: xs (h: t: cons h (self t)) b)) a");
   ("map", "f: xs: (fix (self: ys: ys (h: t: cons (f h) (self t)) nil)) xs");
   ("filter", "pred: xs: (fix (self: ys: ys (h: t: if pred h then cons h (self t) else self t) nil)) xs");
   ("foldl'", "op: acc: xs: (fix (self: a: ys: ys (h: t: self (op a h) t) a)) acc xs");
   ("genList", "gen: count: (fix (self: i: if i < count then cons (gen i) (self (i + 1)) else nil)) 0");
   ("concatMap", "f: xs: (fix (self: ys: ys (h: t: concat (f h) (self t)) nil)) xs")].
Close Scope string_scope.

Definition is_prelude_name (name : str) : bool := existsb (fun d => bool_decide (chars d.1 = name)) DEFS.

(** ** Errors *)

Inductive NixError : Type :=
| ParseError (s : str)
| UnboundVariable (n : str)
| UnsupportedSyntax (s : str)
| LinearityViolation (s : str)
| InternalError (s : str)
| ImportCycle (p : str)
| SearchPathUnset (n : str).

Definition nix_display (e : NixError) : str :=
  match e with
  | ParseError s => chars "parse error: " ++ s
  | UnboundVariable n => chars "unbound variable: " ++ n
  | UnsupportedSyntax s => chars "unsupported syntax: " ++ s
  | LinearityViolation s => chars "linearity violation: " ++ s
  | InternalError s => chars "internal error: " ++ s
  | ImportCycle p => chars "import cycle: " ++ p
  | SearchPathUnset n => chars "search path <" ++ n ++ chars "> not set (configure via DNX_PATH)"
  end.

(** ** Scopes *)

(** The counts of the binders of a name, the innermost first. *)
Record Scope : Type := mk_scope {
  binders_of : gmap (list Z) (list nat);
  base_dir : option (list Z);
  in_progress : gset (list Z);
  search_paths : gmap (list Z) (list Z)
}.

Definition set_binders (m : gmap (list Z) (list nat)) (sc : Scope) : Scope :=
  mk_scope m (base_dir sc) (in_progress sc) (search_paths sc).
Definition stack_of (sc : Scope) (name : Name) : list nat := default [] (binders_of sc !! name).

Definition scope_bind (name : Name) (sc : Scope) : Scope :=
  set_binders (<[name := 0%nat :: stack_of sc name]> (binders_of sc)) sc.
Definition unbind (name : Name) (sc : Scope) : Scope :=
  match stack_of sc name with
  | _ :: c :: rest => set_binders (<[name := c :: rest]> (binders_of sc)) sc
  | _ => set_binders (delete name (binders_of sc)) sc
  end.
Definition use_var (name : Name) (sc : Scope) : bool * Scope :=
  match stack_of sc name with
  | c :: rest => (true, set_binders (<[name := S c :: rest]> (binders_of sc)) sc)
  | [] => (false, sc)
  end.
Definition use_count (name : Name) (sc : Scope) : nat := match stack_of sc name with c :: _ => c | [] => 0%nat end.
Definition is_bound (name : Name) (sc : Scope) : bool := match stack_of sc name with [] => false | _ => true end.

(** The registry of [DNX_PATH], [None] when the variable is not set. *)
Definition search_paths_from_env (raw : option (list Z)) : gmap (list Z) (list Z) :=
  foldl (fun m entry =>
    match split_once 61 entry with
    | Some (name, dir) =>
        if bool_decide (name = []) then m else match m !! name with Some _ => m | None => <[name := dir]> m end
    | None => m
    end) ∅ (filter (fun e => e <> []) (split_on 58 (default [] raw))).

(** ** State and errors *)

(** The scope, and the process-wide counter of fresh names. *)
Definition nixM (A : Type) : Type := Scope * Z -> res NixError (A * (Scope * Z)).
#[export] Instance nix_ret : MRet nixM := fun A a s => Ok (a, s).
#[export] Instance nix_bind : MBind nixM := fun A B k m s => '(a, s) ← m s; k a s.

Definition nix_lift {A} (m : res NixError A) : nixM A := fun s => a ← m; Ok (a, s).
Definition unsupported {A} (s : string) : nixM A := fun _ => Err (UnsupportedSyntax (chars s)).
Definition parse_error {A} (s : str) : nixM A := fun _ => Err (ParseError s).
Definition on_scope {A} (f : Scope -> A * Scope) : nixM A := fun '(sc, ctr) => let '(a, sc) := f sc in Ok (a, (sc, ctr)).
Definition asks {A} (f : Scope -> A) : nixM A := on_scope (fun sc => (f sc, sc)).
Definition binds (name : Name) : nixM unit := on_scope (fun sc => (tt, scope_bind name sc)).
Definition unbinds (name : Name) : nixM unit := on_scope (fun sc => (tt, unbind name sc)).
Definition uses_var (name : Name) : nixM bool := on_scope (use_var name).

(** [_nix_{prefix}{n}]. *)
Definition nix_fresh (prefix : string) : nixM Name := fun '(sc, ctr) =>
  Ok (chars "_nix_" ++ chars prefix ++ digits 10 ctr [], (sc, as_u32 (ctr + 1))).

(** Making sharing explicit has no errors of its own; it could only panic. *)
Definition nix_wrap (name : Name) (uses : nat) (body : E) : nixM E := fun s =>
  match wrap_uses name uses body with Ok e => Ok (e, s) | Err _ | Panic => Panic | Fuel => Fuel end.

Fixpoint for_all {A B} (f : A -> nixM B) (l : list A) : nixM (list B) :=
  match l with
  | [] => mret []
  | x :: l => y ← f x; ys ← for_all f l; mret (y :: ys)
  end.

(** ** Names and keys ([helpers.rs]) *)

Definition token (tok : option (list Z)) : str := default [] tok.

(** The literal parts of a string, interpolations left out. *)
Definition literal_parts {X} (parts : list (InterpolPart X)) : str :=
  concat ((fun p => match p with Literal l => l | Interpolation _ => [] end) <$> parts).

Definition attr_static_name {X} (attr : Attr X) : res NixError Name :=
  match attr with
  | AttrIdent tok => Ok (token tok)
  | AttrStr parts => Ok (literal_parts parts)
  | AttrDynamic _ => Err (UnsupportedSyntax (chars "dynamic attr key"))
  end.

Definition attrpath_to_str {X} (ap : list (Attr X)) : res NixError Name :=
  parts ← mapMr attr_static_name ap; Ok (join_with [46] parts).

Definition attrpath_simple_name {X} (ap : option (list (Attr X))) : res NixError Name :=
  match ap with Some ap => attrpath_to_str ap | None => Err (UnsupportedSyntax (chars "missing attrpath")) end.

Definition true_val : E := AVal (NBool true).
Definition false_val : E := AVal (NBool false).
Definition prelude_ref (name : string) : E := AName (chars name).
Definition app2_raw (f a b : E) : E := AApp (AApp f a) b.
Definition app2 (f : NixPrimFun) (a b : E) : E := app2_raw (AFun f) a b.
Definition app3 (f : NixPrimFun) (a b c : E) : E := AApp (app2 f a b) c.
Definition str_val (s : str) : E := AVal (NStr s).

(** [let_bind] of collections.rs. *)
Definition let_bind (name : Name) (val body : E) : nixM E :=
  wrapped ← nix_wrap name (count_uses_in body name) body;
  mret (AApp (AAbs name wrapped) val).

Section Translate.
Context (cwd : list (list Z)) (import_file : list Z -> nixM E).
Context (translate_expr : Nix -> nixM E).

(** [translate_expr(o.ok_or_else(..)?, scope)?]. *)
Definition translate_some (o : option Nix) (msg : string) : nixM E :=
  match o with Some e => translate_expr e | None => unsupported msg end.

Definition attr_key_expr (attr : Attr Nix) : nixM E :=
  match attr with
  | AttrIdent _ | AttrStr _ => name ← nix_lift (attr_static_name attr); mret (str_val name)
  | AttrDynamic e => translate_some e "dynamic attr: empty ${}"
  end.

Fixpoint inherit_pairs (from : option (option Nix)) (attrs : list (Attr Nix)) : nixM (list (Name * E)) :=
  match attrs with
  | [] => mret []
  | attr :: attrs =>
      name ← nix_lift (attr_static_name attr);
      val ← match from with
            | Some f => src ← translate_some f "inherit (e): empty source"; mret (app2 FSelect src (str_val name))
            | None => _ ← uses_var name; mret (AName name : E)
            end;
      rest ← inherit_pairs from attrs;
      mret ((name, val) :: rest)
  end.
Definition desugar_inherit : option (option Nix) -> list (Attr Nix) -> nixM (list (Name * E)) := inherit_pairs.

(** ** binding.rs *)

(** A value before it is lowered: the action that lowers it, or one that
    answers at once. *)
Fixpoint let_bindings (entries : list (Entry Nix)) : nixM (list (Name * nixM E)) :=
  match entries with
  | [] => mret []
  | AttrpathValue ap value :: entries =>
      name ← nix_lift (attrpath_simple_name ap);
      match value with
      | Some val => rest ← let_bindings entries; mret ((name, translate_expr val) :: rest)
      | None => unsupported "let binding missing value"
      end
  | Inherit from attrs :: entries =>
      pairs ← desugar_inherit from attrs;
      rest ← let_bindings entries;
      mret (((fun nv => (nv.1, mret nv.2 : nixM E)) <$> pairs) ++ rest)
  end.

(** The fold over the bindings from the last: each becomes an abstraction
    over what follows, applied to its value. *)
Fixpoint nest_bindings (bs : list (Name * E * nat)) (body : E) : nixM E :=
  match bs with
  | [] => mret body
  | (name, val, uses) :: bs =>
      body ← nest_bindings bs body;
      wrapped ← nix_wrap name uses body;
      mret (AApp (AAbs name wrapped) val)
  end.

Definition translate_let_in (entries : list (Entry Nix)) (body : option Nix) : nixM E :=
  match body with
  | None => unsupported "let missing body"
  | Some body_expr =>
      bindings ← let_bindings entries;
      match bindings with
      | [] => translate_expr body_expr
      | _ =>
          let names := bindings.*1 in
          _ ← for_all binds names;
          val_exprs ← for_all snd bindings;
          body ← translate_expr body_expr;
          use_counts ← asks (fun sc => (fun n => use_count n sc) <$> names);
          _ ← for_all unbinds names;
          nest_bindings (zip (zip names val_exprs) use_counts) body
      end
  end.

Definition translate_if_else (condition body else_body : option Nix) : nixM E :=
  cond ← translate_some condition "if missing cond";
  then_ ← translate_some body "if missing then";
  else_ ← translate_some else_body "if missing else";
  mret (app2_raw cond then_ else_).

Definition translate_assert (condition body : option Nix) : nixM E :=
  cond ← translate_some condition "assert missing cond";
  body ← translate_some body "assert missing body";
  mret (app2_raw cond body (AApp (AFun FThrow) (str_val (chars "assertion failed")))).

(** The binder of a field found in the set of a [with]. *)
Definition with_field_binder (f : Name) : Name := chars "_nix_with_" ++ f.

Fixpoint rewrite_node (node : E) (fields : list Name) : E * list Name :=
  match node with
  | AFun (FBuiltin name) =>
      match nixprimfun_name (FBuiltin name) with
      | Some _ => (node, fields)
      | None => (AName (with_field_binder name), if bool_decide (name ∈ fields) then fields else fields ++ [name])
      end
  | AAbs x body => let '(body, fields) := rewrite_node body fields in (AAbs x body, fields)
  | AApp f x =>
      let '(f, fields) := rewrite_node f fields in
      let '(x, fields) := rewrite_node x fields in
      (AApp f x, fields)
  | ARep e a b body =>
      let '(e, fields) := rewrite_node e fields in
      let '(body, fields) := rewrite_node body fields in
      (ARep e a b body, fields)
  | AEra e body =>
      let '(e, fields) := rewrite_node e fields in
      let '(body, fields) := rewrite_node body fields in
      (AEra e body, fields)
  | AFix e => let '(e, fields) := rewrite_node e fields in (AFix e, fields)
  | other => (other, fields)
  end.
Definition rewrite_with_fields (body : E) : E * list Name := rewrite_node body [].

(** The fields from the last, each selected from [w] once. *)
Fixpoint with_lets (w : Name) (fields : list Name) (body : E) : nixM E :=
  match fields with
  | [] => mret body
  | f :: fields =>
      lets ← with_lets w fields body;
      let_bind (with_field_binder f) (app2 FSelect (AName w) (str_val f)) lets
  end.

Definition translate_with (namespace body : option Nix) : nixM E :=
  env ← translate_some namespace "with missing namespace";
  body ← translate_some body "with missing body";
  w ← nix_fresh "with";
  let '(body, fields) := rewrite_with_fields body in
  lets ← with_lets w fields body;
  lets ← nix_wrap w (length fields) lets;
  mret (AApp (AAbs w lets) env).

(** ** lambda.rs *)

Definition translate_ident (tok : option (list Z)) : nixM E :=
  let name := token tok in
  if bool_decide (name = chars "true") then mret true_val
  else if bool_decide (name = chars "false") then mret false_val
  else if bool_decide (name = chars "null") then mret (AVal NNull : E)
  else
    bound ← asks (is_bound name);
    if (bound : bool) then _ ← uses_var name; mret (AName name : E)
    else if is_prelude_name name then mret (AName name : E)
    else mret (AFun (FBuiltin name) : E).

Definition name_or_fresh (tok : option (list Z)) (prefix : string) : nixM Name :=
  match tok with Some t => mret t | None => nix_fresh prefix end.

(** The fields of a pattern, with the action that lowers a default. *)
Fixpoint pattern_fields (entries : list (option (list Z) * option Nix)) : nixM (list (Name * option (nixM E))) :=
  match entries with
  | [] => mret []
  | (tok, dflt) :: entries =>
      name ← name_or_fresh tok "f";
      rest ← pattern_fields entries;
      mret ((name, translate_expr <$> dflt) :: rest)
  end.

(** One turn of the loop over the fields. *)
Definition bind_field (arg_name : Name) (field : Name * option (nixM E)) (body : E) : nixM E :=
  let '(name, dflt) := field in
  select_expr ← match dflt with
    | Some d => dflt ← d; mret (app3 FSelectOr (AName arg_name) (str_val name) dflt)
    | None => mret (app2 FSelect (AName arg_name) (str_val name))
    end;
  field_uses ← asks (use_count name);
  _ ← unbinds name;
  inner_body ← nix_wrap name field_uses body;
  mret (AApp (AAbs name inner_body) select_expr).

(** The loop, from the last field. *)
Fixpoint bind_fields (arg_name : Name) (fields : list (Name * option (nixM E))) (body : E) : nixM E :=
  match fields with
  | [] => mret body
  | f :: fields => body ← bind_fields arg_name fields body; bind_field arg_name f body
  end.

Definition translate_lambda_pattern (pat_bind : option (option (list Z))) (pat_entries : list (option (list Z) * option Nix))
    (body_expr : Nix) : nixM E :=
  arg_name ← match pat_bind with Some tok => name_or_fresh tok "arg" | None => nix_fresh "arg" end;
  fields ← pattern_fields pat_entries;
  _ ← binds arg_name;
  _ ← for_all (fun f => binds f.1) fields;
  body ← translate_expr body_expr;
  body ← bind_fields arg_name fields body;
  _ ← unbinds arg_name;
  body ← nix_wrap arg_name (count_uses_in body arg_name) body;
  mret (AAbs arg_name body).

Definition translate_lambda (param : option (Param Nix)) (body : option Nix) : nixM E :=
  match param, body with
  | None, _ => unsupported "lambda missing param"
  | _, None => unsupported "lambda missing body"
  | Some (IdentParam tok), Some body_expr =>
      let x := default (chars "_") tok in
      _ ← binds x;
      body ← translate_expr body_expr;
      uses ← asks (use_count x);
      _ ← unbinds x;
      body_wrapped ← nix_wrap x uses body;
      mret (AAbs x body_wrapped)
  | Some (Pattern pat_bind pat_entries), Some body_expr => translate_lambda_pattern pat_bind pat_entries body_expr
  end.

(** [strip_prefix('<')] and [strip_suffix('>')]. *)
Definition angle_inner (arg : Nix) : option (list Z) :=
  match arg with
  | XPath (c :: t) =>
      if c =? 60 then match last t with Some d => if d =? 62 then Some (removelast t) else None | None => None end else None
  | _ => None
  end.

Definition resolve_angle (inner : str) (sc : Scope) : res NixError (list Z) :=
  match search_paths sc !! inner with
  | Some dir => Ok dir
  | None =>
      match ('(root, sub) ← split_once SLASH inner; dir ← search_paths sc !! root; Some (path_join dir sub)) with
      | Some p => Ok p
      | None => Err (SearchPathUnset inner)
      end
  end.

Definition literal_path_text (arg : Nix) : option (list Z) :=
  match arg with
  | XPath text => Some text
  | XStr parts =>
      if forallb (fun p => match p with Literal _ => true | Interpolation _ => false end) parts
      then Some (literal_parts parts) else None
  | _ => None
  end.

Definition translate_apply (func arg : option Nix) : nixM E :=
  match func, arg with
  | None, _ => unsupported "apply missing func"
  | _, None => unsupported "apply missing arg"
  | Some func, Some arg =>
      let txt := match func with XIdent tok => tok | _ => None end in
      let plain := f ← translate_expr func; x ← translate_expr arg; mret (AApp f x) in
      fix_bound ← asks (is_bound (chars "fix"));
      import_bound ← asks (is_bound (chars "import"));
      if bool_decide (txt = Some (chars "fix")) && negb fix_bound then
        g ← translate_expr arg; mret (AFix g)
      else if bool_decide (txt = Some (chars "import")) && negb import_bound then
        match angle_inner arg with
        | Some inner =>
            p ← (fun s => p ← resolve_angle inner s.1; Ok (p, s));
            import_file p
        | None =>
            match literal_path_text arg with
            | Some p => import_file p
            | None => unsupported "import: non-literal path"
            end
        end
      else plain
  end.

(** ** literals.rs *)

Definition translate_literal (kind : LiteralKind) : nixM E :=
  match kind with
  | Integer (inl n) => mret (AVal (NInt n) : E)
  | Float (inl n) => mret (AVal (NFloat n) : E)
  | Integer (inr e) | Float (inr e) => parse_error e
  | Uri u => mret (str_val u)
  end.

Definition translate_part (part : InterpolPart Nix) : nixM E :=
  match part with
  | Literal l => mret (str_val l)
  | Interpolation inner => x ← translate_some inner "empty interpolation"; mret (AApp (AFun FToString2) x)
  end.

Fixpoint str_parts (acc : option E) (parts : list (InterpolPart Nix)) : nixM E :=
  match parts with
  | [] => mret (default (str_val []) acc)
  | part :: parts =>
      e ← translate_part part;
      str_parts (Some match acc with Some prev => app2 FAdd prev e | None => e end) parts
  end.
Definition translate_str (parts : list (InterpolPart Nix)) : nixM E := str_parts None parts.

Definition lexical_abs (p : str) : str :=
  foldl (fun out c =>
    match c with
    | CurDir => out
    | ParentDir => path_pop out
    | RootDir => path_join out [SLASH]
    | Normal x => path_join out x
    end) [] (components p).

Definition translate_path (text : str) : nixM E :=
  base ← asks base_dir;
  mret (AVal (NPath (lexical_abs (if is_absolute text then text else path_join (default (path_text cwd) base) text))) : E).

Definition binop_prim_fun (op : BinOpKind) : option NixPrimFun :=
  match op with
  | Add => Some FAdd | Sub => Some FSub | Mul => Some FMul | Div => Some FDiv | Equal => Some FEq | NotEqual => Some FNe
  | Less => Some FLt | LessOrEq => Some FLe | More => Some FGt | MoreOrEq => Some FGe | Update => Some FUpdate
  | _ => None
  end.

(** What the operands are put into, [None] for an operator the code rejects. *)
Definition binop_node (op : BinOpKind) (a b : E) : option E :=
  match op with
  | And => Some (app2_raw a b false_val)
  | Or => Some (app2_raw a true_val b)
  | Implication => Some (app2_raw a b true_val)
  | Concat => Some (app2_raw (prelude_ref "concat") a b)
  | _ => f ← binop_prim_fun op; Some (app2 f a b)
  end.

Definition debug_binop (op : BinOpKind) : str := match op with OtherOp d => d | _ => [] end.

Definition translate_binop (operator : option BinOpKind) (lhs rhs : option Nix) : nixM E :=
  match operator, lhs, rhs with
  | None, _, _ => unsupported "binop missing operator"
  | _, None, _ => unsupported "binop missing lhs"
  | _, _, None => unsupported "binop missing rhs"
  | Some op, Some lhs, Some rhs =>
      match binop_node op false_val false_val with
      | None => fun _ => Err (UnsupportedSyntax (chars "binop: " ++ debug_binop op))
      | Some _ =>
          a ← translate_expr lhs;
          b ← translate_expr rhs;
          mret (default a (binop_node op a b))
      end
  end.

Definition translate_unary (operator : option UnaryOpKind) (e : option Nix) : nixM E :=
  match operator with
  | None => unsupported "unary missing op"
  | Some op =>
      operand ← translate_some e "unary missing expr";
      mret match op with
           | Invert => app2_raw operand false_val true_val
           | Negate => AApp (AFun FNeg) operand
           end
  end.
(** ** collections.rs *)

(** From the last element to the first. *)
Fixpoint translate_list (items : list Nix) : nixM E :=
  match items with
  | [] => mret (prelude_ref "nil")
  | elem :: items =>
      result ← translate_list items;
      e ← translate_expr elem;
      mret (app2_raw (prelude_ref "cons") e result)
  end.

Definition apv_key_expr (attrpath : option (list (Attr Nix))) : nixM E :=
  match attrpath with
  | None => unsupported "missing attrpath"
  | Some [one] => attr_key_expr one
  | Some attrs => name ← nix_lift (attrpath_to_str attrs); mret (str_val name)
  end.

Definition entry_pairs (entry : Entry Nix) : nixM (list (E * E)) :=
  match entry with
  | AttrpathValue ap value =>
      key ← apv_key_expr ap;
      val ← translate_some value "attrset missing value";
      mret [(key, val)]
  | Inherit from attrs =>
      pairs ← desugar_inherit from attrs;
      mret ((fun nv => (str_val nv.1, nv.2)) <$> pairs)
  end.

Definition insert_all (set : E) (pairs : list (E * E)) : E := foldl (fun set kv => app3 FInsert set kv.1 kv.2) set pairs.

Fixpoint insert_entries (set : E) (entries : list (Entry Nix)) : nixM E :=
  match entries with
  | [] => mret set
  | entry :: entries => pairs ← entry_pairs entry; insert_entries (insert_all set pairs) entries
  end.

(** The names of a [rec] set, the actions that lower their values, and what
    it inherits. *)
Fixpoint rec_entries (entries : list (Entry Nix)) : nixM (list (Name * nixM E) * list (E * E)) :=
  match entries with
  | [] => mret ([], [])
  | AttrpathValue ap value :: entries =>
      name ← nix_lift (attrpath_simple_name ap);
      match value with
      | Some val => '(names, inherits) ← rec_entries entries; mret ((name, translate_expr val) :: names, inherits)
      | None => unsupported "rec attrset missing value"
      end
  | Inherit from attrs :: entries =>
      pairs ← desugar_inherit from attrs;
      '(names, inherits) ← rec_entries entries;
      mret (names, ((fun nv => (str_val nv.1, nv.2)) <$> pairs) ++ inherits)
  end.

(** The members of the set, each a use of its name. *)
Fixpoint insert_names (set : E) (names : list Name) : nixM E :=
  match names with
  | [] => mret set
  | n :: names => _ ← uses_var n; insert_names (app3 FInsert set (str_val n) (AName n)) names
  end.

Definition translate_rec_attrset (entries : list (Entry Nix)) : nixM E :=
  '(group, inherits) ← rec_entries entries;
  let names := group.*1 in
  _ ← for_all binds names;
  vals ← for_all snd group;
  set ← insert_names (insert_all (AFun FEmptyAttrSet) inherits) names;
  uses ← asks (fun sc => (fun n => use_count n sc) <$> names);
  _ ← for_all unbinds names;
  nest_bindings (zip (zip names vals) uses) set.

Definition translate_attrset (rec_token : bool) (entries : list (Entry Nix)) : nixM E :=
  if rec_token then translate_rec_attrset entries else insert_entries (AFun FEmptyAttrSet) entries.

(** Every key is lowered once and bound to a fresh name. *)
Definition key_names (keys : list (Attr Nix)) : nixM (list (Name * E)) :=
  for_all (fun a => k ← nix_fresh "k"; e ← attr_key_expr a; mret (k, e)) keys.

Fixpoint bind_keys (lowered : list (Name * E)) (body : E) : nixM E :=
  match lowered with
  | [] => mret body
  | (name, key) :: lowered => body ← bind_keys lowered body; let_bind name key body
  end.

Definition bind_path_keys (keys : list (Attr Nix)) (make_body : list Name -> nixM E) : nixM E :=
  lowered ← key_names keys;
  body ← make_body lowered.*1;
  bind_keys lowered body.

Definition select_chain (set : E) (keys : list Name) : E := foldl (fun result k => app2 FSelect result (AName k)) set keys.

(** The test of every prefix of the path, joined by [&&]; [prefix] is the set
    selected so far. *)
Fixpoint has_hops (term : option E) (prefix : E) (keys : list Name) : option E :=
  match keys with
  | [] => term
  | k :: keys =>
      let hop := app2 FHasAttr prefix (AName k) in
      has_hops (Some match term with Some acc => app2_raw acc hop false_val | None => hop end)
        (app2 FSelect prefix (AName k)) keys
  end.

Definition has_path_named (set : E) (keys : list Name) : nixM E :=
  sname ← nix_fresh "has";
  match has_hops None (AName sname) keys with
  | Some body => let_bind sname set body
  | None => unsupported "hasAttr empty path"
  end.

Definition translate_has_attr (e : option Nix) (attrpath : option (list (Attr Nix))) : nixM E :=
  set ← translate_some e "hasAttr missing set";
  match attrpath with
  | None => unsupported "hasAttr missing attrpath"
  | Some [one] => key ← attr_key_expr one; mret (app2 FHasAttr set key)
  | Some keys => bind_path_keys keys (fun knames => has_path_named set knames)
  end.

(** The loop over the hops: the default is taken at the first hop, and kept
    only if that is the last one. *)
Fixpoint select_hops (result : E) (dflt : option E) (attrs : list (Attr Nix)) : nixM E :=
  match attrs with
  | [] => mret result
  | attr :: attrs =>
      key ← attr_key_expr attr;
      select_hops match dflt, attrs with
                  | Some d, [] => app3 FSelectOr result key d
                  | _, _ => app2 FSelect result key
                  end None attrs
  end.

(** [builtins.NAME], and what is selected from it. *)
Definition select_builtin (dflt : option E) (attrs : list (Attr Nix)) : nixM E :=
  match attrs with
  | [] => unsupported "builtins. missing attr"
  | first :: rest =>
      name ← nix_lift (attr_static_name first);
      select_hops (if is_prelude_name name then AName name else AFun (FBuiltin name)) dflt rest
  end.

Definition translate_select (e : option Nix) (attrpath : option (list (Attr Nix))) (or_token : bool) (default_expr : option Nix)
    : nixM E :=
  match e, attrpath with
  | None, _ => unsupported "select missing set"
  | _, None => unsupported "select missing attrpath"
  | Some set_expr, Some attrs =>
      dflt ← match default_expr with
             | Some d => if or_token then x ← translate_expr d; mret (Some x) else mret None
             | None => mret None
             end;
      builtins_bound ← asks (is_bound (chars "builtins"));
      let builtins_ns := (match set_expr with XIdent tok => bool_decide (tok = Some (chars "builtins")) | _ => false end)
                         && negb builtins_bound in
      match builtins_ns, dflt, attrs with
      | true, _, _ => select_builtin dflt attrs
      | false, Some dexpr, _ :: _ :: _ =>
          sname ← nix_fresh "sel";
          body ← bind_path_keys attrs (fun keys =>
            cond ← has_path_named (AName sname) keys;
            mret (app2_raw cond (select_chain (AName sname) keys) dexpr));
          set ← translate_expr set_expr;
          let_bind sname set body
      | _, _, _ => result ← translate_expr set_expr; select_hops result dflt attrs
      end
  end.
End Translate.

(** ** Expressions and files ([mod.rs], [lambda.rs]) *)

Section Files.
Context `{Fmt} `{NixParser}.
(** The file tree, the current directory and the value of [DNX_PATH]. *)
Context (tree : fnode) (cwd : list (list Z)) (dnx_path : option (list Z)).

Fixpoint translate_expr (import_file : list Z -> nixM E) (expr : Nix) {struct expr} : nixM E :=
  let go := translate_expr import_file in
  match expr with
  | XIdent tok => translate_ident tok
  | XLambda param body => translate_lambda go param body
  | XApply lambda argument => translate_apply import_file go lambda argument
  | XLetIn entries body => translate_let_in go entries body
  | XIfElse c t e => translate_if_else go c t e
  | XAssert c body => translate_assert go c body
  | XWith namespace body => translate_with go namespace body
  | XLiteral kind => translate_literal kind
  | XStr parts => translate_str go parts
  | XPath text => translate_path cwd text
  | XBinOp op lhs rhs => translate_binop go op lhs rhs
  | XUnaryOp op e => translate_unary go op e
  | XList items => translate_list go items
  | XAttrSet rec_token entries => translate_attrset go rec_token entries
  | XSelect e attrpath or_token default_expr => translate_select go e attrpath or_token default_expr
  | XHasAttr e attrpath => translate_has_attr go e attrpath
  | XParen e => translate_some go e "empty paren"
  | XRoot e => translate_some go e "empty root"
  | XOther => unsupported "unknown expression type"
  end.

Definition parse_with (import_file : list Z -> nixM E) (src : str) : nixM E :=
  match rnix_parse src with
  | (e :: errs, _) => parse_error (join_with (chars "; ") (e :: errs))
  | ([], None) => parse_error (chars "empty program")
  | ([], Some expr) => translate_expr import_file expr
  end.

Definition MAX_IMPORT_DEPTH : nat := 256.

(** The scope of a file whose directory is [base]. *)
Definition with_base (base : str) : Scope := mk_scope ∅ (Some base) ∅ (search_paths_from_env dnx_path).
Definition scope_new : Scope := mk_scope ∅ None ∅ (search_paths_from_env dnx_path).

(** [full] made absolute, and the default file of a directory. *)
Definition import_target (full : str) (sc : Scope) : str :=
  let full := if is_absolute full then full else match base_dir sc with Some base => path_join base full | None => full end in
  if path_is_dir tree cwd full then path_join full (chars "default.nix") else full.

(** [fuel] bounds the files nested in files. *)
Fixpoint import_file (fuel : nat) (full : list Z) : nixM E := fun '(sc, ctr) =>
  match fuel with
  | O => Fuel
  | S fuel =>
      let full := import_target full sc in
      if (MAX_IMPORT_DEPTH <=? size (in_progress sc))%nat then Err (ImportCycle (canonical tree cwd full))
      else
        src ← map_err (fun k => ParseError (chars "import " ++ full ++ chars ": " ++ io_text k)) (read_to_string tree cwd full);
        let canon := canonical tree cwd full in
        if bool_decide (canon ∈ in_progress sc) then Err (ImportCycle canon)
        else
          let base := default [] (path_parent canon) in
          let child := mk_scope ∅ (Some base) ({[canon]} ∪ in_progress sc) (search_paths sc) in
          '(e, (_, ctr)) ← parse_with (import_file fuel) src (child, ctr);
          Ok (e, (sc, ctr))
  end.

(** One level more than the cap. *)
Definition IMPORT_FUEL : nat := S MAX_IMPORT_DEPTH.

Definition nix_to_expr (src : str) (ctr : Z) : res NixError (E * Z) :=
  '(e, (_, ctr)) ← parse_with (import_file IMPORT_FUEL) src (scope_new, ctr); Ok (e, ctr).
Definition nix_to_expr_at (src base_dir : str) (ctr : Z) : res NixError (E * Z) :=
  '(e, (_, ctr)) ← parse_with (import_file IMPORT_FUEL) src (with_base base_dir, ctr); Ok (e, ctr).
End Files.
