(* ===== verification/NixLowerSpec.v ===== *)
(** * Lowering Nix ends, imports included

    Lowering is structural in a tree; an import opens another file.  The set
    of files being resolved grows with every level and the cap bounds it, so
    no tower of imports is infinite, cyclic or not. *)
From S2P Require Import Prelude Bytes Utf8 Text Error StorePath Fs NixTree Ast Pass1 Share NixVal Json Builtins NixLower.

(** ** Induction on trees *)

Section Induction.
Context (P : Nix -> Prop).

Definition on_opt (o : option Nix) : Prop := match o with Some e => P e | None => True end.
Definition on_part (p : InterpolPart Nix) : Prop := match p with Literal _ => True | Interpolation o => on_opt o end.
Definition on_attr (a : Attr Nix) : Prop := match a with AttrDynamic o => on_opt o | _ => True end.
Definition on_path (ap : option (list (Attr Nix))) : Prop := match ap with Some l => Forall on_attr l | None => True end.
Definition on_from (from : option (option Nix)) : Prop := match from with Some o => on_opt o | None => True end.
Definition on_entry (e : Entry Nix) : Prop :=
  match e with
  | AttrpathValue ap v => on_path ap /\ on_opt v
  | Inherit from attrs => on_from from /\ Forall on_attr attrs
  end.
Definition on_param (p : option (Param Nix)) : Prop :=
  match p with Some (Pattern _ es) => Forall (fun e => on_opt e.2) es | _ => True end.

Context (Hident : forall tok, P (XIdent tok)).
Context (Hlambda : forall param body, on_param param -> on_opt body -> P (XLambda param body)).
Context (Happly : forall f a, on_opt f -> on_opt a -> P (XApply f a)).
Context (Hlet : forall es body, Forall on_entry es -> on_opt body -> P (XLetIn es body)).
Context (Hif : forall c t e, on_opt c -> on_opt t -> on_opt e -> P (XIfElse c t e)).
Context (Hassert : forall c b, on_opt c -> on_opt b -> P (XAssert c b)).
Context (Hwith : forall c b, on_opt c -> on_opt b -> P (XWith c b)).
Context (Hlit : forall k, P (XLiteral k)).
Context (Hstr : forall parts, Forall on_part parts -> P (XStr parts)).
Context (Hpath : forall t, P (XPath t)).
Context (Hbin : forall op l r, on_opt l -> on_opt r -> P (XBinOp op l r)).
Context (Hun : forall op e, on_opt e -> P (XUnaryOp op e)).
Context (Hlist : forall items, Forall P items -> P (XList items)).
Context (Hattrs : forall r es, Forall on_entry es -> P (XAttrSet r es)).
Context (Hselect : forall e ap r d, on_opt e -> on_path ap -> on_opt d -> P (XSelect e ap r d)).
Context (Hhas : forall e ap, on_opt e -> on_path ap -> P (XHasAttr e ap)).
Context (Hparen : forall e, on_opt e -> P (XParen e)).
Context (Hroot : forall e, on_opt e -> P (XRoot e)).
Context (Hother : P XOther).

Fixpoint nix_ind (e : Nix) : P e :=
  let opt (o : option Nix) : on_opt o := match o with Some e => nix_ind e | None => I end in
  let all {A} (Q : A -> Prop) (q : forall a, Q a) := fix all (l : list A) : Forall Q l :=
    match l with [] => List.Forall_nil Q | x :: l => List.Forall_cons Q x l (q x) (all l) end in
  let part (p : InterpolPart Nix) : on_part p := match p with Literal _ => I | Interpolation o => opt o end in
  let attr (a : Attr Nix) : on_attr a := match a with AttrDynamic o => opt o | _ => I end in
  let path (ap : option (list (Attr Nix))) : on_path ap := match ap with Some l => all on_attr attr l | None => I end in
  let source (from : option (option Nix)) : on_from from := match from with Some o => opt o | None => I end in
  let entry (e : Entry Nix) : on_entry e :=
    match e with
    | AttrpathValue ap v => conj (path ap) (opt v)
    | Inherit from attrs => conj (source from) (all on_attr attr attrs)
    end in
  let param (p : option (Param Nix)) : on_param p :=
    match p with Some (Pattern _ es) => all (fun e => on_opt e.2) (fun e => opt e.2) es | Some (IdentParam _) => I | None => I end in
  match e with
  | XIdent tok => Hident tok
  | XLambda p b => Hlambda p b (param p) (opt b)
  | XApply f a => Happly f a (opt f) (opt a)
  | XLetIn es b => Hlet es b (all on_entry entry es) (opt b)
  | XIfElse c t e => Hif c t e (opt c) (opt t) (opt e)
  | XAssert c b => Hassert c b (opt c) (opt b)
  | XWith c b => Hwith c b (opt c) (opt b)
  | XLiteral k => Hlit k
  | XStr parts => Hstr parts (all on_part part parts)
  | XPath t => Hpath t
  | XBinOp op l r => Hbin op l r (opt l) (opt r)
  | XUnaryOp op e => Hun op e (opt e)
  | XList items => Hlist items (all P nix_ind items)
  | XAttrSet r es => Hattrs r es (all on_entry entry es)
  | XSelect e ap r d => Hselect e ap r d (opt e) (path ap) (opt d)
  | XHasAttr e ap => Hhas e ap (opt e) (path ap)
  | XParen e => Hparen e (opt e)
  | XRoot e => Hroot e (opt e)
  | XOther => Hother
  end.
End Induction.

(** ** Lowering keeps the files in progress and does not run out of fuel *)

Section Keeps.
Context (ip : gset (list Z)).

Definition keeps {A} (m : nixM A) : Prop := forall sc ctr, in_progress sc = ip ->
  match m (sc, ctr) with
  | Ok (_, (sc', _)) => in_progress sc' = ip
  | Fuel => False
  | Err _ | Panic => True
  end.

Lemma keeps_ret {A} (a : A) : keeps (mret a).
Proof. by intros sc ctr. Qed.

Lemma lowering_keeps_bind {A B} (m : nixM A) (k : A -> nixM B) : keeps m -> (forall a, keeps (k a)) -> keeps (x ← m; k x).
Proof.
  intros Hm Hk sc ctr H. specialize (Hm sc ctr H). unfold mbind, nix_bind.
  destruct (m (sc, ctr)) as [[a [sc' ctr']]|e| |]; cbn [mbind res_bind] in *; try done. by apply Hk.
Qed.

Lemma keeps_unsupported {A} s : keeps (unsupported s : nixM A).
Proof. by intros sc ctr. Qed.
Lemma keeps_err {A} e : keeps ((fun _ => Err e) : nixM A).
Proof. by intros sc ctr. Qed.
Lemma keeps_lift {A} (m : res NixError A) : m <> Fuel -> keeps (nix_lift m).
Proof. intros Hm sc ctr H. unfold nix_lift. by destruct m. Qed.
Lemma keeps_asks {A} (f : Scope -> A) : keeps (asks f).
Proof. by intros sc ctr. Qed.
Lemma keeps_binds x : keeps (binds x).
Proof. by intros sc ctr. Qed.
Lemma keeps_unbinds x : keeps (unbinds x).
Proof. intros sc ctr H. unfold unbinds, on_scope, unbind. by destruct (stack_of sc x) as [|c [|c' rest]]. Qed.
Lemma keeps_uses_var x : keeps (uses_var x).
Proof. intros sc ctr H. unfold uses_var, on_scope, use_var. by destruct (stack_of sc x) as [|c rest]. Qed.
Lemma keeps_fresh p : keeps (nix_fresh p).
Proof. by intros sc ctr. Qed.

Lemma indexed_rename_fuel (e : E) from ns : forall idx, indexed_rename e from ns idx <> Fuel.
Proof.
  induction e using ast_ind; intros idx; cbn [indexed_rename]; try done; repeat case_match; try done;
    unfold index in *; repeat case_match; simplify_eq; try done;
    repeat match goal with
    | |- context [indexed_rename ?e _ _ ?i] =>
        let H := fresh in assert (indexed_rename e from ns i <> Fuel) as H by auto;
        destruct (indexed_rename e from ns i) as [[? ?]|?| |]; cbn [mbind res_bind]; try done
    end.
Qed.
Lemma nest_reps_fuel ns : forall e body : E, nest_reps e ns body <> Fuel.
Proof.
  induction ns as [|a [|b [|c ns]] IH]; intros e body; try done. cbn [nest_reps].
  specialize (IH (AName (rest_name b)) body). cbn [nest_reps] in IH.
  destruct (match ns with [] => _ | _ => _ end); try done; cbn in *; congruence.
Qed.
Lemma keeps_wrap x n body : keeps (nix_wrap x n body).
Proof.
  intros sc ctr H. unfold nix_wrap. assert (wrap_uses x n body <> Fuel) as Hf.
  { destruct n as [|[|n]]; try done. unfold wrap_uses, build_rep_chain. cbn [Nat.leb].
    pose proof (indexed_rename_fuel body x (split_name x <$> seq 0 (S (S n))) 0) as H1.
    destruct (indexed_rename _ _ _ _) as [[b i]|?| |]; cbn [mbind res_bind]; try done. apply nest_reps_fuel. }
  by destruct (wrap_uses x n body).
Qed.

Lemma keeps_for_all {A B} (f : A -> nixM B) l : Forall (fun x => keeps (f x)) l -> keeps (for_all f l).
Proof.
  induction 1 as [|x l Hx _ IH]; [apply keeps_ret|]. cbn [for_all].
  apply lowering_keeps_bind; [done|intros y]. apply lowering_keeps_bind; [done|intros ys; apply keeps_ret].
Qed.
(** The same, with a property of the answer. *)
Definition yields {A} (m : nixM A) (Q : A -> Prop) : Prop :=
  keeps m /\ forall sc ctr a s, in_progress sc = ip -> m (sc, ctr) = Ok (a, s) -> Q a.

Lemma keeps_yields {A B} (m : nixM A) (k : A -> nixM B) Q : yields m Q -> (forall a, Q a -> keeps (k a)) -> keeps (x ← m; k x).
Proof.
  intros [Hm HQ] Hk sc ctr H. specialize (Hm sc ctr H). specialize (HQ sc ctr). unfold mbind, nix_bind.
  destruct (m (sc, ctr)) as [[a [sc' ctr']]|e| |]; cbn [mbind res_bind] in *; try done. apply Hk; eauto.
Qed.
Lemma yields_bind {A B} (m : nixM A) (k : A -> nixM B) R Q : yields m R -> (forall a, R a -> yields (k a) Q) -> yields (x ← m; k x) Q.
Proof.
  intros Hm Hk. split; [eapply keeps_yields; [exact Hm|intros a Ha; apply (Hk a Ha)]|].
  intros sc ctr b s H E. destruct Hm as [Hm HR]. specialize (Hm sc ctr H). unfold mbind, nix_bind in E.
  destruct (m (sc, ctr)) as [[a [sc' ctr']]|e| |] eqn:Em; cbn [mbind res_bind] in *; try done.
  destruct (Hk a (HR _ _ _ _ H Em)) as [_ HQ]. exact (HQ sc' ctr' b s Hm E).
Qed.
Lemma yields_ret {A} (a : A) (Q : A -> Prop) : Q a -> yields (mret a) Q.
Proof. intros Ha. split; [apply keeps_ret|]. by intros sc ctr b s _ [= <- _]. Qed.
Lemma keeps_trivial {A} (m : nixM A) : keeps m -> yields m (fun _ => True).
Proof. by split. Qed.
Lemma yields_err {A} (e : NixError) (Q : A -> Prop) : yields (fun _ => Err e) Q.
Proof. by split; intros sc ctr. Qed.

Lemma keeps_for_each {A B} (f : A -> nixM B) l : (forall x, keeps (f x)) -> keeps (for_all f l).
Proof. intros Hf. apply keeps_for_all. by apply Forall_forall. Qed.
End Keeps.

Create HintDb keeps discriminated.
#[export] Hint Resolve keeps_ret keeps_unsupported keeps_err keeps_asks keeps_binds keeps_unbinds keeps_uses_var keeps_fresh
  keeps_wrap keeps_for_each : keeps.
#[export] Hint Extern 2 (keeps _ (mbind _ _)) => apply lowering_keeps_bind; [|intros] : keeps.
#[export] Hint Extern 1 (keeps _ (let '(_, _) := ?x in _)) => destruct x : keeps.

Section Forms.
Context (ip : gset (list Z)) (cwd : list (list Z)) (import : list Z -> nixM E) (go : Nix -> nixM E).
Context (Himport : forall p, keeps ip (import p)).
Notation good e := (keeps ip (go e)).
Notation "'goodo'" := (on_opt (fun e => good e)).

Ltac keeps := repeat first
  [ progress intros
  | solve [eauto 2 with keeps]
  | apply lowering_keeps_bind
  | match goal with
    | |- keeps _ (let '(_, _) := ?x in _) => destruct x
    | |- keeps _ (if ?b then _ else _) => destruct b
    | |- keeps _ (match ?x with _ => _ end) => destruct x
    end ].

Lemma keeps_some o msg : goodo o -> keeps ip (translate_some go o msg).
Proof. destruct o; cbn; [done|keeps]. Qed.
#[local] Hint Resolve keeps_some : keeps.

Lemma static_total {X} (a : Attr X) : attr_static_name a <> Fuel.
Proof. by destruct a. Qed.
Lemma path_str_total {X} (ap : list (Attr X)) : attrpath_to_str ap <> Fuel.
Proof.
  unfold attrpath_to_str. assert (mapMr attr_static_name ap <> Fuel) as H.
  { induction ap as [|a ap IH]; cbn; [done|]. destruct a; cbn; try done; by destruct (mapMr attr_static_name ap). }
  by destruct (mapMr attr_static_name ap).
Qed.
Lemma path_name_total {X} (ap : option (list (Attr X))) : attrpath_simple_name ap <> Fuel.
Proof. destruct ap; [apply path_str_total|done]. Qed.
Lemma keeps_static {X} (a : Attr X) : keeps ip (nix_lift (attr_static_name a)).
Proof. apply keeps_lift, static_total. Qed.
Lemma keeps_path_str {X} (ap : list (Attr X)) : keeps ip (nix_lift (attrpath_to_str ap)).
Proof. apply keeps_lift, path_str_total. Qed.
Lemma keeps_path_name {X} (ap : option (list (Attr X))) : keeps ip (nix_lift (attrpath_simple_name ap)).
Proof. apply keeps_lift, path_name_total. Qed.
#[local] Hint Resolve keeps_static keeps_path_str keeps_path_name : keeps.

Lemma keeps_let_bind x v b : keeps ip (let_bind x v b).
Proof. unfold let_bind. keeps. Qed.
#[local] Hint Resolve keeps_let_bind : keeps.

Lemma keeps_key a : on_attr (fun e => good e) a -> keeps ip (attr_key_expr go a).
Proof. destruct a; cbn [attr_key_expr on_attr]; keeps. Qed.

Lemma keeps_inherit from attrs : on_from (fun e => good e) from -> keeps ip (desugar_inherit go from attrs).
Proof.
  intros Hf. unfold desugar_inherit. induction attrs as [|a attrs IH]; cbn [inherit_pairs]; [keeps|].
  apply lowering_keeps_bind; [keeps|intros name]. apply lowering_keeps_bind; [|keeps]. destruct from as [f|]; [|keeps].
  apply lowering_keeps_bind; [by apply keeps_some|keeps].
Qed.
#[local] Hint Resolve keeps_inherit : keeps.

(** What is bound later is lowered by good actions. *)
Notation actions bs := (Forall (fun b => keeps ip b.2) bs).

Lemma yields_let_bindings es : Forall (on_entry (fun e => good e)) es -> yields ip (let_bindings go es) (fun bs => actions bs).
Proof.
  induction 1 as [|[ap v|from attrs] es He _ IH]; cbn [let_bindings]; [by apply yields_ret|..]; destruct He as [H1 H2].
  - eapply yields_bind; [apply keeps_trivial, keeps_path_name|intros name _]. destruct v as [v|]; [|apply yields_err].
    eapply yields_bind; [exact IH|intros rest Hr]. by apply yields_ret; constructor.
  - eapply yields_bind; [by apply keeps_trivial, keeps_inherit|intros pairs _].
    eapply yields_bind; [exact IH|intros rest Hr]. apply yields_ret, Forall_app. split; [|done].
    apply Forall_fmap, Forall_forall. intros nv _. apply keeps_ret.
Qed.

Lemma yields_rec_entries es : Forall (on_entry (fun e => good e)) es -> yields ip (rec_entries go es) (fun r => actions r.1).
Proof.
  induction 1 as [|[ap v|from attrs] es He _ IH]; cbn [rec_entries]; [by apply yields_ret; cbn|..]; destruct He as [H1 H2].
  - eapply yields_bind; [apply keeps_trivial, keeps_path_name|intros name _]. destruct v as [v|]; [|apply yields_err].
    eapply yields_bind; [exact IH|intros [names inherits] Hr]. by apply yields_ret; constructor.
  - eapply yields_bind; [by apply keeps_trivial, keeps_inherit|intros pairs _].
    eapply yields_bind; [exact IH|intros [names inherits] Hr]. by apply yields_ret.
Qed.

Lemma keeps_actions {X} (bs : list (X * nixM E)) : actions bs -> keeps ip (for_all snd bs).
Proof. apply keeps_for_all. Qed.
#[local] Hint Resolve keeps_actions : keeps.

Lemma keeps_nest bs body : keeps ip (nest_bindings bs body).
Proof. revert body. induction bs as [|[[x v] n] bs IH]; intros body; cbn [nest_bindings]; keeps; auto. Qed.
#[local] Hint Resolve keeps_nest : keeps.

Lemma keeps_let_in es body : Forall (on_entry (fun e => good e)) es -> goodo body -> keeps ip (translate_let_in go es body).
Proof.
  intros Hes Hb. unfold translate_let_in. destruct body as [b|]; [|keeps].
  eapply keeps_yields; [by apply yields_let_bindings|intros bs Hbs]. destruct bs; keeps.
Qed.

Lemma keeps_with_lets w fs body : keeps ip (with_lets w fs body).
Proof. induction fs as [|f fs IH]; cbn [with_lets]; keeps. Qed.
#[local] Hint Resolve keeps_with_lets : keeps.
Lemma keeps_with ns body : goodo ns -> goodo body -> keeps ip (translate_with go ns body).
Proof. intros H1 H2. unfold translate_with. keeps. Qed.

Lemma keeps_lambda p body : on_param (fun e => good e) p -> goodo body -> keeps ip (translate_lambda go p body).
Proof.
  intros Hp Hb. unfold translate_lambda. destruct p as [[tok|pb es]|]; [destruct body; keeps| |keeps].
  destruct body as [b|]; [|keeps]. cbn in Hp, Hb. unfold translate_lambda_pattern.
  apply lowering_keeps_bind; [destruct pb as [[t|]|]; cbn; keeps|intros arg].
  eapply (keeps_yields ip _ _ (fun fs => Forall (fun f => match f.2 with Some d => keeps ip d | None => True end) fs)).
  - induction Hp as [|[tok d] es Hd _ IH]; cbn [pattern_fields]; [by apply yields_ret|].
    eapply yields_bind; [apply keeps_trivial; destruct tok; cbn; keeps|intros name _].
    eapply yields_bind; [exact IH|intros rest Hr]. apply yields_ret. constructor; [|done]. by destruct d.
  - intros fs Hfs. do 3 (apply lowering_keeps_bind; [keeps|intros ?]). apply lowering_keeps_bind; [|keeps].
    match goal with |- keeps _ (bind_fields _ _ ?e) => generalize e end. induction Hfs as [|[f d] fs Hd _ IH]; intros e; cbn [bind_fields]; [keeps|].
    apply lowering_keeps_bind; [auto|intros e']. unfold bind_field. apply lowering_keeps_bind; [destruct d; cbn in Hd; keeps|keeps].
Qed.

Lemma keeps_apply f a : goodo f -> goodo a -> keeps ip (translate_apply import go f a).
Proof.
  intros Hf Ha. unfold translate_apply. destruct f as [f|], a as [a|]; cbn in Hf, Ha; try apply keeps_unsupported.
  do 2 (apply lowering_keeps_bind; [keeps|intros ?]). destruct (_ && _); [keeps|]. destruct (_ && _); [|keeps].
  destruct (angle_inner a) as [inner|].
  - apply lowering_keeps_bind; [|auto]. intros sc ctr H. cbn. unfold resolve_angle.
    repeat case_match; simplify_eq; cbn in *; try done; repeat case_match; simplify_eq; done.
  - destruct (literal_path_text a); [apply Himport|keeps].
Qed.

Lemma keeps_str parts acc : Forall (on_part (fun e => good e)) parts -> keeps ip (str_parts go acc parts).
Proof.
  intros Hp. revert acc. induction Hp as [|p parts Hp _ IH]; intros acc; cbn [str_parts]; [keeps|].
  apply lowering_keeps_bind; [destruct p; cbn in Hp |- *; keeps|auto].
Qed.

Lemma keeps_binop op l r : goodo l -> goodo r -> keeps ip (translate_binop go op l r).
Proof. intros Hl Hr. unfold translate_binop. destruct op, l, r; cbn in Hl, Hr; keeps. Qed.

Lemma keeps_list items : Forall (fun e => good e) items -> keeps ip (translate_list go items).
Proof. induction 1; cbn [translate_list]; keeps. Qed.

Lemma keeps_entries es : Forall (on_entry (fun e => good e)) es -> forall set, keeps ip (insert_entries go set es).
Proof.
  induction 1 as [|e es He _ IH]; intros set; cbn [insert_entries]; [keeps|]. apply lowering_keeps_bind; [|auto].
  destruct e as [ap v|from attrs]; destruct He as [H1 H2]; cbn [entry_pairs]; [|apply lowering_keeps_bind; [by apply keeps_inherit|keeps]].
  apply lowering_keeps_bind; [|keeps]. destruct ap as [[|a [|? ?]]|]; cbn [apv_key_expr]; try (by keeps).
  apply keeps_key. by apply Forall_cons_1 in H1 as [H1 _].
Qed.

Lemma keeps_attrset r es : Forall (on_entry (fun e => good e)) es -> keeps ip (translate_attrset go r es).
Proof.
  intros Hes. unfold translate_attrset. destruct r; [|by apply keeps_entries]. unfold translate_rec_attrset.
  eapply keeps_yields; [by apply yields_rec_entries|intros [group inherits] Hg].
  do 2 (apply lowering_keeps_bind; [keeps|intros ?]). apply lowering_keeps_bind; [|keeps].
  match goal with |- keeps _ (insert_names ?e ?l) => generalize l; generalize e end.
  intros e l. revert e. induction l as [|n l IH]; intros e; cbn [insert_names]; keeps.
Qed.

Lemma keeps_keys (attrs : list (Attr Nix)) k : Forall (on_attr (fun e => good e)) attrs -> (forall names, keeps ip (k names)) ->
  keeps ip (bind_path_keys go attrs k).
Proof.
  intros Ha Hk. unfold bind_path_keys, key_names. apply lowering_keeps_bind.
  - apply keeps_for_all. eapply Forall_impl; [exact Ha|]. intros a H. apply lowering_keeps_bind; [keeps|intros x].
    apply lowering_keeps_bind; [by apply keeps_key|keeps].
  - intros lowered. apply lowering_keeps_bind; [auto|intros body]. clear Hk. induction lowered as [|[x e] l IH]; cbn [bind_keys]; keeps.
Qed.

Lemma keeps_has_named set keys : keeps ip (has_path_named set keys).
Proof. unfold has_path_named. keeps. Qed.
#[local] Hint Resolve keeps_has_named : keeps.

Lemma keeps_has e ap : goodo e -> on_path (fun e => good e) ap -> keeps ip (translate_has_attr go e ap).
Proof.
  intros He Ha. unfold translate_has_attr. apply lowering_keeps_bind; [by apply keeps_some|intros set].
  destruct ap as [[|a [|? ?]]|]; cbn [on_path] in Ha; try (by keeps); try (apply keeps_keys; [done|keeps]).
  apply Forall_cons_1 in Ha as [Ha _]. apply lowering_keeps_bind; [by apply keeps_key|keeps].
Qed.

Lemma keeps_hops attrs : Forall (on_attr (fun e => good e)) attrs -> forall r d, keeps ip (select_hops go r d attrs).
Proof.
  induction 1 as [|a attrs Ha _ IH]; intros r d; cbn [select_hops]; [keeps|]. apply lowering_keeps_bind; [by apply keeps_key|auto].
Qed.

Lemma keeps_select e ap r d : goodo e -> on_path (fun e => good e) ap -> goodo d -> keeps ip (translate_select go e ap r d).
Proof.
  intros He Ha Hd. unfold translate_select. destruct e as [e|], ap as [ap|]; try apply keeps_unsupported. cbn in He, Ha.
  apply lowering_keeps_bind; [destruct d; cbn in Hd; keeps|intros dflt]. apply lowering_keeps_bind; [keeps|intros bb].
  assert (keeps ip (select_builtin go dflt ap)) as Hs.
  { destruct ap as [|a ap]; cbn [select_builtin]; [keeps|]. apply Forall_cons_1 in Ha as [Ha1 Ha2].
    apply lowering_keeps_bind; [keeps|intros name]. by apply keeps_hops. }
  assert (keeps ip (result ← go e; select_hops go result dflt ap)) as Hp
    by (apply lowering_keeps_bind; [done|intros res; by apply keeps_hops]).
  destruct (_ && _); [done|]. destruct dflt as [dx|]; [|done]. destruct ap as [|a [|a' ap]]; try done.
  apply lowering_keeps_bind; [keeps|intros sname]. apply lowering_keeps_bind; [|keeps]. apply keeps_keys; [done|]. intros keys. keeps.
Qed.
End Forms.

Section Knot.
Context `{Fmt} `{NixParser} (tree : fnode) (cwd : list (list Z)) (dnx_path : option (list Z)).

Lemma keeps_expr ip import (Himport : forall p, keeps ip (import p)) e : keeps ip (translate_expr cwd import e).
Proof.
  induction e using nix_ind; cbn [translate_expr].
  - unfold translate_ident. repeat (case_bool_decide; [apply keeps_ret|]). apply lowering_keeps_bind; [apply keeps_asks|intros b].
    destruct b; [apply lowering_keeps_bind; [apply keeps_uses_var|intros _]|destruct (is_prelude_name _)]; apply keeps_ret.
  - by apply keeps_lambda.
  - by apply keeps_apply.
  - by apply keeps_let_in.
  - unfold translate_if_else. repeat (apply lowering_keeps_bind; [by apply keeps_some|intros ?]). apply keeps_ret.
  - unfold translate_assert. repeat (apply lowering_keeps_bind; [by apply keeps_some|intros ?]). apply keeps_ret.
  - by apply keeps_with.
  - destruct k as [[?|?]|[?|?]|?]; first [apply keeps_ret|apply keeps_err].
  - by apply keeps_str.
  - apply lowering_keeps_bind; [apply keeps_asks|intros ?; apply keeps_ret].
  - by apply keeps_binop.
  - unfold translate_unary. destruct op; [|apply keeps_unsupported]. apply lowering_keeps_bind; [by apply keeps_some|intros ?; apply keeps_ret].
  - by apply keeps_list.
  - by apply keeps_attrset.
  - by apply keeps_select.
  - by apply keeps_has.
  - by apply keeps_some.
  - by apply keeps_some.
  - apply keeps_unsupported.
Qed.

Lemma keeps_parse ip import (Himport : forall p, keeps ip (import p)) src : keeps ip (parse_with cwd import src).
Proof.
  unfold parse_with. destruct (rnix_parse src) as [[|e errs] [expr|]]; try apply keeps_err. by apply keeps_expr.
Qed.

Lemma fs_get_fuel q n : fs_get q n <> Fuel.
Proof. revert n. induction q as [|x q IH]; intros [|cs]; cbn; try done. by destruct (child x cs); cbn. Qed.

Lemma walk_fuel cs : forall q, walk tree q cs <> Fuel.
Proof.
  induction cs as [|[] cs IH]; intros q; cbn [walk]; try done; try (by apply IH);
    destruct (is_dir q tree); try done;
    match goal with |- context [fs_get ?r tree] => pose proof (fs_get_fuel r tree); destruct (fs_get r tree) end;
    cbn [mbind res_bind]; done || apply IH.
Qed.

Lemma read_fuel p : read_to_string tree cwd p <> Fuel.
Proof.
  unfold read_to_string, read_bytes, fs_locate. destruct p as [|c p]; [done|].
  pose proof (walk_fuel (components (c :: p)) cwd). destruct (walk _ _ _) as [q|?| |]; cbn [mbind res_bind]; try done.
  unfold fs_read. pose proof (fs_get_fuel q tree). destruct (fs_get q tree) as [[b|?]|?| |]; cbn [mbind res_bind]; try done.
  by destruct (from_utf8 b).
Qed.

(** Every level adds a file to those in progress, up to the cap. *)
Lemma keeps_import fuel : forall ip, (size ip <= MAX_IMPORT_DEPTH)%nat -> (MAX_IMPORT_DEPTH < fuel + size ip)%nat ->
  forall p, keeps ip (import_file tree cwd fuel p).
Proof.
  induction fuel as [|fuel IH]; intros ip Hs Hf p sc ctr <-; [lia|]. cbn [import_file].
  destruct (Nat.leb_spec MAX_IMPORT_DEPTH (size (in_progress sc))) as [|Hlt]; [done|].
  set (full := import_target _ _ _ _). pose proof (read_fuel full) as Hr.
  destruct (read_to_string tree cwd full) as [src|?| |]; cbn [map_err mbind res_bind]; try done.
  case_bool_decide as Hin; [done|].
  set (child := mk_scope _ _ _ _).
  pose proof (keeps_parse ({[canonical tree cwd full]} ∪ in_progress sc) (import_file tree cwd fuel)) as Hp.
  assert (size ({[canonical tree cwd full]} ∪ in_progress sc) = S (size (in_progress sc))) as Hsz
    by (rewrite size_union, size_singleton by set_solver; lia).
  specialize (Hp ltac:(intros q; apply IH; lia) src child ctr eq_refl).
  destruct (parse_with _ _ _ _) as [[e [sc' ctr']]|?| |]; cbn [mbind res_bind]; done.
Qed.
End Knot.

(** A valid program, [let a = 1; in [a a (let b = a; a = 2; in b)]]. *)
Definition var (s : string) : option Nix := Some (XIdent (Some (chars s))).
Definition lit (n : Z) : option Nix := Some (XLiteral (Integer (inl n))).
Definition defn (x : string) (v : option Nix) : Entry Nix := AttrpathValue (Some [AttrIdent (Some (chars x))]) v.
Definition shadowing_let : Nix :=
  XLetIn [defn "a" (lit 1)]
    (Some (XList [XIdent (Some (chars "a")); XIdent (Some (chars "a")); XLetIn [defn "b" (var "a"); defn "a" (lit 2)] (var "b")])).

(** A default that refers to a later field: [{ a ? b, b }: a]. *)
Definition later_field : Nix :=
  XLambda (Some (Pattern None [(Some (chars "a"), var "b"); (Some (chars "b"), None)])) (var "a").

(** The field is not in scope any more when the default is lowered: it
    becomes a builtin. *)
Lemma default_loses_field : exists e s, translate_expr [] (fun _ _ => Panic) later_field (mk_scope ∅ None ∅ ∅, 0) = Ok (e, s)
  /\ (rewrite_with_fields e).2 = [chars "b"].
Proof. do 2 eexists. vm_compute. split; reflexivity. Qed.

(** The default of a path below [builtins] is dropped: [builtins.a.b.c or d]. *)
Lemma builtins_default_dropped : exists e s,
  translate_expr [] (fun _ _ => Panic)
    (XSelect (var "builtins") (Some [AttrIdent (Some (chars "a")); AttrIdent (Some (chars "b")); AttrIdent (Some (chars "c"))]) true (var "d"))
    (mk_scope ∅ None ∅ ∅, 0) = Ok (e, s)
  /\ (rewrite_with_fields e).2 = [chars "a"].
Proof. do 2 eexists. vm_compute. split; reflexivity. Qed.

(** * Properties *)


(** A valid Nix program, [let a = 1; in [a a (let b = a; a = 2; in b)]],
    makes lowering panic: the value of [b] is counted as a use of the inner
    [a] but emitted outside its binder, so the outer [a] has three uses for
    two numbered copies and the third copy is out of range. *)
Lemma shadowing_let_panics : translate_expr [] (fun _ _ => Panic) shadowing_let (mk_scope ∅ None ∅ ∅, 0) = Panic.
Proof. vm_compute. reflexivity. Qed.
