(* ===== verification/Whnf.v ===== *)
(** * Demand-driven reduction ([crates/dnx-core/src/reduce/whnf.rs] and the
    primitive half of [reduce/mod.rs])

    Evaluation of a program does not normalise its net: it forces the agent at
    the root to weak head normal form, firing only the redex at the end of the
    demand spine ([take_spine_redex]).  A pair with a primitive agent is fired
    by [step_with_prims], which forces strict arguments first, so stepping and
    forcing call each other: the step takes the force as an argument and
    [force_whnf_with_prims] ties the knot with fuel. *)
From S2P Require Import Prelude Bytes Error LOPath Port Arena Net Prim Rules.

(** ** Heads *)

Inductive ValueHead : Type :=
| VAbs
| VPrim
| Stuck (p : PortId).

#[export] Instance ValueHead_eq_dec : EqDecision ValueHead.
Proof. solve_decision. Defined.

Record NormalizeConfig : Type := mk_config { max_steps : option Z; max_agents : option Z }.

Definition config_default : NormalizeConfig := mk_config None None.

Definition head_at (n : Net) (port : PortId) : res DnxError PortId :=
  if is_eraser port || is_null port then Ok port
  else s ← slot (arena n) (slot_idx port); Ok (port_raw s (port_kind port)).

Definition classify_head (n : Net) (head : PortId) : res DnxError (option ValueHead) :=
  if is_eraser head || is_null head then Ok (Some (Stuck head))
  else
    s ← slot (arena n) (slot_idx head);
    Ok (if is_fan s && fan_is_abs s then Some VAbs
        else if is_prim s then Some VPrim
        else if is_free s then Some (Stuck head)
        else None).

(** The two limits of a configuration, checked after [steps] was increased. *)
Definition check_steps (cfg : NormalizeConfig) (steps : Z) : res DnxError unit :=
  match max_steps cfg with
  | Some max => if max <? steps then Err (StepLimitExceeded steps) else Ok tt
  | None => Ok tt
  end.

Definition check_agents (cfg : NormalizeConfig) (n : Net) : res DnxError unit :=
  match max_agents cfg with
  | Some max => if max <? Z.of_nat (slot_count (arena n)) then Err ArenaCapacityExceeded else Ok tt
  | None => Ok tt
  end.

(** ** The demand spine *)

(** The walk of [take_spine_redex]; [guard] counts its iterations.  The two
    ports that face each other, with the path that leads there. *)
Fixpoint spine_walk (fuel : nat) (guard : Z) (n : Net) (cur : PortId) (lo : LOPath)
    : res DnxError (option (PortId * PortId * LOPath)) :=
  match fuel with
  | O => Fuel
  | S fuel =>
      let guard := guard + 1 in
      if 1000000 <? guard then Ok None
      else
        q ← peer n cur;
        if is_null q || is_eraser q then Ok None
        else if decide (port_kind q = Principal) then
          sq ← slot (arena n) (slot_idx q);
          if is_free sq then Ok None
          else
            sc ← slot (arena n) (slot_idx cur);
            if is_free sc then Ok None else Ok (Some (cur, q, lo))
        else
          match (if decide (port_kind q = Aux0) then extend_left lo else extend_right lo) with
          | Ok lo => spine_walk fuel guard n (port_new (slot_idx q) Principal (gen_low q)) lo
          | Err _ => Ok None
          | Panic => Panic
          | Fuel => Fuel
          end
  end.

(** A path has at most 512 turns: the walk looks at no more than 513 wires. *)
Definition SPINE_FUEL : nat := 513.

Definition same_pair (pa pb : PortId) (ap : ActivePair) : bool :=
  (p0 ap =? pa) && (p1 ap =? pb) || (p0 ap =? pb) && (p1 ap =? pa).

(** [frontier1.iter().find(..).map(|(k, _)| k.clone())]. *)
Fixpoint cached_key (pa pb : PortId) (f : list (LOPath * ActivePair)) : option LOPath :=
  match f with
  | [] => None
  | (k, ap) :: f => if same_pair pa pb ap then Some k else cached_key pa pb f
  end.

(** The entry of the frontier for this pair, removed from it when it is live. *)
Definition take_cached (n : Net) (pa pb : PortId) : res DnxError (option ActivePair * Net) :=
  match cached_key pa pb (frontier1 n) with
  | None => Ok (None, n)
  | Some key =>
      match bt_remove key (frontier1 n) with
      | None => Ok (None, n)
      | Some (ap, f1) =>
          let n := set_frontier1 f1 n in
          stale ← is_stale_pair ap n;
          Ok (if (stale : bool) then None else Some ap, n)
      end
  end.

Definition take_spine_redex (n : Net) (port : PortId) : res DnxError (option ActivePair * Net) :=
  found ← spine_walk SPINE_FUEL 0 n port root;
  match found with
  | None => Ok (None, n)
  | Some (pa, pb, lo) =>
      sa ← slot (arena n) (slot_idx pa);
      sb ← slot (arena n) (slot_idx pb);
      match polarity sa (port_kind pa), polarity sb (port_kind pb) with
      | Some pol_a, Some pol_b =>
          if decide (pol_a = pol_b) then Ok (None, n)
          else
            '(cached, n) ← take_cached n pa pb;
            Ok (option_or cached (active_pair_new pa pb lo), n)
      | _, _ =>
          '(cached, n) ← take_cached n pa pb;
          Ok (option_or cached (active_pair_new pa pb lo), n)
      end
  end.

Definition prim_bool (ps : PrimState) (data : Z) : option bool :=
  match vals ps !! Z.to_nat data with Some (PBool b) => Some b | _ => None end.

(** ** Primitive pairs *)

Definition is_app (s : Slot) : bool := is_fan s && negb (fan_is_abs s).
Definition is_abs (s : Slot) : bool := is_fan s && fan_is_abs s.

(** One of two slots satisfies [p] and the other [q]: the two ports, in that
    order. *)
Definition sides (p q : Slot -> bool) (ap : ActivePair) (s0 s1 : Slot)
    : option (PortId * PortId) :=
  if p s0 && q s1 then Some (p0 ap, p1 ap)
  else if p s1 && q s0 then Some (p1 ap, p0 ap)
  else None.

Definition has_tag (t : Z) (s : Slot) : bool := tag s =? t.

(** Both outputs of a replicator get a copy of the primitive agent it meets. *)
Definition clone_agent {A : Type} (alloc : Net -> PrimState -> A -> res DnxError (PortId * Net * PrimState))
    (n : Net) (ps : PrimState) (p_rep p_prim : PortId) (v : A) (lo : LOPath)
    : res DnxError (Net * PrimState) :=
  rep_sv ← net_slot n p_rep;
  n ← retire n (slot_idx p_rep);
  n ← retire n (slot_idx p_prim);
  '(v0, n, ps) ← alloc n ps v;
  '(v1, n, ps) ← alloc n ps v;
  l ← extend_left lo;
  n ← connect n v0 (aux0 rep_sv) l;
  r ← extend_right lo;
  n ← connect n v1 (aux1 rep_sv) r;
  Ok (n, ps).

Section Step.
Context {C : CRules}.
Context (call : nat -> list PrimValue -> res DnxError PrimValue).
(** Forcing, for the strict arguments of a primitive. *)
Context (force : Net -> PrimState -> PortId -> res DnxError (ValueHead * Net * PrimState)).

(** The argument of an application whose function is a primitive is ready. *)
Definition arg_ready (n : Net) (arg : PortId) : res DnxError bool :=
  and_then (Ok (slot_is_live n arg))
    (asv ← net_slot n arg; Ok (has_tag TAG_PRIM_VAL asv || is_abs asv)).

Definition app_reusable (n : Net) (p_app : PortId) : res DnxError bool :=
  and_then (port_live p_app n) (sv ← net_slot n p_app; Ok (is_app sv)).

Definition fire_app_prim (n : Net) (ps : PrimState) (p_app p_pf : PortId) (lo : LOPath)
    : res DnxError (Net * PrimState) :=
  app_sv ← net_slot n p_app;
  ready ← arg_ready n (aux1 app_sv);
  '(n, ps) ← (if (ready : bool) then Ok (n, ps)
              else '(_, n, ps) ← force n ps (port_new (slot_idx p_app) Aux1 (gen_low p_app));
                   Ok (n, ps));
  reusable ← app_reusable n p_app;
  if negb (reusable : bool) then Ok (n, ps)
  else
    app_sv ← net_slot n p_app;
    let arg := aux1 app_sv in
    let cont := aux0 app_sv in
    n ← retire n (slot_idx p_app);
    arg_sv ← net_slot n arg;
    if has_tag TAG_PRIM_VAL arg_sv then prim_apply_with_cont call n ps p_pf arg cont lo
    else
      '(tmp, n, ps) ← alloc_prim_val n ps PLambda;
      n ← connect n arg ERA lo;
      prim_apply_with_cont call n ps p_pf tmp cont lo.

Definition coerce_bool (n : Net) (p_app p_bool : PortId) (b : bool) (lo : LOPath)
    : res DnxError Net :=
  n ← retire n (slot_idx p_bool);
  '(cp, n) ← emit_church_bool n b;
  connect n p_app cp lo.

(** The application of a tagged boolean in a pair, if that is what it is. *)
Definition app_bool (ps : PrimState) (ap : ActivePair) (s0 s1 : Slot)
    : option (PortId * PortId * bool) :=
  if is_app s0 && has_tag TAG_PRIM_VAL s1 then
    b ← prim_bool ps (data s1); Some (p0 ap, p1 ap, b)
  else if is_app s1 && has_tag TAG_PRIM_VAL s0 then
    b ← prim_bool ps (data s0); Some (p1 ap, p0 ap, b)
  else None.

Definition step_with_prims (n : Net) (ps : PrimState) (ap : ActivePair) (st : ReduceStats)
    : res DnxError (Net * PrimState * ReduceStats) :=
  let lo := pair_lo ap in
  s0 ← slot (arena n) (slot_idx (p0 ap));
  s1 ← slot (arena n) (slot_idx (p1 ap));
  if is_free s0 || is_free s1 then Ok (n, ps, st)
  else
    match sides (has_tag TAG_PRIM_FUN) (has_tag TAG_PRIM_VAL) ap s0 s1 with
    | Some (p_fun, p_arg) =>
        '(n, ps) ← prim_apply call n ps p_fun p_arg lo; Ok (n, ps, st)
    | None =>
    match sides is_app (has_tag TAG_PRIM_FUN) ap s0 s1 with
    | Some (p_app, p_pf) =>
        '(n, ps) ← fire_app_prim n ps p_app p_pf lo; Ok (n, ps, st)
    | None =>
    match app_bool ps ap s0 s1 with
    | Some (p_app, p_bool, b) =>
        n ← coerce_bool n p_app p_bool b lo; Ok (n, ps, st)
    | None =>
    match sides is_rep (has_tag TAG_PRIM_VAL) ap s0 s1 with
    | Some (p_rep, p_pv) =>
        pv_sv ← net_slot n p_pv;
        pval ← ok_or (vals ps !! Z.to_nat (data pv_sv)) ReadbackIncomplete;
        '(n, ps) ← clone_agent alloc_prim_val n ps p_rep p_pv pval lo; Ok (n, ps, st)
    | None =>
    match sides is_rep (has_tag TAG_PRIM_FUN) ap s0 s1 with
    | Some (p_rep, p_pf) =>
        pf_sv ← net_slot n p_pf;
        entry ← ok_or (funs ps !! Z.to_nat (data pf_sv)) ReadbackIncomplete;
        '(n, ps) ← clone_agent alloc_prim_fun n ps p_rep p_pf entry lo; Ok (n, ps, st)
    | None =>
        '(n, st) ← dispatch_phase1 n ap st; Ok (n, ps, st)
    end end end end end.
End Step.

(** ** The drivers *)

Section Drivers.
Context {C : CRules}.

(** The inner loop of [force_whnf]: the first pair that is not stale. *)
Fixpoint pop_live (f : list (LOPath * ActivePair)) (n : Net)
    : res DnxError (option ActivePair * Net) :=
  match f with
  | [] => Ok (None, set_frontier1 [] n)
  | (_, candidate) :: f =>
      let n := set_frontier1 f n in
      stale ← is_stale_pair candidate n;
      if (stale : bool) then pop_live f n else Ok (Some candidate, n)
  end.

Fixpoint force_loop (fuel : nat) (cfg : NormalizeConfig) (n : Net) (port : PortId)
    (steps : Z) (st : ReduceStats) : res DnxError (ValueHead * Net) :=
  match fuel with
  | O => Fuel
  | S fuel =>
      head ← head_at n port;
      vh ← classify_head n head;
      match vh with
      | Some vh => Ok (vh, n)
      | None =>
          '(popped, n) ← pop_live (frontier1 n) n;
          match popped with
          | None => Ok (Stuck head, n)
          | Some ap =>
              let steps := steps + 1 in
              _ ← check_steps cfg steps;
              _ ← check_agents cfg n;
              '(n, st) ← dispatch_phase1 n ap st;
              force_loop fuel cfg n port steps st
          end
      end
  end.

Definition force_whnf (fuel : nat) (n : Net) (port : PortId) (cfg : NormalizeConfig)
    : res DnxError (ValueHead * Net) :=
  force_loop fuel cfg n port 0 stats_default.

Context (call : nat -> list PrimValue -> res DnxError PrimValue).

(** The loop of [force_whnf_with_prims]; the fuel bounds the iterations and
    the depth of nested forces together. *)
Fixpoint demand_loop (fuel : nat) (cfg : NormalizeConfig) (n : Net) (ps : PrimState)
    (port : PortId) (steps : Z) (st : ReduceStats)
    : res DnxError (ValueHead * Net * PrimState) :=
  match fuel with
  | O => Fuel
  | S fuel =>
      head ← head_at n port;
      vh ← classify_head n head;
      match vh with
      | Some vh => Ok (vh, n, ps)
      | None =>
          '(redex, n) ← take_spine_redex n port;
          match redex with
          | None =>
              '(n, again) ← drain_phase2 n;
              if (again : bool) then demand_loop fuel cfg n ps port steps st
              else Ok (Stuck head, n, ps)
          | Some ap =>
              let steps := steps + 1 in
              _ ← check_steps cfg steps;
              _ ← check_agents cfg n;
              '(n, ps, st) ←
                step_with_prims call
                  (fun n ps port => demand_loop fuel cfg n ps port 0 stats_default) n ps ap st;
              demand_loop fuel cfg n ps port steps st
          end
      end
  end.

Definition force_whnf_with_prims (fuel : nat) (n : Net) (ps : PrimState) (port : PortId)
    (cfg : NormalizeConfig) : res DnxError (ValueHead * Net * PrimState) :=
  demand_loop fuel cfg n ps port 0 stats_default.

(** The drains of [normalize_with_prims] ([cfg] the default) and of
    [normalize_demand]. *)
Fixpoint drain_prims (fuel : nat) (cfg : NormalizeConfig) (n : Net) (ps : PrimState)
    (steps : Z) (st : ReduceStats) : res DnxError (Net * PrimState * ReduceStats) :=
  match fuel with
  | O => Fuel
  | S fuel =>
      match bt_pop_first (frontier1 n) with
      | None => Ok (n, ps, st)
      | Some ((_, ap), f1) =>
          let n := set_frontier1 f1 n in
          stale ← is_stale_pair ap n;
          if (stale : bool) then drain_prims fuel cfg n ps steps st
          else
            let steps := steps + 1 in
            _ ← check_steps cfg steps;
            let st := mk_stats (interactions st + 1) (r4_count st) in
            '(n, ps, st) ←
              step_with_prims call
                (fun n ps port => force_whnf_with_prims fuel n ps port cfg) n ps ap st;
            drain_prims fuel cfg n ps steps st
      end
  end.

Definition normalize_with_prims (fuel : nat) (n : Net) (ps : PrimState)
    : res DnxError (CanonicalNet * PrimState * ReduceStats) :=
  '(n, ps, st) ← drain_prims fuel config_default n ps 0 stats_default;
  canonical ← finalize_canonical fuel n;
  Ok (canonical, ps, st).

Definition normalize_demand (fuel : nat) (n : Net) (ps : PrimState) (root : PortId)
    (cfg : NormalizeConfig) : res DnxError (CanonicalNet * PrimState * ReduceStats) :=
  '(_, n, ps) ← force_whnf_with_prims fuel n ps root cfg;
  '(n, ps, st) ← drain_prims fuel cfg n ps 0 stats_default;
  canonical ← finalize_canonical fuel n;
  Ok (canonical, ps, st).
End Drivers.
