(* ===== verification/WhnfSpec.v ===== *)
(** * What forcing does

    The demand spine as a relation on the wires of a net ([descends],
    [demanded]), against which [take_spine_redex] is proved sound, complete
    and total; what an answer of the drivers says; how a step treats
    structural pairs and pairs with an eraser; and what the limits of a
    configuration do and do not bound. *)
From stdpp Require Import sorting.
From S2P Require Import Prelude Bytes Text Error LOPath Port Arena Net Prim Wiring Examples Rules ReduceSpecs Whnf.

(** ** Specification *)

(** From port [p] the demand goes to [cur]: over a wire that ends at an
    auxiliary port, to the principal port of that agent. *)
Inductive descends (n : Net) : PortId -> list bool -> PortId -> Prop :=
| descends_nil p : descends n p [] p
| descends_cons p q ds cur :
    peer n p = Ok q -> real q = true -> port_kind q <> Principal ->
    descends n (port_new (slot_idx q) Principal (gen_low q)) ds cur ->
    descends n p (bool_decide (port_kind q <> Aux0) :: ds) cur.

(** The demand of [port] ends, after the turns [ds], at the wire from [cur]
    to the principal port [q], and a rule may fire there: neither agent is a
    free variable and they are not of the same polarity. *)
Record demanded (n : Net) (port cur q : PortId) (ds : list bool) : Prop := mk_demanded {
  dm_path : descends n port ds cur;
  dm_peer : peer n cur = Ok q;
  dm_real : real q = true;
  dm_principal : port_kind cur = Principal /\ port_kind q = Principal;
  dm_slots : exists sc sq, slot (arena n) (slot_idx cur) = Ok sc
    /\ slot (arena n) (slot_idx q) = Ok sq /\ is_free sc = false /\ is_free sq = false
    /\ (forall pol, polarity sc (port_kind cur) = Some pol -> polarity sq (port_kind q) <> Some pol)
}.

(** The frontier is a map: its keys increase. *)
Definition sorted_keys {V : Type} (m : list (LOPath * V)) : Prop :=
  StronglySorted (fun a b => cmp a.1 b.1 = Lt) m.

(** The frontier of pairs: a map, and both ends of a pair are principal ports
    (the type [PrincipalPort] of the source). *)
Definition frontier_ok (f : list (LOPath * ActivePair)) : Prop :=
  sorted_keys f /\ Forall (fun kv => port_kind (p0 kv.2) = Principal /\ port_kind (p1 kv.2) = Principal) f.

(** An answer for [port]: the head has been classified, or the head is no
    value and no redex is demanded. *)
Definition answered (n : Net) (port : PortId) (vh : ValueHead) (idle : Prop) : Prop :=
  exists head, head_at n port = Ok head
  /\ (classify_head n head = Ok (Some vh)
      \/ (classify_head n head = Ok None /\ vh = Stuck head /\ idle)).

(** * Lemmas *)

Lemma virtual_port q : (is_null q || is_eraser q) = negb (real q).
Proof. unfold real. by rewrite negb_involutive, orb_comm. Qed.

Lemma principal_port_kind p : port_kind p = Principal -> principal_port p = Some p.
Proof. intros H. unfold principal_port. by rewrite H. Qed.

(** ** The walk *)

Lemma spine_turn q lo : port_kind q <> Principal ->
  (if decide (port_kind q = Aux0) then extend_left lo else extend_right lo)
  = extend_bit lo (bit_of (bool_decide (port_kind q <> Aux0))).
Proof.
  intros _. case_decide as H; [rewrite bool_decide_eq_false_2 by tauto|rewrite bool_decide_eq_true_2 by done]; done.
Qed.

Lemma spine_walk_sound fuel : forall guard n cur lo pa pb lo',
  spine_walk fuel guard n cur lo = Ok (Some (pa, pb, lo')) -> lopath_wf lo ->
  exists ds sc sq, descends n cur ds pa /\ peer n pa = Ok pb /\ real pb = true
    /\ port_kind pb = Principal /\ slot (arena n) (slot_idx pa) = Ok sc
    /\ slot (arena n) (slot_idx pb) = Ok sq /\ is_free sc = false /\ is_free sq = false
    /\ lopath_wf lo' /\ bits lo' = bits lo ++ ds.
Proof.
  induction fuel as [|fuel IH]; intros guard n cur lo pa pb lo' H Hw; [done|]. cbn [spine_walk] in H.
  destruct (1000000 <? guard + 1); [done|].
  destruct (peer n cur) as [q| | |] eqn:Hq; try done. cbn [mbind res_bind] in H.
  rewrite virtual_port in H. destruct (real q) eqn:Hr; cbn [negb] in H; [|done].
  destruct (decide (port_kind q = Principal)) as [Hk|Hk].
  - destruct (slot (arena n) (slot_idx q)) as [sq| | |] eqn:Hsq; try done. cbn [mbind res_bind] in H.
    destruct (is_free sq) eqn:Hfq; [done|].
    destruct (slot (arena n) (slot_idx cur)) as [sc| | |] eqn:Hsc; try done. cbn [mbind res_bind] in H.
    destruct (is_free sc) eqn:Hfc; [done|]. injection H as -> -> ->.
    exists [], sc, sq. rewrite app_nil_r. repeat (split; [done || constructor|]). done.
  - rewrite spine_turn in H by done.
    destruct (extend_bit lo _) as [lo1| | |] eqn:He; try done.
    apply extend_ok in He as [Hw1 Hb1]; [|done].
    destruct (IH _ _ _ _ _ _ _ H Hw1) as (ds & sc & sq & Hd & Hp & Hr' & Hk' & Hsc & Hsq & Hfc & Hfq & Hw' & Hb).
    exists (bool_decide (port_kind q <> Aux0) :: ds), sc, sq. split; [by econstructor|].
    do 7 (split; [done|]). split; [done|]. by rewrite Hb, Hb1, <- app_assoc.
Qed.

(** The guard of the source is never reached: the path is full before. *)
Lemma spine_walk_complete n cur ds pa : descends n cur ds pa ->
  forall fuel guard lo pb sc sq, guard + Z.of_nat fuel <= 1000000 -> lopath_wf lo ->
  depth lo + Z.of_nat (length ds) <= 512 -> (length ds < fuel)%nat ->
  peer n pa = Ok pb -> real pb = true -> port_kind pb = Principal ->
  slot (arena n) (slot_idx pa) = Ok sc -> slot (arena n) (slot_idx pb) = Ok sq ->
  is_free sc = false -> is_free sq = false ->
  exists lo', spine_walk fuel guard n cur lo = Ok (Some (pa, pb, lo')).
Proof.
  induction 1 as [p|p q ds cur Hq Hr Hk Hd IH];
    intros fuel guard lo pb sc sq Hg Hw Hlen Hf Hp Hrb Hkb Hsc Hsq Hfc Hfq;
    (destruct fuel as [|fuel]; [simpl in *; lia|]); cbn [spine_walk];
    (destruct (1000000 <? guard + 1) eqn:HG; [simpl in *; lia|]).
  - rewrite Hp. cbn [mbind res_bind]. rewrite virtual_port, Hrb. cbn [negb].
    rewrite decide_True by done. rewrite Hsq. cbn [mbind res_bind]. rewrite Hfq, Hsc.
    cbn [mbind res_bind]. rewrite Hfc. eauto.
  - rewrite Hq. cbn [mbind res_bind]. rewrite virtual_port, Hr. cbn [negb].
    rewrite decide_False by done. rewrite spine_turn by done.
    cbn [length] in Hlen, Hf.
    destruct (extend_bit_room lo (bool_decide (port_kind q <> Aux0)) Hw) as (lo1 & -> & Hw1 & Hb1); [lia|].
    eapply IH; try done; [lia| |lia].
    rewrite <- (bits_length lo1 Hw1), Hb1, length_app. rewrite <- (bits_length lo Hw) in Hlen.
    cbn [length]. lia.
Qed.

Lemma current_peer n p : net_inv n -> current n p ->
  exists q, peer n p = Ok q /\ (real q = true -> current n q).
Proof.
  intros Hn (s & Ha & Hs & Hp).
  assert (real p = true) as Hr.
  { rewrite Hp. apply real_port_of; apply (alive_idx n _ (ni_arena n Hn) Ha). }
  exists (port_raw s (port_kind p)). unfold peer. apply real_true in Hr as Hr'. destruct Hr' as [He Hz].
  rewrite He, Hz. cbn [orb]. rewrite (net_slot_at n p s Hs). split; [done|].
  intros Hq. by apply (ni_sym n Hn _ _ _ Ha Hs) in Hq as [? _].
Qed.

Lemma current_slot n p : current n p -> exists s, slot (arena n) (slot_idx p) = Ok s.
Proof. intros (s & _ & Hs & _). exists s. by apply (net_slot_at n p). Qed.

Lemma current_principal n q : net_inv n -> current n q ->
  current n (port_new (slot_idx q) Principal (gen_low q)).
Proof.
  intros Hn (s & Ha & Hs & Hq). destruct (alive_idx n _ (ni_arena n Hn) Ha) as [Hr _].
  assert (gen_low q = Z.land (generation s) 1) as ->.
  { rewrite Hq at 1. unfold port_of. apply gen_low_new; [done|apply land_1_bit]. }
  apply (current_port_of n (slot_idx q) Principal s); [apply Hn|done|done].
Qed.

Lemma spine_walk_total fuel : forall guard n cur lo, net_inv n -> current n cur -> lopath_wf lo ->
  513 - depth lo <= Z.of_nat fuel -> exists r, spine_walk fuel guard n cur lo = Ok r.
Proof.
  induction fuel as [|fuel IH]; intros guard n cur lo Hn Hc Hw Hf.
  { pose proof (depth_le_512 lo Hw). lia. }
  cbn [spine_walk]. destruct (1000000 <? guard + 1); [eauto|].
  destruct (current_peer n cur Hn Hc) as (q & -> & Hq). cbn [mbind res_bind].
  rewrite virtual_port. destruct (real q) eqn:Hr; cbn [negb]; [|eauto]. specialize (Hq eq_refl).
  case_decide as Hk.
  - destruct (current_slot n q Hq) as [sq ->]. cbn [mbind res_bind]. destruct (is_free sq); [eauto|].
    destruct (current_slot n cur Hc) as [sc ->]. cbn [mbind res_bind]. destruct (is_free sc); eauto.
  - rewrite spine_turn by done. pose proof (depth_le_512 lo Hw).
    destruct (decide (depth lo = 512)) as [Hd|Hd]; [rewrite extend_bit_full by done; eauto|].
    destruct (extend_bit_room lo (bool_decide (port_kind q <> Aux0)) Hw) as (lo1 & -> & Hw1 & Hb1); [lia|].
    apply IH; [done|by apply current_principal|done|].
    rewrite <- (bits_length lo1 Hw1), Hb1, length_app. rewrite <- (bits_length lo Hw) in Hf.
    cbn [length]. lia.
Qed.

(** ** The frontier as a map *)

Lemma cmp_limbs_antisym a : forall b, cmp_limbs b a = CompOpp (cmp_limbs a b).
Proof.
  induction a as [|x a IH]; intros [|y b]; simpl; try done.
  rewrite Z.compare_antisym. destruct (x ?= y); simpl; auto.
Qed.

Lemma cmp_antisym p q : cmp q p = CompOpp (cmp p q).
Proof.
  unfold cmp. rewrite cmp_limbs_antisym. destruct (cmp_limbs (all_limbs p) (all_limbs q)); simpl; try done.
  apply Z.compare_antisym.
Qed.

Lemma cmp_refl p : cmp p p = Eq.
Proof. pose proof (cmp_antisym p p). by destruct (cmp p p). Qed.

Lemma sorted_keys_cons {V} (kv : LOPath * V) m : sorted_keys (kv :: m) ->
  sorted_keys m /\ (forall kv', kv' ∈ m -> cmp kv.1 kv'.1 = Lt).
Proof. intros [H ?]%StronglySorted_cons. by rewrite Forall_forall in H. Qed.

Lemma cached_key_removed pa pb f k : cached_key pa pb f = Some k -> sorted_keys f ->
  exists ap f', bt_remove k f = Some (ap, f') /\ (k, ap) ∈ f /\ same_pair pa pb ap = true
    /\ f' `sublist_of` f.
Proof.
  induction f as [|[k' ap'] f IH]; [done|]. cbn [cached_key bt_remove].
  intros H [Hs Hlt]%sorted_keys_cons. destruct (same_pair pa pb ap') eqn:Hp.
  - injection H as ->. rewrite cmp_refl. exists ap', f. split; [done|]. split; [left|].
    split; [done|]. by constructor.
  - destruct (IH H Hs) as (ap & f' & Hrm & Hin & Hsame & Hsub).
    specialize (Hlt _ Hin). cbn [fst] in Hlt. rewrite cmp_antisym, Hlt. cbn [CompOpp].
    rewrite Hrm. exists ap, ((k', ap') :: f'). split; [done|]. split; [by right|].
    split; [done|]. by constructor.
Qed.


Lemma bt_insert_in {V} k (v : V) m kv : kv ∈ bt_insert k v m -> kv = (k, v) \/ (exists v', (kv.1, v') ∈ m).
Proof.
  induction m as [|[k' v'] m IH]; cbn [bt_insert].
  - intros ->%list_elem_of_singleton. by left.
  - destruct kv as [k1 v1]. cbn [fst] in *. destruct (cmp k k').
    + intros [[= -> ->]|H]%elem_of_cons; right; [exists v'; left|]. exists v1. by right.
    + intros [H|H]%elem_of_cons; [by left|]. right. by exists v1.
    + intros [[= -> ->]|H]%elem_of_cons; [right; exists v'; left|].
      destruct (IH H) as [|[v2 ?]]; [by left|]. right. exists v2. by right.
Qed.

Lemma cmp_Lt_trans p q r : lopath_wf p -> lopath_wf q -> lopath_wf r ->
  cmp p q = Lt -> cmp q r = Lt -> cmp p r = Lt.
Proof. intros Hp Hq Hr. rewrite !cmp_bits by done. apply lex_cmp_trans. Qed.

(** Registering a pair or a candidate keeps the keys increasing. *)
Lemma bt_insert_sorted {V} k (v : V) m : lopath_wf k -> Forall (fun kv => lopath_wf kv.1) m ->
  sorted_keys m -> sorted_keys (bt_insert k v m).
Proof.
  intros Hk. induction m as [|[k' v'] m IH]; cbn [bt_insert].
  { intros _ _. apply StronglySorted_cons. repeat constructor. }
  intros [Hk' Hm]%Forall_cons [Hlt Hs]%StronglySorted_cons. cbn [fst] in *.
  destruct (cmp k k') eqn:Hc; apply StronglySorted_cons.
  - done.
  - split; [|by apply StronglySorted_cons]. constructor; [done|].
    rewrite Forall_forall in *. intros kv Hkv. cbn [fst]. eapply cmp_Lt_trans; eauto.
  - split; [|by apply IH]. apply Forall_forall. intros [k1 v1] [H|[v2 H]]%bt_insert_in; cbn [fst] in *.
    + injection H as -> ->. rewrite cmp_antisym, Hc. done.
    + rewrite Forall_forall in Hlt. exact (Hlt _ H).
Qed.

Lemma current_port_live n p : current n p -> net_inv n -> port_live p n = Ok true.
Proof.
  intros (s & Ha & Hs & Hp) Hn. pose proof (alive_idx n _ (ni_arena n Hn) Ha) as [Hr Hz].
  unfold port_live. assert (is_eraser p = false) as ->.
  { rewrite Hp. apply is_eraser_new; [done|apply land_1_bit]. }
  unfold and_then. cbn [mbind res_bind].
  rewrite (proj2 (is_live_elem (arena n) _ (ni_arena n Hn))) by exact Ha.
  change (slot (arena n) (slot_idx p)) with (net_slot n p). rewrite (net_slot_at n p s Hs).
  cbn [mbind res_bind]. assert (gen_low p = Z.land (generation s) 1) as ->; [|by rewrite Z.eqb_refl].
  rewrite Hp at 1. unfold port_of. apply gen_low_new; [done|apply land_1_bit].
Qed.

Lemma take_cached_spec n pa pb : net_inv n -> current n pa -> current n pb -> sorted_keys (frontier1 n) ->
  exists o n', take_cached n pa pb = Ok (o, n') /\ arena n' = arena n /\ frontier2 n' = frontier2 n
    /\ frontier1 n' `sublist_of` frontier1 n
    /\ (forall ap, o = Some ap -> same_pair pa pb ap = true /\ exists k, (k, ap) ∈ frontier1 n).
Proof.
  intros Hn Ha Hb Hs. unfold take_cached.
  destruct (cached_key pa pb (frontier1 n)) as [k|] eqn:Hc.
  - destruct (cached_key_removed pa pb _ k Hc Hs) as (ap & f' & -> & Hin & Hsame & Hsub).
    assert (is_stale_pair ap (set_frontier1 f' n) = Ok false) as ->.
    { pose proof (current_port_live n pa Ha Hn) as La. pose proof (current_port_live n pb Hb Hn) as Lb.
      unfold is_stale_pair, stale_ports.
      change (port_live (p0 ap) (set_frontier1 f' n)) with (port_live (p0 ap) n).
      change (port_live (p1 ap) (set_frontier1 f' n)) with (port_live (p1 ap) n).
      unfold same_pair in Hsame.
      apply orb_true_iff in Hsame as [[->%Z.eqb_eq ->%Z.eqb_eq]%andb_true_iff
                                     |[->%Z.eqb_eq ->%Z.eqb_eq]%andb_true_iff];
        rewrite ?La, ?Lb; cbn [mbind res_bind negb]; by rewrite ?La, ?Lb. }
    cbn [mbind res_bind]. eexists _, _. split; [done|]. do 2 (split; [done|]). split; [done|].
    intros ? [= <-]. eauto.
  - exists None, n. split; [done|]. do 3 (split; [done|]). done.
Qed.

Lemma descends_current n port ds cur : descends n port ds cur -> net_inv n -> current n port -> current n cur.
Proof.
  intros H Hn. induction H as [|p q ds cur Hq Hr Hk Hd IH]; [done|]. intros Hc.
  destruct (current_peer n p Hn Hc) as (q' & Hq' & Hcq). rewrite Hq in Hq'. injection Hq' as <-.
  by apply IH, current_principal, Hcq.
Qed.

Lemma peer_is_current n p q : net_inv n -> current n p -> peer n p = Ok q -> real q = true -> current n q.
Proof.
  intros Hn Hc Hq Hr. destruct (current_peer n p Hn Hc) as (q' & Hq' & H).
  rewrite Hq in Hq'. injection Hq' as <-. by apply H.
Qed.

(** The end of the demand is unique. *)
Lemma demanded_unique n port cur q ds : demanded n port cur q ds -> forall cur' q' ds',
  demanded n port cur' q' ds' -> cur' = cur /\ q' = q /\ ds' = ds.
Proof.
  intros [Hd Hp _ [_ Hk] _]. revert Hp Hk. induction Hd as [p|p q0 ds cur Hq Hr Hk0 Hd IH]; intros Hp Hk cur' q' ds' [Hd' Hp' Hr' [Hc' Hk'] Hs'].
  - inversion Hd' as [|? q1 ? ? Hq1 _ Hk1]; subst; [|congruence]. split; [done|]. split; [congruence|done].
  - inversion Hd' as [|? q1 ds1 ? Hq1 _ Hk1 Hd1]; subst; [congruence|].
    rewrite Hq in Hq1. injection Hq1 as <-.
    destruct (IH Hp Hk cur' q' ds1) as (-> & -> & ->); [by split|done].
Qed.

Definition clash (sa sb : Slot) (ka kb : PortKind) : bool :=
  match polarity sa ka, polarity sb kb with
  | Some x, Some y => bool_decide (x = y)
  | _, _ => false
  end.

Lemma clash_false sa sb ka kb : clash sa sb ka kb = false <->
  forall pol, polarity sa ka = Some pol -> polarity sb kb <> Some pol.
Proof.
  unfold clash. destruct (polarity sa ka) as [x|], (polarity sb kb) as [y|];
    rewrite ?bool_decide_eq_false; naive_solver.
Qed.

Lemma take_spine_redex_eq n port pa pb lo sa sb :
  spine_walk SPINE_FUEL 0 n port root = Ok (Some (pa, pb, lo)) ->
  slot (arena n) (slot_idx pa) = Ok sa -> slot (arena n) (slot_idx pb) = Ok sb ->
  take_spine_redex n port =
    if clash sa sb (port_kind pa) (port_kind pb) then Ok (None, n)
    else '(cached, n) ← take_cached n pa pb; Ok (option_or cached (active_pair_new pa pb lo), n).
Proof.
  intros Hw Ha Hb. unfold take_spine_redex, clash. rewrite Hw. cbn [mbind res_bind]. rewrite Ha. cbn [mbind res_bind].
  rewrite Hb. cbn [mbind res_bind].
  destruct (polarity sa (port_kind pa)) as [x|], (polarity sb (port_kind pb)) as [y|]; try done.
  by case_decide; case_bool_decide.
Qed.

Lemma demanded_walk n port cur q ds : demanded n port cur q ds -> (length ds <= 512)%nat ->
  exists lo, spine_walk SPINE_FUEL 0 n port root = Ok (Some (cur, q, lo)).
Proof.
  intros [Hd Hp Hr [_ Hk] (sc & sq & Hsc & Hsq & Hfc & Hfq & _)] Hl.
  eapply (spine_walk_complete n port ds cur Hd); try done; [apply root_wf|..].
  - change (depth root) with 0. lia.
  - unfold SPINE_FUEL. lia.
Qed.

(** What a pair of the frontier with the ends [pa] and [pb] says of them. *)
Lemma same_pair_principal pa pb k ap f : frontier_ok f -> (k, ap) ∈ f -> same_pair pa pb ap = true ->
  port_kind pa = Principal.
Proof.
  intros [_ Hf] Hin Hs. rewrite Forall_forall in Hf. destruct (Hf _ Hin) as [H0 H1]. cbn [snd] in *.
  unfold same_pair in Hs.
  apply orb_true_iff in Hs as [[Hs%Z.eqb_eq _]%andb_true_iff|[_ Hs%Z.eqb_eq]%andb_true_iff]; congruence.
Qed.

(** ** Nets with one arena *)

Lemma peer_arena n n' p : arena n' = arena n -> peer n' p = peer n p.
Proof. intros H. unfold peer, net_slot. by rewrite H. Qed.

Lemma head_at_arena n n' p : arena n' = arena n -> head_at n' p = head_at n p.
Proof. intros H. unfold head_at. by rewrite H. Qed.

Lemma classify_arena n n' h : arena n' = arena n -> classify_head n' h = classify_head n h.
Proof. intros H. unfold classify_head. by rewrite H. Qed.

Lemma demanded_arena n n' port cur q ds : arena n' = arena n ->
  demanded n port cur q ds -> demanded n' port cur q ds.
Proof.
  intros Ha [Hd Hp Hr Hk Hs]. split; try done; [|by rewrite (peer_arena n)|by rewrite Ha].
  clear -Hd Ha. induction Hd; [constructor|]. econstructor; try done. by rewrite (peer_arena n).
Qed.

Lemma take_cached_arena n pa pb o n' : take_cached n pa pb = Ok (o, n') -> arena n' = arena n.
Proof.
  unfold take_cached. destruct (cached_key _ _ _); [|by intros [= _ <-]].
  destruct (bt_remove _ _) as [[ap f1]|]; [|by intros [= _ <-]].
  destruct (is_stale_pair _ _); try done. by intros [= _ <-].
Qed.

Lemma take_spine_redex_arena n port r n' : take_spine_redex n port = Ok (r, n') -> arena n' = arena n.
Proof.
  intros H. pose proof H as H0. unfold take_spine_redex in H0.
  destruct (spine_walk SPINE_FUEL 0 n port root) as [[[[pa pb] lo]|]| | |] eqn:Hw; try done;
    [|by injection H0 as _ <-].
  destruct (spine_walk_sound _ _ _ _ _ _ _ _ Hw root_wf)
    as (ds & sa & sb & _ & _ & _ & _ & Hsa & Hsb & _).
  rewrite (take_spine_redex_eq _ _ _ _ _ _ _ Hw Hsa Hsb) in H.
  destruct (clash _ _ _ _); [by injection H as _ <-|].
  destruct (take_cached n pa pb) as [[o n1]| | |] eqn:Hc; try done. injection H as _ <-.
  by eapply take_cached_arena.
Qed.

(** If nothing is taken, nothing is demanded. *)
Lemma nothing_taken n port n' : take_spine_redex n port = Ok (None, n') ->
  forall cur q ds, demanded n port cur q ds -> (512 < length ds)%nat.
Proof.
  intros H cur q ds Hdm. destruct (decide (length ds <= 512)%nat) as [Hl|]; [|lia]. exfalso.
  destruct (demanded_walk _ _ _ _ _ Hdm Hl) as [lo Hw].
  destruct Hdm as [_ _ _ [Hc Hq] (sc & sq & Hsc & Hsq & _ & _ & Hpol)].
  rewrite (take_spine_redex_eq _ _ _ _ _ _ _ Hw Hsc Hsq) in H.
  rewrite <- clash_false in Hpol. rewrite Hpol in H.
  destruct (take_cached n cur q) as [[o n1]| | |]; try done. cbn [mbind res_bind] in H.
  unfold active_pair_new in H. rewrite (principal_port_kind cur Hc), (principal_port_kind q Hq) in H.
  by destruct o.
Qed.

Lemma drain_phase2_done {C : CRules} n n' : drain_phase2 n = Ok (n', false) ->
  n' = n /\ (HAS_REP = true -> frontier2 n = []).
Proof.
  unfold drain_phase2. destruct HAS_REP; cbn [negb]; [|by intros [= <-]].
  destruct (frontier2 n) as [|[k cand] f2]; cbn [bt_pop_first]; [by intros [= <-]|].
  repeat match goal with
  | |- (if ?b then _ else _) = _ -> _ => destruct b
  | |- (_ ← ?m; _) = _ -> _ => destruct m; cbn [mbind res_bind negb]
  end; done.
Qed.

(** ** More fuel, the same answer *)

Definition below {E A : Type} (m m' : res E A) : Prop := m = Fuel \/ m' = m.

Lemma below_refl {E A} (m : res E A) : below m m.
Proof. by right. Qed.

Lemma below_bind {E A B} (m m' : res E A) (k k' : A -> res E B) :
  below m m' -> (forall a, below (k a) (k' a)) -> below (m ≫= k) (m' ≫= k').
Proof. intros [-> | ->] Hk; [by left|]. destruct m; simpl; [apply Hk|by right..]. Qed.

Create HintDb more_fuel.
#[export] Hint Resolve below_refl : more_fuel.

Ltac more_fuel :=
  repeat first
  [ apply below_refl
  | apply below_bind; [|intros ?]
  | progress cbn beta
  | case_match ];
  eauto with more_fuel.

Section MoreFuel.
Context {C : CRules} (call : nat -> list PrimValue -> res DnxError PrimValue).

Lemma demand_more fuel : forall fuel' cfg n ps port steps st, (fuel <= fuel')%nat ->
  below (demand_loop call fuel cfg n ps port steps st) (demand_loop call fuel' cfg n ps port steps st).
Proof.
  induction fuel as [|fuel IH]; intros fuel' cfg n ps port steps st Hf; [by left|].
  destruct fuel' as [|fuel']; [lia|]. cbn [demand_loop].
  assert (forall cfg n ps port steps st,
    below (demand_loop call fuel cfg n ps port steps st) (demand_loop call fuel' cfg n ps port steps st)) as IH'
    by (intros; apply IH; lia).
  more_fuel.
Qed.

(** An answer holds where the loop stopped. *)
Lemma demand_answered fuel : forall cfg n ps port steps st vh n' ps',
  demand_loop call fuel cfg n ps port steps st = Ok (vh, n', ps') ->
  answered n' port vh ((forall cur q ds, demanded n' port cur q ds -> (512 < length ds)%nat)
                       /\ (HAS_REP = true -> frontier2 n' = [])).
Proof.
  induction fuel as [|fuel IH]; intros cfg n ps port steps st vh n' ps'; [done|]. cbn [demand_loop].
  destruct (head_at n port) as [head| | |] eqn:Hh; try done. cbn [mbind res_bind].
  destruct (classify_head n head) as [[v|]| | |] eqn:Hc; try done; cbn [mbind res_bind].
  { intros [= -> -> ->]. exists head. auto. }
  destruct (take_spine_redex n port) as [[[ap|] n1]| | |] eqn:Ht; try done; cbn [mbind res_bind].
  - destruct (check_steps _ _); try done. cbn [mbind res_bind]. destruct (check_agents _ _); try done.
    cbn [mbind res_bind]. destruct (step_with_prims _ _ _ _ _ _) as [[[n2 ps2] st2]| | |]; try done.
    apply IH.
  - pose proof (take_spine_redex_arena _ _ _ _ Ht) as Ha.
    destruct (drain_phase2 n1) as [[n2 []]| | |] eqn:Hd; try done; cbn [mbind res_bind]; [apply IH|].
    apply drain_phase2_done in Hd as [-> Hf2]. intros [= <- -> ->]. exists head.
    rewrite (head_at_arena n) by done. split; [done|]. right. rewrite (classify_arena n) by done.
    split; [done|]. split; [done|]. split; [|done].
    intros cur q ds Hdm. eapply nothing_taken; [exact Ht|]. eapply demanded_arena; [|exact Hdm]. done.
Qed.
End MoreFuel.

(** ** Steps *)

Section Steps.
Context {C : CRules} (call : nat -> list PrimValue -> res DnxError PrimValue).
Context (force : Net -> PrimState -> PortId -> res DnxError (ValueHead * Net * PrimState)).

(** A pair with a free end is dropped.  Slot 0, where the eraser port points,
    is free, so a pair with an eraser is dropped too. *)
Lemma step_free n ps ap st s0 s1 :
  slot (arena n) (slot_idx (p0 ap)) = Ok s0 -> slot (arena n) (slot_idx (p1 ap)) = Ok s1 ->
  is_free s0 || is_free s1 = true -> step_with_prims call force n ps ap st = Ok (n, ps, st).
Proof. intros H0 H1 Hf. unfold step_with_prims. rewrite H0. cbn [mbind res_bind]. rewrite H1. cbn [mbind res_bind]. by rewrite Hf. Qed.

Lemma step_app_prim n ps ap st s0 s1 p_app p_pf :
  slot (arena n) (slot_idx (p0 ap)) = Ok s0 -> slot (arena n) (slot_idx (p1 ap)) = Ok s1 ->
  is_free s0 || is_free s1 = false -> sides (has_tag TAG_PRIM_FUN) (has_tag TAG_PRIM_VAL) ap s0 s1 = None ->
  sides is_app (has_tag TAG_PRIM_FUN) ap s0 s1 = Some (p_app, p_pf) ->
  step_with_prims call force n ps ap st
  = ('(n, ps) ← fire_app_prim call force n ps p_app p_pf (pair_lo ap); Ok (n, ps, st)).
Proof.
  intros H0 H1 Hf Hs Ha. unfold step_with_prims. rewrite H0. cbn [mbind res_bind]. rewrite H1. cbn [mbind res_bind].
  by rewrite Hf, Hs, Ha.
Qed.

(** A primitive waits for its argument. *)
Lemma fire_waits n ps p_app p_pf lo sv : net_slot n p_app = Ok sv -> arg_ready n (aux1 sv) = Ok false ->
  force n ps (port_new (slot_idx p_app) Aux1 (gen_low p_app)) = Fuel ->
  fire_app_prim call force n ps p_app p_pf lo = Fuel.
Proof.
  intros Hs Hr Hf. unfold fire_app_prim. rewrite Hs. cbn [mbind res_bind]. rewrite Hr. cbn [mbind res_bind].
  by rewrite Hf.
Qed.

(** Agents that are neither free nor primitive. *)
Definition structural (s : Slot) : Prop :=
  is_free s = false /\ has_tag TAG_PRIM_VAL s = false /\ has_tag TAG_PRIM_FUN s = false.

Lemma step_structural n ps ap st s0 s1 :
  slot (arena n) (slot_idx (p0 ap)) = Ok s0 -> slot (arena n) (slot_idx (p1 ap)) = Ok s1 ->
  structural s0 -> structural s1 ->
  step_with_prims call force n ps ap st = ('(n, st) ← dispatch_phase1 n ap st; Ok (n, ps, st)).
Proof.
  intros H0 H1 (F0 & V0 & P0) (F1 & V1 & P1). unfold step_with_prims.
  rewrite H0. cbn [mbind res_bind]. rewrite H1. cbn [mbind res_bind].
  unfold sides, app_bool. rewrite F0, F1, V0, V1, P0, P1. cbn [orb]. by rewrite !andb_false_r.
Qed.
End Steps.

(** ** A knot of demand *)

Definition waits_entry : PrimFunEntry := mk_fun (chars "negate") 1 [] (Pure 0).

(** The net of [x = f x]: the application of a primitive function whose
    result is shared by a variable (the first port) and by its own argument
    (the second). *)
Definition build_knot : res DnxError (PortId * PortId * Net * PrimState) :=
  '(a, n) ← alloc_app (net_new DeltaK 16);
  '(f, n, ps) ← alloc_prim_fun n prims_new waits_entry;
  '(s, n) ← alloc_rep_in n 0 0 0;
  '(r, n) ← alloc_free n 0;
  n ← connect n (ag_aux0 a) (ag_principal s) root;
  n ← connect n (ag_aux0 s) r root;
  n ← connect n (ag_aux1 s) (ag_aux1 a) root;
  n ← connect n (ag_principal a) f root;
  Ok (r, ag_aux1 a, n, ps).

Definition knot : PortId * PortId * Net * PrimState := or_else build_knot (0, 0, net_new DeltaK 0, prims_new).
Definition knot_root : PortId := knot.1.1.1.
Definition knot_arg : PortId := knot.1.1.2.
Definition knot_net : Net := knot.1.2.
Definition knot_prims : PrimState := knot.2.

(** The net once the pair has been taken from the frontier. *)
Definition knot_taken : Net := set_frontier1 [] knot_net.

Lemma knot_takes port : port = knot_root \/ port = knot_arg -> forall n, n = knot_net \/ n = knot_taken ->
  head_at n port = Ok (P 3 (if decide (port = knot_root) then Aux0 else Aux1))
  /\ classify_head n (P 3 (if decide (port = knot_root) then Aux0 else Aux1)) = Ok None
  /\ exists lo, take_spine_redex n port = Ok (Some (mk_pair (P 1 Principal) (P 2 Principal) lo), knot_taken).
Proof.
  intros [-> | ->] n [-> | ->]; (split; [vm_compute; reflexivity|]);
    (split; [vm_compute; reflexivity|]); eexists; vm_compute; reflexivity.
Qed.

(** Each force of the argument forces the argument again. *)
Lemma knot_again `{C : CRules} call m fuel : 1 <= m -> forall n port st,
  n = knot_net \/ n = knot_taken -> port = knot_root \/ port = knot_arg ->
  demand_loop call fuel (mk_config (Some m) None) n knot_prims port 0 st = Fuel.
Proof.
  intros Hm. induction fuel as [|fuel IH]; intros n port st Hn Hp; [done|]. cbn [demand_loop].
  destruct (knot_takes port Hp n Hn) as (-> & Hc & lo & Ht). cbn [mbind res_bind]. rewrite Hc.
  cbn [mbind res_bind]. rewrite Ht. cbn [mbind res_bind].
  unfold check_steps, check_agents. cbn [max_steps max_agents]. replace (m <? 0 + 1) with false by lia.
  cbn [mbind res_bind]. erewrite step_app_prim;
    [|vm_compute; reflexivity|vm_compute; reflexivity|vm_compute; reflexivity|vm_compute; reflexivity|reflexivity].
  erewrite fire_waits; [reflexivity|vm_compute; reflexivity|vm_compute; reflexivity|].
  apply IH; [by right|]. right. vm_compute. reflexivity.
Qed.

(** ** Forcing without replicators *)

Definition limit_error (cfg : NormalizeConfig) (n : Net) (e : DnxError) : Prop :=
  reduce_error e \/ (e = ArenaCapacityExceeded /\ is_Some (max_agents cfg))
  \/ exists max k, e = StepLimitExceeded k /\ max_steps cfg = Some max /\ max < k <= Z.of_nat (measure n).

Lemma limit_error_mono cfg n n' e : (measure n <= measure n')%nat -> limit_error cfg n e -> limit_error cfg n' e.
Proof. intros Hm [H|[H|(max & k & -> & Hc & Hk)]]; [by left|by right; left|]. right. right. exists max, k. split; [done|]. split; [done|lia]. Qed.

Section ForceLinear.
Context (N : nat).

Lemma plain_head n port : plain_net N n -> in_range N port ->
  exists head, head_at n port = Ok head /\ in_range N head.
Proof.
  intros Hn Hp. unfold head_at. destruct (is_eraser port || is_null port) eqn:Hv; [by exists port|].
  assert (real port = true) as Hr by (unfold real; by rewrite Hv).
  destruct (plain_slot N n _ Hn (Hp Hr)) as (s & _ & -> & _ & Hk). eauto.
Qed.

Lemma plain_classify n head : plain_net N n -> in_range N head -> exists o, classify_head n head = Ok o.
Proof.
  intros Hn Hp. unfold classify_head. destruct (is_eraser head || is_null head) eqn:Hv; [eauto|].
  assert (real head = true) as Hr by (unfold real; by rewrite Hv).
  destruct (plain_slot N n _ Hn (Hp Hr)) as (s & _ & -> & _). cbn [mbind res_bind]. eauto.
Qed.

Lemma pop_live_total f : forall n, plain_net N n -> exists o n', pop_live f n = Ok (o, n')
  /\ arena n' = arena n /\ plain_net N n'
  /\ match o with
     | Some ap => (length (frontier1 n') < length f)%nat
                  /\ port_live (p0 ap) n' = Ok true /\ port_live (p1 ap) n' = Ok true
     | None => frontier1 n' = []
     end.
Proof.
  induction f as [|[k ap] f IH]; intros n Hn; cbn [pop_live].
  { exists None, (set_frontier1 [] n). repeat (split; [done || by apply plain_frontiers|]). done. }
  assert (plain_net N (set_frontier1 f n)) as Hn1 by (by apply plain_frontiers).
  unfold is_stale_pair. destruct (stale_total N _ (p0 ap) (p1 ap) Hn1) as (stale & -> & Hst).
  cbn [mbind res_bind]. destruct stale.
  - destruct (IH _ Hn1) as (o & n' & -> & Ha & Hn' & Ho). exists o, n'. split; [done|]. split; [done|].
    split; [done|]. destruct o; [|done]. cbn [length]. destruct Ho as (? & ? & ?). split; [lia|done].
  - exists (Some ap), (set_frontier1 f n). do 3 (split; [done|]). split; [cbn; lia|]. by apply Hst.
Qed.

Lemma force_loop_linear fuel cfg port : in_range N port -> forall n steps st n0,
  plain_net N n -> (measure n < fuel)%nat -> 0 <= steps -> steps + Z.of_nat (measure n) <= Z.of_nat (measure n0) ->
  returns (limit_error cfg n0) (force_loop (C := crules_L) fuel cfg n port steps st)
    (fun '(vh, n') => answered n' port vh (frontier1 n' = [])).
Proof.
  intros Hp. induction fuel as [|fuel IH]; intros n steps st n0 Hn Hf Hs Hm; [lia|]. cbn [force_loop].
  destruct (plain_head n port Hn Hp) as (head & Hh & Hr). rewrite Hh. cbn [mbind res_bind].
  destruct (plain_classify n head Hn Hr) as [o Ho]. rewrite Ho. cbn [mbind res_bind].
  destruct o as [vh|]; [exists head; auto|].
  destruct (pop_live_total (frontier1 n) n Hn) as (popped & n1 & -> & Ha & Hn1 & Hpop). cbn [mbind res_bind].
  destruct popped as [ap|].
  - destruct Hpop as (Hlt & H0 & H1).
    assert (measure n1 < measure n)%nat as Hm1 by (unfold measure, agent_count; rewrite Ha; lia).
    eapply returns_bind with (R := fun _ => True).
    { unfold check_steps. destruct (max_steps cfg) as [max|] eqn:Hc; [|done].
      destruct (max <? steps + 1) eqn:Hl; [|done]. right. right. exists max, (steps + 1).
      split; [done|]. split; [done|]. lia. }
    intros _ _. eapply returns_bind with (R := fun _ => True).
    { unfold check_agents. destruct (max_agents cfg) as [max|] eqn:Hc; [|done].
      destruct (_ <? _); [|done]. right. left. by rewrite Hc. }
    intros _ _. eapply returns_bind.
    { eapply returns_mono; [|intros a Ha'; exact Ha'|
        apply (dispatch_steps N crules_L); [by left|exact Hn1|exact H0|exact H1]].
      intros e He. by left. }
    intros [n2 st2] [_ H2].
    assert (plain_net N n2 /\ (measure n2 <= measure n1)%nat) as [Hn2 Hm2].
    { destruct H2 as [(Hn2 & Hac & Hfc)|(-> & _)]; [|done]. split; [done|]. unfold measure. lia. }
    apply IH; [done|lia|lia|lia].
  - exists head. rewrite (head_at_arena n) by done. split; [done|]. right.
    rewrite (classify_arena n) by done. done.
Qed.
End ForceLinear.

(** * Theorems *)

(** The demanded redex.  On a well-wired net the walk along the demand of
    a current port ends within its guard and touches nothing but the frontier.
    It returns the pair of principal ports at the end of the demand, of
    agents that are not free and not of one polarity: with the path stored in
    the frontier if the pair is there, else with the path of the turns taken.
    It returns nothing only if there is no such pair within 512 turns. *)
Theorem spine_redex (n : Net) (port : PortId) :
  net_inv n -> current n port -> frontier_ok (frontier1 n) ->
  exists r n', take_spine_redex n port = Ok (r, n')
  /\ arena n' = arena n /\ frontier2 n' = frontier2 n /\ frontier1 n' `sublist_of` frontier1 n
  /\ match r with
     | Some ap => exists cur q ds, demanded n port cur q ds /\ same_pair cur q ap = true
         /\ ((exists k, (k, ap) ∈ frontier1 n) \/ bits (pair_lo ap) = ds)
     | None => forall cur q ds, demanded n port cur q ds -> (512 < length ds)%nat
     end.
Proof.
  intros Hn Hc Hok.
  destruct (spine_walk_total SPINE_FUEL 0 n port root Hn Hc root_wf) as [[[[pa pb] lo]|] Hw]; [by vm_compute| |].
  - destruct (spine_walk_sound _ _ _ _ _ _ _ _ Hw root_wf)
      as (ds & sa & sb & Hd & Hp & Hr & Hk & Hsa & Hsb & Hfa & Hfb & _ & Hbits).
    pose proof (descends_current _ _ _ _ Hd Hn Hc) as Ha. pose proof (peer_is_current _ _ _ Hn Ha Hp Hr) as Hb.
    assert (forall cur q ds', demanded n port cur q ds' -> (length ds' <= 512)%nat -> cur = pa /\ q = pb) as Huniq.
    { intros cur q ds' Hdm Hl. destruct (demanded_walk _ _ _ _ _ Hdm Hl) as [lo' E].
      rewrite Hw in E. by injection E. }
    rewrite (take_spine_redex_eq _ _ _ _ _ _ _ Hw Hsa Hsb).
    destruct (clash sa sb _ _) eqn:Hcl.
    { exists None, n. do 4 (split; [done|]). intros cur q ds' Hdm.
      destruct (decide (length ds' <= 512)%nat) as [Hl|]; [|lia].
      destruct (Huniq _ _ _ Hdm Hl) as [-> ->]. destruct Hdm as [_ _ _ _ (sc & sq & E1 & E2 & _ & _ & Hpol)].
      rewrite Hsa in E1. rewrite Hsb in E2. injection E1 as <-. injection E2 as <-.
      rewrite <- clash_false in Hpol. congruence. }
    rewrite clash_false in Hcl.
    destruct (take_cached_spec n pa pb Hn Ha Hb (proj1 Hok)) as (o & n' & -> & Har & Hf2 & Hsub & Ho).
    cbn [mbind res_bind]. exists (option_or o (active_pair_new pa pb lo)), n'. do 4 (split; [done|]).
    assert (port_kind pa = Principal -> demanded n port pa pb ds) as Hdm
      by (intros Hpa; split; [done..|]; by exists sa, sb).
    destruct o as [ap|]; cbn [option_or].
    + destruct (Ho ap eq_refl) as (Hs & k & Hin). pose proof (same_pair_principal _ _ _ _ _ Hok Hin Hs) as Hpa.
      exists pa, pb, ds. eauto 6.
    + unfold active_pair_new. destruct (decide (port_kind pa = Principal)) as [Hpa|Hpa].
      * rewrite (principal_port_kind pa Hpa), (principal_port_kind pb Hk). cbn [mbind option_bind].
        exists pa, pb, ds. split; [auto|]. split; [|by right].
        unfold same_pair. cbn [p0 p1]. by rewrite !Z.eqb_refl.
      * assert (principal_port pa = None) as -> by (unfold principal_port; by destruct (port_kind pa)).
        intros cur q ds' Hd'. destruct (decide (length ds' <= 512)%nat) as [Hl|]; [|lia].
        destruct (Huniq _ _ _ Hd' Hl) as [-> ->]. by destruct Hd' as [_ _ _ [? _] _].
  - exists None, n. split; [unfold take_spine_redex; by rewrite Hw|]. do 3 (split; [done|]).
    intros cur q ds Hdm. destruct (decide (length ds <= 512)%nat) as [Hl|]; [|lia].
    destruct (demanded_walk _ _ _ _ _ Hdm Hl) as [lo E]. congruence.
Qed.




(** The step limit does not bound nested forces.  Demanding [x = f x] for
    a strict primitive [f] forces the argument of [f], which demands the same
    pair again, with a new count of steps each time: no fuel is enough and the
    limit is never reported, however small it is. *)
Theorem knot_unbounded {C : CRules} call (fuel : nat) (m : Z) : 1 <= m ->
  force_whnf_with_prims call fuel knot_net knot_prims knot_root (mk_config (Some m) None) = Fuel.
Proof.
  intros Hm.
  exact (knot_again call m fuel Hm knot_net knot_root stats_default (or_introl eq_refl) (or_introl eq_refl)).
Qed.

Lemma knot_unbounded_witness : net_inv knot_net /\
  force_whnf_with_prims (C := crules_K) (fun _ _ => Panic) 100 knot_net knot_prims knot_root
    (mk_config (Some 1) None) = Fuel.
Proof.
  split; [apply net_check_sound; vm_compute; reflexivity|].
  apply (knot_unbounded (C := crules_K) (fun _ _ => Panic) 100 1). lia.
Defined.

Lemma spine_redex_witness :
  net_inv knot_net /\ current knot_net knot_root /\ frontier_ok (frontier1 knot_net)
  /\ exists r n', take_spine_redex knot_net knot_root = Ok (r, n') /\ arena n' = arena knot_net.
Proof.
  assert (net_inv knot_net) as Hn by (apply net_check_sound; vm_compute; reflexivity).
  assert (current knot_net knot_root) as Hc by (apply current_check_sound; vm_compute; reflexivity).
  assert (frontier_ok (frontier1 knot_net)) as Hf.
  { assert (frontier1 knot_net = [(root, mk_pair (P 1 Principal) (P 2 Principal) root)]) as ->
      by (vm_compute; reflexivity).
    split; [apply StronglySorted_cons; repeat constructor|].
    apply Forall_singleton. split; vm_compute; reflexivity. }
  split; [exact Hn|]. split; [exact Hc|]. split; [exact Hf|].
  destruct (spine_redex knot_net knot_root Hn Hc Hf) as (r & n' & H & Ha & _).
  exists r, n'. split; [exact H|exact Ha].
Defined.

(** An erased application: [normalize] erases it and its arguments, the drain
    that knows primitives drops the eraser's pair and keeps all three agents. *)
Theorem eraser_pairs_dropped :
  (exists c st, normalize (C := crules_K) 10 (erased_net (TAG_FAN_APP, 0, 0, 0)) = Ok (c, st)
     /\ live_list (arena (proper c)) = [])
  /\ (exists c st, normalize_with_prims (C := crules_K) (fun _ _ => Panic) 10
        (erased_net (TAG_FAN_APP, 0, 0, 0)) prims_new = Ok (c, prims_new, st)
     /\ live_list (arena (proper c)) = [1; 2; 3]).
Proof.
  split.
  - destruct (normalize (C := crules_K) 10 (erased_net (TAG_FAN_APP, 0, 0, 0))) as [[c st]|e| |] eqn:E;
      vm_compute in E; try discriminate. injection E as <- <-. eexists _, _. split; reflexivity.
  - destruct (normalize_with_prims (C := crules_K) (fun _ _ => Panic) 10
        (erased_net (TAG_FAN_APP, 0, 0, 0)) prims_new) as [[[c ps] st]|e| |] eqn:E;
      vm_compute in E; try discriminate. injection E as <- <- <-. eexists _, _. split; reflexivity.
Qed.

(** Forcing in the linear class ends.  On a replicator-free net, with fuel
    above twice the agents plus the pairs, [force_whnf] neither panics nor
    runs on: it answers, with a classified head or, once the frontier is
    empty, with a stuck one; or it reports an ill-sorted pair, a path too
    deep, or one of its limits, the step limit only if the limit is below
    that number. *)
Theorem force_whnf_linear (N fuel : nat) (n : Net) (port : PortId) (cfg : NormalizeConfig) :
  plain_net N n -> in_range N port -> (measure n < fuel)%nat ->
  returns (limit_error cfg n) (force_whnf (C := crules_L) fuel n port cfg)
    (fun '(vh, n') => answered n' port vh (frontier1 n' = [])).
Proof. intros Hn Hp Hf. apply (force_loop_linear N); [done..|lia]. Qed.

Lemma force_whnf_linear_witness : exists n',
  force_whnf (C := crules_L) 10 id_net (P 4 Principal) (mk_config (Some 9) None) = Ok (VAbs, n')
  /\ answered n' (P 4 Principal) VAbs (frontier1 n' = []).
Proof.
  pose proof (force_whnf_linear 5 10 id_net (P 4 Principal) (mk_config (Some 9) None)
    (plain_check_sound 5 id_net ltac:(vm_compute; reflexivity))
    ltac:(intros _; split; vm_compute; [discriminate|reflexivity])
    ltac:(apply Nat.ltb_lt; vm_compute; reflexivity)) as H.
  destruct (force_whnf (C := crules_L) 10 id_net (P 4 Principal) (mk_config (Some 9) None))
    as [[vh n']|e| |] eqn:E; [|discriminate_on E..].
  assert (vh = VAbs) as -> by (pose proof E as E'; vm_compute in E'; by injection E').
  exists n'. split; [reflexivity|exact H].
Defined.
