(* ===== verification/Lower.v ===== *)
(** * The translation of fixpoints ([crates/dnx-tm-elab])

    Surface terms with structural fixpoints and matches become kernel terms
    with recursors.  The kernel checks the result, so the translation is not
    trusted for soundness; what is at stake is that the recursor computes what
    the fixpoint says.  The recursive calls of [lower] and [lower_rhs] are on
    parts of the surface term, [fuel] bounds their depth. *)
From S2P Require Import Prelude Bytes Term Kernel.

(** ** Surface terms ([surface.rs]) *)

Inductive SrcTm : Type :=
| SVar (i : Z)
| SApp (f x : SrcTm)
| SLam (dom : Tm) (body : SrcTm)
| SCore (t : Tm)
| SFix (fx : Fix_)
| SMatch (m : Match_)
with Fix_ : Type :=
| mk_fix (rec_arg : nat) (ty : Tm) (body : SrcTm)
with Match_ : Type :=
| mk_match (scrut : SrcTm) (ind : IndId) (motive : Tm) (arms : list SrcArm)
with SrcArm : Type :=
| mk_arm (arm_ix : Z) (binders : list Tm) (rhs : SrcTm).

Definition arm_ix (a : SrcArm) : Z := let '(mk_arm k _ _) := a in k.
Definition arm_binders (a : SrcArm) : list Tm := let '(mk_arm _ bs _) := a in bs.
Definition arm_rhs (a : SrcArm) : SrcTm := let '(mk_arm _ _ rhs) := a in rhs.

(** ** Errors *)

Inductive LowerError : Type :=
| UnknownInd
| ParamsOrIndices
| ArmCount
| ArmArity
| NonStructural
| VaryingArg
| BareSelf
| BadRecArg
| NotDirectMatch.

#[export] Instance LowerError_eq_dec : EqDecision LowerError.
Proof. solve_decision. Defined.

(** ** Arms of a fixpoint *)

Record FixHead : Type := mk_head { fh_rec_arg : nat; fh_n : nat }.

Definition check_simple (ind : Inductive_) : res LowerError unit :=
  if negb (bool_decide (ind_params ind = [])) || negb (bool_decide (ind_indices_tele ind = []))
  then Err ParamsOrIndices else Ok tt.

Record FixScope : Type := mk_scope {
  self_src : Z;
  sc_rec_arg : nat;
  outer_src : list Z;
  field_to_ih : gmap Z Z;
  sc_r : Z
}.

(** The positions of the recursive fields. *)
Definition rec_positions (fields : list Tm) (id : IndId) : list nat :=
  (filter (fun pt => head_is_ind pt.2 id = true) (imap pair fields)).*1.

Definition arm_fix_scope (fh : FixHead) (recs : list nat) (m : nat) (r : Z) : FixScope :=
  let n := fh_n fh in
  mk_scope (Z.of_nat (m + n)) (fh_rec_arg fh)
    ((fun t => Z.of_nat (m + (n - 1 - t))) <$> seq 0 n)
    (foldl (fun acc jp => <[Z.of_nat (m - 1 - jp.2) := r - 1 - Z.of_nat jp.1]> acc) ∅ (imap pair recs))
    r.

Definition relocate_var (s : FixScope) (v depth : Z) : res LowerError Z :=
  if v <? depth then Ok v
  else
    let src := v - depth in
    if src =? self_src s then Err BareSelf
    else
      let reloc := if src <? self_src s then sc_r s else sc_r s - 1 in
      Ok (as_u32 (v + reloc)).

Fixpoint scan (t : Tm) (f : Z) : bool :=
  match t with
  | Var i => i =? f
  | Sort _ | Const _ | Ind _ | Ctor _ _ | Elim _ => false
  | Pi a b | Lam a b => scan a f || scan b (f + 1)
  | App g x => scan g f || scan x f
  end.

Definition reject_bare_self (t : Tm) (s : FixScope) (depth : Z) : res LowerError unit :=
  if scan t (depth + self_src s) then Err BareSelf else Ok tt.

(** A core fragment of an arm, without the fixpoint's own binder and with
    room for the hypotheses. *)
Definition relocate_core (t : Tm) (s : FixScope) (depth : Z) : Tm :=
  shift (shift t (-1) (depth + self_src s + 1)) (sc_r s) depth.

Fixpoint src_spine_from (t : SrcTm) (args : list SrcTm) : SrcTm * list SrcTm :=
  match t with
  | SApp f x => src_spine_from f (x :: args)
  | _ => (t, args)
  end.

Definition src_spine (t : SrcTm) : SrcTm * list SrcTm := src_spine_from t [].

(** The loop over the arguments of a recursive call that do not decrease. *)
Fixpoint uniform_args (s : FixScope) (depth : Z) (pos : nat) (args : list SrcTm) : res LowerError unit :=
  match args with
  | [] => Ok tt
  | a :: args =>
      _ ← (if (pos =? sc_rec_arg s)%nat then Ok tt
           else
             match a with
             | SVar v =>
                 outer ← index (outer_src s) pos;
                 if (depth <=? v) && (v - depth =? outer) then Ok tt else Err VaryingArg
             | _ => Err VaryingArg
             end);
      uniform_args s depth (S pos) args
  end.

Definition self_call_to_ih (s : FixScope) (args : list SrcTm) (depth : Z) : res LowerError Tm :=
  if negb (length args =? length (outer_src s))%nat then Err NonStructural
  else
    dec ← ok_or (args !! sc_rec_arg s) BadRecArg;
    field_src ← (match dec with
                 | SVar v => if depth <=? v then Ok (v - depth) else Err NonStructural
                 | _ => Err NonStructural
                 end);
    ih_src ← ok_or (field_to_ih s !! field_src) NonStructural;
    _ ← uniform_args s depth 0 args;
    Ok (Var (ih_src + depth)).

Definition self_call (s : FixScope) (head : SrcTm) (depth : Z) : bool :=
  match head with SVar v => (depth <=? v) && (v - depth =? self_src s) | _ => false end.

Fixpoint lower_rhs (fuel : nat) (src : SrcTm) (s : FixScope) (depth : Z) : res LowerError Tm :=
  match fuel with
  | O => Fuel
  | S fuel =>
      match src with
      | SVar v => v' ← relocate_var s v depth; Ok (Var v')
      | SCore t => _ ← reject_bare_self t s depth; Ok (relocate_core t s depth)
      | SLam dom body =>
          _ ← reject_bare_self dom s depth;
          b ← lower_rhs fuel body s (depth + 1);
          Ok (Lam (relocate_core dom s depth) b)
      | SApp _ _ =>
          let '(head, args) := src_spine src in
          if self_call s head depth then self_call_to_ih s args depth
          else
            t ← lower_rhs fuel head s depth;
            foldM (fun t a => x ← lower_rhs fuel a s depth; Ok (App t x)) args t
      | SMatch _ | SFix _ => Err NotDirectMatch
      end
  end.

(** ** Matches and fixpoints *)

Definition lams (doms : list Tm) (body : Tm) : Tm := foldr Lam body doms.

Section Lower.
Context (env : GlobalEnv) (fuel : nat).
(** [lower] on a part of the term. *)
Context (lower_part : SrcTm -> res LowerError Tm).

Definition lower_scrut (scrut : SrcTm) (fix_ : option FixHead) : res LowerError Tm :=
  match fix_ with
  | None => lower_part scrut
  | Some _ => match scrut with SVar i => Ok (Var i) | _ => Err NotDirectMatch end
  end.

Definition lower_minor (ind : Inductive_) (arm : SrcArm) (fix_ : option FixHead) : res LowerError Tm :=
  cd ← index (ind_ctors ind) (Z.to_nat (arm_ix arm));
  let fields := ctor_args cd in
  let m := length fields in
  if negb (length (arm_binders arm) =? m)%nat then Err ArmArity
  else
    let recs := rec_positions fields (ind_id ind) in
    let r := Z.of_nat (length recs) in
    body ← match fix_ with
           | None => t ← lower_part (arm_rhs arm); Ok (shift t r 0)
           | Some fh => lower_rhs fuel (arm_rhs arm) (arm_fix_scope fh recs m r) 0
           end;
    ih_doms ← mapMr (fun p => index fields p) recs;
    Ok (lams fields (lams ih_doms body)).

(** The loop over the constructors: the minors, in order. *)
Fixpoint lower_arms (ind : Inductive_) (arms : list SrcArm) (fix_ : option FixHead)
    (ks : list nat) (elim : Tm) : res LowerError Tm :=
  match ks with
  | [] => Ok elim
  | k :: ks =>
      arm ← ok_or (List.find (fun a => arm_ix a =? Z.of_nat k) arms) ArmCount;
      minor ← lower_minor ind arm fix_;
      lower_arms ind arms fix_ ks (App elim minor)
  end.

Definition lower_match (m : Match_) (fix_ : option FixHead) : res LowerError Tm :=
  let '(mk_match scrut i motive arms) := m in
  ind ← ok_or (inds env !! i) UnknownInd;
  _ ← check_simple ind;
  let c := length (ind_ctors ind) in
  if negb (length arms =? c)%nat then Err ArmCount
  else
    elim ← lower_arms ind arms fix_ (seq 0 c) (App (Elim i) motive);
    scrut ← lower_scrut scrut fix_;
    Ok (App elim scrut).

(** The domains of the abstractions at the head of the body, and the rest. *)
Fixpoint peel_lams (t : SrcTm) : list Tm * SrcTm :=
  match t with
  | SLam dom body => let '(doms, cur) := peel_lams body in (dom :: doms, cur)
  | _ => ([], t)
  end.

Definition lower_fix (fx : Fix_) : res LowerError Tm :=
  let '(mk_fix rec_arg _ body) := fx in
  let '(doms, cur) := peel_lams body in
  let n := length doms in
  if (n <=? rec_arg)%nat then Err BadRecArg
  else
    match cur with
    | SMatch m =>
        let '(mk_match scrut i _ _) := m in
        let dec_var := Z.of_nat (n - 1 - rec_arg) in
        _ ← match scrut with
            | SVar v => if v =? dec_var then Ok tt else Err NotDirectMatch
            | _ => Err NotDirectMatch
            end;
        ind ← ok_or (inds env !! i) UnknownInd;
        _ ← check_simple ind;
        elim ← lower_match m (Some (mk_head rec_arg n));
        Ok (lams doms elim)
    | _ => Err NotDirectMatch
    end.
End Lower.

Fixpoint lower (fuel : nat) (env : GlobalEnv) (src : SrcTm) : res LowerError Tm :=
  match fuel with
  | O => Fuel
  | S fuel =>
      match src with
      | SVar i => Ok (Var i)
      | SCore t => Ok t
      | SApp f x => f' ← lower fuel env f; x' ← lower fuel env x; Ok (App f' x')
      | SLam dom body => b ← lower fuel env body; Ok (Lam dom b)
      | SMatch m => lower_match env fuel (lower fuel env) m None
      | SFix fx => lower_fix env fuel (lower fuel env) fx
      end
  end.
