(* ===== verification/LowerSpec.v ===== *)
(** * Translated fixpoints compute what they say

    [lower] turns a structural fixpoint into a recursor.  If the decreasing
    argument occurs in the arms only through the fields of its constructor,
    an application of the result to a constructor unfolds, by the kernel's own
    reduction rules, to the arm with the fixpoint for its name; otherwise it
    may compute something else ([sum_wrong]). *)
From S2P Require Import Prelude Bytes Term Kernel Typing Scoping Lower.

(** ** Specification *)

(** Simultaneous instantiation of the variables above [d] by [args], the last
    of them for variable [d], by the kernel's substitution. *)
Fixpoint inst_at (d : Z) (args : list Tm) (t : Tm) : Tm :=
  match args with
  | [] => t
  | a :: args => inst_at d args (subst t (d + Z.of_nat (length args)) a)
  end.

Notation inst := (inst_at 0).

(** The arm of a fixpoint as a kernel term, the fixpoint a variable of it. *)
Fixpoint to_core (src : SrcTm) : option Tm :=
  match src with
  | SVar i => Some (Var i)
  | SCore t => Some t
  | SApp f x => f' ← to_core f; x' ← to_core x; Some (App f' x')
  | SLam dom body => b ← to_core body; Some (Lam dom b)
  | SFix _ | SMatch _ => None
  end.

(** The nodes of a surface term, a measure for [lower]. *)
Fixpoint src_size (t : SrcTm) : nat :=
  match t with
  | SVar _ | SCore _ => 1
  | SApp f x => S (src_size f + src_size x)
  | SLam _ body => S (src_size body)
  | SFix (mk_fix _ _ body) => S (src_size body)
  | SMatch (mk_match scrut _ _ arms) =>
      S (src_size scrut + sum_list_with (fun a => let '(mk_arm _ _ rhs) := a in src_size rhs) arms)
  end.

(** Terms whose variables and binders are far from the range of an index. *)
Definition room (t : Tm) : Prop := scoped (2 ^ 28) t /\ binders t < 2 ^ 27.

(** The recursive calls of an arm: the fixpoint applied to the same arguments,
    with a recursive field in the place of the decreasing one. *)
Definition calls (F : Tm) (A vs : list Tm) (q : nat) (recs : list nat) : list Tm :=
  (fun p => apply F (<[q := nth p vs (Sort 0)]> A)) <$> recs.

(** * Lemmas *)

(** ** Instantiation *)

Lemma inst_at_app xs : forall d ys t, inst_at d (xs ++ ys) t = inst_at d ys (inst_at (d + Z.of_nat (length ys)) xs t).
Proof.
  induction xs as [|a xs IH]; intros d ys t; [done|]. cbn [app inst_at]. rewrite IH, length_app. do 3 f_equal. lia.
Qed.

Lemma inst_at_App args : forall d f x, inst_at d args (App f x) = App (inst_at d args f) (inst_at d args x).
Proof. induction args as [|a args IH]; intros d f x; [done|]. cbn [inst_at subst]. apply IH. Qed.

Lemma inst_at_Lam args : forall d a b, inst_at d args (Lam a b) = Lam (inst_at d args a) (inst_at (d + 1) args b).
Proof.
  induction args as [|x args IH]; intros d a b; [done|]. cbn [inst_at subst]. rewrite IH. do 3 f_equal. lia.
Qed.

Lemma inst_at_Pi args : forall d a b, inst_at d args (Pi a b) = Pi (inst_at d args a) (inst_at (d + 1) args b).
Proof.
  induction args as [|x args IH]; intros d a b; [done|]. cbn [inst_at subst]. rewrite IH. do 3 f_equal. lia.
Qed.

Lemma inst_at_const args t : (forall j a, subst t j a = t) -> forall d, inst_at d args t = t.
Proof. intros H. induction args as [|x args IH]; intros d; [done|]. cbn [inst_at]. by rewrite H. Qed.

Lemma inst_at_apply args d h l : inst_at d args (apply h l) = apply (inst_at d args h) (inst_at d args <$> l).
Proof. revert h. induction l as [|x l IH]; intros h; [done|]. cbn. rewrite <- inst_at_App. apply IH. Qed.

Lemma inst_at_lams args doms : forall d b, exists doms', length doms' = length doms
  /\ inst_at d args (lams doms b) = lams doms' (inst_at (d + Z.of_nat (length doms)) args b).
Proof.
  induction doms as [|a doms IH]; intros d b; cbn [lams foldr].
  - exists []. split; [done|]. cbn. by rewrite Z.add_0_r.
  - rewrite inst_at_Lam. destruct (IH (d + 1) b) as (doms' & Hl & E). unfold lams in E. rewrite E.
    exists (inst_at d args a :: doms'). split; [cbn; congruence|]. cbn. do 3 f_equal. lia.
Qed.

Lemma subst_shift t : forall n j e c b, scoped n t -> 0 <= e <= j -> n + binders t + j + 1 <= 2 ^ 32 ->
  subst (shift t (j + 1) c) (c + e) b = shift t j c.
Proof.
  induction t; intros n j e c0 b Hs Hk Hb; cbn [shift subst scoped binders] in *; try done.
  - destruct (c0 <=? i) eqn:Hc.
    + rewrite !as_u32_small by (unfold u32_range; lia).
      destruct (i + (j + 1) =? c0 + e) eqn:E1; [lia|]. destruct (c0 + e <? i + (j + 1)) eqn:E2; [|lia]. f_equal. lia.
    + destruct (i =? c0 + e) eqn:E1; [lia|]. destruct (c0 + e <? i) eqn:E2; [lia|done].
  - pose proof (binders_nonneg t1). pose proof (binders_nonneg t2). destruct Hs as [H1 H2].
    f_equal; [eapply IHt1; [exact H1|lia|lia]|]. replace (c0 + e + 1) with (c0 + 1 + e) by lia.
    eapply IHt2; [exact H2|lia|lia].
  - pose proof (binders_nonneg t1). pose proof (binders_nonneg t2). destruct Hs as [H1 H2].
    f_equal; [eapply IHt1; [exact H1|lia|lia]|]. replace (c0 + e + 1) with (c0 + 1 + e) by lia.
    eapply IHt2; [exact H2|lia|lia].
  - pose proof (binders_nonneg t1). pose proof (binders_nonneg t2). destruct Hs as [H1 H2].
    f_equal; [eapply IHt1; [exact H1|lia|lia]|eapply IHt2; [exact H2|lia|lia]].
Qed.

Lemma inst_at_low args : forall d v, v < d -> inst_at d args (Var v) = Var v.
Proof.
  induction args as [|a args IH]; intros d v Hv; [done|]. cbn [inst_at subst].
  case (Z.eqb_spec v (d + Z.of_nat (length args))); intros; [lia|].
  case (Z.ltb_spec (d + Z.of_nat (length args)) v); intros; [lia|]. by apply IH.
Qed.

Lemma inst_at_high args : forall d v, d + Z.of_nat (length args) <= v ->
  inst_at d args (Var v) = Var (v - Z.of_nat (length args)).
Proof.
  induction args as [|a args IH]; intros d v Hv; cbn [inst_at subst length] in *; [f_equal; lia|].
  case (Z.eqb_spec v (d + Z.of_nat (length args))); intros; [lia|].
  case (Z.ltb_spec (d + Z.of_nat (length args)) v); intros; [|lia]. rewrite IH by lia. f_equal. lia.
Qed.

(** Shifting over binders that are then instantiated. *)
Lemma inst_at_shift args : forall d a, 0 <= d -> room a -> d + Z.of_nat (length args) <= 2 ^ 28 ->
  inst_at d args (shift a (d + Z.of_nat (length args)) 0) = shift a d 0.
Proof.
  induction args as [|x args IH]; intros d a Hd Ha Hb; cbn [inst_at length] in *; [by rewrite Z.add_0_r|].
  replace (d + Z.of_nat (S (length args))) with (d + Z.of_nat (length args) + 1) by lia.
  destruct Ha as [Hs Hbi]. change (d + Z.of_nat (length args)) with (0 + (d + Z.of_nat (length args))) at 2.
  erewrite subst_shift; [apply IH; [done|by split|lia]|exact Hs|lia|lia].
Qed.

Lemma inst_at_lookup args : forall d q a, args !! q = Some a -> 0 <= d -> room a ->
  d + Z.of_nat (length args) <= 2 ^ 28 ->
  inst_at d args (Var (d + Z.of_nat (length args - 1 - q))) = shift a d 0.
Proof.
  induction args as [|x args IH]; intros d q a Hq Hd Ha Hb; [done|]. cbn [length] in *.
  destruct q as [|q]; cbn [lookup list_lookup] in Hq; cbn [inst_at subst].
  - injection Hq as ->. replace (S (length args) - 1 - 0)%nat with (length args) by lia.
    rewrite Z.eqb_refl. apply inst_at_shift; [done|done|lia].
  - pose proof (lookup_lt_Some _ _ _ Hq).
    case Z.eqb_spec; intros; [lia|]. case Z.ltb_spec; intros; [lia|].
    replace (S (length args) - 1 - S q)%nat with (length args - 1 - q)%nat by lia. apply IH; [done|done|done|lia].
Qed.

(** A variable that does not occur may be instantiated by anything. *)
Lemma inst_at_unused t : forall d A q v, occurs_var t (d + Z.of_nat (length A - 1 - q)) = false ->
  (q < length A)%nat -> 0 <= d -> Forall room A -> room v -> d + Z.of_nat (length A) + binders t <= 2 ^ 28 ->
  inst_at d (<[q := v]> A) t = inst_at d A t.
Proof.
  induction t; intros d A q v Ho Hq Hd HA Hv Hb; cbn [occurs_var binders] in *;
    try (rewrite !inst_at_const by done; done).
  - destruct (decide (i < d)) as [Hi|Hi]; [by rewrite !inst_at_low|].
    destruct (decide (d + Z.of_nat (length A) <= i)) as [Hi'|Hi'];
      [by rewrite !inst_at_high by (rewrite ?length_insert; done); rewrite length_insert|].
    assert (exists j, (j < length A)%nat /\ i = d + Z.of_nat (length A - 1 - j)) as (j & Hlt & ->)
      by (exists (length A - 1 - Z.to_nat (i - d))%nat; lia).
    assert (j <> q) as Hj by (intros ->; by rewrite Z.eqb_refl in Ho).
    destruct (lookup_lt_is_Some_2 A j) as [a Ha]; [lia|].
    rewrite Forall_forall in HA. pose proof (HA a (list_elem_of_lookup_2 _ _ _ Ha)) as Hra.
    rewrite (inst_at_lookup A d j a) by (done || lia).
    rewrite <- (length_insert A q v).
    apply inst_at_lookup; [by rewrite list_lookup_insert_ne|done|done|rewrite length_insert; lia].
  - apply orb_false_iff in Ho as [H1 H2]. pose proof (binders_nonneg t1). pose proof (binders_nonneg t2).
    rewrite !inst_at_Pi. f_equal; [apply IHt1; try done; lia|].
    apply IHt2; try done; [|lia|lia]. rewrite <- H2. f_equal. lia.
  - apply orb_false_iff in Ho as [H1 H2]. pose proof (binders_nonneg t1). pose proof (binders_nonneg t2).
    rewrite !inst_at_Lam. f_equal; [apply IHt1; try done; lia|].
    apply IHt2; try done; [|lia|lia]. rewrite <- H2. f_equal. lia.
  - apply orb_false_iff in Ho as [H1 H2]. pose proof (binders_nonneg t1). pose proof (binders_nonneg t2).
    rewrite !inst_at_App. f_equal; [apply IHt1; try done; lia|apply IHt2; try done; lia].
Qed.

Lemma room_apply h args : room h -> Forall room args -> room (apply h args).
Proof.
  revert h. induction args as [|x args IH]; intros h Hh Ha; [done|]. apply Forall_cons in Ha as [[Hx Hbx] Ha].
  apply IH; [|done]. destruct Hh. split; cbn [scoped binders]; [done|lia].
Qed.

(** ** Relocation

    The source of an arm has the variables [f], the arguments [A] of the
    fixpoint and the fields [vs]; the emitted body has [A], [vs] and the
    hypotheses [Hs]. *)
Section Relocate.
Context (F : Tm) (A vs Hs : list Tm) (s : FixScope).
Context (Hself : self_src s = Z.of_nat (length vs + length A)) (Hr : sc_r s = Z.of_nat (length Hs)).
Context (HF : room F) (HA : Forall room A) (Hvs : Forall room vs).
Context (Hlen : Z.of_nat (S (length A + length vs + length Hs)) <= 2 ^ 27).

(** The variable [v] of the source becomes [v'] at depth [d]. *)
Definition moved (d v v' : Z) : Prop :=
  (v < d /\ v' = v) \/ (d <= v < d + self_src s /\ v' = v + sc_r s)
  \/ (d + self_src s < v /\ v' = v + sc_r s - 1).

Lemma moved_inst d v v' : 0 <= d < 2 ^ 27 -> moved d v v' ->
  inst_at d (A ++ vs ++ Hs) (Var v') = inst_at d (F :: A ++ vs) (Var v).
Proof.
  intros Hd [[Hv ->]|[[Hv ->]|[Hv ->]]].
  - by rewrite !inst_at_low.
  - rewrite Hself in Hv. rewrite Hr.
    assert (exists q, (q < length (A ++ vs))%nat /\ v = d + Z.of_nat (length (A ++ vs) - 1 - q)) as (q & Hq & ->).
    { rewrite length_app. exists (length A + length vs - 1 - Z.to_nat (v - d))%nat. lia. }
    destruct (lookup_lt_is_Some_2 (A ++ vs) q Hq) as [a Ha].
    assert (room a) as Hra.
    { assert (Forall room (A ++ vs)) as H by (by apply Forall_app). rewrite Forall_forall in H.
      by eapply H, list_elem_of_lookup_2. }
    rewrite app_assoc.
    replace (d + Z.of_nat (length (A ++ vs) - 1 - q) + Z.of_nat (length Hs))
      with (d + Z.of_nat (length ((A ++ vs) ++ Hs) - 1 - q)) by (rewrite (length_app (A ++ vs)); lia).
    rewrite (inst_at_lookup _ d q a); [|by apply lookup_app_l_Some|lia|done|rewrite !length_app; lia].
    symmetry. replace (length (A ++ vs) - 1 - q)%nat with (length (F :: A ++ vs) - 1 - S q)%nat by (cbn; lia).
    apply inst_at_lookup; [done|lia|done|]. cbn [length]. rewrite !length_app. lia.
  - rewrite Hself in Hv. rewrite Hr.
    rewrite !inst_at_high by (cbn [length]; rewrite !length_app; lia). f_equal. cbn [length]. rewrite !length_app. lia.
Qed.

Lemma relocate_moved d v v' : 0 <= v < 2 ^ 28 + d -> 0 <= d < 2 ^ 27 -> relocate_var s v d = Ok v' -> moved d v v'.
Proof.
  intros Hv Hd. unfold relocate_var, moved. case Z.ltb_spec; [intros ? [= <-]; lia|]. intros Hge.
  case Z.eqb_spec; [done|]. intros Hne. case Z.ltb_spec; intros Hlt [= <-]; rewrite as_u32_small; unfold u32_range; lia.
Qed.

Lemma relocate_core_inst t : forall d e, 0 <= d -> 0 <= e -> d + e + binders t < 2 ^ 27 -> scoped (2 ^ 28 + d + e) t ->
  scan t (d + e + self_src s) = false ->
  inst_at (d + e) (A ++ vs ++ Hs) (shift (shift t (-1) (d + e + self_src s + 1)) (sc_r s) (d + e))
  = inst_at (d + e) (F :: A ++ vs) t.
Proof.
  induction t; intros d e Hd He Hb Hsc Hscan; cbn [shift scan binders scoped] in *;
    try (rewrite !inst_at_const by done; done).
  - apply Z.eqb_neq in Hscan. apply moved_inst; [lia|]. unfold moved.
    case (Z.leb_spec (d + e + self_src s + 1) i); intros H1.
    + rewrite (as_u32_small (i + -1)) by (unfold u32_range; lia). case Z.leb_spec; intros H2; [|lia].
      rewrite as_u32_small by (unfold u32_range; lia). lia.
    + case Z.leb_spec; intros H2; [|lia]. rewrite as_u32_small by (unfold u32_range; lia). lia.
  - apply orb_false_iff in Hscan as [H1 H2]. destruct Hsc as [S1 S2].
    pose proof (binders_nonneg t1). pose proof (binders_nonneg t2). rewrite !inst_at_Pi.
    f_equal; [apply IHt1; done || lia|].
    replace (d + e + self_src s + 1 + 1) with (d + (e + 1) + self_src s + 1) by lia.
    replace (d + e + 1) with (d + (e + 1)) by lia.
    apply IHt2; [done|lia|lia|by replace (2 ^ 28 + d + (e + 1)) with (2 ^ 28 + d + e + 1) by lia|].
    by replace (d + (e + 1) + self_src s) with (d + e + self_src s + 1) by lia.
  - apply orb_false_iff in Hscan as [H1 H2]. destruct Hsc as [S1 S2].
    pose proof (binders_nonneg t1). pose proof (binders_nonneg t2). rewrite !inst_at_Lam.
    f_equal; [apply IHt1; done || lia|].
    replace (d + e + self_src s + 1 + 1) with (d + (e + 1) + self_src s + 1) by lia.
    replace (d + e + 1) with (d + (e + 1)) by lia.
    apply IHt2; [done|lia|lia|by replace (2 ^ 28 + d + (e + 1)) with (2 ^ 28 + d + e + 1) by lia|].
    by replace (d + (e + 1) + self_src s) with (d + e + self_src s + 1) by lia.
  - apply orb_false_iff in Hscan as [H1 H2]. destruct Hsc as [S1 S2].
    pose proof (binders_nonneg t1). pose proof (binders_nonneg t2). rewrite !inst_at_App.
    f_equal; [apply IHt1; done || lia|apply IHt2; done || lia].
Qed.
End Relocate.

(** ** Spines *)

Lemma mapM_cons_core a l Rs : mapM to_core (a :: l) = Some Rs ->
  exists R Rs', to_core a = Some R /\ mapM to_core l = Some Rs' /\ Rs = R :: Rs'.
Proof.
  cbn [mapM]. destruct (to_core a) as [R|]; [|done]. cbn [mbind option_bind].
  destruct (mapM to_core l) as [Rs'|]; [|done]. intros [= <-]. by exists R, Rs'.
Qed.

Lemma spine_from_core t : forall acc h l R Rs, src_spine_from t acc = (h, l) -> to_core t = Some R ->
  mapM to_core acc = Some Rs ->
  exists Rh Rl, to_core h = Some Rh /\ mapM to_core l = Some Rl /\ apply R Rs = apply Rh Rl.
Proof.
  induction t as [i|f IHf x _|dom body _|t|fx|m]; intros acc h l R Rs H HR Hacc; cbn [src_spine_from] in H;
    try (injection H as <- <-; by exists R, Rs); try done.
  cbn [to_core] in HR. destruct (to_core f) as [Rf|] eqn:Hf; [|done]. cbn [mbind option_bind] in HR.
  destruct (to_core x) as [Rx|] eqn:Hx; [|done]. injection HR as <-.
  apply (IHf (x :: acc) h l Rf (Rx :: Rs) H eq_refl). cbn [mapM]. by rewrite Hx, Hacc.
Qed.

Lemma scoped_apply_inv n h l : scoped n (apply h l) -> scoped n h /\ Forall (scoped n) l.
Proof.
  revert h. induction l as [|x l IH]; intros h H; [done|]. apply IH in H as [[Hh Hx] Hl]. auto.
Qed.

Lemma binders_apply h l : binders h <= binders (apply h l) /\ Forall (fun x => binders x <= binders (apply h l)) l.
Proof.
  revert h. induction l as [|x l IH]; intros h; [split; [done|constructor]|].
  destruct (IH (App h x)) as [H1 H2]. cbn [binders] in H1.
  change (apply h (x :: l)) with (apply (App h x) l). split; [lia|].
  constructor; [lia|done].
Qed.

Lemma shift_apply h l d c : shift (apply h l) d c = apply (shift h d c) ((fun t => shift t d c) <$> l).
Proof. revert h. induction l as [|x l IH]; intros h; [done|]. cbn. apply (IH (App h x)). Qed.

Lemma foldM_apply (f : SrcTm -> res LowerError Tm) args : forall t b,
  foldM (fun t a => x ← f a; Ok (App t x)) args t = Ok b ->
  exists xs, Forall2 (fun a x => f a = Ok x) args xs /\ b = apply t xs.
Proof.
  induction args as [|a args IH]; intros t b; cbn [foldM].
  - intros [= <-]. by exists [].
  - destruct (f a) as [x| | |] eqn:Hf; try done. cbn [mbind res_bind]. intros H.
    apply IH in H as (xs & Hxs & ->). exists (x :: xs). split; [by constructor|done].
Qed.

(** ** The scope of an arm *)

Lemma foldl_insert_lookup {A : Type} (k v : A -> Z) l : forall (m : gmap Z Z) x y,
  foldl (fun acc a => <[k a := v a]> acc) m l !! x = Some y ->
  m !! x = Some y \/ exists a, a ∈ l /\ x = k a /\ y = v a.
Proof.
  induction l as [|a l IH]; intros m x y; cbn [foldl]; [by left|]. intros [H|(a' & Hin & H)]%IH.
  - destruct (decide (x = k a)) as [-> |Hne].
    + rewrite lookup_insert_eq in H. injection H as <-. right. exists a. split; [left|done].
    + rewrite lookup_insert_ne in H by done. by left.
  - right. exists a'. split; [by right|done].
Qed.

Lemma field_to_ih_lookup fh recs m r x y : field_to_ih (arm_fix_scope fh recs m r) !! x = Some y ->
  exists j p, recs !! j = Some p /\ x = Z.of_nat (m - 1 - p) /\ y = r - 1 - Z.of_nat j.
Proof.
  intros [H|([j p] & Hin & -> & ->)]%foldl_insert_lookup; [done|].
  apply elem_of_lookup_imap in Hin as (j' & p' & [= -> ->] & Hj). by exists j', p'.
Qed.

Lemma outer_src_lookup fh recs m r t o : outer_src (arm_fix_scope fh recs m r) !! t = Some o ->
  (t < fh_n fh)%nat /\ o = Z.of_nat (m + (fh_n fh - 1 - t)).
Proof.
  cbn [arm_fix_scope outer_src]. rewrite list_lookup_fmap_Some. intros (t' & -> & [-> Ht]%lookup_seq). done.
Qed.

Lemma uniform_args_ok s d args : forall pos, uniform_args s d pos args = Ok tt ->
  forall q a, args !! q = Some a -> (pos + q)%nat <> sc_rec_arg s ->
  exists o, outer_src s !! (pos + q)%nat = Some o /\ a = SVar (d + o).
Proof.
  induction args as [|a args IH]; intros pos H q a' Hq Hne; [done|]. cbn [uniform_args] in H.
  destruct (if (pos =? sc_rec_arg s)%nat then Ok tt else _) as [[]| | |] eqn:E; try done. cbn [mbind res_bind] in H.
  destruct q as [|q]; cbn [lookup list_lookup] in Hq.
  - injection Hq as ->. rewrite Nat.add_0_r in *. destruct (pos =? sc_rec_arg s)%nat eqn:Ep; [by apply Nat.eqb_eq in Ep|].
    destruct a' as [v| | | | |]; try done. unfold index in E. destruct (outer_src s !! pos) as [o|]; [|done].
    cbn [mbind res_bind] in E. destruct (_ && _) eqn:Ev; [|done]. apply andb_true_iff in Ev as [_ Ev%Z.eqb_eq].
    exists o. split; [done|]. f_equal. lia.
  - replace (pos + S q)%nat with (S pos + q)%nat in * by lia. by apply (IH _ H).
Qed.

(** ** Arms *)

Section Arm.
Context (F : Tm) (A vs : list Tm) (q : nat) (recs : list nat).
Context (HF : room F) (HA : Forall room A) (Hvs : Forall room vs).
Context (Hrecs : Forall (fun p => (p < length vs)%nat) recs).
Context (Hlen : Z.of_nat (S (length A + length vs + length recs)) <= 2 ^ 27).
Let Hs := calls F A vs q recs.
Let s := arm_fix_scope (mk_head q (length A)) recs (length vs) (Z.of_nat (length recs)).

Lemma calls_length : length Hs = length recs.
Proof. apply length_fmap. Qed.

Lemma field_room p : (p < length vs)%nat -> vs !! p = Some (nth p vs (Sort 0)) /\ room (nth p vs (Sort 0)).
Proof.
  intros Hp. destruct (lookup_lt_is_Some_2 vs p Hp) as [v Hv]. rewrite (nth_lookup_Some _ _ _ _ Hv).
  rewrite Forall_forall in Hvs. split; [done|]. by eapply Hvs, list_elem_of_lookup_2.
Qed.

Lemma call_room p : (p < length vs)%nat -> room (apply F (<[q := nth p vs (Sort 0)]> A)).
Proof.
  intros Hp. apply room_apply; [done|]. apply Forall_insert; [done|]. by apply field_room.
Qed.

(** The instance of a variable of the source: the fixpoint, an argument, a
    field. *)
Lemma source_var d k a : 0 <= d < 2 ^ 27 -> (F :: A ++ vs) !! k = Some a -> room a ->
  inst_at d (F :: A ++ vs) (Var (d + Z.of_nat (length A + length vs - k))) = shift a d 0.
Proof.
  intros Hd Hk Ha. replace (length A + length vs - k)%nat with (length (F :: A ++ vs) - 1 - k)%nat
    by (cbn [length]; rewrite length_app; lia).
  apply inst_at_lookup; [done|lia|done|]. cbn [length]. rewrite length_app. lia.
Qed.

(** A recursive call and the hypothesis it becomes. *)
Lemma self_call_inst args d Rl b : self_call_to_ih s args d = Ok b -> mapM to_core args = Some Rl ->
  0 <= d < 2 ^ 27 ->
  inst_at d (A ++ vs ++ Hs) b = apply (shift F d 0) (inst_at d (F :: A ++ vs) <$> Rl).
Proof.
  intros H HRl Hd. unfold self_call_to_ih in H.
  destruct (negb _) eqn:Hn; [done|]. apply negb_false_iff, Nat.eqb_eq in Hn.
  unfold s in Hn at 1. cbn [arm_fix_scope outer_src] in Hn. rewrite length_fmap, length_seq in Hn. cbn [fh_n] in Hn.
  change (sc_rec_arg s) with q in H.
  destruct (args !! q) as [dec|] eqn:Hdec; [|done]. cbn [ok_or mbind res_bind] in H.
  destruct dec as [v| | | | |]; try done. destruct (Z.leb_spec d v) as [Hv|]; [|done]. cbn [mbind res_bind] in H.
  destruct (field_to_ih s !! (v - d)) as [ih|] eqn:Hih; [|done]. cbn [ok_or mbind res_bind] in H.
  apply field_to_ih_lookup in Hih as (j & p & Hj & Hx & ->).
  destruct (uniform_args s d 0 args) as [[]| | |] eqn:Hu; try done. injection H as <-.
  pose proof (lookup_lt_Some _ _ _ Hj) as Hjl.
  assert (p < length vs)%nat as Hp by (rewrite Forall_forall in Hrecs; by eapply Hrecs, list_elem_of_lookup_2).
  destruct (field_room p Hp) as [Hvp Hrp].
  assert (Hs !! j = Some (apply F (<[q := nth p vs (Sort 0)]> A))) as HHj
    by (unfold Hs, calls; by rewrite list_lookup_fmap, Hj).
  replace (Z.of_nat (length recs) - 1 - Z.of_nat j + d)
    with (d + Z.of_nat (length (A ++ vs ++ Hs) - 1 - (length A + (length vs + j))))
    by (rewrite !length_app, calls_length; lia).
  assert ((A ++ vs ++ Hs) !! (length A + (length vs + j))%nat = Some (apply F (<[q := nth p vs (Sort 0)]> A))) as Hl.
  { rewrite !lookup_app_r by lia. rewrite <- HHj. f_equal. lia. }
  rewrite (inst_at_lookup _ d _ _ Hl);
    [|lia|by apply call_room|rewrite !length_app, calls_length; lia].
  rewrite shift_apply. f_equal. apply list_eq. intros k. rewrite !list_lookup_fmap.
  apply mapM_Some_1 in HRl.
  destruct (decide (k < length A)%nat) as [Hk|Hk].
  - destruct (lookup_lt_is_Some_2 args k) as [a Ha]; [lia|].
    destruct (Forall2_lookup_l _ _ _ _ _ HRl Ha) as (R & HR & Hc). rewrite HR. cbn [fmap option_fmap option_map].
    destruct (decide (k = q)) as [-> |Hne].
    + rewrite Hdec in Ha. injection Ha as <-. cbn [to_core] in Hc. injection Hc as <-.
      rewrite list_lookup_insert_eq by done. cbn [fmap option_fmap option_map]. f_equal.
      replace v with (d + Z.of_nat (length A + length vs - S (length A + p))) by lia.
      symmetry. apply source_var; [done| |done]. change ((A ++ vs) !! (length A + p)%nat = Some (nth p vs (Sort 0))).
      rewrite lookup_app_r by lia. rewrite <- Hvp. f_equal. lia.
    + rewrite list_lookup_insert_ne by done. destruct (lookup_lt_is_Some_2 A k Hk) as [x Hx']. rewrite Hx'.
      cbn [fmap option_fmap option_map]. f_equal.
      destruct (uniform_args_ok _ _ _ _ Hu k a Ha) as (o & Ho & ->); [done|].
      apply outer_src_lookup in Ho as [_ ->]. cbn [fh_n to_core] in Hc |- *. injection Hc as <-.
      replace (length vs + (length A - 1 - k))%nat with (length A + length vs - S k)%nat by lia.
      symmetry. apply source_var; [done| |].
      * change ((A ++ vs) !! k = Some x). by apply lookup_app_l_Some.
      * rewrite Forall_forall in HA. by eapply HA, list_elem_of_lookup_2.
  - rewrite !lookup_ge_None_2; [done| |].
    + rewrite <- (Forall2_length _ _ _ HRl). lia.
    + rewrite length_insert. lia.
Qed.

Lemma scope_self : self_src s = Z.of_nat (length vs + length A).
Proof. done. Qed.

Lemma scope_r : sc_r s = Z.of_nat (length Hs).
Proof. by rewrite calls_length. Qed.

Lemma Hs_len : Z.of_nat (S (length A + length vs + length Hs)) <= 2 ^ 27.
Proof. by rewrite calls_length. Qed.

(** The emitted body and the source of an arm have the same instances. *)
Lemma lower_rhs_inst fuel : forall src d R b, lower_rhs fuel src s d = Ok b -> to_core src = Some R ->
  0 <= d -> d + binders R < 2 ^ 27 -> scoped (2 ^ 28 + d) R ->
  inst_at d (A ++ vs ++ Hs) b = inst_at d (F :: A ++ vs) R.
Proof.
  induction fuel as [|fuel IH]; intros src d R b H HR Hd Hb Hsc; [done|]. cbn [lower_rhs] in H.
  pose proof (binders_nonneg R).
  assert (forall t b, (_ ← reject_bare_self t s d; Ok (relocate_core t s d)) = Ok b -> d + binders t < 2 ^ 27 ->
    scoped (2 ^ 28 + d) t -> inst_at d (A ++ vs ++ Hs) b = inst_at d (F :: A ++ vs) t) as Hcore.
  { intros t b0 Hrej Hb0 Hs0. unfold reject_bare_self in Hrej. destruct (scan t _) eqn:Hscan; [done|].
    injection Hrej as <-. unfold relocate_core.
    pose proof (relocate_core_inst F A vs Hs s scope_self scope_r HA Hvs Hs_len t d 0) as E.
    rewrite !Z.add_0_r in E. by apply E. }
  destruct src as [v|f x|dom body|t|fx|m]; try done.
  - injection HR as <-. destruct (relocate_var s v d) as [v'| | |] eqn:Hv; try done. injection H as <-.
    cbn [binders scoped] in *.
    apply (moved_inst F A vs Hs s scope_self scope_r HA Hvs Hs_len); [lia|].
    apply (relocate_moved A vs Hs s scope_self scope_r Hs_len); [lia|lia|done].
  - destruct (src_spine (SApp f x)) as [h l] eqn:Hsp.
    destruct (spine_from_core _ _ _ _ _ _ Hsp HR eq_refl) as (Rh & Rl & Hh & Hl & E). cbn in E. subst R.
    destruct (self_call s h d) eqn:Hself.
    + rewrite inst_at_apply. pose proof (binders_apply Rh Rl) as [? _].
      pose proof (binders_nonneg Rh). erewrite self_call_inst by (done || lia). f_equal.
      destruct h as [v| | | | |]; try done. cbn [self_call to_core] in *. injection Hh as <-.
      apply andb_true_iff in Hself as [Hv1 Hv2%Z.eqb_eq].
      replace v with (d + Z.of_nat (length A + length vs - 0)) by (rewrite scope_self in Hv2; lia).
      symmetry. apply source_var; [lia|done|done].
    + destruct (lower_rhs fuel h s d) as [t| | |] eqn:Ht; try done. cbn [mbind res_bind] in H.
      apply foldM_apply in H as (xs & Hxs & ->). rewrite !inst_at_apply.
      destruct (scoped_apply_inv _ _ _ Hsc) as [Hs1 Hs2]. destruct (binders_apply Rh Rl) as [Hb1 Hb2].
      f_equal; [eapply IH; try done; lia|].
      apply mapM_Some_1 in Hl. rewrite Forall_forall in Hs2, Hb2.
      apply list_eq. intros k. rewrite !list_lookup_fmap. destruct (Rl !! k) as [Rk|] eqn:HRk.
      * destruct (Forall2_lookup_r _ _ _ _ _ Hl HRk) as (a & Ha & Hca).
        destruct (Forall2_lookup_l _ _ _ _ _ Hxs Ha) as (x' & Hx' & Hlow). rewrite Hx'.
        cbn [fmap option_fmap option_map]. f_equal. apply list_elem_of_lookup_2 in HRk.
        eapply IH; try done; [specialize (Hb2 _ HRk); cbn in Hb2; lia|by apply Hs2].
      * rewrite lookup_ge_None_2; [done|]. apply lookup_ge_None in HRk.
        by rewrite <- (Forall2_length _ _ _ Hxs), (Forall2_length _ _ _ Hl).
  - cbn [to_core] in HR. destruct (to_core body) as [B|] eqn:HB; [|done]. injection HR as <-.
    cbn [binders scoped] in *. destruct Hsc as [Hsd Hsb]. pose proof (binders_nonneg dom). pose proof (binders_nonneg B).
    destruct (reject_bare_self dom s d) as [[]| | |] eqn:Hrej; try done. cbn [mbind res_bind] in H.
    destruct (lower_rhs fuel body s (d + 1)) as [b'| | |] eqn:Hbody; try done. injection H as <-.
    rewrite !inst_at_Lam. f_equal.
    + apply Hcore; [by rewrite Hrej|lia|done].
    + eapply IH; try done; [lia|lia|]. by replace (2 ^ 28 + (d + 1)) with (2 ^ 28 + d + 1) by lia.
  - injection HR as <-. by apply Hcore.
Qed.
End Arm.

(** ** Reduction *)

Lemma lams_app xs ys b : lams (xs ++ ys) b = lams xs (lams ys b).
Proof. apply foldr_app. Qed.


Lemma beta_lams env ctx args : forall doms b rest, length doms = length args ->
  red env ctx (apply (lams doms b) (args ++ rest)) (apply (inst args b) rest).
Proof.
  induction args as [|a args IH]; intros doms b rest Hl; (destruct doms as [|dom doms]; [|]); try done.
  { apply red_refl. }
  injection Hl as Hl. cbn [app inst_at]. eapply red_step.
  - change (apply (lams (dom :: doms) b) (a :: args ++ rest)) with (apply (Lam dom (lams doms b)) (a :: args ++ rest)).
    apply step_beta.
  - destruct (inst_at_lams [a] doms 0 b) as (doms' & Hl' & E). cbn [inst_at length] in E. rewrite !Z.add_0_r in E.
    rewrite E. rewrite <- Hl, !Z.add_0_l. apply IH. congruence.
Qed.

Lemma rec_positions_lt fields i : Forall (fun p => (p < length fields)%nat) (rec_positions fields i).
Proof.
  apply Forall_fmap, Forall_forall. intros [p t] [_ Hin]%list_elem_of_filter.
  apply elem_of_lookup_imap in Hin as (p' & t' & [= -> ->] & H). by eapply lookup_lt_Some.
Qed.

(** Without parameters and indices, the hypotheses of the recursive fields. *)
Lemma hyps_simple env ctx i pre vs l : Forall (fun pt => (pt.1 < length vs)%nat) l ->
  hyps env ctx i pre 0 0 vs l
    ((fun p => hypothesis i pre [] (nth p vs (Sort 0))) <$> (filter (fun pt => head_is_ind pt.2 i = true) l).*1).
Proof.
  induction l as [|[p t] l IH]; intros [Hp Hl]%Forall_cons || intros _; [constructor|].
  rewrite filter_cons. cbn [fst snd] in *. destruct (decide (head_is_ind t i = true)) as [Ht|Ht].
  - cbn [fmap list_fmap fst]. econstructor; [done| |constructor|by apply IH].
    destruct (lookup_lt_is_Some_2 vs p Hp) as [v Hv]. by rewrite (nth_lookup_Some _ _ _ _ Hv).
  - constructor; [by destruct (head_is_ind t i)|by apply IH].
Qed.

(** ** The shape of a translated fixpoint *)

Section Shape.
Context (env : GlobalEnv) (fuel : nat) (part : SrcTm -> res LowerError Tm).

Lemma lower_arms_spec ind arms fh ks : forall e e', lower_arms fuel part ind arms fh ks e = Ok e' ->
  exists minors, e' = apply e minors /\
  Forall2 (fun k mn => exists arm, List.find (fun a => arm_ix a =? Z.of_nat k) arms = Some arm
             /\ lower_minor fuel part ind arm fh = Ok mn) ks minors.
Proof.
  induction ks as [|k ks IH]; intros e e'; cbn [lower_arms].
  - intros [= <-]. by exists [].
  - destruct (List.find _ arms) as [arm|] eqn:Hf; [|done]. cbn [ok_or mbind res_bind].
    destruct (lower_minor fuel part ind arm fh) as [mn| | |] eqn:Hm; try done. cbn [mbind res_bind].
    intros (ms & -> & H)%IH. exists (mn :: ms). split; [done|]. constructor; [eauto|done].
Qed.

Lemma mapMr_index_length {E A} (l : list A) ps xs : mapMr (E := E) (fun p => index l p) ps = Ok xs ->
  length xs = length ps.
Proof. intros H. apply mapMr_Ok_Forall2 in H. symmetry. by eapply Forall2_length. Qed.

Lemma lower_minor_fix ind arm fh mn k cd : lower_minor fuel part ind arm (Some fh) = Ok mn ->
  arm_ix arm = Z.of_nat k -> ind_ctors ind !! k = Some cd ->
  let recs := rec_positions (ctor_args cd) (ind_id ind) in
  exists b ihs, mn = lams (ctor_args cd ++ ihs) b /\ length ihs = length recs
  /\ lower_rhs fuel (arm_rhs arm) (arm_fix_scope fh recs (length (ctor_args cd)) (Z.of_nat (length recs))) 0 = Ok b.
Proof.
  intros H Hk Hcd recs. unfold lower_minor in H. rewrite Hk, Nat2Z.id in H.
  rewrite (proj2 (index_Ok _ _ _) Hcd) in H. cbn [mbind res_bind] in H. destruct (negb _); [done|]. fold recs in H.
  destruct (lower_rhs fuel _ _ 0) as [b| | |] eqn:Hb; try done. cbn [mbind res_bind] in H.
  destruct (mapMr _ recs) as [ihs| | |] eqn:Hi; try done. injection H as <-.
  exists b, ihs. rewrite lams_app. split; [done|]. split; [by eapply mapMr_index_length|done].
Qed.
End Shape.

(** What a successful translation of a fixpoint consists of. *)
Record fix_shape (env : GlobalEnv) (fuel : nat) (part : SrcTm -> res LowerError Tm) (q : nat)
    (doms : list Tm) (i : IndId) (motive : Tm) (arms : list SrcArm) (F : Tm) (ind : Inductive_)
    (minors : list Tm) : Prop := mk_shape {
  fs_rec : (q < length doms)%nat;
  fs_ind : inds env !! i = Some ind;
  fs_params : ind_params ind = [];
  fs_indices : ind_indices_tele ind = [];
  fs_term : F = lams doms (App (apply (App (Elim i) motive) minors) (Var (Z.of_nat (length doms - 1 - q))));
  fs_minors : Forall2 (fun k mn => exists arm, List.find (fun a => arm_ix a =? Z.of_nat k) arms = Some arm
    /\ lower_minor fuel part ind arm (Some (mk_head q (length doms))) = Ok mn)
    (seq 0 (length (ind_ctors ind))) minors
}.

Lemma lower_fix_shape env fuel q ty body doms scrut i motive arms F :
  lower (S fuel) env (SFix (mk_fix q ty body)) = Ok F ->
  peel_lams body = (doms, SMatch (mk_match scrut i motive arms)) ->
  exists ind minors, fix_shape env fuel (lower fuel env) q doms i motive arms F ind minors.
Proof.
  intros H Hp. cbn [lower] in H. unfold lower_fix in H. rewrite Hp in H.
  destruct (length doms <=? q)%nat eqn:Hq; [done|]. apply Nat.leb_gt in Hq.
  destruct scrut as [v| | | | |]; try done. destruct (v =? _) eqn:Hv; [|done]. apply Z.eqb_eq in Hv.
  cbn [mbind res_bind] in H. destruct (inds env !! i) as [ind|] eqn:Hi; [|done]. cbn [ok_or mbind res_bind] in H.
  unfold check_simple in H. destruct (_ || _) eqn:Hs; [done|].
  apply orb_false_iff in Hs as [Hs1%negb_false_iff%bool_decide_eq_true Hs2%negb_false_iff%bool_decide_eq_true].
  cbn [mbind res_bind] in H. destruct (lower_match _ _ _ _ _) as [elim| | |] eqn:Hm; try done. injection H as <-.
  unfold lower_match in Hm. rewrite Hi in Hm. cbn [ok_or mbind res_bind] in Hm.
  destruct (check_simple ind) as [[]| | |]; try done. cbn [mbind res_bind] in Hm.
  destruct (negb _); [done|]. destruct (lower_arms _ _ _ _ _ _ _) as [e| | |] eqn:Ha; try done.
  injection Hm as <-. apply lower_arms_spec in Ha as (minors & -> & Hms).
  exists ind, minors. by split; rewrite <- ?Hv.
Qed.

(** Instances of a recursor applied to its motive and minors. *)
Lemma inst_elim d A i motive minors :
  inst_at d A (apply (App (Elim i) motive) minors)
  = apply (Elim i) (inst_at d A motive :: (inst_at d A <$> minors)).
Proof. rewrite inst_at_apply, inst_at_App, inst_at_const by done. done. Qed.

Lemma lams_inj doms a b : lams doms a = lams doms b -> a = b.
Proof. induction doms as [|x doms IH]; [done|]. cbn. intros [=]. by apply IH. Qed.

Lemma shift_0 t : forall n c, scoped n t -> n + binders t <= 2 ^ 32 -> shift t 0 c = t.
Proof.
  induction t; intros n c0 Hs Hb; cbn [shift scoped binders] in *; try done.
  - rewrite Z.add_0_r, as_u32_small by (unfold u32_range; lia). by destruct (_ <=? _).
  - destruct Hs. pose proof (binders_nonneg t1). pose proof (binders_nonneg t2).
    f_equal; [eapply IHt1; try done; lia|eapply IHt2; try done; lia].
  - destruct Hs. pose proof (binders_nonneg t1). pose proof (binders_nonneg t2).
    f_equal; [eapply IHt1; try done; lia|eapply IHt2; try done; lia].
  - destruct Hs. pose proof (binders_nonneg t1). pose proof (binders_nonneg t2).
    f_equal; [eapply IHt1; try done; lia|eapply IHt2; try done; lia].
Qed.

Lemma room_shift_0 t : room t -> shift t 0 0 = t.
Proof. intros [Hs Hb]. eapply shift_0; [exact Hs|lia]. Qed.

(** The body of a translated fixpoint at its arguments. *)
Lemma unfold_args env ctx doms E A q a : length A = length doms -> A !! q = Some a -> Forall room A ->
  Z.of_nat (length A) <= 2 ^ 27 ->
  red env ctx (apply (lams doms (App E (Var (Z.of_nat (length doms - 1 - q))))) A) (App (inst A E) a).
Proof.
  intros Hl Ha HA Hb. pose proof (beta_lams env ctx A doms (App E (Var (Z.of_nat (length doms - 1 - q)))) []
    (eq_sym Hl)) as H.
  rewrite app_nil_r, inst_at_App in H.
  rewrite Forall_forall in HA. pose proof (HA a (list_elem_of_lookup_2 _ _ _ Ha)) as Hra.
  pose proof (inst_at_lookup A 0 q a Ha ltac:(lia) Hra ltac:(lia)) as E'.
  rewrite Z.add_0_l, Hl in E'. rewrite E', room_shift_0 in H by done. exact H.
Qed.

(** Iota without parameters and indices. *)
Lemma iota_simple env ctx i ind k cd vs pre minor :
  inds env !! i = Some ind -> ind_params ind = [] -> ind_indices_tele ind = [] ->
  ind_ctors ind !! k = Some cd -> length vs = length (ctor_args cd) ->
  length pre = S (length (ind_ctors ind)) -> pre !! S k = Some minor ->
  step env ctx (App (apply (Elim i) pre) (apply (Ctor i (Z.of_nat k)) vs))
    (apply minor (vs ++ ((fun p => App (apply (Elim i) pre) (nth p vs (Sort 0))) <$> rec_positions (ctor_args cd) i))).
Proof.
  intros Hi Hp Hx Hcd Hl Hpre Hm.
  pose proof (step_iota env ctx i ind (pre ++ [apply (Ctor i (Z.of_nat k)) vs]) (Z.of_nat k) vs
    (apply (Ctor i (Z.of_nat k)) vs) cd minor
    ((fun p => hypothesis i pre [] (nth p vs (Sort 0))) <$> rec_positions (ctor_args cd) i) Hi) as H.
  rewrite Hp, Hx in H. cbn [length] in H.
  replace (0 + 1 + length (ind_ctors ind) + 0 + 1)%nat with (S (length pre)) in H by lia.
  replace (0 + 1 + length (ind_ctors ind))%nat with (length pre) in H by lia.
  rewrite Nat2Z.id, take_app_length, (drop_ge (pre ++ _)) in H by (rewrite length_app; cbn; lia).
  rewrite (apply_app (Elim i)) in H. rewrite (apply_app minor). apply H; clear H.
  - rewrite lookup_app_r by lia. by replace (S (length pre) - 1 - length pre)%nat with 0%nat by lia.
  - apply red_refl.
  - done.
  - apply lookup_app_l_Some. by replace (0 + 1 + k)%nat with (S k) by lia.
  - apply hyps_simple, Forall_forall. intros [p t] Hin.
    apply elem_of_lookup_imap in Hin as (p' & t' & [= -> ->] & Ht). cbn. rewrite Hl. by eapply lookup_lt_Some.
Qed.

(** ** Termination *)

Notation fine := (settled (fun _ => True)).

Lemma spine_from_size t : forall acc h l, src_spine_from t acc = (h, l) ->
  (src_size h + sum_list_with src_size l = src_size t - (length l - length acc) + sum_list_with src_size acc)%nat
  /\ (length acc <= length l)%nat /\ (length l - length acc < src_size t)%nat /\ (forall f x, h <> SApp f x).
Proof.
  induction t as [i|f IHf x _|dom body _|t|[]|[]]; intros acc h l H; cbn [src_spine_from] in H;
    try (injection H as <- <-; rewrite Nat.sub_diag; cbn [src_size]; split; [lia|]; split; [lia|]; split; [lia|done]).
  apply IHf in H as (H1 & H2 & H3 & H4). cbn [src_size sum_list_with length] in *. split; [lia|]. split; [lia|]. split; [lia|done].
Qed.

Lemma uniform_args_fine s d args : forall pos, (pos + length args <= length (outer_src s))%nat ->
  fine (uniform_args s d pos args).
Proof.
  induction args as [|a args IH]; intros pos Hp; [done|]. cbn [uniform_args length] in *.
  apply (settled_bind (fun _ => True)); [|intros; apply IH; lia].
  destruct (_ =? _)%nat; [done|]. destruct a as [v| | | | |]; try done.
  destruct (lookup_lt_is_Some_2 (outer_src s) pos) as [o Ho]; [lia|].
  rewrite (proj2 (index_Ok _ _ _) Ho). cbn [mbind res_bind]. by destruct (_ && _).
Qed.

Lemma self_call_fine s args d : fine (self_call_to_ih s args d).
Proof.
  unfold self_call_to_ih. destruct (negb _) eqn:Hn; [done|]. apply negb_false_iff, Nat.eqb_eq in Hn.
  destruct (args !! _) as [[v| | | | |]|]; try done. cbn [ok_or mbind res_bind].
  destruct (d <=? v); [|done]. cbn [mbind res_bind]. destruct (_ !! _); [|done]. cbn [ok_or mbind res_bind].
  apply (settled_bind (fun _ => True)); [apply uniform_args_fine; lia|done].
Qed.

Lemma fold_fine (f : SrcTm -> res LowerError Tm) args : forall t, Forall (fun a => fine (f a)) args ->
  fine (foldM (fun t a => x ← f a; Ok (App t x)) args t).
Proof.
  induction args as [|a args IH]; intros t H; [done|]. apply Forall_cons in H as [Ha H]. cbn [foldM].
  apply (settled_bind (fun _ => True)); [|intros; by apply IH].
  apply (settled_bind (fun _ => True)); [exact Ha|done].
Qed.

Lemma sum_size_elem (l : list SrcTm) a : a ∈ l -> (src_size a <= sum_list_with src_size l)%nat.
Proof. induction 1; cbn; lia. Qed.

Lemma lower_rhs_fine fuel : forall src s d, (src_size src <= fuel)%nat -> fine (lower_rhs fuel src s d).
Proof.
  induction fuel as [|fuel IH]; intros src s d Hf.
  { destruct src as [| | | |[]|[]]; cbn [src_size] in Hf; lia. }
  cbn [lower_rhs]. destruct src as [v|f x|dom body|t|fx|m]; try done.
  - unfold relocate_var. destruct (v <? d); [done|]. destruct (_ =? _); done.
  - destruct (src_spine (SApp f x)) as [h l] eqn:Hsp. change (src_spine (SApp f x)) with (src_spine_from f [x]) in Hsp.
    apply spine_from_size in Hsp as (H1 & _ & H3 & _). cbn [length sum_list_with src_size] in *.
    destruct (self_call s h d); [apply self_call_fine|].
    apply (settled_bind (fun _ => True)); [apply IH; lia|]. intros t _. apply fold_fine, Forall_forall.
    intros a Ha%sum_size_elem. apply IH. lia.
  - apply (settled_bind (fun _ => True)); [unfold reject_bare_self; by destruct (scan _ _)|]. intros _ _.
    cbn [src_size] in Hf. apply (settled_bind (fun _ => True)); [apply IH; lia|done].
  - apply (settled_bind (fun _ => True)); [unfold reject_bare_self; by destruct (scan _ _)|done].
Qed.

Section LowerFine.
Context (env : GlobalEnv) (fuel : nat) (part : SrcTm -> res LowerError Tm).

Definition arms_size (arms : list SrcArm) : nat :=
  sum_list_with (fun a => let '(mk_arm _ _ rhs) := a in src_size rhs) arms.

Lemma arm_size arms a : a ∈ arms -> (src_size (arm_rhs a) <= arms_size arms)%nat.
Proof. unfold arms_size. induction 1 as [[]|[] ? ? ? IH]; cbn; [lia|]. cbn in IH. lia. Qed.

Lemma lower_minor_fine ind arm fh : (Z.to_nat (arm_ix arm) < length (ind_ctors ind))%nat ->
  (src_size (arm_rhs arm) <= fuel)%nat -> (fh = None -> fine (part (arm_rhs arm))) ->
  fine (lower_minor fuel part ind arm fh).
Proof.
  intros Hk Hf Hp. unfold lower_minor. destruct (lookup_lt_is_Some_2 _ _ Hk) as [cd Hcd].
  rewrite (proj2 (index_Ok _ _ _) Hcd). cbn [mbind res_bind]. destruct (negb _); [done|].
  apply (settled_bind (fun _ => True)).
  { destruct fh; [by apply lower_rhs_fine|]. apply (settled_bind (fun _ => True)); [by apply Hp|done]. }
  intros b _. apply (settled_bind (fun _ => True)); [|done].
  pose proof (rec_positions_lt (ctor_args cd) (ind_id ind)) as Hr.
  induction Hr as [|p ps Hp' _ IH]; [done|]. cbn [mapMr]. destruct (lookup_lt_is_Some_2 _ _ Hp') as [t Ht].
  rewrite (proj2 (index_Ok _ _ _) Ht). cbn [mbind res_bind].
  apply (settled_bind (fun _ => True)); [exact IH|done].
Qed.

Lemma lower_arms_fine ind arms fh ks : Forall (fun k => (k < length (ind_ctors ind))%nat) ks ->
  (arms_size arms <= fuel)%nat -> (fh = None -> forall a, a ∈ arms -> fine (part (arm_rhs a))) ->
  forall e, fine (lower_arms fuel part ind arms fh ks e).
Proof.
  intros Hks Hf Hp. induction Hks as [|k ks Hk _ IH]; intros e; [done|]. cbn [lower_arms].
  destruct (List.find _ arms) as [arm|] eqn:Hfind; [|done]. cbn [ok_or mbind res_bind].
  apply List.find_some in Hfind as [Hin%list_elem_of_In Hix%Z.eqb_eq].
  apply (settled_bind (fun _ => True)); [|intros; apply IH].
  apply lower_minor_fine; [lia|pose proof (arm_size _ _ Hin); lia|auto].
Qed.

Lemma lower_match_fine scrut i motive arms fh : (src_size scrut + arms_size arms <= fuel)%nat ->
  (fh = None -> fine (part scrut)) -> (fh = None -> forall a, a ∈ arms -> fine (part (arm_rhs a))) ->
  fine (lower_match env fuel part (mk_match scrut i motive arms) fh).
Proof.
  intros Hf Hs Ha. unfold lower_match. destruct (inds env !! i) as [ind|]; [|done]. cbn [ok_or mbind res_bind].
  apply (settled_bind (fun _ => True)); [unfold check_simple; by destruct (_ || _)|]. intros _ _.
  destruct (negb _); [done|]. apply (settled_bind (fun _ => True)).
  { apply lower_arms_fine; [|lia|done]. apply Forall_forall. intros k [_ Hk]%elem_of_seq. lia. }
  intros e _. apply (settled_bind (fun _ => True)); [|done].
  unfold lower_scrut. destruct fh; [by destruct scrut|by apply Hs].
Qed.

Lemma peel_size t doms cur : peel_lams t = (doms, cur) -> (src_size cur <= src_size t)%nat.
Proof.
  revert doms. induction t as [i|f IHf x _|dom body IH|t|fx|m]; intros doms H; cbn [peel_lams] in H;
    try (by injection H as _ <-).
  destruct (peel_lams body) as [ds c] eqn:E. injection H as _ <-. cbn [src_size]. specialize (IH _ eq_refl). lia.
Qed.

Lemma lower_fix_fine q ty body : (src_size body <= fuel)%nat -> fine (lower_fix env fuel part (mk_fix q ty body)).
Proof.
  intros Hf. unfold lower_fix. destruct (peel_lams body) as [doms cur] eqn:Hp. apply peel_size in Hp.
  destruct (_ <=? _)%nat; [done|]. destruct cur as [| | | | |[scrut i motive arms]]; try done.
  apply (settled_bind (fun _ => True)); [destruct scrut as [v| | | | |]; try done; by destruct (v =? _)|]. intros _ _.
  destruct (inds env !! i) as [ind|]; [|done]. cbn [ok_or mbind res_bind].
  apply (settled_bind (fun _ => True)); [unfold check_simple; by destruct (_ || _)|]. intros _ _.
  apply (settled_bind (fun _ => True)); [|done].
  apply lower_match_fine; [|done|done]. cbn [src_size] in Hp. unfold arms_size. lia.
Qed.
End LowerFine.

Lemma lower_fine fuel env : forall src, (src_size src <= fuel)%nat -> fine (lower fuel env src).
Proof.
  induction fuel as [|fuel IH]; intros src Hf.
  { destruct src as [| | | |[]|[]]; cbn [src_size] in Hf; lia. }
  cbn [lower]. destruct src as [i|f x|dom body|t|[q ty body]|[scrut i motive arms]]; cbn [src_size] in Hf; try done.
  - apply (settled_bind (fun _ => True)); [apply IH; lia|]. intros f' _.
    apply (settled_bind (fun _ => True)); [apply IH; lia|done].
  - apply (settled_bind (fun _ => True)); [apply IH; lia|done].
  - apply lower_fix_fine. lia.
  - apply lower_match_fine; [unfold arms_size; lia|intros _; apply IH; lia|].
    intros _ a Ha%arm_size. apply IH. unfold arms_size in Ha. lia.
Qed.


(** ** Concrete fixpoints *)

(** No term takes the net route of conversion. *)
#[local] Instance no_net_path : NetPath := fun _ _ => Fuel.

Definition nat_ : Tm := Ind 0.
Definition nat_motive : Tm := Lam nat_ nat_.

(** [plus n m], by recursion on [n]. *)
Definition plus_arms : list SrcArm :=
  [mk_arm 0 [] (SVar 0);
   mk_arm 1 [nat_] (SApp (SCore (Ctor 0 1)) (SApp (SApp (SVar 3) (SVar 0)) (SVar 1)))].
Definition plus_src : SrcTm :=
  SFix (mk_fix 0 (Pi nat_ (Pi nat_ nat_)) (SLam nat_ (SLam nat_ (SMatch (mk_match (SVar 1) 0 nat_motive plus_arms))))).
Definition plus_body : Tm :=
  apply (Elim 0) [nat_motive; Var 0; Lam nat_ (Lam nat_ (succ_ (Var 0)))].
Definition plus_core : Tm := Lam nat_ (Lam nat_ (App plus_body (Var 1))).

(** [sum n], the sum of the numbers up to [n]: its second arm adds [n], the
    decreasing argument, to the sum for the field. *)
Definition sum_src : SrcTm :=
  SFix (mk_fix 0 (Pi nat_ nat_) (SLam nat_ (SMatch (mk_match (SVar 0) 0 nat_motive
    [mk_arm 0 [] (SCore zero_);
     mk_arm 1 [nat_] (SApp (SApp (SCore plus_core) (SVar 1)) (SApp (SVar 2) (SVar 0)))])))).

Fixpoint numeral (n : nat) : Tm := match n with O => zero_ | S n => succ_ (numeral n) end.

Definition bool_decl : Inductive_ := mk_ind 1 [] [] 0 [mk_ctor 0 [] []; mk_ctor 1 [] []].
Definition env_bool : GlobalEnv := (add_inductive 20 env_nat bool_decl).1.

(** A match on a number that returns a boolean. *)
Definition is_zero_src : SrcTm :=
  SLam nat_ (SMatch (mk_match (SVar 0) 0 (Lam nat_ (Ind 1))
    [mk_arm 0 [] (SCore (Ctor 1 0)); mk_arm 1 [nat_] (SCore (Ctor 1 1))])).

(** A fixpoint over a type variable, which its motive mentions. *)
Definition open_motive_src : SrcTm :=
  SLam (Sort 0) (SLam (Var 0) (SFix (mk_fix 0 (Pi nat_ (Var 2)) (SLam nat_
    (SMatch (mk_match (SVar 0) 0 (Lam nat_ (Var 4)) [mk_arm 0 [] (SVar 2); mk_arm 1 [nat_] (SVar 3)])))))).

(** * Theorems *)

(** C37: A translated fixpoint unfolds.  Let [F] translate the fixpoint with the
    arms [arms] and let its decreasing argument not occur in its motive and
    minors.  Applied to arguments [A] of which the decreasing one is the
    [k]-th constructor on [vs], [F] reduces by the kernel's rules to an
    instance of the emitted arm, in which each hypothesis is the reduct of a
    recursive call of [F] on a field; with the calls in place of their reducts
    that instance is the source of the arm, with [F] for the name of the
    fixpoint, [A] for its arguments and [vs] for the fields. *)
Theorem fix_unfolds (env : GlobalEnv) (fuel q k : nat) (ctx : Ctx) (ty : Tm) (body : SrcTm) (doms : list Tm)
    (scrut : SrcTm) (i : IndId) (motive : Tm) (arms : list SrcArm) (ind : Inductive_) (cd : CtorDecl)
    (arm : SrcArm) (R E F : Tm) (A vs : list Tm) :
  lower (S fuel) env (SFix (mk_fix q ty body)) = Ok F ->
  peel_lams body = (doms, SMatch (mk_match scrut i motive arms)) ->
  F = lams doms (App E (Var (Z.of_nat (length doms - 1 - q)))) ->
  occurs_var E (Z.of_nat (length doms - 1 - q)) = false ->
  inds env !! i = Some ind -> ind_id ind = i -> ind_ctors ind !! k = Some cd ->
  List.find (fun a => arm_ix a =? Z.of_nat k) arms = Some arm -> to_core (arm_rhs arm) = Some R ->
  length A = length doms -> A !! q = Some (apply (Ctor i (Z.of_nat k)) vs) ->
  length vs = length (ctor_args cd) ->
  Forall room (F :: A ++ vs) -> room R -> room E ->
  Z.of_nat (S (length A + length vs + length vs)) <= 2 ^ 27 ->
  let recs := rec_positions (ctor_args cd) i in
  exists b hs,
    red env ctx (apply F A) (inst (A ++ vs ++ hs) b)
    /\ Forall2 (red env ctx) (calls F A vs q recs) hs
    /\ inst (A ++ vs ++ calls F A vs q recs) b = inst (F :: A ++ vs) R.
Proof.
  intros HF Hp HFE Hocc Hi Hid Hcd Harm HR HlA HAq Hlv Hroom HrR HrE Hlen recs.
  destruct (lower_fix_shape _ _ _ _ _ _ _ _ _ _ _ HF Hp) as (ind' & minors & [Hq Hi' Hpar Hidx HFt Hms]).
  rewrite Hi in Hi'. injection Hi' as <-.
  assert (E = apply (App (Elim i) motive) minors) as HE.
  { rewrite HFE in HFt. apply lams_inj in HFt. by injection HFt. }
  apply Forall_cons in Hroom as [HrF HrAv]. pose proof HrAv as [HrA Hrv]%Forall_app.
  destruct (Forall2_lookup_l _ _ _ k k Hms) as (mn & Hmn & arm' & Harm' & Hlow).
  { apply lookup_seq. split; [lia|]. by eapply lookup_lt_Some. }
  rewrite Harm in Harm'. injection Harm' as <-. apply List.find_some in Harm as [_ Hix%Z.eqb_eq].
  destruct (lower_minor_fix _ _ _ _ _ _ _ _ Hlow Hix Hcd) as (b & ihs & -> & Hihs & Hb).
  rewrite Hid in Hihs, Hb. fold recs in Hihs, Hb. rewrite <- HlA, <- Hlv in Hb.
  pose proof (rec_positions_lt (ctor_args cd) i) as Hrecs. fold recs in Hrecs. rewrite <- Hlv in Hrecs.
  assert (length recs <= length vs)%nat as Hrl.
  { unfold recs, rec_positions. rewrite length_fmap, Hlv, <- (length_imap pair (ctor_args cd)). apply length_filter. }
  assert (inst A E = apply (Elim i) (inst A motive :: (inst_at 0 A <$> minors))) as HM
    by (rewrite HE; apply inst_elim).
  destruct (inst_at_lams A (ctor_args cd ++ ihs) 0 b) as (doms' & Hld & Emn).
  exists b, ((fun p => App (inst A E) (nth p vs (Sort 0))) <$> recs). split; [|split].
  - rewrite HFE. eapply red_trans; [apply (unfold_args _ _ _ _ _ _ _ HlA HAq HrA); lia|].
    rewrite HM. eapply red_step.
    { apply (iota_simple env ctx i ind k cd vs _ (inst A (lams (ctor_args cd ++ ihs) b)) Hi Hpar Hidx Hcd Hlv).
      - cbn [length]. rewrite length_fmap, <- (Forall2_length _ _ _ Hms), length_seq. done.
      - change ((inst_at 0 A <$> minors) !! k = Some (inst A (lams (ctor_args cd ++ ihs) b))).
        by rewrite list_lookup_fmap, Hmn. }
    fold recs. rewrite Emn, inst_at_app. rewrite <- HM. set (hs := _ <$> recs).
    assert (length (vs ++ hs) = length (ctor_args cd ++ ihs)) as Hlh
      by (unfold hs; rewrite !length_app, length_fmap, Hihs, Hlv; done).
    rewrite Hlh. pose proof (beta_lams env ctx (vs ++ hs) doms'
      (inst_at (0 + Z.of_nat (length (ctor_args cd ++ ihs))) A b) []) as H.
    rewrite app_nil_r in H. apply H. by rewrite Hld.
  - unfold calls. rewrite Forall2_fmap. apply Forall_Forall2_diag, Forall_forall. intros p Hpin.
    rewrite Forall_forall in Hrecs. pose proof (Hrecs p Hpin) as Hpl.
    destruct (field_room vs Hrv p Hpl) as [Hvp Hrp].
    rewrite <- (inst_at_unused E 0 A q (nth p vs (Sort 0)));
      [|rewrite HlA, Z.add_0_l; done|by rewrite HlA|done|done|done|destruct HrE; lia].
    rewrite HFE. apply unfold_args; [by rewrite length_insert|by apply list_lookup_insert_eq; rewrite HlA|
      by apply Forall_insert|rewrite length_insert; lia].
  - destruct HrR as [HsR HbR].
    eapply (lower_rhs_inst F A vs q recs HrF HrA Hrv Hrecs); [lia|exact Hb|exact HR|lia|lia|].
    by rewrite Z.add_0_r.
Qed.

Lemma fix_unfolds_witness :
  lower 20 env_nat plus_src = Ok plus_core
  /\ exists b hs, red env_nat [] (apply plus_core [succ_ zero_; zero_]) (inst ([succ_ zero_; zero_] ++ [zero_] ++ hs) b)
    /\ Forall2 (red env_nat []) [apply plus_core [zero_; zero_]] hs.
Proof.
  assert (lower 20 env_nat plus_src = Ok plus_core) as HF by (vm_compute; reflexivity).
  split; [exact HF|].
  destruct (fix_unfolds env_nat 19 0 1 [] (Pi nat_ (Pi nat_ nat_))
    (SLam nat_ (SLam nat_ (SMatch (mk_match (SVar 1) 0 nat_motive plus_arms)))) [nat_; nat_] (SVar 1) 0 nat_motive plus_arms
    nat_decl (mk_ctor 1 [Ind 0] []) (mk_arm 1 [nat_] (SApp (SCore (Ctor 0 1)) (SApp (SApp (SVar 3) (SVar 0)) (SVar 1))))
    (succ_ (apply (Var 3) [Var 0; Var 1])) plus_body plus_core [succ_ zero_; zero_] [zero_])
    as (b & hs & H1 & H2 & _);
    [exact HF|reflexivity|reflexivity|reflexivity|vm_compute; reflexivity|reflexivity|reflexivity|reflexivity
    |reflexivity|reflexivity|reflexivity|reflexivity| | | | |].
  - repeat constructor; cbn; lia.
  - repeat constructor; cbn; lia.
  - repeat constructor; cbn; lia.
  - cbn. lia.
  - exists b, hs. split; [exact H1|exact H2].
Defined.

(** The translation ends.  With fuel for the nodes of the term, [lower]
    returns a term or one of its errors: it neither panics nor runs out of
    fuel. *)
Theorem lower_total (env : GlobalEnv) (src : SrcTm) : settled (fun _ => True) (lower (src_size src) env src).
Proof. by apply lower_fine. Qed.

(** The hypothesis on the decreasing argument is needed.  The translation of
    [sum] has the type of [sum], and the sum of the numbers up to two is four. *)
Theorem sum_wrong : exists F, lower 20 env_nat sum_src = Ok F
  /\ check env_nat 100 [] F (Pi nat_ nat_) = Ok tt
  /\ nf_tm env_nat 200 [] (App F (numeral 2)) = Ok (numeral 4).
Proof.
  destruct (lower 20 env_nat sum_src) as [F| | |] eqn:E; vm_compute in E; try discriminate.
  injection E as <-. eexists. split; [reflexivity|]. split; vm_compute; reflexivity.
Qed.

(** The hypothesis of a recursive field is bound at the type of the field, not
    of the motive: the kernel refuses the match. *)
Theorem hypothesis_mistyped : exists F, lower 20 env_bool is_zero_src = Ok F /\ infer env_bool 100 [] F = Err Mismatch.
Proof.
  destruct (lower 20 env_bool is_zero_src) as [F| | |] eqn:E; vm_compute in E; try discriminate.
  injection E as <-. eexists. split; [reflexivity|]. vm_compute. reflexivity.
Qed.

(** The motive is not lowered over the binder of the fixpoint, which is
    dropped: the translation of a closed term is open. *)
Theorem motive_not_lowered : exists F, lower 20 env_nat open_motive_src = Ok F /\ is_open F 0 = true.
Proof.
  destruct (lower 20 env_nat open_motive_src) as [F| | |] eqn:E; vm_compute in E; try discriminate.
  injection E as <-. eexists. split; [reflexivity|]. vm_compute. reflexivity.
Qed.
