(* ===== verification/Parallel.v ===== *)
(** * The batch reducers ([crates/dnx-core/src/reduce/parallel.rs], [gpu.rs])

    Phase 1 takes the whole frontier as one batch.  Each pair is fired by a
    worker that only reads the arena as it was before the batch and records
    what it would do in a [WorkerOutput]; the coordinator then applies the
    outputs in order.  Workers share nothing, so a batch is a map over the
    pairs, whatever the number of threads.  The GPU variant has the same
    coordinator and takes the outputs from a function. *)
From S2P Require Import Prelude Bytes Error LOPath Port Arena Net Rules.

Definition MAX_NEW : Z := 4.

Record WorkerOutput : Type := mk_out {
  new_agents : list Slot;
  retired : list Z;
  slot_muts : list (Z * Slot);
  connects : list (PortId * PortId * LOPath);
  set_erasers : list PortId;
  link_direct : option (PortId * PortId)
}.

Definition out_new : WorkerOutput := mk_out [] [] [] [] [] None.

Definition out_alloc (out : WorkerOutput) (base tag data delta0 delta1 : Z) : AgentPorts * WorkerOutput :=
  let idx := base + Z.of_nat (length (new_agents out)) in
  (mk_ports (port_new idx Principal 0) (port_new idx Aux0 0) (port_new idx Aux1 0),
   mk_out (new_agents out ++ [set_label data delta0 delta1 (set_tag tag EMPTY)])
     (retired out) (slot_muts out) (connects out) (set_erasers out) (link_direct out)).

Definition out_retire (idx : Z) (out : WorkerOutput) : WorkerOutput :=
  mk_out (new_agents out) (retired out ++ [idx]) (slot_muts out) (connects out) (set_erasers out) (link_direct out).

Definition out_connect (a b : PortId) (lo : LOPath) (out : WorkerOutput) : WorkerOutput :=
  mk_out (new_agents out) (retired out) (slot_muts out) (connects out ++ [(a, b, lo)]) (set_erasers out) (link_direct out).

Definition out_era (p : PortId) (out : WorkerOutput) : WorkerOutput :=
  mk_out (new_agents out) (retired out) (slot_muts out) (connects out) (set_erasers out ++ [p]) (link_direct out).

Definition out_mut (idx : Z) (s : Slot) (out : WorkerOutput) : WorkerOutput :=
  mk_out (new_agents out) (retired out) (slot_muts out ++ [(idx, s)]) (connects out) (set_erasers out) (link_direct out).

Definition out_link (a b : PortId) (out : WorkerOutput) : WorkerOutput :=
  mk_out (new_agents out) (retired out) (slot_muts out) (connects out) (set_erasers out) (Some (a, b)).

(** ** The coordinator's side *)

Definition apply_output (n : Net) (out : WorkerOutput) (base : Z) : res DnxError Net :=
  n ← foldM (fun n js => a ← commit_slot (arena n) (base + Z.of_nat js.1) js.2; Ok (set_arena a n))
        (imap pair (new_agents out)) n;
  n ← foldM (fun n m => a ← slot_set (arena n) m.1 m.2; Ok (set_arena a n)) (slot_muts out) n;
  n ← foldM (fun n p => set_eraser_on_port n p) (set_erasers out) n;
  n ← match link_direct out with Some (a, b) => link_no_pair n a b | None => Ok n end;
  n ← foldM (fun n c => connect n c.1.1 c.1.2 c.2) (connects out) n;
  foldM (fun n idx => retire n idx) (retired out) n.

(** ** The workers' side *)

Definition local_live (a : Arena) (out : WorkerOutput) (p : PortId) : bool :=
  is_eraser p || (is_live a (slot_idx p) && negb (bool_decide (slot_idx p ∈ retired out))).

Section Worker.
Context {C : CRules} (a : Arena).

Definition c3_par (rep_p : PortId) (lo : LOPath) (out : WorkerOutput) : res DnxError WorkerOutput :=
  if negb (local_live a out rep_p) then Ok out
  else
    rep ← slot a (slot_idx rep_p);
    if negb (rep_is_unpaired rep) then Ok out
    else
      let ext := principal rep in
      Ok (match rep_aux0_erased rep, rep_aux1_erased rep with
          | true, true => out_connect ERA ext lo (out_retire (slot_idx rep_p) (out_era ext out))
          | true, false =>
              if delta1 rep =? 0 then out_connect ext (aux1 rep) lo (out_retire (slot_idx rep_p) out) else out
          | false, true =>
              if delta0 rep =? 0 then out_connect ext (aux0 rep) lo (out_retire (slot_idx rep_p) out) else out
          | false, false => out
          end).

Definition c2_par (rep_a : PortId) (lo : LOPath) (out : WorkerOutput) : res DnxError WorkerOutput :=
  if negb (local_live a out rep_a) then Ok out
  else
    s ← slot a (slot_idx rep_a);
    m ← c2_gate_and_shift s (fun p => slot a (slot_idx p));
    Ok (match m with
        | Some m => out_connect (rep_b m) (c2_ext m) lo
                      (out_retire (slot_idx rep_a) (out_mut (slot_idx (rep_b m)) (b_shifted m) out))
        | None => out
        end).

(** [if cond { f(out)?; } if !live(out) { return Ok(()) } k(out)]. *)
Definition par_guarded (cond : bool) (f : WorkerOutput -> res DnxError WorkerOutput)
    (live : WorkerOutput -> bool) (out : WorkerOutput)
    (k : WorkerOutput -> res DnxError WorkerOutput) : res DnxError WorkerOutput :=
  out ← (if cond then f out else Ok out);
  if live out then k out else Ok out.

(** R2 and R3: erasers take the place of the agent. *)
Definition erase_par (p : PortId) (s : Slot) (lo : LOPath) (out : WorkerOutput) : res DnxError WorkerOutput :=
  let out := out_era (aux1 s) (out_era (aux0 s) (out_retire (slot_idx p) out)) in
  l ← extend_left lo;
  let out := out_connect ERA (aux0 s) l out in
  r ← extend_right lo;
  Ok (out_connect ERA (aux1 s) r out).

Definition r4_par (p0 p1 : PortId) (s0 : Slot) (lo : LOPath) (out : WorkerOutput) : res DnxError WorkerOutput :=
  let '(abs_p, app_p) := if fan_is_abs s0 then (p0, p1) else (p1, p0) in
  abs ← slot a (slot_idx abs_p);
  app ← slot a (slot_idx app_p);
  let out := out_retire (slot_idx app_p) (out_retire (slot_idx abs_p) out) in
  if (slot_idx (aux0 abs) =? slot_idx abs_p) && (slot_idx (aux1 abs) =? slot_idx abs_p)
  then Ok (out_link (aux0 app) (aux1 app) out)
  else
    l ← extend_left lo;
    let out := out_connect (aux0 abs) (aux0 app) l out in
    r ← extend_right lo;
    Ok (out_connect (aux1 abs) (aux1 app) r out).

Definition r5_arena (fan_p rep_p : PortId) (lo : LOPath) (base : Z) (out : WorkerOutput)
    : res DnxError WorkerOutput :=
  fan ← slot a (slot_idx fan_p);
  rep ← slot a (slot_idx rep_p);
  let is_abs := fan_is_abs fan in
  let fan_tag := if is_abs then TAG_FAN_ABS else TAG_FAN_APP in
  let '(ra_tag, rb_tag) :=
    if is_abs then (TAG_REP_IN_UNKNOWN, TAG_REP_OUT_UNKNOWN) else (TAG_REP_OUT_UNKNOWN, TAG_REP_IN_UNKNOWN) in
  let '(f0, out) := out_alloc out base fan_tag 0 0 0 in
  let '(f1, out) := out_alloc out base fan_tag 0 0 0 in
  let '(ra, out) := out_alloc out base ra_tag (data rep) (delta0 rep) (delta1 rep) in
  let '(rb, out) := out_alloc out base rb_tag (data rep) (delta0 rep) (delta1 rep) in
  let out := out_retire (slot_idx rep_p) (out_retire (slot_idx fan_p) out) in
  l ← extend_left lo;
  lo_00 ← extend_left l;
  lo_01 ← extend_right l;
  r ← extend_right lo;
  '(ra_lo, rb_lo) ← (if is_abs then x ← extend_left r; y ← extend_right r; Ok (x, y)
                     else x ← extend_right r; y ← extend_left r; Ok (x, y));
  let out := out_connect (ag_aux0 f0) (ag_aux0 ra) lo out in
  let out := out_connect (ag_aux1 f0) (ag_aux0 rb) lo out in
  let out := out_connect (ag_aux0 f1) (ag_aux1 ra) lo out in
  let out := out_connect (ag_aux1 f1) (ag_aux1 rb) lo out in
  let out := out_connect (ag_principal f0) (aux0 rep) lo_00 out in
  let out := out_connect (ag_principal f1) (aux1 rep) lo_01 out in
  let out := out_connect (ag_principal ra) (aux0 fan) ra_lo out in
  Ok (out_connect (ag_principal rb) (aux1 fan) rb_lo out).

Definition fan_rep_par (fan rep : PortId) (lo : LOPath) (base : Z) (out : WorkerOutput)
    : res DnxError WorkerOutput :=
  par_guarded HAS_ERA (c3_par rep lo) (fun out => local_live a out rep) out (fun out =>
  par_guarded HAS_REP (c2_par rep lo) (fun out => local_live a out rep) out (fun out =>
  r5_arena fan rep lo base out)).

Definition r6_par (p0 p1 : PortId) (s0 s1 : Slot) (lo : LOPath) (out : WorkerOutput) : res DnxError WorkerOutput :=
  let out := out_retire (slot_idx p1) (out_retire (slot_idx p0) out) in
  l ← extend_left lo;
  let out := out_connect (aux0 s0) (aux0 s1) l out in
  r ← extend_right lo;
  Ok (out_connect (aux1 s0) (aux1 s1) r out).

Definition r7_par (p0 p1 : PortId) (s0 s1 : Slot) (lo : LOPath) (base : Z) (out : WorkerOutput)
    : res DnxError WorkerOutput :=
  let '(hi_p, hi, lo_p, low) := if data s0 >? data s1 then (p0, s0, p1, s1) else (p1, s1, p0, s0) in
  let hi_tag := Z.land (tag hi) 15 in
  let lo_tag := Z.land (tag low) 15 in
  lv0 ← add_level (data hi) (delta0 low);
  let '(hc0, out) := out_alloc out base hi_tag lv0 (delta0 hi) (delta1 hi) in
  lv1 ← add_level (data hi) (delta1 low);
  let '(hc1, out) := out_alloc out base hi_tag lv1 (delta0 hi) (delta1 hi) in
  let '(lc0, out) := out_alloc out base lo_tag (data low) (delta0 low) (delta1 low) in
  let '(lc1, out) := out_alloc out base lo_tag (data low) (delta0 low) (delta1 low) in
  let out := out_retire (slot_idx lo_p) (out_retire (slot_idx hi_p) out) in
  let out := out_connect (ag_aux0 hc0) (ag_aux0 lc0) lo out in
  let out := out_connect (ag_aux1 hc0) (ag_aux0 lc1) lo out in
  let out := out_connect (ag_aux0 hc1) (ag_aux1 lc0) lo out in
  let out := out_connect (ag_aux1 hc1) (ag_aux1 lc1) lo out in
  l ← extend_left lo;
  lo_00 ← extend_left l;
  let out := out_connect (ag_principal hc0) (aux0 low) lo_00 out in
  lo_01 ← extend_right l;
  let out := out_connect (ag_principal hc1) (aux1 low) lo_01 out in
  r ← extend_right lo;
  lo_10 ← extend_left r;
  let out := out_connect (ag_principal lc0) (aux0 hi) lo_10 out in
  lo_11 ← extend_right r;
  Ok (out_connect (ag_principal lc1) (aux1 hi) lo_11 out).

Definition rep_rep_par (p0 p1 : PortId) (lo : LOPath) (base : Z) (out : WorkerOutput)
    : res DnxError WorkerOutput :=
  let both out := local_live a out p0 && local_live a out p1 in
  par_guarded HAS_ERA (fun out => out ← c3_par p0 lo out; c3_par p1 lo out) both out (fun out =>
  par_guarded HAS_REP (fun out => out ← c2_par p0 lo out; c2_par p1 lo out) both out (fun out =>
  ss0 ← slot a (slot_idx p0);
  ss1 ← slot a (slot_idx p1);
  if (data ss0 =? data ss1) && (delta0 ss0 =? delta0 ss1) && (delta1 ss0 =? delta1 ss1)
  then r6_par p0 p1 ss0 ss1 lo out
  else r7_par p0 p1 ss0 ss1 lo base out)).

Definition fire_rule_parallel_arena (ap : ActivePair) (base : Z) (out : WorkerOutput)
    : res DnxError WorkerOutput :=
  let p0 := p0 ap in
  let p1 := p1 ap in
  let lo := pair_lo ap in
  match is_eraser p0, is_eraser p1 with
  | true, true => Ok out
  | false, false =>
      s0 ← slot a (slot_idx p0);
      s1 ← slot a (slot_idx p1);
      match is_fan s0, is_fan s1, is_rep s0, is_rep s1 with
      | true, true, _, _ => r4_par p0 p1 s0 lo out
      | true, _, _, true => fan_rep_par p0 p1 lo base out
      | _, true, true, _ => fan_rep_par p1 p0 lo base out
      | _, _, true, true => rep_rep_par p0 p1 lo base out
      | _, _, _, _ => Err ReadbackIncomplete
      end
  | e0, _ =>
      let live_p := if e0 then p1 else p0 in
      s ← slot a (slot_idx live_p);
      if is_fan s then erase_par live_p s lo out
      else
        par_guarded HAS_ERA (c3_par live_p lo) (fun out => local_live a out live_p) out (fun out =>
        par_guarded HAS_REP (c2_par live_p lo) (fun out => local_live a out live_p) out (fun out =>
        s ← slot a (slot_idx live_p);
        erase_par live_p s lo out))
  end.

(** One worker: a pair with a dead end is skipped; generations are not
    compared. *)
Definition worker (ap : ActivePair) (base : Z) : res DnxError WorkerOutput :=
  let live p := is_eraser p || is_live a (slot_idx p) in
  if negb (live (p0 ap)) || negb (live (p1 ap)) then Ok out_new
  else fire_rule_parallel_arena ap base out_new.
End Worker.

(** ** Batches *)

Definition is_r4 (out : WorkerOutput) : bool :=
  (length (new_agents out) =? 0)%nat && (length (set_erasers out) =? 0)%nat
  && (length (retired out) =? 2)%nat
  && (((length (connects out) =? 2)%nat && match link_direct out with None => true | _ => false end)
      || ((length (connects out) =? 0)%nat && match link_direct out with Some _ => true | _ => false end)).

Definition fired (out : WorkerOutput) : bool :=
  negb (length (retired out) =? 0)%nat || negb (length (connects out) =? 0)%nat
  || match link_direct out with Some _ => true | None => false end.

Definition count_output (r4 : bool) (out : WorkerOutput) (st : ReduceStats) : ReduceStats :=
  let st := if r4 then bump_r4 st else st in
  if fired out then mk_stats (interactions st + 1) (r4_count st) else st.

Definition reserve_all (n : Net) (k : nat) : res DnxError (list Z * Net) :=
  foldM (fun bn _ => '(base, a) ← reserve (arena bn.2) MAX_NEW; Ok (bn.1 ++ [base], set_arena a bn.2))
    (seq 0 k) ([], n).

(** [pool.install]: every worker runs, and a panic of one is a panic of all. *)
Definition install (outs : list (res DnxError WorkerOutput)) : res DnxError (list (res DnxError WorkerOutput)) :=
  if existsb (fun o => match o with Panic => true | _ => false end) outs then Panic else Ok outs.

Section Batches.
Context {C : CRules}.

Definition commit_output (st : Net * ReduceStats) (bo : Z * res DnxError WorkerOutput)
    : res DnxError (Net * ReduceStats) :=
  out ← bo.2;
  n ← apply_output st.1 out bo.1;
  Ok (set_arena (release_reserved (arena n) bo.1 (Z.of_nat (length (new_agents out))) MAX_NEW) n,
      count_output (is_r4 out) out st.2).

Definition run_batch (n : Net) (st : ReduceStats) : res DnxError (Net * ReduceStats) :=
  let batch := snd <$> frontier1 n in
  '(bases, n) ← reserve_all (set_frontier1 [] n) (length batch);
  outs ← install (zip_with (fun ap base => worker (arena n) ap base) batch bases);
  foldM commit_output (zip bases outs) (n, st).

Fixpoint drain_batches (fuel : nat) (n : Net) (st : ReduceStats) : res DnxError (Net * ReduceStats) :=
  match fuel with
  | O => Fuel
  | S fuel =>
      match frontier1 n with
      | [] => Ok (n, st)
      | _ => '(n, st) ← run_batch n st; drain_batches fuel n st
      end
  end.

(** Phase 2: every candidate, each rule only if the candidate is still live. *)
Definition fresh_c4 (cand : C4Candidate) (f : Net -> res DnxError Net) (n : Net) : res DnxError Net :=
  stale ← is_stale_c4 cand n; if (stale : bool) then Ok n else f n.

Fixpoint drain_candidates (fuel : nat) (n : Net) : res DnxError Net :=
  match fuel with
  | O => Fuel
  | S fuel =>
      match bt_pop_first (frontier2 n) with
      | None => Ok n
      | Some ((_, cand), f2) =>
          let n := set_frontier2 f2 n in
          n ← fresh_c4 cand (fun n =>
                n ← (if HAS_ERA then c3 n (rep_principal cand) (cand_lo cand) else Ok n);
                n ← fresh_c4 cand (fun n => c2 n (rep_principal cand) (cand_lo cand)) n;
                fresh_c4 cand (fun n => c4 n cand) n) n;
          drain_candidates fuel n
      end
  end.

Definition finish_batches (fuel : nat) (n : Net) : res DnxError CanonicalNet :=
  n ← (if HAS_REP then drain_candidates fuel n else Ok n);
  n ← (if net_pending_c1 n then c1 n else Ok n);
  _ ← certify_canonical n;
  Ok (into_canonical n).

(** The number of threads does not change the result. *)
Definition normalize_parallel (fuel : nat) (n : Net) (num_threads : nat) : res DnxError (CanonicalNet * ReduceStats) :=
  '(n, st) ← drain_batches fuel n stats_default;
  c ← finish_batches fuel n;
  Ok (c, st).
End Batches.

(** ** The batches of the GPU *)

Section Gpu.
Context {C : CRules}.
(** The kernel: the pairs, the words of the arena and the reserved slots. *)
Context (batch_fn : list (PortId * PortId * LOPath) -> list Z -> list Z -> res DnxError (list WorkerOutput)).

(** The kernel has no merges: a [GpuOutput] is a [WorkerOutput] without slot
    changes, and its test for R4 does not look at both outcomes of the rule. *)
Definition gpu_is_r4 (out : WorkerOutput) : bool :=
  (length (retired out) =? 2)%nat && (length (new_agents out) =? 0)%nat && (length (set_erasers out) =? 0)%nat
  && ((length (connects out) =? 2)%nat || match link_direct out with Some _ => true | None => false end).

Definition gpu_commit (st : Net * ReduceStats) (bo : Z * WorkerOutput) : res DnxError (Net * ReduceStats) :=
  let out := bo.2 in
  n ← apply_output st.1 (mk_out (new_agents out) (retired out) [] (connects out) (set_erasers out) (link_direct out)) bo.1;
  Ok (set_arena (release_reserved (arena n) bo.1 (Z.of_nat (length (new_agents out))) MAX_NEW) n,
      count_output (gpu_is_r4 out) out st.2).

Fixpoint gpu_batches (fuel : nat) (n : Net) (st : ReduceStats) : res DnxError (Net * ReduceStats) :=
  match fuel with
  | O => Fuel
  | S fuel =>
      match frontier1 n with
      | [] => Ok (n, st)
      | batch =>
          '(bases, n) ← reserve_all (set_frontier1 [] n) (length batch);
          outs ← batch_fn ((fun kp => (p0 kp.2, p1 kp.2, pair_lo kp.2)) <$> batch) (encode_gpu (arena n)) bases;
          '(n, st) ← (if (length bases <? length outs)%nat then
                        _ ← foldM gpu_commit (zip bases outs) (n, st); Panic
                      else foldM gpu_commit (zip bases outs) (n, st));
          gpu_batches fuel n st
      end
  end.

Definition normalize_gpu_batched (fuel : nat) (n : Net) : res DnxError (CanonicalNet * ReduceStats) :=
  '(n, st) ← gpu_batches fuel n stats_default;
  c ← finish_batches fuel n;
  Ok (c, st).
End Gpu.
