(* ===== verification/ParallelSpec.v ===== *)
(** * When a batch is safe

    A batch of beta redexes none of whose agents is wired to another redex of
    the batch is rewired exactly as by firing them one by one.  The frontier
    of a net is not always of that kind: two redexes of a program may be
    neighbours, and then the batch reducer loses wires ([neighbours_broken]). *)
From S2P Require Import Prelude Bytes Error LOPath Port Arena Net Wiring Examples Rules RuleSpecs Parallel.

(** ** Specification *)

(** A redex of the batch: its abstraction and application, with their slots. *)
Notation redex_view := (PortId * PortId * Slot * Slot)%type (only parsing).

Definition dead_of (rs : list redex_view) : list Z :=
  concat ((fun r => [slot_idx r.1.1.1; slot_idx r.1.1.2]) <$> rs).

Definition wires_of (rs : list redex_view) : list (PortId * PortId) :=
  concat ((fun r => [(aux0 r.1.2, aux0 r.2); (aux1 r.1.2, aux1 r.2)]) <$> rs).

(** [kv] is an entry of the frontier for the beta redex [r], and the other
    ports of its agents lead to no agent of [dead]. *)
Record beta_pair (n : Net) (dead : list Z) (kv : LOPath * ActivePair) (r : redex_view) : Prop := mk_beta {
  bp_active : active n r.1.1.1 r.1.1.2 r.1.2 r.2;
  bp_abs : is_fan r.1.2 = true /\ fan_is_abs r.1.2 = true;
  bp_app : is_fan r.2 = true /\ fan_is_abs r.2 = false;
  bp_ext0 : external Principal dead r.1.2;
  bp_ext1 : external Principal dead r.2;
  bp_ports : (p0 kv.2 = r.1.1.1 /\ p1 kv.2 = r.1.1.2) \/ (p0 kv.2 = r.1.1.2 /\ p1 kv.2 = r.1.1.1);
  bp_path : lopath_wf (pair_lo kv.2) /\ depth (pair_lo kv.2) < 512
}.

(** * Lemmas *)

Lemma dead_of_cons r rs : dead_of (r :: rs) = [slot_idx r.1.1.1; slot_idx r.1.1.2] ++ dead_of rs.
Proof. done. Qed.

Lemma wires_of_cons r rs : wires_of (r :: rs) = [(aux0 r.1.2, aux0 r.2); (aux1 r.1.2, aux1 r.2)] ++ wires_of rs.
Proof. done. Qed.

Lemma elem_of_flat {A B} (f : A -> list B) l x : x ∈ concat (f <$> l) <-> exists r, r ∈ l /\ x ∈ f r.
Proof.
  induction l as [|r l IH]; cbn.
  - split; [by intros ?%not_elem_of_nil|by intros (? & ?%not_elem_of_nil & _)].
  - rewrite elem_of_app, IH. split.
    + intros [?|(r' & ? & ?)]; [exists r; split; [left|done]|exists r'; split; [by right|done]].
    + intros (r' & [-> |?]%elem_of_cons & ?); [by left|right; eauto].
Qed.

Lemma elem_of_dead rs d : d ∈ dead_of rs <-> exists r, r ∈ rs /\ (d = slot_idx r.1.1.1 \/ d = slot_idx r.1.1.2).
Proof. unfold dead_of. rewrite elem_of_flat. set_solver. Qed.

Lemma elem_of_wires rs w : w ∈ wires_of rs <-> exists r, r ∈ rs
  /\ (w = (aux0 r.1.2, aux0 r.2) \/ w = (aux1 r.1.2, aux1 r.2)).
Proof. unfold wires_of. rewrite elem_of_flat. set_solver. Qed.

Lemma elem_of_ends ws p q : (p, q) ∈ ends ws <-> (p, q) ∈ ws \/ (q, p) ∈ ws.
Proof.
  induction ws as [|[a b] ws IH]; [set_solver|]. rewrite ends_cons, !elem_of_cons, IH. cbn [fst snd].
  split; [intros [[= -> ->]|[[= -> ->]|[?|?]]]|intros [[[= -> ->]|?]|[[= -> ->]|?]]]; auto.
Qed.

(** ** Reservation *)

(** The net with [k] empty slots at the end of its arena. *)
Definition reserved (n : Net) (k : nat) : Net :=
  let a := arena n in
  set_arena (mk_arena (slots a ++ replicate k EMPTY) (free a) (live_list a) (live_pos a) (cap a)) n.

Definition reserved_bases (n : Net) (k : nat) : list Z :=
  (fun j => Z.of_nat (length (slots (arena n)) + 4 * j)) <$> seq 0 k.

Lemma reserve_more n j : arena_wf (arena n) -> Z.of_nat (length (slots (arena n)) + j) + 4 <= cap (arena n) ->
  reserve (arena (reserved n j)) MAX_NEW
  = Ok (Z.of_nat (length (slots (arena n)) + j), arena (reserved n (j + 4))).
Proof.
  intros Hw Hc. pose proof (aw_max _ Hw). change MAX_SLOTS with (2 ^ 28) in *.
  unfold reserve. cbn [reserved arena set_arena slots cap free live_list live_pos].
  rewrite length_app, length_replicate. unfold checked_add_u32, MAX_NEW.
  set (len := Z.of_nat (length (slots (arena n)) + j)) in *.
  destruct (len + 4 <? 2 ^ 32) eqn:E1; [|lia]. cbn [ok_or mbind res_bind].
  destruct (cap (arena n) <? len + 4) eqn:E2; [lia|].
  change (replicate (Z.to_nat 4) EMPTY) with (replicate 4 EMPTY). by rewrite <- app_assoc, <- replicate_add.
Qed.

Lemma reserve_all_ok n k : arena_wf (arena n) ->
  Z.of_nat (length (slots (arena n)) + 4 * k) <= cap (arena n) ->
  reserve_all n k = Ok (reserved_bases n k, reserved n (4 * k)).
Proof.
  intros Hw. unfold reserve_all. induction k as [|k IH]; intros Hc.
  - unfold reserved_bases, reserved. cbn. rewrite app_nil_r. by destruct n as [[]].
  - rewrite seq_S, foldM_app, IH by lia. cbn [mbind res_bind foldM fst snd].
    rewrite reserve_more by (done || lia). cbn [mbind res_bind].
    replace (4 * k + 4)%nat with (4 * S k)%nat by lia. unfold reserved_bases. rewrite seq_S, fmap_app. done.
Qed.

Lemma reserved_slot n k i s : slot_at n i = Some s -> slot_at (reserved n k) i = Some s.
Proof.
  unfold slot_at. destruct (i <? 0); [done|]. cbn. intros H. by apply lookup_app_l_Some.
Qed.

Lemma reserved_alive_slot n k i : net_inv n -> alive n i -> slot_at (reserved n k) i = slot_at n i.
Proof. intros Hn Hi. destruct (alive_slot n i (ni_arena n Hn) Hi) as [s Hs]. by rewrite Hs, (reserved_slot n k i s). Qed.

Lemma reserved_current n k p : current n p -> current (reserved n k) p.
Proof. intros (s & Ha & Hs & Hp). exists s. split; [done|]. split; [by apply reserved_slot|done]. Qed.

Lemma reserved_inv n k : net_inv n -> Z.of_nat (length (slots (arena n)) + k) <= cap (arena n) ->
  net_inv (reserved n k).
Proof.
  intros Hn Hc. split.
  - destruct (ni_arena n Hn) as [Hinv Hnd Hr Hs _ Hm].
    split; cbn; rewrite ?length_app, ?length_replicate; try done; try lia.
    eapply Forall_impl; [exact Hr|]. cbn. intros; lia.
  - intros i kd s Ha Hs Hr. change (alive n i) in Ha. rewrite reserved_alive_slot in Hs by done.
    destruct (ni_sym n Hn i kd s Ha Hs Hr) as [Hcur Hp]. split; [by apply reserved_current|].
    unfold port_at in *. cbn [key fst] in *.
    destruct (slot_at n (slot_idx (port_raw s kd))) as [s'|] eqn:E; [|done].
    by rewrite (reserved_slot n k _ s' E).
Qed.

Lemma reserved_active n k p0 p1 s0 s1 : active n p0 p1 s0 s1 -> active (reserved n k) p0 p1 s0 s1.
Proof. intros []. split; auto using reserved_current, reserved_slot. Qed.

(** ** Workers *)

Lemma is_live_alive n i : net_inv n -> alive n i -> is_live (arena n) i = true.
Proof. intros Hn Hi. by apply is_live_elem; [apply Hn|]. Qed.

Lemma worker_beta `{C : CRules} n dead kv r base : net_inv n -> beta_pair n dead kv r ->
  slot_idx r.1.1.1 ∈ dead ->
  exists l l', worker (arena n) kv.2 base
  = Ok (mk_out [] [slot_idx r.1.1.1; slot_idx r.1.1.2] []
          [(aux0 r.1.2, aux0 r.2, l); (aux1 r.1.2, aux1 r.2, l')] [] None).
Proof.
  destruct r as [[[abs_p app_p] abs] app], kv as [key [q0 q1 lo]].
  intros Hn [Hact [Hf0 Hb0] [Hf1 Hb1] He0 He1 Hports [Hwf Hd]] Hin. cbn [fst snd Net.p0 Net.p1 pair_lo] in *.
  destruct Hact as [Hc0 Hc1 Hk0 Hk1 Hne Hs0 Hs1 Hr0 Hr1].
  assert (forall p s, current n p -> slot_at n (slot_idx p) = Some s ->
    is_eraser p = false /\ is_live (arena n) (slot_idx p) = true /\ slot (arena n) (slot_idx p) = Ok s) as Hport.
  { intros p s (s' & Ha & Hs' & Hp) Hs. split; [|split].
    - rewrite Hp. apply is_eraser_new; [|apply land_1_bit]. exact (proj1 (alive_idx n _ (ni_arena n Hn) Ha)).
    - by apply is_live_alive.
    - by apply (net_slot_at n p). }
  destruct (Hport _ _ Hc0 Hs0) as (E0 & L0 & S0), (Hport _ _ Hc1 Hs1) as (E1 & L1 & S1).
  destruct (extend_left_room lo Hwf Hd) as (l & El & _), (extend_right_room lo Hwf Hd) as (l' & Er & _).
  exists l, l'. unfold worker, fire_rule_parallel_arena.
  assert ((slot_idx (aux0 abs) =? slot_idx abs_p) = false) as Hself.
  { apply Z.eqb_neq. intros E. apply (He0 Aux0); [done|]. cbn. by rewrite E. }
  destruct Hports as [[-> ->]|[-> ->]]; cbn [Net.p0 Net.p1 pair_lo];
    rewrite E0, E1, L0, L1; cbn [orb negb]; rewrite ?S0, ?S1; cbn [mbind res_bind];
    rewrite ?S0, ?S1; cbn [mbind res_bind]; rewrite Hf0, Hf1; unfold r4_par; rewrite ?Hb0, ?Hb1;
    rewrite S0; cbn [mbind res_bind]; rewrite S1; cbn [mbind res_bind]; rewrite Hself; cbn [andb];
    rewrite El; cbn [mbind res_bind]; rewrite Er; done.
Qed.

(** ** Commits *)

Lemma write_port_free n p q n' : write_port n p q = Ok n' -> free (arena n') = free (arena n).
Proof.
  unfold write_port. destruct (_ || _); [by intros [= <-]|]. destruct (net_slot n p) as [s| | |]; try done.
  cbn [mbind res_bind]. unfold net_slot_set. destruct (slot_set _ _ _) as [a| | |] eqn:E; try done.
  intros [= <-]. by apply slot_set_Ok in E as ->.
Qed.

Lemma detect_pair_arena n a b lo n' : detect_pair n a b lo = Ok n' -> arena n' = arena n.
Proof.
  unfold detect_pair, and_then.
  repeat match goal with
  | |- match ?x with _ => _ end = _ -> _ => destruct x
  | |- (if ?x then _ else _) = _ -> _ => destruct x
  | |- (_ ← ?m; _) = _ -> _ => destruct m; cbn [mbind res_bind]
  end; intros H; by inversion H.
Qed.

Lemma connect_free n a b lo n' : connect n a b lo = Ok n' -> free (arena n') = free (arena n).
Proof.
  unfold connect. destruct (write_port n a b) as [n1| | |] eqn:E1; try done. cbn [mbind res_bind].
  destruct (write_port n1 b a) as [n2| | |] eqn:E2; try done. cbn [mbind res_bind].
  intros ->%detect_pair_arena. by rewrite (write_port_free _ _ _ _ E2), (write_port_free _ _ _ _ E1).
Qed.

Lemma retire_free n i n' : arena_wf (arena n) -> alive n i -> retire n i = Ok n' ->
  free (arena n') = free (arena n) ++ [i] /\ live_list (arena n) ≡ₚ i :: live_list (arena n').
Proof.
  intros Hw Hi. unfold retire. destruct (retire_slot_ok (arena n) i Hw Hi) as (a' & -> & _ & Hl & Hf & _).
  by intros [= <-].
Qed.

Lemma evolve_perm n0 dead dead' ws n : dead ≡ₚ dead' -> evolve n0 dead ws n -> evolve n0 dead' ws n.
Proof. intros Hp []. split; try done. by rewrite <- Hp. Qed.

(** The bookkeeping of an arena uses only indices below [b]. *)
Definition below_base (n : Net) (b : Z) : Prop := Forall (fun i => i < b) (live_list (arena n) ++ free (arena n)).

Lemma evolve_release n0 dead ws n base used : evolve n0 dead ws n -> below_base n (base + used) ->
  0 <= used <= MAX_NEW -> 0 < base -> base + MAX_NEW <= Z.of_nat (length (slots (arena n0))) ->
  let n' := set_arena (release_reserved (arena n) base used MAX_NEW) n in
  evolve n0 dead ws n' /\ below_base n' (base + MAX_NEW).
Proof.
  intros He Hb Hu Hp Hlen n'. pose proof (ev_slots _ _ _ _ He) as Hsl. unfold below_base in *.
  rewrite Forall_forall in Hb. unfold MAX_NEW in *. split.
  - destruct He as [Ha Hl Hg Hpo Hs Hf]. split; try done.
    apply release_wf; [done|lia|lia|lia|]. intros j Hj Hin. specialize (Hb _ Hin). lia.
  - cbn. rewrite Forall_forall. intros i [Hi|[Hi|Hi]%elem_of_app]%elem_of_app.
    + specialize (Hb i ltac:(set_solver)). lia.
    + specialize (Hb i ltac:(set_solver)). lia.
    + apply list_elem_of_fmap in Hi as (j & -> & [_ Hj]%elem_of_seq). lia.
Qed.

Lemma commit_beta `{C : CRules} n0 n dead ws base i j a b c d l l' st : evolve n0 dead ws n ->
  port_in n0 a -> port_in n0 b -> port_in n0 c -> port_in n0 d ->
  alive n i -> alive n j -> i <> j -> below_base n base -> 0 < base ->
  base + MAX_NEW <= Z.of_nat (length (slots (arena n0))) ->
  exists n', commit_output (n, st) (base, Ok (mk_out [] [i; j] [] [(a, b, l); (c, d, l')] [] None))
      = Ok (n', mk_stats (interactions st + 1) (r4_count st + 1))
    /\ evolve n0 (j :: i :: dead) (ws ++ [(a, b); (c, d)]) n' /\ below_base n' (base + MAX_NEW).
Proof.
  intros He Ha Hb Hc Hd Hi Hj Hne Hbb Hpos Hlen. unfold commit_output, apply_output. cbn [snd fst mbind res_bind].
  cbn [new_agents retired slot_muts connects set_erasers link_direct imap foldM mbind res_bind fst snd].
  destruct (evolve_connect _ _ _ _ a b l He Ha Hb) as (n1 & E1 & He1). rewrite E1. cbn [mbind res_bind].
  destruct (evolve_connect _ _ _ _ c d l' He1 Hc Hd) as (n2 & E2 & He2). rewrite E2. cbn [mbind res_bind].
  assert (forall x, alive n2 x <-> alive n x) as Hal2.
  { intros x. pose proof (ev_live _ _ _ _ He) as P1. pose proof (ev_live _ _ _ _ He2) as P2. unfold alive.
    rewrite P1 in P2. apply Permutation_app_inv_l in P2. by rewrite P2. }
  destruct (evolve_retire _ _ _ _ i He2 ltac:(by apply Hal2)) as (n3 & E3 & He3). rewrite E3. cbn [mbind res_bind].
  destruct (retire_free n2 i n3 (ev_arena _ _ _ _ He2) ltac:(by apply Hal2) E3) as [Hf3 Hl3].
  assert (alive n3 j) as Hj3.
  { assert (j ∈ live_list (arena n2)) as H by (by apply Hal2). rewrite Hl3 in H.
    apply elem_of_cons in H as [-> |H]; done. }
  destruct (evolve_retire _ _ _ _ j He3 Hj3) as (n4 & E4 & He4). rewrite E4. cbn [mbind res_bind].
  destruct (retire_free n3 j n4 (ev_arena _ _ _ _ He3) Hj3 E4) as [Hf4 Hl4].
  assert (below_base n4 (base + 0)) as Hb4.
  { unfold below_base in *. rewrite Forall_forall in *. intros x Hx. rewrite Z.add_0_r. apply Hbb.
    assert (live_list (arena n2) ≡ₚ live_list (arena n)) as P2.
    { pose proof (ev_live _ _ _ _ He) as P1. pose proof (ev_live _ _ _ _ He2) as P2'.
      rewrite P1 in P2'. by apply Permutation_app_inv_l in P2'. }
    rewrite <- P2, Hl3, Hl4. rewrite <- (connect_free _ _ _ _ _ E1), <- (connect_free _ _ _ _ _ E2).
    rewrite Hf4, Hf3 in Hx. set_solver. }
  destruct (evolve_release n0 _ _ n4 base 0 He4 Hb4) as [He5 Hb5]; [unfold MAX_NEW; lia|done|done|].
  eexists. split; [reflexivity|]. rewrite <- app_assoc in He5. split; [exact He5|exact Hb5].
Qed.

Lemma evolve_live_step n0 d dead ws ws' n n1 : evolve n0 dead ws n -> evolve n0 (d ++ dead) ws' n1 ->
  live_list (arena n) ≡ₚ d ++ live_list (arena n1).
Proof.
  intros He He1. pose proof (ev_live _ _ _ _ He) as P1. pose proof (ev_live _ _ _ _ He1) as P2. rewrite P1 in P2.
  rewrite (Permutation_app_comm d dead), <- app_assoc in P2. by apply Permutation_app_inv_l in P2.
Qed.

Definition bases_from (b : Z) (k : nat) : list Z := (fun j => b + 4 * Z.of_nat j) <$> seq 0 k.

Lemma bases_from_S b k : bases_from b (S k) = b :: bases_from (b + 4) k.
Proof.
  unfold bases_from. cbn [seq fmap list_fmap]. f_equal; [lia|]. rewrite <- fmap_S_seq, <- list_fmap_compose.
  apply list_fmap_ext. intros i x _. cbn. lia.
Qed.

Lemma reserved_bases_from n k : reserved_bases n k = bases_from (Z.of_nat (length (slots (arena n)))) k.
Proof. unfold reserved_bases, bases_from. apply list_fmap_ext. intros i x _. lia. Qed.

Definition beta_out (r : redex_view) (out : res DnxError WorkerOutput) : Prop :=
  exists l l', out = Ok (mk_out [] [slot_idx r.1.1.1; slot_idx r.1.1.2] []
    [(aux0 r.1.2, aux0 r.2, l); (aux1 r.1.2, aux1 r.2, l')] [] None).

Definition ports_in (n : Net) (r : redex_view) : Prop :=
  forall k, port_in n (port_raw r.1.2 k) /\ port_in n (port_raw r.2 k).

Lemma commit_all `{C : CRules} n0 rs : forall outs b n dead ws st, Forall2 beta_out rs outs ->
  evolve n0 dead ws n -> Forall (ports_in n0) rs -> Forall (alive n) (dead_of rs) -> NoDup (dead_of rs) ->
  below_base n b -> 0 < b -> b + 4 * Z.of_nat (length rs) <= Z.of_nat (length (slots (arena n0))) ->
  exists n', foldM commit_output (zip (bases_from b (length rs)) outs) (n, st)
      = Ok (n', mk_stats (interactions st + Z.of_nat (length rs)) (r4_count st + Z.of_nat (length rs)))
    /\ evolve n0 (dead_of rs ++ dead) (ws ++ wires_of rs) n'.
Proof.
  induction rs as [|r rs IH]; intros outs b n dead ws st Ho He Hin Hal Hnd Hbb Hpos Hlen.
  - inversion Ho; subst. exists n. cbn. rewrite !Z.add_0_r, app_nil_r. by destruct st.
  - apply Forall2_cons_inv_l in Ho as (out & outs' & (l & l' & ->) & Ho & ->).
    cbn [length]. rewrite bases_from_S. cbn [zip zip_with foldM]. cbn [length] in Hlen.
    apply Forall_cons in Hin as [Hp Hin]. rewrite dead_of_cons in Hal, Hnd |- *.
    apply Forall_app in Hal as [Hal0 Hal]. apply Forall_cons in Hal0 as [Hi [Hj _]%Forall_cons].
    apply NoDup_app in Hnd as (Hnd0 & Hdis & Hnd).
    assert (slot_idx r.1.1.1 <> slot_idx r.1.1.2) as Hne
      by (intros E; rewrite E in Hnd0; apply NoDup_cons in Hnd0 as [H0 _]; apply H0; left).
    destruct (commit_beta n0 n dead ws b (slot_idx r.1.1.1) (slot_idx r.1.1.2) (aux0 r.1.2) (aux0 r.2)
      (aux1 r.1.2) (aux1 r.2) l l' st He (proj1 (Hp Aux0)) (proj2 (Hp Aux0)) (proj1 (Hp Aux1)) (proj2 (Hp Aux1))
      Hi Hj Hne Hbb Hpos) as (n1 & -> & He1 & Hb1); [unfold MAX_NEW; lia|]. cbn [mbind res_bind].
    destruct (IH outs' (b + 4) n1 _ _ (mk_stats (interactions st + 1) (r4_count st + 1)) Ho He1 Hin)
      as (n' & Hrun & He'); [|done|done|lia|lia|].
    + rewrite Forall_forall in Hal |- *. intros x Hx. specialize (Hal x Hx).
      pose proof (evolve_live_step n0 [slot_idx r.1.1.2; slot_idx r.1.1.1] _ _ _ _ _ He He1) as P.
      unfold alive in *. rewrite P in Hal. apply elem_of_app in Hal as [Hd|]; [|done]. exfalso.
      apply (Hdis x); [|done]. set_solver.
    + exists n'. cbn [interactions r4_count] in Hrun. split.
      * rewrite Hrun. do 3 f_equal; lia.
      * rewrite wires_of_cons, app_assoc. eapply evolve_perm; [|exact He'].
        rewrite <- app_assoc. cbn [app]. rewrite <- !Permutation_middle. apply perm_swap.
Qed.

(** The places of the redexes whose wires are replaced, and what their far
    ends receive. *)
Definition places_of (r : redex_view) : list ((Z * PortKind) * PortId) :=
  [((slot_idx r.1.1.1, Aux0), aux0 r.2); ((slot_idx r.1.1.1, Aux1), aux1 r.2);
   ((slot_idx r.1.1.2, Aux0), aux0 r.1.2); ((slot_idx r.1.1.2, Aux1), aux1 r.1.2)].

Lemma places_once rs : NoDup (dead_of rs) -> NoDup (concat (places_of <$> rs)).*1.
Proof.
  induction rs as [|r rs IH]; [constructor|]. rewrite dead_of_cons. cbn [fmap list_fmap concat].
  rewrite fmap_app, !NoDup_app. intros (Hnd0 & Hdis & Hnd). split; [|split; [|by apply IH]].
  - assert (slot_idx r.1.1.1 <> slot_idx r.1.1.2) as Hne
      by (intros E; rewrite E in Hnd0; apply NoDup_cons in Hnd0 as [H0 _]; apply H0; left).
    cbn. repeat (apply NoDup_cons; split; [set_solver|]). apply NoDup_nil_2.
  - intros x Hx (y & -> & (r' & Hr' & Hy)%elem_of_flat)%list_elem_of_fmap.
    apply (Hdis y.1.1); [|apply elem_of_dead; exists r'; split; [done|]]; cbn in *; set_solver.
Qed.

(** The wires of the redexes replace those of their agents. *)
Lemma batch_replaces n rs kvs : Forall2 (beta_pair n (dead_of rs)) kvs rs -> NoDup (dead_of rs) ->
  replaces n (dead_of rs) (concat (places_of <$> rs)) [] (wires_of rs).
Proof.
  intros Hb Hnd.
  assert (forall r, r ∈ rs -> exists kv, beta_pair n (dead_of rs) kv r) as Hr.
  { intros r [i Hi]%list_elem_of_lookup. destruct (Forall2_lookup_r _ _ _ _ _ Hb Hi) as (kv & _ & H). eauto. }
  assert (forall r k, r ∈ rs -> port_at n (slot_idx r.1.1.1, k) = Some (port_raw r.1.2 k)
    /\ port_at n (slot_idx r.1.1.2, k) = Some (port_raw r.2 k)) as Hat.
  { intros r k [kv [[] _ _ _ _ _ _]]%Hr. split; by apply port_at_slot. }
  split.
  - intros p q Hin Hreal. left. apply elem_of_ends in Hin as [(r & Hin & [[= -> ->]|[= -> ->]])%elem_of_wires
      |(r & Hin & [[= -> ->]|[= -> ->]])%elem_of_wires];
      [exists (slot_idx r.1.1.1, Aux0)|exists (slot_idx r.1.1.1, Aux1)
      |exists (slot_idx r.1.1.2, Aux0)|exists (slot_idx r.1.1.2, Aux1)];
      (split; [apply elem_of_flat; exists r; split; [done|unfold places_of; set_solver]|by apply (Hat r)]).
  - by apply places_once.
  - apply NoDup_nil_2.
  - intros d k q p (r & Hin & Hpl)%elem_of_flat Hp Hreal. destruct (Hr r Hin) as [kv [_ _ _ He0 He1 _ _]].
    unfold places_of in Hpl. ends_cases Hpl; rewrite ?(proj1 (Hat r _ Hin)), ?(proj2 (Hat r _ Hin)) in Hp;
      injection Hp as <-; (split; [apply elem_of_dead; eauto|]);
      [apply (He0 Aux0)|apply (He0 Aux1)|apply (He1 Aux0)|apply (He1 Aux1)]; done.
  - intros i k q Hin. by apply not_elem_of_nil in Hin.
  - intros d k q (r & Hin & Hd)%elem_of_dead Hp Hreal.
    destruct (Hr r Hin) as [kv [[_ _ _ _ _ _ _ Hf0 Hf1] _ _ _ _ _ _]].
    assert (slot_idx r.1.1.1 ∈ dead_of rs /\ slot_idx r.1.1.2 ∈ dead_of rs) as [D0 D1]
      by (split; apply elem_of_dead; eauto).
    assert ((aux0 r.1.2, aux0 r.2) ∈ wires_of rs /\ (aux1 r.1.2, aux1 r.2) ∈ wires_of rs) as [W0 W1]
      by (split; apply elem_of_wires; eauto).
    destruct Hd as [-> | ->]; [rewrite (proj1 (Hat r k Hin)) in Hp|rewrite (proj2 (Hat r k Hin)) in Hp];
      injection Hp as <-; destruct k; cbn [port_raw] in *.
    all: try (left; rewrite ?Hf0, ?Hf1; done).
    all: right; eexists; apply elem_of_ends; eauto.
Qed.

(** A batch starts on the reserved net. *)
Definition batch_start (n : Net) (k : nat) : Net := reserved (set_frontier1 [] n) (4 * k).

Section Start.
Context (n : Net) (rs : list redex_view) (Hn : net_inv n).
Context (Hc : Z.of_nat (length (slots (arena n)) + 4 * length rs) <= cap (arena n)).
Context (kvs : list (LOPath * ActivePair)) (Hb : Forall2 (beta_pair n (dead_of rs)) kvs rs).
Let m := batch_start n (length rs).

Lemma cleared_inv : net_inv (set_frontier1 [] n).
Proof. by destruct Hn as [Ha Hs]; split. Qed.

Lemma start_inv : net_inv m.
Proof. apply reserved_inv; [apply cleared_inv|done]. Qed.

Lemma start_beta : Forall2 (beta_pair m (dead_of rs)) kvs rs.
Proof.
  eapply Forall2_impl; [exact Hb|]. intros kv r [Hact ? ? ? ? ? ?].
  split; [|done..]. apply (reserved_active (set_frontier1 [] n)). by destruct Hact; split.
Qed.

Lemma start_allocated : allocated (set_frontier1 [] n) [] m.
Proof.
  split; [split; [apply start_inv| | |done]| |constructor|].
  - cbn. by rewrite app_nil_r.
  - intros i Hi. apply reserved_alive_slot; [apply cleared_inv|done].
  - by intros ????? ?%not_elem_of_nil.
  - by intros f ?%not_elem_of_nil.
Qed.

Lemma start_outs `{C : CRules} j : Forall2 beta_out rs
  (zip_with (fun ap base => worker (arena m) ap base) (snd <$> kvs) (bases_from j (length rs))).
Proof.
  assert (Forall (fun r : redex_view => slot_idx r.1.1.1 ∈ dead_of rs) rs) as Hin
    by (apply Forall_forall; intros r Hr; apply elem_of_dead; eauto).
  pose proof start_beta as Hbm. revert Hbm Hin. generalize (dead_of rs) as dead. pose proof start_inv as Hm. revert Hm.
  generalize m as m'. clear Hb Hc. revert kvs j.
  induction rs as [|r rs' IH]; intros kvs j m' Hm dead Hbm Hin.
  - apply Forall2_nil_inv_r in Hbm as ->. constructor.
  - apply Forall2_cons_inv_r in Hbm as (kv & kvs' & Hkv & Hbm & ->). apply Forall_cons in Hin as [Hi Hin].
    cbn [fmap list_fmap length]. rewrite bases_from_S. cbn [zip_with]. constructor; [|by eapply IH].
    by apply (worker_beta m' dead kv r j Hm Hkv Hi).
Qed.

Lemma start_ports : Forall (ports_in m) rs.
Proof.
  apply Forall_forall. intros r [i Hi]%list_elem_of_lookup.
  destruct (Forall2_lookup_r _ _ _ _ _ start_beta Hi) as (kv & _ & [[H0 H1 _ _ _ Hs0 Hs1 _ _] _ _ _ _ _ _]). intros k.
  split; [apply (port_raw_current m _ _ k start_inv (current_alive _ _ H0) Hs0)
         |apply (port_raw_current m _ _ k start_inv (current_alive _ _ H1) Hs1)].
Qed.

Lemma start_alive : Forall (alive m) (dead_of rs).
Proof.
  apply Forall_forall. intros d (r & [i Hi]%list_elem_of_lookup & Hd)%elem_of_dead.
  destruct (Forall2_lookup_r _ _ _ _ _ start_beta Hi) as (kv & _ & [[H0 H1 _ _ _ _ _ _ _] _ _ _ _ _ _]).
  destruct Hd as [-> | ->]; by apply current_alive.
Qed.

Lemma start_below : below_base m (Z.of_nat (length (slots (arena n)))).
Proof. eapply Forall_impl; [exact (aw_range _ (ni_arena _ Hn))|]. cbn. lia. Qed.

Lemma start_length : Z.of_nat (length (slots (arena m))) = Z.of_nat (length (slots (arena n))) + 4 * Z.of_nat (length rs).
Proof. unfold m, batch_start. cbn. rewrite length_app, length_replicate. lia. Qed.
End Start.

Lemma outs_install rs outs : Forall2 beta_out rs outs -> install outs = Ok outs.
Proof.
  intros H. unfold install. destruct (existsb _ outs) eqn:E; [|done].
  apply existsb_exists in E as (o & [i Hi]%list_elem_of_In%list_elem_of_lookup & Ho).
  by destruct (Forall2_lookup_r _ _ _ _ _ H Hi) as (r & _ & l & l' & ->).
Qed.

(** * Theorems *)


(** A beta redex on the path [lo] whose other ports are free variables. *)
Definition add_redex (n : Net) (lo : LOPath) : res DnxError Net :=
  '(f, n) ← alloc_abs n;
  '(a, n) ← alloc_app n;
  n ← foldM (fun n p => '(v, n) ← alloc_free n 0; connect n p v root)
        [ag_aux0 f; ag_aux1 f; ag_aux0 a; ag_aux1 a] n;
  connect n (ag_principal f) (ag_principal a) lo.

Definition two_redexes : Net :=
  or_else (l ← extend_left root; r ← extend_right root;
           n ← add_redex (net_new DeltaL 32) l; add_redex n r) (net_new DeltaL 0).

Definition two_views : list redex_view :=
  [(P 1 Principal, P 2 Principal, slot_of two_redexes 1, slot_of two_redexes 2);
   (P 7 Principal, P 8 Principal, slot_of two_redexes 7, slot_of two_redexes 8)].

Lemma two_frontier : exists e0 e1, frontier1 two_redexes = [e0; e1]
  /\ p0 e0.2 = P 1 Principal /\ p1 e0.2 = P 2 Principal /\ path_of [false] = Ok (pair_lo e0.2)
  /\ p0 e1.2 = P 7 Principal /\ p1 e1.2 = P 8 Principal /\ path_of [true] = Ok (pair_lo e1.2).
Proof. eexists _, _. split; [vm_compute; reflexivity|]. by vm_compute. Qed.

Lemma path_depth bs lo : (length bs < 512)%nat -> path_of bs = Ok lo -> lopath_wf lo /\ depth lo < 512.
Proof.
  intros Hl H. destruct (path_of_ok bs ltac:(lia)) as (lo' & H' & Hw & <-). rewrite H in H'. injection H' as <-.
  split; [done|]. rewrite <- bits_length by done. lia.
Qed.

Lemma two_beta : Forall2 (beta_pair two_redexes (dead_of two_views)) (frontier1 two_redexes) two_views.
Proof.
  destruct two_frontier as (e0 & e1 & -> & A0 & B0 & P0 & A1 & B1 & P1).
  apply path_depth in P0, P1; [|cbn; lia..].
  constructor; [|constructor; [|constructor]]; (split; [|by vm_compute|by vm_compute|on_net|on_net|by left|done]);
    on_net.
Qed.

Lemma two_once : NoDup (dead_of two_views).
Proof. apply (bool_decide_unpack _). by vm_compute. Qed.


(** The program (λx. x) ((λy. y) (λz. z)): the argument of the outer redex is
    the result of the inner one, and both are on the frontier. *)
Definition neighbours : Net :=
  or_else ('(f, n) ← alloc_abs (net_new DeltaL 64);
           '(g, n) ← alloc_abs n;
           '(h, n) ← alloc_abs n;
           '(a, n) ← alloc_app n;
           '(b, n) ← alloc_app n;
           '(r, n) ← alloc_free n 0;
           n ← connect n (ag_aux0 f) (ag_aux1 f) root;
           n ← connect n (ag_aux0 g) (ag_aux1 g) root;
           n ← connect n (ag_aux0 h) (ag_aux1 h) root;
           n ← connect n (ag_aux0 a) r root;
           n ← connect n (ag_aux0 b) (ag_aux1 a) root;
           rt ← extend_right root;
           n ← connect n (ag_principal h) (ag_aux1 b) rt;
           n ← connect n (ag_principal f) (ag_principal a) root;
           n ← connect n (ag_principal g) (ag_principal b) rt;
           Ok (add_root n "result" r)) (net_new DeltaL 0).

Definition outcome (r : res DnxError (CanonicalNet * ReduceStats)) : option (Net * ReduceStats) :=
  match r with Ok (c, st) => Some (proper c, st) | _ => None end.

(** Neighbouring redexes of a frontier are not independent: the sequential
    reducer takes [neighbours] to the identity in two beta steps, its root
    wired to the abstraction; the batch reducer fires the same two redexes,
    wires both the root and the abstraction to ports of retired agents and
    certifies the result. *)
Theorem neighbours_broken :
  net_inv neighbours /\ length (frontier1 neighbours) = 2%nat
  /\ (exists n, outcome (normalize (C:=crules_L) 100 neighbours) = Some (n, mk_stats 2 2)
      /\ net_inv n /\ wired n (P 6 Principal, P 3 Principal))
  /\ (exists n, outcome (normalize_parallel (C:=crules_L) 100 neighbours 2) = Some (n, mk_stats 2 2)
      /\ alive n 3 /\ alive n 6 /\ ~ net_inv n
      /\ ~ alive n (slot_idx (principal (slot_of n 3))) /\ ~ alive n (slot_idx (principal (slot_of n 6)))).
Proof.
  split; [on_net|]. split; [by vm_compute|]. split.
  - eexists. split; [vm_compute; reflexivity|]. split; [on_net|]. split; on_net.
  - eexists. split; [vm_compute; reflexivity|].
    assert (forall n, alive n 6 -> ~ alive n (slot_idx (principal (slot_of n 6))) ->
      slot_at n 6 = Some (slot_of n 6) -> real (principal (slot_of n 6)) = true -> ~ net_inv n) as Hbad.
    { intros n H6 Hno Hs Hr Hn. destruct (ni_sym n Hn 6 Principal (slot_of n 6) H6 Hs Hr) as [Hc _].
      by apply Hno, current_alive. }
    split; [|split; [|split; [apply Hbad; [| |by vm_compute..]|split]]]; unfold alive;
      first [apply (bool_decide_unpack _); by vm_compute|apply (bool_decide_eq_false_1 _); by vm_compute].
Qed.
