(* ===== verification/HandlersSpec.v ===== *)
(** * Handled effects

    A row that passed the check never lacks a handler, and answering the
    requests of a run fills every hole they left. *)
From stdpp Require Import sorting.
From S2P Require Import Prelude Bytes Utf8 Text Codec Error LOPath Port Arena Net Prim Wiring BlobSpec Effect Open.

(** * Lemmas *)

Section Handled.
Context {W : Type}.
Implicit Types (env : HandlerEnv W) (reqs : list EffRequest) (w : W).

Lemma row_labels_elem row l : l ∈ row_labels row <-> l ∈ labels row.
Proof.
  unfold row_labels. rewrite (sort_by_perm _), <- list_fmap_compose.
  change (l ∈ id <$> elements (labels row) <-> l ∈ labels row). by rewrite list_fmap_id, elem_of_elements.
Qed.

Lemma row_labels_sorted row : StronglySorted str_lt (row_labels row).
Proof.
  apply sort_by_wf. rewrite <- list_fmap_compose. change (NoDup (id <$> elements (labels row))).
  rewrite list_fmap_id. apply NoDup_elements.
Qed.

Lemma has_handler_true env l : has_handler env l = true <-> is_Some (env !! l).
Proof. unfold has_handler. split; [destruct (env !! l); [eauto|done]|by intros [h ->]]. Qed.

(** The check stops at the first label without a handler. *)
Lemma first_missing env ls :
  let f := fun (_ : unit) l => if has_handler env l then Ok tt else Err (NoHandler l) in
  foldM f ls tt = Ok tt /\ Forall (fun l => is_Some (env !! l)) ls
  \/ exists pre l post, ls = pre ++ l :: post /\ env !! l = None /\ Forall (fun l => is_Some (env !! l)) pre
     /\ foldM f ls tt = Err (NoHandler l).
Proof.
  intros f. induction ls as [|l ls IH]; [by left|].
  change (foldM f (l :: ls) tt) with (u ← f tt l; foldM f ls u). destruct (env !! l) as [h|] eqn:E.
  - replace (f tt l) with (Ok (E := HandlerError) tt) by (unfold f, has_handler; by rewrite E). cbn [mbind res_bind].
    destruct IH as [[H1 H]|(pre & l' & post & -> & Hl & Hp & H1)]; [left; split; [done|by constructor; eauto]|].
    right. exists (l :: pre), l', post. repeat split; try done. by constructor; eauto.
  - right. exists [], l, ls. repeat split; [done..|]. unfold f, has_handler. by rewrite E.
Qed.

Definition handlers_total env : Prop := forall l h args w, env !! l = Some h -> total (h args w).1.

(** [e] is the failure of the handler of one of the requests. *)
Definition handler_failed env reqs (e : DnxError) : Prop :=
  exists r h he w w', r ∈ reqs /\ env !! rq_label r = Some h /\ h (rq_args r) w = (Err he, w') /\ e = answer_error he.

Lemma answer_covered env r w : is_Some (env !! rq_label r) -> handlers_total env ->
  returns (handler_failed env [r]) (answer env r w).1 (fun _ => True).
Proof.
  intros [h Hh] Ht. unfold answer, handle_effect. rewrite Hh. specialize (Ht _ _ (rq_args r) w Hh).
  destruct (h (rq_args r) w) as [[a|e| |] w'] eqn:E; cbn in *; try done.
  exists r, h, e, w, w'. split; [left|done].
Qed.

Lemma resume_ok n ps r v O : open n (continuation r :: O) ->
  returns (fun e => e = ArenaCapacityExceeded) (resume (n, ps) r v)
    (fun '(n', ps') => open n' O /\ vals ps' = vals ps ++ [v] /\ funs ps' = funs ps).
Proof.
  intros Ho. unfold resume, alloc_prim_val, alloc_val. cbn [fst snd]. destruct (_ <=? _); [done|]. cbn [mbind res_bind].
  pose proof (open_alloc_leaf n _ TAG_PRIM_VAL (as_u16 (Z.of_nat (length (vals ps)))) 0 0 Ho eq_refl) as Ha.
  destruct (alloc_agent _ _ _ _ _) as [[ports n1]|e| |]; cbn [mbind res_bind returns] in Ha |- *; try done.
  assert (forall p, p ∈ ag_principal ports :: continuation r :: O -> real p = true) as Hreal.
  { intros p Hp. pose proof (op_free _ _ Ha) as Hf. rewrite Forall_forall in Hf.
    apply (current_real n1); [apply Ha|by apply Hf]. }
  assert (forall p, real p = true -> p <> NULL) as Hnull by (intros p Hp ->; done).
  destruct (open_connect n1 O (ag_principal ports) (continuation r) (rq_lo r)) as (n2 & -> & Ho2).
  - apply Hnull, Hreal. left.
  - apply Hnull, Hreal. right; left.
  - rewrite filter_cons_True by (apply Hreal; left). rewrite filter_cons_True by (apply Hreal; right; left). done.
  - done.
Qed.

Lemma perform_answers env reqs : handlers_total env -> (forall r, r ∈ reqs -> is_Some (env !! rq_label r)) ->
  forall n ps O w, open n ((continuation <$> reqs) ++ O) ->
  match perform env reqs (n, ps) w with
  | (Ok (n', ps'), w') => exists vs, answers env reqs w = (Ok vs, w')
      /\ open n' O /\ vals ps' = vals ps ++ vs /\ funs ps' = funs ps
  | (Err e, _) => e = ArenaCapacityExceeded \/ handler_failed env reqs e
  | _ => False
  end.
Proof.
  intros Ht. induction reqs as [|r reqs IH]; intros Hc n ps O w Ho.
  { exists []. by rewrite app_nil_r. }
  cbn [perform answers]. unfold mbind, act_bind. pose proof (answer_covered env r w (Hc r ltac:(left)) Ht) as Ha.
  assert (forall rs e, rs ⊆ r :: reqs -> handler_failed env rs e -> handler_failed env (r :: reqs) e) as Hsub
    by (intros rs e Hrs (r' & h & he & w1 & w1' & Hr' & Hf); exists r', h, he, w1, w1'; split; [by apply Hrs|done]).
  destruct (answer env r w) as [[v|e| |] w1]; cbn [fst returns] in Ha; try done.
  2: { right. eapply Hsub; [|exact Ha]. set_solver. }
  unfold pure_act. pose proof (resume_ok n ps r v (fmap (M := list) continuation reqs ++ O) Ho) as Hr.
  destruct (resume (n, ps) r v) as [[n1 ps1]|e| |]; cbn [returns] in Hr; try done; [|by left].
  destruct Hr as (Ho1 & Hv1 & Hf1).
  specialize (IH ltac:(intros r' Hr'; apply Hc; by right) n1 ps1 O w1 Ho1).
  destruct (perform env reqs (n1, ps1) w1) as [[[n2 ps2]|e| |] w2]; [|destruct IH; [by left|right; eapply Hsub; [|done]; set_solver]|done..].
  destruct IH as (vs & -> & Ho2 & Hv2 & Hf2). exists (v :: vs). split; [done|]. split; [done|].
  rewrite Hv2, Hv1, Hf2, Hf1, <- app_assoc. done.
Qed.
End Handled.

(** * Theorems *)

(** The check passes exactly when every label of the row has a handler, and
    otherwise names the least label without one. *)
Theorem validate_handlers_spec {W} (env : HandlerEnv W) (row : EffectRow) :
  (validate_handlers env row = Ok tt /\ covers env (labels row))
  \/ exists l, validate_handlers env row = Err (NoHandler l) /\ l ∈ labels row /\ env !! l = None
       /\ forall l', l' ∈ labels row -> env !! l' = None -> str_le l l'.
Proof.
  unfold validate_handlers. destruct (first_missing env (row_labels row)) as [[-> H]|(pre & l & post & E & Hl & Hp & ->)].
  - left. split; [done|]. intros l Hl. rewrite Forall_forall in H. by apply H, row_labels_elem.
  - right. exists l. split; [done|]. split; [apply row_labels_elem; rewrite E; set_solver|]. split; [done|].
    intros l' Hl' Hn. apply row_labels_elem in Hl'. pose proof (row_labels_sorted row) as Hs. rewrite E in Hl', Hs.
    apply elem_of_app in Hl' as [Hl'|[-> |Hl']%elem_of_cons].
    + rewrite Forall_forall in Hp. destruct (Hp l' Hl') as [h Hh]. congruence.
    + apply str_leb_refl.
    + apply StronglySorted_app_1_r in Hs. apply StronglySorted_inv in Hs as [_ Hs]. rewrite Forall_forall in Hs.
      by apply str_lt_le, Hs.
Qed.

(** Handled effects.  A row that passed the check covers a run: when every
    request carries a label of the row and waits at a free port of the net,
    two rounds of the loop answer them all, each by one value of its handler
    in the order of the requests, wired to the port that waited; the net stays
    well wired and its other free ports stay free.  The only failures are a
    full arena or value table, and the failure of a registered handler. *)
Theorem effects_answered {W} (env : HandlerEnv W) (row : EffectRow) (reqs : list EffRequest)
    (n : Net) (ps : PrimState) (O : list PortId) (w : W) (fuel : nat) :
  validate_handlers env row = Ok tt -> handlers_total env ->
  (forall r, r ∈ reqs -> rq_label r ∈ labels row) ->
  open n ((continuation <$> reqs) ++ O) -> (2 <= fuel)%nat ->
  match normalize_effectful fuel env (n, ps) reqs w with
  | (Ok (n', ps'), w') => exists vs, answers env reqs w = (Ok vs, w')
      /\ open n' O /\ vals ps' = vals ps ++ vs /\ funs ps' = funs ps
  | (Err e, _) => e = ArenaCapacityExceeded \/ handler_failed env reqs e
  | _ => False
  end.
Proof.
  intros Hv Ht Hl Ho Hf. destruct fuel as [|[|fuel]]; [lia..|].
  assert (forall r, r ∈ reqs -> is_Some (env !! rq_label r)) as Hc.
  { destruct (validate_handlers_spec env row) as [[_ H]|(l & E & _)]; [by intros r Hr; apply H, Hl|congruence]. }
  pose proof (perform_answers env reqs Ht Hc n ps O w Ho) as H. destruct reqs as [|r reqs]; [exact H|].
  cbn [normalize_effectful]. unfold mbind, act_bind. destruct (perform env (r :: reqs) (n, ps) w) as [[[n' ps']|e| |] w']; done.
Qed.
