(* ===== verification/Runtime.v ===== *)
(** * Evaluation ([crates/dnx-lang/src/runtime.rs], [crates/dnx-pyparse/src/runtime.rs], [crates/dnx-read/src/lib.rs])

    Reading a value out of a net that is being forced, then the runtimes from
    a source text to a value. *)
From S2P Require Import Prelude Bytes Utf8 Text Error LOPath Port Arena Net Prim Rules Ast Pass0 Pass1 Elab Read NixVal PyParse PyLower Json Builtins NixLower Whnf.

(** * Reading values during evaluation ([crates/dnx-read/src/lib.rs])

    [read_value] drives the evaluator: it forces a port, reads a primitive
    value there, and walks the cells of a Scott list, forcing each element and
    each tail.  Where a force fails the code answers [None] and goes on with
    the net as the failure left it; the model has no net then, and its [Err]
    stands for that answer. *)

Definition LIST_DEPTH_CAP : Z := Z.shiftl 1 16.

Definition value_head (n : Net) (demand : PortId) : res DnxError PortId :=
  on_value ← (if slot_is_live n demand && bool_decide (port_kind demand = Principal)
              then s ← net_slot n demand; Ok (negb (is_free s)) else Ok false);
  if (on_value : bool) then Ok demand else peer n demand.

Section ReadValue.
Context {C : CRules} (call : nat -> list PrimValue -> res DnxError PrimValue) (cfg : NormalizeConfig).

(** What a reader gives: the value if there is one, and the net it leaves. *)
Notation reading A := (res DnxError (option A * Net * PrimState)) (only parsing).

(** An abstraction entered at its principal port. *)
Definition entered_abs (s : Slot) (p : PortId) : bool :=
  is_fan s && fan_is_abs s && bool_decide (port_kind p = Principal).
(** An application entered at its result. *)
Definition entered_app (s : Slot) (p : PortId) : bool :=
  is_fan s && negb (fan_is_abs s) && bool_decide (port_kind p = Aux0).

(** A cell of a Scott list. *)
Variant cell : Type :=
| NotList
| Nil
| Cons (head_demand tail_arg : PortId).

(** One turn of the loop of [scott_list_elems], up to the reading of the
    element. *)
Definition list_cell (n : Net) (cur : PortId) : res DnxError cell :=
  s ← net_slot n cur;
  if negb (entered_abs s cur) then Ok NotList
  else
    inner_abs ← peer n (sibling cur Aux0);
    inner ← net_slot n inner_abs;
    if negb (entered_abs inner inner_abs) then Ok NotList
    else
      body ← peer n (sibling inner_abs Aux0);
      bs ← net_slot n body;
      if negb (entered_app bs body) then Ok Nil
      else
        inner_app ← peer n (sibling body Principal);
        ias ← net_slot n inner_app;
        if negb (entered_app ias inner_app) then Ok NotList
        else
          c_use ← peer n (sibling inner_app Principal);
          Ok (if negb (c_use =? sibling cur Aux1) then NotList
              else Cons (sibling inner_app Aux1) (sibling body Aux1)).

(** The loop; [read] reads an element. *)
Fixpoint scott_list_elems (read : Net -> PrimState -> PortId -> res DnxError (option PrimValue * Net * PrimState))
    (force : Net -> PrimState -> PortId -> res DnxError (ValueHead * Net * PrimState))
    (fuel : nat) (n : Net) (ps : PrimState) (cur : PortId) (steps : Z) (out : list PrimValue)
    : res DnxError (option (list PrimValue) * Net * PrimState) :=
  match fuel with
  | O => Fuel
  | S fuel =>
      if steps >? LIST_DEPTH_CAP then Ok (None, n, ps)
      else
        c ← list_cell n cur;
        match c with
        | NotList => Ok (None, n, ps)
        | Nil => Ok (Some out, n, ps)
        | Cons head_demand tail_arg =>
            '(v, n, ps) ← read n ps head_demand;
            match v with
            | None => Ok (None, n, ps)
            | Some v =>
                '(_, n, ps) ← force n ps tail_arg;
                cur ← value_head n tail_arg;
                scott_list_elems read force fuel n ps cur (steps + 1) (out ++ [v])
            end
        end
  end.

Fixpoint read_value (fuel : nat) (n : Net) (ps : PrimState) (demand : PortId) (depth : Z)
    : res DnxError (option PrimValue * Net * PrimState) :=
  match fuel with
  | O => Fuel
  | S fuel =>
      if depth >? LIST_DEPTH_CAP then Ok (None, n, ps)
      else
        let force n ps p := force_whnf_with_prims call fuel n ps p cfg in
        '(_, n, ps) ← force n ps demand;
        hp ← value_head n demand;
        if virtual hp then Ok (None, n, ps)
        else
          s ← net_slot n hp;
          if tag s =? TAG_PRIM_VAL then Ok (vals ps !! Z.to_nat (data s), n, ps)
          else if entered_abs s hp then
            '(xs, n, ps) ← scott_list_elems (fun n ps p => read_value fuel n ps p (depth + 1)) force fuel n ps hp 0 [];
            Ok (option_map Prim.PList xs, n, ps)
          else Ok (None, n, ps)
  end.
End ReadValue.

(** * The runtimes ([crates/dnx-lang/src/runtime.rs], [crates/dnx-pyparse/src/runtime.rs])

    From a source text to a value: parse, inline the prelude, rename, check
    linearity, elaborate, force, read back.  The two runtimes differ in the
    front end and in which values and functions they know, so what they share
    is written once and instantiated twice.  [nix_to_expr] is an argument
    ([NixLower] has it), and so are the values the process-wide counters of
    fresh names have when a call starts.  Texts of errors of the Python front
    end are left out. *)

(** The message of a [Readback]: of an error of the front end, or a literal. *)
Inductive message : Type :=
| Said (e : PyError)
| Txt (s : string).

Inductive NixEvalError (NixError : Type) : Type :=
| ParseErr (e : NixError)
| Elaborate (e : DnxError)
| Elaborate2 (e : LinError)
| Readback (m : message).
Arguments ParseErr {NixError} e.
Arguments Elaborate {NixError} e.
Arguments Elaborate2 {NixError} e.
Arguments Readback {NixError} m.

Inductive NixEvalResult (NixError : Type) : Type :=
| RInt (n : Z)
| RFloat (bits : Z)
| RStr (s : list Z)
| RBool (b : bool)
| RNull
| RList (xs : list PrimValue)
| RAttrSet (kvs : list (list Z * PrimValue))
| RLambda (e : E)
| RError (e : NixEvalError NixError).
Arguments RInt {NixError} n.
Arguments RFloat {NixError} bits.
Arguments RStr {NixError} s.
Arguments RBool {NixError} b.
Arguments RNull {NixError}.
Arguments RList {NixError} xs.
Arguments RAttrSet {NixError} kvs.
Arguments RLambda {NixError} e.
Arguments RError {NixError} e.

(** Lists compare by [PrimValue]'s equality. *)
Definition conv_eq {X : Type} (a b : NixEvalResult X) : bool :=
  match a, b with
  | RInt a, RInt b | RFloat a, RFloat b => a =? b
  | RStr a, RStr b => bool_decide (a = b)
  | RBool a, RBool b => Bool.eqb a b
  | RNull, RNull => true
  | RList a, RList b => prim_eqb (Prim.PList a) (Prim.PList b)
  | RAttrSet a, RAttrSet b => prim_eqb (PAttrSet a) (PAttrSet b)
  | _, _ => false
  end.

(** ** The prelude of lists, in Nix *)

Open Scope string_scope.
Definition PRELUDE : list (string * string) :=
  [("nil", "c: n: n"); ("cons", "h: t: c: n: c h t"); ("head", "xs: xs (h: t: h) nil"); ("tail", "xs: xs (h: t: t) nil");
   ("isNil", "xs: xs (h: t: false) true");
   ("length", "xs: (fix (self: ys: acc: ys (h: t: self t (acc + 1)) acc)) xs 0");
   ("elemAt", "xs: i: (fix (self: ys: j: ys (h: t: if j == i then h else self t (j + 1)) nil)) xs 0");
   ("map", "f: xs: (fix (self: ys: ys (h: t: cons (f h) (self t)) nil)) xs");
   ("filter", "pred: xs: (fix (self: ys: ys (h: t: if pred h then cons h (self t) else self t) nil)) xs");
   ("concat", "a: b: (fix (self: xs: xs (h: t: cons h (self t)) b)) a");
   ("foldl", "op: acc: xs: (fix (self: a: ys: ys (h: t: self (op a h) t) a)) acc xs")].
Close Scope string_scope.

(** ** What the two runtimes share *)

Section Runtime.
Context `{Host} {NixError : Type}.
(** [nix_to_expr]: the Nix parser and its translation to the core syntax. *)
Context (nix_to_expr : list Z -> res NixError E).
(** The counters of [alpha], [pass2] and [dnx_read]. *)
Context (alpha_ctr elab_ctr var_ctr : Z).
Notation result := (NixEvalResult NixError) (only parsing).
Notation error := (NixEvalError NixError) (only parsing).

Definition parse_defs (defs : list (string * string)) : res NixError (gmap (list Z) E) :=
  foldM (fun m d => e ← nix_to_expr (chars d.2); Ok (<[chars d.1 := e]> m)) defs ∅.

(** The part of [build_net] after parsing. *)
Definition assemble (ctx : PrimCtx NixPrimVal NixPrimFun) (defs : gmap (list Z) E) (ast : E)
    : res (NixEvalError NixError) (Net * PrimState * PortId) :=
  ast ← map_err Elaborate2 (pass0 defs ast);
  let ast := (alpha_rename ast alpha_ctr).1 in
  r1 ← map_err Elaborate2 (pass1 ast);
  '(rp, _, s) ← map_err Elaborate
    (elaborate_with_prims call_builtin ctx (usage_levels r1) ast 0 root
       (mk_est (net_new DeltaK (Z.shiftl 1 16)) ∅ prims_new elab_ctr));
  '(root_port, n) ← map_err Elaborate
    (if bool_decide (port_kind rp = Principal) then Ok (rp, e_net s)
     else '(rs, n) ← alloc_free (e_net s) 0; n ← connect n rp rs root; Ok (rs, n));
  Ok (add_root n "r" root_port, e_prims s, root_port).

Definition eval_config : NormalizeConfig := mk_config (Some 50000000) (Some (Z.shiftl 1 16 - 16)).

(** The value stored at a primitive head, read as [read]. *)
Definition head_value (is_val : Slot -> bool) (read : PrimValue -> option (NixEvalResult NixError))
    (n : Net) (ps : PrimState) (root : PortId) : res DnxError (option (NixEvalResult NixError)) :=
  s0 ← net_slot n root;
  hp ← (if is_free s0 then peer n root else Ok root);
  if virtual hp then Ok None
  else
    s ← net_slot n hp;
    if is_val s then Ok (v ← vals ps !! Z.to_nat (data s); read v) else Ok None.

Definition rb (s : string) : NixEvalResult NixError := RError (Readback (Txt s)).

Definition readback_with (is_val is_fun : Slot -> bool) (read : PrimValue -> option (NixEvalResult NixError))
    (fuel : nat) (net : CanonicalNet) (ps : PrimState) : res DnxError (NixEvalResult NixError) :=
  let n := proper net in
  match free_slots n !! "r"%string with
  | None => Ok (rb "no root")
  | Some root_slot =>
      if virtual root_slot then Ok (rb "null root")
      else
        root_port ← (if slot_is_live n root_slot then
                       s ← net_slot n root_slot;
                       if is_free s then peer n root_slot else Ok root_slot
                     else Ok root_slot);
        if virtual root_port then Ok (rb "null result")
        else
          s ← net_slot n root_port;
          if is_val s then
            Ok (default (rb "unreadable prim") (v ← vals ps !! Z.to_nat (data s); read v))
          else if is_fun s then Ok (rb "unsaturated prim fun")
          else
            r ← psi_native (V := NixPrimVal) (F := NixPrimFun) fuel net var_ctr;
            Ok (match r with Lambda e => RLambda e | Partial _ => rb "open term" end)
  end.

(** [match m { Err(e) => return Error(Elaborate(e)), Ok(a) => k(a) }]. *)
Definition or_report {A} (m : res DnxError A) (k : A -> res DnxError (NixEvalResult NixError))
    : res DnxError (NixEvalResult NixError) :=
  match m with
  | Ok a => k a
  | Err e => Ok (RError (Elaborate e))
  | Panic => Panic
  | Fuel => Fuel
  end.

(** The part of [eval] after [build_net].  [Err] is a failure of a force
    inside [read_value], see there. *)
Definition run_built (scalar_head : Net -> PrimState -> PortId -> res DnxError (option (NixEvalResult NixError)))
    (readback : CanonicalNet -> PrimState -> res DnxError (NixEvalResult NixError))
    (fuel : nat) (built : res (NixEvalError NixError) (Net * PrimState * PortId)) : res DnxError (NixEvalResult NixError) :=
  match built with
  | Err e => Ok (RError e)
  | Panic => Panic
  | Fuel => Fuel
  | Ok (n, ps, root_port) =>
      let call := call_builtin in
      or_report (force_whnf_with_prims (C := crules_K) call fuel n ps root_port eval_config) (fun '(_, n, ps) =>
      r ← scalar_head n ps root_port;
      match r with
      | Some r => Ok r
      | None =>
          '(v, n, ps) ← read_value (C := crules_K) call eval_config fuel n ps root_port 0;
          match v with
          | Some (Prim.PList xs) => Ok (RList xs)
          | _ =>
              or_report (normalize_demand (C := crules_K) call fuel n ps root_port eval_config)
                (fun '(c, ps, _) => readback c ps)
          end
      end)
  end.

(** ** The Nix runtime *)

Definition prim_tag (t : Z) (s : Slot) : bool := tag s =? t.

Definition nix_result (v : PrimValue) : option (NixEvalResult NixError) :=
  match v with
  | Prim.PInt n => Some (RInt n)
  | Prim.PFloat f => Some (RFloat f)
  | Prim.PStr s | PPath s => Some (RStr s)
  | Prim.PBool b => Some (RBool b)
  | PNull => Some RNull
  | Prim.PList xs => Some (RList xs)
  | PAttrSet kvs => Some (RAttrSet kvs)
  | _ => None
  end.

Definition nix_read_scalar_head := head_value (prim_tag TAG_PRIM_VAL) nix_result.
Definition nix_readback_result := readback_with (prim_tag TAG_PRIM_VAL) (prim_tag TAG_PRIM_FUN) nix_result.
Definition nix_ctx : PrimCtx NixPrimVal NixPrimFun := mk_ctx nixprimfun_to_entry nixprimval_to_value.

Definition nix_build_net (src : str) : res (NixEvalError NixError) (Net * PrimState * PortId) :=
  ast ← map_err ParseErr (nix_to_expr src);
  defs ← map_err ParseErr (parse_defs DEFS);
  assemble nix_ctx defs ast.

Definition nix_eval (fuel : nat) (src : str) : res DnxError (NixEvalResult NixError) :=
  run_built nix_read_scalar_head (nix_readback_result fuel) fuel (nix_build_net src).

Definition eval_canonical (fuel : nat) (src : str) : res (NixEvalError NixError) (NixEvalResult NixError * Z) :=
  '(n, ps, _) ← nix_build_net src;
  root ← ok_or (free_slots n !! "r"%string) (Readback (Txt "no root"));
  '(canonical, ps, st) ← map_err Elaborate
    (normalize_demand (C := crules_K) call_builtin fuel n ps root eval_config);
  r ← map_err Elaborate (nix_readback_result fuel canonical ps);
  Ok (r, interactions st).

(** ** The Python runtime *)

Section Python.
Context `{PyChars}.

Definition to_ast (src : str) : res PyError E := stmts ← parse_module src; lower_module stmts ∅.

Definition prelude_defs : res PyError (gmap (list Z) E) := map_err (fun _ => PyParseError) (parse_defs PRELUDE).

(** The functions the Python front end knows. *)
Definition py_builtins : list string :=
  ["derivationStrict"; "typeOf"; "isFunction"; "isInt"; "isFloat"; "isString"; "isNull"; "isList"; "stringLength";
   "substring"; "toString"; "toInt"; "bitAnd"; "bitOr"; "bitXor"]%string.

Definition pyprimfun_name (f : NixPrimFun) : option string :=
  match f with
  | FAdd | FSub | FMul | FDiv | FNeg | FEq | FNe | FLt | FLe | FGt | FGe | FSelect | FHasAttr | FInsert
  | FEmptyAttrSet | FToString2 => nixprimfun_name f
  | FBuiltin name => if existsb (fun b => bool_decide (chars b = name)) py_builtins then alias name else None
  | _ => None
  end.

Definition pyprimfun_to_entry (f : NixPrimFun) : option PrimFunEntry :=
  let table := nix_prim_table in
  name ← pyprimfun_name f;
  id ← table_lookup table (chars name);
  make_entry table id.

Definition pyprimval_to_value : NixPrimVal -> option PrimValue := nixprimval_to_value.
Definition py_ctx : PrimCtx NixPrimVal NixPrimFun := mk_ctx pyprimfun_to_entry pyprimval_to_value.

Definition is_prim_val (s : Slot) : bool := is_prim s && (Z.land (tag s) 1 =? 0).

Definition prim_to_result (v : PrimValue) : option (NixEvalResult NixError) :=
  match v with PPath _ => None | _ => nix_result v end.

Definition py_read_scalar_head := head_value is_prim_val prim_to_result.
Definition py_readback_result := readback_with is_prim_val is_prim prim_to_result.

Definition py_build_net (src : str) : res (NixEvalError NixError) (Net * PrimState * PortId) :=
  ast ← map_err (fun e => Readback (Said e)) (to_ast src);
  defs ← map_err (fun e => Readback (Said e)) prelude_defs;
  assemble py_ctx defs ast.

Definition py_eval (fuel : nat) (src : str) : res DnxError (NixEvalResult NixError) :=
  run_built py_read_scalar_head (py_readback_result fuel) fuel (py_build_net src).
End Python.
End Runtime.
