(* ===== verification/RuntimeSpec.v ===== *)
(** * From a program to a well-wired net

    What the runtimes build before reduction starts, through all the passes of
    the elaborator: the copies of the definitions, the renaming, the linearity
    check and the emission of the net. *)
From S2P Require Import Prelude Bytes Utf8 Text Codec Error LOPath Port Arena Net Prim Wiring Rules BlobSpec Ast Pass0 Pass1 Elab Open ElabSpec Read NixVal PyParse PyParseSpec PyLower Json Builtins BuiltinsSpec Whnf Runtime.

(** A net with a port to read from: the free port of a term, or a free slot
    wired to it. *)
Definition rooted (n : Net) (p : PortId) : Prop :=
  port_kind p = Principal /\ open n [p] \/
  open n [] /\ current n p /\ exists q, port_at n (key p) = Some q /\ current n q.

(** The free names of a term are among [defs]. *)
Definition names_defs {V F} (defs : gmap (list Z) (Ast V F)) (e : Ast V F) : Prop := forall x, occ e x <> 0%nat -> x ∈ dom defs.
(** What a front end hands to the passes. *)
Definition program {V F} (defs : gmap (list Z) (Ast V F)) (e : Ast V F) : Prop :=
  source_term e /\ supported None e = true /\ names_defs defs e.

(** * Lemmas *)

(** ** Copies of definitions *)

Section Copies.
Context {V F : Type} (defs : gmap (list Z) (Ast V F)).
Implicit Types (e : Ast V F) (bound : gset (list Z)).

(** A term [e'] copied from [e] inside the binders of [bound]. *)
Record copied_term (e e' : Ast V F) (bound bound' : gset (list Z)) : Prop := mk_copied {
  ct_bound : bound' ⊆ bound;
  ct_free : forall x, occ e' x <> 0%nat -> x ∈ bound \/ (x ∉ dom defs /\ occ e x <> 0%nat);
  ct_source : source_term e -> source_term e';
  ct_supported : supported None e' = true
}.

Lemma copied_same e bound : supported None e = true -> (forall x, occ e x <> 0%nat -> x ∈ bound \/ x ∉ dom defs) ->
  copied_term e e bound bound.
Proof. intros Hs Hx. split; [done| |done|done]. intros x Ho. destruct (Hx x Ho); auto. Qed.

Lemma occ_name (P : list Z -> Prop) n : P n -> forall x, occ (AName n : Ast V F) x <> 0%nat -> P x.
Proof. intros Hn x. cbn. case_bool_decide as Hx; [by subst|done]. Qed.

Ltac sources := unfold source_term in *; cbn [uses concat fmap list_fmap] in *; rewrite ?app_nil_r, ?Forall_app in *; tauto.
(** A name bound by a binder of the copy, or outside it. *)
Ltac free_names :=
  let x := fresh "x" in intros x; cbn [occ list_sum fmap list_fmap foldr];
  repeat match goal with H : forall x, occ _ x <> 0%nat -> _ |- _ => specialize (H x) end;
  repeat case_bool_decide; cbn [orb]; intros;
  repeat match goal with
    | H : ?n <> 0%nat -> _ |- _ =>
        destruct (decide (n = 0%nat)); [clear H|specialize (H ltac:(assumption)); destruct H as [?|[? ?]]]
    end; try lia;
  first [right; split; [assumption|lia] | left; set_solver].
Ltac copied := split; [set_solver|free_names|sources|cbn [supported] in *; auto using andb_true_intro].

Lemma copied_abs x e e' b b' : copied_term e e' ({[x]} ∪ b) b' -> copied_term (AAbs x e) (AAbs x e') b (b' ∖ {[x]}).
Proof. intros [C1 C2 C3 C4]. copied. Qed.

Lemma copied_app f f' a a' b b1 b2 : copied_term f f' b b1 -> copied_term a a' b1 b2 -> copied_term (AApp f a) (AApp f' a') b b2.
Proof. intros [C1 C2 C3 C4] [D1 D2 D3 D4]. copied. Qed.

Lemma copied_era e e' m m' b b1 b2 : copied_term e e' b b1 -> copied_term m m' b1 b2 -> copied_term (AEra e m) (AEra e' m') b b2.
Proof. intros [C1 C2 C3 C4] [D1 D2 D3 D4]. copied. Qed.

Lemma copied_rep e e' x y m m' b b1 b2 : copied_term e e' b b1 -> copied_term m m' ({[y]} ∪ ({[x]} ∪ b1)) b2 ->
  copied_term (ARep e x y m) (ARep e' x y m') b ((b2 ∖ {[x]}) ∖ {[y]}).
Proof. intros [C1 C2 C3 C4] [D1 D2 D3 D4]. copied. Qed.

Lemma copied_fix e e' b b' : copied_term e e' b b' -> copied_term (AFix e) (AFix e') b b'.
Proof. intros [C1 C2 C3 C4]. copied. Qed.

Lemma copied_handle e e' l x y m m' b b1 b2 : copied_term e e' b b1 -> copied_term m m' ({[y]} ∪ ({[x]} ∪ b1)) b2 ->
  copied_term (AHandle e [mk_branch l x y m]) (AHandle e' [mk_branch l x y m']) b ((b2 ∖ {[x]}) ∖ {[y]}).
Proof. intros [C1 C2 C3 C4] [D1 D2 D3 D4]. copied. Qed.

Definition copies (fuel : nat) (e : Ast V F) : Prop := supported None e = true -> forall bound e' bound',
  resolve defs fuel e bound = Ok (e', bound') -> copied_term e e' bound bound'.

Context (Hdefs : map_Forall (fun _ body => program defs body) defs).

Lemma copies_name fuel n : (forall e, copies fuel e) -> copies (S fuel) (AName n).
Proof.
  intros IH _ bound e' bound' Hr. cbn [resolve] in Hr.
  case_bool_decide as Hb; [injection Hr as <- <-; apply copied_same; [done|apply (occ_name (fun x => x ∈ bound \/ x ∉ dom defs)); auto]|].
  destruct (defs !! n) as [body|] eqn:E.
  2: { injection Hr as <- <-. apply copied_same; [done|]. apply (occ_name (fun x => x ∈ bound \/ x ∉ dom defs)). right. by apply not_elem_of_dom. }
  destruct (Hdefs n body E) as (Hs & Hp & Hn). destruct (IH body Hp bound e' bound' Hr) as [C1 C2 C3 C4].
  split; [done| |intros _; auto|done].
  intros x Hx. destruct (C2 x Hx) as [?|[Hd Ho]]; [auto|]. by destruct Hd; apply Hn.
Qed.

Ltac parts Hr := repeat match type of Hr with
  | context [resolve defs ?f ?e ?b] =>
      let E := fresh "E" in destruct (resolve defs f e b) as [[? ?]|?| |] eqn:E; cbn [mbind res_bind] in Hr; try discriminate Hr
  end; injection Hr as <- <-.

Lemma copies_all fuel : forall e, copies fuel e.
Proof.
  induction fuel as [|fuel IHf]; [intros e _ bound e' bound' Hr; done|].
  induction e using ast_ind; try (intros Hs bound e' bound' Hr; injection Hr as <- <-; apply copied_same; done).
  - by apply copies_name.
  - intros Hs bound e' bound' Hr.
    change (('(body2, bound) ← resolve defs (S fuel) e ({[x]} ∪ bound); Ok (AAbs x body2, bound ∖ {[x]})) = Ok (e', bound')) in Hr.
    parts Hr. eauto using copied_abs.
  - intros [Hs1 Hs2]%andb_true_iff bound e' bound' Hr.
    change (('(f2, bound) ← resolve defs (S fuel) e1 bound; '(x2, bound) ← resolve defs (S fuel) e2 bound;
             Ok (AApp f2 x2, bound)) = Ok (e', bound')) in Hr.
    parts Hr. eauto using copied_app.
  - intros [Hs1 Hs2]%andb_true_iff bound e' bound' Hr.
    change (('(e', bound) ← resolve defs (S fuel) e1 bound; '(body2, bound) ← resolve defs (S fuel) e2 ({[b]} ∪ ({[a]} ∪ bound));
             Ok (ARep e' a b body2, (bound ∖ {[a]}) ∖ {[b]})) = Ok (e', bound')) in Hr.
    parts Hr. eauto using copied_rep.
  - intros [Hs1 Hs2]%andb_true_iff bound e' bound' Hr.
    change (('(e', bound) ← resolve defs (S fuel) e1 bound; '(body2, bound) ← resolve defs (S fuel) e2 bound;
             Ok (AEra e' body2, bound)) = Ok (e', bound')) in Hr.
    parts Hr. eauto using copied_era.
  - intros Hs bound e' bound' Hr.
    change (('(e2, bound) ← resolve defs (S fuel) e bound; Ok (AFix e2, bound)) = Ok (e', bound')) in Hr.
    parts Hr. eauto using copied_fix.
  - done.
  - destruct bs as [|[l a k body] [|? ?]]; try done. intros [Hs1 Hs2]%andb_true_iff bound e' bound' Hr.
    match goal with H : Forall _ _ |- _ => apply Forall_cons_1 in H as [IHb _] end.
    change (('(comp2, bound) ← resolve defs (S fuel) e bound;
             '(branches2, bound) ← ('(body2, bound) ← resolve defs (S fuel) body ({[k]} ∪ ({[a]} ∪ bound));
               '(bs2, bound) ← Ok ([], (bound ∖ {[a]}) ∖ {[k]}); Ok (mk_branch l a k body2 :: bs2, bound));
             Ok (AHandle comp2 branches2, bound)) = Ok (e', bound')) in Hr.
    parts Hr. eauto using copied_handle.
Qed.
End Copies.

Lemma pass0_program {V F} (defs : gmap (list Z) (Ast V F)) e : map_Forall (fun _ body => program defs body) defs -> program defs e ->
  match pass0 defs e with
  | Ok e' => source_term e' /\ supported None e' = true /\ closed e'
  | Err (MutualRecursion _) => recursive_defs defs
  | _ => False
  end.
Proof.
  intros Hd (Hs & Hp & Hn). unfold pass0. pose proof (topo_check_spec defs) as Ht.
  destruct (topo_check defs) as [[]|[]| |]; [|destruct Ht|destruct Ht|exact Ht|destruct Ht..]. cbn [mbind res_bind].
  destruct (resolve_spec defs Ht (S (size (dom defs))) e ∅ ∅) as (e' & b' & E & _).
  - rewrite difference_empty_L. lia.
  - intros m v _ Hv. by apply elem_of_empty in Hv.
  - rewrite E. cbn [mbind res_bind]. destruct (copies_all defs Hd _ e Hp _ _ _ E) as [_ C2 C3 C4].
    split; [auto|]. split; [done|]. intros x. destruct (decide (occ e' x = 0%nat)) as [|Hx]; [done|].
    destruct (C2 x Hx) as [?%elem_of_empty|[Hx' Ho]]; [done|]. by destruct Hx'; apply Hn.
Qed.

(** ** Renaming *)

Section Shapes.
Context {V F : Type}.
Implicit Types e : Ast V F.

(** The number of names in a shape, and whether elaboration knows its constructs. *)
Fixpoint shape_uses (s : shape V F) : nat :=
  match s with
  | SVar _ => 1
  | SAbs s | SFix s | SPerform _ s => shape_uses s
  | SApp f a => shape_uses f + shape_uses a
  | SRep e s | SEra e s => shape_uses e + shape_uses s
  | SHandle c bs => shape_uses c + list_sum ((fun b => shape_uses b.2) <$> bs)
  | SVal _ | SFun _ => 0
  end.

Fixpoint shape_supported (s : shape V F) : bool :=
  match s with
  | SVar _ | SVal _ | SFun _ => true
  | SAbs s | SFix s => shape_supported s
  | SApp f a => shape_supported f && shape_supported a
  | SRep e s | SEra e s => shape_supported e && shape_supported s
  | SPerform _ _ => false
  | SHandle c [(_, s)] => shape_supported c && shape_supported s
  | SHandle _ _ => false
  end.

Lemma shape_uses_spec e : forall sc, shape_uses (shape_of sc e) = length (uses e).
Proof.
  induction e using ast_ind; intros sc; cbn [shape_of shape_uses uses]; rewrite ?length_app; auto.
  rewrite IHe. f_equal. match goal with H : Forall _ _ |- _ => induction H as [|[lb a k body] bs Hb _ IH] end; [done|].
  cbn in Hb, IH |- *. rewrite length_app, <- IH, Hb. done.
Qed.

Lemma shape_supported_spec e : forall sc, shape_supported (shape_of sc e) = supported None e.
Proof.
  induction e using ast_ind; intros sc; cbn [shape_of shape_supported supported]; try (by rewrite ?IHe1, ?IHe2); auto.
  destruct bs as [|[lb a k body] [|[lb' a' k' body'] bs]]; try done. cbn.
  match goal with H : Forall _ _ |- _ => apply Forall_cons_1 in H as [Hb _] end. by rewrite IHe, Hb.
Qed.

Lemma supported_known (ctx : PrimCtx V F) e : supported None e = true -> supported (Some (all_known ctx)) e = true.
Proof.
  induction e using ast_ind; cbn [supported]; rewrite ?andb_true_iff; try done; try tauto.
Qed.

(** Renaming keeps what elaboration looks at. *)
Lemma renamed_same e ctr : 0 <= ctr -> ctr + Z.of_nat (length (binders e)) < 2 ^ 32 -> source_term e ->
  let e' := (alpha_rename e ctr).1 in length (uses e') = length (uses e) /\ supported None e' = supported None e.
Proof.
  intros Hc Hr Hs e'. destruct (rename_spec e ∅ ctr [] [] Hc Hr Hs (renames_start ctr)) as (_ & _ & Hsh).
  fold (alpha_rename e ctr) in Hsh. fold e' in Hsh.
  by rewrite <- (shape_uses_spec e' []), <- (shape_uses_spec e []), <- (shape_supported_spec e' []), <- (shape_supported_spec e []), Hsh.
Qed.
End Shapes.

(** ** The root *)

Lemma open_add_root n O name p : open n O -> open (add_root n name p) O.
Proof. by intros [[H1 H2] H3 H4 H5]; split; [split|..]. Qed.

Lemma rooted_add_root n p name : rooted n p -> rooted (add_root n name p) p.
Proof. intros [[Hk Ho]|(Ho & Hc & Hq)]; [left|right]; (split; [|try by apply open_add_root]); [done|by apply open_add_root|done]. Qed.

(** The free slot a port other than a principal one is wired to. *)
Lemma root_slot n p : open n [p] ->
  returns (fun err => err = ArenaCapacityExceeded)
    (if bool_decide (port_kind p = Principal) then Ok (p, n)
     else '(rs, n) ← alloc_free n 0; n ← connect n p rs root; Ok (rs, n))
    (fun '(q, n') => rooted n' q).
Proof.
  intros Ho. case_bool_decide as Hk; [left; done|].
  eapply returns_bind; [by apply open_alloc_free|]. intros [rs n'] Ho'.
  destruct (open_wire_peer n' [] p rs root) as (n2 & -> & Ho2 & Hp & Hrs & Hpeer); [by rewrite Permutation_swap|].
  cbn [mbind res_bind]. right. split; [done|]. split; [done|]. by exists p.
Qed.

(** ** The functions of the two front ends *)

Section Contexts.
Context `{Host}.

Lemma nullary_builtin i name arity p : builtins !! i = Some (name, arity, p) -> arity = 0 -> total (call_builtin i []).
Proof.
  intros Hi ->. unfold call_builtin. rewrite Hi. cbn.
  assert (Forall (fun b : string * Z * _ => b.1.2 = 0 -> total (b.2 [])) builtins) as Hall.
  { unfold builtins. repeat (constructor; [cbn; intros ?; first [discriminate|exact I]|]). constructor. }
  rewrite Forall_forall in Hall. apply (Hall (name, 0, p)); [|done]. by eapply list_elem_of_lookup_2.
Qed.

Lemma nix_calls_total : calls_total call_builtin (Some nix_ctx).
Proof.
  intros ctx f en pf [= <-] Hf Hi Ha. cbn in Hf. unfold nixprimfun_to_entry in Hf.
  destruct (nixprimfun_name f) as [name|] eqn:E; [|done].
  destruct (table_resolves f name E) as (i & arity & p & Hb & Hen). unfold nixprimfun_to_entry in Hen. rewrite E in Hen.
  rewrite Hf in Hen. injection Hen as ->. cbn in Hi, Ha |- *. injection Hi as <-. by eapply nullary_builtin.
Qed.

Lemma py_name_nix f name : pyprimfun_name f = Some name -> nixprimfun_name f = Some name.
Proof. destruct f; cbn [pyprimfun_name]; try done. by case_match. Qed.

Lemma py_calls_total `{PyChars} : calls_total call_builtin (Some py_ctx).
Proof.
  intros ctx f en pf [= <-] Hf. apply (nix_calls_total _ f en pf eq_refl). cbn in Hf |- *.
  unfold pyprimfun_to_entry in Hf. unfold nixprimfun_to_entry.
  destruct (pyprimfun_name f) as [name|] eqn:E; [|done]. by rewrite (py_name_nix f name E).
Qed.
End Contexts.

(** ** The passes together *)

Section Assemble.
Context `{Host} `{PyChars} {X : Type}.

(** The two tables of functions. *)
Definition front_end (ctx : PrimCtx NixPrimVal NixPrimFun) : Prop := ctx = nix_ctx \/ ctx = py_ctx.

Lemma front_end_calls ctx : front_end ctx -> calls_total call_builtin (Some ctx).
Proof. intros [-> | ->]; [apply nix_calls_total|apply py_calls_total]. Qed.

(** The third pass on a copied and renamed program, and the root. *)
Lemma emitted ctx (e : E) ul ctr elab_ctr : front_end ctx -> 0 <= ctr -> ctr + Z.of_nat (length (binders e)) < 2 ^ 32 ->
  source_term e -> supported None e = true -> closed e ->
  let e' := (alpha_rename e ctr).1 in linear e' ->
  returns (fun err => elab_error call_builtin err \/ err = ReadbackIncomplete)
    ('((rp, _), s) ← elaborate_with_prims call_builtin ctx ul e' 0 root
       (mk_est (net_new DeltaK (Z.shiftl 1 16)) ∅ prims_new elab_ctr);
     '(root_port, n) ← (if bool_decide (port_kind rp = Principal) then Ok (rp, e_net s)
       else '(rs, n) ← alloc_free (e_net s) 0; n ← connect n rp rs root; Ok (rs, n));
     Ok (add_root n "r" root_port, e_prims s, root_port))
    (fun '(n, _, p) => rooted n p /\ free_slots n !! "r"%string = Some p).
Proof.
  intros Hctx Hc Hr Hs Hp Hcl e' Hlin. destruct (renamed_well_bound e ctr Hc Hr Hs Hcl Hlin) as [Hcl' Hw].
  destruct (renamed_same e ctr Hc Hr Hs) as [_ Hsup]. fold e' in Hsup.
  eapply returns_bind.
  { apply unknown_elaborates; [done|done|apply supported_known; by rewrite Hsup|by apply front_end_calls|done]. }
  intros [[rp l] s] [Ho _]. eapply returns_bind.
  { eapply returns_mono; [|intros a Ha; exact Ha|by apply root_slot]. intros err ->. left. by left. }
  intros [q n] Hq. split; [by apply rooted_add_root|]. apply lookup_insert_eq.
Qed.
End Assemble.

(** ** A concrete instance *)

(** Two definitions of the prelude of lists, as a parser of Nix reads them. *)
Definition nil_term : E := AAbs [99] (AEra (AName [99]) (AAbs [110] (AName [110]))).
Definition cons_term : E :=
  AAbs [104] (AAbs [116] (AAbs [99] (AAbs [110] (AEra (AName [110]) (AApp (AApp (AName [99]) (AName [104])) (AName [116])))))).
Definition list_defs : gmap (list Z) E := list_to_map [(chars "nil", nil_term); (chars "cons", cons_term)].
(** [[1, 2]]. *)
Definition pair_term : E :=
  AApp (AApp (AName (chars "cons")) (AVal (NInt 1))) (AApp (AApp (AName (chars "cons")) (AVal (NInt 2))) (AName (chars "nil"))).

Definition program_check (defs : gmap (list Z) E) (e : E) : bool :=
  bool_decide (source_term e) && supported None e && bool_decide (fv e ⊆ dom defs).

Lemma program_checked defs e : program_check defs e = true -> program defs e.
Proof.
  intros [[Hs%bool_decide_eq_true Hp]%andb_true_iff Hn%bool_decide_eq_true]%andb_true_iff.
  split; [done|]. split; [done|]. intros x Hx. by apply Hn, elem_of_fv.
Qed.

#[local] Existing Instance no_floats.
#[local] Existing Instance ascii_chars.

(** A parser of Nix that reads the two definitions above. *)
Definition reads_lists (src : list Z) : res unit E :=
  if bool_decide (src = chars "c: n: n") then Ok nil_term
  else if bool_decide (src = chars "h: t: c: n: c h t") then Ok cons_term
  else Ok (AVal NNull).
Definition evaluates (src : string) (r : NixEvalResult unit) : Prop :=
  py_eval reads_lists 0 0 0 300 (chars src) = Ok r.

(** From a source text to a value. *)
Lemma eval_numbers : evaluates "1 + 2" (RInt 3) /\ evaluates "(lambda x: x * x)(7)" (RInt 49) /\
  evaluates "1 if 2 < 3 else 4" (RInt 1) /\ evaluates "{'a': 1}.a" (RInt 1).
Proof. repeat split; vm_compute; reflexivity. Qed.

Lemma eval_list : evaluates "[1, 2 + 3]" (RList [Prim.PInt 1; Prim.PInt 5]).
Proof. vm_compute. reflexivity. Qed.

Lemma eval_error : evaluates "1 / 0" (RError (Elaborate (PrimError (chars "div: division by zero")))).
Proof. vm_compute. reflexivity. Qed.

Lemma eval_lambda : exists e, evaluates "lambda x: x" (RLambda e).
Proof. eexists. vm_compute. reflexivity. Qed.

(** A function of two arguments that answers one of them is read back as the
    empty list: [scott_list_elems] takes every [λc. λn. b] for [nil] unless
    [b] is an application. *)
Lemma function_read_as_nil : evaluates "lambda x: lambda y: x" (RList []) /\ evaluates "lambda x: lambda y: y" (RList []).
Proof. split; vm_compute; reflexivity. Qed.

(** * Properties *)

(** C2: A program of either front end, a source term whose free names are
    definitions of the prelude, becomes a net or one of the errors its passes
    name.  The net is well wired and can be read: its root is the one port
    left free, or a free slot wired to it.  [Elaborate2] says that
    definitions refer to each other in a cycle, or that the program with its
    definitions copied in and its binders renamed uses a binder other than
    once; [Elaborate] that a limit was reached, that a value or function is
    unknown, or that a builtin without arguments failed.  No pass panics. *)
Theorem assemble_wired `{Host} `{PyChars} {X : Type} (ctx : PrimCtx NixPrimVal NixPrimFun) (defs : gmap (list Z) E) (e : E)
    (alpha_ctr elab_ctr : Z) :
  front_end ctx -> map_Forall (fun _ body => program defs body) defs -> program defs e -> 0 <= alpha_ctr ->
  (forall e', pass0 defs e = Ok e' -> alpha_ctr + Z.of_nat (length (binders e')) < 2 ^ 32 /\ Z.of_nat (length (uses e')) < 2 ^ 32) ->
  match assemble (NixError := X) alpha_ctr elab_ctr ctx defs e with
  | Ok (n, _, p) => rooted n p /\ free_slots n !! "r"%string = Some p
  | Err (Elaborate2 err) => recursive_defs defs \/
      exists e', pass0 defs e = Ok e' /\ lin_error (alpha_rename e' alpha_ctr).1 = Some err
  | Err (Elaborate err) => elab_error call_builtin err \/ err = ReadbackIncomplete
  | _ => False
  end.
Proof.
  intros Hctx Hd He Hc Hsize. unfold assemble. pose proof (pass0_program defs e Hd He) as Hp0.
  destruct (pass0 defs e) as [e1|[]| |] eqn:E0; [|destruct Hp0|destruct Hp0|by left|destruct Hp0..].
  destruct Hp0 as (Hs & Hp & Hcl). destruct (Hsize e1 eq_refl) as [Hb Hu]. cbn [map_err mbind res_bind].
  destruct (renamed_same e1 alpha_ctr Hc Hb Hs) as [Hlen _].
  rewrite pass1_answer by (by rewrite Hlen). destruct (lin_error (alpha_rename e1 alpha_ctr).1) as [err|] eqn:El.
  { cbn [map_err mbind res_bind]. right. by exists e1. }
  cbn [map_err mbind res_bind usage_levels]. apply lin_error_linear in El.
  pose proof (emitted ctx e1 (add_levels (occ_levels 0 (alpha_rename e1 alpha_ctr).1) ∅) alpha_ctr elab_ctr Hctx Hc Hb Hs Hp Hcl El) as Ht.
  cbn zeta in Ht. destruct (elaborate_with_prims _ _ _ _ _ _ _) as [[[rp l] s]|err| |]; cbn [map_err mbind res_bind returns] in Ht |- *; try done.
  destruct (bool_decide _); [exact Ht|]. destruct (alloc_free _ _) as [[rs n]|err| |]; cbn [map_err mbind res_bind returns] in Ht |- *; try done.
  destruct (connect _ _ _ _) as [n'|err| |]; cbn [map_err mbind res_bind returns] in Ht |- *; done.
Qed.

Lemma assemble_wired_witness : exists n ps p,
  assemble (NixError := unit) 0 0 py_ctx list_defs pair_term = Ok (n, ps, p) /\ rooted n p /\ agent_count n = 21%nat.
Proof.
  assert (map_Forall (fun _ body => program list_defs body) list_defs) as Hd.
  { apply map_Forall_insert_2; [apply program_checked; vm_compute; reflexivity|].
    apply map_Forall_insert_2; [apply program_checked; vm_compute; reflexivity|]. apply map_Forall_empty. }
  destruct (pass0 list_defs pair_term) as [e0|err| |] eqn:E0; [|vm_compute in E0; discriminate E0..].
  pose proof (assemble_wired (X := unit) py_ctx list_defs pair_term 0 0 ltac:(right; reflexivity) Hd
    ltac:(apply program_checked; vm_compute; reflexivity) ltac:(lia)) as Hw.
  specialize (Hw ltac:(intros e' He'; rewrite He' in E0; injection E0 as <-; vm_compute in He'; injection He' as <-; split; vm_compute; reflexivity)).
  destruct (assemble 0 0 py_ctx list_defs pair_term) as [[[n ps] p]|err| |] eqn:E; [|vm_compute in E; discriminate E..].
  exists n, ps, p. split; [done|]. split; [apply Hw|]. vm_compute in E. injection E as <- <- <-. vm_compute. reflexivity.
Defined.
