(* ===== verification/TestRunner.v ===== *)
(** * Tests ([crates/dnx-lang/src/suite.rs], [crates/dnx-test/])

    The cases of a suite, then their evaluation, the cache of verdicts and
    the scan of a directory. *)
From S2P Require Import Prelude Bytes Utf8 Text Error Prim StorePath Fs NixTree Ast NixVal Json Builtins NixLower Runtime.

(** * Discovery of test cases ([crates/dnx-lang/src/suite.rs])

    A literal suite is walked as a syntax tree, its cases kept as texts with
    the enclosing [let]s in front; a computed one is evaluated first and its
    value walked. *)

Record TestCase : Type := mk_case { case_path : str; case_expr : str; case_expected : str }.
Record ValueCase : Type := mk_value_case { vc_path : str; vc_expr : PrimValue; vc_expected : PrimValue }.

(** [{prefix}.{key}]. *)
Definition dotted (prefix key : str) : str := match prefix with [] => key | _ => prefix ++ [46] ++ key end.

Section Literal.
Context `{NixParser} (src : list Z).

(** The pairs of a set, [inherit]s left out. *)
Definition entry_pair (entry : Entry Nix) : res NixError (option (list Z * Nix)) :=
  match entry with
  | AttrpathValue ap value =>
      key ← attrpath_simple_name ap;
      val ← ok_or value (UnsupportedSyntax (chars "attr missing value"));
      Ok (Some (key, val))
  | Inherit _ _ => Ok None
  end.
Definition entries (set : list (Entry Nix)) : res NixError (list (list Z * Nix)) :=
  ps ← mapMr entry_pair set; Ok (omap (M := list) id ps).

Definition lookup_pair (pairs : list (list Z * Nix)) (name : string) : option Nix :=
  snd <$> find (fun kv => bool_decide (kv.1 = chars name)) pairs.

Definition with_prelude (prelude : str) (side : Nix) : str :=
  match prelude with [] => source_of side | _ => prelude ++ [40] ++ source_of side ++ [41] end.

(** The set an expression is, once parentheses and [let]s are peeled. *)
Fixpoint as_attrset (expr : Nix) (prelude : str) : option (list (Entry Nix) * list Z) :=
  match expr with
  | XAttrSet _ es => Some (es, prelude)
  | XParen (Some e) | XRoot (Some e) => as_attrset e prelude
  | XLetIn _ (Some body) => header ← let_source src expr; as_attrset body (prelude ++ header ++ [32])
  | _ => None
  end.

(** The loop of [walk] over a set whose keys are fine. *)
Fixpoint walk_entries (visit : Nix -> list Z -> list Z -> res NixError (list TestCase)) (prefix prelude : str)
    (es : list (Entry Nix)) : res NixError (list TestCase) :=
  match es with
  | [] => Ok []
  | AttrpathValue ap (Some val) :: es =>
      key ← attrpath_simple_name ap;
      found ← visit val (dotted prefix key) prelude;
      more ← walk_entries visit prefix prelude es;
      Ok (found ++ more)
  | _ :: es => walk_entries visit prefix prelude es
  end.

(** What [walk] finds in a value at [path]: a case, or the cases below a set;
    anything else is passed over. *)
Fixpoint visit (val : Nix) (path prelude : list Z) {struct val} : res NixError (list TestCase) :=
  match val with
  | XAttrSet _ es =>
      inner_pairs ← entries es;
      match lookup_pair inner_pairs "expr", lookup_pair inner_pairs "expected" with
      | Some e, Some x => Ok [mk_case path (with_prelude prelude e) (with_prelude prelude x)]
      | _, _ => walk_entries visit path prelude es
      end
  | XParen (Some e) | XRoot (Some e) => visit e path prelude
  | XLetIn _ (Some body) =>
      match let_source src val with Some header => visit body path (prelude ++ header ++ [32]) | None => Ok [] end
  | _ => Ok []
  end.

Definition walk (set : list (Entry Nix)) (prefix prelude : str) : res NixError (list TestCase) :=
  _ ← entries set; walk_entries visit prefix prelude set.

Definition parse_test_suite : res NixError (list TestCase) :=
  match rnix_parse src with
  | (e :: errs, _) => Err (ParseError (join_with (chars "; ") (e :: errs)))
  | ([], None) => Err (ParseError (chars "empty program"))
  | ([], Some expr) =>
      '(top, prelude) ← ok_or (as_attrset expr []) (UnsupportedSyntax (chars "tests file must be an attrset"));
      walk top [] prelude
  end.

Fixpoint peel (expr : Nix) : bool :=
  match expr with
  | XAttrSet _ _ => true
  | XParen (Some e) | XRoot (Some e) | XLetIn _ (Some e) => peel e
  | _ => false
  end.
Definition is_literal_attrset : bool :=
  match rnix_parse src with
  | (_ :: _, _) => true
  | ([], expr) => match expr with Some e => peel e | None => false end
  end.
End Literal.

(** ** Computed suites *)

Definition pick (kvs : list (list Z * PrimValue)) (name : string) : option PrimValue :=
  snd <$> find (fun kv => bool_decide (kv.1 = chars name)) kvs.

Fixpoint walk_value (value : PrimValue) (prefix : list Z) {struct value} : list ValueCase :=
  match value with
  | PAttrSet kvs =>
      match pick kvs "expr", pick kvs "expected" with
      | Some e, Some x => [mk_value_case prefix e x]
      | _, _ => concat ((fun kv => let '(key, child) := kv in walk_value child (dotted prefix key)) <$> kvs)
      end
  | _ => []
  end.

(** [eval] is [eval_canonical]; the text of an error is [show]. *)
Definition discover_computed (eval : list Z -> res (NixEvalError NixError) (NixEvalResult NixError * Z))
    (show : NixEvalError NixError -> list Z) (src : str) : res NixError (list ValueCase) :=
  '(value, _) ← map_err (fun e => InternalError (chars "computed suite: " ++ show e)) (eval src);
  match value with
  | RAttrSet kvs => Ok (walk_value (PAttrSet kvs) [])
  | _ => Err (UnsupportedSyntax (chars "computed suite must evaluate to an attrset"))
  end.

(** * The test runner ([crates/dnx-test/])

    Cases are evaluated and compared, their verdicts cached under a hash of
    their source; a directory is scanned and its outcomes tallied.  A pool of
    threads maps a function over a list in order: each call reads and writes
    the cache under its own key only.  Times are left out.  What evaluation
    answers is an argument of the definitions ([Runtime] has it); texts of
    errors of the engine are parameters. *)

Class EngineText : Type := { dnx_text : DnxError -> list Z; lin_text : LinError -> list Z; py_text : PyParse.PyError -> list Z }.

Inductive Outcome : Type :=
| Pass
| Failed (expected got : list Z)
| Errored (msg : list Z).

#[export] Instance Outcome_eq_dec : EqDecision Outcome.
Proof. solve_decision. Defined.

Record CaseReport : Type := mk_report { r_path : list Z; r_outcome : Outcome; r_interactions : Z; r_cached : bool }.

Definition passed (r : CaseReport) : bool := bool_decide (r_outcome r = Pass).

(** The counters of a [RunReport]. *)
Definition run_passed (cases : list CaseReport) : nat := length (filter (fun c => passed c = true) cases).
Definition run_failed (cases : list CaseReport) : nat :=
  length (filter (fun c => match r_outcome c with Failed _ _ => true | _ => false end = true) cases).
Definition run_errored (cases : list CaseReport) : nat :=
  length (filter (fun c => match r_outcome c with Errored _ => true | _ => false end = true) cases).
Definition run_cached (cases : list CaseReport) : nat := length (filter (fun c => r_cached c = true) cases).
Definition all_passed (cases : list CaseReport) : bool := forallb passed cases.

(** ** The cache ([cache.rs]) *)

Definition FNV_OFFSET : Z := 14695981039346656037.
Definition FNV_PRIME : Z := 1099511628211.

Definition fnv_step (h : Z) (b : byte) : Z := (Z.lxor h (byte_to_Z b) * FNV_PRIME) mod 2 ^ 64.

(** [{h:016x}]. *)
Definition hex16 (h : Z) : str := let ds := radix 16 16 h [] in repeat 48 (16 - length ds) ++ ds.

Definition case_bytes (c : TestCase) : list byte :=
  utf8 (case_path c) ++ [x00] ++ utf8 (case_expr c) ++ [x00] ++ utf8 (case_expected c).
Definition case_key (c : TestCase) : str := hex16 (foldl fnv_step FNV_OFFSET (case_bytes c)).

Definition TAB : Z := 9.
Definition sanitize (s : str) : str := (fun c => if (c =? 9) || (c =? 10) || (c =? 13) then 32 else c) <$> s.

Definition encode (o : Outcome) : str :=
  match o with
  | Pass => chars "P"
  | Failed expected got => chars "F" ++ [TAB] ++ sanitize expected ++ [TAB] ++ sanitize got
  | Errored msg => chars "E" ++ [TAB] ++ sanitize msg
  end.

(** [splitn(n, sep)]. *)
Fixpoint splitn (n : nat) (sep : Z) (s : str) : list (list Z) :=
  match n with
  | O => []
  | 1%nat => [s]
  | S n => match split_once sep s with Some (a, b) => a :: splitn n sep b | None => [s] end
  end.

Definition decode (s : str) : option Outcome :=
  match splitn 3 TAB s with
  | [] => None
  | tag :: rest =>
      if bool_decide (tag = chars "P") then Some Pass
      else if bool_decide (tag = chars "F") then
        match rest with expected :: got :: _ => Some (Failed expected got) | _ => None end
      else if bool_decide (tag = chars "E") then Some (Errored (default [] (head rest)))
      else None
  end.

(** A cache directory is a map from keys to contents; [put_ok] says for which
    keys the write and the rename succeed. *)
Notation Cache := (gmap (list Z) (list byte)).

Definition cache_get (c : gmap (list Z) (list byte)) (key : str) : option Outcome :=
  bytes ← c !! key; s ← from_utf8 bytes; decode s.
Definition cache_put (put_ok : list Z -> bool) (key : str) (o : Outcome) (c : gmap (list Z) (list byte)) : gmap (list Z) (list byte) :=
  if put_ok key then <[key := utf8 (encode o)]> c else c.

(** ** Verdicts ([lib.rs]) *)

Section Run.
Context `{Host} `{Fmt} `{EngineText}.
Notation result := (NixEvalResult NixError) (only parsing).

Definition eval_error_text (e : NixEvalError NixError) : str :=
  match e with
  | ParseErr e => nix_display e
  | Elaborate e => dnx_text e
  | Elaborate2 e => lin_text e
  | Readback (Txt s) => chars "readback error: " ++ chars s
  | Readback (Said e) => chars "readback error: " ++ py_text e
  end.

Definition bool_text (b : bool) : str := chars (if b then "true" else "false").
Definition count_text (n : nat) (open_ close : string) : str := chars open_ ++ digits 20 (Z.of_nat n) [] ++ chars close.

Definition render (v : NixEvalResult NixError) : str :=
  match v with
  | RInt n => decimal n
  | RFloat f => f_text f
  | RStr s => debug_str s
  | RBool b => bool_text b
  | RNull => chars "null"
  | RList xs => count_text (length xs) "[ " " items ]"
  | RAttrSet kvs => count_text (length kvs) "{ " " attrs }"
  | RLambda _ => chars "<lambda>"
  | RError e => chars "<error: " ++ eval_error_text e ++ chars ">"
  end.

Definition render_pv (v : PrimValue) : str :=
  match v with
  | PInt n => decimal n
  | PFloat f => f_text f
  | PStr s => debug_str s
  | PPath p => p
  | PBool b => bool_text b
  | PNull => chars "null"
  | PList xs => count_text (length xs) "[ " " items ]"
  | PAttrSet kvs => count_text (length kvs) "{ " " attrs }"
  | PClosure _ | PLambda => chars "<lambda>"
  end.

Definition compare_value_case (c : ValueCase) : Outcome :=
  if prim_eqb (vc_expr c) (vc_expected c) then Pass
  else Failed (render_pv (vc_expected c)) (render_pv (vc_expr c)).

(** [eval] is [NixRuntime::eval_canonical]. *)
Context (eval : list Z -> res (NixEvalError NixError) (NixEvalResult NixError * Z)).

(** Interactions are added as [u64]. *)
Definition eval_case {X : Type} (c : TestCase) : res X (Outcome * Z) :=
  match eval (case_expr c), eval (case_expected c) with
  | Panic, _ | Fuel, Panic | Ok _, Panic | Err _, Panic => Panic
  | Fuel, _ | Ok _, Fuel | Err _, Fuel => Fuel
  | Ok (ev, ei), Ok (xv, xi) =>
      Ok (if conv_eq ev xv then Pass else Failed (render xv) (render ev), (ei + xi) mod 2 ^ 64)
  | Err e, _ => Ok (Errored (chars "expr: " ++ eval_error_text e), 0)
  | _, Err e => Ok (Errored (chars "expected: " ++ eval_error_text e), 0)
  end.

Context (put_ok : list Z -> bool).

(** The cache, if there is one, is threaded through. *)
Definition run_one {X : Type} (c : TestCase) (cache : option (gmap (list Z) (list byte)))
    : res X (CaseReport * option (gmap (list Z) (list byte))) :=
  let key := case_key c in
  match (m ← cache; cache_get m key) with
  | Some outcome => Ok (mk_report (case_path c) outcome 0 true, cache)
  | None =>
      '(outcome, interactions) ← eval_case c;
      Ok (mk_report (case_path c) outcome interactions false, cache_put put_ok key outcome <$> cache)
  end.

(** The calls of the pool, one after the other. *)
Fixpoint run_cases {X : Type} (cases : list TestCase) (cache : option (gmap (list Z) (list byte)))
    : res X (list CaseReport * option (gmap (list Z) (list byte))) :=
  match cases with
  | [] => Ok ([], cache)
  | c :: cases =>
      '(r, cache) ← run_one c cache;
      '(rs, cache) ← run_cases cases cache;
      Ok (r :: rs, cache)
  end.

Definition run_suite `{NixParser} (src : str) (cache : option (gmap (list Z) (list byte)))
    : res (list Z) (list CaseReport * option (gmap (list Z) (list byte))) :=
  cases ← map_err nix_display (parse_test_suite src);
  run_cases cases cache.

Definition run_one_value (c : ValueCase) : CaseReport := mk_report (vc_path c) (compare_value_case c) 0 false.

Definition run_computed_suite `{NixParser} (src : str) : res (list Z) (list CaseReport) :=
  cases ← map_err nix_display (discover_computed eval eval_error_text src);
  Ok (map run_one_value cases).

(** ** Scans ([scan.rs]) *)

Inductive FailKind : Type :=
| KParse | KUnsupported | KUnbound | KLinearity | KInternal | KImportCycle | KElaborate | KReadback.

Definition fail_kind (err : NixEvalError NixError) : FailKind :=
  match err with
  | ParseErr (ParseError _) | ParseErr (SearchPathUnset _) => KParse
  | ParseErr (UnsupportedSyntax _) => KUnsupported
  | ParseErr (UnboundVariable _) => KUnbound
  | ParseErr (LinearityViolation _) => KLinearity
  | ParseErr (InternalError _) => KInternal
  | ParseErr (ImportCycle _) => KImportCycle
  | Elaborate (LinErr _) => KLinearity
  | Elaborate _ => KElaborate
  | Elaborate2 _ => KLinearity
  | Readback _ => KReadback
  end.

Definition fail_tag (k : FailKind) : string :=
  match k with
  | KParse => "parse" | KUnsupported => "unsupported" | KUnbound => "unbound" | KLinearity => "linearity"
  | KInternal => "internal" | KImportCycle => "import-cycle" | KElaborate => "elaborate" | KReadback => "readback"
  end.

Inductive FileOutcome : Type :=
| FValue (kind : list Z)
| FFailed (kind : FailKind) (message : list Z).

Definition is_value (o : FileOutcome) : bool := match o with FValue _ => true | _ => false end.

Record FileReport : Type := mk_file { f_path : list (list Z); f_outcome : FileOutcome }.

Definition scan_evaluated (files : list FileReport) : nat := length (filter (fun f => is_value (f_outcome f) = true) files).
Definition scan_failed (files : list FileReport) : nat := (length files - scan_evaluated files)%nat.

Definition kind_eqb (a b : FailKind) : bool := bool_decide (fail_tag a = fail_tag b).
Definition failed_as (k : FailKind) (f : FileReport) : bool :=
  match f_outcome f with FFailed k' _ => kind_eqb k' k | FValue _ => false end.
Definition fails_of (k : FailKind) (files : list FileReport) : nat := length (filter (fun f => failed_as k f = true) files).

Definition all_kinds : list FailKind := [KParse; KUnsupported; KUnbound; KLinearity; KInternal; KImportCycle; KElaborate; KReadback].

(** More failures first, then by tag. *)
Definition hist_before (a b : FailKind * nat) : bool :=
  (b.2 <? a.2)%nat || ((a.2 =? b.2)%nat && str_leb (chars (fail_tag a.1)) (chars (fail_tag b.1))).
Fixpoint hist_insert (x : FailKind * nat) (l : list (FailKind * nat)) : list (FailKind * nat) :=
  match l with
  | [] => [x]
  | y :: l => if hist_before x y then x :: y :: l else y :: hist_insert x l
  end.
Definition fail_histogram (files : list FileReport) : list (FailKind * nat) :=
  foldr hist_insert [] (filter (fun kn => (0 < kn.2)%nat) ((fun k => (k, fails_of k files)) <$> all_kinds)).

Definition value_kind (v : NixEvalResult NixError) : str :=
  match v with
  | RInt _ => chars "int" | RFloat _ => chars "float" | RStr _ => chars "string" | RBool _ => chars "bool" | RNull => chars "null"
  | RList xs => count_text (length xs) "list[" "]"
  | RAttrSet kvs => count_text (length kvs) "attrset{" "}"
  | RLambda _ => chars "lambda"
  | RError _ => chars "error"
  end.

Definition classify_file (r : NixEvalResult NixError) : FileOutcome :=
  match r with RError e => FFailed (fail_kind e) (eval_error_text e) | v => FValue (value_kind v) end.

(** [Path::extension] is [nix]. *)
Definition nix_extension (name : str) : bool :=
  match split_once DOT (rev name) with
  | Some (ext, _ :: _) => bool_decide (rev ext = chars "nix")
  | _ => false
  end.

(** The paths of the files below a directory, as its entries come. *)
Fixpoint nix_files (p : list (list Z)) (n : fnode) : list (list (list Z)) :=
  match n with
  | File _ => []
  | Dir cs =>
      concat ((fun yc => let '(y, c) := yc in
        match c with
        | Dir _ => nix_files (p ++ [y]) c
        | File _ => if nix_extension y then [p ++ [y]] else []
        end) <$> cs)
  end.

(** Paths compare name by name. *)
Fixpoint path_leb (a b : list (list Z)) : bool :=
  match a, b with
  | [], _ => true
  | _ :: _, [] => false
  | x :: a, y :: b => if bool_decide (x = y) then path_leb a b else str_leb x y
  end.
Fixpoint path_insert (x : list (list Z)) (l : list (list (list Z))) : list (list (list Z)) :=
  match l with
  | [] => [x]
  | y :: l => if path_leb x y then x :: y :: l else y :: path_insert x l
  end.
Definition collect_nix_files (root : list (list Z)) (tree : fnode) : list (list (list Z)) :=
  match fs_get root tree with Ok n => foldr path_insert [] (nix_files [] n) | _ => [] end.

(** [eval_file] evaluates the file at a path below the root. *)
Definition scan_dir {X : Type} (eval_file : list (list Z) -> res X (NixEvalResult NixError)) (root : list (list Z)) (tree : fnode)
    : res X (list FileReport) :=
  mapMr (fun p => r ← eval_file p; Ok (mk_file p (classify_file r))) (collect_nix_files root tree).
End Run.
