(* ===== verification/TestRunnerSpec.v ===== *)
(** * The test runner, proved

    A stored verdict reads back; a cache of true verdicts changes no verdict
    of a run and stays one; a second run of a suite evaluates nothing; the
    histogram of a scan accounts for each failure once. *)
From S2P Require Import Prelude Bytes Utf8 Text Error Prim StorePath Fs NixTree Ast NixVal Json Builtins NixLower Runtime TestRunner.

(** What a stored verdict keeps of one. *)
Definition stored (o : Outcome) : Outcome :=
  match o with
  | Pass => Pass
  | Failed expected got => Failed (sanitize expected) (sanitize got)
  | Errored msg => Errored (sanitize msg)
  end.

Definition valid (o : Outcome) : Prop :=
  match o with
  | Pass => True
  | Failed expected got => Forall scalar expected /\ Forall scalar got
  | Errored msg => Forall scalar msg
  end.

Lemma sanitize_idem s : sanitize (sanitize s) = sanitize s.
Proof.
  unfold sanitize. rewrite <- list_fmap_compose. apply list_fmap_ext. intros _ c _. simpl.
  destruct ((c =? 9) || (c =? 10) || (c =? 13)) eqn:E; [done|]. by rewrite E.
Qed.

Lemma stored_idem o : stored (stored o) = stored o.
Proof. destruct o; simpl; by rewrite ?sanitize_idem. Qed.

Lemma stored_passed o : stored o = Pass <-> o = Pass.
Proof. by destruct o. Qed.

Lemma sanitize_free s : TAB ∉ sanitize s.
Proof.
  unfold sanitize, TAB. intros (c & E & _)%list_elem_of_fmap.
  destruct ((c =? 9) || (c =? 10) || (c =? 13)) eqn:Ec; lia.
Qed.

Lemma sanitize_scalar s : Forall scalar s -> Forall scalar (sanitize s).
Proof.
  intros H. unfold sanitize. rewrite Forall_fmap. eapply Forall_impl; [done|]. intros c Hc. simpl.
  destruct (_ || _); [|done]. unfold scalar. lia.
Qed.

Lemma split_once_free s : TAB ∉ s -> split_once TAB s = None.
Proof.
  induction s as [|c s IH]; [done|]. intros H. simpl.
  destruct (c =? TAB) eqn:E; [apply Z.eqb_eq in E; subst; set_solver|]. rewrite IH by set_solver. done.
Qed.

Lemma split_once_at s t : TAB ∉ s -> split_once TAB (s ++ TAB :: t) = Some (s, t).
Proof.
  induction s as [|c s IH]; [done|]. intros H. cbn [app split_once].
  destruct (c =? TAB) eqn:E; [apply Z.eqb_eq in E; subst; set_solver|]. rewrite IH by set_solver. done.
Qed.

Lemma decode_encode o : decode (encode o) = Some (stored o).
Proof.
  destruct o as [|x g|m]; [done| |]; unfold decode.
  - change (encode (Failed x g)) with ([70] ++ TAB :: (sanitize x ++ TAB :: sanitize g)).
    cbn [splitn]. rewrite split_once_at by (vm_compute; set_solver).
    rewrite split_once_at by apply sanitize_free. done.
  - change (encode (Errored m)) with ([69] ++ TAB :: sanitize m).
    cbn [splitn]. rewrite split_once_at by (vm_compute; set_solver).
    by rewrite split_once_free by apply sanitize_free.
Qed.

Lemma encode_scalar o : valid o -> Forall scalar (encode o).
Proof.
  assert (T : scalar TAB) by (unfold scalar, TAB; lia).
  destruct o as [|x g|m]; unfold encode; cbn [valid]; intros Ho; rewrite ?Forall_app; repeat split;
    try (by repeat constructor); try (by apply sanitize_scalar; tauto);
    (apply Forall_forall; intros c Hc; vm_compute in Hc; unfold scalar; set_unfold in Hc; lia).
Qed.

Lemma get_put key o c : valid o -> cache_get (cache_put (fun _ => true) key o c) key = Some (stored o).
Proof.
  intros Ho. unfold cache_get, cache_put. rewrite lookup_insert_eq. simpl.
  rewrite from_utf8_utf8 by by apply encode_scalar. apply decode_encode.
Qed.

Lemma get_put_ne put_ok key key' o c : key <> key' -> cache_get (cache_put put_ok key o c) key' = cache_get c key'.
Proof. intros Hk. unfold cache_get, cache_put. destruct (put_ok key); [|done]. by rewrite lookup_insert_ne. Qed.

Lemma get_put_any put_ok key o c : valid o ->
  cache_get (cache_put put_ok key o c) key = Some (stored o) \/ cache_put put_ok key o c = c.
Proof.
  intros Ho. unfold cache_put. destruct (put_ok key) eqn:E; [left|by right].
  by apply (get_put key o c).
Qed.

(** ** Runs *)

Section Runs.
Context `{Host} `{Fmt} `{EngineText} {X : Type}.
Context (eval : list Z -> res (NixEvalError NixError) (NixEvalResult NixError * Z)) (put_ok : list Z -> bool).
Notation ev := (eval_case (X := X) eval).
Notation run1 := (run_one (X := X) eval put_ok).
Notation run := (run_cases (X := X) eval put_ok).

(** The entry of a case, if there is one, is what its evaluation answers. *)
Definition sound (cases : list TestCase) (cache : gmap (list Z) (list byte)) : Prop :=
  forall c o, c ∈ cases -> cache_get cache (case_key c) = Some o -> exists o' n, ev c = Ok (o', n) /\ o = stored o'.

(** The texts a verdict quotes are Rust strings. *)
Definition texts_ok (cases : list TestCase) : Prop := forall c o n, c ∈ cases -> ev c = Ok (o, n) -> valid o.

(** No two cases share a key. *)
Definition distinct (cases : list TestCase) : Prop :=
  forall c c', c ∈ cases -> c' ∈ cases -> case_key c = case_key c' -> c = c'.

(** Two reports of a case with the same verdict; one from the cache counts no
    interaction, the others count as many. *)
Definition agrees (r r' : CaseReport) : Prop :=
  r_path r' = r_path r /\ stored (r_outcome r') = stored (r_outcome r) /\
  r_interactions r' = (if r_cached r' then 0 else r_interactions r).

Lemma run_one_none c r k : run1 c None = Ok (r, k) ->
  exists o n, ev c = Ok (o, n) /\ r = mk_report (case_path c) o n false /\ k = None.
Proof. intros ([o n] & E & [= <- <-])%bind_Ok. eauto. Qed.

Lemma run_one_some c cache :
  (exists o, cache_get cache (case_key c) = Some o /\
     run1 c (Some cache) = Ok (mk_report (case_path c) o 0 true, Some cache)) \/
  (cache_get cache (case_key c) = None /\
     run1 c (Some cache) = ('(o, n) ← ev c; Ok (mk_report (case_path c) o n false, Some (cache_put put_ok (case_key c) o cache)))).
Proof. unfold run_one. simpl. destruct (cache_get cache (case_key c)) as [o|] eqn:E; [left|right]; eauto. Qed.

Lemma sound_put cases cache c o n : distinct cases -> c ∈ cases -> ev c = Ok (o, n) -> valid o ->
  sound cases cache -> sound cases (cache_put put_ok (case_key c) o cache).
Proof.
  intros Hd Hc E Ho Hs c' o' Hc' Hg. destruct (decide (case_key c = case_key c')) as [Hk|Hk].
  - apply Hd in Hk as <-; [|done..]. destruct (get_put_any put_ok (case_key c) o cache Ho) as [Hp|Hp]; rewrite Hp in Hg.
    + injection Hg as <-. eauto.
    + by apply Hs.
  - rewrite get_put_ne in Hg by done. by apply Hs.
Qed.

Lemma run_sound all cases : distinct all -> texts_ok all -> cases ⊆ all ->
  forall cache rs, sound all cache -> run cases None = Ok (rs, None) ->
  exists rs' cache', run cases (Some cache) = Ok (rs', Some cache') /\ sound all cache' /\ Forall2 agrees rs rs'.
Proof.
  intros Hd Ht. induction cases as [|c cases IH]; intros Hsub cache rs Hs Hr.
  { injection Hr as <-. exists [], cache. repeat split; eauto. }
  cbn [run_cases] in Hr |- *. apply bind_Ok in Hr as ([r k] & Hr1 & Hr).
  apply run_one_none in Hr1 as (o & n & E & -> & ->).
  apply bind_Ok in Hr as ([rs0 k'] & Hr2 & [= <- ->]).
  assert (Hc : c ∈ all) by set_solver. assert (Hsub' : cases ⊆ all) by set_solver.
  destruct (run_one_some c cache) as [(o' & Hg & ->)|[Hg ->]]; cbn [mbind res_bind].
  - destruct (IH Hsub' cache rs0 Hs Hr2) as (rs' & cache' & -> & Hs' & HF). eexists _, _. repeat split; [done..|].
    constructor; [|done]. destruct (Hs c o' Hc Hg) as (o2 & n2 & E2 & ->). rewrite E in E2. injection E2 as <- <-.
    repeat split. by apply stored_idem.
  - rewrite E. cbn [mbind res_bind].
    destruct (IH Hsub' (cache_put put_ok (case_key c) o cache) rs0) as (rs' & cache' & -> & Hs' & HF); [|done|].
    { eapply sound_put; eauto. }
    eexists _, _. repeat split; [done..|]. by constructor.
Qed.

(** C35: a cache of true verdicts never changes a verdict: when no two cases
    of the suite share a key and a run without a cache answers, so does a run
    with the cache, with the same report for each case up to the tabs and line
    ends of the quoted texts, where a case served from the cache counts no
    interaction and any other as many; and every entry the run leaves is
    true, whichever of its writes succeed. *)
Theorem cached_runs_agree cases cache rs :
  distinct cases -> texts_ok cases -> sound cases cache -> run cases None = Ok (rs, None) ->
  exists rs' cache', run cases (Some cache) = Ok (rs', Some cache') /\ sound cases cache' /\
    Forall2 agrees rs rs' /\ all_passed rs' = all_passed rs.
Proof.
  intros Hd Ht Hs Hr. destruct (run_sound cases cases Hd Ht (fun _ => id) cache rs Hs Hr) as (rs' & cache' & E & Hs' & HF).
  exists rs', cache'. repeat split; [done..|]. clear -HF. induction HF as [|r r' rs rs' (_ & Ho & _) _ IH]; [done|].
  cbn [all_passed forallb]. unfold all_passed in IH. rewrite IH. f_equal. apply bool_decide_ext.
  by rewrite <- stored_passed, Ho, stored_passed.
Qed.

(** ** A second run *)

Notation run1_put := (run_one (X := X) eval (fun _ => true)).
Notation run_put := (run_cases (X := X) eval (fun _ => true)).

Lemma run_one_kept c c0 r c1 : run1_put c (Some c0) = Ok (r, Some c1) -> forall key o,
  cache_get c0 key = Some o -> cache_get c1 key = Some o.
Proof.
  unfold run_one. simpl. destruct (cache_get c0 (case_key c)) as [o'|] eqn:E.
  - by intros [= <- <-].
  - intros ([o' n] & _ & [= <- <-])%bind_Ok key o Hg. rewrite get_put_ne; [done|]. congruence.
Qed.

Lemma run_one_cache c c0 r k : run1_put c (Some c0) = Ok (r, k) -> exists c1, k = Some c1.
Proof.
  unfold run_one. simpl. destruct (cache_get c0 (case_key c)); [intros [= <- <-]; eauto|].
  intros ([o' n] & _ & [= <- <-])%bind_Ok. eauto.
Qed.

Lemma run_one_stored c c0 r c1 : (forall o n, ev c = Ok (o, n) -> valid o) ->
  run1_put c (Some c0) = Ok (r, Some c1) ->
  r_path r = case_path c /\ exists o, cache_get c1 (case_key c) = Some o /\ stored o = stored (r_outcome r).
Proof.
  intros Ht. unfold run_one. simpl. destruct (cache_get c0 (case_key c)) as [o'|] eqn:E.
  - intros [= <- <-]. eauto.
  - intros ([o' n] & Ev & [= <- <-])%bind_Ok. split; [done|]. exists (stored o').
    split; [by eapply get_put, Ht|]. apply stored_idem.
Qed.

Lemma run_kept cases : forall c0 rs k, run_put cases (Some c0) = Ok (rs, k) ->
  exists c1, k = Some c1 /\ forall key o, cache_get c0 key = Some o -> cache_get c1 key = Some o.
Proof.
  induction cases as [|c cases IH]; intros c0 rs k; cbn [run_cases]; [intros [= <- <-]; eauto|].
  intros ([r k1] & E1 & ([rs0 k2] & E2 & [= <- <-])%bind_Ok)%bind_Ok.
  destruct (run_one_cache _ _ _ _ E1) as [c1 ->]. destruct (IH _ _ _ E2) as (c2 & -> & Hk).
  exists c2. split; [done|]. intros key o Hg. by eapply Hk, run_one_kept.
Qed.

(** A report of a second run, from the one of the first. *)
Definition from_cache (r r' : CaseReport) : Prop :=
  r_cached r' = true /\ r_interactions r' = 0 /\ r_path r' = r_path r /\ stored (r_outcome r') = stored (r_outcome r).

Lemma run_again cases : texts_ok cases -> forall c0 rs k, run_put cases (Some c0) = Ok (rs, k) ->
  exists c1, k = Some c1 /\ forall eval' c2, (forall key o, cache_get c1 key = Some o -> cache_get c2 key = Some o) ->
    exists rs', run_cases (X := X) eval' (fun _ => true) cases (Some c2) = Ok (rs', Some c2) /\ Forall2 from_cache rs rs'.
Proof.
  induction cases as [|c cases IH]; intros Ht c0 rs k; cbn [run_cases].
  { intros [= <- <-]. exists c0. split; [done|]. intros eval' c2 _. by exists []. }
  intros ([r k1] & E1 & ([rs0 k2] & E2 & [= <- <-])%bind_Ok)%bind_Ok.
  destruct (run_one_cache _ _ _ _ E1) as [c1 ->].
  destruct (run_kept _ _ _ _ E2) as (c3 & -> & Hk).
  destruct (IH ltac:(intros c' o n Hc'; apply Ht; set_solver) _ _ _ E2) as (c3' & [= <-] & HI).
  exists c3. split; [done|]. intros eval' c2 H2. destruct (HI eval' c2 H2) as (rs' & E & HF).
  destruct (run_one_stored _ _ _ _ ltac:(intros o' n; eapply Ht, list_elem_of_here) E1) as (Hp & o & Hg & Ho).
  exists (mk_report (case_path c) o 0 true :: rs'). unfold run_one at 1. simpl.
  rewrite (H2 _ _ (Hk _ _ Hg)). simpl. rewrite E. split; [done|]. constructor; [|done]. by repeat split.
Qed.
End Runs.

(** Once a suite has run with a cache whose writes succeed, from whatever
    contents, a second run on the cache it leaves evaluates nothing - its
    answer is the same whatever the evaluator is, panics and all: every case
    is served from the cache with no interaction and the verdict of the first
    run, and the cache stays as it is. *)
Theorem rerun_is_cached `{Host} `{Fmt} `{EngineText} {X : Type} eval cases c0 rs k :
  texts_ok (X := X) eval cases -> run_cases (X := X) eval (fun _ => true) cases (Some c0) = Ok (rs, k) ->
  exists c1, k = Some c1 /\ forall eval', exists rs',
    run_cases (X := X) eval' (fun _ => true) cases (Some c1) = Ok (rs', Some c1) /\ Forall2 from_cache rs rs'.
Proof.
  intros Ht Hr. destruct (run_again eval cases Ht c0 rs k Hr) as (c1 & -> & HI).
  exists c1. split; [done|]. intros eval'. by apply HI.
Qed.

(** ** Scans *)

Lemma sum_cons (x : FailKind * nat) l : sum_list (x :: l).*2 = (x.2 + sum_list l.*2)%nat.
Proof. done. Qed.

Lemma hist_insert_sum x l : sum_list (hist_insert x l).*2 = (x.2 + sum_list l.*2)%nat.
Proof.
  induction l as [|y l IH]; [done|]. cbn [hist_insert]. destruct (hist_before x y); [done|].
  rewrite !sum_cons, IH. lia.
Qed.

Lemma hist_sort_sum l : sum_list (foldr hist_insert [] l).*2 = sum_list l.*2.
Proof. induction l as [|x l IH]; [done|]. cbn [foldr]. by rewrite hist_insert_sum, sum_cons, IH. Qed.

Lemma hist_drop_sum l : sum_list (filter (fun kn : FailKind * nat => (0 < kn.2)%nat) l).*2 = sum_list l.*2.
Proof.
  induction l as [|x l IH]; [done|]. rewrite filter_cons.
  destruct (decide (0 < x.2)%nat) as [Hx|Hx]; rewrite ?sum_cons, IH; lia.
Qed.

Lemma fails_cons k f files :
  fails_of k (f :: files) = ((if failed_as k f then 1 else 0) + fails_of k files)%nat.
Proof. unfold fails_of. rewrite filter_cons. destruct (failed_as k f); [|done]. by rewrite decide_True. Qed.

Lemma fails_sum files : sum_list ((fun k => fails_of k files) <$> all_kinds) = scan_failed files.
Proof.
  unfold scan_failed. induction files as [|f files IH]; [done|]. unfold scan_evaluated in *.
  assert (L : (length (filter (fun f => is_value (f_outcome f) = true) files) <= length files)%nat) by apply length_filter.
  rewrite filter_cons. cbn [all_kinds fmap list_fmap sum_list] in *. rewrite !fails_cons.
  unfold failed_as. destruct (f_outcome f) as [v|k m]; simpl in *; [lia|].
  destruct k; simpl; lia.
Qed.

(** Each failure of a scan is in exactly one bucket of the histogram. *)
Lemma histogram_total files : sum_list (fail_histogram files).*2 = scan_failed files.
Proof. unfold fail_histogram. rewrite hist_sort_sum, hist_drop_sum, <- fails_sum. by rewrite <- list_fmap_compose. Qed.

(** ** Concrete runs *)

#[local] Instance demo_host : Host := {|
  f_add _ _ := 0; f_sub _ _ := 0; f_mul _ _ := 0; f_div _ _ := 0; f_neg x := x; f_of_int n := n;
  f_lt _ _ := false; f_le _ _ := false; f_text _ := chars "nan"; f_parse _ := None; white c := c =? 32 |}.
#[local] Instance demo_fmt : Fmt := {| plain c := 32 <=? c; io_text k := chars k |}.
#[local] Instance demo_text : EngineText := {| dnx_text _ := chars "reduction error"; lin_text _ := chars "linearity"; py_text _ := [] |}.

(** An evaluator of digits. *)
Definition demo_eval (s : list Z) : res (NixEvalError NixError) (NixEvalResult NixError * Z) :=
  match s with
  | [c] => if (48 <=? c) && (c <=? 57) then Ok (RInt (c - 48), 1) else Err (ParseErr (ParseError (chars "not a digit")))
  | _ => Err (ParseErr (ParseError (chars "not a digit")))
  end.

Definition demo_suite : list TestCase :=
  [ mk_case (chars "t") (chars "1") (chars "1"); mk_case (chars "u") (chars "1") (chars "2"); mk_case (chars "v") (chars "x") (chars "2") ].

Definition demo_reports : list CaseReport :=
  [ mk_report (chars "t") Pass 2 false; mk_report (chars "u") (Failed (chars "2") (chars "1")) 2 false;
    mk_report (chars "v") (Errored (chars "expr: parse error: not a digit")) 0 false ].

Lemma demo_run : run_cases (X := list Z) demo_eval (fun _ => true) demo_suite None = Ok (demo_reports, None).
Proof. vm_compute. reflexivity. Qed.

Lemma demo_texts : texts_ok (X := list Z) demo_eval demo_suite.
Proof.
  assert (S : forall l, forallb (fun c => (0 <=? c) && (c <? 55296)) l = true -> Forall scalar l).
  { intros l Hl. rewrite forallb_forall in Hl. apply Forall_forall. intros c Hc. apply list_elem_of_In in Hc.
    specialize (Hl _ Hc). unfold scalar. lia. }
  intros c o n Hc. unfold demo_suite in Hc. set_unfold in Hc.
  destruct Hc as [->|[->|[->|[]]]]; intros E; vm_compute in E; injection E as <- <-; cbn [valid]; repeat split; by apply S.
Qed.

Lemma demo_distinct : distinct demo_suite.
Proof.
  intros c c' Hc Hc'. unfold demo_suite in Hc, Hc'. set_unfold in Hc. set_unfold in Hc'.
  destruct Hc as [->|[->|[->|[]]]], Hc' as [->|[->|[->|[]]]]; vm_compute; congruence.
Qed.

Lemma cached_runs_agree_witness : exists rs' cache',
  run_cases (X := list Z) demo_eval (fun _ => true) demo_suite (Some ∅) = Ok (rs', Some cache') /\
  sound (X := list Z) demo_eval demo_suite cache' /\ Forall2 agrees demo_reports rs' /\ all_passed rs' = all_passed demo_reports.
Proof.
  apply (cached_runs_agree (X := list Z) demo_eval (fun _ => true) demo_suite ∅ demo_reports).
  - apply demo_distinct.
  - apply demo_texts.
  - intros c o _ H. vm_compute in H. discriminate.
  - apply demo_run.
Defined.

Definition demo_cache : gmap (list Z) (list byte) :=
  cache_put (fun _ => true) (case_key (mk_case (chars "u") (chars "1") (chars "2"))) (Errored (chars "stale")) ∅.

Lemma demo_first : is_ok (run_cases (X := list Z) demo_eval (fun _ => true) demo_suite (Some demo_cache)) = true.
Proof. vm_compute. reflexivity. Qed.

Lemma rerun_is_cached_witness : exists rs k c1,
  run_cases (X := list Z) demo_eval (fun _ => true) demo_suite (Some demo_cache) = Ok (rs, k) /\
  k = Some c1 /\ forall eval', exists rs',
    run_cases (X := list Z) eval' (fun _ => true) demo_suite (Some c1) = Ok (rs', Some c1) /\ Forall2 from_cache rs rs'.
Proof.
  assert (D := demo_first).
  destruct (run_cases (X := list Z) demo_eval (fun _ => true) demo_suite (Some demo_cache)) as [[rs k]|e| |] eqn:E;
    [|discriminate D..].
  destruct (rerun_is_cached (X := list Z) demo_eval demo_suite demo_cache rs k demo_texts E) as (c1 & Hk & H).
  exists rs, k, c1. split; [reflexivity|]. split; [exact Hk|exact H].
Defined.

(** A tally of five files. *)
Example tally : fail_histogram
    [ mk_file [chars "a.nix"] (FValue (chars "int")); mk_file [chars "b.nix"] (FFailed KLinearity []);
      mk_file [chars "c.nix"] (FFailed KUnsupported []); mk_file [chars "d.nix"] (FFailed KLinearity []) ]
  = [(KLinearity, 2%nat); (KUnsupported, 1%nat)].
Proof. vm_compute. reflexivity. Qed.
