(* ===== verification/Flake.v ===== *)
(** * Flakes ([crates/dnx-flake/])

    A [flake.nix] is walked as a syntax tree for its inputs and outputs; the
    inputs are resolved to the text of an expression the evaluator is given,
    and pinned in a lock file by the hash of their own [flake.nix].  A flake
    reads a tree of files from the current directory of the process; the hash,
    the parser, the evaluator and its [Debug] text are parameters. *)
From S2P Require Import Prelude Bytes Utf8 Text Codec Error Prim StorePath Fs NixTree Store Drv Ast NixVal NixLower Runtime.

Inductive FlakeError : Type :=
| FIo (message : list Z)
| FParse (message : list Z)
| NotAFlake (message : list Z)
| AttrNotFound (message : list Z)
| FEval (message : list Z)
| FLock (message : list Z)
| FHashMismatch (input : list Z).

Definition flake_display (e : FlakeError) : str :=
  match e with
  | FIo s => chars "io error: " ++ s
  | FParse s => chars "parse error: " ++ s
  | NotAFlake s => chars "not a flake: " ++ s
  | AttrNotFound s => chars "attribute not found: " ++ s
  | FEval s => chars "eval error: " ++ s
  | FLock s => chars "lock error: " ++ s
  | FHashMismatch input => chars "hash mismatch for input '" ++ input ++ chars "'"
  end.

(** ** The lock file ([lock.rs]) *)

Record LockEntry : Type := mk_lock { lk_name : list Z; lk_path : list Z; lk_hash : list byte }.

(** [sort_by(|a, b| a.name.cmp(&b.name))], which keeps the order of equals. *)
Definition sort_entries (l : list LockEntry) : list LockEntry := snd <$> sort_by ((fun e => (lk_name e, e)) <$> l).

Definition nibble (n : Z) : Z := if n <=? 9 then 48 + n else 97 + (n - 10).
Definition hex_encode (bytes : list byte) : str :=
  concat ((fun b => [nibble (Z.shiftr (byte_to_Z b) 4); nibble (Z.land (byte_to_Z b) 15)]) <$> bytes).

Definition un_nibble (c : Z) : res FlakeError Z :=
  if (48 <=? c) && (c <=? 57) then Ok (c - 48)
  else if (97 <=? c) && (c <=? 102) then Ok (c - 97 + 10)
  else Err (FLock (chars "invalid hex digit")).

(** The pairs of [chunks_exact(2)]. *)
Fixpoint hex_pairs (bytes : list Z) : res FlakeError (list byte) :=
  match bytes with
  | a :: b :: bytes =>
      hi ← un_nibble a;
      lo ← un_nibble b;
      rest ← hex_pairs bytes;
      Ok (byte_of_Z (Z.lor (Z.shiftl hi 4) lo) :: rest)
  | _ => Ok []
  end.

Definition hex_decode (s : str) : res FlakeError (list byte) :=
  let bytes := byte_to_Z <$> utf8 s in
  if negb (length bytes =? 64)%nat then Err (FLock (chars "hash must be 64 hex chars")) else hex_pairs bytes.

Definition lock_line (e : LockEntry) : str := lk_name e ++ [9] ++ lk_path e ++ [9] ++ hex_encode (lk_hash e) ++ [10].
Definition to_text (lock : list LockEntry) : str := concat (lock_line <$> lock).

Definition parse_line (line : str) : res FlakeError LockEntry :=
  match split_on 9 line with
  | [] => Err (FLock (chars "missing name column"))
  | [_] => Err (FLock (chars "missing path column"))
  | [_; _] => Err (FLock (chars "missing hash column"))
  | [name; path; hex] => hash ← hex_decode hex; Ok (mk_lock name path hash)
  | _ => Err (FLock (chars "extra columns"))
  end.

Definition from_text (text : str) : res FlakeError (list LockEntry) :=
  entries ← mapMr parse_line (filter (fun line => line <> []) (lines text));
  Ok (sort_entries entries).

Fixpoint set_entry (entry : LockEntry) (l : list LockEntry) : list LockEntry :=
  match l with
  | [] => [entry]
  | e :: l => if bool_decide (lk_name e = lk_name entry) then entry :: l else e :: set_entry entry l
  end.

(** ** Surface walks ([flake.rs]) *)

Fixpoint literals {X} (parts : list (InterpolPart X)) : option (list Z) :=
  match parts with
  | [] => Some []
  | Literal l :: parts => r ← literals parts; Some (l ++ r)
  | Interpolation _ :: _ => None
  end.

Definition attr_segment {X} (attr : Attr X) : option (list Z) :=
  match attr with AttrIdent tok => tok | AttrStr parts => literals parts | AttrDynamic _ => None end.

Fixpoint segments {X} (attrs : list (Attr X)) : option (list (list Z)) :=
  match attrs with
  | [] => Some []
  | attr :: attrs => s ← attr_segment attr; r ← segments attrs; Some (s :: r)
  end.

Definition attrpath_segments {X} (ap : option (list (Attr X))) : option (list (list Z)) := ap ← ap; segments ap.

Fixpoint find_entry (set : list (Entry Nix)) (key : string) : option Nix :=
  match set with
  | [] => None
  | AttrpathValue ap value :: set =>
      match attrpath_segments ap with
      | Some [seg] => if bool_decide (seg = chars key) then value else find_entry set key
      | _ => find_entry set key
      end
  | Inherit _ _ :: set => find_entry set key
  end.

Definition lambda_body (outputs : Nix) : res FlakeError Nix :=
  match outputs with
  | XLambda _ (Some body) => Ok body
  | XLambda _ None => Err (NotAFlake (chars "`outputs` lambda has no body"))
  | _ => Err (NotAFlake (chars "`outputs` is not a function"))
  end.

Definition join_path (segs : list (list Z)) : str := join_with [46] segs.

Definition opt_ok {A} (m : option A) (s : string) : res FlakeError A := ok_or m (FParse (chars s)).

Fixpoint collect_paths (expr : Nix) (prefix : list (list Z)) {struct expr} : res FlakeError (list (list Z)) :=
  match expr with
  | XAttrSet _ set =>
      found ← mapMr (fun entry =>
        match entry with
        | AttrpathValue ap value =>
            segs ← opt_ok (attrpath_segments ap) "dynamic attr key in outputs";
            match value with
            | Some value => collect_paths value (prefix ++ segs)
            | None => Err (FParse (chars "attr without value"))
            end
        | Inherit _ _ => Err (FParse (chars "`inherit` in outputs is unsupported"))
        end) set;
      Ok (concat found)
  | _ => Ok [join_path prefix]
  end.

Definition field (entry : Entry Nix) : res FlakeError (list Z * Nix) :=
  match entry with
  | AttrpathValue ap value =>
      segs ← opt_ok (attrpath_segments ap) "dynamic attr key in inputs";
      match segs with
      | [name] => value ← opt_ok value "attr without value"; Ok (name, value)
      | _ => Err (NotAFlake (chars "multi-segment attrpath in inputs"))
      end
  | Inherit _ _ => Err (FParse (chars "`inherit` in inputs is unsupported"))
  end.
Definition attrset_fields (set : list (Entry Nix)) : res FlakeError (list (list Z * Nix)) := mapMr field set.

Definition string_literal (expr : Nix) : res FlakeError (option (list Z)) :=
  match expr with
  | XStr parts => s ← opt_ok (literals parts) "dynamic (`${...}`) input url"; Ok (Some s)
  | _ => Ok None
  end.

Definition alnum (c : Z) : bool :=
  (48 <=? c) && (c <=? 57) || (65 <=? c) && (c <=? 90) || (97 <=? c) && (c <=? 122).

Definition is_local_path (url : str) : bool :=
  match split_once 58 url with
  | None => true
  | Some (scheme, _) =>
      negb (forallb (fun c => alnum c || (c =? 43) || (c =? 45) || (c =? 46)) scheme) || bool_decide (scheme = [])
  end.

Definition input_said (name : str) (what : string) : FlakeError :=
  NotAFlake (chars "input `" ++ name ++ chars "` " ++ chars what).

Definition input_url (name : str) (value : Nix) : res FlakeError (list Z) :=
  match value with
  | XAttrSet _ set =>
      fields ← attrset_fields set;
      url ← ok_or (snd <$> find (fun kv => bool_decide (kv.1 = chars "url")) fields) (input_said name "has no `url`");
      lit ← string_literal url;
      url ← ok_or lit (input_said name "url is not a string");
      if is_local_path url then Ok url
      else Err (NotAFlake (chars "input `" ++ name ++ chars "` url `" ++ url ++ chars "` is not a local path"))
  | _ => Err (input_said name "is not an attribute set")
  end.

Definition escape_nix_string (s : str) : str :=
  concat ((fun c => if (c =? 92) || (c =? 34) || (c =? 36) then [92; c] else [c]) <$> s).

Definition is_valid_attr_segment (seg : str) : bool :=
  match seg with
  | [] => false
  | c :: cs =>
      ((65 <=? c) && (c <=? 90) || (97 <=? c) && (c <=? 122) || (c =? 95))
      && forallb (fun c => alnum c || (c =? 95) || (c =? 39) || (c =? 45)) cs
  end.

Definition quoted (seg : str) : str := [34] ++ seg ++ [34].
Definition quoted_selector (path : str) : option (list Z) :=
  match path with
  | [] => None
  | _ =>
      let segs := split_on 46 path in
      if forallb is_valid_attr_segment segs then Some (join_with [46] (quoted <$> segs)) else None
  end.

(** [sort], [dedup]. *)
Definition sort_strs (l : list (list Z)) : list (list Z) := (sort_by ((fun s => (s, tt)) <$> l)).*1.
Fixpoint dedup (l : list (list Z)) : list (list Z) :=
  match l with
  | x :: (y :: _) as t => if bool_decide (x = y) then dedup t else x :: dedup t
  | _ => l
  end.

(** ** A flake and its directory *)

Record Flake : Type := mk_flake { fl_src : list Z; fl_dir : list Z }.
Record FlakeInput : Type := mk_input { in_name : list Z; in_url : list Z }.

Variant LockStatus : Type := Absent | UpToDate | Stale.

Definition FLAKE_NIX : str := chars "flake.nix".

Definition sort_inputs (l : list FlakeInput) : list FlakeInput := snd <$> sort_by ((fun i => (in_name i, i)) <$> l).

Section Flakes.
Context `{Fmt} `{NixParser} (blake3 : list byte -> list byte) (tree : fnode) (cwd : list (list Z)).

Definition parse_top_attrset (src : str) : res FlakeError (list (Entry Nix)) :=
  match rnix_parse src with
  | (_ :: _ as errs, _) => Err (FParse (join_with (chars "; ") errs))
  | ([], None) => Err (FParse (chars "empty flake.nix"))
  | ([], Some (XAttrSet _ set)) => Ok set
  | ([], Some _) => Err (NotAFlake (chars "top-level is not an attribute set"))
  end.

(** [{path}: {e}]. *)
Definition io_at (path : str) (kind : string) : FlakeError := FIo (path ++ chars ": " ++ io_text kind).

Definition find_outputs (src : str) : res FlakeError Nix :=
  top ← parse_top_attrset src;
  ok_or (find_entry top "outputs") (NotAFlake (chars "missing `outputs`")).

Definition load (path : str) : res FlakeError Flake :=
  let file := if path_is_dir tree cwd path then path_join path FLAKE_NIX else path in
  src ← map_err (io_at file) (read_to_string tree cwd file);
  _ ← find_outputs src;
  Ok (mk_flake src (default [DOT] (path_parent file))).

Definition show (f : Flake) : res FlakeError (list (list Z)) :=
  outputs ← find_outputs (fl_src f);
  body ← lambda_body outputs;
  paths ← collect_paths body [];
  Ok (dedup (sort_strs paths)).

Definition to_input (nv : list Z * Nix) : res FlakeError FlakeInput :=
  url ← input_url nv.1 nv.2; Ok (mk_input nv.1 url).

Definition inputs (f : Flake) : res FlakeError (list FlakeInput) :=
  top ← parse_top_attrset (fl_src f);
  match find_entry top "inputs" with
  | None => Ok []
  | Some (XAttrSet _ set) => fields ← attrset_fields set; entries ← mapMr to_input fields; Ok (sort_inputs entries)
  | Some _ => Err (NotAFlake (chars "`inputs` is not an attribute set"))
  end.

Definition description (f : Flake) : res FlakeError (option (list Z)) :=
  top ← parse_top_attrset (fl_src f);
  match find_entry top "description" with
  | Some value => lit ← string_literal value; s ← ok_or lit (NotAFlake (chars "`description` is not a string")); Ok (Some s)
  | None => Ok None
  end.

Definition outputs_source (f : Flake) : res FlakeError (list Z) := e ← find_outputs (fl_src f); Ok (source_of e).

Definition input_flake_dir (f : Flake) (url : str) : str := path_join (fl_dir f) url.

(** *** Locks *)

Definition pin (name path content : str) (lock : list LockEntry) : res FlakeError (list LockEntry) :=
  bytes ← map_err (io_at content) (read_bytes tree cwd content);
  Ok (sort_entries (set_entry (mk_lock name path (blake3 bytes)) lock)).

Definition verify_entry (base : str) (e : LockEntry) : res FlakeError unit :=
  let file := path_join base (lk_path e) in
  bytes ← map_err (io_at file) (read_bytes tree cwd file);
  if bool_decide (blake3 bytes = lk_hash e) then Ok tt else Err (FHashMismatch (lk_name e)).

Fixpoint verify_lock (base : str) (lock : list LockEntry) : res FlakeError unit :=
  match lock with
  | [] => Ok tt
  | e :: lock => _ ← verify_entry base e; verify_lock base lock
  end.

Definition pin_input (f : Flake) (lock : list LockEntry) (i : FlakeInput) : res FlakeError (list LockEntry) :=
  pin (in_name i) (path_join (in_url i) FLAKE_NIX) (path_join (input_flake_dir f (in_url i)) FLAKE_NIX) lock.

Definition lock (f : Flake) : res FlakeError (list LockEntry) :=
  ins ← inputs f; foldM (pin_input f) ins [].

Definition lock_file (f : Flake) : str := path_join (fl_dir f) (chars "flake.lock").

Definition lock_status (f : Flake) : res FlakeError LockStatus :=
  match read_to_string tree cwd (lock_file f) with
  | Err e => if bool_decide (e = "NotFound"%string) then Ok Absent else Err (io_at (lock_file f) e)
  | Panic => Panic
  | Fuel => Fuel
  | Ok text =>
      lock ← from_text text;
      ins ← inputs f;
      let declared := sort_strs (in_name <$> ins) in
      let pinned := sort_strs (lk_name <$> lock) in
      Ok (if bool_decide (declared <> pinned) || negb (is_ok (verify_lock (fl_dir f) lock)) then Stale else UpToDate)
  end.

(** *** Resolution *)

Definition source_marker (dir : str) : str :=
  chars "{ outPath = " ++ [34] ++ escape_nix_string dir ++ [34] ++ chars "; }".

Definition binding (name value : str) : str :=
  [34] ++ escape_nix_string name ++ [34] ++ chars " = " ++ value ++ chars "; ".

(** [chain] are the directories being resolved; a level of fuel is a link of it. *)
Fixpoint resolved_inputs_with (fuel : nat) (chain : list (list Z)) (f : Flake) : res FlakeError (list Z) :=
  match fuel with
  | O => Fuel
  | S fuel =>
      ins ← inputs f;
      bindings ← mapMr (fun i =>
        let dir := input_flake_dir f (in_url i) in
        let canon := canonical tree cwd dir in
        value ← (if existsb (same_path canon) chain then Ok (source_marker dir)
                 else
                   dep ← load dir;
                   inner ← resolved_inputs_with fuel (chain ++ [canon]) dep;
                   src ← outputs_source dep;
                   Ok (chars "(" ++ src ++ chars ") (" ++ inner ++ chars ")"));
        Ok (binding (in_name i) value)) ins;
      Ok (chars "{ " ++ concat bindings ++ chars "}")
  end.

Definition resolved_inputs_expr (fuel : nat) (f : Flake) : res FlakeError (list Z) :=
  resolved_inputs_with fuel [canonical tree cwd (fl_dir f)] f.

(** [eval] is [NixRuntime::eval], whose errors are values, and [eval_debug]
    the [Debug] text of one. *)
Context (eval : list Z -> res FlakeError (NixEvalResult NixError)) (eval_debug : NixEvalError NixError -> list Z).

Definition resolve_attr (fuel : nat) (f : Flake) (path : str) : res FlakeError (NixEvalResult NixError) :=
  selector ← ok_or (quoted_selector path) (AttrNotFound path);
  outputs ← outputs_source f;
  inputs ← resolved_inputs_expr fuel f;
  r ← eval (chars "((" ++ outputs ++ chars ") (" ++ inputs ++ chars "))." ++ selector);
  match r with RError e => Err (FEval (eval_debug e)) | ok => Ok ok end.

(** ** Reports ([report.rs]) *)

Inductive OutputKind : Type :=
| ODerivation (drv_path : StorePath)
| OValue (kind : string)
| Unresolved (reason : list Z).

Definition report_ok (entries : list (list Z * OutputKind)) : bool :=
  negb (existsb (fun kv => match kv.2 with Unresolved _ => true | _ => false end) entries).

Definition is_derivation (kvs : list (list Z * PrimValue)) : bool :=
  existsb (fun kv => bool_decide (kv.1 = chars "type")
    && match kv.2 with PStr s => bool_decide (s = chars "derivation") | _ => false end) kvs.

Definition kind_of (r : NixEvalResult NixError) : string :=
  match r with
  | RInt _ => "int" | RFloat _ => "float" | RStr _ => "string" | RBool _ => "bool" | RNull => "null"
  | RList _ => "list" | RAttrSet _ => "set" | RLambda _ => "lambda" | RError _ => "error"
  end.

(** The store a derivation is written to: its root and the process. *)
Context (root : list (list Z)) (pid : Z).

Definition classify (value : NixEvalResult NixError) : act store_state FlakeError OutputKind :=
  match value with
  | RAttrSet kvs =>
      if is_derivation kvs then
        match from_attrs kvs with
        | Ok drv => fun s =>
            match instantiate blake3 root pid drv s with
            | (Ok p, s) => (Ok (ODerivation p), s)
            | (Err e, s) => (Ok (Unresolved (drv_display (DStore e))), s)
            | (Panic, s) => (Panic, s)
            | (Fuel, s) => (Fuel, s)
            end
        | Err e => mret (Unresolved (drv_display e))
        | Panic => pure_act Panic
        | Fuel => pure_act Fuel
        end
      else mret (OValue (kind_of value))
  | _ => mret (OValue (kind_of value))
  end.

Fixpoint report_paths (fuel : nat) (f : Flake) (paths : list (list Z))
    : act store_state FlakeError (list (list Z * OutputKind)) :=
  match paths with
  | [] => mret []
  | path :: paths =>
      kind ← match resolve_attr fuel f path with
             | Ok value => classify value
             | Err e => mret (Unresolved (flake_display e))
             | Panic => pure_act Panic
             | Fuel => pure_act Fuel
             end;
      rest ← report_paths fuel f paths;
      mret ((path, kind) :: rest)
  end.

Definition report (fuel : nat) (f : Flake) : act store_state FlakeError (list (list Z * OutputKind)) :=
  paths ← pure_act (show f); report_paths fuel f paths.
End Flakes.
