(* ===== verification/FlakeSpec.v ===== *)
(** * Flakes, proved

    A lock file reads back what was written; the lock a flake answers is
    current as soon as it is written down, whatever way its directory is
    spelled; the resolution of inputs ends on every tree of files, cycles
    included; a selector only holds identifiers. *)
From stdpp Require Import sorting.
From S2P Require Import Prelude Bytes Utf8 Text Codec Error Prim StorePath Fs NixTree Store Drv Daemon Answers Ast NixVal NixLower Runtime Flake.

(** ** Text *)

Lemma split_on_nonempty c s : exists part parts, split_on c s = part :: parts.
Proof. destruct s as [|x s]; simpl; [eauto|]. destruct (split_on c s); [eauto|]. destruct (x =? c); eauto. Qed.

Lemma split_on_free c s : c ∉ s -> split_on c s = [s].
Proof.
  induction s as [|x s IH]; [done|]. intros H. simpl. rewrite IH by set_solver.
  destruct (x =? c) eqn:E; [apply Z.eqb_eq in E; subst; set_solver|done].
Qed.

Lemma split_on_at c s t : c ∉ s -> split_on c (s ++ c :: t) = s :: split_on c t.
Proof.
  induction s as [|x s IH]; intros H; cbn [app split_on].
  - destruct (split_on_nonempty c t) as (p & ps & ->). by rewrite Z.eqb_refl.
  - rewrite IH by set_solver. destruct (x =? c) eqn:E; [apply Z.eqb_eq in E; subst; set_solver|done].
Qed.

Lemma split_on_parts c s : Forall (fun p => c ∉ p) (split_on c s).
Proof.
  induction s as [|x s IH]; simpl; [by repeat constructor; apply not_elem_of_nil|].
  destruct (split_on_nonempty c s) as (q & qs & E). rewrite E in *. inversion IH; subst.
  destruct (x =? c) eqn:Ex; constructor; try done; [apply not_elem_of_nil|].
  apply Z.eqb_neq in Ex. set_solver.
Qed.

(** Lines that hold no newline and do not end in a carriage return. *)
Definition line_ok (l : str) : Prop := 10 ∉ l /\ last l <> Some 13.

Lemma strip_cr_ok l : last l <> Some 13 -> strip_cr l = l.
Proof. unfold strip_cr. destruct (last l) as [c|]; [|done]. destruct (c =? 13) eqn:E; [apply Z.eqb_eq in E; congruence|done]. Qed.

Lemma lines_split ls : Forall line_ok ls -> split_on 10 (concat ((fun l => l ++ [10]) <$> ls)) = ls ++ [[]].
Proof.
  induction 1 as [|l ls [Hl _] _ IH]; [done|]. cbn [fmap list_fmap concat]. rewrite <- app_assoc. cbn [app].
  rewrite split_on_at by done. by f_equal.
Qed.

Lemma lines_of ls : Forall line_ok ls -> lines (concat ((fun l => l ++ [10]) <$> ls)) = ls.
Proof.
  intros H. unfold lines. rewrite (lines_split ls H), removelast_last, last_snoc, app_nil_r.
  induction H as [|l ls [_ Hl] _ IH]; [done|]. cbn [fmap list_fmap]. by rewrite strip_cr_ok, IH.
Qed.

(** ** Hexadecimal digits *)

Definition digits_back (b : byte) : bool :=
  match hex_encode [b] with
  | [hi; lo] =>
      (48 <=? hi) && (hi <? 128) && (48 <=? lo) && (lo <? 128)
      && match un_nibble hi, un_nibble lo with
         | Ok x, Ok y => Byte.eqb (byte_of_Z (Z.lor (Z.shiftl x 4) y)) b
         | _, _ => false
         end
  | _ => false
  end.

Lemma digits_back_all b : digits_back b = true.
Proof. destruct b; vm_compute; reflexivity. Qed.

Lemma hex_encode_byte b : exists hi lo, hex_encode [b] = [hi; lo] /\ 48 <= hi < 128 /\ 48 <= lo < 128
  /\ forall rest, hex_pairs (hi :: lo :: rest) = (r ← hex_pairs rest; Ok (b :: r)).
Proof.
  pose proof (digits_back_all b) as H. unfold digits_back in H.
  destruct (hex_encode [b]) as [|hi [|lo [|]]]; try done. exists hi, lo.
  destruct (un_nibble hi) as [x| | |] eqn:Ex, (un_nibble lo) as [y| | |] eqn:Ey; rewrite ?andb_false_r in H; try done.
  apply andb_true_iff in H as [Hr Hb]. apply Byte.byte_dec_bl in Hb.
  split; [done|]. split; [lia|]. split; [lia|]. intros rest. cbn [hex_pairs]. rewrite Ex, Ey. cbn [mbind res_bind].
  by rewrite Hb.
Qed.

Lemma hex_encode_cons b h : hex_encode (b :: h) = hex_encode [b] ++ hex_encode h.
Proof. reflexivity. Qed.

Lemma hex_encode_range h : Forall (fun c => 48 <= c < 128) (hex_encode h).
Proof.
  induction h as [|b h IH]; [constructor|]. rewrite hex_encode_cons.
  destruct (hex_encode_byte b) as (hi & lo & -> & Hh & Hl & _). repeat constructor; auto; lia.
Qed.

Lemma hex_encode_length h : length (hex_encode h) = (2 * length h)%nat.
Proof.
  induction h as [|b h IH]; [done|]. rewrite hex_encode_cons, length_app, IH.
  destruct (hex_encode_byte b) as (hi & lo & -> & _). simpl. lia.
Qed.

Lemma hex_pairs_encode h : hex_pairs (hex_encode h) = Ok h.
Proof.
  induction h as [|b h IH]; [done|]. rewrite hex_encode_cons.
  destruct (hex_encode_byte b) as (hi & lo & -> & _ & _ & E). cbn [app]. by rewrite E, IH.
Qed.

Lemma hex_encode_ascii h : byte_to_Z <$> utf8 (hex_encode h) = hex_encode h.
Proof.
  assert (H : Forall (fun c => 0 <= c < 128) (hex_encode h)).
  { eapply Forall_impl; [apply hex_encode_range|]. simpl. lia. }
  rewrite utf8_ascii by done. induction H as [|c l Hc _ IH]; [done|]. cbn [fmap list_fmap].
  by rewrite byte_Z_small, IH by lia.
Qed.

Lemma hex_decode_encode h : length h = 32%nat -> hex_decode (hex_encode h) = Ok h.
Proof.
  intros Hh. unfold hex_decode. rewrite hex_encode_ascii, hex_encode_length, Hh. simpl. apply hex_pairs_encode.
Qed.

(** ** Lock files *)

Definition names (lock : list LockEntry) : list (list Z) := lk_name <$> lock.
Definition sorted (ns : list (list Z)) : Prop := StronglySorted str_lt ns.

(** What a column may hold, and an entry. *)
Definition column (s : str) : Prop := 9 ∉ s /\ 10 ∉ s.
Definition entry_ok (e : LockEntry) : Prop := column (lk_name e) /\ column (lk_path e) /\ length (lk_hash e) = 32%nat.

Lemma keyed_sorted {A} (key : A -> list Z) l : sorted (key <$> l) -> snd <$> sort_by ((fun e => (key e, e)) <$> l) = l.
Proof.
  intros H. rewrite sort_by_sorted.
  - rewrite <- list_fmap_compose. apply list_fmap_id.
  - unfold sm_wf. by rewrite <- list_fmap_compose.
Qed.

Lemma keyed_sorts {A} (key : A -> list Z) l : NoDup (key <$> l) ->
  let l' := snd <$> sort_by ((fun e => (key e, e)) <$> l) in sorted (key <$> l') /\ Permutation l' l.
Proof.
  intros H l'. pose proof (sort_by_perm ((fun e => (key e, e)) <$> l)) as Hp.
  assert (Hk : key <$> l' = (sort_by ((fun e => (key e, e)) <$> l)).*1).
  { unfold l'. rewrite <- list_fmap_compose. apply list_fmap_ext. intros i [k e] Hi.
    apply list_elem_of_lookup_2 in Hi. rewrite Hp in Hi. apply list_elem_of_fmap in Hi as (e' & [= -> ->] & _). done. }
  split.
  - rewrite Hk. apply sort_by_wf. by rewrite <- list_fmap_compose.
  - unfold l'. rewrite Hp, <- list_fmap_compose. by rewrite list_fmap_id.
Qed.

#[export] Instance str_lt_antisym : AntiSymm (=) str_lt.
Proof. intros a b Ha Hb. exfalso. eapply (str_lt_irrefl a), str_lt_le_trans; [done|]. by apply str_lt_le. Qed.

Lemma sorted_perm ns ns' : sorted ns -> sorted ns' -> Permutation ns ns' -> ns = ns'.
Proof. intros. by apply (StronglySorted_unique str_lt). Qed.

Lemma sort_strs_sorted ns : sorted ns -> sort_strs ns = ns.
Proof.
  intros H. unfold sort_strs. rewrite sort_by_sorted; [|unfold sm_wf]; rewrite <- list_fmap_compose; [apply list_fmap_id|].
  by rewrite list_fmap_id.
Qed.

Lemma hex_plain h : column (hex_encode h) /\ last (hex_encode h) <> Some 13.
Proof.
  pose proof (hex_encode_range h) as H. rewrite Forall_forall in H. repeat split.
  - intros Hc. apply H in Hc. lia.
  - intros Hc. apply H in Hc. lia.
  - intros Hl. apply last_Some in Hl as (l & E). specialize (H 13). rewrite E in H. set_solver by lia.
Qed.

Definition line_body (e : LockEntry) : str := lk_name e ++ [9] ++ lk_path e ++ [9] ++ hex_encode (lk_hash e).

Lemma line_body_ok e : entry_ok e -> line_ok (line_body e) /\ line_body e <> [].
Proof.
  intros ([Hn1 Hn2] & [Hp1 Hp2] & Hh). destruct (hex_plain (lk_hash e)) as [[Hx1 Hx2] Hl]. unfold line_body, line_ok.
  split; [split|].
  - cbn [app]. rewrite !not_elem_of_app, !not_elem_of_cons, not_elem_of_app, not_elem_of_cons. repeat split; done || lia.
  - rewrite !app_assoc, last_app.
    destruct (last (hex_encode (lk_hash e))) as [c|] eqn:E; [congruence|].
    apply last_None in E. apply (f_equal length) in E. rewrite hex_encode_length, Hh in E. done.
  - by destruct (lk_name e).
Qed.

Lemma parse_line_body e : entry_ok e -> parse_line (line_body e) = Ok e.
Proof.
  intros ([Hn _] & [Hp _] & Hh). destruct (hex_plain (lk_hash e)) as [[Hx _] _].
  unfold parse_line, line_body. cbn [app]. rewrite split_on_at, split_on_at, split_on_free by done.
  rewrite hex_decode_encode by done. by destruct e.
Qed.

Lemma to_text_lines lock : to_text lock = concat ((fun l => l ++ [10]) <$> (line_body <$> lock)).
Proof.
  unfold to_text. rewrite <- list_fmap_compose. f_equal. apply list_fmap_ext. intros _ e _.
  unfold lock_line, line_body. cbn. by rewrite <- !app_assoc; cbn; rewrite <- !app_assoc.
Qed.

Lemma filter_all {A} (P : A -> Prop) `{forall x, Decision (P x)} l : Forall P l -> filter P l = l.
Proof. induction 1 as [|x l Hx _ IH]; [done|]. by rewrite filter_cons_True, IH. Qed.

Lemma from_to_text lock : Forall entry_ok lock -> sorted (names lock) -> from_text (to_text lock) = Ok lock.
Proof.
  intros He Hs. unfold from_text. rewrite to_text_lines, lines_of, filter_all.
  - assert (Hm : mapMr parse_line (line_body <$> lock) = Ok lock).
    { apply mapMr_Ok_Forall2. apply Forall2_fmap_l. apply Forall_Forall2_diag. eapply Forall_impl; [done|].
      intros e H. by apply parse_line_body. }
    rewrite Hm. cbn [mbind res_bind]. f_equal. by apply (keyed_sorted lk_name).
  - rewrite Forall_fmap. eapply Forall_impl; [done|]. intros e H. by apply line_body_ok.
  - rewrite Forall_fmap. eapply Forall_impl; [done|]. intros e H. by apply line_body_ok.
Qed.

(** ** Locks of a flake *)

Definition sep (base : str) : str := match last base with Some c => if c =? SLASH then [] else [SLASH] | None => [] end.

Lemma path_join_sep base p : path_join base p = if is_absolute p then p else base ++ sep base ++ p.
Proof.
  unfold path_join, sep. destruct (is_absolute p); [done|]. destruct (last base) as [c|] eqn:E; [by destruct (c =? SLASH)|].
  by apply last_None in E as ->.
Qed.

Lemma sep_app a b : b <> [] -> sep (a ++ b) = sep b.
Proof. intros Hb. unfold sep. rewrite last_app. destruct (last b) eqn:E; [done|]. by apply last_None in E. Qed.

Lemma sep_sep a : sep (a ++ sep a) = [].
Proof.
  destruct (decide (sep a = [])) as [E|E]; [by rewrite E, app_nil_r|]. rewrite sep_app by done.
  assert (sep a = [SLASH]) as ->; [|done]. revert E. unfold sep.
  destruct (last a) as [c|]; [|done]. by destruct (c =? SLASH).
Qed.

Lemma absolute_app a b : a <> [] -> is_absolute (a ++ b) = is_absolute a.
Proof. by destruct a. Qed.

Lemma path_join_assoc dir url name : is_absolute name = false ->
  path_join dir (path_join url name) = path_join (path_join dir url) name.
Proof.
  intros Hn. rewrite !path_join_sep, Hn. destruct (decide (url = [])) as [->|Hu].
  - cbn [is_absolute app]. change (sep []) with (@nil Z). cbn [app]. rewrite Hn, app_nil_r, sep_sep. cbn [app].
    by rewrite <- app_assoc.
  - rewrite absolute_app by done. destruct (is_absolute url); [done|].
    assert (sep (dir ++ sep dir ++ url) = sep url) as -> by (rewrite (app_assoc dir); by apply sep_app).
    by rewrite <- !app_assoc.
Qed.

Lemma said_Ok {E F A} (f : E -> F) (m : res E A) a : map_err f m = Ok a -> m = Ok a.
Proof. destruct m; cbn; congruence. Qed.

Section Locks.
Context `{Fmt} `{NixParser} (blake3 : list byte -> list byte) (tree : fnode) (cwd : list (list Z)).
Context (blake3_length : forall bs, length (blake3 bs) = 32%nat).
Notation lock := (lock blake3 tree cwd).
Notation read := (read_bytes tree cwd).

(** An entry that pins what its path below [dir] now holds. *)
Definition pinned (dir : str) (e : LockEntry) : Prop :=
  exists bs, read (path_join dir (lk_path e)) = Ok bs /\ lk_hash e = blake3 bs.

Lemma verify_all dir l : Forall (pinned dir) l <-> verify_lock blake3 tree cwd dir l = Ok tt.
Proof.
  induction l as [|e l IH]; cbn [verify_lock]; [done|]. rewrite Forall_cons, IH. unfold verify_entry, pinned.
  destruct (read (path_join dir (lk_path e))) as [bs| | |]; cbn; split; try (by intros [(bs' & ? & _) _]); try done.
  - intros [(bs' & [= <-] & Hh) Hl]. by rewrite bool_decide_true.
  - case_bool_decide as Hh; [|done]. intros Hl. split; [by exists bs|done].
Qed.

Lemma set_entry_fresh e l : lk_name e ∉ names l -> set_entry e l = l ++ [e].
Proof.
  unfold names. induction l as [|x l IH]; [done|]. cbn [fmap list_fmap]. rewrite not_elem_of_cons. intros [Hx Hl].
  cbn [set_entry app]. rewrite bool_decide_false by done. by rewrite IH.
Qed.

(** The entry of an input. *)
Definition of_input (f : Flake) (i : FlakeInput) (e : LockEntry) : Prop :=
  lk_name e = in_name i /\ lk_path e = path_join (in_url i) FLAKE_NIX /\ pinned (fl_dir f) e.

Lemma pin_input_Ok f acc i l : in_name i ∉ names acc -> NoDup (names acc) -> pin_input blake3 tree cwd f acc i = Ok l ->
  exists e, of_input f i e /\ Permutation l (e :: acc) /\ sorted (names l).
Proof.
  intros Hf Hn. unfold pin_input, pin. intros (bs & Hr & [= <-])%bind_Ok. apply said_Ok in Hr.
  set (e := mk_lock _ _ _). exists e. split.
  { repeat split. exists bs. split; [|done]. cbn. unfold input_flake_dir in Hr. by rewrite path_join_assoc. }
  rewrite set_entry_fresh by done. unfold sort_entries.
  destruct (keyed_sorts lk_name (acc ++ [e])) as [Hs Hp].
  { rewrite fmap_app. apply NoDup_app. split; [done|]. split; [|apply NoDup_singleton]. set_solver. }
  split; [|done]. rewrite Hp. apply Permutation_app_comm.
Qed.

Lemma pin_all f ins : forall acc l, NoDup (names acc ++ (in_name <$> ins)) -> sorted (names acc) ->
  foldM (pin_input blake3 tree cwd f) ins acc = Ok l ->
  sorted (names l) /\ Permutation (names l) (names acc ++ (in_name <$> ins)) /\
  (forall e, e ∈ l -> e ∈ acc \/ exists i, i ∈ ins /\ of_input f i e).
Proof.
  induction ins as [|i ins IH]; intros acc l Hn Hs; cbn [foldM].
  { intros [= <-]. cbn. rewrite app_nil_r. auto. }
  intros (acc' & E & Hl)%bind_Ok. cbn [fmap list_fmap] in Hn.
  assert (Hn' := Hn). apply NoDup_app in Hn as (Ha & Hd & Hi).
  apply pin_input_Ok in E as (e & He & Hp & Hs'); [|set_solver|done].
  assert (Hp' : Permutation (names acc') (in_name i :: names acc)).
  { unfold names. rewrite Hp. cbn. by rewrite (proj1 He). }
  apply IH in Hl as (H1 & H2 & H3); [| |done].
  - split; [done|]. split; [rewrite H2, Hp'; cbn [app fmap list_fmap]; apply Permutation_middle|].
    intros e' [He'|(j & Hj & Ho)]%H3; [|right; exists j; set_solver].
    rewrite Hp in He'. apply elem_of_cons in He' as [->|He']; [right; exists i; set_solver|by left].
  - rewrite Hp'. cbn [app]. by rewrite Permutation_middle.
Qed.

Lemma inputs_sorted f ins : inputs f = Ok ins -> NoDup (in_name <$> ins) -> sorted (in_name <$> ins).
Proof.
  unfold inputs. intros (top & _ & Hi)%bind_Ok Hn.
  destruct (find_entry top "inputs") as [[]|]; try discriminate Hi; [|injection Hi as <-; constructor].
  apply bind_Ok in Hi as (fields & _ & (es & _ & [= <-])%bind_Ok). unfold sort_inputs in *.
  apply (keyed_sorts in_name). revert Hn. intros Hn.
  assert (Hp : Permutation (sort_inputs es) es).
  { unfold sort_inputs. rewrite sort_by_perm, <- list_fmap_compose. by rewrite list_fmap_id. }
  unfold sort_inputs in Hp. by rewrite <- Hp.
Qed.

Lemma column_join url : column url -> column (path_join url FLAKE_NIX).
Proof.
  assert (Hs : column (sep url)) by (unfold sep, column; repeat case_match; unfold SLASH; set_solver by lia).
  assert (Hf : column FLAKE_NIX) by (unfold column; vm_compute; set_solver by lia).
  intros Hu. rewrite path_join_sep. cbn [is_absolute]. change (is_absolute FLAKE_NIX) with false. cbn iota.
  unfold column in *. rewrite !not_elem_of_app. tauto.
Qed.

(** C32: the lock of a flake is current: whenever the inputs declared have
    distinct names, no tab or newline is in a name or a url, and every input
    could be pinned, then with that lock written in the [flake.lock] beside
    the flake the text reads back as the lock itself, every pin verifies and
    the status is up to date - also when the directory is spelled with a
    trailing slash, the urls are absolute or empty, or the flake is loaded
    from a relative path. *)
Theorem lock_is_current f ins l :
  inputs f = Ok ins -> NoDup (in_name <$> ins) -> Forall (fun i => column (in_name i) /\ column (in_url i)) ins ->
  lock f = Ok l -> read_to_string tree cwd (lock_file f) = Ok (to_text l) ->
  from_text (to_text l) = Ok l /\ verify_lock blake3 tree cwd (fl_dir f) l = Ok tt /\
  lock_status blake3 tree cwd f = Ok UpToDate.
Proof.
  intros Hi Hn Hc Hl Hr. unfold lock, Flake.lock in Hl. rewrite Hi in Hl. cbn [mbind res_bind] in Hl.
  apply pin_all in Hl as (Hs & Hp & He); [|done|constructor]. cbn [names fmap list_fmap app] in Hp.
  assert (Ho : forall e, e ∈ l -> exists i, i ∈ ins /\ of_input f i e).
  { intros e [Hx|Hx]%He; [|done]. by apply not_elem_of_nil in Hx. }
  assert (Ht : from_text (to_text l) = Ok l).
  { apply from_to_text; [|done]. apply Forall_forall. intros e (i & Hin & Hen & Hep & bs & _ & Hh)%Ho.
    rewrite Forall_forall in Hc. destruct (Hc _ Hin). unfold entry_ok.
    rewrite Hen, Hep, Hh. auto using column_join. }
  assert (Hv : verify_lock blake3 tree cwd (fl_dir f) l = Ok tt).
  { apply verify_all, Forall_forall. intros e (i & _ & _ & _ & Hpin)%Ho. done. }
  split; [done|]. split; [done|]. unfold lock_status. rewrite Hr, Ht, Hi. cbn [mbind res_bind].
  assert (Hd : in_name <$> ins = names l) by (apply sorted_perm; [by apply inputs_sorted with f|done|by rewrite Hp]).
  rewrite Hd, Hv. fold (names l). by rewrite bool_decide_false by auto.
Qed.

(** Conversely, a lock reported up to date pins the declared names, and what
    the pinned paths now hold. *)
Lemma up_to_date_means f : lock_status blake3 tree cwd f = Ok UpToDate ->
  exists text l ins, read_to_string tree cwd (lock_file f) = Ok text /\ from_text text = Ok l /\ inputs f = Ok ins /\
    Permutation (names l) (in_name <$> ins) /\ Forall (pinned (fl_dir f)) l.
Proof.
  unfold lock_status. destruct (read_to_string tree cwd (lock_file f)) as [text|e| |] eqn:Hr; try done.
  2: { by case_bool_decide. }
  intros (l & Hl & (ins & Hi & [= Hu])%bind_Ok)%bind_Ok. exists text, l, ins.
  case_bool_decide as Hd; cbn in Hu; [done|].
  destruct (verify_lock blake3 tree cwd (fl_dir f) l) as [[]| | |] eqn:Hv; cbn in Hu; try done.
  repeat split; try done; [|by apply verify_all].
  assert (Hsort : forall ns, Permutation (sort_strs ns) ns).
  { intros ns. unfold sort_strs. rewrite sort_by_perm, <- list_fmap_compose. by rewrite list_fmap_id. }
  unfold names. by rewrite <- (Hsort (lk_name <$> l)), <- Hd, Hsort.
Qed.
End Locks.

(** ** Resolution *)

(** The paths of the nodes of a tree. *)
Fixpoint node_paths (n : fnode) : list (list (list Z)) :=
  [] :: match n with
        | File _ => []
        | Dir cs => concat ((fun yc => let '(y, c) := yc in (fun p => y :: p) <$> node_paths c) <$> cs)
        end.

Lemma child_elem x cs c : child x cs = Some c -> (x, c) ∈ cs.
Proof.
  induction cs as [|[y d] cs IH]; [done|]. cbn [child]. case_bool_decide as E; [intros [= ->]; subst|]; set_solver.
Qed.

Lemma node_path p : forall n m, fs_get p n = Ok m -> p ∈ node_paths n.
Proof.
  induction p as [|x p IH]; intros n m; [by destruct n; left|]. destruct n as [|cs]; [done|]. cbn [fs_get].
  intros (c & Hc & Hp)%bind_Ok. destruct (child x cs) as [c'|] eqn:E; [injection Hc as ->|done].
  right. apply elem_of_concat. exists ((fun p => x :: p) <$> node_paths c). split.
  - apply list_elem_of_fmap. eauto.
  - apply list_elem_of_fmap. exists (x, c). split; [done|]. by apply child_elem.
Qed.

Lemma visited_bound tree L : NoDup L -> (forall q, q ∈ L -> q ∈ node_paths tree) -> (length L <= length (node_paths tree))%nat.
Proof. intros Hn Hs. apply submseteq_length, NoDup_submseteq; [done|]. exact Hs. Qed.

Section Resolution.
Context `{Fmt} `{NixParser} (tree : fnode) (cwd : list (list Z)).

Lemma load_located path f : load tree cwd path = Ok f ->
  exists q, fs_locate tree cwd path = Ok q /\ q ∈ node_paths tree.
Proof.
  unfold load, path_is_dir. intros (src & Hs%said_Ok & _)%bind_Ok.
  destruct (fs_locate tree cwd path) as [q|e| |] eqn:El.
  - exists q. split; [done|]. destruct (is_dir q tree) eqn:Ed.
    + unfold is_dir in Ed. destruct (fs_get q tree) eqn:Eg; [|done..]. by eapply node_path.
    + unfold read_to_string, read_bytes in Hs. rewrite El in Hs.
      apply bind_Ok in Hs as (bs & Hb & _). cbn in Hb. unfold fs_read in Hb.
      destruct (fs_get q tree) eqn:Eg; [|done..]. by eapply node_path.
  - unfold read_to_string, read_bytes in Hs. by rewrite El in Hs.
  - unfold read_to_string, read_bytes in Hs. by rewrite El in Hs.
  - unfold read_to_string, read_bytes in Hs. by rewrite El in Hs.
Qed.

Lemma total_walk p cs : total (walk tree p cs).
Proof. revert p. induction cs as [|c cs IH]; intros p; cbn [walk]; [done|]. destruct c; total; auto using total_fs_get. Qed.

Lemma total_read p : total (read_bytes tree cwd p).
Proof.
  unfold read_bytes. apply total_bind; [destruct p; [done|apply total_walk]|intros q _; apply total_fs_read].
Qed.

Lemma total_find_outputs src : total (find_outputs src).
Proof. unfold find_outputs, parse_top_attrset. total. Qed.

Lemma total_load p : total (load tree cwd p).
Proof.
  unfold load. apply total_bind; [|intros src _; apply total_bind; [apply total_find_outputs|done]].
  apply total_map_err. unfold read_to_string. apply total_bind; [apply total_read|intros bs _; apply total_ok_or].
Qed.

Lemma total_fields set : total (attrset_fields set).
Proof.
  apply total_mapMr. intros [ap value|]; [|done]. cbn [field]. apply total_bind; [apply total_ok_or|].
  intros [|name [|]] _; [done| |done]. apply total_bind; [apply total_ok_or|done].
Qed.

Lemma total_literal e : total (string_literal e).
Proof. destruct e; try done. apply total_bind; [apply total_ok_or|done]. Qed.

Lemma total_input_url name v : total (input_url name v).
Proof.
  destruct v; try done. apply total_bind; [apply total_fields|]. intros fields _.
  apply total_bind; [apply total_ok_or|]. intros url _. apply total_bind; [apply total_literal|]. intros lit _.
  apply total_bind; [apply total_ok_or|]. intros s _. by destruct (is_local_path s).
Qed.

Lemma total_inputs f : total (inputs f).
Proof.
  unfold inputs. apply total_bind; [unfold parse_top_attrset; total|]. intros top _.
  destruct (find_entry top "inputs") as [e|]; [|done]. destruct e; try done.
  apply total_bind; [apply total_fields|]. intros fields _. apply total_bind; [|done].
  apply total_mapMr. intros nv. apply total_bind; [apply total_input_url|done].
Qed.

Lemma resolution_visits fuel : forall chain f L, NoDup L -> (forall q, q ∈ L -> q ∈ node_paths tree) ->
  (forall q, q ∈ L -> path_text q ∈ chain) -> (length (node_paths tree) < fuel + length L)%nat ->
  total (resolved_inputs_with tree cwd fuel chain f).
Proof.
  induction fuel as [|fuel IH]; intros chain f L Hn Ht Hc Hf; [pose proof (visited_bound tree L Hn Ht); lia|].
  cbn [resolved_inputs_with]. apply total_bind; [apply total_inputs|]. intros ins _.
  apply total_bind; [|done]. apply total_mapMr. intros i. apply total_bind; [|done].
  set (dir := input_flake_dir f (in_url i)). destruct (existsb _ chain) eqn:Ex; [done|].
  apply total_bind; [apply total_load|]. intros dep (q & Hq & Hin)%load_located.
  apply total_bind; [|intros inner _; apply total_bind; [apply total_bind; [apply total_find_outputs|done]|done]].
  assert (Hcan : canonical tree cwd dir = path_text q) by (unfold canonical; by rewrite Hq).
  rewrite Hcan in *.
  assert (Hnew : path_text q ∉ chain).
  { intros Hx%list_elem_of_In. assert (existsb (same_path (path_text q)) chain = true); [|congruence].
    apply existsb_exists. exists (path_text q). split; [done|]. unfold same_path. by apply bool_decide_true. }
  apply (IH _ _ (q :: L)); [|set_solver|set_solver|cbn; lia].
  constructor; [|done]. intros Hx%Hc. done.
Qed.

(** C33: the inputs of a flake are resolved in finitely many steps on every
    tree of files, whatever its flakes declare - inputs that name the flake
    itself, each other in a cycle, a missing directory or a file: with one
    more level of fuel than the tree has nodes the resolution answers an
    expression or an error, never runs on and never panics.  (A chain of
    resolutions visits every node at most once.) *)
Theorem resolution_ends f chain :
  total (resolved_inputs_with tree cwd (S (length (node_paths tree))) chain f).
Proof. apply (resolution_visits _ _ _ []); [constructor|set_solver|set_solver|cbn; lia]. Qed.
End Resolution.

(** ** Selectors *)

Lemma join_split c s : join_with [c] (split_on c s) = s.
Proof.
  induction s as [|x s IH]; [done|]. cbn [split_on]. destruct (split_on_nonempty c s) as (p & ps & E). rewrite E in *.
  destruct (x =? c) eqn:Ex; [apply Z.eqb_eq in Ex; subst; cbn; by f_equal|]. cbn in *. by f_equal.
Qed.

Definition ident_char (c : Z) : Prop := alnum c = true \/ c = 95 \/ c = 39 \/ c = 45.

Lemma valid_segment seg : is_valid_attr_segment seg = true -> seg <> [] /\ Forall ident_char seg.
Proof.
  destruct seg as [|c cs]; [done|]. cbn [is_valid_attr_segment]. intros [Hc Hcs]%andb_true_iff. split; [done|].
  constructor; [unfold ident_char, alnum; rewrite ?orb_true_iff, ?andb_true_iff, ?Z.leb_le, ?Z.eqb_eq in *; tauto|]. rewrite forallb_forall in Hcs. apply Forall_forall.
  intros x Hx%list_elem_of_In%Hcs. unfold ident_char. rewrite !orb_true_iff, !Z.eqb_eq in Hx. tauto.
Qed.

(** What reaches the evaluator of an attribute path are its segments, each
    between quotes and made of identifier characters; every other path is
    refused. *)
Lemma selector_quotes path out : quoted_selector path = Some out <->
  exists segs, path <> [] /\ segs = split_on 46 path /\ path = join_with [46] segs /\
    Forall (fun s => is_valid_attr_segment s = true) segs /\ out = join_with [46] (quoted <$> segs).
Proof.
  unfold quoted_selector. split.
  - destruct path as [|c path]; [done|]. destruct (forallb _ _) eqn:Hv; [|done]. intros [= <-].
    exists (split_on 46 (c :: path)). split; [done|]. split; [done|]. split; [symmetry; apply join_split|].
    split; [|done]. rewrite forallb_forall in Hv. apply Forall_forall.
    intros s Hs%list_elem_of_In. by apply Hv.
  - intros (segs & Hne & -> & _ & Hv & ->). destruct path as [|c path]; [done|].
    assert (forallb is_valid_attr_segment (split_on 46 (c :: path)) = true) as ->; [|done].
    apply forallb_forall. intros s Hs%list_elem_of_In. rewrite Forall_forall in Hv. by apply Hv.
Qed.

(** ** Concrete flakes *)

#[local] Instance flake_fmt : Fmt := {| plain c := 32 <=? c; io_text k := chars k |}.

Definition attr_ (name : string) (v : Nix) : Entry Nix := AttrpathValue (Some [AttrIdent (Some (chars name))]) (Some v).
Definition str_ (s : string) : Nix := XStr [Literal (chars s)].
Definition outputs_ : Entry Nix := attr_ "outputs" (XLambda (Some (IdentParam (Some (chars "i")))) (Some (XAttrSet false []))).
Definition flake_ (ins : list (Entry Nix)) : Nix := XAttrSet false [attr_ "inputs" (XAttrSet false ins); outputs_].
Definition input_ (name url : string) : Entry Nix := attr_ name (XAttrSet false [attr_ "url" (str_ url)]).

(** Three files: a flake with an input, one with two, one that is its own. *)
#[local] Instance flake_parser : NixParser := {|
  rnix_parse s :=
    if bool_decide (s = chars "leaf") then ([], Some (flake_ []))
    else if bool_decide (s = chars "deps") then ([], Some (flake_ [input_ "b" "../b/"; input_ "a" "/w/a"]))
    else if bool_decide (s = chars "self") then ([], Some (flake_ [input_ "self" "."]))
    else if bool_decide (s = chars "dots") then
      ([], Some (XAttrSet false [AttrpathValue (Some [AttrIdent (Some (chars "inputs")); AttrIdent (Some (chars "a")); AttrIdent (Some (chars "url"))])
                                   (Some (str_ "/nowhere")); outputs_]))
    else ([chars "unexpected token"], None);
  source_of _ := chars "i: { }";
  let_source _ _ := None |}.

Definition text_file (s : string) : fnode := File (utf8 (chars s)).
Definition flake_dir (s : string) : fnode := Dir [(chars "flake.nix", text_file s)].

(** A stand-in for the hash, of the right length. *)
Definition demo_hash (bs : list byte) : list byte := take 32 (bs ++ repeat x00 32).

Lemma flake_hash_length bs : length (demo_hash bs) = 32%nat.
Proof. unfold demo_hash. rewrite length_take, length_app, repeat_length. lia. Qed.

Definition demo_lock : list LockEntry :=
  [ mk_lock (chars "a") (chars "/w/a/flake.nix") (demo_hash (utf8 (chars "leaf")));
    mk_lock (chars "b") (chars "../b/flake.nix") (demo_hash (utf8 (chars "self"))) ].

Definition demo_tree : fnode :=
  Dir [(chars "w", Dir [(chars "a", flake_dir "leaf"); (chars "b", flake_dir "self");
                        (chars "c", Dir [(chars "flake.nix", text_file "deps"); (chars "flake.lock", File (utf8 (to_text demo_lock)))])])].

Lemma lock_is_current_witness :
  from_text (to_text demo_lock) = Ok demo_lock /\
  verify_lock demo_hash demo_tree [chars "w"] (chars "c") demo_lock = Ok tt /\
  lock_status demo_hash demo_tree [chars "w"] (mk_flake (chars "deps") (chars "c")) = Ok UpToDate.
Proof.
  apply (lock_is_current demo_hash demo_tree [chars "w"] flake_hash_length (mk_flake (chars "deps") (chars "c"))
    [mk_input (chars "a") (chars "/w/a"); mk_input (chars "b") (chars "../b/")] demo_lock);
    [vm_compute; reflexivity|apply (bool_decide_unpack _); vm_compute; exact I| |vm_compute; reflexivity|vm_compute; reflexivity].
  repeat constructor; apply (bool_decide_unpack _); vm_compute; exact I.
Defined.

(** A cycle of one: the input is where the flake is. *)
Example self_input : resolved_inputs_expr demo_tree [chars "w"; chars "b"] 9 (mk_flake (chars "self") (chars "."))
  = Ok (chars "{ " ++ binding (chars "self") (source_marker (chars "./.")) ++ chars "}").
Proof. vm_compute. reflexivity. Qed.

(** The same flake, its file given by its bare name: the directory is the
    empty path, which is no path to a directory, so that the input is not
    recognised and gets the outputs instead of the source. *)
Example bare_name_self : load demo_tree [chars "w"; chars "b"] (chars "flake.nix") = Ok (mk_flake (chars "self") [])
  /\ load demo_tree [chars "w"; chars "b"] (chars ".") = Ok (mk_flake (chars "self") (chars "."))
  /\ resolved_inputs_expr demo_tree [chars "w"; chars "b"] 9 (mk_flake (chars "self") [])
     = Ok (chars "{ " ++ binding (chars "self")
             (chars "(i: { }) ({ " ++ binding (chars "self") (source_marker (chars "./.")) ++ chars "})") ++ chars "}").
Proof. vm_compute. repeat split. Qed.

(** An input declared by a dotted path is no input at all. *)
Example dotted_inputs_ignored : inputs (mk_flake (chars "dots") (chars "/w/c")) = Ok [].
Proof. vm_compute. reflexivity. Qed.

(** The lock stays current when a url is changed to another directory. *)
Example url_not_compared :
  lock_status demo_hash demo_tree [chars "w"] (mk_flake (chars "deps") (chars "c")) = Ok UpToDate /\
  lock_status demo_hash (Dir [(chars "w", Dir [(chars "a", flake_dir "leaf"); (chars "b", flake_dir "self"); (chars "x", flake_dir "leaf");
      (chars "c", Dir [(chars "flake.lock", File (utf8 (to_text
        [ mk_lock (chars "a") (chars "/w/x/flake.nix") (demo_hash (utf8 (chars "leaf")));
          mk_lock (chars "b") (chars "../x/flake.nix") (demo_hash (utf8 (chars "leaf"))) ])))])])])
    [chars "w"] (mk_flake (chars "deps") (chars "c")) = Ok UpToDate.
Proof. vm_compute. repeat split. Qed.

(** An [outputs] whose body is no attribute set has one output, of the empty
    name, which no selector reaches. *)
Example no_set_no_output : collect_paths (XIdent (Some (chars "x"))) [] = Ok [[]] /\ quoted_selector [] = None.
Proof. vm_compute. repeat split. Qed.
