(* ===== verification/Surface.v ===== *)
(** * The JSON and lambda surfaces ([crates/dnx-ts/])

    JSON documents are the trees of tree-sitter, another project, seen through
    the accessors the source calls; how a text becomes a tree is a parameter.
    The lambda surface has a lexer and a recursive-descent parser that lowers
    as it reads: a parser takes the names in scope and the tokens left and
    returns the term and the tokens after it.  Both are evaluated by the
    shared engine, without the pass that renames binders.  Texts of errors
    are left out. *)
From S2P Require Import Prelude Bytes Utf8 Text Error LOPath Port Arena Net Prim Rules Ast Pass0 Pass1 Share Elab Read NixVal PyParse PyLower Json Builtins Whnf Runtime.

Inductive TsError : Type := TsParse | TsUnsupported.

(** ** JSON ([lower.rs]) *)

(** A node: its kind, the part of the source it spans, its named children and
    the fields of a pair. *)
Inductive Node : Type :=
  mk_node (kind : string) (text : option (list Z)) (named_children : list Node) (key value : option Node).

Definition nd_kind (n : Node) : string := let 'mk_node k _ _ _ _ := n in k.
Definition nd_text (n : Node) : option (list Z) := let 'mk_node _ t _ _ _ := n in t.
Definition nd_children (n : Node) : list Node := let 'mk_node _ _ cs _ _ := n in cs.

(** The tree of a text and whether it has an error. *)
Class TreeSitter : Type := { json_tree : list Z -> option (Node * bool) }.

Definition is_comment (n : Node) : bool := bool_decide (nd_kind n = "comment"%string).
Definition node_text (n : Node) : res TsError (list Z) := ok_or (nd_text n) TsParse.

Fixpoint hex4 (k : nat) (code : Z) (s : str) : res TsError (Z * list Z) :=
  match k with
  | O => Ok (code, s)
  | S k =>
      match s with
      | [] => Err TsParse
      | d :: s => v ← ok_or (hex_digit d) TsParse; hex4 k (code * 16 + v) s
      end
  end.

(** What is left is shorter. *)
Definition decode_unicode_escape (s : str) : res TsError (Z * list Z) :=
  '(code, s) ← hex4 4 0 s;
  if bool_decide (scalar code) then Ok (code, s) else Err TsParse.

Fixpoint decode_loop (fuel : nat) (s out : str) : res TsError (list Z) :=
  match fuel with
  | O => Fuel
  | S fuel =>
      match s with
      | [] => Ok out
      | c :: s =>
          if negb (c =? 92) then decode_loop fuel s (out ++ [c])
          else
            match s with
            | [] => Err TsParse
            | 117 :: s => '(c, s) ← decode_unicode_escape s; decode_loop fuel s (out ++ [c])
            | esc :: s => c ← ok_or (json_escape esc) TsParse; decode_loop fuel s (out ++ [c])
            end
      end
  end.

Definition decode_escapes (s : str) : res TsError (list Z) :=
  if negb (existsb (fun c => c =? 92) s) then Ok s else decode_loop (S (length s)) s [].

(** [strip_prefix], [strip_suffix] of a quote. *)
Definition unquote (raw : str) : option (list Z) :=
  match raw with
  | 34 :: s => match rev s with 34 :: r => Some (rev r) | _ => None end
  | _ => None
  end.

Definition parse_string (n : Node) : res TsError (list Z) :=
  raw ← node_text n;
  inner ← ok_or (unquote raw) TsParse;
  decode_escapes inner.

Section Json.
Context `{PyChars}.

Definition is_int_text (text : str) : bool := negb (existsb (fun c => (c =? 46) || (c =? 101) || (c =? 69)) text).

Definition lower_number (n : Node) : res TsError E :=
  text ← node_text n;
  match (if is_int_text text then parse_int text else None) with
  | Some n => Ok (AVal (NInt n))
  | None => f ← ok_or (parse_f64 text) TsParse; Ok (AVal (NFloat f))
  end.

Definition insert_pair (set : E) (key : str) (v : E) : E := AApp (app2 (AFun FInsert) set (AVal (NStr key))) v.

(** The loop of [lower_object] over [lower_value]. *)
Fixpoint object_pairs (lower_value : Node -> res TsError E) (set : E) (pairs : list Node) : res TsError E :=
  match pairs with
  | [] => Ok set
  | mk_node kind _ _ key value :: pairs =>
      if bool_decide (kind = "comment"%string) then object_pairs lower_value set pairs
      else if bool_decide (kind <> "pair"%string) then Err TsUnsupported
      else
        match key, value with
        | Some k, Some v =>
            key ← parse_string k;
            v ← lower_value v;
            object_pairs lower_value (insert_pair set key v) pairs
        | _, _ => Err TsParse
        end
  end.

(** The items from the last to the first. *)
Fixpoint array_items (lower_value : Node -> res TsError E) (items : list Node) : res TsError E :=
  match items with
  | [] => Ok (AName (chars "nil"))
  | item :: items =>
      if is_comment item then array_items lower_value items
      else
        acc ← array_items lower_value items;
        h ← lower_value item;
        Ok (app2 (AName (chars "cons")) h acc)
  end.

Fixpoint lower_value (n : Node) : res TsError E :=
  let 'mk_node kind _ children _ _ := n in
  match kind with
  | "object" => object_pairs lower_value (AFun FEmptyAttrSet) children
  | "array" => array_items lower_value children
  | "string" => s ← parse_string n; Ok (AVal (NStr s))
  | "number" => lower_number n
  | "true" => Ok (AVal (NBool true))
  | "false" => Ok (AVal (NBool false))
  | "null" => Ok (AVal NNull)
  | _ => Err TsUnsupported
  end%string.

Definition lower_object (n : Node) : res TsError E := object_pairs lower_value (AFun FEmptyAttrSet) (nd_children n).
Definition lower_array (n : Node) : res TsError E := array_items lower_value (nd_children n).

Definition lower_document (n : Node) : res TsError E :=
  if bool_decide (nd_kind n <> "document"%string) then Err TsUnsupported
  else
    child ← ok_or (find (fun n => negb (is_comment n)) (nd_children n)) TsParse;
    lower_value child.

Definition ts_to_ast `{TreeSitter} (src : str) : res TsError E :=
  '(root, has_error) ← ok_or (json_tree src) TsParse;
  if has_error : bool then Err TsParse else lower_document root.
End Json.

(** ** The lambda surface ([surface.rs]) *)

Inductive STok : Type :=
| SLambda | SDot | SLParen | SRParen | SLBrace | SRBrace | SPlus | SEq | SSemi
| SInt (n : Z)
| SIdent (n : list Z).

#[export] Instance STok_eq_dec : EqDecision STok.
Proof. solve_decision. Defined.

Definition s_symbol (c : Z) : option STok :=
  match c with
  | 92 => Some SLambda
  | 46 => Some SDot
  | 40 => Some SLParen
  | 41 => Some SRParen
  | 123 => Some SLBrace
  | 125 => Some SRBrace
  | 43 => Some SPlus
  | 61 => Some SEq
  | 59 => Some SSemi
  | _ => None
  end.

Section Lex.
Context `{PyChars}.

Fixpoint s_lex_from (fuel : nat) (cs : str) (toks : list STok) : res TsError (list STok) :=
  match fuel with
  | O => Fuel
  | S fuel =>
      match cs with
      | [] => Ok toks
      | c :: rest =>
          if whitespace c then s_lex_from fuel rest toks
          else match s_symbol c with
          | Some t => s_lex_from fuel rest (toks ++ [t])
          | None =>
              if is_digit c then
                let '(n, rest) := span is_digit cs in
                v ← ok_or (parse_i64 n) TsParse;
                s_lex_from fuel rest (toks ++ [SInt v])
              else if alphabetic c || (c =? 95) then
                let '(id, rest) := span ident_char cs in
                s_lex_from fuel rest (toks ++ [SIdent id])
              else Err TsParse
          end
      end
  end.

Definition s_lex (src : str) : res TsError (list STok) := s_lex_from (S (length src)) src [].
End Lex.

Definition ts_shared {A} (r : res DnxError A) : res TsError A :=
  match r with Ok a => Ok a | Fuel => Fuel | Err _ | Panic => Panic end.

(** The end of a lambda and of a [let]. *)
Definition s_abs (param : Name) (body : E) : res TsError E :=
  wrapped ← ts_shared (wrap_uses param (count_uses_flat body param) body);
  Ok (AAbs param wrapped).

Definition expect (want : STok) (toks : list STok) : res TsError (list STok) :=
  match toks with
  | t :: toks => if bool_decide (t = want) then Ok toks else Err TsParse
  | [] => Err TsParse
  end.

Definition expect_ident (toks : list STok) : res TsError (list Z * list STok) :=
  match toks with SIdent n :: toks => Ok (n, toks) | _ => Err TsParse end.

Notation parser := (gset (list Z) -> list STok -> res TsError (E * list STok)) (only parsing).

Section Levels.
Context (expr : gset (list Z) -> list STok -> res TsError (E * list STok)).

(** After the backslash. *)
Definition s_lambda (bound : gset (list Z)) (toks : list STok) : res TsError (E * list STok) :=
  '(param, toks) ← expect_ident toks;
  toks ← expect SDot toks;
  '(body, toks) ← expr ({[param]} ∪ bound) toks;
  e ← s_abs param body;
  Ok (e, toks).

(** After [let]. *)
Definition let_in (bound : gset (list Z)) (toks : list STok) : res TsError (E * list STok) :=
  '(name, toks) ← expect_ident toks;
  toks ← expect SEq toks;
  '(val, toks) ← expr bound toks;
  toks ← expect SSemi toks;
  '(kw, toks) ← expect_ident toks;
  if bool_decide (kw = chars "in") then
    '(body, toks) ← expr ({[name]} ∪ bound) toks;
    e ← s_abs name body;
    Ok (AApp e val, toks)
  else Err TsParse.

(** After the opening brace; [fuel] bounds the attributes. *)
Fixpoint s_attrset (fuel : nat) (bound : gset (list Z)) (set : E) (toks : list STok) : res TsError (E * list STok) :=
  match fuel with
  | O => Fuel
  | S fuel =>
      match toks with
      | SRBrace :: toks => Ok (set, toks)
      | _ =>
          '(key, toks) ← expect_ident toks;
          toks ← expect SEq toks;
          '(val, toks) ← expr bound toks;
          toks ← expect SSemi toks;
          s_attrset fuel bound (insert_pair set key val) toks
      end
  end.

Definition atom (bound : gset (list Z)) (toks : list STok) : res TsError (E * list STok) :=
  match toks with
  | SInt n :: toks => Ok (AVal (NInt n), toks)
  | SIdent n :: toks => Ok (lower_name bound n, toks)
  | SLParen :: toks => '(e, toks) ← expr bound toks; toks ← expect SRParen toks; Ok (e, toks)
  | SLBrace :: toks => s_attrset (S (length toks)) bound (AFun FEmptyAttrSet) toks
  | SLambda :: toks => s_lambda bound toks
  | _ => Err TsParse
  end.

Fixpoint selects (acc : E) (toks : list STok) : res TsError (E * list STok) :=
  match toks with
  | SDot :: SIdent key :: toks => selects (app2 (AFun FSelect) acc (AVal (NStr key))) toks
  | SDot :: _ => Err TsParse
  | _ => Ok (acc, toks)
  end.

Definition postfix (bound : gset (list Z)) (toks : list STok) : res TsError (E * list STok) :=
  '(acc, toks) ← atom bound toks; selects acc toks.

Definition starts_atom (toks : list STok) : bool :=
  match toks with (SInt _ | SIdent _ | SLParen | SLBrace | SLambda) :: _ => true | _ => false end.

Fixpoint app_loop (fuel : nat) (bound : gset (list Z)) (acc : E) (toks : list STok) : res TsError (E * list STok) :=
  match fuel with
  | O => Fuel
  | S fuel =>
      if starts_atom toks then '(arg, toks) ← postfix bound toks; app_loop fuel bound (AApp acc arg) toks
      else Ok (acc, toks)
  end.
Definition s_app (bound : gset (list Z)) (toks : list STok) : res TsError (E * list STok) :=
  '(acc, toks) ← postfix bound toks; app_loop (S (length toks)) bound acc toks.

Fixpoint add_loop (fuel : nat) (bound : gset (list Z)) (acc : E) (toks : list STok) : res TsError (E * list STok) :=
  match fuel with
  | O => Fuel
  | S fuel =>
      match toks with
      | SPlus :: toks => '(rhs, toks) ← s_app bound toks; add_loop fuel bound (app2 (AFun FAdd) acc rhs) toks
      | _ => Ok (acc, toks)
      end
  end.
Definition s_add (bound : gset (list Z)) (toks : list STok) : res TsError (E * list STok) :=
  '(acc, toks) ← s_app bound toks; add_loop (S (length toks)) bound acc toks.

Definition expr_body (bound : gset (list Z)) (toks : list STok) : res TsError (E * list STok) :=
  match toks with
  | SLambda :: toks' => s_lambda bound toks'
  | SIdent n :: toks' => if bool_decide (n = chars "let") then let_in bound toks' else s_add bound toks
  | _ => s_add bound toks
  end.
End Levels.

(** [fuel] bounds the nesting: an expression inside another one starts at
    least a token later. *)
Fixpoint s_expr (fuel : nat) (bound : gset (list Z)) (toks : list STok) : res TsError (E * list STok) :=
  match fuel with
  | O => Fuel
  | S fuel => expr_body (s_expr fuel) bound toks
  end.

Definition lower_lambda_surface `{PyChars} (src : str) : res TsError E :=
  toks ← s_lex src;
  '(e, rest) ← s_expr (S (length toks)) ∅ toks;
  match rest with [] => Ok e | _ => Err TsParse end.

(** ** The runtime ([runtime.rs]) *)

Open Scope string_scope.
Definition TS_PRELUDE : list (string * string) := [("nil", "c: n: n"); ("cons", "h: t: c: n: c h t")].
Close Scope string_scope.

Section TsRuntime.
Context `{Host} {NixError : Type} (nix_to_expr : list Z -> res NixError E) (elab_ctr var_ctr : Z).

Definition tsprimfun_to_entry (f : NixPrimFun) : option PrimFunEntry :=
  let table := nix_prim_table in
  name ← nixprimfun_name f;
  id ← table_lookup table (chars name);
  make_entry table id.

Definition tsprimval_to_value : NixPrimVal -> option PrimValue := nixprimval_to_value.
Definition ts_ctx : PrimCtx NixPrimVal NixPrimFun := mk_ctx tsprimfun_to_entry tsprimval_to_value.

Definition ts_prelude_defs : res TsError (gmap (list Z) E) := map_err (fun _ => TsParse) (parse_defs nix_to_expr TS_PRELUDE).

(** [inl] is a [Readback] with the text of an error of the front end. *)
Notation ts_fail := (TsError + NixEvalError NixError)%type (only parsing).

Definition build_net_from_ast (ast : E) : res (TsError + NixEvalError NixError) (Net * PrimState * PortId) :=
  defs ← map_err inl ts_prelude_defs;
  ast ← map_err (inr ∘ Elaborate2) (pass0 defs ast);
  r1 ← map_err (inr ∘ Elaborate2) (pass1 ast);
  '(rp, _, s) ← map_err (inr ∘ Elaborate)
    (elaborate_with_prims call_builtin ts_ctx (usage_levels r1) ast 0 root
       (mk_est (net_new DeltaK (Z.shiftl 1 16)) ∅ prims_new elab_ctr));
  '(root_port, n) ← map_err (inr ∘ Elaborate)
    (if bool_decide (port_kind rp = Principal) then Ok (rp, e_net s)
     else '(rs, n) ← alloc_free (e_net s) 0; n ← connect n rp rs root; Ok (rs, n));
  Ok (add_root n "r" root_port, e_prims s, root_port).

(** [inl] is the error of the front end. *)
Definition eval_net (fuel : nat) (built : res (TsError + NixEvalError NixError) (Net * PrimState * PortId))
    : res DnxError (TsError + NixEvalResult NixError) :=
  match built with
  | Err (inl e) => Ok (inl e)
  | Err (inr e) => Ok (inr (RError e))
  | Ok net =>
      r ← run_built py_read_scalar_head (py_readback_result var_ctr fuel) fuel (Ok net);
      Ok (inr r)
  | Panic => Panic
  | Fuel => Fuel
  end.

Definition ts_eval `{PyChars} `{TreeSitter} (fuel : nat) (src : str) : res DnxError (TsError + NixEvalResult NixError) :=
  eval_net fuel (ast ← map_err inl (ts_to_ast src); build_net_from_ast ast).

Definition eval_lambda `{PyChars} (fuel : nat) (src : str) : res DnxError (TsError + NixEvalResult NixError) :=
  eval_net fuel (ast ← map_err inl (lower_lambda_surface src); build_net_from_ast ast).
End TsRuntime.
