(* ===== verification/SurfaceSpec.v ===== *)
(** * The lambda surface: it always ends, and its terms mean what is written *)
From S2P Require Import Prelude Bytes Utf8 Text Codec Error LOPath Port Arena Net Prim Rules Ast Pass0 Pass1 Share Elab Read NixVal PyParse PyParseSpec PyLower PyLowerSpec Json Builtins BuiltinsSpec Whnf Runtime RuntimeSpec Surface.

(** ** Sharing cannot fail *)

(** Renaming meets as many names as counting does. *)
Lemma rename_counts {V F} (e : Ast V F) x ns : forall idx, plain e -> (idx + count_uses_flat e x <= length ns)%nat ->
  exists e', indexed_rename e x ns idx = Ok (e', (idx + count_uses_flat e x)%nat).
Proof.
  unfold count_uses_flat. induction e using ast_ind; cbn [plain indexed_rename count_uses]; intros idx He Hl; try done.
  - case_bool_decide; [|eexists; do 2 f_equal; lia]. destruct (lookup_lt_is_Some_2 ns idx) as [r Hr]; [lia|].
    unfold index. rewrite Hr. cbn. eexists. do 2 f_equal. lia.
  - case_bool_decide; [eexists; do 2 f_equal; lia|]. destruct (IHe idx He Hl) as [e' ->]. cbn. by eexists.
  - destruct He as [H1 H2]. destruct (IHe1 idx H1) as [a ->]; [lia|]. cbn [mbind res_bind].
    edestruct IHe2 as [b ->]; [done|..|cbn [mbind res_bind]]; [lia|]. eexists. do 2 f_equal. lia.
  - destruct He as [H1 H2]. destruct (IHe1 idx H1) as [a' ->]; [lia|]. cbn [mbind res_bind].
    destruct (_ || _); [eexists; do 2 f_equal; lia|].
    edestruct IHe2 as [b' ->]; [done|..|cbn [mbind res_bind]]; [lia|]. eexists. do 2 f_equal. lia.
  - destruct He as [H1 H2]. destruct (IHe1 idx H1) as [a ->]; [lia|]. cbn [mbind res_bind].
    edestruct IHe2 as [b ->]; [done|..|cbn [mbind res_bind]]; [lia|]. eexists. do 2 f_equal. lia.
  - eexists. do 2 f_equal. lia.
  - eexists. do 2 f_equal. lia.
Qed.

Lemma wrap_total {V F} x (body : Ast V F) : plain body ->
  exists e, wrap_uses x (count_uses_flat body x) body = Ok e /\ plain e.
Proof.
  intros Hp. assert (exists e, wrap_uses x (count_uses_flat body x) body = Ok e) as [e He].
  { destruct (count_uses_flat body x) as [|[|k]] eqn:Hc; [by eexists..|]. unfold wrap_uses, build_rep_chain. cbn [Nat.leb].
    destruct (rename_counts body x (split_name x <$> seq 0 (S (S k))) 0 Hp) as [e' ->].
    { rewrite length_fmap, length_seq. lia. }
    cbn [mbind res_bind]. apply nest_reps_total. rewrite length_fmap, length_seq. lia. }
  exists e. split; [done|]. by eapply wrap_plain.
Qed.

Lemma s_abs_total x body : plain body -> exists e, s_abs x body = Ok e /\ plain e.
Proof. intros Hp. unfold s_abs. destruct (wrap_total x body Hp) as (e & -> & He). by exists (AAbs x e). Qed.

(** ** Progress *)

(** The term is plain, and at least one token was taken. *)
Definition took (toks : list STok) (r : E * list STok) : Prop := plain r.1 /\ (length r.2 < length toks)%nat.
(** As above, or none was. *)
Definition kept (toks : list STok) (r : E * list STok) : Prop := plain r.1 /\ (length r.2 <= length toks)%nat.

Lemma expect_took t toks : settled (fun rest => (length rest < length toks)%nat) (Surface.expect t toks).
Proof. destruct toks as [|t' toks]; [done|]. cbn. case_bool_decide; [cbn; lia|done]. Qed.

Lemma ident_took toks : settled (fun r => (length r.2 < length toks)%nat) (expect_ident toks).
Proof. destruct toks as [|[] toks]; try done. cbn. lia. Qed.

Lemma selects_kept toks : forall acc, plain acc -> settled (kept toks) (selects acc toks).
Proof.
  assert (forall n toks, (length toks <= n)%nat -> forall acc, plain acc -> settled (kept toks) (selects acc toks)) as H; [|by eapply H].
  induction n as [|n IH]; intros [|t [|t' ts]] Hn acc Ha; cbn [length] in Hn; try lia; try (by split).
  - by destruct t; try (by split).
  - destruct t; try (by split). destruct t'; try done. cbn [selects].
    eapply settled_weaken; [apply IH; [lia|done]|]. intros r [Hp Hl]. split; [done|]. cbn [length]. lia.
Qed.

Section Progress.
Context (expr : gset (list Z) -> list STok -> res TsError (E * list STok)) (n : nat).
Context (Hexpr : forall bound toks, (length toks <= n)%nat -> settled (took toks) (expr bound toks)).

Lemma lambda_took bound toks : (length toks <= n)%nat -> settled (took toks) (s_lambda expr bound toks).
Proof.
  intros Hn. unfold s_lambda. eapply settled_bind; [apply ident_took|]. intros [param t1] H1. cbn in H1.
  eapply settled_bind; [apply expect_took|]. intros t2 H2; cbn in H2.
  eapply settled_bind; [apply Hexpr; lia|]. intros [body t3] [Hb H3]. cbn in Hb, H3.
  destruct (s_abs_total param body Hb) as (e & -> & He). cbn. split; [done|]. cbn. lia.
Qed.

Lemma let_took bound toks : (length toks <= n)%nat -> settled (took toks) (let_in expr bound toks).
Proof.
  intros Hn. unfold let_in. eapply settled_bind; [apply ident_took|]. intros [name t1] H1. cbn in H1.
  eapply settled_bind; [apply expect_took|]. intros t2 H2; cbn in H2.
  eapply settled_bind; [apply Hexpr; lia|]. intros [v t3] [Hv H3]. cbn in Hv, H3.
  eapply settled_bind; [apply expect_took|]. intros t4 H4; cbn in H4.
  eapply settled_bind; [apply ident_took|]. intros [kw t5] H5. cbn in H5. case_bool_decide; [|done].
  eapply settled_bind; [apply Hexpr; lia|]. intros [body t6] [Hb H6]. cbn in Hb, H6.
  destruct (s_abs_total name body Hb) as (e & -> & He). cbn. split; [done|]. cbn. lia.
Qed.

Lemma attrset_took fuel : forall bound set toks, plain set -> (length toks < fuel)%nat -> (length toks <= n)%nat ->
  settled (kept toks) (s_attrset expr fuel bound set toks).
Proof.
  induction fuel as [|fuel IH]; intros bound set toks Hs Hf Hn; [lia|]. cbn [s_attrset].
  assert (settled (kept toks) ('(key, t1) ← expect_ident toks; t2 ← Surface.expect SEq t1; '(val, t3) ← expr bound t2;
    t4 ← Surface.expect SSemi t3; s_attrset expr fuel bound (insert_pair set key val) t4)) as H.
  { eapply settled_bind; [apply ident_took|]. intros [key t1] H1. cbn in H1.
    eapply settled_bind; [apply expect_took|]. intros t2 H2; cbn in H2.
    eapply settled_bind; [apply Hexpr; lia|]. intros [v t3] [Hv H3]. cbn in Hv, H3.
    eapply settled_bind; [apply expect_took|]. intros t4 H4; cbn in H4.
    eapply settled_weaken; [apply IH; [by repeat split|lia|lia]|]. intros r [Hp Hl]. split; [done|lia]. }
  destruct toks as [|[] toks]; try exact H. cbn. split; [done|]. cbn. lia.
Qed.

Lemma atom_took bound toks : (length toks <= S n)%nat -> settled (took toks) (Surface.atom expr bound toks).
Proof.
  destruct toks as [|t toks]; [done|]. cbn [length]. intros Hn. destruct t; cbn [Surface.atom]; try done.
  - eapply settled_weaken; [apply lambda_took; lia|]. intros r [Hp Hl]. split; [done|cbn; lia].
  - eapply settled_bind; [apply Hexpr; lia|]. intros [e t1] [He H1]. cbn in He, H1.
    eapply settled_bind; [apply expect_took|]. intros t2 H2; cbn in H2. split; [done|cbn; lia].
  - eapply settled_weaken; [apply attrset_took; [done|lia|lia]|]. intros r [Hp Hl]. split; [done|cbn; lia].
  - split; [done|cbn; lia].
  - split; [cbn; unfold lower_name; by case_bool_decide|cbn; lia].
Qed.

Lemma postfix_took bound toks : (length toks <= S n)%nat -> settled (took toks) (Surface.postfix expr bound toks).
Proof.
  intros Hn. unfold Surface.postfix. eapply settled_bind; [by apply atom_took|]. intros [e t1] [He H1]. cbn in He, H1.
  eapply settled_weaken; [by apply selects_kept|]. intros r [Hp Hl]. split; [done|lia].
Qed.

Lemma app_loop_kept fuel : forall bound acc toks, plain acc -> (length toks < fuel)%nat -> (length toks <= S n)%nat ->
  settled (kept toks) (app_loop expr fuel bound acc toks).
Proof.
  induction fuel as [|fuel IH]; intros bound acc toks Ha Hf Hn; [lia|]. cbn [app_loop]. destruct (starts_atom toks); [|by split].
  eapply settled_bind; [by apply postfix_took|]. intros [arg t1] [He H1]. cbn in He, H1.
  eapply settled_weaken; [apply IH; [done|lia|lia]|]. intros r [Hp Hl]. split; [done|lia].
Qed.

Lemma app_took bound toks : (length toks <= S n)%nat -> settled (took toks) (s_app expr bound toks).
Proof.
  intros Hn. unfold s_app. eapply settled_bind; [by apply postfix_took|]. intros [e t1] [He H1]. cbn in He, H1.
  eapply settled_weaken; [apply app_loop_kept; [done|lia|lia]|]. intros r [Hp Hl]. split; [done|lia].
Qed.

Lemma add_loop_kept fuel : forall bound acc toks, plain acc -> (length toks < fuel)%nat -> (length toks <= S n)%nat ->
  settled (kept toks) (add_loop expr fuel bound acc toks).
Proof.
  induction fuel as [|fuel IH]; intros bound acc toks Ha Hf Hn; [lia|]. cbn [add_loop].
  destruct toks as [|[] toks]; try (by split). cbn [length] in *.
  eapply settled_bind; [apply app_took; lia|]. intros [e t1] [He H1]. cbn in He, H1.
  eapply settled_weaken; [apply IH; [done|lia|lia]|]. intros r [Hp Hl]. split; [done|cbn; lia].
Qed.

Lemma body_took bound toks : (length toks <= S n)%nat -> settled (took toks) (expr_body expr bound toks).
Proof.
  intros Hn. assert (settled (took toks) (s_add expr bound toks)) as H.
  { unfold s_add. eapply settled_bind; [by apply app_took|]. intros [e t1] [He H1]. cbn in He, H1.
    eapply settled_weaken; [apply add_loop_kept; [done|lia|lia]|]. intros r [Hp Hl]. split; [done|lia]. }
  destruct toks as [|t toks]; [exact H|]. destruct t; try exact H; cbn [expr_body length] in *.
  - eapply settled_weaken; [apply lambda_took; lia|]. intros r [Hp Hl]. split; [done|cbn; lia].
  - case_bool_decide; [|exact H]. eapply settled_weaken; [apply let_took; lia|]. intros r [Hp Hl]. split; [done|cbn; lia].
Qed.
End Progress.

Lemma expr_took n : forall bound toks, (length toks <= n)%nat -> settled (took toks) (s_expr (S n) bound toks).
Proof.
  induction n as [|n IH]; intros bound toks Hn.
  - destruct toks; [done|cbn in Hn; lia].
  - cbn [s_expr]. by apply (body_took (s_expr (S n)) n).
Qed.

Lemma s_lex_settled `{PyChars} fuel : forall cs toks, (length cs < fuel)%nat -> settled (fun _ => True) (s_lex_from fuel cs toks).
Proof.
  induction fuel as [|fuel IH]; intros cs toks Hf; [lia|]. cbn [s_lex_from]. destruct cs as [|c rest]; [done|]. cbn [length] in Hf.
  case_match; [apply IH; lia|]. case_match; [apply IH; lia|]. case_match.
  - pose proof (span_shorter is_digit c rest ltac:(done)) as Hs. destruct (span is_digit (c :: rest)) as [ds r]. cbn in Hs.
    eapply (settled_bind (fun _ => True)); [by destruct (parse_i64 ds)|]. intros v _. apply IH. lia.
  - case_match; [|done]. pose proof (span_shorter ident_char c rest) as Hs.
    destruct (span ident_char (c :: rest)) as [id r]. apply IH. cbn in Hs.
    assert (ident_char c = true) by (unfold ident_char; rewrite !orb_true_iff in *; tauto). specialize (Hs ltac:(done)). lia.
Qed.

(** Every text of the lambda surface is read in finitely many steps: the
    lexer and the parser answer a term or an error with fuel for one more
    step than there are characters and one more nesting than there are
    tokens, and making the uses of a variable explicit never panics, whatever
    the names.  A term read has no fixpoint and no effect. *)
Theorem surface_total `{PyChars} (src : str) : settled plain (lower_lambda_surface src).
Proof.
  unfold lower_lambda_surface. eapply (settled_bind (fun _ => True)); [apply s_lex_settled; lia|]. intros toks _.
  eapply settled_bind; [by apply expr_took|]. intros [e rest] [He _]. by destruct rest.
Qed.

(** ** Terms as they are written *)

Inductive Sx : Type :=
| XInt (n : Z)
| XVar (x : list Z)
| XLam (x : list Z) (body : Sx)
| XLet (x : list Z) (v body : Sx)
| XApp (f a : Sx)
| XAdd (a b : Sx)
| XSel (s : Sx) (key : list Z)
| XSet (kvs : list (list Z * Sx)).

Section SxInd.
Context (P : Sx -> Prop)
  (HInt : forall n, P (XInt n)) (HVar : forall x, P (XVar x)) (HLam : forall x b, P b -> P (XLam x b))
  (HLet : forall x v b, P v -> P b -> P (XLet x v b)) (HApp : forall f a, P f -> P a -> P (XApp f a))
  (HAdd : forall a b, P a -> P b -> P (XAdd a b)) (HSel : forall s k, P s -> P (XSel s k))
  (HSet : forall kvs, Forall (fun kv => P kv.2) kvs -> P (XSet kvs)).

Fixpoint sx_ind (t : Sx) : P t :=
  match t with
  | XInt n => HInt n
  | XVar x => HVar x
  | XLam x b => HLam x b (sx_ind b)
  | XLet x v b => HLet x v b (sx_ind v) (sx_ind b)
  | XApp f a => HApp f a (sx_ind f) (sx_ind a)
  | XAdd a b => HAdd a b (sx_ind a) (sx_ind b)
  | XSel s k => HSel s k (sx_ind s)
  | XSet kvs => HSet kvs ((fix go l : Forall (fun kv => P kv.2) l :=
      match l with [] => List.Forall_nil _ | kv :: l => List.Forall_cons _ _ _ (sx_ind kv.2) (go l) end) kvs)
  end.
End SxInd.

(** The tokens of a term, every compound in parentheses. *)
Fixpoint stoks (t : Sx) : list STok :=
  match t with
  | XInt n => [SInt n]
  | XVar x => [SIdent x]
  | XLam x b => SLParen :: SLambda :: SIdent x :: SDot :: stoks b ++ [SRParen]
  | XLet x v b =>
      SLParen :: SIdent (chars "let") :: SIdent x :: SEq :: stoks v ++ SSemi :: SIdent (chars "in") :: stoks b ++ [SRParen]
  | XApp f a => SLParen :: stoks f ++ stoks a ++ [SRParen]
  | XAdd a b => SLParen :: stoks a ++ SPlus :: stoks b ++ [SRParen]
  | XSel s k => SLParen :: stoks s ++ [SDot; SIdent k; SRParen]
  | XSet kvs => SLBrace :: concat (map (fun kv => SIdent kv.1 :: SEq :: stoks kv.2 ++ [SSemi]) kvs) ++ [SRBrace]
  end.

(** The term of the core syntax. *)
Fixpoint core (bound : gset (list Z)) (t : Sx) : res TsError E :=
  match t with
  | XInt n => Ok (AVal (NInt n))
  | XVar x => Ok (lower_name bound x)
  | XLam x b => body ← core ({[x]} ∪ bound) b; s_abs x body
  | XLet x v b => val ← core bound v; body ← core ({[x]} ∪ bound) b; f ← s_abs x body; Ok (AApp f val)
  | XApp f a => f ← core bound f; a ← core bound a; Ok (AApp f a)
  | XAdd a b => a ← core bound a; b ← core bound b; Ok (app2 (AFun FAdd) a b)
  | XSel s k => s ← core bound s; Ok (app2 (AFun FSelect) s (AVal (NStr k)))
  | XSet kvs => foldl (fun set kv => set ← set; v ← core bound kv.2; Ok (insert_pair set kv.1 v)) (Ok (AFun FEmptyAttrSet)) kvs
  end.

(** No variable is the word [let]. *)
Fixpoint readable (t : Sx) : Prop :=
  match t with
  | XInt _ => True
  | XVar x => x <> chars "let"
  | XLam _ b | XSel b _ => readable b
  | XLet _ a b | XApp a b | XAdd a b => readable a /\ readable b
  | XSet kvs => foldr and True (map (fun kv => readable kv.2) kvs)
  end.

(** ** Reading back *)

(** Nothing that could go on an expression. *)
Definition stops (rest : list STok) : Prop :=
  match rest with [] | (SRParen | SSemi) :: _ => True | _ => False end.
Definition no_dot (rest : list STok) : Prop := match rest with SDot :: _ => False | _ => True end.

Definition reads (t : Sx) : Prop := readable t -> forall k bound e rest, (length (stoks t) <= S k)%nat -> core bound t = Ok e ->
  Surface.atom (s_expr k) bound (stoks t ++ rest) = Ok (e, rest).

Lemma starts t : readable t -> forall rest, exists tok ts, stoks t ++ rest = tok :: ts /\ starts_atom (tok :: ts) = true /\
  tok <> SLambda /\ tok <> SIdent (chars "let").
Proof.
  destruct t; cbn [stoks app]; intros Hr rest; do 2 eexists; (split; [reflexivity|]); (split; [done|]); (split; [done|]); try done.
  intros H. injection H as ->. by apply Hr.
Qed.

Lemma selects_stop e rest : no_dot rest -> selects e rest = Ok (e, rest).
Proof. destruct rest as [|[] rest]; done. Qed.

Section Reading.
Context (k : nat) (bound : gset (list Z)).
Notation ex := (s_expr k).

Lemma postfix_reads t e rest : reads t -> readable t -> (length (stoks t) <= S k)%nat -> core bound t = Ok e -> no_dot rest ->
  Surface.postfix ex bound (stoks t ++ rest) = Ok (e, rest).
Proof.
  intros Ht Hr Hk He Hd. unfold Surface.postfix. rewrite (Ht Hr k bound e rest Hk He). cbn [mbind res_bind]. by apply selects_stop.
Qed.

Lemma app_loop_stop fuel e rest : starts_atom rest = false -> app_loop ex (S fuel) bound e rest = Ok (e, rest).
Proof. intros H. cbn [app_loop]. by rewrite H. Qed.

Lemma app_reads t e rest : reads t -> readable t -> (length (stoks t) <= S k)%nat -> core bound t = Ok e -> no_dot rest ->
  starts_atom rest = false -> s_app ex bound (stoks t ++ rest) = Ok (e, rest).
Proof.
  intros Ht Hr Hk He Hd Hs. unfold s_app. rewrite (postfix_reads t e rest) by done. cbn [mbind res_bind]. by apply app_loop_stop.
Qed.

Lemma stops_no rest : stops rest -> no_dot rest /\ starts_atom rest = false /\
  forall fuel e, add_loop ex (S fuel) bound e rest = Ok (e, rest).
Proof. destruct rest as [|[] rest]; done. Qed.

Lemma body_add t rest : readable t -> expr_body ex bound (stoks t ++ rest) = s_add ex bound (stoks t ++ rest).
Proof.
  intros Hr. destruct (starts t Hr rest) as (tok & ts & -> & _ & Hl & Hi). destruct tok; try done.
  cbn [expr_body]. rewrite bool_decide_false; [done|intros ->; by apply Hi].
Qed.
End Reading.

Lemma expr_reads t k bound e rest : reads t -> readable t -> (length (stoks t) <= S k)%nat -> core bound t = Ok e -> stops rest ->
  s_expr (S k) bound (stoks t ++ rest) = Ok (e, rest).
Proof.
  intros Ht Hr Hk He Hs. cbn [s_expr]. rewrite body_add by done. unfold s_add.
  destruct (stops_no k bound rest Hs) as (Hd & Ha & Hl). rewrite (app_reads k bound t e rest) by done. cbn [mbind res_bind].
  by apply Hl.
Qed.

Lemma s_expect_cons t rest : Surface.expect t (t :: rest) = Ok rest.
Proof. cbn. by rewrite bool_decide_true. Qed.

Lemma core_set bound kvs : forall acc e, foldl (fun set kv => set ← set; v ← core bound kv.2; Ok (insert_pair set kv.1 v)) acc kvs = Ok e ->
  exists s, acc = Ok s.
Proof.
  induction kvs as [|kv kvs IH]; intros acc e H; cbn [foldl] in H; [by exists e|].
  apply IH in H as (s & (s' & Hs & _)%bind_Ok). by exists s'.
Qed.

Lemma set_reads k bound kvs : Forall (fun kv => reads kv.2) kvs -> foldr and True (map (fun kv => readable kv.2) kvs) ->
  let ts := concat (map (fun kv => SIdent kv.1 :: SEq :: stoks kv.2 ++ [SSemi]) kvs) in
  (length ts <= k)%nat -> forall fuel set e rest, (length kvs < fuel)%nat ->
  foldl (fun set kv => set ← set; v ← core bound kv.2; Ok (insert_pair set kv.1 v)) (Ok set) kvs = Ok e ->
  s_attrset (s_expr k) fuel bound set (ts ++ SRBrace :: rest) = Ok (e, rest).
Proof.
  intros Hf Hr ts. unfold ts. clear ts. induction Hf as [|[key t] kvs Ht _ IH]; intros Hk fuel set e rest Hfuel He.
  - destruct fuel; [cbn in Hfuel; lia|]. cbn in He. by injection He as ->.
  - destruct fuel as [|fuel]; [lia|]. cbn [map concat foldl foldr fst snd length] in *. destruct Hr as [Hrt Hr].
    cbn [app length] in Hk. rewrite !length_app in Hk. cbn [length] in Hk.
    destruct (core_set _ _ _ _ He) as (s' & Hs'). cbn [mbind res_bind] in Hs', He.
    destruct (core bound t) as [v| | |] eqn:Hv; try discriminate. cbn [mbind res_bind] in He.
    cbn [s_attrset app expect_ident mbind res_bind]. rewrite s_expect_cons. cbn [mbind res_bind]. rewrite <- !app_assoc. cbn [app].
    destruct k as [|k]; [lia|]. rewrite (expr_reads t k bound v) by (done || lia). cbn [mbind res_bind]. rewrite s_expect_cons. cbn [mbind res_bind].
    apply IH; [done|lia|lia|done].
Qed.

Ltac reading := cbn [mbind res_bind app expect_ident]; rewrite ?s_expect_cons; cbn [mbind res_bind app].

Lemma all_read t : reads t.
Proof.
  induction t as [n|x|x b IHb|x v b IHv IHb|f a IHf IHa|a b IHa IHb|s key IHs|kvs IH] using sx_ind; intros Hr k bound e rest Hk He;
    cbn [stoks readable core app length] in *.
  - by injection He as <-.
  - by injection He as <-.
  - rewrite length_app in Hk. cbn [length] in Hk. apply bind_Ok in He as (body & Hb & He).
    rewrite <- app_assoc. cbn [app Surface.atom]. destruct k as [|k]; [lia|]. cbn [s_expr expr_body]. unfold s_lambda. reading.
    destruct k as [|k]; [lia|]. rewrite (expr_reads b k _ body) by (done || lia). reading. rewrite He. by reading.
  - destruct Hr as [Hv Hb]. rewrite !length_app in Hk. cbn [length] in Hk. rewrite length_app in Hk. cbn [length] in Hk.
    apply bind_Ok in He as (val & Hval & (body & Hbody & (fn & Hfn & [= <-])%bind_Ok)%bind_Ok).
    rewrite <- !app_assoc. cbn [app]. rewrite <- !app_assoc. cbn [app Surface.atom]. destruct k as [|k]; [lia|].
    cbn [s_expr expr_body]. rewrite bool_decide_true by done. unfold let_in. reading.
    destruct k as [|k]; [lia|]. rewrite (expr_reads v k _ val) by (done || lia). reading.
    reading. rewrite bool_decide_true by done. rewrite (expr_reads b k _ body) by (done || lia). reading. rewrite Hfn. by reading.
  - destruct Hr as [Hf Ha]. rewrite !length_app in Hk. cbn [length] in Hk.
    apply bind_Ok in He as (f' & Hf' & (a' & Ha' & [= <-])%bind_Ok).
    rewrite <- !app_assoc. cbn [app Surface.atom]. destruct k as [|k]; [lia|]. cbn [s_expr]. rewrite body_add by done.
    unfold s_add, s_app. destruct (starts a Ha (SRParen :: rest)) as (tok & ts & Hts & Hst & _ & _).
    rewrite (postfix_reads k bound f f' (stoks a ++ SRParen :: rest)); [|done|done|lia|done|rewrite Hts; by destruct tok].
    reading. rewrite Hts. cbn [app_loop length]. rewrite Hst, <- Hts.
    rewrite (postfix_reads k bound a a') by (done || lia). reading. cbn [app_loop starts_atom]. by reading.
  - destruct Hr as [Ha Hb]. rewrite !length_app in Hk. cbn [length] in Hk. rewrite length_app in Hk. cbn [length] in Hk.
    apply bind_Ok in He as (a' & Ha' & (b' & Hb' & [= <-])%bind_Ok).
    rewrite <- !app_assoc. cbn [app]. rewrite <- !app_assoc. cbn [app Surface.atom]. destruct k as [|k]; [lia|]. cbn [s_expr]. rewrite body_add by done.
    unfold s_add. rewrite (app_reads k bound a a') by (done || lia). reading. cbn [add_loop length].
    rewrite (app_reads k bound b b') by (done || lia). reading. cbn [add_loop]. by reading.
  - rewrite !length_app in Hk. cbn [length] in Hk. apply bind_Ok in He as (s' & Hs' & [= <-]).
    rewrite <- !app_assoc. cbn [app Surface.atom]. destruct k as [|k]; [lia|]. cbn [s_expr]. rewrite body_add by done.
    unfold s_add, s_app, Surface.postfix. rewrite (IHs Hr k bound s') by (done || lia). reading. cbn [selects]. reading.
    cbn [app_loop starts_atom add_loop]. by reading.
  - rewrite length_app in Hk. cbn [length] in Hk. rewrite <- app_assoc. cbn [app Surface.atom].
    apply (set_reads k bound kvs IH Hr); [lia| |done]. rewrite length_app. cbn [length].
    clear. induction kvs as [|kv kvs IH]; cbn [map concat length]; [lia|]. cbn [app length]. rewrite !length_app. cbn [length]. lia.
Qed.

(** ** Meaning *)

(** The meaning of a term where [bound] are the names in scope. *)
Fixpoint smean (ρ : gmap (list Z) (nat + list Z)) (d : nat) (bound : gset (list Z)) (t : Sx) {struct t} : tm :=
  match t with
  | XInt n => DVal (NInt n)
  | XVar x => if bool_decide (x ∈ bound) then DVar (target ρ x) else DFun (FBuiltin x)
  | XLam x b => DAbs (smean (<[x := inl d]> ρ) (S d) ({[x]} ∪ bound) b)
  | XLet x v b => DApp (DAbs (smean (<[x := inl d]> ρ) (S d) ({[x]} ∪ bound) b)) (smean ρ d bound v)
  | XApp f a => DApp (smean ρ d bound f) (smean ρ d bound a)
  | XAdd a b => dapp2 (DFun FAdd) (smean ρ d bound a) (smean ρ d bound b)
  | XSel s k => dapp2 (DFun FSelect) (smean ρ d bound s) (DVal (NStr k))
  | XSet kvs =>
      foldl (fun set kv => DApp (dapp2 (DFun FInsert) set (DVal (NStr kv.1))) kv.2) (DFun FEmptyAttrSet)
        (map (fun kv => (kv.1, smean ρ d bound kv.2)) kvs)
  end.

(** Names that are no copies of others, see [own_name]. *)
Fixpoint own_names (t : Sx) : Prop :=
  match t with
  | XInt _ => True
  | XVar x => own_name x
  | XLam x b => own_name x /\ own_names b
  | XSel s _ => own_names s
  | XLet x v b => own_name x /\ own_names v /\ own_names b
  | XApp a b | XAdd a b => own_names a /\ own_names b
  | XSet kvs => foldr and True (map (fun kv => own_names kv.2) kvs)
  end.

(** The variables of a term. *)
Fixpoint ssize (t : Sx) : nat :=
  match t with
  | XInt _ => 0
  | XVar _ => 1
  | XLam _ b | XSel b _ => ssize b
  | XLet _ a b | XApp a b | XAdd a b => ssize a + ssize b
  | XSet kvs => list_sum (map (fun kv => ssize kv.2) kvs)
  end%nat.

Definition means (t : Sx) : Prop := forall bound, own_names t -> Z.of_nat (ssize t) < 10 ^ 20 ->
  exists e, core bound t = Ok e /\ lowered_to (ssize t) (fun ρ d => smean ρ d bound t) e.

Lemma s_abs_lowered p n m body : own_name p -> Z.of_nat n < 10 ^ 20 -> lowered_to n m body ->
  exists t, s_abs p body = Ok t /\ lowered_to n (fun ρ d => DAbs (m (<[p := inl d]> ρ) (S d))) t.
Proof.
  intros Hp Hn Hb. destruct (wrap_abs_lowered p n m body Hp Hn Hb) as (t & Ht & Hl). exists t. split; [|done].
  unfold wrap_abs in Ht. unfold s_abs. destruct (wrap_uses p (count_uses_flat body p) body); try discriminate Ht. by injection Ht as <-.
Qed.

Lemma set_means bound kvs : Forall (fun kv => means kv.2) kvs -> forall i m set,
  foldr and True (map (fun kv => own_names kv.2) kvs) -> Z.of_nat (list_sum (map (fun kv => ssize kv.2) kvs)) < 10 ^ 20 ->
  lowered_to i m set -> exists t,
    foldl (fun set kv => set ← set; v ← core bound kv.2; Ok (insert_pair set kv.1 v)) (Ok set) kvs = Ok t /\
    lowered_to (i + list_sum (map (fun kv => ssize kv.2) kvs))
      (fun ρ d => foldl (fun set kv => DApp (dapp2 (DFun FInsert) set (DVal (NStr kv.1))) kv.2) (m ρ d)
         (map (fun kv => (kv.1, smean ρ d bound kv.2)) kvs)) t.
Proof.
  induction 1 as [|[key t] kvs Ht _ IH]; intros i m set Ho Hs Hset; cbn [map foldl foldr fst snd] in *.
  { exists set. split; [done|]. eapply lowered_weaken; [exact Hset|cbn; lia|done]. }
  destruct Ho as [Ho1 Ho]. change (list_sum (?x :: ?l)) with (x + list_sum l)%nat in *.
  destruct (Ht bound Ho1) as (v & Hv & Hl); [lia|]. cbn [mbind res_bind]. rewrite Hv. cbn [mbind res_bind].
  pose proof (lowered_app _ _ _ _ _ _ (lowered_app2 _ _ _ _ _ _ _ _ _ (lowered_fun FInsert) Hset (lowered_val (NStr key))) Hl) as H1.
  edestruct IH as (e & He & Hle); [done|lia|exact H1|]. exists e. split; [exact He|].
  eapply lowered_weaken; [exact Hle|lia|done].
Qed.

Lemma means_all t : means t.
Proof.
  induction t as [n|x|x b IHb|x v b IHv IHb|f a IHf IHa|a b IHa IHb|s key IHs|kvs IH] using sx_ind; intros bound Ho Hs;
    cbn [core own_names ssize smean] in *.
  - eexists. split; [done|]. apply lowered_val.
  - eexists. split; [done|]. exact (name_lowered bound x Ho).
  - destruct Ho as [Hx Hb]. destruct (IHb ({[x]} ∪ bound) Hb Hs) as (e & -> & He). cbn [mbind res_bind].
    exact (s_abs_lowered x _ _ _ Hx Hs He).
  - destruct Ho as (Hx & Hv & Hb). destruct (IHv bound Hv) as (ev & -> & Hev); [lia|].
    destruct (IHb ({[x]} ∪ bound) Hb) as (eb & -> & Heb); [lia|]. cbn [mbind res_bind].
    destruct (s_abs_lowered x (ssize b) _ _ Hx ltac:(lia) Heb) as (f & -> & Hf). cbn [mbind res_bind]. eexists. split; [done|].
    eapply lowered_weaken; [exact (lowered_app _ _ _ _ _ _ Hf Hev)|lia|done].
  - destruct Ho as [Hf Ha]. destruct (IHf bound Hf) as (ef & -> & Hef); [lia|]. destruct (IHa bound Ha) as (ea & -> & Hea); [lia|].
    eexists. split; [done|]. exact (lowered_app _ _ _ _ _ _ Hef Hea).
  - destruct Ho as [Ha Hb]. destruct (IHa bound Ha) as (ea & -> & Hea); [lia|]. destruct (IHb bound Hb) as (eb & -> & Heb); [lia|].
    eexists. split; [done|]. eapply lowered_weaken; [exact (lowered_app2 _ _ _ _ _ _ _ _ _ (lowered_fun FAdd) Hea Heb)|lia|done].
  - destruct (IHs bound Ho Hs) as (es & -> & Hes). eexists. split; [done|].
    eapply lowered_weaken; [exact (lowered_app2 _ _ _ _ _ _ _ _ _ (lowered_fun FSelect) Hes (lowered_val (NStr key)))|lia|done].
  - exact (set_means bound kvs IH 0 _ _ Ho Hs (lowered_fun FEmptyAttrSet)).
Qed.

(** C34: the lambda surface means what is written.  When a text has the tokens
    of a term, compounds in parentheses, whose variables have names that are
    no copies of other names, reading it answers a linear term in which every
    use of a variable stands for the binder it is written under: duplicated
    uses, unused variables, shadowed names and nested sets included. *)
Theorem surface_means `{PyChars} (src : str) (t : Sx) :
  s_lex src = Ok (stoks t) -> readable t -> own_names t -> Z.of_nat (ssize t) < 10 ^ 20 ->
  exists e, lower_lambda_surface src = Ok e /\ linear e /\ den ∅ 0 e = smean ∅ 0 ∅ t.
Proof.
  intros Hl Hr Ho Hs. destruct (means_all t ∅ Ho Hs) as (e & He & Hm). exists e.
  split; [|split; [apply Hm|by apply Hm]]. unfold lower_lambda_surface. rewrite Hl. cbn [mbind res_bind].
  pose proof (expr_reads t (length (stoks t)) ∅ e [] (all_read t) Hr ltac:(lia) He I) as H1. rewrite app_nil_r in H1.
  by rewrite H1.
Qed.

(** ** Strings of JSON *)

(** What [builtins.toJSON] writes for the characters of a string is decoded
    to them. *)
Lemma decode_written_loop s : forall fuel out, (length (concat (json_text_char <$> s)) < fuel)%nat ->
  decode_loop fuel (concat (json_text_char <$> s)) out = Ok (out ++ s).
Proof.
  induction s as [|c s IH]; intros fuel out Hf.
  { destruct fuel; [cbn in Hf; lia|]. cbn. by rewrite app_nil_r. }
  cbn [fmap list_fmap concat] in *. rewrite length_app in Hf.
  assert (Hstep : json_text_char c = [c] /\ c <> 92 \/ exists x, json_text_char c = [92; x] /\ x <> 117 /\ json_escape x = Some c).
  { unfold json_text_char. repeat case_match; subst;
      first [left; split; [reflexivity|lia]
            |right; first [exists 34; by vm_compute|exists 92; by vm_compute|exists 110; by vm_compute|exists 114; by vm_compute|exists 116; by vm_compute]]. }
  destruct Hstep as [[Hc Hn]|(x & Hc & Hx & He)]; rewrite Hc in *; cbn [app length] in *.
  - destruct fuel as [|fuel]; [lia|]. cbn [decode_loop]. rewrite (proj2 (Z.eqb_neq c 92) Hn). cbn [negb].
    rewrite IH by lia. by rewrite <- app_assoc.
  - destruct fuel as [|fuel]; [lia|]. cbn [decode_loop]. change (92 =? 92) with true. cbn [negb].
    transitivity (decode_loop fuel (concat (json_text_char <$> s)) (out ++ [c])).
    + repeat case_match; subst; try done; cbn [ok_or mbind res_bind]; by rewrite ?He in *; simplify_eq.
    + rewrite IH by lia. by rewrite <- app_assoc.
Qed.

Lemma decode_written s : decode_escapes (concat (json_text_char <$> s)) = Ok s.
Proof.
  unfold decode_escapes. destruct (existsb _ _) eqn:He; cbn [negb]; [by apply decode_written_loop; lia|].
  f_equal. induction s as [|c s IH]; [done|]. cbn [fmap list_fmap concat] in *. rewrite existsb_app in He.
  apply orb_false_iff in He as [Hc Hs]. rewrite IH by done. unfold json_text_char in *. repeat case_match; subst; done.
Qed.

#[local] Existing Instance ascii_chars.

(** [(\f. {a = ((f 1) + (f 2));})] with a shadowed name inside. *)
Lemma surface_means_witness :
  let f := chars "f" in let x := chars "x" in
  let t := XApp (XLam f (XSet [(chars "a", XAdd (XApp (XVar f) (XInt 1)) (XApp (XVar f) (XInt 2)))]))
             (XLam x (XLet x (XAdd (XVar x) (XVar x)) (XAdd (XVar x) (XInt 1)))) in
  exists e, lower_lambda_surface (chars "((\f. {a = ((f 1) + (f 2));}) (\x. (let x = (x + x); in (x + 1))))") = Ok e /\
    linear e /\ den ∅ 0 e = smean ∅ 0 ∅ t.
Proof.
  intros f x t. apply (surface_means _ t).
  - vm_compute. reflexivity.
  - vm_compute. repeat split; discriminate.
  - cbn [own_names t map foldr snd]. repeat split; apply own_plain; vm_compute; reflexivity.
  - vm_compute. reflexivity.
Defined.

(** ** Evaluation *)

#[local] Existing Instance no_floats.

Definition lambda_answers (src : string) (r : NixEvalResult unit) : Prop :=
  Surface.eval_lambda reads_lists 0 0 300 (chars src) = Ok (inr r).

Lemma lambda_values : lambda_answers "(\x. x + x) 5" (RInt 10) /\ lambda_answers "(\f. f (f 2)) (\x. x + 1)" (RInt 4) /\
  lambda_answers "{ a = 1; b = 2; }.b" (RInt 2) /\ lambda_answers "let x = 1; in let y = x + 1; in y" (RInt 2).
Proof. repeat split; vm_compute; reflexivity. Qed.

(** Binders are not renamed before elaboration, whose environment forgets a
    name at its use: a use of an outer variable after an inner one of the same
    name has been used is not found. *)
Lemma shadowed_name_lost : lambda_answers "(\x. (\y. y) x) 5" (RInt 5) /\
  lambda_answers "(\x. (\x. x) x) 5" (RError (Elaborate ReadbackIncomplete)) /\
  lambda_answers "let x = 1; in let x = x + 1; in x" (RError (Elaborate ReadbackIncomplete)).
Proof. repeat split; vm_compute; reflexivity. Qed.

(** Documents, seen as tree-sitter does: [[1, true]], with comments, and
    [{a: x, b: [1, true]}]. *)
Definition json_leaf (kind : string) (text : string) : Node := mk_node kind (Some (chars text)) [] None None.
Definition json_pair (k : string) (v : Node) : Node :=
  mk_node "pair" None [] (Some (mk_node "string" (Some ([34] ++ chars k ++ [34])) [] None None)) (Some v).
Definition json_array : Node :=
  mk_node "array" None [json_leaf "number" "1"; json_leaf "comment" "//"; json_leaf "true" "true"] None None.
Definition json_object : Node :=
  mk_node "object" None [json_pair "a" (mk_node "string" (Some ([34] ++ chars "x\n" ++ [34])) [] None None);
                         json_leaf "comment" "//"; json_pair "b" json_array] None None.
Definition json_doc (v : Node) : Node := mk_node "document" None [json_leaf "comment" "// c"; v] None None.
#[local] Instance json_demo : TreeSitter := {|
  json_tree s := if bool_decide (s = chars "array") then Some (json_doc json_array, false)
                 else if bool_decide (s = chars "object") then Some (json_doc json_object, false) else None |}.

Definition json_answers (src : string) (r : NixEvalResult unit) : Prop :=
  ts_eval reads_lists 0 0 300 (chars src) = Ok (inr r).

(** The array inside the object is a function by the time it is inserted, and
    is lost. *)
Lemma json_values : json_answers "array" (RList [Prim.PInt 1; Prim.PBool true]) /\
  json_answers "object" (RAttrSet [(chars "a", Prim.PStr [120; 10]); (chars "b", Prim.PLambda)]).
Proof. split; vm_compute; reflexivity. Qed.
