(* ===== verification/Sched.v ===== *)
(** * Schedulers ([crates/dnx-sched/])

    A scheduler normalises a net; the sequential and the parallel reducer are
    two instances.  Forcing to weak head normal form is the sequential driver
    for both.  The instances agree on nets without active pairs: the second
    phase of the parallel reducer is that of the sequential one. *)
From S2P Require Import Prelude Bytes Error LOPath Port Arena Net Prim Wiring Examples Rules RuleSpecs Whnf Parallel ParallelSpec.

(** [force_whnf] has a default, which both instances keep. *)
Class Scheduler : Type := {
  sched_normalize : forall {C : CRules}, nat -> Net -> res DnxError (CanonicalNet * ReduceStats);
  sched_force_whnf : forall {C : CRules}, nat -> Net -> PortId -> NormalizeConfig -> res DnxError (ValueHead * Net)
}.

Definition default_force_whnf {C : CRules} (fuel : nat) (n : Net) (port : PortId) (cfg : NormalizeConfig)
    : res DnxError (ValueHead * Net) := force_whnf fuel n port cfg.

Definition SequentialScheduler : Scheduler :=
  {| sched_normalize C fuel n := normalize fuel n; sched_force_whnf C := default_force_whnf |}.

(** [num_threads], the field, is not read; the pool's own number is. *)
Definition ParallelScheduler (num_threads current_num_threads : nat) : Scheduler :=
  {| sched_normalize C fuel n := normalize_parallel fuel n current_num_threads; sched_force_whnf C := default_force_whnf |}.

Definition normalize_par {C : CRules} (fuel : nat) (n : Net) (num_threads : nat) : res DnxError (CanonicalNet * ReduceStats) :=
  normalize_parallel fuel n num_threads.

Variant Workers : Type := Sequential | WParallel (threads : nat) | ParallelMax.

(** * Lemmas *)

Section Agree.
Context {C : CRules}.

(** The rules of a live candidate, one after the other as long as it lives. *)
Lemma fresh_fresh cand f g n : is_stale_c4 cand n = Ok true ->
  fresh_c4 cand f n = Ok n /\ (n ← fresh_c4 cand f n; fresh_c4 cand g n) = Ok n.
Proof. intros H. unfold fresh_c4. rewrite H. cbn [mbind res_bind]. by rewrite H. Qed.

Lemma candidates_step fuel n : HAS_REP = true ->
  drain_candidates (S fuel) n = ('(n', more) ← drain_phase2 n; if more : bool then drain_candidates fuel n' else Ok n').
Proof.
  intros Hr. cbn [drain_candidates]. unfold drain_phase2. rewrite Hr. cbn [negb].
  destruct (bt_pop_first (frontier2 n)) as [[[k cand] f2]|]; [|done]. unfold guarded.
  set (m := set_frontier2 f2 n). unfold fresh_c4 at 1.
  destruct (is_stale_c4 cand m) as [[]|e| |] eqn:Hm; cbn [mbind res_bind negb]; try done.
  assert (forall m1, (is_stale_c4 cand m1 = Ok false) ->
    (m2 ← (m2 ← fresh_c4 cand (fun n => c2 n (rep_principal cand) (cand_lo cand)) m1; fresh_c4 cand (fun n => c4 n cand) m2);
     drain_candidates fuel m2)
    = ('(n', more) ← (m2 ← (n' ← c2 m1 (rep_principal cand) (cand_lo cand);
                            ok ← (stale ← is_stale_c4 cand n'; Ok (negb stale)); if ok : bool then c4 n' cand else Ok n'); Ok (m2, true));
       if more : bool then drain_candidates fuel n' else Ok n')) as Hlive.
  { intros m1 H1. unfold fresh_c4. rewrite H1. cbn [mbind res_bind].
    destruct (c2 m1 _ _) as [m2|e| |]; cbn [mbind res_bind]; try done.
    destruct (is_stale_c4 cand m2) as [[]|e| |]; cbn [mbind res_bind negb]; try done.
    by destruct (c4 m2 cand). }
  destruct HAS_ERA; cbn [mbind res_bind]; [|by apply Hlive].
  destruct (c3 m _ _) as [m1|e| |]; cbn [mbind res_bind]; try done.
  destruct (is_stale_c4 cand m1) as [[]|e| |] eqn:H1; cbn [mbind res_bind negb].
  - by destruct (fresh_fresh cand (fun n => c2 n (rep_principal cand) (cand_lo cand)) (fun n => c4 n cand) m1 H1) as [_ ->].
  - by apply Hlive.
  - unfold fresh_c4. by rewrite H1.
  - unfold fresh_c4. by rewrite H1.
  - unfold fresh_c4. by rewrite H1.
Qed.

Lemma candidates_phase2 fuel : HAS_REP = true -> forall n, drain_candidates fuel n = drain_phase2_all fuel n.
Proof.
  intros Hr. induction fuel as [|fuel IH]; intros n; [done|]. rewrite candidates_step by done. cbn [drain_phase2_all].
  destruct (drain_phase2 n) as [[n' []]| | |]; cbn [mbind res_bind]; try done.
Qed.

(** The end of both reducers: canonicalisation, the sweep and the certificate. *)
Lemma finish_phases fuel n : finish_batches (S fuel) n = finalize_canonical (S fuel) n.
Proof.
  unfold finish_batches, finalize_canonical. destruct HAS_REP eqn:Hr; [by rewrite candidates_phase2|].
  cbn [drain_phase2_all]. unfold drain_phase2. by rewrite Hr.
Qed.

(** Both schedulers finish a drained net alike: in every class, whatever
    replicators wait for the second phase, with however many threads. *)
Theorem schedulers_agree fuel n threads pool : frontier1 n = [] ->
  sched_normalize (Scheduler := SequentialScheduler) (S fuel) n = sched_normalize (Scheduler := ParallelScheduler threads pool) (S fuel) n.
Proof.
  intros Hf. cbn [sched_normalize SequentialScheduler ParallelScheduler]. unfold normalize, normalize_parallel.
  cbn [drain_phase1 drain_batches]. rewrite Hf. cbn [bt_pop_first mbind res_bind]. rewrite finish_phases. unfold finalize_canonical.
  destruct (drain_phase2_all (S fuel) n) as [n1| | |]; cbn [mbind res_bind]; try done.
  destruct (net_pending_c1 n1); cbn [mbind res_bind].
  - destruct (c1 n1) as [n2| | |]; cbn [mbind res_bind]; try done. by destruct (certify_canonical n2).
  - by destruct (certify_canonical n1).
Qed.
End Agree.

(** The two redexes of [neighbours], where they differ, see [neighbours_broken]. *)
Lemma schedulers_differ : outcome (sched_normalize (Scheduler := SequentialScheduler) (C := crules_L) 100 neighbours)
  <> outcome (sched_normalize (Scheduler := ParallelScheduler 2 2) (C := crules_L) 100 neighbours).
Proof. vm_compute. discriminate. Qed.
