(* ===== verification/Gpu.v ===== *)
(** * The GPU scheduler ([crates/dnx-gpu/])

    The shader [rewrite.wgsl] fires every pair of a batch in a thread of its
    own; the host uploads the pairs and the words of the arena and reads the
    outputs back.  A buffer of the device is a function from word addresses.
    The device, of another project, is a parameter: what is assumed of it is
    that it runs the shader ([runs_shader]), its threads in any order.  The amortized
    mode, whose shader writes to the arena, is modelled with its threads one
    after the other.  The second half of the file shows that a thread computes
    what a worker of the batch reducer does, and that the amortized mode ends. *)
From S2P Require Import Prelude Bytes Error LOPath Port Arena Net Prim Wiring Examples Rules RuleSpecs ReduceSpecs Whnf Parallel ParallelSpec Sched.

(** ** The shader *)

Notation Mem := (Z -> Z) (only parsing).

(** A store of a [u32]. *)
Definition store (m : Mem) (a v : Z) : Mem := fun k => if k =? a then as_u32 v else m k.

Record LO4 : Type := mk_lo4 { lo_hi : Z; lo_m1 : Z; lo_m0 : Z; lo_lo : Z; lo_len : Z }.

(** A shift by a [u32] takes it modulo 32, subtraction wraps around. *)
Definition shl32 (a b : Z) : Z := as_u32 (Z.shiftl a (b mod 32)).

Definition lo_extend (l : LO4) (bit : Z) : LO4 :=
  let n := lo_len l in
  let out :=
    if n <? 32 then mk_lo4 (Z.lor (lo_hi l) (shl32 bit (as_u32 (31 - n)))) (lo_m1 l) (lo_m0 l) (lo_lo l) n
    else if n <? 64 then mk_lo4 (lo_hi l) (Z.lor (lo_m1 l) (shl32 bit (as_u32 (63 - n)))) (lo_m0 l) (lo_lo l) n
    else if n <? 96 then mk_lo4 (lo_hi l) (lo_m1 l) (Z.lor (lo_m0 l) (shl32 bit (as_u32 (95 - n)))) (lo_lo l) n
    else mk_lo4 (lo_hi l) (lo_m1 l) (lo_m0 l) (Z.lor (lo_lo l) (shl32 bit (as_u32 (127 - n)))) n in
  mk_lo4 (lo_hi out) (lo_m1 out) (lo_m0 out) (lo_lo out) (as_u32 (lo_len out + 1)).

Definition lo_left (l : LO4) : LO4 := lo_extend l 0.
Definition lo_right (l : LO4) : LO4 := lo_extend l 1.

Definition ERA_RAW : Z := 2.
Definition OUT_STRIDE : Z := 96.
Definition MAX_NA : Z := 4.

Definition port_is_era (p : Z) : bool := Z.land (Z.shiftr p 1) 1 =? 1.
Definition port_slot_idx (p : Z) : Z := Z.shiftr p 4.
Definition make_port (slot kind : Z) : Z := Z.lor (shl32 slot 4) (shl32 kind 2).

Definition tag_is_fan (t : Z) : bool := Z.land t 12 =? 4.
Definition tag_is_rep (t : Z) : bool := Z.land t 12 =? 8.
Definition tag_fan_is_abs (t : Z) : bool := negb (Z.land t 1 =? 0).

(** WGSL's [select]: the first if the condition is false. *)
Definition select {A : Type} (f t : A) (cond : bool) : A := if cond then t else f.

(** [i32(raw) - i32(select(0u, 65536u, (raw & 0x8000u) != 0u))]. *)
Definition sign16 (raw : Z) : Z := raw - select 0 65536 (negb (Z.land raw 32768 =? 0)).

Definition add_level32 (level delta : Z) : Z :=
  let v := level + delta in
  if (v <? 0) || (16384 <=? v) then 65535 else v.

Record GpuParams : Type := mk_params { base_slot : Z; n_pairs : Z }.

(** A thread: the output buffer and its counters. *)
Record Thread : Type := mk_thread { out_buf : Mem; na_c : Z; ret_c : Z; conn_c : Z; er_c : Z }.

Definition out_set (a v : Z) (t : Thread) : Thread :=
  mk_thread (store (out_buf t) (as_u32 a) v) (na_c t) (ret_c t) (conn_c t) (er_c t).

Definition na_alloc (ob slot_base tag data d0 d1 : Z) (t : Thread) : (Z * Z * Z) * Thread :=
  let k := na_c t in
  let slot := as_u32 (slot_base + k) in
  let t := out_set (ob + 1 + k) tag t in
  let t := out_set (ob + 5 + k) data t in
  let t := out_set (ob + 9 + k) d0 t in
  let t := out_set (ob + 13 + k) d1 t in
  ((make_port slot 0, make_port slot 1, make_port slot 2),
   mk_thread (out_buf t) (as_u32 (k + 1)) (ret_c t) (conn_c t) (er_c t)).

Definition do_retire (ob idx : Z) (t : Thread) : Thread :=
  let k := ret_c t in
  let t := out_set (ob + 18 + k) idx t in
  mk_thread (out_buf t) (na_c t) (as_u32 (k + 1)) (conn_c t) (er_c t).

Definition do_connect (ob a b : Z) (l : LO4) (t : Thread) : Thread :=
  let k := conn_c t in
  let off := ob + 21 + k * 8 in
  let t := out_set off a t in
  let t := out_set (off + 1) b t in
  let t := out_set (off + 2) (lo_hi l) t in
  let t := out_set (off + 3) (lo_m1 l) t in
  let t := out_set (off + 4) (lo_m0 l) t in
  let t := out_set (off + 5) (lo_lo l) t in
  let t := out_set (off + 6) (lo_len l) t in
  let t := out_set (off + 7) 0 t in
  mk_thread (out_buf t) (na_c t) (ret_c t) (as_u32 (k + 1)) (er_c t).

Definition do_eraser (ob port : Z) (t : Thread) : Thread :=
  let k := er_c t in
  let t := out_set (ob + 86 + k) port t in
  mk_thread (out_buf t) (na_c t) (ret_c t) (conn_c t) (as_u32 (k + 1)).

Section Shader.
Context (pairs_buf arena_buf : Mem).

Definition slot_tag (idx : Z) : Z := Z.land (arena_buf (as_u32 (idx * 8))) 255.
Definition slot_aux0 (idx : Z) : Z := arena_buf (as_u32 (idx * 8 + 3)).
Definition slot_aux1 (idx : Z) : Z := arena_buf (as_u32 (idx * 8 + 4)).
Definition slot_data (idx : Z) : Z := Z.land (arena_buf (as_u32 (idx * 8 + 5))) 65535.
Definition slot_d0 (idx : Z) : Z := sign16 (Z.land (Z.shiftr (arena_buf (as_u32 (idx * 8 + 5))) 16) 65535).
Definition slot_d1 (idx : Z) : Z := sign16 (Z.land (arena_buf (as_u32 (idx * 8 + 6))) 65535).

Definition read_p0 (i : Z) : Z := pairs_buf (as_u32 (i * 8)).
Definition read_p1 (i : Z) : Z := pairs_buf (as_u32 (i * 8 + 1)).
Definition read_lo (i : Z) : LO4 :=
  mk_lo4 (pairs_buf (as_u32 (i * 8 + 2))) (pairs_buf (as_u32 (i * 8 + 3))) (pairs_buf (as_u32 (i * 8 + 4)))
    (pairs_buf (as_u32 (i * 8 + 5))) (pairs_buf (as_u32 (i * 8 + 6))).

(** R2 and R3. *)
Definition fire_era (ob live_p : Z) (lo : LO4) (t : Thread) : Thread :=
  let live_idx := port_slot_idx live_p in
  let ax0 := slot_aux0 live_idx in
  let ax1 := slot_aux1 live_idx in
  let t := do_retire ob live_idx t in
  let t := do_eraser ob ax0 t in
  let t := do_eraser ob ax1 t in
  let t := do_connect ob ERA_RAW ax0 (lo_left lo) t in
  do_connect ob ERA_RAW ax1 (lo_right lo) t.

(** R4. *)
Definition fire_fan_fan (ob p0 p1 t0 : Z) (lo : LO4) (t : Thread) : Thread :=
  let abs_p := select p1 p0 (tag_fan_is_abs t0) in
  let app_p := select p0 p1 (tag_fan_is_abs t0) in
  let absi := port_slot_idx abs_p in
  let appi := port_slot_idx app_p in
  let body := slot_aux0 absi in
  let var_ := slot_aux1 absi in
  let res := slot_aux0 appi in
  let arg := slot_aux1 appi in
  let t := do_retire ob absi t in
  let t := do_retire ob appi t in
  if (port_slot_idx body =? absi) && (port_slot_idx var_ =? absi) then
    out_set (ob + 92) arg (out_set (ob + 91) res (out_set (ob + 90) 1 t))
  else
    let t := do_connect ob body res (lo_left lo) t in
    do_connect ob var_ arg (lo_right lo) t.

(** R5. *)
Definition fire_fan_rep (ob slot_base fan_p rep_p : Z) (lo : LO4) (t : Thread) : Thread :=
  let fani := port_slot_idx fan_p in
  let repi := port_slot_idx rep_p in
  let ft := slot_tag fani in
  let is_abs := tag_fan_is_abs ft in
  let fan_t := select 4 5 is_abs in
  let ra_t := select 11 10 is_abs in
  let rb_t := select 10 11 is_abs in
  let rdata := slot_data repi in
  let rd0 := slot_d0 repi in
  let rd1 := slot_d1 repi in
  let '((f0x, f0y, f0z), t) := na_alloc ob slot_base fan_t 0 0 0 t in
  let '((f1x, f1y, f1z), t) := na_alloc ob slot_base fan_t 0 0 0 t in
  let '((rax, ray, raz), t) := na_alloc ob slot_base ra_t rdata rd0 rd1 t in
  let '((rbx, rby, rbz), t) := na_alloc ob slot_base rb_t rdata rd0 rd1 t in
  let ea := slot_aux0 fani in
  let eb := slot_aux1 fani in
  let ec := slot_aux0 repi in
  let ed := slot_aux1 repi in
  let t := do_retire ob fani t in
  let t := do_retire ob repi t in
  let lo_00 := lo_left (lo_left lo) in
  let lo_01 := lo_right (lo_left lo) in
  let ra_lo := select (lo_right (lo_right lo)) (lo_left (lo_right lo)) is_abs in
  let rb_lo := select (lo_left (lo_right lo)) (lo_right (lo_right lo)) is_abs in
  let t := do_connect ob f0y ray lo t in
  let t := do_connect ob f0z rby lo t in
  let t := do_connect ob f1y raz lo t in
  let t := do_connect ob f1z rbz lo t in
  let t := do_connect ob f0x ec lo_00 t in
  let t := do_connect ob f1x ed lo_01 t in
  let t := do_connect ob rax ea ra_lo t in
  do_connect ob rbx eb rb_lo t.

(** R6 and R7. *)
Definition fire_rep_rep (ob slot_base s0i s1i : Z) (lo : LO4) (t : Thread) : Thread :=
  let d0v := slot_data s0i in
  let d1v := slot_data s1i in
  if (d0v =? d1v) && (slot_d0 s0i =? slot_d0 s1i) && (slot_d1 s0i =? slot_d1 s1i) then
    let t := do_retire ob s0i t in
    let t := do_retire ob s1i t in
    let t := do_connect ob (slot_aux0 s0i) (slot_aux0 s1i) (lo_left lo) t in
    do_connect ob (slot_aux1 s0i) (slot_aux1 s1i) (lo_right lo) t
  else
    let hii := select s1i s0i (d1v <? d0v) in
    let loi2 := select s0i s1i (d1v <? d0v) in
    let hi_d := slot_data hii in
    let lo_d := slot_data loi2 in
    let hi_t := Z.land (slot_tag hii) 15 in
    let lo_t := Z.land (slot_tag loi2) 15 in
    let hi_d0 := slot_d0 hii in
    let hi_d1 := slot_d1 hii in
    let lo_d0 := slot_d0 loi2 in
    let lo_d1 := slot_d1 loi2 in
    let '((hc0x, hc0y, hc0z), t) := na_alloc ob slot_base hi_t (add_level32 hi_d lo_d0) hi_d0 hi_d1 t in
    let '((hc1x, hc1y, hc1z), t) := na_alloc ob slot_base hi_t (add_level32 hi_d lo_d1) hi_d0 hi_d1 t in
    let '((lc0x, lc0y, lc0z), t) := na_alloc ob slot_base lo_t lo_d lo_d0 lo_d1 t in
    let '((lc1x, lc1y, lc1z), t) := na_alloc ob slot_base lo_t lo_d lo_d0 lo_d1 t in
    let ha0 := slot_aux0 hii in
    let ha1 := slot_aux1 hii in
    let la0 := slot_aux0 loi2 in
    let la1 := slot_aux1 loi2 in
    let t := do_retire ob hii t in
    let t := do_retire ob loi2 t in
    let t := do_connect ob hc0y lc0y lo t in
    let t := do_connect ob hc0z lc1y lo t in
    let t := do_connect ob hc1y lc0z lo t in
    let t := do_connect ob hc1z lc1z lo t in
    let t := do_connect ob hc0x la0 (lo_left (lo_left lo)) t in
    let t := do_connect ob hc1x la1 (lo_left (lo_right lo)) t in
    let t := do_connect ob lc0x ha0 (lo_right (lo_left lo)) t in
    do_connect ob lc1x ha1 (lo_right (lo_right lo)) t.

Definition zero_agents (ob : Z) (t : Thread) : Thread :=
  foldl (fun t k => out_set (ob + 13 + k) 0 (out_set (ob + 9 + k) 0 (out_set (ob + 5 + k) 0 (out_set (ob + 1 + k) 0 t))))
    t (seqZ 0 MAX_NA).

(** The dispatch on the pair. *)
Definition fire (ob slot_base p0 p1 : Z) (lo : LO4) (t : Thread) : Thread :=
  let e0 := port_is_era p0 in
  let e1 := port_is_era p1 in
  if e0 && e1 then t
  else if e0 || e1 then fire_era ob (select p0 p1 e0) lo t
  else
    let s0i := port_slot_idx p0 in
    let s1i := port_slot_idx p1 in
    let t0 := slot_tag s0i in
    let t1 := slot_tag s1i in
    let f0 := tag_is_fan t0 in
    let f1 := tag_is_fan t1 in
    let r0 := tag_is_rep t0 in
    let r1 := tag_is_rep t1 in
    if f0 && f1 then fire_fan_fan ob p0 p1 t0 lo t
    else if (f0 && r1) || (r0 && f1) then fire_fan_rep ob slot_base (select p1 p0 f0) (select p0 p1 f0) lo t
    else if r0 && r1 then fire_rep_rep ob slot_base s0i s1i lo t
    else t.

(** The counters are written at the end. *)
Definition finish (ob : Z) (t : Thread) : Thread :=
  out_set (ob + 85) (er_c t) (out_set (ob + 20) (conn_c t) (out_set (ob + 17) (ret_c t) (out_set ob (na_c t) t))).

(** The invocation with the global identifier [i]. *)
Definition rewrite_main (params : GpuParams) (i : Z) (out : Mem) : Mem :=
  if n_pairs params <=? i then out
  else
    let ob := as_u32 (i * OUT_STRIDE) in
    let slot_base := as_u32 (base_slot params + as_u32 (i * MAX_NA)) in
    let t := out_set (ob + 90) 0 (zero_agents ob (mk_thread out 0 0 0 0)) in
    out_buf (finish ob (fire ob slot_base (read_p0 i) (read_p1 i) (read_lo i) t)).
End Shader.

(** ** The host *)

Definition MAX_BATCH : Z := 65536.
Definition MAX_ARENA : Z := Z.shiftl 1 22.
Definition OUT_STRIDE_BYTES : Z := 96 * 4.

Definition words_to_bytes (ws : list Z) : list byte := concat (u32_le <$> ws).

Definition pair_words (p : PortId * PortId * LOPath) : list Z :=
  let '((hi, mid1, mid0, low), l) := gpu_bits p.2 in [p.1.1; p.1.2; hi; mid1; mid0; low; l; 0].

Definition encode_pairs (pairs : list (PortId * PortId * LOPath)) : list byte :=
  concat ((fun p => words_to_bytes (pair_words p)) <$> pairs).

(** [raw.chunks_exact(4).map(from_le_bytes)]. *)
Fixpoint bytes_to_words (bs : list byte) : list Z :=
  match bs with
  | a :: b :: c :: d :: bs => le_val [a; b; c; d] :: bytes_to_words bs
  | _ => []
  end.

(** [words[i..i + n]]. *)
Definition word_range (words : list Z) (i n : nat) : res DnxError (list Z) :=
  if (length words <? i + n)%nat then Panic else Ok (take n (drop i words)).

Definition parse_agent (words : list Z) (ob : nat) (acc : list Slot) (k : nat) : res DnxError (list Slot) :=
  tag ← index words (ob + 1 + k);
  data ← index words (ob + 5 + k);
  d0 ← index words (ob + 9 + k);
  d1 ← index words (ob + 13 + k);
  if as_u16 data =? 65535 then Err DeltaOverflow
  else Ok (acc ++ [set_label (as_u16 data) (as_i16 (as_u16 d0)) (as_i16 (as_u16 d1)) (set_tag (as_u8 tag) EMPTY)]).

Definition parse_connect (words : list Z) (ob : nat) (acc : list (PortId * PortId * LOPath)) (j : nat)
    : res DnxError (list (PortId * PortId * LOPath)) :=
  let co := (ob + 21 + j * 8)%nat in
  a ← index words co;
  b ← index words (co + 1);
  w2 ← index words (co + 2);
  w3 ← index words (co + 3);
  w4 ← index words (co + 4);
  w5 ← index words (co + 5);
  w6 ← index words (co + 6);
  Ok (acc ++ [(a, b, from_gpu_bits w2 w3 w4 w5 (as_u8 w6))]).

Definition parse_output (words : list Z) (i : nat) (_base : Z) : res DnxError WorkerOutput :=
  let ob := (i * 96)%nat in
  na_count ← index words ob;
  new_agents ← foldM (parse_agent words ob) (seq 0 (Z.to_nat na_count)) [];
  ret_count ← index words (ob + 17);
  retired ← word_range words (ob + 18) (Z.to_nat ret_count);
  conn_count ← index words (ob + 20);
  connects ← foldM (parse_connect words ob) (seq 0 (Z.to_nat conn_count)) [];
  er_count ← index words (ob + 85);
  set_erasers ← word_range words (ob + 86) (Z.to_nat er_count);
  has_link ← index words (ob + 90);
  link_direct ← (if negb (has_link =? 0) then
                   a ← index words (ob + 91);
                   b ← index words (ob + 92);
                   Ok (Some (a, b))
                 else Ok None);
  Ok (mk_out new_agents retired [] connects set_erasers link_direct).

(** What the device does with the bytes of the pairs, the arena and the
    parameters, a number of workgroups and a number of bytes to read back;
    [None] if the buffer cannot be mapped. *)
Notation Launch := (list byte -> list byte -> list byte -> Z -> Z -> option (list byte)) (only parsing).

Definition div_ceil (a b : Z) : Z := (a + b - 1) / b.

(** An upload past the end of its buffer is an error of the device, which
    panics. *)
Definition run_gpu_batch (launch : Launch) (pairs : list (PortId * PortId * LOPath)) (arena_words bases : list Z)
    : res DnxError (list WorkerOutput) :=
  let n := as_u32 (Z.of_nat (length pairs)) in
  if n =? 0 then Ok []
  else
    let pair_bytes := encode_pairs pairs in
    let arena_bytes := words_to_bytes arena_words in
    let out_bytes_len := n * OUT_STRIDE_BYTES in
    base ← index bases 0;
    if (MAX_BATCH * 32 <? Z.of_nat (length pair_bytes)) || (MAX_ARENA <? Z.of_nat (length arena_bytes)) then Panic
    else
      raw ← ok_or (launch pair_bytes arena_bytes (words_to_bytes [base; n; 0; 0]) (div_ceil n 128) out_bytes_len)
              ArenaCapacityExceeded;
      mapMr (fun i => base ← index bases i; parse_output (bytes_to_words raw) i base) (seq 0 (Z.to_nat n)).

(** [gpu] is the answer of [global_gpu]: no adapter, a device whose lock is
    poisoned, or a device. *)
Definition GpuScheduler (gpu : option (option Launch)) : Scheduler :=
  {| sched_normalize C fuel n :=
       match gpu with
       | Some (Some launch) => normalize_gpu_batched (run_gpu_batch launch) fuel n
       | Some None => Err ArenaCapacityExceeded
       | None => sched_normalize (Scheduler := SequentialScheduler) fuel n
       end;
     sched_force_whnf C := default_force_whnf |}.

(** ** The amortized mode ([amortized.rs], [rewrite_am.wgsl])

    The shader fires R4 alone and writes to the arena on the device; the host
    reads only the counters, after each pass.  The threads of a pass share the
    arena; here they run one after the other. *)

Definition RETIRED_TAG : Z := 255.
Definition MAX_FRONTIER_OUT : Z := Z.shiftl 1 20.

Record AmState : Type := mk_am { arena_am : Mem; frontier_out : Mem; out_count : Z; fired_count : Z }.

Definition am_port_kind (p : Z) : Z := Z.land (Z.shiftr p 2) 3.
Definition am_slot_tag (m : Mem) (idx : Z) : Z := Z.land (m (as_u32 (idx * 8))) 255.
Definition am_slot_aux0 (m : Mem) (idx : Z) : Z := m (as_u32 (idx * 8 + 3)).
Definition am_slot_aux1 (m : Mem) (idx : Z) : Z := m (as_u32 (idx * 8 + 4)).

Definition am_write_port (p target : Z) (m : Mem) : Mem :=
  let s := port_slot_idx p in
  let k := am_port_kind p in
  if k =? 0 then store m (as_u32 (s * 8 + 2)) target
  else if k =? 1 then store m (as_u32 (s * 8 + 3)) target
  else store m (as_u32 (s * 8 + 4)) target.

Definition am_retire (slot : Z) (m : Mem) : Mem :=
  let w := as_u32 (slot * 8) in store m w (Z.lor (Z.land (m w) 4294967040) RETIRED_TAG).

(** Neither a fan nor a replicator: no agent. *)
Definition am_not_agent (t : Z) : bool := negb (tag_is_fan t) && negb (Z.land t 12 =? 8).

Definition am_maybe_emit (a b : Z) (st : AmState) : AmState :=
  if negb (am_port_kind a =? 0) || negb (am_port_kind b =? 0) || port_is_era a || port_is_era b then st
  else
    let ta := am_slot_tag (arena_am st) (port_slot_idx a) in
    let tb := am_slot_tag (arena_am st) (port_slot_idx b) in
    if (ta =? RETIRED_TAG) || (tb =? RETIRED_TAG) || am_not_agent ta || am_not_agent tb then st
    else
      let idx := out_count st in
      let st := mk_am (arena_am st) (frontier_out st) (as_u32 (idx + 1)) (fired_count st) in
      if MAX_FRONTIER_OUT <=? idx then st
      else
        let f := foldl (fun f kv => store f (as_u32 (idx * 8 + kv.1)) kv.2) (frontier_out st)
                   [(0, a); (1, b); (2, 0); (3, 0); (4, 0); (5, 0); (6, 0); (7, 0)] in
        mk_am (arena_am st) f (out_count st) (fired_count st).

Definition am_set (m : Mem) (st : AmState) : AmState := mk_am m (frontier_out st) (out_count st) (fired_count st).

Definition rewrite_am_main (frontier_in : Mem) (n i : Z) (st : AmState) : AmState :=
  if n <=? i then st
  else
    let p0 := frontier_in (as_u32 (i * 8)) in
    let p1 := frontier_in (as_u32 (i * 8 + 1)) in
    if port_is_era p0 || port_is_era p1 then st
    else
      let m := arena_am st in
      let t0 := am_slot_tag m (port_slot_idx p0) in
      let t1 := am_slot_tag m (port_slot_idx p1) in
      if negb (tag_is_fan t0) || negb (tag_is_fan t1) then st
      else
        let abs_p := select p1 p0 (tag_fan_is_abs t0) in
        let app_p := select p0 p1 (tag_fan_is_abs t0) in
        let absi := port_slot_idx abs_p in
        let appi := port_slot_idx app_p in
        let body := am_slot_aux0 m absi in
        let var_ := am_slot_aux1 m absi in
        let res := am_slot_aux0 m appi in
        let arg := am_slot_aux1 m appi in
        let m := am_retire appi (am_retire absi m) in
        let st := mk_am m (frontier_out st) (out_count st) (as_u32 (fired_count st + 1)) in
        if port_slot_idx body =? absi then
          am_maybe_emit res arg (am_set (am_write_port arg res (am_write_port res arg m)) st)
        else
          let m := am_write_port arg var_ (am_write_port var_ arg (am_write_port res body (am_write_port body res m))) in
          am_maybe_emit var_ arg (am_maybe_emit body res (am_set m st)).

(** *** The host *)

Definition MAX_PAIRS : Z := Z.shiftl 1 17.
Definition MAX_ARENA_AM : Z := Z.shiftl 1 23.

Definition encode_frontier_gpu (n : Net) : list (Z * Z * (Z * Z * Z * Z) * Z) :=
  (fun kp => let '(bits, l) := gpu_bits (pair_lo kp.2) in (p0 kp.2, p1 kp.2, bits, l)) <$> frontier1 n.

Definition encode_arena_gpu (n : Net) : list Z := encode_gpu (arena n).

Definition encode_pairs_am (pairs : list (Z * Z * (Z * Z * Z * Z) * Z)) : list byte :=
  concat ((fun '(p0, p1, (b0, b1, b2, b3), l) => words_to_bytes [p0; p1; b0; b1; b2; b3; l; 0]) <$> pairs).

Definition encode_net_for_gpu (n : Net) : list byte * list byte * Z :=
  let arena_bytes := words_to_bytes (encode_arena_gpu n) in
  let pairs := encode_frontier_gpu n in
  (arena_bytes, encode_pairs_am pairs, as_u32 (Z.of_nat (length pairs))).

Section Amortized.
(** The device: its buffers, what a pass of some workgroups does in the
    direction [ping], and the bytes of the counters, [None] if the buffer
    cannot be mapped. *)
Context {D : Type} (write_arena write_frontier_a write_counters : list byte -> D -> D).
Context (pass : bool -> Z -> D -> D) (read_counters : D -> option (list byte)).

Fixpoint run_loop_from (fuel : nat) (ping : bool) (current_n total : Z) (d : D) : res DnxError (Z * D) :=
  match fuel with
  | O => Fuel
  | S fuel =>
      if current_n =? 0 then Ok (total, d)
      else
        let d := pass ping (div_ceil current_n 128) d in
        raw ← ok_or (read_counters d) ArenaCapacityExceeded;
        let words := bytes_to_words raw in
        new_n ← index words 1;
        fired ← index words 2;
        let total := total + fired in
        if new_n =? 0 then Ok (total, d)
        else run_loop_from fuel (negb ping) new_n total (write_counters (words_to_bytes [new_n; 0; 0; 0]) d)
  end.

Definition run_loop (fuel : nat) (initial_n : Z) (d : D) : res DnxError (Z * D) := run_loop_from fuel true initial_n 0 d.

Definition run_r4_raw (fuel : nat) (arena_bytes pair_bytes : list byte) (n_pairs : Z) (d : D) : res DnxError (Z * D) :=
  if n_pairs =? 0 then Ok (0, d)
  else if (MAX_ARENA_AM <? Z.of_nat (length arena_bytes)) || (MAX_PAIRS * 32 <? Z.of_nat (length pair_bytes)) then Panic
  else run_loop fuel n_pairs (write_counters (words_to_bytes [n_pairs; 0; 0; 0]) (write_frontier_a pair_bytes (write_arena arena_bytes d))).

Definition normalize_r4 (fuel : nat) (n : Net) (d : D) : res DnxError (Z * D) :=
  let arena_bytes := words_to_bytes (encode_arena_gpu n) in
  let pairs := encode_frontier_gpu n in
  match pairs with
  | [] => Ok (0, d)
  | _ => run_r4_raw fuel arena_bytes (encode_pairs_am pairs) (as_u32 (Z.of_nat (length pairs))) d
  end.
End Amortized.

(** * Lemmas *)

Lemma lookup_concat_width {A B : Type} (f : A -> list B) w l i k x : (forall x, length (f x) = w) ->
  l !! i = Some x -> (k < w)%nat -> concat (f <$> l) !! (i * w + k)%nat = f x !! k.
Proof.
  intros Hw. revert i. induction l as [|y l IH]; intros i Hi Hk; [done|].
  cbn [fmap list_fmap concat]. destruct i as [|i]; cbn in Hi.
  - simplify_eq. cbn [Nat.mul Nat.add]. by rewrite lookup_app_l by (rewrite Hw; lia).
  - rewrite lookup_app_r by (rewrite Hw; lia). rewrite Hw. rewrite <- (IH i Hi Hk). f_equal. lia.
Qed.

Lemma concat_width_length {A B : Type} (f : A -> list B) w l : (forall x, length (f x) = w) ->
  length (concat (f <$> l)) = (length l * w)%nat.
Proof. intros Hw. induction l as [|y l IH]; [done|]. rewrite fmap_cons. cbn [concat length]. rewrite length_app, Hw, IH. lia. Qed.

(** ** Words *)

Lemma low_bits a b w : 0 <= w -> 0 <= b < 2 ^ w -> Z.land (Z.lor b (Z.shiftl a w)) (2 ^ w - 1) = b.
Proof.
  intros Hw Hb. rewrite Z.lor_comm, Z.shiftl_mul_pow2, Z.mul_comm, lor_disjoint, land_pow2 by lia.
  rewrite (Z.mul_comm (2 ^ w)), Z.add_comm, Z_mod_plus_full. by apply Z.mod_small.
Qed.

Lemma high_bits a b w : 0 <= w -> 0 <= b < 2 ^ w -> Z.shiftr (Z.lor b (Z.shiftl a w)) w = a.
Proof.
  intros Hw Hb. rewrite Z.lor_comm, Z.shiftl_mul_pow2, Z.mul_comm, lor_disjoint, Z.shiftr_div_pow2 by lia.
  rewrite (Z.mul_comm (2 ^ w)), Z.div_add_l by lia. rewrite Z.div_small; lia.
Qed.

Lemma as_u16_range z : u16_range (as_u16 z).
Proof. apply wrap_range. lia. Qed.

Lemma sign16_ok d : i16_range d -> sign16 (as_u16 d) = d.
Proof.
  intros Hd. rewrite <- (as_i16_u16 d) at 2 by done. pose proof (as_u16_range d) as Hr. revert Hr.
  generalize (as_u16 d). intros r Hr. unfold sign16, as_i16. assert (as_u16 r = r) as -> by (by apply wrap_small).
  unfold u16_range in Hr. change 32768 with (2 ^ 15). destruct (Z.ltb_spec r (2 ^ 15)) as [Hl|Hl].
  - assert (Z.land r (2 ^ 15) = 0) as ->; [|cbn; lia]. apply Z.bits_inj'. intros k Hk. rewrite Z.land_spec, Z.bits_0.
    destruct (Z.eq_dec k 15) as [->|Hk']; [|by rewrite Z.pow2_bits_false, andb_false_r by lia].
    rewrite <- (Z.mod_small r (2 ^ 15)), Z.mod_pow2_bits_high by lia. done.
  - replace r with (2 ^ 15 * 1 + (r - 2 ^ 15)) by lia. set (s := r - 2 ^ 15).
    assert (0 <= s < 2 ^ 15) as Hs by (subst s; lia). rewrite <- lor_disjoint by lia.
    rewrite Z.land_lor_distr_l. change (Z.land (2 ^ 15 * 1) (2 ^ 15)) with (2 ^ 15).
    destruct (Z.eqb_spec (Z.lor (2 ^ 15) (Z.land s (2 ^ 15))) 0) as [H0|_].
    + apply Z.lor_eq_0_iff in H0. destruct H0 as [H0 _]. discriminate H0.
    + rewrite lor_disjoint by lia. cbn. lia.
Qed.

Lemma make_port_ok i k : idx_range i -> make_port i (kind_bits k) = port_new i k 0.
Proof.
  intros Hi. unfold make_port, port_new. change (Z.land 0 1) with 0. rewrite Z.lor_0_r. f_equal. by destruct k.
Qed.

Lemma word_set h b s j : 0 <= s -> 0 <= j ->
  as_u32 (Z.shiftr (Z.lor h (Z.shiftl (bit_of b) s)) j)
  = Z.lor (as_u32 (Z.shiftr h j)) (if (j <=? s) && (s <? j + 32) then Z.shiftl (bit_of b) (s - j) else 0).
Proof.
  intros Hs Hj. apply Z.bits_inj'. intros k Hk. unfold as_u32, wrap. rewrite Z.lor_spec.
  assert (forall t m, 0 <= t -> 0 <= m -> Z.testbit (Z.shiftl (bit_of b) t) m = b && (m =? t)) as Hbit.
  { intros t m Ht Hm. destruct (Z.ltb_spec m t).
    - rewrite Z.shiftl_spec_low by lia. destruct (Z.eqb_spec m t); [lia|]. by rewrite andb_false_r.
    - rewrite Z.shiftl_spec_high by lia. destruct b; cbn; [|apply Z.bits_0].
      destruct (Z.eqb_spec m t) as [->|]; [by rewrite Z.sub_diag|]. apply (Z.bits_above_log2 1); cbn; lia. }
  destruct (Z.ltb_spec k 32).
  - rewrite !Z.mod_pow2_bits_low, !Z.shiftr_spec, Z.lor_spec, Hbit by lia. f_equal.
    destruct (Z.leb_spec j s), (Z.ltb_spec s (j + 32)); cbn [andb]; rewrite ?Z.bits_0, ?Hbit by lia;
      destruct (Z.eqb_spec (k + j) s), (Z.eqb_spec k (s - j)); try lia; by rewrite ?andb_false_r.
  - rewrite !Z.mod_pow2_bits_high by lia. destruct (Z.leb_spec j s), (Z.ltb_spec s (j + 32)); cbn [andb orb]; rewrite ?Z.bits_0, ?Hbit by lia; try done.
    destruct (Z.eqb_spec k (s - j)); [lia|]. by rewrite andb_false_r.
Qed.

(** ** Paths *)

Definition lo4_of (p : LOPath) : LO4 := let '((hi, m1, m0, l), n) := gpu_bits p in mk_lo4 hi m1 m0 l n.

Lemma shallow_len p : lopath_wf p -> depth p < 128 -> len p = depth p /\ 0 <= len p.
Proof. intros Hp Hd. rewrite depth_fulls in * by done. pose proof (wf_len p Hp). lia. Qed.

(** The shader extends a path as the host does, above depth 128. *)
Lemma lo_extend_ok p b p' : lopath_wf p -> depth p < 128 -> extend_bit p (bit_of b) = Ok p' ->
  lo_extend (lo4_of p) (bit_of b) = lo4_of p'.
Proof.
  intros Hp Hd He. destruct (shallow_len p Hp Hd) as [Hl Hl0]. unfold extend_bit in He.
  destruct (Z.eqb_spec (len p) 128); [lia|]. cbn [mbind res_bind] in He. injection He as <-.
  unfold lo4_of, gpu_bits, lo_extend. cbn [lo_hi lo_m1 lo_m0 lo_lo lo_len hot len].
  pose proof (word_set (hot p) b (127 - len p) 0 ltac:(lia) ltac:(lia)) as H0. rewrite !Z.shiftr_0_r in H0.
  rewrite H0, !word_set by lia. unfold shl32.
  assert (as_u32 (len p + 1) = len p + 1) as Hn by (apply as_u32_small; unfold u32_range; lia).
  assert (forall x, 0 <= x < 32 -> as_u32 (Z.shiftl (bit_of b) (as_u32 x mod 32)) = Z.shiftl (bit_of b) x) as Hs.
  { intros x Hx. rewrite (as_u32_small x), Z.mod_small by (unfold u32_range; lia). apply as_u32_small. unfold u32_range.
    rewrite Z.shiftl_mul_pow2 by lia. pose proof (Z.pow_lt_mono_r 2 x 32 ltac:(lia) ltac:(lia) ltac:(lia)).
    pose proof (Z.pow_pos_nonneg 2 x). destruct b; cbn; lia. }
  repeat match goal with |- context [?a <=? ?b] => destruct (Z.leb_spec a b); try lia end;
    repeat match goal with |- context [?a <? ?b] => destruct (Z.ltb_spec a b); try lia end;
    cbn [andb lo_hi lo_m1 lo_m0 lo_lo lo_len]; rewrite ?Z.lor_0_r, Hs, Hn by lia; f_equal; f_equal; f_equal; lia.
Qed.

(** ** Reading the arena *)

(** The fields of a slot have their widths. *)
Record slot_typed (s : Slot) : Prop := mk_slot_typed {
  ty_tag : u8_range (tag s);
  ty_claim : u8_range (claim s);
  ty_generation : u32_range (generation s);
  ty_principal : u32_range (principal s);
  ty_aux0 : u32_range (aux0 s);
  ty_aux1 : u32_range (aux1 s);
  ty_data : u16_range (data s);
  ty_delta0 : i16_range (delta0 s);
  ty_delta1 : i16_range (delta1 s);
  ty_epoch : u16_range (epoch s)
}.

Definition uploaded (ws : list Z) (m : Mem) : Prop := forall i w, ws !! i = Some w -> m (Z.of_nat i) = w.

Section Reads.
Context (a : Arena) (buf : Mem) (i : Z) (s : Slot).
Context (Hup : uploaded (encode_gpu a) buf) (Hi : idx_range i) (Hs : slots a !! Z.to_nat i = Some s) (Ht : slot_typed s).

Lemma read_word k w : slot_words s !! Z.to_nat k = Some w -> 0 <= k -> buf (as_u32 (i * 8 + k)) = w.
Proof.
  intros Hk Hk0. assert (Z.to_nat k < 8)%nat by (apply lookup_lt_Some in Hk; exact Hk). unfold idx_range in Hi.
  rewrite as_u32_small by (unfold u32_range; lia). replace (i * 8 + k) with (Z.of_nat (Z.to_nat i * 8 + Z.to_nat k)) by lia.
  apply Hup. unfold encode_gpu. by rewrite (lookup_concat_width slot_words 8 _ _ _ s).
Qed.

Lemma slot_tag_ok : slot_tag buf i = tag s.
Proof.
  unfold slot_tag. replace (i * 8) with (i * 8 + 0) by lia. rewrite (read_word 0 _ eq_refl) by lia.
  apply (low_bits (claim s) (tag s) 8); [lia|]. apply (ty_tag s Ht).
Qed.

Lemma slot_aux0_ok : slot_aux0 buf i = aux0 s.
Proof. exact (read_word 3 _ eq_refl ltac:(lia)). Qed.

Lemma slot_aux1_ok : slot_aux1 buf i = aux1 s.
Proof. exact (read_word 4 _ eq_refl ltac:(lia)). Qed.

Lemma shifted_u16 d : u16_range d -> as_u32 (Z.shiftl d 16) = Z.shiftl d 16.
Proof. unfold u16_range. intros Hd. apply as_u32_small. unfold u32_range. rewrite Z.shiftl_mul_pow2 by lia. lia. Qed.

Lemma slot_data_ok : slot_data buf i = data s.
Proof.
  unfold slot_data. rewrite (read_word 5 _ eq_refl) by lia. rewrite shifted_u16 by apply as_u16_range.
  apply (low_bits _ (data s) 16); [lia|]. apply (ty_data s Ht).
Qed.

Lemma slot_d0_ok : slot_d0 buf i = delta0 s.
Proof.
  unfold slot_d0. rewrite (read_word 5 _ eq_refl) by lia. rewrite shifted_u16 by apply as_u16_range.
  rewrite high_bits by (lia || apply (ty_data s Ht)). change 65535 with (2 ^ 16 - 1). rewrite land_pow2 by lia.
  rewrite Z.mod_small by apply as_u16_range. apply sign16_ok, (ty_delta0 s Ht).
Qed.

Lemma slot_d1_ok : slot_d1 buf i = delta1 s.
Proof.
  unfold slot_d1. rewrite (read_word 6 _ eq_refl) by lia. rewrite shifted_u16 by apply (ty_epoch s Ht).
  change 65535 with (2 ^ 16 - 1). rewrite low_bits by (lia || apply as_u16_range). apply sign16_ok, (ty_delta1 s Ht).
Qed.
End Reads.

(** ** What a thread has written *)

(** A new agent has the fields the shader writes. *)
Definition agent_typed (s : Slot) : Prop :=
  s = set_label (data s) (delta0 s) (delta1 s) (set_tag (tag s) EMPTY) /\ u8_range (tag s) /\ u16_range (data s)
  /\ i16_range (delta0 s) /\ i16_range (delta1 s).

Definition agent_at (m : Mem) (ob k : Z) (s : Slot) : Prop :=
  agent_typed s /\ m (ob + 1 + k) = tag s /\ m (ob + 5 + k) = data s
  /\ m (ob + 9 + k) = as_u32 (delta0 s) /\ m (ob + 13 + k) = as_u32 (delta1 s).

Definition path_at (m : Mem) (off : Z) (lo : LOPath) : Prop :=
  lopath_wf lo /\ depth lo <= 128 /\
  let l := lo4_of lo in
  m (off + 2) = lo_hi l /\ m (off + 3) = lo_m1 l /\ m (off + 4) = lo_m0 l /\ m (off + 5) = lo_lo l /\ m (off + 6) = lo_len l.

Definition conn_at (m : Mem) (ob j : Z) (c : PortId * PortId * LOPath) : Prop :=
  let off := ob + 21 + j * 8 in m off = c.1.1 /\ m (off + 1) = c.1.2 /\ path_at m off c.2.

Definition link_at (m : Mem) (ob : Z) (l : option (PortId * PortId)) : Prop :=
  match l with
  | None => m (ob + 90) = 0
  | Some (a, b) => m (ob + 90) = 1 /\ m (ob + 91) = a /\ m (ob + 92) = b
  end.

(** The region of the thread holds the output [o]; [m0] is the rest. *)
Record holds (m0 : Mem) (ob : Z) (t : Thread) (o : WorkerOutput) : Prop := mk_holds {
  h_na : na_c t = Z.of_nat (length (new_agents o));
  h_ret : ret_c t = Z.of_nat (length (retired o));
  h_conn : conn_c t = Z.of_nat (length (connects o));
  h_er : er_c t = Z.of_nat (length (set_erasers o));
  h_muts : slot_muts o = [];
  h_agents : forall k s, new_agents o !! k = Some s -> agent_at (out_buf t) ob (Z.of_nat k) s;
  h_retired : forall k i, retired o !! k = Some i -> out_buf t (ob + 18 + Z.of_nat k) = i;
  h_connects : forall k c, connects o !! k = Some c -> conn_at (out_buf t) ob (Z.of_nat k) c;
  h_erasers : forall k p, set_erasers o !! k = Some p -> out_buf t (ob + 86 + Z.of_nat k) = p;
  h_link : link_at (out_buf t) ob (link_direct o);
  h_sizes : (length (new_agents o) <= 4 /\ length (retired o) <= 2 /\ length (connects o) <= 8 /\ length (set_erasers o) <= 4)%nat;
  h_frame : forall k, ~ ob <= k < ob + 96 -> out_buf t k = m0 k;
  h_u32 : (forall k, u32_range (m0 k)) -> forall k, u32_range (out_buf t k)
}.

Lemma store_at t a v k : 0 <= a < 2 ^ 32 -> out_buf (out_set a v t) k = if k =? a then as_u32 v else out_buf t k.
Proof. intros Ha. unfold out_set. cbn [out_buf]. rewrite as_u32_small by done. done. Qed.

Lemma store_ne t a v k : 0 <= a < 2 ^ 32 -> k <> a -> out_buf (out_set a v t) k = out_buf t k.
Proof. intros Ha Hk. rewrite store_at by done. by destruct (Z.eqb_spec k a). Qed.

Lemma store_eq t a v : 0 <= a < 2 ^ 32 -> out_buf (out_set a v t) a = as_u32 v.
Proof. intros Ha. rewrite store_at by done. by rewrite Z.eqb_refl. Qed.
Lemma store_u32 t a v : (forall k, u32_range (out_buf t k)) -> forall k, u32_range (out_buf (out_set a v t) k).
Proof. intros H k. unfold out_set, store. cbn [out_buf]. destruct (k =? _); [apply as_u32_range|apply H]. Qed.

(** Reading back a memory after some stores. *)
Ltac mem := cbn [out_buf]; repeat first [rewrite store_eq by lia | rewrite store_ne by lia]; try done.

Section Ops.
Context (m0 : Mem) (ob : Z).
Context (Hob : 0 <= ob /\ ob + 96 < 2 ^ 32).

(** Each part of an output is kept by a change of another part. *)
Lemma agent_at_ext m m' k s : (forall x, ob + 1 <= x < ob + 17 -> m' x = m x) -> 0 <= k < 4 ->
  agent_at m ob k s -> agent_at m' ob k s.
Proof. intros Hm Hk (H1 & H2 & H3 & H4 & H5). unfold agent_at. by rewrite !Hm by lia. Qed.

Lemma path_at_ext m m' off lo : (forall x, off + 2 <= x < off + 7 -> m' x = m x) -> path_at m off lo -> path_at m' off lo.
Proof. intros Hm (H1 & H2 & H3). unfold path_at. by rewrite !Hm by lia. Qed.

Lemma conn_at_ext m m' j c : (forall x, ob + 21 + j * 8 <= x < ob + 21 + (j + 1) * 8 -> m' x = m x) ->
  conn_at m ob j c -> conn_at m' ob j c.
Proof.
  intros Hm (H1 & H2 & H3). unfold conn_at. rewrite !Hm by lia. split; [done|]. split; [done|].
  eapply path_at_ext; [|exact H3]. intros x Hx. apply Hm. lia.
Qed.

Lemma link_at_ext m m' l : (forall x, ob + 90 <= x < ob + 93 -> m' x = m x) -> link_at m ob l -> link_at m' ob l.
Proof. intros Hm. unfold link_at. destruct l as [[p q]|]; by rewrite !Hm by lia. Qed.

Lemma agents_ext m m' o : (forall x, ob + 1 <= x < ob + 17 -> m' x = m x) -> (length (new_agents o) <= 4)%nat ->
  (forall k s, new_agents o !! k = Some s -> agent_at m ob (Z.of_nat k) s) ->
  forall k s, new_agents o !! k = Some s -> agent_at m' ob (Z.of_nat k) s.
Proof. intros Hm Hl H k s Hk. pose proof (lookup_lt_Some _ _ _ Hk). eapply agent_at_ext; [exact Hm|lia|by apply H]. Qed.

Lemma connects_ext m m' o : (forall x, ob + 21 <= x < ob + 85 -> m' x = m x) -> (length (connects o) <= 8)%nat ->
  (forall k c, connects o !! k = Some c -> conn_at m ob (Z.of_nat k) c) ->
  forall k c, connects o !! k = Some c -> conn_at m' ob (Z.of_nat k) c.
Proof.
  intros Hm Hl H k c Hk. pose proof (lookup_lt_Some _ _ _ Hk). eapply conn_at_ext; [|by apply H].
  intros x Hx. apply Hm. lia.
Qed.

Lemma cells_ext m m' (l : list Z) off w : (forall x, off <= x < off + w -> m' x = m x) -> Z.of_nat (length l) <= w ->
  (forall k i, l !! k = Some i -> m (off + Z.of_nat k) = i) -> forall k i, l !! k = Some i -> m' (off + Z.of_nat k) = i.
Proof. intros Hm Hl H k i Hk. pose proof (lookup_lt_Some _ _ _ Hk). rewrite Hm by lia. by apply H. Qed.

Lemma count_succ n : (n < 100)%nat -> as_u32 (Z.of_nat n + 1) = Z.of_nat (n + 1).
Proof. intros Hn. rewrite as_u32_small; [lia|]. unfold u32_range. lia. Qed.

Lemma holds_retire t o i : holds m0 ob t o -> (length (retired o) < 2)%nat -> u32_range i ->
  holds m0 ob (do_retire ob i t) (out_retire i o).
Proof.
  intros [Hn Hr Hc He Hmu HA HR HC HE HL HS HF HU] Hlen Hi. unfold do_retire, out_retire.
  assert (forall x, x <> ob + 18 + ret_c t -> out_buf (out_set (ob + 18 + ret_c t) i t) x = out_buf t x) as Hne by (intros; mem).
  constructor; cbn [na_c ret_c conn_c er_c new_agents retired slot_muts connects set_erasers link_direct out_buf];
    try assumption; rewrite ?length_app; cbn [length].
  - rewrite Hr. apply count_succ. lia.
  - eapply agents_ext; [|lia|exact HA]. intros. apply Hne. lia.
  - intros k j Hk. apply lookup_app_Some in Hk as [Hk|[Hk1 Hk2]].
    + pose proof (lookup_lt_Some _ _ _ Hk). rewrite Hne by lia. by apply HR.
    + apply list_lookup_singleton_Some in Hk2 as [Hk2 <-]. replace (ob + 18 + Z.of_nat k) with (ob + 18 + ret_c t) by lia.
      mem. by apply as_u32_small.
  - eapply connects_ext; [|lia|exact HC]. intros. apply Hne. lia.
  - eapply (cells_ext (out_buf t) _ _ (ob + 86) 4); [|lia|exact HE]. intros. apply Hne. lia.
  - eapply link_at_ext; [|exact HL]. intros. apply Hne. lia.
  - lia.
  - intros k Hk. rewrite Hne by lia. by apply HF.
  - intros Hu. repeat apply store_u32. by apply HU.
Qed.

Lemma holds_eraser t o p : holds m0 ob t o -> (length (set_erasers o) < 4)%nat -> u32_range p ->
  holds m0 ob (do_eraser ob p t) (out_era p o).
Proof.
  intros [Hn Hr Hc He Hmu HA HR HC HE HL HS HF HU] Hlen Hp. unfold do_eraser, out_era.
  assert (forall x, x <> ob + 86 + er_c t -> out_buf (out_set (ob + 86 + er_c t) p t) x = out_buf t x) as Hne by (intros; mem).
  constructor; cbn [na_c ret_c conn_c er_c new_agents retired slot_muts connects set_erasers link_direct out_buf];
    try assumption; rewrite ?length_app; cbn [length].
  - rewrite He. apply count_succ. lia.
  - eapply agents_ext; [|lia|exact HA]. intros. apply Hne. lia.
  - eapply (cells_ext (out_buf t) _ _ (ob + 18) 2); [|lia|exact HR]. intros. apply Hne. lia.
  - eapply connects_ext; [|lia|exact HC]. intros. apply Hne. lia.
  - intros k j Hk. apply lookup_app_Some in Hk as [Hk|[Hk1 Hk2]].
    + pose proof (lookup_lt_Some _ _ _ Hk). rewrite Hne by lia. by apply HE.
    + apply list_lookup_singleton_Some in Hk2 as [Hk2 <-]. replace (ob + 86 + Z.of_nat k) with (ob + 86 + er_c t) by lia.
      mem. by apply as_u32_small.
  - eapply link_at_ext; [|exact HL]. intros. apply Hne. lia.
  - lia.
  - intros k Hk. rewrite Hne by lia. by apply HF.
  - intros Hu. repeat apply store_u32. by apply HU.
Qed.

Lemma lo4_small lo : lopath_wf lo -> depth lo <= 128 ->
  let l := lo4_of lo in u32_range (lo_hi l) /\ u32_range (lo_m1 l) /\ u32_range (lo_m0 l) /\ u32_range (lo_lo l) /\ 0 <= lo_len l < 256.
Proof.
  intros Hw Hd. unfold lo4_of, gpu_bits. cbn [lo_hi lo_m1 lo_m0 lo_lo lo_len]. pose proof (wf_len lo Hw).
  repeat split; try apply as_u32_range; lia.
Qed.

Lemma holds_connect t o p q lo : holds m0 ob t o -> (length (connects o) < 8)%nat -> u32_range p -> u32_range q ->
  lopath_wf lo -> depth lo <= 128 -> holds m0 ob (do_connect ob p q (lo4_of lo) t) (out_connect p q lo o).
Proof.
  intros [Hn Hr Hc He Hmu HA HR HC HE HL HS HF HU] Hlen Hp Hq Hw Hd. unfold do_connect, out_connect. cbv zeta.
  set (off := ob + 21 + conn_c t * 8). set (t' := out_set (off + 7) 0 _).
  assert (forall x, ~ off <= x < off + 8 -> out_buf t' x = out_buf t x) as Hne by (intros; subst t' off; mem).
  destruct (lo4_small lo Hw Hd) as (L1 & L2 & L3 & L4 & L5).
  assert (conn_at (out_buf t') ob (conn_c t) (p, q, lo)) as Hnew.
  { unfold conn_at, path_at. fold off. cbn [fst snd]. split_and!; try assumption; subst t' off; mem; apply as_u32_small; try assumption.
    unfold u32_range; lia. }
  constructor; cbn [na_c ret_c conn_c er_c new_agents retired slot_muts connects set_erasers link_direct out_buf];
    try assumption; rewrite ?length_app; cbn [length].
  - rewrite Hc. apply count_succ. lia.
  - eapply agents_ext; [|lia|exact HA]. intros. apply Hne. lia.
  - eapply (cells_ext (out_buf t) _ _ (ob + 18) 2); [|lia|exact HR]. intros. apply Hne. lia.
  - intros k c Hk. apply lookup_app_Some in Hk as [Hk|[Hk1 Hk2]].
    + pose proof (lookup_lt_Some _ _ _ Hk). eapply conn_at_ext; [|by apply HC]. intros. apply Hne. lia.
    + apply list_lookup_singleton_Some in Hk2 as [Hk2 <-]. by replace (Z.of_nat k) with (conn_c t) by lia.
  - eapply (cells_ext (out_buf t) _ _ (ob + 86) 4); [|lia|exact HE]. intros. apply Hne. lia.
  - eapply link_at_ext; [|exact HL]. intros. apply Hne. lia.
  - lia.
  - intros k Hk. rewrite Hne by lia. by apply HF.
  - intros Hu. repeat apply store_u32. by apply HU.
Qed.

Lemma holds_link t o p q : holds m0 ob t o -> u32_range p -> u32_range q ->
  holds m0 ob (out_set (ob + 92) q (out_set (ob + 91) p (out_set (ob + 90) 1 t))) (out_link p q o).
Proof.
  intros [Hn Hr Hc He Hmu HA HR HC HE HL HS HF HU] Hp Hq. unfold out_link. set (t' := out_set (ob + 92) q _).
  assert (forall x, ~ ob + 90 <= x < ob + 93 -> out_buf t' x = out_buf t x) as Hne by (intros; subst t'; mem).
  constructor; cbn [na_c ret_c conn_c er_c new_agents retired slot_muts connects set_erasers link_direct]; try assumption.
  - eapply agents_ext; [|lia|exact HA]. intros. apply Hne. lia.
  - eapply (cells_ext (out_buf t) _ _ (ob + 18) 2); [|lia|exact HR]. intros. apply Hne. lia.
  - eapply connects_ext; [|lia|exact HC]. intros. apply Hne. lia.
  - eapply (cells_ext (out_buf t) _ _ (ob + 86) 4); [|lia|exact HE]. intros. apply Hne. lia.
  - unfold link_at. subst t'. split_and!; mem; by apply as_u32_small.
  - intros k Hk. rewrite Hne by lia. by apply HF.
  - intros Hu. repeat apply store_u32. by apply HU.
Qed.

Lemma new_agent_typed tg d d0 d1 : u8_range tg -> u16_range d -> i16_range d0 -> i16_range d1 ->
  agent_typed (set_label d d0 d1 (set_tag tg EMPTY)).
Proof. intros Hg Hd H0 H1. split; [done|]. split_and!; assumption. Qed.

Lemma holds_alloc t o base tg d d0 d1 : holds m0 ob t o -> (length (new_agents o) < 4)%nat ->
  idx_range (base + Z.of_nat (length (new_agents o))) -> u8_range tg -> u16_range d -> i16_range d0 -> i16_range d1 ->
  let '(ag, o') := out_alloc o base tg d d0 d1 in
  let '(ps, t') := na_alloc ob base tg d d0 d1 t in
  ps = (ag_principal ag, ag_aux0 ag, ag_aux1 ag) /\ holds m0 ob t' o'.
Proof.
  intros [Hn Hr Hc He Hmu HA HR HC HE HL HS HF HU] Hlen Hi Hg Hd H0 H1. unfold out_alloc, na_alloc. cbv zeta.
  set (t' := out_set (ob + 13 + na_c t) d1 _).
  assert (forall x, ~ ob + 1 <= x < ob + 17 -> out_buf t' x = out_buf t x) as Hne by (intros; subst t'; mem).
  assert (as_u32 (base + na_c t) = base + Z.of_nat (length (new_agents o))) as ->.
  { rewrite Hn. apply as_u32_small. unfold idx_range in Hi. unfold u32_range. lia. }
  pose proof (make_port_ok _ Principal Hi) as P0. pose proof (make_port_ok _ Aux0 Hi) as P1. pose proof (make_port_ok _ Aux1 Hi) as P2.
  cbn [kind_bits] in P0, P1, P2. rewrite P0, P1, P2. split; [done|].
  constructor; cbn [na_c ret_c conn_c er_c new_agents retired slot_muts connects set_erasers link_direct out_buf];
    try assumption; rewrite ?length_app; cbn [length].
  - rewrite Hn. apply count_succ. lia.
  - intros k s Hk. apply lookup_app_Some in Hk as [Hk|[Hk1 Hk2]].
    + pose proof (lookup_lt_Some _ _ _ Hk). destruct (HA _ _ Hk) as (A1 & A2 & A3 & A4 & A5).
      split; [exact A1|]. split_and!; [rewrite <- A2|rewrite <- A3|rewrite <- A4|rewrite <- A5]; subst t'; mem.
    + apply list_lookup_singleton_Some in Hk2 as [Hk2 <-]. replace (Z.of_nat k) with (na_c t) by lia.
      split; [by apply new_agent_typed|]. unfold set_label, set_tag, EMPTY. cbn [tag data delta0 delta1]. subst t'.
      unfold u8_range, u16_range in *. split_and!; mem; apply as_u32_small; unfold u32_range; lia.
  - eapply (cells_ext (out_buf t) _ _ (ob + 18) 2); [|lia|exact HR]. intros. apply Hne. lia.
  - eapply connects_ext; [|lia|exact HC]. intros. apply Hne. lia.
  - eapply (cells_ext (out_buf t) _ _ (ob + 86) 4); [|lia|exact HE]. intros. apply Hne. lia.
  - eapply link_at_ext; [|exact HL]. intros. apply Hne. lia.
  - lia.
  - intros k Hk. rewrite Hne by lia. by apply HF.
  - intros Hu. repeat apply store_u32. by apply HU.
Qed.

(** The start of a thread, and the counters written at its end. *)
Lemma holds_start out : holds out ob (out_set (ob + 90) 0 (zero_agents ob (mk_thread out 0 0 0 0))) out_new.
Proof.
  unfold zero_agents. change (seqZ 0 MAX_NA) with [0; 1; 2; 3]. cbn [foldl]. set (t0 := mk_thread out 0 0 0 0).
  set (t := out_set (ob + 13 + 3) _ _). assert (forall x, ~ ob + 1 <= x < ob + 17 -> out_buf t x = out x) as Hne.
  { intros x Hx. subst t. mem. }
  constructor; cbn [new_agents retired connects set_erasers link_direct out_new length];
    try (intros k x Hk; by rewrite lookup_nil in Hk); try done; try lia.
  - unfold link_at. mem.
  - intros k Hk. mem. apply Hne. lia.
  - intros Hu. repeat apply store_u32. done.
Qed.
End Ops.

(** ** Reading an output back *)

(** The host refuses an output with a level that the shader could not
    represent. *)
Definition bad_level (s : Slot) : bool := data s =? 65535.
Definition checked (o : WorkerOutput) : res DnxError WorkerOutput :=
  if existsb bad_level (new_agents o) then Err DeltaOverflow else Ok o.

Section Parse.
Context (m0 : Mem) (ob : Z) (t : Thread) (o : WorkerOutput) (words : list Z) (i : nat) (base : Z).
Context (Hob : 0 <= ob /\ ob + 96 < 2 ^ 32) (Ho : holds m0 ob t o).
Context (Hw : forall k, (k < 96)%nat -> words !! (i * 96 + k)%nat = Some (out_buf (finish ob t) (ob + Z.of_nat k))).

Let off := (i * 96)%nat.

Lemma finish_keeps x : x <> ob -> x <> ob + 17 -> x <> ob + 20 -> x <> ob + 85 -> out_buf (finish ob t) x = out_buf t x.
Proof. intros. unfold finish. cbn [na_c ret_c conn_c er_c out_set]. fold (out_set ob (na_c t) t). mem. Qed.

Lemma word_at k v : (k < 96)%nat -> out_buf (finish ob t) (ob + Z.of_nat k) = v -> index (E := DnxError) words (off + k) = Ok v.
Proof. intros Hk Hv. apply index_Ok. subst off. by rewrite Hw, Hv. Qed.

Lemma kept_at k v : (k < 96)%nat -> k <> 0%nat -> k <> 17%nat -> k <> 20%nat -> k <> 85%nat -> out_buf t (ob + Z.of_nat k) = v ->
  index (E := DnxError) words (off + k) = Ok v.
Proof. intros Hk H0 H1 H2 H3 Hv. apply word_at; [done|]. rewrite finish_keeps by lia. done. Qed.

Lemma parse_agents l2 : forall l1, new_agents o = l1 ++ l2 ->
  foldM (parse_agent words off) (seq (length l1) (length l2)) l1
  = if existsb bad_level l2 then Err DeltaOverflow else Ok (l1 ++ l2).
Proof.
  destruct Ho as [Hn Hr Hc He Hmu HA HR HC HE HL HS HF HU].
  induction l2 as [|s l2 IH]; intros l1 Hl; cbn [length seq foldM existsb]; [by rewrite app_nil_r|].
  assert (new_agents o !! length l1 = Some s) as Hs by (by rewrite Hl, list_lookup_middle).
  pose proof (lookup_lt_Some _ _ _ Hs) as Hlt. destruct (HA _ _ Hs) as ((T1 & T2 & T3 & T4 & T5) & A2 & A3 & A4 & A5).
  unfold parse_agent at 2.
  assert (forall c v, (c = 1 \/ c = 5 \/ c = 9 \/ c = 13)%nat -> out_buf t (ob + Z.of_nat c + Z.of_nat (length l1)) = v ->
    index (E := DnxError) words (off + c + length l1) = Ok v) as Hrd.
  { intros c v Hc' Hv. rewrite <- Nat.add_assoc. apply kept_at; try lia. rewrite <- Hv. f_equal. lia. }
  rewrite (Hrd 1%nat (tag s)), (Hrd 5%nat (data s)), (Hrd 9%nat (as_u32 (delta0 s))), (Hrd 13%nat (as_u32 (delta1 s))) by (lia || assumption).
  cbn [mbind res_bind]. assert (as_u16 (data s) = data s) as -> by (by apply wrap_small).
  unfold bad_level at 1. destruct (Z.eqb_spec (data s) 65535); cbn [orb]; [done|].
  assert (forall d, i16_range d -> as_i16 (as_u16 (as_u32 d)) = d) as Hd.
  { intros d Hd. rewrite <- (as_i16_u16 d Hd) at 2. f_equal. unfold as_u16, as_u32, wrap. symmetry. apply Znumtheory.Zmod_div_mod; [lia|lia|by exists (2 ^ 16)]. }
  rewrite !Hd by done. assert (as_u8 (tag s) = tag s) as -> by (by apply wrap_small). rewrite <- T1.
  specialize (IH (l1 ++ [s])). rewrite length_app, Nat.add_1_r, <- app_assoc in IH. apply IH. done.
Qed.

Lemma parse_connects l2 : forall l1, connects o = l1 ++ l2 ->
  foldM (parse_connect words off) (seq (length l1) (length l2)) l1 = Ok (l1 ++ l2).
Proof.
  destruct Ho as [Hn Hr Hc He Hmu HA HR HC HE HL HS HF HU].
  induction l2 as [|c l2 IH]; intros l1 Hl; cbn [length seq foldM]; [by rewrite app_nil_r|].
  assert (connects o !! length l1 = Some c) as Hs by (by rewrite Hl, list_lookup_middle).
  pose proof (lookup_lt_Some _ _ _ Hs) as Hlt. destruct (HC _ _ Hs) as (A & B & Hwf & Hd & P2 & P3 & P4 & P5 & P6).
  destruct c as [[p q] lo]. cbn [fst snd] in *. unfold parse_connect at 2.
  assert (forall d v, (d < 7)%nat -> out_buf t (ob + 21 + Z.of_nat (length l1) * 8 + Z.of_nat d) = v ->
    index (E := DnxError) words (off + 21 + length l1 * 8 + d) = Ok v) as Hrd.
  { intros d v Hd' Hv. rewrite <- !Nat.add_assoc. apply kept_at; try lia. rewrite <- Hv. f_equal. lia. }
  rewrite <- (Nat.add_0_r (off + 21 + length l1 * 8)) at 1.
  rewrite (Hrd 0%nat p) by (lia || (rewrite Z.add_0_r; assumption)).
  rewrite (Hrd 1%nat q), (Hrd 2%nat _), (Hrd 3%nat _), (Hrd 4%nat _), (Hrd 5%nat _), (Hrd 6%nat _) by (lia || eassumption).
  cbn [mbind res_bind]. pose proof (gpu_bits_roundtrip lo Hwf Hd) as Hrt. destruct (lo4_small lo Hwf Hd) as (_ & _ & _ & _ & L5).
  unfold lo4_of in *. destruct (gpu_bits lo) as [[[[w1 w2] w3] w4] l]. cbn [lo_hi lo_m1 lo_m0 lo_lo lo_len] in *.
  assert (as_u8 l = l) as -> by (apply wrap_small; lia). rewrite Hrt.
  specialize (IH (l1 ++ [(p, q, lo)])). rewrite length_app, Nat.add_1_r, <- app_assoc in IH. apply IH. done.
Qed.

Lemma parse_cells (l : list Z) c : (c + length l <= 96)%nat ->
  (forall k, (k < length l)%nat -> (c + k <> 0 /\ c + k <> 17 /\ c + k <> 20 /\ c + k <> 85)%nat) ->
  (forall k x, l !! k = Some x -> out_buf t (ob + Z.of_nat c + Z.of_nat k) = x) ->
  word_range words (off + c) (length l) = Ok l.
Proof.
  intros Hc Hk Hl. unfold word_range.
  assert (length words >= off + c + length l)%nat as Hlen.
  { destruct l as [|x l]; [|cbn [length] in *].
    - rewrite Nat.add_0_r. destruct c as [|c].
      + destruct (Hw 0 ltac:(lia)) as []. pose proof (lookup_lt_Some _ _ _ (Hw 0 ltac:(lia))). subst off. lia.
      + pose proof (lookup_lt_Some _ _ _ (Hw c ltac:(cbn in Hc; lia))). subst off. lia.
    - pose proof (lookup_lt_Some _ _ _ (Hw (c + length l) ltac:(lia))). subst off. lia. }
  destruct (Nat.ltb_spec (length words) (off + c + length l)); [lia|]. f_equal. apply list_eq. intros k.
  destruct (decide (k < length l)%nat) as [Hlt|Hge].
  - rewrite lookup_take_lt, lookup_drop by lia. destruct (lookup_lt_is_Some_2 l k Hlt) as [x Hx]. rewrite Hx.
    specialize (Hk k Hlt). rewrite <- Nat.add_assoc. apply (@index_Ok DnxError). apply kept_at; try lia.
    rewrite <- (Hl _ _ Hx). f_equal. lia.
  - rewrite lookup_take_ge by lia. symmetry. apply lookup_ge_None. lia.
Qed.

Theorem parse_holds : parse_output words i base = checked o.
Proof.
  pose proof (parse_agents (new_agents o) [] eq_refl) as PA. pose proof (parse_connects (connects o) [] eq_refl) as PC.
  destruct Ho as [Hn Hr Hc He Hmu HA HR HC HE HL HS HF HU]. unfold parse_output. fold off.
  rewrite <- (Nat.add_0_r off) at 1.
  rewrite (word_at 0 (na_c t)) by (lia || (rewrite Z.add_0_r; unfold finish; mem; apply as_u32_small; unfold u32_range; lia)).
  cbn [mbind res_bind]. rewrite Hn, Nat2Z.id. cbn [length app] in PA, PC. rewrite PA. unfold checked.
  destruct (existsb bad_level (new_agents o)); [done|]. cbn [mbind res_bind].
  rewrite (word_at 17 (ret_c t)) by (lia || (unfold finish; mem; apply as_u32_small; unfold u32_range; lia)).
  cbn [mbind res_bind]. rewrite Hr, Nat2Z.id. rewrite parse_cells by (lia || assumption). cbn [mbind res_bind].
  rewrite (word_at 20 (conn_c t)) by (lia || (unfold finish; mem; apply as_u32_small; unfold u32_range; lia)).
  cbn [mbind res_bind]. rewrite Hc, Nat2Z.id, PC. cbn [mbind res_bind].
  rewrite (word_at 85 (er_c t)) by (lia || (unfold finish; mem; apply as_u32_small; unfold u32_range; lia)).
  cbn [mbind res_bind]. rewrite He, Nat2Z.id. rewrite parse_cells by (lia || assumption). cbn [mbind res_bind].
  destruct o as [na rt mu cs er lk]. cbn [new_agents retired slot_muts connects set_erasers link_direct] in *. subst mu.
  unfold link_at in HL. destruct lk as [[p q]|].
  - destruct HL as (L0 & L1 & L2). rewrite (kept_at 90 1) by (lia || assumption). cbn [mbind res_bind].
    by rewrite (kept_at 91 p), (kept_at 92 q) by (lia || assumption).
  - by rewrite (kept_at 90 0) by (lia || assumption).
Qed.
End Parse.

(** ** A thread and a worker *)

Lemma shader_extends lo b : lopath_wf lo -> depth lo < 128 ->
  exists p, extend_bit lo (bit_of b) = Ok p /\ lopath_wf p /\ depth p = depth lo + 1 /\ lo_extend (lo4_of lo) (bit_of b) = lo4_of p.
Proof.
  intros Hw Hd. destruct (extend_bit_room lo b Hw) as (p & Hp & Hwp & Hb); [lia|]. exists p. split; [done|]. split; [done|].
  split; [|by apply lo_extend_ok]. rewrite <- !bits_length, Hb, length_app by done. cbn. lia.
Qed.

Lemma new_port_u32 i k : idx_range i -> u32_range (port_new i k 0).
Proof.
  intros Hi. rewrite port_new_eq by (done || by left). unfold idx_range in Hi. unfold u32_range. destruct k; cbn; lia.
Qed.

Lemma slot_idx_range p : u32_range p -> idx_range (slot_idx p).
Proof.
  unfold u32_range, idx_range, slot_idx. intros Hp. rewrite Z.shiftr_div_pow2 by lia.
  split; [apply Z.div_pos; lia|]. apply Z.div_lt_upper_bound; lia.
Qed.

Lemma idx_u32 i : idx_range i -> u32_range i.
Proof. unfold idx_range, u32_range. lia. Qed.

Section Fire.
Context (a : Arena) (buf : Mem) (m0 : Mem) (ob base : Z) (t : Thread) (lo : LOPath).
Context (Hup : uploaded (encode_gpu a) buf) (Hty : Forall slot_typed (slots a)).
Context (Hob : 0 <= ob /\ ob + 96 < 2 ^ 32) (Hbase : 0 <= base /\ base + 4 <= 2 ^ 28).
Context (Hlo : lopath_wf lo) (Hdeep : depth lo <= 126) (Ht : holds m0 ob t out_new).

(** The thread ends with the output of the worker, or both refuse it. *)
Definition agree (r : res DnxError WorkerOutput) (t' : Thread) : Prop :=
  exists o, r = checked o /\ (link_direct o = None \/ connects o = []) /\ holds m0 ob t' o.

Definition points_to (p : PortId) (s : Slot) : Prop := u32_range p /\ slots a !! Z.to_nat (slot_idx p) = Some s.

Lemma points_typed p s : points_to p s -> slot_typed s /\ idx_range (slot_idx p) /\ slot a (slot_idx p) = Ok s.
Proof.
  intros [Hp Hs]. split; [by eapply Forall_lookup_1|]. split; [by apply slot_idx_range|]. by apply index_Ok.
Qed.

Lemma reads p s : points_to p s -> let i := slot_idx p in slot_tag buf i = tag s /\ slot_aux0 buf i = aux0 s /\ slot_aux1 buf i = aux1 s
  /\ slot_data buf i = data s /\ slot_d0 buf i = delta0 s /\ slot_d1 buf i = delta1 s.
Proof.
  intros Hs. destruct (points_typed p s Hs) as (Hts & Hi & _). destruct Hs as [_ Hs].
  split_and!; [eapply slot_tag_ok|eapply slot_aux0_ok|eapply slot_aux1_ok|eapply slot_data_ok|eapply slot_d0_ok|eapply slot_d1_ok]; eassumption.
Qed.

(** Close the side conditions of the steps below. *)
Ltac side := first
  [ assumption | lia | cbn; lia | apply ty_aux0; assumption | apply ty_aux1; assumption | apply idx_u32; assumption
  | apply new_port_u32; unfold idx_range; cbn; lia | unfold idx_range; cbn; lia | unfold u32_range, ERA; lia
  | apply ty_data; assumption | apply ty_delta0; assumption | apply ty_delta1; assumption
  | unfold u8_range; cbn; lia | unfold u16_range; cbn; lia | unfold i16_range; cbn; lia ].
Ltac retire_ H i := eapply (holds_retire m0 ob Hob _ _ i) in H; [|side..].
Ltac eraser_ H p := eapply (holds_eraser m0 ob Hob _ _ p) in H; [|side..].
Ltac connect_ H p q l := eapply (holds_connect m0 ob Hob _ _ p q l) in H; [|side..].
Ltac extend_ l b p := let E := fresh "E" in let W := fresh "W" in let D := fresh "D" in let X := fresh "X" in
  destruct (shader_extends l b) as (p & E & W & D & X); [assumption|lia|]; cbn [bit_of] in E, X.

Lemma era_agrees p s : points_to p s -> agree (erase_par p s lo out_new) (fire_era buf ob p (lo4_of lo) t).
Proof.
  intros Hs. destruct (points_typed p s Hs) as (Hts & Hi & _). destruct (reads p s Hs) as (_ & R0 & R1 & _).
  extend_ lo false l. extend_ lo true r. unfold agree, erase_par, extend_left, extend_right, fire_era, lo_left, lo_right. rewrite E, E0, X, X0.
  change port_slot_idx with slot_idx. rewrite R0, R1. cbn [mbind res_bind].
  pose proof Ht as H. retire_ H (slot_idx p). eraser_ H (aux0 s). eraser_ H (aux1 s). connect_ H ERA (aux0 s) l. connect_ H ERA (aux1 s) r.
  eexists. split; [|split; [|exact H]]; [done|first [by left|by right]].
Qed.

Lemma fan_fan_agrees p q s1 s2 : points_to p s1 -> points_to q s2 ->
  agree (r4_par a p q s1 lo out_new) (fire_fan_fan buf ob p q (tag s1) (lo4_of lo) t).
Proof.
  intros H1 H2. unfold r4_par, fire_fan_fan. change (tag_fan_is_abs (tag s1)) with (fan_is_abs s1). unfold select.
  assert (exists x y sx sy, (if fan_is_abs s1 then (p, q) else (q, p)) = (x, y) /\ (if fan_is_abs s1 then p else q) = x
    /\ (if fan_is_abs s1 then q else p) = y /\ points_to x sx /\ points_to y sy) as (x & y & sx & sy & -> & -> & -> & Hx & Hy).
  { destruct (fan_is_abs s1); repeat eexists; try reflexivity; first [apply H1|apply H2]. }
  destruct (points_typed x sx Hx) as (Tx & Ix & Ax). destruct (points_typed y sy Hy) as (Ty & Iy & Ay).
  destruct (reads x sx Hx) as (_ & X0 & X1 & _). destruct (reads y sy Hy) as (_ & Y0 & Y1 & _).
  change port_slot_idx with slot_idx. rewrite Ax, Ay, X0, X1, Y0, Y1. cbn [mbind res_bind].
  pose proof Ht as H. retire_ H (slot_idx x). retire_ H (slot_idx y).
  destruct ((slot_idx (aux0 sx) =? slot_idx x) && (slot_idx (aux1 sx) =? slot_idx x)).
  - eapply (holds_link m0 ob Hob _ _ (aux0 sy) (aux1 sy)) in H; [|side..]. eexists. split; [|split; [|exact H]]; [done|first [by left|by right]].
  - extend_ lo false l. extend_ lo true r. unfold extend_left, extend_right, lo_left, lo_right. rewrite E, E0, X, X2. cbn [mbind res_bind].
    connect_ H (aux0 sx) (aux0 sy) l. connect_ H (aux1 sx) (aux1 sy) r. eexists. split; [|split; [|exact H]]; [done|first [by left|by right]].
Qed.

Lemma rep_rep_equal_agrees p q s1 s2 : points_to p s1 -> points_to q s2 ->
  agree (r6_par p q s1 s2 lo out_new)
    (do_connect ob (aux1 s1) (aux1 s2) (lo_right (lo4_of lo))
      (do_connect ob (aux0 s1) (aux0 s2) (lo_left (lo4_of lo)) (do_retire ob (slot_idx q) (do_retire ob (slot_idx p) t)))).
Proof.
  intros H1 H2. destruct (points_typed p s1 H1) as (T1 & I1 & _). destruct (points_typed q s2 H2) as (T2 & I2 & _).
  unfold agree, r6_par, extend_left, extend_right, lo_left, lo_right. extend_ lo false l. extend_ lo true r. rewrite E, E0, X, X0. cbn [mbind res_bind].
  pose proof Ht as H. retire_ H (slot_idx p). retire_ H (slot_idx q). connect_ H (aux0 s1) (aux0 s2) l. connect_ H (aux1 s1) (aux1 s2) r.
  eexists. split; [|split; [|exact H]]; [done|first [by left|by right]].
Qed.
(** Replace every extension by its path. *)
Ltac paths_ :=
  repeat match goal with X : lo_extend _ _ = lo4_of _ |- _ => progress rewrite X end;
  repeat match goal with E : extend_bit _ _ = Ok _ |- _ => progress (rewrite E; cbn [mbind res_bind]) end.

(** The next connection of the goal. *)
Ltac next_ H :=
  match type of H with holds _ _ ?T _ =>
    match goal with |- context [do_connect ob ?p ?q (lo4_of ?l) T] => connect_ H p q l end end.

(** An allocation by the thread and by the worker. *)
Ltac alloc_ H tg d d0 d1 :=
  let A := fresh "A" in
  pose proof (holds_alloc m0 ob Hob _ _ base tg d d0 d1 H) as A;
  specialize (A ltac:(side) ltac:(side) ltac:(side) ltac:(side) ltac:(side) ltac:(side)); clear H;
  match type of A with context [na_alloc ob base tg d d0 d1 ?T] => destruct (na_alloc ob base tg d d0 d1 T) as [[[? ?] ?] ?] end;
  cbv beta iota zeta delta [out_alloc] in A; cbn [out_new new_agents retired slot_muts connects set_erasers link_direct app length] in A; destruct A as [A H]; cbn [ag_principal ag_aux0 ag_aux1] in A; injection A as -> -> ->.

Lemma fan_rep_agrees p q fan rep : points_to p fan -> points_to q rep -> data rep < 65535 ->
  agree (r5_arena a p q lo base out_new) (fire_fan_rep buf ob base p q (lo4_of lo) t).
Proof.
  intros H1 H2 Hlev. destruct (points_typed p fan H1) as (T1 & I1 & A1). destruct (points_typed q rep H2) as (T2 & I2 & A2).
  destruct (reads p fan H1) as (G1 & X0 & X1 & _). destruct (reads q rep H2) as (_ & Y0 & Y1 & D & D0 & D1).
  unfold r5_arena, fire_fan_rep. change port_slot_idx with slot_idx. rewrite A1, A2, G1, X0, X1, Y0, Y1, D, D0, D1. cbn [mbind res_bind].
  change (tag_fan_is_abs (tag fan)) with (fan_is_abs fan). unfold extend_left, extend_right, lo_left, lo_right.
  extend_ lo false l. extend_ l false l0. extend_ l true l1. extend_ lo true r. extend_ r false r0. extend_ r true r1.
  paths_. pose proof Ht as H. destruct (fan_is_abs fan); cbn [select].
  - alloc_ H 5 0 0 0. alloc_ H 5 0 0 0. alloc_ H 10 (data rep) (delta0 rep) (delta1 rep). alloc_ H 11 (data rep) (delta0 rep) (delta1 rep).
    retire_ H (slot_idx p). retire_ H (slot_idx q). do 8 next_ H. eexists. split; [|split; [|exact H]]; [|by left].
    unfold checked. cbn. unfold bad_level. cbn. by destruct (Z.eqb_spec (data rep) 65535); [lia|].
  - alloc_ H 4 0 0 0. alloc_ H 4 0 0 0. alloc_ H 11 (data rep) (delta0 rep) (delta1 rep). alloc_ H 10 (data rep) (delta0 rep) (delta1 rep).
    retire_ H (slot_idx p). retire_ H (slot_idx q). do 8 next_ H. eexists. split; [|split; [|exact H]]; [|by left].
    unfold checked. cbn. unfold bad_level. cbn. by destruct (Z.eqb_spec (data rep) 65535); [lia|].
Qed.

Lemma add_level_cases level delta :
  (add_level level delta = Ok (add_level32 level delta) /\ 0 <= add_level32 level delta < 65535)
  \/ (add_level level delta = Err DeltaOverflow /\ add_level32 level delta = 65535).
Proof.
  unfold add_level, add_level32. destruct (Z.leb_spec 0 (level + delta)), (Z.ltb_spec (level + delta) 0); try lia; cbn [andb orb]; [|by right].
  destruct (Z.ltb_spec (level + delta) 16384), (Z.leb_spec 16384 (level + delta)); try lia; [left|by right].
  split; [|lia]. f_equal. apply wrap_small. lia.
Qed.

Lemma add_level32_u16 level delta : u16_range (add_level32 level delta).
Proof. unfold u16_range. destruct (add_level_cases level delta) as [[_ H]|[_ ->]]; lia. Qed.

Lemma land15_u8 z : u8_range (Z.land z 15).
Proof. change 15 with (2 ^ 4 - 1). rewrite land_pow2 by lia. pose proof (Z.mod_pos_bound z (2 ^ 4)). unfold u8_range. lia. Qed.

(** The shader exchanges the paths of the last copy of the higher replicator
    and of the first copy of the lower one. *)
Definition exchange_paths (o : WorkerOutput) : WorkerOutput :=
  mk_out (new_agents o) (retired o) (slot_muts o)
    (match connects o with
     | [c0; c1; c2; c3; c4; (p, q, l01); (x, y, l10); c7] => [c0; c1; c2; c3; c4; (p, q, l10); (x, y, l01); c7]
     | l => l
     end) (set_erasers o) (link_direct o).

Definition same_label (s0 s1 : Slot) : bool := (data s0 =? data s1) && (delta0 s0 =? delta0 s1) && (delta1 s0 =? delta1 s1).

Lemma rep_rep_agrees p q s0 s1 : points_to p s0 -> points_to q s1 -> data s0 < 65535 -> data s1 < 65535 ->
  agree (if same_label s0 s1 then r6_par p q s0 s1 lo out_new
         else (o ← r7_par p q s0 s1 lo base out_new; Ok (exchange_paths o)))
    (fire_rep_rep buf ob base (slot_idx p) (slot_idx q) (lo4_of lo) t).
Proof.
  intros H1 H2 Hl1 Hl2. destruct (reads p s0 H1) as (G1 & X0 & X1 & D & D0 & D1). destruct (reads q s1 H2) as (G2 & Y0 & Y1 & F & F0 & F1).
  unfold fire_rep_rep. rewrite D, D0, D1, F, F0, F1. change (_ && _ && _) with (same_label s0 s1).
  destruct (same_label s0 s1).
  { rewrite X0, X1, Y0, Y1. by apply rep_rep_equal_agrees. }
  unfold r7_par. rewrite Z.gtb_ltb.
  assert (exists x y hi low, (if data s1 <? data s0 then (p, s0, q, s1) else (q, s1, p, s0)) = (x, hi, y, low)
    /\ select (slot_idx q) (slot_idx p) (data s1 <? data s0) = slot_idx x
    /\ select (slot_idx p) (slot_idx q) (data s1 <? data s0) = slot_idx y
    /\ points_to x hi /\ points_to y low /\ data hi < 65535 /\ data low < 65535) as (x & y & hi & low & -> & -> & -> & Hx & Hy & Lx & Ly).
  { destruct (data s1 <? data s0); [exists p, q, s0, s1|exists q, p, s1, s0]; by split_and!. }
  clear G1 X0 X1 D D0 D1 G2 Y0 Y1 F F0 F1. destruct (points_typed x hi Hx) as (T1 & I1 & _). destruct (points_typed y low Hy) as (T2 & I2 & _).
  destruct (reads x hi Hx) as (G1 & X0 & X1 & D & D0 & D1). destruct (reads y low Hy) as (G2 & Y0 & Y1 & F & F0 & F1).
  rewrite G1, X0, X1, D, D0, D1, G2, Y0, Y1, F, F0, F1. unfold extend_left, extend_right, lo_left, lo_right.
  extend_ lo false l. extend_ l false l0. extend_ l true l1. extend_ lo true r. extend_ r false r0. extend_ r true r1. paths_.
  pose proof (land15_u8 (tag hi)) as B1. pose proof (land15_u8 (tag low)) as B2.
  pose proof (add_level32_u16 (data hi) (delta0 low)) as B3. pose proof (add_level32_u16 (data hi) (delta1 low)) as B4. pose proof Ht as H.
  alloc_ H (Z.land (tag hi) 15) (add_level32 (data hi) (delta0 low)) (delta0 hi) (delta1 hi).
  alloc_ H (Z.land (tag hi) 15) (add_level32 (data hi) (delta1 low)) (delta0 hi) (delta1 hi).
  alloc_ H (Z.land (tag low) 15) (data low) (delta0 low) (delta1 low).
  alloc_ H (Z.land (tag low) 15) (data low) (delta0 low) (delta1 low).
  retire_ H (slot_idx x). retire_ H (slot_idx y). do 8 next_ H. eexists. split; [|split; [|exact H]]; [|by left].
  unfold checked. cbn. unfold bad_level. cbn. destruct (Z.eqb_spec (data low) 65535); [lia|].
  destruct (add_level_cases (data hi) (delta0 low)) as [[-> B]|[-> ->]]; cbn [mbind res_bind]; [|done].
  destruct (Z.eqb_spec (add_level32 (data hi) (delta0 low)) 65535); [lia|]. cbn [orb].
  destruct (add_level_cases (data hi) (delta1 low)) as [[-> B']|[-> ->]]; cbn [mbind res_bind]; [|done].
  by destruct (Z.eqb_spec (add_level32 (data hi) (delta1 low)) 65535); [lia|].
Qed.
End Fire.

(** ** Pairs the shader fires as a worker does *)

Section Pairs.
Context {C : CRules} (a : Arena).

Definition pair_slot (p : PortId) : option Slot := slots a !! Z.to_nat (slot_idx p).

(** The end of a pair: an eraser or a live fan; or a live replicator, in a
    class without the rules that come before R5 to R7, which the shader
    leaves out. *)
Definition end_ok (p : PortId) : bool :=
  is_eraser p ||
  (is_live a (slot_idx p) &&
   match pair_slot p with
   | Some s => is_fan s || (is_rep s && (data s <? 65535) && negb HAS_ERA && negb HAS_REP)
   | None => false
   end).

Definition unequal_reps (p q : PortId) : bool :=
  negb (is_eraser p) && negb (is_eraser q) &&
  match pair_slot p, pair_slot q with
  | Some s0, Some s1 => is_rep s0 && is_rep s1 && negb (same_label s0 s1)
  | _, _ => false
  end.

(** A pair of the frontier within the range of the shader's paths. *)
Record pair_ready (ap : ActivePair) : Prop := mk_pair_ready {
  pr_p0 : u32_range (p0 ap);
  pr_p1 : u32_range (p1 ap);
  pr_end0 : end_ok (p0 ap) = true;
  pr_end1 : end_ok (p1 ap) = true;
  pr_wf : lopath_wf (pair_lo ap);
  pr_depth : depth (pair_lo ap) <= 126
}.

(** What the shader computes, in terms of the worker. *)
Definition shader_worker (ap : ActivePair) (base : Z) : res DnxError WorkerOutput :=
  o ← worker a ap base; Ok (if unequal_reps (p0 ap) (p1 ap) then exchange_paths o else o).

Lemma end_ok_cases p : u32_range p -> end_ok p = true -> is_eraser p = false ->
  exists s, points_to a p s /\ is_live a (slot_idx p) = true
    /\ (is_fan s = true \/ (is_rep s = true /\ data s < 65535 /\ HAS_ERA = false /\ HAS_REP = false)).
Proof.
  unfold end_ok, pair_slot. intros Hp H He. rewrite He in H. cbn [orb] in H. apply andb_true_iff in H as [Hl H].
  destruct (slots a !! Z.to_nat (slot_idx p)) as [s|] eqn:Hs; [|done]. exists s. split; [by split|]. split; [done|].
  apply orb_true_iff in H as [H|H]; [by left|right]. rewrite !andb_true_iff, !negb_true_iff in H.
  destruct H as [[[H1 H2] H3] H4]. split_and!; try done. lia.
Qed.

Lemma fan_not_rep s : is_fan s = true -> is_rep s = false.
Proof. unfold is_fan, is_rep. intros H. apply Z.eqb_eq in H. by rewrite H. Qed.

Lemma rep_not_fan s : is_rep s = true -> is_fan s = false.
Proof. unfold is_fan, is_rep. intros H. apply Z.eqb_eq in H. by rewrite H. Qed.

(** Without preludes a guard is a test of liveness. *)
Lemma guarded_off f live out k : live out = true -> par_guarded false f live out k = k out.
Proof. unfold par_guarded. cbn [mbind res_bind]. by intros ->. Qed.

Lemma ready_live ap : pair_ready ap ->
  (negb (is_eraser (p0 ap) || is_live a (slot_idx (p0 ap))) || negb (is_eraser (p1 ap) || is_live a (slot_idx (p1 ap)))) = false.
Proof.
  intros [Hp Hq Ep Eq _ _]. unfold end_ok in Ep, Eq.
  destruct (is_eraser (p0 ap)), (is_eraser (p1 ap)), (is_live a (slot_idx (p0 ap))), (is_live a (slot_idx (p1 ap))); done.
Qed.

Section Sim.
Context (buf m0 : Mem) (ob base : Z) (t : Thread).
Context (Hup : uploaded (encode_gpu a) buf) (Hty : Forall slot_typed (slots a)).
Context (Hob : 0 <= ob /\ ob + 96 < 2 ^ 32) (Hbase : 0 <= base /\ base + 4 <= 2 ^ 28) (Ht : holds m0 ob t out_new).

Lemma local_live_rep p : is_live a (slot_idx p) = true -> local_live a out_new p = true.
Proof. unfold local_live. intros ->. cbn [retired out_new andb]. by destruct (is_eraser p). Qed.

Lemma fire_agrees ap : pair_ready ap ->
  agree m0 ob (shader_worker ap base) (fire buf ob base (p0 ap) (p1 ap) (lo4_of (pair_lo ap)) t).
Proof.
  intros Hr. pose proof (ready_live ap Hr) as Hlive. destruct Hr as [Hp Hq Ep Eq Hlo Hdeep].
  unfold shader_worker, worker. rewrite Hlive. clear Hlive. unfold fire_rule_parallel_arena, fire, unequal_reps, pair_slot. cbv zeta.
  destruct ap as [p q lo]. cbn [p0 p1 pair_lo] in *. change port_is_era with is_eraser. change port_slot_idx with slot_idx.
  change tag_is_fan with (fun t => Z.land t 12 =? 4). change tag_is_rep with (fun t => Z.land t 12 =? 8).
  assert (forall o t', agree m0 ob o t' -> agree m0 ob (x ← o; Ok x) t') as Hret.
  { intros o t' H. by replace (x ← o; Ok x) with o by (by destruct o). }
  assert (forall r s, points_to a r s -> is_live a (slot_idx r) = true ->
    is_fan s = true \/ (is_rep s = true /\ data s < 65535 /\ HAS_ERA = false /\ HAS_REP = false) ->
    agree m0 ob (s ← slot a (slot_idx r); if is_fan s then erase_par r s lo out_new else
      par_guarded HAS_ERA (c3_par a r lo) (fun out => local_live a out r) out_new (fun out =>
      par_guarded HAS_REP (c2_par a r lo) (fun out => local_live a out r) out (fun out => s ← slot a (slot_idx r); erase_par r s lo out)))
     (fire_era buf ob r (lo4_of lo) t)) as Hera.
  { intros r s Hs Hl Hk. destruct (points_typed a Hty r s Hs) as (_ & _ & As). rewrite As. cbn [mbind res_bind].
    pose proof (era_agrees a buf m0 ob t lo Hup Hty Hob Hlo Hdeep Ht r s Hs) as H.
    destruct Hk as [->|(Hrep & _ & Hera & Hrp)]; [done|]. rewrite (rep_not_fan s Hrep), Hera, Hrp.
    rewrite !guarded_off by (by apply local_live_rep). done. }
  destruct (is_eraser p) eqn:Hep, (is_eraser q) eqn:Heq; cbn [andb orb negb select].
  - apply Hret. exists out_new. split; [done|]. split; [by left|]. done.
  - destruct (end_ok_cases q Hq Eq Heq) as (s & Hs & Hl & Hk). apply Hret. by eapply Hera.
  - destruct (end_ok_cases p Hp Ep Hep) as (s & Hs & Hl & Hk). apply Hret. by eapply Hera.
  - destruct (end_ok_cases p Hp Ep Hep) as (s0 & Hs0 & Hl0 & Hk0). destruct (end_ok_cases q Hq Eq Heq) as (s1 & Hs1 & Hl1 & Hk1).
    destruct (points_typed a Hty p s0 Hs0) as (_ & _ & A0). destruct (points_typed a Hty q s1 Hs1) as (_ & _ & A1).
    rewrite A0, A1. destruct (reads a buf Hup Hty p s0 Hs0) as (R0 & _). destruct (reads a buf Hup Hty q s1 Hs1) as (R1 & _).
    rewrite R0, R1. rewrite (proj2 Hs0), (proj2 Hs1). cbn [mbind res_bind].
    change (Z.land (tag s0) 12 =? 4) with (is_fan s0). change (Z.land (tag s0) 12 =? 8) with (is_rep s0).
    change (Z.land (tag s1) 12 =? 4) with (is_fan s1). change (Z.land (tag s1) 12 =? 8) with (is_rep s1).
    destruct Hk0 as [F0|(P0 & L0 & E0 & Q0)], Hk1 as [F1|(P1 & L1 & E1 & Q1)].
    + rewrite F0, F1, (fan_not_rep s0 F0). cbn [andb]. apply Hret. by apply (fan_fan_agrees a) with (s2 := s1).
    + rewrite F0, P1, (rep_not_fan s1 P1), (fan_not_rep s0 F0). cbn [andb orb select]. apply Hret.
      unfold fan_rep_par. rewrite E1, Q1, !guarded_off by (by apply local_live_rep). by apply (fan_rep_agrees a) with (fan := s0) (rep := s1).
    + rewrite F1, P0, (rep_not_fan s0 P0), (fan_not_rep s1 F1). cbn [andb orb select]. apply Hret.
      unfold fan_rep_par. rewrite E0, Q0, !guarded_off by (by apply local_live_rep). by apply (fan_rep_agrees a) with (fan := s1) (rep := s0).
    + rewrite P0, P1, (rep_not_fan s0 P0), (rep_not_fan s1 P1). cbn [andb orb].
      unfold rep_rep_par. rewrite E0, Q0, !guarded_off by (by rewrite !local_live_rep). rewrite ?A0, ?A1. cbn [mbind res_bind].
      pose proof (rep_rep_agrees a buf m0 ob base t lo Hup Hty Hob Hbase Hlo Hdeep Ht p q s0 s1 Hs0 Hs1 L0 L1) as H.
      change (_ && _ && _) with (same_label s0 s1). destruct (same_label s0 s1); cbn [negb]; [by apply Hret|done].
Qed.
End Sim.
End Pairs.

(** ** A dispatch *)

Definition triple (ap : ActivePair) : PortId * PortId * LOPath := (p0 ap, p1 ap, pair_lo ap).

Section Dispatch.
Context {C : CRules} (a : Arena) (batch : list ActivePair) (pairs_buf buf : Mem) (base0 : Z).
Context (Hpairs : uploaded (concat (pair_words <$> (triple <$> batch))) pairs_buf) (Hup : uploaded (encode_gpu a) buf).
Context (Hty : Forall slot_typed (slots a)) (Hready : Forall (pair_ready a) batch).
Context (Hsmall : Z.of_nat (length batch) <= 65536) (Hbase : 0 <= base0 /\ base0 + 4 * Z.of_nat (length batch) <= 2 ^ 28).

Let params := mk_params base0 (Z.of_nat (length batch)).
Let main := rewrite_main pairs_buf buf params.

Lemma read_pair i ap : batch !! i = Some ap ->
  read_p0 pairs_buf (Z.of_nat i) = p0 ap /\ read_p1 pairs_buf (Z.of_nat i) = p1 ap
  /\ read_lo pairs_buf (Z.of_nat i) = lo4_of (pair_lo ap).
Proof.
  intros Hi. pose proof (lookup_lt_Some _ _ _ Hi) as Hlt.
  assert (forall k w, pair_words (triple ap) !! Z.to_nat k = Some w -> 0 <= k < 8 -> pairs_buf (as_u32 (Z.of_nat i * 8 + k)) = w) as Hrd.
  { intros k w Hk Hk8. rewrite as_u32_small by (unfold u32_range; lia).
    replace (Z.of_nat i * 8 + k) with (Z.of_nat (i * 8 + Z.to_nat k)) by lia. apply Hpairs.
    rewrite (lookup_concat_width pair_words 8 _ i (Z.to_nat k) (triple ap)); [done|done| |lia]. by rewrite list_lookup_fmap, Hi. }
  unfold read_p0, read_p1, read_lo. rewrite <- (Z.add_0_r (Z.of_nat i * 8)) at 1. unfold lo4_of, gpu_bits.
  rewrite (Hrd 0 (p0 ap) eq_refl), (Hrd 1 (p1 ap) eq_refl), (Hrd 2 _ eq_refl), (Hrd 3 _ eq_refl), (Hrd 4 _ eq_refl),
    (Hrd 5 _ eq_refl), (Hrd 6 _ eq_refl) by lia. done.
Qed.

Definition ran (m : Mem) (i : nat) (o : WorkerOutput) (t : Thread) : Prop :=
  holds m (Z.of_nat i * 96) t o /\ (link_direct o = None \/ connects o = []).

(** One thread, whatever the output buffer held. *)
Lemma thread_agrees i ap m : batch !! i = Some ap ->
  exists o t, shader_worker a ap (base0 + 4 * Z.of_nat i) = checked o /\ ran m i o t
    /\ main (Z.of_nat i) m = out_buf (finish (Z.of_nat i * 96) t).
Proof.
  intros Hi. pose proof (lookup_lt_Some _ _ _ Hi) as Hlt. destruct (read_pair i ap Hi) as (R0 & R1 & R2).
  unfold main, rewrite_main. cbn [n_pairs base_slot params]. destruct (Z.leb_spec (Z.of_nat (length batch)) (Z.of_nat i)); [lia|].
  unfold OUT_STRIDE, MAX_NA.
  assert (as_u32 (Z.of_nat i * 96) = Z.of_nat i * 96) as -> by (apply as_u32_small; unfold u32_range; lia).
  assert (as_u32 (Z.of_nat i * 4) = Z.of_nat i * 4) as -> by (apply as_u32_small; unfold u32_range; lia).
  assert (as_u32 (base0 + Z.of_nat i * 4) = base0 + 4 * Z.of_nat i) as -> by (rewrite as_u32_small; [lia|unfold u32_range; lia]).
  rewrite R0, R1, R2. assert (0 <= Z.of_nat i * 96 /\ Z.of_nat i * 96 + 96 < 2 ^ 32) as Hob by lia.
  destruct (fire_agrees a buf m (Z.of_nat i * 96) (base0 + 4 * Z.of_nat i) _ Hup Hty Hob ltac:(lia) (holds_start _ Hob m) ap)
    as (o & Ho & Hl & Hh); [by eapply Forall_lookup_1|].
  exists o. eexists. split; [exact Ho|]. split; [split; [exact Hh|exact Hl]|]. done.
Qed.

Lemma finish_frame ob t k : 0 <= ob /\ ob + 96 < 2 ^ 32 -> ~ ob <= k < ob + 96 -> out_buf (finish ob t) k = out_buf t k.
Proof. intros Hob Hk. unfold finish. mem. Qed.

Lemma main_cases i m : 0 <= i ->
  (main i m = m /\ Z.of_nat (length batch) <= i) \/ exists ap, batch !! Z.to_nat i = Some ap.
Proof.
  intros Hi. destruct (Z.leb_spec (Z.of_nat (length batch)) i) as [Hle|Hlt].
  - left. split; [|done]. unfold main, rewrite_main. cbn [n_pairs params]. by destruct (Z.leb_spec (Z.of_nat (length batch)) i); [|lia].
  - right. destruct (lookup_lt_is_Some_2 batch (Z.to_nat i)) as [ap Hap]; [lia|by exists ap].
Qed.

(** A thread writes to its own region, and only words. *)
Lemma main_frame i m k : 0 <= i -> ~ i * 96 <= k < i * 96 + 96 -> main i m k = m k.
Proof.
  intros Hi Hk. destruct (main_cases i m Hi) as [[-> _]|[ap Hap]]; [done|].
  destruct (thread_agrees (Z.to_nat i) ap m Hap) as (o & t & _ & [Hh _] & Hm). pose proof (lookup_lt_Some _ _ _ Hap).
  rewrite Z2Nat.id in Hm, Hh by done. rewrite Hm, finish_frame by lia. by apply (h_frame _ _ _ _ Hh).
Qed.

Lemma main_u32 i m : 0 <= i -> (forall k, u32_range (m k)) -> forall k, u32_range (main i m k).
Proof.
  intros Hi Hu. destruct (main_cases i m Hi) as [[-> _]|[ap Hap]]; [done|].
  destruct (thread_agrees (Z.to_nat i) ap m Hap) as (o & t & _ & [Hh _] & Hm). rewrite Z2Nat.id in Hm by done. rewrite Hm.
  unfold finish. repeat apply store_u32. by apply (h_u32 _ _ _ _ Hh).
Qed.

Definition dispatch (order : list Z) (m : Mem) : Mem := foldl (fun m i => main i m) m order.

Lemma dispatch_frame order m k : Forall (fun i => 0 <= i /\ ~ i * 96 <= k < i * 96 + 96) order -> dispatch order m k = m k.
Proof.
  intros H. revert m. induction H as [|i order [Hi Hk] H IH]; intros m; [done|]. cbn [dispatch foldl].
  change (foldl _ _ _) with (dispatch order (main i m)). rewrite IH. by apply main_frame.
Qed.

Lemma dispatch_u32 order m : Forall (fun i => 0 <= i) order -> (forall k, u32_range (m k)) -> forall k, u32_range (dispatch order m k).
Proof.
  intros H. revert m. induction H as [|i order Hi H IH]; intros m Hu; [done|]. cbn [dispatch foldl].
  change (foldl _ _ _) with (dispatch order (main i m)). apply IH. by apply main_u32.
Qed.

(** The threads may run in any order. *)
Lemma dispatch_region order m i ap : NoDup order -> Forall (fun i => 0 <= i) order -> Z.of_nat i ∈ order -> batch !! i = Some ap ->
  exists o t m', shader_worker a ap (base0 + 4 * Z.of_nat i) = checked o /\ ran m' i o t
    /\ forall k, (k < 96)%nat -> dispatch order m (Z.of_nat i * 96 + Z.of_nat k) = out_buf (finish (Z.of_nat i * 96) t) (Z.of_nat i * 96 + Z.of_nat k).
Proof.
  intros Hnd Hpos Hin Hap. apply list_elem_of_split in Hin as (l1 & l2 & ->).
  apply NoDup_app in Hnd as (_ & _ & Hnd). apply NoDup_cons in Hnd as [Hni _].
  apply Forall_app in Hpos as [_ Hpos]. apply Forall_cons in Hpos as [_ Hpos].
  destruct (thread_agrees i ap (dispatch l1 m) Hap) as (o & t & Ho & Hr & Hm). exists o, t, (dispatch l1 m).
  split; [done|]. split; [done|]. intros k Hk. unfold dispatch at 1. rewrite foldl_app. cbn [foldl].
  change (foldl _ m l1) with (dispatch l1 m). change (foldl _ ?x l2) with (dispatch l2 x). rewrite dispatch_frame; [by rewrite Hm|].
  rewrite Forall_forall in Hpos |- *. intros j Hj. split; [by apply Hpos|]. specialize (Hpos j Hj).
  intros Hjk. apply Hni. by replace (Z.of_nat i) with j by lia.
Qed.
End Dispatch.

(** ** The host's side *)

Lemma words_length ws : length (words_to_bytes ws) = (length ws * 4)%nat.
Proof. unfold words_to_bytes. apply concat_width_length. intros x. apply le_bytes_length. Qed.

Lemma bytes_words ws : bytes_to_words (words_to_bytes ws) = as_u32 <$> ws.
Proof.
  induction ws as [|w ws IH]; [done|]. unfold words_to_bytes in *. rewrite !fmap_cons. cbn [concat u32_le le_bytes app bytes_to_words].
  rewrite IH. f_equal. exact (le_val_bytes 4 w).
Qed.

Lemma words_u32 ws : Forall u32_range ws -> as_u32 <$> ws = ws.
Proof. induction 1 as [|w ws Hw H IH]; [done|]. rewrite fmap_cons, IH. by rewrite as_u32_small. Qed.

Lemma pairs_bytes pairs : encode_pairs pairs = words_to_bytes (concat (pair_words <$> pairs)).
Proof.
  unfold encode_pairs, words_to_bytes. induction pairs as [|p pairs IH]; [done|]. rewrite !fmap_cons. cbn [concat].
  by rewrite fmap_app, concat_app, <- IH.
Qed.

Lemma lor_u32 b x w : 0 <= w -> 0 <= b < 2 ^ w -> 0 <= x -> 2 ^ w * x + b < 2 ^ 32 -> u32_range (Z.lor b (Z.shiftl x w)).
Proof.
  intros Hw Hb Hx Hl. rewrite Z.lor_comm, Z.shiftl_mul_pow2, Z.mul_comm, lor_disjoint by lia. unfold u32_range. lia.
Qed.

Lemma slot_words_u32 s : slot_typed s -> Forall u32_range (slot_words s).
Proof.
  intros [H1 H2 H3 H4 H5 H6 H7 H8 H9 H10]. unfold slot_words. rewrite !shifted_u16 by (done || apply as_u16_range).
  pose proof (as_u16_range (delta0 s)) as D0. pose proof (as_u16_range (delta1 s)) as D1.
  unfold u8_range, u16_range in *. repeat constructor; try apply H3; try apply H4; try apply H5; try apply H6; try (unfold u32_range; lia).
  all: apply lor_u32; lia.
Qed.

Lemma encode_u32 a : Forall slot_typed (slots a) -> Forall u32_range (encode_gpu a).
Proof.
  unfold encode_gpu. induction 1 as [|s l Hs H IH]; [done|]. rewrite fmap_cons. cbn [concat]. apply Forall_app.
  split; [by apply slot_words_u32|done].
Qed.

Lemma pair_words_u32 p : u32_range p.1.1 -> u32_range p.1.2 -> lopath_wf p.2 -> Forall u32_range (pair_words p).
Proof.
  intros H1 H2 Hw. pose proof (wf_len p.2 Hw). unfold pair_words, gpu_bits.
  repeat constructor; try apply H1; try apply H2; try apply as_u32_range; unfold u32_range; lia.
Qed.

(** What is assumed of a device: an upload that fits its buffer fills its
    first words, little-endian; every invocation of the workgroups runs once,
    in some order; and the bytes read back are those of the output buffer. *)
Definition runs_shader (launch : Launch) : Prop :=
  forall pair_bytes arena_bytes base n groups out_len,
  Z.of_nat (length pair_bytes) <= MAX_BATCH * 32 -> Z.of_nat (length arena_bytes) <= MAX_ARENA -> u32_range base -> u32_range n ->
  exists pairs_buf arena_buf out0 order,
    uploaded (bytes_to_words pair_bytes) pairs_buf /\ uploaded (bytes_to_words arena_bytes) arena_buf
    /\ (forall k, u32_range (out0 k)) /\ order ≡ₚ seqZ 0 (groups * 128)
    /\ launch pair_bytes arena_bytes (words_to_bytes [base; n; 0; 0]) groups out_len
       = Some (words_to_bytes (foldl (fun m i => rewrite_main pairs_buf arena_buf (mk_params base n) i m) out0 order <$> seqZ 0 (out_len / 4))).

Lemma mapMr_ext {E A B D : Type} (f : A -> res E D) (g : B -> res E D) l l' :
  Forall2 (fun x y => f x = g y) l l' -> mapMr f l = mapMr g l'.
Proof. induction 1 as [|x y l l' Hxy H IH]; [done|]. cbn [mapMr]. by rewrite Hxy, IH. Qed.

Definition bases_of (base0 : Z) (k : nat) : list Z := (fun i => base0 + 4 * Z.of_nat i) <$> seq 0 k.

Record batch_ready {C : CRules} (a : Arena) (batch : list ActivePair) : Prop := mk_batch_ready {
  br_pairs : Forall (pair_ready a) batch;
  br_slots : Forall slot_typed (slots a);
  br_size : Z.of_nat (length batch) <= MAX_BATCH;
  br_arena : 32 * Z.of_nat (length (slots a)) <= MAX_ARENA
}.

Section Host.
Context {C : CRules} (launch : Launch) (Hdev : runs_shader launch).

(** A batch on the device is the batch of the workers, up to the paths of
    the commutations of replicators. *)
Theorem gpu_batch (a : Arena) (batch : list ActivePair) (base0 : Z) : batch_ready a batch ->
  0 <= base0 /\ base0 + 4 * Z.of_nat (length batch) <= 2 ^ 28 ->
  run_gpu_batch launch (triple <$> batch) (encode_gpu a) (bases_of base0 (length batch))
  = mapMr (fun pb => shader_worker a pb.1 pb.2) (zip batch (bases_of base0 (length batch))).
Proof.
  intros [Hp Hty Hn Ha] Hb. unfold run_gpu_batch. rewrite length_fmap.
  assert (as_u32 (Z.of_nat (length batch)) = Z.of_nat (length batch)) as ->.
  { apply as_u32_small. unfold MAX_BATCH in Hn. unfold u32_range. lia. }
  destruct (Z.eqb_spec (Z.of_nat (length batch)) 0) as [H0|H0].
  { assert (length batch = 0%nat) as Hl by lia. destruct batch; [done|discriminate Hl]. }
  assert (index (E := DnxError) (bases_of base0 (length batch)) 0 = Ok base0) as ->.
  { apply index_Ok. unfold bases_of. rewrite list_lookup_fmap, lookup_seq_lt by lia. cbn. f_equal. lia. }
  cbn [mbind res_bind]. rewrite pairs_bytes.
  assert (Z.of_nat (length (words_to_bytes (concat (pair_words <$> (triple <$> batch))))) <= MAX_BATCH * 32) as Hpl.
  { rewrite words_length, (concat_width_length _ 8) by done. rewrite length_fmap. lia. }
  assert (Z.of_nat (length (words_to_bytes (encode_gpu a))) <= MAX_ARENA) as Hal.
  { rewrite words_length. unfold encode_gpu. rewrite (concat_width_length _ 8) by done. lia. }
  destruct (Z.ltb_spec (MAX_BATCH * 32) (Z.of_nat (length (words_to_bytes (concat (pair_words <$> (triple <$> batch))))))); [lia|].
  destruct (Z.ltb_spec MAX_ARENA (Z.of_nat (length (words_to_bytes (encode_gpu a))))); [lia|]. cbn [orb].
  destruct (Hdev (words_to_bytes (concat (pair_words <$> (triple <$> batch)))) (words_to_bytes (encode_gpu a)) base0
    (Z.of_nat (length batch)) (div_ceil (Z.of_nat (length batch)) 128) (Z.of_nat (length batch) * OUT_STRIDE_BYTES) Hpl Hal)
    as (pairs_buf & buf & out0 & order & Hup1 & Hup2 & Hu & Hperm & ->); [unfold u32_range; lia|unfold MAX_BATCH in Hn; unfold u32_range; lia|].
  cbn [ok_or mbind res_bind]. rewrite !bytes_words in *. rewrite words_u32 in Hup2 by (by apply encode_u32).
  rewrite words_u32 in Hup1.
  2: { apply Forall_concat, Forall_fmap, Forall_fmap. eapply Forall_impl; [exact Hp|]. intros ap [P0 P1 _ _ Pw _]. by apply pair_words_u32. }
  assert (Forall (fun i => 0 <= i) order) as Hpos.
  { rewrite Hperm. apply Forall_forall. intros i Hi. apply elem_of_seqZ in Hi. lia. }
  fold (dispatch batch pairs_buf buf base0 order out0).
  rewrite words_u32.
  2: { apply Forall_fmap, Forall_forall. intros k _. cbn. apply (dispatch_u32 a); try done. }
  rewrite Nat2Z.id. apply mapMr_ext. apply Forall2_same_length_lookup. unfold bases_of. rewrite length_zip, length_fmap, !length_seq.
  split; [lia|]. intros i j [ap b] Hi Hz. apply lookup_seq in Hi as [-> Hi]. cbn [fst snd Nat.add] in *.
  apply lookup_zip_Some in Hz as [Hap Hb']. rewrite list_lookup_fmap, lookup_seq_lt in Hb' by lia. injection Hb' as <-.
  assert (index (E := DnxError) ((fun i => base0 + 4 * Z.of_nat i) <$> seq 0 (length batch)) i = Ok (base0 + 4 * Z.of_nat i)) as ->.
  { apply index_Ok. by rewrite list_lookup_fmap, lookup_seq_lt by lia. }
  cbn [mbind res_bind].
  destruct (dispatch_region a batch pairs_buf buf base0 Hup1 Hup2 Hty Hp Hn Hb order out0 i ap) as (o & t & m & -> & [Hh _] & Hreg);
    [rewrite Hperm; apply NoDup_seqZ|done| |done|].
  { rewrite Hperm. apply elem_of_seqZ. unfold div_ceil. pose proof (Z.div_mod (Z.of_nat (length batch) + 128 - 1) 128 ltac:(lia)) as Hd.
    pose proof (Z.mod_pos_bound (Z.of_nat (length batch) + 128 - 1) 128 ltac:(lia)). lia. }
  unfold MAX_BATCH in Hn. apply (parse_holds m (Z.of_nat i * 96) t o); [lia|done|]. intros k Hk.
  assert (Z.of_nat (length batch) * OUT_STRIDE_BYTES / 4 = Z.of_nat (length batch) * 96) as ->
    by (unfold OUT_STRIDE_BYTES; rewrite Z.mul_assoc; by apply Z.div_mul).
  rewrite list_lookup_fmap, lookup_seqZ_lt by lia. cbn [fmap option_fmap option_map]. rewrite <- Hreg by done. f_equal. f_equal. lia.
Qed.
End Host.

(** ** Rounds *)

Section Rounds.
Context {C : CRules}.

(** A round whose pairs the shader fires as the workers do, none of them refused. *)
Record round_ready (a : Arena) (batch : list ActivePair) (bases : list Z) : Prop := mk_round_ready {
  rr_batch : batch_ready a batch;
  rr_labels : Forall (fun ap => unequal_reps a (p0 ap) (p1 ap) = false) batch;
  rr_fires : forallb is_ok (zip_with (worker a) batch bases) = true
}.

(** Every round of the batch reducer is of that kind. *)
Fixpoint gpu_ready (fuel : nat) (n : Net) (st : ReduceStats) : Prop :=
  match fuel with
  | O => True
  | S fuel =>
      frontier1 n = [] \/
      (forall bases n1, reserve_all (set_frontier1 [] n) (length (frontier1 n)) = Ok (bases, n1) ->
         round_ready (arena n1) (snd <$> frontier1 n) bases)
      /\ (forall n2 st2, run_batch n st = Ok (n2, st2) -> gpu_ready fuel n2 st2)
  end.

Lemma reserve_all_bases n k bases n1 : reserve_all n k = Ok (bases, n1) ->
  bases = bases_of (Z.of_nat (length (slots (arena n)))) k /\ length (slots (arena n1)) = (length (slots (arena n)) + 4 * k)%nat.
Proof.
  unfold reserve_all. revert bases n1. induction k as [|k IH]; intros bases n1 H.
  - cbn in H. injection H as <- <-. split; [done|lia].
  - rewrite seq_S, foldM_app in H. cbn [foldM Nat.add] in H. apply bind_Ok in H as ([bs m] & Hm & H).
    apply IH in Hm as [-> Hl]. cbn [fst snd] in H. unfold reserve in H.
    destruct (checked_add_u32 _ _); cbn [ok_or mbind res_bind] in H; [|done]. case_in H; cbn [mbind res_bind] in H; [done|]. simplify_eq/=. unfold bases_of. rewrite seq_S, fmap_app. cbn [fmap list_fmap Nat.add].
    rewrite length_app, Hl. split; [|cbn; lia]. f_equal. f_equal. lia.
Qed.

Lemma worker_output a ap base : Forall slot_typed (slots a) -> pair_ready a ap -> unequal_reps a (p0 ap) (p1 ap) = false ->
  0 <= base /\ base + 4 <= 2 ^ 28 -> is_ok (worker a ap base) = true ->
  exists o, worker a ap base = Ok o /\ slot_muts o = [] /\ (link_direct o = None \/ connects o = []).
Proof.
  intros Hty Hr Hu Hb Hok. set (buf := fun k => default 0 (encode_gpu a !! Z.to_nat k)).
  assert (uploaded (encode_gpu a) buf) as Hup by (intros i w Hi; unfold buf; by rewrite Nat2Z.id, Hi).
  destruct (fire_agrees a buf (fun _ => 0) 0 base _ Hup Hty ltac:(lia) Hb (holds_start 0 ltac:(lia) (fun _ => 0)) ap Hr) as (o & Ho & Hl & Hh).
  unfold shader_worker in Ho. rewrite Hu in Ho. destruct (worker a ap base) as [o'| | |]; try done. cbn [mbind res_bind] in Ho.
  unfold checked in Ho. destruct (existsb _ _); [done|]. injection Ho as ->. exists o. split; [done|]. split; [by apply (h_muts _ _ _ _ Hh)|done].
Qed.

Lemma commit_same st b o : slot_muts o = [] -> (link_direct o = None \/ connects o = []) ->
  gpu_commit st (b, o) = commit_output st (b, Ok o).
Proof.
  intros Hm Hl. unfold gpu_commit, commit_output. cbn [fst snd mbind res_bind].
  replace (mk_out (new_agents o) (retired o) [] (connects o) (set_erasers o) (link_direct o)) with o by (destruct o; cbn in *; by subst).
  destruct (apply_output st.1 o b); cbn [mbind res_bind]; [|done..]. f_equal. f_equal. f_equal. unfold gpu_is_r4, is_r4.
  destruct (length (retired o) =? 2)%nat, (length (new_agents o) =? 0)%nat, (length (set_erasers o) =? 0)%nat; cbn [andb]; try done.
  destruct (link_direct o) as [[]|]; destruct Hl as [Hl|Hl]; try done; try rewrite Hl; cbn; by rewrite ?andb_true_r, ?andb_false_r, ?orb_false_r.
Qed.

(** The outputs of a round, for the host and for the workers. *)
Lemma round_outputs a batch base0 : round_ready a batch (bases_of base0 (length batch)) ->
  0 <= base0 /\ base0 + 4 * Z.of_nat (length batch) <= 2 ^ 28 ->
  exists os, mapMr (fun pb => shader_worker a pb.1 pb.2) (zip batch (bases_of base0 (length batch))) = Ok os
    /\ zip_with (worker a) batch (bases_of base0 (length batch)) = Ok <$> os /\ length os = length batch
    /\ Forall (fun o => slot_muts o = [] /\ (link_direct o = None \/ connects o = [])) os.
Proof.
  intros [[Hp Hty _ _] Hu Hok] Hb.
  assert (forall b, b ∈ bases_of base0 (length batch) -> 0 <= b /\ b + 4 <= 2 ^ 28) as Hbs.
  { intros b Hin. unfold bases_of in Hin. apply list_elem_of_fmap in Hin as (i & -> & Hi). apply elem_of_seq in Hi. lia. }
  assert (length (bases_of base0 (length batch)) = length batch) as Hl by (unfold bases_of; by rewrite length_fmap, length_seq).
  revert Hbs Hl Hok. generalize (bases_of base0 (length batch)). clear Hb base0.
  induction batch as [|ap batch IH]; intros [|b bases] Hbs Hl Hok; try done.
  - exists []. by repeat split.
  - apply Forall_cons in Hp as [Hp1 Hp2]. apply Forall_cons in Hu as [Hu1 Hu2]. cbn [zip_with forallb] in Hok. apply andb_true_iff in Hok as [Ho1 Ho2].
    destruct (worker_output a ap b Hty Hp1 Hu1) as (o & Ho & Hm); [apply Hbs; set_solver|done|].
    destruct (IH Hp2 Hu2 bases) as (os & H1 & H2 & H3 & H4); [intros x Hx; apply Hbs; set_solver|by injection Hl|done|].
    exists (o :: os). cbn [zip_with mapMr fst snd].
    assert (shader_worker a ap b = Ok o) as -> by (unfold shader_worker; by rewrite Ho, Hu1).
    cbn [mbind res_bind]. rewrite H1, H2, Ho. cbn. rewrite H3.
    split_and!; try done. by constructor.
Qed.

Lemma install_ok os : install (Ok <$> os) = Ok (Ok <$> os).
Proof. unfold install. replace (existsb _ _) with false; [done|]. symmetry. induction os as [|o os IH]; [done|]. by rewrite fmap_cons. Qed.

Lemma commits_same bases os : Forall (fun o => slot_muts o = [] /\ (link_direct o = None \/ connects o = [])) os ->
  forall st, foldM gpu_commit (zip bases os) st = foldM commit_output (zip bases (Ok <$> os)) st.
Proof.
  intros Ho. revert bases. induction Ho as [|o os [Hm Hl] Ho IH]; intros [|b bases] st; try done.
  cbn [zip_with foldM fmap list_fmap]. rewrite commit_same by done. by destruct (commit_output st (b, Ok o)); cbn [mbind res_bind].
Qed.

Context (launch : Launch) (Hdev : runs_shader launch).

(** One round on the device is a round of the batch reducer. *)
Lemma gpu_round n bases n1 st : reserve_all (set_frontier1 [] n) (length (frontier1 n)) = Ok (bases, n1) ->
  round_ready (arena n1) (snd <$> frontier1 n) bases ->
  (outs ← run_gpu_batch launch ((fun kp => (p0 kp.2, p1 kp.2, pair_lo kp.2)) <$> frontier1 n) (encode_gpu (arena n1)) bases;
   if (length bases <? length outs)%nat then _ ← foldM gpu_commit (zip bases outs) (n1, st); Panic
   else foldM gpu_commit (zip bases outs) (n1, st))
  = (outs ← install (zip_with (fun ap base => worker (arena n1) ap base) (snd <$> frontier1 n) bases);
     foldM commit_output (zip bases outs) (n1, st)).
Proof.
  intros Hres Hr. destruct (reserve_all_bases _ _ _ _ Hres) as [-> Hlen]. cbn [arena set_frontier1] in *.
  set (batch := snd <$> frontier1 n) in *. set (b0 := Z.of_nat (length (slots (arena n)))) in *.
  assert (length (frontier1 n) = length batch) as Hl by (subst batch; by rewrite length_fmap). rewrite Hl in *.
  assert (0 <= b0 /\ b0 + 4 * Z.of_nat (length batch) <= 2 ^ 28) as Hb.
  { destruct Hr as [[_ _ _ Ha] _ _]. change MAX_ARENA with 4194304 in Ha. lia. }
  replace ((fun kp => (p0 kp.2, p1 kp.2, pair_lo kp.2)) <$> frontier1 n) with (triple <$> batch)
    by (subst batch; by rewrite <- list_fmap_compose).
  rewrite (gpu_batch launch Hdev) by (apply Hr || done).
  destruct (round_outputs _ _ _ Hr Hb) as (os & -> & H2 & H3 & H4). cbn [mbind res_bind].
  change (fun ap base => worker (arena n1) ap base) with (worker (arena n1)). rewrite H2, install_ok. cbn [mbind res_bind].
  assert (length (bases_of b0 (length batch)) = length batch) as -> by (unfold bases_of; by rewrite length_fmap, length_seq).
  rewrite H3, Nat.ltb_irrefl. by apply commits_same.
Qed.

Lemma gpu_rounds fuel : forall n st, gpu_ready fuel n st -> gpu_batches (run_gpu_batch launch) fuel n st = drain_batches fuel n st.
Proof.
  induction fuel as [|fuel IH]; intros n st Hr; [done|]. cbn [gpu_batches drain_batches].
  destruct (frontier1 n) as [|e f] eqn:Hf; [done|]. cbn [gpu_ready] in Hr. rewrite Hf in Hr. destruct Hr as [Hr|[H1 H2]]; [done|].
  unfold run_batch in *. rewrite Hf in *. rewrite length_fmap in *.
  destruct (reserve_all (set_frontier1 [] n) (length (e :: f))) as [[bases n1]|err| |] eqn:Hres; cbn [mbind res_bind] in *; try done.
  pose proof (gpu_round n bases n1 st) as Hround. rewrite Hf in Hround. specialize (Hround Hres (H1 _ _ eq_refl)).
  destruct (run_gpu_batch launch _ _ _) as [outs|e1| |] eqn:Ho; cbn [mbind res_bind] in Hround |- *.
  - rewrite Hround. destruct (outs ← install _; _) as [[n2 st2]|e2| |] eqn:Hb; cbn [mbind res_bind]; try done. apply IH. by apply H2.
  - rewrite <- Hround. done.
  - rewrite <- Hround. done.
  - rewrite <- Hround. done.
Qed.
End Rounds.

(** ** The amortized mode ends *)

(** The buffers of a device whose threads run one after the other. *)
Record AmBuffers : Type := mk_bufs { b_arena : Mem; b_a : Mem; b_b : Mem; b_counters : Z * Z * Z }.

Definition upload (bs : list byte) (m : Mem) : Mem :=
  fun k => if k <? 0 then m k else default (m k) (bytes_to_words bs !! Z.to_nat k).

Definition put_arena (bs : list byte) (d : AmBuffers) : AmBuffers := mk_bufs (upload bs (b_arena d)) (b_a d) (b_b d) (b_counters d).
Definition put_frontier (bs : list byte) (d : AmBuffers) : AmBuffers := mk_bufs (b_arena d) (upload bs (b_a d)) (b_b d) (b_counters d).
Definition put_counters (bs : list byte) (d : AmBuffers) : AmBuffers :=
  match bytes_to_words bs with
  | n :: out :: fired :: _ => mk_bufs (b_arena d) (b_a d) (b_b d) (n, out, fired)
  | _ => d
  end.

Definition threads_in_order (frontier_in : Mem) (n groups : Z) (st : AmState) : AmState :=
  foldl (fun st i => rewrite_am_main frontier_in n i st) st (seqZ 0 (groups * 128)).

Definition am_pass (ping : bool) (groups : Z) (d : AmBuffers) : AmBuffers :=
  let '(n, out, fired) := b_counters d in
  let st := threads_in_order (if ping then b_a d else b_b d) n groups (mk_am (b_arena d) (if ping then b_b d else b_a d) out fired) in
  mk_bufs (arena_am st) (if ping then b_a d else frontier_out st) (if ping then frontier_out st else b_b d)
    (n, out_count st, fired_count st).

Definition get_counters (d : AmBuffers) : option (list byte) :=
  let '(n, out, fired) := b_counters d in Some (words_to_bytes [n; out; fired; 0]).

(** The slots of the arena that are not marked as retired. *)
Definition unretired (m : Mem) : nat := length (filter (fun i => am_slot_tag m i <> 255) (seqZ 0 (2 ^ 28))).

Definition calmer (m m' : Mem) : Prop :=
  forall i, idx_range i -> am_slot_tag m' i = 255 \/ am_slot_tag m' i = am_slot_tag m i.

Lemma filter_fewer {A : Type} (P Q : A -> Prop) `{!forall x, Decision (P x), !forall x, Decision (Q x)} l :
  (forall x, x ∈ l -> Q x -> P x) -> (length (filter Q l) <= length (filter P l))%nat
  /\ forall y, y ∈ l -> P y -> ~ Q y -> (length (filter Q l) < length (filter P l))%nat.
Proof.
  induction l as [|x l IH]; intros HPQ; [split; [done|]; intros y Hy; by apply not_elem_of_nil in Hy|].
  destruct IH as [I1 I2]; [intros z Hz; apply HPQ; set_solver|]. rewrite !filter_cons.
  pose proof (HPQ x ltac:(set_solver)) as Hx. split.
  - destruct (decide (Q x)), (decide (P x)); cbn [length]; try lia. exfalso; auto.
  - intros y Hy Py Qy. apply elem_of_cons in Hy as [->|Hy].
    + destruct (decide (Q x)), (decide (P x)); cbn [length]; try lia; done.
    + specialize (I2 y Hy Py Qy). destruct (decide (Q x)), (decide (P x)); cbn [length]; try lia. exfalso; auto.
Qed.

Lemma calmer_fewer m m' : calmer m m' -> (unretired m' <= unretired m)%nat
  /\ forall i, idx_range i -> am_slot_tag m i <> 255 -> am_slot_tag m' i = 255 -> (unretired m' < unretired m)%nat.
Proof.
  intros Hc. unfold unretired.
  destruct (filter_fewer (fun i => am_slot_tag m i <> 255) (fun i => am_slot_tag m' i <> 255) (seqZ 0 (2 ^ 28))) as [H1 H2].
  { intros i Hi Hq. apply elem_of_seqZ in Hi. destruct (Hc i) as [H|H]; [unfold idx_range; lia|done|by rewrite <- H]. }
  split; [done|]. intros i Hi Hp Hq. apply (H2 i); [apply elem_of_seqZ; unfold idx_range in Hi; lia|done|by intros []].
Qed.

#[local] Opaque unretired.

Lemma tag_address i : idx_range i -> as_u32 (i * 8) = i * 8.
Proof. unfold idx_range. intros Hi. apply as_u32_small. unfold u32_range. lia. Qed.

Lemma wrapped_mod x r : 0 <= r < 8 -> as_u32 (x * 8 + r) mod 8 = r.
Proof.
  intros Hr. unfold as_u32, wrap. change (2 ^ 32) with (8 * 536870912). rewrite Z.rem_mul_r by lia.
  replace (((x * 8 + r) mod 8 + 8 * ((x * 8 + r) / 8 mod 536870912)) mod 8) with (((x * 8 + r) mod 8) mod 8)
    by (rewrite (Z.mul_comm 8 (_ mod _)), Z_mod_plus_full; done).
  rewrite Z.mod_mod by lia. rewrite Z.add_comm, Z_mod_plus_full. by apply Z.mod_small.
Qed.

(** A wire is not a tag. *)
Lemma write_port_tags p target m i : idx_range i -> am_slot_tag (am_write_port p target m) i = am_slot_tag m i.
Proof.
  intros Hi. unfold am_slot_tag. rewrite tag_address by done. f_equal. unfold am_write_port, store.
  assert (forall r, 0 < r < 8 -> (i * 8 =? as_u32 (port_slot_idx p * 8 + r)) = false) as Hne.
  { intros r Hr. apply Z.eqb_neq. intros He. pose proof (wrapped_mod (port_slot_idx p) r ltac:(lia)) as Hw. rewrite <- He in Hw.
    rewrite Z_mod_mult in Hw. lia. }
  destruct (am_port_kind p =? 0), (am_port_kind p =? 1); by rewrite Hne by lia.
Qed.

Lemma retire_tags s m i : idx_range i -> idx_range s ->
  am_slot_tag (am_retire s m) i = if i =? s then 255 else am_slot_tag m i.
Proof.
  intros Hi Hs. unfold am_slot_tag, am_retire, store. rewrite !tag_address by done.
  destruct (Z.eqb_spec i s) as [->|Hne].
  - rewrite Z.eqb_refl. change 255 with (2 ^ 8 - 1) at 1. rewrite land_pow2 by lia. unfold as_u32, wrap.
    rewrite <- (Znumtheory.Zmod_div_mod (2 ^ 8) (2 ^ 32)) by (try lia; by exists (2 ^ 24)). rewrite <- land_pow2 by lia.
    change (2 ^ 8 - 1) with 255. rewrite Z.land_lor_distr_l, <- Z.land_assoc. change (Z.land 4294967040 255) with 0. by rewrite Z.land_0_r.
  - destruct (Z.eqb_spec (i * 8) (s * 8)); [lia|done].
Qed.

Lemma emit_keeps a b st : arena_am (am_maybe_emit a b st) = arena_am st /\ fired_count (am_maybe_emit a b st) = fired_count st
  /\ ((forall k, u32_range (frontier_out st k)) -> forall k, u32_range (frontier_out (am_maybe_emit a b st) k)).
Proof.
  unfold am_maybe_emit. cbv zeta. repeat match goal with |- context [if ?c then _ else _] => destruct c; [done|] end.
  split; [done|]. split; [done|]. intros Hu. cbn [frontier_out foldl fst snd]. unfold store.
  intros k. repeat (match goal with |- u32_range (if ?c then _ else _) => destruct c; [apply as_u32_range|] end). apply Hu.
Qed.

(** A thread does nothing, or retires a slot and counts one interaction. *)
Lemma am_thread frontier_in n i st : (forall k, u32_range (frontier_in k)) -> (forall k, u32_range (frontier_out st k)) ->
  let st' := rewrite_am_main frontier_in n i st in
  (forall k, u32_range (frontier_out st' k)) /\
  (st' = st \/ (fired_count st' = as_u32 (fired_count st + 1) /\ (unretired (arena_am st') < unretired (arena_am st))%nat)).
Proof.
  intros Hin Hout. unfold rewrite_am_main. destruct (n <=? i); [by split; [|left]|].
  set (q0 := frontier_in _). set (q1 := frontier_in (as_u32 (i * 8 + 1))). cbv zeta.
  destruct (port_is_era q0 || port_is_era q1); [by split; [|left]|].
  destruct (tag_is_fan (am_slot_tag (arena_am st) (port_slot_idx q0))) eqn:F0; cbn [negb orb]; [|by split; [|left]].
  destruct (tag_is_fan (am_slot_tag (arena_am st) (port_slot_idx q1))) eqn:F1; cbn [negb]; [|by split; [|left]].
  assert (idx_range (port_slot_idx q0)) as R0 by apply slot_idx_range, Hin.
  assert (idx_range (port_slot_idx q1)) as R1 by apply slot_idx_range, Hin.
  assert (forall t, tag_is_fan t = true -> t <> 255) as Hfan by (intros t Ht ->; discriminate Ht).
  set (absi := port_slot_idx (select q1 q0 _)). set (appi := port_slot_idx (select q0 q1 _)).
  assert (idx_range absi /\ idx_range appi /\ am_slot_tag (arena_am st) absi <> 255) as (Ra & Rb & Ht).
  { subst absi appi. destruct (tag_fan_is_abs _); cbn [select]; split_and!; auto. }
  set (m := am_retire appi (am_retire absi (arena_am st))).
  assert (forall m', (forall j, idx_range j -> am_slot_tag m' j = am_slot_tag m j) -> (unretired m' < unretired (arena_am st))%nat) as Hfew.
  { intros m' Hm'. eapply (proj2 (calmer_fewer (arena_am st) m' _) absi Ra Ht). Unshelve.
    - rewrite Hm' by done. subst m. rewrite !retire_tags by done. rewrite Z.eqb_refl. by destruct (absi =? appi).
    - intros j Hj. rewrite Hm' by done. subst m. rewrite !retire_tags by done. destruct (j =? appi), (j =? absi); auto. }
  destruct (port_slot_idx (am_slot_aux0 (arena_am st) absi) =? absi).
  - edestruct emit_keeps as (E1 & E2 & E3). split; [apply E3; done|]. right. rewrite E1, E2. split; [done|]. apply Hfew.
    intros j Hj. cbn [arena_am am_set]. by rewrite !write_port_tags.
  - edestruct emit_keeps as (E1 & E2 & E3). edestruct emit_keeps as (G1 & G2 & G3).
    split; [apply E3, G3; done|]. right. rewrite E1, E2, G1, G2. split; [done|]. apply Hfew.
    intros j Hj. cbn [arena_am am_set]. by rewrite !write_port_tags.
Qed.

(** The threads of a pass together. *)
Lemma am_threads frontier_in n l : (forall k, u32_range (frontier_in k)) -> forall st, (forall k, u32_range (frontier_out st k)) ->
  0 <= fired_count st ->
  let st' := foldl (fun st i => rewrite_am_main frontier_in n i st) st l in
  (forall k, u32_range (frontier_out st' k)) /\ 0 <= fired_count st'
  /\ fired_count st' + Z.of_nat (unretired (arena_am st')) <= fired_count st + Z.of_nat (unretired (arena_am st))
  /\ (out_count st' = out_count st \/ (unretired (arena_am st') < unretired (arena_am st))%nat)
  /\ (unretired (arena_am st') <= unretired (arena_am st))%nat.
Proof.
  intros Hin. induction l as [|i l IH]; intros st Hout Hf; cbn [foldl]; [split_and!; auto; lia|].
  destruct (am_thread frontier_in n i st Hin Hout) as [Hout' Hcase]. set (st1 := rewrite_am_main frontier_in n i st) in *.
  assert (0 <= fired_count st1 /\ fired_count st1 + Z.of_nat (unretired (arena_am st1)) <= fired_count st + Z.of_nat (unretired (arena_am st))
    /\ (st1 = st \/ (unretired (arena_am st1) < unretired (arena_am st))%nat)) as (H1 & H2 & H3).
  { destruct Hcase as [->|[He Hl]]; [split_and!; auto; lia|]. rewrite He. pose proof (as_u32_range (fired_count st + 1)) as Hr. unfold u32_range in Hr.
    assert (as_u32 (fired_count st + 1) <= fired_count st + 1) by (apply Z.mod_le; lia). split_and!; [lia|lia|by right]. }
  destruct (IH st1 Hout' H1) as (G1 & G2 & G3 & G4 & G5). split_and!; [done|done|lia| |].
  - destruct H3 as [->|H3]; [done|]. right. lia.
  - destruct H3 as [->|H3]; [done|]. lia.
Qed.

(** * Theorems *)

(** C14: On a device that runs the shader, in whatever order it runs the
    threads, the GPU scheduler computes the same canonical net and statistics
    as the parallel scheduler, or the same error, as long as in every round the
    pairs are of fans and erasers on paths of depth at most 126 (or of
    replicators of one label, in a class without the merge rules) and the batch
    and the arena fit the buffers. *)
Theorem gpu_is_parallel {C : CRules} (launch : Launch) (fuel : nat) (n : Net) (threads pool : nat) : runs_shader launch ->
  gpu_ready fuel n stats_default ->
  sched_normalize (Scheduler := GpuScheduler (Some (Some launch))) fuel n
  = sched_normalize (Scheduler := ParallelScheduler threads pool) fuel n.
Proof.
  intros Hdev Hr. cbn [sched_normalize GpuScheduler ParallelScheduler]. unfold normalize_gpu_batched, normalize_parallel.
  by rewrite gpu_rounds.
Qed.

(** A device that runs the threads one after the other. *)
Definition emulated : Launch := fun pair_bytes arena_bytes param_bytes groups out_len =>
  let mem bs := fun k => default 0 (bytes_to_words bs !! Z.to_nat k) in
  match bytes_to_words param_bytes with
  | base :: n :: _ =>
      Some (words_to_bytes
        (foldl (fun m i => rewrite_main (mem pair_bytes) (mem arena_bytes) (mk_params base n) i m) (fun _ => 0) (seqZ 0 (groups * 128))
         <$> seqZ 0 (out_len / 4)))
  | _ => None
  end.

Lemma emulated_runs : runs_shader emulated.
Proof.
  intros pb ab base n groups len Hp Ha Hb Hn.
  set (mem bs := fun k => default 0 (bytes_to_words bs !! Z.to_nat k)).
  assert (forall bs, uploaded (bytes_to_words bs) (mem bs)) as Hup by (intros bs i w Hi; subst mem; cbn; by rewrite Nat2Z.id, Hi).
  exists (mem pb), (mem ab), (fun _ => 0), (seqZ 0 (groups * 128)). split; [done|]. split; [done|].
  split; [intros k; unfold u32_range; lia|]. split; [done|]. unfold emulated. rewrite bytes_words. cbn [fmap list_fmap].
  by rewrite !as_u32_small.
Qed.

Definition within (lo hi z : Z) : bool := (lo <=? z) && (z <? hi).
Definition slot_typedb (s : Slot) : bool :=
  within 0 (2 ^ 8) (tag s) && within 0 (2 ^ 8) (claim s) && within 0 (2 ^ 32) (generation s) && within 0 (2 ^ 32) (principal s)
  && within 0 (2 ^ 32) (aux0 s) && within 0 (2 ^ 32) (aux1 s) && within 0 (2 ^ 16) (data s)
  && within (- 2 ^ 15) (2 ^ 15) (delta0 s) && within (- 2 ^ 15) (2 ^ 15) (delta1 s) && within 0 (2 ^ 16) (epoch s).

Lemma typed_slots l : forallb slot_typedb l = true -> Forall slot_typed l.
Proof.
  rewrite forallb_forall, Forall_forall. intros H s Hs. apply list_elem_of_In, H in Hs. unfold slot_typedb in Hs.
  assert (forall lo hi z, within lo hi z = true -> lo <= z < hi) as Hw by (unfold within; intros lo hi z Hz; lia).
  rewrite !andb_true_iff in Hs. destruct_and!. constructor; by apply Hw.
Qed.

Lemma ready_pair {C : CRules} a ap x y bs : p0 ap = x -> p1 ap = y -> path_of bs = Ok (pair_lo ap) -> (length bs <= 126)%nat ->
  within 0 (2 ^ 32) x && within 0 (2 ^ 32) y && end_ok a x && end_ok a y = true -> pair_ready a ap.
Proof.
  intros <- <- Hp Hl H. rewrite !andb_true_iff in H. destruct H as [[[H1 H2] H3] H4].
  destruct (path_of_ok bs ltac:(lia)) as (lo & Hlo & Hw & Hb). rewrite Hp in Hlo. injection Hlo as <-.
  unfold within in H1, H2. constructor; try assumption; try (unfold u32_range; lia). rewrite <- bits_length, Hb by done. lia.
Qed.

Lemma Ok_inj {E A : Type} (x y : A) : Ok (E := E) x = Ok y -> x = y.
Proof. by injection 1. Qed.

(** The identity applied to itself, one redex. *)
Definition id_start : list Z * Net := or_else (reserve_all (set_frontier1 [] ReduceSpecs.id_net) 1) ([], net_new DeltaL 0).

Lemma id_frontier : exists e, frontier1 ReduceSpecs.id_net = [e] /\ p0 e.2 = P 1 Principal /\ p1 e.2 = P 3 Principal
  /\ path_of [] = Ok (pair_lo e.2).
Proof. eexists. split; [vm_compute; reflexivity|]. by vm_compute. Qed.

Lemma id_ready : gpu_ready (C := crules_L) 10 ReduceSpecs.id_net stats_default.
Proof.
  assert (reserve_all (set_frontier1 [] ReduceSpecs.id_net) (length (frontier1 ReduceSpecs.id_net)) = Ok id_start) as Hres by (vm_compute; reflexivity).
  cbn [gpu_ready]. right. split.
  - intros bases n1 H. rewrite Hres in H. apply Ok_inj in H.
    assert (bases = id_start.1 /\ n1 = id_start.2) as [-> ->] by (rewrite H; split; reflexivity). clear H Hres.
    destruct id_frontier as (e & Hf & A & B & Hp). split; [split| |vm_compute; reflexivity]; rewrite ?Hf, ?fmap_cons.
    + apply Forall_cons. split; [|by apply Forall_nil]. apply (ready_pair _ _ _ _ [] A B Hp); [cbn; lia|]. vm_compute. reflexivity.
    + apply typed_slots. vm_compute. reflexivity.
    + cbn. unfold MAX_BATCH. lia.
    + vm_compute. discriminate.
    + apply Forall_cons. split; [|by apply Forall_nil]. rewrite A, B. vm_compute. reflexivity.
  - clear Hres. intros n2 st2 H. left.
    assert (exists m st, run_batch (C := crules_L) ReduceSpecs.id_net stats_default = Ok (m, st) /\ frontier1 m = []) as (m & st & Hm & Hf).
    { eexists _, _. split; vm_compute; reflexivity. }
    rewrite Hm in H. apply Ok_inj, (f_equal fst) in H. cbn [fst] in H. rewrite <- H. exact Hf.
Qed.

Lemma gpu_is_parallel_witness : runs_shader emulated /\ gpu_ready (C := crules_L) 10 ReduceSpecs.id_net stats_default
  /\ sched_normalize (C := crules_L) (Scheduler := GpuScheduler (Some (Some emulated))) 10 ReduceSpecs.id_net
     = sched_normalize (C := crules_L) (Scheduler := ParallelScheduler 2 2) 10 ReduceSpecs.id_net.
Proof.
  split; [exact emulated_runs|]. split; [exact id_ready|].
  exact (gpu_is_parallel (C := crules_L) emulated 10 ReduceSpecs.id_net 2 2 emulated_runs id_ready).
Defined.

Definition connects_of (r : res DnxError (list WorkerOutput)) : option (list (PortId * PortId * LOPath)) :=
  match r with Ok [o] => Some (connects o) | _ => None end.

(** The commutation of two replicators: the shader gives two of the new
    redexes each other's path. *)
Lemma r7_paths_exchanged : exists bases n1 c0 c1 c2 c3 c4 c7 p q x y l01 l10,
  reserve_all (set_frontier1 [] reps_net) 1 = Ok (bases, n1)
  /\ connects_of (run_gpu_batch emulated ((fun kp => triple kp.2) <$> frontier1 reps_net) (encode_gpu (arena n1)) bases)
     = Some [c0; c1; c2; c3; c4; (p, q, l10); (x, y, l01); c7]
  /\ connects_of (mapMr (fun kp => worker (C := crules_L) (arena n1) kp.2 (hd 0 bases)) (frontier1 reps_net))
     = Some [c0; c1; c2; c3; c4; (p, q, l01); (x, y, l10); c7]
  /\ path_of [false; true] = Ok l01 /\ path_of [true; false] = Ok l10.
Proof. do 14 eexists. split; [vm_compute; reflexivity|]. split; [vm_compute; reflexivity|]. by vm_compute. Qed.

(** Below depth 128 the shader has lost the path: the next turn to the right
    is marked in a bit of the limb that was full. *)
Lemma deep_path_lost : exists lo p, path_of (replicate 128 false) = Ok lo /\ extend_right lo = Ok p
  /\ let l := lo_right (lo4_of lo) in
     hot p = 2 ^ 127 /\ len p = 1 /\ from_gpu_bits (lo_hi l) (lo_m1 l) (lo_m0 l) (lo_lo l) (as_u8 (lo_len l)) = mk_lopath (2 ^ 31) None None None 129.
Proof. eexists _, _. split; [vm_compute; reflexivity|]. split; [vm_compute; reflexivity|]. by vm_compute. Qed.

Lemma as_u32_le z : 0 <= z -> 0 <= as_u32 z <= z.
Proof. intros Hz. pose proof (as_u32_range z) as Hr. unfold u32_range in Hr. split; [lia|]. apply Z.mod_le; lia. Qed.

Definition bufs_u32 (d : AmBuffers) : Prop := (forall k, u32_range (b_a d k)) /\ (forall k, u32_range (b_b d k)).

(** One pass, from counters at zero. *)
Lemma am_pass_step ping groups d n : bufs_u32 d -> b_counters d = (n, 0, 0) ->
  let d1 := am_pass ping groups d in
  exists out fired, b_counters d1 = (n, out, fired) /\ bufs_u32 d1 /\ 0 <= fired
    /\ fired + Z.of_nat (unretired (b_arena d1)) <= Z.of_nat (unretired (b_arena d))
    /\ (out = 0 \/ (unretired (b_arena d1) < unretired (b_arena d))%nat).
Proof.
  intros [Ha Hb] Hc. unfold am_pass. rewrite Hc. cbv zeta. unfold threads_in_order.
  set (st0 := mk_am (b_arena d) (if ping then b_b d else b_a d) 0 0).
  destruct (am_threads (if ping then b_a d else b_b d) n (seqZ 0 (groups * 128)) ltac:(by destruct ping) st0) as (U & F & S & O & _);
    [subst st0; cbn; by destruct ping|done|].
  eexists _, _. split; [reflexivity|]. split; [split; cbn [b_a b_b]; destruct ping; done|]. split; [done|]. split; [exact S|exact O].
Qed.

Lemma passes_end fuel : forall ping n c total d, bufs_u32 d -> b_counters d = (c, 0, 0) -> (unretired (b_arena d) < fuel)%nat ->
  exists t d', run_loop_from put_counters am_pass get_counters fuel ping n total d = Ok (t, d')
    /\ total <= t <= total + Z.of_nat (unretired (b_arena d)).
Proof.
  induction fuel as [|fuel IH]; intros ping n c total d Hu Hc Hk; [lia|]. cbn [run_loop_from].
  destruct (n =? 0); [exists total, d; split; [done|lia]|].
  destruct (am_pass_step ping (div_ceil n 128) d c Hu Hc) as (out & fired & Hc1 & Hu1 & Hf & Hs & Ho).
  set (d1 := am_pass ping (div_ceil n 128) d) in *.
  assert (get_counters d1 = Some (words_to_bytes [c; out; fired; 0])) as -> by (unfold get_counters; by rewrite Hc1).
  cbn [ok_or mbind res_bind]. rewrite bytes_words.
  change (index (as_u32 <$> [c; out; fired; 0]) 1) with (Ok (E := DnxError) (as_u32 out)).
  change (index (as_u32 <$> [c; out; fired; 0]) 2) with (Ok (E := DnxError) (as_u32 fired)). cbn [mbind res_bind].
  pose proof (as_u32_le fired Hf) as Hfu. destruct (Z.eqb_spec (as_u32 out) 0) as [H0|H0]; [eexists _, _; split; [done|lia]|].
  destruct Ho as [-> |Ho]; [done|]. set (d2 := put_counters (words_to_bytes [as_u32 out; 0; 0; 0]) d1).
  assert (b_counters d2 = (as_u32 (as_u32 out), 0, 0) /\ bufs_u32 d2 /\ b_arena d2 = b_arena d1) as (Hc2 & Hu2 & Ha2).
  { subst d2. unfold put_counters. rewrite bytes_words. split; [done|]. split; [exact Hu1|done]. }
  destruct (IH (negb ping) (as_u32 out) _ (total + as_u32 fired) d2 Hu2 Hc2) as (t & d' & -> & Ht); [rewrite Ha2; lia|].
  exists t, d'. split; [done|]. rewrite Ha2 in Ht. lia.
Qed.

Lemma bytes_words_u32 bs : Forall u32_range (bytes_to_words bs).
Proof.
  remember (length bs) as l eqn:Hl. revert bs Hl. induction l as [l IH] using lt_wf_ind. intros bs ->.
  destruct bs as [|a [|b [|c [|e bs]]]]; try constructor.
  - exact (le_val_range [a; b; c; e]).
  - eapply IH; [|reflexivity]. cbn. lia.
Qed.

Lemma upload_u32 bs m : (forall k, u32_range (m k)) -> forall k, u32_range (upload bs m k).
Proof.
  intros Hm k. unfold upload. destruct (k <? 0); [done|]. destruct (bytes_to_words bs !! Z.to_nat k) as [w|] eqn:Hw; [|apply Hm].
  pose proof (bytes_words_u32 bs) as H. rewrite Forall_lookup in H. by apply (H (Z.to_nat k) w).
Qed.

(** The amortized run of a net that fits the buffers ends, after at most as
    many passes as the arena has slots not retired, and counts at most one
    interaction for each. *)
Theorem amortized_ends (n : Net) (d : AmBuffers) : bufs_u32 d ->
  32 * Z.of_nat (length (slots (arena n))) <= MAX_ARENA_AM -> Z.of_nat (length (frontier1 n)) <= MAX_PAIRS ->
  let k := unretired (upload (words_to_bytes (encode_arena_gpu n)) (b_arena d)) in
  exists t d', normalize_r4 put_arena put_frontier put_counters am_pass get_counters (S k) n d = Ok (t, d') /\ 0 <= t <= Z.of_nat k.
Proof.
  intros [Ha Hb] Hs Hp k. unfold normalize_r4. destruct (encode_frontier_gpu n) as [|p ps] eqn:Hf; [exists 0, d; split; [done|lia]|].
  rewrite <- Hf. unfold run_r4_raw. destruct (as_u32 _ =? 0); [exists 0, d; split; [done|lia]|].
  destruct (Z.ltb_spec MAX_ARENA_AM (Z.of_nat (length (words_to_bytes (encode_arena_gpu n))))) as [H|_].
  { exfalso. unfold encode_arena_gpu, encode_gpu in H. rewrite words_length, (concat_width_length _ 8) in H by done. lia. }
  destruct (Z.ltb_spec (MAX_PAIRS * 32) (Z.of_nat (length (encode_pairs_am (encode_frontier_gpu n))))) as [H|_].
  { exfalso. unfold encode_pairs_am in H. rewrite (concat_width_length _ 32) in H; [unfold encode_frontier_gpu in H; rewrite length_fmap in H; lia|].
    intros [[[? ?] [[[? ?] ?] ?]] ?]. apply words_length. }
  cbn [orb]. unfold run_loop.
  set (d1 := put_counters _ (put_frontier _ (put_arena _ d))).
  assert (exists c, b_counters d1 = (c, 0, 0) /\ bufs_u32 d1 /\ b_arena d1 = upload (words_to_bytes (encode_arena_gpu n)) (b_arena d)) as (c & Hc & Hu & Har).
  { subst d1. unfold put_counters. rewrite bytes_words. eexists. split; [reflexivity|]. split; [|done]. split; [|done]. by apply upload_u32. }
  destruct (passes_end (S k) true (as_u32 (Z.of_nat (length (encode_frontier_gpu n)))) c 0 d1 Hu Hc) as (t & d' & He & Ht); [rewrite Har; subst k; lia|].
  exists t, d'. split; [exact He|]. rewrite Har in Ht. subst k. lia.
Qed.

(** One interaction for the identity applied to itself; the arena that the
    device has reduced is not read back. *)
Lemma amortized_id : match normalize_r4 put_arena put_frontier put_counters am_pass get_counters 5 ReduceSpecs.id_net
    (mk_bufs (fun _ => 0) (fun _ => 0) (fun _ => 0) (0, 0, 0)) with
  | Ok (t, d) => t = 1 /\ am_slot_tag (b_arena d) 1 = RETIRED_TAG
  | _ => False
  end.
Proof. vm_compute. by split. Qed.
